(* ===== verification/_CoqProject ===== *)
-Q . S2P
Prelude.v
Types.v
Bytes.v
Context.v
Starknet.v
StateMachine.v
Agreement.v
VoteKeeper.v
ProposalKeeper.v
Driver.v
DriverFacts.v
DriverVotes.v
DriverDecisions.v
DriverPanics.v
DriverHeight.v
Cluster.v
Verify.v
DriverCertificates.v
BTree.v
BoundedQueue.v
Coroutine.v
ConsensusTypes.v
TestContext.v
FullProposal.v
Consensus.v
ConsensusLogic.v
ConsensusFacts.v
Node.v
NodeRuns.v
Wal.v
WalFacts.v
EngineWal.v
Scoring.v
SyncTypes.v
Sync.v
SyncWindows.v
SyncFacts.v
SyncSafety.v
SyncLiveness.v
SyncResponses.v
OutputPort.v
Timers.v
Network.v
Discovery.v
DiscoveryFacts.v
DiscoveryRuns.v
Streaming.v
StreamingFacts.v
StarknetTypes.v
EngineNetwork.v
StarknetCodec.v
Borsh.v
EngineNetworkFacts.v
StarknetCodecFacts.v
StarknetStores.v
StarknetMempool.v
StarknetHost.v
StarknetHostFacts.v
NetworkRuns.v
StarknetRuns.v
BorshRuns.v
EngineSync.v
EngineSyncFacts.v
SyncRuns.v
EngineConsensus.v
EngineConsensusFacts.v
EngineConsensusRuns.v
ChannelApp.v
ChannelAppFacts.v
ChannelAppRuns.v
