(* ===== verification/Prelude.v ===== *)
(** * Malachite: a verification development

    Malachite is a Byzantine fault tolerant consensus engine in Rust (crates
    under src/code/crates). This library is a shallow embedding of its
    consensus, logging, value sync, network and peer discovery code, from the
    round state machine up to the actors of the engine and two applications on
    top of them (src/code/examples/channel and the Starknet host), with the
    theorems that make each part correct and those that hold of their
    composition.

    ** The program and its model

    A node decides one value per height, in rounds of propose, prevote and
    precommit. Its parts, from the inside out:

    - Types and contexts. Types.v and Context.v model core-types: rounds,
      votes, thresholds, certificates, and the trait [Context] as a class, with
      what its documentation promises in [ContextLaws]. Starknet.v
      (starknet/p2p-types) and TestContext.v (test/src) are its two instances.
      Bytes.v and BTree.v are byte strings and ordered maps.
    - The round state machine (core-state-machine): StateMachine.v, [apply].
      Agreement.v puts it into a network with Byzantine validators.
    - The vote keeper (core-votekeeper): VoteKeeper.v. The proposal keeper
      (core-driver/src/proposal_keeper.rs): ProposalKeeper.v.
    - The driver of a height (core-driver): Driver.v, modules [Driver] (data
      and lookups), [Mux] (mux.rs) and [Process] (driver.rs, from [process] on).
      DriverFacts.v, DriverVotes.v, DriverDecisions.v, DriverPanics.v,
      DriverHeight.v and DriverCertificates.v hold its theorems; Cluster.v is a
      network of drivers.
    - The verification of certificates (signing/src/ext.rs): Verify.v, over a
      signing provider.
    - The consensus core (core-consensus): ConsensusTypes.v (inputs, effects,
      errors), FullProposal.v, BoundedQueue.v, and Consensus.v with the state
      of a node ([CState]) and one definition for each handler.
      ConsensusFacts.v and Node.v hold its theorems, NodeRuns.v its runs.
    - The write-ahead log (crate wal and engine/src/wal): Wal.v, WalFacts.v and,
      for the entries, the thread and the actor, EngineWal.v.
    - Value sync (crate sync): Scoring.v, SyncTypes.v, Sync.v; its theorems in
      SyncWindows.v, SyncFacts.v, SyncSafety.v, SyncLiveness.v and
      SyncResponses.v.
    - Proposal part streams (engine/src/util/streaming.rs and the applications'
      streaming.rs): Streaming.v, StreamingFacts.v. Timers
      (engine/src/util/timers.rs): Timers.v. The ports over which actors report
      to each other (engine/src/util/output_port.rs): OutputPort.v.
    - Borsh serialization (ser/borsh.rs of core-types, core-consensus, sync,
      peer and engine): Borsh.v, BorshRuns.v.
    - The network task (crate network): Network.v; the network actor
      (engine/src/network.rs): EngineNetwork.v; both together:
      EngineNetworkFacts.v, NetworkRuns.v.
    - The sync actor (engine/src/sync.rs): EngineSync.v, EngineSyncFacts.v,
      SyncRuns.v. The consensus actor (engine/src/consensus.rs):
      EngineConsensus.v, EngineConsensusFacts.v, EngineConsensusRuns.v.
    - Peer discovery (crate discovery), which the network task calls:
      Discovery.v, DiscoveryFacts.v, DiscoveryRuns.v.
    - The example application (examples/channel/src), a host of the engine:
      ChannelApp.v with its store, its state and the loop over the engine's
      messages; ChannelAppFacts.v and ChannelAppRuns.v.
    - The Starknet host (starknet/host, starknet/p2p-types, proto, peer,
      app/src/part_store.rs), the other host: StarknetTypes.v (messages and
      their protobuf form), StarknetCodec.v (codec.rs, the signing provider, peer
      identifiers), StarknetStores.v (the part store and the block store),
      StarknetMempool.v (the mempool, its network, the generator of load) and
      StarknetHost.v (the task that builds a proposal, the host's state, every
      message of the actor). Their theorems are in StarknetCodecFacts.v, at the
      end of StarknetMempool.v and in StarknetHostFacts.v; StarknetRuns.v has
      keys, hashes and a wire format for the runs.

    The actors interact by messages. The consensus actor runs the consensus
    core and carries out its effects: it appends to the log, publishes through
    the network actor, asks the host for values and tells sync what was decided.
    The network actor reports events, of one type [NetworkEvent], to the
    consensus and sync actors; the sync actor hands fetched values to the
    consensus actor.

    ** Conventions

    A function that may panic returns an [outcome]; one that may fail returns a
    sum. Unsigned integers are [N]; [+], [-] and [*] on them panic outside of
    their width, because the workspace sets overflow-checks. A method that
    takes [&mut self] returns the new state. The consensus core, value sync and
    the actors are coroutines (Coroutine.v): trees that yield an effect and
    continue with the answer, over a state that survives errors. A call to
    another part is an effect, and theorems quantify over the answers: [wp]
    covers every run against a class of hosts, [execute] runs against one host.
    What is not code of the repository (signatures, hashes, checksums,
    compression, the wire format of protobuf messages, channels, the swarm, the
    transport between two nodes, clocks, random numbers) is an argument or a
    class, with the laws that its documentation states. The messages that prost generates from .proto files
    are records whose fields of message type are optional.

    ** What the theorems show

    - Safety of voting: no two honest nodes of a network decide differently
      (Agreement.v); a driver, a node and the consensus actor never vote twice
      in a round of a height, over their whole life, as long as no height is
      started again (DriverVotes.v, Node.v, EngineConsensusFacts.v); they decide
      once and on a verified certificate; votes are verified before they are
      counted, and handed to the log before they are published.
    - The keepers: tallies are exact, quorums are unique, and [apply_vote]
      refines a specification that counts each validator once; proposals and
      their evidence, full proposals and the bounded queue agree with reference
      definitions.
    - Panics: the driver never panics under its caller's contract
      (DriverPanics.v), and window computation and response handling of sync
      do not either below the last height.
    - Certificates: verification accepts exactly the certificates it should,
      and those that a driver makes are accepted.
    - The log: it refines an abstract log through appends, restarts, reopenings
      and crashes of each of them; appends are atomic; entries round-trip; what
      the actor has acknowledged is replayed.
    - Value sync: requests are disjoint, bounded, in order and answered at most
      once; requesting terminates and makes progress; what one node serves
      reaches the consensus actor of another.
    - Streams, timers and the network: parts are reassembled in order, whatever
      is repeated; only current timers fire; what is published is delivered
      unchanged to the nodes that have subscribed; responses
      answer the request they were asked for; a port delivers what is published,
      in order, to every subscriber that keeps up; what is serialized with Borsh
      is read back.
    - Peer discovery: peers, connections, dials and requests stay within their
      limits, and a peers response tells exactly what is known.
    - The application: a streamed proposal is assembled by the other nodes as it
      was; a value that was built is proposed again after a restart; a committed
      value is served for as long as the history goes back; the validators
      rotate.
    - The Starknet host: a proposal is built in finitely many turns, within the
      size of a block, and assembled by the hosts that receive its parts as the
      same, valid value; a value that was built is proposed again; a decided
      block is stored and served; the mempool is bounded. What a node sends over
      its codec arrives unchanged at another one, and whatever a peer sends, the
      messages that are reported are well-formed.
    - Flaws, as runs of the model: agreement breaks with an equivocating
      proposer (Cluster.v); a height that is started again is voted on again
      (DriverVotes.v, NodeRuns.v, EngineConsensusRuns.v); forged votes in round certificates are counted
      (NodeRuns.v); a crash after a polka certificate makes a node vote twice
      (EngineConsensusRuns.v); one message stops the sync actor
      (EngineSyncFacts.v); the log has crashes it does not survive (WalFacts.v);
      strangers take all inbound slots and persistent peers are given up
      (DiscoveryRuns.v); a proposer can panic the application
      (ChannelAppFacts.v); one vote panics the network actor of a Starknet node
      (StarknetCodecFacts.v), its host serves synced blocks without their
      transactions (StarknetHostFacts.v) and takes a proposal for invalid that
      another peer sends again (StarknetRuns.v).

    ** Bounds and fuel

    - [Process.drain] has fuel 5; [process_drains_pending] shows that no input
      is left, since the chain of pending inputs is shorter.
    - The handlers of Consensus.v take the depth of the recursion through
      [apply_driver_input] as fuel. The theorems about nodes and about the
      consensus actor are about every effect that is yielded and hold for every
      fuel. Replaying buffered inputs needs a depth of two calls of
      [handle_input], because a buffered input never starts a height.
    - Scanning and reading the log take the length of the file as fuel: every
      entry takes at least one byte.
    - [Sync.request_loop] may really run forever; a fuel above batch size times
      parallel requests is enough when the network accepts requests
      ([sync_makes_progress]). [SyncActor.fetch_values] needs one more than the
      number of requested heights.
    - [ConsensusActor.replay_buffered] takes one turn more than there are
      buffered messages: each turn takes one of them out.
    - [bucket_cycle], the round robin over the Kademlia table, takes as many
      passes as candidates are wanted: with every peer once in the table each
      pass adds one ([kademlia_select_sound]).
    - [Build.reap_loop], the loop that fills a block, takes one turn more than
      the block has bytes: every batch but the last has a byte at least
      ([build_terminates]). The loops of the generator of load run for ever; no
      theorem needs them to end.
    - [factor_loop] takes one turn more than the value: the difference of what
      is left to factor and of the divisor gets smaller ([factor_value_spec]).

    ** Not modelled

    Logging, tracing and metrics (except the counters that value sync reads
    back); spawning, supervision and the runtime of the actors (ractor, tokio),
    and with them the start of nodes (node.rs, spawn.rs) and the connector of the
    channel application, which forwards each message and keeps no state; the
    libp2p swarm and transports, which are effects and events; serde, and the
    code that prost and borsh generate; the cryptographic backends; the simulated
    execution of transactions and the delays of the Starknet host; command-line
    tools, configuration files other than the timeouts and the load, and test
    frameworks. None of these has protocol state of its own. *)

From Stdlib Require Export NArith ZArith Lia.
From stdpp Require Export base tactics numbers option gmap strings list.

#[global] Set Default Goal Selector "!".

(** ** Outcomes

    A Rust function that may panic ([expect], [assert!], [assert_eq!],
    [panic!], or an arithmetic operator under [overflow-checks = true], which
    the workspace's release profile sets) returns an [outcome]. *)

Inductive outcome (A : Type) : Type :=
  | Ret (a : A)
  | Panic (why : string).
Arguments Ret {A} a.
Arguments Panic {A} why.

#[global] Instance outcome_ret : MRet outcome := fun A a => Ret a.
#[global] Instance outcome_bind : MBind outcome := fun A B f m =>
  match m with Ret a => f a | Panic w => Panic w end.
#[global] Instance outcome_fmap : FMap outcome := fun A B f m =>
  match m with Ret a => Ret (f a) | Panic w => Panic w end.

#[global] Instance outcome_eq_dec {A} `{EqDecision A} : EqDecision (outcome A).
Proof. solve_decision. Defined.

(** [Option::expect]. *)
Definition expect {A} (o : option A) (why : string) : outcome A :=
  match o with Some a => Ret a | None => Panic why end.

(** [assert!]. *)
Definition assert_that (b : bool) (why : string) : outcome unit :=
  if b then Ret tt else Panic why.

(** [m] returns a value. *)
Definition no_panic {A} (m : outcome A) : Prop := exists a, m = Ret a.

Lemma Ret_inj {A} (a b : A) : Ret a = Ret b -> a = b.
Proof. by intros [=]. Qed.

Section outcome_lemmas.
Context {A B : Type}.
Implicit Types (m : outcome A) (f : A -> outcome B).

Lemma bind_Ret_inv m f b :
  m ≫= f = Ret b <-> exists a, m = Ret a /\ f a = Ret b.
Proof. destruct m; cbn; naive_solver. Qed.

Lemma fmap_Ret_inv m (g : A -> B) b :
  g <$> m = Ret b <-> exists a, m = Ret a /\ b = g a.
Proof. destruct m; cbn; naive_solver. Qed.

Lemma no_panic_Ret (a : A) : no_panic (Ret a).
Proof. by exists a. Qed.

Lemma no_panic_bind m f :
  no_panic m -> (forall a, m = Ret a -> no_panic (f a)) -> no_panic (m ≫= f).
Proof. intros [a ->] Hf. by apply Hf. Qed.

(** A computation that ends by returning a function of [m]'s result. *)
Lemma no_panic_bind_Ret m (g : A -> B) : no_panic (x ← m; Ret (g x)) <-> no_panic m.
Proof. unfold no_panic. destruct m; cbn; naive_solver. Qed.

Lemma no_panic_assert b why : b = true -> no_panic (assert_that b why).
Proof. intros ->. by eexists. Qed.

Lemma expect_Ret_inv (o : option A) why a : expect o why = Ret a <-> o = Some a.
Proof. destruct o; cbn; naive_solver. Qed.

Lemma assert_that_Ret_inv b why u : assert_that b why = Ret u <-> b = true.
Proof. destruct u, b; cbn; naive_solver. Qed.

End outcome_lemmas.

(** The value of a computation, and whether there is one: concrete runs are
    evaluated through [is_ret], a boolean. *)
Definition is_ret {A} (m : outcome A) : bool :=
  match m with Ret _ => true | Panic _ => false end.
Definition get_ret {A} (d : A) (m : outcome A) : A :=
  match m with Ret a => a | Panic _ => d end.

Lemma is_ret_eq {A} (d : A) m : is_ret m = true -> m = Ret (get_ret d m).
Proof. by destruct m. Qed.

Lemma is_ret_pair {A B} (d : A * B) m :
  is_ret m = true -> m = Ret ((get_ret d m).1, (get_ret d m).2).
Proof. by destruct m as [[]|]. Qed.

(** The invariants of a computation's results: [m] either panics or returns
    a value satisfying [P]. *)
Definition post {A} (P : A -> Prop) (m : outcome A) : Prop :=
  forall a, m = Ret a -> P a.

Lemma post_Ret {A} (P : A -> Prop) a : P a -> post P (Ret a).
Proof. intros H b [= <-]. exact H. Qed.

Lemma post_bind {A B} (P : A -> Prop) (Q : B -> Prop) (m : outcome A) f :
  post P m -> (forall a, P a -> post Q (f a)) -> post Q (m ≫= f).
Proof.
  intros Hm Hf b (a & Ha & Hb)%bind_Ret_inv. by eapply Hf; [apply Hm|].
Qed.

Lemma post_weaken {A} (P Q : A -> Prop) m :
  post P m -> (forall a, P a -> Q a) -> post Q m.
Proof. intros Hm HPQ a Ha. by apply HPQ, Hm. Qed.

Lemma post_True {A} (m : outcome A) : post (fun _ => True) m.
Proof. done. Qed.

(** The lemmas that close the common goals on outcomes and list membership. *)
Create HintDb malachite.
#[export] Hint Resolve no_panic_Ret no_panic_assert post_Ret post_True : malachite.
#[export] Hint Resolve list_elem_of_here list_elem_of_further : malachite.

(** ** Machine integers

    Unsigned Rust integers are [N]; the width is where the arithmetic is. *)

Definition U32_MAX : N := 4294967295.
Definition U64_MAX : N := 18446744073709551615.

(** [u64::checked_add], [checked_mul], [checked_div] and [checked_sub]. *)
Definition checked_add (a b : N) : option N :=
  if (a + b <=? U64_MAX)%N then Some (a + b)%N else None.
Definition checked_mul (a b : N) : option N :=
  if (a * b <=? U64_MAX)%N then Some (a * b)%N else None.
Definition checked_div (a b : N) : option N :=
  if (b =? 0)%N then None else Some (a / b)%N.
Definition checked_sub (a b : N) : option N :=
  if (b <=? a)%N then Some (a - b)%N else None.

(** [a + b] on [u64] and [u32], [a - b] and [a * b] on [u64], with overflow
    checks on. *)
Definition add_u64 (a b : N) : outcome N :=
  expect (checked_add a b) "attempt to add with overflow".
Definition add_u32 (a b : N) : outcome N :=
  if (a + b <=? U32_MAX)%N then Ret (a + b)%N
  else Panic "attempt to add with overflow".

Definition sub_u64 (a b : N) : outcome N :=
  expect (checked_sub a b) "attempt to subtract with overflow".
Definition mul_u64 (a b : N) : outcome N :=
  expect (checked_mul a b) "attempt to multiply with overflow".

(** Closes the two branches of a bounds check against its specification. *)
Ltac solve_bounded := intros;
  match goal with
  | |- context [(?x <=? ?y)%N] => destruct (N.leb_spec x y)
  end; split;
  [ intros [= <-]; split; [done|assumption] | by intros [-> _]
  | done | intros [_ ?]; lia ].

Lemma checked_add_Some a b c :
  checked_add a b = Some c <-> (c = a + b /\ a + b <= U64_MAX)%N.
Proof. unfold checked_add. solve_bounded. Qed.

Lemma checked_mul_Some a b c :
  checked_mul a b = Some c <-> (c = a * b /\ a * b <= U64_MAX)%N.
Proof. unfold checked_mul. solve_bounded. Qed.

Lemma add_u64_Ret a b c : add_u64 a b = Ret c <-> (c = a + b /\ a + b <= U64_MAX)%N.
Proof. unfold add_u64. by rewrite expect_Ret_inv, checked_add_Some. Qed.

Lemma checked_sub_Some a b c : checked_sub a b = Some c <-> (c = a - b /\ b <= a)%N.
Proof. unfold checked_sub. solve_bounded. Qed.

Lemma sub_u64_Ret a b c : sub_u64 a b = Ret c <-> (c = a - b /\ b <= a)%N.
Proof. unfold sub_u64. by rewrite expect_Ret_inv, checked_sub_Some. Qed.

Lemma mul_u64_Ret a b c : mul_u64 a b = Ret c <-> (c = a * b /\ a * b <= U64_MAX)%N.
Proof. unfold mul_u64. by rewrite expect_Ret_inv, checked_mul_Some. Qed.

Lemma add_u32_Ret a b c : add_u32 a b = Ret c <-> (c = a + b /\ a + b <= U32_MAX)%N.
Proof. unfold add_u32. solve_bounded. Qed.

(** Inverts the equations [m = Ret a] of the context into the facts that make
    each step of [m] return. *)
Ltac inv_ret :=
  repeat match goal with
  | H : mbind _ _ = Ret _ |- _ => apply bind_Ret_inv in H as (? & ? & H)
  | H : fmap _ _ = Ret _ |- _ => apply fmap_Ret_inv in H as (? & ? & H)
  | H : expect _ _ = Ret _ |- _ => apply expect_Ret_inv in H
  | H : assert_that _ _ = Ret _ |- _ => apply assert_that_Ret_inv in H
  | H : add_u64 _ _ = Ret _ |- _ => apply add_u64_Ret in H as [-> ?]
  | H : add_u32 _ _ = Ret _ |- _ => apply add_u32_Ret in H as [-> ?]
  | H : sub_u64 _ _ = Ret _ |- _ => apply sub_u64_Ret in H as [-> ?]
  | H : mul_u64 _ _ = Ret _ |- _ => apply mul_u64_Ret in H as [-> ?]
  | H : checked_mul _ _ = Some _ |- _ => apply checked_mul_Some in H as [-> ?]
  | H : checked_add _ _ = Some _ |- _ => apply checked_add_Some in H as [-> ?]
  | H : Ret _ = Ret _ |- _ => apply Ret_inj in H; subst
  | H : Panic _ = Ret _ |- _ => discriminate H
  end.

(** [Iterator::find_map]. *)
Fixpoint find_map {A B} (f : A -> option B) (l : list A) : option B :=
  match l with [] => None | x :: l => match f x with Some y => Some y | None => find_map f l end end.

(** Closes a closed equation by evaluating its sides, without normalising
    its type. *)
Ltac vm_refl :=
  match goal with |- @eq ?T ?x ?y => vm_cast_no_check (@eq_refl T y) end.

(** Closes a closed decidable proposition by evaluating its decision. *)
Ltac vm_decide :=
  match goal with |- ?P => apply (bool_decide_eq_true_1 P); vm_refl end.

(** ** Lists *)

Lemma elem_snoc {A} (x y : A) (l : list A) : x ∈ l ++ [y] <-> x ∈ l \/ x = y.
Proof. by rewrite elem_of_app, list_elem_of_singleton. Qed.

Lemma filter_snoc {A} (P : A -> Prop) `{forall x, Decision (P x)} (l : list A) (x : A) :
  filter P (l ++ [x]) = if decide (P x) then filter P l ++ [x] else filter P l.
Proof.
  rewrite list.filter_app; cbn.
  case_decide; [done|]. by rewrite app_nil_r.
Qed.

Lemma filter_all {A} (f : A -> bool) (l : list A) :
  (forall x, x ∈ l -> f x = true) -> List.filter f l = l.
Proof.
  induction l as [|x l IH]; cbn; intros Hl; [done|].
  rewrite Hl by apply list_elem_of_here. f_equal. apply IH. intros y Hy.
  by apply Hl, list_elem_of_further.
Qed.

(** ** Sums of weights *)

(** The sum of a list of [N]. *)
Fixpoint sumN (l : list N) : N :=
  match l with [] => 0 | x :: l => x + sumN l end%N.

(** An iterator's [sum], and the [for] loop that sums with [checked_add]: a
    left fold that panics with [why] when a partial sum leaves [u64]. *)
Fixpoint sum_from (why : string) (acc : N) (l : list N) : outcome N :=
  match l with
  | [] => Ret acc
  | w :: l => acc ← expect (checked_add acc w) why; sum_from why acc l
  end.
Definition sum_u64 (why : string) (l : list N) : outcome N := sum_from why 0 l.

Lemma sumN_app l k : sumN (l ++ k) = (sumN l + sumN k)%N.
Proof. induction l as [|x l IH]; cbn; [done|]. rewrite IH. lia. Qed.

#[global] Instance sumN_proper : Proper ((≡ₚ) ==> (=)) sumN.
Proof. intros l k Hlk. induction Hlk; cbn; lia. Qed.

Lemma sum_from_Ret why acc l s : (acc <= U64_MAX)%N ->
  sum_from why acc l = Ret s <-> (s = acc + sumN l /\ acc + sumN l <= U64_MAX)%N.
Proof.
  revert acc. induction l as [|w l IH]; intros acc Hacc; cbn.
  { rewrite N.add_0_r. split; [by intros [= <-]|by intros [-> _]]. }
  rewrite bind_Ret_inv. setoid_rewrite expect_Ret_inv.
  setoid_rewrite checked_add_Some. split.
  - intros (a & [-> Ha] & Hs). rewrite IH in Hs by done. lia.
  - intros [-> Hle]. exists (acc + w)%N. rewrite IH by lia. lia.
Qed.

Lemma sum_u64_Ret why l s :
  sum_u64 why l = Ret s <-> (s = sumN l /\ sumN l <= U64_MAX)%N.
Proof. unfold sum_u64. by rewrite sum_from_Ret. Qed.

(** The total weight of a list and of a finite set of keys. *)
Section weights.
Context {K : Type} `{Countable K}.
Implicit Types (w : K -> N) (l : list K) (S T : gset K).

Definition weight_list w l : N := sumN (w <$> l).
Definition weight_of w S : N := weight_list w (elements S).

Lemma weight_list_proper w l k : l ≡ₚ k -> weight_list w l = weight_list w k.
Proof. intros Hlk. unfold weight_list. by rewrite Hlk. Qed.

Lemma weight_of_empty w : weight_of w ∅ = 0%N.
Proof. unfold weight_of. by rewrite elements_empty. Qed.

Lemma weight_of_insert w x S :
  x ∉ S -> weight_of w ({[x]} ∪ S) = (w x + weight_of w S)%N.
Proof.
  intros Hx. unfold weight_of.
  by rewrite (weight_list_proper w _ _ (elements_union_singleton S x Hx)).
Qed.

Lemma weight_of_disj_union w S T :
  S ## T -> weight_of w (S ∪ T) = (weight_of w S + weight_of w T)%N.
Proof.
  intros HST. unfold weight_of.
  rewrite (weight_list_proper w _ _ (elements_disj_union S T HST)).
  unfold weight_list. by rewrite fmap_app, sumN_app.
Qed.

Lemma weight_of_mono w S T : S ⊆ T -> (weight_of w S <= weight_of w T)%N.
Proof.
  intros HST. rewrite (union_difference_L S T HST), weight_of_disj_union by set_solver.
  lia.
Qed.

(** Inclusion and exclusion. *)
Lemma weight_of_union_inter w S T :
  (weight_of w (S ∪ T) + weight_of w (S ∩ T) = weight_of w S + weight_of w T)%N.
Proof.
  replace (S ∪ T) with (S ∪ T ∖ S) by (apply set_eq; intros x; destruct (decide (x ∈ S)); set_solver).
  rewrite weight_of_disj_union by set_solver.
  rewrite <- N.add_assoc, <- weight_of_disj_union by set_solver.
  do 2 f_equal. apply set_eq. intros x. destruct (decide (x ∈ S)); set_solver.
Qed.

Lemma weight_of_ext w w' S :
  (forall x, x ∈ S -> w x = w' x) -> weight_of w S = weight_of w' S.
Proof.
  intros Hext. unfold weight_of, weight_list. f_equal. apply list_fmap_ext.
  intros i x Hx. apply Hext. apply elem_of_elements, list_elem_of_lookup. eauto.
Qed.

Lemma weight_of_zero S : weight_of (fun _ => 0%N) S = 0%N.
Proof. unfold weight_of, weight_list. by induction (elements S). Qed.

Lemma weight_of_delete w x S :
  x ∈ S -> weight_of w S = (w x + weight_of w (S ∖ {[x]}))%N.
Proof.
  intros Hx. rewrite <- weight_of_insert by set_solver.
  f_equal. apply set_eq. intros y. destruct (decide (y = x)); set_solver.
Qed.

Lemma weight_of_list_to_set w l :
  NoDup l -> weight_of w (list_to_set l) = weight_list w l.
Proof.
  intros Hl. unfold weight_of. apply weight_list_proper. by apply elements_list_to_set.
Qed.

End weights.

(** The sum of the values of a map: what iterating over [values()] adds up. *)
Section sum_values.
Context {K : Type} `{Countable K}.
Implicit Types (m : gmap K N) (k : K).

Definition sum_values m : N := sumN (map_to_list m).*2.

Lemma sum_values_empty : sum_values ∅ = 0%N.
Proof. unfold sum_values. by rewrite map_to_list_empty. Qed.

Lemma sum_values_insert_new m k n :
  m !! k = None -> sum_values (<[k := n]> m) = (n + sum_values m)%N.
Proof. intros Hk. unfold sum_values. by rewrite map_to_list_insert. Qed.

Lemma sum_values_insert m k n :
  (sum_values (<[k := n]> m) + default 0 (m !! k) = n + sum_values m)%N.
Proof.
  destruct (m !! k) as [x|] eqn:Hk; cbn; [|rewrite sum_values_insert_new by done; lia].
  rewrite <- insert_delete_eq, sum_values_insert_new by apply lookup_delete_eq.
  rewrite <- (insert_delete_id m k x Hk) at 2.
  rewrite sum_values_insert_new by apply lookup_delete_eq. lia.
Qed.

End sum_values.
