(* ===== verification/Types.v ===== *)
(** * Core data types

    The enumerations and structures of [core-types] that do not depend on the
    [Context]: [Round] (round.rs), [NilOrVal], [ValuePayload] and
    [ValueOrigin] (value.rs), [VoteType] (vote.rs), [Validity] (proposal.rs),
    [Timeout] (timeout.rs), [Threshold] and [ThresholdParams] (threshold.rs),
    with the order on rounds and the arithmetic of quorum thresholds. *)

From S2P Require Import Prelude.

(** ** Rounds (core-types/src/round.rs) *)

Module Round.

Inductive t : Type :=
  | Nil
  | Some (r : N).

#[global] Instance t_eq_dec : EqDecision t.
Proof. solve_decision. Defined.

Definition to_option (r : t) : option N :=
  match r with Nil => None | Some n => Datatypes.Some n end.
Definition of_option (o : option N) : t :=
  match o with None => Nil | Datatypes.Some n => Some n end.

#[global] Instance t_countable : Countable t.
Proof. refine (inj_countable' to_option of_option _). by intros []. Defined.

Definition ZERO : t := Some 0.
Definition new (round : N) : t := Some round.
Definition as_u32 (self : t) : option N := to_option self.

Definition as_i64 (self : t) : Z :=
  match self with Nil => -1 | Some r => Z.of_N r end.

Definition is_defined (self : t) : bool :=
  match self with Some _ => true | Nil => false end.
Definition is_nil (self : t) : bool :=
  match self with Nil => true | Some _ => false end.

Definition increment (self : t) : outcome t :=
  match self with
  | Nil => Ret (new 0)
  | Some r => r' ← add_u32 r 1; Ret (new r')
  end.

Definition or (self round : t) : t :=
  match self with Nil => round | Some _ => self end.
Definition or_else (self : t) (f : unit -> t) : t :=
  match self with Nil => f tt | Some _ => self end.

(** [impl From<Option<u32>>] and [impl From<i64>]; the cast [as u32] is
    exact on the range the assertion leaves. *)
Definition from_option (round : option N) : t :=
  match round with None => Nil | Datatypes.Some r => new r end.
Definition from_i64 (round : Z) : outcome t :=
  _ ← assert_that (round <=? Z.of_N U32_MAX)%Z "round <= u32::MAX";
  Ret (if (round <? 0)%Z then Nil else new (Z.to_N round)).

(** [impl Ord] and the comparison operators derived from it. *)
Definition cmp (self other : t) : comparison := (as_i64 self ?= as_i64 other)%Z.
Definition ltb (self other : t) : bool :=
  match cmp self other with Lt => true | _ => false end.
Definition leb (self other : t) : bool :=
  match cmp self other with Gt => false | _ => true end.

(** The order as a proposition. *)
Definition lt (r s : t) : Prop := (as_i64 r < as_i64 s)%Z.
Definition le (r s : t) : Prop := (as_i64 r <= as_i64 s)%Z.

(** The rounds a [u32] can hold. *)
Definition in_range (r : t) : Prop :=
  match r with Nil => True | Some n => (n <= U32_MAX)%N end.

Lemma as_i64_inj r s : as_i64 r = as_i64 s -> r = s.
Proof. destruct r, s; cbn; intros; try lia; [done|]. f_equal. lia. Qed.

Lemma as_i64_ge r : (-1 <= as_i64 r)%Z.
Proof. destruct r; cbn; lia. Qed.

Lemma ltb_lt r s : ltb r s = true <-> lt r s.
Proof. unfold ltb, cmp, lt. destruct (Z.compare_spec (as_i64 r) (as_i64 s)); split; done || lia. Qed.

Lemma ltb_ge r s : ltb r s = false <-> le s r.
Proof. unfold ltb, cmp, le. destruct (Z.compare_spec (as_i64 r) (as_i64 s)); split; done || lia. Qed.

Lemma leb_le r s : leb r s = true <-> le r s.
Proof. unfold leb, cmp, le. destruct (Z.compare_spec (as_i64 r) (as_i64 s)); split; done || lia. Qed.

Lemma leb_gt r s : leb r s = false <-> lt s r.
Proof. unfold leb, cmp, lt. destruct (Z.compare_spec (as_i64 r) (as_i64 s)); split; done || lia. Qed.

Lemma is_defined_le r : is_defined r = true <-> (0 <= as_i64 r)%Z.
Proof. destruct r; cbn; split; done || lia. Qed.

Lemma is_nil_eq r : is_nil r = true <-> r = Nil.
Proof. by destruct r. Qed.

Lemma increment_Ret r s : increment r = Ret s -> (as_i64 s = as_i64 r + 1)%Z.
Proof.
  destruct r as [|n]; cbn; [by intros [= <-]|].
  intros (m & [-> _]%add_u32_Ret & [= <-])%bind_Ret_inv. cbn. lia.
Qed.

Lemma lt_irrefl r : ~ lt r r.
Proof. unfold lt. lia. Qed.

#[global] Instance lt_dec r s : Decision (lt r s).
Proof. unfold lt. apply _. Defined.
#[global] Instance le_dec r s : Decision (le r s).
Proof. unfold le. apply _. Defined.

End Round.

(** Arithmetic on rounds: reflects the boolean comparisons into [Z] and calls
    [lia]. *)
Ltac round_lia :=
  repeat match goal with
  | H : Round.ltb _ _ = true |- _ => apply Round.ltb_lt in H
  | H : Round.ltb _ _ = false |- _ => apply Round.ltb_ge in H
  | H : Round.leb _ _ = true |- _ => apply Round.leb_le in H
  | H : Round.leb _ _ = false |- _ => apply Round.leb_gt in H
  | H : Round.is_defined _ = true |- _ => apply Round.is_defined_le in H
  | H : Round.increment _ = Ret _ |- _ => apply Round.increment_Ret in H
  | |- Round.ltb _ _ = true => apply Round.ltb_lt
  | |- Round.ltb _ _ = false => apply Round.ltb_ge
  | |- Round.leb _ _ = true => apply Round.leb_le
  | |- Round.leb _ _ = false => apply Round.leb_gt
  | |- @eq Round.t _ _ => apply Round.as_i64_inj
  end; unfold Round.lt, Round.le in *; lia.

(** ** Values and votes (core-types/src/value.rs, vote.rs, proposal.rs) *)

Module NilOrVal.

Inductive t (V : Type) : Type :=
  | Nil
  | Val (v : V).
Arguments Nil {V}.
Arguments Val {V} v.

#[global] Instance t_eq_dec {V} `{EqDecision V} : EqDecision (t V).
Proof. solve_decision. Defined.

#[global] Instance t_countable {V} `{Countable V} : Countable (t V).
Proof.
  refine (inj_countable'
    (fun x => match x with Nil => None | Val v => Some v end)
    (fun o => match o with None => Nil | Some v => Val v end) _).
  by intros [].
Defined.

Definition is_nil {V} (self : t V) : bool :=
  match self with Nil => true | Val _ => false end.
Definition is_val {V} (self : t V) : bool :=
  match self with Val _ => true | Nil => false end.
Definition map {V W} (f : V -> W) (self : t V) : t W :=
  match self with Nil => Nil | Val v => Val (f v) end.
Definition value_or_default {V} (default : V) (self : t V) : V :=
  match self with Nil => default | Val v => v end.

End NilOrVal.

Module VoteType.

Inductive t : Type := Prevote | Precommit.

#[global] Instance t_eq_dec : EqDecision t.
Proof. solve_decision. Defined.

End VoteType.

Module Validity.

Inductive t : Type := Valid | Invalid.

#[global] Instance t_eq_dec : EqDecision t.
Proof. solve_decision. Defined.

Definition is_valid (self : t) : bool := bool_decide (self = Valid).
Definition to_bool (self : t) : bool := is_valid self.
Definition from_bool (valid : bool) : t := if valid then Valid else Invalid.

End Validity.

Module ValuePayload.

Inductive t : Type := ProposalOnly | PartsOnly | ProposalAndParts.

Definition include_proposal (self : t) : bool :=
  match self with ProposalOnly | ProposalAndParts => true | PartsOnly => false end.
Definition include_parts (self : t) : bool :=
  match self with PartsOnly | ProposalAndParts => true | ProposalOnly => false end.
Definition parts_only (self : t) : bool :=
  match self with PartsOnly => true | _ => false end.
Definition proposal_only (self : t) : bool :=
  match self with ProposalOnly => true | _ => false end.

End ValuePayload.

(** ** Timeouts (core-types/src/timeout.rs) *)

Module TimeoutKind.

Inductive t : Type := Propose | Prevote | Precommit | Rebroadcast.

#[global] Instance t_eq_dec : EqDecision t.
Proof. solve_decision. Defined.

End TimeoutKind.

Module RoundTimeout.

Record t : Type := mk { kind : TimeoutKind.t; round : Round.t }.

#[global] Instance t_eq_dec : EqDecision t.
Proof. solve_decision. Defined.

Definition new (round : Round.t) (kind : TimeoutKind.t) : t := mk kind round.
Definition propose (round : Round.t) : t := new round TimeoutKind.Propose.
Definition prevote (round : Round.t) : t := new round TimeoutKind.Prevote.
Definition precommit (round : Round.t) : t := new round TimeoutKind.Precommit.
Definition rebroadcast (round : Round.t) : t := new round TimeoutKind.Rebroadcast.

End RoundTimeout.

(** ** Thresholds (core-types/src/threshold.rs) *)

Module Threshold.

Inductive t (V : Type) : Type :=
  | Unreached
  | Any
  | Nil
  | Value (v : V).
Arguments Unreached {V}.
Arguments Any {V}.
Arguments Nil {V}.
Arguments Value {V} v.

End Threshold.

Module ThresholdParam.

Record t : Type := new { numerator : N; denominator : N }.

Definition TWO_F_PLUS_ONE : t := new 2 3.
Definition F_PLUS_ONE : t := new 1 3.

Definition is_met (self : t) (weight total : N) : outcome bool :=
  lhs ← expect (checked_mul weight self.(denominator)) "attempt to multiply with overflow";
  rhs ← expect (checked_mul total self.(numerator)) "attempt to multiply with overflow";
  Ret (rhs <? lhs)%N.

Definition min_expected (self : t) (total : N) : outcome N :=
  x ← expect (checked_mul total self.(numerator)) "attempt to multiply with overflow";
  q ← expect (checked_div x self.(denominator)) "attempt to divide with overflow";
  add_u64 1 q.

(** The threshold as a predicate on unbounded naturals: strictly more than
    the fraction [numerator / denominator] of the total. *)
Definition met (self : t) (weight total : N) : Prop :=
  (total * self.(numerator) < weight * self.(denominator))%N.

Lemma is_met_Ret self weight total b :
  is_met self weight total = Ret b <->
    (weight * self.(denominator) <= U64_MAX /\ total * self.(numerator) <= U64_MAX)%N /\
    (b = true <-> met self weight total).
Proof.
  unfold is_met, met. split.
  - intros Hb. inv_ret. by rewrite N.ltb_lt.
  - intros [[? ?] Hb].
    rewrite (proj2 (checked_mul_Some weight _ _)) by done; cbn.
    rewrite (proj2 (checked_mul_Some total _ _)) by done; cbn.
    f_equal. apply Bool.eq_iff_eq_true. by rewrite N.ltb_lt, Hb.
Qed.

Lemma is_met_true self weight total :
  is_met self weight total = Ret true -> met self weight total.
Proof. rewrite is_met_Ret. naive_solver. Qed.

Lemma is_met_false self weight total :
  is_met self weight total = Ret false -> ~ met self weight total.
Proof. rewrite is_met_Ret. naive_solver. Qed.

(** Weights at most [total] with both products in range never panic. *)
Definition fits (self : t) (total : N) : Prop :=
  (total * self.(denominator) <= U64_MAX /\ total * self.(numerator) <= U64_MAX)%N.

#[global] Instance met_dec self weight total : Decision (met self weight total).
Proof. unfold met. apply _. Defined.

Lemma is_met_decide self weight total :
  fits self total -> (weight <= total)%N ->
  is_met self weight total = Ret (bool_decide (met self weight total)).
Proof.
  intros [Hd Hn] Hle.
  assert (weight * denominator self <= total * denominator self)%N by nia.
  apply is_met_Ret. rewrite bool_decide_eq_true. repeat split; lia || tauto.
Qed.

End ThresholdParam.

Module ThresholdParams.

Record t : Type := mk { quorum : ThresholdParam.t; honest : ThresholdParam.t }.

Definition default : t := mk ThresholdParam.TWO_F_PLUS_ONE ThresholdParam.F_PLUS_ONE.

(** Both thresholds evaluate without overflow on weights up to [total]. *)
Definition fits (self : t) (total : N) : Prop :=
  ThresholdParam.fits self.(quorum) total /\ ThresholdParam.fits self.(honest) total.

Lemma default_fits total : (3 * total <= U64_MAX)%N -> fits default total.
Proof. unfold fits, ThresholdParam.fits, default. cbn. lia. Qed.

End ThresholdParams.

(** The smallest weight accepted by [is_met] is [min_expected]. *)
Theorem min_expected_least (p : ThresholdParam.t) (total m weight : N) (b : bool)
  (Hm : ThresholdParam.min_expected p total = Ret m)
  (Hb : ThresholdParam.is_met p weight total = Ret b) :
  b = true <-> (m <= weight)%N.
Proof.
  unfold ThresholdParam.min_expected in Hm. inv_ret.
  apply ThresholdParam.is_met_Ret in Hb as [_ ->].
  match goal with H : checked_div _ _ = Some _ |- _ => unfold checked_div in H end.
  case_match eqn:Hd; simplify_eq. apply N.eqb_neq in Hd.
  unfold ThresholdParam.met. rewrite N.add_1_l, N.le_succ_l, (N.mul_comm weight).
  split; [apply N.Div0.div_lt_upper_bound|].
  intros Hlt. pose proof (N.mul_succ_div_gt (total * p.(ThresholdParam.numerator)) _ Hd).
  nia.
Qed.

(** The [i64] encoding of a round is faithful: decoding gives the round
    back, every defined round is encoded as its number and [Nil] below all of
    them, and the order of rounds is the order of the encodings. *)
Theorem round_i64_roundtrip (r s : Round.t) (Hr : Round.in_range r) :
  Round.from_i64 (Round.as_i64 r) = Ret r /\
  (Round.ltb r s = true <-> (Round.as_i64 r < Round.as_i64 s)%Z) /\
  (Round.cmp r s = Eq <-> r = s).
Proof.
  split_and!.
  - unfold Round.from_i64. destruct r as [|r]; [done|]. cbn [Round.in_range Round.as_i64] in *.
    rewrite (proj2 (Z.leb_le _ _)), (proj2 (Z.ltb_ge _ _)) by lia. cbn. unfold Round.new. by rewrite N2Z.id.
  - apply Round.ltb_lt.
  - unfold Round.cmp. rewrite Z.compare_eq_iff. split; [apply Round.as_i64_inj|by intros ->].
Qed.

