(* ===== verification/Bytes.v ===== *)
(** * Bytes

    Bytes, big-endian integers ([to_be_bytes], [from_be_bytes] and the
    [ReadBytesExt] methods of the byteorder crate that the engine uses for the
    same encoding), and byte slices addressed by 64-bit positions. *)

From Stdlib Require Export Strings.Byte.
From S2P Require Import Prelude.

Abbreviation bytes := (list byte).

#[global] Instance byte_eq_dec : EqDecision byte.
Proof. exact Byte.byte_eq_dec. Defined.

#[global] Instance byte_countable : Countable byte.
Proof.
  refine (inj_countable Byte.to_N Byte.of_N _). intros b. apply Byte.of_to_N.
Defined.

(** The low byte of a number: [v as u8]. *)
Definition byte_of (v : N) : byte :=
  match Byte.of_N (v mod 256) with Some b => b | None => x00 end.

Lemma to_N_byte_of v : Byte.to_N (byte_of v) = (v mod 256)%N.
Proof.
  unfold byte_of. destruct (Byte.of_N (v mod 256)) as [b|] eqn:Hb.
  - by apply Byte.to_of_N.
  - apply Byte.of_N_None_iff in Hb. pose proof (N.mod_lt v 256). lia.
Qed.

Lemma byte_of_to_N b : byte_of (Byte.to_N b) = b.
Proof. by destruct b. Qed.

Lemma to_N_lt b : (Byte.to_N b < 256)%N.
Proof. by destruct b. Qed.

(** ** Big-endian integers *)

(** The [n] low bytes of [v], most significant first. *)
Fixpoint to_be_bytes (n : nat) (v : N) : bytes :=
  match n with
  | O => []
  | S n => to_be_bytes n (v / 256) ++ [byte_of v]
  end.

Definition from_be_bytes (l : bytes) : N :=
  foldl (fun acc b => acc * 256 + Byte.to_N b)%N 0%N l.

Lemma length_to_be_bytes n v : length (to_be_bytes n v) = n.
Proof. revert v. induction n as [|n IH]; intros v; cbn; [done|]. rewrite length_app, IH. cbn. lia. Qed.

Lemma from_be_bytes_snoc l b : from_be_bytes (l ++ [b]) = (from_be_bytes l * 256 + Byte.to_N b)%N.
Proof. unfold from_be_bytes. by rewrite foldl_app. Qed.

Lemma from_to_be_bytes n v : (v < 256 ^ N.of_nat n)%N -> from_be_bytes (to_be_bytes n v) = v.
Proof.
  revert v. induction n as [|n IH]; intros v Hv; cbn [to_be_bytes].
  { cbn in Hv. unfold from_be_bytes. cbn. lia. }
  rewrite from_be_bytes_snoc, to_N_byte_of, IH.
  - rewrite N.mul_comm. symmetry. apply N.div_mod. lia.
  - rewrite Nat2N.inj_succ, N.pow_succ_r' in Hv. apply N.Div0.div_lt_upper_bound. lia.
Qed.

Lemma to_from_be_bytes l : to_be_bytes (length l) (from_be_bytes l) = l.
Proof.
  induction l as [|b l IH] using rev_ind; [done|].
  rewrite from_be_bytes_snoc, length_app, Nat.add_comm. cbn [length Nat.add to_be_bytes]. pose proof (to_N_lt b).
  rewrite N.div_add_l, (N.div_small (Byte.to_N b)), N.add_0_r, IH by done. do 2 f_equal.
  rewrite <- (byte_of_to_N b) at 2. unfold byte_of. by rewrite N.add_comm, N.Div0.mod_add.
Qed.

Lemma from_be_bytes_lt l : (from_be_bytes l < 256 ^ N.of_nat (length l))%N.
Proof.
  induction l as [|b l IH] using rev_ind; [done|].
  rewrite from_be_bytes_snoc, length_app, Nat2N.inj_add. cbn [length].
  rewrite N.pow_add_r. pose proof (to_N_lt b). cbn. lia.
Qed.

(** ** Slices *)

Definition size (l : bytes) : N := N.of_nat (length l).
Definition takeN (n : N) (l : bytes) : bytes := take (N.to_nat n) l.
Definition dropN (n : N) (l : bytes) : bytes := drop (N.to_nat n) l.

Lemma size_app l k : size (l ++ k) = (size l + size k)%N.
Proof. unfold size. rewrite length_app. lia. Qed.

Lemma size_to_be_bytes n v : size (to_be_bytes n v) = N.of_nat n.
Proof. unfold size. by rewrite length_to_be_bytes. Qed.

Lemma takeN_app l k : takeN (size l) (l ++ k) = l.
Proof. unfold takeN, size. rewrite Nat2N.id. apply take_app_length. Qed.

Lemma dropN_app l k : dropN (size l) (l ++ k) = k.
Proof. unfold dropN, size. rewrite Nat2N.id. apply drop_app_length. Qed.

Lemma takeN_all n l : (size l <= n)%N -> takeN n l = l.
Proof. unfold takeN, size. intros. apply take_ge. lia. Qed.

Lemma dropN_add n m l : dropN (n + m) l = dropN m (dropN n l).
Proof. unfold dropN. rewrite N2Nat.inj_add. by rewrite drop_drop. Qed.

Lemma size_takeN n l : size (takeN n l) = N.min n (size l).
Proof. unfold takeN, size. rewrite length_take. lia. Qed.

Lemma size_dropN n l : size (dropN n l) = (size l - n)%N.
Proof. unfold dropN, size. rewrite length_drop. lia. Qed.

Lemma take_drop_N n l : takeN n l ++ dropN n l = l.
Proof. apply take_drop. Qed.
