(* ===== verification/Context.v ===== *)
(** * The consensus context

    The [Context] trait of core-types/src/context.rs and the traits of its
    associated types ([Address], [Height], [Value], [Proposal], [Vote],
    [Validator], [ValidatorSet]) as one type class, with the documented
    behaviour the consensus core relies on as the class [ContextLaws]; signed
    messages (signed_message.rs) and certificates (certificate.rs). *)

From S2P Require Import Prelude Types.

(** ** The trait

    The methods' receiver [&self : &Ctx] is the instance. Types that are keys
    of a [BTreeMap] or [BTreeSet] are [Countable]; types compared with [==]
    are [EqDecision]. [total_voting_power], [select_proposer] and the height
    arithmetic may panic, so they return an [outcome]. *)

Class Context : Type := {
  Address : Type;
  Address_eq_dec :: EqDecision Address;
  Address_countable :: Countable Address;

  Height : Type;
  Height_eq_dec :: EqDecision Height;
  Height_countable :: Countable Height;
  Height_ZERO : Height;
  Height_ltb : Height -> Height -> bool;

  Value : Type;
  Value_eq_dec :: EqDecision Value;
  ValueId : Type;
  ValueId_eq_dec :: EqDecision ValueId;
  ValueId_countable :: Countable ValueId;
  value_id : Value -> ValueId;

  Signature : Type;
  Signature_eq_dec :: EqDecision Signature;
  PublicKey : Type;

  Proposal : Type;
  Proposal_eq_dec :: EqDecision Proposal;
  proposal_height : Proposal -> Height;
  proposal_round : Proposal -> Round.t;
  proposal_value : Proposal -> Value;
  proposal_pol_round : Proposal -> Round.t;
  proposal_address : Proposal -> Address;

  Vote : Type;
  Vote_eq_dec :: EqDecision Vote;
  vote_height : Vote -> Height;
  vote_round : Vote -> Round.t;
  vote_value : Vote -> NilOrVal.t ValueId;
  vote_type : Vote -> VoteType.t;
  vote_address : Vote -> Address;

  Validator : Type;
  validator_address : Validator -> Address;
  public_key : Validator -> PublicKey;
  voting_power : Validator -> N;

  ValidatorSet : Type;
  count : ValidatorSet -> nat;
  total_voting_power : ValidatorSet -> outcome N;
  get_by_address : ValidatorSet -> Address -> option Validator;
  get_by_index : ValidatorSet -> nat -> option Validator;

  select_proposer : ValidatorSet -> Height -> Round.t -> outcome Validator;
  new_proposal : Height -> Round.t -> Value -> Round.t -> Address -> Proposal;
  new_prevote : Height -> Round.t -> NilOrVal.t ValueId -> Address -> Vote;
  new_precommit : Height -> Round.t -> NilOrVal.t ValueId -> Address -> Vote;
}.

(** ** Height arithmetic (height.rs)

    The rest of the [Height] trait, which only value sync uses: the provided
    methods [increment] and [decrement] are the required ones at 1. *)
Class HeightArith `{Ctx : Context} : Type := {
  Height_increment_by : Height -> N -> outcome Height;
  Height_decrement_by : Height -> N -> option Height;
  Height_as_u64 : Height -> N;
}.

Definition Height_increment `{HeightArith} (h : Height) : outcome Height := Height_increment_by h 1.
Definition Height_decrement `{HeightArith} (h : Height) : option Height := Height_decrement_by h 1.

(** A height is a number of blocks: [as_u64] orders heights and tells them
    apart, and the arithmetic is that of numbers as long as it stays within
    them. *)
Class HeightLaws `{HeightArith} : Prop := {
  Height_as_u64_inj h1 h2 : Height_as_u64 h1 = Height_as_u64 h2 -> h1 = h2;
  Height_ltb_as_u64 h1 h2 : Height_ltb h1 h2 = (Height_as_u64 h1 <? Height_as_u64 h2)%N;
  Height_as_u64_ZERO : Height_as_u64 Height_ZERO = 0%N;
  Height_increment_by_spec h n : (Height_as_u64 h + n <= U64_MAX)%N ->
    exists h', Height_increment_by h n = Ret h' /\ Height_as_u64 h' = (Height_as_u64 h + n)%N;
  Height_increment_by_Ret h n h' :
    Height_increment_by h n = Ret h' -> Height_as_u64 h' = (Height_as_u64 h + n)%N;
  Height_increment_by_le h n h' :
    Height_increment_by h n = Ret h' -> (Height_as_u64 h' <= U64_MAX)%N;
  Height_decrement_by_spec h n : (n <= Height_as_u64 h)%N ->
    exists h', Height_decrement_by h n = Some h' /\ Height_as_u64 h' = (Height_as_u64 h - n)%N;
}.

(** The voting power [vs] gives to an address, 0 outside the set. *)
Definition power `{Ctx : Context} (vs : ValidatorSet) (a : Address) : N :=
  match get_by_address vs a with Some v => voting_power v | None => 0%N end.

(** ** The contract of the trait

    A constructor's accessors return its arguments; heights are strictly
    ordered; [get_by_address] returns a validator with that address; the
    powers of distinct addresses add up to at most the total, a [u64]. *)
Class ContextLaws `{Ctx : Context} : Prop := {
  new_proposal_spec h r v pr a :
    let p := new_proposal h r v pr a in
    proposal_height p = h /\ proposal_round p = r /\ proposal_value p = v /\
    proposal_pol_round p = pr /\ proposal_address p = a;
  new_prevote_spec h r v a :
    let w := new_prevote h r v a in
    vote_height w = h /\ vote_round w = r /\ vote_value w = v /\
    vote_type w = VoteType.Prevote /\ vote_address w = a;
  new_precommit_spec h r v a :
    let w := new_precommit h r v a in
    vote_height w = h /\ vote_round w = r /\ vote_value w = v /\
    vote_type w = VoteType.Precommit /\ vote_address w = a;
  Height_ltb_irrefl h : Height_ltb h h = false;
  Height_ltb_trans h1 h2 h3 :
    Height_ltb h1 h2 = true -> Height_ltb h2 h3 = true -> Height_ltb h1 h3 = true;
  get_by_address_spec vs a v : get_by_address vs a = Some v -> validator_address v = a;
  powers_le_total vs total (S : gset Address) :
    total_voting_power vs = Ret total -> (weight_of (power vs) S <= total)%N;
  total_in_range vs total : total_voting_power vs = Ret total -> (total <= U64_MAX)%N;
}.

(** ** Signed messages (signed_message.rs) *)

Module SignedMessage.

Record t {Ctx : Context} (Msg : Type) : Type := new {
  message : Msg;
  signature : Signature;
}.
Arguments new {Ctx Msg} message signature.
Arguments message {Ctx Msg} self : rename.
Arguments signature {Ctx Msg} self : rename.

#[global] Instance t_eq_dec `{Ctx : Context} {Msg} `{EqDecision Msg} : EqDecision (t Msg).
Proof. solve_decision. Defined.

Definition map `{Ctx : Context} {Msg NewMsg} (f : Msg -> NewMsg) (self : t Msg) : t NewMsg :=
  new (f self.(message)) self.(signature).

End SignedMessage.

Abbreviation SignedVote := (SignedMessage.t Vote).
Abbreviation SignedProposal := (SignedMessage.t Proposal).

(** [Deref]: the accessors of the message, on the signed message. *)
Definition sv_height `{Ctx : Context} (v : SignedVote) := vote_height v.(SignedMessage.message).
Definition sv_round `{Ctx : Context} (v : SignedVote) := vote_round v.(SignedMessage.message).
Definition sv_value `{Ctx : Context} (v : SignedVote) := vote_value v.(SignedMessage.message).
Definition sv_type `{Ctx : Context} (v : SignedVote) := vote_type v.(SignedMessage.message).
Definition sv_address `{Ctx : Context} (v : SignedVote) := vote_address v.(SignedMessage.message).
Definition sp_height `{Ctx : Context} (p : SignedProposal) := proposal_height p.(SignedMessage.message).
Definition sp_round `{Ctx : Context} (p : SignedProposal) := proposal_round p.(SignedMessage.message).
Definition sp_value `{Ctx : Context} (p : SignedProposal) := proposal_value p.(SignedMessage.message).
Definition sp_address `{Ctx : Context} (p : SignedProposal) := proposal_address p.(SignedMessage.message).

(** ** Certificates (certificate.rs) *)

Module CommitSignature.
Record t {Ctx : Context} : Type := new { address : Address; signature : Signature }.
Arguments new {Ctx} address signature.
#[global] Instance t_eq_dec `{Ctx : Context} : EqDecision t.
Proof. solve_decision. Defined.
End CommitSignature.

Module PolkaSignature.
Record t {Ctx : Context} : Type := new { address : Address; signature : Signature }.
Arguments new {Ctx} address signature.
#[global] Instance t_eq_dec `{Ctx : Context} : EqDecision t.
Proof. solve_decision. Defined.
End PolkaSignature.

Module CommitCertificate.
Record t {Ctx : Context} : Type := mk {
  height : Height;
  round : Round.t;
  value_id : ValueId;
  commit_signatures : list CommitSignature.t;
}.
Arguments mk {Ctx} height round value_id commit_signatures.

Definition new `{Ctx : Context} (height : Height) (round : Round.t) (value_id : ValueId)
    (commits : list SignedVote) : t :=
  mk height round value_id
    ((fun v => CommitSignature.new (sv_address v) v.(SignedMessage.signature)) <$>
     List.filter (fun v =>
       bool_decide (sv_value v = NilOrVal.Val value_id) &&
       bool_decide (sv_type v = VoteType.Precommit) &&
       bool_decide (sv_round v = round) &&
       bool_decide (sv_height v = height)) commits).
End CommitCertificate.

Module PolkaCertificate.
Record t {Ctx : Context} : Type := mk {
  height : Height;
  round : Round.t;
  value_id : ValueId;
  polka_signatures : list PolkaSignature.t;
}.
Arguments mk {Ctx} height round value_id polka_signatures.

Definition new `{Ctx : Context} (height : Height) (round : Round.t) (value_id : ValueId)
    (votes : list SignedVote) : t :=
  mk height round value_id
    ((fun v => PolkaSignature.new (sv_address v) v.(SignedMessage.signature)) <$>
     List.filter (fun v =>
       bool_decide (sv_value v = NilOrVal.Val value_id) &&
       bool_decide (sv_type v = VoteType.Prevote) &&
       bool_decide (sv_round v = round) &&
       bool_decide (sv_height v = height)) votes).
End PolkaCertificate.

Module RoundSignature.
Record t {Ctx : Context} : Type := new {
  vote_type : VoteType.t;
  value_id : NilOrVal.t ValueId;
  address : Address;
  signature : Signature;
}.
Arguments new {Ctx} vote_type value_id address signature.
#[global] Instance t_eq_dec `{Ctx : Context} : EqDecision t.
Proof. solve_decision. Defined.
End RoundSignature.

Module RoundCertificateType.
Inductive t : Type := Skip | Precommit.
#[global] Instance t_eq_dec : EqDecision t.
Proof. solve_decision. Defined.
End RoundCertificateType.

Module RoundCertificate.
Record t {Ctx : Context} : Type := mk {
  height : Height;
  round : Round.t;
  cert_type : RoundCertificateType.t;
  round_signatures : list RoundSignature.t;
}.
Arguments mk {Ctx} height round cert_type round_signatures.

Definition new_from_votes `{Ctx : Context} (height : Height) (round : Round.t)
    (cert_type : RoundCertificateType.t) (votes : list SignedVote) : t :=
  mk height round cert_type
    ((fun v => RoundSignature.new (sv_type v) (sv_value v) (sv_address v)
                 v.(SignedMessage.signature)) <$> votes).
End RoundCertificate.

Module EnterRoundCertificate.
Record t {Ctx : Context} : Type := mk {
  certificate : RoundCertificate.t;
  enter_round : Round.t;
}.
Arguments mk {Ctx} certificate enter_round.

Definition new_from_votes `{Ctx : Context} (height : Height) (enter_round round : Round.t)
    (cert_type : RoundCertificateType.t) (votes : list SignedVote) : t :=
  mk (RoundCertificate.new_from_votes height round cert_type votes) enter_round.
End EnterRoundCertificate.

(** [CertificateError]; the source of a verification error is opaque. *)
Module CertificateError.
Inductive t {Ctx : Context} (BoxError : Type) : Type :=
  | InvalidCommitSignature (sig : CommitSignature.t)
  | InvalidPolkaSignature (sig : PolkaSignature.t)
  | InvalidRoundSignature (sig : RoundSignature.t)
  | UnknownValidator (address : Address)
  | NotEnoughVotingPower (signed total expected : N)
  | DuplicateVote (address : Address)
  | InvalidVoteType (address : Address)
  | VerificationError (source : option BoxError).
Arguments InvalidCommitSignature {Ctx BoxError} sig.
Arguments InvalidPolkaSignature {Ctx BoxError} sig.
Arguments InvalidRoundSignature {Ctx BoxError} sig.
Arguments UnknownValidator {Ctx BoxError} address.
Arguments NotEnoughVotingPower {Ctx BoxError} signed total expected.
Arguments DuplicateVote {Ctx BoxError} address.
Arguments InvalidVoteType {Ctx BoxError} address.
Arguments VerificationError {Ctx BoxError} source.
End CertificateError.
