(* ===== verification/Starknet.v ===== *)
(** * The Starknet context

    The types of starknet/p2p-types and their implementation of the traits of
    [Context]: [Height] (height.rs), [Vote] (vote.rs), [Proposal]
    (proposal.rs), [Validator] and [ValidatorSet] (validator.rs,
    validator_set.rs), [MockContext] (context.rs, context/impls.rs). Public
    keys, signatures and 256-bit hashes come from third-party crates: they
    are parameters, a key with the order its crate derives. [Address] wraps a
    public key and [Hash] a 256-bit hash, both transparently. *)

From S2P Require Import Prelude Types Context.
From stdpp Require Import sorting.

(** ** Heights (height.rs) *)

Module SnHeight.

Record t : Type := new { block_number : N; fork_id : N }.

#[global] Instance t_eq_dec : EqDecision t.
Proof. solve_decision. Defined.
#[global] Instance t_countable : Countable t.
Proof.
  refine (inj_countable' (fun h => (h.(block_number), h.(fork_id)))
                         (fun p => new p.1 p.2) _). by intros [].
Defined.

Definition as_u64 (self : t) : N := self.(block_number).
Definition increment_by (self : t) (n : N) : outcome t :=
  b ← add_u64 self.(block_number) n; Ret (new b self.(fork_id)).
Definition increment (self : t) : outcome t := increment_by self 1.
Definition decrement (self : t) : option t :=
  (fun b => new b self.(fork_id)) <$> checked_sub self.(block_number) 1.

(** [impl malachitebft_core_types::Height]: [u64::saturating_sub] is
    subtraction truncated at 0. *)
Definition ZERO : t := new 0 0.
Definition INITIAL : t := new 1 0.
Definition decrement_by (self : t) (n : N) : option t :=
  Some (new (self.(block_number) - n)%N self.(fork_id)).

(** The derived [Ord]: lexicographic on the fields. *)
Definition ltb (h1 h2 : t) : bool :=
  (h1.(block_number) <? h2.(block_number))%N ||
  (h1.(block_number) =? h2.(block_number))%N && (h1.(fork_id) <? h2.(fork_id))%N.

End SnHeight.

Section starknet.

(** The third-party types: a public key with its equality and order, a
    signature, a 256-bit hash; the order of keys is a parameter of sorting. *)
Context {PK Sig Hash : Type}.
Context `{PK_dec : EqDecision PK} `{PK_cnt : !Countable PK}.
Context `{Sig_dec : EqDecision Sig} `{Hash_dec : EqDecision Hash} `{Hash_cnt : !Countable Hash}.

(** ** Votes, proposals, validators (vote.rs, proposal.rs, validator.rs) *)

Record SnVote : Type := mk_vote {
  sn_vote_type : VoteType.t;
  sn_vote_height : SnHeight.t;
  sn_vote_round : Round.t;
  sn_block_hash : NilOrVal.t Hash;
  sn_voter : PK;
}.

#[global] Instance SnVote_eq_dec : EqDecision SnVote.
Proof. solve_decision. Defined.

Definition vote_new_prevote (height : SnHeight.t) (round : Round.t)
    (block_hash : NilOrVal.t Hash) (voter : PK) : SnVote :=
  mk_vote VoteType.Prevote height round block_hash voter.
Definition vote_new_precommit (height : SnHeight.t) (round : Round.t)
    (value : NilOrVal.t Hash) (address : PK) : SnVote :=
  mk_vote VoteType.Precommit height round value address.

Record SnProposal : Type := proposal_new {
  sn_proposal_height : SnHeight.t;
  sn_proposal_round : Round.t;
  sn_value_id : Hash;
  sn_pol_round : Round.t;
  sn_proposer : PK;
}.

#[global] Instance SnProposal_eq_dec : EqDecision SnProposal.
Proof. solve_decision. Defined.

Record SnValidator : Type := mk_validator {
  sn_address : PK;
  sn_public_key : PK;
  sn_voting_power : N;
}.

#[global] Instance SnValidator_eq_dec : EqDecision SnValidator.
Proof. solve_decision. Defined.

Definition validator_new (public_key : PK) (voting_power : N) : SnValidator :=
  mk_validator public_key public_key voting_power.

(** ** The validator set (validator_set.rs) *)

Record SnValidatorSet : Type := mk_validator_set { validators : list SnValidator }.

Section sorting.
Context (PK_leb : PK -> PK -> bool).

(** The comparator of [sort_unstable_by]: power descending, then address. The
    sort may swap validators that compare equal; with an address made from the
    key, as [Validator::new] does, those are equal. *)
Definition validator_before (v1 v2 : SnValidator) : bool :=
  (v2.(sn_voting_power) <? v1.(sn_voting_power))%N ||
  (v1.(sn_voting_power) =? v2.(sn_voting_power))%N && PK_leb v1.(sn_address) v2.(sn_address).

(** [Vec::dedup]: drop an element equal to the one before it. *)
Fixpoint dedup (l : list SnValidator) : list SnValidator :=
  match l with
  | v :: (v' :: _) as l' => if bool_decide (v = v') then dedup l' else v :: dedup l'
  | _ => l
  end.

Definition sort_validators (vals : list SnValidator) : list SnValidator :=
  dedup (merge_sort (fun v1 v2 => Is_true (validator_before v1 v2)) vals).

Definition validator_set_new (vals : list SnValidator) : outcome SnValidatorSet :=
  let validators := sort_validators vals in
  _ ← assert_that (negb (bool_decide (validators = []))) "assertion failed: !validators.is_empty()";
  Ret (mk_validator_set validators).

End sorting.

Definition set_total_voting_power (self : SnValidatorSet) : outcome N :=
  sum_u64 "attempt to add with overflow" (sn_voting_power <$> self.(validators)).
Definition set_get_by_address (self : SnValidatorSet) (address : PK) : option SnValidator :=
  List.find (fun v => bool_decide (v.(sn_address) = address)) self.(validators).
Definition set_get_by_public_key (self : SnValidatorSet) (public_key : PK) : option SnValidator :=
  List.find (fun v => bool_decide (v.(sn_public_key) = public_key)) self.(validators).
Definition set_get_keys (self : SnValidatorSet) : list PK :=
  sn_public_key <$> self.(validators).
Definition set_count (self : SnValidatorSet) : nat := length self.(validators).
Definition set_get_by_index (self : SnValidatorSet) (index : nat) : option SnValidator :=
  self.(validators) !! index.

(** ** Proposer selection (context.rs)

    [usize] is 64 bits wide. *)
Definition mock_select_proposer (validator_set : SnValidatorSet) (height : SnHeight.t)
    (round : Round.t) : outcome SnValidator :=
  _ ← assert_that (Nat.ltb 0 (set_count validator_set)) "assertion failed: count() > 0";
  _ ← assert_that (negb (bool_decide (round = Round.Nil)) && (0 <=? Round.as_i64 round)%Z)
        "assertion failed: round != Round::Nil && round.as_i64() >= 0";
  let height := SnHeight.as_u64 height in
  let round := Z.to_N (Round.as_i64 round) in
  h' ← expect (checked_sub height 1) "attempt to subtract with overflow";
  x ← add_u64 h' round;
  let proposer_index := (x mod N.of_nat (set_count validator_set))%N in
  expect (set_get_by_index validator_set (N.to_nat proposer_index)) "proposer_index is valid".

(** ** The instance (context.rs, context/impls.rs) *)

#[local] Instance MockContext : Context := {
  Address := PK;
  Height := SnHeight.t;
  Height_ZERO := SnHeight.ZERO;
  Height_ltb := SnHeight.ltb;
  Value := Hash;
  ValueId := Hash;
  value_id := fun h => h;
  Signature := Sig;
  PublicKey := PK;
  Proposal := SnProposal;
  proposal_height := sn_proposal_height;
  proposal_round := sn_proposal_round;
  proposal_value := sn_value_id;
  proposal_pol_round := sn_pol_round;
  proposal_address := sn_proposer;
  Vote := SnVote;
  vote_height := sn_vote_height;
  vote_round := sn_vote_round;
  vote_value := sn_block_hash;
  vote_type := sn_vote_type;
  vote_address := sn_voter;
  Validator := SnValidator;
  validator_address := sn_address;
  public_key := sn_public_key;
  voting_power := sn_voting_power;
  ValidatorSet := SnValidatorSet;
  count := set_count;
  total_voting_power := set_total_voting_power;
  get_by_address := set_get_by_address;
  get_by_index := set_get_by_index;
  select_proposer := mock_select_proposer;
  new_proposal := proposal_new;
  new_prevote := vote_new_prevote;
  new_precommit := vote_new_precommit;
}.

(** ** The contract *)

(** The powers of distinct addresses are powers of distinct validators. *)
Lemma list_powers_le (l : list SnValidator) (S : gset PK) :
  (weight_of (power (mk_validator_set l)) S <= sumN (sn_voting_power <$> l))%N.
Proof.
  revert S. induction l as [|v l IH]; intros S; cbn.
  { by rewrite (weight_of_ext _ (fun _ => 0%N)), weight_of_zero. }
  assert (Hne : forall a, a ∈ S ∖ {[sn_address v]} ->
    power (mk_validator_set (v :: l)) a = power (mk_validator_set l) a).
  { intros a Ha. unfold power. cbn. unfold set_get_by_address. cbn.
    rewrite bool_decide_eq_false_2 by set_solver. done. }
  destruct (decide (sn_address v ∈ S)) as [Hin|Hnin].
  - rewrite (weight_of_delete _ (sn_address v)) by done.
    rewrite (weight_of_ext _ _ _ Hne). specialize (IH (S ∖ {[sn_address v]})).
    unfold power at 1. cbn. unfold set_get_by_address. cbn.
    rewrite bool_decide_eq_true_2 by done. by apply N.add_le_mono_l.
  - rewrite <- (difference_disjoint_L S {[sn_address v]}) by set_solver.
    rewrite (weight_of_ext _ _ _ Hne). etrans; [apply IH|lia].
Qed.

Lemma MockContext_laws : ContextLaws.
Proof.
  split; cbn; try done.
  - intros [b f]. unfold SnHeight.ltb. cbn. by rewrite !N.ltb_irrefl, andb_false_r.
  - intros [b1 f1] [b2 f2] [b3 f3]. unfold SnHeight.ltb. cbn.
    rewrite !orb_true_iff, !andb_true_iff, !N.ltb_lt, !N.eqb_eq. lia.
  - intros vset a v [_ Hv]%List.find_some. by apply bool_decide_eq_true in Hv.
  - intros [l] total S [-> _]%sum_u64_Ret. apply list_powers_le.
  - intros [l] total [-> Hle]%sum_u64_Ret. exact Hle.
Qed.

End starknet.

(** ** Sorted validator sets *)

Section sorted.
Context {PK : Type} `{PK_dec : EqDecision PK} (PK_leb : PK -> PK -> bool).
Context (PK_total : forall a b, PK_leb a b = true \/ PK_leb b a = true)
  (PK_trans : forall a b c, PK_leb a b = true -> PK_leb b c = true -> PK_leb a c = true)
  (PK_antisym : forall a b, PK_leb a b = true -> PK_leb b a = true -> a = b).
Implicit Types (v : SnValidator (PK := PK)) (l : list (SnValidator (PK := PK))).

Abbreviation before := (fun v1 v2 => Is_true (validator_before PK_leb v1 v2)).

Lemma before_iff v1 v2 :
  before v1 v2 <-> (sn_voting_power v2 < sn_voting_power v1)%N \/
    sn_voting_power v1 = sn_voting_power v2 /\ PK_leb v1.(sn_address) v2.(sn_address) = true.
Proof.
  unfold validator_before. rewrite Is_true_true, orb_true_iff, andb_true_iff, N.ltb_lt, N.eqb_eq. done.
Qed.

#[local] Instance before_total : Total before.
Proof using PK_total.
  intros v1 v2. rewrite !before_iff.
  destruct (PK_total v1.(sn_address) v2.(sn_address));
    destruct (N.lt_trichotomy v1.(sn_voting_power) v2.(sn_voting_power)) as [|[|]]; auto.
Qed.

#[local] Instance before_trans : Transitive before.
Proof using PK_trans.
  intros v1 v2 v3 [?|[? ?]]%before_iff [?|[? ?]]%before_iff; apply before_iff;
    [left; lia|left; lia|left; lia|right]. split; [congruence|eauto].
Qed.

(** Two validators made by [validator_new] that come before each other are
    equal. *)
Lemma before_antisym v1 v2 :
  v1.(sn_public_key) = v1.(sn_address) -> v2.(sn_public_key) = v2.(sn_address) ->
  before v1 v2 -> before v2 v1 -> v1 = v2.
Proof using PK_antisym.
  intros H1 H2 [?|[Hp Ha]]%before_iff [?|[? Ha']]%before_iff; try lia.
  destruct v1, v2; cbn in *. pose proof (PK_antisym _ _ Ha Ha'). congruence.
Qed.

Lemma dedup_cons2 v v' l :
  dedup (v :: v' :: l) = if bool_decide (v = v') then dedup (v' :: l) else v :: dedup (v' :: l).
Proof. done. Qed.

Lemma elem_of_dedup v l : v ∈ dedup l <-> v ∈ l.
Proof.
  induction l as [|w [|w' l] IH]; [done|done|]. rewrite dedup_cons2.
  case_bool_decide as Heq; rewrite ?elem_of_cons, IH, !elem_of_cons; [subst; tauto|done].
Qed.

(** Deduplicating a sorted list keeps it sorted and leaves no duplicate. *)
Lemma dedup_sorted l :
  Forall (fun v => v.(sn_public_key) = v.(sn_address)) l -> StronglySorted before l ->
  StronglySorted before (dedup l) /\ NoDup (dedup l).
Proof using PK_antisym.
  induction l as [|w [|w' l] IH]; intros Hkeys Hsorted.
  - split; [constructor|apply NoDup_nil_2].
  - split; [done|apply NoDup_singleton].
  - apply Forall_cons in Hkeys as [Hw Hkeys]. apply StronglySorted_cons in Hsorted as [Hle Hsorted].
    destruct (IH Hkeys Hsorted) as [IHs IHn]. rewrite dedup_cons2. case_bool_decide as Heq; [done|].
    rewrite Forall_forall in Hle. rewrite Forall_forall in Hkeys. split.
    + apply StronglySorted_cons. split; [|done]. apply Forall_forall. intros x. rewrite elem_of_dedup. auto.
    + apply NoDup_cons. split; [|done]. rewrite elem_of_dedup. intros Hin. apply Heq.
      apply elem_of_cons in Hin as [->|Hin]; [done|].
      apply StronglySorted_cons in Hsorted as [Hle' _]. rewrite Forall_forall in Hle'.
      apply before_antisym; [done|..]; auto using list_elem_of_here.
Qed.

(** A validator set holds each of the given validators once, sorted by
    power descending and then by address, when addresses are made from keys and
    keys are totally ordered; it is not empty. *)
Theorem validator_set_sorted (vals : list (SnValidator (PK := PK))) (vset : SnValidatorSet (PK := PK))
  (Hkeys : Forall (fun v => v.(sn_public_key) = v.(sn_address)) vals)
  (Hnew : validator_set_new PK_leb vals = Ret vset) :
  StronglySorted before vset.(validators) /\ NoDup vset.(validators) /\
  (forall v, v ∈ vset.(validators) <-> v ∈ vals) /\ 0 < set_count vset.
Proof using All.
  unfold validator_set_new in Hnew. inv_ret.
  match goal with H : negb _ = true |- _ => apply negb_true_iff, bool_decide_eq_false_1 in H as Hne end.
  unfold sort_validators in *. set (sorted := merge_sort before vals) in *. cbn.
  assert (Hperm : sorted ≡ₚ vals) by apply merge_sort_Permutation.
  destruct (dedup_sorted sorted) as [Hs Hn]; [by rewrite Hperm|apply (StronglySorted_merge_sort before); apply _|].
  split_and!; [done|done| |].
  - intros v. by rewrite elem_of_dedup, Hperm.
  - unfold set_count. cbn. destruct (dedup sorted); [done|cbn; lia].
Qed.

End sorted.

(** ** Proposer rotation *)

(** Some [k] below [n] moves [x] onto any residue [j]. *)
Lemma rotate_onto (n x j : N) :
  (j < n)%N -> exists k, (k < n)%N /\ ((x + k) mod n = j)%N.
Proof.
  intros Hj. assert (Hn : n <> 0%N) by lia. pose proof (N.mod_lt x n Hn) as Hx.
  exists ((n + j - x mod n) mod n)%N. split; [by apply N.mod_lt|].
  rewrite N.Div0.add_mod_idemp_r, <- N.Div0.add_mod_idemp_l.
  replace (x mod n + (n + j - x mod n))%N with (j + 1 * n)%N by lia.
  by rewrite N.Div0.mod_add, N.mod_small.
Qed.

(** The proposer of a defined round at a positive height. *)
Lemma mock_select_proposer_eq {PK : Type} (vset : SnValidatorSet (PK := PK)) height r :
  0 < set_count vset -> (0 < SnHeight.as_u64 height)%N -> (SnHeight.as_u64 height + r <= U64_MAX)%N ->
  mock_select_proposer vset height (Round.Some r) =
  expect (set_get_by_index vset
            (N.to_nat ((SnHeight.as_u64 height - 1 + r) mod N.of_nat (set_count vset))))
         "proposer_index is valid".
Proof.
  intros Hcount Hheight Hmax. unfold mock_select_proposer.
  rewrite (proj2 (Nat.ltb_lt _ _) Hcount), bool_decide_eq_false_2 by done.
  rewrite (proj2 (Z.leb_le 0 _)) by (cbn; lia). cbn [assert_that mbind outcome_bind negb andb].
  unfold checked_sub. rewrite (proj2 (N.leb_le 1 _)) by lia. cbn [expect mbind outcome_bind].
  replace (Z.to_N (Round.as_i64 (Round.Some r))) with r by (cbn; lia).
  rewrite (proj2 (add_u64_Ret _ _ (SnHeight.as_u64 height - 1 + r)%N)) by lia. done.
Qed.

(** proposers rotate: from any round on, every validator of the set is
    the proposer of one of the next [count] rounds, as long as the round
    numbers stay in range. *)
Theorem proposer_rotation {PK : Type} (vset : SnValidatorSet (PK := PK)) (height : SnHeight.t)
  (r : N) (v : SnValidator (PK := PK))
  (Hheight : (0 < SnHeight.as_u64 height)%N)
  (Hmax : (SnHeight.as_u64 height + r + N.of_nat (set_count vset) <= U64_MAX)%N)
  (Hv : v ∈ vset.(validators)) :
  exists k, (k < N.of_nat (set_count vset))%N /\
    mock_select_proposer vset height (Round.Some (r + k)) = Ret v.
Proof.
  apply list_elem_of_lookup in Hv as [j Hj]. pose proof (lookup_lt_Some _ _ _ Hj) as Hlt.
  destruct (rotate_onto (N.of_nat (set_count vset)) (SnHeight.as_u64 height - 1 + r) (N.of_nat j))
    as (k & Hk & Hmod); [unfold set_count; lia|].
  exists k. split; [done|]. unfold set_count in *. rewrite mock_select_proposer_eq by (unfold set_count; lia).
  unfold set_count. rewrite N.add_assoc, Hmod, Nat2N.id. unfold set_get_by_index. by rewrite Hj.
Qed.

(** ** A concrete context

    Keys, signatures and hashes are numbers. Four validators of power 1. *)

Definition N_context : Context := MockContext (PK := N) (Sig := N) (Hash := N).

Lemma N_context_laws : @ContextLaws N_context.
Proof. apply MockContext_laws. Qed.

Definition four_validators : SnValidatorSet (PK := N) :=
  mk_validator_set [validator_new 1 1; validator_new 2 1; validator_new 3 1; validator_new 4 1]%N.

(** ** Witnesses *)

Lemma proposer_rotation_witness :
  exists k, (k < 4)%N /\
    mock_select_proposer four_validators (SnHeight.new 7 0) (Round.Some (3 + k)) =
    Ret (validator_new 2 1)%N.
Proof.
  apply (proposer_rotation four_validators (SnHeight.new 7 0) 3 (validator_new 2 1)%N).
  - vm_compute; reflexivity.
  - vm_compute. discriminate.
  - vm_decide.
Defined.
