(* ===== verification/StateMachine.v ===== *)
(** * The round state machine

    The crate [core-state-machine]: the state of a round (state.rs), its
    inputs (input.rs), outputs (output.rs) and transitions (transition.rs),
    and [apply], the transition function of state_machine.rs, with one
    definition per function it calls. The [debug] feature's traces are not
    part of the state. *)

From S2P Require Import Prelude Types Context Starknet.

(** ** State (state.rs) *)

Module RoundValue.
Record t {Ctx : Context} : Type := new { value : Value; round : Round.t }.
Arguments new {Ctx} value round.
#[global] Instance t_eq_dec `{Ctx : Context} : EqDecision t.
Proof. solve_decision. Defined.
End RoundValue.

Module Step.
Inductive t : Type := Unstarted | Propose | Prevote | Precommit | Commit.
#[global] Instance t_eq_dec : EqDecision t.
Proof. solve_decision. Defined.

(** The derived [Ord]. *)
Definition rank (s : t) : nat :=
  match s with Unstarted => 0 | Propose => 1 | Prevote => 2 | Precommit => 3 | Commit => 4 end.
Definition geb (s1 s2 : t) : bool := Nat.leb (rank s2) (rank s1).
End Step.

Module State.
Record t {Ctx : Context} : Type := mk {
  height : Height;
  round : Round.t;
  step : Step.t;
  locked : option RoundValue.t;
  valid : option RoundValue.t;
  decision : option RoundValue.t;
}.
Arguments mk {Ctx} height round step locked valid decision.

#[global] Instance t_eq_dec `{Ctx : Context} : EqDecision t.
Proof. solve_decision. Defined.

Section operations.
Context {Ctx : Context}.

Definition new (height : Height) (round : Round.t) : t :=
  mk height round Step.Unstarted None None None.

Definition with_round (self : t) (round : Round.t) : t :=
  mk self.(height) round self.(step) self.(locked) self.(valid) self.(decision).
Definition with_step (self : t) (step : Step.t) : t :=
  mk self.(height) self.(round) step self.(locked) self.(valid) self.(decision).
Definition set_locked (self : t) (value : Value) : t :=
  mk self.(height) self.(round) self.(step)
     (Some (RoundValue.new value self.(round))) self.(valid) self.(decision).
Definition set_valid (self : t) (value : Value) : t :=
  mk self.(height) self.(round) self.(step) self.(locked)
     (Some (RoundValue.new value self.(round))) self.(decision).
Definition set_decision (self : t) (proposal_round : Round.t) (value : Value) : t :=
  mk self.(height) self.(round) self.(step) self.(locked) self.(valid)
     (Some (RoundValue.new value proposal_round)).

(** [impl Default]. *)
Definition default : t := new Height_ZERO Round.Nil.

End operations.
End State.

(** ** Inputs, outputs and transitions (input.rs, output.rs, transition.rs) *)

Module Input.
Inductive t {Ctx : Context} : Type :=
  | NoInput
  | NewRound (round : Round.t)
  | ProposeValue (value : Value)
  | Proposal (proposal : Proposal)
  | InvalidProposal
  | ProposalAndPolkaPrevious (proposal : Proposal)
  | InvalidProposalAndPolkaPrevious (proposal : Proposal)
  | PolkaAny
  | PolkaNil
  | ProposalAndPolkaCurrent (proposal : Proposal)
  | PrecommitAny
  | ProposalAndPrecommitValue (proposal : Proposal)
  | SkipRound (round : Round.t)
  | TimeoutPropose
  | TimeoutPrevote
  | TimeoutPrecommit.
#[global] Instance t_eq_dec `{Ctx : Context} : EqDecision t.
Proof. solve_decision. Defined.
End Input.

Module Output.
Inductive t {Ctx : Context} : Type :=
  | NewRound (round : Round.t)
  | Proposal (proposal : Proposal)
  | Vote (vote : Vote)
  | ScheduleTimeout (timeout : RoundTimeout.t)
  | GetValueAndScheduleTimeout (height : Height) (round : Round.t) (timeout : RoundTimeout.t)
  | Decision (round : Round.t) (proposal : Proposal).
#[global] Instance t_eq_dec `{Ctx : Context} : EqDecision t.
Proof. solve_decision. Defined.

Section builders.
Context {Ctx : Context}.

Definition proposal (height : Height) (round : Round.t) (value : Value)
    (pol_round : Round.t) (address : Address) : t :=
  Proposal (new_proposal height round value pol_round address).
Definition prevote (height : Height) (round : Round.t)
    (value_id : NilOrVal.t ValueId) (address : Address) : t :=
  Vote (new_prevote height round value_id address).
Definition precommit (height : Height) (round : Round.t)
    (value_id : NilOrVal.t ValueId) (address : Address) : t :=
  Vote (new_precommit height round value_id address).
Definition schedule_timeout (round : Round.t) (step : TimeoutKind.t) : t :=
  ScheduleTimeout (RoundTimeout.mk step round).
Definition get_value_and_schedule_timeout (height : Height) (round : Round.t)
    (step : TimeoutKind.t) : t :=
  GetValueAndScheduleTimeout height round (RoundTimeout.mk step round).
Definition decision (round : Round.t) (proposal : Context.Proposal) : t :=
  Decision round proposal.

End builders.
End Output.

Module Transition.
Record t {Ctx : Context} : Type := mk {
  next_state : State.t;
  output : option Output.t;
  valid : bool;
}.
Arguments mk {Ctx} next_state output valid.

Definition to `{Ctx : Context} (next_state : State.t) : t := mk next_state None true.
Definition invalid `{Ctx : Context} (next_state : State.t) : t := mk next_state None false.
Definition with_output `{Ctx : Context} (self : t) (output : Output.t) : t :=
  mk self.(next_state) (Some output) self.(valid).
End Transition.

Module Info.
Record t {Ctx : Context} : Type := new {
  input_round : Round.t;
  address : Address;
  proposer : Address;
}.
Arguments new {Ctx} input_round address proposer.

Definition new_proposer `{Ctx : Context} (input_round : Round.t) (address : Address) : t :=
  new input_round address address.
Definition is_proposer `{Ctx : Context} (self : t) : bool :=
  bool_decide (self.(address) = self.(proposer)).
End Info.

(** ** The transition function (state_machine.rs) *)

Section state_machine.
Context {Ctx : Context}.
Implicit Types (state : State.t) (address : Address) (proposal : Proposal).

Definition is_valid_pol_round state (pol_round : Round.t) : bool :=
  Round.is_defined pol_round && Round.ltb pol_round state.(State.round).

Definition propose_valid_or_get_value state address : Transition.t :=
  match state.(State.valid) with
  | Some round_value =>
      let pol_round := round_value.(RoundValue.round) in
      let proposal := Output.proposal state.(State.height) state.(State.round)
                        round_value.(RoundValue.value) pol_round address in
      Transition.with_output (Transition.to (State.with_step state Step.Propose)) proposal
  | None =>
      let output := Output.get_value_and_schedule_timeout state.(State.height)
                      state.(State.round) TimeoutKind.Propose in
      Transition.with_output (Transition.to (State.with_step state Step.Propose)) output
  end.

Definition propose state (value : Value) address : Transition.t :=
  let proposal := Output.proposal state.(State.height) state.(State.round)
                    value Round.Nil address in
  Transition.with_output (Transition.to (State.with_step state Step.Propose)) proposal.

Definition prevote state address proposal : outcome Transition.t :=
  let vr := proposal_pol_round proposal in
  _ ← assert_that (bool_decide (vr = Round.Nil)) "assertion failed: vr == Round::Nil";
  let proposed := value_id (proposal_value proposal) in
  let value :=
    match state.(State.locked) with
    | Some locked =>
        if bool_decide (value_id locked.(RoundValue.value) = proposed)
        then NilOrVal.Val proposed
        else NilOrVal.Nil
    | None => NilOrVal.Val proposed
    end in
  let output := Output.prevote state.(State.height) state.(State.round) value address in
  Ret (Transition.with_output (Transition.to (State.with_step state Step.Prevote)) output).

Definition prevote_previous state address proposal : outcome Transition.t :=
  let vr := proposal_pol_round proposal in
  _ ← assert_that (Round.leb (Round.Some 0) vr) "assertion failed: vr >= Round::Some(0)";
  _ ← assert_that (Round.ltb vr (proposal_round proposal)) "assertion failed: vr < proposal.round()";
  let proposed := value_id (proposal_value proposal) in
  let value :=
    match state.(State.locked) with
    | Some locked =>
        if Round.leb locked.(RoundValue.round) vr then NilOrVal.Val proposed
        else if bool_decide (value_id locked.(RoundValue.value) = proposed)
        then NilOrVal.Val proposed
        else NilOrVal.Nil
    | None => NilOrVal.Val proposed
    end in
  let output := Output.Vote (new_prevote state.(State.height) state.(State.round) value address) in
  Ret (Transition.with_output (Transition.to (State.with_step state Step.Prevote)) output).

Definition prevote_nil state address : Transition.t :=
  let output := Output.Vote
    (new_prevote state.(State.height) state.(State.round) NilOrVal.Nil address) in
  Transition.with_output (Transition.to (State.with_step state Step.Prevote)) output.

Definition precommit state address proposal : Transition.t :=
  if negb (bool_decide (state.(State.step) = Step.Prevote)) then Transition.to state
  else
    let value := proposal_value proposal in
    let output := Output.precommit state.(State.height) state.(State.round)
                    (NilOrVal.Val (value_id value)) address in
    let next := State.with_step
                  (State.set_valid (State.set_locked state value) value) Step.Precommit in
    Transition.with_output (Transition.to next) output.

Definition precommit_nil state address : Transition.t :=
  let output := Output.Vote
    (new_precommit state.(State.height) state.(State.round) NilOrVal.Nil address) in
  Transition.with_output (Transition.to (State.with_step state Step.Precommit)) output.

Definition schedule_timeout_propose state : Transition.t :=
  let timeout := Output.schedule_timeout state.(State.round) TimeoutKind.Propose in
  Transition.with_output (Transition.to (State.with_step state Step.Propose)) timeout.

Definition schedule_timeout_prevote state : Transition.t :=
  Transition.with_output (Transition.to state)
    (Output.schedule_timeout state.(State.round) TimeoutKind.Prevote).

Definition schedule_timeout_precommit state : Transition.t :=
  Transition.with_output (Transition.to state)
    (Output.schedule_timeout state.(State.round) TimeoutKind.Precommit).

Definition set_valid_value state proposal : Transition.t :=
  Transition.to (State.set_valid state (proposal_value proposal)).

Definition round_skip state (round : Round.t) : Transition.t :=
  let new_state := State.with_step (State.with_round state round) Step.Unstarted in
  Transition.with_output (Transition.to new_state) (Output.NewRound round).

Definition commit state (round : Round.t) proposal : Transition.t :=
  match state.(State.decision) with
  | Some decision =>
      if bool_decide (value_id decision.(RoundValue.value) = value_id (proposal_value proposal))
      then Transition.to state
      else Transition.invalid state
  | None =>
      let new_state := State.with_step
        (State.set_decision state (proposal_round proposal) (proposal_value proposal))
        Step.Commit in
      Transition.with_output (Transition.to new_state) (Output.decision round proposal)
  end.

(** The arms are in the source's order. A guarded arm whose guard fails falls
    through to [Transition::invalid]: no later arm of the source matches the
    same step and input. *)
Definition apply state (info : Info.t) (input : Input.t) : outcome Transition.t :=
  let this_round := bool_decide (state.(State.round) = info.(Info.input_round)) in
  let invalid := Ret (Transition.invalid state) in
  match state.(State.step), input with
  (* From NewRound: L11/L14, L11/L20 *)
  | Step.Unstarted, Input.NewRound round =>
      let state := State.with_round state round in
      if Info.is_proposer info
      then Ret (propose_valid_or_get_value state info.(Info.address))
      else Ret (schedule_timeout_propose state)
  (* From Propose: L18, L22, L28, L57 *)
  | Step.Propose, Input.ProposeValue value =>
      if this_round then Ret (propose state value info.(Info.address)) else invalid
  | Step.Propose, Input.Proposal proposal =>
      if this_round && Round.is_nil (proposal_pol_round proposal)
      then prevote state info.(Info.address) proposal else invalid
  | Step.Propose, Input.InvalidProposal =>
      if this_round then Ret (prevote_nil state info.(Info.address)) else invalid
  | Step.Propose, Input.ProposalAndPolkaPrevious proposal =>
      if this_round && is_valid_pol_round state (proposal_pol_round proposal)
      then prevote_previous state info.(Info.address) proposal else invalid
  | Step.Propose, Input.InvalidProposalAndPolkaPrevious proposal =>
      if this_round && is_valid_pol_round state (proposal_pol_round proposal)
      then Ret (prevote_nil state info.(Info.address)) else invalid
  | Step.Propose, Input.TimeoutPropose =>
      if this_round && Info.is_proposer info then Ret (prevote_nil state info.(Info.address))
      else if this_round then Ret (prevote_nil state info.(Info.address))
      else invalid
  (* From Prevote: L34, L45, L36/L37, L61 *)
  | Step.Prevote, Input.PolkaAny =>
      if this_round then Ret (schedule_timeout_prevote state) else invalid
  | Step.Prevote, Input.PolkaNil =>
      if this_round then Ret (precommit_nil state info.(Info.address)) else invalid
  | Step.Prevote, Input.ProposalAndPolkaCurrent proposal =>
      if this_round then Ret (precommit state info.(Info.address) proposal) else invalid
  | Step.Prevote, Input.TimeoutPrevote =>
      if this_round then Ret (precommit_nil state info.(Info.address)) else invalid
  (* From Precommit: L36/L42 *)
  | Step.Precommit, Input.ProposalAndPolkaCurrent proposal =>
      if this_round then Ret (set_valid_value state proposal) else invalid
  (* From Commit: no more transitions *)
  | Step.Commit, _ => invalid
  (* From all: L47, L65, L55, L49 *)
  | _, Input.PrecommitAny =>
      if this_round then Ret (schedule_timeout_precommit state) else invalid
  | _, Input.TimeoutPrecommit =>
      if this_round
      then round ← Round.increment info.(Info.input_round); Ret (round_skip state round)
      else invalid
  | _, Input.SkipRound round =>
      if Round.ltb state.(State.round) round then Ret (round_skip state round) else invalid
  | _, Input.ProposalAndPrecommitValue proposal =>
      Ret (commit state state.(State.round) proposal)
  | _, _ => invalid
  end.

End state_machine.

(** ** The rules of the algorithm

    The Tendermint rules as a relation on states, grouped by what they do to
    the state: each constructor is a group of lines of the pseudo-code, its
    premises are the guards, and the value of a prevote is constrained by the
    lock (L23, L29). [apply_sound] shows that [apply] takes only these
    steps. *)
Section rules.
Context {Ctx : Context}.
Implicit Types (s : State.t) (info : Info.t) (i : Input.t).

(** An output that is neither a vote, nor a round change, nor a decision. *)
Definition quiet_output (o : option Output.t) : Prop :=
  match o with
  | Some (Output.Vote _) | Some (Output.NewRound _) | Some (Output.Decision _ _) => False
  | _ => True
  end.

(** The lock allows a prevote for [id] when nothing is locked or the locked
    value is [id] itself (L23). *)
Definition lock_allows s (id : ValueId) : Prop :=
  forall rv, s.(State.locked) = Some rv -> value_id rv.(RoundValue.value) = id.

(** The lock allows a prevote for [id] with a proof of lock at round [vr]
    (L29). *)
Definition lock_allows_from s (vr : Round.t) (id : ValueId) : Prop :=
  forall rv, s.(State.locked) = Some rv ->
    Round.le rv.(RoundValue.round) vr \/ value_id rv.(RoundValue.value) = id.

(** What justifies prevoting [v] on input [i]. *)
Definition prevote_justified s i (v : NilOrVal.t ValueId) : Prop :=
  match v with
  | NilOrVal.Nil => True
  | NilOrVal.Val id =>
      exists p, id = value_id (proposal_value p) /\
        ( i = Input.Proposal p /\ proposal_pol_round p = Round.Nil /\ lock_allows s id \/
          i = Input.ProposalAndPolkaPrevious p /\
          Round.is_defined (proposal_pol_round p) = true /\
          Round.lt (proposal_pol_round p) s.(State.round) /\
          lock_allows_from s (proposal_pol_round p) id )
  end.

Inductive rule s info i : State.t -> option Output.t -> Prop :=
  | rule_quiet o :
      quiet_output o ->
      rule s info i s o
  | rule_new_round r o :                                    (* L11-L21 *)
      s.(State.step) = Step.Unstarted -> i = Input.NewRound r -> quiet_output o -> o <> None ->
      rule s info i (State.with_step (State.with_round s r) Step.Propose) o
  | rule_prevote v :                                        (* L22-L33, L57 *)
      s.(State.step) = Step.Propose -> s.(State.round) = info.(Info.input_round) ->
      prevote_justified s i v ->
      rule s info i (State.with_step s Step.Prevote)
        (Some (Output.Vote (new_prevote s.(State.height) s.(State.round) v info.(Info.address))))
  | rule_precommit_nil :                                    (* L44, L61 *)
      s.(State.step) = Step.Prevote -> s.(State.round) = info.(Info.input_round) ->
      rule s info i (State.with_step s Step.Precommit)
        (Some (Output.Vote
          (new_precommit s.(State.height) s.(State.round) NilOrVal.Nil info.(Info.address))))
  | rule_precommit p :                                      (* L36-L43 *)
      s.(State.step) = Step.Prevote -> s.(State.round) = info.(Info.input_round) ->
      i = Input.ProposalAndPolkaCurrent p ->
      rule s info i
        (State.with_step (State.set_valid (State.set_locked s (proposal_value p))
          (proposal_value p)) Step.Precommit)
        (Some (Output.Vote (new_precommit s.(State.height) s.(State.round)
          (NilOrVal.Val (value_id (proposal_value p))) info.(Info.address))))
  | rule_set_valid p :                                      (* L36, L42 *)
      s.(State.step) = Step.Precommit -> s.(State.round) = info.(Info.input_round) ->
      i = Input.ProposalAndPolkaCurrent p ->
      rule s info i (State.set_valid s (proposal_value p)) None
  | rule_skip r :                                           (* L55, L65 *)
      s.(State.step) <> Step.Commit -> Round.lt s.(State.round) r ->
      (i = Input.SkipRound r \/
       i = Input.TimeoutPrecommit /\ s.(State.round) = info.(Info.input_round)) ->
      rule s info i (State.with_step (State.with_round s r) Step.Unstarted)
        (Some (Output.NewRound r))
  | rule_decide p :                                         (* L49 *)
      s.(State.step) <> Step.Commit -> s.(State.decision) = None ->
      i = Input.ProposalAndPrecommitValue p ->
      rule s info i
        (State.with_step (State.set_decision s (proposal_round p) (proposal_value p)) Step.Commit)
        (Some (Output.Decision s.(State.round) p)).

Lemma with_step_same s : State.with_step s s.(State.step) = s.
Proof. by destruct s. Qed.

Lemma prevote_sound s a p tr :
  prevote s a p = Ret tr -> exists v,
    tr = Transition.mk (State.with_step s Step.Prevote)
      (Some (Output.Vote (new_prevote s.(State.height) s.(State.round) v a))) true /\
    prevote_justified s (Input.Proposal p) v.
Proof.
  intros H. unfold prevote in H. inv_ret. case_bool_decide as Hnil; [|done].
  eexists; split; [done|]. unfold prevote_justified, lock_allows.
  destruct (State.locked s) as [rv|]; [case_bool_decide|]; try done;
    exists p; naive_solver.
Qed.

Lemma prevote_previous_sound s a p tr :
  prevote_previous s a p = Ret tr ->
  is_valid_pol_round s (proposal_pol_round p) = true -> exists v,
    tr = Transition.mk (State.with_step s Step.Prevote)
      (Some (Output.Vote (new_prevote s.(State.height) s.(State.round) v a))) true /\
    prevote_justified s (Input.ProposalAndPolkaPrevious p) v.
Proof.
  intros H [Hdef Hlt]%andb_prop. unfold prevote_previous in H. inv_ret.
  eexists; split; [done|]. unfold prevote_justified, lock_allows_from.
  apply Round.ltb_lt in Hlt.
  destruct (State.locked s) as [rv|];
    [destruct (Round.leb rv.(RoundValue.round) (proposal_pol_round p)) eqn:E;
     [|case_bool_decide]|]; try done;
    exists p; (split; [done|right]); split_and!; try done;
    intros rv' ?; simplify_eq; try (by right); left; round_lia.
Qed.

Lemma propose_valid_or_get_value_sound s info r :
  s.(State.step) = Step.Unstarted ->
  let tr := propose_valid_or_get_value (State.with_round s r) info.(Info.address) in
  rule s info (Input.NewRound r) tr.(Transition.next_state) tr.(Transition.output).
Proof.
  intros Hs. unfold propose_valid_or_get_value.
  destruct (State.valid _); by eapply rule_new_round.
Qed.

Lemma commit_sound s info p :
  s.(State.step) <> Step.Commit ->
  let tr := commit s s.(State.round) p in
  rule s info (Input.ProposalAndPrecommitValue p)
    tr.(Transition.next_state) tr.(Transition.output).
Proof.
  intros Hs. unfold commit. destruct (State.decision s) eqn:Hd; [|by apply rule_decide].
  case_bool_decide; by apply rule_quiet.
Qed.

Lemma precommit_sound s info p :
  s.(State.step) = Step.Prevote -> s.(State.round) = info.(Info.input_round) ->
  let tr := precommit s info.(Info.address) p in
  rule s info (Input.ProposalAndPolkaCurrent p)
    tr.(Transition.next_state) tr.(Transition.output).
Proof.
  intros Hs Hr. unfold precommit. rewrite bool_decide_eq_true_2 by done.
  by apply rule_precommit.
Qed.

Lemma timeout_precommit_sound s info tr :
  s.(State.step) <> Step.Commit -> s.(State.round) = info.(Info.input_round) ->
  (round ← Round.increment info.(Info.input_round); Ret (round_skip s round)) = Ret tr ->
  rule s info Input.TimeoutPrecommit tr.(Transition.next_state) tr.(Transition.output).
Proof.
  intros Hs Hr H. inv_ret. apply rule_skip; [done| |by right]. rewrite Hr. round_lia.
Qed.

Lemma propose_sound s info v :
  s.(State.step) = Step.Propose ->
  let tr := propose s v info.(Info.address) in
  rule s info (Input.ProposeValue v) tr.(Transition.next_state) tr.(Transition.output).
Proof.
  intros Hs. cbn. rewrite <- Hs, with_step_same. by apply rule_quiet.
Qed.

Lemma apply_sound s info i tr :
  apply s info i = Ret tr -> rule s info i tr.(Transition.next_state) tr.(Transition.output).
Proof.
  unfold apply. intros H. repeat case_match; simplify_eq/=; try (by apply rule_quiet).
  all: repeat match goal with
       | H : _ && _ = true |- _ => apply andb_prop in H as [? ?]
       | H : bool_decide _ = true |- _ => apply bool_decide_eq_true in H
       end.
  all: try (by apply propose_valid_or_get_value_sound).
  all: try (by apply propose_sound).
  all: try (by apply commit_sound; congruence).
  all: try (by apply precommit_sound).
  all: try (by apply timeout_precommit_sound; congruence).
  all: try (by apply rule_set_valid).
  all: try (by apply rule_precommit_nil).
  all: try (by apply rule_prevote).
  all: try (by eapply rule_new_round).
  all: try (apply rule_skip; [congruence|by apply Round.ltb_lt|by left]).
  - apply prevote_sound in H as (v & -> & Hv). by apply rule_prevote.
  - apply prevote_previous_sound in H as (v & -> & Hv); [|done]. by apply rule_prevote.
Qed.

End rules.

(** ** Runs of the state machine *)

Section runs.
Context {Ctx : Context}.
Implicit Types (s : State.t) (info : Info.t) (i : Input.t).

(** The states reached from [s] when a new round is never lower than the
    current one. *)
Inductive reaches s : State.t -> Prop :=
  | reaches_refl : reaches s s
  | reaches_step s1 info i tr :
      reaches s s1 ->
      (forall r, i = Input.NewRound r -> Round.le s1.(State.round) r) ->
      apply s1 info i = Ret tr ->
      reaches s tr.(Transition.next_state).

(** A well-formed state: the lock is on a past or current round, the valid
    value is at least as recent as the lock, and the step is [Commit] exactly
    when there is a decision. *)
Record state_wf s : Prop := {
  wf_locked rv : s.(State.locked) = Some rv -> Round.le rv.(RoundValue.round) s.(State.round);
  wf_valid rv : s.(State.valid) = Some rv -> Round.le rv.(RoundValue.round) s.(State.round);
  wf_recent rv : s.(State.locked) = Some rv -> exists rv', s.(State.valid) = Some rv' /\
    Round.le rv.(RoundValue.round) rv'.(RoundValue.round);
  wf_commit : s.(State.step) = Step.Commit <-> is_Some s.(State.decision);
}.

(** The lock or valid value [o'] replaces [o]: it is as recent. *)
Definition as_recent (o o' : option RoundValue.t) : Prop :=
  forall rv, o = Some rv -> exists rv', o' = Some rv' /\
    Round.le rv.(RoundValue.round) rv'.(RoundValue.round).

(** [s'] is [s] or later: the round and the step do not go back, the lock and
    the valid value are only replaced by more recent ones, and a decision is
    final. *)
Record later s s' : Prop := {
  later_height : s'.(State.height) = s.(State.height);
  later_step : Round.lt s.(State.round) s'.(State.round) \/
    s.(State.round) = s'.(State.round) /\ Step.rank s.(State.step) <= Step.rank s'.(State.step);
  later_locked : as_recent s.(State.locked) s'.(State.locked);
  later_valid : as_recent s.(State.valid) s'.(State.valid);
  later_decision rv : s.(State.decision) = Some rv -> s'.(State.decision) = Some rv;
}.

#[local] Instance as_recent_preorder : PreOrder as_recent.
Proof.
  split.
  - intros o rv ->. exists rv. split; [done|round_lia].
  - intros o1 o2 o3 H12 H23 rv (rv2 & ? & ?)%H12. destruct (H23 rv2) as (rv3 & ? & ?); [done|].
    exists rv3. split; [done|round_lia].
Qed.

#[local] Instance later_preorder : PreOrder later.
Proof.
  split.
  - intros s. split; try done. by right.
  - intros s1 s2 s3 [Hh Hs Hl Hv Hd] [Hh' Hs' Hl' Hv' Hd']. split.
    + congruence.
    + destruct Hs as [?|[-> ?]], Hs' as [?|[<- ?]]; [left; round_lia|by left|by left|].
      right. split; [done|lia].
    + by etrans.
    + by etrans.
    + auto.
Qed.

Lemma as_recent_set (o : option RoundValue.t) rv :
  (forall rv0, o = Some rv0 -> Round.le rv0.(RoundValue.round) rv.(RoundValue.round)) ->
  as_recent o (Some rv).
Proof. intros H rv0 ?%H. by exists rv. Qed.

(** Moves that touch neither the lock nor the decision. *)
Lemma move_later s r step :
  Round.lt s.(State.round) r \/ s.(State.round) = r /\ Step.rank s.(State.step) <= Step.rank step ->
  later s (State.with_step (State.with_round s r) step).
Proof. intros H. by split. Qed.

Lemma move_wf s r step :
  state_wf s -> s.(State.step) <> Step.Commit -> step <> Step.Commit ->
  Round.le s.(State.round) r ->
  state_wf (State.with_step (State.with_round s r) step).
Proof.
  intros [Hl Hv Hr Hc] Hs Hstep Hle. split; cbn.
  - intros rv ?%Hl. round_lia.
  - intros rv ?%Hv. round_lia.
  - done.
  - tauto.
Qed.

Lemma with_round_same s : State.with_round s s.(State.round) = s.
Proof. by destruct s. Qed.

Lemma rule_later s info i s' o :
  state_wf s -> (forall r, i = Input.NewRound r -> Round.le s.(State.round) r) ->
  rule s info i s' o -> state_wf s' /\ later s s'.
Proof.
  intros Hwf Hnew Hrule.
  assert (Hstay : forall step, s.(State.step) <> Step.Commit -> step <> Step.Commit ->
    Step.rank s.(State.step) <= Step.rank step ->
    state_wf (State.with_step s step) /\ later s (State.with_step s step)).
  { intros step ???. rewrite <- (with_round_same s) at 1 3. split.
    - apply move_wf; done || round_lia.
    - apply move_later. by right. }
  destruct Hrule as [o Hq|r o Hs -> Hq Hne|v Hs Hr Hj|Hs Hr|p Hs Hr ->|p Hs Hr ->|r Hs Hlt Hi|p Hs Hd ->].
  - done.
  - specialize (Hnew r eq_refl). split; [apply move_wf; done || congruence|apply move_later].
    destruct (decide (s.(State.round) = r)) as [->|Hneq].
    + right. rewrite Hs. split; [done|cbn; lia].
    + left. assert (Round.as_i64 s.(State.round) <> Round.as_i64 r)
        by (by intros ?%Round.as_i64_inj). round_lia.
  - apply Hstay; [congruence|done|rewrite Hs; cbn; lia].
  - apply Hstay; [congruence|done|rewrite Hs; cbn; lia].
  - destruct Hwf as [Hl Hv Hrec Hc]. split.
    + split; cbn; [intros rv [= <-]; cbn; round_lia|intros rv [= <-]; cbn; round_lia| |].
      * intros rv [= <-]. eexists. split; [done|round_lia].
      * rewrite <- Hc, Hs. done.
    + split; cbn; [done| |by apply as_recent_set|by apply as_recent_set|done].
      right. rewrite Hs. split; [done|cbn; lia].
  - destruct Hwf as [Hl Hv Hrec Hc]. split.
    + split; cbn; [done|intros rv [= <-]; cbn; round_lia| |done].
      intros rv ?%Hl. eexists. by split.
    + split; cbn; [done|by right|done|by apply as_recent_set|done].
  - split; [apply move_wf; done || round_lia|apply move_later; by left].
  - destruct Hwf as [Hl Hv Hrec Hc]. split.
    + split; cbn; [done..|]. by split; eauto.
    + split; cbn; [done| |done|done|congruence].
      right. split; [done|]. destruct (State.step s); cbn; lia.
Qed.

Lemma reaches_wf s s' : state_wf s -> reaches s s' -> state_wf s' /\ later s s'.
Proof.
  intros Hwf Hr. induction Hr as [|s1 info i tr Hr [IHw IHl] Hnew Happly]; [done|].
  apply apply_sound in Happly.
  destruct (rule_later _ _ _ _ _ IHw Hnew Happly) as [Hw Hl]. split; [done|]. by etrans.
Qed.

Lemma new_wf h r : state_wf (State.new h r).
Proof. by split; cbn. Qed.

(** ** Panics *)

(** The inputs on which [apply] panics: a precommit timeout in the last round
    a [u32] can count, and a proposal with a proof of lock whose own round is
    not after the round of the proof. *)
Definition panics s info i : Prop :=
  s.(State.round) = info.(Info.input_round) /\
  match i with
  | Input.TimeoutPrecommit => s.(State.step) <> Step.Commit /\
      exists r, s.(State.round) = Round.Some r /\ (U32_MAX <= r)%N
  | Input.ProposalAndPolkaPrevious p => s.(State.step) = Step.Propose /\
      Round.is_defined (proposal_pol_round p) = true /\
      Round.lt (proposal_pol_round p) s.(State.round) /\
      Round.le (proposal_round p) (proposal_pol_round p)
  | _ => False
  end.

Lemma increment_panics r :
  ~ no_panic (Round.increment r) <-> exists n, r = Round.Some n /\ (U32_MAX <= n)%N.
Proof.
  destruct r as [|n]; cbn; [by split; [intros []; eexists|intros (? & ? & ?)]|].
  unfold add_u32. destruct (N.leb_spec (n + 1) U32_MAX); cbn; split.
  - intros []. by eexists.
  - intros (? & [= <-] & ?). lia.
  - intros _. exists n. split; [done|lia].
  - intros _ [? ?]. done.
Qed.

Lemma prevote_previous_panics s a p :
  Round.is_defined (proposal_pol_round p) = true ->
  ~ no_panic (prevote_previous s a p) <-> Round.le (proposal_round p) (proposal_pol_round p).
Proof.
  intros Hdef. unfold prevote_previous.
  assert (Round.leb (Round.Some 0) (proposal_pol_round p) = true) as ->.
  { destruct (proposal_pol_round p); [done|]. apply Round.leb_le. unfold Round.le. cbn. lia. }
  cbn. destruct (Round.ltb _ _) eqn:Hlt; cbn.
  - apply Round.ltb_lt in Hlt. split; [intros []; by eexists|]. intros ?. exfalso. round_lia.
  - apply Round.ltb_ge in Hlt. split; [done|]. by intros _ [? ?].
Qed.

Lemma prevote_no_panic s a p :
  Round.is_nil (proposal_pol_round p) = true -> no_panic (prevote s a p).
Proof. intros H. unfold prevote. destruct (proposal_pol_round p); [|done]. by eexists. Qed.

(** An invalid transition leaves the state as it is and outputs nothing. *)
Lemma apply_invalid s info i tr :
  apply s info i = Ret tr -> tr.(Transition.valid) = false ->
  tr.(Transition.next_state) = s /\ tr.(Transition.output) = None.
Proof.
  unfold apply, prevote, prevote_previous. intros H Hv. repeat case_match; inv_ret; try done;
    unfold propose_valid_or_get_value, precommit, commit in *; cbn in *; repeat case_match; done.
Qed.

(** ** The theorems *)

(** C35: the transition function refines the rules of the algorithm: every
    transition is one of their steps, with the guards the pseudo-code puts on
    prevotes, precommits, round changes and decisions, and an invalid
    transition changes nothing and outputs nothing. *)
Theorem apply_refines_rules s info i (tr : Transition.t)
  (Happly : apply s info i = Ret tr) :
  rule s info i tr.(Transition.next_state) tr.(Transition.output) /\
  (tr.(Transition.valid) = false ->
   tr.(Transition.next_state) = s /\ tr.(Transition.output) = None).
Proof. split; [by apply apply_sound|by eapply apply_invalid]. Qed.

(** from a fresh state, a node never goes back: its round and step only
    advance, its lock and valid value are only replaced by more recent ones, a
    decision is final, and every state is well-formed (the lock is not from a
    later round, the valid value is as recent as the lock, the step is
    [Commit] exactly when there is a decision). *)
Theorem state_advances (h : Height) (r : Round.t) s s'
  (Hs : reaches (State.new h r) s) (Hs' : reaches s s') :
  state_wf s' /\ later s s'.
Proof. eapply reaches_wf; [|done]. by eapply reaches_wf; [apply new_wf|]. Qed.

(** The transition function panics exactly on a precommit timeout in the
    last round a [u32] can count and on a proposal with a polka in a round
    between the proposal's own round and the current one. *)
Theorem apply_panics_iff s info i : ~ no_panic (apply s info i) <-> panics s info i.
Proof.
  assert (Hret : forall (A : Type) (a : A), ~ no_panic (Ret a) <-> False).
  { intros A a. split; [intros []; by eexists|done]. }
  unfold apply, panics, is_valid_pol_round.
  destruct (decide (s.(State.round) = info.(Info.input_round))) as [Heq|Hne];
    [rewrite (bool_decide_eq_true_2 _ Heq)|rewrite (bool_decide_eq_false_2 _ Hne)];
    destruct (State.step s) eqn:Hs, i; cbn [andb]; try (rewrite Hret; naive_solver);
    try (case_match; rewrite Hret; naive_solver);
    try (rewrite no_panic_bind_Ret, <- Heq, increment_panics; naive_solver).
  - destruct (Round.is_nil _) eqn:Hnil; [|rewrite Hret; naive_solver].
    pose proof (prevote_no_panic s info.(Info.address) _ Hnil). naive_solver.
  - destruct (Round.is_defined _) eqn:Hdef; cbn [andb]; [|rewrite Hret; naive_solver].
    rewrite <- Round.ltb_lt. destruct (Round.ltb _ _); [|rewrite Hret; naive_solver].
    rewrite prevote_previous_panics by done. naive_solver.
Qed.

End runs.

(** ** Witnesses *)

Section example.
#[local] Existing Instance N_context.

Let h : Height := SnHeight.INITIAL.
Let r0 := Round.Some 0.
Let info : Info.t := Info.new r0 (2%N : Address) (1%N : Address).
Let prop : Proposal := new_proposal h r0 (7%N : Value) Round.Nil (1%N : Address).
Let started : State.t := State.mk h r0 Step.Propose None None None.
Let prevoted : State.t := State.mk h r0 Step.Prevote None None None.
Let locked : State.t :=
  let rv := RoundValue.new (7%N : Value) r0 in State.mk h r0 Step.Precommit (Some rv) (Some rv) None.

Lemma apply_refines_rules_witness :
  rule prevoted info (Input.ProposalAndPolkaCurrent prop) locked
    (Some (Output.Vote (new_precommit h r0 (NilOrVal.Val (7%N : ValueId)) (2%N : Address)))).
Proof.
  exact (proj1 (apply_refines_rules prevoted info (Input.ProposalAndPolkaCurrent prop)
    (Transition.mk locked (Some (Output.Vote
       (new_precommit h r0 (NilOrVal.Val (7%N : ValueId)) (2%N : Address)))) true)
    ltac:(vm_refl))).
Defined.

Lemma reaches_started : reaches (State.new h Round.Nil) started.
Proof.
  refine (reaches_step _ (State.new h Round.Nil) info (Input.NewRound r0)
    (Transition.mk started (Some (Output.schedule_timeout r0 TimeoutKind.Propose)) true)
    (reaches_refl _) _ _); [|vm_refl].
  intros r [= <-]. vm_compute. discriminate.
Qed.

Lemma reaches_locked : reaches started locked.
Proof.
  refine (reaches_step _ prevoted info (Input.ProposalAndPolkaCurrent prop)
    (Transition.mk locked (Some (Output.Vote
       (new_precommit h r0 (NilOrVal.Val (7%N : ValueId)) (2%N : Address)))) true) _ _ _);
    [|done|vm_refl].
  refine (reaches_step _ started info (Input.Proposal prop)
    (Transition.mk prevoted (Some (Output.Vote
       (new_prevote h r0 (NilOrVal.Val (7%N : ValueId)) (2%N : Address)))) true)
    (reaches_refl _) _ _); [done|vm_refl].
Qed.

Lemma state_advances_witness : state_wf locked /\ later started locked.
Proof. exact (state_advances h Round.Nil started locked reaches_started reaches_locked). Defined.

End example.
