(* ===== verification/Agreement.v ===== *)
(** * Agreement of the round state machine

    A network of honest nodes, each running the state machine of
    [StateMachine], against a set of Byzantine validators of at most a third
    of the voting power. Votes an honest node outputs are broadcast; a
    Byzantine validator counts as having cast every vote. A node receives any
    sequence of inputs in which the inputs that claim a quorum
    ([ProposalAndPolkaPrevious], [ProposalAndPolkaCurrent],
    [ProposalAndPrecommitValue]) are backed by one, and in which a new round is
    never lower than the node's. No two honest nodes then decide different
    values. *)

From S2P Require Import Prelude Types Context Starknet StateMachine.

(** ** The network *)

Module Network.

Section network.
Context {Ctx : Context}.

(** The validator set of the height, its total power, the Byzantine
    validators, and the height. *)
Context (vs : ValidatorSet) (total : N) (byz : gset Address) (h : Height).

Record t : Type := mk {
  nodes : gmap Address State.t;
  sent : list Vote;
}.

Definition init : t := mk ∅ [].

Definition state_of (net : t) (a : Address) : State.t :=
  default (State.new h Round.Nil) (net.(nodes) !! a).

(** Does [w] vote for [id] in round [r]? *)
Definition votes_for (ty : VoteType.t) (r : Round.t) (id : ValueId) (w : Vote) : bool :=
  bool_decide (vote_type w = ty) && bool_decide (vote_round w = r) &&
  bool_decide (vote_value w = NilOrVal.Val id).

(** The validators that may have voted for [id] in round [r]. *)
Definition voters (sent : list Vote) (ty : VoteType.t) (r : Round.t) (id : ValueId)
    : gset Address :=
  byz ∪ list_to_set (vote_address <$> List.filter (votes_for ty r id) sent).

Definition quorum (sent : list Vote) (ty : VoteType.t) (r : Round.t) (id : ValueId) : Prop :=
  ThresholdParam.met ThresholdParam.TWO_F_PLUS_ONE
    (weight_of (power vs) (voters sent ty r id)) total.

#[global] Instance quorum_dec sent ty r id : Decision (quorum sent ty r id).
Proof. unfold quorum, ThresholdParam.met. apply _. Defined.

(** An input a node in state [s] may receive. *)
Definition enabled (sent : list Vote) (s : State.t) (i : Input.t) : Prop :=
  match i with
  | Input.NewRound r => Round.le s.(State.round) r
  | Input.ProposalAndPolkaPrevious p =>
      quorum sent VoteType.Prevote (proposal_pol_round p) (value_id (proposal_value p))
  | Input.ProposalAndPolkaCurrent p =>
      quorum sent VoteType.Prevote s.(State.round) (value_id (proposal_value p))
  | Input.ProposalAndPrecommitValue p =>
      quorum sent VoteType.Precommit (proposal_round p) (value_id (proposal_value p))
  | _ => True
  end.

#[global] Instance enabled_dec sent s i : Decision (enabled sent s i).
Proof. destruct i; cbn; apply _. Defined.

(** One node takes one input: [None] when the input is not enabled, the node
    is not honest, or its state machine panics. *)
Record event : Type := Event {
  node : Address;
  proposer : Address;
  input_round : Round.t;
  input : Input.t;
}.

Definition output_votes (o : option Output.t) : list Vote :=
  match o with Some (Output.Vote w) => [w] | _ => [] end.

Definition step (net : t) (e : event) : option t :=
  let s := state_of net e.(node) in
  if bool_decide (e.(node) ∈ byz) then None
  else if negb (bool_decide (enabled net.(sent) s e.(input))) then None
  else
    match apply s (Info.new e.(input_round) e.(node) e.(proposer)) e.(input) with
    | Ret tr => Some (mk (<[e.(node) := tr.(Transition.next_state)]> net.(nodes))
                         (net.(sent) ++ output_votes tr.(Transition.output)))
    | Panic _ => None
    end.

Fixpoint run (net : t) (es : list event) : option t :=
  match es with
  | [] => Some net
  | e :: es => net' ← step net e; run net' es
  end.

(** The value a node has decided, with its round. *)
Definition decided (net : t) (a : Address) : option RoundValue.t :=
  (state_of net a).(State.decision).

End network.
End Network.

(** ** The invariant *)

Section agreement.
Context {Ctx : Context} {Laws : ContextLaws}.
Context (vs : ValidatorSet) (total : N) (byz : gset Address) (h : Height).
Context (Htotal : total_voting_power vs = Ret total).
Context (Hbyz : (3 * weight_of (power vs) byz <= total)%N).

Implicit Types (sent : list Vote) (s : State.t) (w : Vote) (r : Round.t) (id : ValueId).

Local Abbreviation quorum := (Network.quorum vs total byz).
Local Abbreviation polka sent := (quorum sent VoteType.Prevote).

Lemma quorum_mono sent new ty r id : quorum sent ty r id -> quorum (sent ++ new) ty r id.
Proof.
  unfold Network.quorum, ThresholdParam.met. intros Hq.
  enough (weight_of (power vs) (Network.voters byz sent ty r id) <=
          weight_of (power vs) (Network.voters byz (sent ++ new) ty r id))%N by (cbn in *; lia).
  apply weight_of_mono. unfold Network.voters.
  rewrite List.filter_app, fmap_app, list_to_set_app_L. set_solver.
Qed.

Lemma votes_for_true ty r id w :
  Network.votes_for ty r id w = true <->
    vote_type w = ty /\ vote_round w = r /\ vote_value w = NilOrVal.Val id.
Proof.
  unfold Network.votes_for. rewrite !andb_true_iff, !bool_decide_eq_true. tauto.
Qed.

(** Two quorums share an honest voter. *)
Lemma quorums_intersect sent ty1 r1 id1 ty2 r2 id2 :
  quorum sent ty1 r1 id1 -> quorum sent ty2 r2 id2 ->
  exists w1 w2, w1 ∈ sent /\ w2 ∈ sent /\ (vote_address w1 ∉ byz) /\
    vote_address w1 = vote_address w2 /\
    Network.votes_for ty1 r1 id1 w1 = true /\ Network.votes_for ty2 r2 id2 w2 = true.
Proof.
  unfold Network.quorum, ThresholdParam.met. cbn. intros H1 H2.
  set (Q1 := Network.voters byz sent ty1 r1 id1) in *.
  set (Q2 := Network.voters byz sent ty2 r2 id2) in *.
  pose proof (weight_of_union_inter (power vs) Q1 Q2) as Hie.
  pose proof (powers_le_total vs total (Q1 ∪ Q2) Htotal) as Hle.
  destruct (decide (Q1 ∩ Q2 ⊆ byz)) as [Hsub|Hnsub].
  { apply (weight_of_mono (power vs)) in Hsub. lia. }
  assert (exists a, a ∈ (Q1 ∩ Q2) ∖ byz) as [a Ha].
  { apply set_choose_L. intros Hempty. apply Hnsub. intros x Hx.
    destruct (decide (x ∈ byz)); [done|]. set_solver. }
  assert (Hv : forall ty r id, a ∈ Network.voters byz sent ty r id -> a ∉ byz ->
    exists w, w ∈ sent /\ vote_address w = a /\ Network.votes_for ty r id w = true).
  { intros ty r id Hin Hb. unfold Network.voters in Hin.
    apply elem_of_union in Hin as [?|Hin]; [done|].
    apply elem_of_list_to_set, list_elem_of_fmap in Hin as (w & -> & Hw).
    rewrite list_elem_of_In in Hw. apply List.filter_In in Hw as [Hw ?].
    exists w. by rewrite list_elem_of_In. }
  destruct (Hv ty1 r1 id1) as (w1 & ? & Ha1 & ?); [set_solver..|].
  destruct (Hv ty2 r2 id2) as (w2 & ? & Ha2 & ?); [set_solver..|].
  exists w1, w2. rewrite Ha1, Ha2. split_and!; try done. set_solver.
Qed.

(** The vote [w] lies in the past of a node in state [s]: in an earlier
    round, or in this one and the step has reached rank [k]. *)
Definition past (k : nat) s w : Prop :=
  Round.lt (vote_round w) s.(State.round) \/
  vote_round w = s.(State.round) /\ k <= Step.rank s.(State.step).

Record node_inv sent (a : Address) s : Prop := {
  ni_prevote w : w ∈ sent -> vote_address w = a -> vote_type w = VoteType.Prevote -> past 2 s w;
  ni_precommit w : w ∈ sent -> vote_address w = a -> vote_type w = VoteType.Precommit -> past 3 s w;
  ni_lock w id : w ∈ sent -> vote_address w = a -> vote_type w = VoteType.Precommit ->
    vote_value w = NilOrVal.Val id ->
    exists rv, s.(State.locked) = Some rv /\ Round.le (vote_round w) rv.(RoundValue.round);
  ni_locked rv : s.(State.locked) = Some rv ->
    polka sent rv.(RoundValue.round) (value_id rv.(RoundValue.value)) /\
    (Round.lt rv.(RoundValue.round) s.(State.round) \/
     rv.(RoundValue.round) = s.(State.round) /\ 3 <= Step.rank s.(State.step));
  ni_decision rv : s.(State.decision) = Some rv ->
    quorum sent VoteType.Precommit rv.(RoundValue.round) (value_id rv.(RoundValue.value));
}.

(** After precommitting [id] in round [r], a node that prevotes [id'] in a
    later round [r'] was locked, in some round from [r] on, on a value with a
    polka, and [id'] is that value or has a polka in a round since the lock. *)
Definition lock_witness sent r r' id' : Prop :=
  exists lr lid, Round.le r lr /\ Round.lt lr r' /\ polka sent lr lid /\
    (lid = id' \/ exists vr, Round.le lr vr /\ Round.lt vr r' /\ polka sent vr id').

Record sent_inv sent : Prop := {
  si_unique w1 w2 : w1 ∈ sent -> w2 ∈ sent -> vote_address w1 = vote_address w2 ->
    vote_type w1 = vote_type w2 -> vote_round w1 = vote_round w2 ->
    vote_value w1 = vote_value w2;
  si_polka w id : w ∈ sent -> vote_type w = VoteType.Precommit ->
    vote_value w = NilOrVal.Val id -> polka sent (vote_round w) id;
  si_lock w w' id id' : w ∈ sent -> w' ∈ sent -> vote_address w = vote_address w' ->
    vote_type w = VoteType.Precommit -> vote_value w = NilOrVal.Val id ->
    vote_type w' = VoteType.Prevote -> vote_value w' = NilOrVal.Val id' ->
    Round.lt (vote_round w) (vote_round w') ->
    lock_witness sent (vote_round w) (vote_round w') id';
}.

Definition inv (net : Network.t) : Prop :=
  sent_inv net.(Network.sent) /\
  forall a, a ∉ byz -> node_inv net.(Network.sent) a (Network.state_of h net a).

Lemma lock_witness_mono sent new r r' id' :
  lock_witness sent r r' id' -> lock_witness (sent ++ new) r r' id'.
Proof.
  intros (lr & lid & ? & ? & Hp & Hor). exists lr, lid. split_and!; try done.
  { by apply quorum_mono. }
  destruct Hor as [->|(vr & ? & ? & Hvr)]; [by left|right].
  exists vr. split_and!; try done. by apply quorum_mono.
Qed.

Lemma node_inv_mono sent new a s :
  (forall w, w ∈ new -> vote_address w <> a) ->
  node_inv sent a s -> node_inv (sent ++ new) a s.
Proof.
  intros Hnew [Hpv Hpc Hl Hld Hd].
  split; intros *; try (intros [?|?]%elem_of_app Ha; [eauto|by destruct (Hnew w)]).
  - intros [? ?]%Hld. split; [by apply quorum_mono|done].
  - intros ?%Hd. by apply quorum_mono.
Qed.

(** ** Preservation *)

Lemma past_advance k s s' w :
  past k s w ->
  Round.lt s.(State.round) s'.(State.round) \/
  s.(State.round) = s'.(State.round) /\ Step.rank s.(State.step) <= Step.rank s'.(State.step) ->
  past k s' w.
Proof.
  unfold past. intros [?|[Heq ?]] [?|[Heq' ?]].
  - left. round_lia.
  - left. by rewrite <- Heq'.
  - left. by rewrite Heq.
  - right. split; [congruence|lia].
Qed.

(** A node that keeps its lock and moves forward. *)
Lemma node_inv_advance sent a s s' :
  node_inv sent a s -> s'.(State.locked) = s.(State.locked) ->
  Round.lt s.(State.round) s'.(State.round) \/
  s.(State.round) = s'.(State.round) /\ Step.rank s.(State.step) <= Step.rank s'.(State.step) ->
  (forall rv, s'.(State.decision) = Some rv ->
    quorum sent VoteType.Precommit rv.(RoundValue.round) (value_id rv.(RoundValue.value))) ->
  node_inv sent a s'.
Proof.
  intros [Hpv Hpc Hl Hld Hd] Hlocked Hadv Hdec. split; try done.
  - intros w ???. eapply past_advance; eauto.
  - intros w ???. eapply past_advance; eauto.
  - rewrite Hlocked. done.
  - rewrite Hlocked. intros rv [? Hr]%Hld. split; [done|].
    destruct Hr as [?|[-> ?]], Hadv as [?|[<- ?]]; [left; round_lia|by left|by left|].
    right. split; [done|lia].
Qed.

(** A node that locks the value of a polka of its round. *)
Lemma node_inv_precommit sent a s v :
  node_inv sent a s -> s.(State.step) = Step.Prevote -> polka sent s.(State.round) (value_id v) ->
  node_inv sent a (State.with_step (State.set_valid (State.set_locked s v) v) Step.Precommit).
Proof.
  intros [Hpv Hpc Hl Hld Hd] Hstep Hpolka.
  assert (Hle : Step.rank s.(State.step) <= 3) by (rewrite Hstep; cbn; lia).
  split; cbn.
  - intros w ???. eapply past_advance; [by eauto|]. by right.
  - intros w ???. eapply past_advance; [by eauto|]. by right.
  - intros w id Hw Ha Ht _. eexists; split; [done|]. cbn.
    destruct (Hpc w Hw Ha Ht) as [?|[-> _]]; round_lia.
  - intros rv [= <-]. cbn. split; [done|]. right. split; [done|lia].
  - done.
Qed.

(** A node's own vote. *)
Lemma node_inv_vote sent a s w :
  node_inv sent a s ->
  (vote_type w = VoteType.Prevote -> past 2 s w) ->
  (vote_type w = VoteType.Precommit -> past 3 s w) ->
  (forall id, vote_type w = VoteType.Precommit -> vote_value w = NilOrVal.Val id ->
    exists rv, s.(State.locked) = Some rv /\ Round.le (vote_round w) rv.(RoundValue.round)) ->
  node_inv (sent ++ [w]) a s.
Proof.
  intros [Hpv Hpc Hl Hld Hd] H2 H3 H4. split.
  - intros w' [?| ->]%elem_snoc; eauto.
  - intros w' [?| ->]%elem_snoc; eauto.
  - intros w' id [?| ->]%elem_snoc; eauto.
  - intros rv [? ?]%Hld. split; [by apply quorum_mono|done].
  - intros rv ?%Hd. by apply quorum_mono.
Qed.

(** Adding a vote no other vote of the same node, type and round precedes. *)
Lemma sent_inv_vote sent w :
  sent_inv sent ->
  (forall w0, w0 ∈ sent -> vote_address w0 = vote_address w -> vote_type w0 = vote_type w ->
    vote_round w0 <> vote_round w) ->
  (forall id, vote_type w = VoteType.Precommit -> vote_value w = NilOrVal.Val id ->
    polka sent (vote_round w) id) ->
  (vote_type w = VoteType.Precommit -> forall w0, w0 ∈ sent -> vote_address w0 = vote_address w ->
    Round.le (vote_round w0) (vote_round w)) ->
  (forall w0 id id', w0 ∈ sent -> vote_address w0 = vote_address w ->
    vote_type w0 = VoteType.Precommit -> vote_value w0 = NilOrVal.Val id ->
    vote_type w = VoteType.Prevote -> vote_value w = NilOrVal.Val id' ->
    Round.lt (vote_round w0) (vote_round w) ->
    lock_witness sent (vote_round w0) (vote_round w) id') ->
  sent_inv (sent ++ [w]).
Proof.
  intros [Hu Hp Hl] Hfresh Hpolka Hle Hlock. split.
  - intros w1 w2 [?| ->]%elem_snoc [?| ->]%elem_snoc;
      intros; eauto; exfalso; [by eapply (Hfresh w1)|by eapply (Hfresh w2)].
  - intros w1 id [?| ->]%elem_snoc; intros; apply quorum_mono; eauto.
  - intros w1 w2 id id' [?| ->]%elem_snoc
      [?| ->]%elem_snoc Ha Ht Hv Ht' Hv' Hlt.
    + apply lock_witness_mono. by apply (Hl w1 w2 id).
    + apply lock_witness_mono. by apply (Hlock w1 id).
    + exfalso. specialize (Hle Ht w2). apply (Round.lt_irrefl (vote_round w)).
      specialize (Hle ltac:(done) ltac:(done)). round_lia.
    + exfalso. congruence.
Qed.

(** The effect of one transition of the acting node [a]. *)
Definition preserved sent a s' o : Prop :=
  let sent' := sent ++ Network.output_votes o in
  sent_inv sent' /\ node_inv sent' a s' /\
  forall w, w ∈ Network.output_votes o -> vote_address w = a.

Lemma preserved_no_vote sent a s' o :
  sent_inv sent -> node_inv sent a s' -> Network.output_votes o = [] -> preserved sent a s' o.
Proof.
  intros Hs Hn Ho. unfold preserved. rewrite Ho, app_nil_r. split_and!; try done.
  by intros w ?%elem_of_nil.
Qed.

Lemma quiet_output_votes (o : option Output.t) : quiet_output o -> Network.output_votes o = [].
Proof. by destruct o as [[]|]. Qed.

(** The lock of a prevoting node bears witness to its precommits. *)
Lemma prevote_lock_witness sent a s i v id' w0 id :
  node_inv sent a s -> s.(State.step) = Step.Propose ->
  Network.enabled vs total byz sent s i -> prevote_justified s i v -> v = NilOrVal.Val id' ->
  w0 ∈ sent -> vote_address w0 = a -> vote_type w0 = VoteType.Precommit ->
  vote_value w0 = NilOrVal.Val id ->
  lock_witness sent (vote_round w0) s.(State.round) id'.
Proof.
  intros Hn Hstep Hen Hj -> Hw0 Ha0 Ht0 Hv0.
  destruct (ni_lock _ _ _ Hn w0 id Hw0 Ha0 Ht0 Hv0) as (rv & Hrv & Hle).
  destruct (ni_locked _ _ _ Hn rv Hrv) as [Hpolka Hlt].
  rewrite Hstep in Hlt. destruct Hlt as [Hlt|[_ ?]]; [|cbn in *; lia].
  destruct Hj as (p & -> & [(-> & _ & Hla)|(-> & _ & Hvr & Hla)]);
    exists rv.(RoundValue.round), (value_id rv.(RoundValue.value)); split_and!; try done.
  - left. by apply Hla.
  - destruct (Hla rv Hrv) as [?|?]; [right|by left]. by exists (proposal_pol_round p).
Qed.

Lemma preserved_prevote sent a s i v :
  sent_inv sent -> node_inv sent a s -> s.(State.step) = Step.Propose ->
  Network.enabled vs total byz sent s i -> prevote_justified s i v ->
  preserved sent a (State.with_step s Step.Prevote)
    (Some (Output.Vote (new_prevote s.(State.height) s.(State.round) v a))).
Proof.
  intros Hs Hn Hstep Hen Hj. unfold preserved. cbn.
  destruct (new_prevote_spec s.(State.height) s.(State.round) v a) as (_ & Hr & Hv & Ht & Ha).
  set (w := new_prevote _ _ _ _) in *. split_and!.
  - apply sent_inv_vote; [done|..]; rewrite ?Hr, ?Ht, ?Ha, ?Hv; try done.
    + intros w0 Hw0 Ha0 Ht0 Heq.
      destruct (ni_prevote _ _ _ Hn w0 Hw0 Ha0 Ht0) as [?|[_ Hk]].
      * rewrite Heq in *. by eapply Round.lt_irrefl.
      * rewrite Hstep in Hk. cbn in Hk. lia.
    + intros w0 id id' Hw0 Ha0 Ht0 Hv0 _ Hv' _. by eapply prevote_lock_witness.
  - apply node_inv_vote; rewrite ?Ht; try done.
    + eapply node_inv_advance; [done..| |exact (ni_decision _ _ _ Hn)].
      right. rewrite Hstep. cbn. split; [done|lia].
    + intros _. right. rewrite Hr. cbn. split; [done|lia].
  - intros w' ->%list_elem_of_singleton. done.
Qed.

Lemma preserved_precommit sent a s s' v :
  sent_inv sent -> node_inv sent a s -> node_inv sent a s' ->
  s.(State.step) = Step.Prevote -> s'.(State.step) = Step.Precommit ->
  s'.(State.round) = s.(State.round) ->
  (forall id, v = NilOrVal.Val id -> polka sent s.(State.round) id /\
    exists rv, s'.(State.locked) = Some rv /\ Round.le s.(State.round) rv.(RoundValue.round)) ->
  preserved sent a s'
    (Some (Output.Vote (new_precommit s.(State.height) s.(State.round) v a))).
Proof.
  intros Hs Hn Hn' Hstep Hstep' Hround Hval. unfold preserved. cbn.
  destruct (new_precommit_spec s.(State.height) s.(State.round) v a) as (_ & Hr & Hv & Ht & Ha).
  set (w := new_precommit _ _ _ _) in *. split_and!.
  - apply sent_inv_vote; [done|..]; rewrite ?Hr, ?Ht, ?Ha, ?Hv; try done.
    + intros w0 Hw0 Ha0 Ht0 Heq.
      destruct (ni_precommit _ _ _ Hn w0 Hw0 Ha0 Ht0) as [?|[_ Hk]].
      * rewrite Heq in *. by eapply Round.lt_irrefl.
      * rewrite Hstep in Hk. cbn in Hk. lia.
    + intros id _ Hid. by apply (Hval id).
    + intros _ w0 Hw0 Ha0. destruct (vote_type w0) eqn:Ht0.
      * destruct (ni_prevote _ _ _ Hn w0 Hw0 Ha0 Ht0) as [?|[-> _]]; round_lia.
      * destruct (ni_precommit _ _ _ Hn w0 Hw0 Ha0 Ht0) as [?|[-> _]]; round_lia.
  - apply node_inv_vote; rewrite ?Ht, ?Hr, ?Hv; try done.
    + intros _. right. rewrite Hr, Hround, Hstep'. cbn. split; [done|lia].
    + intros id _ Hid. by destruct (Hval id Hid).
  - intros w' ->%list_elem_of_singleton. done.
Qed.

Lemma rule_preserves sent a s s' o info i :
  sent_inv sent -> node_inv sent a s -> info.(Info.address) = a ->
  Network.enabled vs total byz sent s i -> rule s info i s' o ->
  preserved sent a s' o.
Proof.
  intros Hs Hn Ha Hen Hrule. destruct Hrule; subst.
  - by apply preserved_no_vote; [..|apply quiet_output_votes].
  - apply preserved_no_vote; [done| |by apply quiet_output_votes].
    eapply node_inv_advance; [done..| |exact (ni_decision _ _ _ Hn)].
    cbn in *. destruct (decide (s.(State.round) = r)) as [->|?].
    + right. rewrite H. cbn. split; [done|lia].
    + left. assert (Round.as_i64 s.(State.round) <> Round.as_i64 r)
        by (by intros ?%Round.as_i64_inj). round_lia.
  - by eapply preserved_prevote.
  - apply preserved_precommit; try done. eapply node_inv_advance; [done..| |exact (ni_decision _ _ _ Hn)].
    right. rewrite H. cbn. split; [done|lia].
  - apply preserved_precommit; try done; [by apply node_inv_precommit|].
    intros id [= <-]. split; [done|]. eexists; split; [done|]. cbn. round_lia.
  - apply preserved_no_vote; try done. eapply node_inv_advance; [done..| |exact (ni_decision _ _ _ Hn)].
    by right.
  - apply preserved_no_vote; try done. eapply node_inv_advance; [done..| |exact (ni_decision _ _ _ Hn)].
    by left.
  - apply preserved_no_vote; try done. eapply node_inv_advance; [done..| |].
    + right. cbn. split; [done|]. destruct (State.step s); cbn; lia.
    + cbn. by intros rv [= <-].
Qed.

Lemma inv_init : inv Network.init.
Proof.
  split; [split; intros * ?%elem_of_nil; done|].
  intros a _. unfold Network.state_of. cbn. rewrite lookup_empty. cbn.
  split; cbn; intros *; try (intros ?%elem_of_nil; done); done.
Qed.

Lemma state_of_insert net a s sent b :
  Network.state_of h (Network.mk (<[a := s]> net.(Network.nodes)) sent) b =
  if decide (a = b) then s else Network.state_of h net b.
Proof. unfold Network.state_of. cbn. rewrite lookup_insert. by case_decide. Qed.

Lemma inv_step net net' e :
  inv net -> Network.step vs total byz h net e = Some net' -> inv net'.
Proof.
  intros [Hs Hn] Hstep. unfold Network.step in Hstep.
  case_bool_decide as Hhonest; [done|]. case_bool_decide as Hen; [|done]. cbn in Hstep.
  destruct (apply _ _ _) as [tr|] eqn:Happly; simplify_eq.
  apply apply_sound in Happly.
  edestruct rule_preserves as (Hs' & Ha & Hout); [exact Hs|by apply Hn| |exact Hen|exact Happly|].
  { done. }
  split; [done|]. intros b Hb. rewrite state_of_insert. cbn. case_decide as Heq; [by subst|].
  apply node_inv_mono; [|by apply Hn]. intros w Hw Hwb. apply Heq.
  rewrite <- Hwb. symmetry. by apply Hout.
Qed.

Lemma inv_run net net' es :
  inv net -> Network.run vs total byz h net es = Some net' -> inv net'.
Proof.
  revert net. induction es as [|e es IH]; intros net Hinv; cbn; [by intros [= <-]|].
  destruct (Network.step _ _ _ _ net e) as [net1|] eqn:Hstep; cbn; [|done].
  intros. eapply IH; [|done]. by eapply inv_step.
Qed.

(** ** Locking

    Once a quorum has precommitted [id] in round [r], every polka of a round
    from [r] on is for [id]. *)

Lemma precommit_quorum_polka sent r id :
  sent_inv sent -> quorum sent VoteType.Precommit r id -> polka sent r id.
Proof.
  intros Hs Hq. destruct (quorums_intersect _ _ _ _ _ _ _ Hq Hq)
    as (w & _ & Hw & _ & _ & _ & (Ht & Hr & Hv)%votes_for_true & _).
  rewrite <- Hr. by apply (si_polka _ Hs w).
Qed.

Lemma polka_unique sent r id id' :
  sent_inv sent -> polka sent r id -> polka sent r id' -> id = id'.
Proof.
  intros Hs H1 H2. destruct (quorums_intersect _ _ _ _ _ _ _ H1 H2)
    as (w1 & w2 & Hw1 & Hw2 & _ & Ha & (Ht1 & Hr1 & Hv1)%votes_for_true &
        (Ht2 & Hr2 & Hv2)%votes_for_true).
  enough (vote_value w1 = vote_value w2) by congruence.
  apply (si_unique _ Hs); congruence.
Qed.

Lemma locked_value sent r id r' id' :
  sent_inv sent -> quorum sent VoteType.Precommit r id ->
  Round.le r r' -> polka sent r' id' -> id' = id.
Proof.
  intros Hs Hq. remember (Z.to_nat (Round.as_i64 r' - Round.as_i64 r)) as n eqn:Hn.
  revert r' id' Hn. induction n as [n IH] using lt_wf_ind. intros r' id' Hn Hle Hp.
  assert (IH' : forall r2 id2, Round.le r r2 -> Round.lt r2 r' -> polka sent r2 id2 -> id2 = id).
  { intros r2 id2 ???. eapply IH; [|reflexivity|done..]. unfold Round.le, Round.lt in *. lia. }
  destruct (decide (r = r')) as [<-|Hne].
  { apply (polka_unique sent r); [done..|]. by apply precommit_quorum_polka. }
  destruct (quorums_intersect _ _ _ _ _ _ _ Hq Hp)
    as (w & w' & Hw & Hw' & _ & Ha & (Ht & <- & Hv)%votes_for_true &
        (Ht' & <- & Hv')%votes_for_true).
  assert (Hlt : Round.lt (vote_round w) (vote_round w')).
  { assert (Round.as_i64 (vote_round w) <> Round.as_i64 (vote_round w'))
      by (by intros ?%Round.as_i64_inj). round_lia. }
  destruct (si_lock _ Hs w w' id id') as (lr & lid & Hle1 & Hlt1 & Hpl & Hor); try done.
  pose proof (IH' _ _ Hle1 Hlt1 Hpl) as ->.
  destruct Hor as [->|(vr & ? & ? & ?)]; [done|]. apply (IH' vr); round_lia || done.
Qed.

Lemma decisions_agree sent r1 id1 r2 id2 :
  sent_inv sent -> quorum sent VoteType.Precommit r1 id1 ->
  quorum sent VoteType.Precommit r2 id2 -> id1 = id2.
Proof.
  intros Hs H1 H2. destruct (decide (Round.le r1 r2)) as [Hle|Hnle].
  - symmetry. eapply (locked_value _ r1 id1 r2); eauto using precommit_quorum_polka.
  - eapply (locked_value _ r2 id2 r1); eauto using precommit_quorum_polka. round_lia.
Qed.

End agreement.

(** ** The theorems *)

(** C1: agreement. In every run of the network in which Byzantine validators
    hold at most a third of the total power, any two honest nodes that have
    decided have decided values with the same identifier. *)
Theorem agreement {Ctx : Context} {Laws : ContextLaws}
    (vs : ValidatorSet) (total : N) (byz : gset Address) (h : Height)
    (es : list Network.event) (net : Network.t)
    (a1 a2 : Address) (d1 d2 : RoundValue.t)
    (Htotal : total_voting_power vs = Ret total)
    (Hbyz : (3 * weight_of (power vs) byz <= total)%N)
    (Hrun : Network.run vs total byz h Network.init es = Some net)
    (Ha1 : a1 ∉ byz) (Ha2 : a2 ∉ byz)
    (Hd1 : Network.decided h net a1 = Some d1)
    (Hd2 : Network.decided h net a2 = Some d2) :
  value_id d1.(RoundValue.value) = value_id d2.(RoundValue.value).
Proof.
  assert (inv vs total byz h net) as [Hs Hn] by eauto using inv_run, inv_init.
  destruct (Hn a1 Ha1) as [_ _ _ _ Hq1], (Hn a2 Ha2) as [_ _ _ _ Hq2].
  exact (decisions_agree _ _ _ Htotal Hbyz _ _ _ _ _ Hs (Hq1 _ Hd1) (Hq2 _ Hd2)).
Qed.

(** A run of four validators, one of them Byzantine, in which two honest nodes
    decide in round 0: nodes 1, 2 and 3 start the round, prevote the proposal
    of node 1, precommit on the polka, and nodes 1 and 2 commit. *)
Section example.
#[local] Existing Instance N_context.

Let h : Height := SnHeight.INITIAL.
Let r0 := Round.Some 0.
Let prop : Proposal := new_proposal h r0 (7%N : Value) Round.Nil (1%N : Address).
Let round_of (a : N) : list Network.event :=
  [Network.Event (a : Address) (1%N : Address) r0 (Input.NewRound r0);
   Network.Event (a : Address) (1%N : Address) r0 (Input.Proposal prop)].
Let lock_of (a : N) : Network.event :=
  Network.Event (a : Address) (1%N : Address) r0 (Input.ProposalAndPolkaCurrent prop).
Let commit_of (a : N) : Network.event :=
  Network.Event (a : Address) (1%N : Address) r0 (Input.ProposalAndPrecommitValue prop).

Definition example_run : list Network.event :=
  round_of 1 ++ round_of 2 ++ round_of 3 ++
  [lock_of 1; lock_of 2; lock_of 3; commit_of 1; commit_of 2].

Definition example_byz : gset Address := {[4%N]}.

Definition example_net : Network.t :=
  default Network.init (Network.run four_validators 4 example_byz h Network.init example_run).

Lemma agreement_witness : exists d1 d2,
  Network.decided h example_net (1%N : Address) = Some d1 /\
  Network.decided h example_net (2%N : Address) = Some d2 /\
  value_id d1.(RoundValue.value) = value_id d2.(RoundValue.value).
Proof.
  pose (d := RoundValue.new (7%N : Value) r0).
  assert (Hd1 : Network.decided h example_net (1%N : Address) = Some d) by vm_refl.
  assert (Hd2 : Network.decided h example_net (2%N : Address) = Some d) by vm_refl.
  exists d, d. split; [exact Hd1|split; [exact Hd2|]].
  refine (agreement (Laws := N_context_laws) four_validators 4 example_byz h example_run
            example_net (1%N : Address) (2%N : Address) d d _ _ _ _ _ Hd1 Hd2);
    [vm_refl|vm_decide|vm_refl|vm_decide|vm_decide].
Defined.
End example.
