(* ===== verification/VoteKeeper.v ===== *)
(** * The vote keeper

    The crate [core-votekeeper]: the weight of each value
    (value_weights.rs) and of each validator (round_weights.rs), the votes of
    one type (count.rs) and of one round (round_votes.rs), the evidence of
    equivocation (evidence.rs), and the keeper itself (keeper.rs), which
    tallies votes and reports the thresholds they reach.

    A [BTreeMap] is a [gmap] and a [BTreeSet] a [gset]: the code iterates over
    them only to sum weights and to take a maximum, and both are independent
    of the order. A method that takes [&mut self] returns the new state. *)

From S2P Require Import Prelude Types Context Starknet.

Abbreviation Weight := N.

(** ** Weights of values (value_weights.rs) *)

Module ValuesWeights.
Section values_weights.
Context {V : Type} `{Countable V}.

Definition new : gmap V Weight := ∅.

Definition add (self : gmap V Weight) (value : V) (weight : Weight)
    : outcome (gmap V Weight * Weight) :=
  let entry := default 0%N (self !! value) in
  w ← expect (checked_add entry weight) "attempt to add with overflow";
  Ret (<[value := w]> self, w).

Definition get (self : gmap V Weight) (value : V) : Weight := default 0%N (self !! value).

Definition sum (self : gmap V Weight) : outcome Weight :=
  sum_u64 "attempt to sum with overflow" (map_to_list self).*2.

End values_weights.
End ValuesWeights.

(** ** Weights of validators (round_weights.rs) *)

Module RoundWeights.
Section round_weights.
Context {A : Type} `{Countable A}.

Definition new : gmap A Weight := ∅.

Definition set_once (self : gmap A Weight) (address : A) (weight : Weight) : gmap A Weight :=
  match self !! address with
  | None => <[address := weight]> self
  | Some _ => self
  end.

Definition get (self : gmap A Weight) (address : A) : Weight := default 0%N (self !! address).

Definition sum (self : gmap A Weight) : outcome Weight :=
  sum_u64 "attempt to add with overflow" (map_to_list self).*2.

End round_weights.
End RoundWeights.

(** ** Votes of one type (count.rs) *)

Module VoteCount.
Record t {Ctx : Context} : Type := mk {
  values_weights : gmap (NilOrVal.t ValueId) Weight;
  validator_addresses : gset Address;
}.
Arguments mk {Ctx} values_weights validator_addresses.

Section vote_count.
Context {Ctx : Context}.

Definition new : t := mk ValuesWeights.new ∅.

Definition add (self : t) (vote : Vote) (weight : Weight) : outcome (t * Weight) :=
  if bool_decide (vote_address vote ∈ self.(validator_addresses))
  then Ret (self, ValuesWeights.get self.(values_weights) (vote_value vote))
  else
    let addrs := {[vote_address vote]} ∪ self.(validator_addresses) in
    '(vw, w) ← ValuesWeights.add self.(values_weights) (vote_value vote) weight;
    Ret (mk vw addrs, w).

Definition get (self : t) (value : NilOrVal.t ValueId) : Weight :=
  ValuesWeights.get self.(values_weights) value.

Definition sum (self : t) : outcome Weight := ValuesWeights.sum self.(values_weights).

Definition is_threshold_met (self : t) (threshold : Threshold.t ValueId)
    (param : ThresholdParam.t) (total_weight : Weight) : outcome bool :=
  match threshold with
  | Threshold.Value value =>
      let weight := ValuesWeights.get self.(values_weights) (NilOrVal.Val value) in
      ThresholdParam.is_met param weight total_weight
  | Threshold.Nil =>
      let weight := ValuesWeights.get self.(values_weights) NilOrVal.Nil in
      ThresholdParam.is_met param weight total_weight
  | Threshold.Any =>
      sum_weight ← ValuesWeights.sum self.(values_weights);
      ThresholdParam.is_met param sum_weight total_weight
  | Threshold.Unreached => Ret false
  end.

End vote_count.
End VoteCount.

(** ** Votes of one round (round_votes.rs) *)

Module RoundVotes.
Record t {Ctx : Context} : Type := mk {
  prevotes : VoteCount.t;
  precommits : VoteCount.t;
}.
Arguments mk {Ctx} prevotes precommits.

Section round_votes.
Context {Ctx : Context}.

Definition new : t := mk VoteCount.new VoteCount.new.

(** The counter of a vote type: the [match vote_type] of every method. *)
Definition count_of (self : t) (ty : VoteType.t) : VoteCount.t :=
  match ty with VoteType.Prevote => self.(prevotes) | VoteType.Precommit => self.(precommits) end.

Definition add_vote (self : t) (vote : Vote) (weight : Weight) : outcome (t * Weight) :=
  match vote_type vote with
  | VoteType.Prevote =>
      '(c, w) ← VoteCount.add self.(prevotes) vote weight; Ret (mk c self.(precommits), w)
  | VoteType.Precommit =>
      '(c, w) ← VoteCount.add self.(precommits) vote weight; Ret (mk self.(prevotes) c, w)
  end.

Definition get_weight (self : t) (ty : VoteType.t) (value : NilOrVal.t ValueId) : Weight :=
  VoteCount.get (count_of self ty) value.
Definition weight_sum (self : t) (ty : VoteType.t) : outcome Weight :=
  VoteCount.sum (count_of self ty).
Definition combined_weight (self : t) (value : NilOrVal.t ValueId) : outcome Weight :=
  add_u64 (VoteCount.get self.(prevotes) value) (VoteCount.get self.(precommits) value).
Definition is_threshold_met (self : t) (ty : VoteType.t) (threshold : Threshold.t ValueId)
    (param : ThresholdParam.t) (total_weight : Weight) : outcome bool :=
  VoteCount.is_threshold_met (count_of self ty) threshold param total_weight.

End round_votes.
End RoundVotes.

(** ** Evidence of equivocation (evidence.rs) *)

Module EvidenceMap.
Section evidence.
Context {Ctx : Context}.

Definition new : gmap Address (list (SignedVote * SignedVote)) := ∅.
Definition is_empty (self : gmap Address (list (SignedVote * SignedVote))) : bool :=
  bool_decide (map_to_list self = []).
Definition get (self : gmap Address (list (SignedVote * SignedVote))) (address : Address)
    : option (list (SignedVote * SignedVote)) := self !! address.

Definition add (self : gmap Address (list (SignedVote * SignedVote)))
    (existing vote : SignedVote) : gmap Address (list (SignedVote * SignedVote)) :=
  match self !! sv_address vote with
  | Some evidence => <[sv_address vote := evidence ++ [(existing, vote)]]> self
  | None => <[sv_address vote := [(existing, vote)]]> self
  end.

End evidence.
End EvidenceMap.

(** ** The keeper (keeper.rs) *)

Module VKOutput.
Inductive t (V : Type) : Type :=
  | PolkaAny
  | PolkaNil
  | PolkaValue (v : V)
  | PrecommitAny
  | PrecommitValue (v : V)
  | SkipRound (r : Round.t).
Arguments PolkaAny {V}.
Arguments PolkaNil {V}.
Arguments PolkaValue {V} v.
Arguments PrecommitAny {V}.
Arguments PrecommitValue {V} v.
Arguments SkipRound {V} r.

#[global] Instance t_eq_dec {V} `{EqDecision V} : EqDecision (t V).
Proof. solve_decision. Defined.

#[global] Instance t_countable {V} `{Countable V} : Countable (t V).
Proof.
  refine (inj_countable'
    (fun o => match o with
      | PolkaAny => inl (inl 0) | PolkaNil => inl (inl 1) | PrecommitAny => inl (inl 2)
      | PolkaValue v => inl (inr (true, v)) | PrecommitValue v => inl (inr (false, v))
      | SkipRound r => inr r end)
    (fun e => match e with
      | inl (inl 0) => PolkaAny | inl (inl 1) => PolkaNil | inl (inl _) => PrecommitAny
      | inl (inr (true, v)) => PolkaValue v | inl (inr (false, v)) => PrecommitValue v
      | inr r => SkipRound r end) _).
  by intros [].
Defined.
End VKOutput.

Module PerRound.
Record t {Ctx : Context} : Type := mk {
  votes : RoundVotes.t;
  addresses_weights : gmap Address Weight;
  received_votes : list SignedVote;
  emitted_outputs : gset (VKOutput.t ValueId);
}.
Arguments mk {Ctx} votes addresses_weights received_votes emitted_outputs.

Section per_round.
Context {Ctx : Context}.

(** [PerRound::new], and [with_expected_number_of_votes]: the capacity of the
    vector is not observable. *)
Definition new : t := mk RoundVotes.new RoundWeights.new [] ∅.

(** [self.emitted_outputs.insert(output)]. *)
Definition emit (self : t) (output : VKOutput.t ValueId) : t :=
  mk self.(votes) self.(addresses_weights) self.(received_votes)
     ({[output]} ∪ self.(emitted_outputs)).

Definition get_vote (self : t) (ty : VoteType.t) (address : Address) : option SignedVote :=
  List.find (fun v => bool_decide (sv_type v = ty) && bool_decide (sv_address v = address))
    self.(received_votes).

(** [Result<(), RecordVoteError>]: [inl] carries the existing and the
    conflicting vote of [ConflictingVote]. *)
Definition add (self : t) (vote : SignedVote) (weight : Weight)
    : outcome (t * (SignedVote * SignedVote + unit)) :=
  let tally :=
    '(vs, _) ← RoundVotes.add_vote self.(votes) vote.(SignedMessage.message) weight;
    Ret (mk vs
           (RoundWeights.set_once self.(addresses_weights) (sv_address vote) weight)
           (self.(received_votes) ++ [vote]) self.(emitted_outputs), inr tt) in
  match get_vote self (sv_type vote) (sv_address vote) with
  | Some existing =>
      if negb (bool_decide (sv_value existing = sv_value vote))
      then Ret (self, inl (existing, vote))
      else tally
  | None => tally
  end.

End per_round.
End PerRound.

Section thresholds.
Context {Ctx : Context}.

Definition compute_threshold (vote_type : VoteType.t) (round : PerRound.t)
    (value : NilOrVal.t ValueId) (thresholds : ThresholdParams.t) (total_weight : Weight)
    : outcome (Threshold.t ValueId) :=
  let weight := RoundVotes.get_weight round.(PerRound.votes) vote_type value in
  let otherwise :=
    weight_sum ← RoundVotes.weight_sum round.(PerRound.votes) vote_type;
    met ← ThresholdParam.is_met thresholds.(ThresholdParams.quorum) weight_sum total_weight;
    Ret (if met : bool then Threshold.Any else Threshold.Unreached) in
  met ← ThresholdParam.is_met thresholds.(ThresholdParams.quorum) weight total_weight;
  match value with
  | NilOrVal.Val v => if met : bool then Ret (Threshold.Value v) else otherwise
  | NilOrVal.Nil => if met : bool then Ret Threshold.Nil else otherwise
  end.

Definition threshold_to_output (typ : VoteType.t) (threshold : Threshold.t ValueId)
    : option (VKOutput.t ValueId) :=
  match typ, threshold with
  | _, Threshold.Unreached => None
  | VoteType.Prevote, Threshold.Any => Some VKOutput.PolkaAny
  | VoteType.Prevote, Threshold.Nil => Some VKOutput.PolkaNil
  | VoteType.Prevote, Threshold.Value v => Some (VKOutput.PolkaValue v)
  | VoteType.Precommit, Threshold.Any => Some VKOutput.PrecommitAny
  | VoteType.Precommit, Threshold.Nil => Some VKOutput.PrecommitAny
  | VoteType.Precommit, Threshold.Value v => Some (VKOutput.PrecommitValue v)
  end.

End thresholds.

Module VoteKeeper.
Record t {Ctx : Context} : Type := mk {
  validator_set : ValidatorSet;
  threshold_params : ThresholdParams.t;
  per_round : gmap Round.t PerRound.t;
  evidence : gmap Address (list (SignedVote * SignedVote));
}.
Arguments mk {Ctx} validator_set threshold_params per_round evidence.

Section keeper.
Context {Ctx : Context}.

Definition new (validator_set : ValidatorSet) (threshold_params : ThresholdParams.t) : t :=
  mk validator_set threshold_params ∅ EvidenceMap.new.

Definition total_weight (self : t) : outcome Weight := total_voting_power self.(validator_set).

Definition get_round (self : t) (round : Round.t) : option PerRound.t := self.(per_round) !! round.

Definition rounds (self : t) : nat := size self.(per_round).

Definition max_round (self : t) : Round.t :=
  foldr (fun r m => if Round.ltb m r then r else m) Round.Nil (map_to_list self.(per_round)).*1.

Definition has_vote (self : t) (vote : SignedVote) : bool :=
  match self.(per_round) !! sv_round vote with
  | Some pr => bool_decide (vote ∈ pr.(PerRound.received_votes))
  | None => false
  end.

Definition set_round (self : t) (round : Round.t) (pr : PerRound.t) : t :=
  mk self.(validator_set) self.(threshold_params) (<[round := pr]> self.(per_round)) self.(evidence).
Definition set_evidence (self : t) (evidence : gmap Address (list (SignedVote * SignedVote))) : t :=
  mk self.(validator_set) self.(threshold_params) self.(per_round) evidence.

(** The part of [apply_vote] after the vote is tallied in [per_round]. *)
Definition report (self : t) (per_round : PerRound.t) (vote : SignedVote) (round : Round.t)
    (total_weight : Weight) : outcome (t * option (VKOutput.t ValueId)) :=
  skip_round ← (if Round.ltb round (sv_round vote)
                then
                  combined_weight ← RoundWeights.sum per_round.(PerRound.addresses_weights);
                  ThresholdParam.is_met self.(threshold_params).(ThresholdParams.honest)
                    combined_weight total_weight
                else Ret false);
  if skip_round : bool
  then
    let output := VKOutput.SkipRound (sv_round vote) in
    Ret (set_round self (sv_round vote) (PerRound.emit per_round output), Some output)
  else
    threshold ← compute_threshold (sv_type vote) per_round (sv_value vote)
                  self.(threshold_params) total_weight;
    match threshold_to_output (sv_type vote) threshold with
    | Some output =>
        if negb (bool_decide (output ∈ per_round.(PerRound.emitted_outputs)))
        then Ret (set_round self (sv_round vote) (PerRound.emit per_round output), Some output)
        else Ret (set_round self (sv_round vote) per_round, None)
    | None => Ret (set_round self (sv_round vote) per_round, None)
    end.

Definition apply_vote (self : t) (vote : SignedVote) (round : Round.t)
    : outcome (t * option (VKOutput.t ValueId)) :=
  total_weight ← total_weight self;
  let per_round := default PerRound.new (self.(per_round) !! sv_round vote) in
  let self := set_round self (sv_round vote) per_round in
  match get_by_address self.(validator_set) (sv_address vote) with
  | None => Ret (self, None)
  | Some validator =>
      '(per_round, result) ← PerRound.add per_round vote (voting_power validator);
      match result with
      | inl (existing, conflicting) =>
          Ret (set_evidence self (EvidenceMap.add self.(evidence) existing conflicting), None)
      | inr tt => report self per_round vote round total_weight
      end
  end.

Definition is_threshold_met (self : t) (round : Round.t) (ty : VoteType.t)
    (threshold : Threshold.t ValueId) : outcome bool :=
  match self.(per_round) !! round with
  | Some pr =>
      total ← total_weight self;
      RoundVotes.is_threshold_met pr.(PerRound.votes) ty threshold
        self.(threshold_params).(ThresholdParams.quorum) total
  | None => Ret false
  end.

Definition prune_votes (self : t) (min_round : Round.t) : t :=
  mk self.(validator_set) self.(threshold_params)
     (filter (fun kv => Round.le min_round kv.1) self.(per_round)) self.(evidence).

End keeper.
End VoteKeeper.

(** ** The specification

    What the keeper of a round promises, in terms of the log of accepted
    votes alone: a vote is accepted when its sender is in the validator set
    and has not voted otherwise; the weight behind a value is the power of the
    set of distinct validators that voted for it. *)

Section spec.
Context {Ctx : Context}.
Implicit Types (l : list SignedVote) (vote : SignedVote) (ty : VoteType.t)
  (value : NilOrVal.t ValueId).

(** The distinct validators behind a list of votes. *)
Definition voters l : gset Address := list_to_set (sv_address <$> l).

Definition of_type ty l : list SignedVote := filter (fun w => sv_type w = ty) l.
Definition for_value value l : list SignedVote := filter (fun w => sv_value w = value) l.

(** Power behind a value, behind a type, behind the round. *)
Definition value_power (vs : ValidatorSet) l ty value : N :=
  weight_of (power vs) (voters (for_value value (of_type ty l))).
Definition type_power (vs : ValidatorSet) l ty : N :=
  weight_of (power vs) (voters (of_type ty l)).
Definition round_power (vs : ValidatorSet) l : N := weight_of (power vs) (voters l).

(** The vote a validator has already cast, of the same type as [vote]. *)
Definition prior l vote : option SignedVote :=
  List.find (fun w => bool_decide (sv_type w = sv_type vote) &&
                      bool_decide (sv_address w = sv_address vote)) l.

(** The strongest threshold the accepted votes reach for a value. *)
Definition reached (vs : ValidatorSet) (quorum : ThresholdParam.t) (total : N)
    l ty value : Threshold.t ValueId :=
  if decide (ThresholdParam.met quorum (value_power vs l ty value) total)
  then match value with NilOrVal.Nil => Threshold.Nil | NilOrVal.Val v => Threshold.Value v end
  else if decide (ThresholdParam.met quorum (type_power vs l ty) total)
  then Threshold.Any else Threshold.Unreached.

(** The keeper of one round: the accepted votes and the reported outputs. *)
Record tally : Type := Tally {
  log : list SignedVote;
  emitted : gset (VKOutput.t ValueId);
}.

Inductive verdict : Type :=
  | Discarded
  | Equivocation (existing : SignedVote)
  | Counted (output : option (VKOutput.t ValueId)).

Definition spec_output (vs : ValidatorSet) (params : ThresholdParams.t) (total : N)
    (t : tally) vote (round : Round.t) : option (VKOutput.t ValueId) :=
  if decide (Round.lt round (sv_round vote) /\
             ThresholdParam.met params.(ThresholdParams.honest) (round_power vs t.(log)) total)
  then Some (VKOutput.SkipRound (sv_round vote))
  else
    o ← threshold_to_output (sv_type vote)
          (reached vs params.(ThresholdParams.quorum) total t.(log) (sv_type vote) (sv_value vote));
    if decide (o ∈ t.(emitted)) then None else Some o.

Definition spec_count (vs : ValidatorSet) (params : ThresholdParams.t) (total : N)
    (t : tally) vote (round : Round.t) : tally * verdict :=
  let t := Tally (t.(log) ++ [vote]) t.(emitted) in
  let output := spec_output vs params total t vote round in
  (Tally t.(log) (match output with Some o => {[o]} ∪ t.(emitted) | None => t.(emitted) end),
   Counted output).

Definition spec_apply (vs : ValidatorSet) (params : ThresholdParams.t) (total : N)
    (t : tally) vote (round : Round.t) : tally * verdict :=
  match get_by_address vs (sv_address vote), prior t.(log) vote with
  | None, _ => (t, Discarded)
  | Some _, Some existing =>
      if decide (sv_value existing = sv_value vote) then spec_count vs params total t vote round
      else (t, Equivocation existing)
  | Some _, None => spec_count vs params total t vote round
  end.

(** The abstraction of a keeper's entry for a round. *)
Definition abs (k : VoteKeeper.t) (r : Round.t) : tally :=
  match k.(VoteKeeper.per_round) !! r with
  | Some pr => Tally pr.(PerRound.received_votes) pr.(PerRound.emitted_outputs)
  | None => Tally [] ∅
  end.

End spec.

(** ** The representation invariant *)

Section invariant.
Context {Ctx : Context} {laws : ContextLaws}.
Context (vs : ValidatorSet) (total : N) (Htotal : total_voting_power vs = Ret total).
Implicit Types (l : list SignedVote) (vote : SignedVote) (ty : VoteType.t)
  (value : NilOrVal.t ValueId).

Lemma elem_of_voters a l : a ∈ voters l <-> exists w, w ∈ l /\ sv_address w = a.
Proof.
  unfold voters. rewrite elem_of_list_to_set, list_elem_of_fmap. naive_solver.
Qed.

Lemma voters_snoc l vote : voters (l ++ [vote]) = {[sv_address vote]} ∪ voters l.
Proof. unfold voters. rewrite fmap_app, list_to_set_app_L. set_solver. Qed.

Lemma power_le (S : gset Address) : (weight_of (power vs) S <= total)%N.
Proof. by apply powers_le_total. Qed.

(** Each validator voted for at most one value. *)
Definition consistent l : Prop :=
  forall v w, v ∈ l -> w ∈ l -> sv_type v = sv_type w -> sv_address v = sv_address w ->
  sv_value v = sv_value w.

(** A counter holds the power behind the votes [l] of its type. *)
Record count_ok (c : VoteCount.t) l : Prop := {
  count_addresses : c.(VoteCount.validator_addresses) = voters l;
  count_values value :
    VoteCount.get c value = weight_of (power vs) (voters (for_value value l));
  count_sum : sum_values c.(VoteCount.values_weights) = weight_of (power vs) (voters l);
}.

Lemma count_new : count_ok VoteCount.new [].
Proof.
  split; intros; unfold voters; cbn; [done| |];
  by rewrite ?sum_values_empty, weight_of_empty.
Qed.

(** A repeated vote changes neither the counter nor the powers. *)
Lemma count_repeat c l vote :
  count_ok c l -> (exists w, w ∈ l /\ sv_address w = sv_address vote /\ sv_value w = sv_value vote) ->
  count_ok c (l ++ [vote]).
Proof.
  intros Hc (w & Hw & Ha & Hv).
  assert (Hin : voters (l ++ [vote]) = voters l).
  { rewrite voters_snoc. enough (sv_address vote ∈ voters l) by set_solver.
    apply elem_of_voters. eauto. }
  split; rewrite ?Hin; [apply Hc| |apply Hc].
  intros value. rewrite (count_values _ _ Hc value). unfold for_value. rewrite (filter_snoc (fun w => sv_value w = value)). f_equal.
  destruct (decide (sv_value vote = value)) as [<-|]; [|done].
  rewrite voters_snoc.
  enough (sv_address vote ∈ voters (for_value (sv_value vote) l)) by set_solver.
  apply elem_of_voters. exists w. split; [by apply list_elem_of_filter|done].
Qed.

(** A first vote adds the voter's power to its value. *)
Lemma count_first c l vote :
  count_ok c l -> sv_address vote ∉ voters l ->
  exists c' w,
    VoteCount.add c vote.(SignedMessage.message) (power vs (sv_address vote)) = Ret (c', w) /\
    count_ok c' (l ++ [vote]).
Proof.
  intros Hc Hnew. unfold VoteCount.add. fold (sv_address vote) (sv_value vote).
  rewrite bool_decide_eq_false_2 by (by rewrite (count_addresses _ _ Hc)).
  pose proof (count_values _ _ Hc (sv_value vote)) as Hval.
  unfold VoteCount.get, ValuesWeights.get in Hval.
  set (S := voters (for_value (sv_value vote) l)) in *.
  assert (HS : S ⊆ voters l).
  { intros a (w & [_ Hw]%list_elem_of_filter & <-)%elem_of_voters. apply elem_of_voters. eauto. }
  assert (Hsum : (power vs (sv_address vote) + weight_of (power vs) S <= total)%N).
  { rewrite <- weight_of_insert by set_solver. apply power_le. }
  pose proof (total_in_range vs total Htotal) as Hrange.
  unfold ValuesWeights.add. rewrite Hval.
  rewrite (proj2 (checked_add_Some _ _ _)) by (split; [done|lia]). cbn.
  eexists _, _. split; [done|]. split; cbn.
  - by rewrite voters_snoc, (count_addresses _ _ Hc).
  - intros value. unfold for_value. rewrite filter_snoc. unfold VoteCount.get, ValuesWeights.get. cbn.
    destruct (decide (sv_value vote = value)) as [<-|Hne].
    + rewrite lookup_insert_eq, voters_snoc, weight_of_insert by set_solver. cbn. unfold S, for_value. lia.
    + rewrite lookup_insert_ne by done. apply (count_values _ _ Hc).
  - pose proof (sum_values_insert c.(VoteCount.values_weights) (sv_value vote)
      (weight_of (power vs) S + power vs (sv_address vote))) as Hins.
    rewrite Hval, (count_sum _ _ Hc) in Hins.
    rewrite voters_snoc, weight_of_insert by done. lia.
Qed.

Lemma count_add c l vote :
  count_ok c l ->
  (forall w, w ∈ l -> sv_address w = sv_address vote -> sv_value w = sv_value vote) ->
  exists c' w,
    VoteCount.add c vote.(SignedMessage.message) (power vs (sv_address vote)) = Ret (c', w) /\
    count_ok c' (l ++ [vote]).
Proof.
  intros Hc Hsame. destruct (decide (sv_address vote ∈ voters l)) as [Hin|];
    [|by apply count_first].
  unfold VoteCount.add. fold (sv_address vote) (sv_value vote).
  rewrite bool_decide_eq_true_2 by (by rewrite (count_addresses _ _ Hc)).
  eexists _, _. split; [done|]. apply count_repeat; [done|].
  apply elem_of_voters in Hin as (w & Hw & Ha). eauto.
Qed.

(** The entry of round [r] represents its log of votes. *)
Record round_ok (r : Round.t) (pr : PerRound.t) : Prop := {
  ok_round w : w ∈ pr.(PerRound.received_votes) -> sv_round w = r;
  ok_known w : w ∈ pr.(PerRound.received_votes) -> is_Some (get_by_address vs (sv_address w));
  ok_consistent : consistent pr.(PerRound.received_votes);
  ok_count ty : count_ok (RoundVotes.count_of pr.(PerRound.votes) ty)
                  (of_type ty pr.(PerRound.received_votes));
  ok_addresses : dom pr.(PerRound.addresses_weights) = voters pr.(PerRound.received_votes);
  ok_combined : sum_values pr.(PerRound.addresses_weights) =
                round_power vs pr.(PerRound.received_votes);
}.

Lemma round_ok_new r : round_ok r PerRound.new.
Proof.
  split; cbn; try by intros w ?%not_elem_of_nil.
  - intros v w Hv. by apply not_elem_of_nil in Hv.
  - intros []; apply count_new.
  - unfold RoundWeights.new, voters. by rewrite dom_empty_L.
  - unfold RoundWeights.new, round_power, voters. cbn. by rewrite sum_values_empty, weight_of_empty.
Qed.

Lemma round_ok_emit r pr o : round_ok r pr -> round_ok r (PerRound.emit pr o).
Proof. intros []. by split. Qed.


Lemma prior_Some l vote e :
  prior l vote = Some e -> e ∈ l /\ sv_type e = sv_type vote /\ sv_address e = sv_address vote.
Proof.
  intros [Hin Hb]%List.find_some. apply list_elem_of_In in Hin.
  apply andb_true_iff in Hb as [?%bool_decide_eq_true ?%bool_decide_eq_true]. done.
Qed.

Lemma prior_None l vote w :
  prior l vote = None -> w ∈ l -> sv_type w = sv_type vote -> sv_address w <> sv_address vote.
Proof.
  intros Hnone Hw Hty Ha. apply list_elem_of_In in Hw.
  apply (List.find_none _ _ Hnone) in Hw. by rewrite !bool_decide_eq_true_2 in Hw.
Qed.

(** No earlier vote of [l] contradicts [vote]. *)
Definition admissible l vote : Prop :=
  forall e, prior l vote = Some e -> sv_value e = sv_value vote.

#[local] Instance admissible_dec l vote : Decision (admissible l vote).
Proof.
  unfold admissible. destruct (prior l vote) as [e|].
  - destruct (decide (sv_value e = sv_value vote)); [left|right]; naive_solver.
  - by left.
Defined.

Lemma admissible_agrees l vote w :
  consistent l -> admissible l vote -> w ∈ l ->
  sv_type w = sv_type vote -> sv_address w = sv_address vote -> sv_value w = sv_value vote.
Proof.
  intros Hl Hadm Hw Hty Ha. destruct (prior l vote) as [e|] eqn:He.
  - rewrite <- (Hadm e He). apply prior_Some in He as (? & ? & ?).
    apply Hl; congruence.
  - by destruct (prior_None l vote w He Hw Hty).
Qed.

Lemma consistent_snoc l vote : consistent l -> admissible l vote -> consistent (l ++ [vote]).
Proof.
  intros Hl Hadm v w [Hv| ->]%elem_snoc [Hw| ->]%elem_snoc Hty Ha; [by apply Hl| | |done].
  - by apply (admissible_agrees l).
  - symmetry. by apply (admissible_agrees l).
Qed.

(** Tallying an admissible vote. *)
Lemma add_vote_ok (rv : RoundVotes.t) l vote :
  (forall ty, count_ok (RoundVotes.count_of rv ty) (of_type ty l)) ->
  consistent l -> admissible l vote ->
  exists rv' w,
    RoundVotes.add_vote rv vote.(SignedMessage.message) (power vs (sv_address vote)) = Ret (rv', w) /\
    forall ty, count_ok (RoundVotes.count_of rv' ty) (of_type ty (l ++ [vote])).
Proof.
  intros Hrv Hl Hadm.
  destruct (count_add (RoundVotes.count_of rv (sv_type vote)) (of_type (sv_type vote) l) vote)
    as (c & w & Hc & Hok); [apply Hrv| |].
  { intros u [Hty Hu]%list_elem_of_filter Ha. by apply (admissible_agrees l). }
  assert (Hty : forall ty c', count_ok c' (if decide (sv_type vote = ty) then of_type ty l ++ [vote]
                              else of_type ty l) -> count_ok c' (of_type ty (l ++ [vote]))).
  { intros ty c'. unfold of_type. by rewrite filter_snoc. }
  unfold RoundVotes.add_vote. fold (sv_type vote).
  destruct (sv_type vote) eqn:Ht; cbn in Hc |- *; rewrite Hc; cbn; eexists _, _;
    (split; [done|]); intros []; apply Hty; rewrite ?decide_True, ?decide_False by congruence;
    cbn; try exact Hok; [exact (Hrv VoteType.Precommit)|exact (Hrv VoteType.Prevote)].
Qed.

(** Recording the sender's weight once. *)
Lemma set_once_ok (m : gmap Address N) l vote :
  dom m = voters l -> sum_values m = round_power vs l ->
  let m' := RoundWeights.set_once m (sv_address vote) (power vs (sv_address vote)) in
  dom m' = voters (l ++ [vote]) /\ sum_values m' = round_power vs (l ++ [vote]).
Proof.
  intros Hdom Hsum m'. unfold round_power, m', RoundWeights.set_once. rewrite voters_snoc.
  destruct (m !! sv_address vote) eqn:Hlook.
  - assert (sv_address vote ∈ voters l) by (rewrite <- Hdom; by eapply elem_of_dom_2).
    replace ({[sv_address vote]} ∪ voters l) with (voters l) by set_solver. done.
  - assert (sv_address vote ∉ voters l) by (rewrite <- Hdom; by apply not_elem_of_dom).
    rewrite dom_insert_L, sum_values_insert_new, weight_of_insert by done.
    by rewrite Hdom, Hsum.
Qed.

Lemma round_add_ok r pr vote validator :
  round_ok r pr -> sv_round vote = r -> get_by_address vs (sv_address vote) = Some validator ->
  admissible pr.(PerRound.received_votes) vote ->
  exists pr',
    PerRound.add pr vote (voting_power validator) = Ret (pr', inr tt) /\ round_ok r pr' /\
    pr'.(PerRound.received_votes) = pr.(PerRound.received_votes) ++ [vote] /\
    pr'.(PerRound.emitted_outputs) = pr.(PerRound.emitted_outputs).
Proof.
  intros Hok Hr Hval Hadm.
  assert (Hpow : voting_power validator = power vs (sv_address vote)) by (unfold power; by rewrite Hval).
  destruct (add_vote_ok pr.(PerRound.votes) _ vote (ok_count _ _ Hok) (ok_consistent _ _ Hok) Hadm)
    as (rv & w & Hadd & Hrv).
  destruct (set_once_ok _ _ vote (ok_addresses _ _ Hok) (ok_combined _ _ Hok)) as [Hdom Hsum].
  eexists. split.
  { unfold PerRound.add, PerRound.get_vote. fold (prior pr.(PerRound.received_votes) vote).
    rewrite Hpow, Hadd. destruct (prior _ vote) as [e|] eqn:He; [|done].
    by rewrite bool_decide_eq_true_2 by (by apply Hadm). }
  split; [|done]. split; cbn; try done.
  - intros v [Hv| ->]%elem_snoc; [by apply (ok_round _ _ Hok)|done].
  - intros v [Hv| ->]%elem_snoc; [by apply (ok_known _ _ Hok)|eauto].
  - apply consistent_snoc; [apply Hok|done].
Qed.

Lemma compute_threshold_ok r pr ty value params :
  round_ok r pr -> ThresholdParam.fits params.(ThresholdParams.quorum) total ->
  compute_threshold ty pr value params total =
    Ret (reached vs params.(ThresholdParams.quorum) total pr.(PerRound.received_votes) ty value).
Proof.
  intros Hok Hfits. unfold compute_threshold, reached, RoundVotes.get_weight, RoundVotes.weight_sum.
  rewrite (count_values _ _ (ok_count _ _ Hok ty)).
  assert (Hsum : VoteCount.sum (RoundVotes.count_of pr.(PerRound.votes) ty) =
                 Ret (type_power vs pr.(PerRound.received_votes) ty)).
  { apply sum_u64_Ret. fold (sum_values (VoteCount.values_weights (RoundVotes.count_of pr.(PerRound.votes) ty))).
    rewrite (count_sum _ _ (ok_count _ _ Hok ty)). split; [done|].
    etrans; [apply power_le|by apply (total_in_range vs)]. }
  rewrite Hsum. unfold value_power, type_power.
  rewrite !ThresholdParam.is_met_decide by (done || apply power_le). cbn.
  rewrite !ThresholdParam.is_met_decide by (done || apply power_le). cbn.
  destruct value; rewrite <- !decide_bool_decide; repeat case_decide; done.
Qed.

(** Recorded evidence is two different votes of one validator for the same
    round and type. *)
Definition evidence_ok (ev : gmap Address (list (SignedVote * SignedVote))) : Prop :=
  forall a pairs e c, ev !! a = Some pairs -> (e, c) ∈ pairs ->
  sv_address e = a /\ sv_address c = a /\ sv_round e = sv_round c /\
  sv_type e = sv_type c /\ sv_value e <> sv_value c.

Record keeper_ok (k : VoteKeeper.t) : Prop := {
  keeper_set : k.(VoteKeeper.validator_set) = vs;
  keeper_rounds r pr : k.(VoteKeeper.per_round) !! r = Some pr -> round_ok r pr;
  keeper_evidence : evidence_ok k.(VoteKeeper.evidence);
}.

Lemma keeper_new params : keeper_ok (VoteKeeper.new vs params).
Proof.
  split; [done| |]; [intros r pr Hpr|intros a pairs e c Hp]; cbn in *; by simplify_map_eq.
Qed.

Lemma keeper_set_round k r pr : keeper_ok k -> round_ok r pr -> keeper_ok (VoteKeeper.set_round k r pr).
Proof.
  intros Hk Hpr. split; cbn; [apply Hk| |apply Hk].
  intros r' pr' [[-> ->]|[_ ?]]%lookup_insert_Some; [done|by apply (keeper_rounds _ Hk)].
Qed.

Lemma keeper_prune k r : keeper_ok k -> keeper_ok (VoteKeeper.prune_votes k r).
Proof.
  intros Hk. split; cbn; [apply Hk| |apply Hk].
  intros r' pr' [? _]%map_lookup_filter_Some. by apply (keeper_rounds _ Hk).
Qed.

Lemma evidence_add ev e vote :
  evidence_ok ev -> sv_address e = sv_address vote -> sv_round e = sv_round vote ->
  sv_type e = sv_type vote -> sv_value e <> sv_value vote ->
  evidence_ok (EvidenceMap.add ev e vote).
Proof.
  intros Hev Ha Hr Hty Hne a pairs x y. unfold EvidenceMap.add.
  destruct (ev !! sv_address vote) as [old|] eqn:Hold;
    intros [[<- <-]|[_ ?]]%lookup_insert_Some; try by eapply Hev.
  - intros [Hin|[= -> ->]]%elem_snoc; [by eapply Hev|done].
  - by intros [= -> ->]%list_elem_of_singleton.
Qed.

(** The entry [apply_vote] works on. *)
Lemma keeper_entry k r :
  keeper_ok k -> round_ok r (default PerRound.new (k.(VoteKeeper.per_round) !! r)).
Proof.
  intros Hk. destruct (_ !! r) eqn:Hpr; [by apply (keeper_rounds _ Hk)|apply round_ok_new].
Qed.

Lemma abs_entry k r :
  abs k r = let pr := default PerRound.new (k.(VoteKeeper.per_round) !! r) in
            Tally pr.(PerRound.received_votes) pr.(PerRound.emitted_outputs).
Proof. unfold abs. by destruct (_ !! r). Qed.

Lemma abs_set_round k r pr r' :
  abs (VoteKeeper.set_round k r pr) r' =
  if decide (r = r') then Tally pr.(PerRound.received_votes) pr.(PerRound.emitted_outputs)
  else abs k r'.
Proof. unfold abs. cbn. rewrite lookup_insert. by case_decide. Qed.

Lemma abs_set_evidence k ev r : abs (VoteKeeper.set_evidence k ev) r = abs k r.
Proof. done. Qed.

(** Summing the weights of the round's validators. *)
Lemma combined_ok r pr :
  round_ok r pr ->
  RoundWeights.sum pr.(PerRound.addresses_weights) = Ret (round_power vs pr.(PerRound.received_votes)).
Proof.
  intros Hok. apply sum_u64_Ret.
  fold (sum_values pr.(PerRound.addresses_weights)). rewrite (ok_combined _ _ Hok).
  split; [done|]. etrans; [apply power_le|by apply (total_in_range vs)].
Qed.

(** What a verdict makes of the evidence. *)
Definition evidence_after (ev : gmap Address (list (SignedVote * SignedVote))) vote (v : verdict) :=
  match v with Equivocation existing => EvidenceMap.add ev existing vote | _ => ev end.
Definition output_of (v : verdict) : option (VKOutput.t ValueId) :=
  match v with Counted o => o | _ => None end.

(** [k'] and [out] are what the specification makes of [k] and [vote]. *)
Record refines (k : VoteKeeper.t) vote (round : Round.t) (k' : VoteKeeper.t)
    (out : option (VKOutput.t ValueId)) : Prop := {
  refines_ok : keeper_ok k';
  refines_params : k'.(VoteKeeper.threshold_params) = k.(VoteKeeper.threshold_params);
  refines_other r : r <> sv_round vote -> abs k' r = abs k r;
  refines_step :
    let '(t, v) := spec_apply vs k.(VoteKeeper.threshold_params) total
                     (abs k (sv_round vote)) vote round in
    abs k' (sv_round vote) = t /\ out = output_of v /\
    k'.(VoteKeeper.evidence) = evidence_after k.(VoteKeeper.evidence) vote v;
}.

(** It reports what the specification says about the log of [pr]. *)
Lemma report_ok k pr vote round :
  keeper_ok k -> ThresholdParams.fits k.(VoteKeeper.threshold_params) total ->
  round_ok (sv_round vote) pr ->
  let out := spec_output vs k.(VoteKeeper.threshold_params) total
    (Tally pr.(PerRound.received_votes) pr.(PerRound.emitted_outputs)) vote round in
  VoteKeeper.report k pr vote round total =
    Ret (VoteKeeper.set_round k (sv_round vote)
           (match out with Some o => PerRound.emit pr o | None => pr end), out).
Proof.
  intros Hk [Hq Hh] Hpr. unfold VoteKeeper.report, spec_output. cbn.
  rewrite (combined_ok _ _ Hpr). cbn.
  rewrite ThresholdParam.is_met_decide by (done || apply power_le).
  rewrite (compute_threshold_ok _ _ _ _ _ Hpr Hq). cbn.
  set (h := ThresholdParam.met _ (round_power _ _) _).
  destruct (Round.ltb round (sv_round vote)) eqn:Hlt; cbn;
    [apply Round.ltb_lt in Hlt; destruct (decide h)
    |assert (~ Round.lt round (sv_round vote)) by (rewrite <- Round.ltb_lt; congruence)].
  1: by rewrite bool_decide_eq_true_2, decide_True by done.
  1: rewrite bool_decide_eq_false_2 by done.
  all: rewrite decide_False by tauto;
    destruct (threshold_to_output _ _) as [o|]; cbn; [|done];
    case_bool_decide; case_decide; done.
Qed.

Lemma apply_vote_counted k pr vote round validator :
  keeper_ok k -> ThresholdParams.fits k.(VoteKeeper.threshold_params) total ->
  get_by_address vs (sv_address vote) = Some validator ->
  pr = default PerRound.new (k.(VoteKeeper.per_round) !! sv_round vote) ->
  admissible pr.(PerRound.received_votes) vote ->
  exists pr', round_ok (sv_round vote) pr' /\
    pr'.(PerRound.received_votes) = pr.(PerRound.received_votes) ++ [vote] /\
    pr'.(PerRound.emitted_outputs) = pr.(PerRound.emitted_outputs) /\
    VoteKeeper.apply_vote k vote round =
      VoteKeeper.report (VoteKeeper.set_round k (sv_round vote) pr) pr' vote round total.
Proof.
  intros Hk Hfits Hval Hpr Hadm.
  assert (Hok : round_ok (sv_round vote) pr) by (rewrite Hpr; by apply keeper_entry).
  destruct (round_add_ok _ pr vote validator Hok eq_refl Hval Hadm) as (pr' & Hadd & ? & ? & ?).
  exists pr'. split_and!; try done.
  unfold VoteKeeper.apply_vote, VoteKeeper.total_weight.
  rewrite (keeper_set _ Hk), Htotal. cbn. rewrite <- Hpr, (keeper_set _ Hk), Hval, Hadd. done.
Qed.

Lemma spec_apply_count params t vote round validator :
  get_by_address vs (sv_address vote) = Some validator -> admissible t.(log) vote ->
  spec_apply vs params total t vote round = spec_count vs params total t vote round.
Proof.
  intros Hval Hadm. unfold spec_apply. rewrite Hval.
  destruct (prior t.(log) vote) as [e|] eqn:He; [|done]. by rewrite decide_True by (by apply Hadm).
Qed.

Lemma apply_vote_conflict k pr vote round validator e :
  keeper_ok k -> round_ok (sv_round vote) pr ->
  pr = default PerRound.new (k.(VoteKeeper.per_round) !! sv_round vote) ->
  get_by_address vs (sv_address vote) = Some validator ->
  prior pr.(PerRound.received_votes) vote = Some e -> sv_value e <> sv_value vote ->
  exists k' out, VoteKeeper.apply_vote k vote round = Ret (k', out) /\ refines k vote round k' out.
Proof.
  intros Hk Hpr Heq Hval He Hne. pose proof (abs_entry k (sv_round vote)) as Habs.
  cbn in Habs. rewrite <- Heq in Habs.
  unfold VoteKeeper.apply_vote, VoteKeeper.total_weight.
  rewrite (keeper_set _ Hk), Htotal. cbn. rewrite <- Heq, (keeper_set _ Hk), Hval.
  unfold PerRound.add, PerRound.get_vote. fold (prior pr.(PerRound.received_votes) vote).
  rewrite He, bool_decide_eq_false_2 by done. cbn.
  destruct (prior_Some _ _ _ He) as (Hin & Hty & Ha).
  eexists _, _. split; [done|]. split; [|done| |].
  - pose proof (keeper_set_round k _ _ Hk Hpr) as Hk'.
    split; [apply Hk'|apply Hk'|]. cbn. apply evidence_add; try done; [apply Hk|].
    by apply (ok_round _ _ Hpr).
  - intros r Hr. by rewrite abs_set_evidence, abs_set_round, decide_False by done.
  - unfold spec_apply. rewrite Hval, abs_set_evidence, abs_set_round, decide_True by done.
    rewrite Habs. cbn [log]. rewrite He, decide_False by done. done.
Qed.

Lemma spec_count_refines k pr pr' vote round :
  keeper_ok k -> ThresholdParams.fits k.(VoteKeeper.threshold_params) total ->
  abs k (sv_round vote) = Tally pr.(PerRound.received_votes) pr.(PerRound.emitted_outputs) ->
  round_ok (sv_round vote) pr -> round_ok (sv_round vote) pr' ->
  pr'.(PerRound.received_votes) = pr.(PerRound.received_votes) ++ [vote] ->
  pr'.(PerRound.emitted_outputs) = pr.(PerRound.emitted_outputs) ->
  spec_apply vs k.(VoteKeeper.threshold_params) total (abs k (sv_round vote)) vote round =
    spec_count vs k.(VoteKeeper.threshold_params) total (abs k (sv_round vote)) vote round ->
  exists k' out,
    VoteKeeper.report (VoteKeeper.set_round k (sv_round vote) pr) pr' vote round total = Ret (k', out) /\
    refines k vote round k' out.
Proof.
  intros Hk Hfits Habs Hpr Hpr' Hlog Hem Hspec.
  rewrite report_ok by (done || by apply keeper_set_round). cbn.
  eexists _, _. split; [done|]. rewrite Hlog, Hem. set (out := spec_output _ _ _ _ _ _).
  split.
  - apply keeper_set_round; [by apply keeper_set_round|].
    destruct out; [by apply round_ok_emit|done].
  - done.
  - intros r Hr. by rewrite !abs_set_round, !decide_False by done.
  - rewrite Hspec, Habs. cbn. rewrite abs_set_round, decide_True by done.
    split_and!; [|done|done]. fold out. destruct out; cbn; by rewrite Hlog, Hem.
Qed.

Lemma apply_vote_refines k vote round :
  keeper_ok k -> ThresholdParams.fits k.(VoteKeeper.threshold_params) total ->
  exists k' out, VoteKeeper.apply_vote k vote round = Ret (k', out) /\ refines k vote round k' out.
Proof.
  intros Hk Hfits. pose proof (keeper_entry k (sv_round vote) Hk) as Hpr.
  pose proof (abs_entry k (sv_round vote)) as Habs. cbn in Habs.
  set (pr := default PerRound.new _) in *.
  destruct (get_by_address vs (sv_address vote)) as [validator|] eqn:Hval.
  2:{ unfold VoteKeeper.apply_vote, VoteKeeper.total_weight.
      rewrite (keeper_set _ Hk), Htotal. cbn. fold pr. rewrite (keeper_set _ Hk), Hval.
      eexists _, _. split; [done|]. split; [by apply keeper_set_round|done| |].
      - intros r Hr. by rewrite abs_set_round, decide_False by done.
      - unfold spec_apply. rewrite Hval, abs_set_round, decide_True by done. by rewrite Habs. }
  destruct (decide (admissible pr.(PerRound.received_votes) vote)) as [Hadm|Hconf].
  - destruct (apply_vote_counted k pr vote round validator) as (pr' & ? & ? & ? & ->); try done.
    eapply spec_count_refines; try done. eapply spec_apply_count; [done|]. by rewrite Habs.
  - unfold admissible in Hconf.
    destruct (prior pr.(PerRound.received_votes) vote) as [e|] eqn:He; [|by destruct Hconf].
    eapply apply_vote_conflict; try done. naive_solver.
Qed.

End invariant.

(** ** Keepers that occur *)

Section reachable.
Context {Ctx : Context}.

(** A keeper grows from [new] by applied votes and prunings. *)
Inductive reachable (vs : ValidatorSet) (params : ThresholdParams.t) : VoteKeeper.t -> Prop :=
  | reachable_new : reachable vs params (VoteKeeper.new vs params)
  | reachable_apply k vote round k' out :
      reachable vs params k -> VoteKeeper.apply_vote k vote round = Ret (k', out) ->
      reachable vs params k'
  | reachable_prune k min_round :
      reachable vs params k -> reachable vs params (VoteKeeper.prune_votes k min_round).

(** A sequence of votes, each with the current round, and the outputs they
    produce with the round of their vote. *)
Fixpoint apply_votes (k : VoteKeeper.t) (votes : list (SignedVote * Round.t))
    : outcome (VoteKeeper.t * list (Round.t * VKOutput.t ValueId)) :=
  match votes with
  | [] => Ret (k, [])
  | (vote, round) :: votes =>
      '(k, out) ← VoteKeeper.apply_vote k vote round;
      '(k, outs) ← apply_votes k votes;
      Ret (k, match out with Some o => (sv_round vote, o) :: outs | None => outs end)
  end.

Definition is_skip (o : VKOutput.t ValueId) : Prop :=
  match o with VKOutput.SkipRound _ => True | _ => False end.
#[global] Instance is_skip_dec o : Decision (is_skip o).
Proof. destruct o; apply _. Defined.

Lemma spec_output_fresh vs params total t vote round o :
  spec_output vs params total t vote round = Some o -> is_skip o \/ o ∉ t.(emitted).
Proof.
  unfold spec_output. case_decide; [intros [= <-]; by left|].
  destruct (threshold_to_output _ _) as [o'|]; cbn; [|done].
  case_decide; [done|]. intros [= <-]. by right.
Qed.

(** One step of the specification: what was reported stays reported, and what
    it reports is a skip or new. *)
Lemma spec_apply_emitted vs params total t vote round t' v :
  spec_apply vs params total t vote round = (t', v) ->
  t.(emitted) ⊆ t'.(emitted) /\
  forall o, output_of v = Some o -> o ∈ t'.(emitted) /\ (is_skip o \/ o ∉ t.(emitted)).
Proof.
  assert (Hcount : spec_count vs params total t vote round = (t', v) ->
    t.(emitted) ⊆ t'.(emitted) /\
    forall o, output_of v = Some o -> o ∈ t'.(emitted) /\ (is_skip o \/ o ∉ t.(emitted))).
  { unfold spec_count. cbn. intros [= <- <-].
    destruct (spec_output _ _ _ _ _ _) as [o|] eqn:Ho; cbn; [|done].
    split; [set_solver|]. intros o' [= <-]. split; [set_solver|].
    by apply spec_output_fresh in Ho. }
  unfold spec_apply. repeat case_match; try done; by intros [= <- <-].
Qed.

End reachable.

Section theorems.
Context {Ctx : Context} {laws : ContextLaws}.
Context (vs : ValidatorSet) (params : ThresholdParams.t) (total : N)
  (Htotal : total_voting_power vs = Ret total) (Hfits : ThresholdParams.fits params total).

Lemma reachable_ok k :
  reachable vs params k -> keeper_ok vs k /\ k.(VoteKeeper.threshold_params) = params.
Proof using All.
  induction 1 as [|k vote round k' out _ [IH IHp] Happ|k r _ [IH IHp]].
  - split; [apply keeper_new|done].
  - destruct (apply_vote_refines vs total Htotal k vote round) as (? & ? & Happ' & Hr); [done|by rewrite IHp|].
    rewrite Happ' in Happ. simplify_eq. split; [apply Hr|]. by rewrite (refines_params _ _ _ _ _ _ _ Hr).
  - split; [by apply keeper_prune|done].
Qed.

(** The outputs of a run are new to the keeper, and new to each other. *)
Lemma apply_votes_fresh k votes k' outs :
  reachable vs params k -> apply_votes k votes = Ret (k', outs) ->
  NoDup (filter (fun ro => ~ is_skip ro.2) outs) /\
  forall r o, (r, o) ∈ outs -> ~ is_skip o -> o ∉ (abs k r).(emitted).
Proof using All.
  revert k outs. induction votes as [|[vote round] votes IH]; cbn; intros k outs Hk Hrun.
  { simplify_eq. split; [apply NoDup_nil_2|]. intros r o Hin. by apply not_elem_of_nil in Hin. }
  inv_ret. destruct x as [k1 out]. inv_ret. destruct x as [k2 outs2]. inv_ret. simplify_eq.
  destruct (reachable_ok k Hk) as [Hok Hp].
  destruct (apply_vote_refines vs total Htotal k vote round) as (? & ? & Happ & Hr); [done|by rewrite Hp|].
  match goal with H : VoteKeeper.apply_vote _ _ _ = Ret (k1, out) |- _ => rewrite H in Happ end.
  simplify_eq. edestruct (IH x outs2) as [Hnd Hfresh]; [by eapply reachable_apply|done|].
  pose proof (refines_step _ _ _ _ _ _ _ Hr) as Hstep.
  destruct (spec_apply _ _ _ _ _ _) as [t v] eqn:Hspec. destruct Hstep as (Habs & -> & _).
  apply spec_apply_emitted in Hspec as [Hsub Hout].
  assert (Hmono : forall r, (abs k r).(emitted) ⊆ (abs x r).(emitted)).
  { intros r. destruct (decide (r = sv_round vote)) as [->|Hne]; [by rewrite Habs|].
    by rewrite (refines_other _ _ _ _ _ _ _ Hr r Hne). }
  assert (Hold : forall r o, (r, o) ∈ outs2 -> ~ is_skip o -> o ∉ (abs k r).(emitted)).
  { intros r o Hin Hns. specialize (Hfresh r o Hin Hns). specialize (Hmono r). set_solver. }
  destruct (output_of v) as [o|]; [|done]. destruct (Hout o eq_refl) as [Hin Hnew]. split.
  - rewrite filter_cons. case_decide as Hns; [|done]. apply NoDup_cons. split; [|done].
    intros [_ Hdup]%list_elem_of_filter. apply (Hfresh _ _ Hdup Hns). by rewrite Habs.
  - intros r o' [[= -> ->]|Hin']%elem_of_cons Hns; [by destruct Hnew|by apply Hold].
Qed.

Lemma apply_votes_reachable k votes k' outs :
  reachable vs params k -> apply_votes k votes = Ret (k', outs) -> reachable vs params k'.
Proof.
  revert k outs. induction votes as [|[vote round] votes IH]; cbn; intros k outs Hk Hrun; [by simplify_eq|].
  inv_ret. destruct x as [k1 out]. inv_ret. destruct x as [k2 outs2]. inv_ret. simplify_eq.
  eapply IH; [|done]. by eapply reachable_apply.
Qed.

(** What [is_threshold_met] decides, on the log of accepted votes. *)
Definition has_threshold (l : list SignedVote) (ty : VoteType.t) (th : Threshold.t ValueId) : Prop :=
  let quorum w := ThresholdParam.met params.(ThresholdParams.quorum) w total in
  match th with
  | Threshold.Value v => quorum (value_power vs l ty (NilOrVal.Val v))
  | Threshold.Nil => quorum (value_power vs l ty NilOrVal.Nil)
  | Threshold.Any => quorum (type_power vs l ty)
  | Threshold.Unreached => False
  end.
#[global] Instance has_threshold_dec l ty th : Decision (has_threshold l ty th).
Proof. destruct th; cbn; apply _. Defined.

(** An output holds of a log: the power behind it exceeds its threshold. *)
Definition justified (l : list SignedVote) (r : Round.t) (o : VKOutput.t ValueId) : Prop :=
  match o with
  | VKOutput.PolkaAny => has_threshold l VoteType.Prevote Threshold.Any
  | VKOutput.PolkaNil => has_threshold l VoteType.Prevote Threshold.Nil
  | VKOutput.PolkaValue v => has_threshold l VoteType.Prevote (Threshold.Value v)
  | VKOutput.PrecommitAny => has_threshold l VoteType.Precommit Threshold.Any
  | VKOutput.PrecommitValue v => has_threshold l VoteType.Precommit (Threshold.Value v)
  | VKOutput.SkipRound r' =>
      r' = r /\ ThresholdParam.met params.(ThresholdParams.honest) (round_power vs l) total
  end.

Lemma voters_filter_sub (P : SignedVote -> Prop) `{forall x, Decision (P x)} l :
  voters (filter P l) ⊆ voters l.
Proof.
  intros a (w & [_ Hw]%list_elem_of_filter & <-)%elem_of_voters. apply elem_of_voters. eauto.
Qed.

Lemma value_power_le l ty value : (value_power vs l ty value <= type_power vs l ty)%N.
Proof. apply weight_of_mono, voters_filter_sub. Qed.

Lemma met_mono p w w' :
  (w <= w')%N -> ThresholdParam.met p w total -> ThresholdParam.met p w' total.
Proof. unfold ThresholdParam.met. nia. Qed.

Lemma reached_justified l r ty value o :
  threshold_to_output ty (reached vs params.(ThresholdParams.quorum) total l ty value) = Some o ->
  justified l r o.
Proof.
  unfold reached. repeat case_decide; destruct ty; try destruct value; intros [= <-]; cbn; try done.
  eapply met_mono; [apply value_power_le|done].
Qed.

Lemma spec_output_justified t vote round o :
  spec_output vs params total t vote round = Some o ->
  justified t.(log) (sv_round vote) o.
Proof.
  unfold spec_output. case_decide; [intros [= <-]; split; [done|tauto]|].
  destruct (threshold_to_output _ _) as [o'|] eqn:Ho; cbn; [|done].
  case_decide; [done|]. intros [= <-]. by eapply reached_justified.
Qed.

Lemma spec_apply_justified t vote round t' v o :
  spec_apply vs params total t vote round = (t', v) -> output_of v = Some o ->
  justified t'.(log) (sv_round vote) o.
Proof.
  assert (Hcount : spec_count vs params total t vote round = (t', v) ->
    output_of v = Some o -> justified t'.(log) (sv_round vote) o).
  { unfold spec_count. cbn. intros [= <- <-]. cbn. apply spec_output_justified. }
  unfold spec_apply. repeat case_match; try done; by intros [= <- <-].
Qed.

(** Two values with disjoint voters share the power of the round. *)
Lemma value_powers_le l ty u v :
  consistent l -> u <> v ->
  (value_power vs l ty u + value_power vs l ty v <= total)%N.
Proof using laws Htotal.
  intros Hl Huv. unfold value_power. rewrite <- weight_of_disj_union; [by apply power_le|].
  intros a (x & [Hx [Htx Hinx]%list_elem_of_filter]%list_elem_of_filter & Hax)%elem_of_voters
    (y & [Hy [Hty Hiny]%list_elem_of_filter]%list_elem_of_filter & Hay)%elem_of_voters.
  apply Huv. rewrite <- Hx, <- Hy. apply Hl; congruence.
Qed.

Lemma count_threshold_met c l ty th :
  count_ok vs c (of_type ty l) ->
  VoteCount.is_threshold_met c th params.(ThresholdParams.quorum) total =
  Ret (bool_decide (has_threshold l ty th)).
Proof using laws Htotal Hfits.
  intros Hc. destruct Hfits as [Hq _].
  assert (Hsum : VoteCount.sum c = Ret (type_power vs l ty)).
  { apply sum_u64_Ret. fold (sum_values (VoteCount.values_weights c)).
    rewrite (count_sum _ _ _ Hc). split; [done|].
    etrans; [by apply power_le|by apply (total_in_range vs)]. }
  destruct th; cbn; [done| | |].
  - unfold VoteCount.sum in Hsum. rewrite Hsum. cbn.
    by apply ThresholdParam.is_met_decide; [|apply power_le].
  - fold (VoteCount.get c NilOrVal.Nil). rewrite (count_values _ _ _ Hc).
    by apply ThresholdParam.is_met_decide; [|apply power_le].
  - fold (VoteCount.get c (NilOrVal.Val v)). rewrite (count_values _ _ _ Hc).
    by apply ThresholdParam.is_met_decide; [|apply power_le].
Qed.

Lemma has_threshold_nil ty th : ~ has_threshold [] ty th.
Proof.
  unfold has_threshold, value_power, type_power, voters. destruct th; cbn; [tauto|..];
    rewrite weight_of_empty; unfold ThresholdParam.met; lia.
Qed.

Lemma keeper_threshold_met k r ty th :
  keeper_ok vs k -> k.(VoteKeeper.threshold_params) = params ->
  VoteKeeper.is_threshold_met k r ty th = Ret (bool_decide (has_threshold (abs k r).(log) ty th)).
Proof using laws Htotal Hfits.
  intros Hok Hp. unfold VoteKeeper.is_threshold_met, abs.
  destruct (_ !! r) as [pr|] eqn:Hpr.
  - unfold VoteKeeper.total_weight. rewrite (keeper_set _ _ Hok), Htotal, Hp. cbn.
    apply count_threshold_met. by apply (ok_count _ _ _ (keeper_rounds _ _ Hok r pr Hpr)).
  - by rewrite bool_decide_eq_false_2 by apply has_threshold_nil.
Qed.

Lemma keeper_consistent k r : keeper_ok vs k -> consistent (abs k r).(log).
Proof.
  intros Hok. unfold abs. destruct (_ !! r) as [pr|] eqn:Hpr.
  - by apply (ok_consistent _ _ _ (keeper_rounds _ _ Hok r pr Hpr)).
  - intros v w Hv. by apply not_elem_of_nil in Hv.
Qed.

Lemma counted_vote_justified k k' vote round o :
  reachable vs params k -> VoteKeeper.apply_vote k vote round = Ret (k', Some o) ->
  justified (abs k' (sv_round vote)).(log) (sv_round vote) o.
Proof using laws Htotal Hfits.
  intros Hk Happ. destruct (reachable_ok k Hk) as [Hok Hp].
  destruct (apply_vote_refines vs total Htotal k vote round) as (? & ? & Happ' & Hr); [done|by rewrite Hp|].
  rewrite Happ' in Happ. simplify_eq.
  pose proof (refines_step _ _ _ _ _ _ _ Hr) as Hstep. rewrite Hp in Hstep.
  destruct (spec_apply _ _ _ _ _ _) as [t v] eqn:Hspec. destruct Hstep as (-> & Hv & _).
  by eapply spec_apply_justified.
Qed.

End theorems.

(** ** Theorems *)

Section claims.
Context {Ctx : Context} {laws : ContextLaws}.

(** C5: on every keeper that grows from [new] by votes and prunings,
    [apply_vote] does not panic, keeps the representation invariant, leaves the
    other rounds alone, and changes the vote's round, the evidence and the
    output exactly as the specification [spec_apply] says: unknown senders are
    discarded, an equivocation is recorded and not counted, other votes are
    counted once per validator. *)
Theorem apply_vote_correct (vs : ValidatorSet) (params : ThresholdParams.t) (total : N)
  (k : VoteKeeper.t) (vote : SignedVote) (round : Round.t)
  (Htotal : total_voting_power vs = Ret total) (Hfits : ThresholdParams.fits params total)
  (Hk : reachable vs params k) :
  exists k' out, VoteKeeper.apply_vote k vote round = Ret (k', out) /\
    refines vs total k vote round k' out.
Proof.
  destruct (reachable_ok vs params total Htotal Hfits k Hk) as [Hok Hp].
  apply apply_vote_refines; [done|done|by rewrite Hp].
Qed.

(** the weights a keeper stores are exact: for each round, the weight of
    a value, the weight of a vote type and the combined weight of the round are
    the voting power of the set of distinct validators behind them, however
    often a vote was received. *)
Theorem tally_exact (vs : ValidatorSet) (params : ThresholdParams.t) (total : N)
  (k : VoteKeeper.t) (r : Round.t) (pr : PerRound.t) (ty : VoteType.t) (value : NilOrVal.t ValueId)
  (Htotal : total_voting_power vs = Ret total) (Hfits : ThresholdParams.fits params total)
  (Hk : reachable vs params k) (Hpr : VoteKeeper.get_round k r = Some pr) :
  let l := pr.(PerRound.received_votes) in
  RoundVotes.get_weight pr.(PerRound.votes) ty value = value_power vs l ty value /\
  RoundVotes.weight_sum pr.(PerRound.votes) ty = Ret (type_power vs l ty) /\
  RoundWeights.sum pr.(PerRound.addresses_weights) = Ret (round_power vs l).
Proof.
  destruct (reachable_ok vs params total Htotal Hfits k Hk) as [Hok _].
  pose proof (keeper_rounds _ _ Hok r pr Hpr) as Hround.
  pose proof (ok_count _ _ _ Hround ty) as Hc. split_and!.
  - apply (count_values _ _ _ Hc).
  - apply sum_u64_Ret. unfold type_power. rewrite <- (count_sum _ _ _ Hc). split; [done|].
    fold (sum_values (RoundVotes.count_of pr.(PerRound.votes) ty).(VoteCount.values_weights)).
    rewrite (count_sum _ _ _ Hc). etrans; [by apply power_le|by apply (total_in_range vs)].
  - by eapply combined_ok.
Qed.

(** [is_threshold_met] returns, and answers whether the distinct
    validators whose votes were accepted hold a quorum. *)
Theorem is_threshold_met_exact (vs : ValidatorSet) (params : ThresholdParams.t) (total : N)
  (k : VoteKeeper.t) (r : Round.t) (ty : VoteType.t) (th : Threshold.t ValueId)
  (Htotal : total_voting_power vs = Ret total) (Hfits : ThresholdParams.fits params total)
  (Hk : reachable vs params k) :
  VoteKeeper.is_threshold_met k r ty th =
    Ret (bool_decide (has_threshold vs params total (abs k r).(log) ty th)).
Proof.
  destruct (reachable_ok vs params total Htotal Hfits k Hk) as [Hok Hp].
  by apply keeper_threshold_met.
Qed.

(** a keeper never sees quorums for two different values (or for a
    value and nil) of one type in one round, even when validators equivocate,
    as long as a quorum is at least half of the power. *)
Theorem quorum_unique (vs : ValidatorSet) (params : ThresholdParams.t) (total : N)
  (k : VoteKeeper.t) (r : Round.t) (ty : VoteType.t) (u v : ValueId)
  (Htotal : total_voting_power vs = Ret total) (Hfits : ThresholdParams.fits params total)
  (Hhalf : (params.(ThresholdParams.quorum).(ThresholdParam.denominator) <=
            2 * params.(ThresholdParams.quorum).(ThresholdParam.numerator))%N)
  (Hk : reachable vs params k)
  (Hu : VoteKeeper.is_threshold_met k r ty (Threshold.Value u) = Ret true) :
  VoteKeeper.is_threshold_met k r ty Threshold.Nil = Ret false /\
  (VoteKeeper.is_threshold_met k r ty (Threshold.Value v) = Ret true -> u = v).
Proof.
  destruct (reachable_ok vs params total Htotal Hfits k Hk) as [Hok Hp].
  pose proof (fun th => keeper_threshold_met vs params total Htotal Hfits k r ty th Hok Hp) as Hmet.
  pose proof (keeper_consistent vs k r Hok) as Hcons.
  rewrite !Hmet in *. apply Ret_inj, bool_decide_eq_true in Hu. cbn in Hu.
  assert (Hno : forall w, w <> NilOrVal.Val u ->
    ~ ThresholdParam.met params.(ThresholdParams.quorum) (value_power vs (abs k r).(log) ty w) total).
  { intros w Hw Hmw. pose proof (value_powers_le vs total Htotal _ ty w _ Hcons Hw).
    unfold ThresholdParam.met in *. nia. }
  split.
  - f_equal. apply bool_decide_eq_false. by apply Hno.
  - intros Hv%Ret_inj%bool_decide_eq_true. destruct (decide (u = v)); [done|].
    by destruct (Hno (NilOrVal.Val v)); [congruence|].
Qed.

(** every pair of votes the keeper records as evidence is an
    equivocation: the same validator, round and type, and different values. *)
Theorem evidence_sound (vs : ValidatorSet) (params : ThresholdParams.t) (total : N)
  (k : VoteKeeper.t) (a : Address) (pairs : list (SignedVote * SignedVote)) (e c : SignedVote)
  (Htotal : total_voting_power vs = Ret total) (Hfits : ThresholdParams.fits params total)
  (Hk : reachable vs params k)
  (Hpairs : EvidenceMap.get k.(VoteKeeper.evidence) a = Some pairs) (Hin : (e, c) ∈ pairs) :
  sv_address e = a /\ sv_address c = a /\ sv_round e = sv_round c /\
  sv_type e = sv_type c /\ sv_value e <> sv_value c.
Proof.
  destruct (reachable_ok vs params total Htotal Hfits k Hk) as [Hok _].
  by apply (keeper_evidence _ _ Hok a pairs).
Qed.

(** in any sequence of votes, no output other than a round skip is
    produced twice for the same round. *)
Theorem outputs_once (vs : ValidatorSet) (params : ThresholdParams.t) (total : N)
  (votes : list (SignedVote * Round.t)) (k : VoteKeeper.t)
  (outs : list (Round.t * VKOutput.t ValueId))
  (Htotal : total_voting_power vs = Ret total) (Hfits : ThresholdParams.fits params total)
  (Hrun : apply_votes (VoteKeeper.new vs params) votes = Ret (k, outs)) :
  NoDup (filter (fun ro => ~ is_skip ro.2) outs).
Proof.
  by eapply (apply_votes_fresh vs params total Htotal Hfits); [apply reachable_new|].
Qed.

(** An output is produced only when the accepted votes of the round
    justify it: a quorum of the power behind the value, nil or the type, or
    more than the honest threshold behind a later round. *)
Theorem output_sound (vs : ValidatorSet) (params : ThresholdParams.t) (total : N)
  (k k' : VoteKeeper.t) (vote : SignedVote) (round : Round.t) (o : VKOutput.t ValueId)
  (Htotal : total_voting_power vs = Ret total) (Hfits : ThresholdParams.fits params total)
  (Hk : reachable vs params k) (Happ : VoteKeeper.apply_vote k vote round = Ret (k', Some o)) :
  justified vs params total (abs k' (sv_round vote)).(log) (sv_round vote) o.
Proof. by eapply counted_vote_justified. Qed.

End claims.

(** ** A keeper of four validators

    Validators 1, 2 and 3 prevote for the value 7 in round 0; validator 1
    repeats its vote and validator 2 also prevotes for 8. *)

Section keeper_example.
#[local] Existing Instance N_context.

Definition example_value (n : N) : ValueId := n.
Definition example_address (n : N) : Address := n.
Definition example_vote (a v : N) : SignedVote :=
  SignedMessage.new
    (new_prevote SnHeight.INITIAL (Round.Some 0) (NilOrVal.Val (example_value v)) (example_address a))
    (0%N : Signature).

Definition example_votes : list (SignedVote * Round.t) :=
  (fun v => (v, Round.Some 0)) <$>
    [example_vote 1 7; example_vote 1 7; example_vote 2 7; example_vote 2 8; example_vote 3 7].

Definition keeper_after (votes : list (SignedVote * Round.t)) : VoteKeeper.t :=
  match apply_votes (VoteKeeper.new four_validators ThresholdParams.default) votes with
  | Ret (k, _) => k
  | Panic _ => VoteKeeper.new four_validators ThresholdParams.default
  end.
Definition example_before : VoteKeeper.t := keeper_after (take 4 example_votes).
Definition example_keeper : VoteKeeper.t := keeper_after example_votes.

Lemma example_total : total_voting_power four_validators = Ret 4%N.
Proof. vm_refl. Defined.

Lemma example_fits : ThresholdParams.fits ThresholdParams.default 4.
Proof. apply ThresholdParams.default_fits. vm_decide. Defined.

Lemma example_outputs :
  apply_votes (VoteKeeper.new four_validators ThresholdParams.default) example_votes =
    Ret (example_keeper, [(Round.Some 0, VKOutput.PolkaValue (example_value 7))]).
Proof. vm_refl. Defined.

Lemma keeper_after_reachable votes :
  reachable four_validators ThresholdParams.default (keeper_after votes).
Proof.
  unfold keeper_after. destruct (apply_votes _ _) as [[k outs]|] eqn:Hk; [|apply reachable_new].
  eapply apply_votes_reachable; [apply reachable_new|exact Hk].
Qed.

Lemma example_reachable : reachable four_validators ThresholdParams.default example_keeper.
Proof. apply keeper_after_reachable. Qed.

Lemma example_before_reachable : reachable four_validators ThresholdParams.default example_before.
Proof. apply keeper_after_reachable. Qed.

Let r0 := Round.Some 0.

Lemma apply_vote_correct_witness :
  exists k' out, VoteKeeper.apply_vote example_keeper (example_vote 4 7) r0 = Ret (k', out) /\
    refines four_validators 4 example_keeper (example_vote 4 7) r0 k' out.
Proof.
  exact (apply_vote_correct (laws := N_context_laws) four_validators ThresholdParams.default 4
    example_keeper (example_vote 4 7) r0 example_total example_fits example_reachable).
Defined.

Definition example_entry : PerRound.t :=
  default PerRound.new (VoteKeeper.get_round example_keeper (Round.Some 0)).

Lemma tally_exact_witness :
  RoundVotes.get_weight example_entry.(PerRound.votes) VoteType.Prevote
    (NilOrVal.Val (example_value 7)) = 3%N /\
  value_power four_validators example_entry.(PerRound.received_votes) VoteType.Prevote
    (NilOrVal.Val (example_value 7)) = 3%N.
Proof.
  assert (Hpr : VoteKeeper.get_round example_keeper r0 = Some example_entry) by vm_refl.
  assert (Hw : RoundVotes.get_weight example_entry.(PerRound.votes) VoteType.Prevote
            (NilOrVal.Val (example_value 7)) = 3%N) by vm_refl.
  split; [exact Hw|]. rewrite <- Hw. symmetry.
  exact (proj1 (tally_exact (laws := N_context_laws) four_validators ThresholdParams.default 4
    example_keeper r0 example_entry VoteType.Prevote (NilOrVal.Val (example_value 7))
    example_total example_fits example_reachable Hpr)).
Defined.

Lemma quorum_unique_witness :
  VoteKeeper.is_threshold_met example_keeper r0 VoteType.Prevote Threshold.Nil = Ret false /\
  (VoteKeeper.is_threshold_met example_keeper r0 VoteType.Prevote (Threshold.Value (example_value 8))
     = Ret true -> example_value 7 = example_value 8).
Proof.
  refine (quorum_unique (laws := N_context_laws) four_validators ThresholdParams.default 4
    example_keeper r0 VoteType.Prevote (example_value 7) (example_value 8)
    example_total example_fits _ example_reachable _); [vm_decide|vm_refl].
Defined.

Lemma evidence_sound_witness :
  EvidenceMap.get example_keeper.(VoteKeeper.evidence) (example_address 2) =
    Some [(example_vote 2 7, example_vote 2 8)] /\
  sv_value (example_vote 2 7) <> sv_value (example_vote 2 8).
Proof.
  assert (Hev : EvidenceMap.get example_keeper.(VoteKeeper.evidence) (example_address 2) =
    Some [(example_vote 2 7, example_vote 2 8)]) by vm_refl.
  split; [exact Hev|].
  apply (evidence_sound (laws := N_context_laws) four_validators ThresholdParams.default 4
    example_keeper (example_address 2) _ (example_vote 2 7) (example_vote 2 8)
    example_total example_fits example_reachable Hev).
  by apply list_elem_of_singleton.
Defined.

Lemma outputs_once_witness :
  NoDup (filter (fun ro => ~ is_skip ro.2) [(Round.Some 0, VKOutput.PolkaValue (example_value 7))]).
Proof.
  exact (outputs_once (laws := N_context_laws) four_validators ThresholdParams.default 4
    example_votes example_keeper _ example_total example_fits example_outputs).
Defined.

End keeper_example.
