(* ===== verification/ProposalKeeper.v ===== *)
(** * The proposal keeper

    The proposals of each round and the evidence of equivocating proposers:
    core-driver/src/proposal_keeper.rs. A [BTreeMap] is a [gmap]; a method
    that takes [&mut self] returns the new state. *)

From S2P Require Import Prelude Types Context Starknet.

Abbreviation ProposalAndValidity := (SignedProposal * Validity.t)%type.

(** ** Proposals of one round *)

Module ProposalsPerRound.
Section per_round.
Context {Ctx : Context}.
Implicit Types (proposals : list ProposalAndValidity).

Definition get_first_proposal_and_validity proposals (value_id : ValueId)
    : option ProposalAndValidity :=
  List.find (fun pv => bool_decide (Context.value_id (sp_value pv.1) = value_id)) proposals.

Definition get_first_proposal proposals : option SignedProposal := fst <$> head proposals.

(** [Result<(), RecordProposalError>]: [inl] carries the existing and the
    conflicting proposal of [ConflictingProposal]. *)
Definition add proposals (proposal : SignedProposal) (validity : Validity.t)
    : outcome (list ProposalAndValidity * (SignedProposal * SignedProposal + unit)) :=
  if existsb (fun pv => bool_decide (pv.1 = proposal)) proposals then Ret (proposals, inr tt)
  else
    _ ← match get_first_proposal proposals with
        | Some first =>
            if negb (bool_decide (sp_address first = sp_address proposal))
            then Panic "BUG: Received proposals from different validators in the same round."
            else Ret tt
        | None => Ret tt
        end;
    let proposals := proposals ++ [(proposal, validity)] in
    if bool_decide (1 < length proposals)%nat
    then
      existing ← expect (get_first_proposal proposals)
                   "at least one proposal should exist after push";
      Ret (proposals, inl (existing, proposal))
    else Ret (proposals, inr tt).

End per_round.
End ProposalsPerRound.

(** ** Evidence of equivocation *)

Module ProposalEvidence.
Section evidence.
Context {Ctx : Context}.

Definition new : gmap Address (list (SignedProposal * SignedProposal)) := ∅.
Definition is_empty (self : gmap Address (list (SignedProposal * SignedProposal))) : bool :=
  bool_decide (map_to_list self = []).
Definition get (self : gmap Address (list (SignedProposal * SignedProposal))) (address : Address)
    : option (list (SignedProposal * SignedProposal)) := self !! address.

Definition add (self : gmap Address (list (SignedProposal * SignedProposal)))
    (existing conflicting : SignedProposal)
    : gmap Address (list (SignedProposal * SignedProposal)) :=
  match self !! sp_address conflicting with
  | Some evidence => <[sp_address conflicting := evidence ++ [(existing, conflicting)]]> self
  | None => <[sp_address conflicting := [(existing, conflicting)]]> self
  end.

End evidence.
End ProposalEvidence.

(** ** The keeper *)

Module ProposalKeeper.
Record t {Ctx : Context} : Type := mk {
  per_round : gmap Round.t (list ProposalAndValidity);
  evidence : gmap Address (list (SignedProposal * SignedProposal));
}.
Arguments mk {Ctx} per_round evidence.

Section keeper.
Context {Ctx : Context}.

Definition new : t := mk ∅ ProposalEvidence.new.

Definition get_proposal_and_validity_for_round_and_value (self : t) (round : Round.t)
    (value_id : ValueId) : option ProposalAndValidity :=
  round_info ← self.(per_round) !! round;
  ProposalsPerRound.get_first_proposal_and_validity round_info value_id.

Definition get_proposals_and_validities_for_round (self : t) (round : Round.t)
    : list ProposalAndValidity :=
  default [] (self.(per_round) !! round).

Definition store_proposal (self : t) (proposal : SignedProposal) (validity : Validity.t)
    : outcome t :=
  let entry := default [] (self.(per_round) !! sp_round proposal) in
  '(entry, result) ← ProposalsPerRound.add entry proposal validity;
  let per_round := <[sp_round proposal := entry]> self.(per_round) in
  match result with
  | inr tt => Ret (mk per_round self.(evidence))
  | inl (existing, conflicting) =>
      Ret (mk per_round (ProposalEvidence.add self.(evidence) existing conflicting))
  end.

End keeper.
End ProposalKeeper.

(** ** The representation invariant *)

Section invariant.
Context {Ctx : Context}.
Implicit Types (l : list ProposalAndValidity) (p : SignedProposal) (k : ProposalKeeper.t).

(** The stored proposals of a round are distinct, of that round, and of one
    proposer. *)
Record proposals_ok (r : Round.t) l : Prop := {
  proposals_nodup : NoDup l.*1;
  proposals_round pv : pv ∈ l -> sp_round pv.1 = r;
  proposals_address pv pv' : pv ∈ l -> pv' ∈ l -> sp_address pv.1 = sp_address pv'.1;
}.

(** A pair of evidence: two different proposals of one validator for one
    round. *)
Definition proposal_evidence_ok (ev : gmap Address (list (SignedProposal * SignedProposal))) : Prop :=
  forall a pairs e c, ev !! a = Some pairs -> (e, c) ∈ pairs ->
  sp_address e = a /\ sp_address c = a /\ sp_round e = sp_round c /\ e <> c.

Record proposal_keeper_ok k : Prop := {
  pk_rounds r l : k.(ProposalKeeper.per_round) !! r = Some l -> proposals_ok r l;
  pk_evidence : proposal_evidence_ok k.(ProposalKeeper.evidence);
}.

Lemma proposal_keeper_new : proposal_keeper_ok ProposalKeeper.new.
Proof.
  split; [intros r l|intros a pairs e c]; cbn; unfold ProposalEvidence.new; by rewrite lookup_empty.
Qed.

Lemma proposals_ok_nil r : proposals_ok r [].
Proof.
  split; [apply NoDup_nil_2|intros pv Hpv|intros pv pv' Hpv]; by apply not_elem_of_nil in Hpv.
Qed.

Lemma proposals_entry k r :
  proposal_keeper_ok k -> proposals_ok r (ProposalKeeper.get_proposals_and_validities_for_round k r).
Proof.
  intros Hk. unfold ProposalKeeper.get_proposals_and_validities_for_round.
  destruct (_ !! r) eqn:Hr; [by apply (pk_rounds _ Hk)|apply proposals_ok_nil].
Qed.

Lemma existsb_stored l p :
  existsb (fun pv => bool_decide (pv.1 = p)) l = true <-> p ∈ l.*1.
Proof.
  rewrite existsb_exists, list_elem_of_fmap. split.
  - intros (pv & Hin%list_elem_of_In & Heq%bool_decide_eq_true). eauto.
  - intros (pv & -> & Hin%list_elem_of_In). exists pv. by rewrite bool_decide_eq_true.
Qed.

(** What [add] does: nothing to a proposal it has; else it appends it, and
    reports the first proposal of the round as the one it conflicts with. *)
Lemma add_inv l p v l' res :
  ProposalsPerRound.add l p v = Ret (l', res) ->
  (p ∈ l.*1 /\ l' = l /\ res = inr tt) \/
  ((p ∉ l.*1) /\ l' = l ++ [(p, v)] /\
   match head l with
   | Some first => sp_address first.1 = sp_address p /\ res = inl (first.1, p)
   | None => res = inr tt
   end).
Proof.
  unfold ProposalsPerRound.add. destruct (existsb _ _) eqn:Hex.
  - apply existsb_stored in Hex. intros [= <- <-]. by left.
  - assert (Hnew : p ∉ l.*1) by (rewrite <- existsb_stored; by rewrite Hex).
    intros H. right. split; [done|]. destruct l as [|[first fv] l]; cbn in *.
    + rewrite bool_decide_eq_false_2 in H by lia. by simplify_eq.
    + rewrite (bool_decide_eq_true_2 (1 < _)) in H by (rewrite length_app; cbn; lia).
      case_bool_decide; cbn in H; by simplify_eq.
Qed.

Lemma proposals_ok_snoc r l p v :
  proposals_ok r l -> p ∉ l.*1 -> sp_round p = r ->
  (forall first, head l = Some first -> sp_address first.1 = sp_address p) ->
  proposals_ok r (l ++ [(p, v)]).
Proof.
  intros Hl Hnew Hr Hfirst.
  assert (Ha : forall pv, pv ∈ l -> sp_address pv.1 = sp_address p).
  { intros pv Hpv. destruct l as [|first l]; [by apply not_elem_of_nil in Hpv|].
    rewrite <- (Hfirst first eq_refl). apply (proposals_address _ _ Hl); [done|apply list_elem_of_here]. }
  split.
  - rewrite fmap_app. apply NoDup_app. split; [apply Hl|]. split; [|apply NoDup_singleton].
    by intros x Hx ->%list_elem_of_singleton.
  - intros pv [Hpv| ->]%elem_snoc; [by apply (proposals_round _ _ Hl)|done].
  - intros pv pv' [Hpv| ->]%elem_snoc [Hpv'| ->]%elem_snoc; cbn; try done.
    + by apply (proposals_address _ _ Hl).
    + by apply Ha.
    + symmetry. by apply Ha.
Qed.

Lemma proposal_evidence_add ev e c :
  proposal_evidence_ok ev -> sp_address e = sp_address c -> sp_round e = sp_round c -> e <> c ->
  proposal_evidence_ok (ProposalEvidence.add ev e c).
Proof.
  intros Hev Ha Hr Hne a pairs x y. unfold ProposalEvidence.add.
  destruct (ev !! sp_address c) as [old|] eqn:Hold;
    intros [[<- <-]|[_ ?]]%lookup_insert_Some; try by eapply Hev.
  - intros [Hin|[= -> ->]]%elem_snoc; [by eapply Hev|done].
  - by intros [= -> ->]%list_elem_of_singleton.
Qed.

Lemma store_proposal_ok k p v k' :
  proposal_keeper_ok k -> ProposalKeeper.store_proposal k p v = Ret k' -> proposal_keeper_ok k'.
Proof.
  intros Hk H. unfold ProposalKeeper.store_proposal in H. inv_ret. destruct x as [l res].
  pose proof (proposals_entry k (sp_round p) Hk) as Hl.
  unfold ProposalKeeper.get_proposals_and_validities_for_round in Hl. set (l0 := default [] _) in *.
  match goal with Ha : ProposalsPerRound.add _ _ _ = _ |- _ => apply add_inv in Ha end.
  assert (Hrounds : proposals_ok (sp_round p) l -> forall r l',
    <[sp_round p := l]> k.(ProposalKeeper.per_round) !! r = Some l' -> proposals_ok r l').
  { intros Hok r l' [[<- <-]|[_ ?]]%lookup_insert_Some; [done|by apply (pk_rounds _ Hk)]. }
  destruct H0 as [(_ & -> & ->)|(Hnew & -> & Hres)].
  { inv_ret. split; [by apply Hrounds|apply Hk]. }
  assert (Hl' : proposals_ok (sp_round p) (l0 ++ [(p, v)])).
  { apply proposals_ok_snoc; [done..|]. intros first Hf. rewrite Hf in Hres. tauto. }
  destruct l0 as [|[first fv] l0]; cbn in Hres, Hl'; destruct_and?; subst res; inv_ret.
  - split; [by apply Hrounds|apply Hk].
  - split; [by apply Hrounds|]. cbn. apply proposal_evidence_add; [apply Hk|done| |].
    + apply (proposals_round _ _ Hl (first, fv)), list_elem_of_here.
    + intros ->. apply Hnew. apply list_elem_of_here.
Qed.

End invariant.

(** ** What a sequence of proposals leaves in the keeper *)

Section exact.
Context {Ctx : Context}.
Implicit Types (l : list ProposalAndValidity) (p : SignedProposal) (k : ProposalKeeper.t).

Fixpoint store_all k l : outcome ProposalKeeper.t :=
  match l with
  | [] => Ret k
  | (p, v) :: l => k' ← ProposalKeeper.store_proposal k p v; store_all k' l
  end.

(** The list with each proposal kept once, with the validity it first had. *)
Definition keep_first l pv : list ProposalAndValidity :=
  if bool_decide (pv.1 ∈ l.*1) then l else l ++ [pv].
Definition distinct l : list ProposalAndValidity := foldl keep_first [] l.

Definition of_round (r : Round.t) (pv : ProposalAndValidity) : bool :=
  bool_decide (sp_round pv.1 = r).

(** [(e, c)] is recorded as evidence against [a]. *)
Definition recorded k (a : Address) (e c : SignedProposal) : Prop :=
  exists pairs, ProposalEvidence.get k.(ProposalKeeper.evidence) a = Some pairs /\ (e, c) ∈ pairs.

(** [e] is the first proposal of a round of [k] and [c] a later one, by [a]. *)
Definition conflict k (a : Address) (e c : SignedProposal) : Prop :=
  exists r first rest, ProposalKeeper.get_proposals_and_validities_for_round k r = first :: rest /\
    e = first.1 /\ c ∈ rest.*1 /\ a = sp_address c.

Lemma get_proposals_insert m ev r l r' :
  ProposalKeeper.get_proposals_and_validities_for_round (ProposalKeeper.mk (<[r := l]> m) ev) r' =
  if decide (r = r') then l
  else ProposalKeeper.get_proposals_and_validities_for_round (ProposalKeeper.mk m ev) r'.
Proof.
  unfold ProposalKeeper.get_proposals_and_validities_for_round. cbn.
  rewrite lookup_insert. by case_decide.
Qed.

Lemma recorded_add m ev e0 c0 a e c :
  recorded (ProposalKeeper.mk m (ProposalEvidence.add ev e0 c0)) a e c <->
  recorded (ProposalKeeper.mk m ev) a e c \/ (a = sp_address c0 /\ e = e0 /\ c = c0).
Proof.
  unfold recorded, ProposalEvidence.get, ProposalEvidence.add. cbn.
  destruct (decide (sp_address c0 = a)) as [<-|Hne].
  - destruct (ev !! sp_address c0) as [old|]; rewrite lookup_insert_eq; split;
      naive_solver (rewrite ?elem_of_app, ?list_elem_of_singleton in *; naive_solver).
  - destruct (ev !! sp_address c0) as [old|]; rewrite lookup_insert_ne by done; naive_solver.
Qed.

(** A new proposal of a round that has one already. *)
Definition clashes k p (a : Address) (e c : SignedProposal) : Prop :=
  exists first rest,
    ProposalKeeper.get_proposals_and_validities_for_round k (sp_round p) = first :: rest /\
    (p ∉ (first :: rest).*1) /\ e = first.1 /\ c = p /\ a = sp_address p.

Lemma store_proposal_step k p v k' :
  ProposalKeeper.store_proposal k p v = Ret k' ->
  (forall r, ProposalKeeper.get_proposals_and_validities_for_round k' r =
     let l := ProposalKeeper.get_proposals_and_validities_for_round k r in
     if decide (sp_round p = r) then keep_first l (p, v) else l) /\
  (forall a e c, recorded k' a e c <-> recorded k a e c \/ clashes k p a e c).
Proof.
  intros H. unfold ProposalKeeper.store_proposal in H. inv_ret. destruct x as [l res].
  change (default [] (_ !! _)) with
    (ProposalKeeper.get_proposals_and_validities_for_round k (sp_round p)) in *.
  unfold clashes. destruct k as [m ev]. cbn [ProposalKeeper.per_round ProposalKeeper.evidence] in *.
  set (l0 := ProposalKeeper.get_proposals_and_validities_for_round _ (sp_round p)) in *.
  match goal with Ha : ProposalsPerRound.add _ _ _ = _ |- _ => apply add_inv in Ha as Hadd end.
  assert (Hl : l = keep_first l0 (p, v)).
  { unfold keep_first. cbn. destruct Hadd as [(? & -> & _)|(? & -> & _)];
      [by rewrite bool_decide_eq_true_2|by rewrite bool_decide_eq_false_2]. }
  split.
  { intros r. destruct res as [[e0 c0]|[]]; simplify_eq; rewrite get_proposals_insert;
      case_decide; subst; done. }
  intros a e c. destruct Hadd as [(Hin & _ & ->)|(Hnew & _ & Hres)].
  - simplify_eq. split; [by left|]. intros [?|(first & rest & Heq & Hn & _)]; [done|].
    by rewrite Heq in Hin.
  - destruct l0 as [|first l0]; cbn [head] in Hres; [subst res|destruct Hres as [_ ->]]; simplify_eq.
    + split; [by left|]. by intros [?|(? & ? & ? & _)].
    + rewrite recorded_add. unfold recorded. naive_solver.
Qed.

Lemma conflict_step k p v k' a e c :
  (forall r, ProposalKeeper.get_proposals_and_validities_for_round k' r =
     let l := ProposalKeeper.get_proposals_and_validities_for_round k r in
     if decide (sp_round p = r) then keep_first l (p, v) else l) ->
  conflict k' a e c <-> conflict k a e c \/ clashes k p a e c.
Proof.
  intros Hk'. unfold conflict, clashes. cbv zeta in Hk'.
  setoid_rewrite Hk'. unfold keep_first. cbn [fst]. split.
  - intros (r & first & rest & Heq & -> & Hc & ->). case_decide as Hr; [subst r|by left; eauto 10].
    case_bool_decide as Hin; [by left; eauto 10|].
    destruct (ProposalKeeper.get_proposals_and_validities_for_round k (sp_round p))
      as [|first' rest'] eqn:Hget; cbn in Heq; simplify_eq; [by apply not_elem_of_nil in Hc|].
    rewrite fmap_app in Hc. apply elem_of_app in Hc as [Hc| ->%list_elem_of_singleton].
    + left. exists (sp_round p), first, rest'. done.
    + right. exists first, rest'. done.
  - intros [(r & first & rest & Heq & -> & Hc & ->)|(first & rest & Heq & Hnew & -> & -> & ->)].
    + destruct (decide (sp_round p = r)) as [Hr|Hr].
      * destruct (bool_decide (p ∈ (first :: rest).*1)) eqn:Hb; exists r, first.
        -- exists rest. rewrite decide_True, Heq, Hb by done. done.
        -- exists (rest ++ [(p, v)]). rewrite decide_True, Heq, Hb by done. split_and!; try done.
           rewrite fmap_app. set_solver.
      * exists r, first, rest. by rewrite decide_False.
    + exists (sp_round p), first, (rest ++ [(p, v)]).
      rewrite decide_True, Heq, bool_decide_eq_false_2 by done. split_and!; try done.
      rewrite fmap_app. set_solver.
Qed.

Lemma distinct_snoc l pv : distinct (l ++ [pv]) = keep_first (distinct l) pv.
Proof. unfold distinct. by rewrite foldl_app. Qed.

Lemma store_all_snoc k l p v k' :
  store_all k (l ++ [(p, v)]) = Ret k' <->
  exists k1, store_all k l = Ret k1 /\ ProposalKeeper.store_proposal k1 p v = Ret k'.
Proof.
  revert k. induction l as [|[p0 v0] l IH]; intros k; cbn [app store_all].
  - transitivity (ProposalKeeper.store_proposal k p v = Ret k').
    + by destruct (ProposalKeeper.store_proposal k p v).
    + split; [eauto|]. by intros (k1 & [= <-] & ?).
  - destruct (ProposalKeeper.store_proposal k p0 v0); cbn [mbind outcome_bind]; [apply IH|naive_solver].
Qed.

Lemma store_all_exact l k :
  store_all ProposalKeeper.new l = Ret k ->
  proposal_keeper_ok k /\
  (forall r, ProposalKeeper.get_proposals_and_validities_for_round k r =
     distinct (List.filter (of_round r) l)) /\
  (forall a e c, recorded k a e c <-> conflict k a e c).
Proof.
  revert k. induction l as [|[p v] l IH] using rev_ind; intros k Hk.
  - apply Ret_inj in Hk as <-. split_and!; [apply proposal_keeper_new|done|].
    intros a e c. split; [by intros (? & [=] & _)|].
    intros (r & first & rest & Heq & _). done.
  - apply store_all_snoc in Hk as (k1 & Hk1 & Hstore). destruct (IH k1 Hk1) as (Hok & Hget & Hrec).
    split; [by eapply store_proposal_ok|].
    apply store_proposal_step in Hstore as [Hget' Hrec']. split.
    + intros r. rewrite Hget', Hget, List.filter_app. cbn [List.filter].
      change (of_round r (p, v)) with (bool_decide (sp_round p = r)).
      case_decide as Hr; [rewrite bool_decide_eq_true_2|rewrite bool_decide_eq_false_2]; try done;
        [by rewrite distinct_snoc|by rewrite app_nil_r].
    + intros a e c. rewrite Hrec', Hrec. symmetry. by eapply conflict_step.
Qed.

(** C34: after any sequence of proposals, the keeper has, for each round, the
    distinct proposals of that round in the order they came, all of one
    proposer and each with the validity it first had; and the evidence against
    an address is exactly the pairs of the first proposal of a round with a
    later, different one of the same proposer. *)
Theorem proposal_keeper_exact l k (Hk : store_all ProposalKeeper.new l = Ret k) :
  (forall r, let stored := ProposalKeeper.get_proposals_and_validities_for_round k r in
     stored = distinct (List.filter (of_round r) l) /\ proposals_ok r stored) /\
  (forall a e c, recorded k a e c <-> conflict k a e c) /\
  (forall a e c, recorded k a e c ->
     sp_address e = a /\ sp_address c = a /\ sp_round e = sp_round c /\ e <> c).
Proof.
  destruct (store_all_exact l k Hk) as (Hok & Hget & Hrec). split_and!; [|done|].
  - intros r stored. split; [apply Hget|by apply proposals_entry].
  - intros a e c (pairs & Hp & Hin). by eapply pk_evidence.
Qed.

End exact.

(** ** A witness: an equivocating proposer, one proposal received twice *)
Section example.
#[local] Existing Instance N_context.

Definition example_proposal (v : N) : ProposalAndValidity :=
  (SignedMessage.new (new_proposal SnHeight.INITIAL (Round.Some 0) (v : Value) Round.Nil (1%N : Address))
     (0%N : Signature), Validity.Valid).
Definition example_proposals : list ProposalAndValidity :=
  [example_proposal 7; example_proposal 8; example_proposal 7].
Definition example_keeper : ProposalKeeper.t :=
  match store_all ProposalKeeper.new example_proposals with
  | Ret k => k
  | Panic _ => ProposalKeeper.new
  end.

Lemma proposal_keeper_exact_witness :
  store_all ProposalKeeper.new example_proposals = Ret example_keeper /\
  ProposalKeeper.get_proposals_and_validities_for_round example_keeper (Round.Some 0) =
    distinct (List.filter (of_round (Round.Some 0)) example_proposals).
Proof.
  assert (H : store_all ProposalKeeper.new example_proposals = Ret example_keeper) by vm_refl.
  split; [exact H|].
  exact (proj1 (proj1 (proposal_keeper_exact example_proposals example_keeper H) (Round.Some 0))).
Defined.

End example.
