(* ===== verification/Driver.v ===== *)
(** * The driver

    The driver of one height (core-driver/src/driver.rs) and its multiplexer
    (mux.rs): it stores proposals, votes and certificates, turns them into
    inputs of the round state machine, and lifts the state machine's outputs to
    messages for the network.

    A method that takes [&mut self] returns the new driver, also next to an
    error: [process] reports an error without undoing what it did. *)

From S2P Require Import Prelude Types Context Starknet StateMachine VoteKeeper ProposalKeeper.

(** ** Inputs, outputs and errors (input.rs, output.rs, error.rs) *)

Module DriverInput.
Inductive t {Ctx : Context} : Type :=
  | NewRound (height : Height) (round : Round.t) (proposer : Address)
  | ProposeValue (round : Round.t) (value : Value)
  | Proposal (proposal : SignedProposal) (validity : Validity.t)
  | Vote (vote : SignedVote)
  | CommitCertificate (certificate : CommitCertificate.t)
  | PolkaCertificate (certificate : PolkaCertificate.t)
  | TimeoutElapsed (timeout : RoundTimeout.t).
End DriverInput.

Module DriverOutput.
Inductive t {Ctx : Context} : Type :=
  | NewRound (height : Height) (round : Round.t)
  | Propose (proposal : Context.Proposal)
  | Vote (vote : Context.Vote)
  | Decide (round : Round.t) (proposal : Context.Proposal)
  | ScheduleTimeout (timeout : RoundTimeout.t)
  | GetValue (height : Height) (round : Round.t) (timeout : RoundTimeout.t).
#[global] Instance t_eq_dec `{Ctx : Context} : EqDecision t.
Proof. solve_decision. Defined.
End DriverOutput.

Module DriverError.
Inductive t {Ctx : Context} : Type :=
  | NoProposer (height : Height) (round : Round.t)
  | ProposerNotFound (address : Address)
  | ValidatorNotFound (address : Address)
  | InvalidProposalHeight (proposal_height consensus_height : Height)
  | InvalidVoteHeight (vote_height consensus_height : Height)
  | InvalidCertificateHeight (certificate_height consensus_height : Height).
#[global] Instance t_eq_dec `{Ctx : Context} : EqDecision t.
Proof. solve_decision. Defined.
End DriverError.

(** ** The driver's state *)

Module Driver.
Record t {Ctx : Context} : Type := mk {
  address : Address;
  threshold_params : ThresholdParams.t;
  validator_set : ValidatorSet;
  proposer : option Address;
  proposal_keeper : ProposalKeeper.t;
  vote_keeper : VoteKeeper.t;
  commit_certificates : list CommitCertificate.t;
  polka_certificates : list PolkaCertificate.t;
  round_state : State.t;
  pending_inputs : list (Round.t * Input.t);
  last_prevote : option Vote;
  last_precommit : option Vote;
  round_certificate : option EnterRoundCertificate.t;
}.
Arguments mk {Ctx} address threshold_params validator_set proposer proposal_keeper vote_keeper
  commit_certificates polka_certificates round_state pending_inputs last_prevote last_precommit
  round_certificate.

Section fields.
Context {Ctx : Context}.
Implicit Types (self : t).

(** Assignments to one field. *)
Definition set_proposer self x := mk self.(address) self.(threshold_params) self.(validator_set)
  x self.(proposal_keeper) self.(vote_keeper) self.(commit_certificates)
  self.(polka_certificates) self.(round_state) self.(pending_inputs) self.(last_prevote)
  self.(last_precommit) self.(round_certificate).
Definition set_proposal_keeper self x := mk self.(address) self.(threshold_params)
  self.(validator_set) self.(proposer) x self.(vote_keeper) self.(commit_certificates)
  self.(polka_certificates) self.(round_state) self.(pending_inputs) self.(last_prevote)
  self.(last_precommit) self.(round_certificate).
Definition set_vote_keeper self x := mk self.(address) self.(threshold_params)
  self.(validator_set) self.(proposer) self.(proposal_keeper) x self.(commit_certificates)
  self.(polka_certificates) self.(round_state) self.(pending_inputs) self.(last_prevote)
  self.(last_precommit) self.(round_certificate).
Definition set_commit_certificates self x := mk self.(address) self.(threshold_params)
  self.(validator_set) self.(proposer) self.(proposal_keeper) self.(vote_keeper) x
  self.(polka_certificates) self.(round_state) self.(pending_inputs) self.(last_prevote)
  self.(last_precommit) self.(round_certificate).
Definition set_polka_certificates self x := mk self.(address) self.(threshold_params)
  self.(validator_set) self.(proposer) self.(proposal_keeper) self.(vote_keeper)
  self.(commit_certificates) x self.(round_state) self.(pending_inputs) self.(last_prevote)
  self.(last_precommit) self.(round_certificate).
Definition set_round_state self x := mk self.(address) self.(threshold_params)
  self.(validator_set) self.(proposer) self.(proposal_keeper) self.(vote_keeper)
  self.(commit_certificates) self.(polka_certificates) x self.(pending_inputs)
  self.(last_prevote) self.(last_precommit) self.(round_certificate).
Definition set_pending_inputs self x := mk self.(address) self.(threshold_params)
  self.(validator_set) self.(proposer) self.(proposal_keeper) self.(vote_keeper)
  self.(commit_certificates) self.(polka_certificates) self.(round_state) x
  self.(last_prevote) self.(last_precommit) self.(round_certificate).
Definition set_last_prevote self x := mk self.(address) self.(threshold_params)
  self.(validator_set) self.(proposer) self.(proposal_keeper) self.(vote_keeper)
  self.(commit_certificates) self.(polka_certificates) self.(round_state)
  self.(pending_inputs) x self.(last_precommit) self.(round_certificate).
Definition set_last_precommit self x := mk self.(address) self.(threshold_params)
  self.(validator_set) self.(proposer) self.(proposal_keeper) self.(vote_keeper)
  self.(commit_certificates) self.(polka_certificates) self.(round_state)
  self.(pending_inputs) self.(last_prevote) x self.(round_certificate).
Definition set_round_certificate self x := mk self.(address) self.(threshold_params)
  self.(validator_set) self.(proposer) self.(proposal_keeper) self.(vote_keeper)
  self.(commit_certificates) self.(polka_certificates) self.(round_state)
  self.(pending_inputs) self.(last_prevote) self.(last_precommit) x.

Definition new (height : Height) (validator_set : ValidatorSet) (address : Address)
    (threshold_params : ThresholdParams.t) : t :=
  let proposal_keeper := ProposalKeeper.new in
  let vote_keeper := VoteKeeper.new validator_set threshold_params in
  let round_state := State.new height Round.Nil in
  mk address threshold_params validator_set None proposal_keeper vote_keeper [] [] round_state
     [] None None None.

Definition move_to_height self (height : Height) (validator_set : ValidatorSet) : t :=
  let proposal_keeper := ProposalKeeper.new in
  let vote_keeper := VoteKeeper.new validator_set self.(threshold_params) in
  let round_state := State.new height Round.Nil in
  mk self.(address) self.(threshold_params) validator_set self.(proposer) proposal_keeper
     vote_keeper [] [] round_state [] None None self.(round_certificate).

(** ** Accessors *)

Definition height self : Height := self.(round_state).(State.height).
Definition round self : Round.t := self.(round_state).(State.round).
Definition step self : Step.t := self.(round_state).(State.step).
Definition decided_value self : option (Round.t * Value) :=
  (fun decision => (decision.(RoundValue.round), decision.(RoundValue.value))) <$>
    self.(round_state).(State.decision).

Definition get_proposer self : DriverError.t + Validator :=
  match self.(proposer) with
  | Some proposer =>
      match get_by_address self.(validator_set) proposer with
      | Some proposer => inr proposer
      | None => inl (DriverError.ProposerNotFound proposer)
      end
  | None => inl (DriverError.NoProposer (height self) (round self))
  end.

Definition commit_certificate self (round : Round.t) (value_id : ValueId)
    : option CommitCertificate.t :=
  List.find (fun c => bool_decide (c.(CommitCertificate.round) = round) &&
                      bool_decide (c.(CommitCertificate.value_id) = value_id))
    self.(commit_certificates).

Definition proposal_and_validity_for_round_and_value self (round : Round.t) (value_id : ValueId)
    : option ProposalAndValidity :=
  ProposalKeeper.get_proposal_and_validity_for_round_and_value self.(proposal_keeper) round value_id.

Definition proposals_and_validities_for_round self (round : Round.t) : list ProposalAndValidity :=
  ProposalKeeper.get_proposals_and_validities_for_round self.(proposal_keeper) round.

End fields.
End Driver.

(** ** The multiplexer (mux.rs) *)

Module Mux.
Section mux.
Context {Ctx : Context}.
Implicit Types (self : Driver.t) (proposal : Proposal) (validity : Validity.t).

Definition has_polka_value (votekeeper : VoteKeeper.t) (round : Round.t) proposal : outcome bool :=
  VoteKeeper.is_threshold_met votekeeper round VoteType.Prevote
    (Threshold.Value (value_id (proposal_value proposal))).
Definition has_polka_nil (votekeeper : VoteKeeper.t) (round : Round.t) : outcome bool :=
  VoteKeeper.is_threshold_met votekeeper round VoteType.Prevote Threshold.Nil.
Definition has_polka_any (votekeeper : VoteKeeper.t) (round : Round.t) : outcome bool :=
  VoteKeeper.is_threshold_met votekeeper round VoteType.Prevote Threshold.Any.
Definition has_precommit_any (votekeeper : VoteKeeper.t) (round : Round.t) : outcome bool :=
  VoteKeeper.is_threshold_met votekeeper round VoteType.Precommit Threshold.Any.

Definition find_non_value_threshold (votekeeper : VoteKeeper.t) (round : Round.t)
    : outcome (option (VKOutput.t ValueId)) :=
  b ← has_precommit_any votekeeper round;
  if b : bool then Ret (Some VKOutput.PrecommitAny)
  else
    b ← has_polka_nil votekeeper round;
    if b : bool then Ret (Some VKOutput.PolkaNil)
    else
      b ← has_polka_any votekeeper round;
      if b : bool then Ret (Some VKOutput.PolkaAny) else Ret None.

(** [self.polka_certificates.iter().find(|cert| cert.round == round)]. *)
Definition find_polka_certificate self (round : Round.t) : option PolkaCertificate.t :=
  List.find (fun cert => bool_decide (cert.(PolkaCertificate.round) = round))
    self.(Driver.polka_certificates).

(** Is there a polka for the proposal's proof-of-lock round? *)
Definition polka_previous self proposal : outcome bool :=
  let polka_certificate_for_previous := find_polka_certificate self (proposal_pol_round proposal) in
  if Round.is_defined (proposal_pol_round proposal) &&
     Round.ltb (proposal_pol_round proposal) self.(Driver.round_state).(State.round)
  then
    if bool_decide (is_Some polka_certificate_for_previous) then Ret true
    else has_polka_value self.(Driver.vote_keeper) (proposal_pol_round proposal) proposal
  else Ret false.

(** Is there a polka for the proposal's own round? *)
Definition polka_for_current self proposal : outcome bool :=
  let polka_certificate_for_current := find_polka_certificate self (proposal_round proposal) in
  if bool_decide (is_Some polka_certificate_for_current) then Ret true
  else has_polka_value self.(Driver.vote_keeper) (proposal_round proposal) proposal.

(** The part of [multiplex_proposal] after the L49 checks. *)
Definition multiplex_undecided self proposal (polka_previous : bool) : outcome (option Input.t) :=
  if negb (bool_decide (self.(Driver.round_state).(State.round) = proposal_round proposal))
  then Ret None
  else
    polka_for_current ← polka_for_current self proposal;
    let polka_current :=
      polka_for_current && Step.geb self.(Driver.round_state).(State.step) Step.Prevote in
    if polka_current then Ret (Some (Input.ProposalAndPolkaCurrent proposal))
    else if bool_decide (self.(Driver.round_state).(State.step) = Step.Propose) && polka_previous
    then Ret (Some (Input.ProposalAndPolkaPrevious proposal))
    else if Round.is_nil (proposal_pol_round proposal)
    then Ret (Some (Input.Proposal proposal))
    else Ret None.

Definition multiplex_proposal self proposal validity : outcome (option Input.t) :=
  _ ← assert_that (bool_decide (Driver.height self = proposal_height proposal))
        "assertion failed: self.height() == proposal.height()";
  if bool_decide (self.(Driver.round_state).(State.round) = Round.Nil) then Ret None
  else
    polka_previous ← polka_previous self proposal;
    if negb (Validity.is_valid validity)
    then
      if bool_decide (self.(Driver.round_state).(State.step) = Step.Propose)
      then
        if Round.is_nil (proposal_pol_round proposal) then Ret (Some Input.InvalidProposal)
        else if polka_previous : bool
        then Ret (Some (Input.InvalidProposalAndPolkaPrevious proposal))
        else Ret None
      else Ret None
    else if bool_decide (self.(Driver.round_state).(State.decision) = None) &&
            bool_decide (is_Some (Driver.commit_certificate self (proposal_round proposal)
                                    (value_id (proposal_value proposal))))
    then Ret (Some (Input.ProposalAndPrecommitValue proposal))
    else
      met ← VoteKeeper.is_threshold_met self.(Driver.vote_keeper) (proposal_round proposal)
              VoteType.Precommit (Threshold.Value (value_id (proposal_value proposal)));
      if met && bool_decide (self.(Driver.round_state).(State.decision) = None)
      then Ret (Some (Input.ProposalAndPrecommitValue proposal))
      else multiplex_undecided self proposal polka_previous.

Definition store_and_multiplex_proposal self (signed_proposal : SignedProposal) validity
    : outcome (Driver.t * option Input.t) :=
  _ ← assert_that (bool_decide (Driver.height self = sp_height signed_proposal))
        "assertion failed: self.height() == signed_proposal.height()";
  let proposal := signed_proposal.(SignedMessage.message) in
  proposal_keeper ←
    ProposalKeeper.store_proposal self.(Driver.proposal_keeper) signed_proposal validity;
  let self := Driver.set_proposal_keeper self proposal_keeper in
  input ← multiplex_proposal self proposal validity;
  Ret (self, input).

Definition store_and_multiplex_commit_certificate self (certificate : CommitCertificate.t)
    : outcome (Driver.t * option Input.t) :=
  _ ← assert_that (bool_decide (Driver.height self = certificate.(CommitCertificate.height)))
        "assertion failed: self.height() == certificate.height";
  let certificate_round := certificate.(CommitCertificate.round) in
  let certificate_value_id := certificate.(CommitCertificate.value_id) in
  let self := Driver.set_commit_certificates self
                (self.(Driver.commit_certificates) ++ [certificate]) in
  match Driver.proposal_and_validity_for_round_and_value self certificate_round
          certificate_value_id with
  | Some (signed_proposal, validity) =>
      if Validity.is_valid validity
      then Ret (self, Some (Input.ProposalAndPrecommitValue signed_proposal.(SignedMessage.message)))
      else Ret (self, None)
  | None => Ret (self, None)
  end.

Definition store_and_multiplex_polka_certificate self (certificate : PolkaCertificate.t)
    : outcome (Driver.t * option (Round.t * Input.t)) :=
  _ ← assert_that (bool_decide (Driver.height self = certificate.(PolkaCertificate.height)))
        "assertion failed: self.height() == certificate.height";
  let certificate_round := certificate.(PolkaCertificate.round) in
  let certificate_value_id := certificate.(PolkaCertificate.value_id) in
  let self :=
    if negb (existsb (fun existing =>
         bool_decide (existing.(PolkaCertificate.round) = certificate.(PolkaCertificate.round)) &&
         bool_decide (existing.(PolkaCertificate.value_id) = certificate.(PolkaCertificate.value_id)))
       self.(Driver.polka_certificates))
    then Driver.set_polka_certificates self (self.(Driver.polka_certificates) ++ [certificate])
    else self in
  match Driver.proposal_and_validity_for_round_and_value self (Driver.round self)
          certificate_value_id with
  | None => Ret (self, Some (certificate_round, Input.PolkaAny))
  | Some (signed_proposal, validity) =>
      let proposal := signed_proposal.(SignedMessage.message) in
      if bool_decide (certificate_value_id = value_id (proposal_value proposal))
      then
        if Validity.is_valid validity
        then
          if bool_decide (proposal_pol_round proposal = certificate_round)
          then Ret (self, Some (proposal_round proposal, Input.ProposalAndPolkaPrevious proposal))
          else if bool_decide (proposal_round proposal = certificate_round)
          then Ret (self, Some (proposal_round proposal, Input.ProposalAndPolkaCurrent proposal))
          else Ret (self, None)
        else Ret (self, None)
      else Ret (self, Some (certificate_round, Input.PolkaAny))
  end.

Definition multiplex_vote_threshold self (new_threshold : VKOutput.t ValueId)
    (threshold_round : Round.t) : Round.t * Input.t :=
  match new_threshold with
  | VKOutput.PolkaAny => (threshold_round, Input.PolkaAny)
  | VKOutput.PolkaNil => (threshold_round, Input.PolkaNil)
  | VKOutput.PrecommitAny => (threshold_round, Input.PrecommitAny)
  | VKOutput.SkipRound r => (threshold_round, Input.SkipRound r)
  | VKOutput.PrecommitValue v =>
      match Driver.proposal_and_validity_for_round_and_value self threshold_round v with
      | Some (proposal, validity) =>
          if Validity.is_valid validity
          then (threshold_round, Input.ProposalAndPrecommitValue proposal.(SignedMessage.message))
          else (threshold_round, Input.PrecommitAny)
      | None => (threshold_round, Input.PrecommitAny)
      end
  | VKOutput.PolkaValue v =>
      match Driver.proposal_and_validity_for_round_and_value self (Driver.round self) v with
      | Some (signed, validity) =>
          let proposal := signed.(SignedMessage.message) in
          let proposal_round := Context.proposal_round proposal in
          let pol_round := proposal_pol_round proposal in
          let pol_round_match := bool_decide (pol_round = threshold_round) in
          let round_match := bool_decide (proposal_round = threshold_round) in
          if Round.is_defined pol_round && negb (Validity.is_valid validity) && pol_round_match
          then (proposal_round, Input.InvalidProposalAndPolkaPrevious proposal)
          else if Round.is_defined pol_round && Validity.is_valid validity && pol_round_match
          then (proposal_round, Input.ProposalAndPolkaPrevious proposal)
          else if round_match && Validity.is_valid validity
          then (threshold_round, Input.ProposalAndPolkaCurrent proposal)
          else (threshold_round, Input.PolkaAny)
      | None => (threshold_round, Input.PolkaAny)
      end
  end.

(** The [for] loop of [multiplex_step_change]. *)
Fixpoint multiplex_stored self (round : Round.t) (proposals : list ProposalAndValidity)
    : outcome (list (Round.t * Input.t)) :=
  match proposals with
  | [] => Ret []
  | (signed_proposal, validity) :: proposals =>
      let proposal := signed_proposal.(SignedMessage.message) in
      input ←
        match Driver.step self with
        | Step.Propose =>
            input ← multiplex_proposal self proposal validity;
            Ret (match input with Some input => [(Driver.round self, input)] | None => [] end)
        | Step.Prevote =>
            b ← has_polka_value self.(Driver.vote_keeper) round proposal;
            Ret (if b : bool
                 then [multiplex_vote_threshold self
                         (VKOutput.PolkaValue (value_id (proposal_value proposal))) round]
                 else [])
        | _ => Ret []
        end;
      rest ← multiplex_stored self round proposals;
      Ret (input ++ rest)
  end.

Definition multiplex_step_change self (round : Round.t) : outcome (list (Round.t * Input.t)) :=
  let proposals := Driver.proposals_and_validities_for_round self round in
  result ← multiplex_stored self round proposals;
  threshold ← find_non_value_threshold self.(Driver.vote_keeper) round;
  Ret (result ++ match threshold with
                 | Some threshold => [multiplex_vote_threshold self threshold round]
                 | None => []
                 end).

End mux.
End Mux.

(** ** Processing inputs (driver.rs) *)

Module Process.
Section process.
Context {Ctx : Context}.
Implicit Types (self : Driver.t) (outputs : list DriverOutput.t).

(** A driver and [Result<Option<RoundOutput>, Error>]. *)
Abbreviation applied := (Driver.t * (DriverError.t + option Output.t))%type.

(** *** Lifting outputs *)

Definition set_last_vote_cast self (vote : Vote) : outcome Driver.t :=
  _ ← assert_that (bool_decide (vote_height vote = Driver.height self))
        "assertion failed: vote.height() == self.height()";
  if bool_decide (vote_round vote = Driver.round self)
  then
    match vote_type vote with
    | VoteType.Prevote => Ret (Driver.set_last_prevote self (Some vote))
    | VoteType.Precommit => Ret (Driver.set_last_precommit self (Some vote))
    end
  else Ret self.

(** [last.as_ref().is_none_or(|prev| ...)]: may we cast [vote] after [last]? *)
Definition follows (last : option Vote) (vote : Vote) : bool :=
  match last with
  | None => true
  | Some prev =>
      Height_ltb (vote_height prev) (vote_height vote) ||
      Round.ltb (vote_round prev) (vote_round vote) || bool_decide (prev = vote)
  end.

Definition match_valid self (vote : Vote) : bool :=
  match self.(Driver.round_state).(State.valid) with
  | None => true
  | Some valid =>
      match vote_value vote with
      | NilOrVal.Val value_id => bool_decide (Context.value_id valid.(RoundValue.value) = value_id)
      | NilOrVal.Nil => true
      end
  end.

Definition lift_vote_output self (vote : Vote) outputs
    : outcome (Driver.t * list DriverOutput.t) :=
  if negb (bool_decide (vote_address vote = self.(Driver.address))) then Ret (self, outputs)
  else
    let can_vote :=
      match vote_type vote with
      | VoteType.Prevote => follows self.(Driver.last_prevote) vote
      | VoteType.Precommit =>
          let good_precommit := follows self.(Driver.last_precommit) vote in
          let match_valid := match_valid self vote in
          good_precommit && match_valid
      end in
    if can_vote
    then
      self ← set_last_vote_cast self vote;
      Ret (self, outputs ++ [DriverOutput.Vote vote])
    else Ret (self, outputs).

Definition lift_output self (round_output : Output.t) outputs
    : outcome (Driver.t * list DriverOutput.t) :=
  match round_output with
  | Output.NewRound round => Ret (self, outputs ++ [DriverOutput.NewRound (Driver.height self) round])
  | Output.Proposal proposal => Ret (self, outputs ++ [DriverOutput.Propose proposal])
  | Output.Vote vote => lift_vote_output self vote outputs
  | Output.ScheduleTimeout timeout => Ret (self, outputs ++ [DriverOutput.ScheduleTimeout timeout])
  | Output.GetValueAndScheduleTimeout height round timeout =>
      Ret (self, outputs ++ [DriverOutput.ScheduleTimeout timeout;
                             DriverOutput.GetValue height round timeout])
  | Output.Decision round proposal =>
      Ret (self, outputs ++ [DriverOutput.Decide round proposal])
  end.

(** *** Applying inputs *)

(** [core::mem::take] leaves the default state behind while the proposer is
    looked up. *)
Definition apply_input self (input_round : Round.t) (input : Input.t) : outcome applied :=
  let round_state := self.(Driver.round_state) in
  let self := Driver.set_round_state self State.default in
  let previous_step := round_state.(State.step) in
  match Driver.get_proposer self with
  | inl e => Ret (self, inl e)
  | inr proposer =>
      let info := Info.new input_round self.(Driver.address) (validator_address proposer) in
      transition ← StateMachine.apply round_state info input;
      let self := Driver.set_round_state self transition.(Transition.next_state) in
      self ←
        (if negb (bool_decide (previous_step = Driver.step self)) &&
            negb (bool_decide (Driver.step self = Step.Unstarted))
         then
           pending_inputs ← Mux.multiplex_step_change self input_round;
           Ret (Driver.set_pending_inputs self pending_inputs)
         else Ret self);
      Ret (self, inr transition.(Transition.output))
  end.

Definition apply_commit_certificate self (certificate : CommitCertificate.t) : outcome applied :=
  if negb (bool_decide (Driver.height self = certificate.(CommitCertificate.height)))
  then Ret (self, inl (DriverError.InvalidCertificateHeight certificate.(CommitCertificate.height)
                         (Driver.height self)))
  else
    let round := certificate.(CommitCertificate.round) in
    '(self, input) ← Mux.store_and_multiplex_commit_certificate self certificate;
    match input with
    | Some round_input => apply_input self round round_input
    | None => Ret (self, inr None)
    end.

Definition apply_polka_certificate self (certificate : PolkaCertificate.t) : outcome applied :=
  if negb (bool_decide (Driver.height self = certificate.(PolkaCertificate.height)))
  then Ret (self, inl (DriverError.InvalidCertificateHeight certificate.(PolkaCertificate.height)
                         (Driver.height self)))
  else
    '(self, input) ← Mux.store_and_multiplex_polka_certificate self certificate;
    match input with
    | Some (input_round, round_input) => apply_input self input_round round_input
    | None => Ret (self, inr None)
    end.

Definition apply_new_round self (height : Height) (round : Round.t) (proposer : Address)
    : outcome applied :=
  let self :=
    if bool_decide (Driver.height self = height)
    then Driver.set_round_state self (State.with_round self.(Driver.round_state) round)
    else Driver.set_round_state self (State.new height round) in
  let self := Driver.set_proposer self (Some proposer) in
  apply_input self round (Input.NewRound round).

Definition apply_propose_value self (round : Round.t) (value : Value) : outcome applied :=
  apply_input self round (Input.ProposeValue value).

Definition apply_proposal self (proposal : SignedProposal) (validity : Validity.t)
    : outcome applied :=
  if negb (bool_decide (Driver.height self = sp_height proposal))
  then Ret (self, inl (DriverError.InvalidProposalHeight (sp_height proposal) (Driver.height self)))
  else
    let round := sp_round proposal in
    '(self, input) ← Mux.store_and_multiplex_proposal self proposal validity;
    match input with
    | Some round_input => apply_input self round round_input
    | None => Ret (self, inr None)
    end.

(** *** Certificates from the vote keeper *)

Definition store_polka_certificate self (vote_round : Round.t) (value_id : ValueId) : Driver.t :=
  match VoteKeeper.get_round self.(Driver.vote_keeper) vote_round with
  | None => self
  | Some per_round =>
      let certificate :=
        PolkaCertificate.mk (Driver.height self) vote_round value_id
          ((fun v => PolkaSignature.new (sv_address v) v.(SignedMessage.signature)) <$>
           List.filter (fun v => bool_decide (sv_type v = VoteType.Prevote) &&
                                 bool_decide (sv_value v = NilOrVal.Val value_id))
             per_round.(PerRound.received_votes)) in
      Driver.set_polka_certificates self (self.(Driver.polka_certificates) ++ [certificate])
  end.

Definition prune_polka_certificates self (min_round : Round.t) : Driver.t :=
  Driver.set_polka_certificates self
    (List.filter (fun cert => Round.leb min_round cert.(PolkaCertificate.round))
       self.(Driver.polka_certificates)).

Definition prune_votes_and_certificates self (min_round : Round.t) : Driver.t :=
  let self := prune_polka_certificates self min_round in
  Driver.set_vote_keeper self (VoteKeeper.prune_votes self.(Driver.vote_keeper) min_round).

Definition store_precommit_any_round_certificate self (vote_round : Round.t) : outcome Driver.t :=
  match VoteKeeper.get_round self.(Driver.vote_keeper) vote_round with
  | None => Panic "Missing the PrecommitAny votes"
  | Some per_round =>
      let precommits :=
        List.filter (fun v => bool_decide (sv_type v = VoteType.Precommit))
          per_round.(PerRound.received_votes) in
      enter_round ← Round.increment vote_round;
      Ret (Driver.set_round_certificate self
             (Some (EnterRoundCertificate.new_from_votes (Driver.height self) enter_round
                      vote_round RoundCertificateType.Precommit precommits)))
  end.

(** The first vote of each validator:
    [filter(|vote| seen_addresses.insert(vote.validator_address()))]. *)
Fixpoint first_votes (seen_addresses : gset Address) (votes : list SignedVote) : list SignedVote :=
  match votes with
  | [] => []
  | vote :: votes =>
      if bool_decide (sv_address vote ∈ seen_addresses) then first_votes seen_addresses votes
      else vote :: first_votes ({[sv_address vote]} ∪ seen_addresses) votes
  end.

Definition store_skip_round_certificate self (vote_round : Round.t) : outcome Driver.t :=
  match VoteKeeper.get_round self.(Driver.vote_keeper) vote_round with
  | None => Panic "Missing the SkipRoundvotes"
  | Some per_round =>
      let skip_votes := first_votes ∅ per_round.(PerRound.received_votes) in
      Ret (Driver.set_round_certificate self
             (Some (EnterRoundCertificate.new_from_votes (Driver.height self) vote_round
                      vote_round RoundCertificateType.Skip skip_votes)))
  end.

(** The certificates [apply_vote] stores for an output of the vote keeper. *)
Definition store_certificates self (this_round vote_round : Round.t) (output : VKOutput.t ValueId)
    : outcome Driver.t :=
  match output with
  | VKOutput.PolkaValue val => Ret (store_polka_certificate self vote_round val)
  | VKOutput.PrecommitAny =>
      if bool_decide (this_round = vote_round)
      then store_precommit_any_round_certificate self vote_round
      else Ret self
  | VKOutput.SkipRound round => store_skip_round_certificate self round
  | _ => Ret self
  end.

Definition apply_vote self (vote : SignedVote) : outcome applied :=
  if negb (bool_decide (Driver.height self = sv_height vote))
  then Ret (self, inl (DriverError.InvalidVoteHeight (sv_height vote) (Driver.height self)))
  else
    match get_by_address self.(Driver.validator_set) (sv_address vote) with
    | None => Ret (self, inl (DriverError.ValidatorNotFound (sv_address vote)))
    | Some _ =>
        let vote_round := sv_round vote in
        let this_round := Driver.round self in
        '(vote_keeper, output) ← VoteKeeper.apply_vote self.(Driver.vote_keeper) vote this_round;
        let self := Driver.set_vote_keeper self vote_keeper in
        match output with
        | None => Ret (self, inr None)
        | Some output =>
            self ← store_certificates self this_round vote_round output;
            let '(input_round, round_input) :=
              Mux.multiplex_vote_threshold self output vote_round in
            if bool_decide (round_input = Input.NoInput) then Ret (self, inr None)
            else apply_input self input_round round_input
        end
    end.

Definition apply_timeout self (timeout : RoundTimeout.t) : outcome applied :=
  match timeout.(RoundTimeout.kind) with
  | TimeoutKind.Propose => apply_input self timeout.(RoundTimeout.round) Input.TimeoutPropose
  | TimeoutKind.Prevote => apply_input self timeout.(RoundTimeout.round) Input.TimeoutPrevote
  | TimeoutKind.Precommit => apply_input self timeout.(RoundTimeout.round) Input.TimeoutPrecommit
  | TimeoutKind.Rebroadcast => Ret (self, inr None)
  end.

Definition apply self (input : DriverInput.t) : outcome applied :=
  match input with
  | DriverInput.CommitCertificate certificate => apply_commit_certificate self certificate
  | DriverInput.PolkaCertificate certificate => apply_polka_certificate self certificate
  | DriverInput.NewRound height round proposer => apply_new_round self height round proposer
  | DriverInput.ProposeValue round value => apply_propose_value self round value
  | DriverInput.Proposal proposal validity => apply_proposal self proposal validity
  | DriverInput.Vote vote => apply_vote self vote
  | DriverInput.TimeoutElapsed timeout => apply_timeout self timeout
  end.

(** *** The main loop *)

(** The [for] loop over one batch of pending inputs. *)
Fixpoint apply_pending self (pending : list (Round.t * Input.t)) outputs
    : outcome (Driver.t * (DriverError.t + list DriverOutput.t)) :=
  match pending with
  | [] => Ret (self, inr outputs)
  | (round, input) :: pending =>
      '(self, result) ← apply_input self round input;
      match result with
      | inl e => Ret (self, inl e)
      | inr (Some output) =>
          '(self, outputs) ← lift_output self output outputs;
          apply_pending self pending outputs
      | inr None => apply_pending self pending outputs
      end
  end.

(** The [while] loop. Out of [fuel] it stops with inputs still pending, which
    [process] never does: see the theorem on [process]'s pending inputs. *)
Fixpoint drain (fuel : nat) self outputs
    : outcome (Driver.t * (DriverError.t + list DriverOutput.t)) :=
  match fuel, self.(Driver.pending_inputs) with
  | S fuel, (_ :: _) as new_pending =>
      let self := Driver.set_pending_inputs self [] in
      '(self, result) ← apply_pending self new_pending outputs;
      match result with
      | inl e => Ret (self, inl e)
      | inr outputs => drain fuel self outputs
      end
  | _, _ => Ret (self, inr outputs)
  end.

(** A batch that leaves inputs pending has moved to a later step, and there
    are five steps. *)
Definition drain_fuel : nat := 5.

Definition process self (msg : DriverInput.t)
    : outcome (Driver.t * (DriverError.t + list DriverOutput.t)) :=
  '(self, result) ← apply self msg;
  match result with
  | inl e => Ret (self, inl e)
  | inr None => Ret (self, inr [])
  | inr (Some round_output) =>
      '(self, outputs) ← lift_output self round_output [];
      drain drain_fuel self outputs
  end.

End process.
End Process.

(** ** Concrete messages, at the initial height *)
Section messages.
#[local] Existing Instance N_context.

Definition addr (a : N) : Address := a.
Definition val (v : N) : Value := v.
Definition val_id (v : N) : ValueId := value_id (val v).
Definition some_sig : Signature := 0%N.

Definition msg_proposal (r : Round.t) (v : N) (pol : Round.t) (a : N) : DriverInput.t :=
  DriverInput.Proposal
    (SignedMessage.new (new_proposal SnHeight.INITIAL r (val v) pol (addr a)) some_sig) Validity.Valid.
Definition msg_prevote (r : Round.t) (v : N) (a : N) : DriverInput.t :=
  DriverInput.Vote
    (SignedMessage.new (new_prevote SnHeight.INITIAL r (NilOrVal.Val (val_id v)) (addr a)) some_sig).
Definition msg_precommit (r : Round.t) (v : NilOrVal.t N) (a : N) : DriverInput.t :=
  DriverInput.Vote
    (SignedMessage.new (new_precommit SnHeight.INITIAL r (NilOrVal.map val_id v) (addr a)) some_sig).
Definition msg_new_round (r : Round.t) (a : N) : DriverInput.t :=
  DriverInput.NewRound SnHeight.INITIAL r (addr a).
Definition msg_timeout (t : RoundTimeout.t) : DriverInput.t := DriverInput.TimeoutElapsed t.

End messages.

(** A new driver for one of the four validators. *)
Abbreviation new_driver a :=
  (Driver.new (Ctx := N_context) SnHeight.INITIAL four_validators (addr a) ThresholdParams.default).
