(* ===== verification/DriverFacts.v ===== *)
(** * The driver's main loop

    What one call of [apply_input] does to the driver, that [process] drains
    its pending inputs, and that the votes it emits never contradict each
    other. *)

From S2P Require Import Prelude Types Context Starknet StateMachine VoteKeeper ProposalKeeper Driver.

Section apply_input.
Context {Ctx : Context}.
Implicit Types (d : Driver.t) (s : State.t) (i : Input.t) (r : Round.t).

(** A step to a started step. *)
Definition step_change s s' : Prop :=
  s'.(State.step) <> s.(State.step) /\ s'.(State.step) <> Step.Unstarted.

(** The driver knows its proposer. *)
Definition has_proposer d : Prop :=
  exists a v, d.(Driver.proposer) = Some a /\ get_by_address d.(Driver.validator_set) a = Some v.

Lemma get_proposer_inr d v : Driver.get_proposer d = inr v -> has_proposer d.
Proof. unfold Driver.get_proposer, has_proposer. intros H. repeat case_match; naive_solver. Qed.

Lemma get_proposer_inl d e : Driver.get_proposer d = inl e -> ~ has_proposer d.
Proof. unfold Driver.get_proposer, has_proposer. intros H. repeat case_match; naive_solver. Qed.

(** [apply_input] fails without a proposer, or takes one step of the state
    machine and queues what the multiplexer finds after a step change. *)
Inductive applies d r i : Driver.t -> DriverError.t + option Output.t -> Prop :=
  | applies_error e :
      Driver.get_proposer (Driver.set_round_state d State.default) = inl e ->
      ~ has_proposer d ->
      applies d r i (Driver.set_round_state d State.default) (inl e)
  | applies_same info s o :
      has_proposer d ->
      info.(Info.input_round) = r -> info.(Info.address) = d.(Driver.address) ->
      rule d.(Driver.round_state) info i s o ->
      ~ step_change d.(Driver.round_state) s ->
      applies d r i (Driver.set_round_state d s) (inr o)
  | applies_step info s o pending :
      has_proposer d ->
      info.(Info.input_round) = r -> info.(Info.address) = d.(Driver.address) ->
      rule d.(Driver.round_state) info i s o ->
      step_change d.(Driver.round_state) s ->
      Mux.multiplex_step_change (Driver.set_round_state d s) r = Ret pending ->
      applies d r i (Driver.set_pending_inputs (Driver.set_round_state d s) pending) (inr o).

Lemma apply_input_applies d r i d' res :
  Process.apply_input d r i = Ret (d', res) -> applies d r i d' res.
Proof.
  unfold Process.apply_input. destruct (Driver.get_proposer _) as [e|proposer] eqn:Hp.
  { intros [= <- <-]. apply applies_error; [done|]. by apply get_proposer_inl in Hp. }
  apply get_proposer_inr in Hp as Hhas.
  intros H. inv_ret. rename x into tr. rename x0 into d''.
  change (Driver.set_round_state (Driver.set_round_state d State.default) (Transition.next_state tr))
    with (Driver.set_round_state d (Transition.next_state tr)) in *.
  match goal with Ha : StateMachine.apply _ _ _ = Ret tr |- _ => apply apply_sound in Ha as Hrule end.
  simplify_eq.
  match goal with Hs : (if _ then _ else _) = Ret d' |- _ =>
    destruct (negb _ && negb _) eqn:Hb in Hs; inv_ret end.
  - apply andb_prop in Hb as [Hb1%negb_true_iff%bool_decide_eq_false Hb2%negb_true_iff%bool_decide_eq_false].
    by eapply applies_step; [| | |exact Hrule|..].
  - eapply applies_same; [| | |exact Hrule|]; try done. intros [Hne Hun].
    apply andb_false_iff in Hb as [Hb|Hb]; apply negb_false_iff, bool_decide_eq_true in Hb; by cbn in Hb.
Qed.

(** ** Draining *)

(** An input that does not start or skip a round. *)
Definition calm i : Prop :=
  match i with
  | Input.NewRound _ | Input.SkipRound _ | Input.TimeoutPrecommit => False
  | _ => True
  end.

Definition calm_batch (l : list (Round.t * Input.t)) : Prop := Forall (fun ri => calm ri.2) l.

Lemma multiplex_proposal_calm d p v i : Mux.multiplex_proposal d p v = Ret (Some i) -> calm i.
Proof.
  unfold Mux.multiplex_proposal, Mux.multiplex_undecided. intros H.
  repeat (inv_ret; case_match; simplify_eq; try done).
  all: repeat (inv_ret; case_match; simplify_eq; try done).
Qed.

Lemma multiplex_vote_threshold_calm d o r :
  ~ is_skip o -> calm (Mux.multiplex_vote_threshold d o r).2.
Proof.
  unfold Mux.multiplex_vote_threshold. intros Ho. destruct o; cbn in *; try done; by repeat case_match.
Qed.

Lemma multiplex_stored_calm d r ps l : Mux.multiplex_stored d r ps = Ret l -> calm_batch l.
Proof.
  revert l. induction ps as [|[sp v] ps IH]; cbn [Mux.multiplex_stored]; intros l H; inv_ret; [by apply Forall_nil|].
  apply Forall_app. split; [|by apply IH].
  match goal with Hs : match Driver.step d with _ => _ end = Ret _ |- _ =>
    destruct (Driver.step d) in Hs; inv_ret; try by apply Forall_nil end.
  - match goal with o : option Input.t |- _ => destruct o as [i|] end; [|by apply Forall_nil].
    apply Forall_singleton. by eapply multiplex_proposal_calm.
  - match goal with b : bool |- _ => destruct b end; [|by apply Forall_nil].
    apply Forall_singleton, multiplex_vote_threshold_calm. cbn. tauto.
Qed.

Lemma multiplex_step_change_calm d r l : Mux.multiplex_step_change d r = Ret l -> calm_batch l.
Proof.
  unfold Mux.multiplex_step_change. intros H. inv_ret. apply Forall_app.
  split; [by eapply multiplex_stored_calm|].
  match goal with o : option (VKOutput.t _) |- _ => destruct o as [o|] end; [|by apply Forall_nil].
  apply Forall_singleton, multiplex_vote_threshold_calm.
  match goal with Hf : Mux.find_non_value_threshold _ _ = _ |- _ =>
    unfold Mux.find_non_value_threshold in Hf end.
  repeat (inv_ret; case_match; simplify_eq); inv_ret; cbn; tauto.
Qed.

(** A state-machine step that changes to a started step has an output. *)
Lemma rule_step_output s info i s' o : rule s info i s' o -> step_change s s' -> o <> None.
Proof. intros Hrule [Hne Hun]. by destruct Hrule. Qed.

(** On a calm input the step only grows. *)
Lemma rule_rank s info i s' o :
  rule s info i s' o -> calm i -> Step.rank s.(State.step) <= Step.rank s'.(State.step).
Proof.
  intros Hrule Hc. destruct Hrule; cbn; try lia; subst; cbn in *; try tauto;
    repeat match goal with H : State.step s = _ |- _ => rewrite H end; cbn; try lia.
  - destruct_or?; destruct_and?; by subst.
  - by destruct (State.step s); cbn; lia.
Qed.

Lemma step_change_rank s s' :
  step_change s s' -> Step.rank s.(State.step) <= Step.rank s'.(State.step) ->
  Step.rank s.(State.step) < Step.rank s'.(State.step).
Proof.
  intros [Hne _] Hle. enough (Step.rank s.(State.step) <> Step.rank s'.(State.step)) by lia.
  intros Heq. apply Hne. by destruct (State.step s), (State.step s').
Qed.

Definition rank d : nat := Step.rank (Driver.step d).

(** The loop's progress: nothing is pending, or a later step's inputs are. *)
Definition progress (n : nat) d : Prop :=
  (n <= rank d)%nat /\ (d.(Driver.pending_inputs) = [] \/ (n < rank d)%nat) /\
  calm_batch d.(Driver.pending_inputs).

Lemma applies_progress n d r i d' o :
  applies d r i d' (inr o) -> calm i -> progress n d -> progress n d'.
Proof.
  inversion 1 as [|info s o' _ _ _ Hrule Hsame|info s o' pending _ _ _ Hrule Hstep Hmux];
    subst; intros Hc (Hn & Hd & Hcalm);
    pose proof (rule_rank _ _ _ _ _ Hrule Hc) as Hle; fold (Driver.step d) in Hle; fold (rank d) in Hle.
  - split; [cbn; unfold rank at 1, Driver.step; cbn; lia|]. split; [|done].
    destruct Hd as [Hd|Hd]; [by left|right]. unfold rank, Driver.step. cbn. lia.
  - pose proof (step_change_rank _ _ Hstep Hle). unfold rank, Driver.step in *. cbn in *.
    split; [unfold rank, Driver.step; cbn; lia|]. split; [right; unfold rank, Driver.step; cbn; lia|].
    by eapply multiplex_step_change_calm.
Qed.

Lemma applies_proposer d r i d' res :
  applies d r i d' res -> has_proposer d -> has_proposer d' /\ exists o, res = inr o.
Proof. intros Ha Hp. by destruct Ha; eauto. Qed.

Lemma lift_output_frame d o outs d' outs' :
  Process.lift_output d o outs = Ret (d', outs') ->
  d'.(Driver.pending_inputs) = d.(Driver.pending_inputs) /\
  d'.(Driver.round_state) = d.(Driver.round_state) /\
  d'.(Driver.proposer) = d.(Driver.proposer) /\
  d'.(Driver.validator_set) = d.(Driver.validator_set).
Proof.
  unfold Process.lift_output, Process.lift_vote_output, Process.set_last_vote_cast.
  intros H. repeat (case_match; inv_ret; simplify_eq; try done).
Qed.

Lemma lift_output_progress n d o outs d' outs' :
  Process.lift_output d o outs = Ret (d', outs') ->
  has_proposer d -> progress n d -> has_proposer d' /\ progress n d'.
Proof.
  intros (Hp & Hs & Hpr & Hvs)%lift_output_frame. unfold has_proposer, progress, rank, Driver.step.
  by rewrite Hp, Hs, Hpr, Hvs.
Qed.

(** A batch of calm inputs makes progress, and does not fail. *)
Lemma apply_pending_progress n d batch outs d' res :
  Process.apply_pending d batch outs = Ret (d', res) ->
  calm_batch batch -> has_proposer d -> progress n d ->
  has_proposer d' /\ progress n d' /\ exists outs', res = inr outs'.
Proof.
  revert d outs. induction batch as [|[r i] batch IH]; cbn; intros d outs H Hcalm Hp Hd.
  { simplify_eq. eauto. }
  apply Forall_cons in Hcalm as [Hi Hbatch]. inv_ret. destruct x as [d1 res1].
  match goal with Ha : Process.apply_input _ _ _ = _ |- _ => apply apply_input_applies in Ha as Happ end.
  destruct (applies_proposer _ _ _ _ _ Happ Hp) as [Hp1 [o ->]].
  pose proof (applies_progress n _ _ _ _ _ Happ Hi Hd) as Hd1.
  destruct o as [o|]; [|by eapply IH].
  inv_ret. destruct x as [d2 outs2].
  match goal with Ha : Process.lift_output _ _ _ = _ |- _ =>
    destruct (lift_output_progress n _ _ _ _ _ Ha Hp1 Hd1) as [Hp2 Hd2] end.
  by eapply IH.
Qed.

(** With a known proposer, a batch does not fail. *)
Lemma apply_pending_total d batch outs d' res :
  Process.apply_pending d batch outs = Ret (d', res) -> has_proposer d ->
  has_proposer d' /\ exists outs', res = inr outs'.
Proof.
  revert d outs. induction batch as [|[r i] batch IH]; cbn; intros d outs H Hp.
  { simplify_eq. eauto. }
  inv_ret. destruct x as [d1 res1].
  match goal with Ha : Process.apply_input _ _ _ = _ |- _ => apply apply_input_applies in Ha as Happ end.
  destruct (applies_proposer _ _ _ _ _ Happ Hp) as [Hp1 [o ->]].
  destruct o as [o|]; [|by eapply IH]. inv_ret. destruct x as [d2 outs2]. eapply IH; [done|].
  match goal with Ha : Process.lift_output _ _ _ = _ |- _ =>
    apply lift_output_frame in Ha as (_ & _ & Hpr & Hvs) end.
  unfold has_proposer. by rewrite Hpr, Hvs.
Qed.

Lemma drain_total fuel d outs d' res :
  Process.drain fuel d outs = Ret (d', res) -> has_proposer d -> exists outs', res = inr outs'.
Proof.
  revert d outs. induction fuel as [|fuel IH]; intros d outs H Hp; cbn [Process.drain] in H;
    [simplify_eq; eauto|].
  destruct (Driver.pending_inputs d) as [|ri batch]; [simplify_eq; eauto|].
  inv_ret. destruct x as [d1 res1].
  match goal with Ha : Process.apply_pending _ _ _ = _ |- _ =>
    apply apply_pending_total in Ha as [Hp1 [outs1 ->]] end; [|done].
  by eapply IH.
Qed.

Lemma rank_le d : rank d <= 4.
Proof. unfold rank. destruct (Driver.step d); cbn; lia. Qed.

(** [fuel] for the steps left empties the queue. *)
Lemma drain_empties fuel d outs d' res :
  Process.drain fuel d outs = Ret (d', res) ->
  calm_batch d.(Driver.pending_inputs) -> has_proposer d -> 4 < fuel + rank d ->
  d'.(Driver.pending_inputs) = [] /\ exists outs', res = inr outs'.
Proof.
  revert d outs. induction fuel as [|fuel IH]; intros d outs H Hcalm Hp Hfuel.
  { pose proof (rank_le d). lia. }
  cbn [Process.drain] in H. destruct (Driver.pending_inputs d) as [|ri batch] eqn:Hpend; [simplify_eq; eauto|].
  inv_ret. destruct x as [d1 res1].
  match goal with Ha : Process.apply_pending _ _ _ = _ |- _ =>
    destruct (apply_pending_progress (rank d) _ _ _ _ _ Ha) as (Hp1 & (Hr1 & Hq1 & Hc1) & outs1 & ->);
      [done|done|split; [done|split; [by left|by apply Forall_nil]]|] end.
  destruct Hq1 as [Hq1|Hq1]; [|eapply IH; [done..|lia]].
  destruct fuel; cbn in H; rewrite ?Hq1 in H; simplify_eq; eauto.
Qed.

(** ** Handlers *)

(** The fields a handler leaves alone while it stores what it received. *)
Record same_core d d1 : Prop := {
  core_address : d1.(Driver.address) = d.(Driver.address);
  core_validators : d1.(Driver.validator_set) = d.(Driver.validator_set);
  core_proposer : d1.(Driver.proposer) = d.(Driver.proposer);
  core_state : d1.(Driver.round_state) = d.(Driver.round_state);
  core_pending : d1.(Driver.pending_inputs) = d.(Driver.pending_inputs);
  core_prevote : d1.(Driver.last_prevote) = d.(Driver.last_prevote);
  core_precommit : d1.(Driver.last_precommit) = d.(Driver.last_precommit);
}.

Lemma same_core_refl d : same_core d d.
Proof. by split. Qed.

Lemma same_core_trans d1 d2 d3 : same_core d1 d2 -> same_core d2 d3 -> same_core d1 d3.
Proof. intros [] []. split; congruence. Qed.

(** The driver [apply_new_round] hands to [apply_input]. *)
Definition enter_round d (h : Height) r (p : Address) : Driver.t :=
  Driver.set_proposer
    (if bool_decide (Driver.height d = h)
     then Driver.set_round_state d (State.with_round d.(Driver.round_state) r)
     else Driver.set_round_state d (State.new h r)) (Some p).

(** Every handler stores what it received and applies at most one input. *)
Inductive handled d : DriverInput.t -> Driver.t -> DriverError.t + option Output.t -> Prop :=
  | handled_stop msg d1 res :
      same_core d d1 -> (forall o, res <> inr (Some o)) -> handled d msg d1 res
  | handled_input msg d1 r i d' res :
      same_core d d1 -> (forall r', i <> Input.NewRound r') -> applies d1 r i d' res ->
      handled d msg d' res
  | handled_new_round h r p d' res :
      applies (enter_round d h r p) r (Input.NewRound r) d' res ->
      handled d (DriverInput.NewRound h r p) d' res.

Lemma handled_proposer d msg d' o : handled d msg d' (inr (Some o)) -> has_proposer d'.
Proof.
  assert (Happ : forall d0 r i, applies d0 r i d' (inr (Some o)) -> has_proposer d').
  { intros d0 r i Ha. eapply applies_proposer; [exact Ha|]. by inversion Ha. }
  inversion 1 as [msg' d1 res Hc Hno|msg' d1 r i d2 res Hc Hn Ha|h r p d2 res Ha]; subst; [|by eapply Happ..].
  by destruct (Hno o).
Qed.

Lemma store_certificates_core d r r' o d' :
  Process.store_certificates d r r' o = Ret d' -> same_core d d'.
Proof.
  unfold Process.store_certificates, Process.store_polka_certificate,
    Process.store_precommit_any_round_certificate, Process.store_skip_round_certificate.
  intros H. repeat (case_match; inv_ret; simplify_eq; try (by split)).
Qed.

Lemma store_polka_core d c d' oi :
  Mux.store_and_multiplex_polka_certificate d c = Ret (d', oi) ->
  same_core d d' /\ forall r input, oi = Some (r, input) -> forall r', input <> Input.NewRound r'.
Proof.
  unfold Mux.store_and_multiplex_polka_certificate. intros H. inv_ret.
  repeat (case_match; inv_ret; simplify_eq; try (split; [by split|naive_solver])).
Qed.

Lemma store_commit_core d c d' oi :
  Mux.store_and_multiplex_commit_certificate d c = Ret (d', oi) ->
  same_core d d' /\ forall input, oi = Some input -> forall r', input <> Input.NewRound r'.
Proof.
  unfold Mux.store_and_multiplex_commit_certificate. intros H. inv_ret.
  repeat (case_match; inv_ret; simplify_eq; try (split; [by split|naive_solver])).
Qed.

Lemma calm_not_new_round i r : calm i -> i <> Input.NewRound r.
Proof. by intros Hc ->. Qed.

Lemma store_proposal_core d sp v d' oi :
  Mux.store_and_multiplex_proposal d sp v = Ret (d', oi) ->
  same_core d d' /\ forall input, oi = Some input -> forall r', input <> Input.NewRound r'.
Proof.
  unfold Mux.store_and_multiplex_proposal. intros H. inv_ret. simplify_eq. split; [by split|].
  intros input -> r'. by eapply calm_not_new_round, multiplex_proposal_calm.
Qed.

Lemma multiplex_vote_threshold_not_new_round d o r r' :
  (Mux.multiplex_vote_threshold d o r).2 <> Input.NewRound r'.
Proof. unfold Mux.multiplex_vote_threshold. by repeat case_match. Qed.

Lemma apply_vote_handled d vote d' res :
  Process.apply_vote d vote = Ret (d', res) -> handled d (DriverInput.Vote vote) d' res.
Proof.
  unfold Process.apply_vote. intros H.
  case_match; [simplify_eq; by apply handled_stop; [split|]|].
  case_match; [|simplify_eq; by apply handled_stop; [split|]].
  inv_ret. destruct x as [vk [o|]]; [|simplify_eq; by apply handled_stop; [split|]].
  inv_ret. rename x into d1.
  assert (Hcore : same_core d d1).
  { eapply same_core_trans; [|by eapply store_certificates_core]. by split. }
  pose proof (multiplex_vote_threshold_not_new_round d1 o (sv_round vote)) as Hnr.
  destruct (Mux.multiplex_vote_threshold _ _ _) as [r i].
  case_bool_decide; [simplify_eq; by apply handled_stop|].
  by eapply handled_input; [done|apply Hnr|by apply apply_input_applies].
Qed.

Lemma apply_handled d msg d' res :
  Process.apply d msg = Ret (d', res) -> handled d msg d' res.
Proof.
  destruct msg as [h r p|r v|sp v|vote|c|c|t]; cbn.
  - intros H%apply_input_applies. by apply handled_new_round.
  - intros H%apply_input_applies. by eapply handled_input; [apply same_core_refl| |exact H].
  - unfold Process.apply_proposal. case_match; [intros [= <- <-]; by apply handled_stop; [split|]|].
    intros Hrun. inv_ret. destruct x as [d1 i].
    match goal with Ha : Mux.store_and_multiplex_proposal _ _ _ = _ |- _ =>
      apply store_proposal_core in Ha as [Hcore Hi] end.
    destruct i as [i|]; [|simplify_eq; by apply handled_stop].
    by eapply handled_input; [done|by apply Hi|by apply apply_input_applies].
  - apply apply_vote_handled.
  - unfold Process.apply_commit_certificate. case_match; [intros [= <- <-]; by apply handled_stop; [split|]|].
    intros Hrun. inv_ret. destruct x as [d1 i].
    match goal with Ha : Mux.store_and_multiplex_commit_certificate _ _ = _ |- _ =>
      apply store_commit_core in Ha as [Hcore Hi] end.
    destruct i as [i|]; [|simplify_eq; by apply handled_stop].
    by eapply handled_input; [done|by apply Hi|by apply apply_input_applies].
  - unfold Process.apply_polka_certificate. case_match; [intros [= <- <-]; by apply handled_stop; [split|]|].
    intros Hrun. inv_ret. destruct x as [d1 i].
    match goal with Ha : Mux.store_and_multiplex_polka_certificate _ _ = _ |- _ =>
      apply store_polka_core in Ha as [Hcore Hi] end.
    destruct i as [[r i]|]; [|simplify_eq; by apply handled_stop].
    by eapply handled_input; [done|by eapply Hi|by apply apply_input_applies].
  - unfold Process.apply_timeout. destruct (RoundTimeout.kind t);
      [intros H%apply_input_applies..|intros [= <- <-]; by apply handled_stop; [split|]];
      by eapply handled_input; [apply same_core_refl| |exact H].
Qed.

End apply_input.

(** ** An induction principle for [process]

    [I] holds of the driver and the outputs collected so far; [ok] of the
    inputs that may still be applied. *)

Section process_principle.
Context {Ctx : Context}.
Context (I : Driver.t -> list DriverOutput.t -> Prop) (ok : Driver.t -> Round.t * Input.t -> Prop).

(** Lifting the output of a step, if any. *)
Definition lift_opt (d : Driver.t) (o : option Output.t) (outs : list DriverOutput.t)
    : outcome (Driver.t * list DriverOutput.t) :=
  match o with Some o => Process.lift_output d o outs | None => Ret (d, outs) end.

(** One input keeps [I], keeps the other inputs applicable, and queues
    applicable inputs only. *)
Definition step_keeps (d : Driver.t) (outs : list DriverOutput.t) (ri : Round.t * Input.t) : Prop :=
  forall d1 o d2 outs2,
    applies d ri.1 ri.2 d1 (inr o) -> lift_opt d1 o outs = Ret (d2, outs2) ->
    I d2 outs2 /\ (forall ri', ok d ri' -> ok d2 ri') /\
    (d2.(Driver.pending_inputs) = d.(Driver.pending_inputs) \/
     Forall (ok d2) d2.(Driver.pending_inputs)).

Context (Hstep : forall d outs ri, has_proposer d -> I d outs -> ok d ri -> step_keeps d outs ri).
Context (Hclear : forall d outs, I d outs -> I (Driver.set_pending_inputs d []) outs).
Context (Hclear_ok : forall d ri, ok d ri -> ok (Driver.set_pending_inputs d []) ri).

Lemma apply_pending_keeps batch d outs d' outs' :
  Process.apply_pending d batch outs = Ret (d', inr outs') ->
  has_proposer d -> I d outs -> Forall (ok d) batch -> Forall (ok d) d.(Driver.pending_inputs) ->
  I d' outs' /\ Forall (ok d') d'.(Driver.pending_inputs) /\ has_proposer d'.
Proof using Hstep.
  revert d outs. induction batch as [|[r i] batch IH]; cbn; intros d outs H Hp Hd Hbatch Hpend.
  { by simplify_eq. }
  apply Forall_cons in Hbatch as [Hi Hbatch]. inv_ret. destruct x as [d1 res1].
  match goal with Ha : Process.apply_input _ _ _ = _ |- _ => apply apply_input_applies in Ha as Happ end.
  destruct (applies_proposer _ _ _ _ _ Happ Hp) as [Hp1 [o ->]].
  assert (Hrest : exists d2 outs2, lift_opt d1 o outs = Ret (d2, outs2) /\ has_proposer d2 /\
    Process.apply_pending d2 batch outs2 = Ret (d', inr outs')).
  { destruct o as [o|]; [|by eexists _, _]. inv_ret. destruct x as [d2 outs2].
    exists d2, outs2. split_and!; try done. unfold has_proposer.
    match goal with Ha : Process.lift_output _ _ _ = _ |- _ =>
      apply lift_output_frame in Ha as (_ & _ & -> & ->) end. done. }
  destruct Hrest as (d2 & outs2 & Hlift & Hp2 & Hrun).
  destruct (Hstep d outs (r, i) Hp Hd Hi d1 o d2 outs2 Happ Hlift) as (Hd2 & Hkeep & Hq).
  eapply IH; [done..|by eapply Forall_impl|].
  destruct Hq as [-> | ?]; [by eapply Forall_impl|done].
Qed.

Lemma drain_keeps fuel d outs d' outs' :
  Process.drain fuel d outs = Ret (d', inr outs') ->
  has_proposer d -> I d outs -> Forall (ok d) d.(Driver.pending_inputs) -> I d' outs'.
Proof using Hstep Hclear Hclear_ok.
  revert d outs. induction fuel as [|fuel IH]; intros d outs H Hp Hd Hpend; cbn [Process.drain] in H.
  { by simplify_eq. }
  destruct (Driver.pending_inputs d) as [|ri batch] eqn:Hq; [by simplify_eq|].
  inv_ret. destruct x as [d1 [e|outs1]]; [done|].
  match goal with Ha : Process.apply_pending _ _ _ = _ |- _ =>
    apply apply_pending_keeps in Ha as (Hd1 & Hpend1 & Hp1) end;
    [by eapply IH|done|by apply Hclear| |by apply Forall_nil].
  eapply Forall_impl; [exact Hpend|]. apply Hclear_ok.
Qed.

(** The inputs a handler applies are applicable and keep [I]; a failing
    handler leaves what [E] describes. *)
Lemma process_keeps (E : Driver.t -> Prop) d msg d' res :
  Process.process d msg = Ret (d', res) ->
  d.(Driver.pending_inputs) = [] ->
  (forall d1 e, Process.apply d msg = Ret (d1, inl e) -> E d1) ->
  (forall d1, Process.apply d msg = Ret (d1, inr None) -> I d1 []) ->
  (forall d1 o, Process.apply d msg = Ret (d1, inr (Some o)) ->
     has_proposer d1 /\
     forall d2 outs, Process.lift_output d1 o [] = Ret (d2, outs) ->
       I d2 outs /\ Forall (ok d2) d2.(Driver.pending_inputs)) ->
  match res with inl _ => E d' | inr outs => I d' outs end.
Proof using Hstep Hclear Hclear_ok.
  intros H Hpend HE Hnone Hsome. unfold Process.process in H. inv_ret. destruct x as [d1 [e|[o|]]].
  - simplify_eq. by eapply HE.
  - inv_ret. destruct x as [d2 outs].
    match goal with Ha : Process.apply _ _ = _ |- _ => destruct (Hsome _ _ Ha) as [Hp1 Hlift] end.
    match goal with Ha : Process.lift_output _ _ _ = _ |- _ =>
      destruct (Hlift _ _ Ha) as [Hd2 Hq]; pose proof (lift_output_frame _ _ _ _ _ Ha) as (_ & _ & Hpr & Hvs) end.
    assert (Hp2 : has_proposer d2) by (unfold has_proposer; by rewrite Hpr, Hvs).
    destruct (drain_total _ _ _ _ _ H Hp2) as [outs' ->]. by eapply drain_keeps.
  - simplify_eq. by apply Hnone.
Qed.

End process_principle.

(** ** Sequences of inputs *)

Section runs.
Context {Ctx : Context}.
Implicit Types (d : Driver.t).

(** What happens to a driver within a height: it processes an input, or its
    owner prunes it. An error of [process] is reported and the driver goes
    on. *)
Inductive event : Type :=
  | Receive (msg : DriverInput.t)
  | Prune (min_round : Round.t).

Fixpoint run d (events : list event) : outcome (Driver.t * list DriverOutput.t) :=
  match events with
  | [] => Ret (d, [])
  | Receive msg :: events =>
      '(d, result) ← Process.process d msg;
      '(d, rest) ← run d events;
      Ret (d, (match result with inr outputs => outputs | inl _ => [] end) ++ rest)
  | Prune min_round :: events => run (Process.prune_votes_and_certificates d min_round) events
  end.

Lemma run_ind (P : Driver.t -> list DriverOutput.t -> Prop) (ok : event -> Prop) d events d' outs :
  (forall d outs msg d' res, ok (Receive msg) -> P d outs -> Process.process d msg = Ret (d', res) ->
     P d' (outs ++ match res with inr outputs => outputs | inl _ => [] end)) ->
  (forall d outs r, P d outs -> P (Process.prune_votes_and_certificates d r) outs) ->
  forall outs0, P d outs0 -> Forall ok events -> run d events = Ret (d', outs) -> P d' (outs0 ++ outs).
Proof.
  intros Hproc Hprune. revert d outs. induction events as [|[msg|r] events IH]; cbn; intros d outs outs0 Hd Hok Hrun.
  - simplify_eq. by rewrite app_nil_r.
  - apply Forall_cons in Hok as [Hmsg Hok]. inv_ret. destruct x as [d1 res]. inv_ret. destruct x as [d2 rest].
    simplify_eq. rewrite app_assoc. eapply IH; [|done|done]. by eapply Hproc.
  - apply Forall_cons in Hok as [_ Hok]. eapply IH; [|done|done]. by apply Hprune.
Qed.

(** [process] leaves nothing pending. *)
Lemma process_pending d msg d' res :
  d.(Driver.pending_inputs) = [] -> Process.process d msg = Ret (d', res) ->
  d'.(Driver.pending_inputs) = [].
Proof.
  intros Hd H. unfold Process.process in H. inv_ret. destruct x as [d1 res1].
  match goal with Ha : Process.apply _ _ = _ |- _ => apply apply_handled in Ha as Hh end.
  assert (Happ : forall d0 r i, d0.(Driver.pending_inputs) = [] -> applies d0 r i d1 res1 ->
    d'.(Driver.pending_inputs) = []).
  { intros d0 r i Hd0. inversion 1 as [|info s o Hp _ _ Hrule Hs|info s o pending Hp _ _ Hrule Hs Hmux]; subst.
    - by simplify_eq.
    - destruct o as [o|]; [|by simplify_eq]. inv_ret. destruct x as [d2 outs].
      match goal with Ha : Process.lift_output _ _ _ = _ |- _ => apply lift_output_frame in Ha as (Hpend & _) end.
      cbn in *. rewrite Hpend, Hd0 in H. simplify_eq. congruence.
    - destruct o as [o|]; [|by apply (rule_step_output _ _ _ _ _ Hrule) in Hs].
      inv_ret. destruct x as [d2 outs].
      match goal with Ha : Process.lift_output _ _ _ = _ |- _ =>
        apply lift_output_frame in Ha as (Hpend & Hst & Hpr & Hvs) end.
      eapply drain_empties; [exact H| | |unfold Process.drain_fuel; lia].
      + rewrite Hpend. by eapply multiplex_step_change_calm.
      + unfold has_proposer. by rewrite Hpr, Hvs. }
  destruct Hh as [msg' d2 res2 Hcore Hres|msg' d2 r i d3 res3 Hcore _ Ha|h r p d3 res3 Ha].
  - destruct res2 as [e|[o|]]; [|by destruct (Hres o)|]; simplify_eq; by rewrite (core_pending _ _ Hcore).
  - eapply Happ; [|done]. by rewrite (core_pending _ _ Hcore).
  - eapply Happ; [|done]. unfold enter_round. by case_bool_decide.
Qed.

Lemma run_pending h vs a params events d outs :
  run (Driver.new h vs a params) events = Ret (d, outs) -> d.(Driver.pending_inputs) = [].
Proof.
  intros Hrun. apply (run_ind (fun d _ => d.(Driver.pending_inputs) = []) (fun _ => True)
           (Driver.new h vs a params) events d outs) with (outs0 := []); try done.
  - intros d0 outs0 msg d1 res _ Hd0 Hp. by eapply process_pending.
  - by apply Forall_forall.
Qed.

End runs.

Section claims.
Context {Ctx : Context}.

(** the loop of [process] over pending inputs ends: from a new driver,
    after any sequence of inputs and prunings, every batch of pending inputs has
    been applied when [process] returns, within five rounds of the loop. *)
Theorem process_drains_pending (h : Height) (vs : ValidatorSet) (a : Address)
  (params : ThresholdParams.t) (events : list event) (d : Driver.t) (outs : list DriverOutput.t)
  (Hrun : run (Driver.new h vs a params) events = Ret (d, outs)) :
  d.(Driver.pending_inputs) = [].
Proof. by eapply run_pending. Qed.

End claims.

(** ** A run: validator 2 prevotes, precommits and decides the value 7 *)
Section example.
#[local] Existing Instance N_context.

Definition deciding_events : list event :=
  Receive <$>
    [msg_new_round (Round.Some 0) 1; msg_proposal (Round.Some 0) 7 Round.Nil 1] ++
    (msg_prevote (Round.Some 0) 7 <$> [2; 3; 4]%N) ++
    (msg_precommit (Round.Some 0) (NilOrVal.Val 7%N) <$> [2; 3]%N).

Definition run_result (events : list event) : Driver.t * list DriverOutput.t :=
  get_ret (new_driver 2, []) (run (new_driver 2) events).

Lemma run_result_eq events :
  is_ret (run (new_driver 2) events) = true ->
  run (new_driver 2) events = Ret ((run_result events).1, (run_result events).2).
Proof. apply is_ret_pair. Qed.

Lemma process_drains_pending_witness :
  (run_result deciding_events).1.(Driver.pending_inputs) = [].
Proof.
  refine (process_drains_pending SnHeight.INITIAL four_validators (addr 2) ThresholdParams.default
    deciding_events (run_result deciding_events).1 (run_result deciding_events).2 _).
  apply run_result_eq. vm_refl.
Defined.

(** Validator 2 has locked 7 in round 0; round 1 is announced with a proposer
    that is not a validator. *)
Definition locking_events : list event := take 5 deciding_events.
Definition bad_new_round : DriverInput.t := msg_new_round (Round.Some 1) 9.

(** an error of [apply_input] loses the state of the round: a driver
    locked on 7 that is told of a round whose proposer is not a validator
    returns an error, and its lock, valid value, round and height are those of
    a default state. *)
Theorem failed_new_round_forgets_lock :
  let d := (run_result locking_events).1 in
  d.(Driver.round_state).(State.locked) = Some (RoundValue.new (val 7) (Round.Some 0)) /\
  exists d', Process.process d bad_new_round = Ret (d', inl (DriverError.ProposerNotFound (addr 9))) /\
    d'.(Driver.round_state) = State.default.
Proof.
  intros d. split; [vm_decide|].
  assert (Hp : match Process.process d bad_new_round with
    | Ret (d', inl e) => bool_decide (e = DriverError.ProposerNotFound (addr 9)) &&
                         bool_decide (d'.(Driver.round_state) = State.default)
    | _ => false
    end = true) by vm_refl.
  destruct (Process.process d bad_new_round) as [[d' [e|]]|]; [|done..].
  apply andb_prop in Hp as [->%bool_decide_eq_true Hs%bool_decide_eq_true]. by exists d'.
Qed.

End example.
