(* ===== verification/DriverVotes.v ===== *)
(** * The votes a driver casts

    A driver that is never sent back to a lower height never casts two different
    votes of one type for one height and round, whatever inputs it receives,
    errors included. Sent back, it may: it remembers only its last votes. *)

From S2P Require Import Prelude Types Context Starknet StateMachine VoteKeeper ProposalKeeper Driver DriverFacts.

Section votes.
Context {Ctx : Context} {laws : ContextLaws}.
Context (h : Height).
Implicit Types (d : Driver.t) (s : State.t) (w : Vote) (cast : list Vote) (i : Input.t).

Definition vote_of (o : DriverOutput.t) : option Vote :=
  match o with DriverOutput.Vote w => Some w | _ => None end.
Definition votes_of (outs : list DriverOutput.t) : list Vote := omap vote_of outs.

Lemma votes_of_app outs outs' : votes_of (outs ++ outs') = votes_of outs ++ votes_of outs'.
Proof. apply omap_app. Qed.

Lemma elem_of_votes_of w outs : w ∈ votes_of outs <-> DriverOutput.Vote w ∈ outs.
Proof.
  unfold votes_of. rewrite list_elem_of_omap. split; [|by exists (DriverOutput.Vote w)].
  intros ([] & Hin & [=]); by subst.
Qed.

Definition last_of (ty : VoteType.t) d : option Vote :=
  match ty with
  | VoteType.Prevote => d.(Driver.last_prevote)
  | VoteType.Precommit => d.(Driver.last_precommit)
  end.

(** The driver is in a step in which it votes. *)
Definition voting s : Prop := s.(State.step) = Step.Propose \/ s.(State.step) = Step.Prevote.

(** The heights in their order, and the votes by height and round. *)
Definition up_to (h1 h2 : Height) : Prop := h1 = h2 \/ Height_ltb h1 h2 = true.
Definition earlier w w' : Prop :=
  Height_ltb (vote_height w) (vote_height w') = true \/
  vote_height w = vote_height w' /\ Round.lt (vote_round w) (vote_round w').

Lemma up_to_trans h1 h2 h3 : up_to h1 h2 -> up_to h2 h3 -> up_to h1 h3.
Proof. intros [->|H1] [->|H2]; unfold up_to; eauto using Height_ltb_trans. Qed.

Lemma earlier_trans w1 w2 w3 : earlier w1 w2 -> earlier w2 w3 -> earlier w1 w3.
Proof.
  unfold earlier. intros [H1|[E1 H1]] [H2|[E2 H2]].
  - left. eauto using Height_ltb_trans.
  - left. by rewrite <- E2.
  - left. by rewrite E1.
  - right. split; [congruence|round_lia].
Qed.

Lemma earlier_irrefl w w' : earlier w w' -> vote_height w = vote_height w' -> vote_round w <> vote_round w'.
Proof.
  intros [Hh|[_ Hr]] Heq Hround; [by rewrite Heq, Height_ltb_irrefl in Hh|].
  rewrite Hround in Hr. by apply Round.lt_irrefl in Hr.
Qed.

(** The votes cast so far, at heights up to [h], agree, and the last vote of each
    type is the latest one. *)
Record vote_inv cast d : Prop := {
  vi_unique w w' : w ∈ cast -> w' ∈ cast -> vote_type w = vote_type w' ->
    vote_height w = vote_height w' -> vote_round w = vote_round w' -> w = w';
  vi_last w : w ∈ cast -> exists prev, last_of (vote_type w) d = Some prev /\ (earlier w prev \/ w = prev);
  vi_last_height ty prev : last_of ty d = Some prev -> up_to (vote_height prev) h;
  vi_voting : voting d.(Driver.round_state) -> Driver.height d = h;
  vi_calm : calm_batch d.(Driver.pending_inputs);
}.

Lemma vote_inv_new vs a params : vote_inv [] (Driver.new h vs a params).
Proof.
  split; cbn; try (by intros ? ?%not_elem_of_nil); [|by destruct ty|by intros [?|?]|by apply Forall_nil].
  intros w w' Hw. by apply not_elem_of_nil in Hw.
Qed.

(** The invariant only looks at the last votes, the state and the queue. *)
Lemma vote_inv_frame cast d d' :
  vote_inv cast d ->
  d'.(Driver.last_prevote) = d.(Driver.last_prevote) ->
  d'.(Driver.last_precommit) = d.(Driver.last_precommit) ->
  (voting d'.(Driver.round_state) -> Driver.height d' = h) ->
  calm_batch d'.(Driver.pending_inputs) -> vote_inv cast d'.
Proof.
  intros [] Hpv Hpc Hv Hc.
  assert (Hlast : forall ty, last_of ty d' = last_of ty d) by (intros []; cbn; congruence).
  split; try done; intros *; rewrite Hlast; eauto.
Qed.

(** ** Steps of the state machine *)

Lemma rule_height s info i s' o : rule s info i s' o -> s'.(State.height) = s.(State.height).
Proof. by intros []. Qed.

Lemma rule_voting s info i s' o :
  rule s info i s' o -> voting s' -> voting s \/ exists r, i = Input.NewRound r.
Proof.
  unfold voting. intros Hrule Hv.
  destruct Hrule; cbn in Hv; try (by left); eauto; destruct Hv as [Hv|Hv]; try done; eauto.
Qed.

(** A voting state is reached from one, or by a new round. *)
Lemma rule_voting_height s info i s' o :
  rule s info i s' o -> (voting s -> s.(State.height) = h) ->
  ((exists r, i = Input.NewRound r) -> s.(State.height) = h) -> voting s' -> s'.(State.height) = h.
Proof.
  intros Hrule Hs Hnew Hv. rewrite (rule_height _ _ _ _ _ Hrule).
  destruct (rule_voting _ _ _ _ _ Hrule Hv); auto.
Qed.

Lemma rule_vote s info i s' w :
  rule s info i s' (Some (Output.Vote w)) ->
  voting s /\ vote_height w = s.(State.height) /\ vote_round w = s'.(State.round).
Proof.
  inversion 1; subst; cbn in *; try done; unfold voting.
  - destruct (new_prevote_spec s.(State.height) s.(State.round) v info.(Info.address)) as (-> & -> & _). eauto.
  - destruct (new_precommit_spec s.(State.height) s.(State.round) NilOrVal.Nil info.(Info.address))
      as (-> & -> & _). eauto.
  - destruct (new_precommit_spec s.(State.height) s.(State.round) (NilOrVal.Val (value_id (proposal_value p)))
      info.(Info.address)) as (-> & -> & _). eauto.
Qed.

Lemma applies_vote_inv cast d r i d' res :
  vote_inv cast d -> applies d r i d' res ->
  ((exists r', i = Input.NewRound r') -> Driver.height d = h) ->
  vote_inv cast d' /\
  forall w, res = inr (Some (Output.Vote w)) ->
    vote_height w = h /\ Driver.height d' = h /\ vote_round w = Driver.round d'.
Proof.
  intros Hd Ha Hnew.
  assert (Hstep : forall info s o, rule d.(Driver.round_state) info i s o ->
    (voting s -> s.(State.height) = h) /\
    forall w, o = Some (Output.Vote w) -> vote_height w = h /\ s.(State.height) = h /\ vote_round w = s.(State.round)).
  { intros info s o Hrule. split; [by apply (rule_voting_height _ _ _ _ _ Hrule (vi_voting _ _ Hd))|].
    rewrite (rule_height _ _ _ _ _ Hrule). intros w ->. apply rule_vote in Hrule as (Hv & Hw & Hwr).
    pose proof (vi_voting _ _ Hd Hv) as Hh. unfold Driver.height in Hh. by rewrite Hw, Hwr, Hh. }
  destruct Ha as [e|info s o _ _ _ Hrule _|info s o pending _ _ _ Hrule Hsc Hmux].
  - split; [|done]. apply (vote_inv_frame _ d); try done; [by intros [?|?]|apply Hd].
  - destruct (Hstep _ _ _ Hrule) as [Hv Hw]. split; [|intros w [= ->]; by apply Hw].
    apply (vote_inv_frame _ d); try done; apply Hd.
  - destruct (Hstep _ _ _ Hrule) as [Hv Hw]. split; [|intros w [= ->]; by apply Hw].
    apply (vote_inv_frame _ d); try done. by eapply multiplex_step_change_calm.
Qed.

(** ** Casting a vote *)

Lemma follows_last last w :
  Process.follows last w = true -> vote_height w = h ->
  (forall prev, last = Some prev -> up_to (vote_height prev) h) ->
  forall prev, last = Some prev -> earlier prev w \/ prev = w.
Proof.
  intros Hf Hw Hlast prev ->. unfold earlier. rewrite Hw. destruct (Hlast prev eq_refl) as [Hh|Hh]; [|by left; left].
  cbn in Hf. rewrite Hw, Hh, Height_ltb_irrefl in Hf. rewrite Hh.
  apply orb_prop in Hf as [Hf|Hf]; [left; right; by rewrite <- Round.ltb_lt|right; by apply bool_decide_eq_true_1 in Hf].
Qed.

(** A vote that follows the last one can be added. *)
Lemma vote_inv_cast cast d w d' :
  vote_inv cast d -> Process.follows (last_of (vote_type w) d) w = true ->
  vote_height w = h -> Driver.round d = vote_round w ->
  Process.set_last_vote_cast d w = Ret d' -> vote_inv (cast ++ [w]) d'.
Proof.
  intros Hd Hf Hw Hr H. unfold Process.set_last_vote_cast in H. inv_ret.
  rewrite bool_decide_eq_true_2 in H by done.
  pose proof (follows_last _ _ Hf Hw (vi_last_height _ _ Hd (vote_type w))) as Hlast.
  assert (Hnew : last_of (vote_type w) d' = Some w /\
    forall ty, ty <> vote_type w -> last_of ty d' = last_of ty d).
  { destruct (vote_type w); inv_ret; (split; [done|]); by intros []. }
  destruct Hnew as [Hself Hother].
  assert (Hbelow : forall u, u ∈ cast -> vote_type u = vote_type w ->
    earlier u w \/ u = w).
  { intros u Hu Hty. destruct (vi_last _ _ Hd u Hu) as (prev & Hprev & Hle). rewrite Hty in Hprev.
    destruct (Hlast prev Hprev) as [Hlt|<-]; [|done]. left. destruct Hle as [Hle| ->]; [by eapply earlier_trans|done]. }
  assert (Hframe : d'.(Driver.round_state) = d.(Driver.round_state) /\
    d'.(Driver.pending_inputs) = d.(Driver.pending_inputs)) by (destruct (vote_type w); by inv_ret).
  destruct Hframe as [Hst Hpe]. split.
  - intros u u' [Hu| ->]%elem_snoc [Hu'| ->]%elem_snoc Hty Hh Hrd; [by apply (vi_unique _ _ Hd)| | |done].
    + destruct (Hbelow u Hu Hty) as [Hlt|]; [|done]. by destruct (earlier_irrefl _ _ Hlt Hh).
    + destruct (Hbelow u' Hu' (eq_sym Hty)) as [Hlt|]; [|done]. by destruct (earlier_irrefl _ _ Hlt (eq_sym Hh)).
  - intros u [Hu| ->]%elem_snoc; [|by eauto].
    destruct (decide (vote_type u = vote_type w)) as [Hty|Hty].
    + rewrite Hty. exists w. split; [done|by apply Hbelow].
    + rewrite Hother by done. by apply (vi_last _ _ Hd).
  - intros ty prev. destruct (decide (ty = vote_type w)) as [->|Hty].
    + rewrite Hself. intros [= <-]. by left.
    + rewrite Hother by done. apply (vi_last_height _ _ Hd).
  - unfold Driver.height. rewrite Hst. apply (vi_voting _ _ Hd).
  - rewrite Hpe. apply Hd.
Qed.

(** Votes of the current height. *)
Definition here (new : list Vote) : Prop := Forall (fun w => vote_height w = h) new.

Lemma lift_output_vote_inv cast d o outs d' outs' :
  vote_inv cast d ->
  (forall w, o = Output.Vote w ->
    vote_height w = h /\ Driver.height d = h /\ vote_round w = Driver.round d) ->
  Process.lift_output d o outs = Ret (d', outs') ->
  exists new, vote_inv (cast ++ new) d' /\ here new /\ votes_of outs' = votes_of outs ++ new.
Proof.
  intros Hd Ho H.
  assert (Hquiet : forall extra, Forall (fun x => vote_of x = None) extra ->
    exists new, vote_inv (cast ++ new) d /\ here new /\ votes_of (outs ++ extra) = votes_of outs ++ new).
  { intros extra Hx. exists []. rewrite votes_of_app, app_nil_r. split; [done|]. split; [constructor|]. f_equal.
    induction Hx as [|x l Hx _ IH]; [done|]. unfold votes_of in *. cbn. by rewrite Hx. }
  destruct o as [r|p|w|t|hh r t|r p]; cbn [Process.lift_output] in H; inv_ret; simplify_eq;
    try (by apply Hquiet; repeat constructor).
  destruct (Ho w eq_refl) as (Hw & Hh & Hr). unfold Process.lift_vote_output in H.
  case_bool_decide; cbn [negb] in H.
  2:{ simplify_eq. destruct (Hquiet []) as (new & ? & ? & Heq); [constructor|]. exists new.
      by rewrite app_nil_r in Heq. }
  match goal with Hc : (if ?b then _ else _) = _ |- _ => destruct b eqn:Hcan in Hc end.
  2:{ simplify_eq. destruct (Hquiet []) as (new & ? & ? & Heq); [constructor|]. exists new.
      by rewrite app_nil_r in Heq. }
  inv_ret. simplify_eq. exists [w]. rewrite votes_of_app. split; [|by split; [apply Forall_singleton|]].
  eapply vote_inv_cast; try done. unfold last_of.
  destruct (vote_type w); [done|by apply andb_prop in Hcan as [? _]].
Qed.

(** ** The loops *)

Lemma apply_pending_vote_inv cast d batch outs d' res :
  vote_inv cast d -> calm_batch batch -> Process.apply_pending d batch outs = Ret (d', res) ->
  exists new, vote_inv (cast ++ new) d' /\ here new /\
    forall outs', res = inr outs' -> votes_of outs' = votes_of outs ++ new.
Proof.
  revert cast d outs. induction batch as [|[r i] batch IH]; cbn; intros cast d outs Hd Hcalm H.
  { simplify_eq. exists []. rewrite app_nil_r. split; [done|]. split; [constructor|]. intros ? [= <-]. by rewrite app_nil_r. }
  apply Forall_cons in Hcalm as [Hi Hcalm]. inv_ret. destruct x as [d1 res1].
  match goal with Ha : Process.apply_input _ _ _ = _ |- _ => apply apply_input_applies in Ha as Happ end.
  destruct (applies_vote_inv cast _ _ _ _ _ Hd Happ) as [Hd1 Hw].
  { intros [r' ->]. by destruct Hi. }
  destruct res1 as [e|[o|]]; [| |by eapply IH].
  { simplify_eq. exists []. rewrite app_nil_r. split; [done|]. by split; [constructor|]. }
  inv_ret. destruct x as [d2 outs2].
  match goal with Ha : Process.lift_output _ _ _ = _ |- _ =>
    destruct (lift_output_vote_inv cast _ _ _ _ _ Hd1 (fun w E => Hw w (f_equal (fun o => inr (Some o)) E)) Ha) as (new & Hd2 & Hh & Hv) end.
  destruct (IH _ _ _ Hd2 Hcalm H) as (new' & Hd' & Hh' & Hv').
  exists (new ++ new'). rewrite app_assoc. split; [done|]. split; [by apply Forall_app|].
  intros outs' Hres. by rewrite (Hv' outs' Hres), Hv, app_assoc.
Qed.

Lemma drain_vote_inv fuel cast d outs d' res :
  vote_inv cast d -> Process.drain fuel d outs = Ret (d', res) ->
  exists new, vote_inv (cast ++ new) d' /\ here new /\
    forall outs', res = inr outs' -> votes_of outs' = votes_of outs ++ new.
Proof.
  assert (Hstop : forall cast d outs res, vote_inv cast d -> res = inr outs ->
    exists new, vote_inv (cast ++ new) d /\ here new /\
      forall outs', (res : DriverError.t + _) = inr outs' -> votes_of outs' = votes_of outs ++ new).
  { intros cast0 d0 outs0 res0 Hd ->. exists []. rewrite app_nil_r. split; [done|]. split; [constructor|].
    intros ? [= <-]. by rewrite app_nil_r. }
  revert cast d outs. induction fuel as [|fuel IH]; intros cast d outs Hd H; cbn [Process.drain] in H.
  { simplify_eq. by apply Hstop. }
  destruct (Driver.pending_inputs d) as [|ri batch] eqn:Hpend; [simplify_eq; by apply Hstop|].
  inv_ret. destruct x as [d1 res1].
  assert (Hd0 : vote_inv cast (Driver.set_pending_inputs d [])).
  { apply (vote_inv_frame _ d); try done; [apply Hd|by apply Forall_nil]. }
  pose proof (vi_calm _ _ Hd) as Hcalm. rewrite Hpend in Hcalm.
  match goal with Ha : Process.apply_pending _ _ _ = _ |- _ =>
    destruct (apply_pending_vote_inv cast _ _ _ _ _ Hd0 Hcalm Ha)
      as (new & Hd1 & Hh & Hv) end.
  destruct res1 as [e|outs1]; [simplify_eq; by exists new|].
  destruct (IH _ _ _ Hd1 H) as (new' & Hd' & Hh' & Hv').
  exists (new ++ new'). rewrite app_assoc. split; [done|]. split; [by apply Forall_app|].
  intros outs' Hres. by rewrite (Hv' outs' Hres), (Hv outs1 eq_refl), app_assoc.
Qed.

End votes.

(** ** Inputs *)

Section inputs.
Context {Ctx : Context} {laws : ContextLaws}.
Implicit Types (h : Height) (d : Driver.t) (cast : list Vote) (msg : DriverInput.t).

Lemma enter_round_vote_inv h h' cast d r p :
  vote_inv h cast d -> up_to h h' ->
  vote_inv h' cast (enter_round d h' r p) /\ Driver.height (enter_round d h' r p) = h'.
Proof.
  intros Hd Hle. assert (Hh : Driver.height (enter_round d h' r p) = h').
  { unfold enter_round. by case_bool_decide. }
  assert (Hlast : forall ty, last_of ty (enter_round d h' r p) = last_of ty d).
  { intros []; unfold enter_round; by case_bool_decide. }
  split; [|done]. split; try done.
  - apply Hd.
  - intros w Hw. rewrite Hlast. by apply (vi_last _ _ _ Hd).
  - intros ty prev. rewrite Hlast. intros Hp. eapply up_to_trans; [by apply (vi_last_height _ _ _ Hd ty)|done].
  - replace (Driver.pending_inputs _) with (Driver.pending_inputs d); [apply Hd|].
    unfold enter_round. by case_bool_decide.
Qed.

(** The height that a message announces, if it does. *)
Definition announced msg : option Height :=
  match msg with DriverInput.NewRound h _ _ => Some h | _ => None end.
Definition height_after h msg : Height := default h (announced msg).

(** What a handler casts is consistent with what was cast before. *)
Lemma apply_vote_inv h cast d msg d' res :
  vote_inv h cast d -> up_to h (height_after h msg) -> Process.apply d msg = Ret (d', res) ->
  vote_inv (height_after h msg) cast d' /\
  forall w, res = inr (Some (Output.Vote w)) ->
    vote_height w = height_after h msg /\ Driver.height d' = height_after h msg /\ vote_round w = Driver.round d'.
Proof.
  intros Hd Hle H. destruct (announced msg) as [h'|] eqn:Hmsg; unfold height_after in *; rewrite Hmsg in *; cbn in Hle |- *.
  { destruct msg as [h0 r p| | | | | |]; try done. injection Hmsg as ->. cbn in H. apply apply_input_applies in H.
    destruct (enter_round_vote_inv h h' cast d r p Hd Hle) as [Hd1 Hh1]. by eapply applies_vote_inv. }
  assert (Hcore : forall d1, same_core d d1 -> vote_inv h cast d1).
  { intros d1 Hc. apply (vote_inv_frame _ _ d); try done; try apply Hc.
    - unfold Driver.height. rewrite (core_state _ _ Hc). apply Hd.
    - rewrite (core_pending _ _ Hc). apply Hd. }
  apply apply_handled in H. destruct H as [msg d1 res Hc Hres|msg d1 r i d' res Hc Hnew Ha|h' r p d' res Ha]; [..|done].
  - split; [by apply Hcore|]. intros w ->. by destruct (Hres (Output.Vote w)).
  - eapply applies_vote_inv; [by apply Hcore|done|]. intros [r' ->]. by destruct (Hnew r').
Qed.

Lemma process_vote_inv h cast d msg d' res :
  vote_inv h cast d -> up_to h (height_after h msg) -> Process.process d msg = Ret (d', res) ->
  exists new, vote_inv (height_after h msg) (cast ++ new) d' /\ here (height_after h msg) new /\
    forall outs, res = inr outs -> votes_of outs = new.
Proof.
  intros Hd Hle H. unfold Process.process in H. inv_ret. destruct x as [d1 res1].
  match goal with Ha : Process.apply _ _ = _ |- _ =>
    destruct (apply_vote_inv h cast _ _ _ _ Hd Hle Ha) as [Hd1 Hw] end.
  destruct res1 as [e|[o|]].
  1,3: simplify_eq; exists []; rewrite app_nil_r; split; [done|]; split; [constructor|by intros ? [= <-]].
  inv_ret. destruct x as [d2 outs2].
  match goal with Ha : Process.lift_output _ _ _ = _ |- _ =>
    destruct (lift_output_vote_inv _ cast _ _ _ _ _ Hd1 (fun w E => Hw w (f_equal (fun o => inr (Some o)) E)) Ha) as (new & Hd2 & Hh & Hv) end.
  destruct (drain_vote_inv _ _ _ _ _ _ _ Hd2 H) as (new' & Hd' & Hh' & Hv').
  exists (new ++ new'). rewrite app_assoc. split; [done|]. split; [by apply Forall_app|].
  intros outs Hres. by rewrite (Hv' outs Hres), Hv.
Qed.

(** ** Runs *)

(** The heights that the rounds of [events] are announced with. *)
Definition heights_of (events : list event) : list Height :=
  omap (fun e => match e with Receive msg => announced msg | Prune _ => None end) events.

(** From [h] on, none of them is below the one before. *)
Fixpoint ascending h (heights : list Height) : Prop :=
  match heights with
  | [] => True
  | h' :: heights => up_to h h' /\ ascending h' heights
  end.

Lemma run_vote_inv h cast d0 events d outs :
  vote_inv h cast d0 -> run d0 events = Ret (d, outs) -> ascending h (heights_of events) ->
  exists h' new, vote_inv h' (cast ++ new) d /\ votes_of outs ⊆ new /\
    Forall (fun w => vote_height w ∈ h :: heights_of events) new.
Proof.
  revert h cast d0 outs. induction events as [|[msg|r] events IH]; cbn [run]; intros h cast d0 outs Hd0 Hrun Hup.
  - simplify_eq. exists h, []. rewrite app_nil_r. split; [done|]. split; [done|constructor].
  - inv_ret. destruct x as [d1 res]. inv_ret. destruct x as [d2 rest]. simplify_eq.
    assert (Hmsg : up_to h (height_after h msg) /\ ascending (height_after h msg) (heights_of events) /\
      (height_after h msg :: heights_of events) ⊆ h :: heights_of (Receive msg :: events)).
    { unfold height_after, heights_of in *. cbn in Hup |- *. destruct (announced msg); cbn in *; [|by split; [left|]].
      destruct Hup. split_and!; [done|done|set_solver]. }
    destruct Hmsg as (Hle & Hup' & Hsub).
    match goal with Hp : Process.process _ _ = _, Hr : run _ _ = _ |- _ =>
      destruct (process_vote_inv h cast _ _ _ _ Hd0 Hle Hp) as (new & Hd1 & Hh & Hv);
      destruct (IH _ _ _ _ Hd1 Hr Hup') as (h' & new' & Hd' & Hin & Hall) end.
    exists h', (new ++ new'). rewrite app_assoc. split; [done|]. rewrite votes_of_app. split.
    + destruct res as [e|outs1]; [|rewrite (Hv outs1 eq_refl)]; set_solver.
    + apply Forall_app. split; [eapply Forall_impl; [exact Hh|]|eapply Forall_impl; [exact Hall|]].
      * intros w ->. apply Hsub. apply list_elem_of_here.
      * intros w Hw. by apply Hsub.
  - apply (IH h cast) in Hrun; [done| |done]. apply (vote_inv_frame _ _ d0); try done; apply Hd0.
Qed.

(** The height of every [NewRound] is [h]. *)
Definition at_height h (e : event) : Prop :=
  match e with Receive (DriverInput.NewRound h' _ _) => h' = h | _ => True end.

Lemma at_height_heights h events : Forall (at_height h) events -> Forall (fun h' => h' = h) (heights_of events).
Proof.
  induction 1 as [|e events He _ IH]; [constructor|]. unfold heights_of in *. cbn.
  destruct e as [[]|]; cbn in *; try done. by constructor.
Qed.

Lemma at_height_ascending h heights : Forall (fun h' => h' = h) heights -> ascending h heights.
Proof. induction 1 as [|h' heights -> _ IH]; [done|]. split; [by left|done]. Qed.

End inputs.

Section claims.
Context {Ctx : Context} {laws : ContextLaws}.

(** C4: a driver does not equivocate: over any sequence of inputs, including
    repeated or lower rounds, later heights, errors, certificates and prunings,
    in which no round is announced at a lower height than the one before, two
    votes it casts of one type for one height and round are the same vote, and
    the height is that of the driver or of a round that was announced. *)
Theorem no_equivocation (h : Height) (vs : ValidatorSet) (a : Address)
  (params : ThresholdParams.t) (events : list event) (d : Driver.t) (outs : list DriverOutput.t)
  (w w' : Vote)
  (Hheights : ascending h (heights_of events))
  (Hrun : run (Driver.new h vs a params) events = Ret (d, outs))
  (Hw : DriverOutput.Vote w ∈ outs) (Hw' : DriverOutput.Vote w' ∈ outs)
  (Htype : vote_type w = vote_type w') (Hheight : vote_height w = vote_height w')
  (Hround : vote_round w = vote_round w') :
  w = w' /\ vote_height w ∈ h :: heights_of events.
Proof.
  destruct (run_vote_inv h [] _ events d outs (vote_inv_new h vs a params) Hrun Hheights) as (h' & cast & Hd & Hsub & Hall).
  apply elem_of_votes_of in Hw, Hw'. split.
  - apply (vi_unique _ _ _ Hd); auto.
  - rewrite Forall_forall in Hall. auto.
Qed.

End claims.

(** ** A witness: a round entered twice, and another height

    Validator 2 prevotes 7 in round 0, skips to round 1 and is sent back to
    round 0, where it finds the proposal again and repeats its prevote. At the
    next height it prevotes nil in round 2. *)
Section example.
#[local] Existing Instance N_context.

Definition next_height : SnHeight.t := SnHeight.new 2 0.
Definition revisiting_events : list event :=
  Receive <$>
    [msg_new_round (Round.Some 0) 1; msg_proposal (Round.Some 0) 7 Round.Nil 1;
     msg_timeout (RoundTimeout.precommit (Round.Some 0));
     msg_new_round (Round.Some 0) 1;
     msg_timeout (RoundTimeout.propose (Round.Some 0));
     DriverInput.NewRound (next_height : Height) (Round.Some 2) (addr 1);
     msg_timeout (RoundTimeout.propose (Round.Some 2))].

Definition vote_for_7 : Vote :=
  new_prevote SnHeight.INITIAL (Round.Some 0) (NilOrVal.Val (val_id 7)) (addr 2).

Lemma no_equivocation_witness :
  votes_of (run_result revisiting_events).2
    = [vote_for_7; vote_for_7; new_prevote next_height (Round.Some 2) NilOrVal.Nil (addr 2)] /\
  vote_for_7 = vote_for_7 /\
  vote_height vote_for_7 ∈ (SnHeight.INITIAL : Height) :: heights_of revisiting_events.
Proof.
  split; [vm_decide|].
  refine (no_equivocation (laws := N_context_laws) SnHeight.INITIAL four_validators (addr 2)
    ThresholdParams.default revisiting_events (run_result revisiting_events).1
    (run_result revisiting_events).2 vote_for_7 vote_for_7 _ _ _ _ eq_refl eq_refl eq_refl).
  - cbn. split_and!; [by left|by left|by right|done].
  - apply run_result_eq. vm_refl.
  - vm_decide.
  - vm_decide.
Defined.

(** The driver remembers its last votes only: sent back to a height, it may vote
    otherwise there. *)
Definition returning_events : list event :=
  Receive <$>
    [msg_new_round (Round.Some 1) 1; msg_timeout (RoundTimeout.propose (Round.Some 1));
     DriverInput.NewRound (next_height : Height) (Round.Some 0) (addr 1);
     msg_timeout (RoundTimeout.propose (Round.Some 0));
     msg_new_round (Round.Some 1) 1; msg_proposal (Round.Some 1) 7 Round.Nil 1].
Lemma returning_driver_equivocates :
  votes_of (run_result returning_events).2 =
    [new_prevote SnHeight.INITIAL (Round.Some 1) NilOrVal.Nil (addr 2);
     new_prevote next_height (Round.Some 0) NilOrVal.Nil (addr 2);
     new_prevote SnHeight.INITIAL (Round.Some 1) (NilOrVal.Val (val_id 7)) (addr 2)].
Proof. vm_decide. Qed.

End example.
