(* ===== verification/DriverDecisions.v ===== *)
(** * The decisions of a driver

    A driver decides a proposal only on a quorum of precommits or a commit
    certificate for its round and value; it decides at most once at a height,
    and its decision stands. *)

From S2P Require Import Prelude Types Context Starknet StateMachine VoteKeeper ProposalKeeper Driver DriverFacts.

Section evidence.
Context {Ctx : Context}.
Implicit Types (d : Driver.t) (p : Proposal) (i : Input.t).

(** A commit certificate, or a quorum of precommits in the vote keeper, for
    the proposal's round and value. *)
Definition commit_evidence d p : Prop :=
  (exists c, c ∈ d.(Driver.commit_certificates) /\ c.(CommitCertificate.round) = proposal_round p /\
     c.(CommitCertificate.value_id) = value_id (proposal_value p)) \/
  VoteKeeper.is_threshold_met d.(Driver.vote_keeper) (proposal_round p) VoteType.Precommit
    (Threshold.Value (value_id (proposal_value p))) = Ret true.

Definition justified_input d (ri : Round.t * Input.t) : Prop :=
  match ri.2 with Input.ProposalAndPrecommitValue p => commit_evidence d p | _ => True end.

(** What the evidence rests on. *)
Record same_stores d d' : Prop := {
  stores_votes : d'.(Driver.vote_keeper) = d.(Driver.vote_keeper);
  stores_proposals : d'.(Driver.proposal_keeper) = d.(Driver.proposal_keeper);
  stores_commits : d'.(Driver.commit_certificates) = d.(Driver.commit_certificates);
}.

Lemma same_stores_refl d : same_stores d d.
Proof. by split. Qed.

Lemma same_stores_trans d1 d2 d3 : same_stores d1 d2 -> same_stores d2 d3 -> same_stores d1 d3.
Proof. intros [] []. split; congruence. Qed.

Lemma commit_evidence_stores d d' p : same_stores d d' -> commit_evidence d p -> commit_evidence d' p.
Proof. intros [Hv _ Hc]. unfold commit_evidence. by rewrite Hv, Hc. Qed.

Lemma justified_input_stores d d' ri : same_stores d d' -> justified_input d ri -> justified_input d' ri.
Proof. unfold justified_input. intros Hs. case_match; try done. by apply commit_evidence_stores. Qed.

Lemma applies_stores d r i d' res : applies d r i d' res -> same_stores d d'.
Proof. by intros []. Qed.

Lemma lift_output_stores d o outs d' outs' :
  Process.lift_output d o outs = Ret (d', outs') -> same_stores d d'.
Proof.
  unfold Process.lift_output, Process.lift_vote_output, Process.set_last_vote_cast.
  intros H. repeat (case_match; inv_ret; simplify_eq; try (by split)).
Qed.

(** Only a decision of the state machine becomes a [Decide]. *)
Lemma lift_output_decide d o outs d' outs' r p :
  Process.lift_output d o outs = Ret (d', outs') -> DriverOutput.Decide r p ∈ outs' ->
  DriverOutput.Decide r p ∈ outs \/ o = Output.Decision r p.
Proof.
  unfold Process.lift_output, Process.lift_vote_output. intros H Hin.
  repeat (case_match; inv_ret; simplify_eq); auto;
    rewrite ?elem_of_app, ?list_elem_of_singleton, ?elem_of_cons, ?elem_of_nil in Hin; naive_solver.
Qed.

Lemma rule_decision s info i s' r p :
  rule s info i s' (Some (Output.Decision r p)) ->
  i = Input.ProposalAndPrecommitValue p /\ s.(State.decision) = None /\ s.(State.step) <> Step.Commit /\
  s' = State.with_step (State.set_decision s (proposal_round p) (proposal_value p)) Step.Commit.
Proof. by inversion 1. Qed.

(** ** The multiplexer *)

Lemma commit_certificate_Some d r v c :
  Driver.commit_certificate d r v = Some c ->
  c ∈ d.(Driver.commit_certificates) /\ c.(CommitCertificate.round) = r /\
  c.(CommitCertificate.value_id) = v.
Proof.
  intros [Hin Hb]%List.find_some. apply list_elem_of_In in Hin.
  apply andb_prop in Hb as [?%bool_decide_eq_true_1 ?%bool_decide_eq_true_1]. done.
Qed.

Lemma multiplex_proposal_justified d p v i r :
  Mux.multiplex_proposal d p v = Ret (Some i) -> justified_input d (r, i).
Proof.
  unfold Mux.multiplex_proposal, Mux.multiplex_undecided. intros H.
  inv_ret. case_match; [done|]. inv_ret.
  case_match; [repeat case_match; by simplify_eq|].
  case_match eqn:Hcert.
  { simplify_eq. apply andb_prop in Hcert as [_ [c Hc]%bool_decide_eq_true_1].
    left. apply commit_certificate_Some in Hc. eauto. }
  inv_ret. case_match eqn:Hmet.
  { simplify_eq. apply andb_prop in Hmet as [-> _]. by right. }
  repeat (case_match; inv_ret; simplify_eq; try done).
Qed.

Lemma multiplex_vote_threshold_justified d o r :
  (forall v, o <> VKOutput.PrecommitValue v) -> justified_input d (Mux.multiplex_vote_threshold d o r).
Proof.
  unfold Mux.multiplex_vote_threshold. intros Ho.
  destruct o as [| |v| |v|]; try done; [|by destruct (Ho v)]. by repeat case_match.
Qed.

Lemma multiplex_stored_justified d r ps l :
  Mux.multiplex_stored d r ps = Ret l -> Forall (justified_input d) l.
Proof.
  revert l. induction ps as [|[sp v] ps IH]; cbn [Mux.multiplex_stored]; intros l H; inv_ret;
    [by apply Forall_nil|].
  apply Forall_app. split; [|by apply IH].
  match goal with Hs : match Driver.step d with _ => _ end = Ret _ |- _ =>
    destruct (Driver.step d) in Hs; inv_ret; try by apply Forall_nil end.
  - match goal with o : option Input.t |- _ => destruct o as [i|] end; [|by apply Forall_nil].
    apply Forall_singleton. by eapply multiplex_proposal_justified.
  - match goal with b : bool |- _ => destruct b end; [|by apply Forall_nil].
    by apply Forall_singleton, multiplex_vote_threshold_justified.
Qed.

Lemma multiplex_step_change_justified d r l :
  Mux.multiplex_step_change d r = Ret l -> Forall (justified_input d) l.
Proof.
  unfold Mux.multiplex_step_change. intros H. inv_ret. apply Forall_app.
  split; [by eapply multiplex_stored_justified|].
  match goal with o : option (VKOutput.t _) |- _ => destruct o as [o|] end; [|by apply Forall_nil].
  apply Forall_singleton, multiplex_vote_threshold_justified.
  match goal with Hf : Mux.find_non_value_threshold _ _ = _ |- _ =>
    unfold Mux.find_non_value_threshold in Hf end.
  repeat (inv_ret; case_match; simplify_eq); by inv_ret.
Qed.

(** The proposal found for a round and a value has them. *)
Lemma stored_proposal d r v sp validity :
  proposal_keeper_ok d.(Driver.proposal_keeper) ->
  Driver.proposal_and_validity_for_round_and_value d r v = Some (sp, validity) ->
  proposal_round sp.(SignedMessage.message) = r /\
  value_id (proposal_value sp.(SignedMessage.message)) = v.
Proof.
  intros Hk. unfold Driver.proposal_and_validity_for_round_and_value,
    ProposalKeeper.get_proposal_and_validity_for_round_and_value.
  intros (l & Hl & [Hin Hv%bool_decide_eq_true_1]%List.find_some)%bind_Some.
  apply list_elem_of_In in Hin. split; [|done].
  apply (proposals_round _ _ (pk_rounds _ Hk r l Hl) (sp, validity) Hin).
Qed.

End evidence.

Section handlers.
Context {Ctx : Context} {laws : ContextLaws}.
Context (vs : ValidatorSet) (params : ThresholdParams.t) (total : N)
  (Htotal : total_voting_power vs = Ret total) (Hfits : ThresholdParams.fits params total).
Implicit Types (d : Driver.t) (p : Proposal) (i : Input.t).

(** The keepers of the driver are in states that occur. *)
Record driver_ok d : Prop := {
  ok_votes : reachable vs params d.(Driver.vote_keeper);
  ok_proposals : proposal_keeper_ok d.(Driver.proposal_keeper);
}.

Lemma driver_ok_new h a : driver_ok (Driver.new h vs a params).
Proof. split; [apply reachable_new|apply proposal_keeper_new]. Qed.

Lemma driver_ok_stores d d' : same_stores d d' -> driver_ok d -> driver_ok d'.
Proof. intros [Hv Hp _] []. split; congruence. Qed.

(** The quorum the vote keeper reports is there. *)
Lemma precommit_value_met k vote r k' v :
  reachable vs params k -> VoteKeeper.apply_vote k vote r = Ret (k', Some (VKOutput.PrecommitValue v)) ->
  VoteKeeper.is_threshold_met k' (sv_round vote) VoteType.Precommit (Threshold.Value v) = Ret true.
Proof using laws Htotal Hfits.
  intros Hk Happ. destruct (reachable_ok vs params total Htotal Hfits k Hk) as [Hok Hp].
  destruct (apply_vote_refines vs total Htotal k vote r) as (? & ? & Happ' & Hr); [done|by rewrite Hp|].
  rewrite Happ' in Happ. simplify_eq. pose proof (refines_step _ _ _ _ _ _ _ Hr) as Hstep.
  destruct (spec_apply _ _ _ _ _ _) as [t verdict] eqn:Hspec. destruct Hstep as (Habs & Hv & _).
  destruct (reachable_ok vs (VoteKeeper.threshold_params k) total Htotal Hfits k') as [Hok' Hp'];
    [by eapply reachable_apply|].
  rewrite (keeper_threshold_met vs _ total Htotal Hfits k' _ _ _ Hok' Hp'). f_equal.
  apply bool_decide_eq_true. rewrite Habs.
  by apply (spec_apply_justified _ _ _ _ _ _ _ _ _ Hspec (eq_sym Hv)).
Qed.

Lemma store_certificates_stores d r r' o d' :
  Process.store_certificates d r r' o = Ret d' -> same_stores d d'.
Proof.
  unfold Process.store_certificates, Process.store_polka_certificate,
    Process.store_precommit_any_round_certificate, Process.store_skip_round_certificate.
  intros H. repeat (case_match; inv_ret; simplify_eq; try (by split)).
Qed.

Lemma store_polka_stores d c d' oi :
  Mux.store_and_multiplex_polka_certificate d c = Ret (d', oi) ->
  same_stores d d' /\ forall r i, oi = Some (r, i) -> justified_input d' (r, i).
Proof.
  unfold Mux.store_and_multiplex_polka_certificate. intros H. inv_ret.
  repeat (case_match; inv_ret; simplify_eq; try (split; [by split|naive_solver])).
Qed.

(** What a handler leaves, or hands to [apply_input], is justified. *)
Definition handler_ok d d' (res : DriverError.t + option Output.t) : Prop :=
  (exists d1 r i, Process.apply_input d1 r i = Ret (d', res) /\ justified_input d1 (r, i) /\
     driver_ok d1 /\ d1.(Driver.pending_inputs) = d.(Driver.pending_inputs)) \/
  (forall o, res <> inr (Some o)) /\ driver_ok d'.

Lemma apply_vote_justified d vote d' res :
  driver_ok d -> Process.apply_vote d vote = Ret (d', res) -> handler_ok d d' res.
Proof using laws Htotal Hfits.
  intros Hd H. unfold Process.apply_vote in H.
  case_match; [simplify_eq; by right|]. case_match; [|simplify_eq; by right].
  inv_ret. destruct x as [vk o].
  match goal with Ha : VoteKeeper.apply_vote _ _ _ = _ |- _ => rename Ha into Hvk end.
  assert (Hd1 : driver_ok (Driver.set_vote_keeper d vk)).
  { split; [|apply Hd]. eapply reachable_apply; [apply Hd|exact Hvk]. }
  destruct o as [o|]; [|simplify_eq; by right]. inv_ret. rename x into d1.
  match goal with Ha : Process.store_certificates _ _ _ _ = _ |- _ =>
    apply store_certificates_stores in Ha as Hst; apply store_certificates_core, core_pending in Ha end.
  assert (Hd2 : driver_ok d1) by (by eapply driver_ok_stores).
  assert (Hj : justified_input d1 (Mux.multiplex_vote_threshold d1 o (sv_round vote))).
  { destruct o as [| |v'| |v'|r']; try (by apply multiplex_vote_threshold_justified).
    cbn [Mux.multiplex_vote_threshold]. destruct (Driver.proposal_and_validity_for_round_and_value d1 _ v') as [[sp val]|] eqn:Hsp; [|done].
    destruct (Validity.is_valid val); [|done]. right.
    destruct (stored_proposal _ _ _ _ _ (ok_proposals _ Hd2) Hsp) as [-> ->].
    rewrite (stores_votes _ _ Hst). cbn. eapply precommit_value_met; [apply Hd|exact Hvk]. }
  destruct (Mux.multiplex_vote_threshold _ _ _) as [r i].
  case_bool_decide; [simplify_eq; by right|]. left. by exists d1, r, i.
Qed.

Lemma apply_commit_certificate_justified d c d' res :
  driver_ok d -> Process.apply_commit_certificate d c = Ret (d', res) -> handler_ok d d' res.
Proof.
  intros Hd H. unfold Process.apply_commit_certificate, Mux.store_and_multiplex_commit_certificate in H.
  case_match; [simplify_eq; by right|]. inv_ret. destruct x as [d1 oi]. inv_ret.
  set (dc := Driver.set_commit_certificates d _) in *. assert (Hdc : driver_ok dc) by (by destruct Hd).
  assert (Hc : c ∈ dc.(Driver.commit_certificates)) by (apply elem_of_app; right; apply list_elem_of_here).
  assert (Hpd : dc.(Driver.pending_inputs) = d.(Driver.pending_inputs)) by done.
  clearbody dc.
  match goal with Hs : match ?x with _ => _ end = Ret (d1, oi) |- _ => destruct x as [[sp val]|] eqn:Hsp in Hs end.
  - destruct (Validity.is_valid val); simplify_eq; [|by right].
    left. eexists _, _, _. split; [exact H|]. split; [|done]. left. exists c.
    destruct (stored_proposal _ _ _ _ _ (ok_proposals _ Hdc) Hsp) as [-> ->].
    done.
  - inv_ret. simplify_eq. by right.
Qed.

Lemma apply_justified d msg d' res :
  driver_ok d -> Process.apply d msg = Ret (d', res) -> handler_ok d d' res.
Proof using laws Htotal Hfits.
  intros Hd. destruct msg as [h r p|r v|sp v|vote|c|c|t]; cbn.
  - intros H. left. eexists _, _, _. split; [exact H|]. split; [done|].
    split; [eapply driver_ok_stores; [|exact Hd]|]; case_bool_decide; by try split.
  - intros H. left. by eexists _, _, _.
  - unfold Process.apply_proposal, Mux.store_and_multiplex_proposal.
    case_match; [intros [= <- <-]; by right|]. intros Hrun. inv_ret.
    match goal with Hm : Mux.multiplex_proposal ?dp _ _ = Ret ?o |- _ =>
      set (d1 := dp) in *; rename o into oi end.
    assert (Hd1 : driver_ok d1) by (split; [apply Hd|by eapply store_proposal_ok; [apply Hd|]]).
    destruct oi as [i|]; [|simplify_eq; by right]. left. eexists _, _, _. split; [exact Hrun|].
    split; [by eapply multiplex_proposal_justified|done].
  - by apply apply_vote_justified.
  - by apply apply_commit_certificate_justified.
  - unfold Process.apply_polka_certificate. case_match; [intros [= <- <-]; by right|].
    intros Hrun. inv_ret. destruct x as [d1 oi].
    match goal with Ha : Mux.store_and_multiplex_polka_certificate _ _ = _ |- _ =>
      apply store_polka_stores in Ha as Hsj; apply store_polka_core in Ha as [Hcore _] end.
    destruct Hsj as [Hst Hj]. pose proof (core_pending _ _ Hcore).
    assert (Hd1 : driver_ok d1) by (by eapply driver_ok_stores).
    destruct oi as [[r i]|]; [|simplify_eq; by right]. left. exists d1, r, i. auto.
  - unfold Process.apply_timeout. destruct (RoundTimeout.kind t); intros H;
      [left; by eexists _, _, _..|simplify_eq; by right].
Qed.

Definition decisions_justified d (outs : list DriverOutput.t) : Prop :=
  driver_ok d /\ forall r p, DriverOutput.Decide r p ∈ outs -> commit_evidence d p.

Lemma lift_opt_stores d o outs d' outs' : lift_opt d o outs = Ret (d', outs') -> same_stores d d'.
Proof.
  destruct o as [o|]; cbn; [apply lift_output_stores|]. intros [= <- <-]. apply same_stores_refl.
Qed.

Lemma applies_justified d outs ri d1 o d2 outs2 :
  decisions_justified d outs -> justified_input d ri ->
  applies d ri.1 ri.2 d1 (inr o) -> lift_opt d1 o outs = Ret (d2, outs2) ->
  decisions_justified d2 outs2.
Proof.
  intros [Hd Houts] Hi Ha Hl.
  pose proof (same_stores_trans _ _ _ (applies_stores _ _ _ _ _ Ha) (lift_opt_stores _ _ _ _ _ Hl)) as Hst.
  split; [by eapply driver_ok_stores|]. intros r p Hin. eapply commit_evidence_stores; [exact Hst|].
  destruct o as [o|]; [|simplify_eq/=; by eapply Houts].
  destruct (lift_output_decide _ _ _ _ _ _ _ Hl Hin) as [Hold| ->]; [by eapply Houts|].
  destruct ri as [r' i]. inversion Ha as [|info s o' _ _ _ Hrule _|info s o' pend _ _ _ Hrule _ _]; subst;
    apply rule_decision in Hrule as (Heq & _); cbn in Heq; by subst.
Qed.

Lemma justified_step d outs ri :
  has_proposer d -> decisions_justified d outs -> justified_input d ri ->
  step_keeps decisions_justified justified_input d outs ri.
Proof.
  intros _ Hd Hi d1 o d2 outs2 Ha Hl.
  split; [by eapply applies_justified|].
  pose proof (lift_opt_stores _ _ _ _ _ Hl) as Hst2.
  pose proof (same_stores_trans _ _ _ (applies_stores _ _ _ _ _ Ha) Hst2) as Hst.
  split; [intros ri'; by apply justified_input_stores|].
  assert (Hpend : d2.(Driver.pending_inputs) = d1.(Driver.pending_inputs)).
  { destruct o as [o|]; cbn in Hl; [by apply lift_output_frame in Hl as [? _]|by simplify_eq]. }
  rewrite Hpend. inversion Ha as [|info s o' _ _ _ _ _|info s o' pend _ _ _ _ _ Hmux]; subst; [by left|right].
  eapply Forall_impl; [by eapply multiplex_step_change_justified|].
  intros ri'. apply justified_input_stores. by eapply same_stores_trans; [|exact Hst2].
Qed.

Lemma process_justified d msg d' res :
  driver_ok d -> d.(Driver.pending_inputs) = [] -> Process.process d msg = Ret (d', res) ->
  match res with inl _ => driver_ok d' | inr outs => decisions_justified d' outs end.
Proof using laws Htotal Hfits.
  intros Hd Hpend H.
  assert (Hnil : forall d, driver_ok d -> decisions_justified d []).
  { intros d0 Hd0. split; [done|]. by intros r p Hin%not_elem_of_nil. }
  eapply (process_keeps decisions_justified justified_input justified_step) with (E := driver_ok);
    [| |exact H|exact Hpend|..].
  - intros d0 outs [Hd0 Hin]. split; [by destruct Hd0|done].
  - intros d0 ri. by apply justified_input_stores.
  - intros d1 e Ha. destruct (apply_justified d msg d1 _ Hd Ha) as [(d0 & r & i & Hin & _ & Hd0 & _)|[_ ?]]; [|done].
    apply apply_input_applies, applies_stores in Hin. by eapply driver_ok_stores.
  - intros d1 Ha. apply Hnil.
    destruct (apply_justified d msg d1 _ Hd Ha) as [(d0 & r & i & Hin & _ & Hd0 & _)|[_ ?]]; [|done].
    apply apply_input_applies, applies_stores in Hin. by eapply driver_ok_stores.
  - intros d1 o Ha.
    destruct (apply_justified d msg d1 _ Hd Ha) as [(d0 & r & i & Hin & Hj & Hd0 & Hp0)|[Hno _]]; [|by destruct (Hno o)].
    apply apply_input_applies in Hin.
    assert (Hp : has_proposer d0) by (by inversion Hin).
    split; [by eapply applies_proposer|]. intros d2 outs Hl.
    assert (Hpend0 : Forall (justified_input d0) d0.(Driver.pending_inputs)) by (rewrite Hp0, Hpend; by apply Forall_nil).
    destruct (justified_step d0 [] (r, i) Hp (Hnil _ Hd0) Hj d1 (Some o) d2 outs Hin Hl) as (Hd2 & Hok & Hq).
    split; [done|]. destruct Hq as [-> |?]; [|done]. by eapply Forall_impl.
Qed.

End handlers.

(** ** Deciding once *)

Section once.
Context {Ctx : Context}.
Context (h : Height) (vs : ValidatorSet).
Implicit Types (d : Driver.t) (outs : list DriverOutput.t) (i : Input.t).

Definition decide_of (o : DriverOutput.t) : option (Round.t * Proposal) :=
  match o with DriverOutput.Decide r p => Some (r, p) | _ => None end.
Definition decides outs : list (Round.t * Proposal) := omap decide_of outs.

Lemma decides_app outs outs' : decides (outs ++ outs') = decides outs ++ decides outs'.
Proof. apply omap_app. Qed.

(** Nothing is decided, or one proposal is, for good. *)
Definition decision_state d outs : Prop :=
  (decides outs = [] /\ d.(Driver.round_state).(State.decision) = None /\ Driver.step d <> Step.Commit) \/
  (exists r p, decides outs = [(r, p)] /\
     d.(Driver.round_state).(State.decision) =
       Some (RoundValue.new (proposal_value p) (proposal_round p)) /\
     Driver.step d = Step.Commit /\ has_proposer d).

Record decided_inv d outs : Prop := {
  di_validators : d.(Driver.validator_set) = vs;
  di_height : has_proposer d -> Driver.height d = h;
  di_state : decision_state d outs;
}.

(** One step of the state machine, seen by the decision. *)
Lemma rule_decision_state s info i s' o :
  rule s info i s' o ->
  (exists r p, o = Some (Output.Decision r p) /\ s.(State.decision) = None /\ s.(State.step) <> Step.Commit /\
     s'.(State.decision) = Some (RoundValue.new (proposal_value p) (proposal_round p)) /\
     s'.(State.step) = Step.Commit) \/
  (forall r p, o <> Some (Output.Decision r p)) /\ s'.(State.decision) = s.(State.decision) /\
  (s'.(State.step) = Step.Commit <-> s.(State.step) = Step.Commit).
Proof.
  intros Hrule. destruct Hrule as [o Ho|r o Hs Hi Ho _|v Hs _ _|Hs _|p Hs _ _|p Hs _ _|r Hs _ _|p Hs Hd Hi];
    cbn; try (right; split_and!; [by intros|done|by rewrite Hs]).
  - right. split_and!; [|done|done]. intros r p ->. by destruct Ho.
  - right. split_and!; [|done|by rewrite Hs]. intros r' p ->. by destruct Ho.
  - right. by split_and!.
  - left. by exists s.(State.round), p.
Qed.

Lemma lift_opt_decides d o outs d' outs' :
  lift_opt d o outs = Ret (d', outs') ->
  decides outs' = decides outs ++
    match o with Some (Output.Decision r p) => [(r, p)] | _ => [] end.
Proof.
  unfold lift_opt, Process.lift_output, Process.lift_vote_output. intros H.
  repeat (case_match; inv_ret; simplify_eq); rewrite ?decides_app, ?app_nil_r; done.
Qed.

Lemma lift_opt_frame d o outs d' outs' :
  lift_opt d o outs = Ret (d', outs') ->
  d'.(Driver.pending_inputs) = d.(Driver.pending_inputs) /\
  d'.(Driver.round_state) = d.(Driver.round_state) /\
  d'.(Driver.proposer) = d.(Driver.proposer) /\
  d'.(Driver.validator_set) = d.(Driver.validator_set).
Proof. destruct o as [o|]; cbn; [apply lift_output_frame|]. by intros [= <- <-]. Qed.

(** The invariant only looks at these fields. *)
Lemma decided_inv_frame d d' outs :
  decided_inv d outs -> d'.(Driver.round_state) = d.(Driver.round_state) ->
  d'.(Driver.proposer) = d.(Driver.proposer) ->
  d'.(Driver.validator_set) = d.(Driver.validator_set) -> decided_inv d' outs.
Proof.
  intros [Hv Hh Hs] Hst Hp Hvs.
  assert (Hhas : has_proposer d' <-> has_proposer d) by (unfold has_proposer; by rewrite Hp, Hvs).
  split; [congruence|unfold Driver.height in *; rewrite Hst; tauto|].
  unfold decision_state, Driver.step in *. rewrite Hst.
  destruct Hs as [?|(r & p & ? & ? & ? & ?)]; [by left|right]. exists r, p. tauto.
Qed.

Lemma applies_decided outs0 d outs r i d1 res :
  decided_inv d (outs0 ++ outs) -> applies d r i d1 res ->
  match res with
  | inl _ => decided_inv d1 (outs0 ++ outs)
  | inr o => forall d2 outs2, lift_opt d1 o outs = Ret (d2, outs2) -> decided_inv d2 (outs0 ++ outs2)
  end.
Proof.
  intros [Hv Hh Hs] Ha.
  assert (Hrun : forall info s o, rule d.(Driver.round_state) info i s o -> has_proposer d ->
    forall d0 outs2, d0.(Driver.round_state) = s -> d0.(Driver.proposer) = d.(Driver.proposer) ->
    d0.(Driver.validator_set) = d.(Driver.validator_set) ->
    decides outs2 = decides (outs0 ++ outs) ++ match o with Some (Output.Decision r p) => [(r, p)] | _ => [] end ->
    decided_inv d0 outs2).
  { intros info s o Hrule Hp d0 outs2 Hst Hpr Hvs Hdec.
    assert (Hp0 : has_proposer d0) by (unfold has_proposer; by rewrite Hpr, Hvs).
    split; [congruence| |].
    - intros _. unfold Driver.height. rewrite Hst, <- (Hh Hp).
      destruct Hrule; try done; by destruct_or?; destruct_and?; subst.
    - unfold decision_state, Driver.step in *. rewrite Hst, Hdec.
      destruct (rule_decision_state _ _ _ _ _ Hrule) as [(r' & p & -> & Hnd & Hnc & Hd' & Hs')|(Hno & Hd' & Hs')].
      + destruct Hs as [(-> & _ & _)|(? & ? & _ & _ & Hc & _)]; [|by destruct Hnc]. right. by exists r', p.
      + assert (Hnil : match o with Some (Output.Decision r p) => [(r, p)] | _ => [] end = []).
        { destruct o as [[]|]; try done. by destruct (Hno round proposal). }
        rewrite Hnil, app_nil_r, Hd'.
        destruct Hs as [(? & ? & ?)|(r' & p & ? & ? & ? & ?)]; [left; tauto|right; exists r', p; tauto]. }
  destruct Ha as [e _ Hnp|info s o Hp _ _ Hrule _|info s o pend Hp _ _ Hrule _ _].
  - split; [done|by intros ?%Hnp|]. left.
    destruct Hs as [(? & _ & _)|(? & ? & _ & _ & _ & ?)]; [done|by destruct Hnp].
  - intros d2 outs2 Hl. destruct (lift_opt_frame _ _ _ _ _ Hl) as (_ & Hst & Hpr & Hvs).
    eapply Hrun; try done. by rewrite !decides_app, (lift_opt_decides _ _ _ _ _ Hl), app_assoc.
  - intros d2 outs2 Hl. destruct (lift_opt_frame _ _ _ _ _ Hl) as (_ & Hst & Hpr & Hvs).
    eapply Hrun; try done. by rewrite !decides_app, (lift_opt_decides _ _ _ _ _ Hl), app_assoc.
Qed.

(** The proposer of a new round is a validator, and the height the driver's. *)
Definition known_proposer (e : event) : Prop :=
  match e with
  | Receive (DriverInput.NewRound h' _ p) => h' = h /\ is_Some (get_by_address vs p)
  | _ => True
  end.

Lemma enter_round_decided d outs r p :
  decided_inv d outs -> is_Some (get_by_address vs p) -> decided_inv (enter_round d h r p) outs.
Proof.
  intros [Hv Hh Hs] [v Hval].
  assert (Hhas : has_proposer (enter_round d h r p)).
  { exists p, v. unfold enter_round. case_bool_decide; cbn; by rewrite Hv. }
  split; [unfold enter_round; by case_bool_decide|intros _; unfold enter_round; by case_bool_decide|].
  destruct Hs as [Hs|(r' & p' & Hd & Hdec & Hst & Hp)].
  - left. unfold enter_round. case_bool_decide; cbn; [done|]. by destruct Hs as (? & _ & _).
  - right. exists r', p'. unfold enter_round in *. by rewrite bool_decide_eq_true_2 in * by (by apply Hh).
Qed.

Lemma handled_decided outs0 d msg d1 res :
  decided_inv d outs0 -> known_proposer (Receive msg) -> handled d msg d1 res ->
  match res with
  | inl _ | inr None => decided_inv d1 outs0
  | inr (Some o) => forall d2 outs2, Process.lift_output d1 o [] = Ret (d2, outs2) -> decided_inv d2 (outs0 ++ outs2)
  end.
Proof.
  intros Hd Hmsg Hh.
  assert (Hcore : forall d1, same_core d d1 -> decided_inv d1 outs0).
  { intros d0 Hc. eapply decided_inv_frame; [exact Hd|apply Hc..]. }
  assert (Happ : forall d0 r i, decided_inv d0 outs0 -> applies d0 r i d1 res ->
    match res with
    | inl _ | inr None => decided_inv d1 outs0
    | inr (Some o) => forall d2 outs2, Process.lift_output d1 o [] = Ret (d2, outs2) ->
        decided_inv d2 (outs0 ++ outs2)
    end).
  { intros d0 r i Hd0 Ha. rewrite <- (app_nil_r outs0) in Hd0.
    pose proof (applies_decided _ _ _ _ _ _ _ Hd0 Ha) as Hres.
    destruct res as [e|[o|]]; [by rewrite app_nil_r in Hres|exact Hres|].
    rewrite <- (app_nil_r outs0). by apply Hres. }
  destruct Hh as [msg d1 res Hc Hres|msg d0 r i d1 res Hc Hnew Ha|h' r p d1 res Ha].
  - destruct res as [e|[o|]]; [by apply Hcore|by destruct (Hres o)|by apply Hcore].
  - by eapply Happ; [apply Hcore|].
  - destruct Hmsg as [-> Hp]. by eapply Happ; [apply enter_round_decided|].
Qed.

Lemma process_decided outs0 d msg d' res :
  decided_inv d outs0 -> d.(Driver.pending_inputs) = [] -> known_proposer (Receive msg) ->
  Process.process d msg = Ret (d', res) ->
  decided_inv d' (outs0 ++ match res with inr outs => outs | inl _ => [] end).
Proof.
  intros Hd Hpend Hmsg H.
  assert (match res with inl _ => decided_inv d' outs0 | inr outs => decided_inv d' (outs0 ++ outs) end)
    as Hres; [|destruct res; by rewrite ?app_nil_r].
  eapply (process_keeps (fun d outs => decided_inv d (outs0 ++ outs)) (fun _ _ => True))
    with (E := fun d => decided_inv d outs0); [| | |exact H|exact Hpend|..]; try done.
  - intros d0 outs ri _ Hd0 _ d1 o d2 outs2 Ha Hl. split_and!; [|done|right; by apply Forall_forall].
    by apply (applies_decided _ _ _ _ _ _ _ Hd0 Ha).
  - intros d0 outs Hd0. by eapply decided_inv_frame.
  - intros d1 e Ha%apply_handled. by apply (handled_decided outs0 _ _ _ _ Hd Hmsg) in Ha.
  - intros d1 Ha%apply_handled. rewrite app_nil_r. by apply (handled_decided outs0 _ _ _ _ Hd Hmsg) in Ha.
  - intros d1 o Ha%apply_handled.
    split; [by eapply handled_proposer|]. intros d2 outs Hl.
    split; [by apply (handled_decided outs0 _ _ _ _ Hd Hmsg Ha)|by apply Forall_forall].
Qed.

Lemma decided_inv_new a params : decided_inv (Driver.new h vs a params) [].
Proof. split; [done|by intros (? & ? & ? & _)|by left]. Qed.

Lemma run_decided d events d' outs0 outs :
  decided_inv d outs0 -> d.(Driver.pending_inputs) = [] -> Forall known_proposer events ->
  run d events = Ret (d', outs) -> decided_inv d' (outs0 ++ outs).
Proof.
  intros Hd Hpend Hok Hrun.
  apply (run_ind (fun d outs => decided_inv d outs /\ d.(Driver.pending_inputs) = []) known_proposer
           d events d' outs); try done.
  - intros d0 outs1 msg d1 res Hmsg [Hd0 Hp0] Hproc. split; [by eapply process_decided|].
    by eapply process_pending.
  - intros d0 outs1 r [Hd0 Hp0]. split; [by eapply decided_inv_frame|done].
Qed.

End once.

(** ** Theorems *)

Section claims.
Context {Ctx : Context} {laws : ContextLaws}.

(** C11: whenever [process] decides a proposal, the driver holds a commit
    certificate for the proposal's round and value, or its vote keeper holds a
    quorum of precommits for them. *)
Theorem decision_justified (h : Height) (vs : ValidatorSet) (a : Address)
  (params : ThresholdParams.t) (total : N) (events : list event) (d d' : Driver.t)
  (outs0 outs : list DriverOutput.t) (msg : DriverInput.t) (r : Round.t) (p : Proposal)
  (Htotal : total_voting_power vs = Ret total) (Hfits : ThresholdParams.fits params total)
  (Hrun : run (Driver.new h vs a params) events = Ret (d, outs0))
  (Hproc : Process.process d msg = Ret (d', inr outs))
  (Hin : DriverOutput.Decide r p ∈ outs) :
  commit_evidence d' p.
Proof.
  assert (Hd : driver_ok vs params d /\ d.(Driver.pending_inputs) = []).
  { apply (run_ind (fun d _ => driver_ok vs params d /\ d.(Driver.pending_inputs) = []) (fun _ => True)
      (Driver.new h vs a params) events d outs0) with (outs0 := []); try done.
    - intros d0 outs1 msg0 d1 res _ [Hd0 Hp0] Hp. split; [|by eapply process_pending].
      pose proof (process_justified vs params total Htotal Hfits d0 msg0 d1 res Hd0 Hp0 Hp) as Hj.
      destruct res; [done|apply Hj].
    - intros d0 outs1 r0 [Hd0 Hp0]. split; [|done]. split; [apply reachable_prune|]; apply Hd0.
    - split; [apply driver_ok_new|done].
    - by apply Forall_forall. }
  destruct Hd as [Hd Hpend].
  destruct (process_justified vs params total Htotal Hfits d msg d' _ Hd Hpend Hproc) as [_ Hj].
  by apply (Hj r p).
Qed.

(** a driver decides at most once at a height, what it reports as decided
    is what it decided, and the decision survives everything it receives
    afterwards, as long as the proposers of new rounds are validators. *)
Theorem decide_once (h : Height) (vs : ValidatorSet) (a : Address)
  (params : ThresholdParams.t) (before after : list event) (d d' : Driver.t)
  (outs outs' : list DriverOutput.t)
  (Hok : Forall (known_proposer h vs) (before ++ after))
  (Hrun : run (Driver.new h vs a params) before = Ret (d, outs))
  (Hrun' : run d after = Ret (d', outs')) :
  (decides outs = [] /\ Driver.decided_value d = None) \/
  (exists r p, decides outs = [(r, p)] /\ decides outs' = [] /\
     Driver.decided_value d = Some (proposal_round p, proposal_value p) /\
     Driver.decided_value d' = Driver.decided_value d).
Proof.
  apply Forall_app in Hok as [Hok Hok'].
  pose proof (run_decided h vs _ before d [] outs (decided_inv_new h vs a params) eq_refl Hok Hrun) as Hd.
  cbn [app] in Hd.
  pose proof (run_pending h vs a params before d outs Hrun) as Hpend.
  pose proof (run_decided h vs d after d' outs outs' Hd Hpend Hok' Hrun') as Hd'.
  apply di_state in Hd, Hd'. unfold Driver.decided_value.
  destruct Hd as [(? & -> & _)|(r & p & Hdec & -> & _)]; [by left|right].
  unfold decision_state in Hd'. rewrite decides_app, Hdec in Hd'.
  destruct Hd' as [(? & _)|(r' & p' & [= <- <- Hnil] & -> & _)]; [done|]. by exists r, p.
Qed.

End claims.

(** ** Witnesses *)
Section example.
#[local] Existing Instance N_context.

Definition last_precommit : DriverInput.t := msg_precommit (Round.Some 0) (NilOrVal.Val 7%N) 4.

(** The driver and the outputs of a [process] that succeeds. *)
Definition processed (d : Driver.t) (msg : DriverInput.t) : Driver.t * list DriverOutput.t :=
  match Process.process d msg with Ret (d', inr outs) => (d', outs) | _ => (d, []) end.
Definition succeeds (d : Driver.t) (msg : DriverInput.t) : bool :=
  match Process.process d msg with Ret (_, inr _) => true | _ => false end.

Lemma succeeds_eq d msg :
  succeeds d msg = true -> Process.process d msg = Ret ((processed d msg).1, inr (processed d msg).2).
Proof. unfold succeeds, processed. by destruct (Process.process d msg) as [[? []]|]. Qed.

Local Abbreviation deciding_step := (processed (run_result deciding_events).1 last_precommit).

Definition proposal_7 : Proposal :=
  new_proposal SnHeight.INITIAL (Round.Some 0) (val 7) Round.Nil (addr 1).

Lemma decision_justified_witness : commit_evidence deciding_step.1 proposal_7.
Proof.
  refine (decision_justified (laws := N_context_laws) SnHeight.INITIAL four_validators (addr 2)
    ThresholdParams.default 4 deciding_events (run_result deciding_events).1 deciding_step.1
    (run_result deciding_events).2 deciding_step.2 last_precommit (Round.Some 0) proposal_7 _ _ _ _ _).
  - vm_refl.
  - apply ThresholdParams.default_fits. vm_compute. discriminate.
  - apply run_result_eq. vm_refl.
  - apply succeeds_eq. vm_refl.
  - vm_decide.
Defined.

(** After the decision: another round, another proposal, another quorum. *)
Definition deciding_all : list event := deciding_events ++ [Receive last_precommit].
Definition later_events : list event :=
  Receive <$>
    [msg_new_round (Round.Some 1) 2; msg_proposal (Round.Some 1) 8 Round.Nil 2] ++
    (msg_precommit (Round.Some 1) (NilOrVal.Val 8%N) <$> [1; 3; 4]%N).
Local Abbreviation later_result := (get_ret (new_driver 2, []) (run (run_result deciding_all).1 later_events)).

Lemma decide_once_witness :
  (decides (run_result deciding_all).2 = [] /\ Driver.decided_value (run_result deciding_all).1 = None) \/
  (exists r p, decides (run_result deciding_all).2 = [(r, p)] /\ decides later_result.2 = [] /\
     Driver.decided_value (run_result deciding_all).1 = Some (proposal_round p, proposal_value p) /\
     Driver.decided_value later_result.1 = Driver.decided_value (run_result deciding_all).1).
Proof.
  refine (decide_once SnHeight.INITIAL four_validators (addr 2)
    ThresholdParams.default deciding_all later_events (run_result deciding_all).1 later_result.1
    (run_result deciding_all).2 later_result.2 _ _ _).
  - repeat constructor; by eexists.
  - apply run_result_eq. vm_refl.
  - apply is_ret_pair. vm_refl.
Defined.

End example.
