(* ===== verification/DriverPanics.v ===== *)
(** * The driver does not panic

    The driver's code asserts and unwraps: heights agree, proposals of a round
    come from one proposer, proofs of lock precede their proposal, sums and
    round numbers do not overflow. Under the contract its caller keeps, none of
    these fails. *)

From S2P Require Import Prelude Types Context Starknet StateMachine VoteKeeper ProposalKeeper Driver DriverFacts DriverVotes DriverDecisions.

Section panics.
Context {Ctx : Context} {laws : ContextLaws}.
Context (h : Height) (vs : ValidatorSet) (params : ThresholdParams.t) (total : N)
  (Htotal : total_voting_power vs = Ret total) (Hfits : ThresholdParams.fits params total)
  (proposer_of : Round.t -> Address).
Implicit Types (d : Driver.t) (p : Proposal) (i : Input.t) (r : Round.t).

(** There is a round after [r]. *)
Definition has_next r : Prop := no_panic (Round.increment r).

(** The caller's contract: inputs are for the driver's height, proposals come
    from the proposer of their round, and rounds have a successor. *)
Definition contract (e : event) : Prop :=
  match e with
  | Receive (DriverInput.NewRound h' _ _) => h' = h
  | Receive (DriverInput.Proposal sp _) => sp_height sp = h /\ sp_address sp = proposer_of (sp_round sp)
  | Receive (DriverInput.Vote v) => has_next (sv_round v)
  | Receive (DriverInput.TimeoutElapsed t) => has_next t.(RoundTimeout.round)
  | _ => True
  end.

Record safe d : Prop := {
  safe_ok : driver_ok vs params d;
  safe_proposals r pv :
    pv ∈ Driver.proposals_and_validities_for_round d r ->
    sp_height pv.1 = h /\ sp_address pv.1 = proposer_of r;
  safe_voting : voting d.(Driver.round_state) -> Driver.height d = h;
}.

(** An input of the state machine that cannot fail an assertion. *)
Definition sane (ri : Round.t * Input.t) : Prop :=
  match ri.2 with
  | Input.ProposalAndPolkaPrevious p => proposal_round p = ri.1
  | Input.TimeoutPrecommit => has_next ri.1
  | _ => True
  end.

Lemma safe_new a : safe (Driver.new h vs a params).
Proof.
  split; [apply driver_ok_new| |by intros [?|?]].
  intros r pv Hin. unfold Driver.proposals_and_validities_for_round in Hin. cbn in Hin.
  unfold ProposalKeeper.get_proposals_and_validities_for_round in Hin. cbn in Hin.
  rewrite lookup_empty in Hin. by apply not_elem_of_nil in Hin.
Qed.

Lemma safe_stores d d' :
  safe d -> same_stores d d' -> (voting d'.(Driver.round_state) -> Driver.height d' = h) -> safe d'.
Proof.
  intros [Hok Hp Hv] Hst Hv'. split; [by eapply driver_ok_stores| |done].
  unfold Driver.proposals_and_validities_for_round. rewrite (stores_proposals _ _ Hst). apply Hp.
Qed.

(** ** Thresholds and the multiplexer *)

Lemma is_threshold_met_total d r ty th :
  safe d -> no_panic (VoteKeeper.is_threshold_met d.(Driver.vote_keeper) r ty th).
Proof using laws Htotal Hfits.
  intros Hd. destruct (reachable_ok vs params total Htotal Hfits _ (ok_votes _ _ _ (safe_ok _ Hd))) as [Hok Hp].
  rewrite (keeper_threshold_met vs params total Htotal Hfits _ _ _ _ Hok Hp). auto with malachite.
Qed.

Ltac step_np :=
  match goal with
  | |- no_panic (Ret _) => apply no_panic_Ret
  | |- no_panic (mbind _ _) => apply no_panic_bind; [|intros ? ?]
  | |- no_panic (VoteKeeper.is_threshold_met _ _ _ _) => by apply is_threshold_met_total
  | |- no_panic (if ?b then _ else _) => destruct b
  | |- no_panic (match ?x with _ => _ end) => destruct x
  end.

Lemma multiplex_proposal_np d p v :
  safe d -> Driver.height d = proposal_height p -> no_panic (Mux.multiplex_proposal d p v).
Proof using laws Htotal Hfits.
  intros Hd Hh. unfold Mux.multiplex_proposal, Mux.multiplex_undecided, Mux.polka_previous,
    Mux.polka_for_current, Mux.has_polka_value.
  apply no_panic_bind; [apply no_panic_assert; by apply bool_decide_eq_true|intros _ _]. repeat step_np.
Qed.

Lemma find_non_value_threshold_np d r :
  safe d -> no_panic (Mux.find_non_value_threshold d.(Driver.vote_keeper) r).
Proof using laws Htotal Hfits.
  intros Hd. unfold Mux.find_non_value_threshold, Mux.has_precommit_any, Mux.has_polka_nil, Mux.has_polka_any.
  repeat step_np.
Qed.

Lemma multiplex_stored_np d r ps :
  safe d -> (Driver.step d = Step.Propose -> Forall (fun pv => sp_height pv.1 = Driver.height d) ps) ->
  no_panic (Mux.multiplex_stored d r ps).
Proof using laws Htotal Hfits.
  intros Hd. induction ps as [|[sp v] ps IH]; intros Hps; cbn [Mux.multiplex_stored]; [auto with malachite|].
  apply no_panic_bind; [|intros l _; apply no_panic_bind_Ret].
  - destruct (Driver.step d); try auto with malachite.
    + apply no_panic_bind_Ret. apply multiplex_proposal_np; [done|].
      specialize (Hps eq_refl). apply Forall_cons in Hps as [Hsp _]. by rewrite <- Hsp.
    + unfold Mux.has_polka_value. repeat step_np.
  - apply IH. intros Hst. by apply Forall_cons in Hps as [_ ?].
Qed.

Lemma multiplex_step_change_np d r : safe d -> no_panic (Mux.multiplex_step_change d r).
Proof using laws Htotal Hfits.
  intros Hd. unfold Mux.multiplex_step_change. apply no_panic_bind.
  - apply multiplex_stored_np; [done|]. intros Hst. apply Forall_forall. intros pv Hpv.
    rewrite (safe_voting _ Hd) by (by left). by apply (safe_proposals _ Hd) in Hpv as [? _].
  - intros l _. apply no_panic_bind; [by apply find_non_value_threshold_np|].
    intros o _. auto with malachite.
Qed.

(** ** The state machine *)

Lemma prevote_np s a p : Round.is_nil (proposal_pol_round p) = true -> no_panic (prevote s a p).
Proof.
  intros Hnil%Round.is_nil_eq. unfold prevote. step_np; [|auto with malachite].
  apply no_panic_assert. by apply bool_decide_eq_true.
Qed.

Lemma prevote_previous_np s a p :
  is_valid_pol_round s (proposal_pol_round p) = true -> s.(State.round) = proposal_round p ->
  no_panic (prevote_previous s a p).
Proof.
  intros [Hdef Hlt]%andb_prop Hr. rewrite Hr in Hlt. unfold prevote_previous.
  apply no_panic_bind; [apply no_panic_assert|intros _ _; apply no_panic_bind; [by apply no_panic_assert|]].
  - by apply Round.leb_le, Round.is_defined_le.
  - intros _ _. auto with malachite.
Qed.

Lemma apply_np s info i : sane (info.(Info.input_round), i) -> no_panic (StateMachine.apply s info i).
Proof.
  intros Hi. unfold StateMachine.apply, sane in *. cbn in Hi.
  repeat (case_match; try auto with malachite);
    repeat match goal with
    | H : _ && _ = true |- _ => apply andb_prop in H as [? ?]
    | H : bool_decide _ = true |- _ => apply bool_decide_eq_true in H
    end; try (by apply prevote_np); try (by apply prevote_previous_np; congruence);
    apply no_panic_bind; try done; intros ? _; auto with malachite.
Qed.

(** ** Inputs the multiplexer makes *)

(** Calm and sane. *)
Definition good (ri : Round.t * Input.t) : Prop := calm ri.2 /\ sane ri.

Lemma multiplex_proposal_sane d p v i :
  Mux.multiplex_proposal d p v = Ret (Some i) ->
  sane (Driver.round d, i) /\ sane (proposal_round p, i).
Proof.
  unfold Mux.multiplex_proposal, Mux.multiplex_undecided. intros H.
  inv_ret. case_match; [done|]. inv_ret.
  repeat (case_match; inv_ret; simplify_eq; try done).
  match goal with Hr : negb (bool_decide _) = false |- _ =>
    apply negb_false_iff, bool_decide_eq_true_1 in Hr; unfold sane, Driver.round; cbn; by rewrite Hr end.
Qed.

Lemma multiplex_vote_threshold_sane d o r : sane (Mux.multiplex_vote_threshold d o r).
Proof. unfold Mux.multiplex_vote_threshold. by repeat case_match. Qed.

Lemma multiplex_stored_sane d r ps l : Mux.multiplex_stored d r ps = Ret l -> Forall sane l.
Proof.
  revert l. induction ps as [|[sp v] ps IH]; cbn [Mux.multiplex_stored]; intros l H; inv_ret;
    [by apply Forall_nil|].
  apply Forall_app. split; [|by apply IH].
  match goal with Hs : match Driver.step d with _ => _ end = Ret _ |- _ =>
    destruct (Driver.step d) in Hs; inv_ret; try by apply Forall_nil end.
  - match goal with o : option Input.t |- _ => destruct o as [i|] end; [|by apply Forall_nil].
    apply Forall_singleton. by eapply multiplex_proposal_sane.
  - match goal with b : bool |- _ => destruct b end; [|by apply Forall_nil].
    apply Forall_singleton, multiplex_vote_threshold_sane.
Qed.

Lemma multiplex_step_change_good d r l : Mux.multiplex_step_change d r = Ret l -> Forall good l.
Proof.
  intros H. pose proof (multiplex_step_change_calm _ _ _ H) as Hcalm.
  unfold Mux.multiplex_step_change in H. inv_ret. apply Forall_and. split; [exact Hcalm|].
  apply Forall_app. split; [by eapply multiplex_stored_sane|].
  match goal with o : option (VKOutput.t _) |- _ => destruct o as [o|] end; [|by apply Forall_nil].
  apply Forall_singleton, multiplex_vote_threshold_sane.
Qed.

(** ** The loop *)

(** A new round is for the driver's height. *)
Definition new_round_ok d i : Prop := (exists r, i = Input.NewRound r) -> Driver.height d = h.

Lemma calm_new_round_ok d i : calm i -> new_round_ok d i.
Proof. intros Hc [r ->]. by destruct Hc. Qed.

Lemma applies_safe d r i d' res : safe d -> new_round_ok d i -> applies d r i d' res -> safe d'.
Proof.
  intros Hd Hnew Ha. apply (safe_stores d); [done|by eapply applies_stores|].
  destruct Ha as [e|info s o _ _ _ Hrule _|info s o pend _ _ _ Hrule _ _]; [by intros [?|?]|..];
    by apply (rule_voting_height h _ _ _ _ _ Hrule (safe_voting _ Hd)).
Qed.

Lemma apply_input_np d r i :
  safe d -> new_round_ok d i -> sane (r, i) -> no_panic (Process.apply_input d r i).
Proof using laws Htotal Hfits.
  intros Hd Hnew Hi. unfold Process.apply_input.
  destruct (Driver.get_proposer _) as [e|v]; [auto with malachite|].
  apply no_panic_bind; [by apply apply_np|intros tr Htr%apply_sound].
  apply no_panic_bind_Ret.
  destruct (_ && _); [|auto with malachite].
  apply no_panic_bind_Ret. apply multiplex_step_change_np.
  apply (safe_stores d); [done|done|]. by apply (rule_voting_height h _ _ _ _ _ Htr (safe_voting _ Hd)).
Qed.

(** The votes of the state machine are for its height. *)
Definition vote_height_ok d (o : Output.t) : Prop :=
  forall w, o = Output.Vote w -> vote_height w = Driver.height d.

Lemma applies_vote_height d r i d' o : applies d r i d' (inr (Some o)) -> vote_height_ok d' o.
Proof.
  intros Ha w ->. inversion Ha as [|info s o' _ _ _ Hrule _|info s o' pend _ _ _ Hrule _ _]; subst;
    pose proof (rule_height _ _ _ _ _ Hrule) as Hh; apply rule_vote in Hrule as (_ & -> & _);
    unfold Driver.height; cbn; by rewrite Hh.
Qed.

Lemma lift_output_np d o outs : vote_height_ok d o -> no_panic (Process.lift_output d o outs).
Proof.
  intros Ho. destruct o as [r|p|w|t|h' r t|r p]; cbn [Process.lift_output]; try auto with malachite.
  unfold Process.lift_vote_output, Process.set_last_vote_cast.
  destruct (negb _); [auto with malachite|]. case_match; [|auto with malachite].
  apply no_panic_bind_Ret.
  apply no_panic_bind; [apply no_panic_assert, bool_decide_eq_true; by apply Ho|intros _ _]. repeat step_np.
Qed.

Lemma lift_output_safe d o outs d' outs' :
  safe d -> Process.lift_output d o outs = Ret (d', outs') -> safe d'.
Proof.
  intros Hd Hl. apply (safe_stores d); [done|by eapply lift_output_stores|].
  apply lift_output_frame in Hl as (_ & Hst & _). unfold Driver.height. rewrite Hst. apply Hd.
Qed.

Lemma apply_pending_np d batch outs :
  safe d -> Forall good d.(Driver.pending_inputs) -> Forall good batch ->
  no_panic (Process.apply_pending d batch outs) /\
  forall d' res, Process.apply_pending d batch outs = Ret (d', res) ->
    safe d' /\ Forall good d'.(Driver.pending_inputs).
Proof using laws Htotal Hfits.
  revert d outs. induction batch as [|[r i] batch IH]; cbn; intros d outs Hd Hq Hbatch.
  { split; [auto with malachite|]. by intros d' res [= <- <-]. }
  apply Forall_cons in Hbatch as [[Hc Hi] Hbatch].
  assert (Hnext : forall d1 res1, Process.apply_input d r i = Ret (d1, res1) ->
    safe d1 /\ Forall good d1.(Driver.pending_inputs) /\ forall o, res1 = inr (Some o) -> vote_height_ok d1 o).
  { intros d1 res1 Ha%apply_input_applies. split_and!.
    - by eapply applies_safe; [|apply calm_new_round_ok|].
    - inversion Ha; subst; [done..|by eapply multiplex_step_change_good].
    - intros o ->. by eapply applies_vote_height. }
  split.
  - apply no_panic_bind; [by apply apply_input_np; [|apply calm_new_round_ok|]|].
    intros [d1 [e|[o|]]] Ha; destruct (Hnext _ _ Ha) as (Hd1 & Hq1 & Ho1);
      [auto with malachite| |by apply IH].
    apply no_panic_bind; [by apply lift_output_np, Ho1|]. intros [d2 outs2] Hl. apply IH; [|..|done].
    + by eapply lift_output_safe.
    + apply lift_output_frame in Hl as (-> & _). done.
  - intros d' res H. inv_ret. destruct x as [d1 res1].
    match goal with Ha : Process.apply_input _ _ _ = _ |- _ =>
      destruct (Hnext _ _ Ha) as (Hd1 & Hq1 & _) end.
    destruct res1 as [e|[o|]]; [by simplify_eq| |by eapply IH].
    inv_ret. destruct x as [d2 outs2].
    match goal with Hl : Process.lift_output _ _ _ = _ |- _ =>
      pose proof (lift_output_safe _ _ _ _ _ Hd1 Hl) as Hd2; apply lift_output_frame in Hl as (Hq2 & _) end.
    eapply IH; [exact Hd2| |done|exact H]. by rewrite Hq2.
Qed.

Lemma drain_np fuel d outs :
  safe d -> Forall good d.(Driver.pending_inputs) ->
  no_panic (Process.drain fuel d outs) /\
  forall d' res, Process.drain fuel d outs = Ret (d', res) -> safe d'.
Proof using laws Htotal Hfits.
  revert d outs. induction fuel as [|fuel IH]; intros d outs Hd Hq; cbn [Process.drain].
  { split; [auto with malachite|]. by intros d' res [= <- <-]. }
  destruct (Driver.pending_inputs d) as [|ri batch] eqn:Hp.
  { split; [auto with malachite|]. by intros d' res [= <- <-]. }
  assert (Hd0 : safe (Driver.set_pending_inputs d [])) by (apply (safe_stores d); [done|done|apply Hd]).
  destruct (apply_pending_np _ (ri :: batch) outs Hd0 (Forall_nil_2 _) Hq) as [Hnp Hpost]. split.
  - apply no_panic_bind; [exact Hnp|]. intros [d1 [e|outs1]] Ha; [auto with malachite|].
    destruct (Hpost _ _ Ha). by apply IH.
  - intros d' res H. inv_ret. destruct x as [d1 res1].
    match goal with Ha : Process.apply_pending _ _ _ = _ |- _ => destruct (Hpost _ _ Ha) as [Hd1 Hq1] end.
    destruct res1 as [e|outs1]; [by simplify_eq|]. by eapply IH.
Qed.

(** ** The handlers *)

(** A handler returns, and leaves a safe driver with good inputs pending. *)
Definition leaves_safe d' (res : DriverError.t + option Output.t) : Prop :=
  safe d' /\ Forall good d'.(Driver.pending_inputs) /\ forall o, res = inr (Some o) -> vote_height_ok d' o.

Definition handler_safe (m : outcome (Driver.t * (DriverError.t + option Output.t))) : Prop :=
  no_panic m /\ forall d' res, m = Ret (d', res) -> leaves_safe d' res.

Lemma handler_stop d res :
  safe d -> d.(Driver.pending_inputs) = [] -> (forall o, res <> inr (Some o)) -> handler_safe (Ret (d, res)).
Proof.
  intros Hd Hp Hres. split; [auto with malachite|]. intros d' res' [= <- <-].
  split_and!; [done|rewrite Hp; by apply Forall_nil|]. intros o ->. by destruct (Hres o).
Qed.

Lemma handler_bind {A} (m : outcome A) f :
  no_panic m -> (forall a, m = Ret a -> handler_safe (f a)) -> handler_safe (m ≫= f).
Proof.
  intros Hm Hf. split.
  - apply no_panic_bind; [done|]. intros a Ha. by apply Hf.
  - intros d' res (a & Ha & Hr)%bind_Ret_inv. by apply (Hf a Ha).
Qed.

Lemma handler_input d r i :
  safe d -> d.(Driver.pending_inputs) = [] -> new_round_ok d i -> sane (r, i) ->
  handler_safe (Process.apply_input d r i).
Proof using laws Htotal Hfits.
  intros Hd Hp Hnew Hi. split; [by apply apply_input_np|]. intros d' res Ha%apply_input_applies. split_and!.
  - by eapply applies_safe.
  - inversion Ha; subst; cbn; rewrite ?Hp; [by apply Forall_nil..|by eapply multiplex_step_change_good].
  - intros o ->. by eapply applies_vote_height.
Qed.

(** *** Proposals *)

Lemma store_proposal_np (k : ProposalKeeper.t) sp v :
  (forall pv, pv ∈ ProposalKeeper.get_proposals_and_validities_for_round k (sp_round sp) ->
     sp_address pv.1 = sp_address sp) ->
  no_panic (ProposalKeeper.store_proposal k sp v).
Proof.
  unfold ProposalKeeper.store_proposal, ProposalKeeper.get_proposals_and_validities_for_round.
  set (l := default [] _). intros Hl.
  apply no_panic_bind; [|by intros [l' [[e c]|[]]] _; auto with malachite].
  unfold ProposalsPerRound.add. destruct (existsb _ _); [auto with malachite|].
  apply no_panic_bind.
  - destruct l as [|[first fv] l]; cbn; [auto with malachite|].
    rewrite bool_decide_eq_true_2; [apply no_panic_Ret|]. apply (Hl (first, fv)), list_elem_of_here.
  - intros _ _. case_bool_decide; [|auto with malachite]. destruct l as [|[first fv] l]; cbn; auto with malachite.
Qed.

Lemma store_proposal_get (k : ProposalKeeper.t) sp v k' r pv :
  ProposalKeeper.store_proposal k sp v = Ret k' ->
  pv ∈ ProposalKeeper.get_proposals_and_validities_for_round k' r ->
  pv ∈ ProposalKeeper.get_proposals_and_validities_for_round k r \/ pv = (sp, v) /\ r = sp_round sp.
Proof.
  unfold ProposalKeeper.store_proposal, ProposalKeeper.get_proposals_and_validities_for_round.
  intros H. inv_ret. destruct x as [l res].
  match goal with Ha : ProposalsPerRound.add _ _ _ = _ |- _ => apply add_inv in Ha as Hl end.
  assert (Hk' : k'.(ProposalKeeper.per_round) = <[sp_round sp := l]> k.(ProposalKeeper.per_round))
    by (by destruct res as [[]|[]]; inv_ret).
  rewrite Hk', lookup_insert. case_decide as Hr; [|by left]. subst r. cbn.
  destruct Hl as [(_ & -> & _)|(_ & -> & _)]; [by left|]. intros [Hin| ->]%elem_snoc; [by left|by right].
Qed.

Lemma store_safe d sp v k :
  safe d -> sp_height sp = h -> sp_address sp = proposer_of (sp_round sp) ->
  ProposalKeeper.store_proposal d.(Driver.proposal_keeper) sp v = Ret k ->
  safe (Driver.set_proposal_keeper d k).
Proof.
  intros Hd Hh Ha Hk. split; [|intros r pv Hin|apply Hd].
  - split; [apply Hd|by eapply store_proposal_ok; [apply Hd|]].
  - destruct (store_proposal_get _ _ _ _ _ _ Hk Hin) as [Hold|[-> ->]]; [by apply (safe_proposals _ Hd)|done].
Qed.

Lemma apply_proposal_safe d sp v :
  safe d -> d.(Driver.pending_inputs) = [] ->
  sp_height sp = h -> sp_address sp = proposer_of (sp_round sp) ->
  handler_safe (Process.apply_proposal d sp v).
Proof using laws Htotal Hfits.
  intros Hd Hp Hh Ha. unfold Process.apply_proposal, Mux.store_and_multiplex_proposal.
  case_bool_decide as Hheight; cbn [negb]; [|by apply handler_stop].
  apply handler_bind.
  - apply no_panic_bind; [by apply no_panic_assert|intros _ _].
    apply no_panic_bind; [|intros k Hk; apply no_panic_bind_Ret].
    + apply store_proposal_np. intros pv Hpv. rewrite Ha. by apply (safe_proposals _ Hd) in Hpv as [_ ?].
    + apply multiplex_proposal_np; [|done]. by eapply store_safe.
  - intros [d1 oi] H. inv_ret. simplify_eq.
    match goal with Hk : ProposalKeeper.store_proposal _ _ _ = _ |- _ =>
      pose proof (store_safe _ _ _ _ Hd Hh Ha Hk) as Hd1 end.
    match goal with Hm : Mux.multiplex_proposal _ _ _ = Ret ?o |- _ => destruct o as [i|] end;
      [|by apply handler_stop].
    apply handler_input; [done|done| |].
    + by eapply calm_new_round_ok, multiplex_proposal_calm.
    + by eapply multiplex_proposal_sane.
Qed.

(** *** Votes *)

Lemma safe_core d d' : safe d -> same_stores d d' -> same_core d d' -> safe d'.
Proof.
  intros Hd Hst Hc. apply (safe_stores d); [done..|]. unfold Driver.height.
  rewrite (core_state _ _ Hc). apply Hd.
Qed.

Lemma apply_vote_total d vote r :
  safe d -> exists vk out,
    VoteKeeper.apply_vote d.(Driver.vote_keeper) vote r = Ret (vk, out) /\
    safe (Driver.set_vote_keeper d vk) /\
    is_Some (VoteKeeper.get_round vk (sv_round vote)) /\
    (forall r', out = Some (VKOutput.SkipRound r') -> r' = sv_round vote).
Proof using laws Htotal Hfits.
  intros Hd. pose proof (ok_votes _ _ _ (safe_ok _ Hd)) as Hreach.
  destruct (reachable_ok vs params total Htotal Hfits _ Hreach) as [Hok Hp].
  destruct (apply_vote_refines vs total Htotal _ vote r Hok) as (vk & out & Happ & Hr); [by rewrite Hp|].
  exists vk, out. split_and!; [done| | |].
  - split; [|apply Hd|apply Hd]. split; [by eapply reachable_apply|apply Hd].
  - revert Happ. unfold VoteKeeper.apply_vote, VoteKeeper.report, VoteKeeper.get_round. intros Happ.
    repeat (inv_ret; case_match; simplify_eq); inv_ret; simplify_eq; cbn;
      rewrite ?lookup_insert_eq; eauto.
  - intros r' ->. pose proof (refines_step _ _ _ _ _ _ _ Hr) as Hstep.
    destruct (spec_apply _ _ _ _ _ _) as [t v] eqn:Hspec. destruct Hstep as (_ & Hv & _).
    symmetry in Hv. by apply (spec_apply_justified _ _ _ _ _ _ _ _ _ Hspec) in Hv as [-> _].
Qed.

Lemma store_certificates_np d r r' o :
  is_Some (VoteKeeper.get_round d.(Driver.vote_keeper) r') -> has_next r' ->
  (forall r'', o = VKOutput.SkipRound r'' -> r'' = r') ->
  no_panic (Process.store_certificates d r r' o).
Proof.
  intros [pr Hpr] Hnext Hskip. unfold Process.store_certificates.
  destruct o; try auto with malachite.
  - case_bool_decide; [|auto with malachite]. unfold Process.store_precommit_any_round_certificate.
    rewrite Hpr. apply no_panic_bind; [done|]. intros ? _. auto with malachite.
  - rewrite (Hskip _ eq_refl). unfold Process.store_skip_round_certificate. rewrite Hpr. auto with malachite.
Qed.

Lemma apply_vote_safe d vote :
  safe d -> d.(Driver.pending_inputs) = [] -> has_next (sv_round vote) ->
  handler_safe (Process.apply_vote d vote).
Proof using laws Htotal Hfits.
  intros Hd Hp Hnext. unfold Process.apply_vote.
  destruct (negb _); [by apply handler_stop|].
  destruct (get_by_address _ _); [|by apply handler_stop].
  destruct (apply_vote_total d vote (Driver.round d) Hd) as (vk & out & -> & Hd1 & Hround & Hskip). cbn.
  destruct out as [o|]; [|by apply handler_stop].
  apply handler_bind; [apply store_certificates_np; [done|done|naive_solver]|]. intros d2 Hst.
  assert (Hd2 : safe d2).
  { eapply safe_core; [exact Hd1|by eapply store_certificates_stores|by eapply store_certificates_core]. }
  apply store_certificates_core, core_pending in Hst. cbn in Hst. rewrite Hp in Hst.
  pose proof (multiplex_vote_threshold_sane d2 o (sv_round vote)) as Hsane.
  pose proof (multiplex_vote_threshold_not_new_round d2 o (sv_round vote)) as Hnr.
  destruct (Mux.multiplex_vote_threshold _ _ _) as [r i].
  destruct (bool_decide _); [by apply handler_stop|].
  apply handler_input; [done|done| |done]. intros [r' ->]. by destruct (Hnr r').
Qed.

(** *** Certificates and the rest *)

Lemma apply_commit_certificate_safe d c :
  safe d -> d.(Driver.pending_inputs) = [] -> handler_safe (Process.apply_commit_certificate d c).
Proof using laws Htotal Hfits.
  intros Hd Hp. unfold Process.apply_commit_certificate, Mux.store_and_multiplex_commit_certificate.
  case_bool_decide as Hh; cbn [negb]; [|by apply handler_stop]. cbn.
  set (dc := Driver.set_commit_certificates d _).
  assert (Hdc : safe dc) by (split; [split; apply Hd|apply Hd..]).
  assert (Hpc : dc.(Driver.pending_inputs) = []) by done. clearbody dc.
  destruct (Driver.proposal_and_validity_for_round_and_value _ _ _) as [[sp v]|]; cbn; [|by apply handler_stop].
  destruct (Validity.is_valid v); cbn; [|by apply handler_stop].
  apply handler_input; [done|done| |done]. by intros [r' ?].
Qed.

Lemma store_polka_good d c d' oi :
  Mux.store_and_multiplex_polka_certificate d c = Ret (d', oi) ->
  forall r i, oi = Some (r, i) -> good (r, i).
Proof.
  unfold Mux.store_and_multiplex_polka_certificate. intros H. inv_ret.
  repeat (case_match; inv_ret; simplify_eq); intros r i [= <- <-]; by split.
Qed.

Lemma apply_polka_certificate_safe d c :
  safe d -> d.(Driver.pending_inputs) = [] -> handler_safe (Process.apply_polka_certificate d c).
Proof using laws Htotal Hfits.
  intros Hd Hp. unfold Process.apply_polka_certificate.
  case_bool_decide as Hh; cbn [negb]; [|by apply handler_stop].
  apply handler_bind.
  - unfold Mux.store_and_multiplex_polka_certificate. apply no_panic_bind.
    + apply no_panic_assert. by apply bool_decide_eq_true.
    + intros _ _. repeat case_match; auto with malachite.
  - intros [d1 oi] H. destruct (store_polka_stores _ _ _ _ H) as [Hst _].
    destruct (store_polka_core _ _ _ _ H) as [Hcore _]. pose proof (core_pending _ _ Hcore) as Hp1.
    pose proof (safe_core _ _ Hd Hst Hcore) as Hd1.
    destruct oi as [[r i]|]; [|apply handler_stop; [done|congruence|done]].
    destruct (store_polka_good _ _ _ _ H r i eq_refl) as [Hc Hs].
    apply handler_input; [done|congruence|by apply calm_new_round_ok|done].
Qed.

Lemma enter_round_safe d r a : safe d -> safe (enter_round d h r a).
Proof.
  intros Hd. apply (safe_stores d); [done| |]; unfold enter_round; case_bool_decide; done.
Qed.

Lemma apply_safe d msg :
  safe d -> d.(Driver.pending_inputs) = [] -> contract (Receive msg) ->
  handler_safe (Process.apply d msg).
Proof using laws Htotal Hfits.
  intros Hd Hp Hmsg. destruct msg as [h' r p|r v|sp v|vote|c|c|t]; cbn in Hmsg |- *.
  - subst h'. apply (handler_input (enter_round d h r p)); [by apply enter_round_safe| |intros _|done];
      unfold enter_round; by case_bool_decide.
  - apply handler_input; [done|done| |done]. by intros [r' ?].
  - apply apply_proposal_safe; tauto.
  - by apply apply_vote_safe.
  - by apply apply_commit_certificate_safe.
  - by apply apply_polka_certificate_safe.
  - unfold Process.apply_timeout. destruct (RoundTimeout.kind t); [..|by apply handler_stop];
      (apply handler_input; [done|done| |done]); by intros [r' ?].
Qed.

(** [process] returns, and leaves a safe driver. *)
Lemma process_safe d msg :
  safe d -> d.(Driver.pending_inputs) = [] -> contract (Receive msg) ->
  no_panic (Process.process d msg) /\
  forall d' res, Process.process d msg = Ret (d', res) -> safe d'.
Proof using laws Htotal Hfits.
  intros Hd Hp Hmsg. destruct (apply_safe d msg Hd Hp Hmsg) as [Hnp Hpost]. unfold Process.process. split.
  - apply no_panic_bind; [exact Hnp|]. intros [d1 [e|[o|]]] Ha; try auto with malachite.
    destruct (Hpost _ _ Ha) as (Hd1 & Hq1 & Ho). apply no_panic_bind; [by apply lift_output_np, Ho|].
    intros [d2 outs] Hl. apply drain_np; [by eapply lift_output_safe|].
    by apply lift_output_frame in Hl as (-> & _).
  - intros d' res H. inv_ret. destruct x as [d1 res1].
    match goal with Ha : Process.apply _ _ = _ |- _ => destruct (Hpost _ _ Ha) as (Hd1 & Hq1 & _) end.
    destruct res1 as [e|[o|]]; [by simplify_eq| |by simplify_eq].
    inv_ret. destruct x as [d2 outs].
    match goal with Hl : Process.lift_output _ _ _ = _ |- _ =>
      pose proof (lift_output_safe _ _ _ _ _ Hd1 Hl) as Hd2; apply lift_output_frame in Hl as (Hq2 & _) end.
    destruct (drain_np Process.drain_fuel d2 outs Hd2) as [_ Hdr]; [by rewrite Hq2|by eapply Hdr].
Qed.

Lemma run_safe d events :
  safe d -> d.(Driver.pending_inputs) = [] -> Forall contract events -> no_panic (run d events).
Proof using laws Htotal Hfits.
  revert d. induction events as [|[msg|r] events IH]; cbn; intros d Hd Hp Hok; [auto with malachite|..];
    apply Forall_cons in Hok as [Hmsg Hok].
  - destruct (process_safe d msg Hd Hp Hmsg) as [Hnp Hpost]. apply no_panic_bind; [done|].
    intros [d1 res] H. apply no_panic_bind; [|intros [d2 rest] _; auto with malachite].
    apply IH; [by eapply Hpost|by eapply process_pending|done].
  - apply IH; [|done|done]. split; [|apply Hd|apply Hd].
    split; [apply reachable_prune|]; apply Hd.
Qed.

End panics.

Section claims.
Context {Ctx : Context} {laws : ContextLaws}.

(** C6: a driver whose caller keeps the contract never panics: none of the
    assertions, [expect]s, [panic!]s and checked additions of the driver, the
    multiplexer, the state machine and the keepers fails, in any sequence of
    inputs and prunings at a height. *)
Theorem driver_never_panics (h : Height) (vs : ValidatorSet) (a : Address)
  (params : ThresholdParams.t) (total : N) (proposer_of : Round.t -> Address) (events : list event)
  (Htotal : total_voting_power vs = Ret total) (Hfits : ThresholdParams.fits params total)
  (Hok : Forall (contract h proposer_of) events) :
  exists d outs, run (Driver.new h vs a params) events = Ret (d, outs).
Proof.
  destruct (run_safe h vs params total Htotal Hfits proposer_of (Driver.new h vs a params) events)
    as [[d outs] Hrun]; [apply safe_new|done|done|eauto].
Qed.

End claims.

(** ** A witness *)
Section example.
#[local] Existing Instance N_context.

Lemma driver_never_panics_witness :
  exists d outs, run (new_driver 2) (deciding_all ++ later_events ++ [Prune (Round.Some 1)]) = Ret (d, outs).
Proof.
  refine (driver_never_panics (laws := N_context_laws) SnHeight.INITIAL four_validators (addr 2)
    ThresholdParams.default 4 (fun r => if bool_decide (r = Round.Some 0) then addr 1 else addr 2)
    (deciding_all ++ later_events ++ [Prune (Round.Some 1)]) _ _ _).
  - vm_refl.
  - apply ThresholdParams.default_fits. vm_compute. discriminate.
  - repeat constructor; by eexists.
Defined.

End example.
