(* ===== verification/DriverHeight.v ===== *)
(** * A driver within a height

    What a caller that drives one height may rely on: once a round has been
    started with a known proposer, the driver stays at its height, in a defined
    round, with a known proposer; the rounds it announces are rounds of that
    height and the votes it casts carry its address; the votes it counts are
    votes it was given. *)

From S2P Require Import Prelude Types Context Starknet StateMachine VoteKeeper ProposalKeeper Driver DriverFacts DriverVotes DriverDecisions.

Section height.
Context {Ctx : Context} {laws : ContextLaws}.
Context (h : Height) (vs : ValidatorSet) (a : Address).
Implicit Types (d : Driver.t) (outs : list DriverOutput.t) (s : State.t) (r : Round.t).

(** A driver of the height, whose round may not have started. *)
Record at_rest d : Prop := {
  rest_height : Driver.height d = h;
  rest_validators : d.(Driver.validator_set) = vs;
  rest_address : d.(Driver.address) = a;
  rest_pending : d.(Driver.pending_inputs) = [];
}.

(** A round of the height has started. *)
Record started d : Prop := {
  started_height : Driver.height d = h;
  started_validators : d.(Driver.validator_set) = vs;
  started_address : d.(Driver.address) = a;
  started_proposer : has_proposer d;
  started_round : Round.is_defined (Driver.round d) = true;
}.

(** The caller announces rounds of the height, with a validator as proposer. *)
Definition proper_input (msg : DriverInput.t) : Prop :=
  match msg with
  | DriverInput.NewRound h' r p => h' = h /\ Round.is_defined r = true /\ is_Some (get_by_address vs p)
  | _ => True
  end.

Definition is_new_round (msg : DriverInput.t) : bool :=
  match msg with DriverInput.NewRound _ _ _ => true | _ => false end.

(** The rounds the driver asks its caller to start, and the votes. *)
Definition proper_output (o : DriverOutput.t) : Prop :=
  match o with
  | DriverOutput.NewRound h' r => h' = h /\ Round.is_defined r = true
  | DriverOutput.Vote w => vote_address w = a
  | _ => True
  end.

(** The same of the state machine's output. *)
Definition proper_step (o : option Output.t) : Prop :=
  match o with
  | Some (Output.NewRound r) => Round.is_defined r = true
  | Some (Output.Vote w) => vote_address w = a
  | _ => True
  end.

Lemma started_core d d' : same_core d d' -> started d -> started d'.
Proof.
  intros Hc [Hh Hv Ha (p & v & Hp & Hpv) Hr]. unfold Driver.height, Driver.round in *.
  split; unfold Driver.height, Driver.round;
    rewrite ?(core_state _ _ Hc), ?(core_validators _ _ Hc), ?(core_address _ _ Hc); try done.
  exists p, v. by rewrite (core_proposer _ _ Hc), (core_validators _ _ Hc).
Qed.

(** ** Steps *)

Lemma rule_proper s info i s' o :
  rule s info i s' o -> info.(Info.address) = a -> Round.is_defined s.(State.round) = true ->
  (forall r, i = Input.NewRound r -> Round.is_defined r = true) ->
  Round.is_defined s'.(State.round) = true /\ proper_step o.
Proof using laws.
  intros Hrule Ha Hs Hi.
  assert (Hquiet : forall o, quiet_output o -> proper_step o) by (by intros [[]|]).
  destruct Hrule as [o Hq|r o _ -> Hq _|v _ _ _|_ _|p _ _ _| |r _ Hlt _|]; cbn; eauto.
  - split; [done|]. rewrite <- Ha. apply new_prevote_spec.
  - split; [done|]. rewrite <- Ha. apply new_precommit_spec.
  - split; [done|]. rewrite <- Ha. apply new_precommit_spec.
  - split; [|]; apply Round.is_defined_le; apply Round.is_defined_le in Hs; unfold Round.lt in Hlt; lia.
Qed.

Lemma applies_started d r i d' res :
  applies d r i d' res -> started d -> (forall r', i = Input.NewRound r' -> Round.is_defined r' = true) ->
  started d' /\ exists o, res = inr o /\ proper_step o.
Proof using laws.
  intros Happ [Hh Hv Ha Hp Hr] Hi.
  assert (Hrun : forall info s o d', rule d.(Driver.round_state) info i s o ->
    info.(Info.address) = d.(Driver.address) ->
    d'.(Driver.round_state) = s -> d'.(Driver.proposer) = d.(Driver.proposer) ->
    d'.(Driver.validator_set) = d.(Driver.validator_set) ->
    d'.(Driver.address) = d.(Driver.address) -> started d' /\
    exists o', (inr o : DriverError.t + option Output.t) = inr o' /\ proper_step o').
  { intros info s o d0 Hrule Hia Hs Hpr Hvs Had.
    destruct (rule_proper _ _ _ _ _ Hrule (eq_trans Hia Ha) Hr Hi) as [Hr' Ho].
    split; [|by exists o]. split; unfold Driver.height, Driver.round, has_proposer in *.
    - by rewrite Hs, (rule_height _ _ _ _ _ Hrule).
    - congruence.
    - congruence.
    - by rewrite Hpr, Hvs.
    - by rewrite Hs. }
  destruct Happ as [e _ Hnp|info s o _ _ Hia Hrule _|info s o pend _ _ Hia Hrule _ _]; [done|by eapply Hrun..].
Qed.

Lemma lift_opt_proper d o outs d' outs' :
  Driver.height d = h -> lift_opt d o outs = Ret (d', outs') -> proper_step o ->
  Forall proper_output outs -> Forall proper_output outs'.
Proof.
  unfold lift_opt, Process.lift_output, Process.lift_vote_output. intros Hh H Ho Hout.
  repeat (case_match; inv_ret; simplify_eq); try done;
    apply Forall_app; split; try done; repeat constructor; done.
Qed.

Definition announces d outs : Prop := started d /\ Forall proper_output outs.

Lemma lift_opt_address d o outs d' outs' :
  lift_opt d o outs = Ret (d', outs') -> d'.(Driver.address) = d.(Driver.address).
Proof.
  unfold lift_opt, Process.lift_output, Process.lift_vote_output, Process.set_last_vote_cast. intros H.
  by repeat (case_match; inv_ret; simplify_eq).
Qed.

Lemma applies_announces d r i d1 o outs d2 outs2 :
  announces d outs -> (forall r', i = Input.NewRound r' -> Round.is_defined r' = true) ->
  applies d r i d1 (inr o) -> lift_opt d1 o outs = Ret (d2, outs2) -> announces d2 outs2.
Proof using laws.
  intros [Hd Hout] Hi Ha Hl. destruct (applies_started _ _ _ _ _ Ha Hd Hi) as (Hd1 & o' & [= <-] & Ho).
  destruct (lift_opt_frame _ _ _ _ _ Hl) as (_ & Hs & Hp & Hv). split.
  - pose proof (lift_opt_address _ _ _ _ _ Hl) as Had.
    destruct Hd1 as [? ? ? Hp1 ?]. unfold Driver.height, Driver.round in *.
    split; unfold Driver.height, Driver.round; rewrite ?Hs, ?Hv, ?Had; try done.
    unfold has_proposer in *. by rewrite Hp, Hv.
  - eapply lift_opt_proper; [apply Hd1|done..].
Qed.

(** The inputs after the first are calm. *)
Lemma announces_step d outs ri :
  has_proposer d -> announces d outs -> calm ri.2 -> step_keeps announces (fun _ ri => calm ri.2) d outs ri.
Proof.
  intros Hp Hd Hc d1 o d2 outs2 Ha Hl. split_and!; [|done|].
  - eapply applies_announces; [done| |done..]. intros r' Heq. by rewrite Heq in Hc.
  - destruct (lift_opt_frame _ _ _ _ _ Hl) as (Hq & _). rewrite Hq.
    inversion Ha; subst; [by left|right]. by eapply multiplex_step_change_calm.
Qed.

Lemma enter_round_started d r p :
  at_rest d -> Round.is_defined r = true -> is_Some (get_by_address vs p) ->
  started (enter_round d h r p) /\ (enter_round d h r p).(Driver.pending_inputs) = [].
Proof.
  intros [Hh Hv Ha Hq] Hr [v Hp]. unfold enter_round. rewrite bool_decide_eq_true_2 by done.
  split; [|done]. split; try done. exists p, v. cbn. by rewrite Hv.
Qed.

(** The driver a handler hands to [apply_input]. *)
Lemma apply_new_round d h' r p d' res :
  Process.apply d (DriverInput.NewRound h' r p) = Ret (d', res) ->
  applies (enter_round d h' r p) r (Input.NewRound r) d' res.
Proof. apply apply_input_applies. Qed.

(** What is left of [process] after the first step. *)
Definition ready d1 (res : DriverError.t + option Output.t) : Prop :=
  match res with
  | inr (Some o) => forall d2 outs, Process.lift_output d1 o [] = Ret (d2, outs) ->
      announces d2 outs /\ calm_batch d2.(Driver.pending_inputs)
  | _ => started d1
  end.

Lemma applies_ready d r i d1 res :
  started d -> d.(Driver.pending_inputs) = [] ->
  (forall r', i = Input.NewRound r' -> Round.is_defined r' = true) -> applies d r i d1 res -> ready d1 res.
Proof.
  intros Hd Hq Hi Ha. destruct (applies_started _ _ _ _ _ Ha Hd Hi) as (Hd1 & o & -> & _).
  destruct o as [o|]; [|done]. intros d2 outs Hl. split.
  - eapply (applies_announces d r i d1 (Some o) []); [|done..]. by split; [|apply Forall_nil].
  - apply lift_output_frame in Hl as (-> & _).
    inversion Ha; subst; cbn; [rewrite Hq; by apply Forall_nil|by eapply multiplex_step_change_calm].
Qed.

Lemma apply_ready d msg d1 res :
  at_rest d -> (started d \/ is_new_round msg = true) -> proper_input msg ->
  Process.apply d msg = Ret (d1, res) -> ready d1 res.
Proof.
  intros Hrest Hst Hmsg H. destruct (is_new_round msg) eqn:Hn.
  - destruct msg as [h' r p| | | | | |]; try done. destruct Hmsg as (-> & Hr & Hp).
    destruct (enter_round_started d r p Hrest Hr Hp) as [Hd0 Hq].
    eapply applies_ready; [done|done| |by apply apply_new_round]. by intros ? [= <-].
  - destruct Hst as [Hst|]; [|done]. apply apply_handled in H.
    destruct H as [msg d1 res Hc Hres|msg d0 r i d1 res Hc Hnew Ha|h' r p d1 res Ha]; [| |done].
    + pose proof (started_core _ _ Hc Hst). destruct res as [e|[o|]]; [done|by destruct (Hres o)|done].
    + eapply applies_ready; [by eapply started_core| | |done].
      * rewrite (core_pending _ _ Hc). apply Hrest.
      * intros r' ->. by destruct (Hnew r').
Qed.

(** Once a round has started, [process] keeps the height, and asks for rounds of
    it only. *)
Lemma process_started d msg d' res :
  at_rest d -> (started d \/ is_new_round msg = true) -> proper_input msg ->
  Process.process d msg = Ret (d', res) ->
  started d' /\ forall outs, res = inr outs -> Forall proper_output outs.
Proof.
  intros Hrest Hst Hmsg H.
  assert (match res with inl _ => started d' | inr outs => announces d' outs end) as Hres.
  { eapply (process_keeps announces (fun _ ri => calm ri.2) announces_step) with (E := started);
      [| |exact H|apply Hrest|..].
    - intros d0 outs [[] ?]. by split.
    - done.
    - intros d1 e Ha. by apply (apply_ready _ _ _ _ Hrest Hst Hmsg Ha).
    - intros d1 Ha. split; [by apply (apply_ready _ _ _ _ Hrest Hst Hmsg Ha)|by apply Forall_nil].
    - intros d1 o Ha. split; [by eapply handled_proposer, apply_handled|].
      apply (apply_ready _ _ _ _ Hrest Hst Hmsg Ha). }
  destruct res as [e|outs]; [done|]. destruct Hres as [? Hout]. by split; [|intros ? [= <-]].
Qed.

Lemma process_at_rest d msg d' res :
  at_rest d -> (started d \/ is_new_round msg = true) -> proper_input msg ->
  Process.process d msg = Ret (d', res) -> at_rest d'.
Proof.
  intros Hrest Hst Hmsg H. destruct (process_started _ _ _ _ Hrest Hst Hmsg H) as [[] _].
  split; [done..|]. eapply process_pending; [apply Hrest|done].
Qed.

End height.

(** ** The votes a driver counts *)

Section received.
Context {Ctx : Context}.
Implicit Types (d : Driver.t) (k : VoteKeeper.t) (v : SignedVote).

(** [v] is among the votes received, in any round. *)
Definition received k v : Prop :=
  exists r pr, k.(VoteKeeper.per_round) !! r = Some pr /\ v ∈ pr.(PerRound.received_votes).

Lemma has_vote_received k v : VoteKeeper.has_vote k v = true -> received k v.
Proof.
  unfold VoteKeeper.has_vote. destruct (_ !! _) as [pr|] eqn:Hr; [|done].
  intros Hv%bool_decide_eq_true. by exists (sv_round v), pr.
Qed.

Lemma add_received pr vote w pr' result v :
  PerRound.add pr vote w = Ret (pr', result) -> v ∈ pr'.(PerRound.received_votes) ->
  v ∈ pr.(PerRound.received_votes) \/ v = vote.
Proof.
  unfold PerRound.add. intros H Hv. repeat (case_match; inv_ret; simplify_eq; auto);
    cbn in Hv; rewrite elem_of_app, list_elem_of_singleton in Hv; tauto.
Qed.

Lemma report_round k pr vote r total k' o :
  VoteKeeper.report k pr vote r total = Ret (k', o) ->
  exists pr', k' = VoteKeeper.set_round k (sv_round vote) pr' /\
    pr'.(PerRound.received_votes) = pr.(PerRound.received_votes).
Proof.
  unfold VoteKeeper.report. intros H. inv_ret.
  repeat (case_match; inv_ret; simplify_eq); by eexists.
Qed.

Lemma apply_vote_received k vote r k' o v :
  VoteKeeper.apply_vote k vote r = Ret (k', o) -> received k' v -> received k v \/ v = vote.
Proof.
  intros H (r' & pr & Hr & Hv). set (old := default PerRound.new (k.(VoteKeeper.per_round) !! sv_round vote)).
  assert (Hold : v ∈ old.(PerRound.received_votes) -> received k v).
  { subst old. destruct (_ !! sv_round vote) as [pr0|] eqn:Hpr; [|by intros ?%not_elem_of_nil]. by exists (sv_round vote), pr0. }
  assert (Hcase : forall p, k'.(VoteKeeper.per_round) = <[sv_round vote := p]> k.(VoteKeeper.per_round) ->
    (v ∈ p.(PerRound.received_votes) -> received k v \/ v = vote) -> received k v \/ v = vote).
  { intros p Hk Hp. rewrite Hk in Hr. apply lookup_insert_Some in Hr as [[_ ->]|[_ Hr]]; [by apply Hp|].
    left. by exists r', pr. }
  unfold VoteKeeper.apply_vote in H. fold old in H. inv_ret. case_match; inv_ret.
  - destruct x0 as [p result].
    match goal with Ha : PerRound.add _ _ _ = _ |- _ => pose proof (add_received _ _ _ _ _ v Ha) as Hadd end.
    assert (Hin : v ∈ p.(PerRound.received_votes) -> received k v \/ v = vote) by (intros [?|?]%Hadd; auto).
    destruct result as [[e c]|[]].
    + simplify_eq. apply (Hcase old); [done|]. auto.
    + apply report_round in H as (p' & -> & Hp'). apply (Hcase p'); [apply insert_insert_eq|]. by rewrite Hp'.
  - simplify_eq. apply (Hcase old); [done|]. auto.
Qed.

Lemma prune_received k r v : received (VoteKeeper.prune_votes k r) v -> received k v.
Proof. intros (r' & pr & [Hr _]%map_lookup_filter_Some & Hv). by exists r', pr. Qed.

(** A handler changes the vote keeper for a vote only. *)
Lemma apply_received d msg d' res v :
  Process.apply d msg = Ret (d', res) -> received d'.(Driver.vote_keeper) v ->
  received d.(Driver.vote_keeper) v \/ msg = DriverInput.Vote v.
Proof.
  destruct msg as [h r p|r w|sp w|vote|c|c|t]; cbn; intros H Hv.
  - left. apply apply_input_applies, applies_stores, stores_votes in H. rewrite H in Hv.
    by case_bool_decide.
  - left. apply apply_input_applies, applies_stores, stores_votes in H. by rewrite H in Hv.
  - left. unfold Process.apply_proposal, Mux.store_and_multiplex_proposal in H.
    repeat (case_match; inv_ret; simplify_eq; try done);
      by apply apply_input_applies, applies_stores, stores_votes in H; rewrite H in Hv.
  - unfold Process.apply_vote in H.
    case_match; [simplify_eq; by left|]. case_match; [|simplify_eq; by left].
    inv_ret. destruct x as [k o].
    match goal with Ha : VoteKeeper.apply_vote _ _ _ = _ |- _ => rename Ha into Hk end.
    assert (Hkv : received k v -> received d.(Driver.vote_keeper) v \/ DriverInput.Vote vote = DriverInput.Vote v).
    { intros [?| ->]%(apply_vote_received _ _ _ _ _ _ Hk); auto. }
    apply Hkv. destruct o as [o|]; [|by simplify_eq]. inv_ret.
    match goal with Ha : Process.store_certificates _ _ _ _ = _ |- _ =>
      apply store_certificates_stores, stores_votes in Ha; rename Ha into Hst end.
    destruct (Mux.multiplex_vote_threshold _ _ _) as [r i]. cbn in Hst. rewrite <- Hst.
    case_bool_decide; [by simplify_eq|].
    apply apply_input_applies, applies_stores, stores_votes in H. by rewrite H in Hv.
  - left. unfold Process.apply_commit_certificate, Mux.store_and_multiplex_commit_certificate in H.
    repeat (case_match; inv_ret; simplify_eq; try done);
      by apply apply_input_applies, applies_stores, stores_votes in H; rewrite H in Hv.
  - left. unfold Process.apply_polka_certificate in H. case_match; [by simplify_eq|].
    inv_ret. destruct x as [d1 oi].
    match goal with Ha : Mux.store_and_multiplex_polka_certificate _ _ = _ |- _ =>
      apply store_polka_stores in Ha as [Hst%stores_votes _] end.
    rewrite <- Hst. destruct oi as [[r i]|]; [|by simplify_eq].
    apply apply_input_applies, applies_stores, stores_votes in H. by rewrite H in Hv.
  - left. unfold Process.apply_timeout in H. destruct (RoundTimeout.kind t);
      [apply apply_input_applies, applies_stores, stores_votes in H; by rewrite H in Hv..|by simplify_eq].
Qed.

(** What is applied later leaves the stores alone. *)
Lemma apply_pending_stores d batch outs d' res :
  Process.apply_pending d batch outs = Ret (d', res) -> same_stores d d'.
Proof.
  revert d outs. induction batch as [|[r i] batch IH]; cbn; intros d outs H; [simplify_eq; apply same_stores_refl|].
  inv_ret. destruct x as [d1 res1].
  match goal with Ha : Process.apply_input _ _ _ = _ |- _ => apply apply_input_applies, applies_stores in Ha as Hst end.
  destruct res1 as [e|[o|]]; [by simplify_eq| |eapply same_stores_trans; [exact Hst|]; by eapply IH].
  inv_ret. destruct x as [d2 outs2].
  match goal with Ha : Process.lift_output _ _ _ = _ |- _ => apply lift_output_stores in Ha as Hst2 end.
  eapply same_stores_trans; [exact Hst|]. eapply same_stores_trans; [exact Hst2|]. by eapply IH.
Qed.

Lemma drain_stores fuel d outs d' res :
  Process.drain fuel d outs = Ret (d', res) -> same_stores d d'.
Proof.
  revert d outs. induction fuel as [|fuel IH]; intros d outs H; cbn [Process.drain] in H; [simplify_eq; apply same_stores_refl|].
  destruct (Driver.pending_inputs d); [simplify_eq; apply same_stores_refl|]. inv_ret. destruct x as [d1 res1].
  match goal with Ha : Process.apply_pending _ _ _ = _ |- _ => apply apply_pending_stores in Ha as Hst end.
  assert (same_stores d d1) as Hst' by (by destruct Hst).
  destruct res1; [by simplify_eq|]. eapply same_stores_trans; [exact Hst'|]. by eapply IH.
Qed.

(** So [process] does to the stores what the handler of the message does. *)
Lemma process_stores d msg d' res :
  Process.process d msg = Ret (d', res) ->
  exists d1 res1, Process.apply d msg = Ret (d1, res1) /\ same_stores d1 d'.
Proof.
  intros H. unfold Process.process in H. inv_ret. destruct x as [d1 res1]. exists d1, res1. split; [done|].
  destruct res1 as [e|[o|]]; [simplify_eq; apply same_stores_refl| |simplify_eq; apply same_stores_refl].
  inv_ret. destruct x as [d2 outs].
  match goal with Ha : Process.lift_output _ _ _ = _ |- _ => apply lift_output_stores in Ha as Hst end.
  eapply same_stores_trans; [exact Hst|]. by eapply drain_stores.
Qed.

(** The vote keeper after [process] holds the votes of before and the vote
    received, if any. *)
Lemma process_received d msg d' res v :
  Process.process d msg = Ret (d', res) -> received d'.(Driver.vote_keeper) v ->
  received d.(Driver.vote_keeper) v \/ msg = DriverInput.Vote v.
Proof.
  intros (d1 & res1 & Happ & Hst%stores_votes)%process_stores Hv. rewrite Hst in Hv. by eapply apply_received.
Qed.

(** A handler adds a commit certificate only when it has received it, for its
    height. *)
Lemma apply_commits d msg d' res c :
  Process.apply d msg = Ret (d', res) -> c ∈ d'.(Driver.commit_certificates) ->
  c ∈ d.(Driver.commit_certificates) \/ c.(CommitCertificate.height) = Driver.height d.
Proof.
  destruct msg as [h r p|r w|sp w|vote|c'|c'|t]; cbn; intros H Hc.
  - left. apply apply_input_applies, applies_stores, stores_commits in H. rewrite H in Hc. by case_bool_decide.
  - left. apply apply_input_applies, applies_stores, stores_commits in H. by rewrite H in Hc.
  - left. unfold Process.apply_proposal, Mux.store_and_multiplex_proposal in H.
    repeat (case_match; inv_ret; simplify_eq; try done);
      by apply apply_input_applies, applies_stores, stores_commits in H; rewrite H in Hc.
  - left. unfold Process.apply_vote in H. case_match; [by simplify_eq|]. case_match; [|by simplify_eq].
    inv_ret. destruct x as [k o]. destruct o as [o|]; [|by simplify_eq]. inv_ret.
    match goal with Ha : Process.store_certificates _ _ _ _ = _ |- _ =>
      apply store_certificates_stores, stores_commits in Ha; rename Ha into Hst end.
    destruct (Mux.multiplex_vote_threshold _ _ _) as [r i]. cbn in Hst. rewrite <- Hst.
    case_bool_decide; [by simplify_eq|].
    apply apply_input_applies, applies_stores, stores_commits in H. by rewrite H in Hc.
  - unfold Process.apply_commit_certificate in H. case_match; [simplify_eq; by left|]. inv_ret. destruct x as [d1 oi].
    assert (Hd1 : d1.(Driver.commit_certificates) = d.(Driver.commit_certificates) ++ [c'] /\
      Driver.height d = c'.(CommitCertificate.height)).
    { match goal with Ha : Mux.store_and_multiplex_commit_certificate _ _ = _ |- _ =>
        unfold Mux.store_and_multiplex_commit_certificate in Ha end.
      inv_ret. repeat (case_match; simplify_eq); (split; [done|by eapply bool_decide_eq_true_1]). }
    destruct Hd1 as [Hd1 Hh]. assert (Hin : c ∈ d1.(Driver.commit_certificates)).
    { destruct oi as [i|]; [|by simplify_eq]. apply apply_input_applies, applies_stores, stores_commits in H. by rewrite H in Hc. }
    rewrite Hd1 in Hin. apply elem_snoc in Hin as [?| ->]; [by left|by right].
  - left. unfold Process.apply_polka_certificate in H. case_match; [by simplify_eq|].
    inv_ret. destruct x as [d1 oi].
    match goal with Ha : Mux.store_and_multiplex_polka_certificate _ _ = _ |- _ =>
      apply store_polka_stores in Ha as [Hst%stores_commits _] end.
    rewrite <- Hst. destruct oi as [[r i]|]; [|by simplify_eq].
    apply apply_input_applies, applies_stores, stores_commits in H. by rewrite H in Hc.
  - left. unfold Process.apply_timeout in H. destruct (RoundTimeout.kind t);
      [apply apply_input_applies, applies_stores, stores_commits in H; by rewrite H in Hc..|by simplify_eq].
Qed.

Lemma process_commits d msg d' res c :
  Process.process d msg = Ret (d', res) -> c ∈ d'.(Driver.commit_certificates) ->
  c ∈ d.(Driver.commit_certificates) \/ c.(CommitCertificate.height) = Driver.height d.
Proof.
  intros (d1 & res1 & Happ & Hst%stores_commits)%process_stores Hc. rewrite Hst in Hc. by eapply apply_commits.
Qed.

End received.

(** ** Runs of one height *)

Section runs.
Context {Ctx : Context} {laws : ContextLaws}.
Context (h : Height) (vs : ValidatorSet) (a : Address).
Implicit Types (d : Driver.t) (outs : list DriverOutput.t) (e : event).

Definition proper e : Prop :=
  match e with Receive msg => proper_input h vs msg | Prune _ => True end.

(** A driver that has just moved to the height. *)
Record fresh d : Prop := {
  fresh_rest : at_rest h vs a d;
  fresh_votes : d.(Driver.vote_keeper).(VoteKeeper.per_round) = ∅;
  fresh_commits : d.(Driver.commit_certificates) = [];
  fresh_prevote : d.(Driver.last_prevote) = None;
  fresh_precommit : d.(Driver.last_precommit) = None;
  fresh_step : Driver.step d = Step.Unstarted;
  fresh_decision : d.(Driver.round_state).(State.decision) = None;
}.

Lemma move_to_height_fresh d : d.(Driver.address) = a -> fresh (Driver.move_to_height d h vs).
Proof. intros Ha. by split; [split|..]. Qed.

(** The driver after a run, and one more event. *)
Lemma run_receive d0 events d outs msg d' res :
  run d0 events = Ret (d, outs) -> Process.process d msg = Ret (d', res) ->
  run d0 (events ++ [Receive msg]) = Ret (d', outs ++ match res with inr o => o | inl _ => [] end).
Proof.
  revert d0 outs. induction events as [|[msg'|r] events IH]; cbn; intros d0 outs H Hp.
  - simplify_eq. rewrite Hp. cbn. by rewrite app_nil_r.
  - inv_ret. destruct x as [d1 res1]. inv_ret. destruct x as [d2 rest]. simplify_eq.
    match goal with Hr : run d1 events = _, Hq : Process.process d0 _ = _ |- _ =>
      rewrite Hq; cbn; rewrite (IH _ _ Hr Hp) end. cbn. by rewrite app_assoc.
  - by apply IH.
Qed.

Lemma run_prune d0 events d outs r :
  run d0 events = Ret (d, outs) ->
  run d0 (events ++ [Prune r]) = Ret (Process.prune_votes_and_certificates d r, outs).
Proof.
  revert d0 outs. induction events as [|[msg'|r'] events IH]; cbn; intros d0 outs H.
  - by simplify_eq.
  - inv_ret. destruct x as [d1 res1]. inv_ret. destruct x as [d2 rest]. simplify_eq.
    by match goal with Hr : run d1 events = _, Hq : Process.process d0 _ = _ |- _ =>
      rewrite Hq; cbn; rewrite (IH _ _ Hr) end.
  - by apply IH.
Qed.

(** The votes counted after a run are votes received in it. *)
Lemma run_received d0 events d outs v :
  fresh d0 -> run d0 events = Ret (d, outs) -> received d.(Driver.vote_keeper) v ->
  Receive (DriverInput.Vote v) ∈ events.
Proof.
  intros Hf Hrun Hv.
  enough (received d0.(Driver.vote_keeper) v \/ Receive (DriverInput.Vote v) ∈ events) as [(r & pr & Hr & _)|?];
    [by rewrite (fresh_votes _ Hf), lookup_empty in Hr|done|].
  clear Hf. revert d0 outs Hrun. induction events as [|[msg|r] events IH]; cbn; intros d0 outs Hrun.
  - simplify_eq. by left.
  - inv_ret. destruct x as [d1 res]. inv_ret. destruct x as [d2 rest]. simplify_eq.
    match goal with Hr : run d1 events = _ |- _ => destruct (IH _ _ Hr) as [Hv1|Hin] end.
    + match goal with Hp : Process.process _ _ = _ |- _ => apply (process_received _ _ _ _ _ Hp) in Hv1 end.
      destruct Hv1 as [?| ->]; [by left|right; apply list_elem_of_here].
    + right. by apply list_elem_of_further.
  - destruct (IH _ _ Hrun) as [Hv1|Hin]; [left; by apply prune_received in Hv1|right; by apply list_elem_of_further].
Qed.

Lemma proper_at_height events : Forall proper events -> Forall (at_height h) events.
Proof. intros H. eapply Forall_impl; [exact H|]. intros [[]|]; cbn; tauto. Qed.

Lemma proper_known_proposer events : Forall proper events -> Forall (known_proposer h vs) events.
Proof. intros H. eapply Forall_impl; [exact H|]. intros [[]|]; cbn; tauto. Qed.

(** The votes of a run do not contradict each other. *)
Lemma run_votes_agree d0 events d outs :
  fresh d0 -> Forall proper events -> run d0 events = Ret (d, outs) ->
  (forall w, w ∈ votes_of outs -> vote_height w = h) /\
  forall w w', w ∈ votes_of outs -> w' ∈ votes_of outs -> vote_type w = vote_type w' ->
    vote_round w = vote_round w' -> w = w'.
Proof using laws.
  intros Hf Hok Hrun.
  assert (Hinv : vote_inv h [] d0).
  { destruct Hf as [[] ? ? Hpv Hpc Hst ?]. split; try (by intros ? ?%not_elem_of_nil).
    - by intros w w' ?%not_elem_of_nil.
    - intros [] prev; cbn; congruence.
    - done.
    - unfold calm_batch. by match goal with Hq : Driver.pending_inputs _ = [] |- _ => rewrite Hq end. }
  pose proof (at_height_heights h events (proper_at_height _ Hok)) as Hheights.
  destruct (run_vote_inv h [] d0 events d outs Hinv Hrun (at_height_ascending _ _ Hheights))
    as (h' & cast & Hd & Hsub & Hall).
  assert (Hh : forall w, w ∈ votes_of outs -> vote_height w = h).
  { intros w Hw. rewrite Forall_forall in Hall. rewrite Forall_forall in Hheights. apply Hsub, Hall, elem_of_cons in Hw as [?|?]; auto. }
  split; [done|]. intros w w' Hw Hw' ? ?. apply (vi_unique _ _ _ Hd); auto. rewrite !Hh; auto.
Qed.

(** A run decides at most once, and its driver remembers what. *)
Lemma run_decision d0 events d outs :
  fresh d0 -> Forall proper events -> run d0 events = Ret (d, outs) -> decision_state d outs.
Proof.
  intros Hf Hok Hrun.
  assert (Hinv : decided_inv h vs d0 []).
  { destruct Hf as [[] ? ? ? ? Hst ?]. split; [done|done|]. left. split_and!; [done|done|].
    unfold Driver.step in *. by rewrite Hst. }
  apply (run_decided h vs d0 events d [] outs Hinv) in Hrun;
    [apply Hrun|apply Hf|by apply proper_known_proposer].
Qed.

End runs.
