(* ===== verification/Cluster.v ===== *)
(** * A cluster of drivers

    Honest nodes that each run a driver, and Byzantine validators that may
    send anything in their own name. The messages of honest nodes are the
    outputs of their drivers; timeouts fire and messages arrive in any order.
    Rounds start with the proposer the context selects, as the engine does, and
    a proposal is accepted from that proposer only. *)

From S2P Require Import Prelude Types Context Starknet StateMachine VoteKeeper ProposalKeeper Driver.

Module Cluster.
Section cluster.
Context {Ctx : Context}.
Context (vs : ValidatorSet) (params : ThresholdParams.t) (byz : gset Address) (h : Height).

Record t : Type := mk {
  drivers : gmap Address Driver.t;
  sent : list DriverOutput.t;
}.

Definition init : t := mk ∅ [].

Definition driver_of (c : t) (a : Address) : Driver.t :=
  default (Driver.new h vs a params) (c.(drivers) !! a).

Definition is_proposer (r : Round.t) (a : Address) : bool :=
  match select_proposer vs h r with
  | Ret v => bool_decide (validator_address v = a)
  | Panic _ => false
  end.

(** May an honest node receive [msg]? *)
Definition authentic (c : t) (msg : DriverInput.t) : bool :=
  match msg with
  | DriverInput.NewRound h' r p => bool_decide (h' = h) && is_proposer r p
  | DriverInput.Proposal sp _ =>
      is_proposer (sp_round sp) (sp_address sp) &&
      (bool_decide (sp_address sp ∈ byz) ||
       bool_decide (DriverOutput.Propose sp.(SignedMessage.message) ∈ c.(sent)))
  | DriverInput.Vote sv =>
      bool_decide (sv_address sv ∈ byz) ||
      bool_decide (DriverOutput.Vote sv.(SignedMessage.message) ∈ c.(sent))
  | DriverInput.ProposeValue _ _ | DriverInput.TimeoutElapsed _ => true
  | DriverInput.CommitCertificate _ | DriverInput.PolkaCertificate _ => false
  end.

Definition step (c : t) (a : Address) (msg : DriverInput.t) : option t :=
  if bool_decide (a ∈ byz) then None
  else if negb (authentic c msg) then None
  else
    match Process.process (driver_of c a) msg with
    | Ret (d, inr outputs) => Some (mk (<[a := d]> c.(drivers)) (c.(sent) ++ outputs))
    | _ => None
    end.

Fixpoint run (c : t) (l : list (Address * DriverInput.t)) : option t :=
  match l with
  | [] => Some c
  | (a, msg) :: l => c' ← step c a msg; run c' l
  end.

Definition decided (c : t) (a : Address) : option (Round.t * Value) :=
  Driver.decided_value (driver_of c a).

End cluster.
End Cluster.

(** ** A run that breaks agreement

    Validator 1 of four proposes the value 7 in round 0 and, later, also 8.
    The other three prevote 7, see a polka for it, lock it and precommit it.
    Validator 4 sees their three precommits and decides 7. Validators 2 and 3
    miss the precommit of 4, and receive the proposal for 8 while they wait:
    [multiplex_proposal] finds a polka certificate of round 0, the one for 7,
    and the state machine makes 8 their valid value. In round 1 validator 2
    proposes 8 with round 0 as its proof of lock, the certificate for 7 passes
    for that proof, and 2 and 3 prevote, precommit and decide 8. *)
Section example.
#[local] Existing Instance N_context.

Let h : Height := SnHeight.INITIAL.
Let r0 := Round.Some 0.
Let r1 := Round.Some 1.

Definition to_node (a : N) (msg : DriverInput.t) : Address * DriverInput.t := (a, msg).

(** Round 0 up to the prevotes and the polka. *)
Definition attack_prevotes : list (Address * DriverInput.t) :=
  ([2; 3; 4]%N ≫= fun a =>
     [to_node a (msg_new_round (Round.Some 0) 1);
      to_node a (msg_proposal (Round.Some 0) 7 Round.Nil 1)]) ++
  ([2; 3; 4]%N ≫= fun a =>
     to_node a ∘ msg_prevote (Round.Some 0) 7 <$> [2; 3; 4]%N).

(** Validator 4 decides; 2 and 3 see a precommit for nil instead. *)
Definition attack_precommits : list (Address * DriverInput.t) :=
  (to_node 4 ∘ msg_precommit (Round.Some 0) (NilOrVal.Val 7%N) <$> [2; 3; 4]%N) ++
  ([2; 3]%N ≫= fun a =>
     [to_node a (msg_proposal (Round.Some 0) 8 Round.Nil 1);
      to_node a (msg_precommit (Round.Some 0) (NilOrVal.Val 7%N) 2);
      to_node a (msg_precommit (Round.Some 0) (NilOrVal.Val 7%N) 3);
      to_node a (msg_precommit (Round.Some 0) NilOrVal.Nil 1);
      to_node a (DriverInput.TimeoutElapsed (RoundTimeout.precommit (Round.Some 0)));
      to_node a (msg_new_round (Round.Some 1) 2)]).

(** Round 1. *)
Definition attack_next_round : list (Address * DriverInput.t) :=
  ([2; 3]%N ≫= fun a => [to_node a (msg_proposal (Round.Some 1) 8 (Round.Some 0) 2)]) ++
  ([2; 3]%N ≫= fun a => to_node a ∘ msg_prevote (Round.Some 1) 8 <$> [1; 2; 3]%N) ++
  ([2; 3]%N ≫= fun a =>
     to_node a ∘ msg_precommit (Round.Some 1) (NilOrVal.Val 8%N) <$> [1; 2; 3]%N).

Definition attack : list (Address * DriverInput.t) :=
  attack_prevotes ++ attack_precommits ++ attack_next_round.

Definition one_byzantine : gset Address := {[addr 1]}.

Definition attacked : option Cluster.t :=
  Cluster.run four_validators ThresholdParams.default one_byzantine SnHeight.INITIAL Cluster.init attack.

(** C37: with one Byzantine validator out of four of equal power, two honest
    drivers can decide different values at one height: the run above has
    validator 4 decide 7 in round 0 and validators 2 and 3 decide 8 in round
    1. *)
Theorem equivocating_proposer_breaks_agreement :
  exists c, attacked = Some c /\
    weight_of (power four_validators) one_byzantine = 1%N /\
    total_voting_power four_validators = Ret 4%N /\
    Cluster.decided four_validators ThresholdParams.default SnHeight.INITIAL c (addr 4) =
      Some (Round.Some 0, val 7) /\
    Cluster.decided four_validators ThresholdParams.default SnHeight.INITIAL c (addr 2) =
      Some (Round.Some 1, val 8) /\
    Cluster.decided four_validators ThresholdParams.default SnHeight.INITIAL c (addr 3) =
      Some (Round.Some 1, val 8).
Proof.
  exists (default Cluster.init attacked). split; [|split_and!; vm_decide].
  assert (Hsome : match attacked with Some _ => true | None => false end = true) by vm_refl. by destruct attacked.
Qed.

End example.
