(* ===== verification/Verify.v ===== *)
(** * Verification of certificates

    The extension trait [SigningProviderExt] of signing/src/ext.rs: the
    verification of commit, polka and round certificates against a validator
    set. The provider itself (signing/src/lib.rs) is a class: what a signature
    is and how it is checked belongs to the cryptographic backend. *)

From S2P Require Import Prelude Types Context Starknet.

Module VerificationResult.
Inductive t : Type := Valid | Invalid.
Definition from_bool (valid : bool) : t := if valid then Valid else Invalid.
Definition is_valid (self : t) : bool := match self with Valid => true | Invalid => false end.
Definition is_invalid (self : t) : bool := match self with Valid => false | Invalid => true end.
End VerificationResult.

(** The operation of [SigningProvider] that certificates need. An error
    carries an optional opaque source. *)
Class SigningProvider `{Ctx : Context} : Type := {
  BoxError : Type;
  verify_signed_vote : Vote -> Signature -> PublicKey -> option BoxError + VerificationResult.t;
}.

(** [Result<A, CertificateError>]. *)
Abbreviation checked A := (CertificateError.t BoxError + A)%type.

Section verify.
Context {Ctx : Context} {Provider : SigningProvider}.

(** The end of the three [verify_*_signature]: check [vote] against the key of
    [validator], and return the validator's power. *)
Definition verify_vote (vote : Vote) (signature : Signature) (validator : Validator)
    (invalid : CertificateError.t BoxError) : checked N :=
  match verify_signed_vote vote signature (public_key validator) with
  | inl source => inl (CertificateError.VerificationError source)
  | inr result =>
      if VerificationResult.is_invalid result then inl invalid else inr (voting_power validator)
  end.

Definition verify_commit_signature (certificate : CommitCertificate.t)
    (commit_sig : CommitSignature.t) (validator : Validator) : checked N :=
  let vote := new_precommit certificate.(CommitCertificate.height)
                certificate.(CommitCertificate.round)
                (NilOrVal.Val certificate.(CommitCertificate.value_id))
                (validator_address validator) in
  verify_vote vote commit_sig.(CommitSignature.signature) validator
    (CertificateError.InvalidCommitSignature commit_sig).

Definition verify_polka_signature (certificate : PolkaCertificate.t)
    (signature : PolkaSignature.t) (validator : Validator) : checked N :=
  let vote := new_prevote certificate.(PolkaCertificate.height)
                certificate.(PolkaCertificate.round)
                (NilOrVal.Val certificate.(PolkaCertificate.value_id))
                (validator_address validator) in
  verify_vote vote signature.(PolkaSignature.signature) validator
    (CertificateError.InvalidPolkaSignature signature).

Definition verify_round_signature (certificate : RoundCertificate.t)
    (signature : RoundSignature.t) (validator : Validator) : checked N :=
  let new_vote :=
    match signature.(RoundSignature.vote_type) with
    | VoteType.Prevote => new_prevote
    | VoteType.Precommit => new_precommit
    end in
  let vote := new_vote certificate.(RoundCertificate.height) certificate.(RoundCertificate.round)
                signature.(RoundSignature.value_id) (validator_address validator) in
  verify_vote vote signature.(RoundSignature.signature) validator
    (CertificateError.InvalidRoundSignature signature).

(** The [for] loop of the three [verify_*_certificate]: [address] is the
    signer of a signature, [abort] a further reason to reject it (round
    certificates have one), and [verify] the check of the signature, whose
    failure only leaves its power out. *)
Section signatures.
Context {S : Type} (address : S -> Address)
  (abort : S -> option (CertificateError.t BoxError)) (verify : S -> Validator -> checked N)
  (validator_set : ValidatorSet).

Fixpoint sum_signatures (seen_validators : list Address) (signed_voting_power : N)
    (signatures : list S) : outcome (checked N) :=
  match signatures with
  | [] => Ret (inr signed_voting_power)
  | sig :: signatures =>
      let validator_address := address sig in
      if bool_decide (validator_address ∈ seen_validators)
      then Ret (inl (CertificateError.DuplicateVote validator_address))
      else
        let seen_validators := seen_validators ++ [validator_address] in
        match get_by_address validator_set validator_address with
        | None => Ret (inl (CertificateError.UnknownValidator validator_address))
        | Some validator =>
            match abort sig with
            | Some e => Ret (inl e)
            | None =>
                signed_voting_power ←
                  match verify sig validator with
                  | inr voting_power => add_u64 signed_voting_power voting_power
                  | inl _ => Ret signed_voting_power
                  end;
                sum_signatures seen_validators signed_voting_power signatures
            end
        end
  end.

End signatures.

(** The end of the three [verify_*_certificate]. *)
Definition check_threshold (threshold : ThresholdParam.t) (validator_set : ValidatorSet)
    (signed_voting_power : N) : outcome (checked unit) :=
  total ← total_voting_power validator_set;
  met ← ThresholdParam.is_met threshold signed_voting_power total;
  if met : bool then Ret (inr tt)
  else
    expected ← ThresholdParam.min_expected threshold total;
    Ret (inl (CertificateError.NotEnoughVotingPower signed_voting_power total expected)).

Definition verify_commit_certificate (certificate : CommitCertificate.t)
    (validator_set : ValidatorSet) (thresholds : ThresholdParams.t) : outcome (checked unit) :=
  signed ← sum_signatures CommitSignature.address (fun _ => None)
             (verify_commit_signature certificate) validator_set [] 0%N
             certificate.(CommitCertificate.commit_signatures);
  match signed with
  | inl e => Ret (inl e)
  | inr signed_voting_power =>
      check_threshold thresholds.(ThresholdParams.quorum) validator_set signed_voting_power
  end.

Definition verify_polka_certificate (certificate : PolkaCertificate.t)
    (validator_set : ValidatorSet) (thresholds : ThresholdParams.t) : outcome (checked unit) :=
  signed ← sum_signatures PolkaSignature.address (fun _ => None)
             (verify_polka_signature certificate) validator_set [] 0%N
             certificate.(PolkaCertificate.polka_signatures);
  match signed with
  | inl e => Ret (inl e)
  | inr signed_voting_power =>
      check_threshold thresholds.(ThresholdParams.quorum) validator_set signed_voting_power
  end.

(** A precommit certificate must not contain prevotes. *)
Definition round_abort (certificate : RoundCertificate.t) (signature : RoundSignature.t)
    : option (CertificateError.t BoxError) :=
  if bool_decide (certificate.(RoundCertificate.cert_type) = RoundCertificateType.Precommit) &&
     bool_decide (signature.(RoundSignature.vote_type) = VoteType.Prevote)
  then Some (CertificateError.InvalidVoteType signature.(RoundSignature.address))
  else None.

Definition round_threshold (cert_type : RoundCertificateType.t) (thresholds : ThresholdParams.t)
    : ThresholdParam.t :=
  match cert_type with
  | RoundCertificateType.Precommit => thresholds.(ThresholdParams.quorum)
  | RoundCertificateType.Skip => thresholds.(ThresholdParams.honest)
  end.

Definition verify_round_certificate (certificate : RoundCertificate.t)
    (validator_set : ValidatorSet) (thresholds : ThresholdParams.t) : outcome (checked unit) :=
  signed ← sum_signatures RoundSignature.address (round_abort certificate)
             (verify_round_signature certificate) validator_set [] 0%N
             certificate.(RoundCertificate.round_signatures);
  match signed with
  | inl e => Ret (inl e)
  | inr signed_voting_power =>
      check_threshold (round_threshold certificate.(RoundCertificate.cert_type) thresholds)
        validator_set signed_voting_power
  end.

End verify.

(** ** What a verified certificate shows *)

Section correctness.
Context {Ctx : Context} {laws : ContextLaws} {Provider : SigningProvider}.
Context (vs : ValidatorSet) (total : N) (Htotal : total_voting_power vs = Ret total).

(** The signature of [a] on the vote [new_vote a] checks out. *)
Definition signature_valid (new_vote : Address -> Vote) (a : Address) (sig : Signature) : bool :=
  match get_by_address vs a with
  | Some validator =>
      match verify_signed_vote (new_vote a) sig (public_key validator) with
      | inr VerificationResult.Valid => true
      | _ => false
      end
  | None => false
  end.

Section signatures.
Context {S : Type} (address : S -> Address) (signature : S -> Signature)
  (abort : S -> option (CertificateError.t BoxError)) (verify : S -> Validator -> checked N)
  (new_vote : S -> Address -> Vote) (invalid : S -> CertificateError.t BoxError).
Hypothesis verify_spec : forall s validator,
  verify s validator = verify_vote (new_vote s (validator_address validator)) (signature s)
                         validator (invalid s).
Implicit Types (s : S) (sigs : list S).

Definition counted s : bool := signature_valid (new_vote s) (address s) (signature s).

(** The power of the signers whose signature checks out. *)
Definition counted_power sigs : N :=
  weight_of (power vs) (list_to_set (address <$> List.filter counted sigs)).

Record acceptable (seen : list Address) sigs : Prop := {
  acceptable_nodup : NoDup (address <$> sigs);
  acceptable_new s : s ∈ sigs -> address s ∉ seen;
  acceptable_known s : s ∈ sigs -> is_Some (get_by_address vs (address s));
  acceptable_abort s : s ∈ sigs -> abort s = None;
}.

Lemma verify_counted s validator :
  get_by_address vs (address s) = Some validator ->
  verify s validator = inr (power vs (address s)) /\ counted s = true \/
  (exists e, verify s validator = inl e) /\ counted s = false.
Proof using laws verify_spec.
  intros Hv. unfold counted, signature_valid, power. rewrite verify_spec, Hv.
  unfold verify_vote. rewrite (get_by_address_spec _ _ _ Hv).
  destruct (verify_signed_vote _ _ _) as [src|[]]; cbn; eauto.
Qed.

Lemma counted_power_cons s sigs :
  address s ∉ address <$> sigs ->
  counted_power (s :: sigs) =
    ((if counted s then power vs (address s) else 0) + counted_power sigs)%N.
Proof.
  intros Hs. unfold counted_power. cbn. destruct (counted s); cbn; [|done].
  rewrite weight_of_insert; [done|]. rewrite elem_of_list_to_set. intros Hin. apply Hs.
  apply list_elem_of_fmap in Hin as (s' & -> & Hs'%list_elem_of_In).
  apply List.filter_In in Hs' as [Hs'%list_elem_of_In _]. apply list_elem_of_fmap. eauto.
Qed.

Lemma acceptable_cons seen s sigs :
  acceptable seen (s :: sigs) <->
  (address s ∉ seen) /\ is_Some (get_by_address vs (address s)) /\ abort s = None /\
  acceptable (seen ++ [address s]) sigs.
Proof.
  split.
  - intros [Hnd Hnew Hknown Habort]. cbn in Hnd. apply NoDup_cons in Hnd as [Hs Hnd].
    split_and!; [by apply Hnew, list_elem_of_here|by apply Hknown, list_elem_of_here
                |by apply Habort, list_elem_of_here|].
    split; [done|..]; intros s' Hs'; [|by apply Hknown, list_elem_of_further|by apply Habort, list_elem_of_further].
    intros [Hin|Heq]%elem_snoc; [by eapply Hnew; [apply list_elem_of_further|]|].
    apply Hs. rewrite <- Heq. apply list_elem_of_fmap. eauto.
  - intros (Hnew & Hknown & Habort & [Hnd Hnew' Hknown' Habort']). split.
    + cbn. apply NoDup_cons. split; [|done]. intros (s' & Heq & Hs')%list_elem_of_fmap.
      apply (Hnew' s' Hs'). apply elem_snoc. by right.
    + intros s' [-> |Hs']%elem_of_cons; [done|]. intros Hin. apply (Hnew' s' Hs'), elem_snoc. by left.
    + intros s' [-> |Hs']%elem_of_cons; auto.
    + intros s' [-> |Hs']%elem_of_cons; auto.
Qed.

(** The loop rejects unacceptable signatures, and else adds up the power. *)
Lemma sum_signatures_spec seen acc sigs :
  (acc <= weight_of (power vs) (list_to_set seen))%N ->
  (acceptable seen sigs /\
   sum_signatures address abort verify vs seen acc sigs = Ret (inr (acc + counted_power sigs)%N)) \/
  (~ acceptable seen sigs /\ exists e, sum_signatures address abort verify vs seen acc sigs = Ret (inl e)).
Proof using laws Htotal verify_spec.
  revert seen acc. induction sigs as [|s sigs IH]; intros seen acc Hacc; cbn [sum_signatures].
  { left. split; [split; [apply NoDup_nil_2|..]; by intros ? ?%not_elem_of_nil|].
    unfold counted_power. cbn. by rewrite weight_of_empty, N.add_0_r. }
  setoid_rewrite acceptable_cons.
  case_bool_decide as Hseen; [right; split; [tauto|eauto]|].
  destruct (get_by_address vs (address s)) as [validator|] eqn:Hv;
    [|right; split; [by intros (_ & [? ?] & _)|eauto]].
  destruct (abort s) as [e|] eqn:Hab; [right; split; [by intros (_ & _ & ? & _)|eauto]|].
  assert (Hset : (weight_of (power vs) (list_to_set (seen ++ [address s])) =
                  power vs (address s) + weight_of (power vs) (list_to_set seen))%N).
  { rewrite list_to_set_app_L, union_comm_L. cbn. rewrite union_empty_r_L.
    apply weight_of_insert. by rewrite elem_of_list_to_set. }
  pose proof (powers_le_total vs total (list_to_set (seen ++ [address s])) Htotal) as Hle.
  pose proof (total_in_range vs total Htotal) as Hrange. rewrite Hset in Hle.
  set (acc' := (acc + if counted s then power vs (address s) else 0)%N).
  assert (Hstep : (match verify s validator with inr n => add_u64 acc n | inl _ => Ret acc end) = Ret acc').
  { destruct (verify_counted s validator Hv) as [[-> Hc]|[[e ->] Hc]]; unfold acc'; rewrite Hc.
    - apply add_u64_Ret. lia.
    - by rewrite N.add_0_r. }
  rewrite Hstep. cbn.
  destruct (IH (seen ++ [address s]) acc') as [[Hok ->]|[Hno [e ->]]].
  - unfold acc'. destruct (counted s); lia.
  - left. split; [eauto|]. rewrite counted_power_cons; [unfold acc'; f_equal; f_equal; lia|].
    intros (s' & Heq & Hs')%list_elem_of_fmap. apply (acceptable_new _ _ Hok s' Hs'), elem_snoc. by right.
  - right. split; [tauto|eauto].
Qed.

(** A certificate's signatures are accepted exactly when no signer repeats,
    every signer is a validator, none is aborted on, and the signers whose
    signature checks out exceed the threshold. *)
Lemma verify_signatures_iff threshold sigs :
  ThresholdParam.fits threshold total ->
  (signed ← sum_signatures address abort verify vs [] 0%N sigs;
   match signed with
   | inl e => Ret (inl e)
   | inr power => check_threshold threshold vs power
   end) = Ret (inr tt) <->
  acceptable [] sigs /\ ThresholdParam.met threshold (counted_power sigs) total.
Proof using laws Htotal verify_spec.
  intros Hfits.
  destruct (sum_signatures_spec [] 0 sigs) as [[Hok ->]|[Hno [e ->]]]; [lia| |cbn; naive_solver].
  cbn. unfold check_threshold. rewrite Htotal. cbn.
  rewrite ThresholdParam.is_met_decide; [|done|by apply powers_le_total]. cbn.
  case_bool_decide as Hmet; [tauto|]. split; [|tauto]. intros H. by inv_ret.
Qed.

(** Signatures made from valid votes of distinct validators that exceed the
    threshold are accepted. *)
Lemma votes_verify (to_sig : SignedVote -> S) threshold (votes : list SignedVote) :
  (forall v, address (to_sig v) = sv_address v) ->
  (forall v, signature (to_sig v) = v.(SignedMessage.signature)) ->
  ThresholdParam.fits threshold total ->
  NoDup (sv_address <$> votes) ->
  (forall v, v ∈ votes -> abort (to_sig v) = None /\
     signature_valid (new_vote (to_sig v)) (sv_address v) v.(SignedMessage.signature) = true) ->
  ThresholdParam.met threshold (weight_of (power vs) (list_to_set (sv_address <$> votes))) total ->
  (signed ← sum_signatures address abort verify vs [] 0%N (to_sig <$> votes);
   match signed with
   | inl e => Ret (inl e)
   | inr power => check_threshold threshold vs power
   end) = Ret (inr tt).
Proof using laws Htotal verify_spec.
  intros Haddr Hsig Hfits Hnodup Hsigned Hmet.
  assert (Heq : address <$> (to_sig <$> votes) = sv_address <$> votes).
  { rewrite <- list_fmap_compose. apply list_fmap_ext. intros i v _. apply Haddr. }
  apply verify_signatures_iff; [done|]. split.
  - split; [by rewrite Heq|by intros ? _ ?%not_elem_of_nil|..];
      intros s (v & -> & Hv)%list_elem_of_fmap; destruct (Hsigned v Hv) as [Hab Hval]; [|done].
    rewrite Haddr. unfold signature_valid in Hval. destruct (get_by_address vs _); [eauto|done].
  - unfold counted_power. rewrite filter_all, Heq; [done|].
    intros s (v & -> & Hv)%list_elem_of_fmap. unfold counted. rewrite Haddr, Hsig. by apply Hsigned.
Qed.

End signatures.
End correctness.

(** ** Theorems *)

Section claims.
Context {Ctx : Context} {laws : ContextLaws} {Provider : SigningProvider}.

(** The power of the signers of a commit certificate whose signature of the
    certified precommit checks out. *)
Definition commit_power (vs : ValidatorSet) (c : CommitCertificate.t) : N :=
  counted_power vs CommitSignature.address CommitSignature.signature
    (fun _ => new_precommit c.(CommitCertificate.height) c.(CommitCertificate.round)
                (NilOrVal.Val c.(CommitCertificate.value_id)))
    c.(CommitCertificate.commit_signatures).

Definition polka_power (vs : ValidatorSet) (c : PolkaCertificate.t) : N :=
  counted_power vs PolkaSignature.address PolkaSignature.signature
    (fun _ => new_prevote c.(PolkaCertificate.height) c.(PolkaCertificate.round)
                (NilOrVal.Val c.(PolkaCertificate.value_id)))
    c.(PolkaCertificate.polka_signatures).

(** The vote a round signature is for. *)
Definition round_vote (c : RoundCertificate.t) (s : RoundSignature.t) : Address -> Vote :=
  match s.(RoundSignature.vote_type) with
  | VoteType.Prevote => new_prevote
  | VoteType.Precommit => new_precommit
  end c.(RoundCertificate.height) c.(RoundCertificate.round) s.(RoundSignature.value_id).

Definition round_cert_power (vs : ValidatorSet) (c : RoundCertificate.t) : N :=
  counted_power vs RoundSignature.address RoundSignature.signature (round_vote c)
    c.(RoundCertificate.round_signatures).

Lemma acceptable_iff {S} (vs : ValidatorSet) (address : S -> Address)
    (abort : S -> option (CertificateError.t BoxError)) sigs :
  acceptable vs address abort [] sigs <->
  NoDup (address <$> sigs) /\ (forall s, s ∈ sigs -> is_Some (get_by_address vs (address s))) /\
  (forall s, s ∈ sigs -> abort s = None).
Proof.
  split; [by intros []|]. intros (? & ? & ?). split; [done|by intros ? _ ?%not_elem_of_nil|done..].
Qed.

(** C14: a commit certificate verifies exactly when its signers are distinct
    validators of the set and those whose signature of the precommit for the
    certificate's height, round and value checks out hold more than the quorum
    of the power. *)
Theorem verify_commit_certificate_iff (vs : ValidatorSet) (total : N)
  (c : CommitCertificate.t) (thresholds : ThresholdParams.t)
  (Htotal : total_voting_power vs = Ret total) (Hfits : ThresholdParams.fits thresholds total) :
  let signers := CommitSignature.address <$> c.(CommitCertificate.commit_signatures) in
  verify_commit_certificate c vs thresholds = Ret (inr tt) <->
  NoDup signers /\ (forall a, a ∈ signers -> is_Some (get_by_address vs a)) /\
  ThresholdParam.met thresholds.(ThresholdParams.quorum) (commit_power vs c) total.
Proof.
  intros signers. unfold verify_commit_certificate.
  rewrite (verify_signatures_iff vs total Htotal CommitSignature.address CommitSignature.signature
    (fun _ => None) _ (fun _ => new_precommit c.(CommitCertificate.height) c.(CommitCertificate.round)
      (NilOrVal.Val c.(CommitCertificate.value_id))) CertificateError.InvalidCommitSignature);
    [|done|apply Hfits].
  rewrite acceptable_iff. fold (commit_power vs c). unfold signers.
  setoid_rewrite list_elem_of_fmap. naive_solver.
Qed.

(** A polka certificate verifies exactly when its signers are distinct
    validators of the set and those whose signature of the prevote for the
    certificate's height, round and value checks out hold more than the quorum
    of the power. *)
Theorem verify_polka_certificate_iff (vs : ValidatorSet) (total : N)
  (c : PolkaCertificate.t) (thresholds : ThresholdParams.t)
  (Htotal : total_voting_power vs = Ret total) (Hfits : ThresholdParams.fits thresholds total) :
  let signers := PolkaSignature.address <$> c.(PolkaCertificate.polka_signatures) in
  verify_polka_certificate c vs thresholds = Ret (inr tt) <->
  NoDup signers /\ (forall a, a ∈ signers -> is_Some (get_by_address vs a)) /\
  ThresholdParam.met thresholds.(ThresholdParams.quorum) (polka_power vs c) total.
Proof.
  intros signers. unfold verify_polka_certificate.
  rewrite (verify_signatures_iff vs total Htotal PolkaSignature.address PolkaSignature.signature
    (fun _ => None) _ (fun _ => new_prevote c.(PolkaCertificate.height) c.(PolkaCertificate.round)
      (NilOrVal.Val c.(PolkaCertificate.value_id))) CertificateError.InvalidPolkaSignature);
    [|done|apply Hfits].
  rewrite acceptable_iff. fold (polka_power vs c). unfold signers.
  setoid_rewrite list_elem_of_fmap. naive_solver.
Qed.

(** C33: a round certificate verifies exactly when its signers are distinct
    validators of the set, a precommit certificate has no prevotes, and the
    signers whose signature of their own vote checks out hold more than the
    quorum (precommit certificate) or the honest threshold (skip
    certificate). *)
Theorem verify_round_certificate_iff (vs : ValidatorSet) (total : N)
  (c : RoundCertificate.t) (thresholds : ThresholdParams.t)
  (Htotal : total_voting_power vs = Ret total) (Hfits : ThresholdParams.fits thresholds total) :
  let sigs := c.(RoundCertificate.round_signatures) in
  let signers := RoundSignature.address <$> sigs in
  verify_round_certificate c vs thresholds = Ret (inr tt) <->
  NoDup signers /\ (forall a, a ∈ signers -> is_Some (get_by_address vs a)) /\
  (c.(RoundCertificate.cert_type) = RoundCertificateType.Precommit ->
   forall s, s ∈ sigs -> s.(RoundSignature.vote_type) = VoteType.Precommit) /\
  ThresholdParam.met
    (match c.(RoundCertificate.cert_type) with
     | RoundCertificateType.Precommit => thresholds.(ThresholdParams.quorum)
     | RoundCertificateType.Skip => thresholds.(ThresholdParams.honest)
     end) (round_cert_power vs c) total.
Proof.
  intros sigs signers. unfold verify_round_certificate.
  rewrite (verify_signatures_iff vs total Htotal RoundSignature.address RoundSignature.signature
    (round_abort c) _ (round_vote c) CertificateError.InvalidRoundSignature);
    [| |unfold round_threshold; case_match; apply Hfits].
  2:{ intros s v. unfold verify_round_signature, round_vote. by case_match. }
  rewrite acceptable_iff. fold (round_cert_power vs c). unfold signers, sigs.
  setoid_rewrite list_elem_of_fmap.
  assert (Habort : (forall s, s ∈ c.(RoundCertificate.round_signatures) -> round_abort c s = None) <->
    (c.(RoundCertificate.cert_type) = RoundCertificateType.Precommit ->
     forall s, s ∈ c.(RoundCertificate.round_signatures) -> s.(RoundSignature.vote_type) = VoteType.Precommit)).
  { unfold round_abort. split.
    - intros Hs Hc s Hin. specialize (Hs s Hin). rewrite bool_decide_eq_true_2 in Hs by done.
      case_bool_decide; [done|]. by destruct (RoundSignature.vote_type s).
    - intros Hs s Hin. case_bool_decide as Hc; [|done]. by rewrite (Hs Hc s Hin). }
  rewrite Habort. unfold round_threshold. naive_solver.
Qed.

(** The precommits [CommitCertificate::new] keeps. *)
Definition commits_for (h : Height) (r : Round.t) (id : ValueId) (votes : list SignedVote)
    : list SignedVote :=
  List.filter (fun v =>
    bool_decide (sv_value v = NilOrVal.Val id) && bool_decide (sv_type v = VoteType.Precommit) &&
    bool_decide (sv_round v = r) && bool_decide (sv_height v = h)) votes.

(** a commit certificate made from votes verifies: when the precommits
    for its height, round and value come from distinct validators, carry valid
    signatures, and hold more than the quorum of the power, the certificate
    [CommitCertificate::new] builds from the votes passes
    [verify_commit_certificate]. *)
Theorem commit_certificate_roundtrip (vs : ValidatorSet) (total : N) (thresholds : ThresholdParams.t)
  (h : Height) (r : Round.t) (id : ValueId) (votes : list SignedVote)
  (Htotal : total_voting_power vs = Ret total) (Hfits : ThresholdParams.fits thresholds total)
  (Hnodup : NoDup (sv_address <$> commits_for h r id votes))
  (Hsigned : Forall (fun v =>
     signature_valid vs (new_precommit h r (NilOrVal.Val id)) (sv_address v)
       v.(SignedMessage.signature) = true) (commits_for h r id votes))
  (Hmet : ThresholdParam.met thresholds.(ThresholdParams.quorum)
     (weight_of (power vs) (list_to_set (sv_address <$> commits_for h r id votes))) total) :
  verify_commit_certificate (CommitCertificate.new h r id votes) vs thresholds = Ret (inr tt).
Proof.
  unfold verify_commit_certificate.
  change (CommitCertificate.commit_signatures _) with
    ((fun v : SignedVote => CommitSignature.new (sv_address v) v.(SignedMessage.signature)) <$>
     commits_for h r id votes).
  rewrite Forall_forall in Hsigned.
  apply (votes_verify vs total Htotal CommitSignature.address CommitSignature.signature
    (fun _ => None) _ (fun _ => new_precommit h r (NilOrVal.Val id))
    CertificateError.InvalidCommitSignature); try done; [apply Hfits|].
  intros v Hv. split; [done|]. by apply Hsigned.
Qed.

End claims.

(** ** Certificates of four validators

    A signature is valid when it equals the public key. *)

Section verify_example.
#[local] Existing Instance N_context.

#[local] Instance N_provider : SigningProvider := {
  BoxError := unit;
  verify_signed_vote _ (sig : N) (key : N) := inr (VerificationResult.from_bool (bool_decide (sig = key)));
}.

Let id (n : N) : ValueId := n.
Let addr (n : N) : Address := n.
Let sg (n : N) : Signature := n.

Definition example_commit (sigs : list (N * N)) : CommitCertificate.t :=
  CommitCertificate.mk SnHeight.INITIAL (Round.Some 0) (id 7)
    ((fun p : N * N => CommitSignature.new (addr p.1) (sg p.2)) <$> sigs).
Definition example_round (ty : RoundCertificateType.t) (sigs : list (VoteType.t * N * N)) : RoundCertificate.t :=
  RoundCertificate.mk SnHeight.INITIAL (Round.Some 0) ty
    ((fun p : VoteType.t * N * N =>
        RoundSignature.new p.1.1 (NilOrVal.Val (id 7)) (addr p.1.2) (sg p.2)) <$> sigs).

Lemma four_total : total_voting_power four_validators = Ret 4%N.
Proof. vm_refl. Defined.
Lemma four_fits : ThresholdParams.fits ThresholdParams.default 4.
Proof. apply ThresholdParams.default_fits. vm_decide. Defined.

Lemma verify_commit_certificate_iff_witness :
  verify_commit_certificate (example_commit [(1, 1); (2, 2); (3, 3)]%N) four_validators
    ThresholdParams.default = Ret (inr tt) /\
  ThresholdParam.met ThresholdParam.TWO_F_PLUS_ONE
    (commit_power four_validators (example_commit [(1, 1); (2, 2); (3, 3)]%N)) 4.
Proof.
  assert (H : verify_commit_certificate (example_commit [(1, 1); (2, 2); (3, 3)]%N) four_validators
    ThresholdParams.default = Ret (inr tt)) by vm_refl.
  split; [exact H|].
  apply (verify_commit_certificate_iff (laws := N_context_laws) four_validators 4
    (example_commit [(1, 1); (2, 2); (3, 3)]%N) ThresholdParams.default four_total four_fits) in H.
  apply H.
Defined.

Definition example_skip : RoundCertificate.t :=
  example_round RoundCertificateType.Skip [(VoteType.Prevote, 1, 1); (VoteType.Precommit, 2, 2)]%N.

Lemma verify_round_certificate_iff_witness :
  verify_round_certificate example_skip four_validators ThresholdParams.default = Ret (inr tt) /\
  ThresholdParam.met ThresholdParam.F_PLUS_ONE (round_cert_power four_validators example_skip) 4.
Proof.
  assert (H : verify_round_certificate example_skip four_validators ThresholdParams.default = Ret (inr tt))
    by vm_refl.
  split; [exact H|].
  apply (verify_round_certificate_iff (laws := N_context_laws) four_validators 4
    example_skip ThresholdParams.default four_total four_fits) in H.
  apply H.
Defined.

Definition example_precommits : list SignedVote :=
  (fun a : N => SignedMessage.new
     (new_precommit SnHeight.INITIAL (Round.Some 0) (NilOrVal.Val (id 7)) (addr a)) (sg a))
  <$> [1; 2; 3]%N.

Lemma commit_certificate_roundtrip_witness :
  verify_commit_certificate (CommitCertificate.new SnHeight.INITIAL (Round.Some 0) (id 7) example_precommits)
    four_validators ThresholdParams.default = Ret (inr tt).
Proof.
  refine (commit_certificate_roundtrip (laws := N_context_laws) four_validators 4 ThresholdParams.default
    SnHeight.INITIAL (Round.Some 0) (id 7) example_precommits four_total four_fits _ _ _); vm_decide.
Defined.

(** a commit certificate with an invalid signature verifies when the
    other signatures suffice: the signature of validator 4 does not check out,
    and [verify_commit_certificate] returns [Ok]. *)
Theorem invalid_signature_is_ignored :
  signature_valid four_validators
    (new_precommit SnHeight.INITIAL (Round.Some 0) (NilOrVal.Val (id 7))) (addr 4) (sg 0) = false /\
  verify_commit_certificate (example_commit [(1, 1); (2, 2); (3, 3); (4, 0)]%N) four_validators
    ThresholdParams.default = Ret (inr tt).
Proof. split; vm_refl. Qed.

End verify_example.
