(* ===== verification/DriverCertificates.v ===== *)
(** * Certificates the driver makes

    The polka and round certificates [Driver::apply_vote] stores when the vote
    keeper reports a threshold, against the verification of the signing crate
    that a peer runs on them: they verify when the votes behind them are validly
    signed and no vote was received twice, and a vote received twice spoils
    them. *)

From S2P Require Import Prelude Types Context Starknet StateMachine VoteKeeper ProposalKeeper Driver DriverFacts Verify.

Section certificates.
Context {Ctx : Context} {laws : ContextLaws} {Provider : SigningProvider}.
Context (vs : ValidatorSet) (params : ThresholdParams.t) (total : N).
Context (Htotal : total_voting_power vs = Ret total) (Hfits : ThresholdParams.fits params total).
Implicit Types (d : Driver.t) (votes : list SignedVote).

(** A vote whose signature checks out for its type and value at height [h] and
    round [r]. *)
Definition validly_signed (h : Height) (r : Round.t) (v : SignedVote) : Prop :=
  signature_valid vs
    (match sv_type v with VoteType.Prevote => new_prevote | VoteType.Precommit => new_precommit end
       h r (sv_value v)) (sv_address v) v.(SignedMessage.signature) = true.

(** No validator has two votes of type [ty]. *)
Definition no_repeats (ty : VoteType.t) votes : Prop := NoDup (sv_address <$> of_type ty votes).

Lemma first_votes_spec seen votes :
  NoDup (sv_address <$> Process.first_votes seen votes) /\
  (forall v, v ∈ Process.first_votes seen votes -> v ∈ votes /\ (sv_address v ∉ seen)) /\
  voters (Process.first_votes seen votes) ∪ seen = voters votes ∪ seen.
Proof.
  revert seen. induction votes as [|v votes IH]; intros seen; cbn [Process.first_votes].
  { split_and!; [apply NoDup_nil_2|by intros v ?%not_elem_of_nil|done]. }
  case_bool_decide as Hin.
  - destruct (IH seen) as (Hnd & Hsub & Heq). split_and!; [done| |].
    + intros w [? ?]%Hsub. split; [by apply list_elem_of_further|done].
    + rewrite Heq. change (voters (v :: votes)) with ({[sv_address v]} ∪ voters votes).
      clear -Hin. set_solver.
  - destruct (IH ({[sv_address v]} ∪ seen)) as (Hnd & Hsub & Heq). split_and!.
    + cbn. apply NoDup_cons. split; [|done]. intros (w & Heq' & Hw)%list_elem_of_fmap.
      apply Hsub in Hw as [_ Hw]. rewrite <- Heq' in Hw. clear -Hw. set_solver.
    + intros w [-> |Hw]%elem_of_cons; [by split; [apply list_elem_of_here|]|].
      apply Hsub in Hw as [? ?]. split; [by apply list_elem_of_further|clear IH Heq; set_solver].
    + assert (Hcons : forall l, voters (v :: l) ∪ seen = voters l ∪ ({[sv_address v]} ∪ seen)).
      { intros l. change (voters (v :: l)) with ({[sv_address v]} ∪ voters l). clear. set_solver. }
      by rewrite !Hcons.
Qed.

(** A round certificate made from validly signed votes of distinct validators
    verifies. *)
Lemma round_certificate_verifies h r ty votes threshold :
  threshold = round_threshold ty params ->
  NoDup (sv_address <$> votes) ->
  (forall v, v ∈ votes -> validly_signed h r v /\
     (ty = RoundCertificateType.Precommit -> sv_type v = VoteType.Precommit)) ->
  ThresholdParam.met threshold (weight_of (power vs) (voters votes)) total ->
  verify_round_certificate (RoundCertificate.new_from_votes h r ty votes) vs params = Ret (inr tt).
Proof using laws Htotal Hfits.
  intros -> Hnd Hv Hmet. unfold verify_round_certificate.
  apply (votes_verify vs total Htotal RoundSignature.address RoundSignature.signature
    (round_abort (RoundCertificate.new_from_votes h r ty votes)) _
    (round_vote (RoundCertificate.new_from_votes h r ty votes)) CertificateError.InvalidRoundSignature);
    try done.
  - unfold round_threshold. case_match; apply Hfits.
  - intros v Hin. destruct (Hv v Hin) as [Hs Hty]. split.
    + unfold round_abort. cbn. case_bool_decide as Hc; [|done]. by rewrite Hty.
    + unfold validly_signed in Hs. unfold round_vote. cbn. by destruct (sv_type v).
Qed.

Lemma polka_certificate_verifies h r id votes :
  NoDup (sv_address <$> votes) ->
  (forall v, v ∈ votes -> validly_signed h r v /\ sv_type v = VoteType.Prevote /\
     sv_value v = NilOrVal.Val id) ->
  ThresholdParam.met params.(ThresholdParams.quorum) (weight_of (power vs) (voters votes)) total ->
  verify_polka_certificate
    (PolkaCertificate.mk h r id
       ((fun v => PolkaSignature.new (sv_address v) v.(SignedMessage.signature)) <$> votes))
    vs params = Ret (inr tt).
Proof using laws Htotal Hfits.
  intros Hnd Hv Hmet. unfold verify_polka_certificate.
  apply (votes_verify vs total Htotal PolkaSignature.address PolkaSignature.signature
    (fun _ => None) _ (fun _ => new_prevote h r (NilOrVal.Val id))
    CertificateError.InvalidPolkaSignature); try done; [apply Hfits|].
  intros v Hin. destruct (Hv v Hin) as (Hs & Hty & Hval). split; [done|].
  unfold validly_signed in Hs. by rewrite Hty, Hval in Hs.
Qed.

(** The votes the keeper has accepted in a round. *)
Definition accepted d (r : Round.t) : list SignedVote := (abs d.(Driver.vote_keeper) r).(log).

Lemma accepted_round d r pr :
  VoteKeeper.get_round d.(Driver.vote_keeper) r = Some pr ->
  accepted d r = pr.(PerRound.received_votes).
Proof. unfold VoteKeeper.get_round, accepted, abs. by intros ->. Qed.

Lemma accepted_none d r :
  VoteKeeper.get_round d.(Driver.vote_keeper) r = None -> accepted d r = [].
Proof. unfold VoteKeeper.get_round, accepted, abs. by intros ->. Qed.

(** What holds of the certificates [store_certificates] adds to [d] for the
    output [o] of round [r]. *)
Definition certificates_verify d (this_round r : Round.t) (o : VKOutput.t ValueId) d' : Prop :=
  match o with
  | VKOutput.PolkaValue id =>
      no_repeats VoteType.Prevote (accepted d r) ->
      exists c, d'.(Driver.polka_certificates) = d.(Driver.polka_certificates) ++ [c] /\
        c.(PolkaCertificate.round) = r /\ c.(PolkaCertificate.value_id) = id /\
        verify_polka_certificate c vs params = Ret (inr tt)
  | VKOutput.PrecommitAny =>
      this_round = r -> no_repeats VoteType.Precommit (accepted d r) ->
      exists c, d'.(Driver.round_certificate) = Some c /\
        c.(EnterRoundCertificate.certificate).(RoundCertificate.round) = r /\
        verify_round_certificate c.(EnterRoundCertificate.certificate) vs params = Ret (inr tt)
  | VKOutput.SkipRound r' =>
      exists c, d'.(Driver.round_certificate) = Some c /\
        c.(EnterRoundCertificate.enter_round) = r' /\
        verify_round_certificate c.(EnterRoundCertificate.certificate) vs params = Ret (inr tt)
  | _ => d' = d
  end.

Lemma filter_bool_decide (P : SignedVote -> Prop) `{forall x, Decision (P x)} votes :
  List.filter (fun v => bool_decide (P v)) votes = filter P votes.
Proof.
  induction votes as [|v votes IH]; [done|]. cbn [List.filter]. rewrite filter_cons.
  case_bool_decide; [rewrite decide_True by done|rewrite decide_False by done]; by rewrite IH.
Qed.

Lemma polka_votes id votes :
  List.filter (fun v => bool_decide (sv_type v = VoteType.Prevote) &&
                        bool_decide (sv_value v = NilOrVal.Val id)) votes =
  for_value (NilOrVal.Val id) (of_type VoteType.Prevote votes).
Proof.
  unfold for_value, of_type. induction votes as [|v votes IH]; [done|]. cbn [List.filter]. rewrite filter_cons.
  destruct (decide (sv_type v = VoteType.Prevote)).
  - rewrite bool_decide_eq_true_2 by done. cbn [andb]. rewrite filter_cons.
    case_bool_decide; [rewrite decide_True by done|rewrite decide_False by done]; by rewrite IH.
  - by rewrite bool_decide_eq_false_2.
Qed.

Lemma has_threshold_entry d r ty th :
  has_threshold vs params total (accepted d r) ty th ->
  exists pr, VoteKeeper.get_round d.(Driver.vote_keeper) r = Some pr.
Proof.
  intros Hth. destruct (VoteKeeper.get_round _ r) eqn:Hr; [eauto|].
  rewrite accepted_none in Hth by done. by apply has_threshold_nil in Hth.
Qed.

Lemma store_certificates_verify d this_round r o d' :
  (forall v, v ∈ accepted d r -> validly_signed (Driver.height d) r v) ->
  justified vs params total (accepted d r) r o ->
  Process.store_certificates d this_round r o = Ret d' ->
  certificates_verify d this_round r o d'.
Proof using laws Htotal Hfits.
  intros Hsigned Hj Hstore.
  destruct o as [| |id| |id|r']; cbn [justified Process.store_certificates certificates_verify] in *;
    try (by inv_ret).
  - intros Hnd. destruct (has_threshold_entry _ _ _ _ Hj) as [pr Hpr].
    rewrite (accepted_round _ _ _ Hpr) in *.
    unfold Process.store_polka_certificate in Hstore. rewrite Hpr in Hstore. inv_ret.
    eexists. split_and!; [done..|]. cbn. rewrite polka_votes.
    apply polka_certificate_verifies; [|intros v|done].
    + eapply sublist_NoDup; [done|]. apply fmap_sublist, sublist_filter.
    + unfold for_value, of_type. rewrite !list_elem_of_filter. intros (? & ? & ?). auto.
  - intros -> Hnd. rewrite bool_decide_eq_true_2 in Hstore by done.
    destruct (has_threshold_entry _ _ _ _ Hj) as [pr Hpr]. rewrite (accepted_round _ _ _ Hpr) in *.
    unfold Process.store_precommit_any_round_certificate in Hstore. rewrite Hpr in Hstore. inv_ret.
    eexists. split_and!; [done..|]. cbn. rewrite (filter_bool_decide (fun v => sv_type v = VoteType.Precommit)).
    eapply round_certificate_verifies; [done|done| |done].
    intros v [? ?]%list_elem_of_filter. auto.
  - destruct Hj as [-> Hmet].
    destruct (VoteKeeper.get_round d.(Driver.vote_keeper) r) as [pr|] eqn:Hpr.
    + rewrite (accepted_round _ _ _ Hpr) in *.
      unfold Process.store_skip_round_certificate in Hstore. rewrite Hpr in Hstore. inv_ret.
      eexists. split_and!; [done..|]. cbn.
      destruct (first_votes_spec ∅ pr.(PerRound.received_votes)) as (Hnd & Hsub & Heq).
      rewrite !(right_id_L ∅ (∪)) in Heq.
      eapply round_certificate_verifies; [done|done| |by rewrite Heq].
      intros v [? _]%Hsub. split; [auto|done].
    + rewrite accepted_none in Hmet by done. unfold ThresholdParam.met, round_power, voters in Hmet.
      cbn in Hmet. rewrite weight_of_empty in Hmet. lia.
Qed.

End certificates.

(** ** Theorems *)

Section claims.
Context {Ctx : Context} {laws : ContextLaws} {Provider : SigningProvider}.

(** C32: the certificates the driver makes verify: when the votes accepted
    in the round of a vote are validly signed, the certificate stored for a
    skipped round passes [verify_round_certificate]; and when in addition no
    validator's vote was received twice, so do the polka certificate stored
    for a quorum of prevotes and the round certificate stored for a quorum of
    precommits. *)
Theorem driver_certificates_verify (vs : ValidatorSet) (params : ThresholdParams.t) (total : N)
  (d d' : Driver.t) (k : VoteKeeper.t) (vote : SignedVote) (o : VKOutput.t ValueId)
  (Htotal : total_voting_power vs = Ret total) (Hfits : ThresholdParams.fits params total)
  (Hk : reachable vs params d.(Driver.vote_keeper))
  (Hvote : VoteKeeper.apply_vote d.(Driver.vote_keeper) vote (Driver.round d) = Ret (k, Some o))
  (Hsigned : forall v, v ∈ (abs k (sv_round vote)).(log) ->
     validly_signed vs (Driver.height d) (sv_round vote) v)
  (Hstore : Process.store_certificates (Driver.set_vote_keeper d k) (Driver.round d) (sv_round vote) o =
     Ret d') :
  certificates_verify vs params (Driver.set_vote_keeper d k) (Driver.round d) (sv_round vote) o d'.
Proof.
  eapply store_certificates_verify; [done..| |done].
  by eapply counted_vote_justified.
Qed.

End claims.

(** ** Certificates of a round in which the validators precommit nil *)
Section example.
#[local] Existing Instance N_context.
#[local] Existing Instance N_provider.

(** A precommit signed with the validator's key. *)
Definition precommit_nil_of (a : N) : SignedVote :=
  SignedMessage.new (new_precommit SnHeight.INITIAL (Round.Some 0) NilOrVal.Nil (addr a)) (a : Signature).

Definition nil_events (voters : list N) : list event :=
  Receive (msg_new_round (Round.Some 0) 1) ::
  ((fun a => Receive (DriverInput.Vote (precommit_nil_of a))) <$> voters).

Definition nil_driver (voters : list N) : Driver.t := (run_result (nil_events voters)).1.

(** The verification of the round certificate a driver has stored. *)
Definition verify_stored (d : Driver.t) : option (outcome (checked unit)) :=
  (fun c => verify_round_certificate c.(EnterRoundCertificate.certificate) four_validators
              ThresholdParams.default) <$> d.(Driver.round_certificate).

Definition nil_keeper : VoteKeeper.t :=
  match VoteKeeper.apply_vote (nil_driver [1; 3]%N).(Driver.vote_keeper) (precommit_nil_of 4) (Round.Some 0) with
  | Ret (k, _) => k
  | Panic _ => (nil_driver []).(Driver.vote_keeper)
  end.

Definition nil_stored : Driver.t :=
  match Process.store_certificates (Driver.set_vote_keeper (nil_driver [1; 3]%N) nil_keeper)
          (Round.Some 0) (Round.Some 0) VKOutput.PrecommitAny with
  | Ret d => d
  | Panic _ => nil_driver []
  end.

Lemma nil_reachable :
  reachable four_validators ThresholdParams.default (nil_driver [1; 3]%N).(Driver.vote_keeper).
Proof.
  assert (Hk : (nil_driver [1; 3]%N).(Driver.vote_keeper) =
    keeper_after [(precommit_nil_of 1, Round.Some 0); (precommit_nil_of 3, Round.Some 0)]) by vm_refl.
  rewrite Hk. apply keeper_after_reachable.
Qed.

Lemma driver_certificates_verify_witness :
  exists c, nil_stored.(Driver.round_certificate) = Some c /\
    verify_round_certificate c.(EnterRoundCertificate.certificate) four_validators
      ThresholdParams.default = Ret (inr tt).
Proof.
  destruct (driver_certificates_verify (laws := N_context_laws) four_validators ThresholdParams.default 4
    (nil_driver [1; 3]%N) nil_stored nil_keeper (precommit_nil_of 4) VKOutput.PrecommitAny
    four_total four_fits nil_reachable ltac:(vm_refl)) as (c & Hc & _ & Hv).
  - apply Forall_forall. unfold validly_signed. vm_decide.
  - vm_refl.
  - vm_refl.
  - unfold no_repeats. vm_decide.
  - exists c. split; [exact Hc|exact Hv].
Defined.

(** a vote received twice spoils the round certificate: with one precommit
    of each of three validators the certificate verifies; when the first of
    them is received once more, the driver stores a certificate that
    [verify_round_certificate] rejects as having a duplicate vote. *)
Theorem repeated_vote_spoils_certificate :
  verify_stored (nil_driver [1; 3; 4]%N) = Some (Ret (inr tt)) /\
  verify_stored (nil_driver [1; 1; 3; 4]%N) =
    Some (Ret (inl (CertificateError.DuplicateVote (addr 1)))).
Proof. split; vm_refl. Qed.

End example.
