(* ===== verification/BTree.v ===== *)
(** * Ordered maps

    [BTreeMap] where the order of the keys matters: an association list with
    strictly increasing keys, for the queue and the proposal keeper of
    core-consensus, which look at the last key or iterate over a range. *)

From S2P Require Import Prelude.
From stdpp Require Import sorting.

(** [Ord] on keys: the strict order, as a test. *)
Class KeyOrder (K : Type) : Type := key_ltb : K -> K -> bool.

Class KeyOrderLaws (K : Type) `{KeyOrder K} : Prop := {
  key_ltb_irrefl (k : K) : key_ltb k k = false;
  key_ltb_trans (a b c : K) : key_ltb a b = true -> key_ltb b c = true -> key_ltb a c = true;
  key_ltb_total (a b : K) : key_ltb a b = true \/ a = b \/ key_ltb b a = true;
}.

#[global] Instance N_key_order : KeyOrder N := N.ltb.

#[global] Instance N_key_order_laws : KeyOrderLaws N.
Proof.
  split; unfold key_ltb, N_key_order.
  - apply N.ltb_irrefl.
  - intros a b c. rewrite !N.ltb_lt. lia.
  - intros a b. rewrite !N.ltb_lt. lia.
Qed.

(** Strings are compared byte by byte. *)
#[global] Instance string_key_order : KeyOrder string := String.ltb.

Lemma string_compare_trans (a b c : string) :
  String.compare a b = Lt -> String.compare b c = Lt -> String.compare a c = Lt.
Proof.
  revert b c. induction a as [|x a IH]; intros [|y b] [|z c]; cbn; try done.
  unfold Ascii.compare.
  destruct (N.compare_spec (Ascii.N_of_ascii x) (Ascii.N_of_ascii y)) as [Hxy|Hxy|Hxy]; [| |done].
  - rewrite Hxy. destruct (N.compare_spec (Ascii.N_of_ascii y) (Ascii.N_of_ascii z)); eauto.
  - destruct (N.compare_spec (Ascii.N_of_ascii y) (Ascii.N_of_ascii z)) as [Hyz|Hyz|Hyz]; intros _; [| |done];
      intros _; destruct (N.compare_spec (Ascii.N_of_ascii x) (Ascii.N_of_ascii z)); (done || lia).
Qed.

#[global] Instance string_key_order_laws : KeyOrderLaws string.
Proof.
  assert (Hlt : forall a b : string, key_ltb a b = true <-> String.compare a b = Lt).
  { intros a b. unfold key_ltb, string_key_order, String.ltb. by destruct (String.compare a b). }
  split.
  - intros k. destruct (key_ltb k k) eqn:H; [|done]. apply Hlt in H. pose proof H as H'.
    rewrite String.compare_antisym, H in H'. done.
  - intros a b c. rewrite !Hlt. apply string_compare_trans.
  - intros a b. rewrite !Hlt. rewrite (String.compare_antisym b a).
    destruct (String.compare a b) eqn:H; [|by left|by right; right].
    right; left. by apply String.compare_eq_iff.
Qed.

(** Pairs are compared lexicographically. *)
#[global] Instance prod_key_order {A B} `{EqDecision A, KeyOrder A, KeyOrder B} : KeyOrder (A * B) :=
  fun x y => key_ltb x.1 y.1 || (bool_decide (x.1 = y.1) && key_ltb x.2 y.2).

#[global] Instance prod_key_order_laws {A B} `{EqDecision A, KeyOrder A, KeyOrder B}
  `{!KeyOrderLaws A, !KeyOrderLaws B} : KeyOrderLaws (A * B).
Proof.
  split; unfold key_ltb at 1, prod_key_order.
  - intros [a b]. cbn. by rewrite !key_ltb_irrefl, andb_false_r.
  - intros [a b] [c d] [e f]. unfold key_ltb at 3, prod_key_order. cbn.
    rewrite !orb_true_iff, !andb_true_iff, !bool_decide_eq_true. unfold key_ltb at 5. cbn.
    rewrite orb_true_iff, andb_true_iff, bool_decide_eq_true.
    intros [H1|[-> H1]] [H2|[-> H2]]; eauto using key_ltb_trans.
  - intros [a b] [c d]. unfold key_ltb at 3. cbn.
    rewrite !orb_true_iff, !andb_true_iff, !bool_decide_eq_true.
    destruct (key_ltb_total a c) as [?|[->|?]]; [by eauto| |by eauto].
    destruct (key_ltb_total b d) as [?|[->|?]]; eauto 6.
Qed.

Module BTreeMap.
Section btree.
Context {K V : Type} `{EqDecision K, KeyOrder K}.

Definition t : Type := list (K * V).

Fixpoint get (k : K) (m : t) : option V :=
  match m with
  | [] => None
  | (k', v) :: m => if decide (k = k') then Some v else get k m
  end.

Fixpoint insert (k : K) (v : V) (m : t) : t :=
  match m with
  | [] => [(k, v)]
  | (k', v') :: m' =>
      if key_ltb k k' then (k, v) :: m
      else if decide (k = k') then (k, v) :: m' else (k', v') :: insert k v m'
  end.

Definition retain (f : K -> V -> bool) (m : t) : t := List.filter (fun kv => f kv.1 kv.2) m.
Definition remove (k : K) (m : t) : t := retain (fun k' _ => negb (bool_decide (k' = k))) m.
Definition last_key_value (m : t) : option (K * V) := last m.

(** [range(k..)] and, with an update of the values, [range_mut(k..)]. *)
Definition range_from (k : K) (m : t) : t := retain (fun k' _ => negb (key_ltb k' k)) m.
Definition map_range_from (k : K) (f : V -> V) (m : t) : t :=
  (fun kv => if key_ltb kv.1 k then kv else (kv.1, f kv.2)) <$> m.

(** Strictly increasing keys. *)
Definition sorted (m : t) : Prop := StronglySorted (fun a b => key_ltb a.1 b.1 = true) m.

(** As multisets of entries. *)
Lemma insert_submseteq k v m : insert k v m ⊆+ (k, v) :: m.
Proof.
  induction m as [|[k1 v1] m IH]; cbn; [done|]. case_match; [done|]. case_match.
  - by apply submseteq_skip, submseteq_cons.
  - rewrite Permutation_swap. by apply submseteq_skip.
Qed.

Lemma insert_new_Permutation k v m : get k m = None -> insert k v m ≡ₚ (k, v) :: m.
Proof.
  induction m as [|[k1 v1] m IH]; cbn; [done|]. destruct (decide (k = k1)) as [|]; [done|]. intros Hg.
  case_match; [done|]. rewrite IH by done. apply Permutation_swap.
Qed.

Lemma retain_submseteq f m : retain f m ⊆+ m.
Proof.
  unfold retain. induction m as [|kv m IH]; cbn; [done|].
  case_match; [by apply submseteq_skip|by apply submseteq_cons].
Qed.

Lemma remove_submseteq k v m : get k m = Some v -> (k, v) :: remove k m ⊆+ m.
Proof.
  induction m as [|[k1 v1] m IH]; [done|].
  assert (Hrem : remove k ((k1, v1) :: m) = if decide (k1 = k) then remove k m else (k1, v1) :: remove k m).
  { unfold remove, retain. cbn. by destruct (decide (k1 = k)) as [Heq|Hne];
      [rewrite bool_decide_true by done|rewrite bool_decide_false by done]. }
  rewrite Hrem. cbn [get]. destruct (decide (k = k1)) as [<-|Hne].
  - intros [= ->]. rewrite decide_True by done. apply submseteq_skip, retain_submseteq.
  - intros Hg. rewrite decide_False by done. rewrite Permutation_swap. by apply submseteq_skip, IH.
Qed.

Section laws.
Context `{!KeyOrderLaws K}.

Lemma key_ltb_ne a b : key_ltb a b = true -> a <> b.
Proof. intros H' ->. by rewrite key_ltb_irrefl in H'. Qed.

Lemma key_ltb_asym a b : key_ltb a b = true -> key_ltb b a = false.
Proof.
  intros Hab. destruct (key_ltb b a) eqn:Hba; [|done].
  pose proof (key_ltb_trans _ _ _ Hab Hba) as Haa. by rewrite key_ltb_irrefl in Haa.
Qed.

Lemma get_insert k v m : get k (insert k v m) = Some v.
Proof.
  induction m as [|[k' v'] m IH]; cbn.
  - by rewrite decide_True.
  - destruct (key_ltb k k') eqn:Hlt; [|destruct (decide (k = k')) as [->|]]; cbn.
    + by rewrite decide_True.
    + by rewrite decide_True.
    + by rewrite decide_False.
Qed.

Lemma get_insert_ne k k' v m : k <> k' -> get k' (insert k v m) = get k' m.
Proof.
  intros Hne. induction m as [|[k1 v1] m IH]; cbn.
  - by rewrite decide_False.
  - destruct (key_ltb k k1) eqn:Hlt; [|destruct (decide (k = k1)) as [->|]]; cbn.
    + by rewrite decide_False.
    + by rewrite !decide_False.
    + by rewrite IH.
Qed.

Lemma elem_of_insert kv k v m : kv ∈ insert k v m -> kv = (k, v) \/ kv ∈ m.
Proof.
  induction m as [|[k1 v1] m IH]; cbn.
  - rewrite list_elem_of_singleton. by left.
  - repeat case_match; rewrite ?elem_of_cons; naive_solver.
Qed.

Lemma insert_sorted k v m : sorted m -> sorted (insert k v m).
Proof.
  intros Hm. induction Hm as [|[k1 v1] m Hm IH Hk]; cbn.
  { repeat constructor. }
  destruct (key_ltb k k1) eqn:Hlt; [|destruct (decide (k = k1)) as [->|Hne]].
  - constructor; [by constructor|]. constructor; [done|].
    eapply Forall_impl; [exact Hk|]. intros [k2 v2] Hk2. cbn in *. by eapply key_ltb_trans.
  - by constructor.
  - constructor; [done|]. apply Forall_forall. intros kv [->|Hin]%elem_of_insert.
    + destruct (key_ltb_total k k1) as [?|[?|?]]; [congruence|done|done].
    + rewrite Forall_forall in Hk. by apply Hk.
Qed.

Lemma retain_sorted f m : sorted m -> sorted (retain f m).
Proof.
  intros Hm. induction Hm as [|[k1 v1] m Hm IH Hk]; cbn; [constructor|].
  case_match; [|done]. constructor; [done|]. rewrite Forall_forall in Hk |- *.
  intros kv [? _]%list_elem_of_In%List.filter_In. by apply Hk, list_elem_of_In.
Qed.

Lemma map_range_from_sorted k f m : sorted m -> sorted (map_range_from k f m).
Proof.
  intros Hm. induction Hm as [|[k1 v1] m Hm IH Hk]; [constructor|].
  cbn [map_range_from fmap list_fmap]. constructor; [exact IH|].
  rewrite Forall_forall in Hk |- *. intros kv ([k2 v2] & -> & Hin)%list_elem_of_fmap.
  specialize (Hk _ Hin). cbn in *. by repeat case_match.
Qed.

Lemma get_Some_elem k v m : get k m = Some v -> (k, v) ∈ m.
Proof.
  induction m as [|[k1 v1] m IH]; cbn; [done|].
  destruct (decide (k = k1)) as [->|]; rewrite elem_of_cons; [|by auto]. intros [= ->]. by left.
Qed.

Lemma elem_get k v m : sorted m -> (k, v) ∈ m -> get k m = Some v.
Proof.
  intros Hm. induction Hm as [|[k1 v1] m Hm IH Hk]; cbn; [by intros ?%not_elem_of_nil|].
  rewrite elem_of_cons. intros [[= -> ->]|Hin]; [by rewrite decide_True|].
  rewrite Forall_forall in Hk. specialize (Hk _ Hin). cbn in Hk.
  rewrite decide_False; [by apply IH|]. intros ->. by rewrite key_ltb_irrefl in Hk.
Qed.

Lemma get_retain f m k :
  sorted m ->
  get k (retain f m) = match get k m with Some v => if f k v then Some v else None | None => None end.
Proof.
  intros Hm. unfold retain. induction Hm as [|[k1 v1] m Hm IH Hk]; [done|]. cbn.
  destruct (decide (k = k1)) as [->|Hne].
  - destruct (f k1 v1) eqn:Hf; cbn; [by rewrite decide_True|].
    rewrite IH. destruct (get k1 m) as [v|] eqn:Hg; [|done].
    apply get_Some_elem in Hg. rewrite Forall_forall in Hk. specialize (Hk _ Hg).
    cbn in Hk. by rewrite key_ltb_irrefl in Hk.
  - destruct (f k1 v1); cbn; [by rewrite decide_False|done].
Qed.

(** Nothing but the key decides: then duplicates do not matter. *)
Lemma get_retain_key (f : K -> bool) m k : get k (retain (fun k _ => f k) m) = if f k then get k m else None.
Proof.
  induction m as [|[k1 v1] m IH]; cbn; [by destruct (f k)|]. unfold retain in *.
  destruct (f k1) eqn:Hf; cbn; rewrite IH; destruct (decide (k = k1)) as [->|]; by rewrite ?Hf.
Qed.

Lemma get_remove k m : sorted m -> get k (remove k m) = None.
Proof.
  intros Hm. unfold remove. rewrite get_retain by done. case_match; [|done].
  by rewrite bool_decide_true.
Qed.

Lemma get_remove_ne k k' m : sorted m -> k <> k' -> get k' (remove k m) = get k' m.
Proof.
  intros Hm Hne. unfold remove. rewrite get_retain by done. case_match; [|done].
  by rewrite bool_decide_false.
Qed.

Lemma get_map_range_from k f m k' :
  get k' (map_range_from k f m) = (fun v => if key_ltb k' k then v else f v) <$> get k' m.
Proof.
  induction m as [|[k1 v1] m IH]; [done|]. cbn.
  destruct (key_ltb k1 k) eqn:Hlt; cbn; destruct (decide (k' = k1)) as [->|]; cbn; try rewrite Hlt; done.
Qed.

(** The last key is the greatest. *)
Lemma last_key_value_max k v m k' v' :
  sorted m -> last_key_value m = Some (k, v) -> get k' m = Some v' -> k' = k \/ key_ltb k' k = true.
Proof.
  intros Hm. induction Hm as [|[k1 v1] m Hm IH Hk]; [done|]. unfold last_key_value in *.
  destruct m as [|kv m].
  - cbn. intros [= -> ->]. case_decide; [by left|done].
  - intros Hlast Hget. change (last (kv :: m) = Some (k, v)) in Hlast.
    cbn in Hget. destruct (decide (k' = k1)) as [->|]; [right|by apply IH].
    rewrite Forall_forall in Hk. apply (Hk (k, v)). by apply last_Some_elem_of.
Qed.

Lemma last_key_value_get k v m : sorted m -> last_key_value m = Some (k, v) -> get k m = Some v.
Proof. intros Hm Hlast. apply elem_get; [done|]. by apply last_Some_elem_of. Qed.

Lemma length_insert_new k v m : get k m = None -> length (insert k v m) = S (length m).
Proof.
  induction m as [|[k1 v1] m IH]; cbn; [done|]. destruct (decide (k = k1)); [done|]. intros Hk.
  destruct (key_ltb k k1); [done|]. cbn. by rewrite IH.
Qed.

Lemma length_insert_old k v v' m :
  sorted m -> get k m = Some v' -> length (insert k v m) = length m.
Proof.
  intros Hm. induction Hm as [|[k1 v1] m Hm IH Hk]; cbn; [done|].
  destruct (decide (k = k1)) as [->|Hne].
  - intros _. by rewrite key_ltb_irrefl.
  - intros Hg. destruct (key_ltb k k1) eqn:Hlt; [|cbn; by rewrite IH].
    apply get_Some_elem in Hg. rewrite Forall_forall in Hk. specialize (Hk _ Hg). cbn in Hk.
    by rewrite (key_ltb_asym _ _ Hlt) in Hk.
Qed.

Lemma length_remove k v m : sorted m -> get k m = Some v -> S (length (remove k m)) = length m.
Proof.
  intros Hm. induction Hm as [|[k1 v1] m Hm IH Hk]; cbn; [done|].
  destruct (decide (k = k1)) as [<-|Hne].
  - intros _. rewrite bool_decide_true by done. cbn. f_equal. f_equal.
    unfold retain. induction Hk as [|[k2 v2] m Hk2 Hk IH2]; [done|]. cbn in *.
    rewrite bool_decide_false by (intros ->; by rewrite key_ltb_irrefl in Hk2). cbn. f_equal.
    inversion_clear Hm. apply IH2; [done|]. intros Hg. exfalso. apply get_Some_elem in Hg.
    rewrite Forall_forall in Hk. specialize (Hk _ Hg). cbn in Hk. by rewrite key_ltb_irrefl in Hk.
  - intros Hg. rewrite bool_decide_false by done. cbn. f_equal. by apply IH.
Qed.

Lemma length_retain f m : length (retain f m) <= length m.
Proof. unfold retain. induction m as [|kv m IH]; cbn; [lia|]. case_match; cbn; lia. Qed.

(** The keys, and the values in the order of the keys. *)
Definition keys (m : t) : list K := m.*1.

Lemma sorted_NoDup m : sorted m -> NoDup (keys m).
Proof.
  intros Hm. induction Hm as [|[k1 v1] m Hm IH Hk]; [constructor|]. cbn. constructor; [|done].
  intros ([k2 v2] & -> & Hin)%list_elem_of_fmap. rewrite Forall_forall in Hk.
  specialize (Hk _ Hin). cbn in Hk. by rewrite key_ltb_irrefl in Hk.
Qed.

Lemma elem_of_keys k m : k ∈ keys m <-> is_Some (get k m).
Proof.
  induction m as [|[k1 v1] m IH]; cbn.
  - split; [by intros ?%not_elem_of_nil|by intros [? ?]].
  - rewrite elem_of_cons, IH. destruct (decide (k = k1)) as [->|]; [|naive_solver].
    split; [by eexists|by left].
Qed.

End laws.
End btree.
Arguments t : clear implicits.
End BTreeMap.
