(* ===== verification/BoundedQueue.v ===== *)
(** * The bounded queue of pending inputs

    [BoundedQueue] of core-consensus/src/util/bounded_queue.rs: values queued
    under an index, for a bounded number of distinct indices. Its behaviour is
    equivalent to a simple reference: of the indices pushed, the smallest ones
    are kept, as many as the capacity allows, each with all its values. *)

From S2P Require Import Prelude BTree.

Module BoundedQueue.
Record t {I T : Type} : Type := mk {
  capacity : nat;
  queue : BTreeMap.t I (list T);
}.
Arguments t : clear implicits.
Arguments mk {I T} capacity queue.

Section queue.
Context {I T : Type} `{EqDecision I, KeyOrder I}.
Implicit Types (self : t I T).

Definition new (capacity : nat) : t I T := mk capacity [].

Definition push self (index : I) (value : T) : t I T * bool :=
  match BTreeMap.get index self.(queue) with
  | Some values =>
      (mk self.(capacity) (BTreeMap.insert index (values ++ [value]) self.(queue)), true)
  | None =>
      if decide (length self.(queue) < self.(capacity))
      then (mk self.(capacity) (BTreeMap.insert index [value] self.(queue)), true)
      else
        match BTreeMap.last_key_value self.(queue) with
        | Some (max_index, _) =>
            if key_ltb index max_index
            then (mk self.(capacity)
                    (BTreeMap.insert index [value] (BTreeMap.remove max_index self.(queue))), true)
            else (self, false)
        | None => (self, false)
        end
  end.

Definition shift self (min_index : I) : t I T :=
  mk self.(capacity) (BTreeMap.retain (fun index _ => negb (key_ltb index min_index)) self.(queue)).

Definition take self (index : I) : t I T * list T :=
  (mk self.(capacity) (BTreeMap.remove index self.(queue)),
   match BTreeMap.get index self.(queue) with Some values => values | None => [] end).

Definition shift_and_take self (min_index : I) : t I T * list T :=
  take (shift self min_index) min_index.

Definition is_full self : bool := bool_decide (self.(capacity) <= length self.(queue)).
Definition is_empty self : bool := match self.(queue) with [] => true | _ => false end.
Definition len self : nat := length self.(queue).
Definition size self : nat := sum_list (length <$> self.(queue).*2).

(** ** Well-formed queues *)

Definition wf self : Prop :=
  BTreeMap.sorted self.(queue) /\ len self <= self.(capacity) /\
  Forall (fun kv => kv.2 <> []) self.(queue).

Context `{!KeyOrderLaws I}.

Lemma Forall_insert (P : I * list T -> Prop) k v m :
  P (k, v) -> Forall P m -> Forall P (BTreeMap.insert k v m).
Proof.
  rewrite !Forall_forall. intros Hk Hm kv [->|]%BTreeMap.elem_of_insert; auto.
Qed.

Lemma Forall_retain (P : I * list T -> Prop) f m : Forall P m -> Forall P (BTreeMap.retain f m).
Proof.
  rewrite !Forall_forall. intros Hm kv [Hin _]%list_elem_of_In%List.filter_In.
  by apply Hm, list_elem_of_In.
Qed.

Lemma wf_new capacity : wf (new capacity).
Proof. split_and!; [constructor|cbn; lia|constructor]. Qed.

Lemma wf_push self index value : wf self -> wf (push self index value).1.
Proof.
  intros (Hs & Hl & Hf). unfold push, len in *.
  destruct (BTreeMap.get index _) as [values|] eqn:Hg; [|destruct (decide _) as [Hlt|Hge]; [|
    destruct (BTreeMap.last_key_value _) as [[mx vs]|] eqn:Hlast; [destruct (key_ltb index mx)|]]];
    cbn; try done; unfold wf, len; cbn.
  - split_and!; [by apply BTreeMap.insert_sorted| |by apply Forall_insert; [by destruct values|]].
    by erewrite BTreeMap.length_insert_old.
  - split_and!; [by apply BTreeMap.insert_sorted| |by apply Forall_insert].
    rewrite BTreeMap.length_insert_new by done. lia.
  - pose proof (BTreeMap.retain_sorted (fun k' _ => negb (bool_decide (k' = mx))) _ Hs) as Hs'.
    split_and!; [by apply BTreeMap.insert_sorted| |by apply Forall_insert, Forall_retain].
    apply BTreeMap.last_key_value_get in Hlast; [|done].
    rewrite BTreeMap.length_insert_new.
    + by rewrite (BTreeMap.length_remove _ _ _ Hs Hlast).
    + unfold BTreeMap.remove. rewrite BTreeMap.get_retain by done. by rewrite Hg.
Qed.

Lemma wf_shift_and_take self index : wf self -> wf (shift_and_take self index).1.
Proof.
  intros (Hs & Hl & Hf). unfold wf, len, shift_and_take, take, shift, BTreeMap.remove in *.
  cbn [fst queue capacity]. split_and!.
  - by apply BTreeMap.retain_sorted, BTreeMap.retain_sorted.
  - etrans; [apply BTreeMap.length_retain|].
    etrans; [apply BTreeMap.length_retain|done].
  - by apply Forall_retain, Forall_retain.
Qed.

End queue.

(** ** The reference *)

Section reference.
Context {I T : Type} `{EqDecision I, KeyOrder I}.
Implicit Types (pushes : list (I * T)).

(** The number of distinct indices pushed that are smaller than [index]. *)
Definition smaller index pushes : list I :=
  filter (fun j => key_ltb j index = true) (remove_dups pushes.*1).
Definition rank index pushes : nat := length (smaller index pushes).

(** The values pushed under [index], in their order. *)
Definition values_of index pushes : list T := (filter (fun p => p.1 = index) pushes).*2.

Definition reference (capacity : nat) pushes (index : I) : option (list T) :=
  if decide (index ∈ pushes.*1 /\ rank index pushes < capacity)
  then Some (values_of index pushes) else None.

Definition push_all (capacity : nat) pushes : t I T :=
  foldl (fun self p => (push self p.1 p.2).1) (new capacity) pushes.

Context `{!KeyOrderLaws I}.

Lemma count_le (l k : list I) : NoDup l -> (forall x, x ∈ l -> x ∈ k) -> length l <= length k.
Proof. intros Hl Hk. by apply submseteq_length, NoDup_submseteq. Qed.

Lemma elem_of_indices_snoc x pushes p : x ∈ (pushes ++ [p]).*1 <-> x ∈ pushes.*1 \/ x = p.1.
Proof. rewrite fmap_app, elem_of_app. cbn. by rewrite list_elem_of_singleton. Qed.

Lemma elem_of_smaller j index pushes :
  j ∈ smaller index pushes <-> j ∈ pushes.*1 /\ key_ltb j index = true.
Proof. unfold smaller. rewrite list_elem_of_filter, elem_of_remove_dups. tauto. Qed.

Lemma NoDup_smaller index pushes : NoDup (smaller index pushes).
Proof. apply NoDup_filter, NoDup_remove_dups. Qed.

Lemma rank_lt i j pushes : key_ltb i j = true -> i ∈ pushes.*1 -> rank i pushes < rank j pushes.
Proof.
  intros Hij Hi. apply (count_le (i :: smaller i pushes)).
  - constructor; [|apply NoDup_smaller]. rewrite elem_of_smaller, key_ltb_irrefl. by intros [_ ?].
  - intros x. rewrite elem_of_cons, !elem_of_smaller.
    intros [->|[? ?]]; split; try done. by eapply key_ltb_trans.
Qed.

Lemma rank_mono i j pushes : key_ltb i j = true -> rank i pushes <= rank j pushes.
Proof.
  intros Hij. apply count_le; [apply NoDup_smaller|]. intros x. rewrite !elem_of_smaller.
  intros [? ?]. split; [done|]. by eapply key_ltb_trans.
Qed.

Lemma rank_snoc_le i pushes p : rank i pushes <= rank i (pushes ++ [p]).
Proof.
  apply count_le; [apply NoDup_smaller|]. intros x.
  rewrite !elem_of_smaller, elem_of_indices_snoc. tauto.
Qed.

(** A push counts for the indices above it, if its index is new. *)
Lemma rank_snoc_same i pushes p :
  p.1 ∈ pushes.*1 \/ key_ltb p.1 i = false -> rank i (pushes ++ [p]) = rank i pushes.
Proof.
  intros Hp. apply Nat.le_antisymm; [|apply rank_snoc_le].
  apply count_le; [apply NoDup_smaller|]. intros x.
  rewrite !elem_of_smaller, elem_of_indices_snoc.
  intros [[?| ->] Hlt]; [done|]. destruct Hp as [?|Hp]; [done|congruence].
Qed.

Lemma rank_snoc_new i pushes p :
  p.1 ∉ pushes.*1 -> key_ltb p.1 i = true -> rank i (pushes ++ [p]) = S (rank i pushes).
Proof.
  intros Hp Hlt. apply Nat.le_antisymm.
  - apply (count_le _ (p.1 :: smaller i pushes)); [apply NoDup_smaller|]. intros x.
    rewrite elem_of_cons, !elem_of_smaller, elem_of_indices_snoc. tauto.
  - apply (count_le (p.1 :: smaller i pushes)).
    + constructor; [by rewrite elem_of_smaller; intros [? _]|apply NoDup_smaller].
    + intros x. rewrite elem_of_cons, !elem_of_smaller, elem_of_indices_snoc.
      intros [->|[? ?]]; tauto.
Qed.

Lemma values_of_snoc i pushes p :
  values_of i (pushes ++ [p]) = values_of i pushes ++ (if decide (p.1 = i) then [p.2] else []).
Proof.
  unfold values_of. rewrite filter_app, fmap_app. f_equal. by destruct (decide (p.1 = i)) as [Hp|Hp];
    [rewrite filter_cons_True by done|rewrite filter_cons_False by done].
Qed.

Lemma values_of_new i pushes : i ∉ pushes.*1 -> values_of i pushes = [].
Proof.
  intros Hi. unfold values_of. destruct (filter _ pushes) as [|p l] eqn:Hf; [done|].
  destruct Hi. assert (Hp : p ∈ filter (fun p => p.1 = i) pushes) by (rewrite Hf; by left).
  apply list_elem_of_filter in Hp as [<- Hp]. by apply list_elem_of_fmap_2.
Qed.

(** ** The equivalence *)

(** The queue after [pushes] is the reference; below its capacity it has kept
    every index. *)
Definition agrees (self : t I T) (capacity : nat) pushes : Prop :=
  self.(BoundedQueue.capacity) = capacity /\ wf self /\
  (forall index, BTreeMap.get index self.(queue) = reference capacity pushes index) /\
  (len self < capacity -> forall index, index ∈ pushes.*1 -> rank index pushes < capacity).

Lemma reference_Some capacity pushes i vs :
  reference capacity pushes i = Some vs ->
  i ∈ pushes.*1 /\ rank i pushes < capacity /\ vs = values_of i pushes.
Proof. unfold reference. case_decide; naive_solver. Qed.

Lemma reference_ext capacity pushes pushes' i :
  (i ∈ pushes.*1 /\ rank i pushes < capacity <-> i ∈ pushes'.*1 /\ rank i pushes' < capacity) ->
  values_of i pushes = values_of i pushes' ->
  reference capacity pushes i = reference capacity pushes' i.
Proof. intros Hi Hv. unfold reference. rewrite Hv. by repeat case_decide; tauto. Qed.

(** The keys of a queue below some index are counted by its rank. *)
Lemma len_le_rank (self : t I T) pushes i :
  wf self -> (forall k, is_Some (BTreeMap.get k self.(queue)) -> k ∈ pushes.*1 /\ key_ltb k i = true) ->
  len self <= rank i pushes.
Proof.
  intros (Hs & _ & _) Hk. unfold len. rewrite <- (length_fmap fst).
  apply count_le; [by apply BTreeMap.sorted_NoDup|].
  intros k Hin. apply elem_of_smaller, Hk. by apply BTreeMap.elem_of_keys.
Qed.

Lemma agrees_old self capacity pushes index value values :
  agrees self capacity pushes -> BTreeMap.get index self.(queue) = Some values ->
  agrees (push self index value).1 capacity (pushes ++ [(index, value)]).
Proof.
  intros (Hcap & Hwf & Hget & Hall) Hg. pose proof (wf_push self index value Hwf) as Hwf'.
  unfold push in *. rewrite Hg in *. rewrite Hget in Hg.
  apply reference_Some in Hg as (Hin & Hrank & ->). split_and!; [done|done| |].
  - intros j. cbn [fst queue]. destruct (decide (index = j)) as [<-|Hne].
    + rewrite BTreeMap.get_insert. unfold reference. rewrite decide_True.
      * by rewrite values_of_snoc, decide_True.
      * rewrite rank_snoc_same by by left. rewrite elem_of_indices_snoc. auto.
    + rewrite BTreeMap.get_insert_ne, Hget by done. apply reference_ext.
      * rewrite rank_snoc_same by by left. rewrite elem_of_indices_snoc. naive_solver.
      * by rewrite values_of_snoc, decide_False, app_nil_r.
  - unfold len in *. cbn [fst queue]. destruct Hwf as (Hs & _).
    rewrite (BTreeMap.length_insert_old _ _ (values_of index pushes)) by
      (try done; rewrite Hget; unfold reference; by rewrite decide_True).
    intros Hlt j Hj. rewrite rank_snoc_same by by left. apply Hall; [done|].
    apply elem_of_indices_snoc in Hj as [?| ->]; done.
Qed.

Lemma not_kept_new self capacity pushes index :
  agrees self capacity pushes -> BTreeMap.get index self.(queue) = None ->
  rank index pushes < capacity -> index ∉ pushes.*1.
Proof.
  intros (_ & _ & Hget & _) Hg Hr Hin. rewrite Hget in Hg. unfold reference in Hg.
  by rewrite decide_True in Hg.
Qed.

Lemma agrees_space self capacity pushes index value :
  agrees self capacity pushes -> BTreeMap.get index self.(queue) = None -> len self < capacity ->
  agrees (push self index value).1 capacity (pushes ++ [(index, value)]).
Proof.
  intros Hagrees Hg Hlen. pose proof Hagrees as (Hcap & Hwf & Hget & Hall).
  pose proof (wf_push self index value Hwf) as Hwf'.
  assert (Hnew : index ∉ pushes.*1).
  { intros Hin. by apply (not_kept_new _ _ _ _ Hagrees Hg); [apply Hall|]. }
  unfold push in *. rewrite Hg in *. unfold len in *. rewrite decide_True in * by lia. cbn [fst] in *.
  assert (Hrank : forall j, j ∈ (pushes ++ [(index, value)]).*1 ->
    rank j (pushes ++ [(index, value)]) < capacity).
  { intros j Hj. unfold lt.
    transitivity (length (BTreeMap.keys (BTreeMap.insert index [value] self.(queue)))).
    2:{ unfold BTreeMap.keys. rewrite length_fmap, BTreeMap.length_insert_new by done. lia. }
    apply (count_le (j :: smaller j _)).
    { constructor; [|apply NoDup_smaller]. rewrite elem_of_smaller, key_ltb_irrefl. by intros [_ ?]. }
    intros x. rewrite elem_of_cons, elem_of_smaller, BTreeMap.elem_of_keys.
    intros Hx. assert (Hx' : x ∈ (pushes ++ [(index, value)]).*1) by (destruct Hx as [->|[? _]]; done).
    destruct (decide (index = x)) as [<-|Hne]; [by rewrite BTreeMap.get_insert|].
    rewrite BTreeMap.get_insert_ne, Hget by done. unfold reference.
    apply elem_of_indices_snoc in Hx' as [Hx'| ->]; [|done]. rewrite decide_True; [done|]. auto. }
  split_and!; [done|done| |by intros _].
  intros j. cbn [queue]. destruct (decide (index = j)) as [<-|Hne].
  - rewrite BTreeMap.get_insert. unfold reference.
    rewrite decide_True by (split; [|apply Hrank]; apply elem_of_indices_snoc; by right).
    by rewrite values_of_snoc, decide_True, values_of_new.
  - rewrite BTreeMap.get_insert_ne, Hget by done. apply reference_ext.
    + rewrite elem_of_indices_snoc. split.
      * intros [Hj _]. split; [by left|]. apply Hrank, elem_of_indices_snoc. by left.
      * intros [[Hj| ->] _]; [|done]. auto.
    + by rewrite values_of_snoc, decide_False, app_nil_r.
Qed.

(** A kept index comes from the pushes. *)
Lemma agrees_kept self capacity pushes k :
  agrees self capacity pushes -> is_Some (BTreeMap.get k self.(queue)) ->
  k ∈ pushes.*1 /\ rank k pushes < capacity.
Proof.
  intros (_ & _ & Hget & _) [vs Hk]. rewrite Hget in Hk.
  apply reference_Some in Hk as (? & ? & _). done.
Qed.

(** In a full queue the greatest index has the last rank that is kept. *)
Lemma agrees_full_rank self capacity pushes mx vs i :
  agrees self capacity pushes -> len self = capacity ->
  BTreeMap.last_key_value self.(queue) = Some (mx, vs) ->
  mx = i \/ key_ltb mx i = true -> capacity <= rank i pushes + (if decide (mx = i) then 1 else 0).
Proof.
  intros Hagrees Hlen Hlast Hi. pose proof Hagrees as (Hcap & (Hs & _) & Hget & _).
  rewrite <- Hlen. unfold len. rewrite <- (length_fmap fst). destruct (decide (mx = i)) as [<-|Hne].
  - rewrite Nat.add_1_r. apply (count_le _ (mx :: smaller mx pushes)); [by apply BTreeMap.sorted_NoDup|].
    intros k [v Hk]%BTreeMap.elem_of_keys. rewrite elem_of_cons, elem_of_smaller.
    destruct (BTreeMap.last_key_value_max _ _ _ _ _ Hs Hlast Hk) as [->|?]; [by left|right].
    split; [|done]. by apply (agrees_kept self capacity).
  - destruct Hi as [->|Hi]; [done|]. rewrite Nat.add_0_r.
    apply count_le; [by apply BTreeMap.sorted_NoDup|].
    intros k [v Hk]%BTreeMap.elem_of_keys. rewrite elem_of_smaller.
    split; [by apply (agrees_kept self capacity)|].
    destruct (BTreeMap.last_key_value_max _ _ _ _ _ Hs Hlast Hk) as [->|?]; [done|].
    by eapply key_ltb_trans.
Qed.

Lemma rank_snoc_le_S i pushes p : rank i (pushes ++ [p]) <= S (rank i pushes).
Proof.
  destruct (decide (p.1 ∈ pushes.*1)) as [Hin|Hnew]; [rewrite rank_snoc_same by (by left); lia|].
  destruct (key_ltb p.1 i) eqn:Hlt; [by rewrite rank_snoc_new|].
  rewrite rank_snoc_same by (by right). lia.
Qed.

Lemma agrees_evict self capacity pushes index value mx vs :
  agrees self capacity pushes -> BTreeMap.get index self.(queue) = None -> len self = capacity ->
  BTreeMap.last_key_value self.(queue) = Some (mx, vs) -> key_ltb index mx = true ->
  agrees (push self index value).1 capacity (pushes ++ [(index, value)]).
Proof.
  intros Hagrees Hg Hlen Hlast Hlt. pose proof Hagrees as (Hcap & Hwf & Hget & _).
  pose proof (wf_push self index value Hwf) as Hwf'. destruct Hwf as (Hs & _).
  pose proof (BTreeMap.last_key_value_get _ _ _ Hs Hlast) as Hmx.
  destruct (agrees_kept _ _ _ mx Hagrees) as [Hmx_in Hmx_rank]; [by eexists|].
  assert (Hrank : rank index pushes < capacity).
  { eapply Nat.le_lt_trans; [by apply (rank_mono _ mx)|done]. }
  pose proof (not_kept_new _ _ _ _ Hagrees Hg Hrank) as Hnew.
  pose proof (BTreeMap.key_ltb_ne _ _ Hlt) as Hne.
  unfold push in *. rewrite Hg, Hlast, Hlt in *. unfold len in *. rewrite decide_False in * by lia.
  cbn [fst] in *. split_and!; [done|done| |].
  2:{ unfold len. cbn [queue]. rewrite BTreeMap.length_insert_new by (by rewrite BTreeMap.get_remove_ne).
      rewrite (BTreeMap.length_remove _ _ _ Hs Hmx). lia. }
  intros j. cbn [queue]. destruct (decide (index = j)) as [<-|Hj].
  { rewrite BTreeMap.get_insert. unfold reference. rewrite decide_True.
    - by rewrite values_of_snoc, decide_True, values_of_new.
    - rewrite elem_of_indices_snoc, rank_snoc_same by (right; apply key_ltb_irrefl). auto. }
  rewrite BTreeMap.get_insert_ne by done. destruct (decide (mx = j)) as [<-|Hjm].
  { rewrite BTreeMap.get_remove by done. unfold reference. rewrite decide_False; [done|].
    intros [_ Hr]. rewrite rank_snoc_new in Hr by done.
    pose proof (agrees_full_rank _ _ _ mx vs mx Hagrees Hlen Hlast (or_introl eq_refl)) as Hfull.
    rewrite decide_True in Hfull by done. lia. }
  rewrite BTreeMap.get_remove_ne, Hget by done. apply reference_ext.
  - rewrite elem_of_indices_snoc. split.
    + intros [Hin Hr]. split; [by left|].
      assert (Hkept : BTreeMap.get j self.(queue) = Some (values_of j pushes)).
      { rewrite Hget. unfold reference. by rewrite decide_True. }
      destruct (BTreeMap.last_key_value_max _ _ _ _ _ Hs Hlast Hkept) as [->|Hlt']; [done|].
      pose proof (rank_lt _ _ _ Hlt' Hin). pose proof (rank_snoc_le_S j pushes (index, value)). lia.
    + intros [[Hin| ->] Hr]; [|done]. split; [done|].
      pose proof (rank_snoc_le j pushes (index, value)). lia.
  - by rewrite values_of_snoc, decide_False, app_nil_r.
Qed.

Lemma agrees_reject self capacity pushes index value :
  agrees self capacity pushes -> BTreeMap.get index self.(queue) = None -> len self = capacity ->
  (forall mx vs, BTreeMap.last_key_value self.(queue) = Some (mx, vs) -> key_ltb index mx = false) ->
  agrees self capacity (pushes ++ [(index, value)]).
Proof.
  intros Hagrees Hg Hlen Hmax. pose proof Hagrees as (Hcap & Hwf & Hget & _).
  assert (Hover : forall mx vs, BTreeMap.last_key_value self.(queue) = Some (mx, vs) ->
    key_ltb mx index = true).
  { intros mx vs Hlast. pose proof (Hmax mx vs Hlast). destruct Hwf as (Hs & _).
    destruct (key_ltb_total mx index) as [?|[->|?]]; [done| |congruence].
    by rewrite (BTreeMap.last_key_value_get _ _ _ Hs Hlast) in Hg. }
  assert (Hrank : capacity <= rank index pushes).
  { destruct (BTreeMap.last_key_value self.(queue)) as [[mx vs]|] eqn:Hlast.
    - pose proof (agrees_full_rank _ _ _ mx vs index Hagrees Hlen Hlast (or_intror (Hover _ _ eq_refl))) as Hr.
      rewrite decide_False in Hr by (by apply BTreeMap.key_ltb_ne, (Hover mx vs)). lia.
    - unfold BTreeMap.last_key_value in Hlast. apply last_None in Hlast.
      unfold len in Hlen. rewrite Hlast in Hlen. cbn in Hlen. lia. }
  split_and!; [done|done| |lia]. intros j. rewrite Hget. destruct (decide (index = j)) as [<-|Hj].
  { unfold reference. rewrite !decide_False; [done| |];
    intros [_ Hr]; pose proof (rank_snoc_le index pushes (index, value)); lia. }
  apply reference_ext; [|by rewrite values_of_snoc, decide_False, app_nil_r].
  rewrite elem_of_indices_snoc. split.
  - intros [Hin Hr]. split; [by left|]. rewrite rank_snoc_same; [done|]. right. cbn.
    destruct (key_ltb index j) eqn:Hij; [|done]. pose proof (rank_mono _ _ pushes Hij). lia.
  - intros [[Hin| ->] Hr]; [|done]. split; [done|].
    pose proof (rank_snoc_le j pushes (index, value)). lia.
Qed.

Lemma agrees_push self capacity pushes index value :
  agrees self capacity pushes ->
  agrees (push self index value).1 capacity (pushes ++ [(index, value)]).
Proof.
  intros Hagrees. destruct (BTreeMap.get index self.(queue)) as [values|] eqn:Hg; [by eapply agrees_old|].
  destruct (decide (len self < capacity)) as [Hlt|Hge]; [by apply agrees_space|].
  pose proof Hagrees as (Hcap & (_ & Hle & _) & _). assert (Hlen : len self = capacity) by lia.
  destruct (BTreeMap.last_key_value self.(queue)) as [[mx vs]|] eqn:Hlast;
    [destruct (key_ltb index mx) eqn:Hmx; [by eapply agrees_evict|]|].
  all: assert (Hpush : (push self index value).1 = self)
    by (unfold push; rewrite Hg, Hlast, ?Hmx, decide_False by (unfold len in *; lia); done).
  all: rewrite Hpush; apply agrees_reject; try done; intros ? ? Hl; rewrite Hlast in Hl; by simplify_eq.
Qed.

Lemma agrees_push_all capacity pushes : agrees (push_all capacity pushes) capacity pushes.
Proof.
  induction pushes as [|p pushes IH] using rev_ind.
  - split_and!; [done|apply wf_new| |by intros _ ? ?%not_elem_of_nil].
    intros i. unfold reference. rewrite decide_False; [done|]. by intros [?%not_elem_of_nil _].
  - unfold push_all. rewrite foldl_app. cbn. destruct p as [index value]. by apply agrees_push.
Qed.

(** C39: the queue is equivalent to its reference: whatever was pushed, an index
    is in the queue exactly when fewer distinct indices than the capacity were
    pushed below it, and then with all the values pushed under it, in order. *)
Theorem push_all_reference capacity pushes index :
  BTreeMap.get index (push_all capacity pushes).(queue) = reference capacity pushes index.
Proof. apply agrees_push_all. Qed.

(** ** Any sequence of operations *)

Inductive op : Type := Push (index : I) (value : T) | ShiftAndTake (min_index : I).

Definition apply_op (self : t I T) (o : op) : t I T :=
  match o with
  | Push index value => (push self index value).1
  | ShiftAndTake min_index => (shift_and_take self min_index).1
  end.

Lemma wf_ops capacity ops : wf (foldl apply_op (new capacity) ops).
Proof.
  induction ops as [|o ops IH] using rev_ind; [apply wf_new|]. rewrite foldl_app. cbn.
  destruct o; [by apply wf_push|by apply wf_shift_and_take].
Qed.

Lemma capacity_ops capacity ops : (foldl apply_op (new capacity) ops).(BoundedQueue.capacity) = capacity.
Proof.
  induction ops as [|o ops IH] using rev_ind; [done|]. rewrite foldl_app. cbn.
  destruct o; [|done]. cbn. unfold push. by repeat case_match.
Qed.

(** the queue never holds more distinct indices than its capacity, and has
    no index without values, whatever the operations on it. *)
Theorem queue_bounded capacity ops :
  let self := foldl apply_op (new capacity) ops in
  len self <= capacity /\ Forall (fun kv => kv.2 <> []) self.(queue).
Proof.
  cbn zeta. destruct (wf_ops capacity ops) as (_ & Hlen & Hf). by rewrite capacity_ops in Hlen.
Qed.

(** Taking an index: its values come out, it and all smaller indices are gone,
    and the others stay. *)
Lemma shift_and_take_spec (self : t I T) index :
  wf self ->
  (shift_and_take self index).2 = default [] (BTreeMap.get index self.(queue)) /\
  forall j, BTreeMap.get j (shift_and_take self index).1.(queue) =
    if key_ltb index j then BTreeMap.get j self.(queue) else None.
Proof.
  intros (Hs & _). unfold shift_and_take, take, shift. cbn [queue fst snd]. split.
  - rewrite BTreeMap.get_retain, key_ltb_irrefl by done. by destruct (BTreeMap.get _ _).
  - intros j. pose proof (BTreeMap.retain_sorted (fun k _ => negb (key_ltb k index)) _ Hs) as Hs'.
    destruct (decide (index = j)) as [<-|Hne].
    { by rewrite BTreeMap.get_remove, key_ltb_irrefl. }
    rewrite BTreeMap.get_remove_ne, BTreeMap.get_retain by done.
    destruct (key_ltb_total index j) as [Hlt|[?|Hlt]]; [|done|].
    + rewrite Hlt, (BTreeMap.key_ltb_asym _ _ Hlt). by destruct (BTreeMap.get j _).
    + rewrite Hlt, (BTreeMap.key_ltb_asym _ _ Hlt). by destruct (BTreeMap.get j _).
Qed.

End reference.
End BoundedQueue.

(** ** Instances *)

(** Five inputs for three heights, in a queue for two. *)
Lemma push_all_reference_witness :
  BTreeMap.get 5%N (BoundedQueue.push_all 2 [(7, 1); (9, 2); (7, 3); (5, 4); (9, 5)]%N).(BoundedQueue.queue) =
    Some [4%N] /\
  BTreeMap.get 9%N (BoundedQueue.push_all 2 [(7, 1); (9, 2); (7, 3); (5, 4); (9, 5)]%N).(BoundedQueue.queue) =
    None.
Proof. split; rewrite BoundedQueue.push_all_reference; vm_compute; reflexivity. Defined.

Lemma queue_bounded_witness :
  BoundedQueue.len (foldl BoundedQueue.apply_op (BoundedQueue.new 1)
    [BoundedQueue.Push 7 1; BoundedQueue.Push 5 2; BoundedQueue.ShiftAndTake 6; BoundedQueue.Push 8 3]%N) <= 1.
Proof.
  exact (proj1 (BoundedQueue.queue_bounded 1
    [BoundedQueue.Push 7 1; BoundedQueue.Push 5 2; BoundedQueue.ShiftAndTake 6; BoundedQueue.Push 8 3]%N)).
Defined.
