(* ===== verification/Coroutine.v ===== *)
(** * Coroutines

    The consensus core and value sync are written as coroutines (gen.rs, co.rs
    and the macros [process!] and [perform!]): a handler yields effects to its
    host, is resumed with a value for each, and ends with a result or a panic.
    Here such a computation is a tree with one branch for each value it may be
    resumed with; a handler threads the state it mutates, which is there after
    an error too. Then a program logic: traces of effects, and a weakest
    precondition that covers every run against a class of hosts. *)

From S2P Require Import Prelude.

Section prog.
Context {Eff Res : Type}.

Inductive prog (X : Type) : Type :=
  | Complete (x : X)
  | Panicked (msg : string)
  | OutOfFuel
  | Yielded (e : Eff) (k : Res -> prog X).

End prog.
Arguments prog : clear implicits.
Arguments Complete {Eff Res X} x.
Arguments Panicked {Eff Res X} msg.
Arguments OutOfFuel {Eff Res X}.
Arguments Yielded {Eff Res X} e k.

Fixpoint prog_bind {Eff Res X Y} (m : prog Eff Res X) (f : X -> prog Eff Res Y) : prog Eff Res Y :=
  match m with
  | Complete x => f x
  | Panicked msg => Panicked msg
  | OutOfFuel => OutOfFuel
  | Yielded e k => Yielded e (fun r => prog_bind (k r) f)
  end.

(** ** Handlers

    [async fn(co, &mut state, ...) -> Result<A, Err>]. *)

Definition handler (Eff Res St Err A : Type) : Type := St -> prog Eff Res (St * (Err + A)).

Section handlers.
Context {Eff Res St Err : Type}.
Abbreviation M := (handler Eff Res St Err).

#[global] Instance handler_ret : MRet M := fun A a s => Complete (s, inr a).
#[global] Instance handler_bind : MBind M := fun A B k m s =>
  prog_bind (m s) (fun sr => match sr.2 with inr a => k a sr.1 | inl e => Complete (sr.1, inl e) end).

Definition fail {A} (e : Err) : M A := fun s => Complete (s, inl e).
Definition get_state : M St := fun s => Complete (s, inr s).
Definition put_state (s' : St) : M unit := fun _ => Complete (s', inr tt).
Definition lift {A} (o : outcome A) : M A := fun s =>
  match o with Ret a => Complete (s, inr a) | Panic msg => Panicked msg end.
Definition assert_m (b : bool) (msg : string) : M unit := lift (assert_that b msg).
Definition out_of_fuel {A} : M A := fun _ => OutOfFuel.

(** [co.yield_(effect).await]. *)
Definition yield_ (e : Eff) : M Res := fun s => Yielded e (fun r => Complete (s, inr r)).

Definition unless (b : bool) (m : M unit) : M unit := if b then mret tt else m.
Definition when (b : bool) (m : M unit) : M unit := if b then m else mret tt.

(** [if let Err(e) = m { ... }]: the caller goes on with the result. *)
Definition catch {A} (m : M A) : M (Err + A) := fun s =>
  prog_bind (m s) (fun sr => Complete (sr.1, inr sr.2)).

End handlers.

(** ** Traces and weakest preconditions *)

(** The effects a process has yielded, with what it was resumed with. *)
Definition trace (Eff Res : Type) : Type := list (Eff * Res).

(** The process after a trace. *)
Inductive steps {Eff Res X} : prog Eff Res X -> trace Eff Res -> prog Eff Res X -> Prop :=
  | steps_nil m : steps m [] m
  | steps_cons e k r t m : steps (k r) t m -> steps (Yielded e k) ((e, r) :: t) m.

Lemma steps_app {Eff Res X} (m m' m'' : prog Eff Res X) t t' :
  steps m t m' -> steps m' t' m'' -> steps m (t ++ t') m''.
Proof. induction 1; intros Hs; [done|]. cbn. constructor. auto. Qed.

Lemma trace_split {Eff Res} (e : Eff) (t : trace Eff Res) : e ∈ t.*1 -> exists t1 r t2, t = t1 ++ (e, r) :: t2.
Proof.
  intros ([e' r] & -> & Hin)%list_elem_of_fmap. apply list_elem_of_split in Hin as (t1 & t2 & ->). by exists t1, r, t2.
Qed.

(** Of two effects of a trace, one comes first, or they are the same. *)
Lemma trace_order {Eff Res} (e e' : Eff) (t : trace Eff Res) :
  e ∈ t.*1 -> e' ∈ t.*1 ->
  (exists t1 r t2, t = t1 ++ (e', r) :: t2 /\ e ∈ t1.*1) \/
  (exists t1 r t2, t = t1 ++ (e, r) :: t2 /\ e' ∈ t1.*1) \/ e = e'.
Proof.
  intros (t1 & r & t2 & ->)%trace_split He'. rewrite fmap_app, elem_of_app in He'.
  destruct He' as [He'|He']; [right; left; by exists t1, r, t2|]. cbn in He'.
  apply elem_of_cons in He' as [-> |He']; [by right; right|]. left.
  apply trace_split in He' as (t3 & r' & t4 & ->). exists (t1 ++ (e, r) :: t3), r', t4. split.
  - by rewrite <- app_assoc.
  - rewrite fmap_app, elem_of_app. right. cbn. apply list_elem_of_here.
Qed.

(** [allowed t e]: the process may yield [e] after [t]. [answers t e r]: the
    host may then resume it with [r]. [stop] is what a panic or the end of the
    fuel must give: [True] to allow them, [False] to rule them out. *)
Section logic.
Context {Eff Res : Type} (stop : Prop).
Context (allowed : trace Eff Res -> Eff -> Prop) (answers : trace Eff Res -> Eff -> Res -> Prop).

Fixpoint wp {X} (m : prog Eff Res X) (Q : trace Eff Res -> X -> Prop) (t : trace Eff Res) : Prop :=
  match m with
  | Complete x => Q t x
  | Panicked _ => stop
  | OutOfFuel => stop
  | Yielded e k => allowed t e /\ forall r, answers t e r -> wp (k r) Q (t ++ [(e, r)])
  end.

Lemma wp_mono {X} (m : prog Eff Res X) (Q Q' : trace Eff Res -> X -> Prop) t :
  wp m Q t -> (forall t' x, Q t' x -> Q' t' x) -> wp m Q' t.
Proof.
  revert t. induction m as [x|msg| |e k IH]; cbn; intros t Hm HQ; auto.
  destruct Hm as [He Hk]. split; [done|]. intros r Hr. apply IH; auto.
Qed.

(** The trace only grows. *)
Lemma wp_prefix {X} (m : prog Eff Res X) Q t :
  wp m Q t -> wp m (fun t' x => Q t' x /\ t `prefix_of` t') t.
Proof.
  revert t. induction m as [x|msg| |e k IH]; cbn; intros t Hm; [by split|done|done|].
  destruct Hm as [He Hk]. split; [done|]. intros r Hr.
  eapply wp_mono; [by apply IH, Hk|]. intros t' x [? Hp]. split; [done|].
  etrans; [|exact Hp]. by apply prefix_app_r.
Qed.

Lemma wp_prog_bind {X Y} (m : prog Eff Res X) (f : X -> prog Eff Res Y) Q t :
  wp m (fun t' x => wp (f x) Q t') t -> wp (prog_bind m f) Q t.
Proof.
  revert t. induction m as [x|msg| |e k IH]; cbn; intros t Hm; auto.
  destruct Hm as [He Hk]. split; [done|]. auto.
Qed.

(** A run of the process, with the host's answers, keeps to [allowed] and ends
    in the postcondition. *)
Fixpoint answered (t0 t : trace Eff Res) : Prop :=
  match t with
  | [] => True
  | (e, r) :: t => answers t0 e r /\ answered (t0 ++ [(e, r)]) t
  end.

Lemma wp_steps {X} (m m' : prog Eff Res X) Q t0 t :
  wp m Q t0 -> steps m t m' -> answered t0 t -> wp m' Q (t0 ++ t).
Proof.
  intros Hm Hs. revert t0 Hm. induction Hs as [m|e k r t m Hs IH]; intros t0 Hm Ha.
  { by rewrite app_nil_r. }
  destruct Hm as [He Hk], Ha as [Hr Ha]. specialize (IH _ (Hk r Hr) Ha). by rewrite <- app_assoc in IH.
Qed.

Lemma wp_allowed {X} (m : prog Eff Res X) Q t0 t e k :
  wp m Q t0 -> steps m t (Yielded e k) -> answered t0 t -> allowed (t0 ++ t) e.
Proof. intros Hm Hs Ha. by apply (wp_steps _ _ _ _ _ Hm) in Hs as [? _]. Qed.

(** *** Rules for handlers *)

Context {St Err : Type}.
Abbreviation M := (handler Eff Res St Err).
Implicit Types (s : St).

Lemma wp_bind {A B} (m : M A) (k : A -> M B) s Q t :
  wp (m s) (fun t' sr => match sr.2 with
                         | inr a => wp (k a sr.1) Q t'
                         | inl e => Q t' (sr.1, inl e)
                         end) t ->
  wp ((m ≫= k) s) Q t.
Proof.
  intros H. unfold mbind, handler_bind. apply wp_prog_bind. eapply wp_mono; [exact H|].
  intros t' [s' [e|a]]; cbn; auto.
Qed.

Lemma wp_get s Q t : Q t (s, inr s) -> wp ((get_state : M St) s) Q t.
Proof. done. Qed.

Lemma wp_put s s' Q t : Q t (s', inr tt) -> wp ((put_state s' : M unit) s) Q t.
Proof. done. Qed.

Lemma wp_ret {A} (a : A) s Q t : Q t (s, inr a) -> wp ((mret a : M A) s) Q t.
Proof. done. Qed.

Lemma wp_fail {A} e s Q t : Q t (s, inl e) -> wp ((fail e : M A) s) Q t.
Proof. done. Qed.

Lemma wp_yield e s Q t :
  allowed t e -> (forall r, answers t e r -> Q (t ++ [(e, r)]) (s, inr r)) ->
  wp ((yield_ e : M Res) s) Q t.
Proof. done. Qed.

Lemma wp_when b (m : M unit) s Q t :
  (b = true -> wp (m s) Q t) -> (b = false -> Q t (s, inr tt)) -> wp (when b m s) Q t.
Proof. intros Ht Hf. destruct b; [by apply Ht|by apply Hf]. Qed.

Lemma wp_unless b (m : M unit) s Q t :
  (b = false -> wp (m s) Q t) -> (b = true -> Q t (s, inr tt)) -> wp (unless b m s) Q t.
Proof. intros Ht Hf. destruct b; [by apply Hf|by apply Ht]. Qed.

Lemma wp_catch {A} (m : M A) s Q t :
  wp (m s) (fun t' sr => Q t' (sr.1, inr sr.2)) t -> wp (catch m s) Q t.
Proof. intros H. unfold catch. by apply wp_prog_bind. Qed.

(** A computation that returns; where panics are allowed it is enough to look
    at its value. *)
Lemma wp_lift_Ret {A} (o : outcome A) a s Q t :
  o = Ret a -> Q t (s, inr a) -> wp ((lift o : M A) s) Q t.
Proof. by intros ->. Qed.

End logic.

Section partial.
Context {Eff Res St Err : Type}.
Context (allowed : trace Eff Res -> Eff -> Prop) (answers : trace Eff Res -> Eff -> Res -> Prop).
Abbreviation M := (handler Eff Res St Err).
Abbreviation wp := (wp True allowed answers).
Implicit Types (s : St).

Lemma wp_lift {A} (o : outcome A) s Q t :
  (forall a, o = Ret a -> Q t (s, inr a)) -> wp ((lift o : M A) s) Q t.
Proof. intros H. destruct o; [by apply H|done]. Qed.

Lemma wp_assert b msg s Q t : (b = true -> Q t (s, inr tt)) -> wp ((assert_m b msg : M unit) s) Q t.
Proof. intros H. destruct b; [by apply H|done]. Qed.

Lemma wp_out_of_fuel {A} s Q t : wp ((out_of_fuel : M A) s) Q t.
Proof. done. Qed.

End partial.

(** What holds against more hosts holds against fewer. *)
Lemma wp_answers_mono {Eff Res X} (stop : Prop) allowed (answers answers' : trace Eff Res -> Eff -> Res -> Prop)
    (m : prog Eff Res X) Q t :
  (forall t e r, answers' t e r -> answers t e r) -> wp stop allowed answers m Q t -> wp stop allowed answers' m Q t.
Proof.
  intros Ha. revert t. induction m as [x|msg| |e k IH]; cbn; intros t Hm; auto.
  destruct Hm as [He Hk]. split; [done|]. intros r Hr. apply IH, Hk, Ha, Hr.
Qed.

(** One step through a handler; what remains are effects, calls and
    postconditions. *)
Ltac wp_step :=
  lazymatch goal with
  | |- wp _ _ _ ((_ ≫= _) _) _ _ => apply wp_bind
  | |- wp _ _ _ (get_state _) _ _ => apply wp_get; cbn [fst snd]
  | |- wp _ _ _ (put_state _ _) _ _ => apply wp_put; cbn [fst snd]
  | |- wp _ _ _ (mret _ _) _ _ => apply wp_ret; cbn [fst snd]
  | |- wp _ _ _ (fail _ _) _ _ => apply wp_fail; cbn [fst snd]
  | |- wp True _ _ (lift _ _) _ _ => apply wp_lift; intros ? ?; cbn [fst snd]
  | |- wp True _ _ (assert_m _ _ _) _ _ => apply wp_assert; intros ?; cbn [fst snd]
  | |- wp _ _ _ (when _ _ _) _ _ => apply wp_when; intros ?; cbn [fst snd]
  | |- wp _ _ _ (unless _ _ _) _ _ => apply wp_unless; intros ?; cbn [fst snd]
  | |- wp _ _ _ (catch _ _) _ _ => apply wp_catch; cbn [fst snd]
  | |- wp _ _ _ ((if ?b then _ else _) _) _ _ => destruct b eqn:?
  | |- wp _ _ _ ((match ?x with _ => _ end) _) _ _ => destruct x eqn:?
  end.

(** ** Traces *)

Section traces.
Context {Eff Res : Type} (stop : Prop).
Context (allowed : trace Eff Res -> Eff -> Prop) (answers : trace Eff Res -> Eff -> Res -> Prop).

(** Every effect of a trace was allowed when it was yielded. *)
Lemma wp_trace_allowed {X} (m m' : prog Eff Res X) Q t0 t t1 e r t2 :
  wp stop allowed answers m Q t0 -> steps m t m' -> answered answers t0 t ->
  t = t1 ++ (e, r) :: t2 -> allowed (t0 ++ t1) e.
Proof.
  intros Hm Hs. revert t0 t1 Hm. induction Hs as [m|e' k r' t m Hs IH]; intros t0 t1 Hm Ha Ht; [by destruct t1|].
  destruct Hm as [He Hk], Ha as [Hr Ha]. destruct t1 as [|x t1]; cbn in Ht; simplify_eq.
  - by rewrite app_nil_r.
  - specialize (IH _ t1 (Hk r' Hr) Ha eq_refl). by rewrite <- app_assoc in IH.
Qed.

Lemma wp_complete {X} (m : prog Eff Res X) Q t0 t x :
  wp stop allowed answers m Q t0 -> steps m t (Complete x) -> answered answers t0 t -> Q (t0 ++ t) x.
Proof. intros Hm Hs Ha. exact (wp_steps _ _ _ _ _ _ _ _ Hm Hs Ha). Qed.

(** *** Running a process against a host that is a function *)

Context (host : Eff -> Res).

Fixpoint execute {X} (m : prog Eff Res X) : trace Eff Res * prog Eff Res X :=
  match m with
  | Yielded e k => let '(t, m') := execute (k (host e)) in ((e, host e) :: t, m')
  | _ => ([], m)
  end.

Lemma execute_steps {X} (m : prog Eff Res X) : steps m (execute m).1 (execute m).2.
Proof.
  induction m as [x|msg| |e k IH]; cbn; try constructor.
  specialize (IH (host e)). destruct (execute (k (host e))) as [t m']. by constructor.
Qed.

(** The run ends: no effect is left unanswered. *)
Lemma execute_ends {X} (m : prog Eff Res X) :
  match (execute m).2 with Yielded _ _ => False | _ => True end.
Proof.
  induction m as [x|msg| |e k IH]; cbn; try done. specialize (IH (host e)).
  by destruct (execute (k (host e))).
Qed.

Lemma execute_bind {X Y} (m : prog Eff Res X) (f : X -> prog Eff Res Y) t x :
  execute m = (t, Complete x) ->
  execute (prog_bind m f) = (t ++ (execute (f x)).1, (execute (f x)).2).
Proof.
  revert t. induction m as [y|msg| |e k IH]; intros t; cbn [execute prog_bind]; try done.
  - intros [= <- ->]. by destruct (execute (f x)).
  - specialize (IH (host e)). destruct (execute (k (host e))) as [t' m']. intros [= <- ->].
    by rewrite (IH t' eq_refl).
Qed.

Lemma execute_bind_inv {X Y} (m : prog Eff Res X) (f : X -> prog Eff Res Y) y :
  (execute (prog_bind m f)).2 = Complete y ->
  exists t x, execute m = (t, Complete x) /\ (execute (f x)).2 = Complete y.
Proof.
  induction m as [x|msg| |e k IH]; cbn [execute prog_bind]; [by exists [], x|done|done|].
  intros Hy. specialize (IH (host e)). destruct (execute (prog_bind (k (host e)) f)) as [t m]. cbn in *.
  destruct (IH Hy) as (t' & x & -> & Hx). by eexists _, x.
Qed.

Lemma execute_catch {St Err A} (m : handler Eff Res St Err A) s t s' x :
  execute (m s) = (t, Complete (s', x)) -> execute (catch m s) = (t, Complete (s', inr x)).
Proof. intros H. unfold catch. rewrite (execute_bind _ _ _ _ H). cbn. by rewrite app_nil_r. Qed.

(** What the weakest precondition says of a run against the host. *)
Lemma wp_execute {X} (m : prog Eff Res X) Q :
  wp False allowed answers m Q [] -> (forall t e, answers t e (host e)) ->
  exists t x, execute m = (t, Complete x) /\ Q t x.
Proof.
  intros Hwp Hh.
  assert (H : forall t0, wp False allowed answers m Q t0 ->
    exists t x, execute m = (t, Complete x) /\ Q (t0 ++ t) x).
  { clear Hwp. induction m as [y|msg| |e k IH]; intros t0; cbn; [|done|done|].
    - intros HQ. exists [], y. by rewrite app_nil_r.
    - intros [_ Hk]. destruct (IH (host e) _ (Hk _ (Hh _ _))) as (t & x & He & HQ).
      exists ((e, host e) :: t), x. rewrite He. by rewrite <- app_assoc in HQ. }
  exact (H [] Hwp).
Qed.

Definition from_host (t : trace Eff Res) : Prop := forall e r, (e, r) ∈ t -> r = host e.

Lemma execute_from_host {X} (m : prog Eff Res X) : from_host (execute m).1.
Proof.
  induction m as [x|msg| |e k IH]; cbn; try (by intros ? ? ?%not_elem_of_nil).
  specialize (IH (host e)). destruct (execute (k (host e))) as [t m']. cbn in *.
  intros e' r' [[= -> ->]|Hin]%elem_of_cons; [done|]. by apply IH.
Qed.

Lemma execute_answered {X} (m : prog Eff Res X) t0 :
  (forall t e, from_host t -> answers t e (host e)) -> from_host t0 -> answered answers t0 (execute m).1.
Proof.
  intros Hh. revert t0. induction m as [x|msg| |e k IH]; intros t0 Ht0; cbn; try done.
  specialize (IH (host e)). destruct (execute (k (host e))) as [t m']. cbn in *. split; [by apply Hh|].
  apply IH. intros e' r'. rewrite elem_of_app, list_elem_of_singleton. intros [?|[= -> ->]]; auto.
Qed.

End traces.

(** ** Running a process against a host that remembers *)

Section history.
Context {Eff Res : Type} (host : trace Eff Res -> Eff -> Res).

Fixpoint run_with {X} (t : trace Eff Res) (m : prog Eff Res X) : trace Eff Res * prog Eff Res X :=
  match m with
  | Yielded e k => run_with (t ++ [(e, host t e)]) (k (host t e))
  | _ => (t, m)
  end.

Lemma wp_run_with allowed answers {X} (m : prog Eff Res X) Q t :
  wp False allowed answers m Q t -> (forall t e, answers t e (host t e)) ->
  exists t' x, run_with t m = (t', Complete x) /\ Q t' x.
Proof.
  intros Hm Hh. revert t Hm. induction m as [y|msg| |e k IH]; intros t; cbn; [|done|done|].
  - intros HQ. by exists t, y.
  - intros [_ Hk]. apply IH, Hk, Hh.
Qed.
End history.

(** ** Processes run by an actor

    [process!]: the effects of a process are carried out by [on_effect], which is
    itself a coroutine that calls other actors; an error of [on_effect] is
    logged, and the process is resumed with [continue]. *)
Section process.
Context {E R Eff Res St Err : Type} (on_effect : E -> handler Eff Res St Err R) (continue : R).

Definition resumption (result : Err + R) : R := match result with inr r => r | inl _ => continue end.

Fixpoint process {X} (m : prog E R X) : handler Eff Res St Err X :=
  match m with
  | Complete x => mret x
  | Panicked msg => lift (Panic msg)
  | OutOfFuel => out_of_fuel
  | Yielded e k => result ← catch (on_effect e); process (k (resumption result))
  end.

(** What holds of the process holds when it is run: [I] relates the effects of
    the process to the calls of the actor and to its state. *)
Lemma wp_process (stop : Prop) (allowed : trace E R -> E -> Prop) (answers : trace E R -> E -> R -> Prop)
    (allowed' : trace Eff Res -> Eff -> Prop) (answers' : trace Eff Res -> Eff -> Res -> Prop)
    (I : trace E R -> trace Eff Res -> St -> Prop) {X} (m : prog E R X) Q Q' t T s :
  (forall t e T s, allowed t e -> I t T s ->
    wp stop allowed' answers' (on_effect e s)
      (fun T' x => answers t e (resumption x.2) /\ I (t ++ [(e, resumption x.2)]) T' x.1) T) ->
  wp stop allowed answers m Q t -> I t T s ->
  (forall t' T' s' x, I t' T' s' -> Q t' x -> Q' T' (s', inr x)) ->
  wp stop allowed' answers' (process m s) Q' T.
Proof.
  intros Heff Hm HI HQ. revert t T s Hm HI. induction m as [x|msg| |e k IH]; intros t T s Hm HI; cbn [process].
  - by apply wp_ret, (HQ t).
  - exact Hm.
  - exact Hm.
  - destruct Hm as [He Hk]. apply wp_bind, wp_catch. eapply wp_mono; [by apply Heff|].
    intros T' [s' r] [Hr HI']. cbn in *. by eapply IH; [apply Hk|].
Qed.

(** A run against the actor is a run of the process, if the actor resumes every
    effect as [host] does, leaving its state alone. *)
Lemma execute_process (net : Eff -> Res) (host : E -> R) (calls : E -> trace Eff Res) {X} (m : prog E R X) s t x :
  execute host m = (t, Complete x) ->
  (forall e, e ∈ t.*1 -> execute net (on_effect e s) = (calls e, Complete (s, inr (host e)))) ->
  execute net (process m s) = (concat (calls <$> t.*1), Complete (s, inr x)).
Proof.
  revert t. induction m as [y|msg| |e k IH]; intros t; cbn [execute process]; try done.
  - intros [= <- ->] _. done.
  - specialize (IH (host e)). destruct (execute host (k (host e))) as [t' m']. intros [= <- ->] Heff.
    unfold mbind, handler_bind.
    rewrite (execute_bind net _ _ _ _ (execute_catch net _ _ _ _ _ (Heff e ltac:(constructor)))). cbn [fst snd].
    cbn [resumption]. rewrite (IH t' eq_refl) by (intros e' He'; apply Heff; by constructor). done.
Qed.

End process.

Section any.
Context {Eff Res : Type}.

(** Anything may be yielded, and answered. *)
Abbreviation wp_any := (wp True (fun (_ : trace Eff Res) _ => True) (fun _ _ _ => True)).

Lemma answered_any (t0 t : trace Eff Res) : answered (fun _ _ _ => True) t0 t.
Proof. revert t0. induction t as [|[e r] t IH]; intros t0; [done|]. by split. Qed.

Lemma wp_any_steps {X} (m : prog Eff Res X) : wp_any m (fun t x => steps m t (Complete x)) [].
Proof.
  assert (H : forall m' t, steps m t m' -> wp_any m' (fun t x => steps m t (Complete x)) t).
  { intros m'. induction m' as [x|msg| |e k IH]; intros t Ht; [exact Ht|done|done|]. cbn. split; [done|].
    intros r _. apply IH. eapply steps_app; [exact Ht|]. repeat constructor. }
  apply H. constructor.
Qed.

Lemma wp_any_true {X} (m : prog Eff Res X) (Q : trace Eff Res -> X -> Prop) t :
  (forall t' x, Q t' x) -> wp_any m Q t.
Proof. intros HQ. revert t. induction m as [x|msg| |e k IH]; intros t; cbn; auto. Qed.

End any.
