(* ===== verification/ConsensusTypes.v ===== *)
(** * The vocabulary of core-consensus

    Messages, values and log entries (types.rs), inputs (input.rs), parameters
    (params.rs), errors (error.rs), and the effects that the consensus process
    yields to its host together with the values it is resumed with (effect.rs);
    vote extensions (core-types/src/vote_extension.rs) and value responses
    (certificate.rs). *)

From S2P Require Import Prelude Types Bytes Context Starknet Driver Verify.

(** ** Vote extensions

    The associated type [Extension] and the methods of votes about it; the
    order of addresses sorts the extensions. *)
Class VoteExtension `{Ctx : Context} : Type := {
  Extension : Type;
  extension : Vote -> option (SignedMessage.t Extension);
  take_extension : Vote -> Vote * option (SignedMessage.t Extension);
  extend : Vote -> SignedMessage.t Extension -> Vote;
  Address_leb : Address -> Address -> bool;
}.

Abbreviation SignedExtension := (SignedMessage.t Extension).

(** What the consensus core relies on: extensions do not touch the rest of the
    vote. *)
Class VoteExtensionLaws `{VoteExtension} : Prop := {
  extend_spec v e : let w := extend v e in
    vote_height w = vote_height v /\ vote_round w = vote_round v /\ vote_value w = vote_value v /\
    vote_type w = vote_type v /\ vote_address w = vote_address v;
  take_extension_spec v : let w := (take_extension v).1 in
    vote_height w = vote_height v /\ vote_round w = vote_round v /\ vote_value w = vote_value v /\
    vote_type w = vote_type v /\ vote_address w = vote_address v;
}.

Module VoteExtensions.
Section extensions.
Context `{VoteExtension}.

Record t : Type := mk { extensions : list (Address * SignedExtension) }.

Definition default : t := mk [].

(** [sort_by] on the addresses: a stable sort. *)
Fixpoint insert_extension (e : Address * SignedExtension) (l : list (Address * SignedExtension))
    : list (Address * SignedExtension) :=
  match l with
  | [] => [e]
  | e' :: l => if Address_leb e.1 e'.1 then e :: e' :: l else e' :: insert_extension e l
  end.

Definition new (extensions : list (Address * SignedExtension)) : t :=
  mk (foldr insert_extension [] extensions).

End extensions.
Arguments t {Ctx H}.
End VoteExtensions.

(** A peer's identifier: a multihash. *)
Definition PeerId : Type := bytes.

Module ValueOrigin.
Inductive t : Type := Sync | Consensus.
#[global] Instance t_eq_dec : EqDecision t.
Proof. solve_decision. Defined.
Definition is_sync (self : t) : bool := bool_decide (self = Sync).
Definition is_consensus (self : t) : bool := bool_decide (self = Consensus).
End ValueOrigin.

Module ValueResponse.
Record t {Ctx : Context} : Type := new {
  peer : PeerId;
  value_bytes : bytes;
  certificate : CommitCertificate.t;
}.
Arguments new {Ctx} peer value_bytes certificate.
End ValueResponse.

(** ** Messages and values (types.rs) *)

Module Role.
Inductive t : Type := Proposer | Validator | None.
End Role.

Module SignedConsensusMsg.
Inductive t {Ctx : Context} : Type :=
  | Vote (vote : SignedVote)
  | Proposal (proposal : SignedProposal).
#[global] Instance t_eq_dec {Ctx : Context} : EqDecision t.
Proof. solve_decision. Defined.

Definition height {Ctx : Context} (self : t) : Height :=
  match self with Vote msg => sv_height msg | Proposal msg => sp_height msg end.
Definition round {Ctx : Context} (self : t) : Round.t :=
  match self with Vote msg => sv_round msg | Proposal msg => sp_round msg end.
Definition signature {Ctx : Context} (self : t) : Signature :=
  match self with
  | Vote msg => msg.(SignedMessage.signature)
  | Proposal msg => msg.(SignedMessage.signature)
  end.
End SignedConsensusMsg.

Module ConsensusMsg.
Inductive t {Ctx : Context} : Type :=
  | Vote (vote : Context.Vote)
  | Proposal (proposal : Context.Proposal).
#[global] Instance t_eq_dec {Ctx : Context} : EqDecision t.
Proof. solve_decision. Defined.
End ConsensusMsg.

Module LocallyProposedValue.
Record t {Ctx : Context} : Type := new {
  height : Height;
  round : Round.t;
  value : Value;
}.
Arguments new {Ctx} height round value.
End LocallyProposedValue.

Module ProposedValue.
Record t {Ctx : Context} : Type := mk {
  height : Height;
  round : Round.t;
  valid_round : Round.t;
  proposer : Address;
  value : Value;
  validity : Validity.t;
}.
Arguments mk {Ctx} height round valid_round proposer value validity.
#[global] Instance t_eq_dec {Ctx : Context} : EqDecision t.
Proof. solve_decision. Defined.
End ProposedValue.

Module WalEntry.
Inductive t {Ctx : Context} : Type :=
  | ConsensusMsg (msg : SignedConsensusMsg.t)
  | Timeout (timeout : RoundTimeout.t)
  | ProposedValue (value : ConsensusTypes.ProposedValue.t).
#[global] Instance t_eq_dec {Ctx : Context} : EqDecision t.
Proof. solve_decision. Defined.

Definition as_consensus_msg {Ctx : Context} (self : t) : option SignedConsensusMsg.t :=
  match self with ConsensusMsg msg => Some msg | _ => None end.
Definition as_timeout {Ctx : Context} (self : t) : option RoundTimeout.t :=
  match self with Timeout timeout => Some timeout | _ => None end.
Definition as_proposed_value {Ctx : Context} (self : t) : option ConsensusTypes.ProposedValue.t :=
  match self with ProposedValue value => Some value | _ => None end.
End WalEntry.

Module VoteExtensionError.
Inductive t : Type := InvalidSignature | InvalidVoteExtension.
End VoteExtensionError.

Module LivenessMsg.
Inductive t {Ctx : Context} : Type :=
  | Vote (vote : SignedVote)
  | PolkaCertificate (certificate : PolkaCertificate.t)
  | SkipRoundCertificate (certificate : RoundCertificate.t).
End LivenessMsg.

(** ** Inputs (input.rs) *)

Module ConsensusInput.
Inductive t {Ctx : Context} : Type :=
  | StartHeight (height : Height) (validator_set : ValidatorSet) (is_restart : bool)
  | Vote (vote : SignedVote)
  | Proposal (proposal : SignedProposal)
  | PolkaCertificate (certificate : PolkaCertificate.t)
  | RoundCertificate (certificate : RoundCertificate.t)
  | Propose (value : LocallyProposedValue.t)
  | TimeoutElapsed (timeout : RoundTimeout.t)
  | ProposedValue (value : ProposedValue.t) (origin : ValueOrigin.t)
  | SyncValueResponse (value : ValueResponse.t).
End ConsensusInput.

(** ** Parameters (params.rs) *)

Definition HIDDEN_LOCK_ROUND : Round.t := Round.new 10.

Module Params.
Record t {Ctx : Context} : Type := mk {
  initial_height : Height;
  initial_validator_set : ValidatorSet;
  address : Address;
  threshold_params : ThresholdParams.t;
  value_payload : ValuePayload.t;
  enabled : bool;
}.
Arguments mk {Ctx} initial_height initial_validator_set address threshold_params value_payload enabled.
End Params.

(** ** Resumption, errors and effects (effect.rs, error.rs) *)

Section effects.
Context {Ctx : Context} {Ext : VoteExtension} {Provider : SigningProvider}.

Inductive Resume : Type :=
  | Resume_Start
  | Resume_Continue
  | Resume_ValidatorSet (validator_set : option ValidatorSet)
  | Resume_SignatureValidity (valid : bool)
  | Resume_SignedVote (vote : SignedVote)
  | Resume_SignedProposal (proposal : SignedProposal)
  | Resume_VoteExtension (extension : option SignedExtension)
  | Resume_VoteExtensionValidity (result : VoteExtensionError.t + unit)
  | Resume_CertificateValidity (result : checked unit).

Inductive Error : Type :=
  | UnexpectedResume (resume : Resume) (expected : string)
  | ProposerNotFound (height : Height) (round : Round.t)
  | DecisionNotFound (height : Height) (round : Round.t)
  | DriverProposalNotFound (height : Height) (round : Round.t)
  | FullProposalNotFound (height : Height) (round : Round.t)
  | DriverProcess (e : DriverError.t)
  | ValidatorSetNotFound (height : Height)
  | InvalidCommitCertificate (certificate : CommitCertificate.t) (e : CertificateError.t BoxError).

(** The marker that builds the [Resume] value for an effect is left out. *)
Inductive Effect : Type :=
  | ResetTimeouts
  | CancelAllTimeouts
  | CancelTimeout (timeout : RoundTimeout.t)
  | ScheduleTimeout (timeout : RoundTimeout.t)
  | StartRound (height : Height) (round : Round.t) (proposer : Address) (role : Role.t)
  | PublishConsensusMsg (msg : SignedConsensusMsg.t)
  | PublishLivenessMsg (msg : LivenessMsg.t)
  | RepublishVote (vote : SignedVote)
  | RepublishRoundCertificate (certificate : RoundCertificate.t)
  | GetValue (height : Height) (round : Round.t) (timeout : RoundTimeout.t)
  | RestreamProposal (height : Height) (round valid_round : Round.t) (address : Address)
      (value_id : ValueId)
  | ValidSyncValue (value : ValueResponse.t) (proposer : Address)
  | InvalidSyncValue (peer : PeerId) (height : Height) (e : Error)
  | Decide (certificate : CommitCertificate.t) (extensions : VoteExtensions.t)
  | SignVote (vote : Vote)
  | SignProposal (proposal : Proposal)
  | VerifySignature (msg : SignedMessage.t ConsensusMsg.t) (public_key : PublicKey)
  | VerifyCommitCertificate (certificate : CommitCertificate.t) (validator_set : ValidatorSet)
      (thresholds : ThresholdParams.t)
  | VerifyPolkaCertificate (certificate : PolkaCertificate.t) (validator_set : ValidatorSet)
      (thresholds : ThresholdParams.t)
  | VerifyRoundCertificate (certificate : RoundCertificate.t) (validator_set : ValidatorSet)
      (thresholds : ThresholdParams.t)
  | WalAppend (height : Height) (entry : WalEntry.t)
  | ExtendVote (height : Height) (round : Round.t) (value_id : ValueId)
  | VerifyVoteExtension (height : Height) (round : Round.t) (value_id : ValueId)
      (extension : SignedExtension) (public_key : PublicKey).

End effects.
