(* ===== verification/TestContext.v ===== *)
(** * The test context

    test/src: the second implementation of [Context], whose heights are plain
    numbers; the example applications run on it. [TestContext] with the
    default middleware (middleware.rs), [Height] (height.rs), [Value]
    (value.rs), [Vote] (vote.rs), [Proposal] (proposal.rs), [Validator] and
    [ValidatorSet] (validator_set.rs) and proposer selection (context.rs,
    proposer_selector.rs). Keys, signatures, addresses and the hash that makes
    an address from a key are parameters. *)

From S2P Require Import Prelude Types Bytes Context ConsensusTypes.

(** ** Heights (height.rs) *)

Module TestHeight.

Record t : Type := new { inner : N }.

#[global] Instance t_eq_dec : EqDecision t.
Proof. solve_decision. Defined.
#[global] Instance t_countable : Countable t.
Proof. refine (inj_countable' inner new _). by intros []. Defined.

Definition as_u64 (self : t) : N := self.(inner).
Definition increment (self : t) : outcome t := new <$> add_u64 self.(inner) 1.
Definition decrement (self : t) : option t := new <$> checked_sub self.(inner) 1.

(** [impl malachitebft_core_types::Height]. *)
Definition ZERO : t := new 0.
Definition INITIAL : t := new 1.
Definition increment_by (self : t) (n : N) : outcome t := new <$> add_u64 self.(inner) n.
Definition decrement_by (self : t) (n : N) : option t := Some (new (self.(inner) - n)%N).

Definition ltb (h1 h2 : t) : bool := (h1.(inner) <? h2.(inner))%N.

End TestHeight.

(** ** Values (value.rs) *)

Record TestValue : Type := mk_value { tv_value : N; tv_extensions : bytes }.

#[global] Instance TestValue_eq_dec : EqDecision TestValue.
Proof. solve_decision. Defined.

Definition test_value_new (value : N) : TestValue := mk_value value [].
Definition test_value_id (self : TestValue) : N := self.(tv_value).
Definition test_value_size_bytes (self : TestValue) : N := (8 + size self.(tv_extensions))%N.

Section test.
Context {Addr PK Sig : Type} `{Addr_dec : EqDecision Addr} `{Addr_cnt : !Countable Addr}.
Context `{PK_dec : EqDecision PK} `{Sig_dec : EqDecision Sig}.
Context (Addr_leb : Addr -> Addr -> bool) (address_from_public_key : PK -> Addr).

(** ** Votes, proposals, validators *)

Record TestVote : Type := mk_test_vote {
  t_typ : VoteType.t;
  t_vote_height : TestHeight.t;
  t_vote_round : Round.t;
  t_vote_value : NilOrVal.t N;
  t_vote_address : Addr;
  t_vote_extension : option (bytes * Sig);
}.

#[global] Instance TestVote_eq_dec : EqDecision TestVote.
Proof using Addr_dec Sig_dec. solve_decision. Defined.

Definition test_new_prevote (height : TestHeight.t) (round : Round.t) (value : NilOrVal.t N)
    (validator_address : Addr) : TestVote :=
  mk_test_vote VoteType.Prevote height round value validator_address None.
Definition test_new_precommit (height : TestHeight.t) (round : Round.t) (value : NilOrVal.t N)
    (address : Addr) : TestVote :=
  mk_test_vote VoteType.Precommit height round value address None.

Record TestProposal : Type := test_proposal_new {
  t_proposal_height : TestHeight.t;
  t_proposal_round : Round.t;
  t_proposal_value : TestValue;
  t_pol_round : Round.t;
  t_proposal_address : Addr;
}.

#[global] Instance TestProposal_eq_dec : EqDecision TestProposal.
Proof using Addr_dec. solve_decision. Defined.

Record TestValidator : Type := mk_test_validator {
  t_address : Addr;
  t_public_key : PK;
  t_voting_power : N;
}.

Definition test_validator_new (public_key : PK) (voting_power : N) : TestValidator :=
  mk_test_validator (address_from_public_key public_key) public_key voting_power.

(** ** The validator set (validator_set.rs): not sorted, not deduplicated. *)

Record TestValidatorSet : Type := mk_test_validator_set { t_validators : list TestValidator }.

Definition test_set_new (validators : list TestValidator) : outcome TestValidatorSet :=
  _ ← assert_that (match validators with [] => false | _ => true end)
        "assertion failed: !validators.is_empty()";
  Ret (mk_test_validator_set validators).

Definition test_set_total_voting_power (self : TestValidatorSet) : outcome N :=
  sum_u64 "attempt to add with overflow" (t_voting_power <$> self.(t_validators)).
Definition test_set_get_by_index (self : TestValidatorSet) (index : nat) : option TestValidator :=
  self.(t_validators) !! index.
Definition test_set_get_by_address (self : TestValidatorSet) (address : Addr) : option TestValidator :=
  List.find (fun v => bool_decide (v.(t_address) = address)) self.(t_validators).
Definition test_set_get_by_public_key (self : TestValidatorSet) (public_key : PK)
    : option TestValidator :=
  List.find (fun v => bool_decide (v.(t_public_key) = public_key)) self.(t_validators).
Definition test_set_count (self : TestValidatorSet) : nat := length self.(t_validators).

(** ** Proposer selection (context.rs) *)

Definition test_select_proposer (validator_set : TestValidatorSet) (height : TestHeight.t)
    (round : Round.t) : outcome TestValidator :=
  _ ← assert_that (Nat.ltb 0 (test_set_count validator_set)) "assertion failed: count() > 0";
  _ ← assert_that (negb (bool_decide (round = Round.Nil)) && (0 <=? Round.as_i64 round)%Z)
        "assertion failed: round != Round::Nil && round.as_i64() >= 0";
  let height := TestHeight.as_u64 height in
  let round := Z.to_N (Round.as_i64 round) in
  h' ← expect (checked_sub height 1) "attempt to subtract with overflow";
  x ← add_u64 h' round;
  let proposer_index := (x mod N.of_nat (test_set_count validator_set))%N in
  expect (test_set_get_by_index validator_set (N.to_nat proposer_index)) "proposer_index is valid".

(** ** The instances *)

#[local] Instance TestContext : Context := {
  Address := Addr;
  Height := TestHeight.t;
  Height_ZERO := TestHeight.ZERO;
  Height_ltb := TestHeight.ltb;
  Value := TestValue;
  ValueId := N;
  value_id := test_value_id;
  Signature := Sig;
  PublicKey := PK;
  Proposal := TestProposal;
  proposal_height := t_proposal_height;
  proposal_round := t_proposal_round;
  proposal_value := t_proposal_value;
  proposal_pol_round := t_pol_round;
  proposal_address := t_proposal_address;
  Vote := TestVote;
  vote_height := t_vote_height;
  vote_round := t_vote_round;
  vote_value := t_vote_value;
  vote_type := t_typ;
  vote_address := t_vote_address;
  Validator := TestValidator;
  validator_address := t_address;
  public_key := t_public_key;
  voting_power := t_voting_power;
  ValidatorSet := TestValidatorSet;
  count := test_set_count;
  total_voting_power := test_set_total_voting_power;
  get_by_address := test_set_get_by_address;
  get_by_index := test_set_get_by_index;
  select_proposer := test_select_proposer;
  new_proposal := test_proposal_new;
  new_prevote := test_new_prevote;
  new_precommit := test_new_precommit;
}.

#[local] Instance TestContext_arith : HeightArith := {
  Height_increment_by := TestHeight.increment_by;
  Height_decrement_by := TestHeight.decrement_by;
  Height_as_u64 := TestHeight.as_u64;
}.

Definition of_pair (e : bytes * Sig) : SignedMessage.t bytes := SignedMessage.new e.1 e.2.
Definition to_pair (e : SignedMessage.t bytes) : bytes * Sig :=
  (e.(SignedMessage.message), e.(SignedMessage.signature)).
Definition with_extension (self : TestVote) (e : option (bytes * Sig)) : TestVote :=
  mk_test_vote self.(t_typ) self.(t_vote_height) self.(t_vote_round) self.(t_vote_value)
    self.(t_vote_address) e.

#[local] Instance TestContext_extension : VoteExtension := {
  Extension := bytes;
  extension := fun v : TestVote => of_pair <$> v.(t_vote_extension);
  take_extension := fun v : TestVote => (with_extension v None, of_pair <$> v.(t_vote_extension));
  extend := fun (v : TestVote) e => with_extension v (Some (to_pair e));
  Address_leb := Addr_leb;
}.

(** ** The contracts *)

Lemma test_powers_le (l : list TestValidator) (S : gset Addr) :
  (weight_of (power (mk_test_validator_set l)) S <= sumN (t_voting_power <$> l))%N.
Proof.
  revert S. induction l as [|v l IH]; intros S; cbn.
  { by rewrite (weight_of_ext _ (fun _ => 0%N)), weight_of_zero. }
  assert (Hne : forall a, a ∈ S ∖ {[t_address v]} ->
    power (mk_test_validator_set (v :: l)) a = power (mk_test_validator_set l) a).
  { intros a Ha. unfold power. cbn. unfold test_set_get_by_address. cbn.
    rewrite bool_decide_eq_false_2 by set_solver. done. }
  destruct (decide (t_address v ∈ S)) as [Hin|Hnin].
  - rewrite (weight_of_delete _ (t_address v)) by done.
    rewrite (weight_of_ext _ _ _ Hne). specialize (IH (S ∖ {[t_address v]})).
    unfold power at 1. cbn. unfold test_set_get_by_address. cbn.
    rewrite bool_decide_eq_true_2 by done. by apply N.add_le_mono_l.
  - rewrite <- (difference_disjoint_L S {[t_address v]}) by set_solver.
    rewrite (weight_of_ext _ _ _ Hne). etrans; [apply IH|lia].
Qed.

Lemma TestContext_laws : ContextLaws.
Proof.
  split; cbn; try done.
  - intros [h]. apply N.ltb_irrefl.
  - intros [h1] [h2] [h3]. unfold TestHeight.ltb. cbn. rewrite !N.ltb_lt. lia.
  - intros vset a v [_ Hv]%List.find_some. by apply bool_decide_eq_true in Hv.
  - intros [l] total S [-> _]%sum_u64_Ret. apply test_powers_le.
  - intros [l] total [-> Hle]%sum_u64_Ret. exact Hle.
Qed.

Lemma TestContext_height_laws : HeightLaws.
Proof.
  split; cbn; unfold TestHeight.increment_by, TestHeight.as_u64.
  - intros [h1] [h2]. cbn. by intros ->.
  - done.
  - done.
  - intros [h] n Hle. exists (TestHeight.new (h + n)). cbn in *. split; [|done].
    apply fmap_Ret_inv. exists (h + n)%N. by rewrite add_u64_Ret.
  - intros [h] n h' (x & [-> _]%add_u64_Ret & ->)%fmap_Ret_inv. done.
  - intros [h] n h' (x & [-> ?]%add_u64_Ret & ->)%fmap_Ret_inv. done.
  - intros [h] n Hle. by eexists.
Qed.

Lemma TestContext_extension_laws : VoteExtensionLaws.
Proof. by split. Qed.

End test.
