(* ===== verification/FullProposal.v ===== *)
(** * The keeper of full proposals

    [FullProposalKeeper] of core-consensus/src/full_proposal.rs: it matches the
    proposals of the proposer with the values the application received, and
    gives a full proposal to the driver when both are there. *)

From S2P Require Import Prelude Types Context Starknet BTree Bytes ConsensusTypes.

(** [Ord] on heights and rounds. *)
#[global] Instance Height_key_order `{Ctx : Context} : KeyOrder Height := Height_ltb.
#[global] Instance Round_key_order : KeyOrder Round.t := Round.ltb.

#[global] Instance Round_key_order_laws : KeyOrderLaws Round.t.
Proof.
  split; unfold key_ltb, Round_key_order.
  - intros k. round_lia.
  - intros a b c ? ?. round_lia.
  - intros a b. rewrite !Round.ltb_lt. unfold Round.lt.
    destruct (Z.lt_trichotomy (Round.as_i64 a) (Round.as_i64 b)) as [?|[?|?]]; auto.
    right. left. by apply Round.as_i64_inj.
Qed.

(** The order of heights is total: [Height : Ord]. *)
Class HeightTotal `{Ctx : Context} : Prop :=
  height_total (a b : Height) : Height_ltb a b = true \/ a = b \/ Height_ltb b a = true.

#[global] Instance Height_key_order_laws `{Ctx : Context} `{!ContextLaws} `{!HeightTotal} :
  KeyOrderLaws Height.
Proof.
  split; unfold key_ltb, Height_key_order.
  - apply Height_ltb_irrefl.
  - apply Height_ltb_trans.
  - apply height_total.
Qed.

Module FullProposal.
Record t {Ctx : Context} : Type := new {
  builder_value : Value;
  validity : Validity.t;
  proposal : SignedProposal;
}.
Arguments new {Ctx} builder_value validity proposal.
#[global] Instance t_eq_dec {Ctx : Context} : EqDecision t.
Proof. solve_decision. Defined.
End FullProposal.

Module Entry.
Inductive t {Ctx : Context} : Type :=
  | Full (p : FullProposal.t)
  | ProposalOnly (p : SignedProposal)
  | ValueOnly (v : Value) (validity : Validity.t)
  | Empty.
#[global] Instance t_eq_dec {Ctx : Context} : EqDecision t.
Proof. solve_decision. Defined.

Definition full {Ctx : Context} (value : Value) (validity : Validity.t) (proposal : SignedProposal) : t :=
  Full (FullProposal.new value validity proposal).

Definition id {Ctx : Context} (self : t) : option ValueId :=
  match self with
  | Full p => Some (value_id p.(FullProposal.builder_value))
  | ProposalOnly p => Some (value_id (sp_value p))
  | ValueOnly v _ => Some (value_id v)
  | Empty => None
  end.
End Entry.

Definition sp_pol_round `{Ctx : Context} (p : SignedProposal) : Round.t :=
  proposal_pol_round p.(SignedMessage.message).

Module FullProposalKeeper.
Section keeper.
Context {Ctx : Context}.

Abbreviation key := (Height * Round.t)%type.

Record t : Type := mk { keeper : BTreeMap.t key (list Entry.t) }.

Implicit Types (self : t) (new_proposal : SignedProposal) (new_value : ProposedValue.t).

Definition new : t := mk [].
Definition clear (_ : t) : t := mk [].

(** [self.keeper.get(&key).filter(|entries| !entries.is_empty())?], an empty
    list when there is none. *)
Definition entries_at self (height : Height) (round : Round.t) : list Entry.t :=
  default [] (BTreeMap.get (height, round) self.(keeper)).

(** *** Lookups *)

(** The proposal of a full entry for [value_id]. *)
Definition full_for (value_id : ValueId) (entry : Entry.t) : list SignedProposal :=
  match entry with
  | Entry.Full p =>
      if decide (Context.value_id (sp_value p.(FullProposal.proposal)) = value_id)
      then [p.(FullProposal.proposal)] else []
  | _ => []
  end.

Definition proposals_for_value self (proposed_value : ProposedValue.t) : list SignedProposal :=
  let first_key := (proposed_value.(ProposedValue.height), proposed_value.(ProposedValue.round)) in
  let entries := BTreeMap.range_from first_key self.(keeper) in
  flat_map (fun kv => flat_map (full_for (value_id proposed_value.(ProposedValue.value))) kv.2) entries.

Fixpoint find_full (f : FullProposal.t -> bool) (entries : list Entry.t) : option FullProposal.t :=
  match entries with
  | [] => None
  | Entry.Full p :: entries => if f p then Some p else find_full f entries
  | _ :: entries => find_full f entries
  end.

Definition full_proposal_at_round_and_value self (height : Height) (round : Round.t)
    (value_id : ValueId) : option FullProposal.t :=
  find_full (fun p => bool_decide (Context.value_id (sp_value p.(FullProposal.proposal)) = value_id))
    (entries_at self height round).

Definition full_proposal_at_round_and_proposer self (height : Height) (round : Round.t)
    (proposer : Address) : option FullProposal.t :=
  find_full (fun p => bool_decide (sp_address p.(FullProposal.proposal) = proposer))
    (entries_at self height round).

Fixpoint find_value (value : Value) (entries : list Entry.t) : option (Value * Validity.t) :=
  match entries with
  | [] => None
  | Entry.Full p :: entries =>
      if decide (value_id (sp_value p.(FullProposal.proposal)) = value_id value)
      then Some (value, p.(FullProposal.validity)) else find_value value entries
  | Entry.ValueOnly v validity :: entries =>
      if decide (value_id v = value_id value) then Some (value, validity) else find_value value entries
  | _ :: entries => find_value value entries
  end.

Definition get_value self (height : Height) (round : Round.t) (value : Value)
    : option (Value * Validity.t) :=
  find_value value (entries_at self height round).

Definition value_exists self (value : ProposedValue.t) : bool :=
  match BTreeMap.get (value.(ProposedValue.height), value.(ProposedValue.round)) self.(keeper) with
  | None => false
  | Some entries =>
      existsb (fun entry =>
        bool_decide (Entry.id entry = Some (value_id value.(ProposedValue.value)))) entries
  end.

(** *** Storing a proposal *)

Definition new_entry self new_proposal : Entry.t :=
  if Round.is_nil (sp_pol_round new_proposal) then Entry.ProposalOnly new_proposal
  else
    match get_value self (sp_height new_proposal) (sp_pol_round new_proposal)
            (sp_value new_proposal) with
    | None => Entry.ProposalOnly new_proposal
    | Some (v, validity) => Entry.Full (FullProposal.new v validity new_proposal)
    end.

(** The [for] loop of [store_proposal]: the entries when it returns early,
    [None] when it runs to its end. *)
Fixpoint place_proposal new_proposal (entries : list Entry.t) : outcome (option (list Entry.t)) :=
  match entries with
  | [] => Ret None
  | entry :: rest =>
      let continue :=
        placed ← place_proposal new_proposal rest;
        Ret (option_map (cons entry) placed) in
      match entry with
      | Entry.Full full_proposal =>
          if decide (value_id (sp_value full_proposal.(FullProposal.proposal)) =
                     value_id (sp_value new_proposal))
          then Ret (Some entries) else continue
      | Entry.ValueOnly value validity =>
          if decide (value = sp_value new_proposal)
          then Ret (Some (Entry.full value validity new_proposal :: rest)) else continue
      | Entry.ProposalOnly proposal =>
          if decide (value_id (sp_value proposal) = value_id (sp_value new_proposal))
          then Ret (Some entries) else continue
      | Entry.Empty => Panic "Empty entry found"
      end
  end.

Definition store_proposal self new_proposal : outcome t :=
  let key := (sp_height new_proposal, sp_round new_proposal) in
  match BTreeMap.get key self.(keeper) with
  | None => Ret (mk (BTreeMap.insert key [new_entry self new_proposal] self.(keeper)))
  | Some entries =>
      placed ← place_proposal new_proposal entries;
      Ret (mk (BTreeMap.insert key
        match placed with
        | Some entries => entries
        | None => entries ++ [new_entry self new_proposal]
        end self.(keeper)))
  end.

(** *** Storing a value *)

(** The [for] loop of [store_value_at_value_round]. *)
Fixpoint place_value new_value (entries : list Entry.t) : outcome (option (list Entry.t)) :=
  match entries with
  | [] => Ret None
  | entry :: rest =>
      let continue :=
        placed ← place_value new_value rest;
        Ret (option_map (cons entry) placed) in
      match entry with
      | Entry.ProposalOnly proposal =>
          if decide (value_id (sp_value proposal) = value_id new_value.(ProposedValue.value))
          then Ret (Some (Entry.full new_value.(ProposedValue.value)
                            new_value.(ProposedValue.validity) proposal :: rest))
          else continue
      | Entry.ValueOnly value _ =>
          if decide (value_id value = value_id new_value.(ProposedValue.value))
          then Ret (Some entries) else continue
      | Entry.Full full_proposal =>
          if decide (value_id (sp_value full_proposal.(FullProposal.proposal)) =
                     value_id new_value.(ProposedValue.value))
          then Ret (Some entries) else continue
      | Entry.Empty => Panic "Empty entry found"
      end
  end.

Definition store_value_at_value_round self new_value : outcome t :=
  let key := (new_value.(ProposedValue.height), new_value.(ProposedValue.round)) in
  let entry := Entry.ValueOnly new_value.(ProposedValue.value) new_value.(ProposedValue.validity) in
  match BTreeMap.get key self.(keeper) with
  | None => Ret (mk (BTreeMap.insert key [entry] self.(keeper)))
  | Some entries =>
      placed ← place_value new_value entries;
      Ret (mk (BTreeMap.insert key
        match placed with Some entries => entries | None => entries ++ [entry] end self.(keeper)))
  end.

(** The body of the loops of [store_value_at_pol_round]. *)
Definition complete new_value (entry : Entry.t) : Entry.t :=
  match entry with
  | Entry.ProposalOnly proposal =>
      if bool_decide (value_id (sp_value proposal) = value_id new_value.(ProposedValue.value)) &&
         (bool_decide (sp_round proposal = new_value.(ProposedValue.round)) ||
          bool_decide (sp_pol_round proposal = new_value.(ProposedValue.round)))
      then Entry.full new_value.(ProposedValue.value) new_value.(ProposedValue.validity) proposal
      else entry
  | _ => entry
  end.

Definition store_value_at_pol_round self new_value : t :=
  let first_key := (new_value.(ProposedValue.height), new_value.(ProposedValue.round)) in
  mk (BTreeMap.map_range_from first_key (fmap (complete new_value)) self.(keeper)).

Definition store_value self new_value : outcome t :=
  self ← store_value_at_value_round self new_value;
  Ret (store_value_at_pol_round self new_value).

(** ** Properties *)

(** What the keeper is given: a height's proposals and values, in any order. *)
Inductive event : Type :=
  | GotProposal (p : SignedProposal)
  | GotValue (w : ProposedValue.t).

Definition apply_event self (ev : event) : outcome t :=
  match ev with
  | GotProposal p => store_proposal self p
  | GotValue w => store_value self w
  end.

Fixpoint run self (evs : list event) : outcome t :=
  match evs with
  | [] => Ret self
  | ev :: evs => self ← apply_event self ev; run self evs
  end.

Definition event_height (ev : event) : Height :=
  match ev with GotProposal p => sp_height p | GotValue w => w.(ProposedValue.height) end.

(** The keeper is cleared when a height starts, and other heights are not
    stored. *)
Definition one_height (h : Height) (evs : list event) : Prop := Forall (fun ev => event_height ev = h) evs.

Definition pkey (p : SignedProposal) : key := (sp_height p, sp_round p).
Definition pid (p : SignedProposal) : ValueId := value_id (sp_value p).
Definition vkey (w : ProposedValue.t) : key := (w.(ProposedValue.height), w.(ProposedValue.round)).
Definition vid (w : ProposedValue.t) : ValueId := value_id w.(ProposedValue.value).

(** The value belongs to the proposal: they have the same identifier and
    height, and the value is of the proposal's round or of its proof-of-lock
    round. *)
Definition matches (w : ProposedValue.t) (p : SignedProposal) : Prop :=
  vid w = pid p /\ w.(ProposedValue.height) = sp_height p /\
  (w.(ProposedValue.round) = sp_round p \/
   Round.is_defined (sp_pol_round p) = true /\ w.(ProposedValue.round) = sp_pol_round p /\
   Round.lt (sp_pol_round p) (sp_round p)).

Definition at_key self (k : key) (e : Entry.t) : Prop :=
  exists es, BTreeMap.get k self.(keeper) = Some es /\ e ∈ es.

Definition proposal_of (e : Entry.t) : option SignedProposal :=
  match e with
  | Entry.Full p => Some p.(FullProposal.proposal)
  | Entry.ProposalOnly p => Some p
  | _ => None
  end.

(** The identifier of the value an entry has. *)
Definition value_of (e : Entry.t) : option ValueId :=
  match e with
  | Entry.Full p => Some (pid p.(FullProposal.proposal))
  | Entry.ValueOnly v _ => Some (value_id v)
  | _ => None
  end.

(** What an entry under [k] stands for, when [seen] was stored and the
    proposals without a value were compared to the values of [compared]. *)
Definition entry_ok (seen compared : list event) (k : key) (e : Entry.t) : Prop :=
  match e with
  | Entry.Full fp =>
      let p := fp.(FullProposal.proposal) in
      GotProposal p ∈ seen /\ pkey p = k /\ value_id fp.(FullProposal.builder_value) = pid p /\
      exists w, GotValue w ∈ seen /\ vid w = pid p /\ w.(ProposedValue.height) = k.1 /\
        w.(ProposedValue.validity) = fp.(FullProposal.validity)
  | Entry.ProposalOnly p =>
      GotProposal p ∈ seen /\ pkey p = k /\ forall w, GotValue w ∈ compared -> ~ matches w p
  | Entry.ValueOnly v validity =>
      exists w, GotValue w ∈ seen /\ vid w = value_id v /\ vkey w = k /\
        w.(ProposedValue.validity) = validity
  | Entry.Empty => False
  end.

Definition keeps (seen compared : list event) self : Prop :=
  BTreeMap.sorted self.(keeper) /\
  (forall k e, at_key self k e -> entry_ok seen compared k e) /\
  (forall w, GotValue w ∈ seen -> exists e, at_key self (vkey w) e /\ value_of e = Some (vid w)) /\
  (forall p, GotProposal p ∈ seen ->
     exists e p', at_key self (pkey p) e /\ proposal_of e = Some p' /\ pid p' = pid p).

Context `{!KeyOrderLaws Height}.

Lemma at_key_insert m k es k' e :
  at_key (mk (BTreeMap.insert k es m)) k' e <-> (k' = k /\ e ∈ es) \/ (k' <> k /\ at_key (mk m) k' e).
Proof.
  unfold at_key. cbn [keeper]. destruct (decide (k' = k)) as [->|Hne].
  - rewrite BTreeMap.get_insert. naive_solver.
  - rewrite BTreeMap.get_insert_ne by done. naive_solver.
Qed.

Lemma at_key_complete self w k e :
  at_key (store_value_at_pol_round self w) k e <->
  exists e0, at_key self k e0 /\ e = if key_ltb k (vkey w) then e0 else complete w e0.
Proof.
  unfold at_key, store_value_at_pol_round. cbn [keeper]. rewrite BTreeMap.get_map_range_from.
  change (w.(ProposedValue.height), w.(ProposedValue.round)) with (vkey w).
  destruct (BTreeMap.get k self.(keeper)) as [es|]; cbn; [|naive_solver].
  destruct (key_ltb k (vkey w)).
  - split; [intros (? & [= <-] & ?); eauto|]. intros (e0 & (? & [= <-] & ?) & ->). eauto.
  - split.
    + intros (? & [= <-] & (e0 & -> & ?)%list_elem_of_fmap). eauto.
    + intros (e0 & (? & [= <-] & ?) & ->). eexists. split; [done|]. by apply list_elem_of_fmap_2.
Qed.

Lemma entries_at_at_key self h r e : e ∈ entries_at self h r <-> at_key self (h, r) e.
Proof.
  unfold entries_at, at_key. destruct (BTreeMap.get (h, r) self.(keeper)) as [es|]; cbn.
  { split; [by exists es|]. by intros (? & [= <-] & ?). }
  split; [by intros ?%not_elem_of_nil|by intros (? & [=] & _)].
Qed.

Lemma find_value_Some value entries v validity :
  find_value value entries = Some (v, validity) ->
  v = value /\ exists e, e ∈ entries /\ value_of e = Some (value_id value) /\
    match e with
    | Entry.Full fp => fp.(FullProposal.validity) = validity
    | Entry.ValueOnly _ validity' => validity' = validity
    | _ => True
    end.
Proof.
  induction entries as [|e entries IH]; [done|]. intros H.
  assert (Hrest : find_value value entries = Some (v, validity) -> v = value /\ exists e', e' ∈ e :: entries /\
    value_of e' = Some (value_id value) /\ match e' with
    | Entry.Full fp => fp.(FullProposal.validity) = validity
    | Entry.ValueOnly _ validity' => validity' = validity | _ => True end).
  { intros Hr. destruct (IH Hr) as (-> & e' & ? & ?). split; [done|]. exists e'. by split; [right|]. }
  destruct e as [fp|p|v' va|]; cbn [find_value] in H; [|by apply Hrest| |by apply Hrest];
    case_decide as Hid; try (by apply Hrest).
  - injection H as <- <-. split; [done|]. exists (Entry.Full fp). split; [by left|].
    cbn. unfold pid. by rewrite Hid.
  - injection H as <- <-. split; [done|]. eexists. split; [by left|]. cbn. by rewrite Hid.
Qed.

Lemma find_value_None value entries e :
  find_value value entries = None -> e ∈ entries -> value_of e <> Some (value_id value).
Proof.
  induction entries as [|e' entries IH]; intros H Hin; [by apply not_elem_of_nil in Hin|].
  apply elem_of_cons in Hin as [->|Hin].
  - destruct e' as [fp|p|v va|]; cbn [find_value value_of] in H |- *; [|done| |done];
      case_decide as Hid; try done.
    + unfold pid. congruence.
    + congruence.
  - apply IH; [|done]. destruct e'; cbn [find_value] in H; try done; by case_decide.
Qed.

(** What the loop of [store_proposal] does with the entries: nothing, when one
    has a proposal for the same value; or it completes one that has the value;
    or it finds neither. *)
Definition other_entry p (e : Entry.t) : Prop :=
  match e with
  | Entry.ValueOnly v _ => v <> sp_value p
  | _ => forall p', proposal_of e = Some p' -> pid p' <> pid p
  end.

Definition proposal_placed p (entries : list Entry.t) (r : option (list Entry.t)) : Prop :=
  match r with
  | None => forall e, e ∈ entries -> other_entry p e
  | Some es =>
      (es = entries /\ exists e p', e ∈ entries /\ proposal_of e = Some p' /\ pid p' = pid p) \/
      exists before v validity after, entries = before ++ Entry.ValueOnly v validity :: after /\
        v = sp_value p /\ es = before ++ Entry.full v validity p :: after
  end.

Lemma proposal_placed_skip p e entries r :
  other_entry p e -> proposal_placed p entries r ->
  proposal_placed p (e :: entries) (option_map (cons e) r).
Proof.
  intros Hno. destruct r as [es|]; cbn.
  - intros [(-> & e' & p' & ? & ? & ?)|(b & v & va & af & -> & ? & ->)].
    + left. split; [done|]. exists e', p'. by split_and!; [right|..].
    + right. by exists (e :: b), v, va, af.
  - intros Hspec e' [->|?]%elem_of_cons; [done|by apply Hspec].
Qed.

Lemma place_proposal_spec p entries :
  Entry.Empty ∉ entries -> exists r, place_proposal p entries = Ret r /\ proposal_placed p entries r.
Proof.
  induction entries as [|e entries IH]; intros Hne.
  { exists None. split; [done|]. by intros ? ?%not_elem_of_nil. }
  destruct IH as (r & Hr & Hspec); [by intros ?; apply Hne; right|].
  destruct e as [fp|p'|v va|]; cbn [place_proposal]; [| | |by destruct Hne; left]; case_decide as Hid;
    try (rewrite Hr; eexists; split; [done|]; apply proposal_placed_skip; [|done]; try done; by intros ? [= <-]).
  - eexists. split; [done|]. left. split; [done|].
    exists (Entry.Full fp), fp.(FullProposal.proposal). by split_and!; [left|..].
  - eexists. split; [done|]. left. split; [done|]. exists (Entry.ProposalOnly p'), p'. by split_and!; [left|..].
  - eexists. split; [done|]. right. by exists [], v, va, entries.
Qed.

(** The same for the loop of [store_value_at_value_round]. *)
Definition value_placed w (entries : list Entry.t) (r : option (list Entry.t)) : Prop :=
  match r with
  | None => forall e, e ∈ entries -> value_of e <> Some (vid w)
  | Some es =>
      (es = entries /\ exists e, e ∈ entries /\ value_of e = Some (vid w)) \/
      exists before p after, entries = before ++ Entry.ProposalOnly p :: after /\ pid p = vid w /\
        es = before ++ Entry.full w.(ProposedValue.value) w.(ProposedValue.validity) p :: after
  end.

Lemma value_placed_skip w e entries r :
  value_of e <> Some (vid w) -> value_placed w entries r ->
  value_placed w (e :: entries) (option_map (cons e) r).
Proof.
  intros Hno. destruct r as [es|]; cbn.
  - intros [(-> & e' & ? & ?)|(b & p & af & -> & ? & ->)].
    + left. split; [done|]. exists e'. by split; [right|].
    + right. by exists (e :: b), p, af.
  - intros Hspec e' [->|?]%elem_of_cons; [done|by apply Hspec].
Qed.

Lemma place_value_spec w entries :
  Entry.Empty ∉ entries -> exists r, place_value w entries = Ret r /\ value_placed w entries r.
Proof.
  induction entries as [|e entries IH]; intros Hne.
  { exists None. split; [done|]. by intros ? ?%not_elem_of_nil. }
  destruct IH as (r & Hr & Hspec); [by intros ?; apply Hne; right|].
  destruct e as [fp|p'|v va|]; cbn [place_value]; [| | |by destruct Hne; left]; case_decide as Hid;
    try (rewrite Hr; eexists; split; [done|]; apply value_placed_skip; [|done]; cbn; unfold pid, vid; congruence).
  - eexists. split; [done|]. left. split; [done|]. eexists. split; [by left|]. cbn. unfold pid, vid. by rewrite Hid.
  - eexists. split; [done|]. right. by exists [], p', entries.
  - eexists. split; [done|]. left. split; [done|]. eexists. split; [by left|]. cbn. unfold vid. by rewrite Hid.
Qed.

Lemma entry_ok_mono seen seen' compared k e :
  (forall ev, ev ∈ seen -> ev ∈ seen') -> entry_ok seen compared k e -> entry_ok seen' compared k e.
Proof. intros Hsub. destruct e; cbn; naive_solver. Qed.

Lemma keeps_no_Empty seen compared self k es :
  keeps seen compared self -> BTreeMap.get k self.(keeper) = Some es -> Entry.Empty ∉ es.
Proof. intros (_ & Hok & _) Hk Hin. apply (Hok k Entry.Empty). by exists es. Qed.

(** Replacing the entries under one key. *)
Lemma keeps_insert seen compared seen' self k es :
  keeps seen compared self -> (forall ev, ev ∈ seen -> ev ∈ seen') ->
  (forall e, e ∈ es -> entry_ok seen' compared k e) ->
  (forall e, at_key self k e ->
     (forall v, value_of e = Some v -> exists e', e' ∈ es /\ value_of e' = Some v) /\
     (forall p, proposal_of e = Some p -> exists e' p', e' ∈ es /\ proposal_of e' = Some p' /\ pid p' = pid p)) ->
  (forall w, GotValue w ∈ seen' -> GotValue w ∈ seen \/ vkey w = k /\ exists e, e ∈ es /\ value_of e = Some (vid w)) ->
  (forall p, GotProposal p ∈ seen' -> GotProposal p ∈ seen \/ pkey p = k /\
     exists e p', e ∈ es /\ proposal_of e = Some p' /\ pid p' = pid p) ->
  keeps seen' compared (mk (BTreeMap.insert k es self.(keeper))).
Proof.
  intros (Hs & Hok & Hval & Hprop) Hsub Hes Hkeep Hnewv Hnewp. split_and!.
  - by apply BTreeMap.insert_sorted.
  - intros k' e [[-> He]|[Hne He]]%at_key_insert; [by apply Hes|].
    eapply entry_ok_mono; [exact Hsub|]. destruct self. by apply Hok.
  - intros w Hw. destruct (decide (vkey w = k)) as [Hk|Hk].
    + enough (exists e, e ∈ es /\ value_of e = Some (vid w)) as (e & ? & ?).
      { exists e. split; [|done]. apply at_key_insert. by left. }
      apply Hnewv in Hw as [Hw|[_ ?]]; [|done]. destruct (Hval w Hw) as (e & He & Hv).
      rewrite Hk in He. by apply (Hkeep e He).
    + destruct (Hnewv w Hw) as [Hw'|[? _]]; [|done]. destruct (Hval w Hw') as (e & He & Hv).
      exists e. split; [|done]. apply at_key_insert. right. by destruct self.
  - intros p Hp. destruct (decide (pkey p = k)) as [Hk|Hk].
    + enough (exists e p', e ∈ es /\ proposal_of e = Some p' /\ pid p' = pid p) as (e & p' & ? & ? & ?).
      { exists e, p'. split_and!; [|done|done]. apply at_key_insert. by left. }
      apply Hnewp in Hp as [Hp|[_ ?]]; [|done]. destruct (Hprop p Hp) as (e & p' & He & Hv & Hid).
      rewrite Hk in He. destruct (Hkeep e He) as [_ Hk']. destruct (Hk' _ Hv) as (e' & p2 & ? & ? & ?).
      exists e', p2. by split_and!; [..|congruence].
    + destruct (Hnewp p Hp) as [Hp'|[? _]]; [|done]. destruct (Hprop p Hp') as (e & p' & He & Hv & Hid).
      exists e, p'. split_and!; [|done|done]. apply at_key_insert. right. by destruct self.
Qed.

(** Putting one more entry under a key, or one in the place of another. *)
Definition covers (seen seen' : list event) (k : key) (e1 : Entry.t) : Prop :=
  (forall ev, ev ∈ seen -> ev ∈ seen') /\
  (forall w, GotValue w ∈ seen' -> GotValue w ∈ seen \/ vkey w = k /\ value_of e1 = Some (vid w)) /\
  (forall p, GotProposal p ∈ seen' -> GotProposal p ∈ seen \/ pkey p = k /\
     exists p', proposal_of e1 = Some p' /\ pid p' = pid p).

Lemma keeps_append seen compared seen' self k es e1 :
  keeps seen compared self -> default [] (BTreeMap.get k self.(keeper)) = es ->
  covers seen seen' k e1 -> entry_ok seen' compared k e1 ->
  keeps seen' compared (mk (BTreeMap.insert k (es ++ [e1]) self.(keeper))).
Proof.
  intros Hkeeps Hes (Hsub & Hv & Hp) Hok1.
  assert (Hkey : forall e, at_key self k e <-> e ∈ es).
  { intros e. rewrite <- Hes. destruct k. by rewrite <- entries_at_at_key. }
  apply (keeps_insert seen compared); [done|done| | | |].
  - intros e. rewrite elem_of_app, list_elem_of_singleton. intros [He| ->]; [|done].
    apply (entry_ok_mono seen); [done|]. by apply Hkeeps, Hkey.
  - intros e He%Hkey. split; intros x Hx; [exists e|exists e, x]; rewrite elem_of_app; auto.
  - intros w [?|[? ?]]%Hv; [by left|right]. split; [done|]. exists e1.
    rewrite elem_of_app, list_elem_of_singleton. auto.
  - intros p [?|(? & p' & ? & ?)]%Hp; [by left|right]. split; [done|]. exists e1, p'.
    rewrite elem_of_app, list_elem_of_singleton. auto.
Qed.

Lemma keeps_replace seen compared seen' self k before e0 after e1 :
  keeps seen compared self -> BTreeMap.get k self.(keeper) = Some (before ++ e0 :: after) ->
  covers seen seen' k e1 -> entry_ok seen' compared k e1 ->
  (forall v, value_of e0 = Some v -> value_of e1 = Some v) ->
  (forall p, proposal_of e0 = Some p -> proposal_of e1 = Some p) ->
  keeps seen' compared (mk (BTreeMap.insert k (before ++ e1 :: after) self.(keeper))).
Proof.
  intros Hkeeps Hes (Hsub & Hv & Hp) Hok1 Hv01 Hp01.
  assert (Hin : forall e e', e ∈ before ++ e' :: after <-> e = e' \/ e ∈ before \/ e ∈ after).
  { intros e e'. rewrite elem_of_app, elem_of_cons. tauto. }
  apply (keeps_insert seen compared); [done|done| | | |].
  - intros e [->|He]%Hin; [done|]. apply (entry_ok_mono seen); [done|]. apply Hkeeps.
    eexists. split; [exact Hes|]. apply Hin. by right.
  - intros e (es & Hes' & He). rewrite Hes in Hes'. injection Hes' as <-.
    apply Hin in He as [->|He].
    + split; intros x Hx; [exists e1|exists e1, x]; rewrite Hin; auto.
    + split; intros x Hx; [exists e|exists e, x]; rewrite Hin; auto.
  - intros w [?|[? ?]]%Hv; [by left|right]. split; [done|]. exists e1. rewrite Hin. auto.
  - intros p [?|(? & p' & ? & ?)]%Hp; [by left|right]. split; [done|]. exists e1, p'. rewrite Hin. auto.
Qed.

Lemma keeps_compared seen compared compared' self :
  (forall w, GotValue w ∈ compared' -> GotValue w ∈ compared) ->
  keeps seen compared self -> keeps seen compared' self.
Proof.
  intros Hsub (Hs & Hok & Hrest). split_and!; try done; try apply Hrest.
  intros k e He. specialize (Hok k e He). destruct e; cbn in *; naive_solver.
Qed.

(** The identifier determines the value. *)
Context (value_id_inj : forall v w : Value, value_id v = value_id w -> v = w).

Lemma new_entry_ok evs self p :
  keeps evs evs self -> (forall w, GotValue w ∈ evs -> vkey w = pkey p -> vid w <> pid p) ->
  entry_ok (evs ++ [GotProposal p]) evs (pkey p) (new_entry self p) /\
  proposal_of (new_entry self p) = Some p.
Proof.
  intros (_ & Hok & Hval & _) Hno. unfold new_entry.
  assert (Hp : GotProposal p ∈ evs ++ [GotProposal p]) by (rewrite elem_of_app, list_elem_of_singleton; auto).
  assert (Hround : forall w, GotValue w ∈ evs -> matches w p ->
    Round.is_defined (sp_pol_round p) = true /\ vkey w = (sp_height p, sp_pol_round p) /\ vid w = pid p).
  { intros w Hw (Hid & Hh & [Hr|(Hdef & Hr & _)]).
    - destruct (Hno w Hw); [|done]. unfold vkey, pkey. by rewrite Hh, Hr.
    - unfold vkey. by rewrite Hh, Hr. }
  destruct (Round.is_nil (sp_pol_round p)) eqn:Hnil.
  { split; [|done]. cbn. split_and!; try done. intros w Hw (Hdef & _)%Hround; [|done].
    by destruct (sp_pol_round p). }
  destruct (get_value self (sp_height p) (sp_pol_round p) (sp_value p)) as [[v validity]|] eqn:Hget.
  - split; [|done]. apply find_value_Some in Hget as (-> & e & He & Hv & Hva).
    apply entries_at_at_key, Hok in He. cbn. split_and!; try done.
    destruct e as [fp| |v' va|]; cbn in He, Hv; try done.
    + destruct He as (_ & Hk & _ & w & Hw & Hid & Hh & Hval'). exists w.
      rewrite elem_of_app. split_and!; [by left| |done|by rewrite <- Hva].
      injection Hv as Hv. rewrite Hid. exact Hv.
    + destruct He as (w & Hw & Hid & Hk & Hval'). exists w. rewrite elem_of_app.
      split_and!; [by left| |by apply (f_equal fst) in Hk|by rewrite <- Hva].
      injection Hv as Hv. rewrite Hid. exact Hv.
  - split; [|done]. cbn. split_and!; try done. intros w Hw Hm.
    destruct (Hround w Hw Hm) as (_ & Hk & Hid). destruct (Hval w Hw) as (e & He & Hv).
    rewrite Hk in He. apply entries_at_at_key in He.
    apply (find_value_None _ _ _ Hget He). rewrite Hv, Hid. done.
Qed.

Lemma covers_proposal evs p e1 p' :
  proposal_of e1 = Some p' -> pid p' = pid p -> covers evs (evs ++ [GotProposal p]) (pkey p) e1.
Proof.
  intros Hp Hid. split_and!.
  - intros ev. rewrite elem_of_app. auto.
  - intros w. rewrite elem_of_app, list_elem_of_singleton. intros [?|[=]]. auto.
  - intros q. rewrite elem_of_app, list_elem_of_singleton. intros [?|[= ->]]; [auto|]. right. eauto.
Qed.

(** Storing a proposal never panics and keeps the invariant. *)
Lemma store_proposal_keeps evs self p :
  keeps evs evs self ->
  exists self', store_proposal self p = Ret self' /\ keeps (evs ++ [GotProposal p]) evs self'.
Proof.
  intros Hkeeps. unfold store_proposal. fold (pkey p).
  assert (Hnew : (forall e, at_key self (pkey p) e -> other_entry p e) ->
    entry_ok (evs ++ [GotProposal p]) evs (pkey p) (new_entry self p) /\
    proposal_of (new_entry self p) = Some p).
  { intros Hother. apply new_entry_ok; [done|]. intros w Hw Hk Hid.
    pose proof Hkeeps as (_ & _ & Hval & _). destruct (Hval w Hw) as (e & He & Hv). rewrite Hk in He.
    specialize (Hother e He). destruct e as [fp| |v va|]; cbn in Hother, Hv; try done.
    - apply (Hother _ eq_refl). congruence.
    - apply Hother. apply value_id_inj. unfold pid in Hid. congruence. }
  destruct (BTreeMap.get (pkey p) self.(keeper)) as [es|] eqn:Hg.
  - destruct (place_proposal_spec p es) as (r & -> & Hplaced); [by eapply keeps_no_Empty|].
    cbn [mbind outcome_bind]. eexists. split; [done|].
    destruct r as [es'|]; cbn in Hplaced;
      [destruct Hplaced as [(-> & e & p' & He & Hp' & Hid)|(b & v & va & af & -> & -> & ->)]|].
    + apply list_elem_of_split in He as (b & af & ->).
      apply (keeps_replace evs evs _ self (pkey p) b e af e); try done; [by eapply covers_proposal|].
      apply (entry_ok_mono evs); [by intros; rewrite elem_of_app; left|]. apply Hkeeps.
      eexists. split; [done|]. rewrite elem_of_app, elem_of_cons. auto.
    + eapply keeps_replace; try done; [by eapply covers_proposal|].
      pose proof Hkeeps as (_ & Hok & _).
      destruct (Hok (pkey p) (Entry.ValueOnly (sp_value p) va)) as (w & Hw & Hid & Hk & Hva).
      { eexists. split; [done|]. rewrite elem_of_app, elem_of_cons. auto. }
      cbn. split_and!; try done; [rewrite elem_of_app, list_elem_of_singleton; auto|].
      exists w. rewrite elem_of_app. split_and!; try done; [by left|]. by apply (f_equal fst) in Hk.
    + destruct Hnew as [Hok1 Hp1].
      { intros e (es' & Hes' & He). rewrite Hg in Hes'. simplify_eq. auto. }
      apply (keeps_append evs); [done|by rewrite Hg|by eapply covers_proposal|done].
  - eexists. split; [done|]. destruct Hnew as [Hok1 Hp1].
    { intros e (es' & Hes' & He). by rewrite Hg in Hes'. }
    apply (keeps_append evs evs _ self (pkey p) []); [done|by rewrite Hg|by eapply covers_proposal|done].
Qed.

Lemma covers_value evs w e1 :
  value_of e1 = Some (vid w) -> covers evs (evs ++ [GotValue w]) (vkey w) e1.
Proof.
  intros Hv. split_and!.
  - intros ev. rewrite elem_of_app. auto.
  - intros q. rewrite elem_of_app, list_elem_of_singleton. intros [?|[= ->]]; auto.
  - intros q. rewrite elem_of_app, list_elem_of_singleton. intros [?|[=]]. auto.
Qed.

Lemma store_value_at_value_round_keeps evs self w :
  keeps evs evs self ->
  exists self', store_value_at_value_round self w = Ret self' /\
    keeps (evs ++ [GotValue w]) evs self'.
Proof.
  intros Hkeeps. unfold store_value_at_value_round. fold (vkey w).
  assert (Hw : GotValue w ∈ evs ++ [GotValue w]) by (rewrite elem_of_app, list_elem_of_singleton; auto).
  assert (Hnew : entry_ok (evs ++ [GotValue w]) evs (vkey w)
    (Entry.ValueOnly w.(ProposedValue.value) w.(ProposedValue.validity))) by (by exists w).
  destruct (BTreeMap.get (vkey w) self.(keeper)) as [es|] eqn:Hg.
  - destruct (place_value_spec w es) as (r & -> & Hplaced); [by eapply keeps_no_Empty|].
    cbn [mbind outcome_bind]. eexists. split; [done|].
    destruct r as [es'|]; cbn in Hplaced;
      [destruct Hplaced as [(-> & e & He & Hv)|(b & p & af & -> & Hid & ->)]|].
    + apply list_elem_of_split in He as (b & af & ->).
      apply (keeps_replace evs evs _ self (vkey w) b e af e); try done; [by eapply covers_value|].
      apply (entry_ok_mono evs); [by intros; rewrite elem_of_app; left|]. apply Hkeeps.
      eexists. split; [done|]. rewrite elem_of_app, elem_of_cons. auto.
    + eapply keeps_replace; try done; [apply covers_value; cbn; by rewrite Hid|].
      pose proof Hkeeps as (_ & Hok & _).
      destruct (Hok (vkey w) (Entry.ProposalOnly p)) as (Hp & Hk & _).
      { eexists. split; [done|]. rewrite elem_of_app, elem_of_cons. auto. }
      cbn. split_and!; try done; [rewrite elem_of_app; auto|]. by exists w.
    + apply (keeps_append evs); [done|by rewrite Hg|by apply covers_value|done].
  - eexists. split; [done|].
    apply (keeps_append evs evs _ self (vkey w) []); [done|by rewrite Hg|by apply covers_value|done].
Qed.

Lemma complete_value_of w e v : value_of e = Some v -> value_of (complete w e) = Some v.
Proof. by destruct e. Qed.

Lemma complete_proposal_of w e : proposal_of (complete w e) = proposal_of e.
Proof. destruct e; cbn; try done. by case_match. Qed.

(** The second stage compares the proposals without a value to the new one. *)
Lemma complete_ok h evs k e w :
  let evs' := evs ++ [GotValue w] in
  one_height h evs' -> entry_ok evs' evs k e ->
  entry_ok evs' evs' k (if key_ltb k (vkey w) then e else complete w e).
Proof.
  intros evs' Hheight He. unfold one_height in Hheight. rewrite Forall_forall in Hheight.
  assert (Hother : (forall p, e <> Entry.ProposalOnly p) ->
    complete w e = e /\ entry_ok evs' evs' k e) by (destruct e; naive_solver).
  destruct e as [fp|p|v va|]; try (destruct Hother as [-> ?]; [done|by case_match]).
  clear Hother. destruct He as (Hp & Hk & Hno).
  assert (Hkeep : ~ matches w p -> entry_ok evs' evs' k (Entry.ProposalOnly p)).
  { intros Hw. split_and!; try done. intros q. unfold evs'.
    rewrite elem_of_app, list_elem_of_singleton. intros [?|[= ->]]; auto. }
  destruct (key_ltb k (vkey w)) eqn:Hlt.
  - apply Hkeep. intros (_ & Hh & Hr). subst k. unfold key_ltb, prod_key_order in Hlt. cbn in Hlt.
    rewrite Hh, key_ltb_irrefl, bool_decide_true in Hlt by done. cbn in Hlt.
    unfold key_ltb, Round_key_order in Hlt. destruct Hr as [Hr|(_ & Hr & Hr')]; rewrite Hr in Hlt; round_lia.
  - cbn [complete]. case_match eqn:Hc.
    + rewrite andb_true_iff, bool_decide_eq_true in Hc. destruct Hc as [Hid Hr].
      assert (Hw : GotValue w ∈ evs') by (unfold evs'; rewrite elem_of_app, list_elem_of_singleton; auto).
      cbn. split_and!; [done|done|done|]. exists w. split_and!; [done|done| |done].
      rewrite <- Hk. apply Hheight in Hw, Hp. cbn in *. congruence.
    + apply Hkeep. intros (Hid & Hh & Hr). rewrite andb_false_iff, bool_decide_eq_false in Hc.
      destruct Hc as [Hc|Hc]; [done|]. rewrite orb_false_iff, !bool_decide_eq_false in Hc.
      destruct Hc, Hr as [Hr|(_ & Hr & _)]; congruence.
Qed.

(** Storing a value never panics and keeps the invariant. *)
Lemma store_value_keeps h evs self w :
  one_height h (evs ++ [GotValue w]) -> keeps evs evs self ->
  exists self', store_value self w = Ret self' /\ keeps (evs ++ [GotValue w]) (evs ++ [GotValue w]) self'.
Proof.
  intros Hheight Hkeeps. unfold store_value.
  destruct (store_value_at_value_round_keeps evs self w Hkeeps) as (self1 & -> & Hs & Hok & Hval & Hprop).
  cbn [mbind outcome_bind]. eexists. split; [done|]. split_and!.
  - by apply BTreeMap.map_range_from_sorted.
  - intros k e (e0 & He & ->)%at_key_complete. apply (complete_ok h); auto.
  - intros q (e & He & Hv)%Hval. eexists. split; [apply at_key_complete; eauto|].
    case_match; [done|by apply complete_value_of].
  - intros q (e & p' & He & Hp & Hid)%Hprop. eexists _, p'.
    split_and!; [apply at_key_complete; eauto| |done]. case_match; [done|by rewrite complete_proposal_of].
Qed.

Lemma run_app self evs1 evs2 : run self (evs1 ++ evs2) = (self ← run self evs1; run self evs2).
Proof.
  revert self. induction evs1 as [|ev evs1 IH]; intros self; [done|]. cbn.
  destruct (apply_event self ev); cbn; [apply IH|done].
Qed.

Lemma run_keeps h evs :
  one_height h evs -> exists self, run new evs = Ret self /\ keeps evs evs self.
Proof.
  induction evs as [|ev evs IH] using rev_ind; intros Hheight.
  { exists new. split; [done|]. split_and!; [constructor| |by intros ? ?%not_elem_of_nil..].
    by intros k e (es & [=] & _). }
  destruct IH as (self & Hrun & Hkeeps); [by apply Forall_app in Hheight as [? _]|].
  rewrite run_app, Hrun. cbn [mbind outcome_bind run].
  destruct ev as [p|w]; cbn [apply_event].
  - destruct (store_proposal_keeps evs self p Hkeeps) as (self' & -> & Hkeeps').
    eexists. split; [done|]. eapply keeps_compared; [|done].
    intros q. rewrite elem_of_app, list_elem_of_singleton. by intros [?|[=]].
  - destruct (store_value_keeps h evs self w Hheight Hkeeps) as (self' & -> & Hkeeps'). eauto.
Qed.

Lemma find_full_Some f entries fp : find_full f entries = Some fp -> Entry.Full fp ∈ entries /\ f fp = true.
Proof.
  induction entries as [|e entries IH]; [done|]. rewrite elem_of_cons. cbn.
  destruct e as [fp'| | |]; try (intros [? ?]%IH; by split; [right|]).
  destruct (f fp') eqn:Hf; [intros [= ->]; by split; [left|]|]. intros [? ?]%IH. by split; [right|].
Qed.

Lemma find_full_None f entries fp : find_full f entries = None -> Entry.Full fp ∈ entries -> f fp = false.
Proof.
  induction entries as [|e entries IH]; [by intros _ ?%not_elem_of_nil|]. rewrite elem_of_cons. cbn.
  destruct e as [fp'| | |]; try (intros ? [[=]|?]; by apply IH).
  destruct (f fp') eqn:Hf; [done|]. intros ? [[= ->]|?]; [done|by apply IH].
Qed.

(** the keeper is well-formed and sound. Whatever proposals and values of a
    height it is given, it does not panic, and a full proposal it returns is a
    proposal it was given, of that height, round and value, with a value of the
    same identifier and the validity that value came with. *)
Theorem full_proposal_sound h evs :
  one_height h evs ->
  exists self, run new evs = Ret self /\
    forall round id fp, full_proposal_at_round_and_value self h round id = Some fp ->
      GotProposal fp.(FullProposal.proposal) ∈ evs /\
      pkey fp.(FullProposal.proposal) = (h, round) /\ pid fp.(FullProposal.proposal) = id /\
      value_id fp.(FullProposal.builder_value) = id /\
      exists w, GotValue w ∈ evs /\ vid w = id /\
        w.(ProposedValue.validity) = fp.(FullProposal.validity).
Proof.
  intros Hheight. destruct (run_keeps h evs Hheight) as (self & Hrun & _ & Hok & _).
  exists self. split; [done|]. intros round id fp [Hin Hid%bool_decide_eq_true]%find_full_Some.
  apply entries_at_at_key, Hok in Hin. destruct Hin as (Hp & Hk & Hv & w & Hw & Hwid & _ & Hva).
  split_and!; try done; [by rewrite Hv|]. exists w. split_and!; try done. by rewrite Hwid.
Qed.

(** the keeper is complete. When a proposal and a value that belongs to it
    have both been given, in whatever order and among whatever else, the keeper
    has a full proposal for that round and value, provided the proposer has not
    signed proposals for the same round and value with different proof-of-lock
    rounds. *)
Theorem full_proposal_complete h evs p w :
  one_height h evs -> GotProposal p ∈ evs -> GotValue w ∈ evs -> matches w p ->
  (forall p', GotProposal p' ∈ evs -> pkey p' = pkey p -> pid p' = pid p ->
     sp_pol_round p' = sp_pol_round p) ->
  exists self, run new evs = Ret self /\
    is_Some (full_proposal_at_round_and_value self h (sp_round p) (pid p)).
Proof.
  intros Hheight Hp Hw Hm Hpol. destruct (run_keeps h evs Hheight) as (self & Hrun & _ & Hok & _ & Hprop).
  exists self. split; [done|]. destruct (Hprop p Hp) as (e & p' & He & Hp' & Hid).
  assert (Hh : sp_height p = h) by (unfold one_height in Hheight; rewrite Forall_forall in Hheight; by apply (Hheight _ Hp)).
  unfold full_proposal_at_round_and_value.
  destruct (find_full _ _) as [fp|] eqn:Hfind; [by eexists|]. exfalso. pose proof (Hok _ _ He) as Hok'.
  destruct e as [fp|q| |]; cbn in Hp'; try done; injection Hp' as <-.
  - unfold pkey in He. rewrite Hh in He. apply entries_at_at_key in He.
    apply (find_full_None _ _ _ Hfind) in He. by rewrite bool_decide_eq_false in He.
  - destruct Hok' as (Hq & Hk & Hno). apply (Hno w Hw). injection Hk as Hkh Hkr.
    unfold matches in *. rewrite Hid, Hkh, Hkr, (Hpol q Hq) by (unfold pkey; congruence). done.
Qed.

End keeper.
Arguments t {Ctx}.
End FullProposalKeeper.

(** ** An instance *)
Section instance.
#[local] Existing Instances N_context N_context_laws.

#[local] Instance N_height_total : HeightTotal.
Proof.
  intros [b1 f1] [b2 f2]. cbn. unfold SnHeight.ltb. cbn.
  rewrite !orb_true_iff, !andb_true_iff, !N.eqb_eq, !N.ltb_lt.
  destruct (N.lt_trichotomy b1 b2) as [?|[->|?]]; [by auto| |by auto].
  destruct (N.lt_trichotomy f1 f2) as [?|[->|?]]; auto.
Qed.

Lemma N_value_id_inj (v w : Value) : value_id v = value_id w -> v = w.
Proof. intros H. exact H. Qed.

(** The value 9, proposed in round 1, and again in round 2 with its proof of
    lock. *)
Definition reproposal : SignedProposal :=
  SignedMessage.new (new_proposal SnHeight.INITIAL (Round.new 2) 9 (Round.new 1) 3)%N 0%N.
Definition first_value : ProposedValue.t :=
  ProposedValue.mk SnHeight.INITIAL (Round.new 1) Round.Nil 2%N 9%N Validity.Valid.

Lemma full_proposal_sound_witness :
  exists self, FullProposalKeeper.run FullProposalKeeper.new
      [FullProposalKeeper.GotProposal reproposal; FullProposalKeeper.GotValue first_value] = Ret self.
Proof.
  destruct (FullProposalKeeper.full_proposal_sound (Ctx := N_context) N_value_id_inj SnHeight.INITIAL
    [FullProposalKeeper.GotProposal reproposal; FullProposalKeeper.GotValue first_value])
    as (self & Hrun & _).
  - repeat constructor.
  - exists self. exact Hrun.
Defined.

Lemma full_proposal_complete_witness :
  exists self, FullProposalKeeper.run FullProposalKeeper.new
      [FullProposalKeeper.GotProposal reproposal; FullProposalKeeper.GotValue first_value] = Ret self /\
    is_Some (FullProposalKeeper.full_proposal_at_round_and_value self SnHeight.INITIAL (Round.new 2) 9%N).
Proof.
  apply (FullProposalKeeper.full_proposal_complete (Ctx := N_context) N_value_id_inj SnHeight.INITIAL
    [FullProposalKeeper.GotProposal reproposal; FullProposalKeeper.GotValue first_value]
    reproposal first_value).
  - repeat constructor.
  - left.
  - right. left.
  - repeat split. right. repeat split; vm_decide.
  - intros p' Hp' _ _. apply elem_of_cons in Hp' as [[= ->]|Hp']; [done|].
    apply list_elem_of_singleton in Hp'. done.
Defined.

End instance.
