(* ===== verification/Consensus.v ===== *)
(** * The consensus process

    core-consensus: the state of a node (state.rs) and the handlers of its
    inputs (handle.rs and handle/*.rs) on top of the driver. A handler is a
    coroutine that yields effects to its host and is resumed with their
    results: here it is a tree ([prog]) with one branch for each value it may
    be resumed with. Metrics and logging are left out.

    The handlers call each other through [apply_driver_input]; the fuel bounds
    the depth of that recursion, and running out of it is a result of its own. *)

From S2P Require Import Prelude Types Bytes Context Starknet StateMachine VoteKeeper ProposalKeeper Driver Verify BTree BoundedQueue Coroutine ConsensusTypes FullProposal.

(** ** Coroutines (gen.rs, macros.rs) *)

Abbreviation prog := (Coroutine.prog Effect Resume).
Abbreviation trace := (Coroutine.trace Effect Resume).

(** ** The state (state.rs) *)

Module CState.
Record t {Ctx : Context} : Type := mk {
  params : Params.t;
  driver : Driver.t;
  input_queue : BoundedQueue.t Height ConsensusInput.t;
  sync_input_queue : BoundedQueue.t Height ConsensusInput.t;
  full_proposal_keeper : FullProposalKeeper.t;
  last_signed_prevote : option SignedVote;
  last_signed_precommit : option SignedVote;
}.
Arguments mk {Ctx} params driver input_queue sync_input_queue full_proposal_keeper
  last_signed_prevote last_signed_precommit.

Section state.
Context {Ctx : Context}.
Implicit Types (self : t).

(** Assignments to one field. *)
Definition set_driver self x := mk self.(params) x self.(input_queue) self.(sync_input_queue)
  self.(full_proposal_keeper) self.(last_signed_prevote) self.(last_signed_precommit).
Definition set_input_queue self x := mk self.(params) self.(driver) x self.(sync_input_queue)
  self.(full_proposal_keeper) self.(last_signed_prevote) self.(last_signed_precommit).
Definition set_sync_input_queue self x := mk self.(params) self.(driver) self.(input_queue) x
  self.(full_proposal_keeper) self.(last_signed_prevote) self.(last_signed_precommit).
Definition set_full_proposal_keeper self x := mk self.(params) self.(driver) self.(input_queue)
  self.(sync_input_queue) x self.(last_signed_prevote) self.(last_signed_precommit).
Definition set_last_votes self x y := mk self.(params) self.(driver) self.(input_queue)
  self.(sync_input_queue) self.(full_proposal_keeper) x y.

Definition new (params : Params.t) (queue_capacity : nat) : t :=
  let driver := Driver.new params.(Params.initial_height) params.(Params.initial_validator_set)
                  params.(Params.address) params.(Params.threshold_params) in
  mk params driver (BoundedQueue.new queue_capacity) (BoundedQueue.new queue_capacity)
    FullProposalKeeper.new None None.

Definition height self : Height := Driver.height self.(driver).
Definition round self : Round.t := Driver.round self.(driver).
Definition address self : Address := self.(driver).(Driver.address).
Definition validator_set self : ValidatorSet := self.(driver).(Driver.validator_set).

Definition get_proposer self (height : Height) (round : Round.t) : outcome Address :=
  validator ← select_proposer (validator_set self) height round;
  Ret (validator_address validator).

Definition set_last_vote self (vote : SignedVote) : t :=
  match sv_type vote with
  | VoteType.Prevote => set_last_votes self (Some vote) self.(last_signed_precommit)
  | VoteType.Precommit => set_last_votes self self.(last_signed_prevote) (Some vote)
  end.

Definition restore_precommits self (height : Height) (round : Round.t) (value : Value)
    : outcome (list SignedVote) :=
  _ ← assert_that (bool_decide (height = Driver.height self.(driver)))
        "assertion failed: height == self.driver.height()";
  Ret (match VoteKeeper.get_round self.(driver).(Driver.vote_keeper) round with
       | Some per_round =>
           List.filter (fun vote => bool_decide (sv_type vote = VoteType.Precommit) &&
                                    bool_decide (sv_value vote = NilOrVal.Val (value_id value)))
             per_round.(PerRound.received_votes)
       | None => []
       end).

Definition polka_certificate_at_round self (round : Round.t) : option PolkaCertificate.t :=
  List.find (fun c => bool_decide (c.(PolkaCertificate.round) = round) &&
                      bool_decide (c.(PolkaCertificate.height) = Driver.height self.(driver)))
    self.(driver).(Driver.polka_certificates).

Definition full_proposal_at_round_and_value self (height : Height) (round : Round.t) (value : Value)
    : option FullProposal.t :=
  FullProposalKeeper.full_proposal_at_round_and_value self.(full_proposal_keeper) height round
    (value_id value).
Definition full_proposal_at_round_and_proposer self (height : Height) (round : Round.t)
    (address : Address) : option FullProposal.t :=
  FullProposalKeeper.full_proposal_at_round_and_proposer self.(full_proposal_keeper) height round
    address.
Definition proposals_for_value self (proposed_value : ProposedValue.t) : list SignedProposal :=
  FullProposalKeeper.proposals_for_value self.(full_proposal_keeper) proposed_value.
Definition store_proposal self (new_proposal : SignedProposal) : outcome t :=
  keeper ← FullProposalKeeper.store_proposal self.(full_proposal_keeper) new_proposal;
  Ret (set_full_proposal_keeper self keeper).
Definition value_exists self (new_value : ProposedValue.t) : bool :=
  FullProposalKeeper.value_exists self.(full_proposal_keeper) new_value.
Definition store_value self (new_value : ProposedValue.t) : outcome t :=
  _ ← assert_that (bool_decide (new_value.(ProposedValue.height) = Driver.height self.(driver)))
        "assertion failed: new_value.height == self.driver.height()";
  keeper ← FullProposalKeeper.store_value self.(full_proposal_keeper) new_value;
  Ret (set_full_proposal_keeper self keeper).

Definition reset_and_start_height self (height : Height) (validator_set : ValidatorSet) : t :=
  let self := set_full_proposal_keeper self (FullProposalKeeper.clear self.(full_proposal_keeper)) in
  let self := set_last_votes self None None in
  set_driver self (Driver.move_to_height self.(driver) height validator_set).

Definition decided_value self : option (Round.t * Value) := Driver.decided_value self.(driver).

Definition buffer_input self (height : Height) (input : ConsensusInput.t) : t :=
  set_input_queue self (BoundedQueue.push self.(input_queue) height input).1.
Definition buffer_sync_input self (height : Height) (input : ConsensusInput.t) : t :=
  set_sync_input_queue self (BoundedQueue.push self.(sync_input_queue) height input).1.

Definition take_pending_inputs self : t * list ConsensusInput.t :=
  let '(input_queue, inputs) := BoundedQueue.shift_and_take self.(input_queue) (height self) in
  let self := set_input_queue self input_queue in
  let '(sync_input_queue, sync_response_inputs) :=
    BoundedQueue.shift_and_take self.(sync_input_queue) (height self) in
  let self := set_sync_input_queue self sync_input_queue in
  (self, sync_response_inputs ++ inputs).

Definition is_active_validator self : bool :=
  self.(params).(Params.enabled) &&
  bool_decide (is_Some (get_by_address (validator_set self) (address self))).

Definition round_certificate self : option EnterRoundCertificate.t :=
  self.(driver).(Driver.round_certificate).

End state.
End CState.

(** ** Handlers as state transformers

    [async fn(co, &mut state, ...) -> Result<A, Error>]: the state is there
    after an error too. *)
Abbreviation M := (handler Effect Resume CState.t Error).

Section handlers.
Context {Ctx : Context} {Ext : VoteExtension} {Provider : SigningProvider}.

(** [perform!] without a pattern. *)
Definition perform (e : Effect) : M unit :=
  r ← yield_ e;
  match r with Resume_Continue => mret tt | _ => fail (UnexpectedResume r "Resume::Continue") end.

(** *** Signatures and certificates (signature.rs) *)

Definition verify_signature (signed_msg : SignedMessage.t ConsensusMsg.t) (validator : Validator) : M bool :=
  r ← yield_ (VerifySignature signed_msg (public_key validator));
  match r with
  | Resume_SignatureValidity valid => mret valid
  | _ => fail (UnexpectedResume r "Resume::SignatureValidity(valid)")
  end.

Definition sign_vote (vote : Vote) : M SignedVote :=
  r ← yield_ (SignVote vote);
  match r with
  | Resume_SignedVote signed_vote => mret signed_vote
  | _ => fail (UnexpectedResume r "Resume::SignedVote(signed_vote)")
  end.

Definition sign_proposal (proposal : Proposal) : M SignedProposal :=
  r ← yield_ (SignProposal proposal);
  match r with
  | Resume_SignedProposal signed_proposal => mret signed_proposal
  | _ => fail (UnexpectedResume r "Resume::SignedProposal(signed_proposal)")
  end.

(** The three [verify_*_certificate]. *)
Definition certificate_validity (e : Effect) : M (checked unit) :=
  r ← yield_ e;
  match r with
  | Resume_CertificateValidity result => mret result
  | _ => fail (UnexpectedResume r "Resume::CertificateValidity(result)")
  end.

Definition verify_commit_certificate_m (certificate : CommitCertificate.t)
    (validator_set : ValidatorSet) (threshold_params : ThresholdParams.t) : M (checked unit) :=
  certificate_validity (VerifyCommitCertificate certificate validator_set threshold_params).
Definition verify_polka_certificate_m (certificate : PolkaCertificate.t)
    (validator_set : ValidatorSet) (threshold_params : ThresholdParams.t) : M (checked unit) :=
  certificate_validity (VerifyPolkaCertificate certificate validator_set threshold_params).
Definition verify_round_certificate_m (certificate : RoundCertificate.t)
    (validator_set : ValidatorSet) (threshold_params : ThresholdParams.t) : M (checked unit) :=
  certificate_validity (VerifyRoundCertificate certificate validator_set threshold_params).

(** *** Deciding (decide.rs) *)

(** [take_extension] on every vote, with the extensions that were there. *)
Fixpoint extract_extensions (votes : list SignedVote) : list SignedVote * list (Address * SignedExtension) :=
  match votes with
  | [] => ([], [])
  | vote :: votes =>
      let '(message, extension) := take_extension vote.(SignedMessage.message) in
      let vote := SignedMessage.new message vote.(SignedMessage.signature) in
      let '(votes, extensions) := extract_extensions votes in
      (vote :: votes,
       match extension with Some e => (sv_address vote, e) :: extensions | None => extensions end)
  end.

Definition extract_vote_extensions (votes : list SignedVote) : list SignedVote * VoteExtensions.t :=
  let '(votes, extensions) := extract_extensions votes in (votes, VoteExtensions.new extensions).

(** The certificate of the decision, stored or restored from the votes. *)
Definition decision_certificate (height : Height) (proposal_round : Round.t) (decided_value : Value)
    : M (CommitCertificate.t * VoteExtensions.t) :=
  state ← get_state;
  let decided_id := value_id decided_value in
  match Driver.commit_certificate state.(CState.driver) proposal_round decided_id with
  | Some certificate => mret (certificate, VoteExtensions.default)
  | None =>
      commits ← lift (CState.restore_precommits state height proposal_round decided_value);
      let '(commits, extensions) := extract_vote_extensions commits in
      mret (CommitCertificate.new height proposal_round decided_id commits, extensions)
  end.

Definition decide_ : M unit :=
  state ← get_state;
  _ ← assert_m (bool_decide (Driver.step state.(CState.driver) = Step.Commit))
        "assertion failed: state.driver.step_is_commit()";
  let height := CState.height state in
  let consensus_round := CState.round state in
  match CState.decided_value state with
  | None => fail (DecisionNotFound height consensus_round)
  | Some (proposal_round, decided_value) =>
      let decided_id := value_id decided_value in
      '(certificate, extensions) ← decision_certificate height proposal_round decided_value;
      match Driver.proposal_and_validity_for_round_and_value state.(CState.driver) proposal_round
              decided_id with
      | None => fail (DriverProposalNotFound height proposal_round)
      | Some _ =>
          match CState.full_proposal_at_round_and_value state height proposal_round decided_value with
          | None => fail (FullProposalNotFound height proposal_round)
          | Some full_proposal =>
              _ ← assert_m (bool_decide (value_id full_proposal.(FullProposal.builder_value) = decided_id))
                    "assertion failed: full_proposal.builder_value.id() == decided_id";
              _ ← assert_m (bool_decide (value_id (sp_value full_proposal.(FullProposal.proposal)) = decided_id))
                    "assertion failed: full_proposal.proposal.value().id() == decided_id";
              _ ← assert_m (Validity.is_valid full_proposal.(FullProposal.validity))
                    "assertion failed: full_proposal.validity == Validity::Valid";
              validity ← verify_commit_certificate_m certificate
                           state.(CState.driver).(Driver.validator_set)
                           state.(CState.params).(Params.threshold_params);
              _ ← assert_m (match validity with inr _ => true | inl _ => false end)
                    "Commit certificate is not valid";
              perform (Decide certificate extensions)
          end
      end
  end.

(** *** Rebroadcasting (rebroadcast_timeout.rs) *)

Definition republish (vote : option SignedVote) : M unit :=
  match vote with Some vote => perform (RepublishVote vote) | None => mret tt end.

Definition on_rebroadcast_timeout : M unit :=
  state ← get_state;
  let round := CState.round state in
  _ ← when (CState.is_active_validator state)
        (_ ← republish state.(CState.last_signed_prevote);
         _ ← republish state.(CState.last_signed_precommit);
         match CState.round_certificate state with
         | Some cert =>
             when (bool_decide (cert.(EnterRoundCertificate.enter_round) = round))
               (perform (RepublishRoundCertificate cert.(EnterRoundCertificate.certificate)))
         | None => mret tt
         end);
  perform (ScheduleTimeout (RoundTimeout.rebroadcast round)).

(** *** Verifying votes and proposals (vote.rs, proposal.rs) *)

Definition verify_vote_extension (vote : SignedVote) (validator : Validator) : M bool :=
  match sv_type vote, sv_value vote, extension vote.(SignedMessage.message) with
  | VoteType.Precommit, NilOrVal.Val value_id, Some extension =>
      r ← yield_ (VerifyVoteExtension (sv_height vote) (sv_round vote) value_id extension
                    (public_key validator));
      match r with
      | Resume_VoteExtensionValidity (inr _) => mret true
      | Resume_VoteExtensionValidity (inl _) => mret false
      | _ => fail (UnexpectedResume r "Resume::VoteExtensionValidity(result)")
      end
  | _, _, _ => mret true
  end.

Definition verify_signed_vote_m (signed_vote : SignedVote) : M bool :=
  state ← get_state;
  _ ← assert_m (bool_decide (sv_height signed_vote = CState.height state))
        "assertion failed: vote_height == consensus_height";
  match get_by_address (CState.validator_set state) (sv_address signed_vote) with
  | None => mret false
  | Some validator =>
      valid ← verify_signature (SignedMessage.map ConsensusMsg.Vote signed_vote) validator;
      if valid : bool then verify_vote_extension signed_vote validator else mret false
  end.

Definition verify_signed_proposal (signed_proposal : SignedProposal) : M bool :=
  state ← get_state;
  _ ← assert_m (bool_decide (sp_height signed_proposal = CState.height state))
        "assertion failed: proposal_height == consensus_height";
  match get_by_address (CState.validator_set state) (sp_address signed_proposal) with
  | None => mret false
  | Some proposer =>
      expected_proposer ← lift (CState.get_proposer state (sp_height signed_proposal)
                                  (sp_round signed_proposal));
      if decide (expected_proposer = sp_address signed_proposal)
      then verify_signature (SignedMessage.map ConsensusMsg.Proposal signed_proposal) proposer
      else mret false
  end.

Definition extend_vote (vote : Vote) : M Vote :=
  match vote_type vote, vote_value vote with
  | VoteType.Precommit, NilOrVal.Val value_id =>
      r ← yield_ (ExtendVote (vote_height vote) (vote_round vote) value_id);
      match r with
      | Resume_VoteExtension (Some extension) => mret (extend vote extension)
      | Resume_VoteExtension None => mret vote
      | _ => fail (UnexpectedResume r "Resume::VoteExtension(extension)")
      end
  | _, _ => mret vote
  end.

(** [verify_propose_value]. *)
Definition verify_propose_value (local_value : LocallyProposedValue.t) : M bool :=
  state ← get_state;
  if negb (bool_decide (CState.height state = local_value.(LocallyProposedValue.height))) then mret false
  else if negb (bool_decide (CState.round state = local_value.(LocallyProposedValue.round))) then mret false
  else
    expected_proposer ← lift (CState.get_proposer state local_value.(LocallyProposedValue.height)
                                local_value.(LocallyProposedValue.round));
    mret (bool_decide (expected_proposer = CState.address state)).

(** *** Inputs that reach the driver

    [apply] is [apply_driver_input], tied below. *)
Section apply.
Context (apply_driver_input : DriverInput.t -> M unit).

(** vote.rs *)
Definition on_vote (signed_vote : SignedVote) : M unit :=
  state ← get_state;
  let consensus_height := CState.height state in
  let vote_height := sv_height signed_vote in
  if Height_ltb vote_height consensus_height then mret tt
  else if Height_ltb consensus_height vote_height
  then put_state (CState.buffer_input state vote_height (ConsensusInput.Vote signed_vote))
  else if bool_decide (CState.round state = Round.Nil)
  then put_state (CState.buffer_input state vote_height (ConsensusInput.Vote signed_vote))
  else
    _ ← assert_m (bool_decide (consensus_height = vote_height))
          "assertion failed: consensus_height == vote_height";
    valid ← verify_signed_vote_m signed_vote;
    if valid : bool
    then
      state ← get_state;
      if VoteKeeper.has_vote state.(CState.driver).(Driver.vote_keeper) signed_vote then mret tt
      else
        _ ← perform (WalAppend (sv_height signed_vote)
                       (WalEntry.ConsensusMsg (SignedConsensusMsg.Vote signed_vote)));
        apply_driver_input (DriverInput.Vote signed_vote)
    else mret tt.

(** proposal.rs *)
Definition on_proposal (signed_proposal : SignedProposal) : M unit :=
  state ← get_state;
  let consensus_height := CState.height state in
  let proposal_height := sp_height signed_proposal in
  let proposal_round := sp_round signed_proposal in
  if Height_ltb proposal_height consensus_height then mret tt
  else if Height_ltb consensus_height proposal_height
  then put_state (CState.buffer_input state proposal_height (ConsensusInput.Proposal signed_proposal))
  else
    _ ← assert_m (bool_decide (proposal_height = consensus_height))
          "assertion failed: proposal_height == consensus_height";
    if bool_decide (CState.round state = Round.Nil)
    then put_state (CState.buffer_input state proposal_height (ConsensusInput.Proposal signed_proposal))
    else
      valid ← verify_signed_proposal signed_proposal;
      if valid : bool
      then
        state ← get_state;
        state ← lift (CState.store_proposal state signed_proposal);
        _ ← put_state state;
        _ ← when (ValuePayload.include_proposal state.(CState.params).(Params.value_payload))
              (perform (WalAppend (sp_height signed_proposal)
                 (WalEntry.ConsensusMsg (SignedConsensusMsg.Proposal signed_proposal))));
        _ ← when (ValuePayload.proposal_only state.(CState.params).(Params.value_payload))
              (let new_value :=
                 ProposedValue.mk (sp_height signed_proposal) (sp_round signed_proposal)
                   (sp_pol_round signed_proposal) (sp_address signed_proposal)
                   (sp_value signed_proposal) Validity.Valid in
               state ← get_state;
               state ← lift (CState.store_value state new_value);
               put_state state);
        state ← get_state;
        match CState.full_proposal_at_round_and_value state proposal_height proposal_round
                (sp_value signed_proposal) with
        | Some full_proposal =>
            apply_driver_input (DriverInput.Proposal full_proposal.(FullProposal.proposal)
                                  full_proposal.(FullProposal.validity))
        | None => mret tt
        end
      else mret tt.

(** propose.rs *)
Definition on_propose (local_value : LocallyProposedValue.t) : M unit :=
  valid ← verify_propose_value local_value;
  if valid : bool
  then
    state ← get_state;
    let proposed_value :=
      ProposedValue.mk local_value.(LocallyProposedValue.height)
        local_value.(LocallyProposedValue.round) Round.Nil (CState.address state)
        local_value.(LocallyProposedValue.value) Validity.Valid in
    _ ← unless (CState.value_exists state proposed_value)
          (perform (WalAppend proposed_value.(ProposedValue.height)
                      (WalEntry.ProposedValue proposed_value)));
    state ← get_state;
    state ← lift (CState.store_value state proposed_value);
    _ ← put_state state;
    apply_driver_input (DriverInput.ProposeValue local_value.(LocallyProposedValue.round)
                          local_value.(LocallyProposedValue.value))
  else mret tt.

(** The last loop of [on_proposed_value]. *)
Fixpoint apply_proposals (proposals : list SignedProposal) (validity : Validity.t) : M unit :=
  match proposals with
  | [] => mret tt
  | signed_proposal :: proposals =>
      _ ← apply_driver_input (DriverInput.Proposal signed_proposal validity);
      apply_proposals proposals validity
  end.

(** proposed_value.rs *)
Definition on_proposed_value (proposed_value : ProposedValue.t) (origin : ValueOrigin.t) : M unit :=
  state ← get_state;
  let value_height := proposed_value.(ProposedValue.height) in
  if Height_ltb value_height (CState.height state) then mret tt
  else if Height_ltb (CState.height state) value_height
  then put_state (CState.buffer_input state value_height
                    (ConsensusInput.ProposedValue proposed_value origin))
  else
    _ ← when (ValuePayload.parts_only state.(CState.params).(Params.value_payload) ||
              ValueOrigin.is_sync origin)
          (let proposal := new_proposal value_height proposed_value.(ProposedValue.round)
                             proposed_value.(ProposedValue.value)
                             proposed_value.(ProposedValue.valid_round)
                             proposed_value.(ProposedValue.proposer) in
           signed_proposal ← sign_proposal proposal;
           state ← get_state;
           state ← lift (CState.store_proposal state signed_proposal);
           put_state state);
    state ← get_state;
    _ ← unless (CState.value_exists state proposed_value)
          (perform (WalAppend value_height (WalEntry.ProposedValue proposed_value)));
    state ← get_state;
    state ← lift (CState.store_value state proposed_value);
    _ ← put_state state;
    apply_proposals (CState.proposals_for_value state proposed_value)
      proposed_value.(ProposedValue.validity).

(** timeout.rs *)
Definition on_timeout_elapsed (timeout : RoundTimeout.t) : M unit :=
  state ← get_state;
  let height := CState.height state in
  if negb (bool_decide (timeout.(RoundTimeout.round) = CState.round state)) then mret tt
  else
    _ ← unless (bool_decide (timeout.(RoundTimeout.kind) = TimeoutKind.Rebroadcast))
          (perform (WalAppend height (WalEntry.Timeout timeout)));
    _ ← apply_driver_input (DriverInput.TimeoutElapsed timeout);
    when (bool_decide (timeout.(RoundTimeout.kind) = TimeoutKind.Rebroadcast)) on_rebroadcast_timeout.

(** liveness.rs *)
Definition on_polka_certificate (certificate : PolkaCertificate.t) : M unit :=
  state ← get_state;
  if negb (bool_decide (certificate.(PolkaCertificate.height) = CState.height state)) then mret tt
  else
    validity ← verify_polka_certificate_m certificate (CState.validator_set state)
                 state.(CState.params).(Params.threshold_params);
    match validity with
    | inl _ => mret tt
    | inr _ => apply_driver_input (DriverInput.PolkaCertificate certificate)
    end.

(** The vote of a signature in a round certificate. *)
Definition round_vote (certificate : RoundCertificate.t) (signature : RoundSignature.t) : SignedVote :=
  let new_vote := match signature.(RoundSignature.vote_type) with
                  | VoteType.Prevote => new_prevote
                  | VoteType.Precommit => new_precommit
                  end in
  SignedMessage.new
    (new_vote certificate.(RoundCertificate.height) certificate.(RoundCertificate.round)
       signature.(RoundSignature.value_id) signature.(RoundSignature.address))
    signature.(RoundSignature.signature).

(** The last loop of [on_round_certificate]. *)
Fixpoint apply_votes (votes : list SignedVote) : M unit :=
  match votes with
  | [] => mret tt
  | vote :: votes =>
      _ ← apply_driver_input (DriverInput.Vote vote);
      apply_votes votes
  end.

Definition on_round_certificate (certificate : RoundCertificate.t) : M unit :=
  state ← get_state;
  let older :=
    match certificate.(RoundCertificate.cert_type) with
    | RoundCertificateType.Precommit =>
        Round.ltb certificate.(RoundCertificate.round) (CState.round state)
    | RoundCertificateType.Skip =>
        Round.leb certificate.(RoundCertificate.round) (CState.round state)
    end in
  if negb (bool_decide (certificate.(RoundCertificate.height) = CState.height state)) then mret tt
  else if older then mret tt
  else
    validity ← verify_round_certificate_m certificate (CState.validator_set state)
                 state.(CState.params).(Params.threshold_params);
    match validity with
    | inl _ => mret tt
    | inr _ =>
        _ ← apply_votes (round_vote certificate <$> certificate.(RoundCertificate.round_signatures));
        perform (CancelTimeout (RoundTimeout.rebroadcast certificate.(RoundCertificate.round)))
    end.

(** sync.rs *)
Definition process_commit_certificate (certificate : CommitCertificate.t) : M unit :=
  state ← get_state;
  _ ← assert_m (bool_decide (certificate.(CommitCertificate.height) = CState.height state))
        "assertion failed: certificate.height == state.height()";
  validity ← verify_commit_certificate_m certificate (CState.validator_set state)
               state.(CState.params).(Params.threshold_params);
  match validity with
  | inl e => fail (InvalidCommitCertificate certificate e)
  | inr _ => apply_driver_input (DriverInput.CommitCertificate certificate)
  end.

Definition on_value_response (value : ValueResponse.t) : M unit :=
  state ← get_state;
  let consensus_height := CState.height state in
  let cert_height := value.(ValueResponse.certificate).(CommitCertificate.height) in
  if Height_ltb cert_height consensus_height then mret tt
  else if Height_ltb consensus_height cert_height
  then put_state (CState.buffer_sync_input state cert_height (ConsensusInput.SyncValueResponse value))
  else
    proposer ← lift (CState.get_proposer state cert_height
                       value.(ValueResponse.certificate).(CommitCertificate.round));
    result ← catch (process_commit_certificate value.(ValueResponse.certificate));
    perform (match result with
             | inr _ => ValidSyncValue value proposer
             | inl e => InvalidSyncValue value.(ValueResponse.peer) cert_height e
             end).

(** *** Outputs of the driver (driver.rs) *)

(** The messages that go with a precommit for a value, from [HIDDEN_LOCK_ROUND]
    on. *)
Definition publish_lock (vote : Vote) (value_id : ValueId) : M unit :=
  state ← get_state;
  match Driver.proposal_and_validity_for_round_and_value state.(CState.driver) (vote_round vote)
          value_id with
  | Some (signed_proposal, Validity.Valid) =>
      _ ← perform (RestreamProposal (sp_height signed_proposal) (sp_round signed_proposal)
                     (sp_pol_round signed_proposal) (sp_address signed_proposal)
                     (Context.value_id (sp_value signed_proposal)));
      _ ← when (ValuePayload.include_proposal state.(CState.params).(Params.value_payload))
            (perform (PublishConsensusMsg (SignedConsensusMsg.Proposal signed_proposal)));
      match CState.polka_certificate_at_round state (vote_round vote) with
      | None => lift (Panic "Missing polka certificate for Precommit")
      | Some polka_certificate =>
          perform (PublishLivenessMsg (LivenessMsg.PolkaCertificate polka_certificate))
      end
  | _ => mret tt
  end.

Definition on_driver_vote (vote : Vote) : M unit :=
  _ ← match vote_type vote, vote_value vote with
      | VoteType.Precommit, NilOrVal.Val value_id =>
          state ← get_state;
          let state := CState.set_driver state
                         (Process.prune_votes_and_certificates state.(CState.driver) (vote_round vote)) in
          _ ← put_state state;
          when (Round.leb HIDDEN_LOCK_ROUND (CState.round state) && CState.is_active_validator state)
            (publish_lock vote value_id)
      | _, _ => mret tt
      end;
  state ← get_state;
  when (CState.is_active_validator state)
    (extended_vote ← extend_vote vote;
     signed_vote ← sign_vote extended_vote;
     _ ← on_vote signed_vote;
     _ ← perform (PublishConsensusMsg (SignedConsensusMsg.Vote signed_vote));
     state ← get_state;
     let state := CState.set_last_vote state signed_vote in
     _ ← put_state state;
     perform (ScheduleTimeout (RoundTimeout.rebroadcast (CState.round state)))).

Definition on_driver_propose (proposal : Proposal) : M unit :=
  state ← get_state;
  when (CState.is_active_validator state)
    (signed_proposal ← sign_proposal proposal;
     _ ← when (Round.is_defined (sp_pol_round signed_proposal))
           (perform (RestreamProposal (sp_height signed_proposal) (sp_round signed_proposal)
                       (sp_pol_round signed_proposal) (sp_address signed_proposal)
                       (value_id (sp_value signed_proposal))));
     _ ← on_proposal signed_proposal;
     state ← get_state;
     _ ← when (ValuePayload.include_proposal state.(CState.params).(Params.value_payload))
           (perform (PublishConsensusMsg (SignedConsensusMsg.Proposal signed_proposal)));
     when (Round.is_defined (proposal_pol_round proposal))
       match CState.polka_certificate_at_round state (proposal_pol_round proposal) with
       | None => lift (Panic "Missing polka certificate for pol_round")
       | Some polka_certificate =>
           perform (PublishLivenessMsg (LivenessMsg.PolkaCertificate polka_certificate))
       end).

Definition on_driver_get_value (height : Height) (round : Round.t) (timeout : RoundTimeout.t) : M unit :=
  state ← get_state;
  when (CState.is_active_validator state)
    match CState.full_proposal_at_round_and_proposer state height round (CState.address state) with
    | Some full_proposal =>
        on_propose (LocallyProposedValue.new (sp_height full_proposal.(FullProposal.proposal))
                      (sp_round full_proposal.(FullProposal.proposal))
                      full_proposal.(FullProposal.builder_value))
    | None => perform (GetValue height round timeout)
    end.

Definition process_driver_output (output : DriverOutput.t) : M unit :=
  match output with
  | DriverOutput.NewRound height round =>
      state ← get_state;
      proposer ← lift (CState.get_proposer state height round);
      apply_driver_input (DriverInput.NewRound height round proposer)
  | DriverOutput.Propose proposal => on_driver_propose proposal
  | DriverOutput.Vote vote => on_driver_vote vote
  | DriverOutput.Decide _ _ => decide_
  | DriverOutput.ScheduleTimeout timeout => perform (ScheduleTimeout timeout)
  | DriverOutput.GetValue height round timeout => on_driver_get_value height round timeout
  end.

Fixpoint process_driver_outputs (outputs : list DriverOutput.t) : M unit :=
  match outputs with
  | [] => mret tt
  | output :: outputs =>
      _ ← process_driver_output output;
      process_driver_outputs outputs
  end.

(** The start of [apply_driver_input] for a new round. *)
Definition announce_round (height : Height) (round : Round.t) (proposer : Address) : M unit :=
  state ← get_state;
  _ ← when (Round.ltb (Round.new 0) round && CState.is_active_validator state)
        match CState.round_certificate state with
        | Some cert =>
            when (bool_decide (cert.(EnterRoundCertificate.enter_round) = round))
              (perform (PublishLivenessMsg
                 (LivenessMsg.SkipRoundCertificate cert.(EnterRoundCertificate.certificate))))
        | None => mret tt
        end;
  let role := if decide (CState.address state = proposer) then Role.Proposer
              else if CState.is_active_validator state then Role.Validator else Role.None in
  _ ← put_state (CState.set_last_votes state None None);
  _ ← perform CancelAllTimeouts;
  _ ← perform (StartRound height round proposer role);
  perform (ScheduleTimeout (RoundTimeout.rebroadcast round)).

(** The first [match] of [apply_driver_input]: whether to go on. *)
Definition accept_driver_input (input : DriverInput.t) : M bool :=
  state ← get_state;
  match input with
  | DriverInput.NewRound height round proposer => _ ← announce_round height round proposer; mret true
  | DriverInput.ProposeValue round _ =>
      _ ← perform (CancelTimeout (RoundTimeout.propose round)); mret true
  | DriverInput.Proposal proposal _ => mret (bool_decide (sp_height proposal = CState.height state))
  | DriverInput.Vote vote => mret (bool_decide (sv_height vote = CState.height state))
  | DriverInput.CommitCertificate certificate =>
      mret (bool_decide (certificate.(CommitCertificate.height) = CState.height state))
  | DriverInput.PolkaCertificate certificate =>
      mret (bool_decide (certificate.(PolkaCertificate.height) = CState.height state))
  | DriverInput.TimeoutElapsed _ => mret true
  end.

Definition apply_body (input : DriverInput.t) : M unit :=
  accepted ← accept_driver_input input;
  if accepted : bool
  then
    state ← get_state;
    let prev_step := Driver.step state.(CState.driver) in
    '(driver, result) ← lift (Process.process state.(CState.driver) input);
    _ ← put_state (CState.set_driver state driver);
    match result with
    | inl e => fail (DriverProcess e)
    | inr outputs =>
        let new_step := Driver.step driver in
        _ ← when (negb (bool_decide (prev_step = new_step)) && bool_decide (new_step = Step.Prevote))
              (perform (CancelTimeout (RoundTimeout.propose (Driver.round driver))));
        process_driver_outputs outputs
    end
  else mret tt.

End apply.

(** *** Tying the recursion *)

Fixpoint apply_driver_input (fuel : nat) (input : DriverInput.t) : M unit :=
  match fuel with
  | O => out_of_fuel
  | S fuel => apply_body (apply_driver_input fuel) input
  end.

(** start_height.rs; [handle_input] is tied below. *)
Section start_height.
Context (fuel : nat) (handle_input : ConsensusInput.t -> M unit).

Fixpoint handle_inputs (inputs : list ConsensusInput.t) : M unit :=
  match inputs with
  | [] => mret tt
  | input :: inputs =>
      _ ← handle_input input;
      handle_inputs inputs
  end.

Definition replay_pending_msgs (is_restart : bool) : M unit :=
  state ← get_state;
  let '(state, pending_inputs) := CState.take_pending_inputs state in
  _ ← put_state state;
  if is_restart then mret tt else handle_inputs pending_inputs.

Definition on_start_height (height : Height) (is_restart : bool) : M unit :=
  state ← get_state;
  let round := Round.new 0 in
  proposer ← lift (CState.get_proposer state height round);
  _ ← apply_driver_input fuel (DriverInput.NewRound height round proposer);
  replay_pending_msgs is_restart.

Definition reset_and_start_height (height : Height) (validator_set : ValidatorSet) (is_restart : bool)
    : M unit :=
  _ ← perform CancelAllTimeouts;
  _ ← perform ResetTimeouts;
  state ← get_state;
  _ ← put_state (CState.reset_and_start_height state height validator_set);
  on_start_height height is_restart.

End start_height.

(** handle.rs; the inputs replayed at the start of a height are not themselves
    starts of a height, so [depth] 2 is enough. *)
Fixpoint handle_input (depth fuel : nat) (input : ConsensusInput.t) : M unit :=
  match depth with
  | O => out_of_fuel
  | S depth =>
      match input with
      | ConsensusInput.StartHeight height validator_set is_restart =>
          reset_and_start_height fuel (handle_input depth fuel) height validator_set is_restart
      | ConsensusInput.Vote vote => on_vote (apply_driver_input fuel) vote
      | ConsensusInput.Proposal proposal => on_proposal (apply_driver_input fuel) proposal
      | ConsensusInput.Propose value => on_propose (apply_driver_input fuel) value
      | ConsensusInput.TimeoutElapsed timeout => on_timeout_elapsed (apply_driver_input fuel) timeout
      | ConsensusInput.ProposedValue value origin =>
          on_proposed_value (apply_driver_input fuel) value origin
      | ConsensusInput.SyncValueResponse value => on_value_response (apply_driver_input fuel) value
      | ConsensusInput.PolkaCertificate certificate =>
          on_polka_certificate (apply_driver_input fuel) certificate
      | ConsensusInput.RoundCertificate certificate =>
          on_round_certificate (apply_driver_input fuel) certificate
      end
  end.

Definition handle (fuel : nat) (input : ConsensusInput.t) : M unit := handle_input 2 fuel input.

End handlers.
