(* ===== verification/ConsensusLogic.v ===== *)
(** * A program logic for the consensus process

    The logic of coroutines at the effects of the consensus core, where panics
    are allowed: a handler may panic, but what it did before must be in order. *)

From S2P Require Import Prelude Types Bytes Context Starknet StateMachine VoteKeeper ProposalKeeper Driver Verify BTree BoundedQueue Coroutine ConsensusTypes FullProposal Consensus.

Abbreviation wp := (Coroutine.wp True).

Section logic.
Context {Ctx : Context} {Ext : VoteExtension} {Provider : SigningProvider}.
Context (allowed : trace -> Effect -> Prop) (answers : trace -> Effect -> Resume -> Prop).

Lemma wp_perform e (s : CState.t) Q t :
  allowed t e ->
  (forall r, answers t e r ->
     match r with
     | Resume_Continue => Q (t ++ [(e, r)]) (s, inr tt)
     | _ => Q (t ++ [(e, r)]) (s, inl (UnexpectedResume r "Resume::Continue"))
     end) ->
  wp allowed answers (perform e s) Q t.
Proof.
  intros He HQ. unfold perform. apply wp_bind. cbn. split; [done|]. intros r Hr.
  specialize (HQ r Hr). by destruct r.
Qed.

End logic.
