(* ===== verification/ConsensusFacts.v ===== *)
(** * What a node does at a height

    The consensus process (core-consensus) from the start of a height on,
    whatever inputs it receives: it keeps the driver within its contract, it
    never signs two different votes for one round, it decides one value, after
    its certificate has been verified, it publishes only votes it has handed to
    the write-ahead log, and it hands to the log only votes whose signature was
    verified, and which it has signed itself or received. *)

From S2P Require Import Prelude Types Bytes Context Starknet StateMachine VoteKeeper ProposalKeeper Driver DriverFacts DriverVotes DriverDecisions DriverHeight Verify BTree BoundedQueue Coroutine ConsensusTypes FullProposal Consensus ConsensusLogic.

(** The proposer of a round is a validator. *)
Class ProposerLaws `{Ctx : Context} : Prop := {
  select_proposer_known vs h r v :
    select_proposer vs h r = Ret v -> is_Some (get_by_address vs (validator_address v));
}.

(** ** The host *)

Section host.
Context {Ctx : Context} {Ext : VoteExtension} {Provider : SigningProvider}.
Implicit Types (t : trace) (e : Effect) (v : SignedVote).

(** The effects that are performed for what they do. *)
Definition plain e : bool :=
  match e with
  | SignVote _ | SignProposal _ | VerifySignature _ _ | VerifyCommitCertificate _ _ _
  | VerifyPolkaCertificate _ _ _ | VerifyRoundCertificate _ _ _ | ExtendVote _ _ _
  | VerifyVoteExtension _ _ _ _ _ => false
  | _ => true
  end.

(** A vote that the host has signed for the node. *)
Definition own_vote t v : Prop := exists w, (SignVote w, Resume_SignedVote v) ∈ t.

(** The host continues after plain effects (as [process!] does, errors
    included), signs the vote it is given, and does not reject a vote or an
    extension of its own. Everything else it may answer as it likes. *)
Definition host (vs : ValidatorSet) t e (r : Resume) : Prop :=
  (plain e = true -> r = Resume_Continue) /\
  match e, r with
  | SignVote w, Resume_SignedVote v => v.(SignedMessage.message) = w
  | VerifySignature msg key, Resume_SignatureValidity valid =>
      forall v validator, msg = SignedMessage.map ConsensusMsg.Vote v -> own_vote t v ->
        get_by_address vs (sv_address v) = Some validator -> key = public_key validator -> valid = true
  | VerifyVoteExtension _ _ _ ext key, Resume_VoteExtensionValidity result =>
      forall v validator, own_vote t v -> extension v.(SignedMessage.message) = Some ext ->
        get_by_address vs (sv_address v) = Some validator -> key = public_key validator -> result = inr tt
  | _, _ => True
  end.

(** ** What the trace of a height shows *)

Definition effects t : list Effect := t.*1.

Lemma elem_of_effects_snoc e t e' r : e ∈ effects (t ++ [(e', r)]) <-> e ∈ effects t \/ e = e'.
Proof. unfold effects. rewrite fmap_app, elem_of_app. cbn. by rewrite list_elem_of_singleton. Qed.

(** [v] was handed to the log. *)
Definition logged t v : Prop :=
  exists h, WalAppend h (WalEntry.ConsensusMsg (SignedConsensusMsg.Vote v)) ∈ effects t.

(** The host has found the signature of [v] valid. *)
Definition verified t v : Prop :=
  exists key, (VerifySignature (SignedMessage.map ConsensusMsg.Vote v) key, Resume_SignatureValidity true) ∈ t.

(** The same vote, but for its extension. *)
Definition same_vote (v w : Vote) : Prop :=
  vote_height v = vote_height w /\ vote_round v = vote_round w /\ vote_value v = vote_value w /\
  vote_type v = vote_type w /\ vote_address v = vote_address w.

Lemma logged_prefix t t' v : t `prefix_of` t' -> logged t v -> logged t' v.
Proof. intros [k ->] [h Hin]. exists h. unfold effects in *. rewrite fmap_app, elem_of_app. by left. Qed.

Lemma verified_prefix t t' v : t `prefix_of` t' -> verified t v -> verified t' v.
Proof. intros [k ->] [key Hin]. exists key. rewrite elem_of_app. by left. Qed.

Lemma own_vote_prefix t t' v : t `prefix_of` t' -> own_vote t v -> own_vote t' v.
Proof. intros [k ->] [w Hin]. exists w. rewrite elem_of_app. by left. Qed.

(** The inputs a node buffers. *)
Definition bufferable (i : ConsensusInput.t) : Prop :=
  match i with
  | ConsensusInput.Vote _ | ConsensusInput.Proposal _ | ConsensusInput.ProposedValue _ _
  | ConsensusInput.SyncValueResponse _ => True
  | _ => False
  end.

(** What the two queues hold. *)
Definition queue_holds (P : ConsensusInput.t -> Prop) (q : BoundedQueue.t Height ConsensusInput.t) : Prop :=
  Forall (fun kv => Forall P kv.2) q.(BoundedQueue.queue).
Definition queues_hold (P : ConsensusInput.t -> Prop) (s : CState.t) : Prop :=
  queue_holds P s.(CState.input_queue) /\ queue_holds P s.(CState.sync_input_queue).
Definition queues_ok : CState.t -> Prop := queues_hold bufferable.

Lemma queues_hold_impl (P P' : ConsensusInput.t -> Prop) s :
  (forall i, P i -> P' i) -> queues_hold P s -> queues_hold P' s.
Proof.
  intros HP [H1 H2]. split; (eapply Forall_impl; [eassumption|]); intros kv Hkv; (eapply Forall_impl; [exact Hkv|apply HP]).
Qed.

Lemma push_holds P q index i : queue_holds P q -> P i -> queue_holds P (BoundedQueue.push q index i).1.
Proof.
  unfold queue_holds, BoundedQueue.push. intros Hq Hi.
  destruct (BTreeMap.get index _) as [values|] eqn:Hg; cbn [fst BoundedQueue.queue].
  - apply BoundedQueue.Forall_insert; [|done]. cbn. apply Forall_app. split; [|by apply Forall_singleton].
    apply BTreeMap.get_Some_elem in Hg. by apply (Forall_forall _ _) with (x := (index, values)) in Hq.
  - repeat case_match; cbn [fst BoundedQueue.queue]; try done;
      (apply BoundedQueue.Forall_insert; [by apply Forall_singleton|done || by apply BoundedQueue.Forall_retain]).
Qed.

Lemma shift_and_take_holds P q index q' inputs :
  queue_holds P q -> BoundedQueue.shift_and_take q index = (q', inputs) -> queue_holds P q' /\ Forall P inputs.
Proof.
  unfold queue_holds, BoundedQueue.shift_and_take, BoundedQueue.take, BoundedQueue.shift.
  cbn [BoundedQueue.queue BoundedQueue.capacity]. intros Hq [= <- <-].
  assert (Hs := BoundedQueue.Forall_retain _ (fun i _ => negb (key_ltb i index)) _ Hq).
  split; [by apply BoundedQueue.Forall_retain|].
  destruct (BTreeMap.get index _) as [values|] eqn:Hg; [|by apply Forall_nil].
  apply BTreeMap.get_Some_elem in Hg. by apply (Forall_forall _ _) with (x := (index, values)) in Hs.
Qed.

End host.

(** ** The invariant of a height *)

Section node.
Context {Ctx : Context} {Ext : VoteExtension} {Provider : SigningProvider}.
Context {laws : ContextLaws} {ext_laws : VoteExtensionLaws} {proposer_laws : ProposerLaws}.

(** The height, its validators, the node's address and parameters; the driver
    at the start of the height; the votes that may come in round certificates,
    and those that may be received or wait in the queues. *)
Context (h : Height) (vs : ValidatorSet) (a : Address) (P : Params.t) (d0 : Driver.t)
  (from_certificate source : SignedVote -> Prop).
Context (Hfresh : fresh h vs a d0).
Implicit Types (t : trace) (s : CState.t) (v : SignedVote) (needed outs : list DriverOutput.t).

Definition accounted t v : Prop := logged t v \/ from_certificate v.

(** What the node may yield after [t]. *)
Definition allowed t (e : Effect) : Prop :=
  match e with
  | SignVote w =>
      vote_height w = h /\ vote_address w = a /\
      forall w', SignVote w' ∈ effects t -> vote_type w' = vote_type w -> vote_round w' = vote_round w ->
        same_vote w' w
  | PublishConsensusMsg (SignedConsensusMsg.Vote v) => accounted t v
  | RepublishVote v => accounted t v
  | WalAppend _ (WalEntry.ConsensusMsg (SignedConsensusMsg.Vote v)) => verified t v /\ (own_vote t v \/ source v)
  | Decide c _ =>
      c.(CommitCertificate.height) = h /\
      (exists t0, t = t0 ++ [(VerifyCommitCertificate c vs P.(Params.threshold_params),
                              Resume_CertificateValidity (inr tt))]) /\
      forall c' x', Decide c' x' ∈ effects t ->
        c'.(CommitCertificate.round) = c.(CommitCertificate.round) /\
        c'.(CommitCertificate.value_id) = c.(CommitCertificate.value_id)
  | _ => True
  end.

#[local] Abbreviation wp := (wp allowed (host vs)).

(** The driver is where a proper run of it has led, and the votes and decisions
    of the trace come from that run. *)
Record drives needed t (d : Driver.t) (events : list event) outs : Prop := {
  dr_run : run d0 events = Ret (d, outs);
  dr_proper : Forall (proper h vs) events;
  dr_needed : needed ⊆ outs;
  dr_outputs : Forall (proper_output h a) outs;
  dr_signed (x : Vote) : SignVote x ∈ effects t -> exists w, w ∈ votes_of outs /\ same_vote x w;
  dr_votes v : Receive (DriverInput.Vote v) ∈ events -> accounted t v;
  dr_decided c x : Decide c x ∈ effects t -> exists r p, (r, p) ∈ decides outs /\
    c.(CommitCertificate.round) = proposal_round p /\
    c.(CommitCertificate.value_id) = value_id (proposal_value p);
  dr_commits c : c ∈ d.(Driver.commit_certificates) -> c.(CommitCertificate.height) = h;
}.

(** The inputs that wait for a later height. *)
Definition pending_ok (i : ConsensusInput.t) : Prop :=
  match i with
  | ConsensusInput.Vote v => source v
  | ConsensusInput.Proposal _ | ConsensusInput.ProposedValue _ _ | ConsensusInput.SyncValueResponse _ => True
  | _ => False
  end.

(** The state between effects, before the first round has started and after;
    [needed] are outputs still to be processed. *)
Record inv needed t s : Prop := {
  inv_drives : exists events outs, drives needed t s.(CState.driver) events outs;
  inv_rest : at_rest h vs a s.(CState.driver);
  inv_params : s.(CState.params) = P;
  inv_queues : queues_hold pending_ok s;
  inv_logged v : logged t v -> verified t v;
  inv_last v : s.(CState.last_signed_prevote) = Some v \/ s.(CState.last_signed_precommit) = Some v ->
    accounted t v;
}.

Record working needed t s : Prop := {
  working_inv : inv needed t s;
  working_started : started h vs a s.(CState.driver);
}.

Lemma accounted_prefix t t' v : t `prefix_of` t' -> accounted t v -> accounted t' v.
Proof. intros Hp [?|?]; [left; by eapply logged_prefix|by right]. Qed.

(** *** Effects other than signing and deciding *)

Definition quiet t (e : Effect) : Prop :=
  match e with
  | SignVote _ | Decide _ _ => False
  | WalAppend _ (WalEntry.ConsensusMsg (SignedConsensusMsg.Vote v)) => verified t v
  | _ => True
  end.

Lemma drives_mono needed t t' d events outs :
  drives needed t d events outs -> t `prefix_of` t' ->
  (forall w, SignVote w ∈ effects t' -> SignVote w ∈ effects t) ->
  (forall c x, Decide c x ∈ effects t' -> Decide c x ∈ effects t) -> drives needed t' d events outs.
Proof.
  intros [] Hp Hs Hd. split; try done; eauto. intros v Hv. eapply accounted_prefix; eauto.
Qed.

Lemma inv_quiet needed t s e r : inv needed t s -> quiet t e -> inv needed (t ++ [(e, r)]) s.
Proof.
  intros [(events & outs & Hd) Hrest Hpar Hq Hlog Hlast] He.
  assert (Hp : t `prefix_of` t ++ [(e, r)]) by (by apply prefix_app_r).
  split; try done.
  - exists events, outs. eapply drives_mono; [done|done|..]; intros *; rewrite elem_of_effects_snoc;
      intros [?| <-]; done.
  - intros v [h' [Hin|Heq]%elem_of_effects_snoc]; [eapply verified_prefix; [done|]; apply Hlog; by exists h'|].
    subst e. by eapply verified_prefix.
  - intros v Hv. eapply accounted_prefix; [done|]. by apply Hlast.
Qed.

Lemma working_quiet needed t s e r : working needed t s -> quiet t e -> working needed (t ++ [(e, r)]) s.
Proof. intros [? ?] ?. split; [by apply inv_quiet|done]. Qed.

Lemma wp_plain e s Q t :
  plain e = true -> allowed t e -> Q (t ++ [(e, Resume_Continue)]) (s, inr tt) -> wp (perform e s) Q t.
Proof.
  intros Hpl He HQ. apply wp_perform; [done|]. intros r [Hr _]. by rewrite (Hr Hpl).
Qed.

(** *** Other fields of the state *)

Lemma inv_frame needed t s s' :
  inv needed t s -> s'.(CState.driver) = s.(CState.driver) -> s'.(CState.params) = s.(CState.params) ->
  queues_hold pending_ok s' ->
  (forall v, s'.(CState.last_signed_prevote) = Some v \/ s'.(CState.last_signed_precommit) = Some v ->
     accounted t v) -> inv needed t s'.
Proof. intros [] Hd Hp Hq Hl. split; rewrite ?Hd, ?Hp; done. Qed.

Lemma working_frame needed t s s' :
  working needed t s -> s'.(CState.driver) = s.(CState.driver) -> s'.(CState.params) = s.(CState.params) ->
  queues_hold pending_ok s' ->
  (forall v, s'.(CState.last_signed_prevote) = Some v \/ s'.(CState.last_signed_precommit) = Some v ->
     accounted t v) -> working needed t s'.
Proof. intros [] Hd Hp Hq Hl. split; [by eapply inv_frame|by rewrite Hd]. Qed.

Lemma working_buffer needed t s index i :
  working needed t s -> pending_ok i -> working needed t (CState.buffer_input s index i).
Proof.
  intros Hs Hi. pose proof (working_inv _ _ _ Hs) as Hinv. destruct (inv_queues _ _ _ Hinv).
  eapply working_frame; [exact Hs|done|done| |apply Hinv]. split; [by apply push_holds|done].
Qed.

Lemma working_buffer_sync needed t s index i :
  working needed t s -> pending_ok i -> working needed t (CState.buffer_sync_input s index i).
Proof.
  intros Hs Hi. pose proof (working_inv _ _ _ Hs) as Hinv. destruct (inv_queues _ _ _ Hinv).
  eapply working_frame; [exact Hs|done|done| |apply Hinv]. split; [done|by apply push_holds].
Qed.

Lemma working_keeper needed t s s' :
  working needed t s -> (exists k, s' = CState.set_full_proposal_keeper s k) -> working needed t s'.
Proof. intros Hs [k ->]. eapply working_frame; [exact Hs|done|done|apply Hs|apply Hs]. Qed.

Lemma store_proposal_keeper s p s' :
  CState.store_proposal s p = Ret s' -> exists k, s' = CState.set_full_proposal_keeper s k.
Proof. unfold CState.store_proposal. intros H. inv_ret. eauto. Qed.

Lemma store_value_keeper s p s' :
  CState.store_value s p = Ret s' -> exists k, s' = CState.set_full_proposal_keeper s k.
Proof. unfold CState.store_value. intros H. inv_ret. eauto. Qed.

(** *** Specifications of handlers *)

Definition spec {A} (m : M A) : Prop :=
  forall needed s t, working needed t s -> wp (m s) (fun t' sr => working needed t' sr.1) t.

Definition input_ok t (input : DriverInput.t) : Prop :=
  proper_input h vs input /\ forall v, input = DriverInput.Vote v -> accounted t v.

Lemma wp_spec {A} (m : M A) needed s t (Q : trace -> CState.t * (Error + A) -> Prop) :
  spec m -> working needed t s ->
  (forall t' s' r, working needed t' s' -> t `prefix_of` t' -> Q t' (s', r)) -> wp (m s) Q t.
Proof.
  intros Hm Hs HQ. eapply wp_mono; [by apply wp_prefix, Hm|]. intros t' [s' r] [? ?]. by apply HQ.
Qed.

Lemma spec_perform e : plain e = true -> (forall t, allowed t e) -> (forall t, quiet t e) -> spec (perform e).
Proof. intros Hp Ha Hq needed s t Hs. apply wp_plain; [done|apply Ha|]. by apply working_quiet. Qed.

(** A question to the host that is not about signing: the state stays. *)
Lemma wp_ask e needed s t (Q : trace -> CState.t * (Error + Resume) -> Prop) :
  working needed t s -> allowed t e -> quiet t e ->
  (forall r, host vs t e r -> working needed (t ++ [(e, r)]) s -> Q (t ++ [(e, r)]) (s, inr r)) ->
  wp (yield_ e s) Q t.
Proof. intros Hs Ha Hq HQ. apply wp_yield; [done|]. intros r Hr. apply HQ; [done|]. by apply working_quiet. Qed.

Definition known_sender v : Prop := is_Some (get_by_address vs (sv_address v)).

Lemma working_validators needed t s : working needed t s -> CState.validator_set s = vs.
Proof. intros [_ []]. done. Qed.

Lemma working_height needed t s : working needed t s -> CState.height s = h.
Proof. intros [_ []]. done. Qed.

Lemma wp_verify_extension needed s t v validator :
  working needed t s ->
  wp (verify_vote_extension v validator s)
    (fun t' sr => sr.1 = s /\ working needed t' s /\
       (own_vote t v -> get_by_address vs (sv_address v) = Some validator -> sr.2 <> inr false)) t.
Proof.
  intros Hs. unfold verify_vote_extension.
  destruct (sv_type v), (sv_value v) as [|id], (extension v.(SignedMessage.message)) as [ext|] eqn:Hext; try (by wp_step).
  wp_step. eapply wp_ask; [done|done|done|]. intros r [_ Hr] Hs'. cbn [fst snd].
  destruct r as [| | | | | | |[e|u]|]; wp_step; split_and!; try done.
  intros Hown Hv _. by specialize (Hr v validator Hown Hext Hv eq_refl).
Qed.

(** A vote passes only when the host has found its signature valid; a vote of
    the host's own passes. *)
Lemma wp_verify_vote needed s t v :
  working needed t s ->
  wp (verify_signed_vote_m v s)
    (fun t' sr => sr.1 = s /\ working needed t' s /\ (sr.2 = inr true -> verified t' v) /\
       (own_vote t v -> known_sender v -> sr.2 <> inr false)) t.
Proof.
  intros Hs. unfold verify_signed_vote_m. wp_step. wp_step. wp_step. wp_step.
  rewrite (working_validators _ _ _ Hs).
  destruct (get_by_address vs (sv_address v)) as [validator|] eqn:Hv.
  2:{ wp_step. split_and!; try done. intros _ [? Hk]. by rewrite Hv in Hk. }
  wp_step. unfold verify_signature. wp_step. eapply wp_ask; [done|done|done|].
  intros r [_ Hr] Hs'. cbn [fst snd]. destruct r as [| | |valid| | | | |]; wp_step; try (by split_and!).
  destruct valid.
  - eapply wp_mono; [by apply wp_prefix, wp_verify_extension|]. cbn beta.
    intros t' sr [(Hst & Hw & Hext) Hp]. split_and!; [done|done| |].
    + intros _. eapply verified_prefix; [exact Hp|]. exists (public_key validator).
      rewrite elem_of_app, list_elem_of_singleton. by right.
    + intros Hown _. apply Hext; [|done]. eapply own_vote_prefix; [by apply prefix_app_r|done].
  - wp_step. split_and!; try done. intros Hown _. by specialize (Hr v validator eq_refl Hown Hv eq_refl).
Qed.

Section handlers.
Context (rec : DriverInput.t -> M unit).
Context (Hrec : forall input needed s t, working needed t s -> input_ok t input ->
  wp (rec input s) (fun t' sr => working needed t' sr.1) t).

Lemma wp_rec input needed s t (Q : trace -> CState.t * (Error + unit) -> Prop) :
  working needed t s -> input_ok t input ->
  (forall t' s' r, working needed t' s' -> t `prefix_of` t' -> Q t' (s', r)) -> wp (rec input s) Q t.
Proof using Hrec.
  intros Hs Hi HQ. eapply wp_mono; [by apply wp_prefix, Hrec|]. intros t' [s' r] [? ?]. by apply HQ.
Qed.

(** After [on_vote], the node's own vote is in the log. *)
Lemma wp_on_vote needed s t v :
  working needed t s -> (own_vote t v /\ sv_height v = h \/ source v) ->
  wp (on_vote rec v s)
    (fun t' sr => working needed t' sr.1 /\
       (sr.2 = inr tt -> own_vote t v -> sv_height v = h -> known_sender v -> accounted t' v)) t.
Proof using Hrec Hfresh laws.
  intros Hs Hsrc. pose proof (working_height _ _ _ Hs) as Hh. unfold on_vote.
  wp_step. wp_step. rewrite Hh.
  destruct (Height_ltb (sv_height v) h) eqn:Hlt.
  { wp_step. split; [done|]. intros _ _ Hv. by rewrite Hv, Height_ltb_irrefl in Hlt. }
  destruct (Height_ltb h (sv_height v)) eqn:Hgt.
  { wp_step. split; [|by intros _ _ Hv; rewrite Hv, Height_ltb_irrefl in Hgt].
    apply working_buffer; [done|]. destruct Hsrc as [[_ Hv]|?]; [by rewrite Hv, Height_ltb_irrefl in Hgt|done]. }
  case_bool_decide as Hround.
  { wp_step. destruct Hs as [_ [_ _ _ _ Hr]]. unfold CState.round in Hround. by rewrite Hround in Hr. }
  wp_step. wp_step. wp_step. eapply wp_mono; [by apply wp_prefix, wp_verify_vote|].
  cbn beta. intros t1 [s1 res] [(Hs1 & Hw1 & Hver & Hown) Hp1]. cbn [fst snd] in *. subst s1.
  destruct res as [e|[|]]; cbn [fst snd].
  - by split.
  - wp_step. wp_step. destruct (VoteKeeper.has_vote _ v) eqn:Hhas.
    + wp_step. split; [done|]. intros _ _ _ _. destruct Hw1 as [[(events & outs & Hd) _ _ _ _ _] _].
      apply has_vote_received in Hhas. eapply dr_votes; [exact Hd|].
      by apply (run_received h vs a d0 _ _ outs _ Hfresh (dr_run _ _ _ _ _ Hd)).
    + wp_step. apply wp_plain; [done| |].
      { split; [by apply Hver|]. destruct Hsrc as [[Ho _]|?]; [left; by eapply own_vote_prefix|by right]. }
      cbn [fst snd].
      assert (Hacc : accounted (t1 ++ [(WalAppend (sv_height v)
        (WalEntry.ConsensusMsg (SignedConsensusMsg.Vote v)), Resume_Continue)]) v).
      { left. exists (sv_height v). apply elem_of_effects_snoc. by right. }
      eapply wp_rec; [apply working_quiet; [done|cbn; auto]| |].
      * split; [done|]. by intros ? [= <-].
      * intros t2 s2 r Hw2 Hp2. cbn [fst snd]. split; [done|]. intros _ _ _ _. by eapply accounted_prefix.
  - wp_step. split; [done|]. intros _ Ho _ Hk. by destruct (Hown Ho Hk).
Qed.

(** *** Handlers that neither vote nor decide *)

Ltac node_leaf :=
  cbn [fst snd];
  solve [repeat first
    [ eassumption
    | apply working_quiet; [|exact I]
    | apply working_buffer; [|exact I]
    | apply working_buffer_sync; [|exact I]
    | eapply working_keeper; [|solve [eauto using store_proposal_keeper, store_value_keeper]] ]].

Ltac node_step :=
  cbn [fst snd];
  lazymatch goal with
  | |- ConsensusLogic.wp _ _ (perform _ _) _ _ => apply wp_plain; [reflexivity|exact I|]
  | |- ConsensusLogic.wp _ _ (yield_ _ _) _ _ =>
      eapply wp_ask; [node_leaf|exact I|exact I|]; intros ? _ ?
  | |- ConsensusLogic.wp _ _ (rec _ _) _ _ =>
      eapply wp_rec; [node_leaf|split; [exact I|by intros ? ?]|]; intros ? ? [?|?] ? _
  | |- _ => wp_step
  end.

Ltac wp_go := repeat node_step; try node_leaf.

Lemma on_proposal_spec p : spec (on_proposal rec p).
Proof using Hrec.
  intros needed s t Hs. unfold on_proposal, verify_signed_proposal, verify_signature. wp_go.
Qed.

Lemma on_propose_spec value : spec (on_propose rec value).
Proof using Hrec.
  intros needed s t Hs. unfold on_propose, verify_propose_value. wp_go.
Qed.

Lemma apply_proposals_spec ps validity : spec (apply_proposals rec ps validity).
Proof using Hrec.
  induction ps as [|p ps IH]; intros needed s t Hs; cbn [apply_proposals]; wp_go. by apply IH.
Qed.

Lemma on_proposed_value_spec value origin : spec (on_proposed_value rec value origin).
Proof using Hrec.
  intros needed s t Hs. unfold on_proposed_value, sign_proposal. wp_go; apply apply_proposals_spec; node_leaf.
Qed.

Lemma on_rebroadcast_timeout_spec : spec on_rebroadcast_timeout.
Proof.
  intros needed s t Hs.
  assert (Hlast : forall v t' s', s.(CState.last_signed_prevote) = Some v \/
      s.(CState.last_signed_precommit) = Some v -> t `prefix_of` t' -> working needed t' s' ->
    forall Q : _ -> _ -> Prop, (forall t'', working needed t'' s' -> t `prefix_of` t'' -> Q t'' (s', inr tt)) ->
    wp (perform (RepublishVote v) s') Q t').
  { intros v t' s' Hv Hp Hw Q HQ. apply wp_plain; [done| |].
    - eapply accounted_prefix; [done|]. by apply (inv_last _ _ _ (working_inv _ _ _ Hs)).
    - apply HQ; [by apply working_quiet|]. by apply prefix_app_r. }
  assert (Hre : forall o t' s', (forall v, o = Some v -> s.(CState.last_signed_prevote) = Some v \/
      s.(CState.last_signed_precommit) = Some v) -> t `prefix_of` t' -> working needed t' s' ->
    forall Q : _ -> _ -> Prop, (forall t'', working needed t'' s' -> t `prefix_of` t'' -> Q t'' (s', inr tt)) ->
    wp (republish o s') Q t').
  { intros [v|] t' s' Ho Hp Hw Q HQ; cbn [republish]; [by eapply Hlast; [apply Ho|..]|]. wp_step. by apply HQ. }
  unfold on_rebroadcast_timeout. do 4 wp_step; [|wp_go]. wp_step.
  apply Hre; [auto|done|done|]. intros t1 Hw1 Hp1. cbn [fst snd]. wp_step.
  apply Hre; [auto|done|done|]. intros t2 Hw2 Hp2. wp_go.
Qed.

Lemma on_timeout_elapsed_spec timeout : spec (on_timeout_elapsed rec timeout).
Proof using Hrec.
  intros needed s t Hs. unfold on_timeout_elapsed. wp_go; apply on_rebroadcast_timeout_spec; node_leaf.
Qed.

Lemma on_polka_certificate_spec c : spec (on_polka_certificate rec c).
Proof using Hrec.
  intros needed s t Hs. unfold on_polka_certificate, verify_polka_certificate_m, certificate_validity. wp_go.
Qed.

Lemma apply_votes_spec votes : Forall from_certificate votes -> spec (apply_votes rec votes).
Proof using Hrec.
  induction 1 as [|v votes Hv _ IH]; intros needed s t Hs; cbn [apply_votes]; [wp_go|].
  wp_step. eapply wp_rec; [done| |].
  - split; [done|]. intros ? [= <-]. by right.
  - intros t' s' [e|[]] Hw _; cbn [fst snd]; [done|by apply IH].
Qed.

Lemma on_round_certificate_spec c :
  Forall from_certificate (round_vote c <$> c.(RoundCertificate.round_signatures)) ->
  spec (on_round_certificate rec c).
Proof using Hrec.
  intros Hc needed s t Hs. unfold on_round_certificate, verify_round_certificate_m, certificate_validity.
  repeat node_step; try node_leaf;
    (eapply wp_spec; [by apply apply_votes_spec|node_leaf|]; intros ? ? [?|?] ? _; wp_go).
Qed.

Lemma on_value_response_spec value : spec (on_value_response rec value).
Proof using Hrec.
  intros needed s t Hs.
  unfold on_value_response, process_commit_certificate, verify_commit_certificate_m, certificate_validity.
  wp_go.
Qed.

(** *** Casting a vote *)

Lemma same_vote_refl w : same_vote w w.
Proof. by split_and!. Qed.

Lemma same_vote_trans w1 w2 w3 : same_vote w1 w2 -> same_vote w2 w3 -> same_vote w1 w3.
Proof. unfold same_vote. intros (-> & -> & -> & -> & ->) (-> & -> & -> & -> & ->). by split_and!. Qed.

Lemma same_vote_sym w1 w2 : same_vote w1 w2 -> same_vote w2 w1.
Proof. unfold same_vote. intros (-> & -> & -> & -> & ->). by split_and!. Qed.

(** A vote the driver has cast may be signed, with any extension. *)
Lemma working_sign needed t s w x :
  working needed t s -> DriverOutput.Vote w ∈ needed -> same_vote x w ->
  allowed t (SignVote x) /\ forall r, working needed (t ++ [(SignVote x, r)]) s.
Proof using Hfresh laws.
  intros [[(events & outs & Hd) Hrest Hpar Hq Hlog Hlast] Hst] Hw Hx.
  destruct (run_votes_agree h vs a d0 events _ outs Hfresh (dr_proper _ _ _ _ _ Hd) (dr_run _ _ _ _ _ Hd))
    as [Hheight Huniq].
  assert (Hin : DriverOutput.Vote w ∈ outs) by (by apply (dr_needed _ _ _ _ _ Hd)).
  assert (Hwo : w ∈ votes_of outs) by (by apply elem_of_votes_of).
  assert (Haddr : vote_address w = a).
  { pose proof (dr_outputs _ _ _ _ _ Hd) as Ho. rewrite Forall_forall in Ho. by apply Ho in Hin. }
  split.
  - destruct Hx as (Hxh & Hxr & Hxv & Hxt & Hxa). split_and!; [rewrite Hxh; auto|congruence|].
    intros y (w' & Hw' & Hy)%(dr_signed _ _ _ _ _ Hd) Hty Hr.
    assert (w' = w) as ->.
    { destruct Hy as (_ & Hyr & _ & Hyt & _). apply Huniq; congruence. }
    eapply same_vote_trans; [exact Hy|]. by apply same_vote_sym.
  - intros r. assert (Hp : t `prefix_of` t ++ [(SignVote x, r)]) by (by apply prefix_app_r).
    split; [|done]. split; try done.
    + exists events, outs. destruct Hd. split; try done.
      * intros y [?|[= ->]]%elem_of_effects_snoc; eauto.
      * intros v Hv. eapply accounted_prefix; eauto.
      * intros c y [?|?]%elem_of_effects_snoc; [eauto|done].
    + intros v [h' [?|?]%elem_of_effects_snoc]; [|done]. eapply verified_prefix; [done|]. apply Hlog. by exists h'.
    + intros v Hv. eapply accounted_prefix; eauto.
Qed.

Lemma wp_extend_vote needed s t w (Q : trace -> CState.t * (Error + Vote) -> Prop) :
  working needed t s ->
  (forall t' x, working needed t' s -> same_vote x w -> Q t' (s, inr x)) ->
  (forall t' e, working needed t' s -> Q t' (s, inl e)) ->
  wp (extend_vote w s) Q t.
Proof using ext_laws.
  intros Hs HQ HE. unfold extend_vote.
  destruct (vote_type w), (vote_value w); try (wp_step; apply HQ; [done|apply same_vote_refl]).
  node_step. node_step. cbn [fst snd].
  match goal with r : Resume |- _ => destruct r as [| | | | | |[e|]| |] end; wp_step;
    first [by apply HE | apply HQ; [done|first [apply extend_spec|apply same_vote_refl]]].
Qed.

Lemma set_last_vote_working needed t s v :
  working needed t s -> accounted t v -> working needed t (CState.set_last_vote s v).
Proof.
  intros Hs Hv. pose proof (working_inv _ _ _ Hs) as Hinv.
  eapply working_frame; [exact Hs|..]; unfold CState.set_last_vote; destruct (sv_type v); cbn; try done;
    try apply Hinv; intros v' [Heq|Heq]; simplify_eq; try done; apply Hinv; auto.
Qed.

(** The second half of [on_driver_vote]. *)
Lemma cast_vote_spec needed t s w :
  working needed t s -> DriverOutput.Vote w ∈ needed -> CState.is_active_validator s = true ->
  wp ((extended_vote ← extend_vote w;
       signed_vote ← sign_vote extended_vote;
       _ ← on_vote rec signed_vote;
       _ ← perform (PublishConsensusMsg (SignedConsensusMsg.Vote signed_vote));
       state ← get_state;
       let state := CState.set_last_vote state signed_vote in
       _ ← put_state state;
       perform (ScheduleTimeout (RoundTimeout.rebroadcast (CState.round state)))) s)
    (fun t' sr => working needed t' sr.1) t.
Proof using Hrec Hfresh laws ext_laws.
  intros Hs Hw Hact. wp_step. eapply wp_extend_vote; [done| |by intros].
  intros t1 x Hw1 Hx. cbn [fst snd]. destruct (working_sign needed t1 s w x Hw1 Hw Hx) as [Hok Hsig].
  wp_step. unfold sign_vote. wp_step. apply wp_yield; [done|]. intros r [_ Hr]. cbn [fst snd].
  destruct r as [| | | |v| | | |]; wp_step; try done. cbn in Hr.
  assert (Hkn : known_sender v /\ sv_height v = h).
  { unfold known_sender, sv_address, sv_height. rewrite Hr. destruct Hok as (-> & -> & _). split; [|done].
    apply andb_prop in Hact as [_ Hact%bool_decide_eq_true].
    destruct Hs as [_ [_ Hvs Ha _ _]]. unfold CState.validator_set, CState.address in Hact. by rewrite Hvs, Ha in Hact. }
  assert (Hown : own_vote (t1 ++ [(SignVote x, Resume_SignedVote v)]) v).
  { exists x. rewrite elem_of_app, list_elem_of_singleton. by right. }
  wp_step. eapply wp_mono; [apply wp_on_vote; [apply Hsig|left; split; [exact Hown|apply Hkn]]|].
  cbn beta. intros t2 [s2 [e|[]]] [Hw2 Hacc]; cbn [fst snd] in *; [done|].
  assert (Hv : accounted t2 v) by (apply Hacc; [done|exact Hown|apply Hkn|apply Hkn]).
  wp_step. apply wp_plain; [done|done|]. cbn [fst snd]. wp_step. wp_step. wp_step. wp_step.
  apply wp_plain; [done|done|]. cbn [fst snd]. apply working_quiet; [|done].
  apply set_last_vote_working; [by apply working_quiet|]. eapply accounted_prefix; [|done]. by apply prefix_app_r.
Qed.

Lemma working_prune needed t s r :
  working needed t s ->
  working needed t (CState.set_driver s (Process.prune_votes_and_certificates s.(CState.driver) r)).
Proof.
  intros [[(events & outs & Hd) Hrest Hpar Hq Hlog Hlast] Hst]. split; [|by destruct Hst].
  split; try done; [|by destruct Hrest].
  exists (events ++ [Prune r]), outs. destruct Hd. split; try done.
  - by apply run_prune.
  - apply Forall_app. split; [done|by apply Forall_singleton].
  - intros v [?|?]%elem_snoc; eauto. done.
Qed.

Lemma publish_lock_spec w id : spec (publish_lock w id).
Proof. intros needed s t Hs. unfold publish_lock. wp_go. Qed.

Lemma on_driver_vote_spec needed t s w :
  working needed t s -> DriverOutput.Vote w ∈ needed ->
  wp (on_driver_vote rec w s) (fun t' sr => working needed t' sr.1) t.
Proof using Hrec Hfresh laws ext_laws.
  intros Hs Hw. unfold on_driver_vote. wp_step.
  assert (Hcast : forall t' s', working needed t' s' ->
    wp ((state ← get_state;
      when (CState.is_active_validator state)
        (extended_vote ← extend_vote w;
         signed_vote ← sign_vote extended_vote;
         _ ← on_vote rec signed_vote;
         _ ← perform (PublishConsensusMsg (SignedConsensusMsg.Vote signed_vote));
         state ← get_state;
         let state := CState.set_last_vote state signed_vote in
         _ ← put_state state;
         perform (ScheduleTimeout (RoundTimeout.rebroadcast (CState.round state))))) s')
      (fun t' sr => working needed t' sr.1) t').
  { intros t' s' Hs'. wp_step. wp_step. wp_step; [by apply cast_vote_spec|done]. }
  destruct (vote_type w), (vote_value w); try (wp_step; by apply Hcast).
  wp_step. wp_step. wp_step. wp_step. apply wp_when; intros _.
  - eapply wp_spec; [apply publish_lock_spec|by apply working_prune|]. intros t' s' [e|[]] Hs' _; [done|by apply Hcast].
  - cbn [fst snd]. by apply Hcast, working_prune.
Qed.

(** *** Deciding *)

Lemma wp_decision_certificate needed s t round value (Q : trace -> CState.t * (Error + (CommitCertificate.t * VoteExtensions.t)) -> Prop) :
  working needed t s ->
  (forall c x, c.(CommitCertificate.height) = h -> c.(CommitCertificate.round) = round -> c.(CommitCertificate.value_id) = value_id value ->
     Q t (s, inr (c, x))) ->
  wp (decision_certificate (CState.height s) round value s) Q t.
Proof.
  intros Hs HQ. pose proof (working_height _ _ _ Hs) as Hh. unfold decision_certificate. wp_step. wp_step.
  destruct (Driver.commit_certificate _ _ _) as [c|] eqn:Hc.
  - wp_step. apply commit_certificate_Some in Hc as (Hin & Hr & Hv). apply HQ; [|done|done].
    destruct Hs as [[(events & outs & Hd) _ _ _ _ _] _]. by apply (dr_commits _ _ _ _ _ Hd).
  - wp_step. wp_step. destruct (extract_vote_extensions _) as [commits x]. wp_step. by apply HQ.
Qed.

(** The driver's decision is the only one. *)
Lemma working_decide needed t s round value c x :
  working needed t s -> CState.decided_value s = Some (round, value) ->
  c.(CommitCertificate.round) = round -> c.(CommitCertificate.value_id) = value_id value ->
  (forall c' x', Decide c' x' ∈ effects t ->
     c'.(CommitCertificate.round) = round /\ c'.(CommitCertificate.value_id) = value_id value) /\
  forall r, working needed (t ++ [(Decide c x, r)]) s.
Proof using Hfresh.
  intros [[(events & outs & Hd) Hrest Hpar Hq Hlog Hlast] Hst] Hdec Hr Hv.
  assert (Hone : exists r p, decides outs = [(r, p)] /\ proposal_round p = round /\ proposal_value p = value).
  { destruct (run_decision h vs a d0 events _ outs Hfresh (dr_proper _ _ _ _ _ Hd) (dr_run _ _ _ _ _ Hd))
      as [(_ & Hn & _)|(r & p & Ho & Hs & _)];
      unfold CState.decided_value, Driver.decided_value in Hdec; [by rewrite Hn in Hdec|].
    rewrite Hs in Hdec. cbn in Hdec. exists r, p. by simplify_eq. }
  destruct Hone as (r0 & p & Ho & Hpr & Hpv). split.
  - intros c' x' Hc'. destruct (dr_decided _ _ _ _ _ Hd c' x' Hc') as (r' & p' & Hin & -> & ->).
    rewrite Ho, list_elem_of_singleton in Hin. simplify_eq. by rewrite <- Hpr.
  - intros r. assert (Hp : t `prefix_of` t ++ [(Decide c x, r)]) by (by apply prefix_app_r).
    split; [|done]. split; try done.
    + exists events, outs. destruct Hd. split; try done.
      * intros y [?|?]%elem_of_effects_snoc; [eauto|done].
      * intros v Hv'. eapply accounted_prefix; eauto.
      * intros c' y [?|[= -> _]]%elem_of_effects_snoc; [eauto|]. exists r0, p.
        rewrite Ho, list_elem_of_singleton. by subst.
    + intros v [h' [?|?]%elem_of_effects_snoc]; [|done]. eapply verified_prefix; [done|]. apply Hlog. by exists h'.
    + intros v Hv'. eapply accounted_prefix; eauto.
Qed.

Lemma decide_spec : spec decide_.
Proof using Hfresh.
  intros needed s t Hs. unfold decide_. do 4 wp_step.
  destruct (CState.decided_value s) as [[round value]|] eqn:Hdec; [|wp_go].
  wp_step. eapply wp_decision_certificate; [done|]. intros c x Hch Hr Hv. cbn [fst snd].
  destruct (Driver.proposal_and_validity_for_round_and_value _ _ _); [|wp_go].
  destruct (CState.full_proposal_at_round_and_value _ _ _ _) as [fp|]; [|wp_go].
  unfold verify_commit_certificate_m, certificate_validity.
  do 6 wp_step. do 2 wp_step. eapply wp_ask; [done|done|done|]. intros r _ Hw. cbn [fst snd].
  destruct r as [| | | | | | | |validity]; wp_step; try done. do 2 wp_step.
  destruct validity as [e|[]]; [done|]. cbn [fst snd].
  destruct (working_decide needed _ s round value c x Hw Hdec Hr Hv) as [Hone Hdone].
  apply wp_plain; [done| |apply Hdone]. split_and!.
  - done.
  - exists t. destruct Hs as [[_ _ Hpar _ _ _] [_ Hvs _ _ _]]. by rewrite Hvs, Hpar.
  - intros c' x'. rewrite Hr, Hv. apply Hone.
Qed.

(** *** The other outputs of the driver *)

Lemma on_driver_propose_spec p : spec (on_driver_propose rec p).
Proof using Hrec.
  intros needed s t Hs. unfold on_driver_propose, sign_proposal.
  repeat node_step; try node_leaf;
    (eapply wp_spec; [apply on_proposal_spec|node_leaf|]; intros ? ? [?|?] ? _; wp_go).
Qed.

Lemma on_driver_get_value_spec height round timeout : spec (on_driver_get_value rec height round timeout).
Proof using Hrec.
  intros needed s t Hs. unfold on_driver_get_value.
  repeat node_step; try node_leaf. by apply on_propose_spec.
Qed.

Lemma proposer_known s height round p :
  CState.validator_set s = vs -> CState.get_proposer s height round = Ret p -> is_Some (get_by_address vs p).
Proof using proposer_laws.
  unfold CState.get_proposer. intros -> H. inv_ret. by eapply select_proposer_known.
Qed.

Lemma process_driver_output_spec needed t s o :
  working needed t s -> o ∈ needed ->
  wp (process_driver_output rec o s) (fun t' sr => working needed t' sr.1) t.
Proof using Hrec Hfresh laws ext_laws proposer_laws.
  intros Hs Ho. destruct o as [height round|p|w|r p|timeout|height round timeout]; cbn [process_driver_output].
  - wp_step. wp_step. wp_step. wp_step.
    assert (Hok : proper_output h a (DriverOutput.NewRound height round)).
    { destruct Hs as [[(events & outs & Hd) _ _ _ _ _] _]. pose proof (dr_outputs _ _ _ _ _ Hd) as Hout.
      rewrite Forall_forall in Hout. by apply Hout, (dr_needed _ _ _ _ _ Hd). }
    eapply wp_rec; [done| |done]. split; [|done]. destruct Hok as [-> Hdef]. split_and!; [done|done|].
    by eapply proposer_known; [eapply working_validators|].
  - by apply on_driver_propose_spec.
  - by apply on_driver_vote_spec.
  - by apply decide_spec.
  - wp_go.
  - by apply on_driver_get_value_spec.
Qed.

Lemma process_driver_outputs_spec needed t s outputs :
  working needed t s -> outputs ⊆ needed ->
  wp (process_driver_outputs rec outputs s) (fun t' sr => working needed t' sr.1) t.
Proof using Hrec Hfresh laws ext_laws proposer_laws.
  revert t s. induction outputs as [|o outputs IH]; intros t s Hs Hsub; cbn [process_driver_outputs]; [by wp_step|].
  wp_step. eapply wp_mono; [apply process_driver_output_spec; [done|apply Hsub, list_elem_of_here]|].
  intros t' [s' [e|[]]] Hw; cbn [fst snd] in *; [done|].
  apply IH; [done|]. intros x Hx. by apply Hsub, list_elem_of_further.
Qed.

(** *** One input of the driver *)

(** [process] adds its outputs to those to be processed. *)
Lemma working_process needed t s input d' res :
  inv needed t s -> (started h vs a s.(CState.driver) \/ is_new_round input = true) -> input_ok t input ->
  Process.process s.(CState.driver) input = Ret (d', res) ->
  working (needed ++ match res with inr outs => outs | inl _ => [] end) t (CState.set_driver s d').
Proof using laws.
  intros [(events & outs & Hd) Hrest Hpar Hq Hlog Hlast] Hst [Hin Hvote] Hp.
  destruct (process_started h vs a _ _ _ _ Hrest Hst Hin Hp) as [Hst' Hout].
  pose proof (process_at_rest h vs a _ _ _ _ Hrest Hst Hin Hp) as Hrest'.
  split; [|done]. split; try done.
  exists (events ++ [Receive input]), (outs ++ match res with inr o => o | inl _ => [] end).
  destruct Hd as [Hrun Hprop Hneed Houts Hsig Hvotes Hdec Hcom]. split.
  - by apply run_receive with (d := s.(CState.driver)).
  - apply Forall_app. split; [done|by apply Forall_singleton].
  - intros o. rewrite !elem_of_app. intros [?|?]; auto.
  - apply Forall_app. split; [done|]. destruct res as [e|o]; [by apply Forall_nil|by apply Hout].
  - intros x (w & Hw & Hx)%Hsig. exists w. rewrite votes_of_app, elem_of_app. auto.
  - intros v [?|[= <-]]%elem_snoc; auto.
  - intros c x (r & p & Hin' & Hc)%Hdec. exists r, p. rewrite decides_app, elem_of_app. auto.
  - intros c Hc. destruct (process_commits _ _ _ _ _ Hp Hc) as [?| ->]; [auto|]. apply Hrest.
Qed.

Lemma working_weaken needed needed' t s : needed ⊆ needed' -> working needed' t s -> working needed t s.
Proof.
  intros Hsub [[(events & outs & Hd) ? ? ? ? ?] ?]. split; [|done]. split; try done.
  exists events, outs. destruct Hd. split; try done. set_solver.
Qed.

Ltac inv_leaf := cbn [fst snd]; split_and!; [repeat (apply inv_quiet; [|exact I])|..]; try done.

Lemma wp_announce_round needed s t height round proposer :
  inv needed t s ->
  wp (announce_round height round proposer s)
    (fun t' sr => (inv needed t' sr.1 /\ sr.1.(CState.driver) = s.(CState.driver) /\ sr.2 = inr tt) /\
       t `prefix_of` t') t.
Proof.
  intros Hs. assert (Hclear : forall t', inv needed t' s -> inv needed t' (CState.set_last_votes s None None)).
  { intros t' Hs'. eapply inv_frame; [exact Hs'|done|done|apply Hs'|by intros v [|]]. }
  apply wp_prefix.
  unfold announce_round. repeat node_step; inv_leaf; apply Hclear; repeat (apply inv_quiet; [|exact I]); done.
Qed.

Lemma wp_accept_driver_input needed s t input :
  inv needed t s ->
  wp (accept_driver_input input s)
    (fun t' sr => (inv needed t' sr.1 /\ sr.1.(CState.driver) = s.(CState.driver) /\
       (is_new_round input = true -> sr.2 = inr true)) /\ t `prefix_of` t') t.
Proof.
  intros Hs. apply wp_prefix. unfold accept_driver_input. wp_step. wp_step.
  destruct input as [height round p|round value|sp validity|v|c|c|timeout]; try (by wp_step).
  - wp_step. eapply wp_mono; [by apply wp_announce_round|]. cbn beta.
    intros t' [s' res] [(? & ? & Hres) _]; cbn [fst snd] in *. rewrite Hres. by wp_step.
  - wp_step. apply wp_plain; [done|done|]. cbn [fst snd]. wp_step. split_and!; [by apply inv_quiet|done|done].
Qed.

Lemma input_ok_prefix t t' input : t `prefix_of` t' -> input_ok t input -> input_ok t' input.
Proof. intros Hp [? Hv]. split; [done|]. intros v Heq. by eapply accounted_prefix; [|apply Hv]. Qed.

(** [apply_driver_input], given itself: it also starts the first round. *)
Lemma wp_apply_body needed s t input :
  inv needed t s -> (started h vs a s.(CState.driver) \/ is_new_round input = true) -> input_ok t input ->
  wp (apply_body rec input s) (fun t' sr => working needed t' sr.1) t.
Proof using Hrec Hfresh laws ext_laws proposer_laws.
  intros Hs Hst Hin. unfold apply_body. wp_step.
  eapply wp_mono; [by apply wp_accept_driver_input|]. cbn beta.
  intros t1 [s1 acc] [(Hs1 & Hd1 & Hacc) Hp1]; cbn [fst snd] in *. rewrite <- Hd1 in Hst.
  assert (Hstop : acc <> inr true -> working needed t1 s1).
  { intros Hno. split; [done|]. destruct Hst as [?|?]; [done|]. by destruct Hno; apply Hacc. }
  destruct acc as [e|[|]]; [by apply Hstop| |wp_step; by apply Hstop].
  wp_step. wp_step. wp_step. apply wp_lift. intros [d' res] Hproc. cbn [fst snd].
  pose proof (working_process needed t1 s1 input d' res Hs1 Hst (input_ok_prefix _ _ _ Hp1 Hin) Hproc) as Hw.
  wp_step. wp_step. destruct res as [e|outputs]; [wp_step; by rewrite app_nil_r in Hw|].
  assert (Hgo : forall t' s', working (needed ++ outputs) t' s' ->
    wp (process_driver_outputs rec outputs s') (fun t' sr => working needed t' sr.1) t').
  { intros t' s' Hw'. eapply wp_mono; [apply process_driver_outputs_spec; [done|set_solver]|].
    intros t2 [s2 r]. apply working_weaken. set_solver. }
  wp_step. wp_step.
  - apply wp_plain; [done|done|]. cbn [fst snd]. apply Hgo. by apply working_quiet.
  - by apply Hgo.
Qed.

End handlers.

(** *** The recursion *)

Lemma apply_driver_input_spec fuel input needed s t :
  working needed t s -> input_ok t input ->
  wp (apply_driver_input fuel input s) (fun t' sr => working needed t' sr.1) t.
Proof using Hfresh laws ext_laws proposer_laws.
  revert input needed s t. induction fuel as [|fuel IH]; intros input needed s t Hs Hin; [done|].
  cbn [apply_driver_input]. destruct Hs as [Hs Hst]. apply wp_apply_body; auto.
Qed.

(** The inputs after the start of the height; the votes, and the votes of round
    certificates, are accounted for. *)
Definition later_input (input : ConsensusInput.t) : Prop :=
  match input with
  | ConsensusInput.StartHeight _ _ _ => False
  | ConsensusInput.Vote v => source v
  | ConsensusInput.RoundCertificate c =>
      Forall from_certificate (round_vote c <$> c.(RoundCertificate.round_signatures))
  | _ => True
  end.

Lemma handle_input_spec depth fuel input : later_input input -> spec (handle_input depth fuel input).
Proof using Hfresh laws ext_laws proposer_laws.
  pose proof (apply_driver_input_spec fuel) as Hrec.
  intros Hin. destruct depth as [|depth]; [by intros needed s t Hs|].
  destruct input; cbn [handle_input]; try done.
  - intros needed s t Hs. eapply wp_mono; [apply wp_on_vote; [..|by right]; done|]. by intros ? ? [? _].
  - by apply on_proposal_spec.
  - by apply on_polka_certificate_spec.
  - by apply on_round_certificate_spec.
  - by apply on_propose_spec.
  - by apply on_timeout_elapsed_spec.
  - by apply on_proposed_value_spec.
  - by apply on_value_response_spec.
Qed.

Lemma pending_later input : pending_ok input -> later_input input.
Proof. by destruct input. Qed.

Lemma handle_inputs_spec handle_input inputs :
  (forall i, later_input i -> spec (handle_input i)) -> Forall later_input inputs ->
  spec (handle_inputs handle_input inputs).
Proof.
  intros Hh Hin needed s t Hs. revert s t Hs. induction Hin as [|i inputs Hi _ IH]; intros s t Hs; cbn [handle_inputs]; [by wp_step|].
  wp_step. eapply wp_spec; [by apply Hh|done|]. intros t' s' [e|[]] Hs' _; cbn [fst snd]; [done|by apply IH].
Qed.

(** *** The start of the height *)

Lemma on_start_height_spec depth fuel is_restart s t :
  inv [] t s ->
  wp (on_start_height fuel (handle_input depth fuel) h is_restart s) (fun t' sr => working [] t' sr.1) t.
Proof using Hfresh laws ext_laws proposer_laws.
  intros Hs. unfold on_start_height. do 3 wp_step. wp_step. wp_step.
  assert (Hin : input_ok t (DriverInput.NewRound h (Round.new 0) a0)).
  { split; [|done]. split_and!; [done|done|]. eapply proposer_known; [|done]. apply Hs. }
  eapply wp_mono with (Q := fun t' sr => working [] t' sr.1).
  { destruct fuel as [|fuel]; [done|]. apply wp_apply_body; auto. apply apply_driver_input_spec. }
  intros t1 [s1 [e|[]]] Hw; cbn [fst snd] in *; [done|].
  unfold replay_pending_msgs. wp_step. wp_step.
  unfold CState.take_pending_inputs.
  destruct (BoundedQueue.shift_and_take s1.(CState.input_queue) (CState.height s1)) as [q inputs] eqn:Hq.
  cbn [CState.set_input_queue CState.sync_input_queue].
  destruct (BoundedQueue.shift_and_take s1.(CState.sync_input_queue) _) as [sq sync] eqn:Hsq.
  destruct (inv_queues _ _ _ (working_inv _ _ _ Hw)) as [Hq1 Hq2].
  destruct (shift_and_take_holds _ _ _ _ _ Hq1 Hq) as [Hq' Hi].
  destruct (shift_and_take_holds _ _ _ _ _ Hq2 Hsq) as [Hsq' Hsi].
  wp_step. wp_step.
  assert (Hw' : working [] t1 (CState.set_sync_input_queue (CState.set_input_queue s1 q) sq)).
  { eapply working_frame; [exact Hw|done|done|done|apply Hw]. }
  destruct is_restart; [by wp_step|].
  apply handle_inputs_spec; [|apply Forall_app; split|done].
  - intros i Hi'. by apply handle_input_spec.
  - eapply Forall_impl; [exact Hsi|apply pending_later].
  - eapply Forall_impl; [exact Hi|apply pending_later].
Qed.

End node.

Lemma working_source {Ctx : Context} {Ext : VoteExtension} {Provider : SigningProvider} h vs a P d0 from_certificate
    (source source' : SignedVote -> Prop) needed t s :
  (forall v, source v -> source' v) ->
  working h vs a P d0 from_certificate source needed t s -> working h vs a P d0 from_certificate source' needed t s.
Proof.
  intros Hs [[] ?]. split; [split|]; try done. eapply queues_hold_impl; [|done]. intros [] Hi; cbn in *; auto.
Qed.
