(* ===== verification/Node.v ===== *)
(** * The safety of a node

    A node at a height: the start of the height and every input it receives
    until the next, an error of one input being reported before the next one
    (engine/src/consensus.rs), and its life, one height after the other. The
    theorems hold for every fuel: they are about every effect that is yielded. *)

From S2P Require Import Prelude Types Bytes Context Starknet StateMachine VoteKeeper ProposalKeeper Driver DriverFacts DriverVotes DriverDecisions DriverHeight Verify BTree BoundedQueue Coroutine ConsensusTypes FullProposal Consensus ConsensusLogic ConsensusFacts.

Section node.
Context {Ctx : Context} {Ext : VoteExtension} {Provider : SigningProvider}.

(** The inputs one after the other; an error does not stop the node. *)
Fixpoint receive_all (fuel : nat) (inputs : list ConsensusInput.t) : M unit :=
  match inputs with
  | [] => mret tt
  | input :: inputs => _ ← catch (handle fuel input); receive_all fuel inputs
  end.

Definition is_start (input : ConsensusInput.t) : bool :=
  match input with ConsensusInput.StartHeight _ _ _ => true | _ => false end.

(** The votes of the round certificates among the inputs. *)
Definition certified (inputs : list ConsensusInput.t) (v : SignedVote) : Prop :=
  exists c, ConsensusInput.RoundCertificate c ∈ inputs /\
    v ∈ round_vote c <$> c.(RoundCertificate.round_signatures).

(** A run of the node: from [s], the start of height [h] with validators [vs],
    then [inputs]; [t] are the effects so far and [m] what is left. *)
Record at_height_run fuel (s : CState.t) (h : Height) (vs : ValidatorSet) (is_restart : bool)
    (inputs : list ConsensusInput.t) (t : trace) (m : prog (CState.t * (Error + unit))) : Prop := {
  ar_queues : queues_ok s;
  ar_inputs : forallb (fun i => negb (is_start i)) inputs = true;
  ar_steps : steps (receive_all fuel (ConsensusInput.StartHeight h vs is_restart :: inputs) s) t m;
  ar_host : answered (host vs) [] t;
}.

(** The life of a node from [s]: it is started at the heights of a list, one
    after the other, each with validators of its own, and receives inputs in
    between; the last start may still be under way. *)
Inductive life fuel : CState.t -> list Height -> trace -> Prop :=
  | life_now s h vs is_restart inputs t m :
      at_height_run fuel s h vs is_restart inputs t m -> life fuel s [h] t
  | life_next s h vs is_restart inputs t s' res hs t' :
      at_height_run fuel s h vs is_restart inputs t (Complete (s', res)) ->
      life fuel s' hs t' -> life fuel s (h :: hs) (t ++ t').

Context {laws : ContextLaws} {ext_laws : VoteExtensionLaws} {proposer_laws : ProposerLaws}.

Definition any_vote (v : SignedVote) : Prop := True.

Lemma bufferable_pending i : bufferable i <-> pending_ok any_vote i.
Proof. by destruct i. Qed.

Section run.
Context (fuel : nat) (s : CState.t) (h : Height) (vs : ValidatorSet) (is_restart : bool)
  (inputs : list ConsensusInput.t).

Let a := CState.address s.
Let P := s.(CState.params).
Let d0 := Driver.move_to_height s.(CState.driver) h vs.

Lemma height_fresh : fresh h vs a d0.
Proof. by apply move_to_height_fresh. Qed.

Lemma later_inputs :
  forallb (fun i => negb (is_start i)) inputs = true -> Forall (later_input (certified inputs) any_vote) inputs.
Proof.
  intros Hin. apply Forall_forall. intros i Hi.
  apply List.forallb_forall with (x := i) in Hin; [|by apply list_elem_of_In].
  destruct i; try done. apply Forall_forall. intros v Hv. by eexists.
Qed.

(** The invariant holds from the end of the first handler on. *)
Lemma start_safe from_certificate source :
  queues_hold (pending_ok source) s ->
  wp (allowed h vs a P from_certificate source) (host vs)
    (handle fuel (ConsensusInput.StartHeight h vs is_restart) s)
    (fun t sr => working h vs a P d0 from_certificate source [] t sr.1) [].
Proof using laws ext_laws proposer_laws.
  intros Hq. pose proof height_fresh as Hf.
  change (handle fuel (ConsensusInput.StartHeight h vs is_restart))
    with (reset_and_start_height fuel (handle_input 1 fuel) h vs is_restart).
  unfold reset_and_start_height.
  wp_step. apply wp_plain; [done|done|]. cbn [fst snd]. wp_step. apply wp_plain; [done|done|]. cbn [fst snd].
  do 4 wp_step. eapply on_start_height_spec; [exact Hf|].
  assert (Hnone : forall e, e ∈ effects [(CancelAllTimeouts, Resume_Continue); (ResetTimeouts, Resume_Continue)] ->
    e = CancelAllTimeouts \/ e = ResetTimeouts).
  { intros e. unfold effects. cbn. rewrite !elem_of_cons. intros [?|[?|?%not_elem_of_nil]]; auto. done. }
  split; [|apply Hf|done|done| |by intros v [|]].
  - exists [], []. split; try done.
    + by intros x [|]%Hnone.
    + by intros v ?%not_elem_of_nil.
    + by intros c x [|]%Hnone.
    + intros c Hc. change (c ∈ d0.(Driver.commit_certificates)) in Hc.
      by rewrite (fresh_commits _ _ _ _ Hf), elem_of_nil in Hc.
  - by intros v [h' [|]%Hnone].
Qed.

Lemma height_safe :
  queues_ok s -> forallb (fun i => negb (is_start i)) inputs = true ->
  wp (allowed h vs a P (certified inputs) any_vote) (host vs)
    (receive_all fuel (ConsensusInput.StartHeight h vs is_restart :: inputs) s)
    (fun t sr => working h vs a P d0 (certified inputs) any_vote [] t sr.1) [].
Proof using laws ext_laws proposer_laws.
  intros Hq Hin. pose proof height_fresh as Hf. apply later_inputs in Hin.
  assert (Hrest : forall l t' s', Forall (later_input (certified inputs) any_vote) l ->
    working h vs a P d0 (certified inputs) any_vote [] t' s' ->
    wp (allowed h vs a P (certified inputs) any_vote) (host vs) (receive_all fuel l s')
      (fun t sr => working h vs a P d0 (certified inputs) any_vote [] t sr.1) t').
  { intros l. induction l as [|i l IH]; intros t' s' Hl Hs'; cbn [receive_all]; [by wp_step|].
    apply Forall_cons in Hl as [Hi Hl]. wp_step. wp_step.
    eapply wp_mono; [by eapply handle_input_spec|]. intros t2 [s2 r] Hw. by apply IH. }
  cbn [receive_all]. wp_step. wp_step.
  eapply wp_mono; [apply start_safe; by eapply queues_hold_impl; [apply bufferable_pending|]|].
  intros t' [s' r] Hw. by apply Hrest.
Qed.

End run.
End node.

(** ** Theorems *)

Section claims.
Context {Ctx : Context} {Ext : VoteExtension} {Provider : SigningProvider}.
Context {laws : ContextLaws} {ext_laws : VoteExtensionLaws} {proposer_laws : ProposerLaws}.
Implicit Types (t : trace).

Lemma run_allowed fuel s h vs is_restart inputs t m t1 e r t2 :
  at_height_run fuel s h vs is_restart inputs t m -> t = t1 ++ (e, r) :: t2 ->
  allowed h vs (CState.address s) s.(CState.params) (certified inputs) any_vote t1 e.
Proof.
  intros [Hq Hin Hs Ha] Ht.
  exact (wp_trace_allowed _ _ _ _ _ _ [] t t1 e r t2 (height_safe fuel s h vs is_restart inputs Hq Hin) Hs Ha Ht).
Qed.

(** The votes of one height. *)
Lemma height_votes_agree (fuel : nat) (s : CState.t) (h : Height) (vs : ValidatorSet)
  (is_restart : bool) (inputs : list ConsensusInput.t) (t : trace) (m : prog (CState.t * (Error + unit)))
  (w w' : Vote) (Hrun : at_height_run fuel s h vs is_restart inputs t m)
  (Hw : SignVote w ∈ effects t) (Hw' : SignVote w' ∈ effects t)
  (Htype : vote_type w = vote_type w') (Hround : vote_round w = vote_round w') :
  same_vote w w' /\ vote_height w = h /\ vote_address w = CState.address s.
Proof.
  split.
  - destruct (trace_order _ _ _ Hw Hw') as [(t1 & r & t2 & Ht & Hin)|[(t1 & r & t2 & Ht & Hin)|[= ->]]].
    + by apply (run_allowed _ _ _ _ _ _ _ _ _ _ _ _ Hrun Ht) in Hin.
    + apply (run_allowed _ _ _ _ _ _ _ _ _ _ _ _ Hrun Ht) in Hin; [|done..]. by apply same_vote_sym.
    + apply same_vote_refl.
  - apply trace_split in Hw as (t1 & r & t2 & Ht).
    destruct (run_allowed _ _ _ _ _ _ _ _ _ _ _ _ Hrun Ht) as (? & ? & _). done.
Qed.

(** A start leaves the node ready for the next one, under its address. *)
Lemma run_ready fuel s h vs is_restart inputs t s' res :
  at_height_run fuel s h vs is_restart inputs t (Complete (s', res)) ->
  queues_ok s' /\ CState.address s' = CState.address s.
Proof.
  intros [Hq Hin Hs Ha].
  destruct (wp_complete _ _ _ _ _ _ _ _ (height_safe fuel s h vs is_restart inputs Hq Hin) Hs Ha) as [Hinv _].
  split; [|apply Hinv]. eapply queues_hold_impl; [apply bufferable_pending|apply Hinv].
Qed.

Lemma height_vote fuel s h vs is_restart inputs t m w :
  at_height_run fuel s h vs is_restart inputs t m -> SignVote w ∈ effects t ->
  vote_height w = h /\ vote_address w = CState.address s.
Proof. intros Hrun Hw. by destruct (height_votes_agree _ _ _ _ _ _ _ _ _ _ Hrun Hw Hw). Qed.

Lemma life_vote fuel s hs t w :
  life fuel s hs t -> SignVote w ∈ effects t -> vote_height w ∈ hs /\ vote_address w = CState.address s.
Proof.
  induction 1 as [s h vs is_restart inputs t m Hrun|s h vs is_restart inputs t s' res hs t' Hrun _ IH].
  - intros Hw. destruct (height_vote _ _ _ _ _ _ _ _ _ Hrun Hw) as [-> ?]. by rewrite list_elem_of_singleton.
  - unfold effects. rewrite fmap_app, elem_of_app, elem_of_cons. intros [Hw|Hw].
    + destruct (height_vote _ _ _ _ _ _ _ _ _ Hrun Hw). auto.
    + destruct (run_ready _ _ _ _ _ _ _ _ _ Hrun) as [_ <-]. destruct (IH Hw). auto.
Qed.

(** C3: a node does not equivocate: over its life, whatever it receives at each
    height, replayed, repeated, forged or out of order, two votes that it asks
    its host to sign for one height, type and round are the same vote up to the
    extension, with its address and for a height it was started at, as long as
    no height is started twice. *)
Theorem node_no_equivocation (fuel : nat) (s : CState.t) (hs : list Height) (t : trace) (w w' : Vote)
  (Hlife : life fuel s hs t) (Honce : NoDup hs)
  (Hw : SignVote w ∈ effects t) (Hw' : SignVote w' ∈ effects t)
  (Htype : vote_type w = vote_type w') (Hheight : vote_height w = vote_height w')
  (Hround : vote_round w = vote_round w') :
  same_vote w w' /\ vote_height w ∈ hs /\ vote_address w = CState.address s.
Proof.
  split; [|by eapply life_vote].
  induction Hlife as [s h vs is_restart inputs t m Hrun|s h vs is_restart inputs t s' res hs t' Hrun Hlife IH].
  - by eapply height_votes_agree.
  - apply NoDup_cons in Honce as [Hh Honce]. unfold effects in Hw, Hw'. rewrite fmap_app, elem_of_app in Hw, Hw'.
    destruct Hw as [Hw|Hw], Hw' as [Hw'|Hw']; [by eapply height_votes_agree|..|by apply IH]; destruct Hh;
      destruct (life_vote _ _ _ _ _ Hlife ltac:(eassumption)) as [Hin _].
    + destruct (height_vote _ _ _ _ _ _ _ _ _ Hrun Hw) as [<- _]. by rewrite Hheight.
    + destruct (height_vote _ _ _ _ _ _ _ _ _ Hrun Hw') as [<- _]. by rewrite <- Hheight.
Qed.

(** a node decides one value at a height: two decisions it reports are for
    one round and one value, and each comes right after its host has found the
    certificate valid, against the validators of the height and the node's
    thresholds. *)
Theorem node_decides_once (fuel : nat) (s : CState.t) (h : Height) (vs : ValidatorSet)
  (is_restart : bool) (inputs : list ConsensusInput.t) (t : trace) (m : prog (CState.t * (Error + unit)))
  (c c' : CommitCertificate.t) (x x' : VoteExtensions.t)
  (Hrun : at_height_run fuel s h vs is_restart inputs t m)
  (Hc : Decide c x ∈ effects t) (Hc' : Decide c' x' ∈ effects t) :
  c.(CommitCertificate.round) = c'.(CommitCertificate.round) /\
  c.(CommitCertificate.value_id) = c'.(CommitCertificate.value_id) /\
  exists t1 t2 r,
    t = t1 ++ [(VerifyCommitCertificate c vs s.(CState.params).(Params.threshold_params),
                Resume_CertificateValidity (inr tt)); (Decide c x, r)] ++ t2.
Proof.
  assert (Hone : c.(CommitCertificate.round) = c'.(CommitCertificate.round) /\
    c.(CommitCertificate.value_id) = c'.(CommitCertificate.value_id)).
  { destruct (trace_order _ _ _ Hc Hc') as [(t1 & r & t2 & Ht & Hin)|[(t1 & r & t2 & Ht & Hin)|[= -> ->]]]; [..|done];
      destruct (run_allowed _ _ _ _ _ _ _ _ _ _ _ _ Hrun Ht) as (_ & _ & Hd); destruct (Hd _ _ Hin); by split. }
  destruct Hone as [? ?]. split_and!; [done|done|].
  apply trace_split in Hc as (t1 & r & t2 & Ht).
  destruct (run_allowed _ _ _ _ _ _ _ _ _ _ _ _ Hrun Ht) as (_ & [t0 ->] & _).
  exists t0, t2, r. by rewrite Ht, <- app_assoc.
Qed.

(** votes are logged before they are published: a vote that a node
    publishes, or republishes, has been handed to the write-ahead log before, or
    has come in a round certificate. *)
Theorem published_votes_logged (fuel : nat) (s : CState.t) (h : Height) (vs : ValidatorSet)
  (is_restart : bool) (inputs : list ConsensusInput.t) (t : trace) (m : prog (CState.t * (Error + unit)))
  (v : SignedVote) (t1 t2 : trace) (e : Effect) (r : Resume)
  (Hrun : at_height_run fuel s h vs is_restart inputs t m)
  (Ht : t = t1 ++ (e, r) :: t2)
  (He : e = PublishConsensusMsg (SignedConsensusMsg.Vote v) \/ e = RepublishVote v) :
  logged t1 v \/ certified inputs v.
Proof. apply (run_allowed _ _ _ _ _ _ _ _ _ _ _ _ Hrun) in Ht. by destruct He; subst. Qed.

(** C10: votes are verified before they count: at the end of any sequence of
    inputs, the signature of every vote in the vote keeper has been found valid
    by the host, except for the votes of round certificates. *)
Theorem counted_votes_verified (fuel : nat) (s : CState.t) (h : Height) (vs : ValidatorSet)
  (is_restart : bool) (inputs : list ConsensusInput.t) (t : trace) (s' : CState.t) (res : Error + unit)
  (v : SignedVote) (Hrun : at_height_run fuel s h vs is_restart inputs t (Complete (s', res)))
  (Hv : received s'.(CState.driver).(Driver.vote_keeper) v) :
  verified t v \/ certified inputs v.
Proof.
  destruct Hrun as [Hq Hin Hs Ha].
  destruct (wp_complete _ _ _ _ _ _ _ _ (height_safe fuel s h vs is_restart inputs Hq Hin) Hs Ha)
    as [[(events & outs & Hd) _ _ _ Hlog _] _].
  pose proof (run_received h vs _ _ _ _ _ _ (height_fresh s h vs) (dr_run _ _ _ _ _ _ _ _ _ _ Hd) Hv) as Hin'.
  destruct (dr_votes _ _ _ _ _ _ _ _ _ _ Hd v Hin') as [?|?]; [left; by apply Hlog|by right].
Qed.

End claims.
