(* ===== verification/NodeRuns.v ===== *)
(** * Runs of a node

    Vote extensions of the Starknet context, a host for it, the witnesses of the
    theorems about nodes, a run in which a height is started twice, and two in
    which a round certificate carries votes that nobody has signed. *)

From S2P Require Import Prelude Types Bytes Context Starknet StateMachine VoteKeeper ProposalKeeper Driver DriverFacts DriverVotes DriverDecisions DriverHeight Verify BTree BoundedQueue Coroutine ConsensusTypes FullProposal Consensus ConsensusLogic ConsensusFacts Node.

(** ** The Starknet context

    Votes have no extension (context/impls.rs). *)
Section starknet.
#[local] Existing Instance N_context.

#[local] Instance mock_extension : VoteExtension := {
  Extension := bytes;
  extension _ := None;
  take_extension v := (v, None);
  extend v _ := v;
  Address_leb := N.leb;
}.

Lemma mock_extension_laws : VoteExtensionLaws.
Proof. split; by intros. Qed.

Lemma mock_proposer_laws : ProposerLaws.
Proof.
  split. intros vs h r v H. cbn in *. unfold mock_select_proposer in H. inv_ret.
  match goal with He : set_get_by_index _ _ = Some _ |- _ => rename He into Hv end.
  unfold set_get_by_index in Hv. apply list_elem_of_lookup_2 in Hv. unfold set_get_by_address.
  destruct (List.find _ _) as [v'|] eqn:Hf; [by eexists|].
  apply list_elem_of_In in Hv. apply (List.find_none _ _ Hf) in Hv. by rewrite bool_decide_eq_true_2 in Hv.
Qed.

(** ** A host

    It holds the keys of the validators, each its own address here, and verifies
    as the signing crate does. *)
#[local] Existing Instance N_provider.

Definition certificate_answer (result : outcome (checked unit)) : Resume :=
  match result with Ret result => Resume_CertificateValidity result | Panic _ => Resume_Continue end.

Definition N_host (e : Effect) : Resume :=
  match e with
  | SignVote w => Resume_SignedVote (SignedMessage.new w (vote_address w : Signature))
  | SignProposal p => Resume_SignedProposal (SignedMessage.new p (proposal_address p : Signature))
  | VerifySignature msg key =>
      Resume_SignatureValidity (bool_decide (msg.(SignedMessage.signature) = (key : Signature)))
  | VerifyCommitCertificate c vs params => certificate_answer (verify_commit_certificate c vs params)
  | VerifyPolkaCertificate c vs params => certificate_answer (verify_polka_certificate c vs params)
  | VerifyRoundCertificate c vs params => certificate_answer (verify_round_certificate c vs params)
  | ExtendVote _ _ _ => Resume_VoteExtension None
  | VerifyVoteExtension _ _ _ _ _ => Resume_VoteExtensionValidity (inr tt)
  | _ => Resume_Continue
  end.

Lemma four_keys (a : Address) validator :
  get_by_address four_validators a = Some validator -> public_key validator = a.
Proof.
  intros Hv. assert (Hin : validator ∈ validators four_validators).
  { apply list_elem_of_In. by apply List.find_some in Hv as [? _]. }
  assert (Hkeys : Forall (fun v => sn_public_key v = sn_address v) (validators four_validators)) by (repeat constructor).
  rewrite Forall_forall in Hkeys. apply Hkeys in Hin. cbn. rewrite Hin.
  apply List.find_some in Hv as [_ Hv]. by apply bool_decide_eq_true in Hv.
Qed.

Lemma N_host_ok t e : from_host N_host t -> host four_validators t e (N_host e).
Proof.
  intros Ht. split; [by destruct e|]. destruct e; cbn; try done; try (by destruct (certificate_answer _)).
  intros v validator -> [w Hown] Hv ->. apply Ht in Hown. cbn in Hown. simplify_eq.
  apply bool_decide_eq_true. cbn in *. by apply four_keys in Hv.
Qed.

(** ** A node that decides

    Validator 2 receives the proposal of 7 in round 0 and the votes of 3 and 4. *)

Definition node_params (a : N) : Params.t :=
  Params.mk SnHeight.INITIAL four_validators (addr a) ThresholdParams.default ValuePayload.ProposalOnly true.
Definition new_node (a : N) : CState.t := CState.new (node_params a) 10.

Definition start : ConsensusInput.t := ConsensusInput.StartHeight SnHeight.INITIAL four_validators false.
Definition in_proposal (r : N) (v a : N) : ConsensusInput.t :=
  ConsensusInput.Proposal
    (SignedMessage.new (new_proposal SnHeight.INITIAL (Round.Some r) (val v) Round.Nil (addr a)) (a : Signature)).
Definition prevote_of (r : N) (v : NilOrVal.t ValueId) (a : N) : Vote :=
  new_prevote SnHeight.INITIAL (Round.Some r) v (addr a).
Definition precommit_of (r : N) (v : NilOrVal.t ValueId) (a : N) : Vote :=
  new_precommit SnHeight.INITIAL (Round.Some r) v (addr a).
Definition in_vote (w : Vote) : ConsensusInput.t :=
  ConsensusInput.Vote (SignedMessage.new w (vote_address w : Signature)).
Definition seven : NilOrVal.t ValueId := NilOrVal.Val (val_id 7).

Definition deciding_inputs : list ConsensusInput.t :=
  [in_proposal 0 7 1; in_vote (prevote_of 0 seven 3); in_vote (prevote_of 0 seven 4);
   in_vote (precommit_of 0 seven 3); in_vote (precommit_of 0 seven 4)].

(** A start of a height and the inputs after it. *)
Definition session (s : CState.t) (h : Height) (is_restart : bool) (inputs : list ConsensusInput.t)
    : trace * prog (CState.t * (Error + unit)) :=
  execute N_host (receive_all 10 (ConsensusInput.StartHeight h four_validators is_restart :: inputs) s).
Definition node_run (a : N) (inputs : list ConsensusInput.t)
    : trace * prog (CState.t * (Error + unit)) :=
  session (new_node a) SnHeight.INITIAL false inputs.

Lemma session_at_height s h is_restart inputs :
  queues_ok s -> forallb (fun i => negb (is_start i)) inputs = true ->
  at_height_run 10 s h four_validators is_restart inputs
    (session s h is_restart inputs).1 (session s h is_restart inputs).2.
Proof.
  intros Hq Hin. split; [done|done|apply execute_steps|].
  apply execute_answered; [intros t e; apply N_host_ok|]. by intros e r ?%not_elem_of_nil.
Qed.

Lemma node_run_at_height a inputs :
  forallb (fun i => negb (is_start i)) inputs = true ->
  at_height_run 10 (new_node a) SnHeight.INITIAL four_validators false inputs
    (node_run a inputs).1 (node_run a inputs).2.
Proof. intros Hin. apply session_at_height; [split; apply Forall_nil_2|done]. Qed.

(** The votes that were signed, the decisions, and the votes published. *)
Definition signed_votes (t : trace) : list Vote :=
  omap (fun er : Effect * Resume => match er.1 with SignVote w => Some w | _ => None end) t.
Definition decisions (t : trace) : list CommitCertificate.t :=
  omap (fun er : Effect * Resume => match er.1 with Decide c _ => Some c | _ => None end) t.

Lemma elem_of_signed_votes w t : w ∈ signed_votes t -> SignVote w ∈ effects t.
Proof.
  unfold signed_votes. rewrite list_elem_of_omap. intros ([[] r] & Hin & [=]); subst.
  unfold effects. apply list_elem_of_fmap. by exists (SignVote w, r).
Qed.

Lemma elem_of_decisions c t : c ∈ decisions t -> exists x, Decide c x ∈ effects t.
Proof.
  unfold decisions. rewrite list_elem_of_omap. intros ([[] r] & Hin & [=]); subst.
  match goal with H : (Decide _ ?x, _) ∈ _ |- _ => exists x; unfold effects; apply list_elem_of_fmap; by exists (Decide c x, r) end.
Qed.

Definition published (t : trace) : list SignedVote :=
  omap (fun er : Effect * Resume =>
    match er.1 with PublishConsensusMsg (SignedConsensusMsg.Vote v) => Some v | _ => None end) t.

Lemma elem_of_published v t : v ∈ published t -> PublishConsensusMsg (SignedConsensusMsg.Vote v) ∈ effects t.
Proof.
  unfold published. rewrite list_elem_of_omap. intros ([[| | | | |[]| | | | | | | | | | | | | | | | |] r] & Hin & [=]); subst.
  unfold effects. apply list_elem_of_fmap. by exists (PublishConsensusMsg (SignedConsensusMsg.Vote v), r).
Qed.

Definition final_state (m : prog (CState.t * (Error + unit))) : option CState.t :=
  match m with Complete (s, _) => Some s | _ => None end.

Lemma final_state_complete m s : final_state m = Some s -> exists res, m = Complete (s, res).
Proof. destruct m as [[s' res]| | |]; try done. intros [= <-]. by exists res. Qed.

Definition panic_message (m : prog (CState.t * (Error + unit))) : option string :=
  match m with Panicked msg => Some msg | _ => None end.

(** Two starts, one after the other. *)
Definition second_session (a : N) (inputs : list ConsensusInput.t) (h : Height) (is_restart : bool)
    (inputs' : list ConsensusInput.t) : trace * prog (CState.t * (Error + unit)) :=
  session (default (new_node a) (final_state (node_run a inputs).2)) h is_restart inputs'.
Definition two_starts (a : N) (inputs : list ConsensusInput.t) (h : Height) (is_restart : bool)
    (inputs' : list ConsensusInput.t) : trace :=
  (node_run a inputs).1 ++ (second_session a inputs h is_restart inputs').1.

Lemma two_starts_life a inputs h is_restart inputs' :
  forallb (fun i => negb (is_start i)) inputs = true -> forallb (fun i => negb (is_start i)) inputs' = true ->
  (fun _ => tt) <$> final_state (node_run a inputs).2 = Some tt ->
  life 10 (new_node a) [SnHeight.INITIAL; h] (two_starts a inputs h is_restart inputs').
Proof.
  intros Hin Hin' (s' & Hs & _)%fmap_Some. pose proof (node_run_at_height a inputs Hin) as Hrun.
  unfold two_starts, second_session. rewrite Hs. cbn [default id from_option].
  apply final_state_complete in Hs as [res Hm]. rewrite Hm in Hrun.
  destruct (run_ready (laws := N_context_laws) (ext_laws := mock_extension_laws)
    (proposer_laws := mock_proposer_laws) _ _ _ _ _ _ _ _ _ Hrun) as [Hq _].
  refine (life_next 10 _ _ _ _ _ _ _ _ [h] _ Hrun _). eapply (life_now 10 s' h). by apply session_at_height.
Qed.

(** The node decides at one height and is then started at the next. *)
Lemma node_no_equivocation_witness :
  same_vote (prevote_of 0 seven 2) (prevote_of 0 seven 2) /\
  vote_height (prevote_of 0 seven 2) ∈ [SnHeight.INITIAL; next_height] /\
  vote_address (prevote_of 0 seven 2) = addr 2.
Proof.
  refine (node_no_equivocation (laws := N_context_laws) (ext_laws := mock_extension_laws)
    (proposer_laws := mock_proposer_laws) 10 (new_node 2) [SnHeight.INITIAL; next_height]
    (two_starts 2 deciding_inputs next_height false deciding_inputs)
    (prevote_of 0 seven 2) (prevote_of 0 seven 2) _ _ _ _ eq_refl eq_refl eq_refl).
  - by apply two_starts_life; [..|vm_refl].
  - vm_decide.
  - apply elem_of_signed_votes. vm_decide.
  - apply elem_of_signed_votes. vm_decide.
Defined.

(** A height that is started twice: the node has lost its votes, and prevotes
    for another proposal of validator 1. *)
Lemma restarted_node_equivocates :
  let t := two_starts 2 [in_proposal 0 7 1] SnHeight.INITIAL true [in_proposal 0 8 1] in
  life 10 (new_node 2) [SnHeight.INITIAL; SnHeight.INITIAL] t /\
  [prevote_of 0 seven 2; prevote_of 0 (NilOrVal.Val (val_id 8)) 2] ⊆ signed_votes t.
Proof.
  cbv zeta. split; [|vm_decide]. by apply two_starts_life; [..|vm_refl].
Qed.

Definition commit_7 : CommitCertificate.t :=
  CommitCertificate.mk SnHeight.INITIAL (Round.Some 0) (val_id 7)
    ((fun a : N => CommitSignature.new (addr a) (a : Signature)) <$> [2; 3; 4]%N).

Lemma node_decides_once_witness :
  exists x t1 t2 r, (node_run 2 deciding_inputs).1 =
    t1 ++ [(VerifyCommitCertificate commit_7 four_validators
              (new_node 2).(CState.params).(Params.threshold_params),
            Resume_CertificateValidity (inr tt)); (Decide commit_7 x, r)] ++ t2.
Proof.
  assert (Hd : decisions (node_run 2 deciding_inputs).1 = [commit_7]) by vm_refl.
  destruct (elem_of_decisions commit_7 (node_run 2 deciding_inputs).1) as [x Hx];
    [rewrite Hd; apply list_elem_of_here|]. exists x.
  refine (proj2 (proj2 (node_decides_once (laws := N_context_laws) (ext_laws := mock_extension_laws)
    (proposer_laws := mock_proposer_laws) 10 (new_node 2) SnHeight.INITIAL four_validators false
    deciding_inputs (node_run 2 deciding_inputs).1 (node_run 2 deciding_inputs).2 commit_7 commit_7 x x
    _ Hx Hx))).
  by apply node_run_at_height.
Defined.

Definition own_precommit : SignedVote := SignedMessage.new (precommit_of 0 seven 2) (2%N : Signature).

Lemma published_votes_logged_witness :
  exists t1 r t2, (node_run 2 deciding_inputs).1 =
      t1 ++ (PublishConsensusMsg (SignedConsensusMsg.Vote own_precommit), r) :: t2 /\
    (logged t1 own_precommit \/ certified deciding_inputs own_precommit).
Proof.
  destruct (trace_split (PublishConsensusMsg (SignedConsensusMsg.Vote own_precommit))
    (node_run 2 deciding_inputs).1) as (t1 & r & t2 & Ht); [apply elem_of_published; vm_decide|].
  exists t1, r, t2. split; [exact Ht|].
  refine (published_votes_logged (laws := N_context_laws) (ext_laws := mock_extension_laws)
    (proposer_laws := mock_proposer_laws) 10 (new_node 2) SnHeight.INITIAL four_validators false
    deciding_inputs (node_run 2 deciding_inputs).1 (node_run 2 deciding_inputs).2 own_precommit t1 t2
    _ r _ Ht (or_introl eq_refl)).
  by apply node_run_at_height.
Defined.

Lemma counted_votes_verified_witness :
  verified (node_run 2 deciding_inputs).1 own_precommit \/ certified deciding_inputs own_precommit.
Proof.
  pose proof (node_run_at_height 2 deciding_inputs eq_refl) as Hrun.
  assert (Hc : (fun s => VoteKeeper.has_vote s.(CState.driver).(Driver.vote_keeper) own_precommit) <$>
    final_state (node_run 2 deciding_inputs).2 = Some true) by vm_refl.
  destruct (final_state (node_run 2 deciding_inputs).2) as [s'|] eqn:Hs; [|done].
  apply final_state_complete in Hs as [res Hm]. rewrite Hm in Hrun.
  refine (counted_votes_verified (laws := N_context_laws) (ext_laws := mock_extension_laws)
    (proposer_laws := mock_proposer_laws) 10 (new_node 2) SnHeight.INITIAL four_validators false
    deciding_inputs (node_run 2 deciding_inputs).1 s' res own_precommit Hrun _).
  apply has_vote_received. exact (f_equal (default false) Hc).
Defined.

(** ** Forged votes in a round certificate

    Validator 3 is in round 0. Validator 2, which proposes 7 in round 1, sends a
    certificate that the round may be skipped to: its own vote and the nil vote
    of validator 4, both of round 1, are enough; the other votes it has made
    up. *)

Definition vote_signature (w : Vote) (signature : N) : RoundSignature.t :=
  RoundSignature.new (vote_type w) (vote_value w) (vote_address w) (signature : Signature).
Definition skip_certificate (sigs : list RoundSignature.t) : ConsensusInput.t :=
  ConsensusInput.RoundCertificate
    (RoundCertificate.mk SnHeight.INITIAL (Round.Some 1) RoundCertificateType.Skip sigs).

Definition forged_prevote : list ConsensusInput.t :=
  [in_proposal 1 7 2;
   skip_certificate [vote_signature (prevote_of 1 NilOrVal.Nil 4) 4;
                     vote_signature (prevote_of 1 seven 2) 2;
                     vote_signature (prevote_of 1 seven 1) 0]].

Definition forged_precommits : list ConsensusInput.t :=
  [in_proposal 1 7 2;
   skip_certificate [vote_signature (prevote_of 1 NilOrVal.Nil 4) 4;
                     vote_signature (precommit_of 1 seven 2) 2;
                     vote_signature (precommit_of 1 seven 1) 0;
                     vote_signature (precommit_of 1 seven 3) 0]].

(** Who has validly signed a prevote for 7 in round 1, of those counted. *)
Definition genuine_prevotes (s : CState.t) : list Address :=
  match VoteKeeper.get_round s.(CState.driver).(Driver.vote_keeper) (Round.Some 1) with
  | Some pr =>
      sv_address <$> filter (fun v : SignedVote => sv_type v = VoteType.Prevote /\ sv_value v = seven /\
        v.(SignedMessage.signature) = (sv_address v : Signature)) pr.(PerRound.received_votes)
  | None => []
  end.

(** A forged vote counts: one validator makes node 3 precommit 7 in round 1,
    with a round certificate in which the vote of validator 1 is not signed by
    it. The certificate verifies, all of its votes are counted, and the node
    sees a quorum of prevotes for 7, of which only two are genuine. *)
Theorem forged_prevote_locks :
  let run := node_run 3 forged_prevote in
  precommit_of 1 seven 3 ∈ signed_votes run.1 /\
  genuine_prevotes <$> final_state run.2 = Some [addr 2; addr 3].
Proof. split; [vm_decide|vm_refl]. Qed.

(** A forged vote crashes the node: with forged precommits for the proposal
    of round 1 in a round certificate that verifies, node 3 decides, finds that
    the certificate made from these precommits does not verify, and panics. *)
Theorem forged_precommits_panic :
  panic_message (node_run 3 forged_precommits).2 = Some "Commit certificate is not valid"%string.
Proof. vm_refl. Qed.

End starknet.
