(* ===== verification/Wal.v ===== *)
(** * The write-ahead log

    The crate [wal]: the on-disk format (log.rs), its integers (ext.rs) and
    version (version.rs), over a file (storage.rs, file.rs). The file is its
    contents, a cursor and the space it may take; each operation that changes
    the contents is also recorded, so that the contents a crash may leave can be
    told. The checksum ([crc32fast]) and the compression ([lz4_flex], behind a
    cargo feature) come from third-party crates and are parameters. The path
    and the advisory lock of the file are not modelled. *)

From S2P Require Import Prelude Bytes.

(** ** Files (storage.rs, file.rs) *)

Module IoError.
Inductive t : Type := UnexpectedEof | InvalidData | InvalidInput | NotFound | StorageFull.
#[global] Instance t_eq_dec : EqDecision t.
Proof. solve_decision. Defined.
End IoError.

(** What reaches the disk. *)
Inductive disk_op : Type :=
  | DiskWrite (pos : N) (data : bytes)
  | DiskTruncate (n : N).

Record File : Type := mk_file {
  contents : bytes;
  cursor : N;
  limit : N;
  history : list disk_op;
}.

(** The file as [OpenOptions::open] returns it. *)
Definition opened (contents : bytes) (limit : N) : File := mk_file contents 0 limit [].

Definition zeros (n : N) : bytes := replicate (N.to_nat n) x00.

(** [set_len]: cut, or fill with zeros. *)
Definition resize (n : N) (l : bytes) : bytes := takeN n l ++ zeros (n - size l).

(** A write at a position: a gap before it is filled with zeros. *)
Definition overwrite (pos : N) (data l : bytes) : bytes :=
  match data with
  | [] => l
  | _ => resize pos l ++ data ++ dropN (pos + size data) l
  end.

Definition apply_op (l : bytes) (op : disk_op) : bytes :=
  match op with
  | DiskWrite pos data => overwrite pos data l
  | DiskTruncate n => resize n l
  end.

(** Computations on a file that may fail: [io::Result] with the file's new
    state. *)
Definition IO (A : Type) : Type := File -> (IoError.t + A) * File.

#[global] Instance IO_ret : MRet IO := fun A a f => (inr a, f).
#[global] Instance IO_bind : MBind IO := fun A B k m f =>
  match m f with (inr a, f') => k a f' | (inl e, f') => (inl e, f') end.
Definition throw {A} (e : IoError.t) : IO A := fun f => (inl e, f).
Definition map_err {A} (g : IoError.t -> IoError.t) (m : IO A) : IO A := fun f =>
  match m f with (inl e, f') => (inl (g e), f') | r => r end.

Definition set_cursor (f : File) (n : N) : File := mk_file f.(contents) n f.(limit) f.(history).
Definition step_disk (f : File) (op : disk_op) (n : N) : File :=
  mk_file (apply_op f.(contents) op) n f.(limit) (f.(history) ++ [op]).

Definition read_exact (n : N) : IO bytes := fun f =>
  let rest := dropN f.(cursor) f.(contents) in
  if (n <=? size rest)%N then (inr (takeN n rest), set_cursor f (f.(cursor) + n))
  else (inl IoError.UnexpectedEof, set_cursor f (N.max f.(cursor) (size f.(contents)))).

(** [write_all] at the cursor: what does not fit is not written. *)
Definition write_all (data : bytes) : IO unit := fun f =>
  let fits := (f.(limit) - f.(cursor))%N in
  let written := takeN fits data in
  let f' := step_disk f (DiskWrite f.(cursor) written) (f.(cursor) + size written) in
  if (size data <=? fits)%N then (inr tt, f') else (inl IoError.StorageFull, f').

Inductive SeekFrom : Type := Start (n : N) | End_ (n : Z) | Current (n : Z).

Definition seek (from : SeekFrom) : IO N := fun f =>
  let target := match from with
                | Start n => Z.of_N n
                | End_ n => Z.of_N (size f.(contents)) + n
                | Current n => Z.of_N f.(cursor) + n
                end%Z in
  if (target <? 0)%Z then (inl IoError.InvalidInput, f)
  else (inr (Z.to_N target), set_cursor f (Z.to_N target)).

Definition stream_position : IO N := fun f => (inr f.(cursor), f).
Definition size_bytes : IO N := fun f => (inr (size f.(contents)), f).
Definition truncate_to (n : N) : IO unit := fun f =>
  (inr tt, step_disk f (DiskTruncate n) f.(cursor)).
Definition sync_all : IO unit := mret tt.

(** ** Integers (ext.rs) *)

Definition read_u8 : IO N := buf ← read_exact 1; mret (from_be_bytes buf).
Definition write_u8 (value : N) : IO unit := write_all (to_be_bytes 1 value).
Definition read_u32 : IO N := buf ← read_exact 4; mret (from_be_bytes buf).
Definition write_u32 (value : N) : IO unit := write_all (to_be_bytes 4 value).
Definition read_u64 : IO N := buf ← read_exact 8; mret (from_be_bytes buf).
Definition write_u64 (value : N) : IO unit := write_all (to_be_bytes 8 value).

(** ** Version (version.rs) *)

Module Version.
Inductive t : Type := V1.
Definition as_u32 (v : t) : N := match v with V1 => 1 end.
Definition try_from (value : N) : option t := if (value =? 1)%N then Some V1 else None.
End Version.

(** ** The log (log.rs) *)

Definition MAX_ENTRY_SIZE : N := 1024 * 1024 * 1024.
Definition VERSION_SIZE : N := 4.
Definition SEQUENCE_SIZE : N := 8.
Definition HEADER_SIZE : N := VERSION_SIZE + SEQUENCE_SIZE.
Definition VERSION_OFFSET : N := 0.
Definition SEQUENCE_OFFSET : N := VERSION_OFFSET + VERSION_SIZE.
Definition FIRST_ENTRY_OFFSET : N := HEADER_SIZE.
Definition ENTRY_LENGTH_SIZE : N := 8.
Definition ENTRY_CRC_SIZE : N := 4.
Definition ENTRY_COMPRESSION_FLAG_SIZE : N := 1.
Definition ENTRY_HEADER_SIZE : N := ENTRY_COMPRESSION_FLAG_SIZE + ENTRY_LENGTH_SIZE + ENTRY_CRC_SIZE.
Definition I64_MAX : N := 9223372036854775807.

(** The third-party code: the checksum, and the compression when its feature
    is on. *)
Record Lz4 : Type := mk_lz4 { compress : bytes -> bytes; decompress : bytes -> option bytes }.

Class WalDeps : Type := { compute_crc : bytes -> N; lz4 : option Lz4 }.

Module WriteEntry.
Inductive t : Type :=
  | Raw (data : bytes)
  | Compressed (compressed uncompressed : bytes).
#[global] Instance t_eq_dec : EqDecision t.
Proof. solve_decision. Defined.

Definition data (self : t) : bytes :=
  match self with Raw data => data | Compressed compressed _ => compressed end.
Definition len (self : t) : N :=
  match self with Raw data => size data | Compressed compressed _ => size compressed end.
Definition uncompressed_crc `{WalDeps} (self : t) : N :=
  match self with Raw data => compute_crc data | Compressed _ uncompressed => compute_crc uncompressed end.
Definition is_compressed (self : t) : bool :=
  match self with Raw _ => false | Compressed _ _ => true end.
End WriteEntry.

Module Log.
Record t : Type := mk {
  storage : File;
  version : Version.t;
  sequence : N;
  len : N;
}.

Definition set_storage (self : t) (f : File) : t := mk f self.(version) self.(sequence) self.(len).

(** A computation on the log's storage. *)
Definition with_storage {A} (m : IO A) (self : t) : (IoError.t + A) * t :=
  let '(r, f) := m self.(storage) in (r, set_storage self f).

Section log.
Context {deps : WalDeps}.

(** The [while] loop of [open_with]; every pass moves the position on, so the
    fuel is not the reason it stops when there is as much as the file is long. *)
Fixpoint scan (fuel : nat) (total pos len : N) : IO (N * N) :=
  match fuel with
  | O => mret (pos, len)
  | S fuel =>
      if (ENTRY_COMPRESSION_FLAG_SIZE + ENTRY_LENGTH_SIZE <=? total - pos)%N
      then
        _ ← read_u8;
        data_length ← read_u64;
        match checked_add data_length ENTRY_HEADER_SIZE with
        | None => mret (pos, len)
        | Some full_entry_size =>
            if (total - pos <? full_entry_size)%N then mret (pos, len)
            else
              match checked_add data_length ENTRY_CRC_SIZE with
              | None => mret (pos, len)
              | Some payload_size =>
                  if (payload_size <=? I64_MAX)%N
                  then
                    pos ← seek (Current (Z.of_N payload_size));
                    scan fuel total pos (len + 1)
                  else throw IoError.InvalidData
              end
        end
      else mret (pos, len)
  end.

Definition open_with (storage : File) : (IoError.t + t) * File :=
  let '(r, f) :=
    (total ← size_bytes;
     if (0 <? total)%N
     then
       v ← read_u32;
       match Version.try_from v with
       | None => throw IoError.InvalidData
       | Some version =>
           sequence ← map_err (fun _ => IoError.UnexpectedEof) read_u64;
           '(pos, len) ← scan (N.to_nat total) total FIRST_ENTRY_OFFSET 0;
           _ ← truncate_to pos;
           _ ← sync_all;
           mret (version, sequence, len)
       end
     else
       let version := Version.V1 in
       _ ← write_u32 (Version.as_u32 version);
       _ ← write_u64 0;
       _ ← truncate_to HEADER_SIZE;
       _ ← sync_all;
       mret (version, 0%N, 0%N)) storage in
  (match r with
   | inl e => inl e
   | inr (version, sequence, len) => inr (mk f version sequence len)
   end, f).

Definition write_entry (self : t) (entry : WriteEntry.t) : (IoError.t + unit) * t :=
  match with_storage (seek (End_ 0)) self with
  | (inl e, self) => (inl e, self)
  | (inr pos, self) =>
      let '(result, self) :=
        with_storage
          (_ ← write_u8 (if WriteEntry.is_compressed entry then 1 else 0);
           _ ← write_u64 (WriteEntry.len entry);
           _ ← write_u32 (WriteEntry.uncompressed_crc entry);
           write_all (WriteEntry.data entry)) self in
      match result with
      | inr _ => (inr tt, mk self.(storage) self.(version) self.(sequence) (self.(len) + 1))
      | inl e =>
          match with_storage (truncate_to pos) self with
          | (inl e', self) => (inl e', self)
          | (inr _, self) => (inl e, self)
          end
      end
  end.

Definition write_raw (self : t) (data : bytes) : (IoError.t + unit) * t :=
  write_entry self (WriteEntry.Raw data).

(** Only there with the [compression] feature. *)
Definition write_compressed (codec : Lz4) (self : t) (data : bytes) : (IoError.t + unit) * t :=
  let compressed := codec.(compress) data in
  write_entry self
    (if (size compressed <? size data)%N then WriteEntry.Compressed compressed data
     else WriteEntry.Raw data).

(** The [force-compression] feature implies [compression]. *)
Definition append (force_compression : bool) (self : t) (data : bytes) : (IoError.t + unit) * t :=
  match lz4, force_compression with
  | Some codec, true => write_compressed codec self data
  | _, _ => write_raw self data
  end.

(** [LogEntry::read_to_next]: the entry's data, and whether more follows. *)
Definition read_to_next : IO (bytes * bool) :=
  flag ← read_u8;
  length ← read_u64;
  expected_crc ← read_u32;
  if (MAX_ENTRY_SIZE <? length)%N then throw IoError.InvalidData
  else
    data ← read_exact length;
    data ← (if (flag =? 0)%N then mret data
            else match lz4 with
                 | None => throw IoError.InvalidData
                 | Some codec =>
                     match codec.(decompress) data with
                     | Some data => mret data
                     | None => throw IoError.InvalidData
                     end
                 end);
    if (expected_crc =? compute_crc data)%N
    then
      pos ← stream_position;
      total ← size_bytes;
      mret (data, (pos <? total)%N)
    else throw IoError.InvalidData.

(** Whether there is a first entry; the storage is then at it. *)
Definition first_entry (self : t) : (IoError.t + bool) * t :=
  with_storage
    (total ← size_bytes;
     if (total =? 0)%N then throw IoError.NotFound
     else if (self.(len) =? 0)%N then mret false
     else _ ← seek (Start FIRST_ENTRY_OFFSET); mret true) self.

(** What [LogIter::next] returns until it returns [None]: after an error
    there is no next entry. *)
Fixpoint iter_from (fuel : nat) (f : File) : list (IoError.t + bytes) * File :=
  match fuel with
  | O => ([], f)
  | S fuel =>
      match read_to_next f with
      | (inr (buf, true), f) => let '(rest, f) := iter_from fuel f in (inr buf :: rest, f)
      | (inr (buf, false), f) => ([inr buf], f)
      | (inl e, f) => ([inl e], f)
      end
  end.

(** [iter] with all its items. *)
Definition iter (self : t) : (IoError.t + list (IoError.t + bytes)) * t :=
  match first_entry self with
  | (inl e, self) => (inl e, self)
  | (inr false, self) => (inr [], self)
  | (inr true, self) =>
      let '(items, f) := iter_from (length self.(storage).(contents)) self.(storage) in
      (inr items, set_storage self f)
  end.

Definition restart (self : t) (sequence : N) : (IoError.t + unit) * t :=
  with_storage
    (_ ← seek (Start SEQUENCE_OFFSET);
     _ ← write_u64 sequence;
     _ ← truncate_to HEADER_SIZE;
     sync_all) (mk self.(storage) self.(version) sequence 0).

Definition flush (self : t) : (IoError.t + unit) * t := with_storage sync_all self.

Definition is_empty (self : t) : bool := (self.(len) =? 0)%N.

End log.
End Log.
