(* ===== verification/WalFacts.v ===== *)
(** * The write-ahead log: recovery and atomicity

    The abstract log is a sequence number and a list of entries; [image] is its
    encoding on disk. The operations of [Wal] implement the obvious operations
    on it, also when the file ends in a partly written entry, when the disk is
    full, and when a crash cuts the writes of an append, a restart or an opening
    short. The crash model is that the writes of an operation reach the disk in
    order and that the last of them may be cut at any byte. *)

From S2P Require Import Prelude Bytes Wal.

(** ** Reading and writing at the cursor *)

(** A file whose cursor is between [pre] and [post]. *)
Definition at_file (pre post : bytes) (lim : N) (h : list disk_op) : File :=
  mk_file (pre ++ post) (size pre) lim h.

Lemma at_file_move pre d post lim h :
  mk_file (pre ++ d ++ post) (size (pre ++ d)) lim h = at_file (pre ++ d) post lim h.
Proof. unfold at_file. by rewrite <- app_assoc. Qed.

Lemma bind_inr {A B} (m : IO A) (k : A -> IO B) f a f' :
  m f = (inr a, f') -> (m ≫= k) f = k a f'.
Proof. intros H. unfold mbind, IO_bind. by rewrite H. Qed.

Lemma read_exact_at pre d post lim h n :
  n = size d ->
  read_exact n (at_file pre (d ++ post) lim h) = (inr d, at_file (pre ++ d) post lim h).
Proof.
  intros ->. unfold read_exact, set_cursor. cbn [at_file contents cursor limit history].
  rewrite dropN_app, size_app. destruct (N.leb_spec (size d) (size d + size post)); [|lia].
  rewrite takeN_app. unfold at_file. rewrite <- app_assoc, size_app. done.
Qed.

Section integers.
Context (pre post : bytes) (lim : N) (h : list disk_op).

Lemma read_int_at n w v :
  N.of_nat n = w -> (v < 256 ^ N.of_nat n)%N ->
  (buf ← read_exact w; mret (from_be_bytes buf)) (at_file pre (to_be_bytes n v ++ post) lim h) =
  (inr v, at_file (pre ++ to_be_bytes n v) post lim h).
Proof.
  intros <- Hv. rewrite (bind_inr _ _ _ (to_be_bytes n v) (at_file (pre ++ to_be_bytes n v) post lim h)).
  - by rewrite from_to_be_bytes.
  - apply read_exact_at. by rewrite size_to_be_bytes.
Qed.

Lemma read_u8_at v : (v < 256)%N ->
  read_u8 (at_file pre (to_be_bytes 1 v ++ post) lim h) =
  (inr v, at_file (pre ++ to_be_bytes 1 v) post lim h).
Proof. intros. by apply read_int_at. Qed.

Lemma read_u32_at v : (v < 2 ^ 32)%N ->
  read_u32 (at_file pre (to_be_bytes 4 v ++ post) lim h) =
  (inr v, at_file (pre ++ to_be_bytes 4 v) post lim h).
Proof. intros. by apply read_int_at. Qed.

Lemma read_u64_at v : (v < 2 ^ 64)%N ->
  read_u64 (at_file pre (to_be_bytes 8 v ++ post) lim h) =
  (inr v, at_file (pre ++ to_be_bytes 8 v) post lim h).
Proof. intros. by apply read_int_at. Qed.

End integers.

Lemma resize_prefix l k : resize (size l) (l ++ k) = l.
Proof.
  unfold resize. rewrite takeN_app, size_app.
  replace (size l - (size l + size k))%N with 0%N by lia. by rewrite app_nil_r.
Qed.

Lemma resize_size l : resize (size l) l = l.
Proof. rewrite <- (app_nil_r l) at 2. apply resize_prefix. Qed.

Lemma overwrite_end data l : overwrite (size l) data l = l ++ data.
Proof.
  destruct data as [|b data]; [by rewrite app_nil_r|]. unfold overwrite.
  rewrite resize_size. unfold dropN. rewrite drop_ge by (unfold size; lia). by rewrite app_nil_r.
Qed.

(** ** Crashes *)

(** The contents a crash may leave while the operations [ops] go to a disk
    that holds [l]. *)
Inductive crash_image : bytes -> list disk_op -> bytes -> Prop :=
  | crash_here l ops : crash_image l ops l
  | crash_torn l pos data ops k :
      crash_image l (DiskWrite pos data :: ops) (overwrite pos (takeN k data) l)
  | crash_later l op ops img :
      crash_image (apply_op l op) ops img -> crash_image l (op :: ops) img.

Lemma crash_image_nil l img : crash_image l [] img -> img = l.
Proof. by inversion 1. Qed.

Lemma crash_image_app l ops1 ops2 img :
  crash_image l (ops1 ++ ops2) img ->
  crash_image l ops1 img \/ crash_image (foldl apply_op l ops1) ops2 img.
Proof.
  revert l. induction ops1 as [|op ops1 IH]; intros l Himg; cbn in *; [by right|].
  inversion Himg as [|? ? ? ? k|? ? ? ? Hlater]; subst.
  - left. constructor.
  - left. constructor.
  - destruct (IH _ Hlater) as [?|?]; [left|by right]. by constructor.
Qed.

(** A list of writes at the cursor, as the closure of [write_entry] makes. *)
Fixpoint write_chunks (chunks : list bytes) : IO unit :=
  match chunks with
  | [] => mret tt
  | data :: chunks => _ ← write_all data; write_chunks chunks
  end.

Lemma prefix_takeN n (l : bytes) : takeN n l `prefix_of` l.
Proof. exists (dropN n l). by rewrite take_drop_N. Qed.

(** What writing chunks at the end of a file does: it appends them, or fails
    having appended a part of them; and a crash leaves a part of them. *)
Lemma write_chunks_spec chunks l lim h :
  exists p ops, p `prefix_of` concat chunks /\
    foldl apply_op l ops = l ++ p /\
    (forall img, crash_image l ops img -> exists p', p' `prefix_of` concat chunks /\ img = l ++ p') /\
    let f := mk_file (l ++ p) (size (l ++ p)) lim (h ++ ops) in
    (write_chunks chunks (mk_file l (size l) lim h) = (inr tt, f) /\ p = concat chunks \/
     write_chunks chunks (mk_file l (size l) lim h) = (inl IoError.StorageFull, f) /\
     (lim < size l + size (concat chunks))%N).
Proof.
  revert l h. induction chunks as [|data chunks IH]; intros l h.
  { exists [], []. rewrite !app_nil_r. split_and!; try done.
    - intros img ->%crash_image_nil. exists []. by rewrite app_nil_r.
    - cbn. rewrite ?app_nil_r. by left. }
  set (fits := (lim - size l)%N). set (w := takeN fits data).
  assert (Hw : write_all data (mk_file l (size l) lim h) =
    ((if (size data <=? fits)%N then inr tt else inl IoError.StorageFull),
     mk_file (l ++ w) (size (l ++ w)) lim (h ++ [DiskWrite (size l) w]))).
  { unfold write_all, step_disk. cbn [contents cursor limit history apply_op].
    fold fits. fold w. rewrite overwrite_end, size_app. by destruct (N.leb_spec (size data) fits). }
  assert (Hcrash : forall img ops, crash_image l (DiskWrite (size l) w :: ops) img ->
    (exists p', p' `prefix_of` data /\ img = l ++ p') \/ crash_image (l ++ w) ops img).
  { intros img ops Himg. inversion Himg as [|? ? ? ? k|? ? ? ? Hlater]; subst.
    - left. exists []. split; [apply prefix_nil|by rewrite app_nil_r].
    - left. exists (takeN k w). rewrite overwrite_end. split; [|done].
      etrans; [apply prefix_takeN|apply prefix_takeN].
    - right. cbn in Hlater. by rewrite overwrite_end in Hlater. }
  destruct (N.leb_spec (size data) fits) as [Hfit|Hfull].
  - assert (Hwd : w = data) by (by apply takeN_all). rewrite Hwd in *. clear w Hwd.
    destruct (IH (l ++ data) (h ++ [DiskWrite (size l) data])) as (p & ops & Hp & Hfold & Himg & Hres).
    exists (data ++ p), (DiskWrite (size l) data :: ops). rewrite <- !app_assoc in *. cbn [app] in *.
    split_and!.
    + by apply prefix_app.
    + cbn [foldl apply_op]. rewrite overwrite_end. done.
    + intros img [(p' & Hp' & ->)|(p' & Hp' & ->)%Himg]%Hcrash.
      * exists p'. split; [|done]. etrans; [done|]. by apply prefix_app_r.
      * exists (data ++ p'). rewrite app_assoc. split; [by apply prefix_app|done].
    + cbn [write_chunks]. rewrite (bind_inr _ _ _ _ _ Hw).
      destruct Hres as [[Hok ->]|[Hfail Hlt]]; [by left|right]. split; [done|].
      cbn. rewrite !size_app in *. lia.
  - exists w, [DiskWrite (size l) w]. split_and!.
    + cbn. etrans; [apply prefix_takeN|]. by apply prefix_app_r.
    + cbn. apply overwrite_end.
    + intros img [(p' & Hp' & ->)| ->%crash_image_nil]%Hcrash.
      * exists p'. split; [|done]. cbn. etrans; [done|]. by apply prefix_app_r.
      * exists w. split; [|done]. cbn. etrans; [apply prefix_takeN|]. by apply prefix_app_r.
    + right. cbn [write_chunks]. unfold mbind, IO_bind. rewrite Hw. split; [done|].
      cbn. rewrite size_app. unfold fits in Hfull. lia.
Qed.

(** ** The format *)

(** What the log relies on of the third-party code: a checksum has 32 bits,
    and decompressing what was compressed gives it back. *)
Class WalDepsLaws (deps : WalDeps) : Prop := {
  compute_crc_lt (data : bytes) : (compute_crc data < 2 ^ 32)%N;
  decompress_compress codec data :
    lz4 = Some codec -> codec.(decompress) (codec.(compress) data) = Some data;
}.

(** The data an entry stands for. *)
Definition stored (e : WriteEntry.t) : bytes :=
  match e with WriteEntry.Raw data => data | WriteEntry.Compressed _ data => data end.

Section format.
Context {deps : WalDeps} {laws : WalDepsLaws deps}.

Definition entry_chunks (e : WriteEntry.t) : list bytes :=
  [to_be_bytes 1 (if WriteEntry.is_compressed e then 1 else 0);
   to_be_bytes 8 (WriteEntry.len e);
   to_be_bytes 4 (WriteEntry.uncompressed_crc e);
   WriteEntry.data e].

Definition entry_bytes (e : WriteEntry.t) : bytes := concat (entry_chunks e).

Definition header (seq : N) : bytes := to_be_bytes 4 1 ++ to_be_bytes 8 seq.

Definition image (seq : N) (es : list WriteEntry.t) : bytes :=
  header seq ++ concat (entry_bytes <$> es).

#[local] Arguments header : simpl never.
#[local] Arguments image : simpl never.
#[local] Arguments entry_bytes : simpl never.
#[local] Arguments to_be_bytes : simpl never.

(** The entries the log can read back. *)
Definition readable (e : WriteEntry.t) : Prop :=
  (WriteEntry.len e <= MAX_ENTRY_SIZE)%N /\
  match e with
  | WriteEntry.Raw _ => True
  | WriteEntry.Compressed compressed data =>
      exists codec, lz4 = Some codec /\ codec.(decompress) compressed = Some data
  end.

(** The end of a file that is not an entry: it is too short for the fixed part
    of one, or for the length that part announces. *)
Definition torn (t : bytes) : Prop :=
  (size t < 9)%N \/ (size t < 13 + from_be_bytes (takeN 8 (dropN 1 t)))%N.

Lemma size_entry_bytes e : size (entry_bytes e) = (13 + WriteEntry.len e)%N.
Proof.
  unfold entry_bytes, entry_chunks. cbn [concat]. rewrite !size_app, !size_to_be_bytes.
  destruct e; cbn; unfold size; cbn; lia.
Qed.

Lemma size_header seq : size (header seq) = 12%N.
Proof. unfold header. by rewrite size_app, !size_to_be_bytes. Qed.

Lemma crc_lt e : (WriteEntry.uncompressed_crc e < 2 ^ 32)%N.
Proof. destruct e; apply compute_crc_lt. Qed.

Lemma readable_len e : readable e -> (WriteEntry.len e <= MAX_ENTRY_SIZE)%N.
Proof. by intros [? _]. Qed.

Lemma readable_stored_raw data : (size data <= MAX_ENTRY_SIZE)%N -> readable (WriteEntry.Raw data).
Proof. by split. Qed.

Lemma takeN_app_le n (l k : bytes) : (n <= size l)%N -> takeN n (l ++ k) = takeN n l.
Proof. unfold takeN, size. intros. apply take_app_le. lia. Qed.

Lemma dropN_app_le n (l k : bytes) : (n <= size l)%N -> dropN n (l ++ k) = dropN n l ++ k.
Proof. unfold dropN, size. intros. apply drop_app_le. lia. Qed.

Lemma entry_bytes_length_field e :
  takeN 8 (dropN 1 (entry_bytes e)) = to_be_bytes 8 (WriteEntry.len e).
Proof.
  unfold entry_bytes, entry_chunks. cbn [concat].
  rewrite <- (size_to_be_bytes 1 (if WriteEntry.is_compressed e then 1 else 0)) at 1.
  rewrite dropN_app. rewrite <- (size_to_be_bytes 8 (WriteEntry.len e)) at 1. apply takeN_app.
Qed.

(** A part of an entry is torn. *)
Lemma part_of_entry_torn e p :
  (WriteEntry.len e < 2 ^ 64)%N -> p `prefix_of` entry_bytes e ->
  torn p \/ p = entry_bytes e.
Proof.
  intros Hlen [k Hk]. destruct (decide (size p < 9)%N) as [|Hp]; [by left; left|].
  pose proof (entry_bytes_length_field e) as Hf. pose proof (size_entry_bytes e) as Hs.
  rewrite Hk in Hf, Hs |- *.
  rewrite dropN_app_le, takeN_app_le in Hf by (rewrite ?size_dropN; lia).
  destruct k as [|b k]; [right; by rewrite app_nil_r|left; right].
  rewrite Hf, from_to_be_bytes by exact Hlen. rewrite size_app in Hs.
  assert (0 < size (b :: k))%N by (unfold size; cbn; lia). lia.
Qed.

Lemma torn_nil : torn [].
Proof. left. done. Qed.

(** ** Recovery *)

Lemma checked_add_small a b : (a + b < 2 ^ 64)%N -> checked_add a b = Some (a + b)%N.
Proof. intros H. apply checked_add_Some. unfold U64_MAX. lia. Qed.

Lemma app_take_drop_9 (t : bytes) :
  (9 <= size t)%N ->
  exists a b r, t = a ++ b ++ r /\ size a = 1%N /\ size b = 8%N /\ b = takeN 8 (dropN 1 t).
Proof.
  intros H. exists (takeN 1 t), (takeN 8 (dropN 1 t)), (dropN 8 (dropN 1 t)).
  rewrite !take_drop_N, !size_takeN, !size_dropN. split_and!; try done; lia.
Qed.

Lemma scan_torn fuel pre t len lim h total :
  torn t -> total = size (pre ++ t) ->
  exists c, Log.scan fuel total (size pre) len (at_file pre t lim h) =
            (inr (size pre, len), mk_file (pre ++ t) c lim h).
Proof.
  intros Ht ->. destruct fuel as [|fuel]; [by eexists|]. cbn [Log.scan].
  replace (size (pre ++ t) - size pre)%N with (size t) by (rewrite size_app; lia).
  destruct (N.leb_spec (ENTRY_COMPRESSION_FLAG_SIZE + ENTRY_LENGTH_SIZE) (size t)) as [H9|]; [|by eexists].
  destruct (app_take_drop_9 t) as (a & b & r & Hsplit & Ha & Hb & Hfield); [exact H9|].
  assert (Hlong : (size t < 13 + from_be_bytes b)%N).
  { destruct Ht as [Ht|Ht]; [change (9 <= size t)%N in H9; lia|]. by rewrite Hfield. }
  replace (at_file pre t lim h) with (at_file pre (a ++ b ++ r) lim h) by (by rewrite <- Hsplit).
  rewrite (bind_inr _ _ _ (from_be_bytes a) (at_file (pre ++ a) (b ++ r) lim h)).
  2:{ unfold read_u8. by rewrite (bind_inr _ _ _ _ _ (read_exact_at _ _ _ _ _ 1 (eq_sym Ha))). }
  rewrite (bind_inr _ _ _ (from_be_bytes b) (at_file ((pre ++ a) ++ b) r lim h)).
  2:{ unfold read_u64. by rewrite (bind_inr _ _ _ _ _ (read_exact_at _ _ _ _ _ 8 (eq_sym Hb))). }
  assert (Hend : exists c, @mret IO _ _ (size pre, len) (at_file ((pre ++ a) ++ b) r lim h) =
    (inr (size pre, len), mk_file (pre ++ t) c lim h)).
  { eexists. rewrite Hsplit. unfold at_file, mret, IO_ret. by rewrite <- !app_assoc. }
  destruct (checked_add _ ENTRY_HEADER_SIZE) as [full|] eqn:Hfull; [|exact Hend].
  apply checked_add_Some in Hfull as [Hfull _]. change ENTRY_HEADER_SIZE with 13%N in Hfull.
  destruct (N.ltb_spec (size t) full); [exact Hend|]. lia.
Qed.

Lemma seek_over pre d post lim h n :
  Z.of_N (size d) = n ->
  seek (Current n) (at_file pre (d ++ post) lim h) =
  (inr (size (pre ++ d)), at_file (pre ++ d) post lim h).
Proof.
  intros <-. unfold seek. cbn [at_file cursor].
  replace (Z.of_N (size pre) + Z.of_N (size d))%Z with (Z.of_N (size (pre ++ d))) by (rewrite size_app; lia).
  destruct (Z.ltb_spec (Z.of_N (size (pre ++ d))) 0); [lia|]. rewrite N2Z.id.
  unfold set_cursor, at_file. cbn. by rewrite <- app_assoc.
Qed.

(** One pass of the loop goes over one entry. *)
Lemma scan_entry fuel e pre post len lim h total :
  (WriteEntry.len e <= MAX_ENTRY_SIZE)%N -> total = size (pre ++ entry_bytes e ++ post) ->
  Log.scan (S fuel) total (size pre) len (at_file pre (entry_bytes e ++ post) lim h) =
  Log.scan fuel total (size (pre ++ entry_bytes e)) (len + 1)
    (at_file (pre ++ entry_bytes e) post lim h).
Proof.
  intros Hlen ->. unfold MAX_ENTRY_SIZE in Hlen. cbn [Log.scan].
  replace (size (pre ++ entry_bytes e ++ post) - size pre)%N
    with (13 + WriteEntry.len e + size post)%N by (rewrite !size_app, size_entry_bytes; lia).
  destruct (N.leb_spec (ENTRY_COMPRESSION_FLAG_SIZE + ENTRY_LENGTH_SIZE) (13 + WriteEntry.len e + size post))
    as [_|H]; [|change (13 + WriteEntry.len e + size post < 9)%N in H; lia].
  unfold entry_bytes at 2, entry_chunks. cbn [concat]. rewrite app_nil_r, <- !app_assoc.
  rewrite (bind_inr _ _ _ _ _ (read_u8_at pre _ lim h (if WriteEntry.is_compressed e then 1 else 0)%N
    ltac:(by destruct (WriteEntry.is_compressed e)))).
  rewrite (bind_inr _ _ _ _ _ (read_u64_at (pre ++ _) _ lim h (WriteEntry.len e) ltac:(lia))).
  change ENTRY_HEADER_SIZE with 13%N. change ENTRY_CRC_SIZE with 4%N. unfold I64_MAX.
  rewrite !checked_add_small by lia.
  destruct (N.ltb_spec (13 + WriteEntry.len e + size post) (WriteEntry.len e + 13)); [lia|].
  destruct (N.leb_spec (WriteEntry.len e + 4) 9223372036854775807); [|lia].
  rewrite (app_assoc (to_be_bytes 4 _)).
  rewrite (bind_inr _ _ _ _ _ (seek_over _ (to_be_bytes 4 _ ++ WriteEntry.data e) post lim h
    (Z.of_N (WriteEntry.len e + 4)) ltac:(rewrite size_app, size_to_be_bytes; destruct e; cbn; lia))).
  unfold entry_bytes, entry_chunks. cbn [concat]. by rewrite app_nil_r, <- !app_assoc.
Qed.

Lemma scan_entries es fuel pre t len lim h total :
  Forall readable es -> torn t -> length es <= fuel ->
  total = size (pre ++ concat (entry_bytes <$> es) ++ t) ->
  exists c, Log.scan fuel total (size pre) len
      (at_file pre (concat (entry_bytes <$> es) ++ t) lim h) =
    (inr (size (pre ++ concat (entry_bytes <$> es)), len + N.of_nat (length es))%N,
     mk_file (pre ++ concat (entry_bytes <$> es) ++ t) c lim h).
Proof.
  revert fuel pre len. induction es as [|e es IH]; intros fuel pre len Hes Ht Hfuel Htotal.
  { rewrite N.add_0_r, app_nil_r. by apply scan_torn. }
  inversion_clear Hes as [|? ? He Hes']. destruct fuel as [|fuel]; [cbn in Hfuel; lia|].
  cbn [fmap list_fmap concat] in *. rewrite <- !app_assoc in *.
  rewrite scan_entry by (by try apply readable_len).
  destruct (IH fuel (pre ++ entry_bytes e) (len + 1)%N) as [c Hc]; try done.
  { cbn in Hfuel. lia. }
  { by rewrite <- app_assoc. }
  exists c. rewrite Hc, <- !app_assoc. do 3 f_equal. cbn [length]. lia.
Qed.

Lemma length_le_size_entries es : length es <= N.to_nat (size (concat (entry_bytes <$> es))).
Proof.
  induction es as [|e es IH]; [cbn; lia|].
  cbn [fmap list_fmap concat length] in *. rewrite size_app, size_entry_bytes. lia.
Qed.

(** Opening a file that holds a log, and after it a part of an entry, gives
    exactly that log. *)
Lemma open_image seq es t lim :
  (seq < 2 ^ 64)%N -> Forall readable es -> torn t ->
  exists f, Log.open_with (opened (image seq es ++ t) lim) =
    (inr (Log.mk f Version.V1 seq (N.of_nat (length es))), f) /\
    contents f = image seq es /\ limit f = lim /\
    history f = [DiskTruncate (size (image seq es))].
Proof.
  intros Hseq Hes Ht. unfold Log.open_with.
  set (body := concat (entry_bytes <$> es) ++ t).
  assert (Hf : opened (image seq es ++ t) lim =
    at_file [] (to_be_bytes 4 1 ++ to_be_bytes 8 seq ++ body) lim []).
  { unfold opened, at_file, image, header, body. by rewrite <- !app_assoc. }
  rewrite Hf. clear Hf.
  rewrite (bind_inr size_bytes _ _ (size (header seq ++ body)) (at_file [] (to_be_bytes 4 1 ++ to_be_bytes 8 seq ++ body) lim [])).
  2:{ unfold size_bytes, header. cbn [at_file contents app]. by rewrite <- app_assoc. }
  set (total := size (header seq ++ body)).
  assert (Htotal : (12 <= total)%N) by (unfold total; rewrite size_app, size_header; lia).
  destruct (N.ltb_spec 0 total); [|lia].
  rewrite (bind_inr _ _ _ _ _ (read_u32_at [] _ lim [] 1 ltac:(done))). cbn [Version.try_from N.eqb Pos.eqb].
  rewrite (bind_inr _ _ _ seq (at_file (header seq) body lim [])).
  2:{ unfold map_err. by rewrite (read_u64_at ([] ++ to_be_bytes 4 1) body lim [] seq Hseq). }
  destruct (scan_entries es (N.to_nat total) (header seq) t 0 lim [] total) as [c Hc]; try done.
  { unfold total, body. rewrite !size_app. pose proof (length_le_size_entries es). lia. }
  rewrite size_header in Hc. rewrite (bind_inr _ _ _ _ _ Hc).
  eexists. split; [reflexivity|]. cbn [contents limit history step_disk apply_op].
  rewrite app_assoc. fold (image seq es). by rewrite resize_prefix.
Qed.

(** ** The operations *)

(** The log on disk and in memory stands for the entries [ds] under the
    sequence number [seq]. *)
Definition rep_entries (log : Log.t) (seq : N) (es : list WriteEntry.t) : Prop :=
  contents log.(Log.storage) = image seq es /\ (HEADER_SIZE <= limit log.(Log.storage))%N /\
  log.(Log.version) = Version.V1 /\ log.(Log.sequence) = seq /\
  log.(Log.len) = N.of_nat (length es) /\ (seq < 2 ^ 64)%N.

Definition rep (log : Log.t) (seq : N) (ds : list bytes) : Prop :=
  exists es, rep_entries log seq es /\ Forall readable es /\ ds = stored <$> es.

Lemma open_rep seq es t lim :
  (seq < 2 ^ 64)%N -> Forall readable es -> torn t -> (HEADER_SIZE <= lim)%N ->
  exists log f, Log.open_with (opened (image seq es ++ t) lim) = (inr log, f) /\
    rep log seq (stored <$> es).
Proof.
  intros Hseq Hes Ht Hlim. destruct (open_image seq es t lim) as (f & Hopen & Hc & Hl & _); try done.
  eexists _, f. split; [exact Hopen|]. exists es. split; [|by split].
  unfold rep_entries. cbn. rewrite Hc, Hl. by split_and!.
Qed.

Lemma write_entry_chunks e f :
  (_ ← write_u8 (if WriteEntry.is_compressed e then 1 else 0);
   _ ← write_u64 (WriteEntry.len e);
   _ ← write_u32 (WriteEntry.uncompressed_crc e);
   write_all (WriteEntry.data e)) f = write_chunks (entry_chunks e) f.
Proof.
  unfold write_u8, write_u64, write_u32, entry_chunks. cbn [write_chunks].
  unfold mbind, IO_bind, mret, IO_ret. 
  repeat match goal with |- context [write_all ?d ?g] => destruct (write_all d g) as [[?|[]] ?]; [done|] end.
  done.
Qed.

Lemma image_snoc seq es e : image seq (es ++ [e]) = image seq es ++ entry_bytes e.
Proof. unfold image. rewrite fmap_app, concat_app. cbn [concat fmap list_fmap]. by rewrite app_nil_r, app_assoc. Qed.

Lemma HEADER_SIZE_header seq : HEADER_SIZE = size (header seq).
Proof. by rewrite size_header. Qed.

(** Writing an entry adds it or, without the space, leaves the log as it was;
    a crash meanwhile leaves the log with a part of the entry after it. *)
Lemma write_entry_spec log seq es e :
  rep_entries log seq es ->
  exists r log' ops, Log.write_entry log e = (r, log') /\
    history log'.(Log.storage) = history log.(Log.storage) ++ ops /\
    limit log'.(Log.storage) = limit log.(Log.storage) /\
    (forall img, crash_image (contents log.(Log.storage)) ops img ->
       exists p, p `prefix_of` entry_bytes e /\ img = image seq es ++ p) /\
    (r = inr tt /\ rep_entries log' seq (es ++ [e]) \/
     r = inl IoError.StorageFull /\ rep_entries log' seq es /\
     (limit log.(Log.storage) < size (contents log.(Log.storage)) + 13 + WriteEntry.len e)%N).
Proof.
  intros (Hc & Hlim & Hv & Hs & Hn & Hseq). destruct log as [[c cur lim h] v s n].
  cbn in Hc, Hlim, Hv, Hs, Hn. subst c v s n.
  unfold Log.write_entry, Log.with_storage, seek, set_cursor.
  cbn [Log.storage Log.set_storage contents cursor limit history].
  destruct (Z.ltb_spec (Z.of_N (size (image seq es)) + 0) 0); [lia|]. rewrite Z.add_0_r, N2Z.id.
  cbn [Log.storage Log.set_storage contents cursor limit history]. rewrite write_entry_chunks.
  destruct (write_chunks_spec (entry_chunks e) (image seq es) lim h)
    as (p & ops & Hp & Hfold & Hcrash & [[-> ->]|[-> Hfull]]).
  - eexists _, _, ops. split; [reflexivity|]. cbn. split_and!; try done. left. split; [done|].
    unfold rep_entries. cbn. rewrite image_snoc, length_app. cbn.
    split_and!; try done; lia.
  - eexists _, _, (ops ++ [DiskTruncate (size (image seq es))]). split; [reflexivity|].
    cbn. split_and!; [by rewrite <- app_assoc|done| |right].
    + intros img [Himg|Himg]%crash_image_app; [by apply Hcrash|]. rewrite Hfold in Himg.
      inversion Himg as [| |? ? ? ? Hlater]; subst; [by exists p|].
      apply crash_image_nil in Hlater as ->. exists []. split; [apply prefix_nil|].
      cbn. by rewrite resize_prefix, app_nil_r.
    + split; [done|]. split; [unfold rep_entries; cbn; rewrite resize_prefix; by split_and!|].
      change (concat (entry_chunks e)) with (entry_bytes e) in Hfull.
      rewrite size_entry_bytes in Hfull. lia.
Qed.

(** [append] writes an entry that stands for the data. *)
Lemma append_entry force log data :
  (size data <= MAX_ENTRY_SIZE)%N ->
  exists e, Log.append force log data = Log.write_entry log e /\ readable e /\ stored e = data /\
    (WriteEntry.len e <= size data)%N.
Proof.
  intros Hdata. unfold Log.append, Log.write_raw.
  destruct lz4 as [codec|] eqn:Hlz4; [destruct force|].
  - unfold Log.write_compressed.
    destruct (N.ltb_spec (size (codec.(compress) data)) (size data)).
    + eexists. split; [reflexivity|]. split_and!; [|done|cbn; lia]. split; [cbn; lia|].
      exists codec. split; [done|]. by apply decompress_compress.
    + eexists. split; [reflexivity|]. by split_and!.
  - eexists. split; [reflexivity|]. by split_and!.
  - eexists. split; [reflexivity|]. by split_and!.
Qed.

(** Reading an entry back. *)
Lemma read_entry e pre post lim h :
  readable e ->
  Log.read_to_next (at_file pre (entry_bytes e ++ post) lim h) =
  (inr (stored e, (0 <? size post)%N), at_file (pre ++ entry_bytes e) post lim h).
Proof.
  intros [Hlen He]. unfold Log.read_to_next.
  unfold entry_bytes at 1, entry_chunks. cbn [concat]. rewrite app_nil_r, <- !app_assoc.
  rewrite (bind_inr _ _ _ _ _ (read_u8_at pre _ lim h (if WriteEntry.is_compressed e then 1 else 0)%N
    ltac:(by destruct (WriteEntry.is_compressed e)))).
  rewrite (bind_inr _ _ _ _ _ (read_u64_at (pre ++ _) _ lim h (WriteEntry.len e)
    ltac:(unfold MAX_ENTRY_SIZE in Hlen; lia))).
  rewrite (bind_inr _ _ _ _ _ (read_u32_at (_ ++ _) _ lim h (WriteEntry.uncompressed_crc e) (crc_lt e))).
  destruct (N.ltb_spec MAX_ENTRY_SIZE (WriteEntry.len e)); [lia|].
  rewrite (bind_inr _ _ _ _ _ (read_exact_at (_ ++ _) (WriteEntry.data e) post lim h (WriteEntry.len e)
    ltac:(by destruct e))).
  set (f := at_file _ post lim h).
  assert (Hf : f = at_file (pre ++ entry_bytes e) post lim h).
  { unfold f, entry_bytes, entry_chunks. cbn [concat]. by rewrite app_nil_r, <- !app_assoc. }
  rewrite Hf. clear f Hf.
  rewrite (bind_inr _ _ _ (stored e) (at_file (pre ++ entry_bytes e) post lim h)).
  2:{ destruct e as [data|compressed data]; [done|]. cbn. by destruct He as (codec & -> & ->). }
  replace (WriteEntry.uncompressed_crc e) with (compute_crc (stored e)) by (by destruct e).
  rewrite N.eqb_refl. unfold mbind, IO_bind, stream_position, size_bytes, mret, IO_ret.
  cbn [at_file cursor contents]. do 3 f_equal. rewrite !size_app.
  destruct (N.ltb_spec 0 (size post)), (N.ltb_spec (size pre + size (entry_bytes e))
    (size pre + size (entry_bytes e) + size post)); try done; lia.
Qed.

Lemma iter_from_entries es fuel pre lim h :
  Forall readable es -> es <> [] -> length es <= fuel ->
  Log.iter_from fuel (at_file pre (concat (entry_bytes <$> es)) lim h) =
  (inr <$> (stored <$> es), at_file (pre ++ concat (entry_bytes <$> es)) [] lim h).
Proof.
  revert fuel pre. induction es as [|e es IH]; intros fuel pre Hes Hne Hfuel; [done|].
  inversion_clear Hes as [|? ? He Hes']. destruct fuel as [|fuel]; [cbn in Hfuel; lia|].
  cbn [Log.iter_from fmap list_fmap concat]. rewrite read_entry by done.
  destruct es as [|e' es].
  { cbn. by rewrite app_nil_r. }
  replace (0 <? size (concat (entry_bytes <$> e' :: es)))%N with true.
  2:{ symmetry. apply N.ltb_lt. cbn [fmap list_fmap concat]. rewrite size_app, size_entry_bytes. lia. }
  change (list_fmap _ _ entry_bytes es) with (entry_bytes <$> es).
  rewrite IH; [|done|done|cbn in Hfuel |- *; lia]. by rewrite app_assoc.
Qed.

Lemma seek_first seq es cur lim h :
  seek (Start FIRST_ENTRY_OFFSET) (mk_file (image seq es) cur lim h) =
  (inr FIRST_ENTRY_OFFSET, at_file (header seq) (concat (entry_bytes <$> es)) lim h).
Proof. unfold at_file. by rewrite <- (HEADER_SIZE_header seq). Qed.

(** [iter] gives the data of the entries in the order they were written. *)
Lemma iter_rep log seq ds :
  rep log seq ds ->
  exists log', Log.iter log = (inr (inr <$> ds), log') /\ rep log' seq ds /\
    history log'.(Log.storage) = history log.(Log.storage).
Proof.
  intros (es & (Hc & Hlim & Hv & Hs & Hn & Hseq) & Hes & ->).
  destruct log as [[c cur lim h] v s n]. cbn in Hc, Hlim, Hv, Hs, Hn. subst c v s n.
  unfold Log.iter, Log.first_entry, Log.with_storage, mbind, IO_bind, size_bytes.
  cbn [Log.storage contents Log.len].
  destruct (N.eqb_spec (size (image seq es)) 0) as [Hz|_].
  { unfold image in Hz. rewrite size_app, size_header in Hz. lia. }
  destruct es as [|e es]; [cbn; eexists; split; [done|]; split; [|done]; exists []; split; [by split_and!|by split]|].
  destruct (N.eqb_spec (N.of_nat (length (e :: es))) 0) as [Hz|_]; [cbn in Hz; lia|].
  set (l := e :: es) in *. rewrite seek_first. unfold mret, IO_ret.
  cbn [Log.set_storage Log.storage].
  rewrite iter_from_entries; [|done|done|].
  2:{ pose proof (length_le_size_entries l) as Hle. unfold size in Hle.
      cbn [at_file contents]. rewrite length_app. lia. }
  eexists. split; [reflexivity|]. split; [|done]. exists l. split; [|by split].
  unfold rep_entries. cbn. rewrite app_nil_r. by split_and!.
Qed.

Lemma seek_start n f : seek (Start n) f = (inr n, set_cursor f n).
Proof.
  unfold seek. destruct (Z.ltb_spec (Z.of_N n) 0); [lia|]. by rewrite N2Z.id.
Qed.

Lemma write_all_fits data f :
  (size data <= limit f - cursor f)%N ->
  write_all data f = (inr tt, step_disk f (DiskWrite (cursor f) data) (cursor f + size data)).
Proof.
  intros H. unfold write_all. rewrite takeN_all by done. by apply N.leb_le in H as ->.
Qed.

(** The number that a crash leaves when [n] of the eight bytes of a new one have
    been written. *)
Definition torn_sequence (n seq seq' : N) : N :=
  from_be_bytes (takeN n (to_be_bytes 8 seq') ++ dropN n (to_be_bytes 8 seq)).

Lemma torn_sequence_lt n seq seq' : (torn_sequence n seq seq' < 2 ^ 64)%N.
Proof.
  eapply N.lt_le_trans; [apply from_be_bytes_lt|]. change (2 ^ 64)%N with (256 ^ 8)%N. apply N.pow_le_mono_r; [done|].
  change (N.of_nat (length ?l)) with (size l). rewrite size_app, size_takeN, size_dropN, !size_to_be_bytes. lia.
Qed.

Lemma torn_sequence_new seq seq' : (seq' < 2 ^ 64)%N -> torn_sequence 8 seq seq' = seq'.
Proof.
  intros H. unfold torn_sequence. rewrite takeN_all by (by rewrite size_to_be_bytes).
  unfold dropN. rewrite drop_ge by (by rewrite length_to_be_bytes). rewrite app_nil_r. by apply from_to_be_bytes.
Qed.

Lemma overwrite_sequence n seq seq' es :
  overwrite SEQUENCE_OFFSET (takeN n (to_be_bytes 8 seq')) (image seq es) = image (torn_sequence n seq seq') es.
Proof.
  assert (Htorn : to_be_bytes 8 (torn_sequence n seq seq') = takeN n (to_be_bytes 8 seq') ++ dropN n (to_be_bytes 8 seq)).
  { unfold torn_sequence. set (l := takeN n _ ++ dropN n _).
    assert (Hl : length l = 8).
    { apply Nat2N.inj. change (N.of_nat (length l)) with (size l). unfold l.
      rewrite size_app, size_takeN, size_dropN, !size_to_be_bytes. lia. }
    pose proof (to_from_be_bytes l) as H. by rewrite Hl in H. }
  unfold image, header. rewrite Htorn. set (new := to_be_bytes 8 seq').
  assert (Hdrop : dropN n (to_be_bytes 8 seq) = dropN (size (takeN n new)) (to_be_bytes 8 seq)).
  { rewrite size_takeN. unfold new. rewrite size_to_be_bytes. destruct (N.min_spec n (N.of_nat 8)) as [[? ->]|[? ->]]; [done|].
    unfold dropN. by rewrite !drop_ge by (rewrite length_to_be_bytes; lia). }
  rewrite Hdrop. unfold overwrite. rewrite <- !app_assoc. destruct (takeN n new) as [|b l] eqn:Hn; [done|]. rewrite <- Hn.
  change SEQUENCE_OFFSET with (size (to_be_bytes 4 1)). rewrite resize_prefix, dropN_add, dropN_app.
  rewrite (dropN_app_le _ (to_be_bytes 8 seq)); [done|].
  rewrite size_takeN. unfold new. rewrite !size_to_be_bytes. lia.
Qed.

(** [restart] empties the log under the new number. *)
Lemma restart_spec log seq es seq' :
  rep_entries log seq es -> (seq' < 2 ^ 64)%N ->
  exists log', Log.restart log seq' = (inr tt, log') /\ rep_entries log' seq' [] /\
    history log'.(Log.storage) = history log.(Log.storage) ++
      [DiskWrite SEQUENCE_OFFSET (to_be_bytes 8 seq'); DiskTruncate HEADER_SIZE] /\
    overwrite SEQUENCE_OFFSET (to_be_bytes 8 seq') (image seq es) = image seq' es.
Proof.
  intros (Hc & Hlim & Hv & Hs & Hn & Hseq) Hseq'.
  destruct log as [[c cur lim h] v s n]. cbn [Log.storage contents limit] in Hc, Hlim. subst c.
  assert (Hover : overwrite SEQUENCE_OFFSET (to_be_bytes 8 seq') (image seq es) = image seq' es).
  { rewrite <- (torn_sequence_new seq seq' Hseq') at 2. rewrite <- overwrite_sequence.
    by rewrite takeN_all by (by rewrite size_to_be_bytes). }
  unfold Log.restart, Log.with_storage. cbn [Log.storage].
  rewrite (bind_inr _ _ _ _ _ (seek_start SEQUENCE_OFFSET _)).
  assert (Hw := write_all_fits (to_be_bytes 8 seq')
    (set_cursor (mk_file (image seq es) cur lim h) SEQUENCE_OFFSET)).
  rewrite size_to_be_bytes in Hw. cbn [limit cursor set_cursor] in Hw.
  change (12 <= lim)%N in Hlim. change (lim - SEQUENCE_OFFSET)%N with (lim - 4)%N in Hw.
  unfold write_u64. rewrite (bind_inr _ _ _ _ _ (Hw ltac:(lia))).
  eexists. split; [reflexivity|]. split; [|split; [cbn; by rewrite <- app_assoc|exact Hover]].
  unfold rep_entries. cbn -[image overwrite resize SEQUENCE_OFFSET HEADER_SIZE].
  rewrite Hover. unfold image at 1. rewrite (HEADER_SIZE_header seq'), resize_prefix.
  cbn in Hv. subst v. by split_and!.
Qed.

(** ** The abstract log *)

(** What a user of the log sees: the operations with their results, and
    crashes while an entry is being appended, while the log is restarted, and
    while it is opened again. *)
Inductive wal_event : Type :=
  | Appended (data : bytes) (r : IoError.t + unit)
  | Restarted (seq : N) (r : IoError.t + unit)
  | Flushed (r : IoError.t + unit)
  | Iterated (items : IoError.t + list (IoError.t + bytes))
  | Reopened
  | Crashed (data : bytes)
  | RestartCrashed (seq : N).

(** Opening the file that a stop or a crash has left, after any number of
    openings that have crashed themselves. *)
Inductive recovers (lim : N) : bytes -> Log.t -> Prop :=
  | recovers_now img log f : Log.open_with (opened img lim) = (inr log, f) -> recovers lim img log
  | recovers_later img r f img' log :
      Log.open_with (opened img lim) = (r, f) -> crash_image img (history f) img' ->
      recovers lim img' log -> recovers lim img log.

Inductive wal_step : Log.t -> wal_event -> Log.t -> Prop :=
  | step_append force log data r log' :
      Log.append force log data = (r, log') -> wal_step log (Appended data r) log'
  | step_restart log seq r log' :
      Log.restart log seq = (r, log') -> wal_step log (Restarted seq r) log'
  | step_flush log r log' : Log.flush log = (r, log') -> wal_step log (Flushed r) log'
  | step_iter log items log' : Log.iter log = (items, log') -> wal_step log (Iterated items) log'
  | step_reopen log log' :
      recovers (limit log.(Log.storage)) (contents log.(Log.storage)) log' -> wal_step log Reopened log'
  | step_crash force log data r log1 ops img log' :
      Log.append force log data = (r, log1) ->
      history log1.(Log.storage) = history log.(Log.storage) ++ ops ->
      crash_image (contents log.(Log.storage)) ops img ->
      recovers (limit log.(Log.storage)) img log' -> wal_step log (Crashed data) log'
  | step_restart_crash log seq r log1 ops img log' :
      Log.restart log seq = (r, log1) ->
      history log1.(Log.storage) = history log.(Log.storage) ++ ops ->
      crash_image (contents log.(Log.storage)) ops img ->
      recovers (limit log.(Log.storage)) img log' -> wal_step log (RestartCrashed seq) log'.

(** The abstract log: a sequence number and a list of data. A restart that
    crashes may leave the old data under a number of which the first bytes are
    new and the others old. *)
Inductive spec_step : N * list bytes -> wal_event -> N * list bytes -> Prop :=
  | spec_append s ds data : spec_step (s, ds) (Appended data (inr tt)) (s, ds ++ [data])
  | spec_append_full s ds data :
      spec_step (s, ds) (Appended data (inl IoError.StorageFull)) (s, ds)
  | spec_restart s ds s' : spec_step (s, ds) (Restarted s' (inr tt)) (s', [])
  | spec_flush s ds : spec_step (s, ds) (Flushed (inr tt)) (s, ds)
  | spec_iter s ds : spec_step (s, ds) (Iterated (inr (inr <$> ds))) (s, ds)
  | spec_reopen s ds : spec_step (s, ds) Reopened (s, ds)
  | spec_crash_lost s ds data : spec_step (s, ds) (Crashed data) (s, ds)
  | spec_crash_kept s ds data : spec_step (s, ds) (Crashed data) (s, ds ++ [data])
  | spec_restart_crash s ds s' n : spec_step (s, ds) (RestartCrashed s') (torn_sequence n s s', ds)
  | spec_restart_crash_done s ds s' : spec_step (s, ds) (RestartCrashed s') (s', []).

(** The arguments the log is made for. *)
Definition event_ok (ev : wal_event) : Prop :=
  match ev with
  | Appended data _ | Crashed data => (size data <= MAX_ENTRY_SIZE)%N
  | Restarted seq _ | RestartCrashed seq => (seq < 2 ^ 64)%N
  | _ => True
  end.

Inductive trace {S E : Type} (step : S -> E -> S -> Prop) : S -> list E -> S -> Prop :=
  | trace_nil s : trace step s [] s
  | trace_cons s e s1 es s2 : step s e s1 -> trace step s1 es s2 -> trace step s (e :: es) s2.

(** A file that stands for the data, up to a part of an entry at its end. *)
Definition holds_log (lim : N) (img : bytes) (seq : N) (ds : list bytes) : Prop :=
  exists es t, img = image seq es ++ t /\ Forall readable es /\ torn t /\ (seq < 2 ^ 64)%N /\
    (HEADER_SIZE <= lim)%N /\ ds = stored <$> es.

Lemma holds_open lim img seq ds :
  holds_log lim img seq ds -> exists log f, Log.open_with (opened img lim) = (inr log, f) /\ rep log seq ds.
Proof. intros (es & t & -> & Hes & Ht & Hseq & Hlim & ->). by apply open_rep. Qed.

Lemma holds_recovers lim img log seq ds : recovers lim img log -> holds_log lim img seq ds -> rep log seq ds.
Proof.
  induction 1 as [img log f Ho|img r f img' log Ho Hcrash _ IH]; intros Hh.
  - destruct (holds_open _ _ _ _ Hh) as (log' & f' & Ho' & Hr). rewrite Ho in Ho'. by simplify_eq.
  - apply IH. destruct Hh as (es & t & -> & Hes & Ht & Hseq & Hlim & ->).
    destruct (open_image seq es t lim Hseq Hes Ht) as (f' & Ho' & _ & _ & Hhist). rewrite Ho in Ho'. simplify_eq.
    rewrite Hhist in Hcrash. inversion Hcrash as [| |? ? ? ? Hlater]; subst; [by exists es, t|].
    apply crash_image_nil in Hlater as ->. cbn. rewrite resize_prefix. exists es, []. rewrite app_nil_r.
    split_and!; try done. apply torn_nil.
Qed.

Lemma rep_holds log seq ds :
  rep log seq ds -> holds_log (limit log.(Log.storage)) (contents log.(Log.storage)) seq ds.
Proof.
  intros (es & (Hc & Hlim & _ & _ & _ & Hseq) & Hes & ->). exists es, []. rewrite app_nil_r.
  split_and!; try done. apply torn_nil.
Qed.

Lemma rep_append force log seq ds data :
  rep log seq ds -> (size data <= MAX_ENTRY_SIZE)%N ->
  exists r log' ops, Log.append force log data = (r, log') /\
    history log'.(Log.storage) = history log.(Log.storage) ++ ops /\
    (forall img, crash_image (contents log.(Log.storage)) ops img ->
       holds_log (limit log.(Log.storage)) img seq ds \/ holds_log (limit log.(Log.storage)) img seq (ds ++ [data])) /\
    (r = inr tt /\ rep log' seq (ds ++ [data]) \/
     r = inl IoError.StorageFull /\ rep log' seq ds /\
     (limit log.(Log.storage) < size (contents log.(Log.storage)) + 13 + size data)%N).
Proof.
  intros (es & Hrep & Hes & ->) Hdata.
  destruct (append_entry force log data Hdata) as (e & -> & He & <- & Hle).
  destruct (write_entry_spec log seq es e Hrep) as (r & log' & ops & Hw & Hh & Hl & Hcrash & Hres).
  exists r, log', ops. split_and!; [done|done| |].
  - intros img (p & Hp & ->)%Hcrash. destruct Hrep as (_ & Hlim & _ & _ & _ & Hseq).
    destruct (part_of_entry_torn e p) as [Ht| ->]; [|done| |].
    { destruct He as [He _]. unfold MAX_ENTRY_SIZE in He. lia. }
    + left. by exists es, p.
    + right. exists (es ++ [e]), []. rewrite app_nil_r, image_snoc, fmap_app, Forall_app, Forall_singleton.
      split_and!; try done. apply torn_nil.
  - destruct Hres as [[-> Hr]|(-> & Hr & Hfull)]; [left|right]; split; try done.
    + exists (es ++ [e]). rewrite fmap_app, Forall_app, Forall_singleton. done.
    + split; [by exists es|lia].
Qed.

(** What a crash during a restart leaves. *)
Lemma restart_crash log seq ds seq' r log' ops img :
  rep log seq ds -> (seq' < 2 ^ 64)%N -> Log.restart log seq' = (r, log') ->
  history log'.(Log.storage) = history log.(Log.storage) ++ ops ->
  crash_image (contents log.(Log.storage)) ops img ->
  (exists n, holds_log (limit log.(Log.storage)) img (torn_sequence n seq seq') ds) \/
  holds_log (limit log.(Log.storage)) img seq' [].
Proof.
  intros (es & Hrep & Hes & ->) Hseq' Hr Hh Hcrash. pose proof Hrep as (Hc & Hlim & _).
  destruct (restart_spec log seq es seq' Hrep Hseq') as (l & Hr' & _ & Hh' & Hover).
  rewrite Hr in Hr'. simplify_eq. rewrite Hh' in Hh. apply app_inv_head in Hh as <-. rewrite Hc in Hcrash.
  assert (Hkept : forall n, holds_log (limit log.(Log.storage)) (image (torn_sequence n seq seq') es)
    (torn_sequence n seq seq') (stored <$> es)).
  { intros n. exists es, []. rewrite app_nil_r. split_and!; try done; [apply torn_nil|apply torn_sequence_lt]. }
  inversion Hcrash as [|? ? ? ? k|? ? ? ? Hlater]; subst.
  - left. exists 0%N. pose proof (Hkept 0%N) as H. by rewrite <- overwrite_sequence in H.
  - left. exists k. rewrite overwrite_sequence. apply Hkept.
  - cbn [apply_op] in Hlater. rewrite Hover in Hlater. inversion Hlater as [| |? ? ? ? Hdone]; subst.
    + left. exists 8%N. pose proof (Hkept 8%N) as H. by rewrite torn_sequence_new in H |- *.
    + right. apply crash_image_nil in Hdone as ->. exists [], []. rewrite app_nil_r. split_and!; try done; [|apply torn_nil].
      cbn [apply_op]. unfold image at 1. by rewrite (HEADER_SIZE_header seq'), resize_prefix.
Qed.

(** The log in a new file. *)
Lemma create_spec lim :
  (HEADER_SIZE <= lim)%N ->
  let f := mk_file (header 0) 12 lim
    [DiskWrite 0 (to_be_bytes 4 1); DiskWrite 4 (to_be_bytes 8 0); DiskTruncate HEADER_SIZE] in
  Log.open_with (opened [] lim) = (inr (Log.mk f Version.V1 0 0), f).
Proof.
  intros Hlim. unfold Log.open_with. change (12 <= lim)%N in Hlim.
  rewrite (bind_inr size_bytes _ (opened [] lim) 0%N (opened [] lim) eq_refl).
  change (0 <? 0)%N with false. cbv iota zeta. unfold write_u32, write_u64. cbn [Version.as_u32].
  set (f1 := step_disk (opened [] lim) (DiskWrite 0 (to_be_bytes 4 1)) (0 + 4)).
  rewrite (bind_inr _ _ _ tt f1).
  2:{ rewrite write_all_fits; rewrite size_to_be_bytes; [done|]. cbn [limit cursor opened]. lia. }
  rewrite (bind_inr _ _ _ tt (step_disk f1 (DiskWrite 4 (to_be_bytes 8 0)) (4 + 8))).
  2:{ rewrite write_all_fits; rewrite size_to_be_bytes; [done|].
      cbn [f1 limit cursor opened step_disk]. lia. }
  reflexivity.
Qed.

Lemma fresh_rep lim :
  (HEADER_SIZE <= lim)%N ->
  exists log f, Log.open_with (opened [] lim) = (inr log, f) /\ rep log 0 [].
Proof.
  intros Hlim. eexists _, _. split; [by apply create_spec|].
  exists []. split; [by split_and!|by split].
Qed.

Lemma wal_step_spec log seq ds ev log' :
  rep log seq ds -> event_ok ev -> wal_step log ev log' ->
  exists a, spec_step (seq, ds) ev a /\ rep log' a.1 a.2.
Proof.
  intros Hrep Hok Hstep. inversion Hstep as [force ? data r ? H|? s r ? H|? r ? H|? items ? H|? ? H
    |force ? data r log1 ops img ? H Hh Himg Hopen|? s r log1 ops img ? H Hh Himg Hopen]; subst.
  - destruct (rep_append force log seq ds data Hrep Hok) as (r' & l & ops & Ha & _ & _ & Hres).
    rewrite H in Ha. simplify_eq. destruct Hres as [[-> Hr]|(-> & Hr & _)].
    + exists (seq, ds ++ [data]). by split; [constructor|].
    + exists (seq, ds). by split; [constructor|].
  - destruct Hrep as (es & Hrep & Hes & ->).
    destruct (restart_spec log seq es s Hrep Hok) as (l & Hr & Hrep' & _).
    rewrite H in Hr. simplify_eq. exists (s, []). split; [constructor|]. exists []. split; [done|by split].
  - unfold Log.flush, Log.with_storage, sync_all, mret, IO_ret in H. simplify_eq.
    exists (seq, ds). split; [constructor|]. by destruct log.
  - destruct (iter_rep log seq ds Hrep) as (l & Hi & Hr & _). rewrite H in Hi. simplify_eq.
    exists (seq, ds). by split; [constructor|].
  - exists (seq, ds). split; [constructor|]. eapply holds_recovers; [exact H|by apply rep_holds].
  - destruct (rep_append force log seq ds data Hrep Hok) as (r' & l & ops' & Ha & Hh' & Hcrash & _).
    rewrite H in Ha. simplify_eq. rewrite Hh' in Hh. apply app_inv_head in Hh as ->.
    destruct (Hcrash img Himg) as [Hi|Hi]; eapply (holds_recovers _ _ _ _ _ Hopen) in Hi;
      [exists (seq, ds)|exists (seq, ds ++ [data])]; by split; [constructor|].
  - destruct (restart_crash log seq ds s r log1 ops img Hrep Hok H Hh Himg) as [[n Hi]|Hi];
      eapply (holds_recovers _ _ _ _ _ Hopen) in Hi;
      [exists (torn_sequence n seq s, ds)|exists (s, [])]; by split; [constructor|].
Qed.

(** C7: the write-ahead log implements the abstract log, for entries of up to
    [MAX_ENTRY_SIZE] bytes. Every step of the log is a step of the abstract one:
    an append adds its data at the end or reports a full disk and changes
    nothing, a restart empties the log under a new number, iterating gives the
    appended data in order, and reopening loses nothing. After a crash in the
    middle of an append, the log holds the data it held, with or without the
    entry that was being written. After a crash in the middle of a restart, it is
    empty under the new number, or holds all the data it held under a number whose
    first bytes are new and the others old. Recovery from a stop or a crash may
    itself crash any number of times. *)
Theorem wal_refines_spec log seq ds evs log' :
  rep log seq ds -> Forall event_ok evs -> trace wal_step log evs log' ->
  exists seq' ds', trace spec_step (seq, ds) evs (seq', ds') /\ rep log' seq' ds'.
Proof.
  intros Hrep Hok Htrace. revert seq ds Hrep. induction Htrace as [|s e s1 es s2 Hstep _ IH]; intros.
  { exists seq, ds. split; [constructor|done]. }
  inversion_clear Hok as [|? ? He Hes].
  destruct (wal_step_spec s seq ds e s1 Hrep He Hstep) as ([s' d'] & Hspec & Hrep').
  destruct (IH Hes s' d' Hrep') as (seq' & ds' & Htr & Hr).
  exists seq', ds'. split; [by econstructor|done].
Qed.

(** appending is atomic with respect to crashes and to a full disk. The
    entry is added, or [StorageFull] is returned and the log is as it was, which
    happens only when the entry does not fit; and whatever part of the writes
    reaches the disk before a crash, the log opens again and holds what it held,
    with or without the new entry. *)
Theorem append_atomic force log seq ds data :
  rep log seq ds -> (size data <= MAX_ENTRY_SIZE)%N ->
  exists r log' ops, Log.append force log data = (r, log') /\
    history log'.(Log.storage) = history log.(Log.storage) ++ ops /\
    (r = inr tt /\ rep log' seq (ds ++ [data]) \/
     r = inl IoError.StorageFull /\ rep log' seq ds /\
     (limit log.(Log.storage) < size (contents log.(Log.storage)) + 13 + size data)%N) /\
    (forall img, crash_image (contents log.(Log.storage)) ops img ->
       exists log2 f, Log.open_with (opened img (limit log.(Log.storage))) = (inr log2, f) /\
         (rep log2 seq ds \/ rep log2 seq (ds ++ [data]))).
Proof.
  intros Hrep Hdata. destruct (rep_append force log seq ds data Hrep Hdata) as (r & l & ops & ?).
  exists r, l, ops. split_and!; try tauto. intros img Himg.
  assert (Hi : holds_log (limit log.(Log.storage)) img seq ds \/ holds_log (limit log.(Log.storage)) img seq (ds ++ [data]))
    by (by apply H). destruct Hi as [(l2 & f & ? & ?)%holds_open|(l2 & f & ? & ?)%holds_open]; eauto.
Qed.

(** restarting is not atomic. The new sequence number is written before the
    old entries are cut off, so that a crash between the two leaves all the
    entries of the old height under the number of the new one, and the log
    opens without an error. *)
Theorem restart_crash_keeps_old_entries log seq ds seq' :
  rep log seq ds -> (seq' < 2 ^ 64)%N ->
  exists log' ops img log2 f, Log.restart log seq' = (inr tt, log') /\
    history log'.(Log.storage) = history log.(Log.storage) ++ ops /\
    crash_image (contents log.(Log.storage)) ops img /\
    Log.open_with (opened img (limit log.(Log.storage))) = (inr log2, f) /\ rep log2 seq' ds.
Proof.
  intros (es & Hrep & Hes & ->) Hseq'.
  destruct (restart_spec log seq es seq' Hrep Hseq') as (log' & Hr & _ & Hh & Hover).
  destruct Hrep as (Hc & Hlim & _).
  destruct (open_rep seq' es [] (limit log.(Log.storage))) as (log2 & f & Ho & Hrep2); try done.
  { apply torn_nil. }
  rewrite app_nil_r in Ho. eexists log', _, (image seq' es), log2, f.
  split_and!; [done|exact Hh| |done|done].
  rewrite Hc. apply crash_later. cbn [apply_op]. rewrite Hover. apply crash_here.
Qed.

(** An entry over the size limit is written but not read. *)
Lemma read_oversized e pre post lim h :
  (MAX_ENTRY_SIZE < WriteEntry.len e < 2 ^ 64)%N ->
  exists f, Log.read_to_next (at_file pre (entry_bytes e ++ post) lim h) = (inl IoError.InvalidData, f).
Proof.
  intros Hlen. unfold Log.read_to_next, entry_bytes, entry_chunks. cbn [concat].
  rewrite app_nil_r, <- !app_assoc.
  rewrite (bind_inr _ _ _ _ _ (read_u8_at pre _ lim h (if WriteEntry.is_compressed e then 1 else 0)%N
    ltac:(by destruct (WriteEntry.is_compressed e)))).
  rewrite (bind_inr _ _ _ _ _ (read_u64_at (pre ++ _) _ lim h (WriteEntry.len e) ltac:(lia))).
  rewrite (bind_inr _ _ _ _ _ (read_u32_at (_ ++ _) _ lim h (WriteEntry.uncompressed_crc e) (crc_lt e))).
  destruct (N.ltb_spec MAX_ENTRY_SIZE (WriteEntry.len e)); [by eexists|lia].
Qed.

Lemma iter_from_oversized es e fuel pre lim h :
  Forall readable es -> (MAX_ENTRY_SIZE < WriteEntry.len e < 2 ^ 64)%N -> length es < fuel ->
  exists f, Log.iter_from fuel (at_file pre (concat (entry_bytes <$> (es ++ [e]))) lim h) =
    ((inr <$> (stored <$> es)) ++ [inl IoError.InvalidData], f).
Proof.
  intros Hes Hlen. revert fuel pre.
  induction Hes as [|e' es He' Hes IH]; intros fuel pre Hfuel; (destruct fuel as [|fuel]; [cbn in Hfuel; lia|]);
    cbn [app fmap list_fmap concat Log.iter_from].
  - destruct (read_oversized e pre [] lim h Hlen) as [f ->]. by eexists.
  - rewrite read_entry by done. change (list_fmap _ _ entry_bytes (es ++ [e])) with (entry_bytes <$> es ++ [e]).
    replace (0 <? size (concat (entry_bytes <$> es ++ [e])))%N with true.
    2:{ symmetry. apply N.ltb_lt. rewrite fmap_app, concat_app, size_app. cbn [fmap list_fmap concat].
        rewrite app_nil_r, size_entry_bytes. lia. }
    destruct (IH fuel (pre ++ entry_bytes e')) as [f ->]; [cbn in Hfuel; lia|]. by eexists.
Qed.

(** the size limit of an entry is checked by the reader only. With space
    on the disk, an entry of more than [MAX_ENTRY_SIZE] bytes is appended with
    success, and iterating then gives the entries before it and an error in
    its place. *)
Theorem oversized_entry_unreadable log seq ds data :
  rep log seq ds -> (MAX_ENTRY_SIZE < size data < 2 ^ 64)%N ->
  (size (contents log.(Log.storage)) + 13 + size data <= limit log.(Log.storage))%N ->
  exists log1 log2, Log.append false log data = (inr tt, log1) /\
    Log.iter log1 = (inr ((inr <$> ds) ++ [inl IoError.InvalidData]), log2).
Proof.
  intros (es & Hrep & Hes & ->) Hdata Hfits.
  destruct (write_entry_spec log seq es (WriteEntry.Raw data) Hrep)
    as (r & log1 & ops & Hw & _ & _ & _ & [[-> Hrep1]|(_ & _ & Hfull)]); [|cbn in Hfull; lia].
  assert (Ha : Log.append false log data = (inr tt, log1)) by (unfold Log.append; by destruct lz4).
  exists log1. destruct Hrep1 as (Hc & _ & _ & _ & Hn & _). destruct log1 as [[c cur lim h] v s n].
  cbn [Log.storage contents Log.len] in Hc, Hn. subst c n.
  unfold Log.iter, Log.first_entry, Log.with_storage, mbind at 1, IO_bind, size_bytes.
  cbn [Log.storage contents Log.len].
  destruct (N.eqb_spec (size (image seq (es ++ [WriteEntry.Raw data]))) 0) as [Hz|_].
  { unfold image in Hz. rewrite size_app, size_header in Hz. lia. }
  destruct (N.eqb_spec (N.of_nat (length (es ++ [WriteEntry.Raw data]))) 0) as [Hz|_].
  { rewrite length_app in Hz. cbn in Hz. lia. }
  rewrite (bind_inr _ _ _ _ _ (seek_first seq _ cur lim h)). unfold mret, IO_ret.
  cbn [Log.set_storage Log.storage].
  destruct (iter_from_oversized es (WriteEntry.Raw data)
    (length (contents (at_file (header seq) (concat (entry_bytes <$> es ++ [WriteEntry.Raw data])) lim h)))
    (header seq) lim h Hes Hdata) as [f Hf].
  { pose proof (length_le_size_entries (es ++ [WriteEntry.Raw data])) as Hle.
    rewrite length_app in Hle. unfold size in Hle. cbn [at_file contents]. rewrite length_app.
    cbn [length] in Hle. lia. }
  rewrite Hf. eexists. split; [exact Ha|reflexivity].
Qed.

End format.

(** One length of the part of the header that is written. *)
Ltac creation_crash :=
  match goal with
  | |- exists _ _ _ _, _ /\ _ /\ size _ = ?n /\ _ =>
      eexists _, _, (takeN n (header 0)), _; split; [by apply create_spec|];
      split; [|split; reflexivity]; cbn [history];
      first [exact (crash_torn [] 0 (to_be_bytes 4 1) _ n)
            |apply crash_later; exact (crash_torn _ 4 (to_be_bytes 8 0) _ (n - 4))]
  end.

(** a crash while the log is created can leave a file that does not open
    any more: any proper part of the header is an error, although nothing was
    ever logged. *)
Theorem creation_crash_blocks_open n lim :
  (0 < n < HEADER_SIZE)%N -> (HEADER_SIZE <= lim)%N ->
  exists log f img f2, Log.open_with (opened [] lim) = (inr log, f) /\
    crash_image [] (history f) img /\ size img = n /\
    Log.open_with (opened img lim) = (inl IoError.UnexpectedEof, f2).
Proof.
  intros Hn Hlim.
  assert (Hcases : n ∈ [1; 2; 3; 4; 5; 6; 7; 8; 9; 10; 11]%N).
  { change (0 < n < 12)%N in Hn. rewrite !elem_of_cons. lia. }
  clear Hn. repeat (apply elem_of_cons in Hcases as [->|Hcases]; [creation_crash|]).
  by apply not_elem_of_nil in Hcases.
Qed.

(** ** Instances *)

(** A checksum and a compression with the laws: the sum of the bytes, and a
    mark in front of the data. *)
Definition sum_deps : WalDeps := {|
  compute_crc data := (foldl (fun acc b => acc + Byte.to_N b) 0 data mod 2 ^ 32)%N;
  lz4 := Some (mk_lz4 (fun data => x00 :: data)
    (fun data => match data with [] => None | _ :: data => Some data end));
|}.

#[local] Instance sum_deps_laws : WalDepsLaws sum_deps.
Proof.
  split; [|by intros ? ? [= <-]]. intros data. cbn. apply N.mod_lt. done.
Qed.

Abbreviation new_log lim := (Log.mk (mk_file (header 0) 12 lim []) Version.V1 0 0).

Lemma new_log_rep lim : (HEADER_SIZE <= lim)%N -> rep (deps := sum_deps) (new_log lim) 0 [].
Proof. intros Hlim. exists []. split; [by split_and!|by split]. Qed.

Lemma size_zeros n : size (zeros n) = n.
Proof. unfold size, zeros. rewrite length_replicate. apply N2Nat.id. Qed.

(** The log after an entry, and after a crash five bytes into the next. *)
Definition log_one : Log.t := Eval vm_compute in
  (Log.append (deps := sum_deps) false (new_log 1000) [x2a]).2.
Definition log_torn : bytes := Eval vm_compute in
  contents log_one.(Log.storage) ++ [x00; x00; x00; x00; x00].
Definition log_recovered : Log.t := Eval vm_compute in
  match (Log.open_with (opened log_torn 1000)).1 with
  | inr log => log
  | inl _ => new_log 1000
  end.

(** The log after a crash one byte into the number of a restart, and after a
    crash of its recovery. *)
Definition log_renamed : bytes := Eval vm_compute in
  overwrite SEQUENCE_OFFSET (takeN 1 (to_be_bytes 8 (2 ^ 60))) (contents log_recovered.(Log.storage)).
Definition log_restarted : Log.t := Eval vm_compute in
  match (Log.open_with (opened log_renamed 1000)).1 with
  | inr log => log
  | inl _ => new_log 1000
  end.

Lemma log_restart_crash : exists r log1 ops,
  Log.restart log_recovered (2 ^ 60) = (r, log1) /\
  history log1.(Log.storage) = history log_recovered.(Log.storage) ++ ops /\
  crash_image (contents log_recovered.(Log.storage)) ops log_renamed.
Proof.
  eexists _, _, [DiskWrite SEQUENCE_OFFSET (to_be_bytes 8 (2 ^ 60)); DiskTruncate HEADER_SIZE].
  split; [vm_compute; reflexivity|]. split; [vm_compute; reflexivity|].
  exact (crash_torn (contents log_recovered.(Log.storage)) SEQUENCE_OFFSET (to_be_bytes 8 (2 ^ 60)) _ 1).
Qed.

Lemma log_restart_recovers : recovers 1000 log_renamed log_restarted.
Proof.
  eapply recovers_later; [vm_compute; reflexivity|apply crash_here|].
  eapply recovers_now. vm_compute. reflexivity.
Qed.

Lemma log_one_crash : exists r log1 ops,
  Log.append (deps := sum_deps) false log_one [x2b] = (r, log1) /\
  history log1.(Log.storage) = history log_one.(Log.storage) ++ ops /\
  crash_image (contents log_one.(Log.storage)) ops log_torn.
Proof.
  eexists _, _, _. split; [vm_compute; reflexivity|]. split; [vm_compute; reflexivity|].
  apply crash_later.
  exact (crash_torn (apply_op (contents log_one.(Log.storage)) (DiskWrite 26 [x00])) 27
    [x00; x00; x00; x00; x00; x00; x00; x01] _ 4).
Qed.

Lemma wal_refines_spec_witness :
  exists log' seq' ds',
    trace spec_step (0%N, []) [Appended [x2a] (inr tt); Crashed [x2b]; RestartCrashed (2 ^ 60); Reopened] (seq', ds') /\
    rep (deps := sum_deps) log' seq' ds'.
Proof.
  destruct log_one_crash as (r & log1 & ops & Ha & Hh & Hc).
  destruct log_restart_crash as (r' & log2 & ops' & Hr & Hh' & Hc').
  exists log_restarted. apply (wal_refines_spec (deps := sum_deps) (new_log 1000) 0 []).
  - apply new_log_rep. vm_decide.
  - repeat constructor; vm_decide.
  - apply trace_cons with log_one; [by apply (step_append false)|].
    apply trace_cons with log_recovered.
    { eapply (step_crash false); [exact Ha|exact Hh|exact Hc|eapply recovers_now; vm_compute; reflexivity]. }
    apply trace_cons with log_restarted.
    { eapply step_restart_crash; [exact Hr|exact Hh'|exact Hc'|apply log_restart_recovers]. }
    apply trace_cons with log_restarted; [|apply trace_nil].
    eapply step_reopen, recovers_now. vm_compute. reflexivity.
Defined.

Lemma append_atomic_witness :
  exists r log' ops, Log.append (deps := sum_deps) true (new_log 1000) [x2a; x2b] = (r, log') /\
    history log'.(Log.storage) = ops /\
    (r = inr tt /\ rep (deps := sum_deps) log' 0 [[x2a; x2b]] \/ r = inl IoError.StorageFull).
Proof.
  destruct (append_atomic (deps := sum_deps) true (new_log 1000) 0 [] [x2a; x2b])
    as (r & log' & ops & Ha & Hh & Hr & _).
  - apply new_log_rep. vm_decide.
  - vm_decide.
  - exists r, log', ops. split; [exact Ha|]. split; [exact Hh|].
    destruct Hr as [Hr|[Hr _]]; [left; exact Hr|right; exact Hr].
Defined.

Lemma restart_crash_keeps_old_entries_witness :
  exists log' ops img log2 f, Log.restart (new_log 1000) 7 = (inr tt, log') /\
    crash_image (header 0) ops img /\
    Log.open_with (opened img 1000) = (inr log2, f) /\ rep (deps := sum_deps) log2 7 [].
Proof.
  destruct (restart_crash_keeps_old_entries (deps := sum_deps) (new_log 1000) 0 [] 7)
    as (log' & ops & img & log2 & f & Hr & Hh & Hi & Ho & Hrep).
  - apply new_log_rep. vm_decide.
  - vm_decide.
  - exists log', ops, img, log2, f. split_and!; assumption.
Defined.

Lemma oversized_entry_unreadable_witness :
  exists log1 log2,
    Log.append (deps := sum_deps) false (new_log (2 ^ 40)) (zeros (MAX_ENTRY_SIZE + 1)) = (inr tt, log1) /\
    Log.iter (deps := sum_deps) log1 = (inr [inl IoError.InvalidData], log2).
Proof.
  apply (oversized_entry_unreadable (deps := sum_deps) (new_log (2 ^ 40)) 0 []).
  - apply new_log_rep. vm_decide.
  - rewrite size_zeros. vm_decide.
  - rewrite size_zeros. cbn [Log.storage contents limit]. rewrite size_header. vm_decide.
Defined.

Lemma creation_crash_blocks_open_witness :
  exists log f img f2, Log.open_with (opened [] 1000) = (inr log, f) /\
    crash_image [] (history f) img /\ size img = 5%N /\
    Log.open_with (opened img 1000) = (inl IoError.UnexpectedEof, f2).
Proof. apply (creation_crash_blocks_open 5 1000); vm_decide. Defined.
