(* ===== verification/EngineWal.v ===== *)
(** * The engine's write-ahead log

    What the engine stores in the log and how: the encoding of the entries
    (engine/src/wal/entry.rs), the thread that owns the log
    (engine/src/wal/thread.rs) and the actor in front of it (engine/src/wal.rs).
    Channels are modelled by their content: a message gets its reply, or none
    when the other end is gone. The codec of messages and values is a
    parameter. *)

From S2P Require Import Prelude Types Bytes Context Starknet Wal WalFacts Driver Verify ConsensusTypes.

(** [Height::as_u64]. *)
Class HeightNumber `{Ctx : Context} : Type := as_u64 : Height -> N.

(** [Codec] for the two kinds of payload; an error is [None]. *)
Class WalCodec `{Ctx : Context} : Type := {
  encode_msg : SignedConsensusMsg.t -> option bytes;
  decode_msg : bytes -> option SignedConsensusMsg.t;
  encode_value : ProposedValue.t -> option bytes;
  decode_value : bytes -> option ProposedValue.t;
}.

(** Decoding what was encoded gives it back. *)
Class WalCodecLaws `{WalCodec} : Prop := {
  decode_encode_msg m b : encode_msg m = Some b -> decode_msg b = Some m;
  decode_encode_value v b : encode_value v = Some b -> decode_value b = Some v;
}.

(** [Result::map]. *)
Definition map_ok {E A B} (f : A -> B) (r : E + A) : E + B :=
  match r with inl e => inl e | inr a => inr (f a) end.

(** ** Entries (entry.rs) *)

Module EntryCodec.

Definition TAG_CONSENSUS : N := 1.
Definition TAG_TIMEOUT : N := 2.
Definition TAG_PROPOSED_VALUE : N := 4.

(** [i64] in big-endian bytes: two's complement. *)
Definition i64_to_be_bytes (z : Z) : bytes := to_be_bytes 8 (Z.to_N (z mod 2 ^ 64)).
Definition i64_from_be_bytes (b : bytes) : Z :=
  let n := Z.of_N (from_be_bytes b) in if (n <? 2 ^ 63)%Z then n else (n - 2 ^ 64)%Z.

(** Reading from a cursor over bytes: the value and the rest. *)
Definition read_exact (n : N) (buf : bytes) : IoError.t + bytes * bytes :=
  if (n <=? size buf)%N then inr (takeN n buf, dropN n buf) else inl IoError.UnexpectedEof.

(** [vec![0; len]] panics when the size overflows [isize]. *)
Definition vec_of_len (len : N) : outcome unit :=
  assert_that (len <=? I64_MAX)%N "capacity overflow".

Section entry.
Context {Ctx : Context} {codec : WalCodec}.

Definition encode_payload (tag : N) (payload : option bytes) : IoError.t + bytes :=
  match payload with
  | None => inl IoError.InvalidData
  | Some b => inr (to_be_bytes 1 tag ++ to_be_bytes 8 (size b) ++ b)
  end.

Definition encode_consensus_msg (tag : N) (msg : SignedConsensusMsg.t) : IoError.t + bytes :=
  encode_payload tag (encode_msg msg).
Definition encode_proposed_value (tag : N) (value : ProposedValue.t) : IoError.t + bytes :=
  encode_payload tag (encode_value value).

Definition encode_timeout (tag : N) (timeout : RoundTimeout.t) : IoError.t + bytes :=
  let step := match timeout.(RoundTimeout.kind) with
              | TimeoutKind.Propose => 1
              | TimeoutKind.Prevote => 2
              | TimeoutKind.Precommit => 3
              | TimeoutKind.Rebroadcast => 7
              end%N in
  inr (to_be_bytes 1 tag ++ to_be_bytes 1 step ++
       i64_to_be_bytes (Round.as_i64 timeout.(RoundTimeout.round))).

Definition encode_entry (entry : WalEntry.t) : IoError.t + bytes :=
  match entry with
  | WalEntry.ConsensusMsg msg => encode_consensus_msg TAG_CONSENSUS msg
  | WalEntry.Timeout timeout => encode_timeout TAG_TIMEOUT timeout
  | WalEntry.ProposedValue value => encode_proposed_value TAG_PROPOSED_VALUE value
  end.

(** The common body of [decode_consensus_msg] and [decode_proposed_value]. *)
Definition decode_payload {A} (decode : bytes -> option A) (buf : bytes) : outcome (IoError.t + A) :=
  match read_exact 8 buf with
  | inl e => Ret (inl e)
  | inr (len, buf) =>
      let len := from_be_bytes len in
      _ ← vec_of_len len;
      match read_exact len buf with
      | inl e => Ret (inl e)
      | inr (b, _) =>
          Ret (match decode b with Some a => inr a | None => inl IoError.InvalidData end)
      end
  end.

Definition decode_consensus_msg (buf : bytes) : outcome (IoError.t + SignedConsensusMsg.t) :=
  decode_payload decode_msg buf.
Definition decode_proposed_value (buf : bytes) : outcome (IoError.t + ProposedValue.t) :=
  decode_payload decode_value buf.

(** Steps 4 to 6 were removed from the protocol; all other bytes are errors
    too. *)
Definition decode_step (step : N) : option TimeoutKind.t :=
  match step with
  | 1 => Some TimeoutKind.Propose
  | 2 => Some TimeoutKind.Prevote
  | 3 => Some TimeoutKind.Precommit
  | 7 => Some TimeoutKind.Rebroadcast
  | _ => None
  end%N.

Definition decode_timeout (buf : bytes) : outcome (IoError.t + RoundTimeout.t) :=
  match read_exact 1 buf with
  | inl e => Ret (inl e)
  | inr (step, buf) =>
      match decode_step (from_be_bytes step) with
      | None => Ret (inl IoError.InvalidData)
      | Some step =>
          match read_exact 8 buf with
          | inl e => Ret (inl e)
          | inr (round, _) =>
              round ← Round.from_i64 (i64_from_be_bytes round);
              Ret (inr (RoundTimeout.new round step))
          end
      end
  end.

Definition decode_entry (buf : bytes) : outcome (IoError.t + WalEntry.t) :=
  match read_exact 1 buf with
  | inl e => Ret (inl e)
  | inr (tag, buf) =>
      let tag := from_be_bytes tag in
      if (tag =? TAG_CONSENSUS)%N
      then r ← decode_consensus_msg buf; Ret (map_ok WalEntry.ConsensusMsg r)
      else if (tag =? TAG_TIMEOUT)%N
      then r ← decode_timeout buf; Ret (map_ok WalEntry.Timeout r)
      else if (tag =? TAG_PROPOSED_VALUE)%N
      then r ← decode_proposed_value buf; Ret (map_ok WalEntry.ProposedValue r)
      else Ret (inl IoError.InvalidData)
  end.

(** *** Round trip *)

Context {laws : WalCodecLaws}.

(** The entries the program makes: rounds are [u32], and a payload is shorter
    than the address space. *)
Definition storable (entry : WalEntry.t) : Prop :=
  match entry with
  | WalEntry.ConsensusMsg msg => forall b, encode_msg msg = Some b -> (size b <= I64_MAX)%N
  | WalEntry.Timeout timeout => Round.in_range timeout.(RoundTimeout.round)
  | WalEntry.ProposedValue value => forall b, encode_value value = Some b -> (size b <= I64_MAX)%N
  end.

Lemma read_exact_app b buf n : n = size b -> read_exact n (b ++ buf) = inr (b, buf).
Proof.
  intros ->. unfold read_exact. rewrite size_app, takeN_app, dropN_app.
  destruct (N.leb_spec (size b) (size b + size buf)); [done|lia].
Qed.

Lemma i64_roundtrip z : (- 2 ^ 63 <= z < 2 ^ 63)%Z -> i64_from_be_bytes (i64_to_be_bytes z) = z.
Proof.
  intros Hz. unfold i64_from_be_bytes, i64_to_be_bytes.
  assert (Hb : (0 <= z mod 2 ^ 64 < 2 ^ 64)%Z) by (apply Z.mod_pos_bound; lia).
  rewrite from_to_be_bytes by (apply N2Z.inj_lt; rewrite Z2N.id; [exact (proj2 Hb)|exact (proj1 Hb)]).
  rewrite Z2N.id by exact (proj1 Hb). destruct (Z.ltb_spec (z mod 2 ^ 64) (2 ^ 63)) as [H|H].
  - destruct (Z.neg_nonneg_cases z) as [Hn|Hn]; [|by apply Z.mod_small; lia].
    rewrite <- (Z.mod_add z 1), Z.mod_small in H by lia. lia.
  - destruct (Z.neg_nonneg_cases z) as [Hn|Hn]; [|rewrite Z.mod_small in H by lia; lia].
    rewrite <- (Z.mod_add z 1), Z.mod_small by lia. lia.
Qed.

Lemma from_i64_as_i64 r : Round.in_range r -> Round.from_i64 (Round.as_i64 r) = Ret r.
Proof.
  intros Hr. unfold Round.from_i64. destruct r as [|n]; [done|].
  unfold Round.in_range in Hr. cbn [Round.as_i64].
  destruct (Z.leb_spec (Z.of_N n) (Z.of_N U32_MAX)) as [_|H]; [|lia]. cbn [assert_that mbind outcome_bind].
  destruct (Z.ltb_spec (Z.of_N n) 0); [lia|]. unfold Round.new. by rewrite N2Z.id.
Qed.

Lemma decode_encode_payload {A} (decode : bytes -> option A) tag b a :
  (size b <= I64_MAX)%N -> decode b = Some a ->
  exists buf, encode_payload tag (Some b) = inr (to_be_bytes 1 tag ++ buf) /\
    decode_payload decode buf = Ret (inr a).
Proof.
  intros Hb Ha. eexists. split; [done|]. unfold decode_payload.
  rewrite read_exact_app by (by rewrite size_to_be_bytes). unfold I64_MAX in Hb.
  rewrite from_to_be_bytes by (change (256 ^ N.of_nat 8)%N with (2 ^ 64)%N; lia).
  unfold vec_of_len, I64_MAX. destruct (N.leb_spec (size b) 9223372036854775807); [|lia].
  cbn [assert_that mbind outcome_bind]. rewrite <- (app_nil_r b) at 2.
  by rewrite read_exact_app, Ha.
Qed.

Lemma decode_entry_tag tag buf :
  (tag < 256)%N -> read_exact 1 (to_be_bytes 1 tag ++ buf) = inr (to_be_bytes 1 tag, buf) /\
  from_be_bytes (to_be_bytes 1 tag) = tag.
Proof.
  intros Htag. split; [apply read_exact_app; by rewrite size_to_be_bytes|]. by apply from_to_be_bytes.
Qed.

Lemma decode_encode_entry entry b :
  storable entry -> encode_entry entry = inr b -> decode_entry b = Ret (inr entry).
Proof.
  intros Hs He. destruct entry as [msg|timeout|value]; unfold decode_entry.
  - unfold encode_entry, encode_consensus_msg in He. destruct (encode_msg msg) as [p|] eqn:Hp; [|done].
    destruct (decode_encode_payload decode_msg TAG_CONSENSUS p msg) as (buf & Hb & Hd);
      [by apply Hs|by apply decode_encode_msg|].
    assert (b = to_be_bytes 1 TAG_CONSENSUS ++ buf) as -> by congruence.
    destruct (decode_entry_tag TAG_CONSENSUS buf) as [-> ->]; [done|].
    cbn. unfold decode_consensus_msg. by rewrite Hd.
  - destruct timeout as [kind round]. unfold encode_entry, encode_timeout in He.
    cbn [RoundTimeout.kind RoundTimeout.round storable] in He, Hs.
    match type of He with inr ?x = _ => assert (b = x) as -> by congruence end.
    destruct (decode_entry_tag TAG_TIMEOUT (to_be_bytes 1
      match kind with TimeoutKind.Propose => 1 | TimeoutKind.Prevote => 2 | TimeoutKind.Precommit => 3
      | TimeoutKind.Rebroadcast => 7 end%N ++ i64_to_be_bytes (Round.as_i64 round))) as [-> ->]; [done|].
    cbn -[decode_timeout to_be_bytes i64_to_be_bytes]. unfold decode_timeout.
    rewrite read_exact_app by (by rewrite size_to_be_bytes).
    rewrite from_to_be_bytes by (by destruct kind).
    replace (decode_step _) with (Some kind) by (by destruct kind).
    rewrite <- (app_nil_r (i64_to_be_bytes _)).
    rewrite read_exact_app by (unfold i64_to_be_bytes; by rewrite size_to_be_bytes).
    rewrite i64_roundtrip, from_i64_as_i64; [done|done|].
    destruct round as [|n]; cbn in Hs |- *; [lia|]. unfold U32_MAX in Hs. lia.
  - unfold encode_entry, encode_proposed_value in He. destruct (encode_value value) as [p|] eqn:Hp; [|done].
    destruct (decode_encode_payload decode_value TAG_PROPOSED_VALUE p value) as (buf & Hb & Hd);
      [by apply Hs|by apply decode_encode_value|].
    assert (b = to_be_bytes 1 TAG_PROPOSED_VALUE ++ buf) as -> by congruence.
    destruct (decode_entry_tag TAG_PROPOSED_VALUE buf) as [-> ->]; [done|].
    cbn. unfold decode_proposed_value. by rewrite Hd.
Qed.

(** decoding a log entry gives back the entry that was encoded, for every
    kind of entry, step and round. *)
Theorem entry_roundtrip entry b :
  storable entry -> encode_entry entry = inr b -> decode_entry b = Ret (inr entry).
Proof. apply decode_encode_entry. Qed.

End entry.
End EntryCodec.

(** ** The thread (thread.rs) *)

Module WalThread.

(** [eyre::Report]: an I/O error, or entries that do not decode. *)
Inductive Report : Type :=
  | Io (e : IoError.t)
  | NotAllDecoded (expected got : N).

Inductive WalMsg {Ctx : Context} : Type :=
  | StartedHeight (height : Height)
  | Reset (height : Height)
  | Append (entry : WalEntry.t)
  | Flush
  | Shutdown
  | Dump.

(** What comes back on the message's reply channel. *)
Inductive Reply {Ctx : Context} : Type :=
  | Entries (r : Report + list WalEntry.t)
  | Done (r : Report + unit)
  | NoReply.

Definition io_result {A} (r : IoError.t + A) : Report + A :=
  match r with inl e => inl (Io e) | inr a => inr a end.

Section thread.
Context {Ctx : Context} {codec : WalCodec} {deps : WalDeps} {number : HeightNumber}.
Context (force_compression : bool).

(** The two [filter_map]s of [fetch_entries]: errors are reported and skipped. *)
Fixpoint decode_all (items : list (IoError.t + bytes)) : outcome (list WalEntry.t) :=
  match items with
  | [] => Ret []
  | inl _ :: items => decode_all items
  | inr b :: items =>
      r ← EntryCodec.decode_entry b;
      rest ← decode_all items;
      Ret (match r with inr entry => entry :: rest | inl _ => rest end)
  end.

Definition fetch_entries (log : Log.t) : outcome ((Report + list WalEntry.t) * Log.t) :=
  if Log.is_empty log then Ret (inr [], log)
  else
    match Log.iter log with
    | (inl e, log) => Ret (inl (Io e), log)
    | (inr items, log) =>
        entries ← decode_all items;
        Ret (if (log.(Log.len) =? N.of_nat (length entries))%N then inr entries
             else inl (NotAllDecoded log.(Log.len) (N.of_nat (length entries))), log)
    end.

(** [dump_entries] prints every entry, decoded. *)
Definition dump_entries (log : Log.t) : outcome Log.t :=
  match Log.iter log with
  | (inl _, log) => Ret log
  | (inr items, log) => _ ← decode_all items; Ret log
  end.

(** The reply, the log, and whether the thread goes on. *)
Definition process_msg (msg : WalMsg) (log : Log.t) : outcome (Reply * Log.t * bool) :=
  match msg with
  | StartedHeight height =>
      let sequence := as_u64 height in
      if (sequence =? log.(Log.sequence))%N
      then '(entries, log) ← fetch_entries log; Ret (Entries entries, log, true)
      else
        let '(result, log) := Log.restart log sequence in
        Ret (Entries (map_ok (fun _ => []) (io_result result)), log, true)
  | Reset height =>
      let sequence := as_u64 height in
      let '(result, log) := Log.restart log sequence in
      Ret (Done (io_result result), log, true)
  | Append entry =>
      match EntryCodec.encode_entry entry with
      | inl _ => Ret (NoReply, log, true)
      | inr buf =>
          match buf with
          | [] => Ret (NoReply, log, true)
          | _ =>
              let '(result, log) := Log.append force_compression log buf in
              Ret (Done (io_result result), log, true)
          end
      end
  | Flush => let '(result, log) := Log.flush log in Ret (Done (io_result result), log, true)
  | Dump => log ← dump_entries log; Ret (NoReply, log, true)
  | Shutdown => Ret (NoReply, log, false)
  end.

End thread.
End WalThread.

(** ** The actor (wal.rs) *)

Module WalActor.


Inductive Reply {Ctx : Context} : Type :=
  | Entries (r : WalThread.Report + option (list WalEntry.t))
  | Done (r : WalThread.Report + unit)
  | NoReply.

(** The log is with the thread, while it runs. *)
Record State {Ctx : Context} : Type := mk {
  height : Height;
  thread : option Log.t;
}.
Arguments mk {Ctx} height thread.

Section actor.
Context {Ctx : Context} {codec : WalCodec} {deps : WalDeps} {number : HeightNumber}.
Context (force_compression : bool).


(** Sending a message to the thread and waiting for the reply. A panic ends the
    thread; a message to an ended thread is an error, and so is a reply channel
    that was dropped. *)
Definition ask (state : State) (msg : WalThread.WalMsg) : WalThread.Reply * State :=
  match state.(thread) with
  | None => (WalThread.NoReply, state)
  | Some log =>
      match WalThread.process_msg force_compression msg log with
      | Panic _ => (WalThread.NoReply, mk state.(height) None)
      | Ret (reply, log, true) => (reply, mk state.(height) (Some log))
      | Ret (reply, log, false) => (reply, mk state.(height) None)
      end
  end.





(** [post_stop]. *)
Definition post_stop (state : State) : State := snd (ask state WalThread.Shutdown).


End actor.
End WalActor.

(** ** Durability *)

Section durability.
Context {Ctx : Context} {codec : WalCodec} {deps : WalDeps} {number : HeightNumber}.
Context {codec_laws : WalCodecLaws} {deps_laws : WalDepsLaws deps}.
Context (force_compression : bool).



















End durability.

(** ** An instance

    A codec for the concrete context: any countable type is encoded by the
    bits of its number, one in a byte. *)
Section instance.
#[local] Existing Instances N_context.

Fixpoint bits (p : positive) : bytes :=
  match p with xH => [] | xO p => x00 :: bits p | xI p => x01 :: bits p end.
Fixpoint from_bits (b : bytes) : positive :=
  match b with
  | [] => xH
  | b :: l => if decide (b = x00) then xO (from_bits l) else xI (from_bits l)
  end.

Lemma from_bits_bits p : from_bits (bits p) = p.
Proof. induction p as [p IH|p IH|]; cbn; by rewrite ?IH. Qed.

Definition nil_or (v : NilOrVal.t N) : option N :=
  match v with NilOrVal.Nil => None | NilOrVal.Val v => Some v end.
Definition of_nil_or (o : option N) : NilOrVal.t N :=
  match o with None => NilOrVal.Nil | Some v => NilOrVal.Val v end.

Definition vote_tuple (v : SnVote (PK := N) (Hash := N)) :=
  (bool_decide (sn_vote_type v = VoteType.Prevote), (sn_vote_height v).(SnHeight.block_number),
   (sn_vote_height v).(SnHeight.fork_id), sn_vote_round v, nil_or (sn_block_hash v), sn_voter v).
Definition proposal_tuple (p : SnProposal (PK := N) (Hash := N)) :=
  ((sn_proposal_height p).(SnHeight.block_number), (sn_proposal_height p).(SnHeight.fork_id),
   sn_proposal_round p, sn_value_id p, sn_pol_round p, sn_proposer p).

Definition number_of_msg (m : SignedConsensusMsg.t) : positive :=
  match m with
  | SignedConsensusMsg.Vote v =>
      encode (inl (B := N * N * Round.t * N * Round.t * N * N)
        (vote_tuple v.(SignedMessage.message), v.(SignedMessage.signature) : N))
  | SignedConsensusMsg.Proposal p =>
      encode (inr (A := bool * N * N * Round.t * option N * N * N)
        (proposal_tuple p.(SignedMessage.message), p.(SignedMessage.signature) : N))
  end.
Definition msg_of_number (p : positive) : option SignedConsensusMsg.t :=
  match decode p with
  | Some (inl (ty, b, f, r, v, a, s)) =>
      Some (SignedConsensusMsg.Vote (SignedMessage.new
        (mk_vote (if ty : bool then VoteType.Prevote else VoteType.Precommit) (SnHeight.new b f) r
           (of_nil_or v) a : Vote) (s : Signature)))
  | Some (inr (b, f, r, v, pr, a, s)) =>
      Some (SignedConsensusMsg.Proposal (SignedMessage.new
        (proposal_new (SnHeight.new b f) r v pr a : Proposal) (s : Signature)))
  | None => None
  end.

Definition number_of_value (v : ProposedValue.t) : positive :=
  encode (v.(ProposedValue.height).(SnHeight.block_number), v.(ProposedValue.height).(SnHeight.fork_id),
    v.(ProposedValue.round), v.(ProposedValue.valid_round), v.(ProposedValue.proposer) : N,
    v.(ProposedValue.value) : N, Validity.is_valid v.(ProposedValue.validity)).
Definition value_of_number (p : positive) : option ProposedValue.t :=
  match decode p with
  | Some (b, f, r, vr, a, v, va) =>
      Some (ProposedValue.mk (SnHeight.new b f : Height) r vr (a : Address) (v : Value) (Validity.from_bool va))
  | None => None
  end.

#[local] Instance bits_codec : WalCodec := {
  encode_msg m := Some (bits (number_of_msg m));
  decode_msg b := msg_of_number (from_bits b);
  encode_value v := Some (bits (number_of_value v));
  decode_value b := value_of_number (from_bits b);
}.

#[local] Instance bits_codec_laws : WalCodecLaws.
Proof.
  split.
  - intros m b [= <-]. cbn. rewrite from_bits_bits. unfold msg_of_number.
    destruct m as [[[ty [b f] r v a] s]|[[[b f] r v pr a] s]]; unfold number_of_msg;
      rewrite decode_encode; cbn; [|done]. by destruct ty, v.
  - intros v b [= <-]. cbn. rewrite from_bits_bits. unfold value_of_number, number_of_value.
    rewrite decode_encode. by destruct v as [[b f] r vr a v []].
Qed.

#[local] Instance sn_height_number : HeightNumber := SnHeight.as_u64.
#[local] Existing Instances sum_deps sum_deps_laws.

Definition some_vote : WalEntry.t :=
  WalEntry.ConsensusMsg (SignedConsensusMsg.Vote (SignedMessage.new
    (new_precommit SnHeight.INITIAL (Round.new 0) (NilOrVal.Val 7) 2 : Vote) (5 : Signature)))%N.

Lemma entry_roundtrip_witness :
  exists b, EntryCodec.encode_entry some_vote = inr b /\ EntryCodec.decode_entry b = Ret (inr some_vote).
Proof.
  eexists. split; [reflexivity|]. apply (EntryCodec.entry_roundtrip some_vote); [|reflexivity].
  intros b [= <-]. vm_decide.
Defined.

(** A log at the first height. *)
Abbreviation started_log := (Log.mk (mk_file (header 1) 12 4096 []) Version.V1 1 0).






End instance.
