(* ===== verification/Scoring.v ===== *)
(** * Peer scoring

    sync/src/scoring.rs and scoring/ema.rs: the scores that value sync gives
    its peers from the results of their requests, and the choice of a peer.
    A score is an IEEE 754 binary64 number, computed with the specification of
    floating-point arithmetic of the standard library (rounding to nearest,
    ties to even). The clock, the random number generator, the sampling of a
    weighted index and [f64::exp] are parameters. *)

From Stdlib Require Import SpecFloat.
From S2P Require Import Prelude.

(** ** Binary64 numbers *)

Abbreviation f64 := spec_float.

Definition f64_prec : Z := 53.
Definition f64_emax : Z := 1024.

Definition f64_add : f64 -> f64 -> f64 := SFadd f64_prec f64_emax.
Definition f64_sub : f64 -> f64 -> f64 := SFsub f64_prec f64_emax.
Definition f64_mul : f64 -> f64 -> f64 := SFmul f64_prec f64_emax.
Definition f64_div : f64 -> f64 -> f64 := SFdiv f64_prec f64_emax.

(** [n as f64]. *)
Definition f64_of_N (n : N) : f64 := binary_normalize f64_prec f64_emax (Z.of_N n) 0 false.

Definition f64_zero : f64 := S754_zero false.
Definition f64_one : f64 := f64_of_N 1.

(** The literal [n / d]: division is correctly rounded, as literals are. *)
Definition f64_lit (n d : N) : f64 := f64_div (f64_of_N n) (f64_of_N d).

(** [f64::max]: a NaN loses against a number. *)
Definition f64_max (x y : f64) : f64 :=
  match x, y with
  | S754_nan, _ => y
  | _, S754_nan => x
  | _, _ => if SFltb x y then y else x
  end.

(** [(0.0..=1.0).contains(&x)]. *)
Definition in_unit (x : f64) : bool := SFleb f64_zero x && SFleb x f64_one.

(** ** Durations: nanoseconds *)

Definition Duration : Type := N.
Definition Instant : Type := N.

Definition as_secs_f64 (d : Duration) : f64 :=
  f64_add (f64_of_N (d / 1000000000)) (f64_div (f64_of_N (d mod 1000000000)) (f64_of_N 1000000000)).
Definition from_secs (n : N) : Duration := (n * 1000000000)%N.

(** ** The environment

    Reading the clock and drawing a random index change the environment.
    [weighted_index ws] is [WeightedIndex::new(ws)] followed by [sample]: it is
    [None] where [new] fails. *)
Class Environment : Type := {
  Clock : Type;
  instant_now : Clock -> Instant * Clock;
  Rng : Type;
  weighted_index : list f64 -> Rng -> option (nat * Rng);
  f64_exp : f64 -> f64;
}.

(** ** Results and strategies *)

Module SyncResult.
Inductive t : Type :=
  | Success (response_time : Duration)
  | Timeout
  | Failure.
End SyncResult.

Abbreviation Score := f64.

Class ScoringStrategy (PeerId S : Type) : Type := {
  initial_score : S -> PeerId -> Score;
  strategy_update_score : S -> Score -> SyncResult.t -> S * Score;
}.

(** The contract in the trait's documentation: scores are in [0.0..=1.0]. *)
Class ScoringLaws (PeerId S : Type) `{ScoringStrategy PeerId S} (ok : S -> Prop) : Prop := {
  initial_score_unit s p : ok s -> in_unit (initial_score s p) = true;
  update_score_ok s x r : ok s -> ok (strategy_update_score s x r).1;
  update_score_unit s x r : ok s -> in_unit x = true ->
    in_unit (strategy_update_score s x r).2 = true;
}.

(** ** Exponential moving averages (ema.rs) *)

Module Ema.

Record t : Type := mk {
  alpha_success : f64;
  alpha_timeout : f64;
  alpha_failure : f64;
  slow_threshold : Duration;
}.

Definition new (alpha_success alpha_timeout alpha_failure : f64) (slow_threshold : Duration) : outcome t :=
  _ ← assert_that (in_unit alpha_success) "alpha_success must be between 0.0 and 1.0";
  _ ← assert_that (in_unit alpha_timeout) "alpha_timeout must be between 0.0 and 1.0";
  _ ← assert_that (in_unit alpha_failure) "alpha_failure must be between 0.0 and 1.0";
  _ ← assert_that (SFltb f64_zero (as_secs_f64 slow_threshold)) "slow_threshold must be greater than zero";
  Ret (mk alpha_success alpha_timeout alpha_failure slow_threshold).

Definition default : outcome t :=
  new (f64_lit 2 10) (f64_lit 1 10) (f64_lit 15 100) (from_secs 1).

Section ema.
Context {Env : Environment} {PeerId : Type}.

Definition quality (self : t) (response_time : Duration) : f64 :=
  if (response_time <? self.(slow_threshold))%N then f64_one
  else f64_exp (f64_div (SFopp (as_secs_f64 response_time)) (as_secs_f64 self.(slow_threshold))).

Definition update_score (self : t) (previous_score : Score) (result : SyncResult.t) : Score :=
  match result with
  | SyncResult.Success response_time =>
      f64_add (f64_mul self.(alpha_success) (quality self response_time))
              (f64_mul (f64_sub f64_one self.(alpha_success)) previous_score)
  | SyncResult.Timeout => f64_mul (f64_sub f64_one self.(alpha_timeout)) previous_score
  | SyncResult.Failure => f64_mul (f64_sub f64_one self.(alpha_failure)) previous_score
  end.

#[global] Instance strategy : ScoringStrategy PeerId t := {
  initial_score _ _ := f64_lit 1 2;
  strategy_update_score self x r := (self, update_score self x r);
}.

End ema.
End Ema.

(** ** The scorer *)

Module PeerScore.
Record t : Type := mk { score : Score; last_update : Instant }.

(** [PeerScore::new]. *)
Definition new `{Environment} (score : Score) (clock : Clock) : t * Clock :=
  let '(now, clock) := instant_now clock in (mk score now, clock).
End PeerScore.

Module PeerScorer.
Record t {PeerId S : Type} `{EqDecision PeerId, !Countable PeerId} : Type := mk {
  scores : gmap PeerId PeerScore.t;
  strategy : S;
}.
Arguments t PeerId S {_ _}.
Arguments mk {PeerId S _ _} scores strategy.
Arguments scores {PeerId S _ _} self : rename.
Arguments strategy {PeerId S _ _} self : rename.

Section scorer.
Context {Env : Environment} {PeerId S : Type} `{EqDecision PeerId, !Countable PeerId}.
Context {Str : ScoringStrategy PeerId S}.
Implicit Types (self : t PeerId S).

Definition new (strategy : S) : t PeerId S := mk ∅ strategy.

Definition get_score self (peer_id : PeerId) : Score :=
  match self.(scores) !! peer_id with
  | Some p => p.(PeerScore.score)
  | None => initial_score self.(strategy) peer_id
  end.

(** [scores.entry(peer_id).or_insert_with(...)]. *)
Definition entry self (peer_id : PeerId) (clock : Clock) : PeerScore.t * Clock :=
  match self.(scores) !! peer_id with
  | Some p => (p, clock)
  | None => PeerScore.new (initial_score self.(strategy) peer_id) clock
  end.

Definition update_score self (peer_id : PeerId) (result : SyncResult.t) (clock : Clock)
    : t PeerId S * Clock :=
  let '(peer_score, clock) := entry self peer_id clock in
  let '(strategy, new_score) :=
    strategy_update_score self.(strategy) peer_score.(PeerScore.score) result in
  let '(now, clock) := instant_now clock in
  (mk (<[peer_id := PeerScore.mk new_score now]> self.(scores)) strategy, clock).

(** Panics if the sampled index is out of bounds. *)
Definition select_peer self (peers : list PeerId) (rng : Rng) : outcome (option PeerId * Rng) :=
  match peers with
  | [] => Ret (None, rng)
  | _ =>
      match weighted_index ((fun id => f64_max (get_score self id) f64_zero) <$> peers) rng with
      | None => Ret (None, rng)
      | Some (index, rng) =>
          _ ← assert_that (Nat.ltb index (length peers)) "Index out of bounds";
          Ret (peers !! index, rng)
      end
  end.

(** [Instant::duration_since] saturates at zero. *)
Definition reset_inactive_peers_scores self (inactive_threshold : Duration) (clock : Clock)
    : t PeerId S * Clock :=
  let '(now, clock) := instant_now clock in
  (mk (filter (fun kv => now - kv.2.(PeerScore.last_update) < inactive_threshold)%N self.(scores))
      self.(strategy), clock).

End scorer.
End PeerScorer.
