(* ===== verification/SyncTypes.v ===== *)
(** * Value sync: data and state

    sync/src: the vocabulary of the protocol (types.rs, effect.rs), its
    configuration (config.rs), the state with the requests in flight and those
    waiting for consensus (state.rs), and the parts of the metrics that the
    handlers read back (metrics.rs). *)

From Stdlib Require Import SpecFloat.
From S2P Require Import Prelude Types Bytes Context BTree ConsensusTypes Scoring.

(** ** Ranges of heights

    [std::ops::RangeInclusive], and the order of heights: [h1 <= h2] is
    [!(h2 < h1)]. *)

Definition Height_leb `{Ctx : Context} (h1 h2 : Height) : bool := negb (Height_ltb h2 h1).
Definition Height_max `{Ctx : Context} (h1 h2 : Height) : Height := if Height_ltb h2 h1 then h1 else h2.

Module RangeInclusive.
Record t {Ctx : Context} : Type := new { start : Height; end_ : Height }.
Arguments new {Ctx} start end_.

Section range.
Context {Ctx : Context}.

Definition contains (self : t) (h : Height) : bool :=
  Height_leb self.(start) h && Height_leb h self.(end_).
Definition is_empty (self : t) : bool := negb (Height_leb self.(start) self.(end_)).

(** [range.end().as_u64() - range.start().as_u64() + 1]. *)
Definition len_u64 `{!HeightArith} (self : t) : outcome N :=
  d ← sub_u64 (Height_as_u64 self.(end_)) (Height_as_u64 self.(start));
  add_u64 d 1.

End range.

#[global] Instance t_eq_dec `{Ctx : Context} : EqDecision t.
Proof. solve_decision. Defined.
End RangeInclusive.
Abbreviation Range := RangeInclusive.t.

(** ** Messages (types.rs) *)

Module HeightStartType.
Inductive t : Type := Start | Restart.

Definition from_is_restart (is_restart : bool) : t := if is_restart then Restart else Start.
Definition is_start (self : t) : bool := match self with Start => true | Restart => false end.
Definition is_restart (self : t) : bool := match self with Restart => true | Start => false end.
End HeightStartType.

(** Both are strings, ordered as such. *)
Definition InboundRequestId : Type := string.
Definition OutboundRequestId : Type := string.

Module Status.
Record t {Ctx : Context} : Type := mk {
  peer_id : PeerId;
  tip_height : Height;
  history_min_height : Height;
}.
Arguments mk {Ctx} peer_id tip_height history_min_height.
End Status.

Module RawDecidedValue.
Record t {Ctx : Context} : Type := new { value_bytes : bytes; certificate : CommitCertificate.t }.
Arguments new {Ctx} value_bytes certificate.

Definition height {Ctx : Context} (self : t) : Height := self.(certificate).(CommitCertificate.height).
End RawDecidedValue.

Module ValueRequest.
Record t {Ctx : Context} : Type := new { range : Range }.
Arguments new {Ctx} range.
End ValueRequest.

Module SyncValueResponse.
Record t {Ctx : Context} : Type := new {
  start_height : Height;
  values : list RawDecidedValue.t;
}.
Arguments new {Ctx} start_height values.

(** [values.len() as u64]. *)
Definition len_u64 {Ctx : Context} (self : t) : N := N.of_nat (length self.(values)).

Definition end_height `{HeightArith} (self : t) : outcome (option Height) :=
  match self.(values) with
  | [] => Ret None
  | _ =>
      d ← sub_u64 (len_u64 self) 1;
      h ← Height_increment_by self.(start_height) d;
      Ret (Some h)
  end.
End SyncValueResponse.

Inductive Request {Ctx : Context} : Type :=
  | Request_ValueRequest (r : ValueRequest.t).

(** ** Effects (effect.rs) *)

Module SyncResume.
Inductive t : Type :=
  | Continue
  | ValueRequestId (id : option OutboundRequestId).
End SyncResume.

Module SyncError.
Inductive t : Type :=
  | UnexpectedResume (r : SyncResume.t) (expected : string).
End SyncError.

Module SyncEffect.
Inductive t {Ctx : Context} : Type :=
  | BroadcastStatus (height : Height)
  | SendValueRequest (peer : PeerId) (request : ValueRequest.t)
  | SendValueResponse (request_id : InboundRequestId) (response : SyncValueResponse.t)
  | GetDecidedValues (request_id : InboundRequestId) (range : Range)
  | NotifyConsensusToProcessSyncResponse (request_id : OutboundRequestId) (peer : PeerId)
      (response : SyncValueResponse.t).
Arguments t {Ctx}.
End SyncEffect.

(** ** Inputs (handle.rs) *)

Module SyncInput.
Inductive t {Ctx : Context} : Type :=
  | Tick
  | Status (status : Status.t)
  | StartedHeight (height : Height) (restart : HeightStartType.t)
  | Decided (height : Height)
  | ValueRequest (request_id : InboundRequestId) (peer : PeerId) (request : ValueRequest.t)
  | ValueResponse (request_id : OutboundRequestId) (peer : PeerId) (response : option SyncValueResponse.t)
  | GotDecidedValues (request_id : InboundRequestId) (range : Range) (values : list RawDecidedValue.t)
  | SyncRequestTimedOut (request_id : OutboundRequestId) (peer : PeerId) (request : Request)
  | InvalidValue (peer : PeerId) (height : Height)
  | ValueProcessingError (peer : PeerId) (height : Height).
Arguments t {Ctx}.
End SyncInput.

(** ** Configuration (config.rs) *)

Inductive Strategy : Type := Strategy_Ema.

Module SyncConfig.
Record t : Type := mk {
  enabled : bool;
  request_timeout : Duration;
  max_request_size : N;
  max_response_size : N;
  parallel_requests : N;
  scoring_strategy : Strategy;
  inactive_threshold : option Duration;
  batch_size : N;
}.

Definition default : t :=
  mk true (from_secs 10) (1024 * 1024) (10 * 1024 * 1024) 5 Strategy_Ema None 5.

Definition new (enabled : bool) : t :=
  mk enabled default.(request_timeout) default.(max_request_size) default.(max_response_size)
    default.(parallel_requests) default.(scoring_strategy) default.(inactive_threshold)
    default.(batch_size).

Definition with_parallel_requests (self : t) (parallel_requests : N) : t :=
  mk self.(enabled) self.(request_timeout) self.(max_request_size) self.(max_response_size)
    parallel_requests self.(scoring_strategy) self.(inactive_threshold) self.(batch_size).
Definition with_batch_size (self : t) (batch_size : N) : t :=
  mk self.(enabled) self.(request_timeout) self.(max_request_size) self.(max_response_size)
    self.(parallel_requests) self.(scoring_strategy) self.(inactive_threshold) batch_size.
End SyncConfig.

(** ** Excising a height (handle.rs)

    The ranges after the call, and whether it succeeded. *)

Section excise.
Context {Ctx : Context} {Arith : HeightArith}.

(** [ranges.iter().position(|r| r.contains(&height))], with the ranges before
    and after. *)
Fixpoint split_at_height (ranges : list Range) (height : Height)
    : option (list Range * Range * list Range) :=
  match ranges with
  | [] => None
  | r :: ranges =>
      if RangeInclusive.contains r height then Some ([], r, ranges)
      else match split_at_height ranges height with
           | Some (before, range, after) => Some (r :: before, range, after)
           | None => None
           end
  end.

Definition excise_height (ranges : list Range) (height : Height) : outcome (list Range * bool) :=
  match split_at_height ranges height with
  | None => Ret (ranges, false)
  | Some (before, range, after) =>
      let ranges := before ++ after in
      let start := range.(RangeInclusive.start) in
      let end_ := range.(RangeInclusive.end_) in
      if bool_decide (start = end_) then Ret (ranges, true)
      else if bool_decide (start = height) then
        start' ← Height_increment start;
        Ret (ranges ++ [RangeInclusive.new start' end_], true)
      else if bool_decide (end_ = height) then
        match Height_decrement end_ with
        | None => Ret (ranges, false)
        | Some new_end => Ret (ranges ++ [RangeInclusive.new start new_end], true)
        end
      else
        match Height_decrement height with
        | None => Ret (ranges, false)
        | Some new_end =>
            next ← Height_increment height;
            Ret (ranges ++ [RangeInclusive.new start new_end; RangeInclusive.new next end_], true)
        end
  end.

End excise.

(** ** The state (state.rs) *)

Module SyncState.
Record t {Env : Environment} {Ctx : Context} : Type := mk {
  rng : Rng;
  config : SyncConfig.t;
  started : bool;
  tip_height : Height;
  inflight_requests : BTreeMap.t OutboundRequestId (Range * PeerId);
  pending_consensus_requests : BTreeMap.t OutboundRequestId (list Range * PeerId);
  peers : gmap PeerId Status.t;
  peer_scorer : PeerScorer.t PeerId Ema.t;
}.
Arguments mk {Env Ctx}.

Section state.
Context {Env : Environment} {Ctx : Context}.
Implicit Types (self : t).

(** Assignments to one field. *)
Definition set_rng self x := mk x self.(config) self.(started) self.(tip_height)
  self.(inflight_requests) self.(pending_consensus_requests) self.(peers) self.(peer_scorer).
Definition set_started self x := mk self.(rng) self.(config) x self.(tip_height)
  self.(inflight_requests) self.(pending_consensus_requests) self.(peers) self.(peer_scorer).
Definition set_tip_height self x := mk self.(rng) self.(config) self.(started) x
  self.(inflight_requests) self.(pending_consensus_requests) self.(peers) self.(peer_scorer).
Definition set_inflight_requests self x := mk self.(rng) self.(config) self.(started) self.(tip_height)
  x self.(pending_consensus_requests) self.(peers) self.(peer_scorer).
Definition set_pending_consensus_requests self x := mk self.(rng) self.(config) self.(started)
  self.(tip_height) self.(inflight_requests) x self.(peers) self.(peer_scorer).
Definition set_peers self x := mk self.(rng) self.(config) self.(started) self.(tip_height)
  self.(inflight_requests) self.(pending_consensus_requests) x self.(peer_scorer).
Definition set_peer_scorer self x := mk self.(rng) self.(config) self.(started) self.(tip_height)
  self.(inflight_requests) self.(pending_consensus_requests) self.(peers) x.

Definition new (rng : Rng) (config : SyncConfig.t) : outcome t :=
  ema ← match config.(SyncConfig.scoring_strategy) with Strategy_Ema => Ema.default end;
  Ret (mk rng config false Height_ZERO [] [] ∅ (PeerScorer.new ema)).

Definition max_parallel_requests self : N := N.max 1 self.(config).(SyncConfig.parallel_requests).

Definition update_status self (status : Status.t) : t :=
  set_peers self (<[status.(Status.peer_id) := status]> self.(peers)).

(** [except.is_none_or(|p| p != peer)]. *)
Definition not_except (except : option PeerId) (peer : PeerId) : bool :=
  match except with None => true | Some p => negb (bool_decide (p = peer)) end.

Definition filter_peers_by_range (peers : gmap PeerId Status.t) (range : Range)
    (except : option PeerId) : gmap PeerId Range :=
  let start := range.(RangeInclusive.start) in
  let end_ := range.(RangeInclusive.end_) in
  let peers_with_whole_range :=
    (fun _ => range) <$>
      filter (fun kv => Height_leb kv.2.(Status.history_min_height) start && Height_leb start end_ &&
                        Height_leb end_ kv.2.(Status.tip_height) && not_except except kv.1) peers in
  if negb (bool_decide (peers_with_whole_range = ∅)) then peers_with_whole_range
  else
    filter (fun kv => negb (RangeInclusive.is_empty kv.2))
      ((fun status => RangeInclusive.new start status.(Status.tip_height)) <$>
         filter (fun kv => Height_leb kv.2.(Status.history_min_height) start &&
                           not_except except kv.1) peers).

(** The iteration order of a [HashMap] is arbitrary, and so is the index that
    is sampled: the keys are taken in the order of the map. *)
Definition random_peer_with_except self (range : Range) (except : option PeerId)
    : outcome (t * option (PeerId * Range)) :=
  let peers_range := filter_peers_by_range self.(peers) range except in
  let peer_ids := (map_to_list peers_range).*1 in
  '(selected, rng) ← PeerScorer.select_peer self.(peer_scorer) peer_ids self.(rng);
  let self := set_rng self rng in
  match selected with
  | None => Ret (self, None)
  | Some peer_id =>
      r ← expect (peers_range !! peer_id) "called `Option::unwrap()` on a `None` value";
      Ret (self, Some (peer_id, r))
  end.

Definition random_peer_with self (range : Range) : outcome (t * option (PeerId * Range)) :=
  random_peer_with_except self range None.

(** The first request with a range that contains the height; its position
    stands for the mutable borrow of its ranges. *)
Definition get_pending_consensus_request_id_by self (height : Height)
    : option (nat * (OutboundRequestId * PeerId * list Range)) :=
  match list_find (fun kv => Is_true (existsb (fun r => RangeInclusive.contains r height) kv.2.1))
          self.(pending_consensus_requests) with
  | Some (i, (request_id, (ranges, stored_peer_id))) => Some (i, (request_id, stored_peer_id, ranges))
  | None => None
  end.

Section arith.
Context {Arith : HeightArith}.

Definition trim_validated_heights self (range : Range) : outcome Range :=
  next ← Height_increment self.(tip_height);
  Ret (RangeInclusive.new (Height_max next range.(RangeInclusive.start)) range.(RangeInclusive.end_)).

(** [retain] with a closure that mutates the ranges. *)
Definition prune_ranges (up_to_height : Height) (ranges : list Range) : outcome (list Range) :=
  '(ranges, _) ← excise_height ranges up_to_height;
  Ret (List.filter (fun range => Height_ltb up_to_height range.(RangeInclusive.end_)) ranges).

Fixpoint prune_requests (up_to_height : Height)
    (requests : BTreeMap.t OutboundRequestId (list Range * PeerId))
    : outcome (BTreeMap.t OutboundRequestId (list Range * PeerId)) :=
  match requests with
  | [] => Ret []
  | (request_id, (ranges, peer)) :: requests =>
      ranges ← prune_ranges up_to_height ranges;
      requests ← prune_requests up_to_height requests;
      Ret (match ranges with [] => requests | _ => (request_id, (ranges, peer)) :: requests end)
  end.

Definition prune_pending_consensus_requests self (up_to_height : Height) : outcome t :=
  requests ← prune_requests up_to_height self.(pending_consensus_requests);
  Ret (set_pending_consensus_requests self requests).

End arith.
End state.
End SyncState.

(** ** Metrics (metrics.rs)

    The instants at which requests were sent and received, by start height.
    Counters and histograms are only ever written. *)

Module SyncMetrics.
Record t : Type := mk {
  instant_request_sent : gmap N Instant;
  instant_request_received : gmap N Instant;
}.

Definition new : t := mk ∅ ∅.

Section metrics.
Context {Env : Environment}.

Definition value_request_sent (self : t) (height : N) (clock : Clock) : t * Clock :=
  let '(now, clock) := instant_now clock in
  (mk (<[height := now]> self.(instant_request_sent)) self.(instant_request_received), clock).
Definition value_request_received (self : t) (height : N) (clock : Clock) : t * Clock :=
  let '(now, clock) := instant_now clock in
  (mk self.(instant_request_sent) (<[height := now]> self.(instant_request_received)), clock).
Definition value_response_sent (self : t) (height : N) (clock : Clock) : t * Clock :=
  (mk self.(instant_request_sent) (delete height self.(instant_request_received)),
   match self.(instant_request_received) !! height with
   | Some _ => (instant_now clock).2
   | None => clock
   end).
Definition value_response_received (self : t) (height : N) (clock : Clock)
    : t * option Duration * Clock :=
  match self.(instant_request_sent) !! height with
  | Some instant =>
      let '(now, clock) := instant_now clock in
      (mk (delete height self.(instant_request_sent)) self.(instant_request_received),
       Some (now - instant)%N, clock)
  | None => (self, None, clock)
  end.
Definition value_request_timed_out (self : t) (height : N) : t :=
  mk (delete height self.(instant_request_sent)) self.(instant_request_received).

End metrics.
End SyncMetrics.
