(* ===== verification/Sync.v ===== *)
(** * Value sync: handlers

    sync/src/handle.rs: the handlers of the inputs of value sync, as coroutines
    over the state, the metrics and the clock. The loop of [request_values] may
    run forever: its fuel bounds the number of iterations, and running out of
    it is a result of its own. *)

From S2P Require Import Prelude Types Bytes Context BTree Coroutine ConsensusTypes Scoring SyncTypes.
From stdpp Require Import sorting.

(** ** Windows of heights *)

Section windows.
Context {Ctx : Context} {Arith : HeightArith}.

(** The order of [sort_by]: by start, then by end. *)
Definition range_before (a b : Range) : bool :=
  Height_ltb a.(RangeInclusive.start) b.(RangeInclusive.start) ||
  bool_decide (a.(RangeInclusive.start) = b.(RangeInclusive.start)) &&
  Height_leb a.(RangeInclusive.end_) b.(RangeInclusive.end_).

(** The first loop: the first height from [a] on that no range covers. *)
Fixpoint skip_covered (a inclusive_up_to_height : Height) (ranges : list Range)
    : outcome (option Height) :=
  match ranges with
  | [] => Ret (Some a)
  | r :: ranges =>
      if Height_ltb a r.(RangeInclusive.start) then Ret (Some a)
      else if Height_leb a r.(RangeInclusive.end_) then
        a ← Height_increment r.(RangeInclusive.end_);
        if Height_ltb inclusive_up_to_height a then Ret None
        else skip_covered a inclusive_up_to_height ranges
      else skip_covered a inclusive_up_to_height ranges
  end.

(** The second loop: the end of the window. *)
Fixpoint extend_window (remaining_increments : nat) (b inclusive_up_to_height : Height)
    (next_range_start : option Height) : outcome Height :=
  match remaining_increments with
  | O => Ret b
  | S remaining_increments =>
      next ← Height_increment_by b 1;
      if Height_ltb inclusive_up_to_height next then Ret b
      else if match next_range_start with Some s => Height_leb s next | None => false end then Ret b
      else extend_window remaining_increments next inclusive_up_to_height next_range_start
  end.

Definition compute_free_window (exclusive_start_height inclusive_up_to_height : Height)
    (window_size : N) (ranges : list Range) : outcome (option Range) :=
  if (window_size =? 0)%N then Ret None
  else
    let remaining_increments := N.to_nat (window_size - 1) in
    let ranges := merge_sort (fun a b => Is_true (range_before a b)) ranges in
    a ← Height_increment_by exclusive_start_height 1;
    if Height_ltb inclusive_up_to_height a then Ret None
    else
      skipped ← skip_covered a inclusive_up_to_height ranges;
      match skipped with
      | None => Ret None
      | Some a =>
          let next_range_start :=
            RangeInclusive.start <$> List.find (fun r => Height_leb a r.(RangeInclusive.start)) ranges in
          b ← extend_window remaining_increments a inclusive_up_to_height next_range_start;
          Ret (Some (RangeInclusive.new a b))
      end.

End windows.

(** ** The process *)

Module World.
Record t {Env : Environment} {Ctx : Context} : Type := mk {
  state : SyncState.t;
  metrics : SyncMetrics.t;
  clock : Clock;
}.
Arguments mk {Env Ctx} state metrics clock.
End World.

Abbreviation S_prog := (Coroutine.prog SyncEffect.t SyncResume.t).
Abbreviation S_trace := (Coroutine.trace SyncEffect.t SyncResume.t).
Abbreviation SM := (handler SyncEffect.t SyncResume.t World.t SyncError.t).

Module InflightError.
Inductive t : Type :=
  | UnknownRequestId (request_id : OutboundRequestId)
  | WrongPeer (expected_peer_id actual_peer_id : PeerId).
End InflightError.

Section handlers.
Context {Env : Environment} {Ctx : Context} {Arith : HeightArith}.

Definition get_sync : SM SyncState.t := w ← get_state; mret w.(World.state).
Definition put_sync (state : SyncState.t) : SM unit :=
  w ← get_state; put_state (World.mk state w.(World.metrics) w.(World.clock)).

Definition s_perform (e : SyncEffect.t) : SM unit :=
  r ← yield_ e;
  match r with
  | SyncResume.Continue => mret tt
  | _ => fail (SyncError.UnexpectedResume r "Resume::Continue(_)")
  end.

(** [state.peer_scorer.update_score(peer_id, result)]. *)
Definition update_score (peer_id : PeerId) (result : SyncResult.t) : SM unit :=
  w ← get_state;
  let '(scorer, clock) :=
    PeerScorer.update_score w.(World.state).(SyncState.peer_scorer) peer_id result w.(World.clock) in
  put_state (World.mk (SyncState.set_peer_scorer w.(World.state) scorer) w.(World.metrics) clock).

(** A call of one of the methods of the metrics. *)
Definition with_metrics {A} (f : SyncMetrics.t -> Clock -> SyncMetrics.t * A * Clock) : SM A :=
  w ← get_state;
  let '(metrics, x, clock) := f w.(World.metrics) w.(World.clock) in
  _ ← put_state (World.mk w.(World.state) metrics clock);
  mret x.
Definition update_metrics (f : SyncMetrics.t -> Clock -> SyncMetrics.t * Clock) : SM unit :=
  with_metrics (fun m c => let '(m, c) := f m c in (m, tt, c)).

(** *** Requests in flight *)

Definition take_inflight_if_peer_matches (request_id : OutboundRequestId) (peer_id : PeerId)
    : SM (InflightError.t + Range) :=
  state ← get_sync;
  match BTreeMap.get request_id state.(SyncState.inflight_requests) with
  | None => mret (inl (InflightError.UnknownRequestId request_id))
  | Some (requested_range, stored_peer_id) =>
      if negb (bool_decide (stored_peer_id = peer_id)) then
        mret (inl (InflightError.WrongPeer stored_peer_id peer_id))
      else
        _ ← put_sync (SyncState.set_inflight_requests state
                        (BTreeMap.remove request_id state.(SyncState.inflight_requests)));
        mret (inr requested_range)
  end.

(** *** Requesting values *)

Fixpoint sum_len_u64 (acc : N) (ranges : list Range) : outcome N :=
  match ranges with
  | [] => Ret acc
  | range :: ranges =>
      len ← RangeInclusive.len_u64 range;
      acc ← add_u64 acc len;
      sum_len_u64 acc ranges
  end.

Fixpoint sum_pending (acc : N) (requests : list (OutboundRequestId * (list Range * PeerId))) : outcome N :=
  match requests with
  | [] => Ret acc
  | (_, (ranges, _)) :: requests =>
      pending_consensus_heights ← sum_len_u64 0 ranges;
      acc ← add_u64 acc pending_consensus_heights;
      sum_pending acc requests
  end.

Definition current_number_of_heights (state : SyncState.t) : outcome N :=
  heights ← sum_len_u64 0 ((fun kv => kv.2.1) <$> state.(SyncState.inflight_requests));
  sum_pending heights state.(SyncState.pending_consensus_requests).

(** The ranges of all requests in flight and waiting for consensus. *)
Definition busy_ranges (state : SyncState.t) : list Range :=
  ((fun kv => kv.2.1) <$> state.(SyncState.inflight_requests)) ++
  concat ((fun kv => kv.2.1) <$> state.(SyncState.pending_consensus_requests)).

Definition find_range_of_heights_to_request (state : SyncState.t) (up_to_height : Height)
    : outcome (option Range) :=
  let tip := state.(SyncState.tip_height) in
  let batch_size := state.(SyncState.config).(SyncConfig.batch_size) in
  compute_free_window tip up_to_height batch_size (busy_ranges state).

Definition request_values_from_peer (range : Range) (peer : PeerId) : SM unit :=
  if RangeInclusive.is_empty range then mret tt
  else
    state ← get_sync;
    range ← lift (SyncState.trim_validated_heights state range);
    if RangeInclusive.is_empty range then mret tt
    else
      r ← yield_ (SyncEffect.SendValueRequest peer (ValueRequest.new range));
      match r with
      | SyncResume.ValueRequestId None => mret tt
      | SyncResume.ValueRequestId (Some request_id) =>
          _ ← update_metrics (fun m =>
                SyncMetrics.value_request_sent m (Height_as_u64 range.(RangeInclusive.start)));
          state ← get_sync;
          put_sync (SyncState.set_inflight_requests state
                      (BTreeMap.insert request_id (range, peer) state.(SyncState.inflight_requests)))
      | _ => fail (SyncError.UnexpectedResume r "Resume::ValueRequestId(id)")
      end.

Fixpoint request_loop (fuel : nat) (up_to_height : Height) (max_heights : N) : SM unit :=
  match fuel with
  | O => out_of_fuel
  | S fuel =>
      state ← get_sync;
      found ← lift (find_range_of_heights_to_request state up_to_height);
      match found with
      | None => mret tt
      | Some range =>
          '(state, selected) ← lift (SyncState.random_peer_with state range);
          _ ← put_sync state;
          match selected with
          | None => mret tt
          | Some (peer_id, _) =>
              current_number_of_heights ← lift (current_number_of_heights state);
              asking_for_how_many_heights ← lift (RangeInclusive.len_u64 range);
              total ← lift (add_u64 current_number_of_heights asking_for_how_many_heights);
              if (max_heights <? total)%N then mret tt
              else
                _ ← request_values_from_peer range peer_id;
                request_loop fuel up_to_height max_heights
          end
      end
  end.

Definition request_values (fuel : nat) (up_to_height : Height) : SM unit :=
  state ← get_sync;
  let max_parallel_requests := SyncState.max_parallel_requests state in
  if (max_parallel_requests <=? N.of_nat (length state.(SyncState.inflight_requests)))%N then mret tt
  else
    max_heights ← lift (mul_u64 state.(SyncState.config).(SyncConfig.batch_size)
                          state.(SyncState.config).(SyncConfig.parallel_requests));
    request_loop fuel up_to_height max_heights.

(** *** Ticks and peer statuses *)

(** [state.peers.values().map(|s| s.tip_height).max()]. *)
Definition max_peer_tip (peers : gmap PeerId Status.t) : option Height :=
  foldr (fun kv acc => Some (match acc with
                             | Some h => Height_max kv.2.(Status.tip_height) h
                             | None => kv.2.(Status.tip_height)
                             end)) None (map_to_list peers).

Definition reset_inactive_peers : SM unit :=
  w ← get_state;
  let state := w.(World.state) in
  match state.(SyncState.config).(SyncConfig.inactive_threshold) with
  | Some inactive_threshold =>
      let '(scorer, clock) :=
        PeerScorer.reset_inactive_peers_scores state.(SyncState.peer_scorer) inactive_threshold
          w.(World.clock) in
      put_state (World.mk (SyncState.set_peer_scorer state scorer) w.(World.metrics) clock)
  | None => mret tt
  end.

Definition on_tick (fuel : nat) : SM unit :=
  state ← get_sync;
  _ ← s_perform (SyncEffect.BroadcastStatus state.(SyncState.tip_height));
  _ ← reset_inactive_peers;
  state ← get_sync;
  let tip_height := state.(SyncState.tip_height) in
  let max_tip_height := default tip_height (max_peer_tip state.(SyncState.peers)) in
  when (Height_ltb tip_height max_tip_height) (request_values fuel max_tip_height).

Definition on_status (fuel : nat) (status : Status.t) : SM unit :=
  let peer_height := status.(Status.tip_height) in
  state ← get_sync;
  let state := SyncState.update_status state status in
  _ ← put_sync state;
  if negb state.(SyncState.started) then mret tt
  else when (Height_ltb state.(SyncState.tip_height) peer_height) (request_values fuel peer_height).

(** *** Heights and decisions *)

Definition on_started_height (height : Height) (start_type : HeightStartType.t) : SM unit :=
  state ← get_sync;
  let state := SyncState.set_started state true in
  state ← lift (SyncState.prune_pending_consensus_requests state height);
  put_sync (SyncState.set_tip_height state (default Height_ZERO (Height_decrement height))).

Definition on_decided (height : Height) : SM unit :=
  state ← get_sync;
  let state := SyncState.set_tip_height state height in
  state ← lift (SyncState.prune_pending_consensus_requests state height);
  put_sync state.

(** *** Serving requests *)

Definition on_value_request (request_id : InboundRequestId) (peer_id : PeerId)
    (request : ValueRequest.t) : SM unit :=
  let range := request.(ValueRequest.range) in
  _ ← update_metrics (fun m =>
        SyncMetrics.value_request_received m (Height_as_u64 range.(RangeInclusive.start)));
  s_perform (SyncEffect.GetDecidedValues request_id range).

(** The loop over the values: it only logs, but counts the heights. *)
Fixpoint count_heights (height : Height) (values : list RawDecidedValue.t) : outcome Height :=
  match values with
  | [] => Ret height
  | _ :: values => height ← Height_increment height; count_heights height values
  end.

Definition on_got_decided_values (request_id : InboundRequestId) (range : Range)
    (values : list RawDecidedValue.t) : SM unit :=
  let start := range.(RangeInclusive.start) in
  _ ← lift (RangeInclusive.len_u64 range);
  _ ← lift (count_heights start values);
  _ ← s_perform (SyncEffect.SendValueResponse request_id (SyncValueResponse.new start values));
  update_metrics (fun m => SyncMetrics.value_response_sent m (Height_as_u64 start)).

(** *** Responses *)

(** The loop over the certificates: whether they are for the heights from
    [current_height] on. *)
Fixpoint certificate_heights_ok (current_height : Height) (values : list RawDecidedValue.t)
    : outcome bool :=
  match values with
  | [] => Ret true
  | value :: values =>
      if negb (bool_decide (RawDecidedValue.height value = current_height)) then Ret false
      else
        current_height ← Height_increment current_height;
        certificate_heights_ok current_height values
  end.

Definition response_is_valid (response : SyncValueResponse.t) (end_ : Height) (range_len : N)
    (requested_range : Range) : bool :=
  let start := response.(SyncValueResponse.start_height) in
  (Height_as_u64 start =? Height_as_u64 requested_range.(RangeInclusive.start))%N &&
  (Height_as_u64 start <=? Height_as_u64 end_)%N &&
  (Height_as_u64 end_ <=? Height_as_u64 requested_range.(RangeInclusive.end_))%N &&
  (SyncValueResponse.len_u64 response =? range_len)%N.

Definition accept_response (request_id : OutboundRequestId) (peer_id : PeerId)
    (response : SyncValueResponse.t) (requested_range : Range) : SM unit :=
  let start := response.(SyncValueResponse.start_height) in
  _ ← s_perform (SyncEffect.NotifyConsensusToProcessSyncResponse request_id peer_id response);
  next ← lift (Height_increment_by requested_range.(RangeInclusive.start)
                 (SyncValueResponse.len_u64 response));
  actual_end ← lift (expect (Height_decrement next) "called `Option::unwrap()` on a `None` value");
  state ← get_sync;
  _ ← put_sync (SyncState.set_pending_consensus_requests state
                  (BTreeMap.insert request_id ([RangeInclusive.new start actual_end], peer_id)
                     state.(SyncState.pending_consensus_requests)));
  response_time ← with_metrics (fun m => SyncMetrics.value_response_received m (Height_as_u64 start));
  match response_time with
  | Some response_time => update_score peer_id (SyncResult.Success response_time)
  | None => mret tt
  end.

Definition on_value_response (request_id : OutboundRequestId) (peer_id : PeerId)
    (response : option SyncValueResponse.t) : SM unit :=
  taken ← take_inflight_if_peer_matches request_id peer_id;
  match taken with
  | inl _ => update_score peer_id SyncResult.Failure
  | inr requested_range =>
      match response with
      | None => update_score peer_id SyncResult.Failure
      | Some response =>
          let start := response.(SyncValueResponse.start_height) in
          end_height ← lift (SyncValueResponse.end_height response);
          let end_ := default start end_height in
          range_len ← lift (RangeInclusive.len_u64 (RangeInclusive.new start end_));
          heights_ok ← lift (certificate_heights_ok start response.(SyncValueResponse.values));
          if negb heights_ok then update_score peer_id SyncResult.Failure
          else if negb (response_is_valid response end_ range_len requested_range) then
            update_score peer_id SyncResult.Failure
          else accept_response request_id peer_id response requested_range
      end
  end.

Definition on_sync_request_timed_out (request_id : OutboundRequestId) (peer_id : PeerId)
    (request : Request) : SM unit :=
  match request with
  | Request_ValueRequest value_request =>
      _ ← update_score peer_id SyncResult.Timeout;
      taken ← take_inflight_if_peer_matches request_id peer_id;
      match taken with
      | inl _ => mret tt
      | inr _ =>
          update_metrics (fun m c =>
            (SyncMetrics.value_request_timed_out m
               (Height_as_u64 value_request.(ValueRequest.range).(RangeInclusive.start)), c))
      end
  end.

(** *** Invalid values *)

Definition on_invalid_value (height : Height) (peer_id : PeerId) : SM unit :=
  state ← get_sync;
  match SyncState.get_pending_consensus_request_id_by state height with
  | None => mret tt
  | Some (i, (request_id, stored_peer_id, ranges)) =>
      if negb (bool_decide (stored_peer_id = peer_id)) then mret tt
      else
        '(ranges, ok) ← lift (excise_height ranges height);
        let pending := state.(SyncState.pending_consensus_requests) in
        let pending := <[i := (request_id, (ranges, stored_peer_id))]> pending in
        let pending := match ok, ranges with
                       | true, [] => BTreeMap.remove request_id pending
                       | _, _ => pending
                       end in
        put_sync (SyncState.set_pending_consensus_requests state pending)
  end.

(** *** The dispatch *)

Definition handle (fuel : nat) (input : SyncInput.t) : SM unit :=
  match input with
  | SyncInput.Tick => on_tick fuel
  | SyncInput.Status status => on_status fuel status
  | SyncInput.StartedHeight height restart => on_started_height height restart
  | SyncInput.Decided height => on_decided height
  | SyncInput.ValueRequest request_id peer_id request => on_value_request request_id peer_id request
  | SyncInput.ValueResponse request_id peer_id response => on_value_response request_id peer_id response
  | SyncInput.GotDecidedValues request_id range values => on_got_decided_values request_id range values
  | SyncInput.SyncRequestTimedOut request_id peer_id request =>
      on_sync_request_timed_out request_id peer_id request
  | SyncInput.InvalidValue peer_id height =>
      _ ← update_score peer_id SyncResult.Failure;
      on_invalid_value height peer_id
  | SyncInput.ValueProcessingError peer_id height => on_invalid_value height peer_id
  end.

End handlers.
