(* ===== verification/SyncWindows.v ===== *)
(** * Value sync: ranges and windows

    The ranges of heights that value sync keeps: how many times they cover a
    height and how many heights they hold, what excising a height and pruning
    leave, and that [compute_free_window] returns the earliest free window. *)

From S2P Require Import Prelude Types Bytes Context BTree Coroutine ConsensusTypes Scoring SyncTypes Sync.
From stdpp Require Import sorting.

Section ranges.
Context {Ctx : Context} {Arith : HeightArith} {laws : HeightLaws}.
Implicit Types (h : Height) (r : Range) (l : list Range).

Abbreviation u := Height_as_u64.

(** ** The order of heights is that of numbers *)

Lemma Height_ltb_lt h1 h2 : Height_ltb h1 h2 = true <-> (u h1 < u h2)%N.
Proof using laws. rewrite Height_ltb_as_u64. apply N.ltb_lt. Qed.
Lemma Height_ltb_ge h1 h2 : Height_ltb h1 h2 = false <-> (u h2 <= u h1)%N.
Proof using laws. rewrite Height_ltb_as_u64. apply N.ltb_ge. Qed.
Lemma Height_leb_le h1 h2 : Height_leb h1 h2 = true <-> (u h1 <= u h2)%N.
Proof using laws. unfold Height_leb. rewrite negb_true_iff. apply Height_ltb_ge. Qed.
Lemma Height_leb_gt h1 h2 : Height_leb h1 h2 = false <-> (u h2 < u h1)%N.
Proof using laws. unfold Height_leb. rewrite negb_false_iff. apply Height_ltb_lt. Qed.
Lemma Height_eq_u h1 h2 : h1 = h2 <-> u h1 = u h2.
Proof using laws. split; [by intros ->|apply Height_as_u64_inj]. Qed.
Lemma Height_max_u h1 h2 : u (Height_max h1 h2) = N.max (u h1) (u h2).
Proof using laws.
  unfold Height_max. destruct (Height_ltb h2 h1) eqn:H; rewrite ?Height_ltb_lt, ?Height_ltb_ge in H; lia.
Qed.
Lemma Height_increment_Ret h h' : Height_increment h = Ret h' -> u h' = (u h + 1)%N.
Proof using laws. apply Height_increment_by_Ret. Qed.
Lemma Height_decrement_Some h : (1 <= u h)%N -> exists h', Height_decrement h = Some h' /\ u h' = (u h - 1)%N.
Proof using laws. apply Height_decrement_by_spec. Qed.

Lemma contains_true r h : RangeInclusive.contains r h = true <->
  (u r.(RangeInclusive.start) <= u h <= u r.(RangeInclusive.end_))%N.
Proof using laws. unfold RangeInclusive.contains. by rewrite andb_true_iff, !Height_leb_le. Qed.
Lemma contains_false r h : RangeInclusive.contains r h = false <->
  ~ (u r.(RangeInclusive.start) <= u h <= u r.(RangeInclusive.end_))%N.
Proof using laws. rewrite <- contains_true. by destruct (RangeInclusive.contains r h). Qed.
Lemma is_empty_false r : RangeInclusive.is_empty r = false <->
  (u r.(RangeInclusive.start) <= u r.(RangeInclusive.end_))%N.
Proof using laws. unfold RangeInclusive.is_empty. by rewrite negb_false_iff, Height_leb_le. Qed.
Lemma is_empty_true r : RangeInclusive.is_empty r = true <->
  (u r.(RangeInclusive.end_) < u r.(RangeInclusive.start))%N.
Proof using laws. unfold RangeInclusive.is_empty. by rewrite negb_true_iff, Height_leb_gt. Qed.

(** ** Counting *)

Definition range_ok r : Prop := (u r.(RangeInclusive.start) <= u r.(RangeInclusive.end_))%N.

(** 1 if the range contains [h], and the number of its heights. *)
Definition covers h r : N := if RangeInclusive.contains r h then 1 else 0.
Definition len r : N := (u r.(RangeInclusive.end_) - u r.(RangeInclusive.start) + 1)%N.

Definition total (f : Range -> N) l : N := sumN (f <$> l).

Lemma total_app f l k : total f (l ++ k) = (total f l + total f k)%N.
Proof. unfold total. by rewrite fmap_app, sumN_app. Qed.
Lemma total_cons f r l : total f (r :: l) = (f r + total f l)%N.
Proof. done. Qed.
Lemma total_nil f : total f [] = 0%N.
Proof. done. Qed.

#[global] Instance total_proper f : Proper ((≡ₚ) ==> (=)) (total f).
Proof. intros l k Hlk. unfold total. by rewrite Hlk. Qed.

Lemma covers_pos r h : (0 < covers h r)%N <-> RangeInclusive.contains r h = true.
Proof. unfold covers. destruct (RangeInclusive.contains r h); split; (done || lia). Qed.

Lemma total_covers h l :
  total (covers h) l = N.of_nat (length (List.filter (fun r => RangeInclusive.contains r h) l)).
Proof.
  induction l as [|r l IH]; [done|]. rewrite total_cons, IH. unfold covers. cbn.
  destruct (RangeInclusive.contains r h); cbn; lia.
Qed.

(** [h] is in none of the ranges. *)
Definition free l h : Prop := total (covers h) l = 0%N.

Lemma free_spec l h : free l h <-> forall r, r ∈ l -> RangeInclusive.contains r h = false.
Proof.
  unfold free, total. induction l as [|r l IH]; cbn.
  - split; [|done]. by intros _ r ?%not_elem_of_nil.
  - rewrite N.eq_add_0, IH. unfold covers. split.
    + intros [Hr Hl] r' [->|Hin]%elem_of_cons; [by destruct (RangeInclusive.contains r h)|auto].
    + intros H. rewrite (H r) by constructor. split; [done|]. intros r' Hr'. apply H. by constructor.
Qed.

Lemma not_free l h : ~ free l h <-> exists r, r ∈ l /\ RangeInclusive.contains r h = true.
Proof.
  rewrite free_spec. split.
  - intros H. induction l as [|r l IH]; [destruct H; by intros r ?%not_elem_of_nil|].
    destruct (RangeInclusive.contains r h) eqn:Hr; [exists r; split; [constructor|done]|].
    destruct IH as (r' & ? & ?); [|exists r'; by split; [constructor|]].
    intros Hl. apply H. intros r' [->|]%elem_of_cons; auto.
  - intros (r & Hr & Hc) H. by rewrite H in Hc.
Qed.

(** [l'] covers no height more often than [l], and holds no more heights. *)
Record within (l' l : list Range) : Prop := {
  within_ok : Forall range_ok l';
  within_covers h : (total (covers h) l' <= total (covers h) l)%N;
  within_len : (total len l' <= total len l)%N;
}.

Lemma within_refl l : Forall range_ok l -> within l l.
Proof. by split. Qed.
Lemma within_trans l1 l2 l3 : within l1 l2 -> within l2 l3 -> within l1 l3.
Proof.
  intros [? H1 ?] [? H2 ?]. split; [done| |lia]. intros h. specialize (H1 h). specialize (H2 h). lia.
Qed.
Lemma within_app l1' l2' l1 l2 : within l1' l1 -> within l2' l2 -> within (l1' ++ l2') (l1 ++ l2).
Proof.
  intros [? H1 ?] [? H2 ?]. split.
  - by apply Forall_app.
  - intros h. rewrite !total_app. specialize (H1 h). specialize (H2 h). lia.
  - rewrite !total_app. lia.
Qed.
Lemma within_nil l : within [] l.
Proof. split; [constructor| |]; intros; rewrite total_nil; lia. Qed.
Lemma within_drop k l l' : within l' l -> within l' (k ++ l).
Proof. intros H. apply (within_app [] l' k l); [apply within_nil|done]. Qed.

(** A sublist, up to permutation. *)
Lemma within_submseteq l' l : l' ⊆+ l -> Forall range_ok l -> within l' l.
Proof.
  intros [k Hk]%submseteq_Permutation Hok. rewrite Hk in Hok. apply Forall_app in Hok as [Hok _].
  split; [done| |]; intros; rewrite Hk, total_app; lia.
Qed.

Lemma within_perm_r l k k' : k ≡ₚ k' -> within l k <-> within l k'.
Proof.
  assert (H : forall k k', k ≡ₚ k' -> within l k -> within l k').
  { intros k1 k2 Hk [Hok Hc Hl]. split; [done| |by rewrite <- Hk]. intros h. by rewrite <- Hk. }
  intros Hk. split; by apply H.
Qed.

(** A part of a range. *)
Lemma within_part r' r : range_ok r' ->
  (u r.(RangeInclusive.start) <= u r'.(RangeInclusive.start))%N ->
  (u r'.(RangeInclusive.end_) <= u r.(RangeInclusive.end_))%N -> within [r'] [r].
Proof using laws.
  unfold range_ok. intros Hok Hs He. split.
  - by constructor.
  - intros h. rewrite !total_cons, !total_nil. unfold covers.
    destruct (RangeInclusive.contains r' h) eqn:H'; destruct (RangeInclusive.contains r h) eqn:H; try lia.
    apply contains_true in H'. apply contains_false in H. lia.
  - rewrite !total_cons, !total_nil. unfold len. lia.
Qed.

(** ** Excising a height *)

Lemma split_at_height_Some l h before r after :
  split_at_height l h = Some (before, r, after) ->
  l = before ++ r :: after /\ RangeInclusive.contains r h = true /\ free before h.
Proof.
  revert before. induction l as [|r' l IH]; intros before; cbn; [done|].
  destruct (RangeInclusive.contains r' h) eqn:Hc; [by intros [= <- <- <-]|].
  destruct (split_at_height l h) as [[[before' range] after']|]; [|done]. intros [= <- <- <-].
  destruct (IH before' eq_refl) as (-> & ? & ?). split_and!; [done..|].
  unfold free in *. rewrite total_cons. unfold covers at 1. rewrite Hc. lia.
Qed.

Lemma split_at_height_None l h : split_at_height l h = None <-> free l h.
Proof.
  induction l as [|r l IH]; cbn; [done|]. unfold free in *. rewrite total_cons. unfold covers at 1.
  destruct (RangeInclusive.contains r h); [split; [done|lia]|].
  destruct (split_at_height l h) as [[[]]|]; [|by rewrite IH].
  split; [done|]. intros H. by apply IH in H.
Qed.

(** Decides how often concrete ranges cover a height. *)
Ltac solve_covers :=
  rewrite ?total_cons, ?total_nil; unfold covers;
  repeat match goal with |- context [RangeInclusive.contains ?x ?y] =>
    let E := fresh in destruct (RangeInclusive.contains x y) eqn:E;
    [apply contains_true in E|apply contains_false in E]; cbn in E end; lia.

(** [l] covers what [l'] covers, and [h] once more. *)
Record excised h (l l' : list Range) : Prop := {
  excised_ok : Forall range_ok l';
  excised_covers h' :
    total (covers h') l = (total (covers h') l' + if bool_decide (h' = h) then 1 else 0)%N;
  excised_len : total len l = (total len l' + 1)%N;
}.

Lemma excised_app h before r after l' :
  Forall range_ok (before ++ r :: after) -> excised h [r] l' ->
  excised h (before ++ r :: after) (before ++ after ++ l').
Proof.
  rewrite Forall_app, Forall_cons. intros (Hb & _ & Ha) [Hok Hc Hl]. split.
  - by rewrite !Forall_app.
  - intros h'. specialize (Hc h'). rewrite !total_app, !total_cons, total_nil in *. lia.
  - rewrite !total_app, !total_cons, total_nil in *. lia.
Qed.

(** The four ways in which a range is taken apart. *)
Lemma excised_all h r : RangeInclusive.contains r h = true ->
  r.(RangeInclusive.start) = r.(RangeInclusive.end_) -> excised h [r] [].
Proof using laws.
  intros Hc%contains_true Heq%Height_eq_u. split; [done| |].
  - intros h'. case_bool_decide as Hh; rewrite Height_eq_u in Hh; solve_covers.
  - rewrite !total_cons, !total_nil. unfold len. lia.
Qed.

Lemma excised_first h r next : RangeInclusive.contains r h = true ->
  r.(RangeInclusive.start) = h -> r.(RangeInclusive.start) <> r.(RangeInclusive.end_) ->
  u next = (u h + 1)%N -> excised h [r] [RangeInclusive.new next r.(RangeInclusive.end_)].
Proof using laws.
  intros Hc%contains_true Hs%Height_eq_u Hne Hn. rewrite Height_eq_u in Hne. split.
  - constructor; [|done]. unfold range_ok. cbn. lia.
  - intros h'. case_bool_decide as Hh; rewrite Height_eq_u in Hh; solve_covers.
  - rewrite !total_cons, !total_nil. unfold len. cbn. lia.
Qed.

Lemma excised_last h r new_end : RangeInclusive.contains r h = true ->
  r.(RangeInclusive.end_) = h -> r.(RangeInclusive.start) <> h ->
  u new_end = (u h - 1)%N -> excised h [r] [RangeInclusive.new r.(RangeInclusive.start) new_end].
Proof using laws.
  intros Hc%contains_true He%Height_eq_u Hne Hn. rewrite Height_eq_u in Hne. split.
  - constructor; [|done]. unfold range_ok. cbn. lia.
  - intros h'. case_bool_decide as Hh; rewrite Height_eq_u in Hh; solve_covers.
  - rewrite !total_cons, !total_nil. unfold len. cbn. lia.
Qed.

Lemma excised_middle h r new_end next : RangeInclusive.contains r h = true ->
  r.(RangeInclusive.start) <> h -> r.(RangeInclusive.end_) <> h ->
  u new_end = (u h - 1)%N -> u next = (u h + 1)%N ->
  excised h [r] [RangeInclusive.new r.(RangeInclusive.start) new_end;
                 RangeInclusive.new next r.(RangeInclusive.end_)].
Proof using laws.
  intros Hc%contains_true Hs He Hn Hx. rewrite Height_eq_u in Hs, He. split.
  - repeat constructor; unfold range_ok; cbn; lia.
  - intros h'. case_bool_decide as Hh; rewrite Height_eq_u in Hh; solve_covers.
  - rewrite !total_cons, !total_nil. unfold len. cbn. lia.
Qed.

(** The height before one that is not the first of its range. *)
Lemma decrement_inside r h : RangeInclusive.contains r h = true -> r.(RangeInclusive.start) <> h ->
  exists h', Height_decrement h = Some h' /\ u h' = (u h - 1)%N.
Proof using laws.
  intros Hc%contains_true Hne. rewrite Height_eq_u in Hne. apply Height_decrement_Some. lia.
Qed.

Lemma excise_height_spec l h l' ok :
  Forall range_ok l -> excise_height l h = Ret (l', ok) ->
  if ok then excised h l l' else l' = l /\ free l h.
Proof using laws.
  intros Hok He. unfold excise_height in He.
  destruct (split_at_height l h) as [[[before r] after]|] eqn:Hs.
  2:{ simplify_eq. by apply split_at_height_None in Hs. }
  apply split_at_height_Some in Hs as (-> & Hc & _).
  assert (Happ : forall ps, excised h [r] ps -> excised h (before ++ r :: after) ((before ++ after) ++ ps)).
  { intros ps Hps. rewrite <- app_assoc. by apply excised_app. }
  case_bool_decide as Hse; [|case_bool_decide as Hsh; [|case_bool_decide as Heh]].
  - simplify_eq. rewrite <- (app_nil_r (before ++ after)). apply Happ. by apply excised_all.
  - inv_ret. simplify_eq. apply Happ, excised_first; [done..|].
    by apply Height_increment_Ret.
  - destruct (decrement_inside r h Hc) as (h' & Hd & Hu); [done|]. rewrite Heh, Hd in He.
    injection He as <- <-. by apply Happ, excised_last.
  - destruct (decrement_inside r h Hc) as (h' & Hd & Hu); [done|]. rewrite Hd in He. inv_ret. simplify_eq.
    apply Happ, excised_middle; [done..|]. by apply Height_increment_Ret.
Qed.

Lemma excised_within h l l' : excised h l l' -> within l' l.
Proof. intros [Hok Hc Hl]. split; [done| |lia]. intros h'. rewrite (Hc h'). lia. Qed.

Lemma excise_height_within l h l' ok :
  Forall range_ok l -> excise_height l h = Ret (l', ok) -> within l' l.
Proof using laws.
  intros Hok He%excise_height_spec; [|done]. destruct ok; [by eapply excised_within|].
  destruct He as [-> _]. by apply within_refl.
Qed.

(** It does not panic where the next height is a [u64]. *)
Lemma excise_height_Ret l h : (u h < U64_MAX)%N -> exists l' ok, excise_height l h = Ret (l', ok).
Proof using laws.
  intros Hh. unfold excise_height. destruct (split_at_height l h) as [[[before r] after]|]; [|eauto].
  destruct (Height_increment_by_spec h 1) as (next & Hn & _); [lia|].
  case_bool_decide; [eauto|]. case_bool_decide as Hsh; [rewrite Hsh; unfold Height_increment; rewrite Hn; cbn; eauto|].
  case_bool_decide; case_match; eauto. unfold Height_increment. rewrite Hn. cbn. eauto.
Qed.

(** ** The earliest free window *)

(** Ranges in the order of [sort_by]. *)
Abbreviation before := (fun a b => Is_true (range_before a b)).

Lemma range_before_iff r1 r2 :
  before r1 r2 <-> (u r1.(RangeInclusive.start) < u r2.(RangeInclusive.start))%N \/
    u r1.(RangeInclusive.start) = u r2.(RangeInclusive.start) /\
    (u r1.(RangeInclusive.end_) <= u r2.(RangeInclusive.end_))%N.
Proof using laws.
  unfold range_before.
  by rewrite Is_true_true, orb_true_iff, andb_true_iff, Height_ltb_lt, Height_leb_le,
    bool_decide_eq_true, Height_eq_u.
Qed.

#[local] Instance before_total : Total before.
Proof using laws. intros r1 r2. rewrite !range_before_iff. lia. Qed.
#[local] Instance before_trans : Transitive before.
Proof using laws. intros r1 r2 r3. rewrite !range_before_iff. lia. Qed.

Lemma sorted_starts l : StronglySorted before (merge_sort before l).
Proof using laws. apply (StronglySorted_merge_sort before); apply _. Qed.

(** The first loop stops at the first free height. *)
Lemma skip_covered_spec l a up o :
  StronglySorted before l -> skip_covered a up l = Ret o ->
  match o with
  | Some a' => (u a <= u a')%N /\ (u a <= u up -> u a' <= u up)%N /\ free l a' /\
               forall h, (u a <= u h < u a')%N -> ~ free l h
  | None => forall h, (u a <= u h <= u up)%N -> ~ free l h
  end.
Proof using laws.
  intros Hl. revert a o. induction Hl as [|r l Hl IH Hr]; intros a o; cbn.
  { intros [= <-]. split_and!; try done; lia. }
  assert (Hskip : forall h, ~ free l h -> ~ free (r :: l) h).
  { intros h. rewrite !not_free. intros (r' & ? & ?). exists r'. by split; [constructor|]. }
  assert (Hadd : forall h, RangeInclusive.contains r h = false -> free l h -> free (r :: l) h).
  { intros h Hc. unfold free. rewrite total_cons. unfold covers at 2. by rewrite Hc. }
  destruct (Height_ltb a r.(RangeInclusive.start)) eqn:Hlt.
  - intros [= <-]. apply Height_ltb_lt in Hlt. split_and!; [lia|lia| |lia].
    apply Hadd; [apply contains_false; lia|]. apply free_spec. intros r' Hr'.
    rewrite Forall_forall in Hr. specialize (Hr r' Hr'). rewrite range_before_iff in Hr.
    apply contains_false. lia.
  - apply Height_ltb_ge in Hlt. destruct (Height_leb a r.(RangeInclusive.end_)) eqn:Hle.
    + apply Height_leb_le in Hle. intros H. inv_ret.
      match goal with H : Height_increment _ = Ret _ |- _ => apply Height_increment_Ret in H as Hx end.
      assert (Hin : forall h, (u a <= u h <= u r.(RangeInclusive.end_))%N -> ~ free (r :: l) h).
      { intros h Hh. apply not_free. exists r. split; [constructor|]. apply contains_true. lia. }
      case_match eqn:Hup; simplify_eq.
      * apply Height_ltb_lt in Hup. intros h Hh. apply Hin. lia.
      * apply Height_ltb_ge in Hup. specialize (IH _ _ H). destruct o as [a'|].
        -- destruct IH as (H1 & H2 & H3 & H4). split_and!; [lia|lia| |].
           ++ apply Hadd; [apply contains_false; lia|done].
           ++ intros h Hh. destruct (N.le_gt_cases (u h) (u r.(RangeInclusive.end_))); [apply Hin; lia|].
              apply Hskip, H4. lia.
        -- intros h Hh. destruct (N.le_gt_cases (u h) (u r.(RangeInclusive.end_))); [apply Hin; lia|].
           apply Hskip, IH. lia.
    + apply Height_leb_gt in Hle. intros H. specialize (IH _ _ H). destruct o as [a'|].
      * destruct IH as (H1 & H2 & H3 & H4). split_and!; [done|done| |intros; by apply Hskip, H4].
        apply Hadd; [apply contains_false; lia|done].
      * intros h Hh. by apply Hskip, IH.
Qed.

(** The second loop extends the window as far as it may. *)
Lemma extend_window_spec n b up next b' :
  extend_window n b up next = Ret b' -> (u b <= u up)%N ->
  (forall s, next = Some s -> u b < u s)%N ->
  (u b <= u b' <= u up)%N /\ (u b' <= u b + N.of_nat n)%N /\
  (forall s, next = Some s -> u b' < u s)%N /\
  (u b' = u b + N.of_nat n \/ u b' = u up \/ exists s, next = Some s /\ u s = u b' + 1)%N.
Proof using laws.
  revert b. induction n as [|n IH]; intros b; cbn [extend_window].
  { intros [= <-] Hup Hs. split_and!; [lia|lia|lia|done|left; lia]. }
  intros H Hup Hs. inv_ret.
  match goal with H : Height_increment_by _ _ = Ret ?x |- _ =>
    apply Height_increment_by_Ret in H as Hx; rename x into nx end.
  case_match eqn:Hlt.
  { simplify_eq. apply Height_ltb_lt in Hlt. split_and!; [lia|lia|lia|done|right; left; lia]. }
  apply Height_ltb_ge in Hlt. destruct next as [s|].
  - specialize (Hs s eq_refl). case_match eqn:Hle.
    + simplify_eq. apply Height_leb_le in Hle. split_and!; [lia|lia|lia|naive_solver|].
      right; right. exists s. split; [done|lia].
    + apply Height_leb_gt in Hle. destruct (IH nx H) as (? & ? & ? & ?); [lia|naive_solver|].
      split_and!; [lia|lia|lia|done|]. destruct_or?; [left; lia|tauto|tauto].
  - destruct (IH nx H) as (? & ? & ? & ?); [lia|done|].
    split_and!; [lia|lia|lia|done|]. destruct_or?; [left; lia|tauto|tauto].
Qed.

(** The start of the next range bounds the window: nothing from [a] to below it
    is covered. *)
Lemma next_range_start_spec l a :
  StronglySorted before l -> free l a -> Forall range_ok l ->
  match List.find (fun r => Height_leb a r.(RangeInclusive.start)) l with
  | Some r => (u a < u r.(RangeInclusive.start))%N /\ ~ free l r.(RangeInclusive.start) /\
              forall h, (u a <= u h < u r.(RangeInclusive.start))%N -> free l h
  | None => forall h, (u a <= u h)%N -> free l h
  end.
Proof using laws.
  intros Hl Hfree Hok. rewrite free_spec in Hfree. rewrite Forall_forall in Hok.
  assert (Hpast : forall r h, r ∈ l -> (u r.(RangeInclusive.start) < u a)%N -> (u a <= u h)%N ->
    RangeInclusive.contains r h = false).
  { intros r h Hr Hs Hh. specialize (Hfree r Hr). apply contains_false in Hfree. apply contains_false. lia. }
  destruct (List.find _ l) as [r|] eqn:Hf.
  - pose proof (List.find_some _ _ Hf) as [Hin%list_elem_of_In Hle%Height_leb_le].
    assert (u a < u r.(RangeInclusive.start))%N.
    { specialize (Hfree r Hin). apply contains_false in Hfree. specialize (Hok r Hin). unfold range_ok in Hok. lia. }
    split_and!; [done| |].
    + apply not_free. exists r. split; [done|]. apply contains_true. by specialize (Hok r Hin).
    + intros h Hh. apply free_spec. intros r' Hr'.
      destruct (N.lt_ge_cases (u r'.(RangeInclusive.start)) (u a)); [apply Hpast; [done|lia..]|].
      (* the first found has the least start *)
      apply contains_false.
      assert (u r.(RangeInclusive.start) <= u r'.(RangeInclusive.start))%N; [|lia].
      clear - Hl Hf Hr' H0 laws. induction Hl as [|x l Hl IH Hx]; [done|]. cbn in Hf.
      destruct (Height_leb a x.(RangeInclusive.start)) eqn:Hax.
      * simplify_eq. apply elem_of_cons in Hr' as [->|Hr']; [done|]. rewrite Forall_forall in Hx.
        specialize (Hx r' Hr'). rewrite range_before_iff in Hx. lia.
      * apply Height_leb_gt in Hax. apply elem_of_cons in Hr' as [->|Hr']; [lia|auto].
  - intros h Hh. apply free_spec. intros r Hr. apply Hpast; [done| |done].
    apply list_elem_of_In in Hr. apply (List.find_none _ _ Hf) in Hr. by apply Height_leb_gt in Hr.
Qed.

(** The specification: the window [w] starts at the first free height above
    [start], is free, and ends where it reaches [n] heights, the cap [up] or a
    covered height. *)
Definition earliest_window (start up : Height) (n : N) l (o : option Range) : Prop :=
  match o with
  | None => n = 0%N \/ forall h, (u start < u h <= u up)%N -> ~ free l h
  | Some w =>
      let a := w.(RangeInclusive.start) in
      let b := w.(RangeInclusive.end_) in
      (u start < u a <= u b)%N /\ (u b <= u up)%N /\ (len w <= n)%N /\
      (forall h, RangeInclusive.contains w h = true -> free l h) /\
      (forall h, (u start < u h < u a)%N -> ~ free l h) /\
      (len w = n \/ b = up \/ exists h, u h = (u b + 1)%N /\ ~ free l h)
  end.

Lemma free_proper l k h : l ≡ₚ k -> free l h <-> free k h.
Proof. intros Hlk. unfold free. by rewrite Hlk. Qed.

Lemma compute_free_window_Ret start up n l o :
  Forall range_ok l -> compute_free_window start up n l = Ret o -> earliest_window start up n l o.
Proof using laws.
  intros Hok H. unfold compute_free_window in H.
  destruct (N.eqb_spec n 0) as [->|Hn]; [simplify_eq; by left|].
  assert (Hp : merge_sort before l ≡ₚ l) by apply merge_sort_Permutation.
  pose proof (sorted_starts l) as Hsort. set (k := merge_sort before l) in *.
  assert (Hok' : Forall range_ok k) by by rewrite Hp. inv_ret.
  match goal with H : Height_increment_by _ _ = Ret ?x |- _ =>
    apply Height_increment_by_Ret in H as Ha0; rename x into a0 end.
  case_match eqn:Hup; [simplify_eq; right; intros h; apply Height_ltb_lt in Hup; lia|].
  apply Height_ltb_ge in Hup. inv_ret.
  match goal with H : skip_covered _ _ _ = Ret _ |- _ => apply skip_covered_spec in H as Hskip; [|done] end.
  match goal with x : option Height |- _ => destruct x as [a|] end; simplify_eq; cycle 1.
  { right. intros h Hh. rewrite <- (free_proper _ _ h Hp). apply Hskip. lia. }
  destruct Hskip as (Hs1 & Hs2 & Hs3 & Hs4). specialize (Hs2 Hup). inv_ret.
  pose proof (next_range_start_spec k _ Hsort Hs3 Hok') as Hnext.
  match goal with H : extend_window _ _ _ _ = Ret _ |- _ => apply extend_window_spec in H as Hext; [|done|] end; cycle 1.
  { intros s Hs. apply fmap_Some in Hs as (r & Hr & ->). rewrite Hr in Hnext. tauto. }
  destruct Hext as (E1 & E2 & E3 & E4). rewrite N2Nat.id in E2, E4. unfold earliest_window, len. cbn.
  split_and!; [lia|lia|lia|lia| | |].
  - intros h Hh%contains_true. cbn in Hh. rewrite <- (free_proper _ _ h Hp).
    destruct (List.find _ k) as [r|]; [|apply Hnext; lia]. cbn in E3. specialize (E3 _ eq_refl).
    destruct Hnext as (_ & _ & Hnext). apply Hnext. lia.
  - intros h Hh. rewrite <- (free_proper _ _ h Hp). apply Hs4. lia.
  - destruct E4 as [E4|[E4|(s & Hs & E4)]]; [left; lia|right; left; by apply Height_eq_u|].
    right; right. exists s. rewrite <- (free_proper _ _ s Hp). split; [done|].
    apply fmap_Some in Hs as (r & Hr & ->). rewrite Hr in Hnext. tauto.
Qed.

Lemma skip_covered_total l a up :
  Forall (fun r => u r.(RangeInclusive.end_) < U64_MAX)%N l -> exists o, skip_covered a up l = Ret o.
Proof using laws.
  revert a. induction l as [|r l IH]; intros a; cbn; [eauto|]. intros [Hr Hl]%Forall_cons.
  case_match; [eauto|]. case_match; [|by apply IH].
  destruct (Height_increment_by_spec r.(RangeInclusive.end_) 1) as (x & Hx & _); [lia|].
  unfold Height_increment. rewrite Hx. cbn. case_match; [eauto|by apply IH].
Qed.

Lemma extend_window_total n b up next :
  (u b <= u up)%N -> (u up < U64_MAX)%N -> exists b', extend_window n b up next = Ret b'.
Proof using laws.
  revert b. induction n as [|n IH]; intros b Hb Hup; cbn; [eauto|].
  destruct (Height_increment_by_spec b 1) as (x & Hx & Hux); [lia|]. rewrite Hx. cbn.
  destruct (Height_ltb up x) eqn:Hlt; [eauto|]. apply Height_ltb_ge in Hlt.
  case_match; [eauto|]. by apply IH.
Qed.

Lemma compute_free_window_total start up n l :
  Forall (fun r => u r.(RangeInclusive.end_) < U64_MAX)%N l ->
  (u start < U64_MAX)%N -> (u up < U64_MAX)%N -> exists o, compute_free_window start up n l = Ret o.
Proof using laws.
  intros Hl Hs Hup. unfold compute_free_window. case_match; [eauto|].
  destruct (Height_increment_by_spec start 1) as (a & Ha & Hua); [lia|]. rewrite Ha. cbn.
  destruct (Height_ltb up a) eqn:Hlt; [eauto|]. apply Height_ltb_ge in Hlt.
  set (k := merge_sort _ l).
  assert (Hp : k ≡ₚ l) by apply merge_sort_Permutation.
  destruct (skip_covered_total k a up) as [o Ho]; [by rewrite Hp|]. rewrite Ho. cbn.
  destruct o as [a'|]; [|eauto].
  apply skip_covered_spec in Ho as (_ & Ha' & _); [|apply sorted_starts].
  destruct (extend_window_total (N.to_nat (n - 1)) a' up
    (RangeInclusive.start <$> List.find (fun r => Height_leb a' r.(RangeInclusive.start)) k)) as [b Hb];
    [auto|done|]. rewrite Hb. cbn. eauto.
Qed.

(** the window that value sync requests next is the earliest free one: for
    well-formed ranges below the last [u64] height it never panics, and it
    returns the window that starts at the first height above the tip in no
    range, is in no range, and ends at the batch size, at the cap or before the
    next range; it returns no window only if there is no free height. *)
Theorem compute_free_window_earliest (start up : Height) (n : N) (l : list Range)
  (Hok : Forall range_ok l)
  (Hends : Forall (fun r => u r.(RangeInclusive.end_) < U64_MAX)%N l)
  (Hstart : (u start < U64_MAX)%N) (Hup : (u up < U64_MAX)%N) :
  exists o, compute_free_window start up n l = Ret o /\ earliest_window start up n l o.
Proof using laws.
  destruct (compute_free_window_total start up n l) as [o Ho]; [done..|].
  exists o. split; [done|]. by apply compute_free_window_Ret.
Qed.

(** ** Pruning *)

Lemma total_filter f p l :
  (forall r, r ∈ l -> p r = false -> f r = 0%N) -> total f (List.filter p l) = total f l.
Proof.
  induction l as [|r l IH]; intros H; [done|]. cbn [List.filter]. rewrite total_cons, <- IH.
  - destruct (p r) eqn:Hp; [done|]. rewrite (H r); [done|constructor|done].
  - intros r' Hr'. apply H. by constructor.
Qed.

Lemma total_zero f l : (forall r, r ∈ l -> f r = 0%N) -> total f l = 0%N.
Proof.
  induction l as [|r l IH]; intros H; [done|]. rewrite total_cons, IH, (H r); [done|constructor|].
  intros r' Hr'. apply H. by constructor.
Qed.

Lemma filter_submseteq p l : List.filter p l ⊆+ l.
Proof. induction l as [|r l IH]; cbn; [done|]. case_match; [by apply submseteq_skip|by apply submseteq_cons]. Qed.

Lemma prune_ranges_within h l l' :
  Forall range_ok l -> SyncState.prune_ranges h l = Ret l' -> within l' l.
Proof using laws.
  intros Hok H. unfold SyncState.prune_ranges in H. inv_ret.
  match goal with x : (list Range * bool)%type |- _ => destruct x as [k ok] end. simplify_eq.
  eapply within_trans; [|by eapply excise_height_within].
  apply within_submseteq; [apply filter_submseteq|]. by eapply within_ok, excise_height_within.
Qed.

(** Pruning ranges that cover the height at most once leaves what they cover
    above it. *)
Lemma prune_ranges_covers h l l' h' :
  Forall range_ok l -> (total (covers h) l <= 1)%N -> SyncState.prune_ranges h l = Ret l' ->
  total (covers h') l' = if Height_ltb h h' then total (covers h') l else 0%N.
Proof using laws.
  intros Hok Hone H. unfold SyncState.prune_ranges in H. inv_ret.
  match goal with x : (list Range * bool)%type |- _ => destruct x as [k ok] end. simplify_eq.
  match goal with H : excise_height _ _ = Ret _ |- _ =>
    pose proof (excise_height_within _ _ _ _ Hok H) as [Hk _ _];
    apply excise_height_spec in H as He; [|done] end.
  assert (Hfree : free k h /\ (Height_ltb h h' = true -> total (covers h') k = total (covers h') l)).
  { destruct ok; [|by destruct He as [-> ?]]. destruct He as [_ Hc _]. split.
    - pose proof (Hc h) as Hh. rewrite bool_decide_true in Hh by done. unfold free. lia.
    - intros Hlt%Height_ltb_lt. specialize (Hc h'). rewrite bool_decide_false in Hc; [lia|].
      intros ->. lia. }
  destruct Hfree as [Hfree Heq]. rewrite free_spec in Hfree. rewrite Forall_forall in Hk. destruct (Height_ltb h h') eqn:Hlt.
  - rewrite <- Heq by done. apply Height_ltb_lt in Hlt. apply total_filter. intros r Hr Hp%Height_ltb_ge.
    unfold covers. destruct (RangeInclusive.contains r h') eqn:Hc; [|done]. apply contains_true in Hc. lia.
  - apply Height_ltb_ge in Hlt. apply total_zero. intros r [Hr Hp]%list_elem_of_In%List.filter_In.
    apply list_elem_of_In in Hr. apply Height_ltb_lt in Hp. specialize (Hfree r Hr). specialize (Hk r Hr).
    apply contains_false in Hfree. unfold range_ok in Hk. unfold covers.
    destruct (RangeInclusive.contains r h') eqn:Hc; [|done]. apply contains_true in Hc. lia.
Qed.

End ranges.

Arguments total : simpl never.
