(* ===== verification/SyncFacts.v ===== *)
(** * Value sync: invariants

    For every sequence of inputs and every host: the requests in flight and
    those waiting for consensus never overlap, and hold no more heights than
    the queue of the consensus core can take. *)

From stdpp Require Import sorting.
From S2P Require Import Prelude Types Bytes Context BTree Coroutine ConsensusTypes Scoring SyncTypes Sync SyncWindows.

Section facts.
Context {Env : Environment} {Ctx : Context} {Arith : HeightArith} {laws : HeightLaws}.
Implicit Types (s : SyncState.t) (w : World.t) (h : Height) (r : Range) (l : list Range) (t : S_trace).

Abbreviation u := Height_as_u64.
Abbreviation inflight := SyncState.inflight_requests.
Abbreviation pending := SyncState.pending_consensus_requests.

(** ** The invariant *)

Definition max_heights s : N :=
  (s.(SyncState.config).(SyncConfig.batch_size) * s.(SyncState.config).(SyncConfig.parallel_requests))%N.

Record sync_inv s : Prop := {
  inv_ok : Forall range_ok (busy_ranges s);
  inv_disjoint h : (total (covers h) (busy_ranges s) <= 1)%N;
  inv_capacity : (total len (busy_ranges s) <= max_heights s)%N;
  inv_sorted : BTreeMap.sorted (pending s);
}.

Lemma sync_inv_within s s' :
  sync_inv s -> s'.(SyncState.config) = s.(SyncState.config) ->
  BTreeMap.sorted (pending s') -> within (busy_ranges s') (busy_ranges s) -> sync_inv s'.
Proof.
  intros [Hok Hd Hc _] Hcfg Hsorted [Hok' Hd' Hl].
  split; [done| |unfold max_heights in *; rewrite Hcfg; lia|done].
  intros h. specialize (Hd h). specialize (Hd' h). lia.
Qed.

(** The ranges of the two maps, as multisets. *)
Lemma concat_submseteq {A} (l k : list (list A)) : l ⊆+ k -> concat l ⊆+ concat k.
Proof.
  intros [l' Hl]%submseteq_Permutation.
  assert (Hp : forall l1 l2 : list (list A), l1 ≡ₚ l2 -> concat l1 ≡ₚ concat l2).
  { induction 1 as [| |x y|]; cbn; [done|by f_equiv| |by etrans].
    rewrite !(assoc_L (++)). f_equiv. apply Permutation_app_comm. }
  rewrite (Hp _ _ Hl), concat_app. apply submseteq_inserts_r. done.
Qed.

Definition ranges_of (m : BTreeMap.t OutboundRequestId (Range * PeerId)) : list Range :=
  (fun kv => kv.2.1) <$> m.
Definition all_ranges_of (m : BTreeMap.t OutboundRequestId (list Range * PeerId)) : list Range :=
  concat ((fun kv => kv.2.1) <$> m).

Lemma all_ranges_of_cons k l p m : all_ranges_of ((k, (l, p)) :: m) = l ++ all_ranges_of m.
Proof. done. Qed.

Lemma busy_ranges_app s : busy_ranges s = ranges_of (inflight s) ++ all_ranges_of (pending s).
Proof. done. Qed.

Lemma ranges_of_insert k r p m : ranges_of (BTreeMap.insert k (r, p) m) ⊆+ r :: ranges_of m.
Proof. apply (fmap_submseteq (fun kv => kv.2.1) _ ((k, (r, p)) :: m)), BTreeMap.insert_submseteq. Qed.

Lemma ranges_of_remove k r p m :
  BTreeMap.get k m = Some (r, p) -> r :: ranges_of (BTreeMap.remove k m) ⊆+ ranges_of m.
Proof.
  intros Hg%BTreeMap.remove_submseteq. by apply (fmap_submseteq (fun kv => kv.2.1)) in Hg.
Qed.

Lemma all_ranges_of_insert k l p m :
  all_ranges_of (BTreeMap.insert k (l, p) m) ⊆+ l ++ all_ranges_of m.
Proof.
  apply (concat_submseteq _ (l :: ((fun kv => kv.2.1) <$> m))).
  apply (fmap_submseteq (fun kv => kv.2.1) _ ((k, (l, p)) :: m)), BTreeMap.insert_submseteq.
Qed.

Lemma all_ranges_of_remove k m : all_ranges_of (BTreeMap.remove k m) ⊆+ all_ranges_of m.
Proof. apply concat_submseteq, fmap_submseteq, BTreeMap.retain_submseteq. Qed.

Lemma all_ranges_of_update i k l l' p m :
  m !! i = Some (k, (l, p)) -> within l' l -> Forall range_ok (all_ranges_of m) ->
  within (all_ranges_of (<[i := (k, (l', p))]> m)) (all_ranges_of m).
Proof.
  intros Hi Hl. apply list_elem_of_split_length in Hi as (m1 & m2 & -> & ->).
  unfold all_ranges_of, BTreeMap.t. rewrite insert_app_r_alt, Nat.sub_diag by lia. cbn.
  rewrite !fmap_app, !concat_app, !fmap_cons. cbn. rewrite !Forall_app. intros (? & ? & ?).
  apply within_app; [by apply within_refl|]. apply within_app; [done|by apply within_refl].
Qed.

(** ** Counting the heights *)

Lemma len_u64_Ret r n : RangeInclusive.len_u64 r = Ret n -> n = len r /\ range_ok r.
Proof. unfold RangeInclusive.len_u64, len, range_ok. intros H. inv_ret. done. Qed.

Lemma sum_len_u64_Ret acc l n : sum_len_u64 acc l = Ret n -> n = (acc + total len l)%N.
Proof.
  revert acc. induction l as [|r l IH]; intros acc; cbn [sum_len_u64].
  { intros [= <-]. rewrite total_nil. lia. }
  intros H. inv_ret. match goal with H : RangeInclusive.len_u64 _ = _ |- _ => apply len_u64_Ret in H as [-> _] end.
  apply IH in H as ->. rewrite total_cons. lia.
Qed.

Lemma sum_pending_Ret acc (m : BTreeMap.t OutboundRequestId (list Range * PeerId)) n :
  sum_pending acc m = Ret n -> n = (acc + total len (all_ranges_of m))%N.
Proof.
  revert acc. induction m as [|[k [l p]] m IH]; intros acc; cbn [sum_pending].
  { intros [= <-]. unfold all_ranges_of. cbn. rewrite total_nil. lia. }
  intros H. inv_ret. match goal with H : sum_len_u64 _ _ = _ |- _ => apply sum_len_u64_Ret in H as -> end.
  apply IH in H as ->. unfold all_ranges_of. cbn [fmap list_fmap]. cbn. rewrite total_app. lia.
Qed.

Lemma current_number_of_heights_Ret s n :
  current_number_of_heights s = Ret n -> n = total len (busy_ranges s).
Proof.
  unfold current_number_of_heights. intros H. inv_ret.
  match goal with H : sum_len_u64 _ _ = _ |- _ => apply sum_len_u64_Ret in H as -> end.
  apply sum_pending_Ret in H as ->. rewrite busy_ranges_app, total_app. unfold ranges_of. lia.
Qed.

(** ** Rules for the parts of handlers that leave the requests alone *)

(** The states agree but for the random number generator and the scores. *)
Record like s s' : Prop := {
  like_config : s'.(SyncState.config) = s.(SyncState.config);
  like_started : s'.(SyncState.started) = s.(SyncState.started);
  like_tip : s'.(SyncState.tip_height) = s.(SyncState.tip_height);
  like_inflight : inflight s' = inflight s;
  like_pending : pending s' = pending s;
  like_peers : s'.(SyncState.peers) = s.(SyncState.peers);
}.

Lemma like_refl s : like s s.
Proof. by split. Qed.

Lemma like_busy s s' : like s s' -> busy_ranges s' = busy_ranges s.
Proof. intros []. unfold busy_ranges. congruence. Qed.

Lemma like_inv s s' : like s s' -> sync_inv s -> sync_inv s'.
Proof.
  intros Hl Hs. apply (sync_inv_within s); [done|by apply like_config|rewrite (like_pending _ _ Hl); apply Hs|].
  rewrite (like_busy _ _ Hl). apply within_refl, Hs.
Qed.

Section rules.
Context (stop : Prop) (allowed : S_trace -> SyncEffect.t -> Prop)
  (answers : S_trace -> SyncEffect.t -> SyncResume.t -> Prop).
Abbreviation wp := (wp stop allowed answers).

Lemma wp_get_sync w Q t : Q t (w, inr w.(World.state)) -> wp (get_sync w) Q t.
Proof. done. Qed.

Lemma wp_put_sync w s Q t :
  Q t (World.mk s w.(World.metrics) w.(World.clock), inr tt) -> wp (put_sync s w) Q t.
Proof. done. Qed.

Lemma wp_update_score p x w Q t :
  (forall w', like w.(World.state) w'.(World.state) -> Q t (w', inr tt)) -> wp (update_score p x w) Q t.
Proof.
  intros HQ. unfold update_score. apply wp_bind, wp_get. cbn.
  destruct (PeerScorer.update_score _ _ _ _) as [scorer clock]. apply wp_put, HQ. by split.
Qed.

Lemma wp_with_metrics {A} (f : SyncMetrics.t -> Clock -> SyncMetrics.t * A * Clock) w Q t :
  (forall w' x, w'.(World.state) = w.(World.state) -> Q t (w', inr x)) -> wp (with_metrics f w) Q t.
Proof.
  intros HQ. unfold with_metrics. apply wp_bind, wp_get. cbn.
  destruct (f _ _) as [[m x] c]. by apply HQ.
Qed.

Lemma wp_s_perform e w Q t :
  allowed t e ->
  (forall x, answers t e x ->
     match x with
     | SyncResume.Continue => Q (t ++ [(e, x)]) (w, inr tt)
     | _ => Q (t ++ [(e, x)]) (w, inl (SyncError.UnexpectedResume x "Resume::Continue(_)"))
     end) ->
  wp (s_perform e w) Q t.
Proof.
  intros He HQ. unfold s_perform. apply wp_bind. cbn. split; [done|]. intros x Hx.
  specialize (HQ x Hx). by destruct x.
Qed.

Lemma wp_take_inflight id p w Q t :
  (BTreeMap.get id (inflight w.(World.state)) = None -> forall e, Q t (w, inr (inl e))) ->
  (forall r p', BTreeMap.get id (inflight w.(World.state)) = Some (r, p') -> p' <> p ->
     forall e, Q t (w, inr (inl e))) ->
  (forall r, BTreeMap.get id (inflight w.(World.state)) = Some (r, p) ->
     Q t (World.mk (SyncState.set_inflight_requests w.(World.state)
                      (BTreeMap.remove id (inflight w.(World.state)))) w.(World.metrics) w.(World.clock),
          inr (inr r))) ->
  wp (take_inflight_if_peer_matches id p w) Q t.
Proof.
  intros Hn Hw Hs. unfold take_inflight_if_peer_matches. apply wp_bind, wp_get_sync. cbn [fst snd].
  destruct (BTreeMap.get id _) as [[r p']|] eqn:Hg; [|by apply wp_ret, Hn].
  destruct (bool_decide (p' = p)) eqn:Hp; cbn [negb].
  - apply bool_decide_eq_true in Hp as ->. apply wp_bind, wp_put_sync. cbn. by apply Hs.
  - apply bool_decide_eq_false in Hp. by eapply wp_ret, Hw.
Qed.

End rules.

(** ** Requests *)

(** The peer's history starts at or below the range and reaches its start. *)
Definition can_serve (peers : gmap PeerId Status.t) (p : PeerId) r : Prop :=
  exists status, peers !! p = Some status /\
    (u status.(Status.history_min_height) <= u r.(RangeInclusive.start) <= u status.(Status.tip_height))%N.

Lemma filter_peers_serve peers r p r' :
  range_ok r -> SyncState.filter_peers_by_range peers r None !! p = Some r' -> can_serve peers p r.
Proof using laws.
  unfold range_ok. intros Hok. unfold SyncState.filter_peers_by_range. case_match.
  - rewrite lookup_fmap_Some. intros (st & _ & [Hst Hf]%map_lookup_filter_Some). exists st. split; [done|].
    cbn in Hf. rewrite Is_true_true, !andb_true_iff, !Height_leb_le in Hf. lia.
  - rewrite map_lookup_filter_Some, lookup_fmap_Some. intros [(st & <- & [Hst Hf]%map_lookup_filter_Some) He].
    exists st. split; [done|]. cbn in Hf, He. rewrite Is_true_true, andb_true_iff, Height_leb_le in Hf.
    rewrite Is_true_true, negb_true_iff, is_empty_false in He. cbn in He. lia.
Qed.

Lemma random_peer_with_Ret s r s' selected :
  range_ok r -> SyncState.random_peer_with s r = Ret (s', selected) ->
  like s s' /\ match selected with Some (p, _) => can_serve s.(SyncState.peers) p r | None => True end.
Proof using laws.
  intros Hok. unfold SyncState.random_peer_with, SyncState.random_peer_with_except. intros H. inv_ret.
  match goal with x : (option PeerId * Rng)%type |- _ => destruct x as [[p|] rng] end; inv_ret; simplify_eq;
    split; try by split.
  by eapply filter_peers_serve.
Qed.

Lemma trim_above_tip s r :
  (u s.(SyncState.tip_height) < u r.(RangeInclusive.start))%N -> (u s.(SyncState.tip_height) < U64_MAX)%N ->
  SyncState.trim_validated_heights s r = Ret r.
Proof using laws.
  intros Hr Hmax. unfold SyncState.trim_validated_heights.
  destruct (Height_increment_by_spec s.(SyncState.tip_height) 1) as (x & Hx & Hu); [lia|].
  unfold Height_increment. rewrite Hx. cbn. destruct r as [a b]. f_equal. f_equal. cbn in *.
  apply Height_as_u64_inj. rewrite Height_max_u. lia.
Qed.

Lemma trim_above_tip_Ret s r r' :
  (u s.(SyncState.tip_height) < u r.(RangeInclusive.start))%N ->
  SyncState.trim_validated_heights s r = Ret r' -> r' = r.
Proof using laws.
  unfold SyncState.trim_validated_heights. intros Hr H. inv_ret.
  match goal with H : Height_increment _ = _ |- _ => apply Height_increment_Ret in H end.
  destruct r as [a b]. f_equal. cbn in *. apply Height_as_u64_inj. rewrite Height_max_u. lia.
Qed.

(** A request that was accepted by the network is in flight. *)
Definition add_inflight s (id : OutboundRequestId) r (p : PeerId) : SyncState.t :=
  SyncState.set_inflight_requests s (BTreeMap.insert id (r, p) (inflight s)).

Section loop.
Context (stop : Prop) (allowed : S_trace -> SyncEffect.t -> Prop)
  (answers : S_trace -> SyncEffect.t -> SyncResume.t -> Prop).
Abbreviation wp := (wp stop allowed answers).

Lemma wp_request_values_from_peer r p w Q t :
  let s := w.(World.state) in
  let e := SyncEffect.SendValueRequest p (ValueRequest.new r) in
  range_ok r -> (u s.(SyncState.tip_height) < u r.(RangeInclusive.start))%N ->
  stop \/ (u s.(SyncState.tip_height) < U64_MAX)%N -> allowed t e ->
  (forall x, answers t e x ->
     match x with
     | SyncResume.ValueRequestId (Some id) =>
         forall w', w'.(World.state) = add_inflight s id r p -> Q (t ++ [(e, x)]) (w', inr tt)
     | SyncResume.ValueRequestId None => Q (t ++ [(e, x)]) (w, inr tt)
     | _ => Q (t ++ [(e, x)]) (w, inl (SyncError.UnexpectedResume x "Resume::ValueRequestId(id)"))
     end) ->
  wp (request_values_from_peer r p w) Q t.
Proof using laws.
  intros s e Hok Htip Hmax He HQ. unfold request_values_from_peer.
  assert (Hne : RangeInclusive.is_empty r = false) by by apply is_empty_false.
  rewrite Hne. apply wp_bind, wp_get_sync. cbn [fst snd]. fold s. apply wp_bind.
  destruct (SyncState.trim_validated_heights s r) as [r'|msg] eqn:Ht; cycle 1.
  { destruct Hmax as [|Hmax]; [done|]. by rewrite trim_above_tip in Ht. }
  apply trim_above_tip_Ret in Ht as ->; [|done]. cbn [lift]. cbn. rewrite Hne. apply wp_bind, wp_yield; [done|].
  intros x Hx. specialize (HQ x Hx). cbn [snd]. destruct x as [|[id|]]; [done| |done].
  apply wp_bind, wp_with_metrics. intros w' [] Hw'. cbn [snd]. apply wp_bind, wp_get_sync. cbn [snd].
  apply wp_put_sync, HQ. cbn. by rewrite Hw'.
Qed.

End loop.

(** What the loop knows when it sends a request. *)
Record requestable s r (p : PeerId) : Prop := {
  rq_ok : range_ok r;
  rq_tip : (u s.(SyncState.tip_height) < u r.(RangeInclusive.start))%N;
  rq_len : (len r <= s.(SyncState.config).(SyncConfig.batch_size))%N;
  rq_free h : RangeInclusive.contains r h = true -> free (busy_ranges s) h;
  rq_serve : can_serve s.(SyncState.peers) p r;
  rq_capacity : (total len (busy_ranges s) + len r <= max_heights s)%N;
}.

Section invariant.
Context (allowed : S_trace -> SyncEffect.t -> Prop)
  (answers : S_trace -> SyncEffect.t -> SyncResume.t -> Prop).
Abbreviation wp := (wp True allowed answers).

(** The loop keeps what every accepted request keeps. *)
Context (J : S_trace -> SyncState.t -> Prop).
Context (J_ok : forall t s, J t s -> Forall range_ok (busy_ranges s))
  (J_like : forall t s s', J t s -> like s s' -> J t s')
  (J_send : forall t s r p, J t s -> requestable s r p ->
     let e := SyncEffect.SendValueRequest p (ValueRequest.new r) in
     allowed t e /\
     forall x, answers t e x ->
       match x with
       | SyncResume.ValueRequestId (Some id) => J (t ++ [(e, x)]) (add_inflight s id r p)
       | _ => J (t ++ [(e, x)]) s
       end).

Lemma wp_request_loop fuel up w t (Q : S_trace -> World.t * (SyncError.t + unit) -> Prop) :
  J t w.(World.state) -> (forall t' w' x, J t' w'.(World.state) -> Q t' (w', x)) ->
  wp (request_loop fuel up (max_heights w.(World.state)) w) Q t.
Proof using All.
  intros HJ HQ. revert w t HJ. induction fuel as [|fuel IH]; intros w t HJ; [done|]. cbn [request_loop].
  apply wp_bind, wp_get_sync. cbn [fst snd]. set (s := w.(World.state)) in *.
  apply wp_bind, wp_lift. intros o Ho. cbn [snd].
  destruct o as [r|]; [|by apply wp_ret, HQ].
  apply compute_free_window_Ret in Ho; [|by eapply J_ok].
  destruct Ho as (Ha & Hup & Hlen & Hfree & _ & _).
  apply wp_bind, wp_lift. intros [s' selected] Hsel. cbn [snd].
  apply random_peer_with_Ret in Hsel as [Hlike Hserve]; [|unfold range_ok; lia].
  apply wp_bind, wp_put_sync. cbn [fst snd]. set (w' := World.mk s' _ _).
  assert (HJ' : J t w'.(World.state)) by by eapply J_like.
  destruct selected as [[p r']|]; [|by apply wp_ret, HQ].
  apply wp_bind, wp_lift. intros n Hn%current_number_of_heights_Ret. cbn [snd].
  apply wp_bind, wp_lift. intros k [-> _]%len_u64_Ret. cbn [snd].
  apply wp_bind, wp_lift. intros sum [-> _]%add_u64_Ret. cbn [snd]. case_match eqn:Hmax; [by apply wp_ret, HQ|].
  apply N.ltb_ge in Hmax. apply wp_bind.
  assert (Hrq : requestable s' r p).
  { rewrite (like_busy _ _ Hlike) in *. split; [unfold range_ok; lia|..];
      rewrite ?(like_tip _ _ Hlike), ?(like_config _ _ Hlike), ?(like_busy _ _ Hlike), ?(like_peers _ _ Hlike);
      try done; [lia|]. unfold max_heights. rewrite (like_config _ _ Hlike). subst n. exact Hmax. }
  assert (Hcfg : max_heights s = max_heights s') by (unfold max_heights; by rewrite (like_config _ _ Hlike)).
  destruct (J_send t s' r p HJ' Hrq) as [He Hx].
  apply wp_request_values_from_peer; [apply Hrq|apply Hrq|by left|done|]. intros x Hans. specialize (Hx x Hans).
  destruct x as [|[id|]]; cbn [fst snd].
  - by apply HQ.
  - intros w'' Hw''. rewrite Hcfg. specialize (IH w''). rewrite Hw'' in IH. by apply IH.
  - rewrite Hcfg. by apply (IH w').
Qed.

Lemma wp_request_values fuel up w t (Q : S_trace -> World.t * (SyncError.t + unit) -> Prop) :
  J t w.(World.state) -> (forall t' w' x, J t' w'.(World.state) -> Q t' (w', x)) ->
  wp (request_values fuel up w) Q t.
Proof using All.
  intros HJ HQ. unfold request_values. apply wp_bind, wp_get_sync. cbn [fst snd].
  case_match; [by apply wp_ret, HQ|]. apply wp_bind, wp_lift. intros n [-> _]%mul_u64_Ret. cbn [fst snd].
  by apply wp_request_loop.
Qed.

End invariant.

Lemma add_inflight_busy s id r p :
  Forall range_ok (busy_ranges s) -> range_ok r ->
  within (busy_ranges (add_inflight s id r p)) (r :: busy_ranges s).
Proof.
  rewrite !busy_ranges_app, Forall_app. intros [Hi Hp] Hr.
  change (r :: ranges_of (inflight s) ++ all_ranges_of (pending s)) with
    ((r :: ranges_of (inflight s)) ++ all_ranges_of (pending s)).
  apply within_app; [|by apply within_refl]. apply within_submseteq; [apply ranges_of_insert|].
  by constructor.
Qed.

Lemma add_inflight_inv s id r p : sync_inv s -> requestable s r p -> sync_inv (add_inflight s id r p).
Proof.
  intros [Hok Hd Hc Hsort] [Hr _ _ Hfree _ Hcap].
  destruct (add_inflight_busy s id r p Hok Hr) as [Hok' Hd' Hl]. split; [done| | |done].
  - intros h. specialize (Hd' h). specialize (Hd h). rewrite total_cons in Hd'. unfold covers at 2 in Hd'.
    destruct (RangeInclusive.contains r h) eqn:Hrh; [|lia]. rewrite (Hfree h Hrh) in Hd'. lia.
  - rewrite total_cons in Hl. unfold max_heights in *. cbn in *. lia.
Qed.

Lemma set_inflight_inv s m : sync_inv s -> ranges_of m ⊆+ ranges_of (inflight s) ->
  sync_inv (SyncState.set_inflight_requests s m).
Proof.
  intros Hs Hm. apply (sync_inv_within s); [done..|apply Hs|]. rewrite !busy_ranges_app. cbn.
  destruct Hs as [Hok _ _ _]. rewrite busy_ranges_app, Forall_app in Hok. destruct Hok.
  apply within_app; [by apply within_submseteq|by apply within_refl].
Qed.

Lemma set_pending_inv s m : sync_inv s -> BTreeMap.sorted m -> within (all_ranges_of m) (all_ranges_of (pending s)) ->
  sync_inv (SyncState.set_pending_consensus_requests s m).
Proof.
  intros Hs Hsort Hm. apply (sync_inv_within s); [done..|]. rewrite !busy_ranges_app. cbn.
  destruct Hs as [Hok _ _ _]. rewrite busy_ranges_app, Forall_app in Hok. destruct Hok.
  apply within_app; [by apply within_refl|done].
Qed.

(** A request in flight becomes one that waits for consensus, for a part of its
    range. *)
Lemma accept_inv s id r p r' p' :
  sync_inv s -> BTreeMap.get id (inflight s) = Some (r, p) -> within [r'] [r] ->
  sync_inv (SyncState.set_pending_consensus_requests
              (SyncState.set_inflight_requests s (BTreeMap.remove id (inflight s)))
              (BTreeMap.insert id ([r'], p') (pending s))).
Proof.
  intros Hs Hg Hr. apply (sync_inv_within s); [done..|apply BTreeMap.insert_sorted, Hs|]. rewrite !busy_ranges_app. cbn.
  destruct Hs as [Hok _ _ _]. rewrite busy_ranges_app, Forall_app in Hok. destruct Hok as [Hi Hp].
  apply ranges_of_remove in Hg.
  assert (Hrem : Forall range_ok (r :: ranges_of (BTreeMap.remove id (inflight s)))).
  { by apply (within_ok _ _ (within_submseteq _ _ Hg Hi)). }
  apply Forall_cons in Hrem as [Hr0 Hrem].
  eapply within_trans; [|apply within_app; [apply (within_submseteq _ _ Hg Hi)|by apply within_refl]].
  rewrite (within_perm_r _ _ (ranges_of (BTreeMap.remove id (inflight s)) ++ [r] ++ all_ranges_of (pending s)))
    by (cbn; by rewrite Permutation_middle).
  apply within_app; [by apply within_refl|].
  eapply within_trans; [apply within_submseteq; [apply all_ranges_of_insert|]|].
  - apply Forall_app. split; [apply Hr|done].
  - apply within_app; [done|by apply within_refl].
Qed.

(** Pruning. *)
Lemma prune_requests_within h m m' :
  Forall range_ok (all_ranges_of m) -> SyncState.prune_requests h m = Ret m' ->
  within (all_ranges_of m') (all_ranges_of m).
Proof using laws.
  revert m'. induction m as [|[id [l p]] m IH]; intros m'; cbn [SyncState.prune_requests].
  { intros _ [= <-]. apply within_nil. }
  rewrite all_ranges_of_cons, Forall_app. intros [Hl Hm] H. inv_ret.
  match goal with H : SyncState.prune_requests _ _ = Ret _ |- _ => apply IH in H as Hm'; [|done] end.
  match goal with H : SyncState.prune_ranges _ _ = Ret _ |- _ => apply prune_ranges_within in H as Hl'; [|done] end.
  case_match; [by apply within_drop|]. rewrite all_ranges_of_cons. by apply within_app.
Qed.

Lemma prune_requests_submseteq h m m' :
  SyncState.prune_requests h m = Ret m' -> m'.*1 `sublist_of` m.*1.
Proof.
  revert m'. induction m as [|[id [l p]] m IH]; intros m'; cbn [SyncState.prune_requests].
  { intros [= <-]. done. }
  intros H. inv_ret. match goal with H : SyncState.prune_requests _ _ = Ret _ |- _ => apply IH in H end.
  case_match; [by apply sublist_cons|]. by apply sublist_skip.
Qed.

(** Whether a map is sorted depends on its keys only. *)
Lemma sorted_keys {V V'} (m : BTreeMap.t OutboundRequestId V) (m' : BTreeMap.t OutboundRequestId V') :
  m'.*1 `sublist_of` m.*1 -> BTreeMap.sorted m -> BTreeMap.sorted m'.
Proof.
  unfold BTreeMap.sorted. intros Hk Hm.
  assert (Hf : forall V (m : list (OutboundRequestId * V)),
    StronglySorted (fun a b => key_ltb a.1 b.1 = true) m <-> StronglySorted (fun a b => key_ltb a b = true) m.*1).
  { clear. intros V m. induction m as [|[k v] m IH]; [by split; constructor|]. rewrite fmap_cons, !StronglySorted_cons, IH.
    by rewrite Forall_fmap. }
  rewrite Hf in *. revert Hm. induction Hk as [|x l k Hk IH|x l k Hk IH]; [done|..];
    rewrite !StronglySorted_cons; intros [Hx Hm]; [|auto]. split; [|auto].
  rewrite Forall_forall in *. intros y Hy. apply Hx. by eapply elem_of_submseteq, sublist_submseteq.
Qed.

Lemma prune_requests_sorted h m m' :
  BTreeMap.sorted m -> SyncState.prune_requests h m = Ret m' -> BTreeMap.sorted m'.
Proof. intros Hm H. by eapply sorted_keys, Hm; apply prune_requests_submseteq in H. Qed.

End facts.

(** One step through a handler of value sync. *)
Ltac sync_step :=
  lazymatch goal with
  | |- wp _ _ _ (get_sync _) _ _ => apply wp_get_sync; cbn [fst snd]
  | |- wp _ _ _ (put_sync _ _) _ _ => apply wp_put_sync; cbn [fst snd]
  | |- wp _ _ _ (update_score _ _ _) _ _ => apply wp_update_score; intros ? ?; cbn [fst snd]
  | |- wp _ _ _ (with_metrics _ _) _ _ => apply wp_with_metrics; intros ? ? ?; cbn [fst snd]
  | |- wp _ _ _ (update_metrics _ _) _ _ => apply wp_with_metrics; intros ? ? ?; cbn [fst snd]
  | |- _ => wp_step
  end.

(** ** The invariant is kept *)

Section kept.
Context {Env : Environment} {Ctx : Context} {Arith : HeightArith} {laws : HeightLaws}.
Implicit Types (s : SyncState.t) (w : World.t) (h : Height) (r : Range) (l : list Range) (t : S_trace).

Abbreviation u := Height_as_u64.
Abbreviation inflight := SyncState.inflight_requests.
Abbreviation pending := SyncState.pending_consensus_requests.

(** Effects other than requests are always allowed. *)
Definition is_request (e : SyncEffect.t) : bool :=
  match e with SyncEffect.SendValueRequest _ _ => true | _ => false end.

Context (allowed : S_trace -> SyncEffect.t -> Prop)
  (answers : S_trace -> SyncEffect.t -> SyncResume.t -> Prop)
  (quiet : forall t e, is_request e = false -> allowed t e).
Abbreviation wp := (wp True allowed answers).

(** The state satisfies the invariant and has the configuration of [s0]. *)
Definition good (s0 s : SyncState.t) : Prop :=
  sync_inv s /\ s.(SyncState.config) = s0.(SyncState.config).

Definition good_end (s0 : SyncState.t) (_ : S_trace) (x : World.t * (SyncError.t + unit)) : Prop :=
  good s0 x.1.(World.state).

Lemma good_like s0 s s' : good s0 s -> like s s' -> good s0 s'.
Proof. intros [Hs Hc] Hl. split; [by eapply like_inv|]. by rewrite (like_config _ _ Hl). Qed.

Lemma request_values_good s0 fuel up w t :
  (forall t e, allowed t e) -> good s0 w.(World.state) -> wp (request_values fuel up w) (good_end s0) t.
Proof using laws quiet.
  intros Hall Hg. eapply (wp_request_values _ _ (fun _ s => good s0 s)); [| | |done|done].
  - intros _ s [Hs _]. apply Hs.
  - intros _ s s'. apply good_like.
  - intros t1 s r p [Hs Hc] Hr. split; [done|]. intros [|[id|]] _; [by split| |by split].
    split; [by eapply add_inflight_inv|done].
Qed.

Lemma on_tick_good s0 fuel w t :
  (forall t e, allowed t e) -> good s0 w.(World.state) -> wp (on_tick fuel w) (good_end s0) t.
Proof using laws quiet.
  intros Hall Hg. unfold on_tick. apply wp_bind, wp_get_sync. cbn [fst snd].
  apply wp_bind, wp_s_perform; [by apply quiet|]. intros [|] _; [|done]. cbn [fst snd].
  apply wp_bind. unfold reset_inactive_peers. apply wp_bind, wp_get. cbn [fst snd].
  assert (Hrest : forall w' t', good s0 w'.(World.state) ->
    wp ((state ← get_sync;
         let tip_height := state.(SyncState.tip_height) in
         let max_tip_height := default tip_height (max_peer_tip state.(SyncState.peers)) in
         when (Height_ltb tip_height max_tip_height) (request_values fuel max_tip_height)) w') (good_end s0) t').
  { intros w' t' Hw'. apply wp_bind, wp_get_sync. cbn [fst snd]. apply wp_when; intros _; [|done].
    by apply request_values_good. }
  destruct (SyncConfig.inactive_threshold _) as [d|]; [|by apply wp_ret, Hrest].
  destruct (PeerScorer.reset_inactive_peers_scores _ _ _) as [scorer clock]. apply wp_put. cbn [fst snd].
  apply Hrest. by eapply good_like; [exact Hg|].
Qed.

Lemma on_status_good s0 fuel status w t :
  (forall t e, allowed t e) -> good s0 w.(World.state) -> wp (on_status fuel status w) (good_end s0) t.
Proof using laws quiet.
  intros Hall Hg. unfold on_status. apply wp_bind, wp_get_sync. cbn [fst snd]. apply wp_bind, wp_put_sync. cbn [fst snd].
  assert (Hg' : good s0 (SyncState.update_status w.(World.state) status)).
  { destruct Hg as [Hs Hc]. split; [|done]. apply (sync_inv_within w.(World.state)); [done..|apply Hs|].
    apply within_refl, Hs. }
  case_match; [done|]. apply wp_when; intros _; [|done]. by apply request_values_good.
Qed.

Lemma prune_good s0 s h s' : good s0 s -> SyncState.prune_pending_consensus_requests s h = Ret s' -> good s0 s'.
Proof using laws quiet.
  intros [Hs Hc] H. unfold SyncState.prune_pending_consensus_requests in H. inv_ret. split; [|done].
  apply set_pending_inv; [done|by eapply prune_requests_sorted; [apply Hs|]|]. eapply prune_requests_within; [|done].
  destruct Hs as [Hok _ _ _]. rewrite busy_ranges_app, Forall_app in Hok. by destruct Hok.
Qed.

(** The requests do not depend on the tip and the flag. *)
Lemma good_set_tip s0 s h : good s0 s -> good s0 (SyncState.set_tip_height s h).
Proof. intros [Hs Hc]. split; [|done]. by destruct Hs; split. Qed.
Lemma good_set_started s0 s b : good s0 s -> good s0 (SyncState.set_started s b).
Proof. intros [Hs Hc]. split; [|done]. by destruct Hs; split. Qed.

Lemma on_started_height_good s0 h b w t :
  good s0 w.(World.state) -> wp (on_started_height h b w) (good_end s0) t.
Proof using laws quiet.
  intros Hg. unfold on_started_height. apply wp_bind, wp_get_sync. cbn [fst snd]. apply wp_bind, wp_lift.
  intros s Hs. cbn [fst snd]. apply wp_put_sync. apply good_set_tip. eapply prune_good; [|done].
  by apply good_set_started.
Qed.

Lemma on_decided_good s0 h w t : good s0 w.(World.state) -> wp (on_decided h w) (good_end s0) t.
Proof using laws quiet.
  intros Hg. unfold on_decided. apply wp_bind, wp_get_sync. cbn [fst snd]. apply wp_bind, wp_lift.
  intros s Hs. cbn [fst snd]. apply wp_put_sync. eapply prune_good; [|done]. by apply good_set_tip.
Qed.

(** *** Responses *)

(** The end of the response's values, computed from the requested start. *)
Lemma response_range start response end_ range_len requested :
  SyncValueResponse.start_height response = start ->
  response_is_valid response end_ range_len requested = true ->
  RangeInclusive.len_u64 (RangeInclusive.new start end_) = Ret range_len ->
  u start = u requested.(RangeInclusive.start) /\ (u start <= u end_)%N /\
  (u end_ <= u requested.(RangeInclusive.end_))%N /\
  SyncValueResponse.len_u64 response = (u end_ - u start + 1)%N.
Proof.
  intros <- Hv [-> _]%len_u64_Ret. unfold response_is_valid in Hv.
  rewrite !andb_true_iff, !N.eqb_eq, !N.leb_le in Hv. unfold len in Hv. cbn in Hv. tauto.
Qed.

Lemma accept_response_good s0 s id p response end_ requested range_len w t :
  good s0 s -> BTreeMap.get id (inflight s) = Some (requested, p) ->
  w.(World.state) = SyncState.set_inflight_requests s (BTreeMap.remove id (inflight s)) ->
  response_is_valid response end_ range_len requested = true ->
  RangeInclusive.len_u64 (RangeInclusive.new response.(SyncValueResponse.start_height) end_) = Ret range_len ->
  wp (accept_response id p response requested w) (good_end s0) t.
Proof using laws quiet.
  intros [Hs Hc] Hg Hw Hv Hlen.
  destruct (response_range _ _ _ _ _ eq_refl Hv Hlen) as (Hstart & Hle & Hend & Hn).
  assert (Hgood : good s0 w.(World.state)).
  { rewrite Hw. split; [|done]. apply set_inflight_inv; [done|].
    etrans; [|by eapply ranges_of_remove]. by apply submseteq_cons. }
  unfold accept_response. apply wp_bind, wp_s_perform; [by apply quiet|]. intros [|] _; [|done]. cbn [fst snd].
  apply wp_bind, wp_lift. intros next Hnext%Height_increment_by_Ret. cbn [fst snd].
  apply wp_bind, wp_lift. intros last Hlast. inv_ret. cbn [fst snd]. apply wp_bind, wp_get_sync. cbn [fst snd].
  destruct (Height_decrement_Some next) as (last' & Hl' & Hlast'); [lia|]. rewrite Hl' in Hlast. injection Hlast as <-.
  apply wp_bind, wp_put_sync. cbn [fst snd].
  assert (Hgood' : good s0 (SyncState.set_pending_consensus_requests w.(World.state)
    (BTreeMap.insert id ([RangeInclusive.new response.(SyncValueResponse.start_height) last'], p)
       (pending w.(World.state))))).
  { rewrite Hw. split; [|done]. apply (accept_inv s id requested p); [done..|].
    apply within_part; [unfold range_ok|..]; cbn; lia. }
  apply wp_bind, wp_with_metrics. intros w' o Hw'. cbn [fst snd]. destruct o as [d|].
  - apply wp_update_score. intros w'' Hl. eapply good_like; [|exact Hl]. by rewrite Hw'.
  - apply wp_ret. unfold good_end. cbn. by rewrite Hw'.
Qed.

Lemma on_value_response_good s0 id p response w t :
  good s0 w.(World.state) -> wp (on_value_response id p response w) (good_end s0) t.
Proof using laws quiet.
  intros Hg. unfold on_value_response.
  assert (Hpun : forall w' t', good s0 w'.(World.state) ->
    wp (update_score p SyncResult.Failure w') (good_end s0) t').
  { intros w' t' Hw'. apply wp_update_score. intros w'' Hl. by eapply good_like. }
  apply wp_bind, wp_take_inflight; [intros _ e; cbn; by apply Hpun|intros r p' _ _ e; cbn; by apply Hpun|].
  intros r Hr. cbn [fst snd]. set (w1 := World.mk _ _ _).
  assert (Hg1 : good s0 w1.(World.state)).
  { destruct Hg as [Hs Hc]. split; [|done]. apply set_inflight_inv; [done|].
    etrans; [|by eapply ranges_of_remove]. by apply submseteq_cons. }
  destruct response as [response|]; [|by apply Hpun].
  apply wp_bind, wp_lift. intros e He. cbn [fst snd]. apply wp_bind, wp_lift. intros n Hn. cbn [fst snd].
  apply wp_bind, wp_lift. intros b Hb. cbn [fst snd]. destruct b; cbn [negb]; [|by apply Hpun].
  case_match eqn:Hv; [by apply Hpun|]. apply negb_false_iff in Hv.
  by eapply (accept_response_good s0 w.(World.state)).
Qed.

(** *** The rest *)

Lemma on_sync_request_timed_out_good s0 id p request w t :
  good s0 w.(World.state) -> wp (on_sync_request_timed_out id p request w) (good_end s0) t.
Proof.
  intros Hg. unfold on_sync_request_timed_out. destruct request as [request].
  apply wp_bind, wp_update_score. intros w' Hl. cbn [fst snd].
  assert (Hg' : good s0 w'.(World.state)) by by eapply good_like.
  apply wp_bind, wp_take_inflight; [done|done|]. intros r Hr. cbn [fst snd].
  apply wp_with_metrics. intros w'' [] Hw''. unfold good_end. cbn in *. rewrite Hw''.
  destruct Hg' as [Hs Hc]. split; [|done]. apply set_inflight_inv; [done|].
  etrans; [|by eapply ranges_of_remove]. by apply submseteq_cons.
Qed.

Lemma on_invalid_value_good s0 h p w t :
  good s0 w.(World.state) -> wp (on_invalid_value h p w) (good_end s0) t.
Proof using laws quiet.
  intros Hg. unfold on_invalid_value. apply wp_bind, wp_get_sync. cbn [fst snd].
  unfold SyncState.get_pending_consensus_request_id_by.
  destruct (list_find _ _) as [[i [id [l p']]]|] eqn:Hf; [|done].
  apply list_find_Some in Hf as (Hi & _ & _). case_match; [done|].
  apply wp_bind, wp_lift. intros [l' ok] Hl. cbn [fst snd]. apply wp_put_sync. cbn.
  destruct Hg as [Hs Hc]. split; [|done]. apply set_pending_inv; [done| |].
  { assert (Hsort : BTreeMap.sorted (<[i := (id, (l', p'))]> (pending w.(World.state)))).
    { eapply sorted_keys; [|apply Hs]. unfold BTreeMap.t in *.
      rewrite list_fmap_insert, list_insert_id; [done|]. by rewrite list_lookup_fmap, Hi. }
    destruct ok; [|done]. destruct l'; [|done]. by apply BTreeMap.retain_sorted. }
  pose proof (inv_ok _ Hs) as Hok. rewrite busy_ranges_app, Forall_app in Hok. destruct Hok as [_ Hok].
  assert (Hll : Forall range_ok l).
  { apply list_elem_of_lookup_2, list_elem_of_split in Hi as (m1 & m2 & Hm). rewrite Hm in Hok.
    unfold all_ranges_of in Hok. rewrite fmap_app, concat_app, fmap_cons in Hok. cbn in Hok.
    rewrite !Forall_app in Hok. tauto. }
  pose proof (all_ranges_of_update i id l l' p' _ Hi (excise_height_within _ _ _ _ Hll Hl) Hok) as Hw.
  destruct ok; [|done]. destruct l'; [|done]. eapply within_trans; [|exact Hw].
  apply within_submseteq; [apply all_ranges_of_remove|apply Hw].
Qed.

(** The inputs on which values are requested. *)
Definition requests (input : SyncInput.t) : bool :=
  match input with SyncInput.Tick | SyncInput.Status _ => true | _ => false end.

Lemma handle_quiet_good s0 fuel input w t :
  requests input = false -> good s0 w.(World.state) -> wp (handle fuel input w) (good_end s0) t.
Proof using laws quiet.
  intros Hq Hg. destruct input; cbn [handle]; try done.
  - by apply on_started_height_good.
  - by apply on_decided_good.
  - unfold on_value_request. apply wp_bind, wp_with_metrics. intros w' x Hw'. cbn [fst snd].
    apply wp_s_perform; [by apply quiet|]. intros [|] _; unfold good_end; cbn; by rewrite Hw'.
  - by apply on_value_response_good.
  - unfold on_got_decided_values. apply wp_bind, wp_lift. intros n _. cbn [fst snd].
    apply wp_bind, wp_lift. intros h _. cbn [fst snd]. apply wp_bind, wp_s_perform; [by apply quiet|].
    intros [|] _; [|done]. cbn [fst snd]. apply wp_with_metrics. intros w' [] Hw'.
    unfold good_end. cbn. by rewrite Hw'.
  - by apply on_sync_request_timed_out_good.
  - apply wp_bind, wp_update_score. intros w' Hl. cbn [fst snd]. apply on_invalid_value_good.
    by eapply good_like.
  - by apply on_invalid_value_good.
Qed.

Lemma handle_good s0 fuel input w t :
  (forall t e, allowed t e) -> good s0 w.(World.state) -> wp (handle fuel input w) (good_end s0) t.
Proof using laws quiet.
  intros Hall Hg. destruct (requests input) eqn:Hq; [|by apply handle_quiet_good].
  destruct input; cbn [handle]; try done; [by apply on_tick_good|by apply on_status_good].
Qed.

End kept.
