(* ===== verification/SyncSafety.v ===== *)
(** * Value sync: safety of requests

    The states that value sync reaches, whatever inputs it gets and however its
    host answers, and the requests it sends from them. *)

From S2P Require Import Prelude Types Bytes Context BTree Coroutine ConsensusTypes Scoring SyncTypes Sync SyncWindows SyncFacts.

Section safety.
Context {Env : Environment} {Ctx : Context} {Arith : HeightArith}.
Implicit Types (s : SyncState.t) (w : World.t) (h : Height) (r : Range) (l : list Range) (t : S_trace).

Abbreviation u := Height_as_u64.
Abbreviation inflight := SyncState.inflight_requests.
Abbreviation pending := SyncState.pending_consensus_requests.

(** ** Reachable worlds

    A new state, then any inputs; the actor that runs the process also drops
    the status of a peer that disconnects. *)
Definition forget_peer (p : PeerId) s : SyncState.t :=
  SyncState.set_peers s (delete p s.(SyncState.peers)).

Inductive reachable (config : SyncConfig.t) : World.t -> Prop :=
  | reach_new rng clock s :
      SyncState.new rng config = Ret s -> reachable config (World.mk s SyncMetrics.new clock)
  | reach_input fuel input w t w' result :
      reachable config w -> steps (handle fuel input w) t (Complete (w', result)) -> reachable config w'
  | reach_disconnected p w :
      reachable config w ->
      reachable config (World.mk (forget_peer p w.(World.state)) w.(World.metrics) w.(World.clock)).

Context {laws : HeightLaws}.

Lemma reachable_inv config w :
  reachable config w -> sync_inv w.(World.state) /\ w.(World.state).(SyncState.config) = config.
Proof using laws.
  induction 1 as [rng clock s Hnew|fuel input w t w' result Hw [IHs IHc] Hsteps|p w Hw [IHs IHc]].
  - unfold SyncState.new in Hnew. inv_ret. split; [|done].
    split; [by apply Forall_nil|intros h; apply N.le_0_l|apply N.le_0_l|constructor].
  - assert (Hg : good w.(World.state) w.(World.state)) by done.
    pose proof (handle_good (fun _ _ => True) (fun _ _ _ => True) ltac:(done) _ fuel input w [] ltac:(done) Hg) as Hwp.
    destruct (wp_complete _ _ _ _ _ _ _ _ Hwp Hsteps) as [Hs Hc].
    { clear. generalize (@nil (SyncEffect.t * SyncResume.t)). induction t as [|[e x] t IH]; intros t0; [done|]. by split. }
    cbn in *. by rewrite Hc, IHc.
  - cbn. split; [|done]. by destruct IHs; split.
Qed.

(** ** The requests of one input *)

(** The accepted requests of a trace: their ranges and their identifiers. *)
Definition sent_request (ex : SyncEffect.t * SyncResume.t) : option (OutboundRequestId * Range) :=
  match ex with
  | (SyncEffect.SendValueRequest _ q, SyncResume.ValueRequestId (Some id)) => Some (id, q.(ValueRequest.range))
  | _ => None
  end.
Definition sent t : list (OutboundRequestId * Range) := omap sent_request t.

(** The network gives each request an identifier that is not in use. *)
Definition fresh_ids s t (e : SyncEffect.t) (x : SyncResume.t) : Prop :=
  forall id r, sent_request (e, x) = Some (id, r) ->
    BTreeMap.get id (inflight s) = None /\ id ∉ (sent t).*1.

Definition known_peers s (input : SyncInput.t) : gmap PeerId Status.t :=
  match input with
  | SyncInput.Status status => <[status.(Status.peer_id) := status]> s.(SyncState.peers)
  | _ => s.(SyncState.peers)
  end.

(** The request of [r] from [p] is in order when [l] are the busy ranges. *)
Record request_ok s (peers : gmap PeerId Status.t) l r (p : PeerId) : Prop := {
  request_tip : (u s.(SyncState.tip_height) < u r.(RangeInclusive.start))%N;
  request_ordered : (u r.(RangeInclusive.start) <= u r.(RangeInclusive.end_))%N;
  request_batch : (len r <= s.(SyncState.config).(SyncConfig.batch_size))%N;
  request_free h : RangeInclusive.contains r h = true -> free l h;
  request_peer : can_serve peers p r;
  request_capacity : (total len l + len r <= max_heights s)%N;
}.

Lemma sent_snoc t e x : sent (t ++ [(e, x)]) = sent t ++ from_option (fun y => [y]) [] (sent_request (e, x)).
Proof. unfold sent. rewrite omap_app. cbn. by destruct (sent_request (e, x)). Qed.

(** The state in the loop: the requests of the trace have been added to those
    of [s0]. *)
Record requesting (s0 : SyncState.t) (peers : gmap PeerId Status.t) t s : Prop := {
  rs_config : s.(SyncState.config) = s0.(SyncState.config);
  rs_tip : s.(SyncState.tip_height) = s0.(SyncState.tip_height);
  rs_peers : s.(SyncState.peers) = peers;
  rs_ok : Forall range_ok (busy_ranges s);
  rs_busy : busy_ranges s ≡ₚ busy_ranges s0 ++ (sent t).*2;
  rs_ids id : BTreeMap.get id (inflight s) <> None ->
    BTreeMap.get id (inflight s0) <> None \/ id ∈ (sent t).*1;
}.

Definition requests_ok (s0 : SyncState.t) (peers : gmap PeerId Status.t) t (e : SyncEffect.t) : Prop :=
  match e with
  | SyncEffect.SendValueRequest p q =>
      request_ok s0 peers (busy_ranges s0 ++ (sent t).*2) q.(ValueRequest.range) p
  | _ => True
  end.

Lemma requesting_like s0 peers t s s' : requesting s0 peers t s -> like s s' -> requesting s0 peers t s'.
Proof.
  intros [] Hl. pose proof (like_busy _ _ Hl) as Hb. destruct Hl as [? ? ? Hi ? ?].
  split; rewrite ?Hb, ?Hi; try congruence; done.
Qed.

(** An effect that is no accepted request changes nothing. *)
Lemma requesting_quiet s0 peers t s e x :
  sent_request (e, x) = None -> requesting s0 peers t s -> requesting s0 peers (t ++ [(e, x)]) s.
Proof.
  intros Hn []. split; try done; by rewrite sent_snoc, Hn, app_nil_r.
Qed.

Lemma requesting_add s0 peers t s r p id :
  requesting s0 peers t s -> range_ok r ->
  let e := SyncEffect.SendValueRequest p (ValueRequest.new r) in
  let x := SyncResume.ValueRequestId (Some id) in
  fresh_ids s0 t e x -> requesting s0 peers (t ++ [(e, x)]) (add_inflight s id r p).
Proof.
  intros [Hc Ht Hp Hok Hb Hi] Hr e x Hf. destruct (Hf id r eq_refl) as [Hf0 Hft].
  assert (Hnew : BTreeMap.get id (inflight s) = None).
  { destruct (BTreeMap.get id (inflight s)) eqn:Hg; [|done]. destruct (Hi id) as [H|H]; [by rewrite Hg|done..]. }
  split; cbn; try done.
  - by apply (within_ok _ _ (add_inflight_busy s id r p Hok Hr)).
  - rewrite sent_snoc, fmap_app, (assoc_L (++)), <- Hb, !busy_ranges_app. cbn. unfold ranges_of.
    rewrite (BTreeMap.insert_new_Permutation _ _ _ Hnew). cbn. by rewrite Permutation_cons_append.
  - intros id'. rewrite sent_snoc, fmap_app, elem_of_app. cbn. destruct (decide (id' = id)) as [->|Hne].
    { intros _. right. right. by constructor. }
    intros Hg. destruct (Hi id') as [?|?]; [|by left|by right; left].
    intros Hn. apply Hg. clear -Hn Hne. revert Hn. induction (inflight s) as [|[k v] m IH]; cbn.
    { intros _. by case_decide. }
    destruct (key_ltb id k); cbn; [by destruct (decide (id' = id))|].
    destruct (decide (id = k)) as [<-|]; cbn; destruct (decide (id' = _)); done || exact IH.
Qed.

Lemma requesting_sends s0 peers t s r p :
  requesting s0 peers t s -> requestable s r p ->
  let e := SyncEffect.SendValueRequest p (ValueRequest.new r) in
  requests_ok s0 peers t e /\
  forall x, fresh_ids s0 t e x ->
    match x with
    | SyncResume.ValueRequestId (Some id) => requesting s0 peers (t ++ [(e, x)]) (add_inflight s id r p)
    | _ => requesting s0 peers (t ++ [(e, x)]) s
    end.
Proof.
  intros Hs Hr e. split.
  - destruct Hs as [Hc Ht Hp Hok Hb Hi], Hr as [Hr1 Hr2 Hr3 Hr4 Hr5 Hr6]. split; cbn.
    + by rewrite <- Ht.
    + done.
    + by rewrite <- Hc.
    + intros h Hh. rewrite <- (free_proper _ _ h Hb). by apply Hr4.
    + by rewrite <- Hp.
    + rewrite <- Hb. unfold max_heights in *. by rewrite <- Hc.
  - intros [|[id|]] Hx; [by apply requesting_quiet| |by apply requesting_quiet].
    apply requesting_add; [done|apply Hr|done].
Qed.

Section one_input.
Context (s0 : SyncState.t) (peers : gmap PeerId Status.t).
Abbreviation wp := (wp True (requests_ok s0 peers) (fresh_ids s0)).

Lemma request_values_requesting fuel up w t :
  requesting s0 peers t w.(World.state) -> wp (request_values fuel up w) (fun _ _ => True) t.
Proof using laws.
  intros Hw. eapply (wp_request_values _ _ (requesting s0 peers)); [| | |exact Hw|done].
  - by intros t1 s [].
  - intros t1 s s'. apply requesting_like.
  - intros t1 s r p. apply requesting_sends.
Qed.

Lemma on_tick_requesting fuel w t :
  requesting s0 peers t w.(World.state) -> wp (on_tick fuel w) (fun _ _ => True) t.
Proof using laws.
  intros Hw. unfold on_tick. apply wp_bind, wp_get_sync. cbn [fst snd].
  apply wp_bind, wp_s_perform; [done|]. intros [|] _; [|done]. cbn [fst snd].
  apply wp_bind. unfold reset_inactive_peers. apply wp_bind, wp_get. cbn [fst snd].
  assert (Hw' : forall x, requesting s0 peers
    (t ++ [(SyncEffect.BroadcastStatus (SyncState.tip_height (World.state w)), SyncResume.Continue)])
    (SyncState.set_peer_scorer (World.state w) x)).
  { intros x. apply requesting_quiet; [done|]. by eapply requesting_like; [exact Hw|split]. }
  destruct (SyncConfig.inactive_threshold _) as [d|].
  - destruct (PeerScorer.reset_inactive_peers_scores _ _ _) as [scorer clock]. apply wp_put. cbn [fst snd].
    apply wp_bind, wp_get_sync. cbn [fst snd]. apply wp_when; intros _; [|done].
    apply request_values_requesting, Hw'.
  - apply wp_ret. cbn [fst snd]. apply wp_bind, wp_get_sync. cbn [fst snd]. apply wp_when; intros _; [|done].
    by apply request_values_requesting, requesting_quiet.
Qed.

End one_input.

Lemma handle_requests_ok s0 fuel input w :
  sync_inv s0 -> w.(World.state) = s0 -> requests input = true ->
  wp True (requests_ok s0 (known_peers s0 input)) (fresh_ids s0) (handle fuel input w) (fun _ _ => True) [].
Proof using laws.
  intros Hs <- Hq. destruct input as [|status| | | | | | | |]; try done; cbn [handle known_peers].
  - apply on_tick_requesting. split; try done; [apply Hs|by rewrite app_nil_r|by left].
  - unfold on_status. apply wp_bind, wp_get_sync. cbn [fst snd]. apply wp_bind, wp_put_sync. cbn [fst snd].
    case_match; [done|]. apply wp_when; intros _; [|done]. apply request_values_requesting.
    split; try done; [apply Hs|by rewrite app_nil_r|by left].
Qed.

(** every request that value sync sends is for heights above its tip that
    are neither in flight nor waiting for consensus nor in a request sent
    before on the same input, for at most a batch, within the capacity of the
    consensus core, and goes to a peer whose announced history reaches the
    start of the range; this holds in every reachable state, on every input,
    when the network numbers requests uniquely. *)
Theorem requests_in_order (config : SyncConfig.t) (w : World.t) (fuel : nat) (input : SyncInput.t)
  (t : S_trace) (m : S_prog (World.t * (SyncError.t + unit))) (t1 t2 : S_trace) (p : PeerId)
  (q : ValueRequest.t) (x : SyncResume.t)
  (Hw : reachable config w) (Hrun : steps (handle fuel input w) t m)
  (Hids : answered (fresh_ids w.(World.state)) [] t)
  (Ht : t = t1 ++ (SyncEffect.SendValueRequest p q, x) :: t2) :
  request_ok w.(World.state) (known_peers w.(World.state) input)
    (busy_ranges w.(World.state) ++ (sent t1).*2) q.(ValueRequest.range) p.
Proof using laws.
  apply reachable_inv in Hw as [Hs Hc]. destruct (requests input) eqn:Hq.
  - exact (wp_trace_allowed _ _ _ _ _ _ [] t t1 _ x t2 (handle_requests_ok _ fuel input w Hs eq_refl Hq) Hrun Hids Ht).
  - assert (Hg : good w.(World.state) w.(World.state)) by done.
    pose proof (handle_quiet_good (fun _ e => is_request e = false) (fresh_ids w.(World.state)) ltac:(done)
      _ fuel input w [] Hq Hg) as Hwp.
    by pose proof (wp_trace_allowed _ _ _ _ _ _ [] t t1 _ x t2 Hwp Hrun Hids Ht).
Qed.

End safety.
