(* ===== verification/SyncLiveness.v ===== *)
(** * Value sync: termination and progress of requests

    The loop of [request_values] ends against a network that accepts requests,
    and leaves no height unrequested that it could have requested; against a
    network that refuses them it never ends. *)

From S2P Require Import Prelude Types Bytes Context BTree Coroutine ConsensusTypes Scoring SyncTypes Sync SyncWindows SyncFacts SyncSafety.

(** [WeightedIndex] samples an index of its weights. *)
Class EnvironmentLaws `{Env : Environment} : Prop := {
  weighted_index_lt ws rng i rng' : weighted_index ws rng = Some (i, rng') -> i < length ws;
}.

Section liveness.
Context {Env : Environment} {Ctx : Context} {Arith : HeightArith}.
Context {laws : HeightLaws} {env_laws : EnvironmentLaws}.
Implicit Types (s : SyncState.t) (w : World.t) (h : Height) (r : Range) (l : list Range) (t : S_trace).

Abbreviation u := Height_as_u64.
Abbreviation inflight := SyncState.inflight_requests.
Abbreviation pending := SyncState.pending_consensus_requests.

(** ** No panic *)

Lemma len_u64_total r : range_ok r -> (len r <= U64_MAX)%N -> RangeInclusive.len_u64 r = Ret (len r).
Proof.
  unfold range_ok, len, RangeInclusive.len_u64. intros Hok Hl.
  rewrite (proj2 (sub_u64_Ret _ _ (u r.(RangeInclusive.end_) - u r.(RangeInclusive.start))%N)) by done. cbn.
  by apply add_u64_Ret.
Qed.

Lemma sum_len_u64_total acc l :
  Forall range_ok l -> (acc + total len l <= U64_MAX)%N -> sum_len_u64 acc l = Ret (acc + total len l)%N.
Proof.
  revert acc. induction l as [|r l IH]; intros acc Hok Hle; cbn [sum_len_u64].
  { rewrite total_nil. f_equal. lia. }
  apply Forall_cons in Hok as [Hr Hl]. rewrite total_cons in *.
  rewrite len_u64_total by (done || lia). cbn.
  rewrite (proj2 (add_u64_Ret acc (len r) (acc + len r)%N)) by (split; [done|lia]). cbn.
  rewrite IH by (done || lia). f_equal. lia.
Qed.

Lemma sum_pending_total acc (m : BTreeMap.t OutboundRequestId (list Range * PeerId)) :
  Forall range_ok (all_ranges_of m) -> (acc + total len (all_ranges_of m) <= U64_MAX)%N ->
  sum_pending acc m = Ret (acc + total len (all_ranges_of m))%N.
Proof.
  revert acc. induction m as [|[k [l p]] m IH]; intros acc; cbn [sum_pending].
  { intros _ _. unfold all_ranges_of. cbn. rewrite total_nil. f_equal. lia. }
  rewrite all_ranges_of_cons, Forall_app, total_app. intros [Hl Hm] Hle.
  rewrite sum_len_u64_total by (done || lia). cbn.
  rewrite (proj2 (add_u64_Ret acc (0 + total len l) (acc + total len l)%N)) by (split; lia). cbn.
  rewrite IH by (done || lia). f_equal. lia.
Qed.

Lemma current_number_of_heights_total s :
  Forall range_ok (busy_ranges s) -> (total len (busy_ranges s) <= U64_MAX)%N ->
  current_number_of_heights s = Ret (total len (busy_ranges s)).
Proof.
  rewrite busy_ranges_app, Forall_app, total_app. intros [Hi Hp] Hle. unfold current_number_of_heights.
  rewrite sum_len_u64_total by (done || (unfold ranges_of in *; lia)). cbn.
  rewrite sum_pending_total by (done || (unfold ranges_of in *; lia)). done.
Qed.

Lemma random_peer_with_total s r : exists s' selected, SyncState.random_peer_with s r = Ret (s', selected).
Proof using env_laws.
  unfold SyncState.random_peer_with, SyncState.random_peer_with_except.
  set (m := SyncState.filter_peers_by_range _ _ _). unfold PeerScorer.select_peer.
  destruct (map_to_list m).*1 as [|p ps] eqn:Hps; [cbn; eauto|].
  destruct (weighted_index _ _) as [[i rng]|] eqn:Hi; [|cbn; eauto].
  apply weighted_index_lt in Hi. rewrite length_fmap in Hi.
  rewrite (proj2 (Nat.ltb_lt _ _)) by exact Hi. cbn [assert_that mbind outcome_bind].
  destruct (lookup_lt_is_Some_2 _ _ Hi) as [q Hq]. rewrite Hq. cbn.
  apply list_elem_of_lookup_2 in Hq. rewrite <- Hps in Hq. apply list_elem_of_fmap in Hq as ([q' r'] & -> & Hin).
  apply elem_of_map_to_list in Hin. cbn. rewrite Hin. cbn. eauto.
Qed.

(** ** Termination and progress *)

(** The heights stay below the last [u64], as does the size of the batches. *)
Record in_range s (up : Height) : Prop := {
  ir_tip : (u s.(SyncState.tip_height) < U64_MAX)%N;
  ir_up : (u up < U64_MAX)%N;
  ir_ends : Forall (fun r => u r.(RangeInclusive.end_) < U64_MAX)%N (busy_ranges s);
  ir_heights : (max_heights s + s.(SyncState.config).(SyncConfig.batch_size) <= U64_MAX)%N;
}.

(** The network accepts every request, under an identifier that is not in use. *)
Definition accepting s t (e : SyncEffect.t) (x : SyncResume.t) : Prop :=
  match e with
  | SyncEffect.SendValueRequest _ _ =>
      fresh_ids s t e x /\ exists id, x = SyncResume.ValueRequestId (Some id)
  | _ => x = SyncResume.Continue
  end.

(** Nothing is left to request up to [up]: every height above the tip is busy,
    or no peer is found for the next window, or it does not fit. *)
Definition exhausted s (up : Height) : Prop :=
  (forall h, (u s.(SyncState.tip_height) < u h <= u up)%N -> ~ free (busy_ranges s) h) \/
  s.(SyncState.config).(SyncConfig.batch_size) = 0%N \/
  exists r, find_range_of_heights_to_request s up = Ret (Some r) /\
    ((exists s1 s2, like s1 s /\ SyncState.random_peer_with s1 r = Ret (s2, None)) \/
     (max_heights s < total len (busy_ranges s) + len r)%N).

Lemma like_find s s' up :
  like s s' -> find_range_of_heights_to_request s' up = find_range_of_heights_to_request s up.
Proof.
  intros Hl. unfold find_range_of_heights_to_request.
  by rewrite (like_busy _ _ Hl), (like_tip _ _ Hl), (like_config _ _ Hl).
Qed.

Lemma in_range_like s s' up : like s s' -> in_range s up -> in_range s' up.
Proof.
  intros Hl []. unfold max_heights in *. split; unfold max_heights;
    by rewrite ?(like_busy _ _ Hl), ?(like_tip _ _ Hl), ?(like_config _ _ Hl).
Qed.

Lemma in_range_add s up id r p :
  in_range s up -> Forall range_ok (busy_ranges s) -> (u r.(RangeInclusive.end_) <= u up)%N ->
  in_range (add_inflight s id r p) up.
Proof.
  intros [Ht Hup He Hh] Hok Hr. split; [done|done| |done]. cbn.
  rewrite !busy_ranges_app in *. apply Forall_app in He as [Hi Hp]. apply Forall_app. split; [|done].
  cbn. rewrite Forall_forall in *. intros x Hx.
  eapply elem_of_submseteq in Hx; [|apply ranges_of_insert].
  apply elem_of_cons in Hx as [->|Hx]; [lia|by apply Hi].
Qed.

(** What the loop keeps: the invariant, the peers, and the requests of the
    trace. *)
Record looping (s0 : SyncState.t) (up : Height) t s : Prop := {
  lp_inv : sync_inv s;
  lp_range : in_range s up;
  lp_requesting : requesting s0 s0.(SyncState.peers) t s;
}.

Lemma wp_request_loop_total s0 up fuel w t (Q : S_trace -> World.t * (SyncError.t + unit) -> Prop) :
  looping s0 up t w.(World.state) ->
  (max_heights w.(World.state) - total len (busy_ranges w.(World.state)) < N.of_nat fuel)%N ->
  (forall t' w', looping s0 up t' w'.(World.state) -> exhausted w'.(World.state) up -> Q t' (w', inr tt)) ->
  wp False (fun _ _ => True) (accepting s0) (request_loop fuel up (max_heights w.(World.state)) w) Q t.
Proof using laws env_laws.
  intros Hlp Hfuel HQ. revert w t Hlp Hfuel. induction fuel as [|fuel IH]; intros w t Hlp Hfuel; [lia|].
  cbn [request_loop]. apply wp_bind, wp_get_sync. cbn [fst snd]. set (s := w.(World.state)) in *.
  destruct Hlp as [Hs Hr Hreq]. destruct (Hr) as [Htip Hup Hends Hmax].
  pose proof (inv_ok _ Hs) as Hok. pose proof (inv_capacity _ Hs) as Hcap.
  destruct (compute_free_window_total s.(SyncState.tip_height) up
    s.(SyncState.config).(SyncConfig.batch_size) (busy_ranges s)) as [o Ho]; [done..|].
  fold (find_range_of_heights_to_request s up) in Ho. apply wp_bind. eapply wp_lift_Ret; [exact Ho|]. cbn [snd].
  pose proof (compute_free_window_Ret _ _ _ _ _ Hok Ho) as Hw. destruct o as [r|]; cycle 1.
  { apply wp_ret, HQ; [done|]. destruct Hw as [Hw|Hw]; [right; by left|by left]. }
  destruct Hw as (Ha & Hb & Hlen & Hfree & _ & _).
  destruct (random_peer_with_total s r) as (s' & selected & Hsel). apply wp_bind.
  eapply wp_lift_Ret; [exact Hsel|]. cbn [fst snd].
  destruct (random_peer_with_Ret s r s' selected) as [Hl Hserve]; [unfold range_ok; lia|done|].
  apply wp_bind, wp_put_sync. cbn [fst snd]. set (w' := World.mk s' _ _).
  assert (Hlp' : looping s0 up t w'.(World.state)).
  { split; [by eapply like_inv|by eapply in_range_like|by eapply requesting_like]. }
  assert (Hmh : max_heights s' = max_heights s) by (unfold max_heights; by rewrite (like_config _ _ Hl)).
  destruct selected as [[p r']|]; cycle 1.
  { apply wp_ret, HQ; [done|]. right; right. exists r. cbn. rewrite (like_find s s') by done.
    split; [done|]. left. by exists s, s'. }
  apply wp_bind. eapply wp_lift_Ret.
  { apply current_number_of_heights_total; rewrite (like_busy _ _ Hl); [done|lia]. }
  rewrite (like_busy _ _ Hl). cbn [snd].
  apply wp_bind. eapply wp_lift_Ret; [apply len_u64_total; [unfold range_ok|]; lia|]. cbn [snd].
  apply wp_bind. eapply wp_lift_Ret; [by apply add_u64_Ret; split; [|lia]|]. cbn [snd].
  case_match eqn:Hfit.
  { apply N.ltb_lt in Hfit. apply wp_ret, HQ; [done|]. right; right. exists r. cbn.
    rewrite (like_find s s'), Hmh, (like_busy _ _ Hl) by done. auto. }
  apply N.ltb_ge in Hfit. apply wp_bind.
  assert (Hrq : requestable s' r p).
  { split; [unfold range_ok; lia|..]; rewrite ?Hmh, ?(like_tip _ _ Hl), ?(like_config _ _ Hl),
      ?(like_busy _ _ Hl), ?(like_peers _ _ Hl); done || lia. }
  destruct Hlp' as [Hs' Hr' Hreq'].
  apply wp_request_values_from_peer; [apply Hrq|apply Hrq|right; apply Hr'|done|].
  intros x [Hfresh [id ->]]. intros w'' Hw''. cbn [fst snd].
  assert (Hlp'' : looping s0 up (t ++ [(SyncEffect.SendValueRequest p (ValueRequest.new r),
    SyncResume.ValueRequestId (Some id))]) w''.(World.state)).
  { rewrite Hw''. split; [by eapply add_inflight_inv|apply in_range_add; [done|apply Hs'|done]|].
    apply requesting_add; [done|apply Hrq|done]. }
  rewrite <- Hmh. replace (max_heights s') with (max_heights w''.(World.state)) by by rewrite Hw''.
  apply IH; [done|].
  (* the request takes at least one height *)
  pose proof (rs_busy _ _ _ _ (lp_requesting _ _ _ _ Hlp'')) as Hb''.
  rewrite Hb'', sent_snoc, fmap_app, app_assoc, total_app, <- (rs_busy _ _ _ _ Hreq). cbn.
  rewrite total_cons, total_nil, Hw''. cbn [fst].
  change (max_heights (add_inflight _ id r p)) with (max_heights s'). rewrite Hmh. unfold len in *. lia.
Qed.

(** ** Inputs that make value sync request values *)

(** The height up to which it requests values, if it is behind. *)
Definition target s (input : SyncInput.t) : option Height :=
  let tip := s.(SyncState.tip_height) in
  let ahead h := if Height_ltb tip h then Some h else None in
  match input with
  | SyncInput.Tick => max_peer_tip s.(SyncState.peers) ≫= ahead
  | SyncInput.Status status => if s.(SyncState.started) then ahead status.(Status.tip_height) else None
  | _ => None
  end.

(** What [requesting_inputs_progress] says of the end of a run. *)
Definition progressed s0 up (t : S_trace) (x : World.t * (SyncError.t + unit)) : Prop :=
  x.2 = inr tt /\ looping s0 up t x.1.(World.state) /\ exhausted x.1.(World.state) up.

Lemma wp_request_values_total s0 up fuel w t :
  looping s0 up t w.(World.state) ->
  (N.of_nat (length (inflight w.(World.state))) < SyncState.max_parallel_requests w.(World.state))%N ->
  (max_heights w.(World.state) < N.of_nat fuel)%N ->
  wp False (fun _ _ => True) (accepting s0) (request_values fuel up w) (progressed s0 up) t.
Proof using laws env_laws.
  intros Hlp Hslots Hfuel. unfold request_values. apply wp_bind, wp_get_sync. cbn [fst snd].
  case_match eqn:Hfull; [apply N.leb_le in Hfull; lia|].
  pose proof (ir_heights _ _ (lp_range _ _ _ _ Hlp)) as Hmax.
  apply wp_bind. eapply wp_lift_Ret; [apply mul_u64_Ret; split; [done|unfold max_heights in Hmax; lia]|].
  cbn [fst snd]. apply (wp_request_loop_total s0 up fuel w); [done|lia|].
  intros t' w' Hlp' Hex. by split.
Qed.

Lemma on_status_total fuel status up w :
  sync_inv w.(World.state) -> target w.(World.state) (SyncInput.Status status) = Some up ->
  in_range w.(World.state) up ->
  (N.of_nat (length (inflight w.(World.state))) < SyncState.max_parallel_requests w.(World.state))%N ->
  (max_heights w.(World.state) < N.of_nat fuel)%N ->
  wp False (fun _ _ => True) (accepting w.(World.state)) (on_status fuel status w)
    (progressed (SyncState.update_status w.(World.state) status) up) [].
Proof using laws env_laws.
  intros Hs Hup Hr Hslots Hfuel. unfold on_status. apply wp_bind, wp_get_sync. cbn [fst snd].
  apply wp_bind, wp_put_sync. cbn [fst snd]. cbn in Hup.
  destruct (SyncState.started w.(World.state)) eqn:Hst; [|done]. cbn. rewrite Hst. cbn.
  destruct (Height_ltb _ _) eqn:Hb; [|done]. simplify_eq. cbn [when].
  apply (wp_request_values_total (SyncState.update_status w.(World.state) status)); [|done..].
  cbn. split; [|by destruct Hr; split|].
  - apply (sync_inv_within w.(World.state)); [done..|apply Hs|]. apply within_refl, Hs.
  - split; try done; [apply Hs|by rewrite app_nil_r|by left].
Qed.

Lemma on_tick_total fuel up w :
  sync_inv w.(World.state) -> target w.(World.state) SyncInput.Tick = Some up ->
  in_range w.(World.state) up ->
  (N.of_nat (length (inflight w.(World.state))) < SyncState.max_parallel_requests w.(World.state))%N ->
  (max_heights w.(World.state) < N.of_nat fuel)%N ->
  wp False (fun _ _ => True) (accepting w.(World.state)) (on_tick fuel w) (progressed w.(World.state) up) [].
Proof using laws env_laws.
  intros Hs Hup Hr Hslots Hfuel. unfold on_tick. apply wp_bind, wp_get_sync. cbn [fst snd].
  apply wp_bind, wp_s_perform; [done|]. intros x ->. cbn [fst snd]. apply wp_bind.
  assert (Hrest : forall w', like w.(World.state) w'.(World.state) ->
    wp False (fun _ _ => True) (accepting w.(World.state))
      ((state ← get_sync;
        let tip_height := state.(SyncState.tip_height) in
        let max_tip_height := default tip_height (max_peer_tip state.(SyncState.peers)) in
        when (Height_ltb tip_height max_tip_height) (request_values fuel max_tip_height)) w')
      (progressed w.(World.state) up)
      ([] ++ [(SyncEffect.BroadcastStatus w.(World.state).(SyncState.tip_height), SyncResume.Continue)])).
  { intros w' Hl. apply wp_bind, wp_get_sync. cbn [fst snd]. rewrite (like_tip _ _ Hl), (like_peers _ _ Hl).
    cbn in Hup. destruct (max_peer_tip _) as [h|]; [|done]. cbn in Hup |- *.
    destruct (Height_ltb _ h) eqn:Hb; [|done]. simplify_eq. cbn [when].
    apply wp_request_values_total.
    - split; [by eapply like_inv|by eapply in_range_like|].
      apply (requesting_quiet _ _ []); [done|].
      eapply requesting_like; [|exact Hl]. split; try done; [apply Hs|by rewrite app_nil_r|by left].
    - unfold SyncState.max_parallel_requests in *. by rewrite (like_inflight _ _ Hl), (like_config _ _ Hl).
    - unfold max_heights in *. by rewrite (like_config _ _ Hl). }
  unfold reset_inactive_peers. apply wp_bind, wp_get. cbn [fst snd].
  destruct (SyncConfig.inactive_threshold _) as [d|].
  - destruct (PeerScorer.reset_inactive_peers_scores _ _ _) as [scorer clock]. apply wp_put. cbn [fst snd].
    apply Hrest. by split.
  - apply wp_ret. cbn [fst snd]. by apply Hrest, like_refl.
Qed.

(** C29: when value sync is behind and has a slot for a request, a tick or a
    status of a peer makes it request values until nothing more can be
    requested, and it returns: against a network that accepts requests, with
    heights below the last [u64], it neither panics nor runs forever, and at
    the end every height up to the target is in flight or waits for consensus,
    or no peer is found for the next window, or the capacity is used up. *)
Theorem sync_makes_progress (config : SyncConfig.t) (w : World.t) (fuel : nat) (input : SyncInput.t)
  (up : Height) (network : SyncEffect.t -> SyncResume.t)
  (Hw : reachable config w) (Hbehind : target w.(World.state) input = Some up)
  (Hrange : in_range w.(World.state) up)
  (Hslots : (N.of_nat (length (inflight w.(World.state))) < SyncState.max_parallel_requests w.(World.state))%N)
  (Hfuel : (config.(SyncConfig.batch_size) * config.(SyncConfig.parallel_requests) < N.of_nat fuel)%N)
  (Hnetwork : answered (accepting w.(World.state)) [] (execute network (handle fuel input w)).1) :
  exists w', (execute network (handle fuel input w)).2 = Complete (w', inr tt) /\
    exhausted w'.(World.state) up.
Proof using laws env_laws.
  apply reachable_inv in Hw as [Hs <-].
  assert (Hwp : exists s0, wp False (fun _ _ => True) (accepting w.(World.state)) (handle fuel input w)
                  (progressed s0 up) []).
  { destruct input; try done; [exists w.(World.state); by apply on_tick_total|].
    eexists. by apply on_status_total. }
  destruct Hwp as [s0 Hwp].
  pose proof (wp_steps _ _ _ _ _ _ _ _ Hwp (execute_steps network _) Hnetwork) as Hend.
  destruct (execute network (handle fuel input w)).2 as [[w' res]| | |e k] eqn:Hm; try done.
  - destruct Hend as (Hres & _ & Hex). cbn in Hres. subst res. by exists w'.
  - pose proof (execute_ends network (handle fuel input w)) as He. by rewrite Hm in He.
Qed.

(** ** A network that refuses requests *)

Definition refusing (e : SyncEffect.t) : SyncResume.t :=
  match e with
  | SyncEffect.SendValueRequest _ _ => SyncResume.ValueRequestId None
  | _ => SyncResume.Continue
  end.

(** There is a window to request, and room for it. *)
Record window_left s (up : Height) r : Prop := {
  wl_found : find_range_of_heights_to_request s up = Ret (Some r);
  wl_fits : (total len (busy_ranges s) + len r <= max_heights s)%N;
}.

(** A peer is found for it, however the dice fall. *)
Definition always_served s r : Prop :=
  forall s1, like s s1 -> exists s2 p r', SyncState.random_peer_with s1 r = Ret (s2, Some (p, r')).

#[local] Arguments find_range_of_heights_to_request : simpl never.
#[local] Arguments SyncState.random_peer_with : simpl never.
#[local] Arguments current_number_of_heights : simpl never.
#[local] Arguments RangeInclusive.len_u64 : simpl never.
#[local] Arguments RangeInclusive.is_empty : simpl never.
#[local] Arguments SyncState.trim_validated_heights : simpl never.
#[local] Arguments request_values_from_peer : simpl never.

Lemma request_loop_refused s up r fuel w :
  sync_inv s -> in_range s up -> window_left s up r -> always_served s r -> like s w.(World.state) ->
  exists t, execute refusing (request_loop fuel up (max_heights s) w) = (t, OutOfFuel) /\ length t = fuel.
Proof using laws.
  intros Hs Hr [Hf Hfit] Hserve. revert w. induction fuel as [|fuel IH]; intros w Hl; [by exists []|].
  pose proof (compute_free_window_Ret _ _ _ _ _ (inv_ok _ Hs) Hf) as (Ha & Hb & Hlen & _).
  destruct (Hserve _ Hl) as (s2 & p & r' & Hsel).
  assert (Hok : range_ok r) by (unfold range_ok; lia).
  destruct (random_peer_with_Ret _ _ _ _ Hok Hsel) as [Hl2 _].
  assert (Hl' : like s s2) by (destruct Hl, Hl2; split; congruence).
  destruct Hr as [Htip Hup Hends Hmax].
  destruct (IH (World.mk s2 w.(World.metrics) w.(World.clock)) Hl') as (t & Ht & Hn).
  exists ((SyncEffect.SendValueRequest p (ValueRequest.new r), SyncResume.ValueRequestId None) :: t).
  split; [|cbn; by rewrite Hn]. cbn [request_loop]. unfold get_sync, put_sync, mbind, handler_bind, lift. cbn.
  rewrite (like_find _ _ up Hl), Hf. cbn. rewrite Hsel. cbn.
  rewrite current_number_of_heights_total by (rewrite (like_busy _ _ Hl'); first [apply Hs|pose proof (inv_capacity _ Hs); lia]). cbn.
  rewrite len_u64_total by (done || unfold len in *; lia). cbn.
  rewrite (like_busy _ _ Hl'), (proj2 (add_u64_Ret _ _ (total len (busy_ranges s) + len r)%N)) by (split; [done|lia]).
  cbn. rewrite (proj2 (N.ltb_ge _ _)) by done. unfold request_values_from_peer.
  rewrite (proj2 (is_empty_false r)) by done. unfold get_sync, mbind, handler_bind, lift. cbn.
  rewrite trim_above_tip by (rewrite (like_tip _ _ Hl'); done || lia). cbn.
  rewrite (proj2 (is_empty_false r)) by done. cbn. by rewrite Ht.
Qed.

(** against a network that refuses requests, [request_values] never returns:
    it sends the same request again and again, one for each iteration that the
    fuel allows, because a refused request leaves the state as it was. *)
Theorem refused_requests_never_return (config : SyncConfig.t) (w : World.t) (status : Status.t) (up : Height)
  (r : Range) (fuel : nat) (Hw : reachable config w)
  (Hbehind : target w.(World.state) (SyncInput.Status status) = Some up)
  (Hslots : (N.of_nat (length (inflight w.(World.state))) < SyncState.max_parallel_requests w.(World.state))%N)
  (Hrange : in_range w.(World.state) up) (Hwindow : window_left w.(World.state) up r)
  (Hserved : always_served (SyncState.update_status w.(World.state) status) r) :
  exists t, execute refusing (handle fuel (SyncInput.Status status) w) = (t, OutOfFuel) /\ length t = fuel.
Proof using laws.
  apply reachable_inv in Hw as [Hs _]. set (s := SyncState.update_status w.(World.state) status).
  assert (Hs' : sync_inv s).
  { apply (sync_inv_within w.(World.state)); [done..|apply Hs|]. apply within_refl, Hs. }
  destruct (request_loop_refused s up r fuel (World.mk s w.(World.metrics) w.(World.clock)))
    as (t & Ht & Hn); [done|by destruct Hrange; split|by destruct Hwindow; split|done|apply like_refl|].
  exists t. split; [|done]. rewrite <- Ht. cbn [handle]. unfold on_status, get_sync, put_sync, mbind, handler_bind. cbn.
  cbn in Hbehind. destruct (SyncState.started _) eqn:Hst; [|done]. cbn. destruct (Height_ltb _ _); [|done].
  cbn [when]. simplify_eq. unfold request_values, get_sync, mbind, handler_bind, lift. cbn.
  rewrite (proj2 (N.leb_gt _ _)) by done. cbn.
  rewrite (proj2 (mul_u64_Ret _ _ (max_heights w.(World.state)))); [done|].
  pose proof (ir_heights _ _ Hrange). unfold max_heights in *. split; [done|lia].
Qed.

End liveness.
