(* ===== verification/SyncResponses.v ===== *)
(** * Value sync: responses, decisions and invalid values

    Which responses value sync hands to consensus, which heights it forgets
    when consensus decides or rejects a value, and the requests and responses
    of a peer that make it panic. *)

From S2P Require Import Prelude Types Bytes Context BTree Coroutine ConsensusTypes Scoring SyncTypes Sync SyncWindows SyncFacts SyncSafety SyncLiveness.

Section responses.
Context {Env : Environment} {Ctx : Context} {Arith : HeightArith} {laws : HeightLaws}.
Implicit Types (s : SyncState.t) (w : World.t) (h : Height) (r : Range) (l : list Range) (t : S_trace).

Abbreviation u := Height_as_u64.
Abbreviation inflight := SyncState.inflight_requests.
Abbreviation pending := SyncState.pending_consensus_requests.

(** ** Responses *)

(** [n] heights from [start] on. *)
Fixpoint numbers_from (start : N) (n : nat) : list N :=
  match n with O => [] | S n => start :: numbers_from (start + 1) n end.

(** A response is well-formed for a request if it holds the values of a
    non-empty prefix of the requested heights, each with a certificate for its
    height. *)
Definition well_formed (requested : Range) (response : SyncValueResponse.t) : bool :=
  let start := response.(SyncValueResponse.start_height) in
  let n := SyncValueResponse.len_u64 response in
  (0 <? n)%N && (u start =? u requested.(RangeInclusive.start))%N &&
  (u start + n - 1 <=? u requested.(RangeInclusive.end_))%N &&
  bool_decide ((fun v => u (RawDecidedValue.height v)) <$> response.(SyncValueResponse.values) =
               numbers_from (u start) (length response.(SyncValueResponse.values))).

(** The request that a response belongs to: in flight to the peer that sent it. *)
Definition requested_from s (id : OutboundRequestId) (p : PeerId) : option Range :=
  match BTreeMap.get id (inflight s) with
  | Some (requested, p') => if decide (p' = p) then Some requested else None
  | None => None
  end.

Definition accepted s (id : OutboundRequestId) (p : PeerId) (response : option SyncValueResponse.t) : bool :=
  match requested_from s id p, response with
  | Some requested, Some response => well_formed requested response
  | _, _ => false
  end.

(** The heights of the values. *)
Definition response_heights (response : SyncValueResponse.t) : Range :=
  RangeInclusive.new response.(SyncValueResponse.start_height)
    (default response.(SyncValueResponse.start_height)
       (RawDecidedValue.height <$> last response.(SyncValueResponse.values))).

(** The state after a response: a request that is answered is not in flight any
    more, and if the answer is accepted its heights wait for consensus. *)
Definition after_response s (id : OutboundRequestId) (p : PeerId) (response : option SyncValueResponse.t)
    : SyncState.t :=
  let s1 := match requested_from s id p with
            | Some _ => SyncState.set_inflight_requests s (BTreeMap.remove id (inflight s))
            | None => s
            end in
  match response with
  | Some response =>
      if accepted s id p (Some response) then
        SyncState.set_pending_consensus_requests s1
          (BTreeMap.insert id ([response_heights response], p) (pending s))
      else s1
  | None => s1
  end.

(** The loop over the certificates. *)
Lemma certificate_heights_ok_total start (values : list RawDecidedValue.t) :
  (u start + N.of_nat (length values) <= U64_MAX)%N ->
  certificate_heights_ok start values =
    Ret (bool_decide ((fun v => u (RawDecidedValue.height v)) <$> values =
                      numbers_from (u start) (length values))).
Proof using laws.
  revert start. induction values as [|v values IH]; intros start Hle; cbn [certificate_heights_ok]; [done|].
  rewrite fmap_cons. cbn [length numbers_from]. case_bool_decide as Hv; cbn [negb].
  - destruct (Height_increment_by_spec start 1) as (x & Hx & Hu); [cbn in Hle; lia|].
    unfold Height_increment. rewrite Hx. cbn [mbind outcome_bind]. rewrite IH by (cbn in Hle; lia). f_equal.
    rewrite Hu, Hv. apply bool_decide_ext. split; [by intros ->|by intros [=]].
  - f_equal. symmetry. apply bool_decide_eq_false_2. intros [= H _]. by apply Hv, Height_as_u64_inj.
Qed.

Lemma end_height_total (response : SyncValueResponse.t) :
  let start := response.(SyncValueResponse.start_height) in
  let n := SyncValueResponse.len_u64 response in
  (u start + n <= U64_MAX)%N ->
  exists o, SyncValueResponse.end_height response = Ret o /\ u (default start o) = (u start + (n - 1))%N.
Proof using laws.
  unfold SyncValueResponse.end_height, SyncValueResponse.len_u64. destruct response as [start values].
  cbn [SyncValueResponse.start_height SyncValueResponse.values]. intros Hle.
  destruct values as [|v values]; [exists None; split; [done|]; cbn [length default]; lia|].
  set (n := N.of_nat (length (v :: values))) in *. assert (1 <= n)%N by (unfold n; cbn; lia).
  rewrite (proj2 (sub_u64_Ret n 1 (n - 1)%N)) by done. cbn [mbind outcome_bind].
  destruct (Height_increment_by_spec start (n - 1)) as (x & Hx & Hu); [lia|]. rewrite Hx. cbn. eauto.
Qed.

(** The checks of [on_value_response] decide well-formedness. *)
Lemma checks_well_formed requested (response : SyncValueResponse.t) e :
  let start := response.(SyncValueResponse.start_height) in
  let n := SyncValueResponse.len_u64 response in
  u e = (u start + (n - 1))%N ->
  bool_decide ((fun v => u (RawDecidedValue.height v)) <$> response.(SyncValueResponse.values) =
               numbers_from (u start) (length response.(SyncValueResponse.values))) &&
  response_is_valid response e (len (RangeInclusive.new start e)) requested = well_formed requested response.
Proof.
  intros start n He. unfold well_formed, response_is_valid, len. fold start n. cbn. rewrite He.
  rewrite (andb_comm (bool_decide _)). f_equal. destruct (N.ltb_spec 0 n).
  - rewrite (proj2 (N.leb_le (u start) _)) by lia.
    replace (u start + n - 1)%N with (u start + (n - 1))%N by lia.
    rewrite (proj2 (N.eqb_eq n _)) by lia. by rewrite !andb_true_r.
  - rewrite (proj2 (N.eqb_neq n _)) by lia. by rewrite !andb_false_r.
Qed.

(** The last of the values of a well-formed response. *)
Lemma numbers_from_last (f : RawDecidedValue.t -> N) (values : list RawDecidedValue.t) (start : N) v :
  f <$> values = numbers_from start (length values) -> last values = Some v ->
  f v = (start + N.of_nat (length values) - 1)%N.
Proof.
  revert start. induction values as [|v1 values IH]; intros start; [done|]. cbn [length numbers_from].
  rewrite fmap_cons. intros [= H1 H2]. destruct values as [|v2 values].
  - intros [= <-]. cbn. lia.
  - intros Hl. rewrite (IH _ H2 Hl). cbn. lia.
Qed.

Lemma response_heights_end requested (response : SyncValueResponse.t) :
  well_formed requested response = true ->
  u (response_heights response).(RangeInclusive.end_) =
    (u requested.(RangeInclusive.start) + SyncValueResponse.len_u64 response - 1)%N.
Proof.
  unfold well_formed, response_heights, SyncValueResponse.len_u64.
  rewrite !andb_true_iff, N.ltb_lt, N.eqb_eq, N.leb_le, bool_decide_eq_true.
  intros [[[Hn Hs] _] Hh]. cbn. rewrite <- Hs.
  destruct (last (SyncValueResponse.values response)) as [v|] eqn:Hl; cbn.
  - by rewrite (numbers_from_last _ _ _ _ Hh Hl).
  - apply last_None in Hl. rewrite Hl in Hn. cbn in Hn. lia.
Qed.

(** The network and consensus only have to take note. *)
Definition continuing (_ : S_trace) (_ : SyncEffect.t) (x : SyncResume.t) : Prop := x = SyncResume.Continue.

Definition notification s (id : OutboundRequestId) (p : PeerId) (response : option SyncValueResponse.t)
    : S_trace :=
  match response with
  | Some response' =>
      if accepted s id p response then
        [(SyncEffect.NotifyConsensusToProcessSyncResponse id p response', SyncResume.Continue)]
      else []
  | None => []
  end.

Abbreviation wp := (wp False (fun _ _ => True) continuing).

Lemma wp_accept_response s id p requested response w :
  w.(World.state) = SyncState.set_inflight_requests s (BTreeMap.remove id (inflight s)) ->
  well_formed requested response = true ->
  (u response.(SyncValueResponse.start_height) + SyncValueResponse.len_u64 response <= U64_MAX)%N ->
  wp (accept_response id p response requested w)
    (fun t x => x.2 = inr tt /\
       t = [(SyncEffect.NotifyConsensusToProcessSyncResponse id p response, SyncResume.Continue)] /\
       like (SyncState.set_pending_consensus_requests w.(World.state)
               (BTreeMap.insert id ([response_heights response], p) (pending s))) x.1.(World.state)) [].
Proof using laws.
  intros Hw Hwf Hle. unfold accept_response.
  pose proof (response_heights_end _ _ Hwf) as Hend. unfold well_formed in Hwf.
  rewrite !andb_true_iff, N.ltb_lt, N.eqb_eq in Hwf. destruct Hwf as [[[Hn Hs] _] _].
  apply wp_bind, wp_s_perform; [done|]. intros x ->. cbn [fst snd].
  destruct (Height_increment_by_spec requested.(RangeInclusive.start) (SyncValueResponse.len_u64 response))
    as (next & Hnext & Hu); [lia|].
  apply wp_bind. eapply wp_lift_Ret; [exact Hnext|]. cbn [fst snd].
  destruct (Height_decrement_Some next) as (e & He & Hue); [lia|].
  apply wp_bind. eapply wp_lift_Ret; [by rewrite He|]. cbn [fst snd].
  apply wp_bind, wp_get_sync. cbn [fst snd]. apply wp_bind, wp_put_sync. cbn [fst snd].
  apply wp_bind, wp_with_metrics. intros w' o Hw'. cbn [fst snd].
  assert (Heq : RangeInclusive.new response.(SyncValueResponse.start_height) e = response_heights response).
  { unfold response_heights in *. f_equal. apply Height_as_u64_inj. cbn in Hend. rewrite Hend. lia. }
  assert (Hst : w'.(World.state) = SyncState.set_pending_consensus_requests w.(World.state)
               (BTreeMap.insert id ([response_heights response], p) (pending s))).
  { rewrite Hw'. cbn. by rewrite Heq, Hw. }
  destruct o as [d|].
  - apply wp_update_score. intros w'' Hl. rewrite Hst in Hl. by split.
  - apply wp_ret. split_and!; [done..|]. cbn. rewrite Hst. apply like_refl.
Qed.

Lemma wp_on_value_response id p response w :
  (forall x, response = Some x ->
     u x.(SyncValueResponse.start_height) + SyncValueResponse.len_u64 x <= U64_MAX)%N ->
  wp (on_value_response id p response w)
    (fun t x => x.2 = inr tt /\ t = notification w.(World.state) id p response /\
       like (after_response w.(World.state) id p response) x.1.(World.state)) [].
Proof using laws.
  intros Hle. unfold on_value_response. set (s := w.(World.state)) in *.
  assert (Hreject : forall w', accepted s id p response = false ->
    w'.(World.state) = (match requested_from s id p with
                        | Some _ => SyncState.set_inflight_requests s (BTreeMap.remove id (inflight s))
                        | None => s end) ->
    wp (update_score p SyncResult.Failure w')
      (fun t x => x.2 = inr tt /\ t = notification s id p response /\
         like (after_response s id p response) x.1.(World.state)) []).
  { intros w' Hrej Hw'. apply wp_update_score. intros w'' Hl. unfold notification, after_response.
    rewrite Hw' in Hl. destruct response; by rewrite ?Hrej. }
  apply wp_bind, wp_take_inflight; fold s.
  - intros Hg e. cbn. apply Hreject; unfold accepted, requested_from; by rewrite Hg.
  - intros r p' Hg Hne e. cbn. apply Hreject; unfold accepted, requested_from; by rewrite Hg, decide_False.
  - intros requested Hg. cbn [fst snd].
    assert (Hreq : requested_from s id p = Some requested) by (unfold requested_from; by rewrite Hg, decide_True).
    destruct response as [response|]; [|apply Hreject; unfold accepted; by rewrite Hreq].
    specialize (Hle response eq_refl). pose proof (end_height_total response Hle) as (o & Ho & Hu).
    set (e := default _ o) in *. apply wp_bind. eapply wp_lift_Ret; [exact Ho|]. cbn [fst snd]. fold e.
    apply wp_bind. eapply wp_lift_Ret.
    { assert (1 <= U64_MAX)%N by done. apply len_u64_total; unfold range_ok, len; cbn; lia. }
    cbn [fst snd]. apply wp_bind. eapply wp_lift_Ret; [by apply certificate_heights_ok_total|]. cbn [fst snd].
    pose proof (checks_well_formed requested response e Hu) as Hwf.
    destruct (bool_decide _) eqn:Hb; cbn [negb andb] in Hwf |- *; cycle 1.
    { apply Hreject; unfold accepted; by rewrite Hreq. }
    rewrite Hwf. destruct (well_formed requested response) eqn:Hok; cbn [negb]; cycle 1.
    { apply Hreject; unfold accepted; by rewrite Hreq. }
    eapply wp_mono; [by apply (wp_accept_response s)|]. intros t x (H1 & H2 & H3).
    unfold notification, after_response. assert (Hacc : accepted s id p (Some response) = true)
      by (unfold accepted; by rewrite Hreq). by rewrite Hacc, Hreq.
Qed.

(** a response is handed to consensus exactly if it answers a request that
    is in flight to the peer that sent it, holds at least one value, starts at
    the requested height, does not go beyond the requested range, and its
    certificates are for consecutive heights; then its heights wait for
    consensus, and in any case an answered request is not in flight any more.
    Nothing else happens, no response is handed over twice, and the handler
    does not panic as long as the heights of the values are below the last
    [u64]. *)
Theorem response_handed_over_iff (fuel : nat) (id : OutboundRequestId) (p : PeerId)
  (response : option SyncValueResponse.t) (w : World.t)
  (Hle : forall x, response = Some x ->
     (u x.(SyncValueResponse.start_height) + SyncValueResponse.len_u64 x <= U64_MAX)%N) :
  exists w', execute (fun _ => SyncResume.Continue) (handle fuel (SyncInput.ValueResponse id p response) w) =
      (notification w.(World.state) id p response, Complete (w', inr tt)) /\
    like (after_response w.(World.state) id p response) w'.(World.state).
Proof using laws.
  destruct (wp_execute (fun _ _ => True) continuing (fun _ => SyncResume.Continue) _ _
    (wp_on_value_response id p response w Hle)) as (t & [w' res] & He & Hres & -> & Hl); [done|].
  cbn in Hres. subst res. eauto.
Qed.

(** ** Decisions and invalid values *)

(** The height is in a request that waits for consensus. *)
Definition waiting s h : bool := existsb (fun r => RangeInclusive.contains r h) (all_ranges_of (pending s)).

Lemma waiting_covers s h : waiting s h = (0 <? total (covers h) (all_ranges_of (pending s)))%N.
Proof.
  unfold waiting. induction (all_ranges_of (pending s)) as [|r l IH]; [done|]. cbn [existsb].
  rewrite total_cons, IH. unfold covers at 2. destruct (RangeInclusive.contains r h); cbn [orb].
  - symmetry. apply N.ltb_lt. lia.
  - by rewrite N.add_0_l.
Qed.

Lemma all_ranges_disjoint s : sync_inv s ->
  Forall range_ok (all_ranges_of (pending s)) /\
  forall h, (total (covers h) (all_ranges_of (pending s)) <= 1)%N.
Proof.
  intros [Hok Hd _ _]. rewrite busy_ranges_app, Forall_app in Hok. split; [tauto|]. intros h.
  specialize (Hd h). rewrite busy_ranges_app, total_app in Hd. lia.
Qed.

Lemma prune_requests_spec h (m : BTreeMap.t OutboundRequestId (list Range * PeerId)) :
  (u h < U64_MAX)%N -> Forall range_ok (all_ranges_of m) -> (total (covers h) (all_ranges_of m) <= 1)%N ->
  exists m', SyncState.prune_requests h m = Ret m' /\
    forall h', total (covers h') (all_ranges_of m') =
      if Height_ltb h h' then total (covers h') (all_ranges_of m) else 0%N.
Proof using laws.
  intros Hh. induction m as [|[id [l p]] m IH]; cbn [SyncState.prune_requests].
  { intros _ _. exists []. split; [done|]. intros h'. by case_match. }
  rewrite all_ranges_of_cons, Forall_app, total_app. intros [Hl Hm] Hone.
  destruct (excise_height_Ret l h Hh) as (l1 & ok & He).
  assert (exists l', SyncState.prune_ranges h l = Ret l') as [l' Hl'].
  { unfold SyncState.prune_ranges. rewrite He. cbn. eauto. }
  destruct IH as (m' & Hm' & Hc); [done|lia|]. rewrite Hl', Hm'. cbn [mbind outcome_bind].
  eexists. split; [done|]. intros h'. pose proof (prune_ranges_covers h l l' h' Hl ltac:(lia) Hl') as Hc'.
  specialize (Hc h'). rewrite total_app. destruct l'; rewrite ?all_ranges_of_cons, ?total_app, ?total_nil in *;
    destruct (Height_ltb h h'); lia.
Qed.

(** when consensus decides a height, value sync moves its tip there and
    forgets exactly the heights up to it among those that wait for consensus:
    the others still wait, and the requests in flight stay. *)
Theorem decided_forgets_up_to (config : SyncConfig.t) (w : World.t) (fuel : nat) (h : Height)
  (Hw : reachable config w) (Hh : (u h < U64_MAX)%N) :
  exists w', handle fuel (SyncInput.Decided h) w = Complete (w', inr tt) /\
    w'.(World.state).(SyncState.tip_height) = h /\ inflight w'.(World.state) = inflight w.(World.state) /\
    forall h', waiting w'.(World.state) h' = waiting w.(World.state) h' && Height_ltb h h'.
Proof using laws.
  apply reachable_inv in Hw as [Hs _]. apply all_ranges_disjoint in Hs as [Hok Hd].
  destruct (prune_requests_spec h (pending w.(World.state)) Hh Hok (Hd h)) as (m' & Hm' & Hc).
  cbn [handle]. unfold on_decided, get_sync, put_sync, SyncState.prune_pending_consensus_requests,
    mbind, handler_bind, lift. cbn. rewrite Hm'. cbn. eexists. split_and!; [done..|]. intros h'.
  rewrite !waiting_covers. cbn. rewrite Hc. destruct (Height_ltb h h'); [by rewrite andb_true_r|].
  by rewrite andb_false_r.
Qed.

(** The peer that sent the value of a height that waits for consensus. *)
Definition sender s h : option PeerId :=
  (fun x => x.2.1.2) <$> SyncState.get_pending_consensus_request_id_by s h.

Lemma excised_update i (id : OutboundRequestId) l l' (p : PeerId) h
    (m : BTreeMap.t OutboundRequestId (list Range * PeerId)) h' :
  m !! i = Some (id, (l, p)) -> excised h l l' ->
  total (covers h') (all_ranges_of m) =
    (total (covers h') (all_ranges_of (<[i := (id, (l', p))]> m)) + if bool_decide (h' = h) then 1 else 0)%N.
Proof.
  intros Hi [_ Hc _]. apply list_elem_of_split_length in Hi as (m1 & m2 & -> & ->).
  unfold all_ranges_of, BTreeMap.t. rewrite insert_app_r_alt, Nat.sub_diag by lia. cbn.
  rewrite !fmap_app, !concat_app, !fmap_cons. cbn. rewrite !total_app, (Hc h'). lia.
Qed.

(** Removing the only request under an identifier, once it has no ranges. *)
Lemma remove_empty i (id : OutboundRequestId) (p : PeerId)
    (m : BTreeMap.t OutboundRequestId (list Range * PeerId)) :
  BTreeMap.sorted m -> m !! i = Some (id, ([], p)) ->
  all_ranges_of (BTreeMap.remove id m) = all_ranges_of m.
Proof.
  intros Hm Hi.
  assert (Hid : forall kv, kv ∈ m -> kv.1 = id -> kv.2.1 = []).
  { intros [k v] Hin Hk. cbn in Hk. subst k. apply list_elem_of_lookup_2 in Hi.
    apply BTreeMap.elem_get in Hi; [|done]. apply BTreeMap.elem_get in Hin; [|done]. by simplify_eq. }
  clear Hm Hi. unfold BTreeMap.remove, BTreeMap.retain. induction m as [|[k [l q]] m IH]; [done|].
  cbn [List.filter fst]. rewrite all_ranges_of_cons. case_bool_decide as Hk; cbn [negb].
  - rewrite IH by (intros kv Hkv; apply Hid; by constructor).
    by rewrite (Hid (k, (l, q)) ltac:(constructor) Hk : l = []).
  - rewrite all_ranges_of_cons, IH; [done|]. intros kv Hkv. apply Hid. by constructor.
Qed.

Lemma on_invalid_value_spec h p w :
  sync_inv w.(World.state) -> (u h < U64_MAX)%N ->
  exists w', on_invalid_value h p w = Complete (w', inr tt) /\
    inflight w'.(World.state) = inflight w.(World.state) /\
    forall h', waiting w'.(World.state) h' = waiting w.(World.state) h' &&
      negb (bool_decide (h' = h) && bool_decide (sender w.(World.state) h = Some p)).
Proof using laws.
  intros Hs Hh. set (s := w.(World.state)) in *. unfold on_invalid_value, get_sync, put_sync, mbind, handler_bind, lift.
  cbn. fold s. unfold sender. destruct (SyncState.get_pending_consensus_request_id_by s h) as [[i [[id p'] l]]|] eqn:Hf.
  2:{ eexists. split_and!; [done..|]. intros h'. cbn. by rewrite andb_false_r, andb_true_r. }
  cbn. destruct (decide (p' = p)) as [->|Hne].
  2:{ rewrite (bool_decide_eq_false_2 (p' = p)) by done. eexists. split_and!; [done..|]. intros h'. cbn.
      rewrite (bool_decide_eq_false_2 (Some p' = Some p)) by congruence. by rewrite andb_false_r, andb_true_r. }
  rewrite (bool_decide_eq_true_2 (p = p)), (bool_decide_eq_true_2 (Some p = Some p)) by done. cbn.
  unfold SyncState.get_pending_consensus_request_id_by in Hf.
  destruct (list_find _ _) as [[j [id' [l' q]]]|] eqn:Hj; [|done]. simplify_eq.
  apply list_find_Some in Hj as (Hi & Hc & _).
  pose proof (all_ranges_disjoint _ Hs) as [Hok Hd].
  assert (Forall range_ok l /\ ~ free l h) as [Hl Hnf].
  { split.
    - apply list_elem_of_lookup_2, list_elem_of_split in Hi as (m1 & m2 & Hm). rewrite Hm in Hok.
      unfold all_ranges_of in Hok. rewrite fmap_app, concat_app, fmap_cons in Hok. cbn in Hok.
      rewrite !Forall_app in Hok. tauto.
    - apply not_free. cbn in Hc. apply Is_true_true, existsb_exists in Hc as (r & Hr%list_elem_of_In & Hc). eauto. }
  destruct (excise_height_Ret l h Hh) as (l' & ok & He). rewrite He. cbn.
  pose proof (excise_height_spec _ _ _ _ Hl He) as Hex. destruct ok; [|by destruct Hex].
  set (m1 := <[i := (id, (l', p))]> (pending s)).
  assert (Hm1 : BTreeMap.sorted m1 /\ m1 !! i = Some (id, (l', p))).
  { split.
    - eapply sorted_keys; [|apply Hs]. unfold m1, BTreeMap.t in *.
      rewrite list_fmap_insert, list_insert_id; [done|]. by rewrite list_lookup_fmap, Hi.
    - unfold m1, BTreeMap.t. rewrite list_lookup_insert, decide_True; [done|].
      split; [done|by eapply lookup_lt_Some]. }
  assert (Hrem : all_ranges_of (match l' with [] => BTreeMap.remove id m1 | _ => m1 end) = all_ranges_of m1).
  { destruct l'; [|done]. destruct Hm1. by eapply remove_empty. }
  eexists. split_and!; [done..|]. intros h'. rewrite !waiting_covers.
  cbn [World.state SyncState.pending_consensus_requests SyncState.set_pending_consensus_requests].
  fold m1. rewrite Hrem.
  rewrite (excised_update i id l l' p h (pending s) h' Hi Hex). fold m1.
  pose proof (excised_update i id l l' p h (pending s) h Hi Hex) as Heq. fold m1 in Heq.
  rewrite bool_decide_eq_true_2 in Heq by done. specialize (Hd h).
  case_bool_decide as Hhh; [subst h'|by rewrite N.add_0_r, andb_true_r].
  cbn. rewrite andb_false_r. apply N.ltb_ge. lia.
Qed.

Lemma update_score_Complete p x w :
  exists w', update_score p x w = Complete (w', inr tt) /\ like w.(World.state) w'.(World.state).
Proof.
  unfold update_score, mbind, handler_bind, get_state, put_state. cbn [prog_bind fst snd].
  destruct (PeerScorer.update_score _ _ _ _) as [scorer clock]. eexists. split; [done|]. by split.
Qed.

(** when consensus finds the value of a height invalid, or fails to process
    it, exactly that height stops waiting for consensus, and can be requested
    again, if the report names the peer that sent the value; otherwise nothing
    changes. The requests in flight stay. *)
Theorem invalid_value_frees_height (config : SyncConfig.t) (w : World.t) (fuel : nat) (h : Height) (p : PeerId)
  (input : SyncInput.t) (Hw : reachable config w) (Hh : (u h < U64_MAX)%N)
  (Hinput : input = SyncInput.InvalidValue p h \/ input = SyncInput.ValueProcessingError p h) :
  exists w', handle fuel input w = Complete (w', inr tt) /\
    inflight w'.(World.state) = inflight w.(World.state) /\
    forall h', waiting w'.(World.state) h' = waiting w.(World.state) h' &&
      negb (bool_decide (h' = h) && bool_decide (sender w.(World.state) h = Some p)).
Proof using laws.
  apply reachable_inv in Hw as [Hs _]. destruct Hinput as [-> | ->]; cbn [handle]; [|by apply on_invalid_value_spec].
  destruct (update_score_Complete p SyncResult.Failure w) as (w1 & Hw1 & Hl).
  unfold mbind, handler_bind. rewrite Hw1. cbn [prog_bind fst snd].
  destruct (on_invalid_value_spec h p w1) as (w' & Hw' & Hi & Hc); [by eapply like_inv|done|].
  exists w'. split; [done|]. rewrite Hi, (like_inflight _ _ Hl). split; [done|]. intros h'. rewrite Hc.
  unfold waiting, sender, SyncState.get_pending_consensus_request_id_by. by rewrite (like_pending _ _ Hl).
Qed.

(** ** Panics *)

(** Once the application has answered a request for values of a range that ends
    before it starts, or that holds all [2^64] heights, the handler panics,
    whatever the answer was: the length of the range overflows. *)
Lemma hostile_request_panics (w : World.t) (fuel : nat) (id : InboundRequestId) (r : Range)
  (values : list RawDecidedValue.t)
  (Hr : (u r.(RangeInclusive.end_) < u r.(RangeInclusive.start))%N \/
        (u r.(RangeInclusive.start) = 0 /\ u r.(RangeInclusive.end_) = U64_MAX)%N) :
  exists msg, handle fuel (SyncInput.GotDecidedValues id r values) w = Panicked msg.
Proof.
  cbn [handle]. unfold on_got_decided_values, mbind, handler_bind, lift, RangeInclusive.len_u64.
  destruct Hr as [Hr|[Hs He]].
  - unfold sub_u64, checked_sub. rewrite (proj2 (N.leb_gt _ _)) by done. cbn. eauto.
  - rewrite Hs, He. cbn. eauto.
Qed.

(** a peer that was sent a request can make value sync panic: a response
    whose last value is at the last [u64] height, with a certificate for it, is
    rejected only after the height has been incremented, which overflows. *)
Theorem hostile_response_panics (w : World.t) (fuel : nat) (id : OutboundRequestId) (p : PeerId) (requested : Range)
  (value : RawDecidedValue.t)
  (Hflight : BTreeMap.get id (inflight w.(World.state)) = Some (requested, p))
  (Hvalue : u (RawDecidedValue.height value) = U64_MAX) :
  let response := SyncValueResponse.new (RawDecidedValue.height value) [value] in
  exists msg, handle fuel (SyncInput.ValueResponse id p (Some response)) w = Panicked msg.
Proof using laws.
  intros response.
  destruct (Height_increment_by_spec (RawDecidedValue.height value) 0) as (e & He & Hue); [rewrite Hvalue; done|].
  assert (Hend : SyncValueResponse.end_height response = Ret (Some e)).
  { unfold SyncValueResponse.end_height, response. cbn [SyncValueResponse.values SyncValueResponse.start_height].
    rewrite (proj2 (sub_u64_Ret _ _ 0%N)) by done. cbn [mbind outcome_bind]. by rewrite He. }
  assert (Hlen : RangeInclusive.len_u64 (RangeInclusive.new (RawDecidedValue.height value) e) = Ret 1%N).
  { unfold RangeInclusive.len_u64. cbn [RangeInclusive.start RangeInclusive.end_]. by rewrite Hue, Hvalue. }
  assert (exists msg, certificate_heights_ok (RawDecidedValue.height value) [value] = Panic msg) as [msg Hmsg].
  { cbn [certificate_heights_ok]. rewrite bool_decide_eq_true_2 by done. cbn [negb].
    destruct (Height_increment (RawDecidedValue.height value)) as [x|msg] eqn:Hx; [|by exists msg].
    pose proof (Height_increment_Ret _ _ Hx) as Hu. pose proof (Height_increment_by_le _ _ _ Hx) as Hle.
    rewrite Hu, Hvalue in Hle. done. }
  exists msg. cbn [handle].
  unfold on_value_response, take_inflight_if_peer_matches, get_sync, put_sync, mbind, handler_bind, lift.
  cbn -[SyncValueResponse.end_height RangeInclusive.len_u64 certificate_heights_ok response].
  rewrite Hflight, bool_decide_eq_true_2 by done.
  cbn -[SyncValueResponse.end_height RangeInclusive.len_u64 certificate_heights_ok response].
  rewrite Hend. cbn -[RangeInclusive.len_u64 certificate_heights_ok]. rewrite Hlen. cbn -[certificate_heights_ok].
  by rewrite Hmsg.
Qed.

End responses.
