(* ===== verification/OutputPort.v ===== *)
(** * Output ports

    engine/src/util/output_port.rs: the publish-subscribe ports over which the
    network actor reports its events to the consensus and the sync actor. A port
    holds the sending half of a broadcast channel; each subscription is a task
    that takes messages from the channel, converts them and casts them to an
    actor. The channel (tokio) is a class of operations with the laws that its
    documentation states. The ports are run in any interleaving of publishers and
    subscriptions. *)

From S2P Require Import Prelude.

(** ** The channel *)

Module Received.
(** [Ok(msg)], [Err(Lagged(n))], [Err(Closed)], or nothing to receive yet. *)
Inductive t (A : Type) : Type := Message (msg : A) | Lagged (n : nat) | Closed | Pending.
Arguments Message {A} msg.
Arguments Lagged {A} n.
Arguments Closed {A}.
Arguments Pending {A}.
End Received.

Class Broadcast (A : Type) : Type := {
  Sender : Type;
  Receiver : Type;
  channel : nat -> Sender;
  tx_subscribe : Sender -> Sender * Receiver;
  tx_send : A -> Sender -> Sender;
  receiver_count : Sender -> nat;
  recv : Sender -> Receiver -> Received.t A * Receiver;
  drop_receiver : Receiver -> Sender -> Sender;
}.

(** A receiver gets the values that are sent after it was made, in their order,
    except those that it is told it has missed; and it misses none as long as
    there are not more of them than the capacity. *)
Class BroadcastLaws (A : Type) `{Broadcast A} : Type := {
  sent : Sender -> list A;
  position : Receiver -> nat;
  capacity : Sender -> nat;
  channel_sent n : sent (channel n) = [] /\ receiver_count (channel n) = 0 /\ n <= capacity (channel n);
  subscribe_law c :
    sent (tx_subscribe c).1 = sent c /\ capacity (tx_subscribe c).1 = capacity c /\
    receiver_count (tx_subscribe c).1 = S (receiver_count c) /\ position (tx_subscribe c).2 = length (sent c);
  send_law a c :
    sent (tx_send a c) = sent c ++ [a] /\ capacity (tx_send a c) = capacity c /\
    receiver_count (tx_send a c) = receiver_count c;
  drop_law x c :
    sent (drop_receiver x c) = sent c /\ capacity (drop_receiver x c) = capacity c /\
    receiver_count (drop_receiver x c) = pred (receiver_count c);
  recv_law c x : position x <= length (sent c) ->
    match recv c x with
    | (Received.Message a, x') => sent c !! position x = Some a /\ position x' = S (position x)
    | (Received.Lagged n, x') => capacity c < length (sent c) - position x /\ position x' = position x + n /\ position x' <= length (sent c)
    | (Received.Closed, x') => position x' = position x
    | (Received.Pending, x') => position x = length (sent c) /\ position x' = position x
    end;
}.

(** ** Ports *)

Section port.
Context {TMsg R : Type} `{Broadcast (option TMsg)}.

(** A subscription: its task, with the receiver it reads from and what it has
    cast, or which has finished. *)
Record OutputPortSubscription : Type := mk_subscription {
  handle : N;
  finished : bool;
  rx : Receiver;
  converter : TMsg -> option R;
  mailbox : list R;
}.
Definition is_dead (self : OutputPortSubscription) : bool := self.(finished).

Record OutputPort : Type := mk_port { tx : Sender; subscriptions : list OutputPortSubscription }.

Definition with_capacity (capacity : nat) : OutputPort := mk_port (channel capacity) [].
Definition default : OutputPort := with_capacity 10.

(** The runtime gives a new task its handle. *)
Definition subscribe (self : OutputPort) (handle : N) (converter : TMsg -> option R) : OutputPort :=
  let subs := List.filter (fun sub => negb (is_dead sub)) self.(subscriptions) in
  let (tx, rx) := tx_subscribe self.(tx) in
  mk_port tx (subs ++ [mk_subscription handle false rx converter []]).

Definition send (self : OutputPort) (msg : TMsg) : OutputPort :=
  if 0 <? receiver_count self.(tx) then mk_port (tx_send (Some msg) self.(tx)) self.(subscriptions) else self.

(** One turn of the loop of a subscription; [alive] tells if the actor still
    accepts messages. A task that returns drops its receiver. *)
Definition turn (alive : bool) (c : Sender) (sub : OutputPortSubscription) : Sender * OutputPortSubscription * Received.t (option TMsg) :=
  let (r, rx) := recv c sub.(rx) in
  let go mailbox := (c, mk_subscription sub.(handle) false rx sub.(converter) mailbox, r) in
  let stop := (drop_receiver rx c, mk_subscription sub.(handle) true rx sub.(converter) sub.(mailbox), r) in
  match r with
  | Received.Lagged _ => go sub.(mailbox)
  | Received.Message (Some msg) =>
      match sub.(converter) msg with
      | Some new_msg => if alive then go (sub.(mailbox) ++ [new_msg]) else stop
      | None => go sub.(mailbox)
      end
  | Received.Message None => go sub.(mailbox)
  | Received.Closed => stop
  | Received.Pending => go sub.(mailbox)
  end.

(** [Drop]: the tasks are aborted, and drop their receivers. *)
Definition drop_port (self : OutputPort) : OutputPort :=
  mk_port (foldl (fun c sub => if is_dead sub then c else drop_receiver sub.(rx) c) self.(tx) self.(subscriptions)) [].

(** ** Runs *)

Inductive event : Type :=
  | Sent (msg : TMsg)
  | Subscribed (handle : N) (converter : TMsg -> option R)
  | Turned (handle : N) (alive : bool) (r : Received.t (option TMsg)).

Inductive step : OutputPort -> event -> OutputPort -> Prop :=
  | step_send p msg : step p (Sent msg) (send p msg)
  | step_subscribe p h f :
      Forall (fun sub => sub.(handle) <> h) p.(subscriptions) -> step p (Subscribed h f) (subscribe p h f)
  | step_turn p l1 l2 sub alive c sub' r :
      p.(subscriptions) = l1 ++ sub :: l2 -> is_dead sub = false -> turn alive p.(tx) sub = (c, sub', r) ->
      step p (Turned sub.(handle) alive r) (mk_port c (l1 ++ sub' :: l2)).

Inductive run : OutputPort -> list event -> OutputPort -> Prop :=
  | run_nil p : run p [] p
  | run_snoc p es p1 e p2 : run p es p1 -> step p1 e p2 -> run p (es ++ [e]) p2.

Definition sent_msgs (es : list event) : list TMsg :=
  omap (fun e => match e with Sent msg => Some msg | _ => None end) es.

(** ** Invariant *)

Context {laws : BroadcastLaws (option TMsg)}.

Definition alive_subs (l : list OutputPortSubscription) : list OutputPortSubscription := List.filter (fun sub => negb (is_dead sub)) l.

Record port_ok (p : OutputPort) : Prop := {
  ok_handles : NoDup (handle <$> p.(subscriptions));
  ok_count : receiver_count p.(tx) = length (alive_subs p.(subscriptions));
  ok_positions : Forall (fun sub => position sub.(rx) <= length (sent p.(tx))) p.(subscriptions);
}.

Lemma port_ok_new n : port_ok (with_capacity n).
Proof. destruct (channel_sent n) as (_ & Hc & _). split; [constructor|exact Hc|constructor]. Qed.

Lemma alive_app l1 l2 : alive_subs (l1 ++ l2) = alive_subs l1 ++ alive_subs l2.
Proof. apply List.filter_app. Qed.
Lemma alive_sublist l : alive_subs l `sublist_of` l.
Proof. induction l as [|sub l IH]; cbn; [constructor|]. destruct (negb _); by constructor. Qed.
Lemma alive_elem sub l : sub ∈ alive_subs l <-> sub ∈ l /\ is_dead sub = false.
Proof. unfold alive_subs. rewrite !list_elem_of_In, List.filter_In, negb_true_iff. done. Qed.
Lemma alive_idem l : alive_subs (alive_subs l) = alive_subs l.
Proof. induction l as [|sub l IH]; cbn; [done|]. destruct (negb _) eqn:Hd; cbn; [rewrite Hd; by f_equal|done]. Qed.

(** What a turn does to the channel and to the subscription. *)
Lemma turn_spec alive c sub c' sub' r :
  turn alive c sub = (c', sub', r) -> position sub.(rx) <= length (sent c) ->
  sub'.(handle) = sub.(handle) /\ sub'.(converter) = sub.(converter) /\ sent c' = sent c /\ capacity c' = capacity c /\
  receiver_count c' = (if sub'.(finished) then pred (receiver_count c) else receiver_count c) /\
  position sub.(rx) <= position sub'.(rx) <= length (sent c) /\
  match r with
  | Received.Message m =>
      sent c !! position sub.(rx) = Some m /\ position sub'.(rx) = S (position sub.(rx)) /\
      if sub'.(finished) then alive = false /\ sub'.(mailbox) = sub.(mailbox)
      else sub'.(mailbox) = sub.(mailbox) ++ omap sub.(converter) (option_list m)
  | Received.Lagged _ => capacity c < length (sent c) - position sub.(rx) /\ sub'.(mailbox) = sub.(mailbox) /\ sub'.(finished) = false
  | Received.Closed => sub'.(mailbox) = sub.(mailbox) /\ sub'.(finished) = true
  | Received.Pending => position sub.(rx) = length (sent c) /\ sub'.(mailbox) = sub.(mailbox) /\ sub'.(finished) = false
  end.
Proof.
  intros Ht Hp. unfold turn in Ht. pose proof (recv_law c (rx sub) Hp) as Hr. destruct (recv c (rx sub)) as [r' x'].
  pose proof (drop_law x' c) as (Hds & Hdc & Hdn).
  destruct r' as [[msg|]|n| |]; [destruct (converter sub msg) as [new|] eqn:Hf; [destruct alive|]|..]; injection Ht as <- <- <-;
    cbn; rewrite ?Hf, ?app_nil_r, ?Hds, ?Hdc, ?Hdn; cbn;
    repeat match goal with H : _ /\ _ |- _ => destruct H end;
    try match goal with H : sent c !! _ = Some _ |- _ => pose proof (lookup_lt_Some _ _ _ H) end; split_and!; done || lia.
Qed.

Lemma send_spec p msg : port_ok p ->
  port_ok (send p msg) /\ (send p msg).(subscriptions) = p.(subscriptions) /\
  capacity (send p msg).(tx) = capacity p.(tx) /\
  (alive_subs p.(subscriptions) <> [] -> sent (send p msg).(tx) = sent p.(tx) ++ [Some msg]).
Proof.
  intros [Hh Hc Hp]. unfold send. rewrite Hc. destruct (send_law (Some msg) (tx p)) as (Hs & Hk & Hn).
  destruct (Nat.ltb_spec 0 (length (alive_subs (subscriptions p)))) as [Hlt|Hle]; cbn.
  - split_and!; [|done|done|by rewrite Hs]. split; cbn; [done|by rewrite Hn|]. eapply Forall_impl; [exact Hp|].
    intros sub Hsub. cbn in *. rewrite Hs, length_app. cbn. lia.
  - split_and!; [by split|done|done|]. intros Hne. destruct (alive_subs (subscriptions p)); [done|cbn in Hle; lia].
Qed.

Lemma subscribe_spec p h f : port_ok p -> Forall (fun sub => sub.(handle) <> h) p.(subscriptions) ->
  port_ok (subscribe p h f) /\ sent (subscribe p h f).(tx) = sent p.(tx) /\ capacity (subscribe p h f).(tx) = capacity p.(tx) /\
  exists x, position x = length (sent p.(tx)) /\
    (subscribe p h f).(subscriptions) = alive_subs p.(subscriptions) ++ [mk_subscription h false x f []].
Proof.
  intros [Hh Hc Hp] Hnew. unfold subscribe. destruct (subscribe_law (tx p)) as (Hs & Hk & Hn & Hx).
  destruct (tx_subscribe (tx p)) as [c x]. cbn in *. split_and!; [|done|done|by exists x]. fold (alive_subs (subscriptions p)).
  split; cbn.
  - rewrite fmap_app. apply NoDup_app. split_and!; [| |apply NoDup_singleton].
    + eapply sublist_NoDup; [exact Hh|]. apply fmap_sublist, alive_sublist.
    + intros h' (sub & -> & Hin)%list_elem_of_fmap Heq. cbn in Heq. apply list_elem_of_singleton in Heq.
      rewrite Forall_forall in Hnew. apply (Hnew sub); [|done]. by apply alive_elem in Hin as [? _].
  - rewrite Hn, Hc, alive_app, alive_idem, length_app. cbn. lia.
  - apply Forall_app. split; [|repeat constructor; cbn; rewrite Hx, Hs; lia]. rewrite Hs. rewrite Forall_forall in *.
    intros sub Hin. apply Hp. by apply alive_elem in Hin as [? _].
Qed.

Lemma turn_ok p l1 l2 sub alive c sub' r :
  port_ok p -> p.(subscriptions) = l1 ++ sub :: l2 -> is_dead sub = false -> turn alive p.(tx) sub = (c, sub', r) ->
  port_ok (mk_port c (l1 ++ sub' :: l2)).
Proof.
  intros [Hh Hc Hp] Hl Hd Ht. rewrite Hl in *. apply Forall_app in Hp as [Hp1 Hp2]. apply Forall_cons in Hp2 as [Hps Hp2].
  destruct (turn_spec _ _ _ _ _ _ Ht Hps) as (Hth & _ & Hs & _ & Hn & Hpos & _).
  rewrite alive_app, length_app in Hc. cbn in Hc. rewrite Hd in Hc. cbn in Hc. split; cbn.
  - rewrite fmap_app in *. cbn in *. by rewrite Hth.
  - rewrite alive_app, length_app. cbn. unfold is_dead in *. destruct (finished sub'); cbn; lia.
  - rewrite Hs. apply Forall_app. split; [done|]. constructor; [lia|done].
Qed.

Lemma step_ok p e p' : port_ok p -> step p e p' -> port_ok p'.
Proof.
  intros Hok Hs. destruct Hs; [by apply (send_spec _ _ Hok)|by apply (subscribe_spec _ _ _ Hok)|by eapply turn_ok].
Qed.

(** ** Delivery *)

(** The messages of the channel, for a subscriber. *)
Definition converted (f : TMsg -> option R) (l : list (option TMsg)) : list R := omap f (omap id l).

Lemma converted_app f a b : converted f (a ++ b) = converted f a ++ converted f b.
Proof. unfold converted. by rewrite !omap_app. Qed.
Lemma converted_sent f l : converted f (Some <$> l) = omap f l.
Proof. unfold converted. f_equal. induction l as [|x l IH]; cbn; [done|]. by f_equal. Qed.
Lemma converted_drop_sublist f n l : converted f (drop n l) `sublist_of` converted f l.
Proof. rewrite <- (take_drop n l) at 2. rewrite converted_app. by apply sublist_inserts_l. Qed.
(** The subscription [h], with what was in the channel before it and what was
    sent since. *)
Record subscribed (h : N) (f : TMsg -> option R) (before since : list (option TMsg)) (p : OutputPort) (sub : OutputPortSubscription) : Prop := {
  sub_in : sub ∈ p.(subscriptions);
  sub_handle : sub.(handle) = h;
  sub_converter : sub.(converter) = f;
  sub_alive : is_dead sub = false;
  sub_sent : sent p.(tx) = before ++ since;
}.

(** No turn of the subscription [h] fails, or is told that it has missed
    messages. *)
Definition reliable (h : N) (e : event) : Prop :=
  match e with
  | Turned h' alive r => h' = h -> alive = true /\ r <> Received.Closed
  | _ => True
  end.
Definition keeps_up (h : N) (e : event) : Prop :=
  match e with Turned h' _ (Received.Lagged _) => h' <> h | _ => True end.

Lemma same_sub p s1 s2 : port_ok p -> s1 ∈ p.(subscriptions) -> s2 ∈ p.(subscriptions) -> s1.(handle) = s2.(handle) -> s1 = s2.
Proof.
  intros [Hh _ _] [i Hi]%list_elem_of_lookup [j Hj]%list_elem_of_lookup Heq.
  assert (i = j) as -> by (apply (NoDup_lookup _ _ _ (handle s1) Hh); rewrite list_lookup_fmap; [by rewrite Hi|by rewrite Hj, Heq]).
  by simplify_eq.
Qed.

(** What a step that does not fail leaves of a subscription. *)
Lemma step_subscribed h f before since p sub e p' :
  port_ok p -> subscribed h f before since p sub -> step p e p' -> reliable h e ->
  exists sub', subscribed h f before (since ++ (Some <$> sent_msgs [e])) p' sub' /\
    position sub.(rx) <= position sub'.(rx) /\
    (sub'.(mailbox) ++ converted f (drop (position sub'.(rx)) (sent p'.(tx)))) `sublist_of`
      (sub.(mailbox) ++ converted f (drop (position sub.(rx)) (sent p.(tx)))) ++ omap f (sent_msgs [e]) /\
    (keeps_up h e ->
     sub'.(mailbox) ++ converted f (drop (position sub'.(rx)) (sent p'.(tx))) =
     (sub.(mailbox) ++ converted f (drop (position sub.(rx)) (sent p.(tx)))) ++ omap f (sent_msgs [e])).
Proof.
  intros Hok [Hin Hh Hf Hd Hs] Hst Hrel. pose proof (ok_positions p Hok) as Hpos. rewrite Forall_forall in Hpos.
  destruct Hst as [p msg|p h' f' Hnew|p l1 l2 s alive c s' r Hl Hds Ht].
  - destruct (send_spec p msg Hok) as (_ & Hsubs & _ & Hsent).
    assert (Hne : alive_subs (subscriptions p) <> []).
    { intros Hnil. assert (Ha : sub ∈ alive_subs (subscriptions p)) by by apply alive_elem. rewrite Hnil in Ha. by apply elem_of_nil in Ha. }
    specialize (Hsent Hne). exists sub. split.
    { split; [by rewrite Hsubs|done|done|done|]. rewrite Hsent, Hs. cbn. by rewrite app_assoc. }
    rewrite Hsent, drop_app_le, converted_app by by apply Hpos. cbn. rewrite app_assoc. split_and!; done.
  - destruct (subscribe_spec p h' f' Hok Hnew) as (_ & Hsent & _ & x & _ & Hsubs). exists sub. cbn. rewrite !app_nil_r, Hsent.
    split_and!; try done. split; [|done..|by rewrite Hsent]. rewrite Hsubs. apply elem_of_app. left. by apply alive_elem.
  - cbn [sent_msgs omap list_omap fmap list_fmap tx subscriptions]. rewrite !app_nil_r. cbn.
    assert (Hsin : s ∈ subscriptions p) by (rewrite Hl; set_solver).
    destruct (turn_spec _ _ _ _ _ _ Ht (Hpos s Hsin)) as (Hth & Htf & Hts & _ & _ & Htp & Hr). rewrite Hts.
    destruct (decide (handle s = h)) as [Heq|Hne].
    + assert (s = sub) as -> by (eapply same_sub; [done..|by rewrite Heq, Hh]). exists s'.
      destruct (Hrel Heq) as [-> Hncl].
      assert (Hsub : finished s' = false -> subscribed h f before since (mk_port c (l1 ++ s' :: l2)) s').
      { intros Hfin. split; cbn; [set_solver|congruence|congruence|done|congruence]. }
      destruct r as [m|n| |]; [|..|done|].
      * destruct Hr as (Hm & -> & Hr). destruct (finished s') eqn:Hfin; [by destruct Hr|]. split; [by apply Hsub|]. rewrite Hr, Hf.
        assert (Heqs : mailbox sub ++ converted f (drop (position (rx sub)) (sent (tx p))) =
          (mailbox sub ++ omap f (option_list m)) ++ converted f (drop (S (position (rx sub))) (sent (tx p)))).
        { rewrite (drop_S _ _ _ Hm), <- app_assoc. f_equal.
          destruct m as [msg|]; [|done]. unfold converted. cbn. by destruct (f msg). }
        rewrite Heqs. split_and!; [lia|done|done].
      * destruct Hr as (_ & -> & Hfin). split; [by apply Hsub|]. split_and!; [lia| |by intros Hk; destruct Hk].
        apply sublist_app; [done|]. replace (position (rx s')) with (position (rx sub) + (position (rx s') - position (rx sub))) by lia.
        rewrite <- drop_drop. apply converted_drop_sublist.
      * destruct Hr as (Hend & -> & Hfin). split; [by apply Hsub|]. replace (position (rx s')) with (position (rx sub)) by lia. done.
    + exists sub. split_and!; try done. split; cbn; try done; [|by rewrite Hts].
      rewrite Hl in Hin. set_solver.
Qed.

Lemma step_capacity p e p' : port_ok p -> step p e p' -> capacity p'.(tx) = capacity p.(tx).
Proof.
  intros Hok Hs. destruct Hs as [p msg|p h f Hnew|p l1 l2 sub alive c sub' r Hl Hd Ht].
  - by apply (send_spec p msg Hok).
  - by apply (subscribe_spec p h f Hok Hnew).
  - pose proof (ok_positions p Hok) as Hp. rewrite Hl in Hp. apply Forall_app in Hp as [_ [Hp _]%Forall_cons].
    by destruct (turn_spec _ _ _ _ _ _ Ht Hp) as (_ & _ & _ & Hc & _).
Qed.
Lemma run_ok p es p' : port_ok p -> run p es p' -> port_ok p' /\ capacity p'.(tx) = capacity p.(tx).
Proof.
  intros Hok Hr. induction Hr as [p|p es p1 e p2 Hr IH Hs]; [done|]. destruct (IH Hok) as [Hok1 Hc].
  split; [by eapply step_ok|]. by rewrite <- Hc, (step_capacity _ _ _ Hok1 Hs).
Qed.

(** A subscription that has fewer messages before it than fit is not told that
    it has missed some. *)
Lemma within_capacity_keeps_up h f before since p sub e p' :
  port_ok p -> subscribed h f before since p sub -> step p e p' ->
  length before <= position sub.(rx) -> length since <= capacity p.(tx) -> keeps_up h e.
Proof.
  intros Hok [Hin Hh _ _ Hs] Hst Hb Hsince. destruct Hst as [p msg|p h' f' Hnew|p l1 l2 s alive c s' r Hl Hd Ht]; try done.
  destruct r as [|k| |]; try done. cbn. intros Heq.
  assert (Hsin : s ∈ subscriptions p) by (rewrite Hl; set_solver).
  assert (s = sub) as -> by (eapply same_sub; [done..|by rewrite Heq, Hh]).
  pose proof (ok_positions p Hok) as Hp. rewrite Forall_forall in Hp.
  destruct (turn_spec _ _ _ _ _ _ Ht (Hp _ Hin)) as (_ & _ & _ & _ & _ & _ & Hlag & _).
  rewrite Hs, length_app in Hlag. lia.
Qed.

Lemma sent_msgs_app es es' : sent_msgs (es ++ es') = sent_msgs es ++ sent_msgs es'.
Proof. unfold sent_msgs. by rewrite omap_app. Qed.

Lemma run_subscribed h f p es p' :
  port_ok p -> Forall (fun sub => sub.(handle) <> h) p.(subscriptions) -> run (subscribe p h f) es p' -> Forall (reliable h) es ->
  exists sub, subscribed h f (sent p.(tx)) (Some <$> sent_msgs es) p' sub /\ length (sent p.(tx)) <= position sub.(rx) /\
    (sub.(mailbox) ++ converted f (drop (position sub.(rx)) (sent p'.(tx)))) `sublist_of` omap f (sent_msgs es) /\
    (Forall (keeps_up h) es \/ length (sent_msgs es) <= capacity p'.(tx) ->
     sub.(mailbox) ++ converted f (drop (position sub.(rx)) (sent p'.(tx))) = omap f (sent_msgs es)).
Proof.
  intros Hok Hnew. destruct (subscribe_spec p h f Hok Hnew) as (Hok0 & Hs0 & Hc0 & x & Hx & Hsubs).
  intros Hr. remember (subscribe p h f) as p0 eqn:Hp0. induction Hr as [p0|p0 es p1 e p2 Hr IH Hst]; intros Hrel; subst p0.
  - exists (mk_subscription h false x f []). cbn. rewrite Hs0, Hx, drop_all. split_and!; try done.
    split; try done; [rewrite Hsubs; set_solver|by rewrite app_nil_r].
  - apply Forall_app in Hrel as [Hrel [He _]%Forall_cons]. destruct (IH eq_refl) as (sub & Hsub & Hb & Hsl & Heq); [done..|].
    destruct (run_ok _ _ _ Hok0 Hr) as [Hok1 Hc1].
    destruct (step_subscribed _ _ _ _ _ _ _ _ Hok1 Hsub Hst He) as (sub' & Hsub' & Hpos & Hsl' & Heq').
    exists sub'. rewrite sent_msgs_app, fmap_app, omap_app. split_and!; [done|lia| |].
    + etrans; [exact Hsl'|]. by apply sublist_app.
    + intros Hk. rewrite (step_capacity _ _ _ Hok1 Hst) in Hk. rewrite Heq', Heq; [done|..].
      * destruct Hk as [Hk|Hk]; [left; by apply Forall_app in Hk as [? _]|right]. rewrite length_app in Hk. lia.
      * destruct Hk as [Hk|Hk]; [by apply Forall_app in Hk as [_ [? _]%Forall_cons]|].
        eapply within_capacity_keeps_up; [done..|]. rewrite length_fmap. rewrite length_app in Hk. lia.
Qed.

(** C31: What is published reaches the subscribers. In any interleaving of publishers
    and subscriptions, with an actor that accepts what it is sent, the messages
    that a subscription has cast to its actor, followed by those that are still in
    the channel, are the converted messages that were published since it
    subscribed, each once and in their order, as long as it is not told that it has
    missed some; and it is not while no more messages were published than the
    capacity. In any case what it has cast are some of them, in their order. *)
Theorem published_reach_subscribers n es0 p h f es p' :
  run (with_capacity n) es0 p -> Forall (fun sub => sub.(handle) <> h) p.(subscriptions) ->
  run (subscribe p h f) es p' -> Forall (reliable h) es ->
  exists sub, sub ∈ p'.(subscriptions) /\ sub.(handle) = h /\ sub.(mailbox) `sublist_of` omap f (sent_msgs es) /\
    (Forall (keeps_up h) es \/ length (sent_msgs es) <= n ->
     sub.(mailbox) ++ converted f (drop (position sub.(rx)) (sent p'.(tx))) = omap f (sent_msgs es)).
Proof.
  intros Hr0 Hnew Hr Hrel. destruct (run_ok _ _ _ (port_ok_new n) Hr0) as [Hok Hc]. destruct (channel_sent n) as (_ & _ & Hn).
  destruct (run_subscribed h f p es p' Hok Hnew Hr Hrel) as (sub & [Hin Hh _ _ _] & _ & Hsl & Heq).
  destruct (subscribe_spec p h f Hok Hnew) as (Hok0 & _ & Hc0 & _). destruct (run_ok _ _ _ Hok0 Hr) as [_ Hc'].
  exists sub. split_and!; [done|done| |].
  - etrans; [|exact Hsl]. by apply sublist_inserts_r.
  - intros [Hk|Hk]; apply Heq; [by left|right]. rewrite Hc', Hc0, Hc. cbn. lia.
Qed.

End port.

(** ** A channel

    The sent messages, the capacity and the number of receivers; a receiver is
    the number of messages before it. *)

Section runs.

#[local] Instance log_channel : Broadcast (option N) := {|
  Sender := list (option N) * (nat * nat);
  Receiver := nat;
  channel n := ([], (n, 0));
  tx_subscribe c := ((c.1, (c.2.1, S c.2.2)), length c.1);
  tx_send a c := (c.1 ++ [a], c.2);
  receiver_count c := c.2.2;
  recv c x :=
    if c.2.1 <? length c.1 - x then (Received.Lagged (length c.1 - c.2.1 - x), length c.1 - c.2.1)
    else match c.1 !! x with Some a => (Received.Message a, S x) | None => (Received.Pending, x) end;
  drop_receiver _ c := (c.1, (c.2.1, pred c.2.2));
|}.
#[local] Instance log_channel_laws : BroadcastLaws (option N).
Proof.
  refine {| sent c := c.1; position x := x; capacity c := c.2.1 |}; try (cbn; intros; split_and!; done).
  intros [log [cap count]] x Hx. cbn -[Nat.ltb Nat.sub] in *. destruct (Nat.ltb_spec cap (length log - x)); [split_and!; lia|].
  destruct (log !! x) as [a|] eqn:Hl; [done|]. apply lookup_ge_None in Hl. lia.
Defined.

Definition watch : OutputPort (R := N) := subscribe default 0 Some.

(** The only subscription of a port takes a turn. *)
Definition turn_first (p : OutputPort (R := N)) : OutputPort :=
  match p.(subscriptions) with
  | sub :: l => let '(c, sub', _) := turn true p.(tx) sub in mk_port c (sub' :: l)
  | [] => p
  end.
Definition first_result (p : OutputPort (R := N)) : Received.t (option N) :=
  match p.(subscriptions) with sub :: _ => (turn true p.(tx) sub).2 | [] => Received.Pending end.
Lemma run_turn (p0 p : OutputPort (R := N)) es :
  run p0 es p -> (handle <$> p.(subscriptions)) = [0%N] -> (is_dead <$> p.(subscriptions)) = [false] ->
  run p0 (es ++ [Turned 0 true (first_result p)]) (turn_first p).
Proof.
  intros Hr Hh Hd. eapply run_snoc; [exact Hr|]. unfold turn_first, first_result. destruct p as [c [|sub [|]]]; try done.
  injection Hh as Hh. injection Hd as Hd. rewrite <- Hh. cbn. destruct (turn true c sub) as [[c' sub'] r] eqn:Ht.
  by apply (step_turn (mk_port c [sub]) [] [] sub true c' sub' r).
Qed.
Lemma run_send (p0 p : OutputPort (R := N)) es msg : run p0 es p -> run p0 (es ++ [Sent msg]) (send p msg).
Proof. intros Hr. eapply run_snoc; [exact Hr|]. constructor. Qed.

Lemma published_reach_subscribers_witness :
  exists sub, sub ∈ (turn_first (turn_first (send (send watch 4%N) 5%N))).(subscriptions) /\ sub.(mailbox) = [4%N; 5%N].
Proof.
  destruct (published_reach_subscribers (R := N) 10 [] default 0 Some
    [Sent 4%N; Sent 5%N; Turned 0 true (Received.Message (Some 4%N)); Turned 0 true (Received.Message (Some 5%N))]
    (turn_first (turn_first (send (send watch 4%N) 5%N)))) as (sub & Hin & _ & _ & Heq).
  - constructor.
  - constructor.
  - change (run watch (((([] ++ [Sent 4%N]) ++ [Sent 5%N]) ++ [Turned 0 true (first_result (send (send watch 4%N) 5%N))])
      ++ [Turned 0 true (first_result (turn_first (send (send watch 4%N) 5%N)))]) (turn_first (turn_first (send (send watch 4%N) 5%N)))).
    do 2 (apply run_turn; [|done..]). do 2 apply run_send. constructor.
  - repeat constructor; done.
  - exists sub. split; [exact Hin|]. assert (Hle : 2 <= 10) by lia. specialize (Heq (or_intror Hle)).
    apply list_elem_of_singleton in Hin. subst sub. exact Heq.
Defined.

(** Eleven messages that are published before the subscription of a port of the
    default capacity takes a turn: it never sees the first one, however long it
    runs. *)
Definition eleven : OutputPort (R := N) := foldl send watch [0; 1; 2; 3; 4; 5; 6; 7; 8; 9; 10]%N.
Lemma lagging_subscription_loses :
  mailbox <$> (Nat.iter 11 turn_first eleven).(subscriptions) = [[1; 2; 3; 4; 5; 6; 7; 8; 9; 10]%N] /\
  first_result (Nat.iter 11 turn_first eleven) = Received.Pending.
Proof. done. Qed.

End runs.
