(* ===== verification/Timers.v ===== *)
(** * Timers

    engine/src/util/timers.rs: the scheduler of named timers that the actors of
    the engine use. A timer is a task that sends a message to the actor when it
    elapses; the message may already be in the mailbox when the timer is
    cancelled or replaced, so each timer has a generation, and the scheduler
    tells current messages from stale ones. *)

From S2P Require Import Prelude.

Module TimeoutElapsed.
Record t {Key : Type} : Type := mk { key : Key; generation : N }.
Arguments t Key : clear implicits.
Arguments mk {Key} key generation.
End TimeoutElapsed.

Module TimerScheduler.

(** The timers with their generations, and the next generation. The tasks and
    the port they write to belong to the runtime. *)
Record t {Key : Type} `{EqDecision Key, !Countable Key} : Type := mk {
  timers : gmap Key N;
  generations : N;
}.
Arguments t Key {_ _}.
Arguments mk {Key _ _} timers generations.
Arguments timers {Key _ _} self : rename.
Arguments generations {Key _ _} self : rename.

Section scheduler.
Context {Key : Type} `{EqDecision Key, !Countable Key}.
Implicit Types (self : t Key) (key : Key).

Definition new : t Key := mk ∅ 1.

Definition cancel self key : t Key := mk (delete key self.(timers)) self.(generations).

Definition cancel_all self : t Key := mk ∅ self.(generations).

Definition is_timer_active self key : bool := bool_decide (is_Some (self.(timers) !! key)).

(** [RangeFrom::next] steps the range past the generation it returns. *)
Definition start_timer self key : outcome (t Key) :=
  let self := cancel self key in
  let generation := self.(generations) in
  next ← add_u64 generation 1;
  Ret (mk (<[key := generation]> self.(timers)) next).

Definition intercept_timer_msg self (timer_msg : TimeoutElapsed.t Key) : t Key * option Key :=
  let key := timer_msg.(TimeoutElapsed.key) in
  match self.(timers) !! key with
  | None => (self, None)
  | Some generation =>
      if negb (timer_msg.(TimeoutElapsed.generation) =? generation)%N then (self, None)
      else (mk (delete key self.(timers)) self.(generations), Some key)
  end.

(** ** The contract

    A timer is current from its start until it is cancelled, replaced or
    intercepted. [history] lists the operations, most recent first; a start
    carries the generation it was given. *)
Inductive op : Type :=
  | Started (key : Key) (generation : N)
  | Cancelled (key : Key)
  | CancelledAll
  | Delivered (key : Key) (generation : N).

(** The current timer under a key. *)
Fixpoint current (history : list op) key : option N :=
  match history with
  | [] => None
  | o :: history =>
      match o with
      | Started k g => if decide (k = key) then Some g else current history key
      | Cancelled k => if decide (k = key) then None else current history key
      | CancelledAll => None
      | Delivered k g => if decide (k = key /\ current history key = Some g) then None else current history key
      end
  end.

(** The schedulers that occur, with their histories. *)
Inductive scheduled : t Key -> list op -> Prop :=
  | scheduled_new : scheduled new []
  | scheduled_start self self' history key :
      scheduled self history -> start_timer self key = Ret self' ->
      scheduled self' (Started key self.(generations) :: history)
  | scheduled_cancel self history key :
      scheduled self history -> scheduled (cancel self key) (Cancelled key :: history)
  | scheduled_cancel_all self history :
      scheduled self history -> scheduled (cancel_all self) (CancelledAll :: history)
  | scheduled_intercept self history msg :
      scheduled self history ->
      scheduled (intercept_timer_msg self msg).1
        (Delivered msg.(TimeoutElapsed.key) msg.(TimeoutElapsed.generation) :: history).

Lemma scheduled_current self history :
  scheduled self history -> forall key, self.(timers) !! key = current history key.
Proof.
  induction 1 as [|self self' history key' _ IH Hstart|self history key' _ IH|self history _ IH
    |self history [k g] _ IH]; intros key; cbn.
  - apply lookup_empty.
  - unfold start_timer in Hstart. inv_ret. cbn. rewrite lookup_insert. case_decide; [done|].
    rewrite lookup_delete_ne by done. apply IH.
  - rewrite lookup_delete. case_decide; [done|apply IH].
  - apply lookup_empty.
  - unfold intercept_timer_msg. cbn. rewrite (IH k). destruct (current history k) as [g'|] eqn:Hc.
    + destruct (N.eqb_spec g g') as [->|Hne]; cbn.
      * rewrite lookup_delete, (IH key). case_decide as Hk; [subst; by rewrite decide_True|].
        rewrite decide_False; [done|]. by intros [-> _].
      * rewrite (IH key). rewrite decide_False; [done|]. intros [-> ?]. congruence.
    + cbn. rewrite (IH key), decide_False; [done|]. intros [-> ?]. congruence.
Qed.

(** Generations are never reused: those of the history are below the next. *)
Definition started_generations (history : list op) : list N :=
  omap (fun o => match o with Started _ g => Some g | _ => None end) history.

Lemma scheduled_generations self history :
  scheduled self history ->
  NoDup (started_generations history) /\ forall g, g ∈ started_generations history -> (g < self.(generations))%N.
Proof.
  induction 1 as [|self self' history key' _ [IHn IHg] Hstart|self history key' _ IH|self history _ IH
    |self history [k g] _ IH]; cbn.
  - split; [constructor|]. by intros g ?%not_elem_of_nil.
  - unfold start_timer in Hstart. inv_ret. cbn. split.
    + constructor; [|done]. intros Hin%IHg. lia.
    + intros g [->|Hin%IHg]%elem_of_cons; lia.
  - exact IH.
  - exact IH.
  - destruct IH as [IHn IHg]. split; [exact IHn|]. intros g' Hg'. specialize (IHg g' Hg').
    unfold intercept_timer_msg. cbn. repeat case_match; done.
Qed.

(** a timer's message is taken for a timeout exactly if the timer is
    current, that is, its key was last started with this generation and has
    not been cancelled, replaced or intercepted since; no two timers share a
    generation, so that no message of an old timer is taken for that of a new
    one, and a message that was taken once is not taken again. *)
Theorem intercept_current_only (self : t Key) (history : list op) (msg : TimeoutElapsed.t Key)
  (Hs : scheduled self history) :
  let '(self', taken) := intercept_timer_msg self msg in
  (taken = Some msg.(TimeoutElapsed.key) <->
     current history msg.(TimeoutElapsed.key) = Some msg.(TimeoutElapsed.generation)) /\
  (taken = None \/ taken = Some msg.(TimeoutElapsed.key)) /\
  NoDup (started_generations history) /\ (intercept_timer_msg self' msg).2 = None.
Proof.
  pose proof (scheduled_current _ _ Hs msg.(TimeoutElapsed.key)) as Hc.
  pose proof (scheduled_generations _ _ Hs) as [Hn _].
  unfold intercept_timer_msg at 1. rewrite Hc.
  destruct (current history _) as [g|] eqn:Hg; [destruct (N.eqb_spec msg.(TimeoutElapsed.generation) g) as [->|Hne]|];
    cbn [negb].
  - split_and!; [done|by right|done|]. unfold intercept_timer_msg. cbn. by rewrite lookup_delete_eq.
  - split_and!; [split; [done|congruence]|by left|done|]. unfold intercept_timer_msg. rewrite Hc.
    by rewrite (proj2 (N.eqb_neq _ _)).
  - split_and!; [done|by left|done|]. unfold intercept_timer_msg. by rewrite Hc.
Qed.

End scheduler.
End TimerScheduler.

(** Two starts under one key: the message of the first comes too late. *)
Lemma intercept_current_only_witness :
  exists self, TimerScheduler.intercept_timer_msg self (TimeoutElapsed.mk 7%N 1) = (self, None).
Proof.
  pose (s0 := TimerScheduler.new (Key := N)).
  pose (s1 := get_ret s0 (TimerScheduler.start_timer s0 7%N)).
  pose (s2 := get_ret s1 (TimerScheduler.start_timer s1 7%N)).
  assert (H2 : TimerScheduler.scheduled s2
    [TimerScheduler.Started 7%N (TimerScheduler.generations s1); TimerScheduler.Started 7%N (TimerScheduler.generations s0)]).
  { apply (TimerScheduler.scheduled_start s1 s2); [apply (TimerScheduler.scheduled_start s0 s1); [constructor|]|]; vm_refl. }
  exists s2. pose proof (TimerScheduler.intercept_current_only s2 _ (TimeoutElapsed.mk 7%N 1) H2) as H.
  destruct (TimerScheduler.intercept_timer_msg s2 (TimeoutElapsed.mk 7%N 1)) as [s' taken] eqn:He.
  destruct H as ([H _] & [->|H'] & _); [|by apply H in H'].
  f_equal. by vm_compute in He; injection He as <-.
Defined.
