(* ===== verification/Network.v ===== *)
(** * The network layer

    network/src: the channels and their topics (channel.rs), publishing and
    subscribing (pubsub.rs), which protocols a configuration enables
    (behaviour.rs), the control messages (lib.rs, handle.rs) and the events of
    the swarm that become events of the node (lib.rs). The swarm and its
    protocols are third-party: what they are asked to do are effects, what they
    report are inputs; the calls of the peer discovery are effects too. Topics are
    the channel names, which is how both protocols identify them. *)

From S2P Require Import Prelude Bytes ConsensusTypes Coroutine.

(** ** Channels (channel.rs) *)

Module ChannelNames.
Record t : Type := mk { consensus : string; proposal_parts : string; sync : string; liveness : string }.
Definition default : t := mk "/consensus" "/proposal_parts" "/sync" "/liveness".
End ChannelNames.

Module Channel.
Inductive t : Type := Consensus | Liveness | ProposalParts | Sync.

#[global] Instance t_eq_dec : EqDecision t.
Proof. solve_decision. Defined.

Definition all : list t := [Consensus; ProposalParts; Sync; Liveness].
Definition consensus : list t := [Consensus; ProposalParts; Liveness].

Definition as_str (self : t) (channel_names : ChannelNames.t) : string :=
  match self with
  | Consensus => channel_names.(ChannelNames.consensus)
  | ProposalParts => channel_names.(ChannelNames.proposal_parts)
  | Sync => channel_names.(ChannelNames.sync)
  | Liveness => channel_names.(ChannelNames.liveness)
  end.

Definition to_gossipsub_topic := as_str.
Definition to_broadcast_topic := as_str.

Definition from_gossipsub_topic_hash (topic : string) (channel_names : ChannelNames.t) : option t :=
  if bool_decide (topic = to_gossipsub_topic Consensus channel_names) then Some Consensus
  else if bool_decide (topic = to_gossipsub_topic ProposalParts channel_names) then Some ProposalParts
  else if bool_decide (topic = to_gossipsub_topic Sync channel_names) then Some Sync
  else if bool_decide (topic = to_gossipsub_topic Liveness channel_names) then Some Liveness
  else None.

Definition from_broadcast_topic (topic : string) (channel_names : ChannelNames.t) : option t :=
  if bool_decide (topic = to_broadcast_topic Consensus channel_names) then Some Consensus
  else if bool_decide (topic = to_broadcast_topic ProposalParts channel_names) then Some ProposalParts
  else if bool_decide (topic = to_broadcast_topic Sync channel_names) then Some Sync
  else if bool_decide (topic = to_broadcast_topic Liveness channel_names) then Some Liveness
  else None.
End Channel.

(** ** Configuration (lib.rs, behaviour.rs) *)

Definition Multiaddr : Type := string.

Module PubSubProtocol.
Inductive t : Type := GossipSub | Broadcast.
Definition is_gossipsub (self : t) : bool := match self with GossipSub => true | Broadcast => false end.
Definition is_broadcast (self : t) : bool := match self with Broadcast => true | GossipSub => false end.
End PubSubProtocol.

(** The fields that the handlers read. *)
Module NetworkConfig.
Record t : Type := mk {
  listen_addr : Multiaddr;
  pubsub_protocol : PubSubProtocol.t;
  channel_names : ChannelNames.t;
  enable_consensus : bool;
  enable_sync : bool;
  consensus_protocol : string;
}.
End NetworkConfig.

(** Which protocols are switched on ([Behaviour::new_with_metrics]). *)
Module Behaviour.
Record t : Type := mk { gossipsub : bool; broadcast : bool; sync : bool }.

Definition new (config : NetworkConfig.t) : t :=
  mk (PubSubProtocol.is_gossipsub config.(NetworkConfig.pubsub_protocol) && config.(NetworkConfig.enable_consensus))
     ((PubSubProtocol.is_broadcast config.(NetworkConfig.pubsub_protocol) && config.(NetworkConfig.enable_consensus))
      || config.(NetworkConfig.enable_sync))
     config.(NetworkConfig.enable_sync).
End Behaviour.

(** ** Messages and events *)

(** The identifiers that the request-response protocol gives to requests, and
    the channel that answers one. *)
Definition P2pRequestId : Type := N.
Definition ResponseChannel : Type := N.

Module RawMessage.
Inductive t : Type :=
  | Request (request_id : P2pRequestId) (peer : PeerId) (body : bytes)
  | Response (request_id : P2pRequestId) (peer : PeerId) (body : bytes).
End RawMessage.

Module Event.
Inductive t : Type :=
  | Listening (address : Multiaddr)
  | PeerConnected (peer : PeerId)
  | PeerDisconnected (peer : PeerId)
  | ConsensusMessage (channel : Channel.t) (from : PeerId) (data : bytes)
  | LivenessMessage (channel : Channel.t) (from : PeerId) (data : bytes)
  | Sync (msg : RawMessage.t).
End Event.

Module CtrlMsg.
Inductive t : Type :=
  | Publish (channel : Channel.t) (data : bytes)
  | Broadcast (channel : Channel.t) (data : bytes)
  | SyncRequest (peer : PeerId) (data : bytes)
  | SyncReply (request_id : P2pRequestId) (data : bytes)
  | Shutdown.
End CtrlMsg.

(** What the swarm, the peer discovery and the channel to the node are asked to
    do, and the answers. *)
Module SwarmCall.
Inductive t : Type :=
  | ListenOn (address : Multiaddr)
  | GossipPublish (topic : string) (data : bytes)
  | BroadcastSend (topic : string) (data : bytes)
  | GossipSubscribe (topic : string)
  | BroadcastSubscribe (topic : string)
  | SendRequest (peer : PeerId) (data : bytes)
  | SendResponse (channel : ResponseChannel) (data : bytes)
  | ReplyRequestId (request_id : P2pRequestId)
  | SendEvent (event : Event.t)
  | HandleConnection (peer : PeerId) (connection_id : N)
  | HandleFailedConnection (connection_id : N)
  | HandleClosedConnection (peer : PeerId) (connection_id : N)
  | HandleNewPeer (peer : PeerId) (connection_id : N)
  | OnDiscoveryEvent
  | DialPeer
  | PeersRequestPeer
  | ConnectRequestPeer
  | CloseConnection
  | DialBootstrapNodes.
End SwarmCall.

Module SwarmReply.
Inductive t : Type :=
  | Ok
  | Error
  | RequestId (request_id : P2pRequestId)
  | AlreadyConnected (connected : bool).
End SwarmReply.

(** What the swarm reports. *)
Module GossipEvent.
Inductive t : Type :=
  | Subscribed (peer : PeerId) (topic : string)
  | Unsubscribed (peer : PeerId) (topic : string)
  | Message (source : option PeerId) (topic : string) (data : bytes)
  | SlowPeer (peer : PeerId)
  | GossipsubNotSupported (peer : PeerId).
End GossipEvent.

Module BroadcastEvent.
Inductive t : Type :=
  | Subscribed (peer : PeerId) (topic : string)
  | Unsubscribed (peer : PeerId) (topic : string)
  | Received (peer : PeerId) (topic : string) (data : bytes).
End BroadcastEvent.

Module SyncEvent.
Inductive t : Type :=
  | Request (peer : PeerId) (request_id : P2pRequestId) (request : bytes) (channel : ResponseChannel)
  | Response (peer : PeerId) (request_id : P2pRequestId) (response : bytes)
  | ResponseSent
  | OutboundFailure
  | InboundFailure.
End SyncEvent.

Module SwarmEvent.
Inductive t : Type :=
  | NewListenAddr (address : Multiaddr)
  | ConnectionEstablished (peer : PeerId) (connection_id : N)
  | OutgoingConnectionError (connection_id : N)
  | ConnectionClosed (peer : PeerId) (connection_id : N) (num_established : N)
  | IdentifySent (peer : PeerId)
  | IdentifyReceived (connection_id : N) (peer : PeerId) (protocol_version : string)
  | IdentifyOther
  | Ping (peer : PeerId)
  | GossipSub (event : GossipEvent.t)
  | Broadcast (event : BroadcastEvent.t)
  | Sync (event : SyncEvent.t)
  | Discovery
  | Other.
End SwarmEvent.

(** [ControlFlow]. *)
Inductive ControlFlow : Type := Continue | Break.

Module NetworkState.
Record t : Type := mk { sync_channels : gmap P2pRequestId ResponseChannel; behaviour : Behaviour.t }.
Definition new (config : NetworkConfig.t) : t := mk ∅ (Behaviour.new config).
End NetworkState.

Abbreviation NetM := (handler SwarmCall.t SwarmReply.t NetworkState.t string).

Definition succeeded (r : SwarmReply.t) : bool := match r with SwarmReply.Error => false | _ => true end.

(** [swarm....?]. *)
Definition try_swarm (c : SwarmCall.t) : NetM unit :=
  r ← yield_ c; if succeeded r then mret tt else fail "swarm error".

(** Calls whose answer is not looked at. *)
Definition ask (c : SwarmCall.t) : NetM unit := _ ← yield_ c; mret tt.

(** ** Publishing and subscribing (pubsub.rs) *)

Fixpoint for_channels (f : Channel.t -> NetM unit) (channels : list Channel.t) : NetM unit :=
  match channels with
  | [] => mret tt
  | channel :: channels => _ ← f channel; for_channels f channels
  end.

Definition subscribe (protocol : PubSubProtocol.t) (channels : list Channel.t)
    (channel_names : ChannelNames.t) : NetM unit :=
  state ← get_state;
  match protocol with
  | PubSubProtocol.GossipSub =>
      if state.(NetworkState.behaviour).(Behaviour.gossipsub) then
        for_channels (fun c => try_swarm (SwarmCall.GossipSubscribe (Channel.to_gossipsub_topic c channel_names)))
          channels
      else fail "GossipSub not enabled"
  | PubSubProtocol.Broadcast =>
      if state.(NetworkState.behaviour).(Behaviour.broadcast) then
        for_channels (fun c => ask (SwarmCall.BroadcastSubscribe (Channel.to_broadcast_topic c channel_names)))
          channels
      else fail "Broadcast not enabled"
  end.

Definition publish (protocol : PubSubProtocol.t) (channel : Channel.t) (channel_names : ChannelNames.t)
    (data : bytes) : NetM unit :=
  state ← get_state;
  match protocol with
  | PubSubProtocol.GossipSub =>
      if state.(NetworkState.behaviour).(Behaviour.gossipsub) then
        try_swarm (SwarmCall.GossipPublish (Channel.to_gossipsub_topic channel channel_names) data)
      else fail "GossipSub not enabled"
  | PubSubProtocol.Broadcast =>
      if state.(NetworkState.behaviour).(Behaviour.broadcast) then
        ask (SwarmCall.BroadcastSend (Channel.to_broadcast_topic channel channel_names) data)
      else fail "Broadcast not enabled"
  end.

(** ** Control messages: errors are logged. *)
Definition handle_ctrl_msg (config : NetworkConfig.t) (msg : CtrlMsg.t) : NetM ControlFlow :=
  match msg with
  | CtrlMsg.Publish channel data =>
      _ ← catch (publish config.(NetworkConfig.pubsub_protocol) channel config.(NetworkConfig.channel_names) data);
      mret Continue
  | CtrlMsg.Broadcast channel data =>
      if bool_decide (channel = Channel.Sync) && negb config.(NetworkConfig.enable_sync) then mret Continue
      else
        _ ← catch (publish PubSubProtocol.Broadcast channel config.(NetworkConfig.channel_names) data);
        mret Continue
  | CtrlMsg.SyncRequest peer data =>
      state ← get_state;
      if state.(NetworkState.behaviour).(Behaviour.sync) then
        r ← yield_ (SwarmCall.SendRequest peer data);
        match r with
        | SwarmReply.RequestId request_id =>
            _ ← ask (SwarmCall.ReplyRequestId request_id); mret Continue
        | _ => mret Continue
        end
      else mret Continue
  | CtrlMsg.SyncReply request_id data =>
      state ← get_state;
      if state.(NetworkState.behaviour).(Behaviour.sync) then
        match state.(NetworkState.sync_channels) !! request_id with
        | None => mret Continue
        | Some channel =>
            _ ← put_state (NetworkState.mk (delete request_id state.(NetworkState.sync_channels))
                             state.(NetworkState.behaviour));
            _ ← ask (SwarmCall.SendResponse channel data);
            mret Continue
        end
      else mret Continue
  | CtrlMsg.Shutdown => mret Break
  end.

(** ** Events of the swarm *)

(** [if let Err(e) = tx_event.send(event).await { return Break }]. *)
Definition send_event (event : Event.t) : NetM ControlFlow :=
  r ← yield_ (SwarmCall.SendEvent event);
  mret (if succeeded r then Continue else Break).

Definition message_event (channel : Channel.t) (from : PeerId) (data : bytes) : Event.t :=
  if bool_decide (channel = Channel.Liveness) then Event.LivenessMessage channel from data
  else Event.ConsensusMessage channel from data.

Definition handle_gossipsub_event (config : NetworkConfig.t) (event : GossipEvent.t) : NetM ControlFlow :=
  match event with
  | GossipEvent.Message (Some peer_id) topic data =>
      match Channel.from_gossipsub_topic_hash topic config.(NetworkConfig.channel_names) with
      | Some channel => send_event (message_event channel peer_id data)
      | None => mret Continue
      end
  | GossipEvent.Message None _ _ => mret Continue
  | GossipEvent.Subscribed _ _ | GossipEvent.Unsubscribed _ _ => mret Continue
  | GossipEvent.SlowPeer _ | GossipEvent.GossipsubNotSupported _ => mret Continue
  end.

Definition handle_broadcast_event (config : NetworkConfig.t) (event : BroadcastEvent.t) : NetM ControlFlow :=
  match event with
  | BroadcastEvent.Received peer_id topic data =>
      match Channel.from_broadcast_topic topic config.(NetworkConfig.channel_names) with
      | Some channel => send_event (message_event channel peer_id data)
      | None => mret Continue
      end
  | BroadcastEvent.Subscribed _ _ | BroadcastEvent.Unsubscribed _ _ => mret Continue
  end.

(** Here failures to send the event are ignored. *)
Definition handle_sync_event (event : SyncEvent.t) : NetM ControlFlow :=
  match event with
  | SyncEvent.Request peer request_id request channel =>
      state ← get_state;
      _ ← put_state (NetworkState.mk (<[request_id := channel]> state.(NetworkState.sync_channels))
                       state.(NetworkState.behaviour));
      _ ← ask (SwarmCall.SendEvent (Event.Sync (RawMessage.Request request_id peer request)));
      mret Continue
  | SyncEvent.Response peer request_id response =>
      _ ← ask (SwarmCall.SendEvent (Event.Sync (RawMessage.Response request_id peer response)));
      mret Continue
  | SyncEvent.ResponseSent | SyncEvent.OutboundFailure | SyncEvent.InboundFailure => mret Continue
  end.

Definition handle_swarm_event (config : NetworkConfig.t) (event : SwarmEvent.t) : NetM ControlFlow :=
  match event with
  | SwarmEvent.NewListenAddr address => send_event (Event.Listening address)
  | SwarmEvent.ConnectionEstablished peer_id connection_id =>
      _ ← ask (SwarmCall.HandleConnection peer_id connection_id); mret Continue
  | SwarmEvent.OutgoingConnectionError connection_id =>
      _ ← ask (SwarmCall.HandleFailedConnection connection_id); mret Continue
  | SwarmEvent.ConnectionClosed peer_id connection_id num_established =>
      _ ← ask (SwarmCall.HandleClosedConnection peer_id connection_id);
      if (num_established =? 0)%N then send_event (Event.PeerDisconnected peer_id) else mret Continue
  | SwarmEvent.IdentifyReceived connection_id peer_id protocol_version =>
      if bool_decide (protocol_version = config.(NetworkConfig.consensus_protocol)) then
        r ← yield_ (SwarmCall.HandleNewPeer peer_id connection_id);
        match r with
        | SwarmReply.AlreadyConnected true => mret Continue
        | _ => send_event (Event.PeerConnected peer_id)
        end
      else mret Continue
  | SwarmEvent.IdentifySent _ | SwarmEvent.IdentifyOther | SwarmEvent.Ping _ => mret Continue
  | SwarmEvent.GossipSub event => handle_gossipsub_event config event
  | SwarmEvent.Broadcast event => handle_broadcast_event config event
  | SwarmEvent.Sync event => handle_sync_event event
  | SwarmEvent.Discovery => _ ← ask SwarmCall.OnDiscoveryEvent; mret Continue
  | SwarmEvent.Other => mret Continue
  end.

(** ** The network task *)

(** What one turn of the loop selects. *)
Module Turn.
Inductive t : Type :=
  | Swarm (event : SwarmEvent.t)
  | Dial
  | PeersRequest
  | ConnectRequest
  | Close
  | Ctrl (msg : CtrlMsg.t)
  | PersistentPeerTick.
End Turn.

Definition turn (config : NetworkConfig.t) (t : Turn.t) : NetM ControlFlow :=
  match t with
  | Turn.Swarm event => handle_swarm_event config event
  | Turn.Dial => _ ← ask SwarmCall.DialPeer; mret Continue
  | Turn.PeersRequest => _ ← ask SwarmCall.PeersRequestPeer; mret Continue
  | Turn.ConnectRequest => _ ← ask SwarmCall.ConnectRequestPeer; mret Continue
  | Turn.Close => _ ← ask SwarmCall.CloseConnection; mret Continue
  | Turn.Ctrl msg => handle_ctrl_msg config msg
  | Turn.PersistentPeerTick => _ ← ask SwarmCall.DialBootstrapNodes; mret Continue
  end.

Fixpoint turns (config : NetworkConfig.t) (ts : list Turn.t) : NetM unit :=
  match ts with
  | [] => mret tt
  | t :: ts =>
      flow ← turn config t;
      match flow with Continue => turns config ts | Break => mret tt end
  end.

(** An error before the loop ends the task. *)
Definition run (config : NetworkConfig.t) (ts : list Turn.t) : NetM unit :=
  _ ← try_swarm (SwarmCall.ListenOn config.(NetworkConfig.listen_addr));
  _ ← when config.(NetworkConfig.enable_consensus)
        (subscribe config.(NetworkConfig.pubsub_protocol) Channel.consensus config.(NetworkConfig.channel_names));
  _ ← when config.(NetworkConfig.enable_sync)
        (subscribe PubSubProtocol.Broadcast [Channel.Sync] config.(NetworkConfig.channel_names));
  turns config ts.

(** ** Topics identify channels *)

(** The four names are different. *)
Definition names_distinct (names : ChannelNames.t) : Prop :=
  NoDup ((fun c => Channel.as_str c names) <$> Channel.all).

Lemma names_inj names c c' :
  names_distinct names -> Channel.as_str c names = Channel.as_str c' names -> c = c'.
Proof.
  unfold names_distinct. intros Hn Heq. repeat (apply NoDup_cons in Hn as [? Hn]).
  destruct c, c'; cbn in *; done || (exfalso; set_solver).
Qed.

Lemma channel_gossipsub_roundtrip names c :
  names_distinct names -> Channel.from_gossipsub_topic_hash (Channel.to_gossipsub_topic c names) names = Some c.
Proof.
  intros Hn. unfold Channel.from_gossipsub_topic_hash, Channel.to_gossipsub_topic.
  repeat (case_bool_decide; [match goal with H : _ = _ |- _ => apply (names_inj _ _ _ Hn) in H; by subst end|]).
  by destruct c.
Qed.

Lemma channel_broadcast_roundtrip names c :
  names_distinct names -> Channel.from_broadcast_topic (Channel.to_broadcast_topic c names) names = Some c.
Proof. apply channel_gossipsub_roundtrip. Qed.
