(* ===== verification/Discovery.v ===== *)
(** * Peer discovery

    discovery/src: the retries with their delays (util.rs), what is dialled and
    requested (dial.rs, request.rs), the queues of actions (controller.rs), the
    configuration (config.rs), the selection of outbound peers
    (handlers/selection) and the handlers of the events of the network task
    (lib.rs, handlers), which calls them from network/src/lib.rs.

    What the swarm is asked, or asked to do, are effects. The order in which a
    hash map is iterated and what the random number generator draws are answers
    to an effect of their own; any answer stands for some order. Metrics and
    logging are left out. Durations are in milliseconds. *)

From S2P Require Import Prelude Bytes ConsensusTypes Coroutine Network.

Definition ConnectionId : Type := N.
Definition OutboundRequestId : Type := N.

(** ** Retries (util.rs) *)

Module FibonacciBackoff.
Record t : Type := mk { current : N; next : N }.
#[global] Instance t_eq_dec : EqDecision t.
Proof. solve_decision. Defined.
Definition new : t := mk 1000 1000.
Definition advance (self : t) : outcome (N * t) :=
  new_next ← add_u64 self.(current) self.(next);
  Ret (self.(next), mk self.(next) new_next).
End FibonacciBackoff.

Module Retry.
Record t : Type := mk { count : N; backoff : FibonacciBackoff.t }.
#[global] Instance t_eq_dec : EqDecision t.
Proof. solve_decision. Defined.
Definition new : t := mk 0 FibonacciBackoff.new.
Definition inc_count (self : t) : outcome t :=
  count ← add_u64 self.(count) 1; Ret (mk count self.(backoff)).
Definition next_delay (self : t) : outcome (N * t) :=
  '(delay, backoff) ← FibonacciBackoff.advance self.(backoff); Ret (delay, mk self.(count) backoff).
End Retry.

Module DialData.
Record t : Type := mk { peer_id : option PeerId; listen_addrs : list Multiaddr; retry : Retry.t }.
#[global] Instance t_eq_dec : EqDecision t.
Proof. solve_decision. Defined.
Definition new (peer_id : option PeerId) (listen_addrs : list Multiaddr) : t := mk peer_id listen_addrs Retry.new.
Definition set_peer_id (self : t) (peer_id : PeerId) : t := mk (Some peer_id) self.(listen_addrs) self.(retry).
Definition set_retry (self : t) (retry : Retry.t) : t := mk self.(peer_id) self.(listen_addrs) retry.

(** The addresses to dial: all of a known peer, the first of an unknown one. *)
Definition build_dial_opts (self : t) : option (option PeerId * list Multiaddr) :=
  match self.(listen_addrs) with
  | [] => None
  | addr :: _ =>
      match self.(peer_id) with
      | Some peer_id => Some (Some peer_id, self.(listen_addrs))
      | None => Some (None, [addr])
      end
  end.
End DialData.

Module RequestData.
Record t : Type := mk { peer_id : PeerId; retry : Retry.t }.
#[global] Instance t_eq_dec : EqDecision t.
Proof. solve_decision. Defined.
Definition new (peer_id : PeerId) : t := mk peer_id Retry.new.
Definition set_retry (self : t) (retry : Retry.t) : t := mk self.(peer_id) retry.
End RequestData.

(** ** Configuration (config.rs) *)

Module BootstrapProtocol.
Inductive t : Type := Kademlia | Full.
#[global] Instance t_eq_dec : EqDecision t.
Proof. solve_decision. Defined.
End BootstrapProtocol.

Module SelectorKind.
Inductive t : Type := Kademlia | Random.
#[global] Instance t_eq_dec : EqDecision t.
Proof. solve_decision. Defined.
End SelectorKind.

Module DiscoveryConfig.
Record t : Type := mk {
  enabled : bool;
  bootstrap_protocol : BootstrapProtocol.t;
  selector : SelectorKind.t;
  num_outbound_peers : N;
  num_inbound_peers : N;
  max_connections_per_peer : N;
  ephemeral_connection_timeout : N;
  dial_max_retries : N;
  request_max_retries : N;
  connect_request_max_retries : N;
}.
#[global] Instance t_eq_dec : EqDecision t.
Proof. solve_decision. Defined.

Definition default : t := mk true BootstrapProtocol.Kademlia SelectorKind.Kademlia 20 20 5 15000 5 5 0.

Definition new (enabled : bool) : t :=
  mk enabled default.(bootstrap_protocol) default.(selector) default.(num_outbound_peers)
     default.(num_inbound_peers) default.(max_connections_per_peer) default.(ephemeral_connection_timeout)
     default.(dial_max_retries) default.(request_max_retries) default.(connect_request_max_retries).

Definition set_bootstrap_protocol (self : t) (protocol : BootstrapProtocol.t) : t :=
  mk self.(enabled) protocol self.(selector) self.(num_outbound_peers) self.(num_inbound_peers)
     self.(max_connections_per_peer) self.(ephemeral_connection_timeout) self.(dial_max_retries)
     self.(request_max_retries) self.(connect_request_max_retries).

Definition set_selector (self : t) (selector : SelectorKind.t) : t :=
  mk self.(enabled) self.(bootstrap_protocol) selector self.(num_outbound_peers) self.(num_inbound_peers)
     self.(max_connections_per_peer) self.(ephemeral_connection_timeout) self.(dial_max_retries)
     self.(request_max_retries) self.(connect_request_max_retries).

Definition set_peers_bounds (self : t) (num_outbound_peers num_inbound_peers : N) : outcome t :=
  _ ← assert_that (num_outbound_peers <=? num_inbound_peers)%N
        "Number of inbound peers should be greater than or equal to number of outbound peers";
  Ret (mk self.(enabled) self.(bootstrap_protocol) self.(selector) num_outbound_peers num_inbound_peers
         self.(max_connections_per_peer) self.(ephemeral_connection_timeout) self.(dial_max_retries)
         self.(request_max_retries) self.(connect_request_max_retries)).
End DiscoveryConfig.

(** ** Queues of actions (controller.rs)

    [queue] is the channel of values to act on; [delayed] are the tasks that
    sleep before they send their value to the channel. *)

Module Action.
Record t {T U V : Type} `{Countable T, Countable U} : Type := mk {
  queue : list V;
  delayed : list (N * V);
  done_on : gset T;
  concurrent_factor : N;
  in_progress : gmap U V;
}.
Arguments t T U V {_ _ _ _}.

Section action.
Context {T U V : Type} `{Countable T, Countable U}.
Implicit Types (self : t T U V).

#[global] Instance t_eq_dec `{EqDecision V} : EqDecision (t T U V).
Proof. solve_decision. Defined.

Definition new (concurrent_factor : N) : t T U V := mk _ _ V _ _ _ _ [] [] ∅ concurrent_factor ∅.

Definition set_queue self (queue : list V) : t T U V :=
  mk _ _ _ _ _ _ _ queue self.(delayed) self.(done_on) self.(concurrent_factor) self.(in_progress).
Definition set_delayed self (delayed : list (N * V)) : t T U V :=
  mk _ _ _ _ _ _ _ self.(queue) delayed self.(done_on) self.(concurrent_factor) self.(in_progress).
Definition set_done_on self (done_on : gset T) : t T U V :=
  mk _ _ _ _ _ _ _ self.(queue) self.(delayed) done_on self.(concurrent_factor) self.(in_progress).
Definition set_in_progress self (in_progress : gmap U V) : t T U V :=
  mk _ _ _ _ _ _ _ self.(queue) self.(delayed) self.(done_on) self.(concurrent_factor) in_progress.

Definition add_to_queue self (value : V) (delay : option N) : t T U V :=
  match delay with
  | None => set_queue self (self.(queue) ++ [value])
  | Some delay => set_delayed self (self.(delayed) ++ [(delay, value)])
  end.

Definition queue_len self : N := N.of_nat (length self.(queue)).

Definition recv self : option (V * t T U V) :=
  match self.(queue) with [] => None | value :: queue => Some (value, set_queue self queue) end.

(** A task wakes up and sends its value. *)
Definition wake (i : nat) self : t T U V :=
  match self.(delayed) !! i with
  | Some (_, value) => set_queue (set_delayed self (delete i self.(delayed))) (self.(queue) ++ [value])
  | None => self
  end.

Definition register_done_on self (key : T) : t T U V := set_done_on self ({[key]} ∪ self.(done_on)).
Definition is_done_on self (key : T) : bool := bool_decide (key ∈ self.(done_on)).
Definition remove_done_on self (key : T) : t T U V := set_done_on self (self.(done_on) ∖ {[key]}).
Definition can_perform self : bool := (N.of_nat (base.size self.(in_progress)) <? self.(concurrent_factor))%N.
Definition register_in_progress self (key : U) (value : V) : t T U V :=
  set_in_progress self (<[key := value]> self.(in_progress)).
Definition is_in_progress self (key : U) : bool := bool_decide (is_Some (self.(in_progress) !! key)).
Definition remove_in_progress self (key : U) : option V * t T U V :=
  (self.(in_progress) !! key, set_in_progress self (delete key self.(in_progress))).
Definition is_idle self : bool := bool_decide (self.(in_progress) = ∅).
End action.
End Action.

Module PeerData.
Inductive t : Type := PeerId (peer_id : PeerId) | Multiaddr (addr : Multiaddr).
#[global] Instance t_eq_dec : EqDecision t.
Proof. solve_decision. Defined.
#[global] Instance t_countable : Countable t.
Proof.
  refine (inj_countable' (fun x => match x with PeerId p => inl p | Multiaddr a => inr a end)
            (fun y => match y with inl p => PeerId p | inr a => Multiaddr a end) _).
  by intros [].
Defined.
End PeerData.

Module Controller.
Record t : Type := mk {
  dial : Action.t PeerData.t ConnectionId DialData.t;
  peers_request : Action.t PeerId OutboundRequestId RequestData.t;
  connect_request : Action.t PeerId OutboundRequestId RequestData.t;
  close : Action.t unit unit (PeerId * ConnectionId);
}.
#[global] Instance t_eq_dec : EqDecision t.
Proof. solve_decision. Defined.

Definition DEFAULT_DIAL_CONCURRENT_FACTOR : N := 20.
Definition DEFAULT_PEERS_REQUEST_CONCURRENT_FACTOR : N := 20.
Definition DEFAULT_CONNECT_REQUEST_CONCURRENT_FACTOR : N := 100.
Definition DEFAULT_CLOSE_CONCURRENT_FACTOR : N := U64_MAX.

Definition new : t :=
  mk (Action.new DEFAULT_DIAL_CONCURRENT_FACTOR) (Action.new DEFAULT_PEERS_REQUEST_CONCURRENT_FACTOR)
     (Action.new DEFAULT_CONNECT_REQUEST_CONCURRENT_FACTOR) (Action.new DEFAULT_CLOSE_CONCURRENT_FACTOR).

Definition set_dial (self : t) dial : t :=
  mk dial self.(peers_request) self.(connect_request) self.(close).
Definition set_peers_request (self : t) peers_request : t :=
  mk self.(dial) peers_request self.(connect_request) self.(close).
Definition set_connect_request (self : t) connect_request : t :=
  mk self.(dial) self.(peers_request) connect_request self.(close).
Definition set_close (self : t) close : t :=
  mk self.(dial) self.(peers_request) self.(connect_request) close.

Definition dial_register_done_on (self : t) (dial_data : DialData.t) : t :=
  let dial := match dial_data.(DialData.peer_id) with
              | Some peer_id => Action.register_done_on self.(dial) (PeerData.PeerId peer_id)
              | None => self.(dial)
              end in
  set_dial self (foldl (fun dial addr => Action.register_done_on dial (PeerData.Multiaddr addr)) dial
                   dial_data.(DialData.listen_addrs)).

Definition dial_is_done_on (self : t) (dial_data : DialData.t) : bool :=
  match dial_data.(DialData.peer_id) with
  | Some peer_id => Action.is_done_on self.(dial) (PeerData.PeerId peer_id)
  | None => false
  end || existsb (fun addr => Action.is_done_on self.(dial) (PeerData.Multiaddr addr)) dial_data.(DialData.listen_addrs).

Definition dial_remove_done_addrs (self : t) (addrs : list Multiaddr) : t :=
  set_dial self (foldl (fun dial addr => Action.remove_done_on dial (PeerData.Multiaddr addr)) self.(dial) addrs).

Definition dial_clear_done_for_peer (self : t) (peer_id : PeerId) (listen_addrs : list Multiaddr) : t :=
  dial_remove_done_addrs (set_dial self (Action.remove_done_on self.(dial) (PeerData.PeerId peer_id))) listen_addrs.

Definition dial_add_peer_id_to_dial_data (self : t) (connection_id : ConnectionId) (peer_id : PeerId) : t :=
  match self.(dial).(Action.in_progress) !! connection_id with
  | Some dial_data =>
      set_dial self (Action.register_in_progress self.(dial) connection_id (DialData.set_peer_id dial_data peer_id))
  | None => self
  end.

(** The removed data is not looked at. *)
Definition dial_remove_matching_in_progress_connections (self : t) (peer_id : PeerId) : t :=
  set_dial self (Action.set_in_progress self.(dial)
    (filter (fun kv => kv.2.(DialData.peer_id) <> Some peer_id) self.(dial).(Action.in_progress))).

Definition is_idle (self : t) : bool := Action.is_idle self.(dial) && Action.is_idle self.(peers_request).
End Controller.

(** ** The state (lib.rs) *)

Module DState.
Inductive t : Type := Bootstrapping | Extending (target : N) | Idle.
#[global] Instance t_eq_dec : EqDecision t.
Proof. solve_decision. Defined.
End DState.

Module OutboundState.
Inductive t : Type := Pending | Confirmed.
#[global] Instance t_eq_dec : EqDecision t.
Proof. solve_decision. Defined.
End OutboundState.

(** [identify::Info], of which only the addresses are read. *)
Module Info.
Record t : Type := mk { listen_addrs : list Multiaddr }.
#[global] Instance t_eq_dec : EqDecision t.
Proof. solve_decision. Defined.
End Info.

(** A peer as it is told to others. *)
Abbreviation PeerAddrs := (option PeerId * list Multiaddr)%type.

Module Discovery.
Record t : Type := mk {
  config : DiscoveryConfig.t;
  state : DState.t;
  selector : SelectorKind.t;
  bootstrap_nodes : list PeerAddrs;
  discovered_peers : gmap PeerId Info.t;
  active_connections : gmap PeerId (list ConnectionId);
  outbound_peers : gmap PeerId OutboundState.t;
  inbound_peers : gset PeerId;
  controller : Controller.t;
}.
#[global] Instance t_eq_dec : EqDecision t.
Proof. solve_decision. Defined.

Definition set_state (self : t) state : t :=
  mk self.(config) state self.(selector) self.(bootstrap_nodes) self.(discovered_peers)
     self.(active_connections) self.(outbound_peers) self.(inbound_peers) self.(controller).
Definition set_bootstrap_nodes (self : t) bootstrap_nodes : t :=
  mk self.(config) self.(state) self.(selector) bootstrap_nodes self.(discovered_peers)
     self.(active_connections) self.(outbound_peers) self.(inbound_peers) self.(controller).
Definition set_discovered_peers (self : t) discovered_peers : t :=
  mk self.(config) self.(state) self.(selector) self.(bootstrap_nodes) discovered_peers
     self.(active_connections) self.(outbound_peers) self.(inbound_peers) self.(controller).
Definition set_active_connections (self : t) active_connections : t :=
  mk self.(config) self.(state) self.(selector) self.(bootstrap_nodes) self.(discovered_peers)
     active_connections self.(outbound_peers) self.(inbound_peers) self.(controller).
Definition set_outbound_peers (self : t) outbound_peers : t :=
  mk self.(config) self.(state) self.(selector) self.(bootstrap_nodes) self.(discovered_peers)
     self.(active_connections) outbound_peers self.(inbound_peers) self.(controller).
Definition set_inbound_peers (self : t) inbound_peers : t :=
  mk self.(config) self.(state) self.(selector) self.(bootstrap_nodes) self.(discovered_peers)
     self.(active_connections) self.(outbound_peers) inbound_peers self.(controller).
Definition set_controller (self : t) controller : t :=
  mk self.(config) self.(state) self.(selector) self.(bootstrap_nodes) self.(discovered_peers)
     self.(active_connections) self.(outbound_peers) self.(inbound_peers) controller.

Definition is_enabled (self : t) : bool := self.(config).(DiscoveryConfig.enabled).

Definition get_selector (is_enabled : bool) (bootstrap_protocol : BootstrapProtocol.t)
    (selector : SelectorKind.t) : outcome SelectorKind.t :=
  if is_enabled then
    match selector with
    | SelectorKind.Kademlia =>
        _ ← assert_that (bool_decide (bootstrap_protocol = BootstrapProtocol.Kademlia))
              "Kademlia selector is only available with the Kademlia bootstrap protocol";
        Ret SelectorKind.Kademlia
    | SelectorKind.Random => Ret SelectorKind.Random
    end
  else Ret SelectorKind.Random.

Definition new (config : DiscoveryConfig.t) (bootstrap_nodes : list Multiaddr) : outcome t :=
  let enabled := config.(DiscoveryConfig.enabled) in
  let state :=
    if enabled && bool_decide (bootstrap_nodes = []) then DState.Idle
    else if enabled then
      match config.(DiscoveryConfig.bootstrap_protocol) with
      | BootstrapProtocol.Kademlia => DState.Bootstrapping
      | BootstrapProtocol.Full => DState.Extending config.(DiscoveryConfig.num_outbound_peers)
      end
    else DState.Idle in
  selector ← get_selector enabled config.(DiscoveryConfig.bootstrap_protocol) config.(DiscoveryConfig.selector);
  Ret (mk config state selector ((fun addr => (None, [addr])) <$> bootstrap_nodes) ∅ ∅ ∅ ∅ Controller.new).

(** Excluded are the peers that are already outbound or have been requested to
    be so. *)
Definition excluded (self : t) (peer_id : PeerId) : bool :=
  bool_decide (is_Some (self.(outbound_peers) !! peer_id)) ||
  Action.is_done_on self.(controller).(Controller.connect_request) peer_id.
Definition get_excluded_peers (self : t) : list PeerId :=
  filter (fun peer_id => excluded self peer_id = true) (map_to_list self.(discovered_peers)).*1.
End Discovery.

(** ** Effects *)

Module DialError.
Inductive t : Type := LocalPeerId | NoAddresses | WrongPeerId | Other.
End DialError.

Module DiscoveryRequest.
Inductive t : Type := Peers (peers : gset PeerAddrs) | Connect.
End DiscoveryRequest.

Module DiscoveryResponse.
Inductive t : Type := Peers (peers : gset PeerAddrs) | Connect (accepted : bool).
End DiscoveryResponse.

(** What a handler reads from the swarm: its own identifier, the peers it is
    connected to and the addresses it listens on. *)
Module SwarmView.
Record t : Type := mk { local_peer_id : PeerId; connected : gset PeerId; listeners : list Multiaddr }.
End SwarmView.

Module DiscoveryCall.
Inductive t : Type :=
  | View
  | Kbuckets
  | Order
  | NewConnectionId
  | Dial (connection_id : ConnectionId) (peer_id : option PeerId) (addrs : list Multiaddr)
  | AddAddress (peer_id : PeerId) (addr : Multiaddr)
  | SendRequest (peer_id : PeerId) (request : DiscoveryRequest.t)
  | SendResponse (channel : ResponseChannel) (response : DiscoveryResponse.t)
  | CloseConnection (connection_id : ConnectionId).
End DiscoveryCall.

(** [Order]: the positions of the elements in the order in which they come. *)
Module DiscoveryReply.
Inductive t : Type :=
  | View (view : SwarmView.t)
  | Kbuckets (buckets : list (N * list PeerId))
  | Order (positions : list nat)
  | NewConnectionId (connection_id : ConnectionId)
  | RequestId (request_id : OutboundRequestId)
  | Result (error : option DialError.t).

Definition view (r : t) : SwarmView.t := match r with View view => view | _ => SwarmView.mk [] ∅ [] end.
Definition kbuckets (r : t) : list (N * list PeerId) := match r with Kbuckets buckets => buckets | _ => [] end.
Definition positions (r : t) : list nat := match r with Order positions => positions | _ => [] end.
Definition connection_id (r : t) : ConnectionId := match r with NewConnectionId id => id | _ => 0%N end.
Definition request_id (r : t) : OutboundRequestId := match r with RequestId id => id | _ => 0%N end.
Definition error (r : t) : option DialError.t := match r with Result error => error | _ => None end.
End DiscoveryReply.

Abbreviation DM := (handler DiscoveryCall.t DiscoveryReply.t Discovery.t Empty_set).

(** The elements of [l] in an order: the given positions first. *)
Definition reorder {A} (positions : list nat) (l : list A) : list A :=
  omap (fun i => l !! i) (remove_dups positions ++ filter (fun i => i ∉ positions) (seq 0 (length l))).

Definition in_some_order {A} (l : list A) : DM (list A) :=
  r ← yield_ DiscoveryCall.Order; mret (reorder (DiscoveryReply.positions r) l).

Definition update_controller (f : Controller.t -> Controller.t) : DM unit :=
  self ← get_state; put_state (Discovery.set_controller self (f self.(Discovery.controller))).

Definition add_connect_request (request_data : RequestData.t) (delay : option N) : DM unit :=
  update_controller (fun c => Controller.set_connect_request c
    (Action.add_to_queue c.(Controller.connect_request) request_data delay)).

Definition add_close (peer_id : PeerId) (connection_id : ConnectionId) (delay : option N) : DM unit :=
  update_controller (fun c => Controller.set_close c
    (Action.add_to_queue c.(Controller.close) (peer_id, connection_id) delay)).

(** ** Selection of outbound peers (handlers/selection) *)

Module Selection.
Inductive t : Type := Exactly (peers : list PeerId) | Only (peers : list PeerId) | None_.
End Selection.

(** One pass of the loop over the buckets: it breaks when there are [n]
    candidates, and takes from each bucket the first peer that is not a
    candidate yet. *)
Fixpoint bucket_pass (buckets : list (list PeerId)) (n : N) (candidates : list PeerId) : list PeerId :=
  match buckets with
  | [] => candidates
  | peers :: buckets =>
      if (n <=? N.of_nat (length candidates))%N then candidates
      else
        match List.find (fun peer_id => negb (bool_decide (peer_id ∈ candidates))) peers with
        | Some peer_id => bucket_pass buckets n (candidates ++ [peer_id])
        | None => bucket_pass buckets n candidates
        end
  end.

(** [cycle()]: passes until there are [n] candidates. *)
Fixpoint bucket_cycle (passes : nat) (buckets : list (list PeerId)) (n : N) (candidates : list PeerId)
    : option (list PeerId) :=
  if (n <=? N.of_nat (length candidates))%N then Some candidates
  else
    match passes with
    | 0%nat => None
    | S passes => bucket_cycle passes buckets n (bucket_pass buckets n candidates)
    end.

Section selection.
Context (discovered : gmap PeerId Info.t) (excluded : list PeerId) (n : N).

Definition discovered_len : N := N.of_nat (base.size discovered).
Definition not_excluded (peers : list PeerId) : list PeerId := filter (fun peer_id => peer_id ∉ excluded) peers.

(** KademliaSelector. A pass that adds no candidate is repeated for ever: [n]
    passes are enough if every one of them adds a candidate. *)
Definition kademlia_select : DM Selection.t :=
  if (n =? 0)%N then mret Selection.None_
  else
    r ← yield_ DiscoveryCall.Kbuckets;
    let buckets := (fun bucket => not_excluded bucket.2) <$> DiscoveryReply.kbuckets r in
    let total := N.of_nat (length (concat buckets)) in
    if (total <? n)%N then
      let candidates := concat buckets in
      let remaining := (n - N.of_nat (length candidates))%N in
      if (discovered_len <? remaining)%N then
        keys ← in_some_order (map_to_list discovered).*1;
        match candidates ++ keys with
        | [] => mret Selection.None_
        | candidates => mret (Selection.Only candidates)
        end
      else
        chosen ← in_some_order (not_excluded (filter (fun peer_id => peer_id ∉ candidates) (map_to_list discovered).*1));
        mret (Selection.Exactly (candidates ++ take (N.to_nat remaining) chosen))
    else
      match bucket_cycle (N.to_nat n) (reverse buckets) n [] with
      | Some candidates => mret (Selection.Exactly candidates)
      | None => out_of_fuel
      end.

(** RandomSelector. *)
Definition random_select : DM Selection.t :=
  if (n =? 0)%N then mret Selection.None_
  else
    shuffled ← in_some_order (not_excluded (map_to_list discovered).*1);
    let candidates := take (N.to_nat n) shuffled in
    if (length candidates =? 0)%nat then mret Selection.None_
    else if (N.of_nat (length candidates) <? n)%N then mret (Selection.Only candidates)
    else mret (Selection.Exactly candidates).
End selection.

Definition try_select_n_outbound_candidates (n : N) : DM Selection.t :=
  self ← get_state;
  match self.(Discovery.selector) with
  | SelectorKind.Kademlia => kademlia_select self.(Discovery.discovered_peers) (Discovery.get_excluded_peers self) n
  | SelectorKind.Random => random_select self.(Discovery.discovered_peers) (Discovery.get_excluded_peers self) n
  end.

(** ** Managing outbound peers (handlers/peers_management.rs, extension.rs) *)

Definition set_outbound (peer_id : PeerId) (state : OutboundState.t) : DM unit :=
  self ← get_state;
  put_state (Discovery.set_outbound_peers self (<[peer_id := state]> self.(Discovery.outbound_peers))).

Fixpoint add_outbound_candidates (peers : list PeerId) : DM unit :=
  match peers with
  | [] => mret tt
  | peer_id :: peers =>
      _ ← set_outbound peer_id OutboundState.Pending;
      _ ← add_connect_request (RequestData.new peer_id) None;
      add_outbound_candidates peers
  end.

Definition select_outbound_peers : DM unit :=
  self ← get_state;
  let n := (self.(Discovery.config).(DiscoveryConfig.num_outbound_peers)
            - N.of_nat (base.size self.(Discovery.outbound_peers)))%N in
  selection ← try_select_n_outbound_candidates n;
  match selection with
  | Selection.Exactly peers | Selection.Only peers =>
      _ ← add_outbound_candidates peers;
      self ← get_state;
      put_state (Discovery.set_inbound_peers self
        (filter (fun peer_id => self.(Discovery.outbound_peers) !! peer_id = None) self.(Discovery.inbound_peers)))
  | Selection.None_ => mret tt
  end.

Fixpoint close_connections (connections : list (PeerId * ConnectionId)) (delay : N) : DM unit :=
  match connections with
  | [] => mret tt
  | (peer_id, connection_id) :: connections =>
      _ ← add_close peer_id connection_id (Some delay); close_connections connections delay
  end.

(** The connections to the peers that are neither outbound nor inbound. *)
Definition connections_to_close (self : Discovery.t) (peers : list (PeerId * list ConnectionId))
    : list (PeerId * ConnectionId) :=
  '(peer_id, connection_ids) ← filter (fun kv => self.(Discovery.outbound_peers) !! kv.1 = None /\
                                                 kv.1 ∉ self.(Discovery.inbound_peers)) peers;
  (fun connection_id => (peer_id, connection_id)) <$> connection_ids.

Definition adjust_peers : DM unit :=
  self ← get_state;
  if negb (Discovery.is_enabled self) then mret tt
  else
    _ ← select_outbound_peers;
    self ← get_state;
    peers ← in_some_order (map_to_list self.(Discovery.active_connections));
    close_connections (connections_to_close self peers)
      self.(Discovery.config).(DiscoveryConfig.ephemeral_connection_timeout).

Definition get_next_peer_to_peers_request : DM (option PeerId) :=
  self ← get_state;
  peers ← in_some_order (map_to_list self.(Discovery.discovered_peers)).*1;
  mret (List.find (fun peer_id => negb (Action.is_done_on
          self.(Discovery.controller).(Controller.peers_request) peer_id)) peers).

(** The connected peers that were not asked for a persistent connection yet. *)
Definition extension_candidates (self : Discovery.t) : list PeerId :=
  filter (fun peer_id => Action.is_done_on self.(Discovery.controller).(Controller.connect_request) peer_id = false)
    (map_to_list self.(Discovery.active_connections)).*1.

Definition make_extension_step : DM unit :=
  self ← get_state;
  if negb (Discovery.is_enabled self) then mret tt
  else
    match self.(Discovery.state) with
    | DState.Extending target =>
        let controller := self.(Discovery.controller) in
        if Controller.is_idle controller && (Action.queue_len controller.(Controller.dial) =? 0)%N &&
           (Action.queue_len controller.(Controller.peers_request) =? 0)%N then
          next ← (if (N.of_nat (length (extension_candidates self)) <? target)%N
                  then get_next_peer_to_peers_request else mret None);
          match next with
          | Some peer_id =>
              update_controller (fun c => Controller.set_peers_request c
                (Action.add_to_queue c.(Controller.peers_request) (RequestData.new peer_id) None))
          | None =>
              _ ← adjust_peers;
              self ← get_state; put_state (Discovery.set_state self DState.Idle)
          end
        else mret tt
    | _ => mret tt
    end.

Definition initiate_extension_with_target (target : N) : DM unit :=
  self ← get_state;
  match self.(Discovery.state) with
  | DState.Extending curr_target =>
      target ← lift (add_u64 curr_target target);
      put_state (Discovery.set_state self (DState.Extending target))
  | _ =>
      _ ← put_state (Discovery.set_state self (DState.Extending target));
      make_extension_step
  end.

Definition repair_outbound_peers : DM unit :=
  self ← get_state;
  if negb (Discovery.is_enabled self) ||
     (self.(Discovery.config).(DiscoveryConfig.num_outbound_peers)
      <=? N.of_nat (base.size self.(Discovery.outbound_peers)))%N
  then mret tt
  else
    peers ← in_some_order (elements self.(Discovery.inbound_peers));
    match List.find (fun peer_id => bool_decide (self.(Discovery.outbound_peers) !! peer_id = None)) peers with
    | Some peer_id =>
        _ ← put_state (Discovery.set_inbound_peers self (self.(Discovery.inbound_peers) ∖ {[peer_id]}));
        _ ← set_outbound peer_id OutboundState.Confirmed;
        update_controller (fun c => Controller.set_connect_request c
          (Action.register_done_on c.(Controller.connect_request) peer_id))
    | None =>
        selection ← try_select_n_outbound_candidates 1;
        match selection with
        | Selection.Exactly [] => mret tt
        | Selection.Exactly (peer_id :: _) =>
            _ ← set_outbound peer_id OutboundState.Pending;
            add_connect_request (RequestData.new peer_id) None
        | _ => initiate_extension_with_target 1
        end
    end.

(** ** Bootstrap (handlers/bootstrap.rs) *)

Definition handle_successful_bootstrap : DM unit :=
  self ← get_state;
  let wanted := self.(Discovery.config).(DiscoveryConfig.num_outbound_peers) in
  if bool_decide (self.(Discovery.state) = DState.Bootstrapping) then
    if (N.of_nat (base.size self.(Discovery.active_connections)) <? wanted)%N
    then initiate_extension_with_target wanted
    else
      _ ← adjust_peers;
      self ← get_state; put_state (Discovery.set_state self DState.Idle)
  else mret tt.

Definition handle_failed_bootstrap : DM unit :=
  self ← get_state;
  when (bool_decide (self.(Discovery.state) = DState.Bootstrapping))
    (put_state (Discovery.set_state self DState.Idle)).

(** ** Dialling (handlers/dial.rs) *)

Definition can_dial (self : Discovery.t) : bool :=
  Action.can_perform self.(Discovery.controller).(Controller.dial).

Definition should_dial (self : Discovery.t) (swarm : SwarmView.t) (dial_data : DialData.t)
    (check_already_dialed : bool) : bool :=
  match dial_data.(DialData.peer_id) with
  | None => true
  | Some id => negb (bool_decide (id = swarm.(SwarmView.local_peer_id))) &&
               negb (bool_decide (id ∈ swarm.(SwarmView.connected)))
  end &&
  (negb check_already_dialed || negb (Controller.dial_is_done_on self.(Discovery.controller) dial_data) ||
   negb (dial_data.(DialData.retry).(Retry.count) =? 0)%N) &&
  negb (existsb (fun addr => bool_decide (addr ∈ dial_data.(DialData.listen_addrs))) swarm.(SwarmView.listeners)).

Definition should_dial_m (dial_data : DialData.t) (check_already_dialed : bool) : DM bool :=
  self ← get_state;
  r ← yield_ DiscoveryCall.View;
  mret (should_dial self (DiscoveryReply.view r) dial_data check_already_dialed).

(** The first value taken out of the map is returned. *)
Definition take_dial_in_progress (connection_id : ConnectionId) : DM (option DialData.t) :=
  self ← get_state;
  let c := self.(Discovery.controller) in
  let '(dial_data, dial) := Action.remove_in_progress c.(Controller.dial) connection_id in
  _ ← put_state (Discovery.set_controller self (Controller.set_dial c dial));
  mret dial_data.

Definition add_dial (dial_data : DialData.t) (delay : option N) : DM unit :=
  update_controller (fun c => Controller.set_dial c (Action.add_to_queue c.(Controller.dial) dial_data delay)).

Definition retries_useless (error : DialError.t) : bool :=
  match error with
  | DialError.LocalPeerId | DialError.NoAddresses | DialError.WrongPeerId => true
  | DialError.Other => false
  end.

Definition is_bootstrap (self : Discovery.t) (addrs : list Multiaddr) : bool :=
  existsb (fun node => existsb (fun addr => bool_decide (addr ∈ node.2)) addrs) self.(Discovery.bootstrap_nodes).

Definition handle_failed_connection (connection_id : ConnectionId) (error : DialError.t) : DM unit :=
  dial_data ← take_dial_in_progress connection_id;
  match dial_data with
  | None => mret tt
  | Some dial_data =>
      if retries_useless error then make_extension_step
      else
        self ← get_state;
        if (dial_data.(DialData.retry).(Retry.count) <? self.(Discovery.config).(DiscoveryConfig.dial_max_retries))%N
        then
          retry ← lift (Retry.inc_count dial_data.(DialData.retry));
          '(next_delay, retry) ← lift (Retry.next_delay retry);
          add_dial (DialData.set_retry dial_data retry) (Some next_delay)
        else
          _ ← when (is_bootstrap self dial_data.(DialData.listen_addrs))
                (update_controller (fun c => Controller.dial_remove_done_addrs c dial_data.(DialData.listen_addrs)));
          make_extension_step
  end.

Definition dial_peer (dial_data : DialData.t) : DM unit :=
  should ← should_dial_m dial_data false;
  if negb should then mret tt
  else
    match DialData.build_dial_opts dial_data with
    | None => mret tt
    | Some (peer_id, addrs) =>
        r ← yield_ DiscoveryCall.NewConnectionId;
        let connection_id := DiscoveryReply.connection_id r in
        _ ← update_controller (fun c =>
              let c := Controller.dial_register_done_on c dial_data in
              Controller.set_dial c (Action.register_in_progress c.(Controller.dial) connection_id dial_data));
        r ← yield_ (DiscoveryCall.Dial connection_id peer_id addrs);
        match DiscoveryReply.error r with
        | Some e => handle_failed_connection connection_id e
        | None => mret tt
        end
    end.

Definition handle_connection (peer_id : PeerId) (connection_id : ConnectionId) : DM unit :=
  _ ← update_controller (fun c => Controller.set_dial c
        (Action.register_done_on c.(Controller.dial) (PeerData.PeerId peer_id)));
  self ← get_state;
  match self.(Discovery.active_connections) !! peer_id with
  | Some _ => _ ← take_dial_in_progress connection_id; make_extension_step
  | None => update_controller (fun c => Controller.dial_add_peer_id_to_dial_data c connection_id peer_id)
  end.

Definition enqueue_dial (dial_data : DialData.t) : DM unit :=
  _ ← update_controller (fun c => Controller.dial_register_done_on c dial_data);
  add_dial dial_data None.

Definition add_to_dial_queue (dial_data : DialData.t) : DM unit :=
  should ← should_dial_m dial_data true;
  when should (enqueue_dial dial_data).

Fixpoint dial_nodes (nodes : list PeerAddrs) : DM unit :=
  match nodes with
  | [] => mret tt
  | (peer_id, listen_addrs) :: nodes =>
      self ← get_state;
      let already_attempted := existsb (fun addr => Action.is_done_on
            self.(Discovery.controller).(Controller.dial) (PeerData.Multiaddr addr)) listen_addrs in
      _ ← unless already_attempted
            (let dial_data := DialData.new peer_id listen_addrs in
             should ← should_dial_m dial_data false;
             when should (enqueue_dial dial_data));
      dial_nodes nodes
  end.
Definition dial_bootstrap_nodes : DM unit := self ← get_state; dial_nodes self.(Discovery.bootstrap_nodes).

(** ** Requests for peers (handlers/peers_request.rs) *)

Definition can_peers_request (self : Discovery.t) : bool :=
  Action.can_perform self.(Discovery.controller).(Controller.peers_request).

Definition should_peers_request (self : Discovery.t) (request_data : RequestData.t) : bool :=
  negb (Action.is_done_on self.(Discovery.controller).(Controller.peers_request) request_data.(RequestData.peer_id)) ||
  negb (request_data.(RequestData.retry).(Retry.count) =? 0)%N.

(** The loop over the discovered peers collects them and drops the bootstrap
    nodes that share an address with one of them. *)
Definition retain_bootstrap_nodes (nodes : list PeerAddrs) (info : Info.t) : list PeerAddrs :=
  List.filter (fun node => forallb (fun addr => negb (bool_decide (addr ∈ info.(Info.listen_addrs)))) node.2) nodes.

Definition get_all_peers_except (self : Discovery.t) (peer : PeerId) : gset PeerAddrs :=
  let discovered := filter (fun kv => kv.2.(Info.listen_addrs) <> []) (map_to_list self.(Discovery.discovered_peers)) in
  let remaining_bootstrap_nodes :=
    foldl (fun nodes kv => retain_bootstrap_nodes nodes kv.2) self.(Discovery.bootstrap_nodes) discovered in
  list_to_set ((fun kv => (Some kv.1, kv.2.(Info.listen_addrs))) <$> filter (fun kv => kv.1 <> peer) discovered) ∪
  list_to_set remaining_bootstrap_nodes.

Definition take_peers_request (request_id : OutboundRequestId) : DM (option RequestData.t) :=
  self ← get_state;
  let c := self.(Discovery.controller) in
  let '(request_data, action) := Action.remove_in_progress c.(Controller.peers_request) request_id in
  _ ← put_state (Discovery.set_controller self (Controller.set_peers_request c action));
  mret request_data.

Definition peers_request_peer (request_data : RequestData.t) : DM unit :=
  self ← get_state;
  if negb (Discovery.is_enabled self) || negb (should_peers_request self request_data) then mret tt
  else
    let peer_id := request_data.(RequestData.peer_id) in
    _ ← update_controller (fun c => Controller.set_peers_request c
          (Action.register_done_on c.(Controller.peers_request) peer_id));
    r ← yield_ (DiscoveryCall.SendRequest peer_id (DiscoveryRequest.Peers (get_all_peers_except self peer_id)));
    update_controller (fun c => Controller.set_peers_request c
      (Action.register_in_progress c.(Controller.peers_request) (DiscoveryReply.request_id r) request_data)).

Definition handle_peers_request (peer : PeerId) (channel : ResponseChannel) (peers : gset PeerAddrs) : DM unit :=
  self ← get_state;
  _ ← yield_ (DiscoveryCall.SendResponse channel
                (DiscoveryResponse.Peers (get_all_peers_except self peer ∖ peers)));
  mret tt.

Fixpoint process_received_peers (peers : list PeerAddrs) : DM unit :=
  match peers with
  | [] => mret tt
  | (peer_id, listen_addr) :: peers =>
      _ ← add_to_dial_queue (DialData.new peer_id listen_addr); process_received_peers peers
  end.

Definition handle_peers_response (request_id : OutboundRequestId) (peers : gset PeerAddrs) : DM unit :=
  _ ← take_peers_request request_id;
  peers ← in_some_order (elements peers);
  _ ← process_received_peers peers;
  make_extension_step.

Definition handle_failed_peers_request (request_id : OutboundRequestId) : DM unit :=
  request_data ← take_peers_request request_id;
  match request_data with
  | None => mret tt
  | Some request_data =>
      self ← get_state;
      if (request_data.(RequestData.retry).(Retry.count)
          <? self.(Discovery.config).(DiscoveryConfig.request_max_retries))%N
      then
        retry ← lift (Retry.inc_count request_data.(RequestData.retry));
        '(next_delay, _) ← lift (Retry.next_delay retry);
        update_controller (fun c => Controller.set_peers_request c
          (Action.add_to_queue c.(Controller.peers_request) (RequestData.set_retry request_data retry)
             (Some next_delay)))
      else make_extension_step
  end.

(** ** Requests for connections (handlers/connect_request.rs) *)

Definition can_connect_request (self : Discovery.t) : bool :=
  Action.can_perform self.(Discovery.controller).(Controller.peers_request).

Definition should_connect_request (self : Discovery.t) (request_data : RequestData.t) : bool :=
  negb (Action.is_done_on self.(Discovery.controller).(Controller.connect_request) request_data.(RequestData.peer_id)) ||
  negb (request_data.(RequestData.retry).(Retry.count) =? 0)%N.

Definition connect_request_peer (request_data : RequestData.t) : DM unit :=
  self ← get_state;
  if negb (should_connect_request self request_data) then mret tt
  else
    let peer_id := request_data.(RequestData.peer_id) in
    _ ← update_controller (fun c => Controller.set_connect_request c
          (Action.register_done_on c.(Controller.connect_request) peer_id));
    r ← yield_ (DiscoveryCall.SendRequest peer_id DiscoveryRequest.Connect);
    update_controller (fun c => Controller.set_connect_request c
      (Action.register_in_progress c.(Controller.connect_request) (DiscoveryReply.request_id r) request_data)).

Definition handle_connect_request (channel : ResponseChannel) (peer : PeerId) : DM unit :=
  self ← get_state;
  accepted ←
    (if bool_decide (is_Some (self.(Discovery.outbound_peers) !! peer)) then mret true
     else if bool_decide (peer ∈ self.(Discovery.inbound_peers)) then mret true
     else if (N.of_nat (base.size self.(Discovery.inbound_peers))
              <? self.(Discovery.config).(DiscoveryConfig.num_inbound_peers))%N
     then
       _ ← put_state (Discovery.set_inbound_peers self ({[peer]} ∪ self.(Discovery.inbound_peers)));
       mret true
     else mret false);
  _ ← yield_ (DiscoveryCall.SendResponse channel (DiscoveryResponse.Connect accepted));
  mret tt.

Definition handle_connect_rejection (peer : PeerId) : DM unit :=
  self ← get_state;
  _ ← put_state (Discovery.set_outbound_peers self (delete peer self.(Discovery.outbound_peers)));
  when (Discovery.is_enabled self) repair_outbound_peers.

Definition take_connect_request (request_id : OutboundRequestId) : DM (option RequestData.t) :=
  self ← get_state;
  let c := self.(Discovery.controller) in
  let '(request_data, action) := Action.remove_in_progress c.(Controller.connect_request) request_id in
  _ ← put_state (Discovery.set_controller self (Controller.set_connect_request c action));
  mret request_data.

Definition handle_connect_response (request_id : OutboundRequestId) (peer : PeerId) (accepted : bool) : DM unit :=
  _ ← take_connect_request request_id;
  if accepted then
    self ← get_state;
    match self.(Discovery.outbound_peers) !! peer with
    | Some _ => set_outbound peer OutboundState.Confirmed
    | None => mret tt
    end
  else handle_connect_rejection peer.

Definition handle_failed_connect_request (request_id : OutboundRequestId) : DM unit :=
  request_data ← take_connect_request request_id;
  match request_data with
  | None => mret tt
  | Some request_data =>
      self ← get_state;
      if (request_data.(RequestData.retry).(Retry.count)
          <? self.(Discovery.config).(DiscoveryConfig.connect_request_max_retries))%N
      then
        retry ← lift (Retry.inc_count request_data.(RequestData.retry));
        '(next_delay, _) ← lift (Retry.next_delay retry);
        add_connect_request (RequestData.set_retry request_data retry) (Some next_delay)
      else handle_connect_rejection request_data.(RequestData.peer_id)
  end.

(** ** Closing connections (handlers/close.rs) *)

Definition can_close (self : Discovery.t) : bool :=
  bool_decide (self.(Discovery.state) = DState.Idle) &&
  Action.can_perform self.(Discovery.controller).(Controller.close).

Definition should_close (self : Discovery.t) (peer_id : PeerId) (connection_id : ConnectionId) : bool :=
  (bool_decide (self.(Discovery.outbound_peers) !! peer_id = None) &&
   negb (bool_decide (peer_id ∈ self.(Discovery.inbound_peers)))) ||
  match self.(Discovery.active_connections) !! peer_id with
  | None => true
  | Some connection_ids => negb (bool_decide (connection_id ∈ connection_ids))
  end.

Definition close_connection (peer_id : PeerId) (connection_id : ConnectionId) : DM unit :=
  self ← get_state;
  when (should_close self peer_id connection_id)
    (_ ← yield_ (DiscoveryCall.CloseConnection connection_id); mret tt).

(** The first bootstrap node that was identified as the peer is forgotten: what
    comes before it, it, and what comes after it. *)
Fixpoint split_bootstrap_node (peer_id : PeerId) (nodes : list PeerAddrs)
    : option (list PeerAddrs * list Multiaddr * list PeerAddrs) :=
  match nodes with
  | [] => None
  | node :: nodes =>
      if bool_decide (node.1 = Some peer_id) then Some ([], node.2, nodes)
      else
        match split_bootstrap_node peer_id nodes with
        | Some (before, addrs, after) => Some (node :: before, addrs, after)
        | None => None
        end
  end.

Definition cleanup_peer_on_disconnect (peer_id : PeerId) : DM unit :=
  self ← get_state;
  let peer_info := self.(Discovery.discovered_peers) !! peer_id in
  _ ← put_state (Discovery.set_discovered_peers self (delete peer_id self.(Discovery.discovered_peers)));
  self ← get_state;
  match split_bootstrap_node peer_id self.(Discovery.bootstrap_nodes) with
  | Some (before, addrs, after) =>
      _ ← put_state (Discovery.set_bootstrap_nodes self (before ++ (None, addrs) :: after));
      update_controller (fun c => Controller.dial_clear_done_for_peer c peer_id addrs)
  | None =>
      unless (Discovery.is_enabled self)
        (let addrs := match peer_info with Some info => info.(Info.listen_addrs) | None => [] end in
         update_controller (fun c => Controller.dial_clear_done_for_peer c peer_id addrs))
  end.

(** Whether the last active connection to the peer was removed. *)
Definition remove_active_connection (peer_id : PeerId) (connection_id : ConnectionId) : DM bool :=
  self ← get_state;
  match self.(Discovery.active_connections) !! peer_id with
  | Some connection_ids =>
      if bool_decide (connection_id ∈ connection_ids) then
        let connection_ids := filter (fun id => id <> connection_id) connection_ids in
        if bool_decide (connection_ids = []) then
          _ ← put_state (Discovery.set_active_connections self (delete peer_id self.(Discovery.active_connections)));
          mret true
        else
          _ ← put_state (Discovery.set_active_connections self
                           (<[peer_id := connection_ids]> self.(Discovery.active_connections)));
          mret false
      else mret false
  | None => mret false
  end.

Definition handle_closed_connection (peer_id : PeerId) (connection_id : ConnectionId) : DM unit :=
  was_last_connection ← remove_active_connection peer_id connection_id;
  _ ← take_dial_in_progress connection_id;
  self ← get_state;
  _ ← (if bool_decide (is_Some (self.(Discovery.outbound_peers) !! peer_id)) then
         _ ← when was_last_connection
               (put_state (Discovery.set_outbound_peers self (delete peer_id self.(Discovery.outbound_peers))));
         when (Discovery.is_enabled self) repair_outbound_peers
       else if bool_decide (peer_id ∈ self.(Discovery.inbound_peers)) then
         when was_last_connection
           (put_state (Discovery.set_inbound_peers self (self.(Discovery.inbound_peers) ∖ {[peer_id]})))
       else mret tt);
  when was_last_connection (cleanup_peer_on_disconnect peer_id).

(** ** Identified peers (handlers/identify.rs) *)

(** The first bootstrap node that is not identified yet and shares an address
    with the dial becomes the peer. *)
Fixpoint identify_bootstrap_node (peer_id : PeerId) (dialed : list Multiaddr) (nodes : list PeerAddrs) : list PeerAddrs :=
  match nodes with
  | [] => []
  | (None, listen_addrs) :: nodes =>
      if existsb (fun addr => bool_decide (addr ∈ listen_addrs)) dialed
      then (Some peer_id, listen_addrs) :: nodes
      else (None, listen_addrs) :: identify_bootstrap_node peer_id dialed nodes
  | node :: nodes => node :: identify_bootstrap_node peer_id dialed nodes
  end.

Definition update_bootstrap_node_peer_id (peer_id : PeerId) : DM unit :=
  self ← get_state;
  if existsb (fun node => bool_decide (node.1 = Some peer_id)) self.(Discovery.bootstrap_nodes) then mret tt
  else
    dials ← in_some_order (map_to_list self.(Discovery.controller).(Controller.dial).(Action.in_progress)).*2;
    match List.find (fun dial_data => bool_decide (dial_data.(DialData.peer_id) = Some peer_id)) dials with
    | None => mret tt
    | Some dial_data =>
        put_state (Discovery.set_bootstrap_nodes self
          (identify_bootstrap_node peer_id dial_data.(DialData.listen_addrs) self.(Discovery.bootstrap_nodes)))
    end.

(** Whether the connection is refused, and whether another one existed. *)
Definition add_active_connection (peer_id : PeerId) (connection_id : ConnectionId) : DM (bool * bool) :=
  self ← get_state;
  match self.(Discovery.active_connections) !! peer_id with
  | Some connection_ids =>
      if (self.(Discovery.config).(DiscoveryConfig.max_connections_per_peer) <=? N.of_nat (length connection_ids))%N
      then _ ← add_close peer_id connection_id None; mret (true, true)
      else
        _ ← put_state (Discovery.set_active_connections self
              (<[peer_id := connection_ids ++ [connection_id]]> self.(Discovery.active_connections)));
        mret (false, true)
  | None =>
      _ ← put_state (Discovery.set_active_connections self
            (<[peer_id := [connection_id]]> self.(Discovery.active_connections)));
      mret (false, false)
  end.

(** With discovery enabled: an idle node that misses outbound peers takes the
    peer for one; other peers that are neither outbound nor inbound stay for a
    while. *)
Definition classify_peer (connection_id : ConnectionId) (peer_id : PeerId) : DM unit :=
  self ← get_state;
  if bool_decide (is_Some (self.(Discovery.outbound_peers) !! peer_id)) then mret tt
  else if bool_decide (peer_id ∈ self.(Discovery.inbound_peers)) then mret tt
  else if bool_decide (self.(Discovery.state) = DState.Idle) &&
          (N.of_nat (base.size self.(Discovery.outbound_peers))
           <? self.(Discovery.config).(DiscoveryConfig.num_outbound_peers))%N
  then
    _ ← set_outbound peer_id OutboundState.Pending;
    add_connect_request (RequestData.new peer_id) None
  else
    _ ← add_close peer_id connection_id (Some self.(Discovery.config).(DiscoveryConfig.ephemeral_connection_timeout));
    match self.(Discovery.state) with DState.Extending _ => make_extension_step | _ => mret tt end.

Definition add_to_routing_table (peer_id : PeerId) (info : Info.t) : DM unit :=
  self ← get_state;
  when (bool_decide (self.(Discovery.config).(DiscoveryConfig.bootstrap_protocol) = BootstrapProtocol.Kademlia))
    (addr ← lift (expect (head info.(Info.listen_addrs)) "called `Option::unwrap()` on a `None` value");
     _ ← yield_ (DiscoveryCall.AddAddress peer_id addr);
     mret tt).

(** With discovery disabled all peers are inbound; whether the peer is refused. *)
Definition accept_inbound (connection_id : ConnectionId) (peer_id : PeerId) : DM bool :=
  self ← get_state;
  if (N.of_nat (base.size self.(Discovery.inbound_peers))
      <? self.(Discovery.config).(DiscoveryConfig.num_inbound_peers))%N
  then _ ← put_state (Discovery.set_inbound_peers self ({[peer_id]} ∪ self.(Discovery.inbound_peers))); mret false
  else _ ← add_close peer_id connection_id None; mret true.

(** Also removes other dials of the peer if this connection was not dialled. *)
Definition finish_dial (connection_id : ConnectionId) (peer_id : PeerId) : DM unit :=
  dial_data ← take_dial_in_progress connection_id;
  match dial_data with
  | None => update_controller (fun c => Controller.dial_remove_matching_in_progress_connections c peer_id)
  | Some _ => mret tt
  end.

Definition handle_new_peer (connection_id : ConnectionId) (peer_id : PeerId) (info : Info.t) : DM bool :=
  self ← get_state;
  if match self.(Discovery.active_connections) !! peer_id with
     | Some connection_ids => bool_decide (connection_id ∈ connection_ids)
     | None => false
     end
  then mret true
  else
    _ ← update_bootstrap_node_peer_id peer_id;
    _ ← finish_dial connection_id peer_id;
    self ← get_state;
    _ ← put_state (Discovery.set_discovered_peers self (<[peer_id := info]> self.(Discovery.discovered_peers)));
    '(refused, is_already_connected) ← add_active_connection peer_id connection_id;
    if refused : bool then mret is_already_connected
    else if Discovery.is_enabled self then
      _ ← classify_peer connection_id peer_id;
      _ ← add_to_routing_table peer_id info;
      mret is_already_connected
    else
      refused ← accept_inbound connection_id peer_id;
      mret (refused || is_already_connected).

(** ** Events of the discovery protocols (lib.rs) *)

Module DiscoveryEvent.
Inductive t : Type :=
  | BootstrapOk (last : bool)
  | BootstrapErr
  | Request (peer : PeerId) (request : DiscoveryRequest.t) (channel : ResponseChannel)
  | Response (peer : PeerId) (response : DiscoveryResponse.t) (request_id : OutboundRequestId)
  | OutboundFailure (request_id : OutboundRequestId)
  | Other.
End DiscoveryEvent.

Definition on_network_event (network_event : DiscoveryEvent.t) : DM unit :=
  self ← get_state;
  match network_event with
  | DiscoveryEvent.BootstrapOk last =>
      when (last && bool_decide (self.(Discovery.state) = DState.Bootstrapping)) handle_successful_bootstrap
  | DiscoveryEvent.BootstrapErr =>
      when (bool_decide (self.(Discovery.state) = DState.Bootstrapping)) handle_failed_bootstrap
  | DiscoveryEvent.Request peer (DiscoveryRequest.Peers peers) channel => handle_peers_request peer channel peers
  | DiscoveryEvent.Request peer DiscoveryRequest.Connect channel => handle_connect_request channel peer
  | DiscoveryEvent.Response peer (DiscoveryResponse.Peers peers) request_id => handle_peers_response request_id peers
  | DiscoveryEvent.Response peer (DiscoveryResponse.Connect accepted) request_id =>
      handle_connect_response request_id peer accepted
  | DiscoveryEvent.OutboundFailure request_id =>
      if Action.is_in_progress self.(Discovery.controller).(Controller.peers_request) request_id
      then handle_failed_peers_request request_id
      else when (Action.is_in_progress self.(Discovery.controller).(Controller.connect_request) request_id)
             (handle_failed_connect_request request_id)
  | DiscoveryEvent.Other => mret tt
  end.

(** ** The calls of the network task (network/src/lib.rs)

    A queue is read only when its action can be performed. A sleeping task of
    one of the queues may wake up at any time. *)

Module DiscoveryTurn.
Inductive t : Type :=
  | Dial
  | PeersRequest
  | ConnectRequest
  | Close
  | PersistentPeerTick
  | ConnectionEstablished (peer_id : PeerId) (connection_id : ConnectionId)
  | OutgoingConnectionError (connection_id : ConnectionId) (error : DialError.t)
  | ConnectionClosed (peer_id : PeerId) (connection_id : ConnectionId)
  | IdentifyReceived (connection_id : ConnectionId) (peer_id : PeerId) (info : Info.t)
  | NetworkEvent (event : DiscoveryEvent.t)
  | Wake (controller : nat) (i : nat).
End DiscoveryTurn.

Section receive.
Context {T U V : Type} `{Countable T, Countable U}.
Context (action : Controller.t -> Action.t T U V) (set_action : Controller.t -> Action.t T U V -> Controller.t).

Definition receive (enabled : Discovery.t -> bool) (f : V -> DM unit) : DM unit :=
  self ← get_state;
  if enabled self then
    match Action.recv (action self.(Discovery.controller)) with
    | Some (value, a) =>
        _ ← put_state (Discovery.set_controller self (set_action self.(Discovery.controller) a)); f value
    | None => mret tt
    end
  else mret tt.

Definition wake (i : nat) : DM unit := update_controller (fun c => set_action c (Action.wake i (action c))).
End receive.

Definition discovery_turn (turn : DiscoveryTurn.t) : DM unit :=
  match turn with
  | DiscoveryTurn.Dial => receive Controller.dial Controller.set_dial can_dial dial_peer
  | DiscoveryTurn.PeersRequest =>
      receive Controller.peers_request Controller.set_peers_request can_peers_request peers_request_peer
  | DiscoveryTurn.ConnectRequest =>
      receive Controller.connect_request Controller.set_connect_request can_connect_request connect_request_peer
  | DiscoveryTurn.Close =>
      receive Controller.close Controller.set_close can_close (fun x => close_connection x.1 x.2)
  | DiscoveryTurn.PersistentPeerTick => dial_bootstrap_nodes
  | DiscoveryTurn.ConnectionEstablished peer_id connection_id => handle_connection peer_id connection_id
  | DiscoveryTurn.OutgoingConnectionError connection_id error => handle_failed_connection connection_id error
  | DiscoveryTurn.ConnectionClosed peer_id connection_id => handle_closed_connection peer_id connection_id
  | DiscoveryTurn.IdentifyReceived connection_id peer_id info =>
      _ ← handle_new_peer connection_id peer_id info; mret tt
  | DiscoveryTurn.NetworkEvent event => on_network_event event
  | DiscoveryTurn.Wake 0 i => wake Controller.dial Controller.set_dial i
  | DiscoveryTurn.Wake 1 i => wake Controller.peers_request Controller.set_peers_request i
  | DiscoveryTurn.Wake 2 i => wake Controller.connect_request Controller.set_connect_request i
  | DiscoveryTurn.Wake _ i => wake Controller.close Controller.set_close i
  end.

Fixpoint discovery_turns (turns : list DiscoveryTurn.t) : DM unit :=
  match turns with
  | [] => mret tt
  | turn :: turns => _ ← discovery_turn turn; discovery_turns turns
  end.
