(* ===== verification/DiscoveryFacts.v ===== *)
(** * Peer discovery: bounds and selection

    Whatever the swarm reports and answers: inbound and outbound peers are
    different and bounded in number, so are the connections of a peer and the
    dials and requests in progress. What the selectors select, and what a node
    tells others about its peers. *)

From S2P Require Import Prelude Bytes ConsensusTypes Coroutine Network Discovery.

Abbreviation wp_d := (wp True (fun (_ : trace DiscoveryCall.t DiscoveryReply.t) _ => True) (fun _ _ _ => True)).

Lemma wp_call (e : DiscoveryCall.t) s (Q : _ -> Discovery.t * (Empty_set + DiscoveryReply.t) -> Prop) t :
  (forall r t', Q t' (s, inr r)) -> wp_d (yield_ e s) Q t.
Proof. intros HQ. by apply wp_yield. Qed.

(** ** Orders *)

Lemma reorder_positions positions n :
  omap (fun i => seq 0 n !! i) (remove_dups positions ++ filter (fun i => i ∉ positions) (seq 0 n)) ≡ₚ seq 0 n.
Proof.
  apply NoDup_Permutation.
  - assert (H : forall l : list nat, NoDup l -> NoDup (omap (fun i => seq 0 n !! i) l)).
    { induction l as [|x l IH]; intros Hl; cbn; [constructor|]. apply NoDup_cons in Hl as [Hx Hl].
      destruct (seq 0 n !! x) as [y|] eqn:Hy; [|by apply IH]. apply NoDup_cons. split; [|by apply IH].
      intros (z & Hz & Hl')%list_elem_of_omap. apply lookup_seq in Hy as [-> _]. apply lookup_seq in Hl' as [Hl' _].
      cbn in Hl'. by subst. }
    apply H, NoDup_app. split_and!; [apply NoDup_remove_dups| |apply NoDup_filter, NoDup_seq].
    intros i Hi. rewrite list_elem_of_filter. intros [Hni _]. by apply Hni, elem_of_remove_dups.
  - apply NoDup_seq.
  - intros i. rewrite list_elem_of_omap. split.
    + intros (j & _ & Hj). apply lookup_seq in Hj as [-> ?]. apply elem_of_seq. lia.
    + intros Hi. exists i. rewrite elem_of_app, elem_of_remove_dups, list_elem_of_filter.
      split; [destruct (decide (i ∈ positions)); tauto|]. apply lookup_seq. apply elem_of_seq in Hi. lia.
Qed.

(** Any answer gives the elements in some order. *)
Lemma reorder_permutation {A} positions (l : list A) : reorder positions l ≡ₚ l.
Proof.
  unfold reorder. set (ps := remove_dups positions ++ filter (fun i => i ∉ positions) (seq 0 (length l))).
  assert (H : omap (fun i => l !! i) ps = omap (fun i => l !! i) (omap (fun i => seq 0 (length l) !! i) ps)).
  { induction ps as [|i ps IH]; cbn; [done|]. destruct (seq 0 (length l) !! i) as [j|] eqn:Hj.
    - apply lookup_seq in Hj as [-> Hj]. cbn. by rewrite IH.
    - apply lookup_ge_None in Hj. rewrite length_seq in Hj. by rewrite (lookup_ge_None_2 l i) by done. }
  rewrite H. unfold ps. rewrite reorder_positions.
  clear. induction l as [|x l IH] using rev_ind; [done|].
  rewrite length_app, Nat.add_1_r, seq_S. rewrite omap_app. cbn.
  rewrite lookup_app_r, Nat.sub_diag by lia. cbn. f_equiv. etrans; [|exact IH].
  apply reflexive_eq. apply list_omap_ext. apply Forall_Forall2_diag, Forall_forall. intros i Hi%elem_of_seq.
  rewrite lookup_app_l by lia. done.
Qed.

Lemma wp_some_order {A} (l : list A) s Q t :
  (forall l' t', l' ≡ₚ l -> Q t' (s, inr l')) -> wp_d (in_some_order l s) Q t.
Proof. intros HQ. unfold in_some_order. wp_step. apply wp_call. intros r t'. cbn. apply HQ, reorder_permutation. Qed.

(** ** Bounds *)

Definition progress_ok {T U V} `{Countable T, Countable U} (factor : N) (a : Action.t T U V) : Prop :=
  a.(Action.concurrent_factor) = factor /\ (N.of_nat (base.size a.(Action.in_progress)) <= factor)%N.

Record controller_ok (c : Controller.t) : Prop := {
  ok_dial : progress_ok Controller.DEFAULT_DIAL_CONCURRENT_FACTOR c.(Controller.dial);
  ok_peers : progress_ok Controller.DEFAULT_PEERS_REQUEST_CONCURRENT_FACTOR c.(Controller.peers_request);
}.

Definition connections_ok (config : DiscoveryConfig.t) (active : gmap PeerId (list ConnectionId)) : Prop :=
  forall p l, active !! p = Some l ->
    l <> [] /\ NoDup l /\ (N.of_nat (length l) <= N.max 1 config.(DiscoveryConfig.max_connections_per_peer))%N.

Record bounded (config : DiscoveryConfig.t) (s : Discovery.t) : Prop := {
  ok_config : s.(Discovery.config) = config;
  ok_disjoint : forall p, p ∈ s.(Discovery.inbound_peers) -> s.(Discovery.outbound_peers) !! p = None;
  ok_inbound : (N.of_nat (base.size s.(Discovery.inbound_peers)) <= config.(DiscoveryConfig.num_inbound_peers))%N;
  ok_outbound : (N.of_nat (base.size s.(Discovery.outbound_peers)) <= config.(DiscoveryConfig.num_outbound_peers))%N;
  ok_disabled : config.(DiscoveryConfig.enabled) = false -> s.(Discovery.outbound_peers) = ∅;
  ok_active : connections_ok config s.(Discovery.active_connections);
  ok_controller : controller_ok s.(Discovery.controller);
}.

Lemma new_bounded config nodes s : Discovery.new config nodes = Ret s -> bounded config s.
Proof. unfold Discovery.new. intros H. inv_ret. split; cbn [Discovery.config Discovery.inbound_peers Discovery.outbound_peers
    Discovery.active_connections Discovery.controller].
  - done.
  - by intros p ?%not_elem_of_empty.
  - rewrite size_empty. lia.
  - rewrite map_size_empty. lia.
  - done.
  - by intros p l; rewrite lookup_empty.
  - by split.
Qed.

Section progress.
Context {T U V : Type} `{Countable T, Countable U} (factor : N).
Implicit Types (a : Action.t T U V).

Lemma progress_in_progress a a' :
  progress_ok factor a -> a'.(Action.concurrent_factor) = a.(Action.concurrent_factor) ->
  a'.(Action.in_progress) = a.(Action.in_progress) -> progress_ok factor a'.
Proof. intros [Hf Hs] Hf' Hp. split; [congruence|]. by rewrite Hp. Qed.

Lemma progress_subseteq a m :
  progress_ok factor a -> m ⊆ a.(Action.in_progress) -> progress_ok factor (Action.set_in_progress a m).
Proof. intros [Hf Hs] Hm. split; [done|]. cbn. apply map_subseteq_size in Hm. lia. Qed.

Lemma progress_register a k v :
  progress_ok factor a -> Action.can_perform a = true -> progress_ok factor (Action.register_in_progress a k v).
Proof.
  intros [Hf Hs] Hc. split; [done|]. cbn. unfold Action.can_perform in Hc. rewrite Hf in Hc. apply N.ltb_lt in Hc.
  rewrite map_size_insert. destruct (_ !! k); cbn; lia.
Qed.

Lemma progress_replace a k v :
  progress_ok factor a -> is_Some (a.(Action.in_progress) !! k) ->
  progress_ok factor (Action.register_in_progress a k v).
Proof. intros [Hf Hs] [x Hk]. split; [done|]. cbn. by rewrite map_size_insert_Some by eauto. Qed.

Lemma progress_queue a v d : progress_ok factor a -> progress_ok factor (Action.add_to_queue a v d).
Proof. intros Ha. by apply (progress_in_progress a); [done|destruct d|destruct d]. Qed.

Lemma progress_done_all (f : Action.t T U V -> Multiaddr -> Action.t T U V) a l :
  (forall a x, progress_ok factor a -> progress_ok factor (f a x)) ->
  progress_ok factor a -> progress_ok factor (foldl f a l).
Proof. intros Hf. revert a. induction l as [|x l IH]; intros a Ha; cbn; auto. Qed.

End progress.

Lemma register_done_ok c d : controller_ok c -> controller_ok (Controller.dial_register_done_on c d).
Proof.
  intros [Hd Hp]. split; [|done]. apply progress_done_all; [done|]. by destruct d.(DialData.peer_id).
Qed.

Lemma remove_done_ok c l : controller_ok c -> controller_ok (Controller.dial_remove_done_addrs c l).
Proof. intros [Hd Hp]. split; [|done]. by apply progress_done_all. Qed.

Lemma register_done_same (l : list Multiaddr) (a : Action.t PeerData.t ConnectionId DialData.t) :
  let a' := foldl (fun dial addr => Action.register_done_on dial (PeerData.Multiaddr addr)) a l in
  a'.(Action.in_progress) = a.(Action.in_progress) /\ a'.(Action.concurrent_factor) = a.(Action.concurrent_factor).
Proof. revert a. induction l as [|x l IH]; intros a; cbn; [done|]. apply (IH (Action.register_done_on a _)). Qed.

Lemma register_dial_ok c d i x :
  controller_ok c -> Action.can_perform c.(Controller.dial) = true ->
  let c' := Controller.dial_register_done_on c d in
  controller_ok (Controller.set_dial c' (Action.register_in_progress c'.(Controller.dial) i x)).
Proof.
  intros Hc Hcan c'. destruct (register_done_ok c d Hc) as [Hd Hp]. split; [|done].
  apply progress_register; [done|]. rewrite <- Hcan. unfold Action.can_perform, c', Controller.dial_register_done_on. cbn.
  edestruct register_done_same as [-> ->]. by destruct d.(DialData.peer_id).
Qed.

Section invariant.
Context (config : DiscoveryConfig.t).
Abbreviation bounded := (bounded config).
Implicit Types (s : Discovery.t) (p : PeerId).

Definition keeps {A} (m : DM A) : Prop := forall s t, bounded s -> wp_d (m s) (fun _ x => bounded x.1) t.

Lemma bounded_state s x : bounded s -> bounded (Discovery.set_state s x).
Proof. by intros []. Qed.
Lemma bounded_discovered s x : bounded s -> bounded (Discovery.set_discovered_peers s x).
Proof. by intros []. Qed.
Lemma bounded_bootstrap s x : bounded s -> bounded (Discovery.set_bootstrap_nodes s x).
Proof. by intros []. Qed.
Lemma bounded_controller s c : bounded s -> controller_ok c -> bounded (Discovery.set_controller s c).
Proof. by intros []. Qed.
Lemma bounded_active s m : bounded s -> connections_ok config m -> bounded (Discovery.set_active_connections s m).
Proof. by intros []. Qed.

Lemma bounded_delete_outbound s p :
  bounded s -> bounded (Discovery.set_outbound_peers s (delete p s.(Discovery.outbound_peers))).
Proof.
  intros []. split; cbn; try done.
  - intros q Hq. rewrite lookup_delete_None. auto.
  - pose proof (map_subseteq_size _ _ (delete_subseteq s.(Discovery.outbound_peers) p)). lia.
  - intros Hd. by rewrite ok_disabled0, delete_empty.
Qed.

Lemma bounded_delete_inbound s p :
  bounded s -> bounded (Discovery.set_inbound_peers s (s.(Discovery.inbound_peers) ∖ {[p]})).
Proof.
  intros []. split; cbn; try done; [set_solver|].
  assert (base.size (s.(Discovery.inbound_peers) ∖ {[p]}) <= base.size s.(Discovery.inbound_peers))%nat
    by (apply subseteq_size; set_solver). lia.
Qed.

Lemma bounded_add_inbound s p :
  bounded s -> s.(Discovery.outbound_peers) !! p = None ->
  (N.of_nat (base.size s.(Discovery.inbound_peers)) < config.(DiscoveryConfig.num_inbound_peers))%N ->
  bounded (Discovery.set_inbound_peers s ({[p]} ∪ s.(Discovery.inbound_peers))).
Proof.
  intros [] Hp Hlt. split; cbn; try done; [set_solver|].
  assert (base.size ({[p]} ∪ s.(Discovery.inbound_peers)) <= S (base.size s.(Discovery.inbound_peers)))%nat.
  { rewrite size_union_alt, size_singleton. assert (base.size (s.(Discovery.inbound_peers) ∖ {[p]})
      <= base.size s.(Discovery.inbound_peers))%nat by (apply subseteq_size; set_solver). lia. }
  lia.
Qed.

Lemma bounded_set_outbound s p x :
  bounded s -> (p ∈ s.(Discovery.inbound_peers) -> False) ->
  (is_Some (s.(Discovery.outbound_peers) !! p) \/ config.(DiscoveryConfig.enabled) = true /\
   N.of_nat (base.size s.(Discovery.outbound_peers)) < config.(DiscoveryConfig.num_outbound_peers))%N ->
  bounded (Discovery.set_outbound_peers s (<[p := x]> s.(Discovery.outbound_peers))).
Proof.
  intros [] Hp Hsize. split; cbn; try done.
  - intros q Hq. rewrite lookup_insert_ne; [auto|]. by intros ->.
  - rewrite map_size_insert. destruct (_ !! p); [done|]. destruct Hsize as [[? ?]|[_ ?]]; [done|]. cbn. lia.
  - intros Hd. destruct Hsize as [Hsome|[? _]]; [|congruence]. rewrite ok_disabled0 in Hsome by done.
    by destruct Hsome.
Qed.


(** *** Selection *)

Lemma bucket_pass_length buckets n candidates :
  (N.of_nat (length candidates) <= n)%N -> (N.of_nat (length (bucket_pass buckets n candidates)) <= n)%N.
Proof.
  revert candidates. induction buckets as [|b buckets IH]; intros l Hl; cbn; [done|].
  destruct (N.leb_spec n (N.of_nat (length l))); [done|]. case_match; [|by apply IH].
  apply IH. rewrite length_app. cbn. lia.
Qed.

Lemma bucket_cycle_length passes buckets n candidates l :
  (N.of_nat (length candidates) <= n)%N -> bucket_cycle passes buckets n candidates = Some l ->
  (N.of_nat (length l) <= n)%N.
Proof.
  revert candidates. induction passes as [|k IH]; intros c Hc; cbn;
    destruct (N.leb_spec n (N.of_nat (length c))); intros Hl; simplify_eq; try done.
  eapply IH; [|exact Hl]. by apply bucket_pass_length.
Qed.

(** At most [n] candidates are selected, and the state is left alone. *)
Lemma wp_select n s Q t :
  (forall sel t', (forall peers, sel = Selection.Exactly peers \/ sel = Selection.Only peers ->
                     (N.of_nat (length peers) <= n)%N) -> Q t' (s, inr sel)) ->
  wp_d (try_select_n_outbound_candidates n s) Q t.
Proof.
  intros HQ. unfold try_select_n_outbound_candidates. wp_step. wp_step. wp_step.
  - unfold kademlia_select. wp_step; [wp_step; apply HQ; naive_solver|]. wp_step. apply wp_call. intros r t'. cbn [fst snd].
    set (buckets := _ <$> _). destruct (N.ltb_spec (N.of_nat (length (concat buckets))) n).
    + unfold discovered_len. destruct (N.ltb_spec (N.of_nat (base.size s.(Discovery.discovered_peers)))
        (n - N.of_nat (length (concat buckets)))) as [Hd|Hd].
      * wp_step. apply wp_some_order. intros keys t'' Hkeys. cbn [fst snd].
        assert (Hlen : (N.of_nat (length (concat buckets ++ keys)) <= n)%N).
        { rewrite length_app, Hkeys, length_fmap, length_map_to_list. lia. }
        destruct (concat buckets ++ keys) as [|x l]; wp_step; apply HQ; naive_solver.
      * wp_step. apply wp_some_order. intros chosen t'' _. cbn [fst snd]. wp_step. apply HQ.
        intros peers [[= <-]|[=]]. rewrite length_app, length_take. lia.
    + destruct (bucket_cycle _ _ _ _) as [l|] eqn:Hl; [|done]. wp_step. apply HQ.
      intros peers [[= <-]|[=]]. eapply bucket_cycle_length; [|exact Hl]. cbn. lia.
  - unfold random_select. wp_step; [wp_step; apply HQ; naive_solver|]. wp_step. apply wp_some_order.
    intros shuffled t' _. cbn [fst snd]. set (c := take _ shuffled).
    assert (Hlen : (N.of_nat (length c) <= n)%N) by (unfold c; rewrite length_take; lia).
    repeat wp_step; apply HQ; naive_solver.
Qed.

Lemma add_outbound_candidates_complete peers s :
  exists o c, add_outbound_candidates peers s =
      Complete (Discovery.set_controller (Discovery.set_outbound_peers s o) c, inr tt) /\
    (base.size o <= base.size s.(Discovery.outbound_peers) + length peers)%nat /\
    c.(Controller.dial) = s.(Discovery.controller).(Controller.dial) /\
    c.(Controller.peers_request) = s.(Discovery.controller).(Controller.peers_request).
Proof.
  revert s. induction peers as [|p peers IH]; intros s.
  { exists s.(Discovery.outbound_peers), s.(Discovery.controller). destruct s; cbn. split_and!; [done|lia|done|done]. }
  set (k := s.(Discovery.controller)).
  destruct (IH (Discovery.set_controller
      (Discovery.set_outbound_peers s (<[p := OutboundState.Pending]> s.(Discovery.outbound_peers)))
      (Controller.set_connect_request k (Action.add_to_queue k.(Controller.connect_request) (RequestData.new p) None))))
    as (o & c & Heq & Ho & Hd & Hp).
  exists o, c. split_and!; [exact Heq| |exact Hd|exact Hp].
  etrans; [exact Ho|]. cbn. rewrite map_size_insert. destruct (_ !! p); cbn; lia.
Qed.

Lemma keeps_select_outbound : config.(DiscoveryConfig.enabled) = true -> keeps select_outbound_peers.
Proof.
  intros Hen s t Hs. unfold select_outbound_peers. do 2 wp_step. wp_step. apply wp_select. intros sel t' Hlen. cbn [fst snd].
  assert (H : forall peers t', (N.of_nat (length peers) <= s.(Discovery.config).(DiscoveryConfig.num_outbound_peers)
      - N.of_nat (base.size s.(Discovery.outbound_peers)))%N ->
    wp_d ((_ ← add_outbound_candidates peers; self ← get_state;
      put_state (Discovery.set_inbound_peers self (filter (fun peer_id => self.(Discovery.outbound_peers) !! peer_id = None)
        self.(Discovery.inbound_peers)))) s) (fun _ x => bounded x.1) t').
  { clear sel t' Hlen. intros peers t' Hlen. wp_step.
    destruct (add_outbound_candidates_complete peers s) as (o & c & -> & Ho & Hd & Hp). cbn [wp fst snd].
    destruct Hs as [<- ? Hin Hout ? ? []]. do 3 wp_step. split; cbn; try done.
    - by intros p [? _]%elem_of_filter.
    - assert (Hsub : filter (fun p => o !! p = None) s.(Discovery.inbound_peers) ⊆ s.(Discovery.inbound_peers)) by set_solver.
      apply subseteq_size in Hsub. lia.
    - lia.
    - congruence.
    - split; by rewrite ?Hd, ?Hp. }
  destruct sel as [peers|peers|]; [apply H, Hlen; auto|apply H, Hlen; auto|by wp_step].
Qed.


(** *** Handlers *)

Lemma wp_keeps {A} (m : DM A) s Q t :
  keeps m -> bounded s -> (forall s' a t', bounded s' -> Q t' (s', inr a)) -> wp_d (m s) Q t.
Proof. intros Hm Hs HQ. eapply wp_mono; [by apply Hm|]. intros t' [s' [[]|a]] Hs'. by apply HQ. Qed.

Lemma keeps_update f : (forall c, controller_ok c -> controller_ok (f c)) -> keeps (update_controller f).
Proof.
  intros Hf s t Hs. unfold update_controller. do 3 wp_step. apply bounded_controller; [done|]. by apply Hf; destruct Hs.
Qed.

Lemma keeps_add_connect_request r d : keeps (add_connect_request r d).
Proof. apply keeps_update. by intros c [? ?]. Qed.
Lemma keeps_add_close p i d : keeps (add_close p i d).
Proof. apply keeps_update. by intros c [? ?]. Qed.
Lemma keeps_add_dial x d : keeps (add_dial x d).
Proof. apply keeps_update. intros c [? ?]. split; [by apply progress_queue|done]. Qed.
Lemma keeps_enqueue_dial x : keeps (enqueue_dial x).
Proof.
  intros s t Hs. unfold enqueue_dial. wp_step. apply wp_keeps; [apply keeps_update; intros; by apply register_done_ok|done|].
  intros s' [] t' Hs'. by apply keeps_add_dial.
Qed.

Lemma keeps_take_dial i : keeps (take_dial_in_progress i).
Proof.
  intros s t Hs. unfold take_dial_in_progress, Action.remove_in_progress. do 2 wp_step. do 3 wp_step.
  apply bounded_controller; [done|]. destruct Hs as [_ _ _ _ _ _ [Hd Hp]]. split; [|done].
  apply progress_subseteq; [done|]. apply delete_subseteq.
Qed.
Lemma keeps_take_peers i : keeps (take_peers_request i).
Proof.
  intros s t Hs. unfold take_peers_request, Action.remove_in_progress. do 2 wp_step. do 3 wp_step.
  apply bounded_controller; [done|]. destruct Hs as [_ _ _ _ _ _ [Hd Hp]]. split; [done|].
  apply progress_subseteq; [done|]. apply delete_subseteq.
Qed.
Lemma keeps_take_connect i : keeps (take_connect_request i).
Proof.
  intros s t Hs. unfold take_connect_request, Action.remove_in_progress. do 2 wp_step. do 3 wp_step.
  apply bounded_controller; [done|]. by destruct Hs as [_ _ _ _ _ _ [Hd Hp]].
Qed.

End invariant.

Create HintDb keeps.
#[export] Hint Resolve keeps_add_connect_request keeps_add_close keeps_add_dial
  keeps_enqueue_dial keeps_take_dial keeps_take_peers keeps_take_connect : keeps.
#[export] Hint Resolve bounded_state bounded_discovered bounded_bootstrap bounded_delete_outbound
  bounded_delete_inbound : keeps.

(** Walks through a handler that is built from parts that keep the bounds. *)
Ltac keep_step :=
  first [ wp_step
        | apply wp_call; intros ? ?; cbn [fst snd]
        | apply wp_some_order; intros ? ? ?; cbn [fst snd]
        | eapply wp_keeps; [solve [eauto with keeps]|solve [eauto with keeps]|intros ? ? ? ?; cbn [fst snd]] ].
Ltac keep := repeat keep_step; eauto with keeps.

Section handlers.
Context (config : DiscoveryConfig.t).
Abbreviation bounded := (bounded config).
Abbreviation keeps := (keeps config).
Implicit Types (s : Discovery.t) (p : PeerId).

Lemma keeps_close_connections l d : keeps (close_connections l d).
Proof. induction l as [|[p i] l IH]; intros s t Hs; cbn [close_connections]; keep. Qed.
#[local] Hint Resolve keeps_close_connections : keeps.

Lemma keeps_adjust : keeps adjust_peers.
Proof.
  intros s t Hs. unfold adjust_peers. do 2 wp_step. wp_step; [by wp_step|]. apply negb_false_iff in Heqb.
  unfold Discovery.is_enabled in Heqb. rewrite (ok_config _ _ Hs) in Heqb. pose proof (keeps_select_outbound _ Heqb). keep.
Qed.
#[local] Hint Resolve keeps_adjust : keeps.

Lemma keeps_next_peer : keeps get_next_peer_to_peers_request.
Proof. intros s t Hs. unfold get_next_peer_to_peers_request. keep. Qed.
#[local] Hint Resolve keeps_next_peer : keeps.

Lemma keeps_queue_peers r d : keeps (update_controller (fun c => Controller.set_peers_request c
  (Action.add_to_queue c.(Controller.peers_request) r d))).
Proof. apply keeps_update. intros c [? ?]. split; [done|by apply progress_queue]. Qed.
#[local] Hint Resolve keeps_queue_peers : keeps.

Lemma keeps_extension_step : keeps make_extension_step.
Proof. intros s t Hs. unfold make_extension_step. keep. Qed.
#[local] Hint Resolve keeps_extension_step : keeps.

Lemma keeps_initiate_extension n : keeps (initiate_extension_with_target n).
Proof. intros s t Hs. unfold initiate_extension_with_target. keep. Qed.
#[local] Hint Resolve keeps_initiate_extension : keeps.

Lemma not_full s :
  bounded s -> (config.(DiscoveryConfig.num_outbound_peers) <=? N.of_nat (base.size s.(Discovery.outbound_peers)))%N = false ->
  (N.of_nat (base.size s.(Discovery.outbound_peers)) < config.(DiscoveryConfig.num_outbound_peers))%N.
Proof. intros _ ?%N.leb_gt. lia. Qed.

(** An inbound peer becomes outbound. *)
Lemma upgrade_bounded s p x :
  bounded s -> p ∈ s.(Discovery.inbound_peers) -> config.(DiscoveryConfig.enabled) = true ->
  (N.of_nat (base.size s.(Discovery.outbound_peers)) < config.(DiscoveryConfig.num_outbound_peers))%N ->
  bounded (Discovery.set_outbound_peers (Discovery.set_inbound_peers s (s.(Discovery.inbound_peers) ∖ {[p]}))
             (<[p := x]> s.(Discovery.outbound_peers))).
Proof.
  intros Hs Hp Hen Hlt.
  change (bounded (Discovery.set_outbound_peers (Discovery.set_inbound_peers s (s.(Discovery.inbound_peers) ∖ {[p]}))
    (<[p := x]> (Discovery.set_inbound_peers s (s.(Discovery.inbound_peers) ∖ {[p]})).(Discovery.outbound_peers)))).
  apply bounded_set_outbound; [by apply bounded_delete_inbound|cbn; set_solver|by right].
Qed.

Lemma keeps_repair : keeps repair_outbound_peers.
Proof.
  intros s t Hs. unfold repair_outbound_peers. do 2 wp_step. wp_step; [by wp_step|].
  apply orb_false_iff in Heqb as [Hen%negb_false_iff Hfull]. unfold Discovery.is_enabled in Hen.
  rewrite (ok_config _ _ Hs) in Hen, Hfull. apply (not_full s Hs) in Hfull.
  wp_step. apply wp_some_order. intros peers t' Hpeers. cbn [fst snd].
  destruct (List.find _ peers) as [p|] eqn:Hp.
  - apply List.find_some in Hp as [Hp _]. apply list_elem_of_In in Hp. rewrite Hpeers, elem_of_elements in Hp.
    do 2 wp_step. wp_step. unfold set_outbound. do 3 wp_step. apply keeps_update; [by intros c [? ?]|].
    exact (upgrade_bounded s p _ Hs Hp Hen Hfull).
  - wp_step. apply wp_select. intros sel t'' Hlen. cbn [fst snd].
    destruct sel as [[|p l]| |]; [by wp_step| |by apply keeps_initiate_extension|by apply keeps_initiate_extension].
    wp_step. unfold set_outbound. do 3 wp_step. apply keeps_add_connect_request.
    apply bounded_set_outbound; [done| |by right]. intros Hin.
    assert (Hnone : forall q, q ∈ peers -> bool_decide (s.(Discovery.outbound_peers) !! q = None) = false)
      by (intros q Hq%list_elem_of_In; exact (List.find_none _ _ Hp q Hq)).
    specialize (Hnone p). rewrite Hpeers, elem_of_elements in Hnone. specialize (Hnone Hin).
    apply bool_decide_eq_false in Hnone. by apply Hnone, (ok_disjoint _ _ Hs).
Qed.
#[local] Hint Resolve keeps_repair : keeps.

Lemma keeps_successful_bootstrap : keeps handle_successful_bootstrap.
Proof. intros s t Hs. unfold handle_successful_bootstrap. keep. Qed.

Lemma keeps_failed_bootstrap : keeps handle_failed_bootstrap.
Proof. intros s t Hs. unfold handle_failed_bootstrap. keep. Qed.
#[local] Hint Resolve keeps_successful_bootstrap keeps_failed_bootstrap : keeps.

Lemma keeps_remove_done l : keeps (update_controller (fun c => Controller.dial_remove_done_addrs c l)).
Proof. apply keeps_update. intros c. apply remove_done_ok. Qed.
Lemma keeps_clear_done p l : keeps (update_controller (fun c => Controller.dial_clear_done_for_peer c p l)).
Proof. apply keeps_update. intros c [? ?]. by apply remove_done_ok. Qed.
Lemma keeps_register_done (x : PeerData.t) : keeps (update_controller (fun c => Controller.set_dial c
  (Action.register_done_on c.(Controller.dial) x))).
Proof. apply keeps_update. by intros c [? ?]. Qed.
#[local] Hint Resolve keeps_remove_done keeps_clear_done keeps_register_done : keeps.

Lemma keeps_add_peer_id i p : keeps (update_controller (fun c => Controller.dial_add_peer_id_to_dial_data c i p)).
Proof.
  apply keeps_update. intros c [Hd Hp]. unfold Controller.dial_add_peer_id_to_dial_data. case_match; [|by split].
  split; [|done]. apply progress_replace; [done|]. by eexists.
Qed.
Lemma keeps_remove_matching p :
  keeps (update_controller (fun c => Controller.dial_remove_matching_in_progress_connections c p)).
Proof. apply keeps_update. intros c [Hd Hp]. split; [|done]. apply progress_subseteq; [done|]. apply map_filter_subseteq. Qed.
#[local] Hint Resolve keeps_add_peer_id keeps_remove_matching : keeps.

Lemma keeps_failed_connection i e : keeps (handle_failed_connection i e).
Proof. intros s t Hs. unfold handle_failed_connection. keep. Qed.
#[local] Hint Resolve keeps_failed_connection : keeps.

Lemma keeps_connection p i : keeps (handle_connection p i).
Proof. intros s t Hs. unfold handle_connection. keep. Qed.

Lemma keeps_add_to_dial_queue x : keeps (add_to_dial_queue x).
Proof. intros s t Hs. unfold add_to_dial_queue, should_dial_m. keep. Qed.
#[local] Hint Resolve keeps_connection keeps_add_to_dial_queue : keeps.

Lemma keeps_dial_bootstrap : keeps dial_bootstrap_nodes.
Proof.
  assert (H : forall nodes, keeps (dial_nodes nodes)).
  { induction nodes as [|[p l] nodes IH]; intros s t Hs; cbn [dial_nodes]; unfold should_dial_m; keep. }
  intros s t Hs. unfold dial_bootstrap_nodes. do 2 wp_step. by apply H.
Qed.

Lemma keeps_peers_response i l : keeps (handle_peers_response i l).
Proof.
  assert (H : forall l, keeps (process_received_peers l)).
  { clear l. induction l as [|[p l] nodes IH]; intros s t Hs; cbn [process_received_peers]; keep. }
  intros s t Hs. unfold handle_peers_response. keep.
Qed.

Lemma keeps_failed_peers_request i : keeps (handle_failed_peers_request i).
Proof. intros s t Hs. unfold handle_failed_peers_request. keep. Qed.

Lemma keeps_peers_request p ch l : keeps (handle_peers_request p ch l).
Proof. intros s t Hs. unfold handle_peers_request. keep. Qed.
#[local] Hint Resolve keeps_dial_bootstrap keeps_peers_response keeps_failed_peers_request keeps_peers_request : keeps.

Lemma keeps_connect_request ch p : keeps (handle_connect_request ch p).
Proof.
  intros s t Hs. unfold handle_connect_request. do 3 wp_step. repeat keep_step; try done. apply bool_decide_eq_false in Heqb.
  apply bounded_add_inbound; [done|by apply eq_None_not_Some|]. rewrite <- (ok_config _ _ Hs). by apply N.ltb_lt.
Qed.
#[local] Hint Resolve keeps_connect_request : keeps.

Lemma keeps_connect_rejection p : keeps (handle_connect_rejection p).
Proof. intros s t Hs. unfold handle_connect_rejection. keep. Qed.
#[local] Hint Resolve keeps_connect_rejection : keeps.

Lemma keeps_connect_response i p a : keeps (handle_connect_response i p a).
Proof.
  intros s t Hs. unfold handle_connect_response. keep. unfold set_outbound. keep.
  apply bounded_set_outbound; [done| |left; by eexists]. intros Hin%(ok_disjoint _ _ H). congruence.
Qed.

Lemma keeps_failed_connect_request i : keeps (handle_failed_connect_request i).
Proof. intros s t Hs. unfold handle_failed_connect_request. keep. Qed.
#[local] Hint Resolve keeps_connect_response keeps_failed_connect_request : keeps.

Lemma keeps_cleanup p : keeps (cleanup_peer_on_disconnect p).
Proof. intros s t Hs. unfold cleanup_peer_on_disconnect. keep. Qed.
#[local] Hint Resolve keeps_cleanup : keeps.

Lemma keeps_remove_active p i : keeps (remove_active_connection p i).
Proof.
  intros s t Hs. unfold remove_active_connection. pose proof (ok_active _ _ Hs) as Hok. keep.
  - apply bounded_active; [done|]. intros q l' [_ Hl']%lookup_delete_Some. by apply (Hok q).
  - apply bounded_active; [done|]. intros q l' [[<- <-]|[_ Hl']]%lookup_insert_Some; [|by apply (Hok q)].
    apply bool_decide_eq_false in Heqb0. destruct (Hok p l) as (_ & Hnd & Hlen); [done|].
    split_and!; [done|by apply NoDup_filter|]. pose proof (length_filter (fun id => id <> i) l). lia.
Qed.
#[local] Hint Resolve keeps_remove_active : keeps.

Lemma keeps_closed_connection p i : keeps (handle_closed_connection p i).
Proof. intros s t Hs. unfold handle_closed_connection. keep. Qed.

Lemma keeps_close p i : keeps (close_connection p i).
Proof. intros s t Hs. unfold close_connection. keep. Qed.
#[local] Hint Resolve keeps_closed_connection keeps_close : keeps.

Lemma keeps_add_active p i s t :
  bounded s -> (forall l, s.(Discovery.active_connections) !! p = Some l -> i ∉ l) ->
  wp_d (add_active_connection p i s) (fun _ x => bounded x.1) t.
Proof.
  intros Hs Hi. unfold add_active_connection. pose proof (ok_active _ _ Hs) as Hok.
  pose proof (ok_config _ _ Hs) as Hc. keep.
  - apply bounded_active; [done|]. intros q l' [[<- <-]|[_ Hl']]%lookup_insert_Some; [|by apply (Hok q)].
    destruct (Hok p l) as (_ & Hnd & Hlen); [done|]. split_and!; [by destruct l| |].
    + apply NoDup_app. split_and!; [done| |apply NoDup_singleton]. intros x Hx ->%list_elem_of_singleton. by apply (Hi l).
    + rewrite length_app. cbn. apply N.leb_gt in Heqb. rewrite Hc in Heqb. lia.
  - apply bounded_active; [done|]. intros q l' [[<- <-]|[_ Hl']]%lookup_insert_Some; [|by apply (Hok q)].
    split_and!; [done|apply NoDup_singleton|]. cbn. lia.
Qed.

Lemma keeps_classify i p : config.(DiscoveryConfig.enabled) = true -> keeps (classify_peer i p).
Proof.
  intros Hen s t Hs. unfold classify_peer, set_outbound. pose proof (ok_config _ _ Hs) as Hc. keep.
  apply keeps_add_connect_request. apply bool_decide_eq_false in Heqb0.
  apply andb_true_iff in Heqb1 as [_ Hlt%N.ltb_lt]. rewrite Hc in Hlt. apply bounded_set_outbound; auto.
Qed.

Lemma keeps_routing_table p info : keeps (add_to_routing_table p info).
Proof. intros s t Hs. unfold add_to_routing_table. keep. Qed.

Lemma keeps_accept_inbound i p : config.(DiscoveryConfig.enabled) = false -> keeps (accept_inbound i p).
Proof.
  intros Hdis s t Hs. unfold accept_inbound. keep.
  apply bounded_add_inbound; [done|by rewrite (ok_disabled _ _ Hs)|]. rewrite <- (ok_config _ _ Hs). by apply N.ltb_lt.
Qed.
#[local] Hint Resolve keeps_routing_table : keeps.

(** What happens before a connection is added leaves the connections alone. *)
Lemma wp_update_bootstrap p s Q t :
  bounded s -> (forall s' t', bounded s' -> s'.(Discovery.active_connections) = s.(Discovery.active_connections) ->
    s'.(Discovery.config) = s.(Discovery.config) -> Q t' (s', inr tt)) ->
  wp_d (update_bootstrap_node_peer_id p s) Q t.
Proof. intros Hs HQ. unfold update_bootstrap_node_peer_id. keep; apply HQ; eauto with keeps. Qed.

Lemma wp_finish_dial p i s Q t :
  bounded s -> (forall s' t', bounded s' -> s'.(Discovery.active_connections) = s.(Discovery.active_connections) ->
    s'.(Discovery.config) = s.(Discovery.config) -> Q t' (s', inr tt)) ->
  wp_d (finish_dial i p s) Q t.
Proof.
  intros Hs HQ. pose proof (keeps_take_dial _ i s t Hs) as Htake. cbn in Htake. unfold finish_dial. wp_step.
  unfold take_dial_in_progress, Action.remove_in_progress. do 5 wp_step. wp_step; [by wp_step; apply HQ|].
  pose proof (keeps_remove_matching p _ t Htake) as Hrm. unfold update_controller in *. do 3 wp_step. by apply HQ.
Qed.

Lemma keeps_new_peer i p info : keeps (handle_new_peer i p info).
Proof.
  intros s t Hs. unfold handle_new_peer. do 2 wp_step. destruct (match _ with Some _ => _ | None => _ end) eqn:Hold.
  { by wp_step. }
  assert (Hi : forall l, s.(Discovery.active_connections) !! p = Some l -> i ∉ l).
  { intros l Hl. rewrite Hl in Hold. by apply bool_decide_eq_false in Hold. }
  wp_step. apply wp_update_bootstrap; [done|]. intros s1 t1 Hs1 Ha1 Hc1. cbn [fst snd].
  wp_step. apply wp_finish_dial; [done|]. intros s2 t2 Hs2 Ha2 Hc2. cbn [fst snd]. do 4 wp_step. wp_step.
  eapply wp_mono; [apply keeps_add_active; [by apply bounded_discovered|cbn; by rewrite Ha2, Ha1]|].
  intros t3 [s3 [[]|[refused already]]] Hs3. cbn [fst snd] in *. wp_step; [by wp_step|].
  unfold Discovery.is_enabled. rewrite (ok_config _ _ Hs2).
  destruct config.(DiscoveryConfig.enabled) eqn:Hen.
  - pose proof (keeps_classify i p Hen). keep.
  - pose proof (keeps_accept_inbound i p Hen). keep.
Qed.
#[local] Hint Resolve keeps_new_peer : keeps.

Lemma keeps_network_event e : keeps (on_network_event e).
Proof. intros s t Hs. unfold on_network_event. keep. Qed.

Lemma keeps_wake {T U V} `{Countable T, Countable U} (action : Controller.t -> Action.t T U V) set_action i :
  (forall c, controller_ok c -> controller_ok (set_action c (Action.wake i (action c)))) ->
  keeps (wake action set_action i).
Proof. intros Hok. by apply keeps_update. Qed.

Lemma keeps_dial_peer x s t :
  bounded s -> can_dial s = true -> wp_d (dial_peer x s) (fun _ x => bounded x.1) t.
Proof.
  intros Hs Hcan. unfold dial_peer, should_dial_m. do 3 wp_step. wp_step. apply wp_call. intros r t'. cbn [fst snd].
  do 2 wp_step; [by wp_step|]. wp_step; [|by wp_step]. destruct p as [p addrs].
  wp_step. apply wp_call. intros r' t''. cbn [fst snd]. wp_step. unfold update_controller. do 3 wp_step.
  assert (Hs' : forall c, controller_ok c -> bounded (Discovery.set_controller s c)) by (intros; by apply bounded_controller).
  pose proof (Hs' _ (register_dial_ok _ x (DiscoveryReply.connection_id r') x (ok_controller _ _ Hs) Hcan)). keep.
Qed.

Lemma keeps_peers_request_peer x s t :
  bounded s -> can_peers_request s = true -> wp_d (peers_request_peer x s) (fun _ x => bounded x.1) t.
Proof.
  intros Hs Hcan. unfold peers_request_peer, update_controller. repeat keep_step; [done|].
  apply bounded_controller; [apply bounded_controller; [done|]; destruct Hs as [_ _ _ _ _ _ []]; by split|].
  destruct Hs as [_ _ _ _ _ _ [Hd Hp]]. split; [done|]. by apply progress_register.
Qed.

Lemma keeps_connect_request_peer x : keeps (connect_request_peer x).
Proof.
  intros s t Hs. unfold connect_request_peer, update_controller. repeat keep_step; [done|].
  by do 2 (apply bounded_controller; [|destruct Hs as [_ _ _ _ _ _ []]; by split]).
Qed.

(** Taking a value out of a queue. *)
Lemma wp_receive {T U V} `{Countable T, Countable U} (action : Controller.t -> Action.t T U V) set_action enabled f s t :
  bounded s ->
  (forall v q t, enabled s = true -> action s.(Discovery.controller) = Action.set_queue (action s.(Discovery.controller)) (v :: q) ->
    let s' := Discovery.set_controller s (set_action s.(Discovery.controller)
                (Action.set_queue (action s.(Discovery.controller)) q)) in
    wp_d (f v s') (fun _ x => bounded x.1) t) ->
  wp_d (receive action set_action enabled f s) (fun _ x => bounded x.1) t.
Proof.
  intros Hs Hf. unfold receive. do 3 wp_step; [|by wp_step]. wp_step; [|by wp_step]. destruct p as [v a].
  unfold Action.recv in *. destruct (action _) as [[|v' q] d0 d1 d2 d3] eqn:Ha; simplify_eq/=. do 2 wp_step.
  by apply (Hf v q).
Qed.

Lemma keeps_turn turn : keeps (discovery_turn turn).
Proof.
  intros s t Hs. pose proof (ok_controller _ _ Hs) as [Hd Hp]. destruct turn as [| | | | | | | | | |[|[|[|k]]] i]; cbn [discovery_turn].
  all: try (apply wp_receive; [done|]; intros v q t' Hen _ s'; assert (Hs' : bounded s') by (by apply bounded_controller)).
  - by apply keeps_dial_peer.
  - by apply keeps_peers_request_peer.
  - by apply keeps_connect_request_peer.
  - by apply keeps_close.
  - by apply keeps_dial_bootstrap.
  - by apply keeps_connection.
  - by apply keeps_failed_connection.
  - by apply keeps_closed_connection.
  - keep.
  - by apply keeps_network_event.
  - apply keeps_wake; [|done]. intros c [Hcd Hcp]. split; [|done]. unfold Action.wake. by case_match; [case_match|].
  - apply keeps_wake; [|done]. intros c [Hcd Hcp]. split; [done|]. unfold Action.wake. by case_match; [case_match|].
  - apply keeps_wake; [|done]. by intros c [Hcd Hcp].
  - apply keeps_wake; [|done]. by intros c [Hcd Hcp].
Qed.
End handlers.

(** The states that discovery reaches, whatever the network task reports and the
    swarm answers. *)
Inductive discovery_reachable (config : DiscoveryConfig.t) : Discovery.t -> Prop :=
  | reachable_new nodes s : Discovery.new config nodes = Ret s -> discovery_reachable config s
  | reachable_turn s turn t s' r :
      discovery_reachable config s -> steps (discovery_turn turn s) t (Complete (s', r)) -> discovery_reachable config s'.

Lemma reachable_bounded config s : discovery_reachable config s -> bounded config s.
Proof.
  induction 1 as [nodes s Hnew|s turn t s' r _ IH Hsteps]; [by eapply new_bounded|].
  pose proof (wp_complete _ _ _ _ _ _ _ _ (keeps_turn config turn s [] IH) Hsteps (answered_any _ _)) as Hb. exact Hb.
Qed.

(** C15: In every state that peer discovery reaches: no peer is both inbound and
    outbound; there are no more of either than the configuration allows; a peer
    has no more active connections than allowed, all different; and no more than
    20 dials and 20 requests for peers are in progress. *)
Theorem discovery_bounded (config : DiscoveryConfig.t) (s : Discovery.t) (Hs : discovery_reachable config s) :
  (forall p, p ∈ s.(Discovery.inbound_peers) -> s.(Discovery.outbound_peers) !! p = None) /\
  (N.of_nat (base.size s.(Discovery.inbound_peers)) <= config.(DiscoveryConfig.num_inbound_peers))%N /\
  (N.of_nat (base.size s.(Discovery.outbound_peers)) <= config.(DiscoveryConfig.num_outbound_peers))%N /\
  (forall p l, s.(Discovery.active_connections) !! p = Some l ->
     NoDup l /\ (N.of_nat (length l) <= N.max 1 config.(DiscoveryConfig.max_connections_per_peer))%N) /\
  (base.size s.(Discovery.controller).(Controller.dial).(Action.in_progress) <= 20)%nat /\
  (base.size s.(Discovery.controller).(Controller.peers_request).(Action.in_progress) <= 20)%nat.
Proof.
  apply reachable_bounded in Hs as [_ Hdis Hin Hout _ Hact [[_ Hd] [_ Hp]]].
  unfold Controller.DEFAULT_DIAL_CONCURRENT_FACTOR, Controller.DEFAULT_PEERS_REQUEST_CONCURRENT_FACTOR in *.
  split_and!; [done|done|done| |lia|lia]. intros p l Hl. by apply Hact in Hl as (_ & ? & ?).
Qed.

(** ** What a node tells about its peers *)

Lemma retain_elem nodes infos e :
  e ∈ foldl (fun nodes (kv : PeerId * Info.t) => retain_bootstrap_nodes nodes kv.2) nodes infos <->
  e ∈ nodes /\ forall kv a, kv ∈ infos -> a ∈ e.2 -> a ∉ kv.2.(Info.listen_addrs).
Proof.
  revert nodes. induction infos as [|kv infos IH]; intros nodes; cbn [foldl]; [set_solver|].
  rewrite IH. unfold retain_bootstrap_nodes. rewrite list_elem_of_In, List.filter_In, <- list_elem_of_In, List.forallb_forall.
  setoid_rewrite elem_of_cons. split.
  - intros [[He Hkv] Hrest]. split; [done|]. intros kv' a [-> |Hin] Ha; [|by eapply Hrest].
    specialize (Hkv a). rewrite <- list_elem_of_In, negb_true_iff, bool_decide_eq_false in Hkv. auto.
  - intros [He Hall]. split_and!; [done| |intros; eapply Hall; eauto].
    intros a. rewrite <- list_elem_of_In, negb_true_iff, bool_decide_eq_false. eauto.
Qed.

(** A request for peers is answered with exactly what the requesting peer does not
    have in its request: the discovered peers that have an address, without the
    requesting one, and the bootstrap nodes that share no address with a
    discovered peer. The state is left alone. *)
Theorem peers_response_exact (host : DiscoveryCall.t -> DiscoveryReply.t) (s : Discovery.t) (peer : PeerId)
    (ch : ResponseChannel) (known : gset PeerAddrs) :
  exists told,
    execute host (handle_peers_request peer ch known s) =
      ([(DiscoveryCall.SendResponse ch (DiscoveryResponse.Peers told),
         host (DiscoveryCall.SendResponse ch (DiscoveryResponse.Peers told)))], Complete (s, inr tt)) /\
    forall e, e ∈ told <-> (e ∉ known) /\
      ((exists p info, s.(Discovery.discovered_peers) !! p = Some info /\ info.(Info.listen_addrs) <> [] /\
          p <> peer /\ e = (Some p, info.(Info.listen_addrs))) \/
       (e ∈ s.(Discovery.bootstrap_nodes) /\
        forall p info a, s.(Discovery.discovered_peers) !! p = Some info -> a ∈ e.2 -> a ∉ info.(Info.listen_addrs))).
Proof.
  eexists. split; [done|]. intros e. rewrite elem_of_difference. unfold get_all_peers_except.
  rewrite elem_of_union, !elem_of_list_to_set, list_elem_of_fmap, retain_elem.
  setoid_rewrite list_elem_of_filter. setoid_rewrite list_elem_of_filter. split.
  - intros [[([p info] & -> & ? & ? & Hp)|[He Hall]] Hk]; (split; [done|]).
    + left. exists p, info. by apply elem_of_map_to_list in Hp.
    + right. split; [done|]. intros p info a Hp Ha Hin. eapply (Hall (p, info)); [|exact Ha|exact Hin].
      split; [by intros Hnil; cbn in Hnil; rewrite Hnil in Hin; apply not_elem_of_nil in Hin|by apply elem_of_map_to_list].
  - intros [Hk [(p & info & Hp & Hne & Hneq & ->)|[He Hall]]]; (split; [|done]).
    + left. exists (p, info). split_and!; [done|done|done|by apply elem_of_map_to_list].
    + right. split; [done|]. intros [p info] a [_ Hp%elem_of_map_to_list] Ha. by eapply Hall.
Qed.

(** ** Selection *)

Section buckets.
Context (buckets : list (list PeerId)) (n : N).
Implicit Types (c : list PeerId).

(** A pass keeps the candidates, adds different ones from the buckets, and adds
    one if there is one to add. *)
Lemma bucket_pass_spec bs c :
  NoDup c -> exists k, bucket_pass bs n c = c ++ k /\ NoDup (c ++ k) /\ (forall p, p ∈ k -> p ∈ concat bs) /\
    ((N.of_nat (length c) < n)%N -> (exists p, p ∈ concat bs /\ p ∉ c) -> k <> []).
Proof.
  revert c. induction bs as [|b bs IH]; intros c Hc; cbn [bucket_pass concat].
  { exists []. rewrite app_nil_r. split_and!; [done|done|set_solver|]. intros _ (p & ?%not_elem_of_nil & _). done. }
  destruct (N.leb_spec n (N.of_nat (length c))) as [Hle|Hlt].
  { exists []. rewrite app_nil_r. split_and!; [done|done|set_solver|lia]. }
  destruct (List.find _ b) as [p|] eqn:Hfind.
  - apply List.find_some in Hfind as [Hp%list_elem_of_In Hpc]. apply negb_true_iff, bool_decide_eq_false in Hpc.
    destruct (IH (c ++ [p])) as (k & -> & Hnd & Hk & _).
    { apply NoDup_app. split_and!; [done| |apply NoDup_singleton]. by intros x Hx ->%list_elem_of_singleton. }
    exists (p :: k). rewrite <- app_assoc in *. split_and!; [done|done| |done].
    intros q [-> |Hq]%elem_of_cons; apply elem_of_app; [by left|right; by apply Hk].
  - destruct (IH c Hc) as (k & -> & Hnd & Hk & Hprog). exists k. split_and!; [done|done|set_solver|].
    intros _ (p & [Hp|Hp]%elem_of_app & Hpc); [|apply Hprog; eauto].
    apply list_elem_of_In, (List.find_none _ _ Hfind) in Hp. apply negb_false_iff, bool_decide_eq_true in Hp. done.
Qed.

Lemma more_candidates c :
  NoDup (concat buckets) -> (length c < length (concat buckets))%nat -> exists p, p ∈ concat buckets /\ p ∉ c.
Proof.
  intros Hnd Hlen. destruct (decide (Forall (fun p => p ∈ c) (concat buckets))) as [Hall|Hnot].
  - rewrite Forall_forall in Hall. apply NoDup_submseteq, submseteq_length in Hall; [lia|done].
  - apply not_Forall_Exists, Exists_exists in Hnot as (p & Hp & Hc); [|apply _]. eauto.
Qed.

(** Enough passes give [n] candidates. *)
Lemma bucket_cycle_complete passes c :
  NoDup (concat buckets) -> (n <= N.of_nat (length (concat buckets)))%N ->
  NoDup c -> (forall p, p ∈ c -> p ∈ concat buckets) -> (N.of_nat (length c) <= n)%N ->
  (n <= N.of_nat (length c + passes))%N ->
  exists l, bucket_cycle passes buckets n c = Some l /\ NoDup l /\ (forall p, p ∈ l -> p ∈ concat buckets) /\
    N.of_nat (length l) = n.
Proof.
  intros Hnd Hn. revert c. induction passes as [|k IH]; intros c Hc Hin Hlen Hpass; cbn [bucket_cycle];
    destruct (N.leb_spec n (N.of_nat (length c))) as [Hle|Hlt]; try (exists c; split_and!; [done|done|done|lia]); [lia|].
  pose proof (bucket_pass_length buckets n c Hlen) as Hlen'.
  destruct (bucket_pass_spec buckets c Hc) as (new & Heq & Hnd' & Hnew & Hprog). rewrite Heq in *.
  apply IH; [done| |done|].
  - intros p [Hp|Hp]%elem_of_app; auto.
  - specialize (Hprog Hlt (more_candidates c Hnd ltac:(lia))). rewrite length_app. destruct new; [done|]. cbn. lia.
Qed.
End buckets.

Lemma concat_not_excluded excluded (buckets : list (N * list PeerId)) :
  concat ((fun bucket => not_excluded excluded bucket.2) <$> buckets) = not_excluded excluded (concat buckets.*2).
Proof.
  induction buckets as [|b bs IH]; [done|]. cbn. rewrite IH. unfold not_excluded. by rewrite list.filter_app.
Qed.

Lemma concat_reverse {A} (l : list (list A)) : concat (reverse l) ≡ₚ concat l.
Proof.
  induction l as [|x l IH]; [done|]. rewrite reverse_cons, concat_app. cbn. rewrite app_nil_r, IH. apply Permutation_app_comm.
Qed.

Lemma execute_yield_bind {A} host e (k : DiscoveryReply.t -> DM A) s :
  execute host ((r ← yield_ e; k r) s) = let '(t, m) := execute host (k (host e) s) in ((e, host e) :: t, m).
Proof. done. Qed.

Lemma execute_order_bind {A B} host (l : list A) (k : list A -> DM B) s :
  execute host ((l ← in_some_order l; k l) s) =
    let '(t, m) := execute host (k (reorder (DiscoveryReply.positions (host DiscoveryCall.Order)) l) s) in
    ((DiscoveryCall.Order, host DiscoveryCall.Order) :: t, m).
Proof. done. Qed.

(** The Kademlia selector returns, when the routing table has every peer once.
    When it claims to have selected exactly as many as wanted, the candidates are
    different and none is excluded; and it selects as many as wanted if the
    routing table has that many that are not excluded. *)
Theorem kademlia_select_sound (host : DiscoveryCall.t -> DiscoveryReply.t) (discovered : gmap PeerId Info.t)
    (excluded : list PeerId) (n : N) (s : Discovery.t) (table : list PeerId)
    (Htable : table = concat (DiscoveryReply.kbuckets (host DiscoveryCall.Kbuckets)).*2) (Hnd : NoDup table) :
  exists t sel, execute host (kademlia_select discovered excluded n s) = (t, Complete (s, inr sel)) /\
    forall peers, sel = Selection.Exactly peers ->
      NoDup peers /\ (forall p, p ∈ peers -> p ∉ excluded) /\ (N.of_nat (length peers) <= n)%N /\
      ((n <= N.of_nat (length (not_excluded excluded table)))%N -> N.of_nat (length peers) = n).
Proof.
  unfold kademlia_select. destruct (N.eqb_spec n 0) as [-> |Hn]; [by eexists _, _|].
  rewrite execute_yield_bind.
  set (buckets := (fun bucket => not_excluded excluded bucket.2) <$> DiscoveryReply.kbuckets (host DiscoveryCall.Kbuckets)).
  assert (Hb : concat buckets = not_excluded excluded table) by (subst table; apply concat_not_excluded).
  assert (Hbnd : NoDup (concat buckets)) by (rewrite Hb; by apply NoDup_filter).
  assert (Hbex : forall p, p ∈ concat buckets -> p ∉ excluded) by (rewrite Hb; by intros p [? _]%list_elem_of_filter).
  destruct (N.ltb_spec (N.of_nat (length (concat buckets))) n) as [Hfew|Hmany].
  - destruct (_ <? _)%N; rewrite execute_order_bind.
    + destruct (concat buckets ++ _); by eexists _, _.
    + eexists _, _. split; [done|]. intros peers [= <-]. set (rest := not_excluded _ (filter _ _)).
      set (chosen := take _ _).
      assert (Hch : forall p, p ∈ chosen -> p ∈ rest).
      { intros p Hp. eapply elem_of_submseteq; [exact Hp|]. etrans; [apply sublist_submseteq, sublist_take|].
        by rewrite reorder_permutation. }
      assert (Hrest : forall p, p ∈ rest -> (p ∉ excluded) /\ p ∉ concat buckets).
      { intros p [? [? _]%list_elem_of_filter]%list_elem_of_filter. by split. }
      split_and!.
      * apply NoDup_app. split_and!; [done| |].
        -- intros p Hp Hp'. by apply Hch, Hrest in Hp' as [_ ?].
        -- eapply sublist_NoDup; [|apply sublist_take]. rewrite reorder_permutation. do 2 apply NoDup_filter.
           apply NoDup_fst_map_to_list.
      * intros p [Hp|Hp]%elem_of_app; [by apply Hbex|]. by apply Hch, Hrest in Hp as [? _].
      * rewrite length_app. unfold chosen. rewrite length_take. lia.
      * rewrite <- Hb. lia.
  - pose proof (concat_reverse buckets) as Hperm.
    destruct (bucket_cycle_complete (reverse buckets) n (N.to_nat n) []) as (l & -> & Hl & Hin & Hlen);
      rewrite ?Hperm; [done|lia|constructor|set_solver|cbn; lia|cbn; lia|]. eexists _, _. split; [done|].
    intros peers [= <-]. split_and!; [done| |lia|done]. intros p Hp. apply Hbex. rewrite <- Hperm. by apply Hin.
Qed.
