(* ===== verification/DiscoveryRuns.v ===== *)
(** * Runs of peer discovery

    What peers and failures can do to a node's discovery: inbound slots that are
    never freed, an identification that stops the network task, a persistent peer
    that is not dialled again and an extension that never ends; and the witnesses
    of the theorems of DiscoveryFacts.v. *)

From S2P Require Import Prelude Bytes ConsensusTypes Coroutine Network Discovery DiscoveryFacts.

(** Steps through a handler without evaluating what it looks up. *)
Ltac run_handler :=
  unfold mbind, handler_bind, get_state, put_state, mret, handler_ret, yield_, when, unless;
  cbn [prog_bind fst snd].

(** ** Inbound slots *)

Lemma execute_turns_cons (host : DiscoveryCall.t -> DiscoveryReply.t) turn turns s t s' :
  execute host (discovery_turn turn s) = (t, Complete (s', inr tt)) ->
  execute host (discovery_turns (turn :: turns) s) =
    (t ++ (execute host (discovery_turns turns s')).1, (execute host (discovery_turns turns s')).2).
Proof. intros H. cbn [discovery_turns]. unfold mbind, handler_bind. by rewrite (execute_bind host _ _ _ _ H). Qed.

Lemma connect_accepted (host : DiscoveryCall.t -> DiscoveryReply.t) s p ch :
  s.(Discovery.outbound_peers) !! p = None -> p ∉ s.(Discovery.inbound_peers) ->
  (N.of_nat (base.size s.(Discovery.inbound_peers)) < s.(Discovery.config).(DiscoveryConfig.num_inbound_peers))%N ->
  exists t, execute host (discovery_turn (DiscoveryTurn.NetworkEvent
      (DiscoveryEvent.Request p DiscoveryRequest.Connect ch)) s) =
    (t, Complete (Discovery.set_inbound_peers s ({[p]} ∪ s.(Discovery.inbound_peers)), inr tt)).
Proof.
  intros Hout Hin Hlt. unfold discovery_turn, on_network_event, handle_connect_request. run_handler. eexists.
  rewrite Hout, (bool_decide_false (is_Some None)), (bool_decide_false (p ∈ _)) by (done || by intros []).
  apply N.ltb_lt in Hlt. rewrite Hlt. done.
Qed.

Lemma connect_refused (host : DiscoveryCall.t -> DiscoveryReply.t) s p ch :
  s.(Discovery.outbound_peers) !! p = None -> p ∉ s.(Discovery.inbound_peers) ->
  (s.(Discovery.config).(DiscoveryConfig.num_inbound_peers) <= N.of_nat (base.size s.(Discovery.inbound_peers)))%N ->
  let response := DiscoveryCall.SendResponse ch (DiscoveryResponse.Connect false) in
  execute host (discovery_turn (DiscoveryTurn.NetworkEvent
      (DiscoveryEvent.Request p DiscoveryRequest.Connect ch)) s) =
    ([(response, host response)], Complete (s, inr tt)).
Proof.
  intros Hout Hin Hge. unfold discovery_turn, on_network_event, handle_connect_request. run_handler.
  rewrite Hout, (bool_decide_false (is_Some None)), (bool_decide_false (p ∈ _)) by (done || by intros []).
  apply N.ltb_ge in Hge. by rewrite Hge.
Qed.

(** The connection of a peer that was not identified is closed: only the dial is
    forgotten. *)
Lemma closed_unidentified (host : DiscoveryCall.t -> DiscoveryReply.t) s p i :
  s.(Discovery.active_connections) !! p = None -> s.(Discovery.outbound_peers) !! p = None ->
  exists t c, execute host (discovery_turn (DiscoveryTurn.ConnectionClosed p i) s) =
    (t, Complete (Discovery.set_controller s c, inr tt)).
Proof.
  intros Hact Hout. unfold discovery_turn, handle_closed_connection, remove_active_connection, take_dial_in_progress.
  run_handler. rewrite Hact. cbn [prog_bind fst snd Action.remove_in_progress Discovery.outbound_peers
    Discovery.inbound_peers Discovery.set_controller].
  rewrite Hout, (bool_decide_false (is_Some None)) by (by intros []).
  eexists _, _. by destruct (bool_decide (p ∈ _)).
Qed.

(** A peer that asks for a persistent connection as soon as it is connected, and
    disconnects before it is identified. *)
Definition visit (ch : ResponseChannel) (i : ConnectionId) (p : PeerId) : list DiscoveryTurn.t :=
  [DiscoveryTurn.NetworkEvent (DiscoveryEvent.Request p DiscoveryRequest.Connect ch);
   DiscoveryTurn.ConnectionClosed p i].

(** [p] is not known to the node in any role. *)
Definition stranger (s : Discovery.t) (p : PeerId) : Prop :=
  s.(Discovery.active_connections) !! p = None /\ s.(Discovery.outbound_peers) !! p = None /\
  p ∉ s.(Discovery.inbound_peers).

Lemma visits_fill (host : DiscoveryCall.t -> DiscoveryReply.t) ch i ps s :
  NoDup ps -> Forall (stranger s) ps ->
  (N.of_nat (base.size s.(Discovery.inbound_peers) + length ps)
   <= s.(Discovery.config).(DiscoveryConfig.num_inbound_peers))%N ->
  exists t c, execute host (discovery_turns (concat (visit ch i <$> ps)) s) =
    (t, Complete (Discovery.set_controller
       (Discovery.set_inbound_peers s (list_to_set ps ∪ s.(Discovery.inbound_peers))) c, inr tt)).
Proof.
  revert s. induction ps as [|p ps IH]; intros s Hnd Hps Hlen.
  { exists [], s.(Discovery.controller). cbn. rewrite union_empty_l_L. by destruct s. }
  apply NoDup_cons in Hnd as [Hp Hnd]. apply Forall_cons in Hps as [(Hact & Hout & Hin) Hps].
  cbn [fmap list_fmap concat visit app length] in *.
  destruct (connect_accepted host s p ch) as [t1 H1]; [done|done|lia|].
  rewrite (execute_turns_cons _ _ _ _ _ _ H1). set (s1 := Discovery.set_inbound_peers s _).
  destruct (closed_unidentified host s1 p i) as (t2 & c2 & H2); [done|done|].
  rewrite (execute_turns_cons _ _ _ _ _ _ H2). set (s2 := Discovery.set_controller s1 _).
  destruct (IH s2) as (t3 & c3 & H3); [done| | |].
  - rewrite Forall_forall in *. intros q Hq. destruct (Hps q Hq) as (? & ? & ?). split_and!; [done|done|].
    cbn. rewrite elem_of_union, elem_of_singleton. intros [-> |?]; done.
  - cbn. rewrite size_union by set_solver. rewrite size_singleton. lia.
  - rewrite H3. eexists _, c3. cbn. do 3 f_equal. unfold Discovery.set_controller, Discovery.set_inbound_peers. cbn.
    f_equal. set_solver.
Qed.

(** Peers that only connect, ask for a persistent connection and disconnect before
    they are identified take all inbound slots of a node for good: afterwards
    every other peer is refused, although none of them is connected. *)
Theorem hostile_peers_fill_inbound (host : DiscoveryCall.t -> DiscoveryReply.t) (s : Discovery.t) (ps : list PeerId)
    (q : PeerId) (ch : ResponseChannel) (i : ConnectionId)
    (Hnd : NoDup ps) (Hps : Forall (stranger s) (q :: ps)) (Hq : q ∉ ps)
    (Hfree : (N.of_nat (base.size s.(Discovery.inbound_peers) + length ps)
              = s.(Discovery.config).(DiscoveryConfig.num_inbound_peers))%N) :
  let response := DiscoveryCall.SendResponse ch (DiscoveryResponse.Connect false) in
  exists t s', execute host (discovery_turns (concat (visit ch i <$> ps)) s) = (t, Complete (s', inr tt)) /\
    s'.(Discovery.active_connections) = s.(Discovery.active_connections) /\
    (forall p, p ∈ ps -> p ∈ s'.(Discovery.inbound_peers)) /\
    execute host (discovery_turn (DiscoveryTurn.NetworkEvent
        (DiscoveryEvent.Request q DiscoveryRequest.Connect ch)) s') =
      ([(response, host response)], Complete (s', inr tt)).
Proof.
  intros response. apply Forall_cons in Hps as [(_ & Hout & Hin) Hps].
  destruct (visits_fill host ch i ps s) as (t & c & Heq); [done|done|lia|].
  eexists t, _. split; [exact Heq|]. split; [done|]. cbn [Discovery.inbound_peers Discovery.set_controller
    Discovery.set_inbound_peers]. split; [set_solver|].
  apply connect_refused; cbn; [done|set_solver|]. rewrite <- Hfree. rewrite size_union, size_list_to_set; [lia|done|].
  rewrite Forall_forall in Hps. intros p Hp Hp'. apply elem_of_list_to_set in Hp. by destruct (Hps p Hp) as (_ & _ & ?).
Qed.

(** ** Identification *)

(** With discovery and its Kademlia protocol enabled, no run of the handler of an
    identified peer returns when the peer announces no address: the handler
    unwraps the first one. *)
Theorem hostile_identify_stops (config : DiscoveryConfig.t) (s s' : Discovery.t) (p : PeerId) (i : ConnectionId)
    (t : trace DiscoveryCall.t DiscoveryReply.t) (r : Empty_set + bool)
    (Hs : discovery_reachable config s) (Hen : config.(DiscoveryConfig.enabled) = true)
    (Hkad : config.(DiscoveryConfig.bootstrap_protocol) = BootstrapProtocol.Kademlia)
    (Hnew : s.(Discovery.active_connections) !! p = None) :
  steps (handle_new_peer i p (Info.mk []) s) t (Complete (s', r)) -> False.
Proof.
  intros Hsteps. apply reachable_bounded in Hs.
  assert (Hwp : wp_d (handle_new_peer i p (Info.mk []) s) (fun _ _ => False) []).
  { unfold handle_new_peer. do 2 wp_step. rewrite Hnew. wp_step. eapply wp_update_bootstrap; [done|].
    intros s1 t1 Hs1 Ha1 Hc1. cbn [fst snd]. wp_step. eapply wp_finish_dial; [done|]. intros s2 t2 Hs2 Ha2 Hc2.
    cbn [fst snd]. do 4 wp_step. wp_step. unfold add_active_connection. do 2 wp_step.
    cbn [Discovery.active_connections Discovery.set_discovered_peers]. rewrite Ha2, Ha1, Hnew. do 3 wp_step.
    unfold Discovery.is_enabled. rewrite (ok_config _ _ Hs2), Hen. wp_step.
    eapply wp_keeps; [by apply keeps_classify| |].
    - apply (bounded_active config (Discovery.set_discovered_peers s2 _)); [by apply bounded_discovered|].
      pose proof (ok_active _ _ Hs) as Hok. intros q l [[<- <-]|[_ Hl]]%lookup_insert_Some; [|exact (Hok q l Hl)].
      split_and!; [done|apply NoDup_singleton|]. cbn. lia.
    - intros s3 [] t3 Hs3. cbn [fst snd]. wp_step. unfold add_to_routing_table. do 2 wp_step.
      rewrite (ok_config _ _ Hs3), Hkad. wp_step; [|done]. done. }
  exact (wp_complete _ _ _ _ _ _ _ _ Hwp Hsteps (answered_any _ _)).
Qed.

(** ** Outbound peers *)

(** A node that misses an outbound peer gives up when all the peers it has
    discovered have been asked before: the selector answers that it has selected
    exactly the wanted number, with no candidate, and [repair_outbound_peers]
    neither asks a peer nor extends the search. *)
Theorem repair_gives_up (host : DiscoveryCall.t -> DiscoveryReply.t) (s : Discovery.t)
    (Hen : Discovery.is_enabled s = true) (Hsel : s.(Discovery.selector) = SelectorKind.Kademlia)
    (Hmissing : (N.of_nat (base.size s.(Discovery.outbound_peers))
                 < s.(Discovery.config).(DiscoveryConfig.num_outbound_peers))%N)
    (Hin : s.(Discovery.inbound_peers) = ∅) (Hsome : s.(Discovery.discovered_peers) <> ∅)
    (Hasked : forall p, is_Some (s.(Discovery.discovered_peers) !! p) -> Discovery.excluded s p = true)
    (Htable : forall p, p ∈ concat (DiscoveryReply.kbuckets (host DiscoveryCall.Kbuckets)).*2 ->
       p ∈ Discovery.get_excluded_peers s) :
  exists t, execute host (repair_outbound_peers s) = (t, Complete (s, inr tt)).
Proof.
  assert (Hrest : forall l, (forall p, p ∈ l -> p ∈ Discovery.get_excluded_peers s) ->
            not_excluded (Discovery.get_excluded_peers s) l = []).
  { intros l Hl. apply elem_of_nil_inv. intros p [Hn Hp]%list_elem_of_filter. by apply Hn, Hl. }
  assert (Hdisc : forall p, p ∈ (map_to_list s.(Discovery.discovered_peers)).*1 -> p ∈ Discovery.get_excluded_peers s).
  { intros p Hp. unfold Discovery.get_excluded_peers. apply list_elem_of_filter. split; [|done].
    apply list_elem_of_fmap in Hp as ([q info] & -> & Hq). apply elem_of_map_to_list in Hq. apply Hasked. by eexists. }
  assert (Hlen : (1 <= N.of_nat (base.size s.(Discovery.discovered_peers)))%N).
  { destruct (base.size s.(Discovery.discovered_peers)) eqn:Hz; [by apply map_size_empty_inv in Hz|lia]. }
  edestruct (wp_execute (fun _ _ => True) (fun _ e r => r = host e) host (repair_outbound_peers s)
    (fun _ x => x = (s, inr tt))) as (t & x & Hx & ->); [|done|by exists t].
  unfold repair_outbound_peers. do 2 wp_step. apply N.leb_gt in Hmissing. rewrite Hen, Hmissing. cbn [negb orb].
  wp_step. unfold in_some_order at 1. rewrite Hin, elements_empty. wp_step. apply wp_yield; [done|]. intros r1 _.
  cbn [fst snd]. wp_step. assert (Hnil : reorder (A := PeerId) (DiscoveryReply.positions r1) [] = []).
  { apply Permutation_nil_r, reorder_permutation. }
  rewrite Hnil. cbn [List.find]. wp_step. unfold try_select_n_outbound_candidates. do 2 wp_step. rewrite Hsel.
  unfold kademlia_select. cbn [N.eqb]. wp_step. apply wp_yield; [done|]. intros r2 ->. cbn [fst snd].
  rewrite concat_not_excluded, (Hrest _ Htable). change (N.of_nat (length [])) with 0%N. cbn [N.ltb N.compare].
  unfold discovered_len. change (1 - 0)%N with 1%N. apply N.ltb_ge in Hlen. rewrite Hlen. cbn [app].
  wp_step. unfold in_some_order. wp_step. apply wp_yield; [done|]. intros r3 _. cbn [fst snd]. wp_step.
  rewrite Hrest by (intros p [_ Hp]%list_elem_of_filter; by apply Hdisc). wp_step.
  replace (reorder _ []) with (@nil PeerId); [done|]. symmetry. apply Permutation_nil_r, reorder_permutation.
Qed.

(** ** Connections that are lost before the peer is identified *)

Definition peer_a : PeerId := [Byte.x01].
Definition peer_b : PeerId := [Byte.x02].
Definition addr_a : Multiaddr := "/ip4/1.2.3.4/tcp/8000".
Definition addr_b : Multiaddr := "/ip4/5.6.7.8/tcp/8000".

Definition a_swarm (e : DiscoveryCall.t) : DiscoveryReply.t :=
  match e with
  | DiscoveryCall.View => DiscoveryReply.View (SwarmView.mk [Byte.x09] ∅ ["/ip4/9.9.9.9/tcp/8000"])
  | DiscoveryCall.Kbuckets => DiscoveryReply.Kbuckets [(1%N, [peer_a]); (2%N, [peer_b])]
  | DiscoveryCall.Order => DiscoveryReply.Order []
  | DiscoveryCall.NewConnectionId => DiscoveryReply.NewConnectionId 1%N
  | DiscoveryCall.SendRequest _ _ => DiscoveryReply.RequestId 1%N
  | _ => DiscoveryReply.Result None
  end.

Definition persistent_only : DiscoveryConfig.t := DiscoveryConfig.new false.
Definition full_discovery : DiscoveryConfig.t :=
  DiscoveryConfig.set_selector (DiscoveryConfig.set_bootstrap_protocol (DiscoveryConfig.new true) BootstrapProtocol.Full)
    SelectorKind.Random.

Definition run_discovery (config : DiscoveryConfig.t) (nodes : list Multiaddr) (turns : list DiscoveryTurn.t)
    : outcome Discovery.t :=
  s ← Discovery.new config nodes;
  match (execute a_swarm (discovery_turns turns s)).2 with
  | Complete (s', inr _) => Ret s'
  | _ => Panic "the run does not complete"
  end.

(** The persistent peer is dialled and the connection closed. *)
Definition lost_connection : list DiscoveryTurn.t :=
  [DiscoveryTurn.PersistentPeerTick; DiscoveryTurn.Dial; DiscoveryTurn.ConnectionEstablished peer_a 1%N;
   DiscoveryTurn.ConnectionClosed peer_a 1%N].

(** What the node does of its own accord. *)
Definition own_turns : list DiscoveryTurn.t :=
  [DiscoveryTurn.PersistentPeerTick; DiscoveryTurn.Dial; DiscoveryTurn.PeersRequest; DiscoveryTurn.ConnectRequest;
   DiscoveryTurn.Close; DiscoveryTurn.Wake 0 0; DiscoveryTurn.Wake 1 0; DiscoveryTurn.Wake 2 0; DiscoveryTurn.Wake 3 0].

(** A turn that changes nothing and calls nobody. *)
Definition idle_turn (s : Discovery.t) (turn : DiscoveryTurn.t) : Prop :=
  discovery_turn turn s = Complete (s, inr tt).

Definition is_idle_turn (s : Discovery.t) (turn : DiscoveryTurn.t) : bool :=
  match discovery_turn turn s with Complete (s', inr _) => bool_decide (s' = s) | _ => false end.

Lemma idle_turns_spec s turns : forallb (is_idle_turn s) turns = true -> Forall (idle_turn s) turns.
Proof.
  rewrite List.forallb_forall, Forall_forall. intros H turn Hin%list_elem_of_In. apply H in Hin.
  unfold is_idle_turn, idle_turn in *. destruct (discovery_turn turn s) as [[s' [[]|[]]]| | |]; try done.
  by apply bool_decide_eq_true in Hin as ->.
Qed.

(** A run that ends with no connection, where the node is idle. *)
Definition is_stuck (state : DState.t) (run : outcome Discovery.t) : bool :=
  match run with
  | Ret s => bool_decide (s.(Discovery.state) = state) && bool_decide (s.(Discovery.active_connections) = ∅) &&
             forallb (is_idle_turn s) own_turns
  | Panic _ => false
  end.

Lemma stuck_spec state run :
  is_stuck state run = true ->
  exists s, run = Ret s /\ s.(Discovery.state) = state /\ s.(Discovery.active_connections) = ∅ /\
    Forall (idle_turn s) own_turns.
Proof.
  destruct run as [s|]; cbn [is_stuck]; [|done].
  intros [[H1%bool_decide_eq_true H2%bool_decide_eq_true]%andb_true_iff H3%idle_turns_spec]%andb_true_iff. by exists s.
Qed.

(** A persistent peer whose connection is closed before it is identified is never
    dialled again: nothing is connected, nothing is in progress or queued, and
    every timer tick and every other turn of the node leaves the state as it is,
    without a call to the swarm. With discovery enabled the node moreover stays
    in the extension of its search for ever. *)
Theorem persistent_peer_abandoned :
  (exists s, run_discovery persistent_only [addr_a] lost_connection = Ret s /\ s.(Discovery.state) = DState.Idle /\
     s.(Discovery.active_connections) = ∅ /\ Forall (idle_turn s) own_turns) /\
  (exists s, run_discovery full_discovery [addr_a] lost_connection = Ret s /\
     s.(Discovery.state) = DState.Extending 20%N /\ s.(Discovery.active_connections) = ∅ /\
     Forall (idle_turn s) own_turns).
Proof. split; apply stuck_spec; vm_refl. Qed.

(** ** Witnesses *)

Lemma turns_reachable config turns s s' :
  discovery_reachable config s -> (execute a_swarm (discovery_turns turns s)).2 = Complete (s', inr tt) ->
  discovery_reachable config s'.
Proof.
  revert s. induction turns as [|turn turns IH]; intros s Hs Hrun; [by injection Hrun as <-|].
  cbn [discovery_turns] in Hrun. unfold mbind, handler_bind in Hrun.
  apply execute_bind_inv in Hrun as (t & [s1 [[]|[]]] & Hm & Hrun). cbn [fst snd] in Hrun. eapply IH; [|exact Hrun].
  eapply reachable_turn; [exact Hs|]. pose proof (execute_steps a_swarm (discovery_turn turn s)) as Hsteps.
  by rewrite Hm in Hsteps.
Qed.

Lemma discovery_run_reachable config nodes turns s :
  run_discovery config nodes turns = Ret s -> discovery_reachable config s.
Proof.
  unfold run_discovery. intros H. inv_ret. rename x into s0. destruct (execute _ _).2 as [[s1 [[]|[]]]|msg| |] eqn:He; simplify_eq.
  eapply turns_reachable; [|exact He]. by eapply reachable_new.
Qed.

(** A peer of a node without discovery is identified. *)
Definition identified : list DiscoveryTurn.t :=
  [DiscoveryTurn.IdentifyReceived 1%N peer_b (Info.mk [addr_b])].

Lemma discovery_bounded_witness :
  exists s, run_discovery persistent_only [addr_a] identified = Ret s /\
    (N.of_nat (base.size s.(Discovery.inbound_peers)) <= 20)%N.
Proof.
  destruct (run_discovery persistent_only [addr_a] identified) as [s|msg] eqn:Hrun.
  - exists s. split; [done|]. apply (discovery_bounded persistent_only s). exact (discovery_run_reachable _ _ _ _ Hrun).
  - exfalso. assert (Hok : match run_discovery persistent_only [addr_a] identified with Ret _ => true | Panic _ => false end = true) by vm_refl.
    by rewrite Hrun in Hok.
Defined.

(** A node with one inbound slot. *)
Definition one_slot : Discovery.t :=
  Discovery.mk (DiscoveryConfig.mk true BootstrapProtocol.Kademlia SelectorKind.Kademlia 1 1 5 15000 5 5 0)
    DState.Idle SelectorKind.Kademlia [] ∅ ∅ ∅ ∅ Controller.new.

Lemma hostile_peers_fill_inbound_witness :
  exists t s', execute a_swarm (discovery_turns (visit 7%N 1%N peer_a) one_slot) = (t, Complete (s', inr tt)) /\
    s'.(Discovery.active_connections) = ∅.
Proof.
  destruct (hostile_peers_fill_inbound a_swarm one_slot [peer_a] peer_b 7%N 1%N) as (t & s' & Hrun & Hact & _).
  - apply NoDup_singleton.
  - repeat (apply Forall_cons; split; [by split_and!|]). apply Forall_nil_2.
  - by intros ?%list_elem_of_singleton.
  - done.
  - by exists t, s'.
Defined.

Lemma kademlia_select_sound_witness :
  exists t sel, execute a_swarm (kademlia_select ∅ [peer_a] 1 one_slot) = (t, Complete (one_slot, inr sel)).
Proof.
  destruct (kademlia_select_sound a_swarm ∅ [peer_a] 1 one_slot [peer_a; peer_b] eq_refl) as (t & sel & Hrun & _).
  - vm_decide.
  - by exists t, sel.
Defined.

(** [peer_a] and [peer_b] are known and have been asked. *)
Definition all_asked : Discovery.t :=
  Discovery.set_controller (Discovery.set_discovered_peers one_slot
      {[peer_a := Info.mk [addr_a]; peer_b := Info.mk [addr_b]]})
    (Controller.set_connect_request Controller.new
      (Action.set_done_on (Action.new Controller.DEFAULT_CONNECT_REQUEST_CONCURRENT_FACTOR) {[peer_a; peer_b]})).

Lemma repair_gives_up_witness : exists t, execute a_swarm (repair_outbound_peers all_asked) = (t, Complete (all_asked, inr tt)).
Proof.
  apply (repair_gives_up a_swarm all_asked).
  - done.
  - done.
  - done.
  - done.
  - vm_decide.
  - intros p [info Hp]. cbn in Hp. apply lookup_insert_Some in Hp as [[<- _]|[_ Hp]]; [vm_refl|].
    apply lookup_singleton_Some in Hp as [<- _]. vm_refl.
  - intros p Hp. cbn in Hp. apply elem_of_cons in Hp as [-> |Hp]; [vm_decide|].
    apply list_elem_of_singleton in Hp as ->. vm_decide.
Defined.
