(* ===== verification/Streaming.v ===== *)
(** * Streams of proposal parts

    engine/src/util/streaming.rs: the messages of a stream. Then the two
    implementations that put the parts of a proposal back in order:
    starknet/host/src/streaming.rs, which emits parts as soon as they are next
    in sequence, and test/app/src/streaming.rs (the same file is in
    examples/channel), which emits all parts at the end. Both keep one state
    for each stream of each peer.

    The parts are a parameter, with the function that recognises the first
    part of a proposal. A binary heap of messages is a list sorted by sequence
    number: the messages of a stream have different ones. *)

From S2P Require Import Prelude Types Bytes ConsensusTypes.

(** ** Messages (engine/src/util/streaming.rs) *)

Abbreviation StreamId := bytes.
Abbreviation Sequence := N.

Module StreamContent.
Inductive t {T : Type} : Type :=
  | Data (data : T)
  | Fin.
Arguments t T : clear implicits.

Section content.
Context {T : Type}.
Definition as_data (self : t T) : option T := match self with Data data => Some data | Fin => None end.
Definition into_data (self : t T) : option T := match self with Data data => Some data | Fin => None end.
Definition is_fin (self : t T) : bool := match self with Fin => true | Data _ => false end.
End content.
End StreamContent.

Module StreamMessage.
Record t {T : Type} : Type := new {
  stream_id : StreamId;
  sequence : Sequence;
  content : StreamContent.t T;
}.
Arguments t T : clear implicits.
Arguments new {T} stream_id sequence content.

Section message.
Context {T : Type}.
Definition is_first (self : t T) : bool := (self.(sequence) =? 0)%N.
Definition is_fin (self : t T) : bool := StreamContent.is_fin self.(content).
End message.
End StreamMessage.

(** ** The heap of messages: the smallest sequence number first. *)
Module MinHeap.
Definition t (T : Type) : Type := list (StreamMessage.t T).

Section heap.
Context {T : Type}.

Fixpoint push (msg : StreamMessage.t T) (self : t T) : t T :=
  match self with
  | [] => [msg]
  | m :: self' =>
      if (msg.(StreamMessage.sequence) <? m.(StreamMessage.sequence))%N then msg :: self
      else m :: push msg self'
  end.
Definition peek (self : t T) : option (StreamMessage.t T) := head self.
Definition pop (self : t T) : option (StreamMessage.t T) * t T :=
  match self with [] => (None, []) | m :: self' => (Some m, self') end.
Definition len (self : t T) : N := N.of_nat (length self).

(** Pops everything, keeping the data. *)
Definition drain (self : t T) : list T := omap (fun m => StreamContent.into_data m.(StreamMessage.content)) self.

End heap.
End MinHeap.

(** ** Proposal parts *)

Module ProposalInit.
Record t {Hgt Addr : Type} : Type := mk { height : Hgt; round : Round.t; pol_round : Round.t; proposer : Addr }.
Arguments t Hgt Addr : clear implicits.
Arguments mk {Hgt Addr} height round pol_round proposer.
End ProposalInit.

Module ProposalParts.
Record t {Part Hgt Addr : Type} : Type := mk {
  height : Hgt;
  round : Round.t;
  proposer : Addr;
  parts : list Part;
}.
Arguments t Part Hgt Addr : clear implicits.
Arguments mk {Part Hgt Addr} height round proposer parts.

Definition from_init {Part Hgt Addr} (init_info : ProposalInit.t Hgt Addr) (parts : list Part) : t Part Hgt Addr :=
  mk init_info.(ProposalInit.height) init_info.(ProposalInit.round) init_info.(ProposalInit.proposer) parts.
End ProposalParts.

Section part.
Context {Part Hgt Addr : Type} (as_init : Part -> option (ProposalInit.t Hgt Addr)).

(** [msg.content.as_data().and_then(|p| p.as_init())]. *)
Definition init_of (msg : StreamMessage.t Part) : option (ProposalInit.t Hgt Addr) :=
  StreamContent.as_data msg.(StreamMessage.content) ≫= as_init.

End part.

(** ** Emission in order (starknet/host/src/streaming.rs) *)

Module StreamState.
Record t {Part Hgt Addr : Type} : Type := mk {
  buffer : MinHeap.t Part;
  init_info : option (ProposalInit.t Hgt Addr);
  seen_sequences : gset Sequence;
  next_sequence : Sequence;
  total_messages : N;
  fin_received : bool;
  emitted_messages : N;
}.
Arguments t Part Hgt Addr : clear implicits.
Arguments mk {Part Hgt Addr}.

Section state.
Context {Part Hgt Addr : Type}.
Implicit Types (self : t Part Hgt Addr).

Definition default : t Part Hgt Addr := mk [] None ∅ 0 0 false 0.

Definition set_buffer self x : t Part Hgt Addr := mk x self.(init_info) self.(seen_sequences) self.(next_sequence)
  self.(total_messages) self.(fin_received) self.(emitted_messages).
Definition set_init_info self x : t Part Hgt Addr := mk self.(buffer) x self.(seen_sequences) self.(next_sequence)
  self.(total_messages) self.(fin_received) self.(emitted_messages).
Definition set_seen self x : t Part Hgt Addr := mk self.(buffer) self.(init_info) x self.(next_sequence)
  self.(total_messages) self.(fin_received) self.(emitted_messages).
Definition set_emitted self x y : t Part Hgt Addr := mk self.(buffer) self.(init_info) self.(seen_sequences) x
  self.(total_messages) self.(fin_received) y.
Definition set_fin self x : t Part Hgt Addr := mk self.(buffer) self.(init_info) self.(seen_sequences) self.(next_sequence)
  x true self.(emitted_messages).

Definition has_emitted_all_messages self : bool :=
  self.(fin_received) && (self.(emitted_messages) =? self.(total_messages))%N.

(** [to_emit] is returned with the parts added. *)
Definition emit self (msg : StreamMessage.t Part) (to_emit : list Part) : outcome (t Part Hgt Addr * list Part) :=
  let to_emit := match StreamContent.into_data msg.(StreamMessage.content) with
                 | Some data => to_emit ++ [data]
                 | None => to_emit
                 end in
  next ← add_u64 msg.(StreamMessage.sequence) 1;
  emitted ← add_u64 self.(emitted_messages) 1;
  Ret (set_emitted self next emitted, to_emit).

(** The loop runs over the buffer, which [emit] leaves alone. *)
Fixpoint emit_from (buffer : MinHeap.t Part) self (to_emit : list Part) : outcome (t Part Hgt Addr * list Part) :=
  match buffer with
  | [] => Ret (set_buffer self [], to_emit)
  | msg :: rest =>
      if (msg.(StreamMessage.sequence) =? self.(next_sequence))%N then
        '(self, to_emit) ← emit self msg to_emit;
        emit_from rest self to_emit
      else Ret (set_buffer self buffer, to_emit)
  end.
Definition emit_eligible_messages self (to_emit : list Part) : outcome (t Part Hgt Addr * list Part) :=
  emit_from self.(buffer) self to_emit.

End state.
End StreamState.

Module PartStreamsMap.
Abbreviation t Part Hgt Addr := (gmap (PeerId * StreamId) (StreamState.t Part Hgt Addr)).

Section map.
Context {Part Hgt Addr : Type} (as_init : Part -> option (ProposalInit.t Hgt Addr)).

Definition new : t Part Hgt Addr := ∅.

Definition insert_first (state : StreamState.t Part Hgt Addr) (msg : StreamMessage.t Part)
    : outcome (StreamState.t Part Hgt Addr * option (ProposalParts.t Part Hgt Addr)) :=
  let state := StreamState.set_init_info state (init_of as_init msg) in
  '(state, to_emit) ← StreamState.emit state msg [];
  '(state, to_emit) ← StreamState.emit_eligible_messages state to_emit;
  init_info ← expect state.(StreamState.init_info) "called `Option::unwrap()` on a `None` value";
  Ret (state, Some (ProposalParts.from_init init_info to_emit)).

Definition insert_other (state : StreamState.t Part Hgt Addr) (msg : StreamMessage.t Part)
    : outcome (StreamState.t Part Hgt Addr * option (ProposalParts.t Part Hgt Addr)) :=
  state ← if StreamMessage.is_fin msg then
            total ← add_u64 msg.(StreamMessage.sequence) 1; Ret (StreamState.set_fin state total)
          else Ret state;
  let state := StreamState.set_buffer state (MinHeap.push msg state.(StreamState.buffer)) in
  '(state, to_emit) ← StreamState.emit_eligible_messages state [];
  match to_emit with
  | [] => Ret (state, None)
  | _ =>
      init_info ← expect state.(StreamState.init_info) "called `Option::unwrap()` on a `None` value";
      Ret (state, Some (ProposalParts.from_init init_info to_emit))
  end.

Definition insert (self : t Part Hgt Addr) (peer_id : PeerId) (msg : StreamMessage.t Part)
    : outcome (t Part Hgt Addr * option (ProposalParts.t Part Hgt Addr)) :=
  let key := (peer_id, msg.(StreamMessage.stream_id)) in
  let state := from_option id StreamState.default (self !! key) in
  let sequence := msg.(StreamMessage.sequence) in
  if bool_decide (sequence ∈ state.(StreamState.seen_sequences)) then Ret (<[key := state]> self, None)
  else
    let state := StreamState.set_seen state ({[sequence]} ∪ state.(StreamState.seen_sequences)) in
    '(state, result) ← if StreamMessage.is_first msg then insert_first state msg else insert_other state msg;
    Ret (if StreamState.has_emitted_all_messages state then delete key self else <[key := state]> self, result).

End map.
End PartStreamsMap.

(** ** Emission at the end (test/app/src/streaming.rs) *)

Module WholeStreamState.
Record t {Part Hgt Addr : Type} : Type := mk {
  buffer : MinHeap.t Part;
  init_info : option (ProposalInit.t Hgt Addr);
  seen_sequences : gset Sequence;
  total_messages : N;
  fin_received : bool;
}.
Arguments t Part Hgt Addr : clear implicits.
Arguments mk {Part Hgt Addr}.

Section state.
Context {Part Hgt Addr : Type} (as_init : Part -> option (ProposalInit.t Hgt Addr)).
Implicit Types (self : t Part Hgt Addr).

Definition default : t Part Hgt Addr := mk [] None ∅ 0 false.

Definition is_done self : bool :=
  bool_decide (is_Some self.(init_info)) && self.(fin_received) && (MinHeap.len self.(buffer) =? self.(total_messages))%N.

Definition set_seen self x : t Part Hgt Addr := mk self.(buffer) self.(init_info) x self.(total_messages) self.(fin_received).

(** The first two steps of [insert]: the header and the end of the stream. *)
Definition note_first self (msg : StreamMessage.t Part) : t Part Hgt Addr :=
  if StreamMessage.is_first msg
  then mk self.(buffer) (init_of as_init msg) self.(seen_sequences) self.(total_messages) self.(fin_received)
  else self.
Definition note_fin self (msg : StreamMessage.t Part) : outcome (t Part Hgt Addr) :=
  if StreamMessage.is_fin msg then
    total ← add_u64 msg.(StreamMessage.sequence) 1;
    Ret (mk self.(buffer) self.(init_info) self.(seen_sequences) total true)
  else Ret self.

Definition insert self (msg : StreamMessage.t Part) : outcome (t Part Hgt Addr * option (ProposalParts.t Part Hgt Addr)) :=
  let self := note_first self msg in
  self ← note_fin self msg;
  let self := mk (MinHeap.push msg self.(buffer)) self.(init_info) self.(seen_sequences) self.(total_messages)
                self.(fin_received) in
  if is_done self then
    match self.(init_info) with
    | None => Ret (self, None)
    | Some init_info =>
        Ret (mk [] None self.(seen_sequences) self.(total_messages) self.(fin_received),
             Some (ProposalParts.from_init init_info (MinHeap.drain self.(buffer))))
    end
  else Ret (self, None).

End state.
End WholeStreamState.

Module WholeStreamsMap.
Abbreviation t Part Hgt Addr := (gmap (PeerId * StreamId) (WholeStreamState.t Part Hgt Addr)).

Section map.
Context {Part Hgt Addr : Type} (as_init : Part -> option (ProposalInit.t Hgt Addr)).

Definition new : t Part Hgt Addr := ∅.

Definition insert (self : t Part Hgt Addr) (peer_id : PeerId) (msg : StreamMessage.t Part)
    : outcome (t Part Hgt Addr * option (ProposalParts.t Part Hgt Addr)) :=
  let key := (peer_id, msg.(StreamMessage.stream_id)) in
  let state := from_option id WholeStreamState.default (self !! key) in
  let sequence := msg.(StreamMessage.sequence) in
  if bool_decide (sequence ∈ state.(WholeStreamState.seen_sequences)) then Ret (<[key := state]> self, None)
  else
    let state := WholeStreamState.set_seen state ({[sequence]} ∪ state.(WholeStreamState.seen_sequences)) in
    '(state, result) ← WholeStreamState.insert as_init state msg;
    Ret (if WholeStreamState.is_done state then delete key self else <[key := state]> self, result).

End map.
End WholeStreamsMap.
