(* ===== verification/StreamingFacts.v ===== *)
(** * Streams of proposal parts: reassembly

    The parts of a proposal, received in any order and any number of times, are
    emitted in order, once for each time the stream has been complete; a stream
    is forgotten when all its parts have been emitted. A peer can make the
    reassembly panic. *)

From S2P Require Import Prelude Types Bytes ConsensusTypes Streaming.

Section streams.
Context {Part Hgt Addr : Type} (as_init : Part -> option (ProposalInit.t Hgt Addr)).

Abbreviation msg := (StreamMessage.t Part).
Abbreviation state := (StreamState.t Part Hgt Addr).
Abbreviation seq := StreamMessage.sequence.
Implicit Types (m : msg) (l M : list msg) (D : gset Sequence) (st : state).

Definition data l : list Part := omap (fun m => StreamContent.into_data m.(StreamMessage.content)) l.

(** ** Streams

    A sender numbers the messages of a stream from 0; the first carries the
    part with the proposal's header, the last is the end of the stream. *)
Record stream (id : StreamId) (init : ProposalInit.t Hgt Addr) M : Prop := {
  stream_ids i m : M !! i = Some m -> m.(StreamMessage.stream_id) = id;
  stream_seqs i m : M !! i = Some m -> seq m = N.of_nat i;
  stream_first m : M !! 0 = Some m -> init_of as_init m = Some init;
  stream_fin i m : M !! i = Some m -> (StreamMessage.is_fin m = true <-> S i = length M);
  stream_len : (0 < N.of_nat (length M) <= U64_MAX)%N;
}.

(** ** The specification

    Of a stream, the messages with the sequence numbers [D] have arrived: the
    longest prefix of the stream that has arrived is emitted, the rest waits. *)
Fixpoint arrived D M : list msg :=
  match M with
  | [] => []
  | m :: M => if bool_decide (seq m ∈ D) then m :: arrived D M else []
  end.
Definition waiting D M : list msg :=
  filter (fun m => seq m ∈ D) (drop (length (arrived D M)) M).
Definition all_arrived D M : bool := bool_decide (length (arrived D M) = length M).
Definition fin_arrived D M : bool := bool_decide (N.of_nat (length M - 1) ∈ D).

Definition state_for (init : ProposalInit.t Hgt Addr) D M : state :=
  let n := N.of_nat (length (arrived D M)) in
  StreamState.mk (waiting D M) (match arrived D M with [] => None | _ => Some init end) D n
    (if fin_arrived D M then N.of_nat (length M) else 0%N) (fin_arrived D M) n.

Lemma arrived_prefix D M : arrived D M `prefix_of` M.
Proof.
  induction M as [|m M IH]; cbn; [done|]. case_bool_decide; [by apply prefix_cons|apply prefix_nil].
Qed.

Lemma arrived_take D M : arrived D M = take (length (arrived D M)) M.
Proof. destruct (arrived_prefix D M) as [l Hl]. rewrite Hl at 3. by rewrite take_app_length. Qed.

(** More arrivals, a longer prefix. *)
Lemma arrived_mono D D' M : D ⊆ D' -> arrived D M `prefix_of` arrived D' M.
Proof.
  intros HD. induction M as [|m M IH]; cbn; [done|]. case_bool_decide; [|apply prefix_nil].
  rewrite bool_decide_eq_true_2 by set_solver. by apply prefix_cons.
Qed.

(** ** The emitting loop *)

(** Messages numbered from [k] on. *)
Definition numbered (k : N) l : Prop := forall i m, l !! i = Some m -> seq m = (k + N.of_nat i)%N.

Lemma numbered_cons k m l : numbered k (m :: l) <-> seq m = k /\ numbered (k + 1) l.
Proof.
  split.
  - intros H. split; [rewrite (H 0 m eq_refl); lia|]. intros i x Hx. rewrite (H (S i) x Hx). lia.
  - intros [H1 H2] [|i] x Hx; cbn in Hx; simplify_eq; [lia|]. rewrite (H2 i x Hx). lia.
Qed.

Lemma numbered_gt k l m : numbered k l -> m ∈ l -> (k <= seq m)%N.
Proof. intros Hn [i Hi]%list_elem_of_lookup. rewrite (Hn i m Hi). lia. Qed.

Lemma set_emitted_same st k :
  st.(StreamState.next_sequence) = k -> st.(StreamState.emitted_messages) = k -> StreamState.set_emitted st k k = st.
Proof. destruct st. cbn. by intros -> ->. Qed.

Lemma emit_from_spec D l st to_emit k :
  numbered k l -> st.(StreamState.next_sequence) = k -> st.(StreamState.emitted_messages) = k ->
  (k + N.of_nat (length l) <= U64_MAX)%N ->
  let a := arrived D l in
  let n := (k + N.of_nat (length a))%N in
  StreamState.emit_from (filter (fun m => seq m ∈ D) l) st to_emit =
    Ret (StreamState.set_buffer (StreamState.set_emitted st n n) (filter (fun m => seq m ∈ D) (drop (length a) l)),
         to_emit ++ data a).
Proof.
  revert st to_emit k. induction l as [|m l IH]; intros st to_emit k Hnum Hnext Hemit Hle.
  { cbn. by rewrite N.add_0_r, app_nil_r, set_emitted_same. }
  apply numbered_cons in Hnum as [Hm Hnum]. cbn [arrived length]. rewrite filter_cons. cbn in Hle.
  destruct (decide (seq m ∈ D)) as [Hin|Hin].
  - rewrite bool_decide_eq_true_2 by done. cbn [StreamState.emit_from]. rewrite Hm, Hnext, N.eqb_refl.
    unfold StreamState.emit. rewrite Hm, Hemit.
    rewrite (proj2 (add_u64_Ret k 1 (k + 1)%N)) by (split; [done|lia]). cbn [mbind outcome_bind].
    rewrite (IH _ _ (k + 1)%N) by (done || lia). cbn [length drop].
    replace (k + 1 + N.of_nat (length (arrived D l)))%N with (k + N.of_nat (S (length (arrived D l))))%N by lia.
    f_equal. f_equal. cbn. by destruct (StreamContent.into_data _); rewrite <- ?app_assoc.
  - rewrite bool_decide_eq_false_2 by done. cbn [length drop]. rewrite filter_cons_False by done.
    cbn [data omap list_omap]. rewrite N.add_0_r, app_nil_r.
    assert (Hstop : forall b st', (forall m', m' ∈ b -> seq m' <> st'.(StreamState.next_sequence)) ->
      StreamState.emit_from b st' to_emit = Ret (StreamState.set_buffer st' b, to_emit)).
    { intros [|m' b] st' Hb; cbn; [done|]. rewrite (proj2 (N.eqb_neq _ _)); [done|]. apply Hb. by constructor. }
    rewrite Hstop.
    + by rewrite set_emitted_same.
    + intros m' [_ Hm']%list_elem_of_filter. apply (numbered_gt _ _ _ Hnum) in Hm'. lia.
Qed.

(** ** Arrivals *)

Lemma numbered_inj k l m m' : numbered k l -> m ∈ l -> m' ∈ l -> seq m = seq m' -> m = m'.
Proof.
  intros Hn [i Hi]%list_elem_of_lookup [j Hj]%list_elem_of_lookup Heq.
  rewrite (Hn i m Hi), (Hn j m' Hj) in Heq. assert (i = j) as -> by lia. congruence.
Qed.

Lemma filter_none D l : D = ∅ -> filter (fun m => seq m ∈ D) l = [].
Proof. intros ->. induction l as [|m l IH]; [done|]. rewrite filter_cons_False by set_solver. exact IH. Qed.

Lemma filter_new D l (x : Sequence) :
  (forall m, m ∈ l -> seq m <> x) ->
  filter (fun m => seq m ∈ {[x]} ∪ D) l = filter (fun m => seq m ∈ D) l.
Proof.
  intros Hx. induction l as [|m l IH]; [done|]. rewrite !filter_cons, IH by (intros; apply Hx; by constructor).
  assert (seq m <> x) by (apply Hx; constructor).
  destruct (decide (seq m ∈ D)); [rewrite decide_True by set_solver|rewrite decide_False by set_solver]; done.
Qed.

Lemma push_filter D l k m :
  numbered k l -> m ∈ l -> seq m ∉ D ->
  MinHeap.push m (filter (fun m => seq m ∈ D) l) = filter (fun x => seq x ∈ {[seq m]} ∪ D) l.
Proof.
  revert k. induction l as [|x l IH]; intros k Hnum Hin Hm; [by apply not_elem_of_nil in Hin|].
  pose proof Hnum as [Hx Hl]%numbered_cons. rewrite !filter_cons. apply elem_of_cons in Hin as [->|Hin].
  - rewrite decide_False, decide_True by set_solver. rewrite filter_new.
    2:{ intros m' Hm'. apply (numbered_gt _ _ _ Hl) in Hm'. lia. }
    assert (Hb : forall m', m' ∈ filter (fun m => seq m ∈ D) l -> (seq x < seq m')%N).
    { intros m' [_ Hm']%list_elem_of_filter. apply (numbered_gt _ _ _ Hl) in Hm'. lia. }
    destruct (filter _ l) as [|m' b]; cbn; [done|]. rewrite (proj2 (N.ltb_lt _ _)); [done|]. apply Hb. by constructor.
  - assert (Hlt : (seq x < seq m)%N) by (apply (numbered_gt _ _ _ Hl) in Hin; lia).
    assert (seq x <> seq m) by lia. rewrite <- (IH _ Hl Hin Hm). destruct (decide (seq x ∈ D)).
    + rewrite decide_True by set_solver. cbn. by rewrite (proj2 (N.ltb_ge _ _)) by lia.
    + rewrite decide_False by set_solver. done.
Qed.

Lemma arrived_in D l m : m ∈ arrived D l -> seq m ∈ D.
Proof.
  induction l as [|x l IH]; cbn; [by intros ?%not_elem_of_nil|].
  case_bool_decide; [|by intros ?%not_elem_of_nil]. intros [->|?]%elem_of_cons; auto.
Qed.

(** The prefix that has arrived grows at its end. *)
Lemma arrived_more D D' l :
  D ⊆ D' -> arrived D' l = arrived D l ++ arrived D' (drop (length (arrived D l)) l).
Proof.
  intros HD. induction l as [|m l IH]; cbn; [done|]. destruct (bool_decide (seq m ∈ D)) eqn:Hm; cbn.
  - apply bool_decide_eq_true in Hm. rewrite bool_decide_eq_true_2 by set_solver. by f_equal.
  - done.
Qed.

Lemma numbered_drop k l n : numbered k l -> numbered (k + N.of_nat n) (drop n l).
Proof. intros Hn i m Hi. rewrite lookup_drop in Hi. rewrite (Hn _ _ Hi). lia. Qed.

(** What is emitted for new parts. *)
Definition emission (init : ProposalInit.t Hgt Addr) (parts : list Part) : option (ProposalParts.t Part Hgt Addr) :=
  match parts with [] => None | _ => Some (ProposalParts.from_init init parts) end.

Definition newly D D' M : list msg := drop (length (arrived D M)) (arrived D' M).

Lemma newly_eq D D' M : D ⊆ D' -> newly D D' M = arrived D' (drop (length (arrived D M)) M).
Proof. intros HD. unfold newly. rewrite (arrived_more D D' M HD). by rewrite drop_app_length. Qed.

Section one_stream.
Context (sid : StreamId) (init : ProposalInit.t Hgt Addr) (M : list msg) (HM : stream sid init M).

Lemma stream_numbered : numbered 0 M.
Proof using HM. intros i m Hi. by rewrite (stream_seqs _ _ _ HM i m Hi). Qed.

Lemma stream_lookup m : m ∈ M -> M !! N.to_nat (seq m) = Some m.
Proof using HM.
  intros [i Hi]%list_elem_of_lookup. by rewrite (stream_seqs _ _ _ HM i m Hi), Nat2N.id.
Qed.

Lemma fin_arrived_new D m :
  m ∈ M -> fin_arrived ({[seq m]} ∪ D) M = StreamMessage.is_fin m || fin_arrived D M.
Proof using HM.
  intros Hm%stream_lookup. pose proof (stream_fin _ _ _ HM _ _ Hm) as Hf.
  pose proof (lookup_lt_Some _ _ _ Hm) as Hlt. unfold fin_arrived. destruct (StreamMessage.is_fin m); cbn.
  - apply bool_decide_eq_true_2. assert (N.of_nat (length M - 1) = seq m) as -> by lia. set_solver.
  - apply bool_decide_ext. split; [|set_solver]. intros [Heq%elem_of_singleton|?]%elem_of_union; [|done].
    assert (false = true) as [=]. apply Hf. lia.
Qed.

Lemma not_arrived D m : m ∈ M -> seq m ∉ D -> m ∈ drop (length (arrived D M)) M.
Proof.
  intros Hm HD. rewrite <- (take_drop (length (arrived D M)) M) in Hm. rewrite <- arrived_take in Hm.
  apply elem_of_app in Hm as [Hm|Hm]; [|done]. by apply arrived_in in Hm.
Qed.

Lemma stream_room D : (N.of_nat (length (arrived D M)) + N.of_nat (length (drop (length (arrived D M)) M)) <= U64_MAX)%N.
Proof using HM.
  pose proof (stream_len _ _ _ HM). pose proof (prefix_length _ _ (arrived_prefix D M)). rewrite length_drop. lia.
Qed.

(** The loop, from the state of the specification with one more arrival. *)
Lemma emit_arrived D D' st to_emit :
  D ⊆ D' -> st.(StreamState.next_sequence) = N.of_nat (length (arrived D M)) ->
  st.(StreamState.emitted_messages) = N.of_nat (length (arrived D M)) ->
  st.(StreamState.buffer) = filter (fun m => seq m ∈ D') (drop (length (arrived D M)) M) ->
  StreamState.emit_eligible_messages st to_emit =
    Ret (StreamState.set_buffer (StreamState.set_emitted st (N.of_nat (length (arrived D' M)))
           (N.of_nat (length (arrived D' M)))) (waiting D' M), to_emit ++ data (newly D D' M)).
Proof using HM.
  intros HD Hn He Hb. unfold StreamState.emit_eligible_messages. rewrite Hb.
  pose proof (numbered_drop 0 M (length (arrived D M)) stream_numbered) as Hnum. rewrite N.add_0_l in Hnum.
  rewrite (emit_from_spec _ _ _ _ _ Hnum Hn He (stream_room D)). rewrite newly_eq by done.
  rewrite drop_drop. unfold waiting. rewrite (arrived_more D D' M HD), length_app, Nat2N.inj_add. done.
Qed.

Lemma insert_other_spec D m :
  m ∈ M -> seq m ∉ D -> seq m <> 0%N ->
  let D' := {[seq m]} ∪ D in
  PartStreamsMap.insert_other (StreamState.set_seen (state_for init D M) D') m =
    Ret (state_for init D' M, emission init (data (newly D D' M))).
Proof using HM.
  intros Hm HD H0 D'. unfold PartStreamsMap.insert_other.
  assert (Hfin : (if StreamMessage.is_fin m then
      total ← add_u64 (seq m) 1; Ret (StreamState.set_fin (StreamState.set_seen (state_for init D M) D') total)
    else Ret (StreamState.set_seen (state_for init D M) D')) =
    Ret (StreamState.mk (waiting D M) (match arrived D M with [] => None | _ => Some init end) D'
      (N.of_nat (length (arrived D M))) (if fin_arrived D' M then N.of_nat (length M) else 0%N)
      (fin_arrived D' M) (N.of_nat (length (arrived D M))))).
  { unfold D'. rewrite fin_arrived_new by done. destruct (StreamMessage.is_fin m) eqn:Hf; cbn; [|done].
    pose proof (stream_lookup _ Hm) as Hl. apply (stream_fin _ _ _ HM _ _ Hl) in Hf.
    pose proof (stream_len _ _ _ HM).
    rewrite (proj2 (add_u64_Ret _ _ (N.of_nat (length M)))) by (split; lia). done. }
  rewrite Hfin. cbn [mbind outcome_bind]. clear Hfin.
  pose proof (numbered_drop 0 M (length (arrived D M)) stream_numbered) as Hnum.
  erewrite (emit_arrived D D'); [|unfold D'; set_solver|done|done|].
  2:{ cbn. unfold waiting. rewrite (push_filter _ _ _ _ Hnum); [done|by apply not_arrived|done]. }
  cbn [mbind outcome_bind]. cbn [app].
  assert (Hempty : arrived D M = [] -> arrived D' M = []).
  { intros Ha. pose proof (stream_numbered) as HN. destruct M as [|x M']; [done|]. cbn in Ha |- *.
    apply numbered_cons in HN as [Hx _]. case_bool_decide; [done|]. rewrite bool_decide_eq_false_2; [done|].
    intros [Hy%elem_of_singleton|?]%elem_of_union; [congruence|done]. }
  unfold state_for, StreamState.set_buffer, StreamState.set_emitted. cbn. unfold emission.
  destruct (arrived D M) as [|y a] eqn:Ha.
  - rewrite (Hempty eq_refl). unfold newly. by rewrite Hempty, Ha by done.
  - assert (Hne : match arrived D' M with [] => None | _ => Some init end = Some init).
    { rewrite (arrived_more D D' M), Ha by (unfold D'; set_solver). done. }
    rewrite Hne. by destruct (data (newly D D' M)).
Qed.

Lemma insert_first_spec D m :
  m ∈ M -> seq m ∉ D -> seq m = 0%N ->
  let D' := {[seq m]} ∪ D in
  PartStreamsMap.insert_first as_init (StreamState.set_seen (state_for init D M) D') m =
    Ret (state_for init D' M, emission init (data (newly D D' M))).
Proof using HM.
  intros Hm HD H0 D'. pose proof (stream_lookup _ Hm) as Hl. rewrite H0 in Hl. cbn in Hl.
  pose proof (stream_first _ _ _ HM m Hl) as Hinit. pose proof stream_numbered as Hnum.
  pose proof (stream_len _ _ _ HM) as Hlen. pose proof (fin_arrived_new D m Hm) as Hfin.
  destruct M as [|m' M'] eqn:HeqM; [done|]. cbn in Hl. injection Hl as ->.
  apply numbered_cons in Hnum as [_ Hnum]. cbn in Hnum.
  assert (Ha : arrived D (m :: M') = []) by (cbn; by rewrite bool_decide_eq_false_2).
  assert (Ha' : arrived D' (m :: M') = m :: arrived D' M').
  { cbn. rewrite bool_decide_eq_true_2; [done|]. unfold D'. set_solver. }
  assert (Hnofin : StreamMessage.is_fin m = false /\ exists d, StreamContent.into_data m.(StreamMessage.content) = Some d).
  { unfold init_of in Hinit. unfold StreamMessage.is_fin. destruct (StreamMessage.content m); [|done]. cbn. eauto. }
  destruct Hnofin as [Hnofin [d Hd]]. rewrite Hnofin in Hfin. cbn [orb] in Hfin.
  assert (Hbuf : waiting D (m :: M') = filter (fun m => seq m ∈ D') M').
  { unfold waiting. rewrite Ha. cbn [length drop]. rewrite filter_cons_False by done. symmetry. apply filter_new.
    intros x Hx. apply (numbered_gt _ _ _ Hnum) in Hx. lia. }
  unfold PartStreamsMap.insert_first, state_for, StreamState.emit, newly. rewrite Ha, Hbuf.
  pose proof (emit_from_spec D' M') as Hloop. set (buffer := filter (fun m => seq m ∈ D') M') in *.
  cbn -[arrived waiting fin_arrived]. rewrite Hd, H0. unfold StreamState.emit_eligible_messages. cbn -[arrived waiting fin_arrived].
  change (add_u64 _ _) with (Ret 1%N). cbn -[arrived waiting fin_arrived].
  rewrite (Hloop _ [d] 1%N) by (done || (cbn in Hlen; lia)). cbn -[arrived waiting fin_arrived].
  rewrite Hinit. cbn -[arrived waiting fin_arrived]. rewrite Ha', <- Hfin. fold D'. cbn -[arrived waiting fin_arrived].
  rewrite Hd. unfold waiting. rewrite Ha'. cbn [length drop].
  by replace (N.of_nat (S (length (arrived D' M')))) with (1 + N.of_nat (length (arrived D' M')))%N by lia.
Qed.

Lemma state_for_empty : state_for init ∅ M = StreamState.default.
Proof using HM.
  assert (Ha : arrived ∅ M = []) by (destruct M; cbn; [done|]; by rewrite bool_decide_eq_false_2 by set_solver).
  unfold state_for, waiting, fin_arrived. rewrite Ha, bool_decide_eq_false_2 by set_solver. cbn [length drop].
  unfold StreamState.default. f_equal. by apply filter_none.
Qed.

Lemma all_arrived_done D : StreamState.has_emitted_all_messages (state_for init D M) = all_arrived D M.
Proof using HM.
  pose proof (stream_len _ _ _ HM) as Hlen. unfold StreamState.has_emitted_all_messages, all_arrived, state_for, fin_arrived.
  cbn [StreamState.fin_received StreamState.emitted_messages StreamState.total_messages].
  case_bool_decide as Hf; cbn [andb].
  - apply Bool.eq_iff_eq_true. rewrite N.eqb_eq, bool_decide_eq_true. lia.
  - symmetry. apply bool_decide_eq_false_2. intros Ha. apply Hf.
    assert (HaM : arrived D M = M) by (rewrite arrived_take, Ha; by apply firstn_all).
    destruct (lookup_lt_is_Some_2 M (length M - 1)) as [m Hm]; [lia|].
    rewrite <- (stream_seqs _ _ _ HM _ _ Hm). apply (arrived_in D M). rewrite HaM. by eapply list_elem_of_lookup_2.
Qed.

Lemma all_arrived_iff ds :
  Forall (fun m => m ∈ M) ds ->
  all_arrived (list_to_set (seq <$> ds)) M = true <-> forall m, m ∈ M -> m ∈ ds.
Proof using HM.
  intros Hds. unfold all_arrived. rewrite bool_decide_eq_true. set (D := list_to_set (seq <$> ds) : gset Sequence).
  assert (HD : forall m, m ∈ M -> seq m ∈ D -> m ∈ ds).
  { intros m Hm [m' [Heq Hm']]%elem_of_list_to_set%list_elem_of_fmap.
    rewrite (numbered_inj 0 M m m'); [done|apply stream_numbered|done| |done]. by eapply Forall_forall in Hds. }
  split.
  - intros Ha m Hm. apply HD; [done|]. apply (arrived_in D M).
    by rewrite arrived_take, Ha, firstn_all.
  - intros Hall. assert (Hin : forall m, m ∈ M -> seq m ∈ D).
    { intros m Hm. unfold D. apply elem_of_list_to_set, list_elem_of_fmap. eauto. }
    clear -Hin. induction M as [|m M' IH]; [done|]. cbn. rewrite bool_decide_eq_true_2 by (apply Hin; constructor).
    cbn. rewrite IH; [done|]. intros x Hx. apply Hin. by constructor.
Qed.

(** *** One delivery *)

Context (p : PeerId).
Abbreviation key := (p, sid).
Abbreviation streams_map := (PartStreamsMap.t Part Hgt Addr).
Implicit Types (streams : streams_map).

(** The stream, after the arrivals [D], in the map. *)
Definition stream_state streams D : Prop :=
  from_option (fun st => st) StreamState.default (streams !! key) = state_for init D M.

Lemma insert_new streams D m :
  m ∈ M -> stream_state streams D -> seq m ∉ D ->
  let D' := {[seq m]} ∪ D in
  PartStreamsMap.insert as_init streams p m =
    Ret (if all_arrived D' M then delete key streams else <[key := state_for init D' M]> streams,
         emission init (data (newly D D' M))).
Proof using HM.
  intros Hm Hst HD D'. unfold PartStreamsMap.insert. pose proof (stream_lookup _ Hm) as Hl.
  rewrite (stream_ids _ _ _ HM _ _ Hl). unfold id. rewrite Hst.
  change (StreamState.seen_sequences (state_for init D M)) with D.
  rewrite bool_decide_eq_false_2 by done. unfold StreamMessage.is_first.
  destruct (N.eqb_spec (seq m) 0) as [H0|H0].
  - rewrite insert_first_spec by done. cbn [mbind outcome_bind]. by rewrite all_arrived_done.
  - rewrite insert_other_spec by done. cbn [mbind outcome_bind]. by rewrite all_arrived_done.
Qed.

Lemma insert_again streams D m :
  m ∈ M -> stream_state streams D -> seq m ∈ D ->
  PartStreamsMap.insert as_init streams p m = Ret (<[key := state_for init D M]> streams, None).
Proof using HM.
  intros Hm Hst HD. unfold PartStreamsMap.insert. pose proof (stream_lookup _ Hm) as Hl.
  rewrite (stream_ids _ _ _ HM _ _ Hl). unfold id. rewrite Hst.
  change (StreamState.seen_sequences (state_for init D M)) with D.
  by rewrite bool_decide_eq_true_2.
Qed.

(** *** Deliveries *)

(** The messages [ds] of one peer, one after the other: the streams at the end,
    and what was emitted. *)
Fixpoint deliver streams (ds : list msg) : outcome (streams_map * list (ProposalParts.t Part Hgt Addr)) :=
  match ds with
  | [] => Ret (streams, [])
  | m :: ds =>
      '(streams, out) ← PartStreamsMap.insert as_init streams p m;
      '(streams, outs) ← deliver streams ds;
      Ret (streams, option_list out ++ outs)
  end.

Definition arrivals (ds : list msg) : gset Sequence := list_to_set (seq <$> ds).

(** No message is delivered after the last one that was missing. *)
Fixpoint in_time D (ds : list msg) : Prop :=
  match ds with
  | [] => True
  | m :: ds => all_arrived D M = false /\ in_time ({[seq m]} ∪ D) ds
  end.

Lemma emission_parts parts :
  concat (ProposalParts.parts <$> option_list (emission init parts)) = parts.
Proof. destruct parts; [done|]. cbn. by rewrite app_nil_r. Qed.

Lemma newly_data D D' : D ⊆ D' -> data (arrived D M) ++ data (newly D D' M) = data (arrived D' M).
Proof.
  intros HD. unfold data. rewrite <- omap_app. f_equal. rewrite newly_eq by done. symmetry. by apply arrived_more.
Qed.

(** The emitted parts [outs] are the new ones between the arrivals [D] and [D']. *)
Record emitted D D' (outs : list (ProposalParts.t Part Hgt Addr)) : Prop := {
  emitted_parts : data (arrived D M) ++ concat (ProposalParts.parts <$> outs) = data (arrived D' M);
  emitted_headers : Forall (fun o => o = ProposalParts.from_init init o.(ProposalParts.parts) /\
                                     o.(ProposalParts.parts) <> []) outs;
}.

Lemma deliver_one streams D m :
  m ∈ M -> stream_state streams D -> all_arrived D M = false ->
  let D1 := {[seq m]} ∪ D in
  exists streams1 out, PartStreamsMap.insert as_init streams p m = Ret (streams1, out) /\
    emitted D D1 (option_list out) /\ (forall key', key' <> key -> streams1 !! key' = streams !! key') /\
    streams1 !! key = if all_arrived D1 M then None else Some (state_for init D1 M).
Proof using HM.
  intros Hm Hst Hmore D1. destruct (decide (seq m ∈ D)) as [Hin|Hin].
  - assert (HD : D1 = D) by (unfold D1; set_solver). rewrite HD.
    eexists _, _. split; [by apply insert_again|]. split; [|split].
    + split; [|constructor]. cbn. by rewrite app_nil_r.
    + intros key' Hk. by rewrite lookup_insert_ne.
    + by rewrite lookup_insert_eq, Hmore.
  - eexists _, _. split; [by apply insert_new|]. fold D1. split; [|split].
    + assert (D ⊆ D1) by (unfold D1; set_solver). split; [by rewrite emission_parts, newly_data|].
      destruct (data (newly D D1 M)) eqn:Hd; constructor; [|constructor]. by rewrite <- Hd; cbn; rewrite Hd.
    + intros key' Hk. case_match; [by rewrite lookup_delete_ne|by rewrite lookup_insert_ne].
    + case_match; [by rewrite lookup_delete_eq|by rewrite lookup_insert_eq].
Qed.

(** The stream passes [n] times when its messages arrive after [D]: each time
    the last missing message has arrived, the stream starts over. *)
Fixpoint passes D (ds : list msg) : nat * gset Sequence :=
  match ds with
  | [] => (0, D)
  | m :: ds =>
      let D' := {[seq m]} ∪ D in
      if all_arrived D' M then let '(n, rest) := passes ∅ ds in (S n, rest) else passes D' ds
  end.

Lemma all_arrived_data D : all_arrived D M = true -> data (arrived D M) = data M.
Proof using.
  unfold all_arrived. intros H%bool_decide_eq_true. by rewrite arrived_take, H, firstn_all.
Qed.

Lemma none_arrived : arrived ∅ M = [].
Proof using HM. clear. destruct M; cbn; [done|]. by rewrite bool_decide_eq_false_2 by set_solver. Qed.

Lemma none_all_arrived : all_arrived ∅ M = false.
Proof using HM.
  unfold all_arrived. rewrite none_arrived. apply bool_decide_eq_false_2. cbn. pose proof (stream_len _ _ _ HM). lia.
Qed.

(** Nothing has arrived of a stream that is not in the map. *)
Definition tracked streams D : Prop :=
  all_arrived D M = false /\ streams !! key = if bool_decide (D = ∅) then None else Some (state_for init D M).

Lemma tracked_state streams D : tracked streams D -> stream_state streams D.
Proof using HM.
  intros [_ Hk]. unfold stream_state. rewrite Hk. case_bool_decide as HD; [|done]. subst D. cbn. by rewrite state_for_empty.
Qed.

Lemma deliver_passes ds streams D :
  Forall (fun m => m ∈ M) ds -> tracked streams D ->
  let '(n, rest) := passes D ds in
  exists streams' outs, deliver streams ds = Ret (streams', outs) /\
    data (arrived D M) ++ concat (ProposalParts.parts <$> outs) = concat (replicate n (data M)) ++ data (arrived rest M) /\
    Forall (fun o => o = ProposalParts.from_init init o.(ProposalParts.parts) /\ o.(ProposalParts.parts) <> []) outs /\
    (forall key', key' <> key -> streams' !! key' = streams !! key') /\ tracked streams' rest.
Proof using HM.
  revert streams D. induction ds as [|m ds IH]; intros streams D Hds Hst.
  { exists streams, []. cbn. rewrite app_nil_r. by split_and!. }
  apply Forall_cons in Hds as [Hm Hds]. cbn [deliver passes].
  pose proof (deliver_one streams D m Hm (tracked_state _ _ Hst) (proj1 Hst)) as Hstep. cbv zeta in Hstep.
  set (D1 := {[seq m]} ∪ D) in *. destruct Hstep as (streams1 & out & He & [Hp1 Hh1] & Ho1 & Hk1).
  rewrite He. cbn [mbind outcome_bind]. destruct (all_arrived D1 M) eqn:Hall.
  - assert (Hst1 : tracked streams1 ∅) by (split; [apply none_all_arrived|by rewrite bool_decide_eq_true_2]).
    specialize (IH streams1 ∅ Hds Hst1). destruct (passes ∅ ds) as [n rest].
    destruct IH as (streams' & outs & -> & Hp & Hh & Ho & Hk). exists streams', (option_list out ++ outs).
    split; [done|]. rewrite fmap_app, concat_app, app_assoc, Hp1, (all_arrived_data _ Hall).
    rewrite none_arrived in Hp. cbn [data omap list_omap app] in Hp. rewrite Hp. cbn [replicate concat]. rewrite <- app_assoc.
    split_and!; [done|by apply Forall_app| |done]. intros key' Hk'. by rewrite Ho, Ho1.
  - assert (Hst1 : tracked streams1 D1).
    { split; [done|]. rewrite bool_decide_eq_false_2; [done|]. unfold D1. set_solver. }
    specialize (IH streams1 D1 Hds Hst1). destruct (passes D1 ds) as [n rest].
    destruct IH as (streams' & outs & -> & Hp & Hh & Ho & Hk). exists streams', (option_list out ++ outs).
    split; [done|]. rewrite fmap_app, concat_app, app_assoc, Hp1, Hp.
    split_and!; [done|by apply Forall_app| |done]. intros key' Hk'. by rewrite Ho, Ho1.
Qed.

Lemma passes_none D ds rest :
  all_arrived D M = false -> passes D ds = (0, rest) -> rest = D ∪ arrivals ds /\ all_arrived rest M = false.
Proof using.
  clear HM. revert D. induction ds as [|m ds IH]; intros D HD; cbn [passes].
  - intros [= <-]. split; [|done]. unfold arrivals. cbn. set_solver.
  - destruct (all_arrived ({[seq m]} ∪ D) M) eqn:Hall; [by destruct (passes ∅ ds)|].
    intros [-> ?]%IH; [|done]. split; [|done]. unfold arrivals. cbn. set_solver.
Qed.

(** *** The last missing message *)

Lemma all_arrived_mono D D' : D ⊆ D' -> all_arrived D' M = false -> all_arrived D M = false.
Proof using.
  clear HM. intros HD. unfold all_arrived. rewrite !bool_decide_eq_false. intros Hn Ha. apply Hn.
  pose proof (prefix_length _ _ (arrived_mono D D' M HD)). pose proof (prefix_length _ _ (arrived_prefix D' M)). lia.
Qed.

Lemma in_time_snoc D ds m : all_arrived (D ∪ arrivals ds) M = false -> in_time D (ds ++ [m]).
Proof using.
  clear HM. revert D. induction ds as [|x ds IH]; intros D Hall; cbn [app in_time].
  - split; [|done]. eapply all_arrived_mono; [|exact Hall]. set_solver.
  - split; [eapply all_arrived_mono; [|exact Hall]; set_solver|]. apply IH.
    replace ({[seq x]} ∪ D ∪ arrivals ds) with (D ∪ arrivals (x :: ds)); [done|]. unfold arrivals. cbn. set_solver.
Qed.

Lemma last_missing ds :
  Forall (fun m => m ∈ M) ds -> (forall m, m ∈ M -> m ∈ ds) ->
  exists ds1 m ds2, ds = ds1 ++ m :: ds2 /\ (m ∉ ds1) /\ (forall x, x ∈ M -> x ∈ ds1 ++ [m]) /\ in_time ∅ (ds1 ++ [m]).
Proof using HM.
  induction ds as [|m ds IH] using rev_ind; intros Hds Hall.
  { destruct (lookup_lt_is_Some_2 M 0) as [m Hm]; [pose proof (stream_len _ _ _ HM); lia|].
    apply list_elem_of_lookup_2, Hall in Hm. by apply not_elem_of_nil in Hm. }
  apply Forall_app in Hds as [Hds Hm]. destruct (all_arrived (arrivals ds) M) eqn:Ha.
  - pose proof (proj1 (all_arrived_iff ds Hds) Ha) as Hin. destruct (IH Hds Hin) as (ds1 & m' & ds2 & -> & Hn & Hx & Ht).
    exists ds1, m', (ds2 ++ [m]). by rewrite <- app_assoc.
  - exists ds, m, []. split_and!; [done| |done|by apply in_time_snoc; rewrite union_empty_l_L].
    intros Hin. unfold arrivals in Ha. rewrite (proj2 (all_arrived_iff ds Hds)) in Ha; [done|]. intros x Hx.
    destruct (proj1 (elem_of_app _ _ _) (Hall x Hx)) as [?| ->%list_elem_of_singleton]; done.
Qed.

End one_stream.

(** C30: the parts of a proposal are reassembled. Let a peer's messages of one
    stream be received in any order and any number of times, and let the stream
    pass each time its last missing message arrives. Then nothing panics; the
    parts that are emitted are, one after the other, all those of the stream, once
    for each pass, and those of the longest prefix received since; each emission
    has the height, round and proposer of the stream's first part; the other
    streams are left alone, and the stream is in the map exactly when something
    has been received since the last pass. If every message has been received the
    stream has passed; until then, what has been received since is all that has
    been received. *)
Theorem parts_reassembled (sid : StreamId) (init : ProposalInit.t Hgt Addr) (M ds : list msg) (p : PeerId)
  (streams : PartStreamsMap.t Part Hgt Addr)
  (HM : stream sid init M) (Hds : Forall (fun m => m ∈ M) ds) (Hnew : streams !! (p, sid) = None) :
  let '(n, rest) := passes M ∅ ds in
  exists streams' outs, deliver p streams ds = Ret (streams', outs) /\
    concat (ProposalParts.parts <$> outs) = concat (replicate n (data M)) ++ data (arrived rest M) /\
    Forall (fun o => o = ProposalParts.from_init init o.(ProposalParts.parts) /\
                     o.(ProposalParts.parts) <> []) outs /\
    (forall key, key <> (p, sid) -> streams' !! key = streams !! key) /\
    (streams' !! (p, sid) = None <-> rest = ∅) /\
    ((forall m, m ∈ M -> m ∈ ds) -> 0 < n) /\ (n = 0 -> rest = arrivals ds).
Proof.
  pose proof (none_all_arrived sid init M HM) as Hnone.
  assert (Hst : tracked sid init M p streams ∅) by (split; [done|by rewrite bool_decide_eq_true_2]).
  pose proof (deliver_passes sid init M HM p ds streams ∅ Hds Hst) as Hd. pose proof (passes_none M ∅ ds) as Hp.
  destruct (passes M ∅ ds) as [n rest]. destruct Hd as (streams' & outs & He & Hparts & Hh & Ho & [_ Hk]).
  rewrite (none_arrived sid init M HM) in Hparts. exists streams', outs. split_and!; [done|exact Hparts|done|done| | |].
  - rewrite Hk. by case_bool_decide.
  - intros Hall. destruct n as [|n]; [|lia]. destruct (Hp rest Hnone eq_refl) as [-> Hfalse].
    rewrite union_empty_l_L in Hfalse. unfold arrivals in Hfalse.
    by rewrite (proj2 (all_arrived_iff sid init M HM ds Hds) Hall) in Hfalse.
  - intros ->. destruct (Hp rest Hnone eq_refl) as [-> _]. by rewrite union_empty_l_L.
Qed.

(** a peer can make the reassembly panic with one message: the first
    message of a new stream that is not a proposal's header, or the end of a
    new stream under the last sequence number. *)
Theorem hostile_stream_panics (streams : PartStreamsMap.t Part Hgt Addr) (p : PeerId) (m : msg)
  (Hnew : streams !! (p, m.(StreamMessage.stream_id)) = None)
  (Hbad : (seq m = 0%N /\ init_of as_init m = None) \/ (StreamMessage.is_fin m = true /\ seq m = U64_MAX)) :
  exists e, PartStreamsMap.insert as_init streams p m = Panic e.
Proof.
  unfold PartStreamsMap.insert. rewrite Hnew. cbn [from_option StreamState.default StreamState.seen_sequences].
  rewrite bool_decide_eq_false_2 by set_solver. unfold StreamMessage.is_first. destruct Hbad as [[H0 Hi]|[Hf Hs]].
  - rewrite H0, N.eqb_refl. unfold PartStreamsMap.insert_first, StreamState.emit. rewrite H0, Hi. cbn. eauto.
  - rewrite Hs. change (U64_MAX =? 0)%N with false. unfold PartStreamsMap.insert_other. rewrite Hf, Hs. cbn. eauto.
Qed.

(** ** Emission at the end *)

Section whole.
Context (sid : StreamId) (init : ProposalInit.t Hgt Addr) (M : list msg) (HM : stream sid init M) (p : PeerId).
Abbreviation key := (p, sid).

Definition complete D : bool := forallb (fun m => bool_decide (seq m ∈ D)) M.

(** The state before the end: [Db] are in the buffer, the header and the end
    are those of [Di] and [Df], and [D] are known. *)
Definition partial_state (Db Di Df D : gset Sequence) : WholeStreamState.t Part Hgt Addr :=
  WholeStreamState.mk (filter (fun m => seq m ∈ Db) M) (if bool_decide (0%N ∈ Di) then Some init else None) D
    (if fin_arrived Df M then N.of_nat (length M) else 0%N) (fin_arrived Df M).

(** Nothing is emitted before the stream is complete; then the buffer is
    emptied and the state stays. *)
Definition whole_state_for D : WholeStreamState.t Part Hgt Addr :=
  if complete D then WholeStreamState.mk [] None D (N.of_nat (length M)) true else partial_state D D D D.

Lemma complete_iff D : complete D = true <-> forall m, m ∈ M -> seq m ∈ D.
Proof.
  unfold complete. rewrite forallb_forall. setoid_rewrite bool_decide_eq_true. by setoid_rewrite <- list_elem_of_In.
Qed.

Lemma complete_filter D : complete D = true -> filter (fun m => seq m ∈ D) M = M.
Proof.
  rewrite complete_iff. intros H. clear HM. induction M as [|m M' IH]; [done|].
  rewrite filter_cons_True by (apply H; constructor). f_equal. apply IH. intros x Hx. apply H. by constructor.
Qed.

(** The check for the end of the stream, on the buffer. *)
Lemma done_iff D : WholeStreamState.is_done (partial_state D D D D) = complete D.
Proof using HM.
  pose proof (stream_len _ _ _ HM) as Hlen. apply Bool.eq_iff_eq_true. unfold WholeStreamState.is_done, MinHeap.len, partial_state.
  cbn [WholeStreamState.init_info WholeStreamState.fin_received WholeStreamState.buffer WholeStreamState.total_messages].
  rewrite !andb_true_iff, bool_decide_eq_true, N.eqb_eq. split.
  - intros [[_ Hf] Hl]. rewrite Hf in Hl. apply complete_iff, Forall_forall.
    assert (Hall : length (filter (fun m => seq m ∈ D) M) = length M) by lia.
    clear -Hall. induction M as [|x M' IH]; [constructor|]. rewrite filter_cons in Hall.
    pose proof (length_filter (fun m => seq m ∈ D) M'). case_decide; cbn in Hall; [|lia]. constructor; [done|]. apply IH. lia.
  - intros Hc. pose proof (proj1 (complete_iff D) Hc) as Hall.
    assert (Hin : forall i m, M !! i = Some m -> N.of_nat i ∈ D).
    { intros i m Hm. rewrite <- (stream_seqs _ _ _ HM _ _ Hm). apply Hall. by eapply list_elem_of_lookup_2. }
    assert (Hf : fin_arrived D M = true).
    { unfold fin_arrived. apply bool_decide_eq_true_2. destruct (lookup_lt_is_Some_2 M (length M - 1)) as [m Hm]; [lia|]. by eapply Hin. }
    rewrite Hf, (complete_filter D Hc), bool_decide_eq_true_2; [done|].
    destruct (lookup_lt_is_Some_2 M 0) as [m Hm]; [lia|]. exact (Hin 0 m Hm).
Qed.

Section arrival.
Context (D : gset Sequence) (m : msg) (Hm : m ∈ M) (HD : seq m ∉ D).
Let D' : gset Sequence := {[seq m]} ∪ D.

Lemma note_first_spec Db Df :
  WholeStreamState.note_first as_init (partial_state Db D Df D') m = partial_state Db D' Df D'.
Proof using HM Hm HD.
  pose proof (stream_lookup sid init M HM _ Hm) as Hl. unfold WholeStreamState.note_first, StreamMessage.is_first, partial_state.
  destruct (N.eqb_spec (seq m) 0) as [H0|H0].
  - rewrite H0 in Hl. rewrite (stream_first _ _ _ HM _ Hl). f_equal. rewrite bool_decide_eq_true_2; [done|].
    unfold D'. set_solver.
  - f_equal. by rewrite (bool_decide_ext (0%N ∈ D') (0%N ∈ D)) by (unfold D'; set_solver).
Qed.

Lemma note_fin_spec Db Di :
  WholeStreamState.note_fin (partial_state Db Di D D') m = Ret (partial_state Db Di D' D').
Proof using HM Hm HD.
  pose proof (stream_lookup sid init M HM _ Hm) as Hl. unfold WholeStreamState.note_fin, partial_state.
  unfold D'. rewrite (fin_arrived_new sid init M HM) by done. destruct (StreamMessage.is_fin m) eqn:Hf; cbn; [|done].
  apply (stream_fin _ _ _ HM _ _ Hl) in Hf. pose proof (stream_len _ _ _ HM).
  rewrite (proj2 (add_u64_Ret _ _ (N.of_nat (length M)))) by (split; lia). done.
Qed.

Lemma whole_insert_spec :
  WholeStreamState.insert as_init (WholeStreamState.set_seen (whole_state_for D) D') m =
    Ret (whole_state_for D', if complete D' then Some (ProposalParts.from_init init (data M)) else None).
Proof using HM Hm HD.
  assert (Hc : complete D = false) by (apply not_true_iff_false; rewrite complete_iff; eauto).
  unfold whole_state_for at 1. rewrite Hc. change (WholeStreamState.set_seen (partial_state D D D D) D') with (partial_state D D D D').
  unfold WholeStreamState.insert. rewrite note_first_spec, note_fin_spec. cbn [mbind outcome_bind].
  set (st := WholeStreamState.mk _ _ _ _ _).
  assert (Hst : st = partial_state D' D' D' D').
  { unfold st, partial_state at 6. f_equal. apply (push_filter D M 0 m (stream_numbered sid init M HM) Hm HD). }
  rewrite Hst, done_iff. unfold whole_state_for. destruct (complete D') eqn:Hc'; [|done].
  pose proof (done_iff D') as Hd. rewrite Hc' in Hd. unfold WholeStreamState.is_done in Hd. cbn in Hd |- *.
  rewrite !andb_true_iff in Hd. destruct Hd as [[Hi Hf] _]. rewrite (complete_filter D' Hc').
  destruct (bool_decide (0%N ∈ D')); [|done]. by rewrite Hf.
Qed.

End arrival.

(** *** Deliveries *)

Fixpoint deliver_whole (streams : WholeStreamsMap.t Part Hgt Addr) (ds : list msg)
    : outcome (WholeStreamsMap.t Part Hgt Addr * list (ProposalParts.t Part Hgt Addr)) :=
  match ds with
  | [] => Ret (streams, [])
  | m :: ds =>
      '(streams, out) ← WholeStreamsMap.insert as_init streams p m;
      '(streams, outs) ← deliver_whole streams ds;
      Ret (streams, option_list out ++ outs)
  end.

Lemma whole_not_done D : WholeStreamState.is_done (whole_state_for D) = false.
Proof using HM. unfold whole_state_for. destruct (complete D) eqn:Hc; [done|]. by rewrite done_iff. Qed.

Lemma whole_insert streams D m :
  m ∈ M -> from_option (fun x => x) WholeStreamState.default (streams !! key) = whole_state_for D ->
  let D' := {[seq m]} ∪ D in
  WholeStreamsMap.insert as_init streams p m =
    Ret (<[key := whole_state_for D']> streams,
         if complete D' && negb (complete D) then Some (ProposalParts.from_init init (data M)) else None).
Proof using HM.
  intros Hm Hst D'. unfold WholeStreamsMap.insert. pose proof (stream_lookup sid init M HM _ Hm) as Hl.
  rewrite (stream_ids _ _ _ HM _ _ Hl). unfold id. rewrite Hst.
  assert (Hseen : WholeStreamState.seen_sequences (whole_state_for D) = D) by (unfold whole_state_for; by case_match).
  rewrite Hseen. case_bool_decide as Hin.
  - assert (HD : D' = D) by (unfold D'; set_solver). rewrite HD. by destruct (complete D).
  - rewrite whole_insert_spec by done. fold D'. cbn [mbind outcome_bind]. rewrite whole_not_done.
    assert (complete D = false) as -> by (apply not_true_iff_false; rewrite complete_iff; eauto).
    by rewrite andb_true_r.
Qed.

Lemma complete_mono D D' : D ⊆ D' -> complete D = true -> complete D' = true.
Proof. rewrite !complete_iff. intros HD H m Hm. apply HD, H, Hm. Qed.

Lemma deliver_whole_from ds streams D :
  Forall (fun m => m ∈ M) ds ->
  from_option (fun x => x) WholeStreamState.default (streams !! key) = whole_state_for D ->
  exists streams', deliver_whole streams ds =
      Ret (streams', if complete (D ∪ arrivals ds) && negb (complete D)
                     then [ProposalParts.from_init init (data M)] else []) /\
    (ds <> [] -> streams' !! key = Some (whole_state_for (D ∪ arrivals ds))).
Proof using HM.
  revert streams D. induction ds as [|m ds IH]; intros streams D Hds Hst.
  { exists streams. unfold arrivals. cbn. rewrite union_empty_r_L. split; [|done]. by destruct (complete D). }
  apply Forall_cons in Hds as [Hm Hds]. cbn [deliver_whole]. rewrite (whole_insert _ D) by done. cbn [mbind outcome_bind].
  set (D1 := {[seq m]} ∪ D). assert (HD1 : D ∪ arrivals (m :: ds) = D1 ∪ arrivals ds).
  { unfold D1, arrivals. cbn. set_solver. }
  destruct (IH (<[key := whole_state_for D1]> streams) D1) as (streams' & He & Hk); [done|by rewrite lookup_insert_eq|].
  rewrite He, HD1. cbn [mbind outcome_bind]. exists streams'. split.
  - f_equal. f_equal. pose proof (complete_mono D D1 ltac:(unfold D1; set_solver)) as H1.
    pose proof (complete_mono D1 (D1 ∪ arrivals ds) ltac:(set_solver)) as H2.
    destruct (complete D), (complete D1), (complete (D1 ∪ arrivals ds)); try done;
      first [specialize (H1 eq_refl)|specialize (H2 eq_refl)]; done.
  - intros _. destruct ds as [|m' ds]; [|by apply Hk].
    cbn in He. injection He as <- _. unfold arrivals. cbn. by rewrite lookup_insert_eq, union_empty_r_L.
Qed.

End whole.

Lemma deliver_whole_new (sid : StreamId) (init : ProposalInit.t Hgt Addr) (M ds : list msg) (p : PeerId)
  (streams : WholeStreamsMap.t Part Hgt Addr)
  (HM : stream sid init M) (Hds : Forall (fun m => m ∈ M) ds) (Hne : ds <> [])
  (Hnew : streams !! (p, sid) = None) :
  exists streams', deliver_whole p streams ds =
      Ret (streams', if complete M (arrivals ds) then [ProposalParts.from_init init (data M)] else []) /\
    streams' !! (p, sid) <> None.
Proof.
  assert (Hc : complete M ∅ = false).
  { apply not_true_iff_false. rewrite complete_iff. intros H.
    destruct (lookup_lt_is_Some_2 M 0) as [m Hm]; [pose proof (stream_len _ _ _ HM); lia|].
    specialize (H m ltac:(by eapply list_elem_of_lookup_2)). set_solver. }
  destruct (deliver_whole_from sid init M HM p ds streams ∅ Hds) as (streams' & He & Hk).
  { rewrite Hnew. cbn. unfold whole_state_for. rewrite Hc. unfold partial_state, fin_arrived.
    rewrite !bool_decide_eq_false_2 by set_solver. unfold WholeStreamState.default. f_equal. by rewrite filter_none. }
  rewrite union_empty_l_L, Hc, andb_true_r in He. exists streams'. split; [done|]. by rewrite (Hk Hne).
Qed.

(** The other implementation emits all parts of a proposal at once, in
    order, exactly when the last missing message of the stream arrives,
    whatever the order and the repetitions, and never again; but it never
    forgets the stream: its state stays in the map. *)
Theorem whole_parts_emitted_once (sid : StreamId) (init : ProposalInit.t Hgt Addr) (M ds : list msg) (p : PeerId)
  (streams : WholeStreamsMap.t Part Hgt Addr)
  (HM : stream sid init M) (Hds : Forall (fun m => m ∈ M) ds) (Hne : ds <> [])
  (Hnew : streams !! (p, sid) = None) :
  exists streams', deliver_whole p streams ds =
      Ret (streams', if complete M (arrivals ds) then [ProposalParts.from_init init (data M)] else []) /\
    streams' !! (p, sid) <> None.
Proof. by apply deliver_whole_new. Qed.

End streams.

(** ** Witnesses: a stream of two parts, received in the order 2, 0, 0, 1, 0. *)

Definition example_part : Type := ProposalInit.t N N + N.
Definition example_as_init (x : example_part) : option (ProposalInit.t N N) :=
  match x with inl init => Some init | inr _ => None end.
Definition example_init : ProposalInit.t N N := ProposalInit.mk 5%N (Round.Some 0) Round.Nil 1%N.
Definition example_msg (n : N) (c : StreamContent.t example_part) : StreamMessage.t example_part :=
  StreamMessage.new [] n c.
Definition example_stream : list (StreamMessage.t example_part) :=
  [example_msg 0 (StreamContent.Data (inl example_init)); example_msg 1 (StreamContent.Data (inr 7%N));
   example_msg 2 StreamContent.Fin].
Definition example_deliveries : list (StreamMessage.t example_part) :=
  [example_msg 2 StreamContent.Fin; example_msg 0 (StreamContent.Data (inl example_init));
   example_msg 0 (StreamContent.Data (inl example_init)); example_msg 1 (StreamContent.Data (inr 7%N));
   example_msg 0 (StreamContent.Data (inl example_init))].

Lemma example_stream_ok : stream example_as_init [] example_init example_stream.
Proof.
  split; try done.
  - intros [|[|[|i]]] m H; cbn in H; simplify_eq; done.
  - intros [|[|[|i]]] m H; cbn in H; simplify_eq; done.
  - intros m [= <-]. done.
  - intros [|[|[|i]]] m H; cbn in H; simplify_eq; done.
Qed.

Lemma example_deliveries_ok : Forall (fun m => m ∈ example_stream) example_deliveries.
Proof. repeat constructor. Qed.

Lemma example_all_delivered : Forall (fun m => m ∈ example_deliveries) example_stream.
Proof. repeat constructor. Qed.

Lemma parts_reassembled_witness :
  passes example_stream ∅ example_deliveries = (1, {[0%N]}) /\
  exists streams' outs, deliver example_as_init [] ∅ example_deliveries = Ret (streams', outs) /\
    concat (ProposalParts.parts <$> outs) = [inl example_init; inr 7%N; inl example_init] /\ streams' !! ([], []) <> None.
Proof.
  assert (Hp : passes example_stream ∅ example_deliveries = (1, {[0%N]})) by vm_refl. split; [exact Hp|].
  pose proof (parts_reassembled example_as_init [] example_init example_stream example_deliveries [] ∅
    example_stream_ok example_deliveries_ok eq_refl) as H.
  rewrite Hp in H. destruct H as (streams' & outs & He & Hparts & _ & _ & Hk & _).
  exists streams', outs. split; [exact He|]. split; [etrans; [exact Hparts|vm_refl]|].
  intros Hnone. apply Hk in Hnone. discriminate (f_equal (@base.size (gset N) _) Hnone).
Defined.

Lemma hostile_stream_panics_witness :
  exists e, PartStreamsMap.insert example_as_init ∅ [] (example_msg 0 (StreamContent.Data (inr 7%N))) = Panic e.
Proof. apply hostile_stream_panics; [done|by left]. Defined.

Lemma whole_parts_emitted_once_witness :
  exists streams', deliver_whole example_as_init [] ∅ example_deliveries =
    Ret (streams', [ProposalParts.from_init example_init [inl example_init; inr 7%N]]) /\ streams' !! ([], []) <> None.
Proof.
  exact (whole_parts_emitted_once example_as_init [] example_init example_stream example_deliveries [] ∅
    example_stream_ok example_deliveries_ok ltac:(done) ltac:(done)).
Defined.
