(* ===== verification/StarknetTypes.v ===== *)
(** * Starknet: messages and their protobuf form

    proto/src/lib.rs (the trait [Protobuf] and its errors), the messages of
    starknet/p2p-proto/proto as records, as prost makes them from the .proto
    files (a field of message type is optional, an enumeration is an [i32]), the
    conversions of starknet/p2p-proto/src/lib.rs, and the types of
    starknet/p2p-types with their conversions: hashes (hash.rs), field elements
    (felt.rs), addresses (address.rs), transactions (transaction.rs), block
    information (block_info.rs), commitments (proposal_commitment.rs), proposal
    parts (proposal_part.rs), blocks (block.rs), proofs (block_proof.rs), votes
    (vote.rs) and stream messages (streaming.rs).

    The wire format (prost), public keys (ed25519-consensus), field elements
    (starknet-crypto) and Keccak are classes. *)

From S2P Require Import Prelude Types Bytes Context Starknet ConsensusTypes Streaming.

(** ** Errors and results (proto/src/lib.rs) *)

Module ProtoError.
Inductive t : Type :=
  | Decode
  | Encode
  | MissingField (type_url field : string)
  | InvalidData (type_url field : string)
  | UnknownMessageType (type_url : string)
  | Other (message : string).
End ProtoError.

(** [Result<A, ProtoError>], of a function that may panic. *)
Abbreviation presult A := (outcome (ProtoError.t + A)).
Definition ok {A} (a : A) : presult A := Ret (inr a).
Definition err {A} (e : ProtoError.t) : presult A := Ret (inl e).
Definition and_then {A B} (m : presult A) (k : A -> presult B) : presult B :=
  r ← m; match r with inr a => k a | inl e => err e end.

Declare Scope proto_scope.
Delimit Scope proto_scope with proto.
Notation "x ←? y ; z" := (and_then y (fun x => z))
  (at level 20, y at level 100, z at level 200, only parsing) : proto_scope.
Open Scope proto_scope.

(** [ok_or_else(|| missing_field::<N>(field))]. *)
Definition required {A} (type_url field : string) (o : option A) : presult A :=
  match o with Some a => ok a | None => err (ProtoError.MissingField type_url field) end.

(** [map(f).collect::<Result<Vec<_>, _>>()]. *)
Fixpoint collect {A B} (f : A -> presult B) (l : list A) : presult (list B) :=
  match l with [] => ok [] | x :: l => y ←? f x; ys ←? collect f l; ok (y :: ys) end.

(** ** Messages and conversions *)

(** A message of prost: [Name], [Message]. *)
Class Message (P : Type) : Type := {
  type_url : string;
  wire_decode : bytes -> option P;
  encode_to_vec : P -> bytes;
}.
Arguments type_url P {_}.

(** The wire format can be read back, which holds of every message whose integers
    fit their fields. *)
Definition wire_roundtrips {P} `{Message P} (p : P) : Prop := wire_decode (encode_to_vec p) = Some p.

Class Protobuf (T P : Type) : Type := {
  from_proto : P -> presult T;
  to_proto : T -> presult P;
}.
#[global] Hint Mode Protobuf + - : typeclass_instances.

(** [prost_types::Any], with [Any::from_msg] and [Any::to_msg]. *)
Module Any.
Record t : Type := mk { type_url : string; value : bytes }.
Definition from_msg {P} `{Message P} (p : P) : t := mk (StarknetTypes.type_url P) (encode_to_vec p).
Definition to_msg {P} `{Message P} (self : t) : option P :=
  if String.eqb self.(type_url) (StarknetTypes.type_url P) then wire_decode self.(value) else None.
End Any.

Section protobuf.
Context {T P : Type} `{Message P, Protobuf T P}.

Definition decoded (o : option P) : presult P := match o with Some p => ok p | None => err ProtoError.Decode end.
Definition from_bytes (b : bytes) : presult T := p ←? decoded (wire_decode b); from_proto p.
Definition to_bytes (x : T) : presult bytes := p ←? to_proto x; ok (encode_to_vec p).
Definition from_any (any : Any.t) : presult T := p ←? decoded (Any.to_msg any); from_proto p.
Definition to_any (x : T) : presult Any.t := p ←? to_proto x; ok (Any.from_msg p).
End protobuf.

(** ** The messages (p2p-proto/proto) *)

Module Pb.

Record Felt252 : Type := mk_felt { felt_elements : bytes }.
Record Hash : Type := mk_hash { hash_elements : bytes }.
Record Address : Type := mk_address { address_elements : bytes }.
Record PeerID : Type := mk_peer_id { peer_id : bytes }.
Record Uint128 : Type := mk_uint128 { low : N; high : N }.
Record ConsensusSignature : Type := mk_signature { sig_r : option Felt252; sig_s : option Felt252 }.
Record BlockProof : Type := mk_proof { proof : list bytes }.

(** The content of the kinds of transaction that are refused is not looked at. *)
Inductive Txn : Type :=
  | DeclareV3 (content : bytes)
  | DeployAccountV3 (content : bytes)
  | InvokeV3 (content : bytes)
  | L1Handler (content : bytes)
  | Dummy (data : bytes).
Record ConsensusTransaction : Type := mk_transaction { txn : option Txn; transaction_hash : option Hash }.
Record TransactionBatch : Type := mk_batch { transactions : list ConsensusTransaction }.

Record Vote : Type := mk_vote {
  vote_type : Z;
  vote_block_number : N;
  vote_fork_id : N;
  vote_round : N;
  vote_block_hash : option Hash;
  voter : option Address;
}.

Record ConsensusStreamId : Type := mk_stream_id { stream_height : N; stream_round : N; nonce : N }.

Record ProposalInit : Type := mk_init {
  init_height : N;
  init_round : N;
  init_valid_round : option N;
  init_proposer : option Address;
}.
Record ProposalFin : Type := mk_fin { proposal_commitment : option Hash }.

Record ProposalCommitment : Type := mk_commitment {
  block_number : N;
  fork_id : N;
  parent_commitment : option Hash;
  builder : option Address;
  timestamp : N;
  protocol_version : string;
  old_state_root : option Hash;
  state_diff_commitment : option Hash;
  transaction_commitment : option Hash;
  event_commitment : option Hash;
  receipt_commitment : option Hash;
  concatenated_counts : option Felt252;
  l1_gas_price_fri : option Uint128;
  l1_data_gas_price_fri : option Uint128;
  l2_gas_price_fri : option Uint128;
  l2_gas_used : option Uint128;
  l1_da_mode : Z;
}.

Record BlockInfo : Type := mk_block_info {
  info_block_number : N;
  info_fork_id : N;
  info_builder : option Address;
  info_timestamp : N;
  info_l2_gas_price_fri : option Uint128;
  info_l1_gas_price_wei : option Uint128;
  info_l1_data_gas_price_wei : option Uint128;
  info_eth_to_strk_rate : option Uint128;
  info_l1_da_mode : Z;
}.

Inductive PartMessages : Type :=
  | Init (init : ProposalInit)
  | Fin (fin : ProposalFin)
  | Info (block_info : BlockInfo)
  | Transactions (transactions : TransactionBatch)
  | Commitment (commitment : ProposalCommitment).
Record ProposalPart : Type := mk_part { part_messages : option PartMessages }.

Inductive StreamMessageContent : Type := Content (content : bytes) | StreamFin.
Record StreamMessage : Type := mk_stream_message {
  stream_message : option StreamMessageContent;
  stream_id : bytes;
  message_id : N;
}.

(** sync.proto. *)
Record Block : Type := mk_block {
  blk_fork_id : N;
  blk_block_number : N;
  blk_transactions : option TransactionBatch;
  blk_block_hash : option Hash;
}.

End Pb.

(** [From<Uint128> for u128] and back (p2p-proto/src/lib.rs). *)
Definition u128_of_proto (value : Pb.Uint128) : N := N.lor value.(Pb.low) (N.shiftl value.(Pb.high) 64).
Definition u128_to_proto (value : N) : Pb.Uint128 := Pb.mk_uint128 (value mod 2 ^ 64) (N.shiftr value 64 mod 2 ^ 64).

(** ** The types of the context *)

(** A hash is an array of 32 bytes. *)
Module SnHash.
Record t : Type := new { as_bytes : bytes }.

#[global] Instance t_eq_dec : EqDecision t.
Proof. solve_decision. Defined.
#[global] Instance t_countable : Countable t.
Proof. refine (inj_countable' as_bytes new _). by intros []. Defined.

(** [Ord]: the arrays, byte by byte. *)
Fixpoint bytes_ltb (a b : bytes) : bool :=
  match a, b with
  | x :: a, y :: b => (Byte.to_N x <? Byte.to_N y)%N || ((Byte.to_N x =? Byte.to_N y)%N && bytes_ltb a b)
  | [], _ :: _ => true
  | _, [] => false
  end.
Definition ltb (self other : t) : bool := bytes_ltb self.(as_bytes) other.(as_bytes).

Definition ok (self : t) : Prop := length self.(as_bytes) = 32.
End SnHash.

Class StarknetEnv : Type := {
  PubKey : Type;
  PubKey_dec :: EqDecision PubKey;
  PubKey_cnt :: Countable PubKey;
  SnSig : Type;
  SnSig_dec :: EqDecision SnSig;
  Felt : Type;
  (** [VerificationKey::try_from]: not all arrays of 32 bytes are keys. *)
  key_try_from : bytes -> option PubKey;
  key_bytes : PubKey -> bytes;
  (** [Signature::test()]. *)
  test_signature : SnSig;
  felt_from_bytes_be : bytes -> Felt;
  felt_to_bytes_be : Felt -> bytes;
  Felt_ONE : Felt;
  keccak : bytes -> bytes;
}.

(** What the crates document of keys, field elements and hashes. *)
Class StarknetEnvLaws `{StarknetEnv} : Prop := {
  key_try_from_bytes (k : PubKey) : key_try_from (key_bytes k) = Some k;
  key_bytes_length (k : PubKey) : length (key_bytes k) = 32;
  felt_from_to_bytes (f : Felt) : felt_from_bytes_be (felt_to_bytes_be f) = f;
  felt_bytes_length (f : Felt) : length (felt_to_bytes_be f) = 32;
  keccak_length (b : bytes) : length (keccak b) = 32;
}.

#[global] Instance sn_context `{StarknetEnv} : Context := MockContext (PK := PubKey) (Sig := SnSig) (Hash := SnHash.t).

Abbreviation SnAddress := PubKey.

(** ** Conversions *)

Section conversions.
Context `{StarknetEnv}.

(** *** Hashes (hash.rs), field elements (felt.rs), addresses (address.rs) *)

Definition hash_from_proto (proto : Pb.Hash) : presult SnHash.t :=
  if length proto.(Pb.hash_elements) =? 32 then ok (SnHash.new proto.(Pb.hash_elements))
  else err (ProtoError.Other "Invalid hash length").
Definition hash_to_proto (self : SnHash.t) : presult Pb.Hash := ok (Pb.mk_hash self.(SnHash.as_bytes)).
#[global] Instance hash_protobuf : Protobuf SnHash.t Pb.Hash := {| from_proto := hash_from_proto; to_proto := hash_to_proto |}.

(** [copy_from_slice] panics when the lengths differ. *)
Definition felt_from_proto (proto : Pb.Felt252) : presult Felt :=
  if length proto.(Pb.felt_elements) =? 32 then ok (felt_from_bytes_be proto.(Pb.felt_elements))
  else Panic "copy_from_slice: source slice length does not match destination slice length".
Definition felt_to_proto (self : Felt) : presult Pb.Felt252 := ok (Pb.mk_felt (felt_to_bytes_be self)).

(** [PublicKey::from_bytes] (signing-ed25519/src/lib.rs) unwraps the key. *)
Definition public_key_from_bytes (b : bytes) : outcome PubKey :=
  expect (key_try_from b) "called `Result::unwrap()` on an `Err` value: MalformedPublicKey".
Definition address_from_proto (proto : Pb.Address) : presult SnAddress :=
  if length proto.(Pb.address_elements) =? 32 then
    key ← public_key_from_bytes proto.(Pb.address_elements); ok key
  else err (ProtoError.Other "Invalid address length").
Definition address_to_proto (self : SnAddress) : presult Pb.Address := ok (Pb.mk_address (key_bytes self)).
#[global] Instance address_protobuf : Protobuf PubKey Pb.Address :=
  {| from_proto := address_from_proto; to_proto := address_to_proto |}.

End conversions.

(** *** Transactions (transaction.rs) *)

Module Transaction.
Record t : Type := mk { data : bytes; hash : SnHash.t }.

#[global] Instance t_eq_dec : EqDecision t.
Proof. solve_decision. Defined.

Section transaction.
Context `{StarknetEnv}.
Definition compute_hash (b : bytes) : SnHash.t := SnHash.new (keccak b).
Definition new (data : bytes) : t := mk data (compute_hash data).
Definition size_bytes (self : t) : N := size self.(data).

Definition from_proto (proto : Pb.ConsensusTransaction) : presult t :=
  txn ←? required "ConsensusTransaction" "txn" proto.(Pb.txn);
  hash ←? required "ConsensusTransaction" "transaction_hash" proto.(Pb.transaction_hash);
  match txn with
  | Pb.Dummy bytes => hash ←? hash_from_proto hash; ok (mk bytes hash)
  | _ => err (ProtoError.InvalidData "ConsensusTransaction" "unknown transaction type")
  end.
Definition to_proto (self : t) : presult Pb.ConsensusTransaction :=
  hash ←? hash_to_proto self.(hash);
  ok (Pb.mk_transaction (Some (Pb.Dummy self.(data))) (Some hash)).
End transaction.
End Transaction.

Module TransactionBatch.
Abbreviation t := (list Transaction.t).

Section batch.
Context `{StarknetEnv}.
Definition size_bytes (self : t) : outcome N := sum_u64 "attempt to add with overflow" (Transaction.size_bytes <$> self).

Definition from_proto (proto : Pb.TransactionBatch) : presult t := collect Transaction.from_proto proto.(Pb.transactions).
Definition to_proto (self : t) : presult Pb.TransactionBatch :=
  transactions ←? collect Transaction.to_proto self; ok (Pb.mk_batch transactions).
End batch.
End TransactionBatch.

(** *** Block information and commitments (block_info.rs, proposal_commitment.rs) *)

Module L1DataAvailabilityMode.
Inductive t : Type := Calldata | Blob.
#[global] Instance t_eq_dec : EqDecision t.
Proof. solve_decision. Defined.

Definition from_proto (proto : Z) : presult t :=
  if (proto =? 0)%Z then ok Calldata
  else if (proto =? 1)%Z then ok Blob
  else err (ProtoError.InvalidData "i32" "invalid value for L1DataAvailabilityMode").
Definition to_proto (self : t) : presult Z := ok (match self with Calldata => 0%Z | Blob => 1%Z end).
End L1DataAvailabilityMode.

Module BlockInfo.
Record t `{StarknetEnv} : Type := mk {
  height : SnHeight.t;
  builder : SnAddress;
  timestamp : N;
  l1_gas_price_wei : N;
  l1_data_gas_price_wei : N;
  l2_gas_price_fri : N;
  eth_to_strk_rate : N;
  l1_da_mode : L1DataAvailabilityMode.t;
}.
Arguments mk {_}.

Section info.
Context `{StarknetEnv}.

Definition from_proto (proto : Pb.BlockInfo) : presult t :=
  builder ←? required "BlockInfo" "builder" proto.(Pb.info_builder);
  builder ←? address_from_proto builder;
  l1_gas_price_wei ←? required "BlockInfo" "l1_gas_price_wei" proto.(Pb.info_l1_gas_price_wei);
  l1_data_gas_price_wei ←? required "BlockInfo" "l1_data_gas_price_wei" proto.(Pb.info_l1_data_gas_price_wei);
  l2_gas_price_fri ←? required "BlockInfo" "l2_gas_price_fri" proto.(Pb.info_l2_gas_price_fri);
  eth_to_strk_rate ←? required "BlockInfo" "eth_to_strk_rate" proto.(Pb.info_eth_to_strk_rate);
  l1_da_mode ←? L1DataAvailabilityMode.from_proto proto.(Pb.info_l1_da_mode);
  ok (mk (SnHeight.new proto.(Pb.info_block_number) proto.(Pb.info_fork_id)) builder proto.(Pb.info_timestamp)
         (u128_of_proto l1_gas_price_wei) (u128_of_proto l1_data_gas_price_wei) (u128_of_proto l2_gas_price_fri)
         (u128_of_proto eth_to_strk_rate) l1_da_mode).

Definition to_proto (self : t) : presult Pb.BlockInfo :=
  builder ←? address_to_proto self.(builder);
  l1_da_mode ←? L1DataAvailabilityMode.to_proto self.(l1_da_mode);
  ok (Pb.mk_block_info self.(height).(SnHeight.block_number) self.(height).(SnHeight.fork_id) (Some builder)
        self.(timestamp) (Some (u128_to_proto self.(l2_gas_price_fri))) (Some (u128_to_proto self.(l1_gas_price_wei)))
        (Some (u128_to_proto self.(l1_data_gas_price_wei))) (Some (u128_to_proto self.(eth_to_strk_rate))) l1_da_mode).
End info.
End BlockInfo.

Module ProposalCommitment.
Record t `{StarknetEnv} : Type := mk {
  height : SnHeight.t;
  parent_commitment : SnHash.t;
  builder : SnAddress;
  timestamp : N;
  protocol_version : string;
  old_state_root : SnHash.t;
  state_diff_commitment : SnHash.t;
  transaction_commitment : SnHash.t;
  event_commitment : SnHash.t;
  receipt_commitment : SnHash.t;
  concatenated_counts : Felt;
  l1_gas_price_fri : N;
  l1_data_gas_price_fri : N;
  l2_gas_price_fri : N;
  l2_gas_used : N;
  l1_da_mode : L1DataAvailabilityMode.t;
}.
Arguments mk {_}.

Section commitment.
Context `{StarknetEnv}.

(** A required hash. *)
Definition hash_field (field : string) (o : option Pb.Hash) : presult SnHash.t :=
  h ←? required "ProposalCommitment" field o; hash_from_proto h.
Definition u128_field (field : string) (o : option Pb.Uint128) : presult N :=
  n ←? required "ProposalCommitment" field o; ok (u128_of_proto n).

Definition from_proto (proto : Pb.ProposalCommitment) : presult t :=
  parent_commitment ←? hash_field "parent_commitment" proto.(Pb.parent_commitment);
  builder ←? required "ProposalCommitment" "builder" proto.(Pb.builder);
  builder ←? address_from_proto builder;
  old_state_root ←? hash_field "old_state_root" proto.(Pb.old_state_root);
  state_diff_commitment ←? hash_field "state_diff_commitment" proto.(Pb.state_diff_commitment);
  transaction_commitment ←? hash_field "transaction_commitment" proto.(Pb.transaction_commitment);
  event_commitment ←? hash_field "event_commitment" proto.(Pb.event_commitment);
  receipt_commitment ←? hash_field "receipt_commitment" proto.(Pb.receipt_commitment);
  concatenated_counts ←? required "ProposalCommitment" "concatenated_counts" proto.(Pb.concatenated_counts);
  concatenated_counts ←? felt_from_proto concatenated_counts;
  l1_gas_price_fri ←? u128_field "l1_gas_price_fri" proto.(Pb.l1_gas_price_fri);
  l1_data_gas_price_fri ←? u128_field "l1_data_gas_price_fri" proto.(Pb.l1_data_gas_price_fri);
  l2_gas_price_fri ←? u128_field "l2_gas_price_fri" proto.(Pb.l2_gas_price_fri);
  l2_gas_used ←? u128_field "l2_gas_used" proto.(Pb.l2_gas_used);
  l1_da_mode ←? L1DataAvailabilityMode.from_proto proto.(Pb.l1_da_mode);
  ok (mk (SnHeight.new proto.(Pb.block_number) proto.(Pb.fork_id)) parent_commitment builder proto.(Pb.timestamp)
         proto.(Pb.protocol_version) old_state_root state_diff_commitment transaction_commitment event_commitment
         receipt_commitment concatenated_counts l1_gas_price_fri l1_data_gas_price_fri l2_gas_price_fri l2_gas_used
         l1_da_mode).

Definition to_proto (self : t) : presult Pb.ProposalCommitment :=
  parent_commitment ←? hash_to_proto self.(parent_commitment);
  builder ←? address_to_proto self.(builder);
  old_state_root ←? hash_to_proto self.(old_state_root);
  state_diff_commitment ←? hash_to_proto self.(state_diff_commitment);
  transaction_commitment ←? hash_to_proto self.(transaction_commitment);
  event_commitment ←? hash_to_proto self.(event_commitment);
  receipt_commitment ←? hash_to_proto self.(receipt_commitment);
  concatenated_counts ←? felt_to_proto self.(concatenated_counts);
  l1_da_mode ←? L1DataAvailabilityMode.to_proto self.(l1_da_mode);
  ok (Pb.mk_commitment self.(height).(SnHeight.block_number) self.(height).(SnHeight.fork_id)
        (Some parent_commitment) (Some builder) self.(timestamp) self.(protocol_version) (Some old_state_root)
        (Some state_diff_commitment) (Some transaction_commitment) (Some event_commitment) (Some receipt_commitment)
        (Some concatenated_counts) (Some (u128_to_proto self.(l1_gas_price_fri)))
        (Some (u128_to_proto self.(l1_data_gas_price_fri))) (Some (u128_to_proto self.(l2_gas_price_fri)))
        (Some (u128_to_proto self.(l2_gas_used))) l1_da_mode).
End commitment.
End ProposalCommitment.

(** *** Proposal parts (proposal_part.rs)

    The [valid_round] of a [ProposalInit] is the field [pol_round] of the streams'
    headers. *)

Definition non_nil (round : Round.t) : outcome N := expect (Round.as_u32 round) "round should not be nil".

Module SnPart.
Inductive t `{StarknetEnv} : Type :=
  | Init (init : ProposalInit.t SnHeight.t SnAddress)
  | BlockInfo (block_info : StarknetTypes.BlockInfo.t)
  | Transactions (txes : TransactionBatch.t)
  | Commitment (commitment : ProposalCommitment.t)
  | Fin (proposal_commitment_hash : SnHash.t).

Section part.
Context `{StarknetEnv}.

Definition tx_count (self : t) : N := match self with Transactions txes => N.of_nat (length txes) | _ => 0%N end.
Definition as_init (self : t) : option (ProposalInit.t SnHeight.t SnAddress) :=
  match self with Init v => Some v | _ => None end.
Definition as_block_info (self : t) : option StarknetTypes.BlockInfo.t := match self with BlockInfo v => Some v | _ => None end.
Definition as_transactions (self : t) : option TransactionBatch.t :=
  match self with Transactions v => Some v | _ => None end.
Definition as_commitment (self : t) : option ProposalCommitment.t := match self with Commitment v => Some v | _ => None end.
Definition as_fin (self : t) : option SnHash.t := match self with Fin v => Some v | _ => None end.

Definition from_proto (proto : Pb.ProposalPart) : presult t :=
  message ←? required "ProposalPart" "messages" proto.(Pb.part_messages);
  match message with
  | Pb.Init init =>
      proposer ←? required "ProposalPart" "proposer" init.(Pb.init_proposer);
      proposer ←? address_from_proto proposer;
      ok (Init (ProposalInit.mk (SnHeight.new init.(Pb.init_height) 0) (Round.new init.(Pb.init_round))
                  (Round.from_option init.(Pb.init_valid_round)) proposer))
  | Pb.Info block_info => block_info ←? StarknetTypes.BlockInfo.from_proto block_info; ok (BlockInfo block_info)
  | Pb.Transactions txes => txes ←? TransactionBatch.from_proto txes; ok (Transactions txes)
  | Pb.Commitment commitment => commitment ←? ProposalCommitment.from_proto commitment; ok (Commitment commitment)
  | Pb.Fin fin =>
      hash ←? required "ProposalPart" "proposal_commitment" fin.(Pb.proposal_commitment);
      hash ←? hash_from_proto hash; ok (Fin hash)
  end.

Definition to_messages (self : t) : presult Pb.PartMessages :=
  match self with
  | Init init =>
      round ← non_nil init.(ProposalInit.round);
      proposer ←? address_to_proto init.(ProposalInit.proposer);
      ok (Pb.Init (Pb.mk_init init.(ProposalInit.height).(SnHeight.block_number) round
            (Round.as_u32 init.(ProposalInit.pol_round)) (Some proposer)))
  | BlockInfo block_info => block_info ←? StarknetTypes.BlockInfo.to_proto block_info; ok (Pb.Info block_info)
  | Transactions txes =>
      transactions ←? collect Transaction.to_proto txes; ok (Pb.Transactions (Pb.mk_batch transactions))
  | Commitment commitment => commitment ←? ProposalCommitment.to_proto commitment; ok (Pb.Commitment commitment)
  | Fin hash => hash ←? hash_to_proto hash; ok (Pb.Fin (Pb.mk_fin (Some hash)))
  end.
Definition to_proto (self : t) : presult Pb.ProposalPart :=
  message ←? to_messages self; ok (Pb.mk_part (Some message)).

(** [to_sign_bytes] unwraps; [size_bytes] is its length. *)
Definition to_sign_bytes `{Message Pb.ProposalPart} (self : t) : outcome bytes :=
  r ← to_proto self;
  match r with inr proto => Ret (encode_to_vec proto) | inl _ => Panic "called `Result::unwrap()` on an `Err` value" end.
Definition size_bytes `{Message Pb.ProposalPart} (self : t) : outcome N := size <$> to_sign_bytes self.
End part.
End SnPart.
#[global] Instance part_protobuf `{StarknetEnv} : Protobuf SnPart.t Pb.ProposalPart :=
  {| from_proto := SnPart.from_proto; to_proto := SnPart.to_proto |}.

(** *** Blocks and proofs (block.rs, block_proof.rs) *)

Module SnBlock.
Record t : Type := mk { height : SnHeight.t; transactions : TransactionBatch.t; block_hash : SnHash.t }.

Section block.
Context `{StarknetEnv}.
Definition from_proto (proto : Pb.Block) : presult t :=
  transactions ←? required "Block" "transactions" proto.(Pb.blk_transactions);
  block_hash ←? required "Block" "block_hash" proto.(Pb.blk_block_hash);
  transactions ←? TransactionBatch.from_proto transactions;
  block_hash ←? hash_from_proto block_hash;
  ok (mk (SnHeight.new proto.(Pb.blk_block_number) proto.(Pb.blk_fork_id)) transactions block_hash).
Definition to_proto (self : t) : presult Pb.Block :=
  transactions ←? TransactionBatch.to_proto self.(transactions);
  block_hash ←? hash_to_proto self.(block_hash);
  ok (Pb.mk_block self.(height).(SnHeight.fork_id) self.(height).(SnHeight.block_number) (Some transactions)
        (Some block_hash)).
End block.
End SnBlock.
#[global] Instance block_protobuf `{StarknetEnv} : Protobuf SnBlock.t Pb.Block :=
  {| from_proto := SnBlock.from_proto; to_proto := SnBlock.to_proto |}.
#[global] Instance batch_protobuf `{StarknetEnv} : Protobuf TransactionBatch.t Pb.TransactionBatch :=
  {| from_proto := TransactionBatch.from_proto; to_proto := TransactionBatch.to_proto |}.

Module BlockProof.
Record t : Type := new { proof_bytes : list bytes }.
Definition from_proto (proto : Pb.BlockProof) : presult t := ok (new proto.(Pb.proof)).
Definition to_proto (self : t) : presult Pb.BlockProof := ok (Pb.mk_proof self.(proof_bytes)).
End BlockProof.

(** *** Votes (vote.rs)

    The accessor of an enumeration field gives the first variant when the number
    is not one of the enumeration. *)

Module SnVoteProto.
Section vote.
Context `{StarknetEnv}.

Definition proto_vote_type (vote_type : Z) : VoteType.t :=
  if (vote_type =? 1)%Z then VoteType.Precommit else VoteType.Prevote.
Definition common_to_proto_vote_type (vote_type : VoteType.t) : Z :=
  match vote_type with VoteType.Prevote => 0%Z | VoteType.Precommit => 1%Z end.

Definition from_proto (proto : Pb.Vote) : presult (SnVote (PK := PubKey) (Hash := SnHash.t)) :=
  block_hash ←? (match proto.(Pb.vote_block_hash) with
                 | Some block_hash => hash ←? hash_from_proto block_hash; ok (NilOrVal.Val hash)
                 | None => ok NilOrVal.Nil
                 end);
  voter ←? required "Vote" "voter" proto.(Pb.voter);
  voter ←? address_from_proto voter;
  ok (mk_vote (proto_vote_type proto.(Pb.vote_type)) (SnHeight.new proto.(Pb.vote_block_number) proto.(Pb.vote_fork_id))
        (Round.new proto.(Pb.vote_round)) block_hash voter).

Definition to_proto (self : SnVote (PK := PubKey) (Hash := SnHash.t)) : presult Pb.Vote :=
  round ← non_nil self.(sn_vote_round);
  block_hash ←? (match self.(sn_block_hash) with
                 | NilOrVal.Nil => ok None
                 | NilOrVal.Val v => hash ←? hash_to_proto v; ok (Some hash)
                 end);
  voter ←? address_to_proto self.(sn_voter);
  ok (Pb.mk_vote (common_to_proto_vote_type self.(sn_vote_type)) self.(sn_vote_height).(SnHeight.block_number)
        self.(sn_vote_height).(SnHeight.fork_id) round block_hash (Some voter)).
End vote.
End SnVoteProto.

(** *** Stream messages (streaming.rs) *)

Module SnStreamMessage.
Inductive content : Type := Data (data : bytes) | Fin.
Record t : Type := mk { id : bytes; sequence : N; message : content }.

Definition from_proto (proto : Pb.StreamMessage) : presult t :=
  message ←? required "StreamMessage" "content" proto.(Pb.stream_message);
  ok (mk proto.(Pb.stream_id) proto.(Pb.message_id)
        (match message with Pb.Content data => Data data | Pb.StreamFin => Fin end)).
Definition to_proto (self : t) : presult Pb.StreamMessage :=
  ok (Pb.mk_stream_message (Some (match self.(message) with Data data => Pb.Content data | Fin => Pb.StreamFin end))
        self.(id) self.(sequence)).
End SnStreamMessage.
#[global] Instance stream_message_protobuf : Protobuf SnStreamMessage.t Pb.StreamMessage :=
  {| from_proto := SnStreamMessage.from_proto; to_proto := SnStreamMessage.to_proto |}.
