(* ===== verification/EngineNetwork.v ===== *)
(** * The network actor

    engine/src/network.rs, between the other actors and the network task
    (Network.v): it encodes what they publish and hands it to the task, and
    decodes what the task reports into [NetworkEvent]s for its subscribers.

    The codec is a class: encoding and decoding may fail, and may panic. The
    calls to the handle of the task (network/src/handle.rs), to the output port
    and to the reply ports are the effects of the actor. *)

From S2P Require Import Prelude Types Bytes Context Coroutine ConsensusTypes Scoring SyncTypes Streaming Network.

(** ** Codecs (codec/src/lib.rs) *)

Class Codec (T : Type) : Type := {
  decode : bytes -> outcome (option T);
  encode : T -> outcome (option bytes);
}.
Class HasEncodedLen (T : Type) : Type := encoded_len : T -> outcome (option N).

(** What is encoded is decoded to the same value. *)
Definition codec_roundtrips {T} `{Codec T} (x : T) : Prop :=
  forall b, encode x = Ret (Some b) -> decode b = Ret (Some x).

(** [Ctx::ProposalPart]. *)
Class ProposalPartType : Type := ProposalPart : Type.

(** The codec of the actor. *)
Class NetworkCodec {Ctx : Context} {Part : ProposalPartType} : Type := {
  #[global] consensus_msg_codec :: Codec SignedConsensusMsg.t;
  #[global] liveness_msg_codec :: Codec LivenessMsg.t;
  #[global] stream_message_codec :: Codec (StreamMessage.t ProposalPart);
  #[global] status_codec :: Codec Status.t;
  #[global] request_codec :: Codec Request;
  #[global] response_codec :: Codec SyncValueResponse.t;
  #[global] response_encoded_len :: HasEncodedLen SyncValueResponse.t;
}.

(** ** Messages *)

(** The actor's own [Status] has no peer. *)
Module LocalStatus.
Record t {Ctx : Context} : Type := new { tip_height : Height; history_min_height : Height }.
Arguments new {Ctx} tip_height history_min_height.
End LocalStatus.

Module NetworkEvent.
Inductive t {Ctx : Context} {Part : ProposalPartType} : Type :=
  | Listening (address : Multiaddr)
  | PeerConnected (peer : PeerId)
  | PeerDisconnected (peer : PeerId)
  | Vote (peer : PeerId) (vote : SignedVote)
  | Proposal (peer : PeerId) (proposal : SignedProposal)
  | ProposalPart (peer : PeerId) (part : StreamMessage.t EngineNetwork.ProposalPart)
  | PolkaCertificate (peer : PeerId) (certificate : PolkaCertificate.t)
  | RoundCertificate (peer : PeerId) (certificate : RoundCertificate.t)
  | Status (peer : PeerId) (status : LocalStatus.t)
  | SyncRequest (request_id : InboundRequestId) (peer : PeerId) (request : Request)
  | SyncResponse (request_id : OutboundRequestId) (peer : PeerId) (response : option SyncValueResponse.t).
Arguments t {Ctx Part}.
End NetworkEvent.

Module NetworkMsg.
Inductive t {Ctx : Context} {Part : ProposalPartType} : Type :=
  | Subscribe
  | PublishConsensusMsg (msg : SignedConsensusMsg.t)
  | PublishLivenessMsg (msg : LivenessMsg.t)
  | PublishProposalPart (msg : StreamMessage.t ProposalPart)
  | BroadcastStatus (status : LocalStatus.t)
  | OutgoingRequest (peer : PeerId) (request : Request)
  | OutgoingResponse (request_id : InboundRequestId) (response : SyncValueResponse.t)
  | GetResponseSize (response : SyncValueResponse.t)
  | GetState
  | NewEvent (event : Event.t).
Arguments t {Ctx Part}.
End NetworkMsg.

(** The effects: messages to the network task, events for the new subscriber and
    for all subscribers, and replies to the caller. *)
Module NetworkCall.
Inductive t {Ctx : Context} {Part : ProposalPartType} : Type :=
  | Ctrl (msg : CtrlMsg.t)
  | Join
  | SubscriberSend (event : NetworkEvent.t)
  | SubscribeToPort
  | OutputPort (event : NetworkEvent.t)
  | ReplyRequestId (request_id : OutboundRequestId)
  | ReplySize (bytes : N)
  | ReplyPeers (number_peers : nat).
Arguments t {Ctx Part}.
End NetworkCall.

(** An answer of another kind than the call's stands for a failed call. *)
Module NetworkReply.
Inductive t : Type :=
  | Ok
  | Error
  | RequestId (request_id : P2pRequestId).
End NetworkReply.

(** ** State *)

Module RunningState.
Record t : Type := mk {
  peer_id : PeerId;
  listen_addrs : list Multiaddr;
  peers : gset PeerId;
  inbound_requests : gmap InboundRequestId P2pRequestId;
}.
Definition set_listen_addrs (self : t) x := mk self.(peer_id) x self.(peers) self.(inbound_requests).
Definition set_peers (self : t) x := mk self.(peer_id) self.(listen_addrs) x self.(inbound_requests).
Definition set_inbound_requests (self : t) x := mk self.(peer_id) self.(listen_addrs) self.(peers) x.

(** The state that [pre_start] returns. *)
Definition new (peer_id : PeerId) : t := mk peer_id [] ∅ ∅.
End RunningState.

Module NetworkActor.
Import RunningState.

Inductive State : Type := Stopped | Running (self : RunningState.t).

Section actor.
Context {Ctx : Context} {Part : ProposalPartType} {NC : NetworkCodec}.
(** The identifiers of the request-response protocol, printed. *)
Context (display : P2pRequestId -> string).

Abbreviation NM := (handler NetworkCall.t NetworkReply.t State string).

Definition answer_ok (r : NetworkReply.t) : bool := match r with NetworkReply.Ok => true | _ => false end.

(** A call with [?]. *)
Definition try_call (c : NetworkCall.t) : NM unit :=
  r ← yield_ c; if answer_ok r then mret tt else fail "call failed".
(** A call that cannot fail, or whose failure is ignored. *)
Definition cast (c : NetworkCall.t) : NM unit := _ ← yield_ c; mret tt.

(** *** The handle of the network task (network/src/handle.rs) *)

Definition ctrl_publish (channel : Channel.t) (data : bytes) : NM unit :=
  try_call (NetworkCall.Ctrl (CtrlMsg.Publish channel data)).
Definition ctrl_broadcast (channel : Channel.t) (data : bytes) : NM unit :=
  try_call (NetworkCall.Ctrl (CtrlMsg.Broadcast channel data)).
Definition ctrl_sync_request (peer : PeerId) (data : bytes) : NM P2pRequestId :=
  r ← yield_ (NetworkCall.Ctrl (CtrlMsg.SyncRequest peer data));
  match r with NetworkReply.RequestId request_id => mret request_id | _ => fail "call failed" end.
Definition ctrl_sync_reply (request_id : P2pRequestId) (data : bytes) : NM unit :=
  try_call (NetworkCall.Ctrl (CtrlMsg.SyncReply request_id data)).
Definition ctrl_wait_shutdown : NM unit :=
  _ ← try_call (NetworkCall.Ctrl CtrlMsg.Shutdown); try_call NetworkCall.Join.

(** *** Handlers *)

(** A message that cannot be encoded is dropped with an error in the log. *)
Definition with_encoded {T} `{Codec T} (x : T) (k : bytes -> NM unit) : NM unit :=
  data ← lift (encode x);
  match data with Some data => k data | None => mret tt end.

(** A message that cannot be decoded too. *)
Definition with_decoded {T} `{Codec T} (data : bytes) (k : T -> NM unit) : NM unit :=
  msg ← lift (decode data);
  match msg with Some msg => k msg | None => mret tt end.

Fixpoint send_all (events : list NetworkEvent.t) : NM unit :=
  match events with
  | [] => mret tt
  | event :: events => _ ← cast (NetworkCall.SubscriberSend event); send_all events
  end.

Definition subscribe (self : RunningState.t) : NM unit :=
  _ ← send_all (NetworkEvent.Listening <$> self.(listen_addrs));
  _ ← send_all (NetworkEvent.PeerConnected <$> elements self.(peers));
  cast NetworkCall.SubscribeToPort.

Definition outgoing_response (self : RunningState.t) (request_id : InboundRequestId)
    (response : SyncValueResponse.t) : NM unit :=
  with_encoded response (fun data =>
    match self.(inbound_requests) !! request_id with
    | None => fail "Unknown inbound request ID"
    | Some p2p_request_id =>
        _ ← put_state (Running (set_inbound_requests self (delete request_id self.(inbound_requests))));
        ctrl_sync_reply p2p_request_id data
    end).

Definition liveness_event (from : PeerId) (msg : LivenessMsg.t) : NetworkEvent.t :=
  match msg with
  | LivenessMsg.PolkaCertificate polka_cert => NetworkEvent.PolkaCertificate from polka_cert
  | LivenessMsg.SkipRoundCertificate round_cert => NetworkEvent.RoundCertificate from round_cert
  | LivenessMsg.Vote vote => NetworkEvent.Vote from vote
  end.

Definition consensus_event (from : PeerId) (msg : SignedConsensusMsg.t) : NetworkEvent.t :=
  match msg with
  | SignedConsensusMsg.Vote vote => NetworkEvent.Vote from vote
  | SignedConsensusMsg.Proposal proposal => NetworkEvent.Proposal from proposal
  end.

Definition new_event (self : RunningState.t) (event : Event.t) : NM unit :=
  match event with
  | Event.Listening addr =>
      _ ← put_state (Running (set_listen_addrs self (self.(listen_addrs) ++ [addr])));
      cast (NetworkCall.OutputPort (NetworkEvent.Listening addr))
  | Event.PeerConnected peer_id =>
      _ ← put_state (Running (set_peers self ({[peer_id]} ∪ self.(peers))));
      cast (NetworkCall.OutputPort (NetworkEvent.PeerConnected peer_id))
  | Event.PeerDisconnected peer_id =>
      _ ← put_state (Running (set_peers self (self.(peers) ∖ {[peer_id]})));
      cast (NetworkCall.OutputPort (NetworkEvent.PeerDisconnected peer_id))
  | Event.LivenessMessage Channel.Liveness from data =>
      with_decoded data (fun msg => cast (NetworkCall.OutputPort (liveness_event from msg)))
  | Event.LivenessMessage _ _ _ => mret tt
  | Event.ConsensusMessage Channel.Consensus from data =>
      with_decoded data (fun msg => cast (NetworkCall.OutputPort (consensus_event from msg)))
  | Event.ConsensusMessage Channel.ProposalParts from data =>
      with_decoded data (fun msg => cast (NetworkCall.OutputPort (NetworkEvent.ProposalPart from msg)))
  | Event.ConsensusMessage Channel.Sync from data =>
      with_decoded data (fun status : Status.t =>
        if bool_decide (from = status.(Status.peer_id)) then
          cast (NetworkCall.OutputPort (NetworkEvent.Status status.(Status.peer_id)
            (LocalStatus.new status.(Status.tip_height) status.(Status.history_min_height))))
        else mret tt)
  | Event.ConsensusMessage Channel.Liveness _ _ => mret tt
  | Event.Sync (RawMessage.Request request_id peer body) =>
      with_decoded body (fun request =>
        _ ← put_state (Running (set_inbound_requests self
              (<[display request_id := request_id]> self.(inbound_requests))));
        cast (NetworkCall.OutputPort (NetworkEvent.SyncRequest (display request_id) peer request)))
  | Event.Sync (RawMessage.Response request_id peer body) =>
      response ← lift (decode body);
      cast (NetworkCall.OutputPort (NetworkEvent.SyncResponse (display request_id) peer response))
  end.

Definition handle_running (self : RunningState.t) (msg : NetworkMsg.t) : NM unit :=
  match msg with
  | NetworkMsg.Subscribe => subscribe self
  | NetworkMsg.PublishConsensusMsg msg => with_encoded msg (ctrl_publish Channel.Consensus)
  | NetworkMsg.PublishLivenessMsg msg => with_encoded msg (ctrl_publish Channel.Liveness)
  | NetworkMsg.PublishProposalPart msg => with_encoded msg (ctrl_publish Channel.ProposalParts)
  | NetworkMsg.BroadcastStatus status =>
      with_encoded (Status.mk self.(peer_id) status.(LocalStatus.tip_height)
                      status.(LocalStatus.history_min_height))
        (ctrl_broadcast Channel.Sync)
  | NetworkMsg.OutgoingRequest peer_id request =>
      with_encoded request (fun data =>
        p2p_request_id ← ctrl_sync_request peer_id data;
        try_call (NetworkCall.ReplyRequestId (display p2p_request_id)))
  | NetworkMsg.OutgoingResponse request_id response => outgoing_response self request_id response
  | NetworkMsg.GetResponseSize response =>
      size ← lift (encoded_len response);
      match size with Some size => try_call (NetworkCall.ReplySize size) | None => mret tt end
  | NetworkMsg.GetState => try_call (NetworkCall.ReplyPeers (base.size self.(peers)))
  | NetworkMsg.NewEvent event => new_event self event
  end.

Definition handle (msg : NetworkMsg.t) : NM unit :=
  state ← get_state;
  match state with Stopped => mret tt | Running self => handle_running self msg end.

Definition post_stop : NM unit :=
  state ← get_state;
  _ ← put_state Stopped;
  match state with Stopped => mret tt | Running _ => ctrl_wait_shutdown end.

End actor.
End NetworkActor.
