(* ===== verification/StarknetCodec.v ===== *)
(** * Starknet: the codec of the network, the log and the store

    starknet/host/src/codec.rs: [ProtobufCodec], which turns the messages of the
    consensus engine into protobuf messages and back, with the messages of
    sync.proto and liveness.proto; the signing provider
    (starknet/p2p-types/src/signing.rs); and the parsing of peer identifiers
    (peer/src/lib.rs), which are bytes that hold a multihash. The multihash
    library is a class. *)

From S2P Require Import Prelude Types Bytes Context Starknet Verify ConsensusTypes SyncTypes Streaming Network EngineNetwork StarknetTypes.

(** ** Messages (sync.proto, liveness.proto) *)

Module PbSync.

Record Status : Type := mk_status {
  status_peer_id : option Pb.PeerID;
  status_block_number : N;
  status_fork_id : N;
  earliest_block_number : N;
  earliest_fork_id : N;
}.

Record ValueRequest : Type := mk_value_request { rq_block_number : N; rq_fork_id : N; end_block_number : option N }.
Inductive RequestMessages : Type := ValueRequestMsg (value_request : ValueRequest).
Record SyncRequest : Type := mk_sync_request { request_messages : option RequestMessages }.

Record CommitSignature : Type := mk_commit_signature {
  cs_validator_address : option Pb.Address;
  cs_signature : option Pb.ConsensusSignature;
}.
Record CommitCertificate : Type := mk_commit_certificate {
  cc_fork_id : N;
  cc_block_number : N;
  cc_round : N;
  cc_block_hash : option Pb.Hash;
  cc_signatures : list CommitSignature;
}.
Record SyncedValue : Type := mk_synced_value { sv_value_bytes : bytes; sv_certificate : option CommitCertificate }.
Record ValueResponse : Type := mk_value_response { rs_block_number : N; rs_fork_id : N; rs_values : list SyncedValue }.
Inductive ResponseMessages : Type := ValueResponseMsg (value_response : ValueResponse).
Record SyncResponse : Type := mk_sync_response { response_messages : option ResponseMessages }.

Record ProposedValue : Type := mk_proposed_value {
  pv_fork_id : N;
  pv_block_number : N;
  pv_round : N;
  pv_valid_round : option N;
  pv_proposer : option Pb.Address;
  pv_value : bytes;
  pv_validity : bool;
}.

Record PolkaSignature : Type := mk_polka_signature {
  ps_validator_address : option Pb.Address;
  ps_signature : option Pb.ConsensusSignature;
}.
Record PolkaCertificate : Type := mk_polka_certificate {
  pc_fork_id : N;
  pc_block_number : N;
  pc_round : N;
  pc_block_hash : option Pb.Hash;
  pc_signatures : list PolkaSignature;
}.
Record RoundSignature : Type := mk_round_signature {
  rsig_vote_type : Z;
  rsig_validator_address : option Pb.Address;
  rsig_signature : option Pb.ConsensusSignature;
  rsig_block_hash : option Pb.Hash;
}.
Record RoundCertificate : Type := mk_round_certificate {
  rc_fork_id : N;
  rc_block_number : N;
  rc_round : N;
  rc_cert_type : Z;
  rc_signatures : list RoundSignature;
}.
Inductive Liveness : Type :=
  | VoteMsg (vote : Pb.Vote)
  | PolkaCertificateMsg (certificate : PolkaCertificate)
  | RoundCertificateMsg (certificate : RoundCertificate).
Record LivenessMessage : Type := mk_liveness { liveness_message : option Liveness }.

End PbSync.

(** ** Signing (p2p-types/src/signing.rs)

    Votes, proposals, parts and extensions are not signed: they carry the test
    signature, and every signature is valid. *)

Module Ed25519Provider.
Section provider.
Context `{StarknetEnv}.

Definition sign_vote (vote : Vote) : SignedVote := SignedMessage.new (Ctx := sn_context) vote test_signature.
Definition sign_proposal (proposal : Proposal) : SignedProposal :=
  SignedMessage.new (Ctx := sn_context) proposal test_signature.
Definition sign_proposal_part (part : SnPart.t) : SignedMessage.t SnPart.t :=
  SignedMessage.new (Ctx := sn_context) part test_signature.
Definition sign_vote_extension (extension : bytes) : SignedMessage.t bytes :=
  SignedMessage.new (Ctx := sn_context) extension test_signature.

Definition verify_signed_proposal (_ : Proposal) (_ : Signature) (_ : PublicKey) : VerificationResult.t :=
  VerificationResult.Valid.
Definition verify_signed_proposal_part (_ : SnPart.t) (_ : Signature) (_ : PublicKey) : VerificationResult.t :=
  VerificationResult.Valid.
Definition verify_signed_vote_extension (_ : bytes) (_ : Signature) (_ : PublicKey) : VerificationResult.t :=
  VerificationResult.Valid.

#[global] Instance provider : SigningProvider := {|
  BoxError := Empty_set;
  verify_signed_vote _ _ _ := inr VerificationResult.Valid;
|}.
End provider.
End Ed25519Provider.

(** ** Peer identifiers (peer/src/lib.rs) *)

(** [multihash::Multihash]: a code and a digest. *)
Class MultihashLib : Type := {
  multihash_from_bytes : bytes -> option (N * bytes);
  multihash_to_bytes : N * bytes -> bytes;
}.

Definition MAX_INLINE_KEY_LENGTH : N := 42.
Definition MULTIHASH_IDENTITY_CODE : N := 0.
Definition MULTIHASH_SHA256_CODE : N := 18.

Section peer_id.
Context `{MultihashLib}.

Definition peer_id_from_multihash (multihash : N * bytes) : option PeerId :=
  if (multihash.1 =? MULTIHASH_SHA256_CODE)%N then Some (multihash_to_bytes multihash)
  else if (multihash.1 =? MULTIHASH_IDENTITY_CODE)%N && (size multihash.2 <=? MAX_INLINE_KEY_LENGTH)%N
  then Some (multihash_to_bytes multihash)
  else None.
Definition peer_id_from_bytes (data : bytes) : option PeerId := multihash_from_bytes data ≫= peer_id_from_multihash.
End peer_id.

(** ** The wire formats that the codec uses *)

Class StarknetMessages : Type := {
  sm_hash :: Message Pb.Hash;
  sm_address :: Message Pb.Address;
  sm_part :: Message Pb.ProposalPart;
  sm_peer_id :: Message Pb.PeerID;
  sm_vote :: Message Pb.Vote;
  sm_stream_message :: Message Pb.StreamMessage;
  sm_block :: Message Pb.Block;
  sm_batch :: Message Pb.TransactionBatch;
  sm_stream_id :: Message Pb.ConsensusStreamId;
  sm_proposed_value :: Message PbSync.ProposedValue;
  sm_status :: Message PbSync.Status;
  sm_request :: Message PbSync.SyncRequest;
  sm_response :: Message PbSync.SyncResponse;
  sm_commit_certificate :: Message PbSync.CommitCertificate;
  sm_polka_certificate :: Message PbSync.PolkaCertificate;
  sm_synced_value :: Message PbSync.SyncedValue;
  sm_liveness :: Message PbSync.LivenessMessage;
}.

Section codec.
Context `{StarknetEnv, StarknetMessages, MultihashLib}.

(** *** Signatures are not sent: every decoded one is the test signature. *)

Definition encode_signature (_ : SnSig) : presult Pb.ConsensusSignature :=
  r ←? felt_to_proto Felt_ONE; s ←? felt_to_proto Felt_ONE; ok (Pb.mk_signature (Some r) (Some s)).
Definition decode_signature (_ : Pb.ConsensusSignature) : presult SnSig := ok test_signature.

(** *** Proposed values *)

Definition decode_proposed_value (proto : PbSync.ProposedValue) : presult ProposedValue.t :=
  proposer ←? required "ProposedValue" "proposer" proto.(PbSync.pv_proposer);
  value ←? from_bytes (T := SnHash.t) (P := Pb.Hash) proto.(PbSync.pv_value);
  proposer ←? address_from_proto proposer;
  ok (ProposedValue.mk (Ctx := sn_context) (SnHeight.new proto.(PbSync.pv_block_number) proto.(PbSync.pv_fork_id))
        (Round.new proto.(PbSync.pv_round)) (Round.from_option proto.(PbSync.pv_valid_round)) proposer value
        (Validity.from_bool proto.(PbSync.pv_validity))).

Definition encode_proposed_value (msg : ProposedValue.t) : presult PbSync.ProposedValue :=
  let height : SnHeight.t := msg.(ProposedValue.height) in
  round ← non_nil msg.(ProposedValue.round);
  value ←? to_bytes (T := SnHash.t) (P := Pb.Hash) msg.(ProposedValue.value);
  proposer ←? address_to_proto msg.(ProposedValue.proposer);
  ok (PbSync.mk_proposed_value height.(SnHeight.fork_id) height.(SnHeight.block_number) round
        (Round.as_u32 msg.(ProposedValue.valid_round)) (Some proposer) value (Validity.to_bool msg.(ProposedValue.validity))).

(** *** Peers and statuses *)

Definition decode_peer_id (proto : Pb.PeerID) : presult PeerId :=
  match peer_id_from_bytes proto.(Pb.peer_id) with
  | Some peer_id => ok peer_id
  | None => err (ProtoError.Other "invalid peer identifier")
  end.
Definition encode_peer_id (peer_id : PeerId) : presult Pb.PeerID := ok (Pb.mk_peer_id peer_id).

Definition decode_sync_status (status : PbSync.Status) : presult Status.t :=
  peer_id ←? required "Status" "peer_id" status.(PbSync.status_peer_id);
  peer_id ←? decode_peer_id peer_id;
  ok (Status.mk (Ctx := sn_context) peer_id (SnHeight.new status.(PbSync.status_block_number) status.(PbSync.status_fork_id))
        (SnHeight.new status.(PbSync.earliest_block_number) status.(PbSync.earliest_fork_id))).
Definition encode_sync_status (status : Status.t) : presult PbSync.Status :=
  let tip : SnHeight.t := status.(Status.tip_height) in
  let min : SnHeight.t := status.(Status.history_min_height) in
  peer_id ←? encode_peer_id status.(Status.peer_id);
  ok (PbSync.mk_status (Some peer_id) tip.(SnHeight.block_number) tip.(SnHeight.fork_id) min.(SnHeight.block_number)
        min.(SnHeight.fork_id)).

(** *** Requests: the end of a range has the fork of its start. *)

Definition decode_sync_request (proto_request : PbSync.SyncRequest) : presult Request :=
  messages ←? required "SyncRequest" "messages" proto_request.(PbSync.request_messages);
  match messages with
  | PbSync.ValueRequestMsg value_request =>
      let start := SnHeight.new value_request.(PbSync.rq_block_number) value_request.(PbSync.rq_fork_id) in
      let end_ := match value_request.(PbSync.end_block_number) with
                  | Some e => SnHeight.new e value_request.(PbSync.rq_fork_id)
                  | None => start
                  end in
      ok (Request_ValueRequest (ValueRequest.new (RangeInclusive.new (Ctx := sn_context) start end_)))
  end.
Definition encode_sync_request (request : Request) : presult PbSync.SyncRequest :=
  match request with
  | Request_ValueRequest value_request =>
      let height : SnHeight.t := value_request.(ValueRequest.range).(RangeInclusive.start) in
      let end_ : SnHeight.t := value_request.(ValueRequest.range).(RangeInclusive.end_) in
      ok (PbSync.mk_sync_request (Some (PbSync.ValueRequestMsg
            (PbSync.mk_value_request height.(SnHeight.block_number) height.(SnHeight.fork_id)
               (Some end_.(SnHeight.block_number))))))
  end.

(** *** Commit certificates and decided values *)

Definition decode_commit_signature (sig : PbSync.CommitSignature) : presult CommitSignature.t :=
  address ←? required "CommitCertificate" "validator_address" sig.(PbSync.cs_validator_address);
  signature ←? required "CommitCertificate" "signature" sig.(PbSync.cs_signature);
  signature ←? decode_signature signature;
  address ←? address_from_proto address;
  ok (CommitSignature.new (Ctx := sn_context) address signature).
Definition encode_commit_signature (sig : CommitSignature.t) : presult PbSync.CommitSignature :=
  address ←? address_to_proto sig.(CommitSignature.address);
  signature ←? encode_signature sig.(CommitSignature.signature);
  ok (PbSync.mk_commit_signature (Some address) (Some signature)).

Definition decode_commit_certificate (certificate : PbSync.CommitCertificate) : presult CommitCertificate.t :=
  value_id ←? (match certificate.(PbSync.cc_block_hash) with
               | Some block_hash => hash_from_proto block_hash
               | None => err (ProtoError.MissingField "CommitCertificate" "block_hash")
               end);
  commit_signatures ←? collect decode_commit_signature certificate.(PbSync.cc_signatures);
  ok (CommitCertificate.mk (Ctx := sn_context)
        (SnHeight.new certificate.(PbSync.cc_block_number) certificate.(PbSync.cc_fork_id))
        (Round.new certificate.(PbSync.cc_round)) value_id commit_signatures).
Definition encode_commit_certificate (certificate : CommitCertificate.t) : presult PbSync.CommitCertificate :=
  let height : SnHeight.t := certificate.(CommitCertificate.height) in
  round ← non_nil certificate.(CommitCertificate.round);
  block_hash ←? hash_to_proto certificate.(CommitCertificate.value_id);
  signatures ←? collect encode_commit_signature certificate.(CommitCertificate.commit_signatures);
  ok (PbSync.mk_commit_certificate height.(SnHeight.fork_id) height.(SnHeight.block_number) round (Some block_hash)
        signatures).

Definition encode_synced_value (synced_value : RawDecidedValue.t) : presult PbSync.SyncedValue :=
  certificate ←? encode_commit_certificate synced_value.(RawDecidedValue.certificate);
  ok (PbSync.mk_synced_value synced_value.(RawDecidedValue.value_bytes) (Some certificate)).
Definition decode_synced_value (proto : PbSync.SyncedValue) : presult RawDecidedValue.t :=
  certificate ←? required "SyncedValue" "certificate" proto.(PbSync.sv_certificate);
  certificate ←? decode_commit_certificate certificate;
  ok (RawDecidedValue.new (Ctx := sn_context) proto.(PbSync.sv_value_bytes) certificate).

Definition decode_sync_response (proto_response : PbSync.SyncResponse) : presult SyncValueResponse.t :=
  messages ←? required "SyncResponse" "messages" proto_response.(PbSync.response_messages);
  match messages with
  | PbSync.ValueResponseMsg value_response =>
      values ←? collect decode_synced_value value_response.(PbSync.rs_values);
      ok (SyncValueResponse.new (Ctx := sn_context)
            (SnHeight.new value_response.(PbSync.rs_block_number) value_response.(PbSync.rs_fork_id)) values)
  end.
Definition encode_sync_response (response : SyncValueResponse.t) : presult PbSync.SyncResponse :=
  let start : SnHeight.t := response.(SyncValueResponse.start_height) in
  values ←? collect encode_synced_value response.(SyncValueResponse.values);
  ok (PbSync.mk_sync_response (Some (PbSync.ValueResponseMsg
        (PbSync.mk_value_response start.(SnHeight.block_number) start.(SnHeight.fork_id) values)))).

(** *** Votes *)

Definition encode_vote (vote : SignedVote) : presult Pb.Vote := SnVoteProto.to_proto vote.(SignedMessage.message).
Definition decode_vote (msg : Pb.Vote) : presult SignedVote :=
  vote ←? SnVoteProto.from_proto msg;
  ok (SignedMessage.new (Ctx := sn_context) (vote : Vote) (test_signature : Signature)).

Definition decode_consensus_message (proto : Pb.Vote) : presult SignedConsensusMsg.t :=
  vote ←? decode_vote proto; ok (SignedConsensusMsg.Vote vote).
Definition encode_consensus_message (msg : SignedConsensusMsg.t) : presult Pb.Vote :=
  match msg with
  | SignedConsensusMsg.Vote v => encode_vote v
  | SignedConsensusMsg.Proposal _ => Panic "explicit proposal not supported by starknet test application"
  end.

(** *** Polka and round certificates *)

Definition encode_polka_signature (sig : PolkaSignature.t) : presult PbSync.PolkaSignature :=
  address ←? address_to_proto sig.(PolkaSignature.address);
  signature ←? encode_signature sig.(PolkaSignature.signature);
  ok (PbSync.mk_polka_signature (Some address) (Some signature)).
Definition decode_polka_signature (sig : PbSync.PolkaSignature) : presult PolkaSignature.t :=
  address ←? required "PolkaCertificate" "validator_address" sig.(PbSync.ps_validator_address);
  signature ←? required "PolkaCertificate" "signature" sig.(PbSync.ps_signature);
  signature ←? decode_signature signature;
  address ←? address_from_proto address;
  ok (PolkaSignature.new (Ctx := sn_context) address signature).

Definition encode_polka_certificate (certificate : PolkaCertificate.t) : presult PbSync.PolkaCertificate :=
  let height : SnHeight.t := certificate.(PolkaCertificate.height) in
  block_hash ←? hash_to_proto certificate.(PolkaCertificate.value_id);
  round ← expect (Round.as_u32 certificate.(PolkaCertificate.round)) "called `Option::unwrap()` on a `None` value";
  signatures ←? collect encode_polka_signature certificate.(PolkaCertificate.polka_signatures);
  ok (PbSync.mk_polka_certificate height.(SnHeight.fork_id) height.(SnHeight.block_number) round (Some block_hash)
        signatures).
Definition decode_polka_certificate (certificate : PbSync.PolkaCertificate) : presult PolkaCertificate.t :=
  block_hash ←? required "PolkaCertificate" "block_hash" certificate.(PbSync.pc_block_hash);
  value_id ←? hash_from_proto block_hash;
  polka_signatures ←? collect decode_polka_signature certificate.(PbSync.pc_signatures);
  ok (PolkaCertificate.mk (Ctx := sn_context)
        (SnHeight.new certificate.(PbSync.pc_block_number) certificate.(PbSync.pc_fork_id))
        (Round.new certificate.(PbSync.pc_round)) value_id polka_signatures).

Definition encode_round_signature (sig : RoundSignature.t) : presult PbSync.RoundSignature :=
  address ←? address_to_proto sig.(RoundSignature.address);
  signature ←? encode_signature sig.(RoundSignature.signature);
  block_hash ←? (match sig.(RoundSignature.value_id) with
                 | NilOrVal.Nil => ok None
                 | NilOrVal.Val value_id => hash ←? hash_to_proto value_id; ok (Some hash)
                 end);
  ok (PbSync.mk_round_signature (SnVoteProto.common_to_proto_vote_type sig.(RoundSignature.vote_type)) (Some address)
        (Some signature) block_hash).
Definition decode_round_signature (sig : PbSync.RoundSignature) : presult RoundSignature.t :=
  address ←? required "RoundCertificate" "validator_address" sig.(PbSync.rsig_validator_address);
  signature ←? required "RoundCertificate" "signature" sig.(PbSync.rsig_signature);
  signature ←? decode_signature signature;
  address ←? address_from_proto address;
  value_id ←? (match sig.(PbSync.rsig_block_hash) with
               | None => ok NilOrVal.Nil
               | Some block_hash => hash ←? hash_from_proto block_hash; ok (NilOrVal.Val hash)
               end);
  vote_type ←? (if (sig.(PbSync.rsig_vote_type) =? 0)%Z then ok VoteType.Prevote
                else if (sig.(PbSync.rsig_vote_type) =? 1)%Z then ok VoteType.Precommit
                else err (ProtoError.Other "Invalid vote type"));
  ok (RoundSignature.new (Ctx := sn_context) vote_type value_id address signature).

Definition encode_round_certificate (certificate : RoundCertificate.t) : presult PbSync.RoundCertificate :=
  let height : SnHeight.t := certificate.(RoundCertificate.height) in
  round ← non_nil certificate.(RoundCertificate.round);
  signatures ←? collect encode_round_signature certificate.(RoundCertificate.round_signatures);
  ok (PbSync.mk_round_certificate height.(SnHeight.fork_id) height.(SnHeight.block_number) round
        (match certificate.(RoundCertificate.cert_type) with
         | RoundCertificateType.Precommit => 0%Z
         | RoundCertificateType.Skip => 1%Z
         end) signatures).
Definition decode_round_certificate (certificate : PbSync.RoundCertificate) : presult RoundCertificate.t :=
  cert_type ←? (if (certificate.(PbSync.rc_cert_type) =? 0)%Z then ok RoundCertificateType.Precommit
                else if (certificate.(PbSync.rc_cert_type) =? 1)%Z then ok RoundCertificateType.Skip
                else err (ProtoError.Other "Unknown RoundCertificateType"));
  round_signatures ←? collect decode_round_signature certificate.(PbSync.rc_signatures);
  ok (RoundCertificate.mk (Ctx := sn_context)
        (SnHeight.new certificate.(PbSync.rc_block_number) certificate.(PbSync.rc_fork_id))
        (Round.new certificate.(PbSync.rc_round)) cert_type round_signatures).

(** *** Liveness and stream messages *)

Definition decode_liveness (b : bytes) : presult LivenessMsg.t :=
  msg ←? decoded (wire_decode b);
  match msg.(PbSync.liveness_message) with
  | Some (PbSync.VoteMsg vote) => vote ←? decode_vote vote; ok (LivenessMsg.Vote vote)
  | Some (PbSync.PolkaCertificateMsg cert) => cert ←? decode_polka_certificate cert; ok (LivenessMsg.PolkaCertificate cert)
  | Some (PbSync.RoundCertificateMsg cert) =>
      cert ←? decode_round_certificate cert; ok (LivenessMsg.SkipRoundCertificate cert)
  | None => err (ProtoError.MissingField "LivenessMessage" "message")
  end.
Definition liveness_to_proto (msg : LivenessMsg.t) : presult PbSync.Liveness :=
  match msg with
  | LivenessMsg.Vote vote => vote ←? encode_vote vote; ok (PbSync.VoteMsg vote)
  | LivenessMsg.PolkaCertificate cert => cert ←? encode_polka_certificate cert; ok (PbSync.PolkaCertificateMsg cert)
  | LivenessMsg.SkipRoundCertificate cert =>
      cert ←? encode_round_certificate cert; ok (PbSync.RoundCertificateMsg cert)
  end.
Definition encode_liveness (msg : LivenessMsg.t) : presult bytes :=
  message ←? liveness_to_proto msg; ok (encode_to_vec (PbSync.mk_liveness (Some message))).

Definition decode_stream_message {T P} `{Message P, Protobuf T P} (b : bytes) : presult (StreamMessage.t T) :=
  p2p_msg ←? from_bytes (T := SnStreamMessage.t) b;
  content ←? (match p2p_msg.(SnStreamMessage.message) with
              | SnStreamMessage.Data data => part ←? from_bytes data; ok (StreamContent.Data part)
              | SnStreamMessage.Fin => ok StreamContent.Fin
              end);
  ok (StreamMessage.new p2p_msg.(SnStreamMessage.id) p2p_msg.(SnStreamMessage.sequence) content).
Definition encode_stream_message {T P} `{Message P, Protobuf T P} (msg : StreamMessage.t T) : presult bytes :=
  content ←? (match msg.(StreamMessage.content) with
              | StreamContent.Data data => data ←? to_bytes data; ok (SnStreamMessage.Data data)
              | StreamContent.Fin => ok SnStreamMessage.Fin
              end);
  to_bytes (SnStreamMessage.mk msg.(StreamMessage.stream_id) msg.(StreamMessage.sequence) content).

(** *** The codec of the network actor *)

Definition decode_with {P T} `{Message P} (f : P -> presult T) (b : bytes) : presult T := p ←? decoded (wire_decode b); f p.
Definition encode_with {P T} `{Message P} (f : T -> presult P) (x : T) : presult bytes :=
  p ←? f x; ok (encode_to_vec p).
Definition sn_codec {T} (d : bytes -> presult T) (e : T -> presult bytes) : Codec T := {|
  decode b := r ← d b; Ret (match r with inr x => Some x | inl _ => None end);
  encode x := r ← e x; Ret (match r with inr b => Some b | inl _ => None end);
|}.

#[global] Instance sn_part : ProposalPartType := SnPart.t.
#[global] Instance ProtobufCodec : NetworkCodec := {|
  consensus_msg_codec := sn_codec (decode_with decode_consensus_message) (encode_with encode_consensus_message);
  liveness_msg_codec := sn_codec decode_liveness encode_liveness;
  stream_message_codec := sn_codec decode_stream_message encode_stream_message;
  status_codec := sn_codec (decode_with decode_sync_status) (encode_with encode_sync_status);
  request_codec := sn_codec (decode_with decode_sync_request) (encode_with encode_sync_request);
  response_codec := sn_codec (decode_with decode_sync_response) (encode_with encode_sync_response);
  response_encoded_len response :=
    r ← encode_sync_response response;
    Ret (match r with inr p => Some (size (encode_to_vec p)) | inl _ => None end);
|}.

End codec.
