(* ===== verification/Borsh.v ===== *)
(** * Borsh serialization

    The implementations of the traits [BorshSerialize] and [BorshDeserialize]
    that the crates write by hand: core-types/src/ser/borsh.rs (signatures,
    certificates, signed messages), core-consensus/src/ser/borsh.rs (consensus
    and liveness messages, proposed values), sync/src/ser/borsh.rs (statuses,
    requests, responses, decided values), peer/src/ser/borsh.rs and
    engine/src/ser/borsh.rs (identifiers).

    A writer is the bytes that are written, a reader the bytes that are left.
    What the borsh crate implements (bytes, vectors, ranges, and what it derives
    for enumerations) and what a context brings for its own types are classes,
    with the law that what is written can be read back. *)

From S2P Require Import Prelude Types Bytes Context ConsensusTypes SyncTypes Streaming StarknetCodec.

(** ** Readers and writers *)

Definition reader (A : Type) : Type := bytes -> outcome (option (A * bytes)).
Definition rret {A} (a : A) : reader A := fun b => Ret (Some (a, b)).
(** [Err(io::Error)]. *)
Definition rfail {A} : reader A := fun _ => Ret None.
Definition rbind {A B} (m : reader A) (k : A -> reader B) : reader B :=
  fun b => r ← m b; match r with Some (a, b) => k a b | None => Ret None end.

Declare Scope borsh_scope.
Notation "x ←! y ; z" := (rbind y (fun x => z)) (at level 20, y at level 100, z at level 200, only parsing) : borsh_scope.
Open Scope borsh_scope.

Class Borsh (A : Type) : Type := {
  serialize : A -> option bytes;
  deserialize_reader : reader A;
}.

(** Fields, one after the other; writing fails with the first that fails. *)
Fixpoint write (fields : list (option bytes)) : option bytes :=
  match fields with [] => Some [] | field :: fields => b ← field; c ← write fields; Some (b ++ c) end.

(** What is written can be read back, whatever follows. *)
Class BorshTrip (A : Type) `{Borsh A} : Prop :=
  borsh_trip (x : A) b rest : serialize x = Some b -> deserialize_reader (b ++ rest) = Ret (Some (x, rest)).

(** ** The library *)

(** The crate's implementations, those that it derives, and those of a context. *)
Class BorshLib : Type := {
  borsh_u8 :: Borsh Byte.byte;
  borsh_vec :: forall A, Borsh A -> Borsh (list A);
  borsh_round :: Borsh Round.t;
  borsh_vote_type :: Borsh VoteType.t;
  borsh_validity :: Borsh Validity.t;
  borsh_cert_type :: Borsh RoundCertificateType.t;
  borsh_nil_or_val :: forall A, Borsh A -> Borsh (NilOrVal.t A);
  borsh_range :: forall (Ctx : Context), Borsh Height -> Borsh RangeInclusive.t;
}.
Class BorshContext {Ctx : Context} : Type := {
  borsh_address : Borsh Address;
  borsh_height : Borsh Height;
  borsh_value : Borsh Value;
  borsh_value_id : Borsh ValueId;
  borsh_signature : Borsh Signature;
  borsh_vote : Borsh Vote;
  borsh_proposal : Borsh Proposal;
}.
#[global] Existing Instances borsh_address borsh_height borsh_value borsh_value_id borsh_signature borsh_vote borsh_proposal.

Class BorshLibLaws `{BorshLib} : Prop := {
  trip_u8 :: BorshTrip Byte.byte;
  trip_vec A `{BorshTrip A} : BorshTrip (list A);
  trip_round :: BorshTrip Round.t;
  trip_vote_type :: BorshTrip VoteType.t;
  trip_validity :: BorshTrip Validity.t;
  trip_cert_type :: BorshTrip RoundCertificateType.t;
  trip_nil_or_val A `{BorshTrip A} : BorshTrip (NilOrVal.t A);
  trip_range (Ctx : Context) `{!Borsh Height, !BorshTrip Height} : BorshTrip RangeInclusive.t;
}.
#[global] Existing Instances trip_vec trip_nil_or_val trip_range.
Class BorshContextLaws `{Ctx : Context, !BorshContext} : Prop := {
  trip_address :: BorshTrip Address;
  trip_height :: BorshTrip Height;
  trip_value :: BorshTrip Value;
  trip_value_id :: BorshTrip ValueId;
  trip_signature :: BorshTrip Signature;
  trip_vote :: BorshTrip Vote;
  trip_proposal :: BorshTrip Proposal;
}.

(** ** Identifiers (peer/src/ser/borsh.rs, engine/src/ser/borsh.rs) *)

Section identifiers.
Context `{BorshLib, MultihashLib}.

(** [PeerId::from_bytes(&bytes).unwrap()]. *)
Definition borsh_peer_id : Borsh PeerId := {|
  serialize peer_id := serialize (peer_id : bytes);
  deserialize_reader :=
    bytes ←! deserialize_reader;
    fun b => peer_id ← expect (peer_id_from_bytes bytes) "called `Result::unwrap()` on an `Err` value"; Ret (Some (peer_id, b));
|}.

Definition borsh_stream_id : Borsh StreamId := {|
  serialize stream_id := serialize (stream_id : bytes);
  deserialize_reader := bytes ←! deserialize_reader; rret (bytes : StreamId);
|}.
End identifiers.

(** ** Certificates and signed messages (core-types/src/ser/borsh.rs) *)

Section core_types.
Context `{Ctx : Context, !BorshLib, !BorshContext}.

#[global] Instance borsh_polka_signature : Borsh PolkaSignature.t := {|
  serialize self := write [serialize self.(PolkaSignature.address); serialize self.(PolkaSignature.signature)];
  deserialize_reader :=
    address ←! deserialize_reader; signature ←! deserialize_reader; rret (PolkaSignature.new address signature);
|}.

#[global] Instance borsh_polka_certificate : Borsh PolkaCertificate.t := {|
  serialize self := write [serialize self.(PolkaCertificate.height); serialize self.(PolkaCertificate.round);
    serialize self.(PolkaCertificate.value_id); serialize self.(PolkaCertificate.polka_signatures)];
  deserialize_reader :=
    height ←! deserialize_reader; round ←! deserialize_reader; value_id ←! deserialize_reader;
    polka_signatures ←! deserialize_reader; rret (PolkaCertificate.mk height round value_id polka_signatures);
|}.

#[global] Instance borsh_round_signature : Borsh RoundSignature.t := {|
  serialize self := write [serialize self.(RoundSignature.vote_type); serialize self.(RoundSignature.value_id);
    serialize self.(RoundSignature.address); serialize self.(RoundSignature.signature)];
  deserialize_reader :=
    vote_type ←! deserialize_reader; value_id ←! deserialize_reader; address ←! deserialize_reader;
    signature ←! deserialize_reader; rret (RoundSignature.new vote_type value_id address signature);
|}.

#[global] Instance borsh_round_certificate : Borsh RoundCertificate.t := {|
  serialize self := write [serialize self.(RoundCertificate.height); serialize self.(RoundCertificate.round);
    serialize self.(RoundCertificate.cert_type); serialize self.(RoundCertificate.round_signatures)];
  deserialize_reader :=
    height ←! deserialize_reader; round ←! deserialize_reader; cert_type ←! deserialize_reader;
    round_signatures ←! deserialize_reader; rret (RoundCertificate.mk height round cert_type round_signatures);
|}.

#[global] Instance borsh_commit_signature : Borsh CommitSignature.t := {|
  serialize self := write [serialize self.(CommitSignature.address); serialize self.(CommitSignature.signature)];
  deserialize_reader :=
    address ←! deserialize_reader; signature ←! deserialize_reader; rret (CommitSignature.new address signature);
|}.

#[global] Instance borsh_commit_certificate : Borsh CommitCertificate.t := {|
  serialize self := write [serialize self.(CommitCertificate.height); serialize self.(CommitCertificate.round);
    serialize self.(CommitCertificate.value_id); serialize self.(CommitCertificate.commit_signatures)];
  deserialize_reader :=
    height ←! deserialize_reader; round ←! deserialize_reader; value_id ←! deserialize_reader;
    commit_signatures ←! deserialize_reader; rret (CommitCertificate.mk height round value_id commit_signatures);
|}.

#[global] Instance borsh_signed_message {Msg} `{Borsh Msg} : Borsh (SignedMessage.t Msg) := {|
  serialize self := write [serialize self.(SignedMessage.message); serialize self.(SignedMessage.signature)];
  deserialize_reader :=
    message ←! deserialize_reader; signature ←! deserialize_reader; rret (SignedMessage.new message signature);
|}.

End core_types.

(** ** Messages and values (core-consensus/src/ser/borsh.rs) *)

Section consensus.
Context `{Ctx : Context, !BorshLib, !BorshContext}.

#[global] Instance borsh_consensus_msg : Borsh SignedConsensusMsg.t := {|
  serialize self :=
    match self with
    | SignedConsensusMsg.Vote signed_message => write [serialize Byte.x00; serialize signed_message]
    | SignedConsensusMsg.Proposal signed_message => write [serialize Byte.x01; serialize signed_message]
    end;
  deserialize_reader :=
    discriminant ←! deserialize_reader;
    match discriminant with
    | Byte.x00 => msg ←! deserialize_reader; rret (SignedConsensusMsg.Vote msg)
    | Byte.x01 => msg ←! deserialize_reader; rret (SignedConsensusMsg.Proposal msg)
    | _ => rfail
    end;
|}.

#[global] Instance borsh_liveness_msg : Borsh LivenessMsg.t := {|
  serialize self :=
    match self with
    | LivenessMsg.Vote signed_message => write [serialize Byte.x00; serialize signed_message]
    | LivenessMsg.PolkaCertificate polka_certificate => write [serialize Byte.x01; serialize polka_certificate]
    | LivenessMsg.SkipRoundCertificate round_certificate => write [serialize Byte.x02; serialize round_certificate]
    end;
  deserialize_reader :=
    discriminant ←! deserialize_reader;
    match discriminant with
    | Byte.x00 => msg ←! deserialize_reader; rret (LivenessMsg.Vote msg)
    | Byte.x01 => certificate ←! deserialize_reader; rret (LivenessMsg.PolkaCertificate certificate)
    | Byte.x02 => certificate ←! deserialize_reader; rret (LivenessMsg.SkipRoundCertificate certificate)
    | _ => rfail
    end;
|}.

#[global] Instance borsh_proposed_value : Borsh ProposedValue.t := {|
  serialize self := write [serialize self.(ProposedValue.height); serialize self.(ProposedValue.round);
    serialize self.(ProposedValue.valid_round); serialize self.(ProposedValue.proposer);
    serialize self.(ProposedValue.value); serialize self.(ProposedValue.validity)];
  deserialize_reader :=
    height ←! deserialize_reader; round ←! deserialize_reader; valid_round ←! deserialize_reader;
    proposer ←! deserialize_reader; value ←! deserialize_reader; validity ←! deserialize_reader;
    rret (ProposedValue.mk height round valid_round proposer value validity);
|}.

End consensus.

(** ** Value sync (sync/src/ser/borsh.rs) *)

Section sync.
Context `{Ctx : Context, !BorshLib, !BorshContext, !MultihashLib}.

#[global] Instance borsh_status : Borsh Status.t := {|
  serialize self := write [serialize (Borsh := borsh_peer_id) self.(Status.peer_id); serialize self.(Status.tip_height);
    serialize self.(Status.history_min_height)];
  deserialize_reader :=
    peer_id ←! deserialize_reader (Borsh := borsh_peer_id); tip_height ←! deserialize_reader;
    history_min_height ←! deserialize_reader; rret (Status.mk peer_id tip_height history_min_height);
|}.

#[global] Instance borsh_request : Borsh Request := {|
  serialize self :=
    match self with Request_ValueRequest value_request => serialize value_request.(ValueRequest.range) end;
  deserialize_reader := range ←! deserialize_reader; rret (Request_ValueRequest (ValueRequest.new range));
|}.

#[global] Instance borsh_raw_decided_value : Borsh RawDecidedValue.t := {|
  serialize self := write [serialize self.(RawDecidedValue.value_bytes); serialize self.(RawDecidedValue.certificate)];
  deserialize_reader :=
    value_bytes ←! deserialize_reader; certificate ←! deserialize_reader;
    rret (RawDecidedValue.new value_bytes certificate);
|}.

(** [Response] has one variant, a [ValueResponse]. *)
#[global] Instance borsh_response : Borsh SyncValueResponse.t := {|
  serialize self := write [serialize self.(SyncValueResponse.start_height); serialize self.(SyncValueResponse.values)];
  deserialize_reader :=
    start_height ←! deserialize_reader; values ←! deserialize_reader; rret (SyncValueResponse.new start_height values);
|}.

End sync.

(** ** What is written can be read back *)

Lemma rbind_trip {A B} `{BorshTrip A} (x : A) b rest (k : A -> reader B) :
  serialize x = Some b -> rbind deserialize_reader k (b ++ rest) = k x rest.
Proof. intros Hs. unfold rbind. by rewrite (borsh_trip x b rest Hs). Qed.

Lemma write_cons field fields b :
  write (field :: fields) = Some b -> exists c d, field = Some c /\ write fields = Some d /\ b = c ++ d.
Proof. cbn. destruct field as [c|]; [|done]. destruct (write fields) as [d|]; [|done]. cbn. intros [= <-]. by exists c, d. Qed.

(** Reads the fields of a record in turn. *)
Ltac read_fields :=
  repeat match goal with
  | H : write (_ :: _) = Some _ |- _ => apply write_cons in H as (?c & ?d & ?Hc & H & ->)
  | H : write [] = Some _ |- _ => injection H as <-
  end;
  repeat (rewrite <- app_assoc; erewrite rbind_trip by eassumption; cbv beta iota); try done.
#[local] Arguments write : simpl never.
#[local] Arguments rbind : simpl never.
Tactic Notation "record_trip" reference(i) :=
  intros [] ? ? ?Hs; unfold i in *; cbn [serialize deserialize_reader] in *; read_fields.

Section trips.
Context `{Ctx : Context, !BorshLib, !BorshContext, !BorshLibLaws, !BorshContextLaws}.

#[global] Instance trip_polka_signature : BorshTrip PolkaSignature.t.
Proof. record_trip borsh_polka_signature. Qed.
#[global] Instance trip_polka_certificate : BorshTrip PolkaCertificate.t.
Proof. record_trip borsh_polka_certificate. Qed.
#[global] Instance trip_round_signature : BorshTrip RoundSignature.t.
Proof. record_trip borsh_round_signature. Qed.
#[global] Instance trip_round_certificate : BorshTrip RoundCertificate.t.
Proof. record_trip borsh_round_certificate. Qed.
#[global] Instance trip_commit_signature : BorshTrip CommitSignature.t.
Proof. record_trip borsh_commit_signature. Qed.
#[global] Instance trip_commit_certificate : BorshTrip CommitCertificate.t.
Proof. record_trip borsh_commit_certificate. Qed.
#[global] Instance trip_signed_message {Msg} `{BorshTrip Msg} : BorshTrip (SignedMessage.t Msg).
Proof. record_trip borsh_signed_message. Qed.
#[global] Instance trip_consensus_msg : BorshTrip SignedConsensusMsg.t.
Proof. record_trip borsh_consensus_msg. Qed.
#[global] Instance trip_liveness_msg : BorshTrip LivenessMsg.t.
Proof. record_trip borsh_liveness_msg. Qed.
#[global] Instance trip_proposed_value : BorshTrip ProposedValue.t.
Proof. record_trip borsh_proposed_value. Qed.
#[global] Instance trip_request : BorshTrip Request.
Proof. intros [[range]] b rest Hs. cbn in *. by rewrite (rbind_trip _ _ _ _ Hs). Qed.
#[global] Instance trip_raw_decided_value : BorshTrip RawDecidedValue.t.
Proof. record_trip borsh_raw_decided_value. Qed.
#[global] Instance trip_response : BorshTrip SyncValueResponse.t.
Proof. record_trip borsh_response. Qed.

End trips.

(** *** Messages *)

Definition reads_back {A} `{Borsh A} (x : A) : Prop :=
  forall b rest, serialize x = Some b -> deserialize_reader (b ++ rest) = Ret (Some (x, rest)).

Section messages.
Context `{Ctx : Context, !BorshLib, !BorshContext, !MultihashLib}.

Lemma peer_id_trip `{!BorshLibLaws} (peer : PeerId) :
  peer_id_from_bytes peer = Some peer -> reads_back (H := borsh_peer_id) peer.
Proof. intros Hp b rest Hs. cbn in *. erewrite rbind_trip by exact Hs. by rewrite Hp. Qed.

Lemma status_trip `{!BorshLibLaws, !BorshContextLaws} (s : Status.t) :
  peer_id_from_bytes s.(Status.peer_id) = Some s.(Status.peer_id) -> reads_back s.
Proof.
  destruct s as [peer tip min]. cbn. intros Hp b rest Hs. unfold borsh_status in *. cbn [serialize deserialize_reader] in *.
  apply write_cons in Hs as (c & d & Hc & Hs & ->). rewrite <- app_assoc. unfold rbind at 1.
  rewrite (peer_id_trip peer Hp c (d ++ rest) Hc). cbv beta iota. cbn [mbind outcome_bind]. read_fields.
Qed.

(** C40: Whatever a context's own types are, as long as they can be read back: the
    messages of consensus, the messages for liveness, proposed values, statuses of
    peers with a well-formed identifier, requests and responses that are
    serialized are read back unchanged, and what follows them is left in place. *)
Theorem borsh_messages_round_trip `{!BorshLibLaws, !BorshContextLaws} (msg : SignedConsensusMsg.t) (liveness : LivenessMsg.t)
    (value : ProposedValue.t) (status : Status.t) (request : Request) (response : SyncValueResponse.t) :
  reads_back msg /\ reads_back liveness /\ reads_back value /\
  (peer_id_from_bytes status.(Status.peer_id) = Some status.(Status.peer_id) -> reads_back status) /\
  reads_back request /\ reads_back response.
Proof. split_and!; [..|apply status_trip| |]; intros b rest; apply borsh_trip. Qed.

(** A message with an unknown discriminant is refused with an error. *)
Lemma unknown_discriminant_refused (b rest : bytes) (d : Byte.byte) :
  deserialize_reader b = Ret (Some (d, rest)) -> d ∉ [Byte.x00; Byte.x01; Byte.x02] ->
  deserialize_reader (A := SignedConsensusMsg.t) b = Ret None /\ deserialize_reader (A := LivenessMsg.t) b = Ret None.
Proof. intros Hd Hn. cbn. unfold rbind. rewrite Hd. cbn. split; destruct d; done || (exfalso; apply Hn; set_solver). Qed.

(** Bytes that hold no peer identifier panic the node that reads a status. *)
Lemma malformed_peer_id_panics (b rest peer : bytes) :
  deserialize_reader b = Ret (Some (peer, rest)) -> peer_id_from_bytes peer = None ->
  exists why, deserialize_reader (A := Status.t) b = Panic why.
Proof. intros Hd Hp. eexists. cbn. unfold rbind. rewrite Hd. cbn. by rewrite Hp. Qed.

End messages.
