(* ===== verification/EngineNetworkFacts.v ===== *)
(** * Delivery by the network

    What the network actor and the network task do together: a published message
    comes out of a subscribed peer's actor as the same message, over a transport
    that is a parameter with laws, and a response is sent only
    for a request that was reported, on the channel of that request and once. *)

From S2P Require Import Prelude Types Bytes Context Coroutine ConsensusTypes Scoring SyncTypes Streaming Network EngineNetwork.

(** ** The transport

    The publish-subscribe protocols of libp2p between two nodes: what the swarm of
    a node that has made the given calls reports, when another node, [from], makes
    a call. A message that is published on a topic arrives once, with its topic, its
    data and its source, at a node that has subscribed to the topic with the same
    protocol; nothing is said about nodes that have not. *)
Class Transport : Type := transport : list SwarmCall.t -> PeerId -> SwarmCall.t -> list SwarmEvent.t.
Class TransportLaws {Tr : Transport} : Prop := {
  gossip_delivered calls from topic data :
    SwarmCall.GossipSubscribe topic ∈ calls ->
    transport calls from (SwarmCall.GossipPublish topic data)
    = [SwarmEvent.GossipSub (GossipEvent.Message (Some from) topic data)];
  broadcast_delivered calls from topic data :
    SwarmCall.BroadcastSubscribe topic ∈ calls ->
    transport calls from (SwarmCall.BroadcastSend topic data)
    = [SwarmEvent.Broadcast (BroadcastEvent.Received from topic data)];
}.

Section facts.
Context {Ctx : Context} {Part : ProposalPartType} {NC : NetworkCodec}.
Context {Tr : Transport}.
Context (display : P2pRequestId -> string).

Abbreviation handle := (NetworkActor.handle display).
Abbreviation Running := NetworkActor.Running.

(** What the actor sends to the task, what the task sends to the actor, and what
    the subscribers get. *)
Definition sent_ctrl (calls : list NetworkCall.t) : list CtrlMsg.t :=
  omap (fun c => match c with NetworkCall.Ctrl m => Some m | _ => None end) calls.
Definition sent_events (calls : list SwarmCall.t) : list Event.t :=
  omap (fun c => match c with SwarmCall.SendEvent e => Some e | _ => None end) calls.
Definition outputs (calls : list NetworkCall.t) : list NetworkEvent.t :=
  omap (fun c => match c with NetworkCall.OutputPort e => Some e | _ => None end) calls.

(** ** Published messages are delivered *)

(** The calls of a node's network task up to its loop, when they succeed. *)
Definition startup_calls (config : NetworkConfig.t) : list SwarmCall.t :=
  (execute (fun _ => SwarmReply.Ok) (Network.run config [] (NetworkState.new config))).1.*1.

(** From a message for the actor of one node to the events that the subscribers
    of the actor of another get, which has started before, when all calls succeed. *)
Definition deliver (config : NetworkConfig.t) (net : NetworkState.t) (self : RunningState.t)
    (config' : NetworkConfig.t) (net' : NetworkState.t) (self' : RunningState.t)
    (msg : NetworkMsg.t) : list NetworkEvent.t :=
  m ← sent_ctrl (execute (fun _ => NetworkReply.Ok) (handle msg (Running self))).1.*1;
  call ← (execute (fun _ => SwarmReply.Ok) (handle_ctrl_msg config m net)).1.*1;
  event ← transport (startup_calls config') self.(RunningState.peer_id) call;
  e ← sent_events (execute (fun _ => SwarmReply.Ok) (handle_swarm_event config' event net')).1.*1;
  outputs (execute (fun _ => NetworkReply.Ok) (handle (NetworkMsg.NewEvent e) (Running self'))).1.*1.

(** The event that a message is for the receivers. *)
Definition published_event (from : PeerId) (msg : NetworkMsg.t) : option NetworkEvent.t :=
  match msg with
  | NetworkMsg.PublishConsensusMsg msg => Some (NetworkActor.consensus_event from msg)
  | NetworkMsg.PublishLivenessMsg msg => Some (NetworkActor.liveness_event from msg)
  | NetworkMsg.PublishProposalPart msg => Some (NetworkEvent.ProposalPart from msg)
  | NetworkMsg.BroadcastStatus status => Some (NetworkEvent.Status from status)
  | _ => None
  end.

(** The message can be encoded, and decoding gives it back. *)
Definition transmissible (from : PeerId) (msg : NetworkMsg.t) : Prop :=
  let ok {T} {C : Codec T} (x : T) := exists b, encode x = Ret (Some b) /\ decode b = Ret (Some x) in
  match msg with
  | NetworkMsg.PublishConsensusMsg msg => ok msg
  | NetworkMsg.PublishLivenessMsg msg => ok msg
  | NetworkMsg.PublishProposalPart msg => ok msg
  | NetworkMsg.BroadcastStatus status =>
      ok (Status.mk from status.(LocalStatus.tip_height) status.(LocalStatus.history_min_height))
  | _ => True
  end.

(** From a control message to the event at the other node's actor. *)
Definition transmit (config : NetworkConfig.t) (net : NetworkState.t) (from : PeerId)
    (config' : NetworkConfig.t) (net' : NetworkState.t) (m : CtrlMsg.t) : list Event.t :=
  call ← (execute (fun _ => SwarmReply.Ok) (handle_ctrl_msg config m net)).1.*1;
  event ← transport (startup_calls config') from call;
  sent_events (execute (fun _ => SwarmReply.Ok) (handle_swarm_event config' event net')).1.*1.

Section delivery.
Context (config config' : NetworkConfig.t) (net net' : NetworkState.t).
Context (Hnames : names_distinct config.(NetworkConfig.channel_names)).
Context (Hsame : config'.(NetworkConfig.channel_names) = config.(NetworkConfig.channel_names)).
Context (Hconsensus : config.(NetworkConfig.enable_consensus) = true).
Context (Hsync : config.(NetworkConfig.enable_sync) = true).
Context (Hnet : net.(NetworkState.behaviour) = Behaviour.new config).
Context (Hprotocol : config'.(NetworkConfig.pubsub_protocol) = config.(NetworkConfig.pubsub_protocol)).
Context (Hconsensus' : config'.(NetworkConfig.enable_consensus) = true).
Context (Hsync' : config'.(NetworkConfig.enable_sync) = true).
Context {tr_laws : TransportLaws}.

Lemma startup_subscribes :
  startup_calls config' =
  SwarmCall.ListenOn config'.(NetworkConfig.listen_addr) ::
  ((fun c => match config'.(NetworkConfig.pubsub_protocol) with
             | PubSubProtocol.GossipSub =>
                 SwarmCall.GossipSubscribe (Channel.to_gossipsub_topic c config'.(NetworkConfig.channel_names))
             | PubSubProtocol.Broadcast =>
                 SwarmCall.BroadcastSubscribe (Channel.to_broadcast_topic c config'.(NetworkConfig.channel_names))
             end) <$> Channel.consensus) ++
  [SwarmCall.BroadcastSubscribe (Channel.to_broadcast_topic Channel.Sync config'.(NetworkConfig.channel_names))].
Proof using Hconsensus' Hsync'.
  clear Hsame Hprotocol. destruct config' as [addr protocol names c sy consensus]. cbn in Hconsensus', Hsync'. subst c sy. by destruct protocol.
Qed.

(** The receiver has subscribed to the topics of consensus with the protocol of
    the configuration, and to the one of sync with the broadcast protocol. *)
Lemma consensus_subscribed channel :
  channel ∈ Channel.consensus ->
  match config.(NetworkConfig.pubsub_protocol) with
  | PubSubProtocol.GossipSub =>
      SwarmCall.GossipSubscribe (Channel.to_gossipsub_topic channel config.(NetworkConfig.channel_names))
  | PubSubProtocol.Broadcast =>
      SwarmCall.BroadcastSubscribe (Channel.to_broadcast_topic channel config.(NetworkConfig.channel_names))
  end ∈ startup_calls config'.
Proof using Hsame Hprotocol Hconsensus' Hsync'.
  intros Hc. rewrite startup_subscribes, <- Hsame, <- Hprotocol. right. apply elem_of_app. left.
  apply list_elem_of_fmap. by exists channel.
Qed.

Lemma sync_subscribed :
  SwarmCall.BroadcastSubscribe (Channel.to_broadcast_topic Channel.Sync config.(NetworkConfig.channel_names))
  ∈ startup_calls config'.
Proof using Hsame Hconsensus' Hsync'.
  rewrite startup_subscribes, <- Hsame. right. apply elem_of_app. right. by left.
Qed.

Lemma transmit_gossip from channel data :
  sent_events (execute (fun _ => SwarmReply.Ok)
    (handle_swarm_event config' (SwarmEvent.GossipSub
       (GossipEvent.Message (Some from) (Channel.to_gossipsub_topic channel config.(NetworkConfig.channel_names)) data))
       net')).1.*1 = [message_event channel from data].
Proof.
  cbn [handle_swarm_event handle_gossipsub_event]. by rewrite Hsame, channel_gossipsub_roundtrip.
Qed.

Lemma transmit_broadcast from channel data :
  sent_events (execute (fun _ => SwarmReply.Ok)
    (handle_swarm_event config' (SwarmEvent.Broadcast
       (BroadcastEvent.Received from (Channel.to_broadcast_topic channel config.(NetworkConfig.channel_names)) data))
       net')).1.*1 = [message_event channel from data].
Proof.
  cbn [handle_swarm_event handle_broadcast_event]. by rewrite Hsame, channel_broadcast_roundtrip.
Qed.

Lemma task_publishes protocol channel data :
  net.(NetworkState.behaviour) = Behaviour.new config ->
  (protocol = config.(NetworkConfig.pubsub_protocol) \/ protocol = PubSubProtocol.Broadcast) ->
  (execute (fun _ => SwarmReply.Ok)
     ((_ ← catch (publish protocol channel config.(NetworkConfig.channel_names) data); mret Continue) net)).1.*1
  = [match protocol with
     | PubSubProtocol.GossipSub =>
         SwarmCall.GossipPublish (Channel.to_gossipsub_topic channel config.(NetworkConfig.channel_names)) data
     | PubSubProtocol.Broadcast =>
         SwarmCall.BroadcastSend (Channel.to_broadcast_topic channel config.(NetworkConfig.channel_names)) data
     end].
Proof.
  intros Hb Hp. unfold mbind, handler_bind, catch, publish, mbind, handler_bind, get_state. cbn.
  rewrite Hb. unfold Behaviour.new. rewrite Hconsensus, Hsync.
  destruct protocol; cbn; [|by rewrite orb_true_r]. destruct Hp as [<-|]; done.
Qed.

Lemma transmit_publish from channel data :
  channel ∈ Channel.consensus ->
  transmit config net from config' net' (CtrlMsg.Publish channel data) = [message_event channel from data].
Proof using All.
  intros Hc. pose proof (consensus_subscribed channel Hc) as Hsub.
  unfold transmit. cbn [handle_ctrl_msg]. rewrite task_publishes by auto.
  destruct config.(NetworkConfig.pubsub_protocol); rewrite bind_singleton;
    [rewrite gossip_delivered by done|rewrite broadcast_delivered by done];
    rewrite bind_singleton; [apply transmit_gossip|apply transmit_broadcast].
Qed.

Lemma transmit_status from data :
  transmit config net from config' net' (CtrlMsg.Broadcast Channel.Sync data)
  = [message_event Channel.Sync from data].
Proof using All.
  unfold transmit. cbn [handle_ctrl_msg]. rewrite Hsync, andb_false_r, task_publishes by auto.
  rewrite bind_singleton, broadcast_delivered by apply sync_subscribed. rewrite bind_singleton. apply transmit_broadcast.
Qed.
End delivery.

Lemma list_bind_assoc {A B C} (f : A -> list B) (g : B -> list C) (l : list A) :
  (l ≫= f) ≫= g = l ≫= (fun x => f x ≫= g).
Proof. induction l as [|x l IH]; [done|]. by rewrite !bind_cons, bind_app, IH. Qed.

(** The actors at the two ends. *)
Lemma deliver_transmit config net self config' net' self' msg :
  deliver config net self config' net' self' msg =
  (m ← sent_ctrl (execute (fun _ => NetworkReply.Ok) (handle msg (Running self))).1.*1;
   e ← transmit config net self.(RunningState.peer_id) config' net' m;
   outputs (execute (fun _ => NetworkReply.Ok) (handle (NetworkMsg.NewEvent e) (Running self'))).1.*1).
Proof.
  unfold deliver, transmit. apply list_bind_ext; [|done]. intros m.
  rewrite list_bind_assoc. apply list_bind_ext; [|done]. intros call. by rewrite list_bind_assoc.
Qed.

Lemma deliver_published config net self config' net' self' msg m e event :
  sent_ctrl (execute (fun _ => NetworkReply.Ok) (handle msg (Running self))).1.*1 = [m] ->
  transmit config net self.(RunningState.peer_id) config' net' m = [e] ->
  outputs (execute (fun _ => NetworkReply.Ok) (handle (NetworkMsg.NewEvent e) (Running self'))).1.*1 = [event] ->
  deliver config net self config' net' self' msg = [event].
Proof. intros Hm He Ho. by rewrite deliver_transmit, Hm, bind_singleton, He, bind_singleton. Qed.

Lemma handle_running_eq msg self :
  handle msg (Running self) = NetworkActor.handle_running display self msg (Running self).
Proof. done. Qed.

Lemma execute_with_encoded {T} `{Codec T} (x : T) b k s :
  encode x = Ret (Some b) -> NetworkActor.with_encoded x k s = k b s.
Proof. intros Hx. unfold NetworkActor.with_encoded, lift. by rewrite Hx. Qed.

Lemma execute_with_decoded {T} `{Codec T} (x : T) b k s :
  decode b = Ret (Some x) -> NetworkActor.with_decoded b k s = k x s.
Proof. intros Hx. unfold NetworkActor.with_decoded, lift. by rewrite Hx. Qed.

Lemma deliver_transmissible {tr_laws : TransportLaws} config net self config' net' self' msg event :
  names_distinct config.(NetworkConfig.channel_names) ->
  config'.(NetworkConfig.channel_names) = config.(NetworkConfig.channel_names) ->
  config.(NetworkConfig.enable_consensus) = true -> config.(NetworkConfig.enable_sync) = true ->
  net.(NetworkState.behaviour) = Behaviour.new config ->
  config'.(NetworkConfig.pubsub_protocol) = config.(NetworkConfig.pubsub_protocol) ->
  config'.(NetworkConfig.enable_consensus) = true -> config'.(NetworkConfig.enable_sync) = true ->
  published_event self.(RunningState.peer_id) msg = Some event ->
  transmissible self.(RunningState.peer_id) msg ->
  deliver config net self config' net' self' msg = [event].
Proof.
  intros Hn Hs Hc Hy Hb Hp Hc' Hy' He Ht. unfold transmissible in Ht.
  destruct msg; try discriminate He; injection He as <-; destruct Ht as (b & Henc & Hdec);
    (eapply deliver_published;
      [rewrite handle_running_eq; cbn [NetworkActor.handle_running];
         erewrite execute_with_encoded by exact Henc; reflexivity
      |(apply transmit_publish; try done; unfold Channel.consensus; rewrite !elem_of_cons; by auto) || by apply transmit_status
      |rewrite handle_running_eq; unfold message_event; case_bool_decide; try done;
         cbn [NetworkActor.handle_running NetworkActor.new_event];
         erewrite execute_with_decoded by exact Hdec]).
  all: try done. rewrite bool_decide_true by done. by destruct status.
Qed.

(** A vote, proposal, certificate, proposal part or status that a node
    publishes reaches the subscribers of the network actor of another node as
    exactly one event, which carries the same message and the publisher's peer
    id, with either publish protocol. The nodes use the same protocol and the same
    four different channel names, consensus and sync are enabled at both, and the
    message survives encoding and decoding. *)
Theorem published_message_delivered {tr_laws : TransportLaws} config net self config' net' self' msg event :
  names_distinct config.(NetworkConfig.channel_names) ->
  config'.(NetworkConfig.channel_names) = config.(NetworkConfig.channel_names) ->
  config.(NetworkConfig.enable_consensus) = true -> config.(NetworkConfig.enable_sync) = true ->
  net.(NetworkState.behaviour) = Behaviour.new config ->
  config'.(NetworkConfig.pubsub_protocol) = config.(NetworkConfig.pubsub_protocol) ->
  config'.(NetworkConfig.enable_consensus) = true -> config'.(NetworkConfig.enable_sync) = true ->
  published_event self.(RunningState.peer_id) msg = Some event ->
  transmissible self.(RunningState.peer_id) msg ->
  deliver config net self config' net' self' msg = [event].
Proof. apply deliver_transmissible. Qed.

(** ** The actor and the task, with the queues between them *)

Record node : Type := mk_node {
  actor : NetworkActor.State;
  task : NetworkState.t;
  ctrl_queue : list CtrlMsg.t;
  event_queue : list Event.t;
}.

(** What is seen of a node: the messages of the other actors, the calls of the
    actor, the reports of the swarm and the calls of the task. *)
Inductive obs : Type :=
  | Message (msg : NetworkMsg.t)
  | ActorCall (c : NetworkCall.t)
  | Reported (event : SwarmEvent.t)
  | TaskCall (c : SwarmCall.t).

Definition internal (msg : NetworkMsg.t) : bool := match msg with NetworkMsg.NewEvent _ => true | _ => false end.

(** A step runs one handler to its end, with any answers to its calls. *)
Inductive node_step (config : NetworkConfig.t) : node -> list obs -> node -> Prop :=
  | step_message n msg t s r :
      internal msg = false ->
      steps (handle msg n.(actor)) t (Complete (s, r)) ->
      node_step config n (Message msg :: (ActorCall <$> t.*1))
        (mk_node s n.(task) (n.(ctrl_queue) ++ sent_ctrl t.*1) n.(event_queue))
  | step_event n e q t s r :
      n.(event_queue) = e :: q ->
      steps (handle (NetworkMsg.NewEvent e) n.(actor)) t (Complete (s, r)) ->
      node_step config n (ActorCall <$> t.*1) (mk_node s n.(task) (n.(ctrl_queue) ++ sent_ctrl t.*1) q)
  | step_ctrl n m q t s r :
      n.(ctrl_queue) = m :: q ->
      steps (handle_ctrl_msg config m n.(task)) t (Complete (s, r)) ->
      node_step config n (TaskCall <$> t.*1) (mk_node n.(actor) s q (n.(event_queue) ++ sent_events t.*1))
  | step_swarm n event t s r :
      steps (handle_swarm_event config event n.(task)) t (Complete (s, r)) ->
      node_step config n (Reported event :: (TaskCall <$> t.*1))
        (mk_node n.(actor) s n.(ctrl_queue) (n.(event_queue) ++ sent_events t.*1)).

Inductive node_run (config : NetworkConfig.t) (n0 : node) : list obs -> node -> Prop :=
  | run_nil : node_run config n0 [] n0
  | run_snoc h n o n' : node_run config n0 h n -> node_step config n o n' -> node_run config n0 (h ++ o) n'.

Definition new_node (config : NetworkConfig.t) (peer_id : PeerId) : node :=
  mk_node (Running (RunningState.new peer_id)) (NetworkState.new config) [] [].

(** *** What the handlers do to requests *)

Definition inbound (s : NetworkActor.State) : gmap InboundRequestId P2pRequestId :=
  match s with NetworkActor.Running self => self.(RunningState.inbound_requests) | NetworkActor.Stopped => ∅ end.

(** A reply goes out only for a response to a request that is waiting. *)
Definition reply_justified (msg : NetworkMsg.t) (s : NetworkActor.State) (c : NetworkCall.t) : Prop :=
  forall j data, c = NetworkCall.Ctrl (CtrlMsg.SyncReply j data) ->
  exists id resp, msg = NetworkMsg.OutgoingResponse id resp /\ encode resp = Ret (Some data) /\ inbound s !! id = Some j.

(** A request waits only when the subscribers were told. *)
Definition waiting_justified (msg : NetworkMsg.t) (s s' : NetworkActor.State) (calls : list NetworkCall.t) : Prop :=
  forall id j, inbound s' !! id = Some j -> inbound s !! id = Some j \/
  exists peer body req, msg = NetworkMsg.NewEvent (Event.Sync (RawMessage.Request j peer body)) /\
    id = display j /\ decode body = Ret (Some req) /\
    NetworkCall.OutputPort (NetworkEvent.SyncRequest id peer req) ∈ calls.

Abbreviation wp_actor msg s := (wp True (fun (_ : trace NetworkCall.t NetworkReply.t) c => reply_justified msg s c) (fun _ _ _ => True)).

Lemma wp_net_cast msg s s' c Q t :
  reply_justified msg s c -> (forall r, Q (t ++ [(c, r)]) (s', inr tt)) ->
  wp_actor msg s (NetworkActor.cast c s') Q t.
Proof. intros Hc HQ. unfold NetworkActor.cast. wp_step. apply wp_yield; [done|]. intros r _. cbn [fst snd]. wp_step. apply HQ. Qed.

Lemma wp_try_call msg s s' c Q t :
  reply_justified msg s c -> (forall t' r, Q t' (s', r)) ->
  wp_actor msg s (NetworkActor.try_call c s') Q t.
Proof.
  intros Hc HQ. unfold NetworkActor.try_call. wp_step. apply wp_yield; [done|]. intros r _. cbn [fst snd].
  wp_step; wp_step; apply HQ.
Qed.

Lemma waiting_same msg s s' calls : inbound s' = inbound s -> waiting_justified msg s s' calls.
Proof. intros Hs id j. rewrite Hs. auto. Qed.

Lemma wp_send_all msg s s' events Q t :
  (forall t', Q t' (s', inr tt)) -> wp_actor msg s (NetworkActor.send_all events s') Q t.
Proof.
  intros HQ. revert t. induction events as [|event events IH]; intros t; cbn [NetworkActor.send_all].
  { wp_step. apply HQ. }
  wp_step. apply wp_net_cast; [done|]. intros r. cbn [fst snd]. apply IH.
Qed.

Lemma new_event_wp self event (msg := NetworkMsg.NewEvent event) (s := Running self) :
  wp_actor msg s (NetworkActor.new_event display self event s)
    (fun t x => waiting_justified msg s x.1 t.*1) [].
Proof.
  destruct event as [addr|peer|peer|[] from data|[] from data|[j peer body|j peer body]]; cbn [NetworkActor.new_event];
    unfold NetworkActor.with_decoded; repeat wp_step; cbn [fst snd]; try by apply waiting_same.
  all: try (apply wp_net_cast; [done|]; intros ?; cbn [fst snd]; try by apply waiting_same).
  intros id k. unfold inbound, s. cbn. destruct (decide (id = display j)) as [->|Hne].
  - rewrite lookup_insert_eq. intros [= <-]. right. exists peer, body, r. rewrite list_elem_of_singleton. done.
  - rewrite lookup_insert_ne by done. auto.
Qed.

Lemma handle_wp msg s :
  wp_actor msg s (handle msg s) (fun t x => waiting_justified msg s x.1 t.*1) [].
Proof.
  unfold NetworkActor.handle. wp_step. wp_step. cbn [fst snd]. destruct s as [|self].
  { wp_step. by apply waiting_same. }
  destruct msg; cbn [NetworkActor.handle_running].
  all: unfold NetworkActor.subscribe, NetworkActor.outgoing_response, NetworkActor.with_encoded,
    NetworkActor.ctrl_publish, NetworkActor.ctrl_broadcast, NetworkActor.ctrl_sync_request, NetworkActor.ctrl_sync_reply.
  all: repeat wp_step; cbn [fst snd]; try by apply waiting_same.
  all: try (apply wp_try_call; [done|]; intros; cbn [fst snd]; try by apply waiting_same).
  all: try (apply new_event_wp).
  - apply wp_send_all. intros t. cbn [fst snd]. wp_step. apply wp_send_all. intros t'. cbn [fst snd].
    apply wp_net_cast; [done|]. intros r. by apply waiting_same.
  - apply wp_yield; [done|]. intros r _. cbn [fst snd]. repeat wp_step; try by apply waiting_same.
    apply wp_try_call; [done|]. intros. by apply waiting_same.
  - apply wp_try_call.
    + intros j data [= <- <-]. subst. eauto.
    + intros t r id j. unfold inbound. cbn. rewrite lookup_delete_Some. naive_solver.
Qed.

(** The task answers a request when it is told to, and forgets it; only requests
    that the swarm reports are passed on and remembered. *)
Definition answers_request (m : CtrlMsg.t) (net : NetworkState.t) (calls : list SwarmCall.t) (net' : NetworkState.t) : Prop :=
  match m with
  | CtrlMsg.SyncReply j data =>
      exists ch, net.(NetworkState.sync_channels) !! j = Some ch /\
        net'.(NetworkState.sync_channels) = delete j net.(NetworkState.sync_channels) /\
        calls = [SwarmCall.SendResponse ch data]
  | _ => False
  end.
Definition silent (calls : list SwarmCall.t) : Prop := forall ch data, SwarmCall.SendResponse ch data ∉ calls.

Abbreviation wp_task := (wp True (fun (_ : trace SwarmCall.t SwarmReply.t) (_ : SwarmCall.t) => True) (fun _ _ _ => True)).

Lemma wp_try_swarm (c : SwarmCall.t) net Q t :
  (forall r x, Q (t ++ [(c, r)]) (net, x)) -> wp_task (try_swarm c net) Q t.
Proof.
  intros HQ. unfold try_swarm. wp_step. apply wp_yield; [done|]. intros r _. cbn [fst snd]. wp_step; wp_step; apply HQ.
Qed.

Lemma wp_swarm_ask (c : SwarmCall.t) net Q t :
  (forall r, Q (t ++ [(c, r)]) (net, inr tt)) -> wp_task (ask c net) Q t.
Proof. intros HQ. unfold ask. wp_step. apply wp_yield; [done|]. intros r _. cbn [fst snd]. wp_step. apply HQ. Qed.

Ltac task_calls :=
  unfold publish, send_event;
  repeat (wp_step || (apply wp_swarm_ask; intros ?; cbn [fst snd]) || (apply wp_try_swarm; intros ? ?; cbn [fst snd])
          || (apply wp_yield; [done|]; intros ? _; cbn [fst snd])); cbn [fst snd].

Ltac quiet := intros ? ?; cbn; rewrite ?elem_of_cons, ?elem_of_nil; naive_solver.

Lemma ctrl_wp config m net :
  wp_task (handle_ctrl_msg config m net)
    (fun t x => sent_events t.*1 = [] /\
      (answers_request m net t.*1 x.1 \/
       silent t.*1 /\ x.1.(NetworkState.sync_channels) = net.(NetworkState.sync_channels))) [].
Proof.
  destruct m; cbn [handle_ctrl_msg]; task_calls.
  all: try (split; [done|]; right; split; [quiet|done]).
  all: try (destruct x; cbn; split; [done|]; right; split; [quiet|done]).
  split; [done|]. left. cbn. eauto.
Qed.

Definition remembers (event : SwarmEvent.t) (channels : gmap P2pRequestId ResponseChannel)
    : gmap P2pRequestId ResponseChannel :=
  match event with SwarmEvent.Sync (SyncEvent.Request _ j _ ch) => <[j := ch]> channels | _ => channels end.

Lemma swarm_wp config event net :
  wp_task (handle_swarm_event config event net)
    (fun t x => silent t.*1 /\
      x.1.(NetworkState.sync_channels) = remembers event net.(NetworkState.sync_channels) /\
      forall j peer body, Event.Sync (RawMessage.Request j peer body) ∈ sent_events t.*1 ->
        exists ch, event = SwarmEvent.Sync (SyncEvent.Request peer j body ch)) [].
Proof.
  destruct event as [| | | | | | | |ev|ev|ev| |]; cbn [handle_swarm_event];
    [..|destruct ev|destruct ev|destruct ev| |];
    cbn [handle_gossipsub_event handle_broadcast_event handle_sync_event]; task_calls.
  all: unfold message_event; repeat case_bool_decide.
  all: (split; [quiet|split; [done|]]); intros ? ? ?; cbn; rewrite ?elem_of_cons, ?elem_of_nil; naive_solver.
Qed.

(** *** The invariant *)

(** The requests that the swarm reported, with their channels, and the channels
    that were answered. *)
Definition requests (h : list obs) : list (P2pRequestId * ResponseChannel * PeerId * bytes) :=
  omap (fun o => match o with
                 | Reported (SwarmEvent.Sync (SyncEvent.Request peer j body ch)) => Some (j, ch, peer, body)
                 | _ => None
                 end) h.
Definition request_ids (h : list obs) : list P2pRequestId := (fun r => r.1.1.1) <$> requests h.
Definition request_channels (h : list obs) : list ResponseChannel := (fun r => r.1.1.2) <$> requests h.
Definition responses (h : list obs) : list ResponseChannel :=
  omap (fun o => match o with TaskCall (SwarmCall.SendResponse ch _) => Some ch | _ => None end) h.

Definition reported (h : list obs) (peer : PeerId) (j : P2pRequestId) (body : bytes) (ch : ResponseChannel) : Prop :=
  Reported (SwarmEvent.Sync (SyncEvent.Request peer j body ch)) ∈ h.

Lemma reported_request h peer j body ch : reported h peer j body ch <-> (j, ch, peer, body) ∈ requests h.
Proof.
  unfold reported, requests. rewrite list_elem_of_omap. split; [eauto|].
  intros ([| |event|] & Ho & Heq); try done. destruct event as [| | | | | | | | | |[]| |]; by simplify_eq.
Qed.

Lemma NoDup_fmap_inj {A B} (g : A -> B) (l : list A) x y :
  NoDup (g <$> l) -> x ∈ l -> y ∈ l -> g x = g y -> x = y.
Proof.
  intros Hd Hx Hy Hg. apply list_elem_of_lookup in Hx as [i Hx], Hy as [k Hy].
  assert (i = k) as <-; [|congruence]. eapply (NoDup_lookup _ i k (g x) Hd); rewrite list_lookup_fmap.
  - by rewrite Hx.
  - by rewrite Hy, Hg.
Qed.

(** The subscribers were told of the request. *)
Definition told (h : list obs) (j : P2pRequestId) : Prop :=
  exists peer body ch req, reported h peer j body ch /\ decode body = Ret (Some req) /\
    ActorCall (NetworkCall.OutputPort (NetworkEvent.SyncRequest (display j) peer req)) ∈ h.

(** They answered. *)
Definition replied (h : list obs) (j : P2pRequestId) (data : bytes) : Prop :=
  told h j /\ exists resp, Message (NetworkMsg.OutgoingResponse (display j) resp) ∈ h /\ encode resp = Ret (Some data).

Record node_inv (h : list obs) (n : node) : Prop := {
  inv_channels j ch : n.(task).(NetworkState.sync_channels) !! j = Some ch ->
    (exists peer body, reported h peer j body ch) /\ ch ∉ responses h;
  inv_events j peer body : Event.Sync (RawMessage.Request j peer body) ∈ n.(event_queue) ->
    exists ch, reported h peer j body ch;
  inv_waiting id j : inbound n.(actor) !! id = Some j -> id = display j /\ told h j;
  inv_ctrl j data : CtrlMsg.SyncReply j data ∈ n.(ctrl_queue) -> replied h j data;
  inv_responses ch data : TaskCall (SwarmCall.SendResponse ch data) ∈ h ->
    exists j peer body, reported h peer j body ch /\ replied h j data;
  inv_once : NoDup (responses h);
}.

Lemma reported_mono h o peer j body ch : reported h peer j body ch -> reported (h ++ o) peer j body ch.
Proof. unfold reported. set_solver. Qed.
Lemma told_mono h o j : told h j -> told (h ++ o) j.
Proof. intros (peer & body & ch & req & ? & ? & ?). exists peer, body, ch, req. unfold reported in *. set_solver. Qed.
Lemma replied_mono h o j data : replied h j data -> replied (h ++ o) j data.
Proof. intros (? & resp & ? & ?). split; [by apply told_mono|]. exists resp. set_solver. Qed.

Lemma silent_responses (calls : list SwarmCall.t) : silent calls -> responses (TaskCall <$> calls) = [].
Proof.
  intros Hs. apply elem_of_nil_inv. intros ch (o & Ho & Heq)%list_elem_of_omap.
  apply list_elem_of_fmap in Ho as (c & -> & Hc). destruct c; simplify_eq. by eapply Hs.
Qed.

Lemma actor_responses (calls : list NetworkCall.t) : responses (ActorCall <$> calls) = [].
Proof. by induction calls. Qed.

Lemma elem_of_sent_ctrl m calls : m ∈ sent_ctrl calls <-> NetworkCall.Ctrl m ∈ calls.
Proof. unfold sent_ctrl. rewrite list_elem_of_omap. split; [|eauto]. intros ([] & ? & [= <-]); done. Qed.

Lemma actor_step_inv h n msg t s r pre queue :
  node_inv h n -> steps (handle msg n.(actor)) t (Complete (s, r)) ->
  responses pre = [] -> (forall id resp, msg = NetworkMsg.OutgoingResponse id resp -> Message msg ∈ pre) ->
  (forall e, msg = NetworkMsg.NewEvent e -> e ∈ n.(event_queue)) -> queue ⊆ n.(event_queue) ->
  node_inv (h ++ pre ++ (ActorCall <$> t.*1)) (mk_node s n.(task) (n.(ctrl_queue) ++ sent_ctrl t.*1) queue).
Proof.
  intros Hi Hs Hpre Hmsg Hev Hq.
  pose proof (wp_complete _ _ _ _ _ _ _ _ (handle_wp msg n.(actor)) Hs (answered_any _ _)) as Hw. cbn in Hw.
  assert (Hresp : responses (h ++ pre ++ (ActorCall <$> t.*1)) = responses h).
  { unfold responses in *. rewrite !omap_app, Hpre. fold (responses (ActorCall <$> t.*1)).
    by rewrite actor_responses, app_nil_r. }
  split; cbn [actor task ctrl_queue event_queue]; rewrite ?Hresp.
  - intros j ch Hj. destruct (inv_channels _ _ Hi j ch Hj) as [(peer & body & ?) ?].
    split; [exists peer, body; by apply reported_mono|done].
  - intros j peer body Hj. destruct (inv_events _ _ Hi j peer body) as [ch ?]; [set_solver|].
    exists ch. by apply reported_mono.
  - intros id j [Hj|(peer & body & req & -> & -> & Hd & Hc)]%Hw.
    { destruct (inv_waiting _ _ Hi _ _ Hj) as [? ?]. split; [done|by apply told_mono]. }
    split; [done|]. destruct (inv_events _ _ Hi j peer body (Hev _ eq_refl)) as [ch Hr].
    exists peer, body, ch, req. split; [by apply reported_mono|]. split; [done|]. set_solver.
  - intros j data [Hj|Hj]%elem_of_app; [by apply replied_mono, (inv_ctrl _ _ Hi)|].
    apply elem_of_sent_ctrl, list_elem_of_fmap in Hj as ([c x] & Hc & Hj). cbn in Hc. subst c.
    apply list_elem_of_split in Hj as (t1 & t2 & Ht).
    destruct (wp_trace_allowed _ _ _ _ _ _ _ _ _ _ _ _ (handle_wp msg n.(actor)) Hs (answered_any _ _) Ht j data eq_refl)
      as (id & resp & -> & He & Hid).
    destruct (inv_waiting _ _ Hi _ _ Hid) as [-> Htold]. split; [by apply told_mono|].
    exists resp. specialize (Hmsg _ _ eq_refl). set_solver.
  - intros ch data Hin. destruct (inv_responses _ _ Hi ch data) as (j & peer & body & ? & ?).
    { apply elem_of_app in Hin as [?|[Hin|Hin]%elem_of_app]; [done| |set_solver].
      exfalso. apply (not_elem_of_nil ch). rewrite <- Hpre. apply list_elem_of_omap. eauto. }
    exists j, peer, body. split; [by apply reported_mono|by apply replied_mono].
  - apply (inv_once _ _ Hi).
Qed.

(** Steps of the task that answer nothing. *)
Lemma task_step_inv h n pre calls net ctrl events :
  node_inv h n -> responses pre = [] -> silent calls ->
  (forall j ch, net.(NetworkState.sync_channels) !! j = Some ch ->
     n.(task).(NetworkState.sync_channels) !! j = Some ch \/
     (exists peer body, reported pre peer j body ch) /\ ch ∉ responses h) ->
  ctrl ⊆ n.(ctrl_queue) ->
  (forall j peer body, Event.Sync (RawMessage.Request j peer body) ∈ events ->
     Event.Sync (RawMessage.Request j peer body) ∈ n.(event_queue) \/ exists ch, reported pre peer j body ch) ->
  node_inv (h ++ pre ++ (TaskCall <$> calls)) (mk_node n.(actor) net ctrl events).
Proof.
  intros Hi Hpre Hs Hch Hctrl Hev.
  assert (Hresp : responses (h ++ pre ++ (TaskCall <$> calls)) = responses h).
  { unfold responses in *. rewrite !omap_app, Hpre. fold (responses (TaskCall <$> calls)).
    by rewrite silent_responses, app_nil_r. }
  split; cbn [actor task ctrl_queue event_queue]; rewrite ?Hresp.
  - intros j ch [Hj|[(peer & body & ?) ?]]%Hch.
    + destruct (inv_channels _ _ Hi j ch Hj) as [(peer & body & ?) ?].
      split; [exists peer, body; by apply reported_mono|done].
    + split; [exists peer, body; unfold reported in *; set_solver|done].
  - intros j peer body [Hj|[ch ?]]%Hev; [|exists ch; unfold reported in *; set_solver].
    destruct (inv_events _ _ Hi j peer body Hj) as [ch ?]. exists ch. by apply reported_mono.
  - intros id j Hj. destruct (inv_waiting _ _ Hi _ _ Hj). split; [done|by apply told_mono].
  - intros j data Hj. apply replied_mono, (inv_ctrl _ _ Hi). set_solver.
  - intros ch data Hin. destruct (inv_responses _ _ Hi ch data) as (j & peer & body & ? & ?).
    { apply elem_of_app in Hin as [?|[Hin|Hin]%elem_of_app]; [done| |].
      - exfalso. apply (not_elem_of_nil ch). rewrite <- Hpre. apply list_elem_of_omap. eauto.
      - apply list_elem_of_fmap in Hin as (c & [= <-] & Hc). by apply Hs in Hc. }
    exists j, peer, body. split; [by apply reported_mono|by apply replied_mono].
  - apply (inv_once _ _ Hi).
Qed.

(** The step that answers a request. The channels of the requests are different,
    so the channel is not remembered under another identifier. *)
Lemma answer_step_inv h n j data ch net queue :
  node_inv h n -> n.(ctrl_queue) = CtrlMsg.SyncReply j data :: queue ->
  n.(task).(NetworkState.sync_channels) !! j = Some ch ->
  net.(NetworkState.sync_channels) = delete j n.(task).(NetworkState.sync_channels) ->
  NoDup (request_channels h) ->
  node_inv (h ++ [TaskCall (SwarmCall.SendResponse ch data)]) (mk_node n.(actor) net queue n.(event_queue)).
Proof.
  intros Hi Hq Hj Hnet Hdup. destruct (inv_channels _ _ Hi j ch Hj) as [(peer & body & Hrep) Hfresh].
  assert (Hresp : responses (h ++ [TaskCall (SwarmCall.SendResponse ch data)]) = responses h ++ [ch]).
  { unfold responses. by rewrite omap_app. }
  split; cbn [actor task ctrl_queue event_queue]; rewrite ?Hresp, ?Hnet.
  - intros j' ch' [Hne Hj']%lookup_delete_Some. destruct (inv_channels _ _ Hi j' ch' Hj') as [(peer' & body' & Hrep') ?].
    split; [exists peer', body'; by apply reported_mono|].
    rewrite elem_of_app, list_elem_of_singleton. intros [?| ->]; [done|]. apply Hne.
    apply reported_request in Hrep, Hrep'. by injection (NoDup_fmap_inj _ _ _ _ Hdup Hrep Hrep' eq_refl).
  - intros j' peer' body' Hj'. destruct (inv_events _ _ Hi j' peer' body' Hj') as [c ?]. exists c. by apply reported_mono.
  - intros id j' Hj'. destruct (inv_waiting _ _ Hi _ _ Hj'). split; [done|by apply told_mono].
  - intros j' data' Hj'. apply replied_mono, (inv_ctrl _ _ Hi). rewrite Hq. set_solver.
  - intros ch' data' [Hin|[= -> ->]%list_elem_of_singleton]%elem_of_app.
    + destruct (inv_responses _ _ Hi ch' data' Hin) as (j' & peer' & body' & ? & ?).
      exists j', peer', body'. split; [by apply reported_mono|by apply replied_mono].
    + exists j, peer, body. split; [by apply reported_mono|]. apply replied_mono, (inv_ctrl _ _ Hi). rewrite Hq. set_solver.
  - apply NoDup_app. split; [apply (inv_once _ _ Hi)|]. split; [set_solver|apply NoDup_singleton].
Qed.

Lemma node_step_inv config h n o n' :
  node_inv h n -> node_step config n o n' -> NoDup (request_channels (h ++ o)) -> node_inv (h ++ o) n'.
Proof.
  unfold request_channels, requests. rewrite omap_app, fmap_app. intros Hi Hstep (Hdup & Hnew & _)%NoDup_app.
  destruct Hstep as [n msg t s r Hmsg Hs|n e q t s r Hq Hs|n m q t s r Hq Hs|n event t s r Hs].
  - apply (actor_step_inv h n msg t s r [Message msg] _ Hi Hs); [done|set_solver| |done].
    by intros e ->.
  - apply (actor_step_inv h n _ t s r [] _ Hi Hs); [done..| |rewrite Hq; set_solver].
    intros e' [= <-]. rewrite Hq. set_solver.
  - destruct (wp_complete _ _ _ _ _ _ _ _ (ctrl_wp config m n.(task)) Hs (answered_any _ _)) as [He [Ha|[Hq' Hch]]]; cbn [fst snd app] in *;
      rewrite He, app_nil_r.
    + destruct m; try done. destruct Ha as (ch & Hj & Hnet & ->). by apply (answer_step_inv h n request_id data ch).
    + apply (task_step_inv h n [] t.*1 s q n.(event_queue) Hi); [done|done|rewrite Hch; auto|rewrite Hq; set_solver|auto].
  - destruct (wp_complete _ _ _ _ _ _ _ _ (swarm_wp config event n.(task)) Hs (answered_any _ _)) as (Hq & Hch & Hev); cbn [fst snd app] in *.
    apply (task_step_inv h n [Reported event] t.*1 s n.(ctrl_queue) _ Hi); [done|done| |done|].
    + intros j ch. rewrite Hch. destruct event as [| | | | | | | | | |[peer k body c| | | |]| |]; cbn [remembers]; auto.
      intros [[<- <-]|[_ ?]]%lookup_insert_Some; [right|by left]. split; [exists peer, body; by left|].
      intros (o & Ho & Hr)%list_elem_of_omap. destruct o as [| | |[]]; simplify_eq.
      destruct (inv_responses _ _ Hi _ _ Ho) as (j & peer' & body' & Hrep%reported_request & _).
      apply (Hnew c); [|by left]. apply list_elem_of_fmap. by exists (j, c, peer', body').
    + intros j peer body [?|(ch & ->)%Hev]%elem_of_app; [by left|]. right. exists ch. by left.
Qed.

Lemma node_run_inv config peer_id h n :
  node_run config (new_node config peer_id) h n -> NoDup (request_channels h) -> node_inv h n.
Proof.
  induction 1 as [|h n o n' Hrun IH Hstep]; intros Hdup.
  { split; cbn; try (by intros; set_solver); try apply NoDup_nil_2; intros *; rewrite lookup_empty; done. }
  eapply node_step_inv; [apply IH|done..].
  unfold request_channels, requests in *. rewrite omap_app, fmap_app in Hdup. by apply NoDup_app in Hdup as [? _].
Qed.

(** C26: whatever the actor, the task and their queues do, and whatever the
    interleaving with other requests, messages and failures: every response that
    a node sends goes out on the channel of a request that the network reported,
    whose content the subscribers were given under the identifier they then
    answered, and it is the encoding of their answer; and no channel is used
    twice. The network gives different requests different identifiers and
    channels. *)
Theorem responses_answer_requests config peer_id h n :
  node_run config (new_node config peer_id) h n ->
  NoDup (request_ids h) -> NoDup (request_channels h) ->
  NoDup (responses h) /\
  forall ch data, TaskCall (SwarmCall.SendResponse ch data) ∈ h ->
    exists j peer body req resp,
      Reported (SwarmEvent.Sync (SyncEvent.Request peer j body ch)) ∈ h /\
      decode body = Ret (Some req) /\
      ActorCall (NetworkCall.OutputPort (NetworkEvent.SyncRequest (display j) peer req)) ∈ h /\
      Message (NetworkMsg.OutgoingResponse (display j) resp) ∈ h /\
      encode resp = Ret (Some data).
Proof.
  intros Hrun Hids Hchs. pose proof (node_run_inv _ _ _ _ Hrun Hchs) as Hi.
  split; [apply (inv_once _ _ Hi)|]. intros ch data Hin.
  destruct (inv_responses _ _ Hi ch data Hin) as
    (j & peer & body & Hrep & (peer' & body' & ch' & req & Hrep' & Hd & Hout) & resp & Hmsg & He).
  exists j, peer, body, req, resp. split; [exact Hrep|]. apply reported_request in Hrep, Hrep'.
  injection (NoDup_fmap_inj _ _ _ _ Hids Hrep Hrep' eq_refl) as _ <- <-. done.
Qed.

End facts.
