(* ===== verification/StarknetCodecFacts.v ===== *)
(** * Starknet: round trips and well-formed messages

    Every conversion of [StarknetTypes] and [StarknetCodec] is shown to undo its
    inverse on well-formed values, and to give well-formed values only. So what a
    Starknet node publishes is delivered by the network unchanged, and what a
    node accepts is well-formed. *)

From S2P Require Import Prelude Types Bytes Context Starknet Coroutine ConsensusTypes Scoring SyncTypes Streaming Network EngineNetwork EngineNetworkFacts StarknetTypes StarknetCodec.

(** ** Conversions that are inverse to each other *)

(** On values that satisfy [wf], [dec] undoes [enc]. *)
Class RoundTrip {A P} (enc : A -> presult P) (dec : P -> presult A) (wf : A -> Prop) : Prop :=
  round_trip a : wf a -> exists p, enc a = ok p /\ dec p = ok a.
(** [dec] gives values that satisfy [wf]. *)
Class Sound {A P} (dec : P -> presult A) (wf : A -> Prop) : Prop := sound p a : dec p = ok a -> wf a.

Lemma and_then_ok {A B} (a : A) (k : A -> presult B) : and_then (ok a) k = k a.
Proof. done. Qed.
Lemma and_then_inv {A B} (m : presult A) (k : A -> presult B) b :
  and_then m k = ok b -> exists a, m = ok a /\ k a = ok b.
Proof. unfold and_then, ok, err. destruct m as [[e|a]|]; cbn; intros H; try discriminate H. by exists a. Qed.
Lemma required_inv {A} url field (o : option A) a : required url field o = ok a -> o = Some a.
Proof. destruct o; cbn; unfold ok, err; congruence. Qed.
Lemma ok_inj {A} (a b : A) : ok a = ok b -> a = b.
Proof. unfold ok. congruence. Qed.
Lemma bind_ok_inv {A B} (m : outcome A) (k : A -> presult B) b :
  m ≫= k = ok b -> exists a, m = Ret a /\ k a = ok b.
Proof. apply bind_Ret_inv. Qed.

(** Takes a successful decoding apart. *)
Ltac inv_ok :=
  repeat match goal with
  | H : and_then _ _ = ok _ |- _ => apply and_then_inv in H as (? & ? & H)
  | H : mbind _ _ = ok _ |- _ => apply bind_ok_inv in H as (? & ? & H)
  | H : required _ _ _ = ok _ |- _ => apply required_inv in H
  | H : ok _ = ok _ |- _ => apply ok_inj in H; subst
  | H : err _ = ok _ |- _ => discriminate H
  end.

(** Runs the conversions of the parts of a value. *)
Ltac use_trip x :=
  let p := fresh "p" in let Henc := fresh "Henc" in let Hdec := fresh "Hdec" in
  destruct (round_trip x) as (p & Henc & Hdec); [done|rewrite ?Henc, ?and_then_ok].
Ltac run_decoding :=
  repeat first [rewrite and_then_ok | progress cbn -[u128_to_proto u128_of_proto] | match goal with Hdec : _ = ok _ |- context [_] => rewrite Hdec end].

#[global] Instance collect_round_trip {A P} (enc : A -> presult P) dec wf :
  RoundTrip enc dec wf -> RoundTrip (collect enc) (collect dec) (Forall wf).
Proof.
  intros Hf l Hl. induction Hl as [|a l Ha _ (ps & Hps & Hl)]; [by exists []|].
  destruct (Hf a Ha) as (p & Hp & Hd). exists (p :: ps). cbn [collect].
  by rewrite Hp, and_then_ok, Hps, and_then_ok, Hd, and_then_ok, Hl.
Qed.
#[global] Instance collect_sound {A P} (dec : P -> presult A) wf : Sound dec wf -> Sound (collect dec) (Forall wf).
Proof.
  intros Hs ps. induction ps as [|p ps IH]; intros l H; cbn [collect] in H; inv_ok; [constructor|].
  constructor; [by eapply Hs|by apply IH].
Qed.

(** ** Integers *)

Lemma u128_round_trip (n : N) : (n < 2 ^ 128)%N -> u128_of_proto (u128_to_proto n) = n.
Proof.
  intros Hn. unfold u128_of_proto, u128_to_proto. cbn [Pb.low Pb.high]. apply N.bits_inj. intros i.
  rewrite N.lor_spec. destruct (N.lt_ge_cases i 64) as [Hi|Hi].
  - rewrite N.mod_pow2_bits_low, N.shiftl_spec_low by done. by rewrite orb_false_r.
  - rewrite N.mod_pow2_bits_high, N.shiftl_spec_high' by done. rewrite orb_false_l.
    destruct (N.lt_ge_cases (i - 64) 64) as [Hj|Hj].
    + rewrite N.mod_pow2_bits_low, N.shiftr_spec' by done. f_equal. lia.
    + rewrite N.mod_pow2_bits_high by done. symmetry. apply N.bits_above_log2.
      destruct (decide (n = 0%N)) as [->|]; [cbn; lia|].
      apply N.log2_lt_pow2; [lia|]. eapply N.lt_le_trans; [exact Hn|]. apply N.pow_le_mono_r; lia.
Qed.

Lemma non_nil_defined (r : Round.t) : Round.is_defined r = true -> exists n, r = Round.Some n /\ non_nil r = Ret n.
Proof. destruct r as [|n]; [done|]. by exists n. Qed.
Lemma defined_new n : Round.is_defined (Round.new n) = true.
Proof. done. Qed.
#[export] Hint Resolve defined_new : core.

(** ** The types *)

Section types.
Context `{SE : StarknetEnv} {laws : StarknetEnvLaws}.
#[local] Arguments and_then : simpl never.

#[global] Instance hash_round_trip : RoundTrip hash_to_proto hash_from_proto SnHash.ok.
Proof.
  intros [b] Hb. eexists. split; [done|]. unfold hash_from_proto. cbn [Pb.hash_elements SnHash.as_bytes].
  unfold SnHash.ok in Hb. cbn in Hb. by rewrite Hb.
Qed.
#[global] Instance hash_sound : Sound hash_from_proto SnHash.ok.
Proof.
  intros [b] h H. unfold hash_from_proto in H. cbn [Pb.hash_elements] in H.
  destruct (Nat.eqb_spec (length b) 32); inv_ok. done.
Qed.

#[global] Instance address_round_trip : RoundTrip address_to_proto address_from_proto (fun _ => True).
Proof.
  intros k _. eexists. split; [done|]. unfold address_from_proto, public_key_from_bytes.
  cbn [Pb.address_elements]. by rewrite key_bytes_length, key_try_from_bytes.
Qed.
#[global] Instance felt_round_trip : RoundTrip felt_to_proto felt_from_proto (fun _ => True).
Proof.
  intros f _. eexists. split; [done|]. unfold felt_from_proto. cbn [Pb.felt_elements].
  by rewrite felt_bytes_length, felt_from_to_bytes.
Qed.
#[global] Instance mode_round_trip :
  RoundTrip L1DataAvailabilityMode.to_proto L1DataAvailabilityMode.from_proto (fun _ => True).
Proof. intros [] _; eexists; by split. Qed.

(** The optional hash of a vote. *)
Definition target_ok (value : NilOrVal.t SnHash.t) : Prop :=
  match value with NilOrVal.Nil => True | NilOrVal.Val h => SnHash.ok h end.
Definition target_to_proto (value : NilOrVal.t SnHash.t) : presult (option Pb.Hash) :=
  match value with NilOrVal.Nil => ok None | NilOrVal.Val h => h ←? hash_to_proto h; ok (Some h) end.
Definition target_from_proto (hash : option Pb.Hash) : presult (NilOrVal.t SnHash.t) :=
  match hash with None => ok NilOrVal.Nil | Some h => h ←? hash_from_proto h; ok (NilOrVal.Val h) end.

#[global] Instance target_round_trip : RoundTrip target_to_proto target_from_proto target_ok.
Proof.
  intros [|h] Hh; [by eexists|]. destruct (hash_round_trip h Hh) as (p & Hp & Hd). exists (Some p).
  unfold target_to_proto, target_from_proto. by rewrite Hp, !and_then_ok, Hd.
Qed.
#[global] Instance target_sound : Sound target_from_proto target_ok.
Proof. intros [p|] v H; cbn in H; inv_ok; [by eapply hash_sound|done]. Qed.

(** *** Transactions, blocks *)

Definition tx_ok (tx : Transaction.t) : Prop := SnHash.ok tx.(Transaction.hash).
#[global] Instance transaction_round_trip : RoundTrip Transaction.to_proto Transaction.from_proto tx_ok.
Proof.
  intros [data h] Hh. unfold Transaction.to_proto, Transaction.from_proto. cbn [Transaction.hash Transaction.data].
  use_trip h. eexists. split; [done|]. cbn [Pb.txn Pb.transaction_hash required]. by run_decoding.
Qed.
#[global] Instance transaction_sound : Sound Transaction.from_proto tx_ok.
Proof. intros [t h] tx H. unfold Transaction.from_proto in H. inv_ok. destruct x; inv_ok. by eapply hash_sound. Qed.

#[global] Instance batch_round_trip : RoundTrip TransactionBatch.to_proto TransactionBatch.from_proto (Forall tx_ok).
Proof. intros l Hl. unfold TransactionBatch.to_proto. use_trip l. eexists. by split. Qed.
#[global] Instance batch_sound : Sound TransactionBatch.from_proto (Forall tx_ok).
Proof. intros p l H. by eapply (collect_sound _ _ transaction_sound). Qed.

Definition block_ok (block : SnBlock.t) : Prop :=
  SnHash.ok block.(SnBlock.block_hash) /\ Forall tx_ok block.(SnBlock.transactions).
#[global] Instance block_round_trip : RoundTrip SnBlock.to_proto SnBlock.from_proto block_ok.
Proof.
  intros [[n f] txs h] [Hh Htx]. cbn in Hh, Htx. unfold SnBlock.to_proto, SnBlock.from_proto. cbn [SnBlock.transactions SnBlock.block_hash].
  use_trip txs. use_trip h. eexists. split; [done|]. by run_decoding.
Qed.
#[global] Instance block_sound : Sound SnBlock.from_proto block_ok.
Proof.
  intros p b H. unfold SnBlock.from_proto in H. inv_ok. split; cbn; [by eapply hash_sound|by eapply batch_sound].
Qed.

(** *** Proposal parts *)

Definition info_fits (info : BlockInfo.t) : Prop :=
  Forall (fun n => n < 2 ^ 128)%N
    [info.(BlockInfo.l1_gas_price_wei); info.(BlockInfo.l1_data_gas_price_wei); info.(BlockInfo.l2_gas_price_fri);
     info.(BlockInfo.eth_to_strk_rate)].
#[global] Instance info_round_trip : RoundTrip BlockInfo.to_proto BlockInfo.from_proto info_fits.
Proof.
  intros [[n f] builder ts a b c d mode] Hfits. unfold BlockInfo.to_proto, BlockInfo.from_proto.
  cbn [BlockInfo.builder BlockInfo.l1_da_mode]. use_trip builder. use_trip mode. eexists. split; [done|].
  unfold info_fits in Hfits. cbn in Hfits. decompose_Forall_hyps.
  run_decoding.
  by rewrite !u128_round_trip.
Qed.

Definition commitment_hashes (c : ProposalCommitment.t) : list SnHash.t :=
  [c.(ProposalCommitment.parent_commitment); c.(ProposalCommitment.old_state_root);
   c.(ProposalCommitment.state_diff_commitment); c.(ProposalCommitment.transaction_commitment);
   c.(ProposalCommitment.event_commitment); c.(ProposalCommitment.receipt_commitment)].
Definition commitment_fits (c : ProposalCommitment.t) : Prop :=
  Forall (fun n => n < 2 ^ 128)%N
    [c.(ProposalCommitment.l1_gas_price_fri); c.(ProposalCommitment.l1_data_gas_price_fri);
     c.(ProposalCommitment.l2_gas_price_fri); c.(ProposalCommitment.l2_gas_used)].
Definition commitment_ok (c : ProposalCommitment.t) : Prop := Forall SnHash.ok (commitment_hashes c).

#[global] Instance commitment_round_trip :
  RoundTrip ProposalCommitment.to_proto ProposalCommitment.from_proto (fun c => commitment_ok c /\ commitment_fits c).
Proof.
  intros [[n f] h1 builder ts version h2 h3 h4 h5 h6 counts p1 p2 p3 p4 mode] [Hok Hfits].
  unfold commitment_ok, commitment_fits, commitment_hashes in Hok, Hfits. cbn in Hok, Hfits.
  decompose_Forall_hyps.
  unfold ProposalCommitment.to_proto, ProposalCommitment.from_proto, ProposalCommitment.hash_field, ProposalCommitment.u128_field.
  cbn [ProposalCommitment.parent_commitment ProposalCommitment.builder ProposalCommitment.old_state_root ProposalCommitment.state_diff_commitment ProposalCommitment.transaction_commitment ProposalCommitment.event_commitment ProposalCommitment.receipt_commitment ProposalCommitment.concatenated_counts ProposalCommitment.l1_da_mode].
  use_trip h1. use_trip builder. use_trip h2. use_trip h3. use_trip h4. use_trip h5. use_trip h6. use_trip counts.
  use_trip mode. eexists. split; [done|]. run_decoding. by rewrite !u128_round_trip.
Qed.
#[global] Instance commitment_sound : Sound ProposalCommitment.from_proto commitment_ok.
Proof.
  intros p c H. unfold ProposalCommitment.from_proto, ProposalCommitment.hash_field in H. inv_ok.
  unfold commitment_ok, commitment_hashes. cbn. repeat constructor; by eapply hash_sound.
Qed.

(** A header has a round and, as the fork is not sent, the fork 0. *)
Definition part_ok (part : SnPart.t) : Prop :=
  match part with
  | SnPart.Init init => Round.is_defined init.(ProposalInit.round) = true /\ init.(ProposalInit.height).(SnHeight.fork_id) = 0%N
  | SnPart.BlockInfo _ => True
  | SnPart.Transactions txes => Forall tx_ok txes
  | SnPart.Commitment commitment => commitment_ok commitment
  | SnPart.Fin hash => SnHash.ok hash
  end.
(** The prices fit their 128 bits. *)
Definition part_fits (part : SnPart.t) : Prop :=
  match part with
  | SnPart.BlockInfo info => info_fits info
  | SnPart.Commitment commitment => commitment_fits commitment
  | _ => True
  end.

#[global] Instance part_round_trip : RoundTrip SnPart.to_proto SnPart.from_proto (fun p => part_ok p /\ part_fits p).
Proof.
  intros part [Hok Hfits]. unfold SnPart.to_proto, SnPart.from_proto, SnPart.to_messages.
  destruct part as [[[n f] r vr who]|info|txes|c|h]; cbn in Hok, Hfits.
  - destruct Hok as [(m & -> & Hm)%non_nil_defined ->]. cbn [ProposalInit.round ProposalInit.proposer]. rewrite Hm.
    use_trip who. eexists. split; [done|]. run_decoding. by destruct vr.
  - use_trip info. eexists. split; [done|]. by run_decoding.
  - destruct (round_trip (enc := collect Transaction.to_proto) txes Hok) as (ps & -> & Hdec).
    eexists. split; [done|]. unfold TransactionBatch.from_proto. by run_decoding.
  - use_trip c. eexists. split; [done|]. by run_decoding.
  - use_trip h. eexists. split; [done|]. by run_decoding.
Qed.
#[global] Instance part_sound : Sound SnPart.from_proto part_ok.
Proof.
  intros p part H. unfold SnPart.from_proto in H. inv_ok. destruct x; inv_ok; cbn; [done|by eapply hash_sound|done| |].
  - by eapply batch_sound.
  - by eapply commitment_sound.
Qed.

(** *** Votes *)

Definition vote_ok (vote : SnVote (PK := PubKey) (Hash := SnHash.t)) : Prop :=
  Round.is_defined vote.(sn_vote_round) = true /\ target_ok vote.(sn_block_hash).
#[global] Instance vote_round_trip : RoundTrip SnVoteProto.to_proto SnVoteProto.from_proto vote_ok.
Proof.
  intros [ty [n f] r target who] [Hr Ht]. cbn in Hr, Ht. apply non_nil_defined in Hr as (m & -> & Hm).
  unfold SnVoteProto.to_proto, SnVoteProto.from_proto. cbn [sn_vote_round sn_block_hash sn_voter]. rewrite Hm. cbn [mbind outcome_bind].
  fold (target_to_proto target). use_trip target. use_trip who. eexists. split; [done|].
  cbn [Pb.vote_block_hash Pb.voter required].
  assert (forall o, match o with Some b => hash ←? hash_from_proto b; ok (NilOrVal.Val hash) | None => ok NilOrVal.Nil end
    = target_from_proto o) as -> by by intros []. run_decoding. by destruct ty.
Qed.
#[global] Instance vote_sound : Sound SnVoteProto.from_proto vote_ok.
Proof.
  intros p v H. unfold SnVoteProto.from_proto in H. inv_ok. split; [done|]. cbn.
  destruct (Pb.vote_block_hash p); inv_ok; [by eapply hash_sound|done].
Qed.

End types.

(** ** The codec *)

(** [Multihash::from_bytes] reads what [to_bytes] writes. *)
Class MultihashLaws `{MultihashLib} : Prop :=
  multihash_to_from b m : multihash_from_bytes b = Some m -> multihash_from_bytes (multihash_to_bytes m) = Some m.

Section codec_facts.
Context `{SE : StarknetEnv} {laws : StarknetEnvLaws} {SM : StarknetMessages} {MH : MultihashLib}.
#[local] Arguments and_then : simpl never.
#[local] Arguments from_bytes : simpl never.

#[global] Instance signature_round_trip : RoundTrip encode_signature decode_signature (fun s => s = test_signature).
Proof. intros s ->. eexists. by split. Qed.

#[global] Instance signed_vote_round_trip :
  RoundTrip encode_vote decode_vote (fun v => vote_ok v.(SignedMessage.message) /\ v.(SignedMessage.signature) = test_signature).
Proof.
  intros [v s] [Hv Hs]. cbn in Hv, Hs. subst s. unfold encode_vote, decode_vote. cbn [SignedMessage.message].
  destruct (vote_round_trip v Hv) as (p & -> & Hdec). exists p. split; [done|]. by rewrite Hdec.
Qed.
#[global] Instance signed_vote_sound :
  Sound decode_vote (fun v => vote_ok v.(SignedMessage.message) /\ v.(SignedMessage.signature) = test_signature).
Proof. intros p v H. unfold decode_vote in H. inv_ok. split; [by eapply vote_sound|done]. Qed.

(** *** Certificates *)

Definition round_ok (r : Round.t) : Prop := Round.is_defined r = true.

Definition commit_certificate_ok (c : CommitCertificate.t) : Prop :=
  round_ok c.(CommitCertificate.round) /\ SnHash.ok c.(CommitCertificate.value_id) /\
  Forall (fun s => s.(CommitSignature.signature) = test_signature) c.(CommitCertificate.commit_signatures).
Definition polka_certificate_ok (c : PolkaCertificate.t) : Prop :=
  round_ok c.(PolkaCertificate.round) /\ SnHash.ok c.(PolkaCertificate.value_id) /\
  Forall (fun s => s.(PolkaSignature.signature) = test_signature) c.(PolkaCertificate.polka_signatures).
Definition round_certificate_ok (c : RoundCertificate.t) : Prop :=
  round_ok c.(RoundCertificate.round) /\
  Forall (fun s => target_ok s.(RoundSignature.value_id) /\ s.(RoundSignature.signature) = test_signature)
    c.(RoundCertificate.round_signatures).

#[global] Instance commit_signature_round_trip :
  RoundTrip encode_commit_signature decode_commit_signature (fun s => s.(CommitSignature.signature) = test_signature).
Proof.
  intros [who s] Hs. cbn in Hs. subst s. unfold encode_commit_signature, decode_commit_signature.
  cbn [CommitSignature.address CommitSignature.signature].
  destruct (address_round_trip who I) as (p & -> & Hdec). eexists. split; [done|]. by run_decoding.
Qed.
#[global] Instance commit_signature_sound :
  Sound decode_commit_signature (fun s => s.(CommitSignature.signature) = test_signature).
Proof. intros p s H. unfold decode_commit_signature, decode_signature in H. by inv_ok. Qed.

#[global] Instance commit_certificate_round_trip :
  RoundTrip encode_commit_certificate decode_commit_certificate commit_certificate_ok.
Proof.
  intros [[n f] r v sigs] (Hr & Hv & Hsigs). cbn in Hr, Hv, Hsigs. apply non_nil_defined in Hr as (m & -> & Hm).
  unfold encode_commit_certificate, decode_commit_certificate.
  cbn [CommitCertificate.round CommitCertificate.value_id CommitCertificate.commit_signatures].
  rewrite Hm. cbn [mbind outcome_bind]. destruct (hash_round_trip v Hv) as (p & -> & Hp). rewrite and_then_ok.
  destruct (round_trip (enc := collect encode_commit_signature) sigs Hsigs) as (ps & -> & Hps).
  eexists. split; [done|]. by run_decoding.
Qed.
#[global] Instance commit_certificate_sound : Sound decode_commit_certificate commit_certificate_ok.
Proof.
  intros p c H. unfold decode_commit_certificate in H. inv_ok. split; [done|]. split; cbn.
  - destruct (PbSync.cc_block_hash p); inv_ok. by eapply hash_sound.
  - by eapply (collect_sound _ _ commit_signature_sound).
Qed.

#[global] Instance polka_signature_round_trip :
  RoundTrip encode_polka_signature decode_polka_signature (fun s => s.(PolkaSignature.signature) = test_signature).
Proof.
  intros [who s] Hs. cbn in Hs. subst s. unfold encode_polka_signature, decode_polka_signature.
  cbn [PolkaSignature.address PolkaSignature.signature].
  destruct (address_round_trip who I) as (p & -> & Hdec). eexists. split; [done|]. by run_decoding.
Qed.
#[global] Instance polka_signature_sound :
  Sound decode_polka_signature (fun s => s.(PolkaSignature.signature) = test_signature).
Proof. intros p s H. unfold decode_polka_signature, decode_signature in H. by inv_ok. Qed.

#[global] Instance polka_certificate_round_trip :
  RoundTrip encode_polka_certificate decode_polka_certificate polka_certificate_ok.
Proof.
  intros [[n f] r v sigs] (Hr & Hv & Hsigs). cbn in Hr, Hv, Hsigs. apply non_nil_defined in Hr as (m & -> & _).
  unfold encode_polka_certificate, decode_polka_certificate.
  cbn [PolkaCertificate.round PolkaCertificate.value_id PolkaCertificate.polka_signatures].
  destruct (hash_round_trip v Hv) as (p & -> & Hp). rewrite and_then_ok. cbn [Round.as_u32 Round.to_option expect mbind outcome_bind].
  destruct (round_trip (enc := collect encode_polka_signature) sigs Hsigs) as (ps & -> & Hps).
  eexists. split; [done|]. by run_decoding.
Qed.
#[global] Instance polka_certificate_sound : Sound decode_polka_certificate polka_certificate_ok.
Proof.
  intros p c H. unfold decode_polka_certificate in H. inv_ok. split; [done|]. split; cbn.
  - by eapply hash_sound.
  - by eapply (collect_sound _ _ polka_signature_sound).
Qed.

#[global] Instance round_signature_round_trip :
  RoundTrip encode_round_signature decode_round_signature
    (fun s => target_ok s.(RoundSignature.value_id) /\ s.(RoundSignature.signature) = test_signature).
Proof.
  intros [ty v who s] [Hv Hs]. cbn in Hv, Hs. subst s. unfold encode_round_signature, decode_round_signature.
  cbn [RoundSignature.address RoundSignature.signature RoundSignature.value_id].
  destruct (address_round_trip who I) as (p & -> & Hdec). rewrite and_then_ok.
  destruct (signature_round_trip test_signature eq_refl) as (q & -> & Hq). rewrite and_then_ok.
  destruct v as [|h]; [|destruct (hash_round_trip h Hv) as (t & -> & Ht); rewrite and_then_ok].
  - eexists. split; [done|]. run_decoding. by destruct ty.
  - eexists. split; [done|]. run_decoding. by destruct ty.
Qed.
#[global] Instance round_signature_sound :
  Sound decode_round_signature (fun s => target_ok s.(RoundSignature.value_id) /\ s.(RoundSignature.signature) = test_signature).
Proof.
  intros p s H. unfold decode_round_signature, decode_signature in H. inv_ok. split; [|done]. cbn.
  by eapply target_sound.
Qed.

#[global] Instance round_certificate_round_trip :
  RoundTrip encode_round_certificate decode_round_certificate round_certificate_ok.
Proof.
  intros [[n f] r ty sigs] (Hr & Hsigs). cbn in Hr, Hsigs. apply non_nil_defined in Hr as (m & -> & Hm).
  unfold encode_round_certificate, decode_round_certificate.
  cbn [RoundCertificate.round RoundCertificate.round_signatures]. rewrite Hm. cbn [mbind outcome_bind].
  destruct (round_trip (enc := collect encode_round_signature) sigs Hsigs) as (ps & -> & Hps).
  eexists. split; [done|]. destruct ty; by run_decoding.
Qed.
#[global] Instance round_certificate_sound : Sound decode_round_certificate round_certificate_ok.
Proof.
  intros p c H. unfold decode_round_certificate in H. inv_ok. split; [done|].
  by eapply (collect_sound _ _ round_signature_sound).
Qed.

(** *** Values, requests and responses *)

Definition proposed_value_ok (v : ProposedValue.t) : Prop :=
  round_ok v.(ProposedValue.round) /\ SnHash.ok v.(ProposedValue.value).
#[global] Instance proposed_value_sound : Sound decode_proposed_value proposed_value_ok.
Proof.
  intros p v H. unfold decode_proposed_value, from_bytes in H. inv_ok. split; [done|]. cbn. by eapply hash_sound.
Qed.
#[global] Instance synced_value_round_trip :
  RoundTrip encode_synced_value decode_synced_value (fun v => commit_certificate_ok v.(RawDecidedValue.certificate)).
Proof.
  intros [b c] Hc. cbn in Hc. unfold encode_synced_value, decode_synced_value. cbn [RawDecidedValue.certificate].
  destruct (commit_certificate_round_trip c Hc) as (p & -> & Hp). eexists. split; [done|]. by run_decoding.
Qed.
#[global] Instance synced_value_sound :
  Sound decode_synced_value (fun v => commit_certificate_ok v.(RawDecidedValue.certificate)).
Proof. intros p v H. unfold decode_synced_value in H. inv_ok. by eapply commit_certificate_sound. Qed.

Definition response_ok (r : SyncValueResponse.t) : Prop :=
  Forall (fun v => commit_certificate_ok v.(RawDecidedValue.certificate)) r.(SyncValueResponse.values).
#[global] Instance response_round_trip : RoundTrip encode_sync_response decode_sync_response response_ok.
Proof.
  intros [[n f] vs] Hvs. unfold response_ok in Hvs. cbn in Hvs. unfold encode_sync_response, decode_sync_response.
  cbn [SyncValueResponse.values]. destruct (round_trip (enc := collect encode_synced_value) vs Hvs) as (ps & -> & Hps).
  eexists. split; [done|]. by run_decoding.
Qed.
#[global] Instance response_sound : Sound decode_sync_response response_ok.
Proof.
  intros p r H. unfold decode_sync_response in H. inv_ok. destruct x; inv_ok.
  by eapply (collect_sound _ _ synced_value_sound).
Qed.

(** The ends of a requested range are of the same fork. *)
Definition request_ok (r : Request) : Prop :=
  match r with
  | Request_ValueRequest r =>
      (r.(ValueRequest.range).(RangeInclusive.start) : SnHeight.t).(SnHeight.fork_id) =
      (r.(ValueRequest.range).(RangeInclusive.end_) : SnHeight.t).(SnHeight.fork_id)
  end.
#[global] Instance request_round_trip : RoundTrip encode_sync_request decode_sync_request request_ok.
Proof. intros [[[[n f] [n' f']]]] H. cbn in H. subst f'. eexists. by split. Qed.
#[global] Instance request_sound : Sound decode_sync_request request_ok.
Proof.
  intros p r H. unfold decode_sync_request in H. inv_ok. destruct x as [[n f [e|]]]; inv_ok; done.
Qed.

(** A peer identifier that can be read back. *)
Definition peer_ok (peer : PeerId) : Prop := peer_id_from_bytes peer = Some peer.
Lemma peer_id_sound {mh_laws : MultihashLaws} b peer : peer_id_from_bytes b = Some peer -> peer_ok peer.
Proof.
  unfold peer_ok, peer_id_from_bytes. destruct (multihash_from_bytes b) as [m|] eqn:Hm; [|done]. cbn. intros Hp.
  assert (peer = multihash_to_bytes m) as ->.
  { unfold peer_id_from_multihash in Hp. by repeat case_match; simplify_eq. }
  by rewrite (multihash_to_from _ _ Hm).
Qed.
#[global] Instance status_round_trip :
  RoundTrip encode_sync_status decode_sync_status (fun s => peer_ok s.(Status.peer_id)).
Proof.
  intros [peer [n f] [n' f']] Hp. cbn in Hp. eexists. split; [done|]. unfold decode_sync_status, decode_peer_id.
  run_decoding. by rewrite Hp.
Qed.
#[global] Instance status_sound {mh_laws : MultihashLaws} :
  Sound decode_sync_status (fun s => peer_ok s.(Status.peer_id)).
Proof.
  intros p s H. unfold decode_sync_status, decode_peer_id in H. inv_ok. cbn.
  destruct (peer_id_from_bytes (Pb.peer_id x)) eqn:Hp; inv_ok. by eapply peer_id_sound.
Qed.

(** *** Through the wire *)

Lemma sn_codec_trip {T} (d : bytes -> presult T) (e : T -> presult bytes) x b :
  e x = ok b -> d b = ok x -> @encode T (sn_codec d e) x = Ret (Some b) /\ @decode T (sn_codec d e) b = Ret (Some x).
Proof. cbn. by intros -> ->. Qed.
Lemma sn_codec_round_trip {T P} `{Message P} (enc : T -> presult P) (dec : P -> presult T) p x :
  enc x = ok p -> dec p = ok x -> wire_roundtrips p ->
  exists b, @encode T (sn_codec (decode_with dec) (encode_with enc)) x = Ret (Some b) /\
            @decode T (sn_codec (decode_with dec) (encode_with enc)) b = Ret (Some x).
Proof.
  intros He Hd Hw. exists (encode_to_vec p). apply sn_codec_trip; unfold encode_with, decode_with.
  - by rewrite He.
  - rewrite Hw. cbn [decoded]. by rewrite and_then_ok.
Qed.

Lemma to_from_bytes {T P} `{Message P, Protobuf T P} p (x : T) :
  to_proto x = ok p -> from_proto p = ok x -> wire_roundtrips p ->
  to_bytes x = ok (encode_to_vec p) /\ from_bytes (encode_to_vec p) = ok x.
Proof.
  intros He Hd Hw. unfold to_bytes, from_bytes. rewrite He, Hw, and_then_ok. split; [done|].
  cbn [decoded]. by rewrite and_then_ok.
Qed.

Lemma decoded_inv {P} (o : option P) p : decoded o = ok p -> o = Some p.
Proof. destruct o; cbn; unfold ok, err; congruence. Qed.
Lemma sn_decode_inv {T} (d : bytes -> presult T) (e : T -> presult bytes) b x :
  @decode T (sn_codec d e) b = Ret (Some x) -> d b = ok x.
Proof. cbn. intros H. inv_ret. destruct x0; [done|]. by simplify_eq. Qed.

(** The messages that the codec can carry: consensus sends votes only. *)
Definition liveness_ok (m : LivenessMsg.t) : Prop :=
  match m with
  | LivenessMsg.Vote v => vote_ok v.(SignedMessage.message) /\ v.(SignedMessage.signature) = test_signature
  | LivenessMsg.PolkaCertificate c => polka_certificate_ok c
  | LivenessMsg.SkipRoundCertificate c => round_certificate_ok c
  end.
Definition consensus_ok (m : SignedConsensusMsg.t) : Prop :=
  match m with
  | SignedConsensusMsg.Vote v => vote_ok v.(SignedMessage.message) /\ v.(SignedMessage.signature) = test_signature
  | SignedConsensusMsg.Proposal _ => False
  end.
Definition content_ok (c : StreamContent.t SnPart.t) : Prop :=
  match c with StreamContent.Data part => part_ok part | StreamContent.Fin => True end.
Definition content_fits (c : StreamContent.t SnPart.t) : Prop :=
  match c with StreamContent.Data part => part_fits part | StreamContent.Fin => True end.

(** The wire format reads back the protobuf messages that [msg] becomes. *)
Definition wire_ok (from : PeerId) (msg : NetworkMsg.t) : Prop :=
  match msg with
  | NetworkMsg.PublishConsensusMsg m => forall p, encode_consensus_message m = ok p -> wire_roundtrips p
  | NetworkMsg.PublishLivenessMsg m => forall p, liveness_to_proto m = ok p -> wire_roundtrips (PbSync.mk_liveness (Some p))
  | NetworkMsg.PublishProposalPart m =>
      (forall part p, m.(StreamMessage.content) = StreamContent.Data part -> SnPart.to_proto part = ok p -> wire_roundtrips p) /\
      forall c, wire_roundtrips (Pb.mk_stream_message c m.(StreamMessage.stream_id) m.(StreamMessage.sequence))
  | NetworkMsg.BroadcastStatus s => forall p, encode_sync_status (Status.mk from s.(LocalStatus.tip_height) s.(LocalStatus.history_min_height)) = ok p -> wire_roundtrips p
  | _ => True
  end.
Definition message_ok (from : PeerId) (msg : NetworkMsg.t) : Prop :=
  match msg with
  | NetworkMsg.PublishConsensusMsg m => consensus_ok m
  | NetworkMsg.PublishLivenessMsg m => liveness_ok m
  | NetworkMsg.PublishProposalPart m => content_ok m.(StreamMessage.content) /\ content_fits m.(StreamMessage.content)
  | NetworkMsg.BroadcastStatus _ => peer_ok from
  | _ => True
  end.

Lemma liveness_round_trip (m : LivenessMsg.t) :
  liveness_ok m -> (forall p, liveness_to_proto m = ok p -> wire_roundtrips (PbSync.mk_liveness (Some p))) ->
  exists b, encode_liveness m = ok b /\ decode_liveness b = ok m.
Proof.
  unfold encode_liveness, decode_liveness, liveness_to_proto. destruct m as [v|c|c]; cbn [liveness_ok]; intros Hok Hw.
  1: destruct (signed_vote_round_trip v Hok) as (p & Hp & Hd).
  2: destruct (polka_certificate_round_trip c Hok) as (p & Hp & Hd).
  3: destruct (round_certificate_round_trip c Hok) as (p & Hp & Hd).
  all: rewrite Hp in Hw |- *; rewrite and_then_ok in Hw; specialize (Hw _ eq_refl); eexists; split; [done|];
    rewrite Hw; cbn [decoded]; rewrite and_then_ok; cbn [PbSync.liveness_message]; by rewrite Hd.
Qed.

Lemma stream_message_round_trip (m : StreamMessage.t SnPart.t) :
  content_ok m.(StreamMessage.content) -> content_fits m.(StreamMessage.content) ->
  (forall part p, m.(StreamMessage.content) = StreamContent.Data part -> SnPart.to_proto part = ok p -> wire_roundtrips p) ->
  (forall c, wire_roundtrips (Pb.mk_stream_message c m.(StreamMessage.stream_id) m.(StreamMessage.sequence))) ->
  exists b, encode_stream_message m = ok b /\ decode_stream_message b = ok m.
Proof.
  destruct m as [id seq [part|]]; cbn [StreamMessage.content StreamMessage.stream_id StreamMessage.sequence content_ok content_fits];
    intros Hok Hfits Hw Hs; unfold encode_stream_message, decode_stream_message; cbn [StreamMessage.content].
  - destruct (part_round_trip part (conj Hok Hfits)) as (p & Hp & Hd).
    destruct (to_from_bytes (T := SnPart.t) p part) as [He Hr]; [done|done|by eapply Hw|].
    rewrite He, !and_then_ok. eexists. split; [done|]. unfold from_bytes at 1. rewrite Hs.
    cbn [decoded from_proto stream_message_protobuf]. unfold SnStreamMessage.from_proto. by run_decoding.
  - eexists. split; [done|]. unfold from_bytes at 1. rewrite Hs.
    cbn [decoded from_proto stream_message_protobuf]. unfold SnStreamMessage.from_proto. by run_decoding.
Qed.

Lemma message_ok_transmissible (from : PeerId) (msg : NetworkMsg.t) :
  message_ok from msg -> wire_ok from msg -> transmissible from msg.
Proof.
  destruct msg as [|m|m|m|s| | | | |]; cbn [message_ok wire_ok transmissible]; try done; intros Hok Hw.
  - destruct m as [v|]; [|done]. destruct (signed_vote_round_trip v Hok) as (p & Hp & Hd).
    eapply (sn_codec_round_trip _ _ p); [done| |by apply Hw]. unfold decode_consensus_message. by rewrite Hd.
  - destruct (liveness_round_trip m Hok Hw) as (b & He & Hd). exists b. by apply sn_codec_trip.
  - destruct Hok as [Hok Hfits], Hw as [Hw Hs]. destruct (stream_message_round_trip m Hok Hfits Hw Hs) as (b & He & Hd).
    exists b. by apply sn_codec_trip.
  - set (st := Status.mk _ _ _) in *. destruct (status_round_trip st Hok) as (p & Hp & Hd).
    eapply (sn_codec_round_trip _ _ p); [done|done|by apply Hw].
Qed.

(** C22: Votes signed by the provider of the context, with a round and a hash of 32
    bytes, polka and round certificates made of such votes, well-formed proposal
    parts and statuses of a well-formed peer, which a Starknet node publishes,
    reach the subscribers of the network actor of another node that has started
    before, as exactly one event each, equal to what was sent. The two nodes use
    the same publish protocol and channel names and have consensus and sync
    enabled, all calls to the swarm succeed, the transport delivers what is
    published on a topic once to a node that has subscribed to it, and the wire
    format gives back what it encodes. *)
Theorem starknet_message_delivered {Tr : Transport} {tr_laws : TransportLaws} (display : P2pRequestId -> string)
    config net self config' net' self' msg event :
  names_distinct config.(NetworkConfig.channel_names) ->
  config'.(NetworkConfig.channel_names) = config.(NetworkConfig.channel_names) ->
  config.(NetworkConfig.enable_consensus) = true -> config.(NetworkConfig.enable_sync) = true ->
  net.(NetworkState.behaviour) = Behaviour.new config ->
  config'.(NetworkConfig.pubsub_protocol) = config.(NetworkConfig.pubsub_protocol) ->
  config'.(NetworkConfig.enable_consensus) = true -> config'.(NetworkConfig.enable_sync) = true ->
  published_event self.(RunningState.peer_id) msg = Some event ->
  message_ok self.(RunningState.peer_id) msg -> wire_ok self.(RunningState.peer_id) msg ->
  deliver display config net self config' net' self' msg = [event].
Proof. intros. apply deliver_transmissible; try done. by apply message_ok_transmissible. Qed.

(** *** What is accepted is well-formed *)

(** The message of an event. *)
Definition event_ok (event : NetworkEvent.t) : Prop :=
  match event with
  | NetworkEvent.Vote _ v => vote_ok v.(SignedMessage.message) /\ v.(SignedMessage.signature) = test_signature
  | NetworkEvent.Proposal _ _ => False
  | NetworkEvent.ProposalPart _ part => content_ok part.(StreamMessage.content)
  | NetworkEvent.PolkaCertificate _ c => polka_certificate_ok c
  | NetworkEvent.RoundCertificate _ c => round_certificate_ok c
  | NetworkEvent.Status peer _ => peer_ok peer
  | NetworkEvent.SyncRequest _ _ request => request_ok request
  | NetworkEvent.SyncResponse _ _ (Some response) => response_ok response
  | _ => True
  end.

Lemma decode_with_sound {T P} `{Message P} (dec : P -> presult T) wf {S : Sound dec wf} b x :
  decode_with dec b = ok x -> wf x.
Proof. unfold decode_with. intros Hd. inv_ok. by eapply sound. Qed.

Lemma from_bytes_sound {T P} `{Message P, PB : Protobuf T P} wf (S : Sound from_proto wf) b (x : T) :
  from_bytes b = ok x -> wf x.
Proof. unfold from_bytes. intros Hx. inv_ok. by eapply sound. Qed.

Lemma decode_liveness_ok b m : decode_liveness b = ok m -> liveness_ok m.
Proof.
  unfold decode_liveness. intros H. inv_ok. destruct (PbSync.liveness_message x) as [[]|]; inv_ok; cbn.
  - by eapply signed_vote_sound.
  - by eapply polka_certificate_sound.
  - by eapply round_certificate_sound.
Qed.
Lemma decode_stream_ok b (m : StreamMessage.t SnPart.t) : decode_stream_message b = ok m -> content_ok m.(StreamMessage.content).
Proof.
  unfold decode_stream_message. intros H. inv_ok. cbn. destruct (SnStreamMessage.message x) in *; inv_ok; cbn; [|done].
  by eapply (from_bytes_sound (PB := part_protobuf) part_ok part_sound).
Qed.
Lemma decode_consensus_ok b m : decode_with decode_consensus_message b = ok m -> consensus_ok m.
Proof. unfold decode_with, decode_consensus_message. intros H. inv_ok. by eapply signed_vote_sound. Qed.

Section accepted.
Context {mh_laws : MultihashLaws} (display : P2pRequestId -> string).

Definition call_ok (_ : trace NetworkCall.t NetworkReply.t) (c : NetworkCall.t) : Prop :=
  match c with NetworkCall.OutputPort e | NetworkCall.SubscriberSend e => event_ok e | _ => True end.
Abbreviation accepts := (wp (Res := NetworkReply.t) True call_ok (fun _ _ _ => True)).

Lemma cast_ok c s (Q : _ -> NetworkActor.State * (string + unit) -> Prop) t : call_ok t c -> (forall t', Q t' (s, inr tt)) -> accepts (NetworkActor.cast c s) Q t.
Proof. intros Hc HQ. unfold NetworkActor.cast. wp_step. apply wp_yield; [done|]. intros r _. by apply wp_ret. Qed.

Lemma with_decoded_ok {T} (d : bytes -> presult T) (e : T -> presult bytes) b (k : T -> handler NetworkCall.t NetworkReply.t NetworkActor.State string unit) s Q t :
  (forall x, d b = ok x -> accepts (k x s) Q t) -> Q t (s, inr tt) ->
  accepts (@NetworkActor.with_decoded _ _ T (sn_codec d e) b k s) Q t.
Proof.
  intros Hk HQ. unfold NetworkActor.with_decoded. wp_step. apply wp_lift. intros o Ho. cbn [fst snd].
  destruct o as [x|]; [|by apply wp_ret]. apply Hk. by eapply sn_decode_inv.
Qed.

Lemma new_event_ok self e s t : accepts (NetworkActor.new_event display self e s) (fun _ _ => True) t.
Proof.
  destruct e as [addr|peer|peer|chan from b|chan from b|[id peer b|id peer b]]; cbn [NetworkActor.new_event];
    try (wp_step; wp_step; by apply cast_ok).
  - destruct chan; try by apply wp_ret.
    + apply with_decoded_ok; [|done]. intros m Hm%decode_consensus_ok. apply cast_ok; [|done]. by destruct m.
    + apply with_decoded_ok; [|done]. intros m Hm. apply cast_ok; [|done]. by eapply decode_stream_ok.
    + apply with_decoded_ok; [|done]. intros m Hm%(decode_with_sound _ _). wp_step; [|by apply wp_ret]. by apply cast_ok.
  - destruct chan; try by apply wp_ret. apply with_decoded_ok; [|done]. intros m Hm%decode_liveness_ok.
    apply cast_ok; [|done]. by destruct m.
  - apply with_decoded_ok; [|done]. intros m Hm%(decode_with_sound _ _). wp_step. wp_step. by apply cast_ok.
  - wp_step. apply wp_lift. intros o Ho. cbn [fst snd]. apply cast_ok; [|done]. destruct o as [m|]; [|done].
    apply sn_decode_inv in Ho. by apply (decode_with_sound decode_sync_response response_ok b).
Qed.

(** C23: Whatever bytes a peer sends, and however the calls of the actor are
    answered, the events that the network actor of a Starknet node reports carry
    well-formed messages: votes and certificates with a round, hashes of 32 bytes
    and the signature of the provider, never a proposal; proposal parts with
    well-formed headers and hashes; ranges within one fork; statuses of peers
    whose identifier can be read back. *)
Theorem reported_messages_well_formed self e t m' event r :
  steps (NetworkActor.handle display (NetworkMsg.NewEvent e) (NetworkActor.Running self)) t m' ->
  (NetworkCall.OutputPort event, r) ∈ t -> event_ok event.
Proof.
  intros Hs (t1 & t2 & ->)%list_elem_of_split.
  eapply (wp_trace_allowed True call_ok (fun _ _ _ => True) _ _ (fun _ _ => True) [] _ t1 (NetworkCall.OutputPort event));
    [|exact Hs| |done].
  - unfold NetworkActor.handle. wp_step. wp_step. apply new_event_ok.
  - apply answered_any.
Qed.

(** 32 bytes that are not a public key. *)
Definition not_a_key (a : bytes) : Prop := length a = 32 /\ key_try_from a = None.

(** C38: A vote for nil whose voter is 32 bytes that are not a public key stops the network
    actor of any node that receives it: decoding the address panics. *)
Theorem malformed_voter_panics self from b vote a :
  wire_decode b = Some vote -> vote.(Pb.vote_block_hash) = None ->
  vote.(Pb.voter) = Some (Pb.mk_address a) -> not_a_key a ->
  exists why, NetworkActor.handle display (NetworkMsg.NewEvent (Event.ConsensusMessage Channel.Consensus from b))
    (NetworkActor.Running self) = Panicked why.
Proof.
  intros Hb Ht Hv [Hl Hk]. eexists. unfold NetworkActor.handle.
  cbn -[decode]. unfold NetworkActor.with_decoded, lift. cbn. unfold decode_with. rewrite Hb. cbn [decoded].
  rewrite and_then_ok. unfold decode_consensus_message, decode_vote, SnVoteProto.from_proto.
  rewrite Ht, and_then_ok, Hv. cbn [required]. rewrite and_then_ok. unfold address_from_proto, public_key_from_bytes.
  cbn [Pb.address_elements]. rewrite Hl, Hk. reflexivity.
Qed.

End accepted.

End codec_facts.
