(* ===== verification/StarknetStores.v ===== *)
(** * Starknet: the stores

    The store of proposal parts (app/src/part_store.rs) and the block store
    (starknet/host/src/block_store.rs, block_store/keys.rs). The database (redb)
    keeps ordered tables, whose keys are compared as redb compares the tuples they
    are written as; its failures are effects of the host (StarknetHost.v). *)

From S2P Require Import Prelude Types Bytes Context Starknet BTree ConsensusTypes FullProposal Streaming EngineNetwork StarknetTypes StarknetCodec.

(** ** Order of keys *)

#[global] Instance bytes_key_order : KeyOrder bytes := SnHash.bytes_ltb.
#[global] Instance hash_key_order : KeyOrder SnHash.t := SnHash.ltb.
#[global] Instance Z_key_order : KeyOrder Z := Z.ltb.

#[global] Instance Z_key_order_laws : KeyOrderLaws Z.
Proof.
  split; unfold key_ltb, Z_key_order.
  - apply Z.ltb_irrefl.
  - intros a b c. rewrite !Z.ltb_lt. lia.
  - intros a b. rewrite !Z.ltb_lt. lia.
Qed.

Lemma to_N_inj (x y : Byte.byte) : Byte.to_N x = Byte.to_N y -> x = y.
Proof. intros H. assert (Some x = Some y) as [= ->]; [|done]. by rewrite <- !Byte.of_to_N, H. Qed.

#[global] Instance bytes_key_order_laws : KeyOrderLaws bytes.
Proof.
  split; unfold key_ltb, bytes_key_order.
  - intros k. induction k as [|x k IH]; [done|]. cbn. by rewrite N.ltb_irrefl, N.eqb_refl, IH.
  - intros a. induction a as [|x a IH]; intros [|y b] [|z c]; cbn; try done.
    rewrite !orb_true_iff, !andb_true_iff, !N.ltb_lt, !N.eqb_eq.
    intros [H|[H H0]] [H'|[H' H0']]; [left; lia|left; lia|left; lia|]. right. split; [lia|by eapply IH].
  - intros a. induction a as [|x a IH]; intros [|y b]; cbn; auto.
    rewrite !orb_true_iff, !andb_true_iff, !N.ltb_lt, !N.eqb_eq.
    destruct (N.lt_trichotomy (Byte.to_N x) (Byte.to_N y)) as [?|[Hxy|?]]; [by auto| |by auto].
    destruct (IH b) as [?|[->|?]]; [by auto| |by auto]. apply to_N_inj in Hxy as ->. auto.
Qed.
#[global] Instance hash_key_order_laws : KeyOrderLaws SnHash.t.
Proof.
  split; unfold key_ltb, hash_key_order, SnHash.ltb.
  - intros k. apply (key_ltb_irrefl (K := bytes)).
  - intros a b c. apply (key_ltb_trans (K := bytes)).
  - intros [a] [b]. destruct (key_ltb_total a b) as [?|[->|?]]; auto.
Qed.

(** ** The store of proposal parts (app/src/part_store.rs) *)

Module PartStore.

Module Entry.
Record t {Ctx : Context} {Part : ProposalPartType} : Type := mk { value_id : option ValueId; parts : list ProposalPart }.
Arguments mk {Ctx Part} value_id parts.
Definition default {Ctx : Context} {Part : ProposalPartType} : t := mk None [].
End Entry.

Section store.
Context {Ctx : Context} {Part : ProposalPartType}.

Definition Key : Type := (StreamId * (Height * Round.t))%type.
#[global] Instance Key_eq_dec : EqDecision Key.
Proof. unfold Key. apply _. Defined.
#[global] Instance Key_order : KeyOrder Key := prod_key_order (A := StreamId) (B := Height * Round.t).

Definition key (stream_id : StreamId) (height : Height) (round : Round.t) : Key := (stream_id, (height, round)).

Definition t : Type := BTreeMap.t Key Entry.t.
Implicit Types (self : t) (stream_id : StreamId) (height : Height) (round : Round.t).

Definition new : t := [].

Definition all_parts_by_stream_id self stream_id height round : list ProposalPart :=
  from_option Entry.parts [] (BTreeMap.get (key stream_id height round) self).

(** The first entry with this value, in the order of the keys. *)
Definition all_parts_by_value_id self (value_id : ValueId) : list ProposalPart :=
  from_option Entry.parts []
    (List.find (fun entry => bool_decide (entry.(Entry.value_id) = Some value_id)) (List.map snd self)).

(** [entry(key).or_default()]. *)
Definition entry self stream_id height round : Entry.t :=
  default Entry.default (BTreeMap.get (key stream_id height round) self).

Definition store self stream_id height round (proposal_part : ProposalPart) : t :=
  let existing := entry self stream_id height round in
  BTreeMap.insert (key stream_id height round)
    (Entry.mk existing.(Entry.value_id) (existing.(Entry.parts) ++ [proposal_part])) self.

Definition store_value_id self stream_id height round (value_id : ValueId) : t :=
  let existing := entry self stream_id height round in
  BTreeMap.insert (key stream_id height round) (Entry.mk (Some value_id) existing.(Entry.parts)) self.

Definition prune self (min_height : Height) : t :=
  BTreeMap.retain (fun k _ => negb (Height_ltb k.2.1 min_height)) self.

Definition blocks_count self : nat := length self.

(** *** Facts *)

Section facts.
Context {order : KeyOrderLaws Height}.

Lemma get_store self sid h r part :
  BTreeMap.get (key sid h r) (store self sid h r part) =
    Some (Entry.mk (entry self sid h r).(Entry.value_id) ((entry self sid h r).(Entry.parts) ++ [part])).
Proof. unfold store. apply BTreeMap.get_insert. Qed.

Lemma parts_store self sid h r part :
  all_parts_by_stream_id (store self sid h r part) sid h r = all_parts_by_stream_id self sid h r ++ [part].
Proof.
  unfold all_parts_by_stream_id. rewrite get_store. unfold entry. cbn. by destruct (BTreeMap.get (key sid h r) self) as [[]|].
Qed.

Lemma parts_store_value_id self sid h r v :
  all_parts_by_stream_id (store_value_id self sid h r v) sid h r = all_parts_by_stream_id self sid h r.
Proof.
  unfold all_parts_by_stream_id, store_value_id. rewrite BTreeMap.get_insert. unfold entry. cbn.
  by destruct (BTreeMap.get (key sid h r) self) as [[]|].
Qed.

(** An entry that has the value and is the only one that has it is found. *)
Lemma parts_by_value_id self v parts :
  (forall k e, (k, e) ∈ self -> e.(Entry.value_id) = Some v -> e.(Entry.parts) = parts) ->
  (exists k e, (k, e) ∈ self /\ e.(Entry.value_id) = Some v) ->
  all_parts_by_value_id self v = parts.
Proof.
  intros Hall (k & e & Hin & He). unfold all_parts_by_value_id. revert Hall Hin.
  induction self as [|[k1 e1] self IH]; intros Hall Hin; [by apply not_elem_of_nil in Hin|]. cbn.
  case_bool_decide as H1; cbn.
  - eapply Hall; [apply list_elem_of_here|done].
  - apply IH; [intros k2 e2 H2; apply (Hall k2); by apply list_elem_of_further|].
    apply elem_of_cons in Hin as [[= <- <-]|Hin]; [done|done].
Qed.

Lemma prune_keeps self sid h r m : Height_ltb h m = false ->
  BTreeMap.get (key sid h r) (prune self m) = BTreeMap.get (key sid h r) self.
Proof.
  intros Hm. unfold prune.
  rewrite (BTreeMap.get_retain_key (fun k : Key => negb (Height_ltb k.2.1 m))). cbn. by rewrite Hm.
Qed.
End facts.
End store.
Arguments t {Ctx Part}.
End PartStore.

(** ** The block store (block_store.rs) *)

Module DecidedBlock.
Record t `{StarknetEnv} : Type := mk { block : SnBlock.t; certificate : CommitCertificate.t }.
Arguments mk {_} block certificate.
End DecidedBlock.

(** The keys as redb writes them (keys.rs): a height is the pair of its fork and
    its number, a round an [i64]. *)
Definition HeightKey : Type := (N * N)%type.
Definition UndecidedValueKey : Type := (HeightKey * (Z * SnHash.t))%type.

Definition height_as_bytes (value : SnHeight.t) : HeightKey := (value.(SnHeight.fork_id), value.(SnHeight.block_number)).
Definition height_from_bytes (data : HeightKey) : SnHeight.t := SnHeight.new data.2 data.1.
Definition value_key (height : SnHeight.t) (round : Round.t) (hash : SnHash.t) : UndecidedValueKey :=
  (height_as_bytes height, (Round.as_i64 round, hash)).
Definition value_key_value (data : UndecidedValueKey) : outcome (SnHeight.t * Round.t * SnHash.t) :=
  round ← Round.from_i64 data.2.1; Ret (height_from_bytes data.1, round, data.2.2).

#[global] Instance HeightKey_eq_dec : EqDecision HeightKey.
Proof. unfold HeightKey. apply _. Defined.
#[global] Instance HeightKey_order : KeyOrder HeightKey := prod_key_order.
#[global] Instance UndecidedValueKey_eq_dec : EqDecision UndecidedValueKey.
Proof. unfold UndecidedValueKey. apply _. Defined.
#[global] Instance UndecidedValueKey_order : KeyOrder UndecidedValueKey := prod_key_order (A := HeightKey) (B := Z * SnHash.t).

Module BlockDb.
Record t : Type := mk {
  certificates : BTreeMap.t HeightKey bytes;
  decided_blocks : BTreeMap.t HeightKey bytes;
  undecided_values : BTreeMap.t UndecidedValueKey bytes;
  pending_values : BTreeMap.t UndecidedValueKey bytes;
}.

(** [create_tables]. *)
Definition empty : t := mk [] [] [] [].

Section db.
Context `{StarknetEnv, StarknetMessages, MultihashLib}.
Implicit Types (self : t) (height : SnHeight.t) (round : Round.t) (value : ProposedValue.t).

Definition decode_certificate (b : bytes) : presult CommitCertificate.t :=
  proto ←? decoded (wire_decode b); decode_commit_certificate proto.
Definition encode_certificate (certificate : CommitCertificate.t) : presult bytes :=
  proto ←? encode_commit_certificate certificate; ok (encode_to_vec proto).

(** [value.and_then(|value| decode(value).ok())]. *)
Definition stored {A} (decode : bytes -> presult A) (value : option bytes) : outcome (option A) :=
  match value with
  | Some b => r ← decode b; Ret (match r with inr a => Some a | inl _ => None end)
  | None => Ret None
  end.

Definition get_decided_block self height : presult (option DecidedBlock.t) :=
  block ← stored (from_bytes (T := SnBlock.t)) (BTreeMap.get (height_as_bytes height) self.(decided_blocks));
  certificate ← stored decode_certificate (BTreeMap.get (height_as_bytes height) self.(certificates));
  ok (match block, certificate with
      | Some block, Some certificate => Some (DecidedBlock.mk block certificate)
      | _, _ => None
      end).

Definition insert_decided_block self (decided_block : DecidedBlock.t) : presult t :=
  let block := decided_block.(DecidedBlock.block) in
  let key := height_as_bytes block.(SnBlock.height) in
  block_bytes ←? to_bytes (T := SnBlock.t) block;
  certificate_bytes ←? encode_certificate decided_block.(DecidedBlock.certificate);
  ok (mk (BTreeMap.insert key certificate_bytes self.(certificates))
         (BTreeMap.insert key block_bytes self.(decided_blocks)) self.(undecided_values) self.(pending_values)).

(** The keys in a half-open range. *)
Fixpoint values_range (table : BTreeMap.t UndecidedValueKey bytes) (from to : UndecidedValueKey)
    : outcome (list (SnHeight.t * Round.t * SnHash.t)) :=
  match table with
  | [] => Ret []
  | (key, _) :: table =>
      if negb (key_ltb key from) && key_ltb key to then
        k ← value_key_value key; ks ← values_range table from to; Ret (k :: ks)
      else values_range table from to
  end.

Definition hash_min : SnHash.t := SnHash.new (replicate 32 Byte.x00).
Definition hash_max : SnHash.t := SnHash.new (replicate 32 Byte.xff).

(** The values of the keys; those that cannot be decoded are skipped. *)
Fixpoint collect_values (table : BTreeMap.t UndecidedValueKey bytes) (keys : list (SnHeight.t * Round.t * SnHash.t))
    : outcome (list ProposedValue.t) :=
  match keys with
  | [] => Ret []
  | (height, round, hash) :: keys =>
      value ← stored (decode_with decode_proposed_value) (BTreeMap.get (value_key height round hash) table);
      values ← collect_values table keys;
      Ret (match value with Some value => value :: values | None => values end)
  end.

Definition get_values (table : BTreeMap.t UndecidedValueKey bytes) height round : presult (list ProposedValue.t) :=
  keys ← values_range table (value_key height round hash_min) (value_key height round hash_max);
  values ← collect_values table keys;
  ok values.
Definition get_undecided_values self height round : presult (list ProposedValue.t) :=
  get_values self.(undecided_values) height round.
Definition get_pending_values self height round : presult (list ProposedValue.t) :=
  get_values self.(pending_values) height round.

Definition proposed_key value : UndecidedValueKey :=
  value_key value.(ProposedValue.height) value.(ProposedValue.round) value.(ProposedValue.value).

Definition insert_undecided_value self value : presult t :=
  b ←? encode_with encode_proposed_value value;
  ok (mk self.(certificates) self.(decided_blocks) (BTreeMap.insert (proposed_key value) b self.(undecided_values))
         self.(pending_values)).
Definition insert_pending_value self value : presult t :=
  b ←? encode_with encode_proposed_value value;
  ok (mk self.(certificates) self.(decided_blocks) self.(undecided_values)
         (BTreeMap.insert (proposed_key value) b self.(pending_values))).
Definition remove_pending_value self value : presult t :=
  ok (mk self.(certificates) self.(decided_blocks) self.(undecided_values)
         (BTreeMap.remove (proposed_key value) self.(pending_values))).

(** Everything below [retain_height] goes; the heights of the blocks that go are
    returned. *)
Definition prune self (retain_height : SnHeight.t) : presult (t * list SnHeight.t) :=
  let value_limit := value_key retain_height Round.Nil hash_min in
  let height_limit := height_as_bytes retain_height in
  let keys := List.filter (fun k => key_ltb k height_limit) (List.map fst self.(decided_blocks)) in
  let keep {V} (table : BTreeMap.t HeightKey V) := foldl (fun table k => BTreeMap.remove k table) table keys in
  ok (mk (keep self.(certificates)) (keep self.(decided_blocks))
         (BTreeMap.retain (fun k _ => negb (key_ltb k value_limit)) self.(undecided_values))
         (BTreeMap.retain (fun k _ => negb (key_ltb k value_limit)) self.(pending_values)),
      List.map height_from_bytes keys).

Definition first_key self : option SnHeight.t := (fun kv => height_from_bytes kv.1) <$> head self.(decided_blocks).
Definition last_key self : option SnHeight.t :=
  (fun kv => height_from_bytes kv.1) <$> BTreeMap.last_key_value self.(decided_blocks).

(** What [store_decided_block] inserts. *)
Definition decided_block (certificate : CommitCertificate.t) (txes : list Transaction.t) : DecidedBlock.t :=
  DecidedBlock.mk (SnBlock.mk certificate.(CommitCertificate.height) txes certificate.(CommitCertificate.value_id))
    certificate.

End db.
End BlockDb.
