(* ===== verification/StarknetMempool.v ===== *)
(** * Starknet: the mempool

    starknet/host/src: the mempool actor (mempool.rs), the actor of its network
    (mempool/network.rs) and the generator of load (mempool_load.rs, with the
    configuration of config/src/lib.rs). The random numbers, the calls of the
    other actors and the replies are effects. *)

From S2P Require Import Prelude Types Bytes Context Starknet BTree Coroutine ConsensusTypes Scoring Streaming Network EngineNetwork StarknetTypes StarknetCodec StarknetStores.

(** ** Messages of the network of the mempool (test/mempool/src) *)

Module MempoolTransactionBatch.
Record t : Type := new { transaction_batch : Any.t }.
End MempoolTransactionBatch.

Module MempoolEvent.
Inductive t : Type :=
  | Listening (address : Multiaddr)
  | PeerConnected (peer_id : PeerId)
  | PeerDisconnected (peer_id : PeerId)
  | Message (from : PeerId) (batch : MempoolTransactionBatch.t).
End MempoolEvent.

(** ** The mempool (mempool.rs) *)

Module Mempool.

Record Params : Type := mk_params { gossip_batch_size : N; max_tx_count : N }.

Inductive Msg : Type :=
  | NetworkEvent (event : MempoolEvent.t)
  | AddBatch (batch : TransactionBatch.t)
  | Reap (height : N) (num_txes : N)
  | Update (tx_hashes : list SnHash.t).

Definition State : Type := BTreeMap.t SnHash.t Transaction.t.
Definition new : State := [].

Inductive Call : Type :=
  | BroadcastMsg (batch : MempoolTransactionBatch.t)
  | ReplyTransactions (txes : list Transaction.t).

Section mempool.
Context `{StarknetEnv, StarknetMessages}.
Abbreviation MM := (handler Call bool State string).

(** [entry(tx.hash()).or_insert(tx)]. *)
Definition add_tx (self : State) (tx : Transaction.t) : State :=
  match BTreeMap.get tx.(Transaction.hash) self with
  | Some _ => self
  | None => BTreeMap.insert tx.(Transaction.hash) tx self
  end.
Definition remove_tx (self : State) (hash : SnHash.t) : State := BTreeMap.remove hash self.

Definition len (self : State) : N := N.of_nat (length self).

Fixpoint add_batch (params : Params) (batch : TransactionBatch.t) (state : State) : State :=
  match batch with
  | [] => state
  | tx :: batch =>
      if (len state <? params.(max_tx_count))%N then add_batch params batch (add_tx state tx) else state
  end.

(** [chunks(n)], for [n > 0]. *)
Fixpoint chunks_from {A} (n room : nat) (chunk : list A) (l : list A) : list (list A) :=
  match l with
  | [] => match chunk with [] => [] | _ => [chunk] end
  | x :: l =>
      match room with
      | 0 => chunk :: chunks_from n (n - 1) [x] l
      | S room => chunks_from n room (chunk ++ [x]) l
      end
  end.
Definition chunks {A} (n : nat) (l : list A) : list (list A) := chunks_from n n [] l.

Definition cast (c : Call) : MM unit := r ← yield_ c; if (r : bool) then mret tt else fail "Messaging failed".

Fixpoint gossip_chunks (batches : list TransactionBatch.t) : MM unit :=
  match batches with
  | [] => mret tt
  | batch :: batches =>
      any ← lift (to_any (T := TransactionBatch.t) batch);
      tx_batch ← lift (expect (match any with inr any => Some any | inl _ => None end)
                         "called `Result::unwrap()` on an `Err` value");
      _ ← cast (BroadcastMsg (MempoolTransactionBatch.new tx_batch));
      gossip_chunks batches
  end.
Definition gossip_batch (params : Params) (batch : TransactionBatch.t) : MM unit :=
  _ ← assert_m (0 <? params.(gossip_batch_size))%N "Gossip must be enabled";
  gossip_chunks (chunks (N.to_nat params.(gossip_batch_size)) batch).
Definition gossip_enabled (params : Params) : bool := (0 <? params.(gossip_batch_size))%N.

Definition handle_network_msg (params : Params) (batch : MempoolTransactionBatch.t) : MM unit :=
  batch ← lift (from_any (T := TransactionBatch.t) batch.(MempoolTransactionBatch.transaction_batch));
  match batch with
  | inr batch => state ← get_state; put_state (add_batch params batch state)
  | inl _ => mret tt
  end.
Definition handle_network_event (params : Params) (event : MempoolEvent.t) : MM unit :=
  match event with
  | MempoolEvent.Message _ msg => handle_network_msg params msg
  | _ => mret tt
  end.

(** [pop_first], at most [count] times. *)
Definition reap (count : N) (state : State) : list Transaction.t * State :=
  (List.map snd (take (N.to_nat count) state), drop (N.to_nat count) state).

Definition handle_msg (params : Params) (msg : Msg) : MM unit :=
  match msg with
  | NetworkEvent event => handle_network_event params event
  | AddBatch batch =>
      _ ← when (gossip_enabled params) (gossip_batch params batch);
      state ← get_state;
      put_state (add_batch params batch state)
  | Reap _ count =>
      state ← get_state;
      let (txes, state) := reap count state in
      _ ← put_state state;
      cast (ReplyTransactions txes)
  | Update tx_hashes => state ← get_state; put_state (foldl remove_tx state tx_hashes)
  end.

(** Errors are logged. *)
Definition handle (params : Params) (msg : Msg) : MM unit := _ ← catch (handle_msg params msg); mret tt.

Fixpoint run (params : Params) (msgs : list Msg) : MM unit :=
  match msgs with [] => mret tt | msg :: msgs => _ ← handle params msg; run params msgs end.
End mempool.
End Mempool.

(** ** The network of the mempool (mempool/network.rs) *)

Module MempoolNetwork.
Inductive State : Type := Stopped | Running (peers : gset PeerId).

Inductive Msg : Type :=
  | Subscribe
  | BroadcastMsg (batch : MempoolTransactionBatch.t)
  | NewEvent (event : MempoolEvent.t)
  | GetState.

Inductive Call : Type :=
  | SubscribeToPort
  | Broadcast (b : bytes)
  | OutputPort (event : MempoolEvent.t)
  | ReplyPeers (number_peers : nat)
  | WaitShutdown.

Section network.
(** [NetworkMsg::to_network_bytes], which encodes the batch. *)
Context (to_network_bytes : MempoolTransactionBatch.t -> presult bytes).
Abbreviation WM := (handler Call bool State string).

Definition try_call (c : Call) : WM unit := r ← yield_ c; if (r : bool) then mret tt else fail "call failed".
Definition call (c : Call) : WM unit := _ ← yield_ c; mret tt.

Definition handle (msg : Msg) : WM unit :=
  state ← get_state;
  match state with
  | Stopped => mret tt
  | Running peers =>
      match msg with
      | Subscribe => call SubscribeToPort
      | BroadcastMsg batch =>
          b ← lift (to_network_bytes batch);
          match b with inr b => try_call (Broadcast b) | inl _ => mret tt end
      | NewEvent event =>
          _ ← (match event with
               | MempoolEvent.PeerConnected peer_id => put_state (Running ({[peer_id]} ∪ peers))
               | MempoolEvent.PeerDisconnected peer_id => put_state (Running (peers ∖ {[peer_id]}))
               | _ => mret tt
               end);
          call (OutputPort event)
      | GetState => try_call (ReplyPeers (base.size peers))
      end
  end.

Definition post_stop : WM unit :=
  state ← get_state;
  _ ← put_state Stopped;
  match state with Stopped => mret tt | Running _ => try_call WaitShutdown end.
End network.
End MempoolNetwork.

(** ** The generator of load (mempool_load.rs) *)

Module MempoolLoad.

(** config/src/lib.rs: [mempool_load]. Ranges are half-open; counts and sizes are
    [i32]. The probability of a spike, a float, decides the answer to [Spike]. *)
Record NonUniformLoadConfig : Type := mk_non_uniform {
  base_count : Z;
  base_size : Z;
  count_variation : Z * Z;
  size_variation : Z * Z;
  spike_multiplier : N;
  sleep_interval : N * N;
}.
Record UniformLoadConfig : Type := mk_uniform { interval : N; count : N; size : N }.
Inductive MempoolLoadType : Type :=
  | NoLoad
  | UniformLoad (config : UniformLoadConfig)
  | NonUniformLoad (config : NonUniformLoadConfig).

Inductive Msg : Type := GenerateTransactions (count size : N).

Inductive Call : Type :=
  | FillBytes (len : N)
  | Spike
  | GenRange (low high : Z)
  | AddBatch (batch : TransactionBatch.t)
  | Cast (msg : Msg)
  | Sleep (millis : N).
Inductive Reply : Type := Ok | Failed | Bytes (b : bytes) | Number (z : Z).
Definition is_ok (r : Reply) : bool := match r with Failed => false | _ => true end.
Definition number (r : Reply) : Z := match r with Number z => z | _ => 0%Z end.

Section load.
Context `{StarknetEnv}.
Abbreviation LM := (handler Call Reply unit string).

Fixpoint generate_transactions (count : nat) (size : N) : LM (list Transaction.t) :=
  match count with
  | 0 => mret []
  | S count =>
      r ← yield_ (FillBytes size);
      let tx := Transaction.new (match r with Bytes b => b | _ => [] end) in
      txes ← generate_transactions count size;
      mret (tx :: txes)
  end.

Definition I32_MIN : Z := (- 2 ^ 31)%Z.
Definition I32_MAX : Z := (2 ^ 31 - 1)%Z.
Definition add_i32 (a b : Z) : outcome Z :=
  if ((I32_MIN <=? a + b) && (a + b <=? I32_MAX))%Z then Ret (a + b)%Z else Panic "attempt to add with overflow".
(** [as usize] and [as u64]: a negative number wraps around. *)
Definition as_u64 (z : Z) : N := Z.to_N (z mod 2 ^ 64).

(** [gen_range] of an empty range panics, and so does [choose] from one when it
    is unwrapped. *)
Definition gen_range (range : Z * Z) : LM Z :=
  _ ← assert_m (range.1 <? range.2)%Z "cannot sample empty range";
  r ← yield_ (GenRange range.1 range.2); mret (number r).

Definition generate_non_uniform_load_params (params : NonUniformLoadConfig) : LM (N * N * N) :=
  r ← yield_ Spike;
  let is_spike := negb (number r =? 0)%Z in
  count_variation ← gen_range params.(count_variation);
  size_variation ← gen_range params.(size_variation);
  base_count ← lift (add_i32 params.(base_count) count_variation);
  count ← (if is_spike then lift (mul_u64 (as_u64 base_count) params.(spike_multiplier)) else mret (as_u64 base_count));
  size ← lift (add_i32 params.(base_size) size_variation);
  sleep ← gen_range (Z.of_N params.(sleep_interval).1, Z.of_N params.(sleep_interval).2);
  mret (N.max count 1, N.max (as_u64 size) 1, Z.to_N sleep).

(** The loops end when the actor is gone; the fuel is the number of turns. *)
Fixpoint run_uniform_load (fuel : nat) (params : UniformLoadConfig) : LM unit :=
  match fuel with
  | 0 => out_of_fuel
  | S fuel =>
      r ← yield_ (Cast (GenerateTransactions params.(count) params.(size)));
      if is_ok r then _ ← yield_ (Sleep params.(interval)); run_uniform_load fuel params else mret tt
  end.
Fixpoint run_non_uniform_load (fuel : nat) (params : NonUniformLoadConfig) : LM unit :=
  match fuel with
  | 0 => out_of_fuel
  | S fuel =>
      '(count, size, sleep_duration) ← generate_non_uniform_load_params params;
      r ← yield_ (Cast (GenerateTransactions count size));
      if is_ok r then _ ← yield_ (Sleep sleep_duration); run_non_uniform_load fuel params else mret tt
  end.

(** The task that [pre_start] spawns. *)
Definition ticker (fuel : nat) (load_type : MempoolLoadType) : LM unit :=
  match load_type with
  | NoLoad => mret tt
  | UniformLoad config => run_uniform_load fuel config
  | NonUniformLoad config => run_non_uniform_load fuel config
  end.

Definition handle (msg : Msg) : LM unit :=
  match msg with
  | GenerateTransactions count size =>
      transactions ← generate_transactions (N.to_nat count) size;
      r ← yield_ (AddBatch transactions);
      if is_ok r then mret tt else fail "Messaging failed"
  end.
End load.
End MempoolLoad.

(** ** The mempool is bounded, and what it hands out is gone *)

Section mempool_facts.
Context `{SE : StarknetEnv, SM : StarknetMessages} (params : Mempool.Params).
Import Mempool.

(** At most [max_tx_count] transactions, each under its hash, in the order of
    the hashes. *)
Record pool_ok (self : State) : Prop := {
  pool_bound : (len self <= params.(max_tx_count))%N;
  pool_sorted : BTreeMap.sorted self;
  pool_keys : Forall (fun kv => kv.1 = kv.2.(Transaction.hash)) self;
}.

Lemma pool_new_ok : pool_ok new.
Proof. split; [apply N.le_0_l|constructor|constructor]. Qed.

Lemma add_tx_ok self tx : pool_ok self -> (len self < params.(max_tx_count))%N -> pool_ok (add_tx self tx).
Proof.
  intros [Hb Hs Hk] Hl. unfold add_tx. destruct (BTreeMap.get _ self) eqn:Hg; [done|]. split.
  - unfold len in *. rewrite BTreeMap.length_insert_new by done. lia.
  - by apply BTreeMap.insert_sorted.
  - apply Forall_forall. intros kv [->|Hin]%BTreeMap.elem_of_insert; [done|]. by eapply (proj1 (Forall_forall _ _)) in Hk.
Qed.

Lemma add_batch_ok batch self : pool_ok self -> pool_ok (add_batch params batch self).
Proof.
  revert self. induction batch as [|tx batch IH]; intros self Hok; cbn; [done|].
  destruct (N.ltb_spec (len self) params.(max_tx_count)); [|done]. by apply IH, add_tx_ok.
Qed.

Lemma retain_ok f self : pool_ok self -> pool_ok (BTreeMap.retain f self).
Proof.
  intros [Hb Hs Hk]. split.
  - unfold len in *. pose proof (BTreeMap.length_retain f self). lia.
  - by apply BTreeMap.retain_sorted.
  - apply Forall_forall. intros kv [? _]%list_elem_of_In%List.filter_In.
    eapply (proj1 (Forall_forall _ _)) in Hk; [done|]. by apply list_elem_of_In.
Qed.

Lemma update_ok hashes self : pool_ok self -> pool_ok (foldl remove_tx self hashes).
Proof. revert self. induction hashes as [|h hashes IH]; intros self Hok; cbn; [done|]. by apply IH, retain_ok. Qed.

Lemma sorted_drop (self : State) n : BTreeMap.sorted self -> BTreeMap.sorted (drop n self).
Proof.
  intros Hs. revert n. induction Hs as [|kv m Hs IH Hk]; intros [|n]; cbn; [constructor|constructor|by constructor|apply IH].
Qed.
Lemma reap_ok n self : pool_ok self -> pool_ok (reap n self).2.
Proof.
  intros [Hb Hs Hk]. cbn. split.
  - unfold len in *. rewrite length_drop. lia.
  - by apply sorted_drop.
  - by apply Forall_drop.
Qed.

Abbreviation mwp := (wp (Eff := Call) (Res := bool) True (fun _ _ => True) (fun _ _ _ => True)).
Definition keeps {A} (t : trace Call bool) (x : State * (string + A)) : Prop := pool_ok x.1.

Lemma cast_keeps c s t : pool_ok s -> mwp (cast c s) keeps t.
Proof. intros Hs. unfold cast. wp_step. apply wp_yield; [done|]. intros r _. cbn. by destruct r. Qed.

Lemma gossip_keeps batches s t : pool_ok s -> mwp (gossip_chunks batches s) keeps t.
Proof.
  revert t. induction batches as [|b batches IH]; intros t Hs; cbn [gossip_chunks]; [by apply wp_ret|].
  wp_step. apply wp_lift. intros any _. cbn [fst snd]. wp_step. apply wp_lift. intros tx _. cbn [fst snd]. wp_step.
  unfold cast. wp_step. apply wp_yield; [done|]. intros r _. cbn [fst snd]. destruct r; [|by apply wp_fail].
  apply wp_ret. cbn [fst snd]. by apply IH.
Qed.

Lemma handle_msg_keeps msg s t : pool_ok s -> mwp (handle_msg params msg s) keeps t.
Proof.
  intros Hs. destruct msg as [e|batch|h n|hashes]; cbn [handle_msg].
  - destruct e; try by apply wp_ret. unfold handle_network_event, handle_network_msg. wp_step. apply wp_lift.
    intros [e|b] _; cbn [fst snd]; [by apply wp_ret|]. wp_step. wp_step. apply wp_put. by apply add_batch_ok.
  - wp_step. unfold gossip_enabled, when, gossip_batch. destruct (0 <? _)%N.
    + wp_step. apply wp_assert. intros _. cbn [fst snd]. eapply wp_mono; [by apply gossip_keeps|].
      intros t' [s' [e|[]]] Hs'; cbn [fst snd]; [done|]. wp_step. wp_step. apply wp_put. by apply add_batch_ok.
    + apply wp_ret. cbn [fst snd]. wp_step. wp_step. apply wp_put. by apply add_batch_ok.
  - wp_step. wp_step. destruct (reap n s) as [txes s'] eqn:Hr. wp_step. apply wp_put. cbn [fst snd].
    apply cast_keeps. replace s' with (reap n s).2 by by rewrite Hr. by apply reap_ok.
  - wp_step. wp_step. apply wp_put. by apply update_ok.
Qed.

Lemma mempool_run_keeps msgs s t : pool_ok s -> mwp (run params msgs s) keeps t.
Proof.
  revert s t. induction msgs as [|msg msgs IH]; intros s t Hs; cbn [run]; [by apply wp_ret|].
  wp_step. unfold handle. wp_step. apply wp_catch. eapply wp_mono; [by apply handle_msg_keeps|].
  intros t' [s' r] Hs'. cbn [fst snd]. apply wp_ret. cbn [fst snd]. by apply IH.
Qed.

(** C27: The mempool holds at most [max_tx_count] transactions, whatever batches are
    submitted or received from peers, and however many of them; each is kept once,
    under its hash. *)
Theorem mempool_bounded msgs t s r :
  steps (run params msgs new) t (Complete (s, r)) ->
  (len s <= params.(max_tx_count))%N /\ NoDup (List.map fst s) /\
  Forall (fun kv => kv.1 = kv.2.(Transaction.hash)) s.
Proof.
  intros Hs. assert (Hok : pool_ok s).
  { apply (wp_complete _ _ _ _ _ _ _ _ (mempool_run_keeps msgs new [] pool_new_ok) Hs). apply answered_any. }
  destruct Hok as [Hb Hso Hk]. split_and!; [done| |done]. apply BTreeMap.sorted_NoDup in Hso. exact Hso.
Qed.

(** What is reaped is what the mempool had first, in the order of the hashes, and
    it is gone. *)
Lemma reap_spec n self : pool_ok self ->
  List.map snd self = (reap n self).1 ++ List.map snd (reap n self).2 /\
  (forall tx, tx ∈ (reap n self).1 -> BTreeMap.get tx.(Transaction.hash) (reap n self).2 = None).
Proof.
  intros [_ Hs Hk]. unfold reap. cbn [fst snd]. split.
  { rewrite <- map_app, take_drop. done. }
  intros tx ([k tx'] & Htx & Hin)%list_elem_of_In%List.in_map_iff. cbn in Htx. subst tx'.
  apply list_elem_of_In in Hin. destruct (BTreeMap.get _ _) as [tx'|] eqn:Hg; [|done]. exfalso.
  apply BTreeMap.get_Some_elem in Hg. assert (k = Transaction.hash tx) as ->.
  { rewrite Forall_forall in Hk. apply (Hk (k, tx)). rewrite <- (take_drop (N.to_nat n) self). apply elem_of_app. by left. }
  apply BTreeMap.sorted_NoDup in Hs. unfold BTreeMap.keys in Hs.
  rewrite <- (take_drop (N.to_nat n) self), fmap_app in Hs. apply NoDup_app in Hs as (_ & Hd & _).
  eapply Hd; apply list_elem_of_fmap; eexists; (split; [|done]); done.
Qed.
End mempool_facts.
