(* ===== verification/StarknetHost.v ===== *)
(** * Starknet: the host

    starknet/host/src: the state of the host (host/state.rs), the host with the
    task that builds a proposal (host/starknet.rs, host/proposal.rs) and the actor
    that answers the messages of the consensus engine (actor.rs).

    The database, the mempool, the network, the clock and the replies are effects.
    A panic inside of a store operation or of the task that builds a proposal ends
    that task only. The task hands each part to the actor over a channel, and the
    actor forwards it before the task goes on. Metrics, the simulated execution of
    transactions and the delays are left out. *)

From S2P Require Import Prelude Types Bytes Context Starknet BTree Coroutine ConsensusTypes SyncTypes FullProposal Streaming EngineNetwork StarknetTypes StarknetCodec StarknetStores StarknetMempool.

(** ** Parameters, messages and effects *)

Module StarknetParams.
Record t : Type := mk { max_block_size : N; txs_per_part : N; max_retain_blocks : N }.
End StarknetParams.

Module HostMsg.
Inductive t `{StarknetEnv} : Type :=
  | ConsensusReady
  | StartedRound (height : SnHeight.t) (round : Round.t) (proposer : SnAddress) (role : Role.t)
  | GetHistoryMinHeight
  | GetValue (height : SnHeight.t) (round : Round.t)
  | ExtendVote (height : SnHeight.t) (round : Round.t) (value_id : SnHash.t)
  | VerifyVoteExtension (height : SnHeight.t) (round : Round.t) (value_id : SnHash.t) (extension : bytes)
  | RestreamValue (height : SnHeight.t) (round valid_round : Round.t) (address : SnAddress) (value_id : SnHash.t)
  | ReceivedProposalPart (from : PeerId) (part : StreamMessage.t SnPart.t)
  | Decided (certificate : CommitCertificate.t)
  | GetDecidedValue (height : SnHeight.t)
  | ProcessSyncedValue (height : SnHeight.t) (round : Round.t) (proposer : SnAddress) (value_bytes : bytes).
End HostMsg.

(** The effects of the task that builds a proposal. *)
Module BuildCall.
Inductive t `{StarknetEnv} : Type :=
  | SendPart (part : SnPart.t)
  | Reap (num_txes : N)
  | Now
  | Elapsed
  | SendValueId (hash : SnHash.t).
End BuildCall.

Module HostCall.
Inductive t `{StarknetEnv} : Type :=
  | DbTransaction
  | Reap (height : SnHeight.t) (num_txes : N)
  | Now
  | Elapsed
  | PublishProposalPart (msg : StreamMessage.t SnPart.t)
  | MempoolUpdate (tx_hashes : list SnHash.t)
  | ReplyReady (height : SnHeight.t) (validator_set : ValidatorSet)
  | ReplyProposals (proposals : list ProposedValue.t)
  | ReplyMinHeight (height : SnHeight.t)
  | ReplyValue (value : LocallyProposedValue.t)
  | ReplyExtension (extension : option bytes)
  | ReplyExtensionOk
  | ReplyProposed (value : ProposedValue.t)
  | ReplyNext (height : SnHeight.t) (validator_set : ValidatorSet)
  | ReplyDecided (value : option RawDecidedValue.t).
End HostCall.

Module HostReply.
Inductive t : Type := Ok | Failed | Number (n : N) | Flag (b : bool) | Txes (txes : list Transaction.t).
Definition is_ok (r : t) : bool := match r with Failed => false | _ => true end.
Definition number (r : t) : N := match r with Number n => n | _ => 0%N end.
Definition flag (r : t) : bool := match r with Flag b => b | _ => false end.
End HostReply.

(** ** Building a proposal (host/proposal.rs) *)

Module Build.

(** The size of the block so far, and what has been hashed. *)
Record State : Type := mk { block_size : N; hashed : bytes }.

Section build.
Context `{StarknetEnv}.
Context (params : StarknetParams.t) (height : SnHeight.t) (round : Round.t) (proposer : SnAddress).
Abbreviation BM := (handler BuildCall.t HostReply.t State string).

Definition PROTOCOL_VERSION : string := "0.13.0".

Definition send_part (part : SnPart.t) : BM unit :=
  r ← yield_ (BuildCall.SendPart part); if HostReply.is_ok r then mret tt else fail "channel closed".

(** The loop ['txes]: the transactions that fit, and whether one did not. *)
Fixpoint fill (reaped : list Transaction.t) : BM (list Transaction.t * bool) :=
  match reaped with
  | [] => mret ([], false)
  | tx :: reaped =>
      s ← get_state;
      total ← lift (add_u64 s.(block_size) (Transaction.size_bytes tx));
      if (params.(StarknetParams.max_block_size) <? total)%N then mret ([], true)
      else
        _ ← put_state (mk total (s.(hashed) ++ tx.(Transaction.hash).(SnHash.as_bytes)));
        '(txes, full) ← fill reaped;
        mret (tx :: txes, full)
  end.

(** The loop ['reap]; the fuel is the number of turns. *)
Fixpoint reap_loop (fuel : nat) : BM unit :=
  match fuel with
  | 0 => out_of_fuel
  | S fuel =>
      r ← yield_ (BuildCall.Reap params.(StarknetParams.txs_per_part));
      match r with
      | HostReply.Txes [] => mret tt
      | HostReply.Txes reaped =>
          '(txes, full_block) ← fill reaped;
          _ ← send_part (SnPart.Transactions txes);
          if (full_block : bool) then mret tt
          else r ← yield_ BuildCall.Elapsed; if HostReply.flag r then mret tt else reap_loop fuel
      | _ => fail "Failed to reap transactions from the mempool"
      end
  end.

Definition init_part : SnPart.t := SnPart.Init (ProposalInit.mk height round Round.Nil proposer).
Definition info_part (now : N) : SnPart.t :=
  SnPart.BlockInfo (BlockInfo.mk height proposer now 0 0 0 0 L1DataAvailabilityMode.Blob).
Definition commitment_part (now : N) (transaction_commitment : SnHash.t) : SnPart.t :=
  SnPart.Commitment (ProposalCommitment.mk height BlockDb.hash_min proposer now PROTOCOL_VERSION BlockDb.hash_min
    BlockDb.hash_min transaction_commitment BlockDb.hash_min BlockDb.hash_min Felt_ONE 0 0 0 0 L1DataAvailabilityMode.Blob).

Definition run_build_proposal_task (fuel : nat) : BM unit :=
  _ ← send_part init_part;
  r ← yield_ BuildCall.Now;
  let now := HostReply.number r in
  _ ← send_part (info_part now);
  _ ← reap_loop fuel;
  s ← get_state;
  let transaction_commitment := SnHash.new (keccak s.(hashed)) in
  _ ← send_part (commitment_part now transaction_commitment);
  _ ← send_part (SnPart.Fin transaction_commitment);
  r ← yield_ (BuildCall.SendValueId transaction_commitment);
  if HostReply.is_ok r then mret tt else fail "Failed to send proposal commitment hash".

Definition task (fuel : nat) : prog BuildCall.t HostReply.t (State * (string + unit)) :=
  run_build_proposal_task fuel (mk 0 []).

End build.
End Build.

(** ** The state (host/state.rs, host/starknet.rs) *)

Module HostState.
Record t `{StarknetEnv} : Type := mk {
  height : SnHeight.t;
  round : Round.t;
  proposer : option SnAddress;
  role : Role.t;
  params : StarknetParams.t;
  address : SnAddress;
  validator_set : ValidatorSet;
  part_store : PartStore.t;
  block_store : BlockDb.t;
  part_streams_map : PartStreamsMap.t SnPart.t SnHeight.t SnAddress;
  nonce : N;
}.
Arguments mk {_}.

Section setters.
Context `{StarknetEnv}.
Definition new params address validator_set block_store nonce : t :=
  mk (SnHeight.new 0 0) Round.Nil None Role.None params address validator_set PartStore.new block_store ∅ nonce.
Definition set_round (self : t) height round proposer role : t :=
  mk height round proposer role self.(params) self.(address) self.(validator_set) self.(part_store)
    self.(block_store) self.(part_streams_map) self.(nonce).
Definition set_part_store (self : t) x : t :=
  mk self.(height) self.(round) self.(proposer) self.(role) self.(params) self.(address) self.(validator_set) x
    self.(block_store) self.(part_streams_map) self.(nonce).
Definition set_block_store (self : t) x : t :=
  mk self.(height) self.(round) self.(proposer) self.(role) self.(params) self.(address) self.(validator_set)
    self.(part_store) x self.(part_streams_map) self.(nonce).
Definition set_streams (self : t) x : t :=
  mk self.(height) self.(round) self.(proposer) self.(role) self.(params) self.(address) self.(validator_set)
    self.(part_store) self.(block_store) x self.(nonce).
Definition set_nonce (self : t) x : t :=
  mk self.(height) self.(round) self.(proposer) self.(role) self.(params) self.(address) self.(validator_set)
    self.(part_store) self.(block_store) self.(part_streams_map) x.
End setters.
End HostState.

Section state.
Context `{StarknetEnv, StarknetMessages}.
Implicit Types (self : HostState.t).

(** The next stream identifier, with the state after it. *)
Definition stream_id self : outcome (HostState.t * StreamId) :=
  round ← expect (Round.as_u32 self.(HostState.round)) "round is non-nil";
  let id := Pb.mk_stream_id (SnHeight.as_u64 self.(HostState.height)) round self.(HostState.nonce) in
  nonce ← add_u64 self.(HostState.nonce) 1;
  Ret (HostState.set_nonce self nonce, encode_to_vec id).

Definition transactions_of (parts : list SnPart.t) : list Transaction.t := concat (omap SnPart.as_transactions parts).

Definition transaction_commitment (transactions : list Transaction.t) : SnHash.t :=
  SnHash.new (keccak (concat ((fun tx => tx.(Transaction.hash).(SnHash.as_bytes)) <$> transactions))).

Definition verify_proposal_validity (fin : SnHash.t) (commitment : ProposalCommitment.t)
    (transactions : list Transaction.t) : Validity.t :=
  let transaction_commitment := transaction_commitment transactions in
  if bool_decide (transaction_commitment = commitment.(ProposalCommitment.transaction_commitment)) &&
     bool_decide (transaction_commitment = fin)
  then Validity.Valid else Validity.Invalid.

Definition build_proposal_from_parts (height : SnHeight.t) (round : Round.t) (parts : list SnPart.t)
    : outcome ProposedValue.t :=
  _ ← assert_that (negb (bool_decide (length parts = 0))) "Parts must not be empty";
  init ← expect (find_map SnPart.as_init parts) "Init part not found";
  fin ← expect (find_map SnPart.as_fin parts) "Fin part not found";
  _ ← expect (find_map SnPart.as_block_info parts) "BlockInfo part not found";
  commitment ← expect (find_map SnPart.as_commitment parts) "ProposalCommitment part not found";
  let validity := verify_proposal_validity fin commitment (transactions_of parts) in
  Ret (ProposedValue.mk (Ctx := sn_context) height round init.(ProposalInit.pol_round) init.(ProposalInit.proposer)
         fin validity).

(** The sizes of the parts are added up for the log. *)
Definition total_size (parts : list SnPart.t) : outcome N :=
  sizes ← mapM SnPart.size_bytes parts; sum_u64 "attempt to add with overflow" sizes.

Definition build_value_from_part self (stream_id : StreamId) (height : SnHeight.t) (round : Round.t) (part : SnPart.t)
    : outcome (HostState.t * option ProposedValue.t) :=
  let self := HostState.set_part_store self (PartStore.store self.(HostState.part_store) stream_id height round part) in
  let parts := PartStore.all_parts_by_stream_id self.(HostState.part_store) stream_id height round in
  match find_map SnPart.as_fin parts, find_map SnPart.as_block_info parts, find_map SnPart.as_commitment parts with
  | Some _, Some _, Some _ =>
      _ ← total_size parts;
      value ← build_proposal_from_parts height round parts;
      Ret (HostState.set_part_store self
             (PartStore.store_value_id self.(HostState.part_store) stream_id height round value.(ProposedValue.value)),
           Some value)
  | _, _, _ => Ret (self, None)
  end.
End state.

(** ** The actor (actor.rs) *)

Section actor.
Context `{StarknetEnv, StarknetMessages, MultihashLib}.
Abbreviation HM := (handler HostCall.t HostReply.t HostState.t string).
Implicit Types (height : SnHeight.t) (round : Round.t) (value : ProposedValue.t).

(** A call with [?]. *)
Definition call_ok (c : HostCall.t) : HM unit :=
  r ← yield_ c; if HostReply.is_ok r then mret tt else fail "Messaging failed".

(** A transaction that reads, and one that writes: it fails when the database
    fails, when the operation returns an error or when it panics. *)
Definition read_db {A} (f : BlockDb.t -> presult A) : HM A :=
  r ← yield_ HostCall.DbTransaction;
  self ← get_state;
  if HostReply.is_ok r then
    match f self.(HostState.block_store) with
    | Ret (inr a) => mret a
    | Ret (inl _) => fail "Failed to encode/decode Protobuf"
    | Panic _ => fail "Failed to join on task"
    end
  else fail "Database error".
Definition write_db (f : BlockDb.t -> presult BlockDb.t) : HM unit :=
  db ← read_db f; self ← get_state; put_state (HostState.set_block_store self db).

(** [.ok().flatten()] and [unwrap_or_default()]: a failed transaction panics in
    its task. *)
Definition read_height (f : BlockDb.t -> option SnHeight.t) : HM SnHeight.t :=
  r ← yield_ HostCall.DbTransaction;
  self ← get_state;
  mret (default SnHeight.ZERO (if HostReply.is_ok r then f self.(HostState.block_store) else None)).
Definition first_height : HM SnHeight.t := read_height BlockDb.first_key.
Definition last_height : HM SnHeight.t := read_height BlockDb.last_key.

Definition store_undecided_value value : HM unit := write_db (fun db => BlockDb.insert_undecided_value db value).
Definition store_pending_value value : HM unit := write_db (fun db => BlockDb.insert_pending_value db value).
Definition remove_pending_value value : HM unit := write_db (fun db => BlockDb.remove_pending_value db value).
Definition get_undecided_values height round : HM (list ProposedValue.t) :=
  read_db (fun db => BlockDb.get_undecided_values db height round).

(** *** Handlers *)

Definition on_consensus_ready : HM unit :=
  latest_block_height ← last_height;
  start_height ← lift (SnHeight.increment latest_block_height);
  self ← get_state;
  call_ok (HostCall.ReplyReady start_height self.(HostState.validator_set)).

Fixpoint promote_pending (pending : list ProposedValue.t) : HM unit :=
  match pending with
  | [] => mret tt
  | p :: pending => _ ← store_undecided_value p; _ ← remove_pending_value p; promote_pending pending
  end.

Definition on_started_round height round (proposer : SnAddress) (role : Role.t) : HM unit :=
  self ← get_state;
  _ ← put_state (HostState.set_round self height round (Some proposer) role);
  pending ← read_db (fun db => BlockDb.get_pending_values db height round);
  _ ← promote_pending pending;
  undecided_values ← get_undecided_values height round;
  call_ok (HostCall.ReplyProposals undecided_values).

Definition on_get_history_min_height : HM unit :=
  history_min_height ← first_height; call_ok (HostCall.ReplyMinHeight history_min_height).

Definition find_previously_built_value height round : HM (option ProposedValue.t) :=
  values ← get_undecided_values height round;
  self ← get_state;
  mret (List.find (fun v => bool_decide ((v.(ProposedValue.proposer) : SnAddress) = self.(HostState.address))) values).

Definition next_stream_id : HM StreamId :=
  self ← get_state; '(self, id) ← lift (stream_id self); _ ← put_state self; mret id.

(** Keep a part, and publish it. *)
Definition stream_part (stream_id : StreamId) height round (sequence : Sequence) (part : SnPart.t) : HM unit :=
  self ← get_state;
  _ ← put_state (HostState.set_part_store self
        (PartStore.store self.(HostState.part_store) stream_id height round part));
  call_ok (HostCall.PublishProposalPart (StreamMessage.new stream_id sequence (StreamContent.Data part))).

(** The parts of the task until it ends, with the number of messages and the
    value. *)
Fixpoint receive_parts {X} (stream_id : StreamId) height round (task : prog BuildCall.t HostReply.t X)
    (sequence : Sequence) (value_id : option SnHash.t) : HM (Sequence * option SnHash.t) :=
  match task with
  | Complete _ | Panicked _ => mret (sequence, value_id)
  | OutOfFuel => out_of_fuel
  | Yielded (BuildCall.SendPart part) k =>
      _ ← stream_part stream_id height round sequence part;
      next ← lift (add_u64 sequence 1);
      receive_parts stream_id height round (k HostReply.Ok) next value_id
  | Yielded (BuildCall.Reap num_txes) k =>
      r ← yield_ (HostCall.Reap height num_txes); receive_parts stream_id height round (k r) sequence value_id
  | Yielded BuildCall.Now k => r ← yield_ HostCall.Now; receive_parts stream_id height round (k r) sequence value_id
  | Yielded BuildCall.Elapsed k =>
      r ← yield_ HostCall.Elapsed; receive_parts stream_id height round (k r) sequence value_id
  | Yielded (BuildCall.SendValueId hash) k =>
      receive_parts stream_id height round (k HostReply.Ok) sequence (Some hash)
  end.

Definition reply_value value : HM unit :=
  call_ok (HostCall.ReplyValue (LocallyProposedValue.new value.(ProposedValue.height) value.(ProposedValue.round)
             value.(ProposedValue.value))).

(** [build_new_proposal] makes a channel of [txs_per_part] places, which panics
    when there are none. *)
Definition build_new_value (fuel : nat) height round : HM ProposedValue.t :=
  self ← get_state;
  _ ← assert_m (0 <? self.(HostState.params).(StarknetParams.txs_per_part))%N "mpsc bounded channel requires buffer > 0";
  stream_id ← next_stream_id;
  '(sequence, hash) ← receive_parts stream_id height round
     (Build.task self.(HostState.params) height round self.(HostState.address) fuel) 0 None;
  _ ← call_ok (HostCall.PublishProposalPart (StreamMessage.new stream_id sequence StreamContent.Fin));
  match hash with
  | None => fail "channel closed"
  | Some block_hash =>
      self ← get_state;
      let store := PartStore.store_value_id self.(HostState.part_store) stream_id height round block_hash in
      _ ← put_state (HostState.set_part_store self store);
      lift (build_proposal_from_parts height round (PartStore.all_parts_by_stream_id store stream_id height round))
  end.

Definition on_get_value (fuel : nat) height round : HM unit :=
  previous ← find_previously_built_value height round;
  match previous with
  | Some value => reply_value value
  | None =>
      value ← build_new_value fuel height round;
      _ ← catch (store_undecided_value value);
      reply_value value
  end.

Definition on_extend_vote : HM unit := call_ok (HostCall.ReplyExtension None).
Definition on_verify_vote_extension : HM unit := call_ok HostCall.ReplyExtensionOk.

Definition new_part (init_part fin_part part : SnPart.t) : SnPart.t :=
  match part with
  | SnPart.Init _ => init_part
  | SnPart.Fin _ => fin_part
  | SnPart.BlockInfo _ | SnPart.Transactions _ | SnPart.Commitment _ => part
  end.

Fixpoint restream_parts (stream_id : StreamId) height round (init_part fin_part : SnPart.t) (parts : list SnPart.t)
    (sequence : Sequence) : HM unit :=
  match parts with
  | [] => mret tt
  | part :: parts =>
      _ ← stream_part stream_id height round sequence (new_part init_part fin_part part);
      next ← lift (add_u64 sequence 1);
      restream_parts stream_id height round init_part fin_part parts next
  end.

Definition on_restream_proposal height round (proposal_commitment_hash : SnHash.t) (valid_round : Round.t)
    (proposer : SnAddress) : HM unit :=
  self ← get_state;
  let parts := PartStore.all_parts_by_value_id (Ctx := sn_context) self.(HostState.part_store) proposal_commitment_hash in
  _ ← assert_m (0 <? self.(HostState.params).(StarknetParams.txs_per_part))%N "mpsc bounded channel requires buffer > 0";
  stream_id ← next_stream_id;
  restream_parts stream_id height round (SnPart.Init (ProposalInit.mk height round valid_round proposer))
    (SnPart.Fin proposal_commitment_hash) parts 0.

Definition on_process_synced_value (value_bytes : bytes) height round (proposer : SnAddress) : HM unit :=
  maybe_block ← lift (from_bytes (T := SnBlock.t) value_bytes);
  match maybe_block with
  | inr block =>
      call_ok (HostCall.ReplyProposed (ProposedValue.mk (Ctx := sn_context) height round Round.Nil proposer
                 block.(SnBlock.block_hash) Validity.Valid))
  | inl _ => mret tt
  end.

Definition on_get_decided_value height : HM unit :=
  result ← catch (read_db (fun db => BlockDb.get_decided_block db height));
  match result with
  | inr None => _ ← first_height; _ ← last_height; call_ok (HostCall.ReplyDecided None)
  | inr (Some block) =>
      value_bytes ← lift (to_bytes (T := SnBlock.t) block.(DecidedBlock.block));
      value_bytes ← lift (expect (match value_bytes with inr b => Some b | inl _ => None end)
                            "called `Result::unwrap()` on an `Err` value");
      call_ok (HostCall.ReplyDecided (Some (RawDecidedValue.new value_bytes block.(DecidedBlock.certificate))))
  | inl _ => call_ok (HostCall.ReplyDecided None)
  end.

Definition store_proposed_value height value : HM (option ProposedValue.t) :=
  self ← get_state;
  if SnHeight.ltb self.(HostState.height) height then _ ← catch (store_pending_value value); mret None
  else _ ← catch (store_undecided_value value); mret (Some value).

(** The parts in turn, until one of them completes the value. *)
Fixpoint process_parts (stream_id : StreamId) height round (parts : list SnPart.t) : HM unit :=
  match parts with
  | [] => mret tt
  | part :: parts =>
      self ← get_state;
      '(self, value) ← lift (build_value_from_part self stream_id height round part);
      _ ← put_state self;
      match value with
      | Some value =>
          value ← store_proposed_value height value;
          match value with Some value => call_ok (HostCall.ReplyProposed value) | None => mret tt end
      | None => process_parts stream_id height round parts
      end
  end.

Definition on_received_proposal_part (from : PeerId) (part : StreamMessage.t SnPart.t) : HM unit :=
  self ← get_state;
  '(streams, parts) ← lift (PartStreamsMap.insert SnPart.as_init self.(HostState.part_streams_map) from part);
  _ ← put_state (HostState.set_streams self streams);
  match parts with
  | None => mret tt
  | Some parts =>
      if SnHeight.ltb parts.(ProposalParts.height) self.(HostState.height) then mret tt
      else process_parts part.(StreamMessage.stream_id) parts.(ProposalParts.height) parts.(ProposalParts.round)
             parts.(ProposalParts.parts)
  end.

Definition prune_block_store : HM unit :=
  max_height ← last_height;
  self ← get_state;
  let retain_height := (SnHeight.as_u64 max_height - self.(HostState.params).(StarknetParams.max_retain_blocks))%N in
  if (retain_height <=? 1)%N then mret tt
  else
    _ ← catch (write_db (fun db =>
          pruned ←? BlockDb.prune db (SnHeight.new retain_height max_height.(SnHeight.fork_id)); ok pruned.1));
    mret tt.

Definition on_decided (certificate : CommitCertificate.t) : HM unit :=
  self ← get_state;
  let all_parts := PartStore.all_parts_by_value_id self.(HostState.part_store) certificate.(CommitCertificate.value_id) in
  let all_txes := transactions_of all_parts in
  _ ← catch (write_db (fun db => BlockDb.insert_decided_block db (BlockDb.decided_block certificate all_txes)));
  _ ← lift (total_size all_parts);
  let tx_hashes := Transaction.hash <$> all_txes in
  self ← get_state;
  _ ← put_state (HostState.set_part_store self (PartStore.prune self.(HostState.part_store) self.(HostState.height)));
  _ ← prune_block_store;
  _ ← call_ok (HostCall.MempoolUpdate tx_hashes);
  self ← get_state;
  next ← lift (SnHeight.increment self.(HostState.height));
  call_ok (HostCall.ReplyNext next self.(HostState.validator_set)).

(** The fuel bounds the turns of the task that builds a proposal. *)
Definition handle_msg (fuel : nat) (msg : HostMsg.t) : HM unit :=
  match msg with
  | HostMsg.ConsensusReady => on_consensus_ready
  | HostMsg.StartedRound height round proposer role => on_started_round height round proposer role
  | HostMsg.GetHistoryMinHeight => on_get_history_min_height
  | HostMsg.GetValue height round => on_get_value fuel height round
  | HostMsg.ExtendVote _ _ _ => on_extend_vote
  | HostMsg.VerifyVoteExtension _ _ _ _ => on_verify_vote_extension
  | HostMsg.RestreamValue height round valid_round address value_id =>
      on_restream_proposal height round value_id valid_round address
  | HostMsg.ReceivedProposalPart from part => on_received_proposal_part from part
  | HostMsg.Decided certificate => on_decided certificate
  | HostMsg.GetDecidedValue height => on_get_decided_value height
  | HostMsg.ProcessSyncedValue height round proposer value_bytes =>
      on_process_synced_value value_bytes height round proposer
  end.

(** Errors are logged. *)
Definition handle (fuel : nat) (msg : HostMsg.t) : HM unit := _ ← catch (handle_msg fuel msg); mret tt.

Fixpoint run (fuel : nat) (msgs : list HostMsg.t) : HM unit :=
  match msgs with [] => mret tt | msg :: msgs => _ ← handle fuel msg; run fuel msgs end.
End actor.
