(* ===== verification/StarknetHostFacts.v ===== *)
(** * Starknet: proposals, blocks and decisions

    The task that builds a proposal ends, and its block is not larger than it may
    be; the proposal that a host streams is assembled by the hosts that receive
    it, in whatever order, as a valid value; a value that was built is proposed
    again; a block that was decided is served. *)

From S2P Require Import Prelude Types Bytes Context Starknet BTree Coroutine ConsensusTypes SyncTypes FullProposal Streaming StreamingFacts EngineNetwork StarknetTypes StarknetCodec StarknetCodecFacts StarknetStores StarknetMempool StarknetHost.

(** ** The task that builds a proposal *)

Definition txs_size (txes : list Transaction.t) : N := foldr (fun tx n => (Transaction.size_bytes tx + n)%N) 0%N txes.
Definition txs_hashed (txes : list Transaction.t) : bytes := concat ((fun tx => tx.(Transaction.hash).(SnHash.as_bytes)) <$> txes).

Lemma txs_size_app a b : txs_size (a ++ b) = (txs_size a + txs_size b)%N.
Proof. unfold txs_size. induction a as [|tx a IH]; cbn; [done|]. rewrite IH. lia. Qed.
Lemma txs_hashed_app a b : txs_hashed (a ++ b) = txs_hashed a ++ txs_hashed b.
Proof. unfold txs_hashed. by rewrite fmap_app, concat_app. Qed.

Section build.
Context `{SE : StarknetEnv} (params : StarknetParams.t).
Abbreviation max_size := params.(StarknetParams.max_block_size).

Definition sent_in (c : BuildCall.t) : option SnPart.t := match c with BuildCall.SendPart part => Some part | _ => None end.
Definition sent (t : trace BuildCall.t HostReply.t) : list SnPart.t := omap sent_in t.*1.
Definition sent_txs (t : trace BuildCall.t HostReply.t) : list Transaction.t := transactions_of (sent t).

Lemma sent_app t t' : sent (t ++ t') = sent t ++ sent t'.
Proof. unfold sent. by rewrite fmap_app, omap_app. Qed.
Lemma transactions_of_app a b : transactions_of (a ++ b) = transactions_of a ++ transactions_of b.
Proof. unfold transactions_of. by rewrite omap_app, concat_app. Qed.

(** *** The size of the block, whatever the mempool answers *)

Section bound.
Abbreviation bwp := (wp (Eff := BuildCall.t) (Res := HostReply.t) True
  (fun t c => match c with
              | BuildCall.SendPart part => (txs_size (sent_txs t) + txs_size (transactions_of [part]) <= max_size)%N
              | _ => True
              end) (fun _ _ _ => True)).

Lemma fill_spec reaped s Q t :
  (s.(Build.block_size) <= max_size)%N ->
  (forall txes full,
    (s.(Build.block_size) + txs_size txes <= max_size)%N ->
    Q t (Build.mk (s.(Build.block_size) + txs_size txes) (s.(Build.hashed) ++ txs_hashed txes), inr (txes, full))) ->
  bwp (Build.fill params reaped s) Q t.
Proof.
  revert s Q. induction reaped as [|tx reaped IH]; intros s Q Hs HQ; cbn [Build.fill].
  - apply wp_ret. specialize (HQ [] false). cbn in HQ. rewrite N.add_0_r, app_nil_r in HQ. destruct s. by apply HQ.
  - wp_step. wp_step. wp_step. apply wp_lift. intros total [-> Hov]%add_u64_Ret. cbn [fst snd].
    destruct (N.ltb_spec max_size (s.(Build.block_size) + Transaction.size_bytes tx)) as [Hlt|Hle].
    + apply wp_ret. specialize (HQ [] true). cbn in HQ. rewrite N.add_0_r, app_nil_r in HQ. destruct s. by apply HQ.
    + wp_step. apply wp_put. cbn [fst snd]. wp_step. apply IH; [done|]. intros txes full Hsz. cbn [fst snd Build.block_size Build.hashed] in *.
      apply wp_ret. specialize (HQ (tx :: txes) full). cbn [txs_size foldr] in HQ. fold (txs_size txes) in HQ.
      rewrite N.add_assoc in HQ. unfold txs_hashed in *. cbn [fmap list_fmap concat] in *. rewrite <- app_assoc. by apply HQ.
Qed.

(** So far: what was sent is what was counted and hashed. *)
Definition so_far (t : trace BuildCall.t HostReply.t) (s : Build.State) : Prop :=
  s.(Build.block_size) = txs_size (sent_txs t) /\ s.(Build.hashed) = txs_hashed (sent_txs t) /\
  (s.(Build.block_size) <= max_size)%N.

Lemma sent_txs_snoc t c r :
  sent_txs (t ++ [(c, r)]) = sent_txs t ++ match sent_in c with Some part => transactions_of [part] | None => [] end.
Proof.
  unfold sent_txs. rewrite sent_app, transactions_of_app. f_equal. unfold sent. cbn. by destruct (sent_in c).
Qed.

Lemma transactions_of_one part : transactions_of [part] = default [] (SnPart.as_transactions part).
Proof. unfold transactions_of. cbn. destruct (SnPart.as_transactions part); cbn; by rewrite ?app_nil_r. Qed.

Lemma reap_loop_bound fuel s t : so_far t s -> bwp (Build.reap_loop params fuel s) (fun t' x => so_far t' x.1) t.
Proof.
  revert s t. induction fuel as [|fuel IH]; intros s t Hs; cbn [Build.reap_loop]; [apply wp_out_of_fuel|].
  wp_step. apply wp_yield; [done|]. intros r _. cbn [fst snd].
  assert (Hs1 : so_far (t ++ [(BuildCall.Reap params.(StarknetParams.txs_per_part), r)]) s).
  { unfold so_far. by rewrite sent_txs_snoc, app_nil_r. }
  destruct r as [| | | |[|tx reaped]]; try (by apply wp_fail); [by apply wp_ret|].
  set (t1 := t ++ _) in *. destruct Hs1 as (H1 & H2 & H3). wp_step. apply fill_spec; [done|]. intros txes full Hsz.
  cbn [fst snd]. wp_step. unfold Build.send_part. wp_step. apply wp_yield.
  { rewrite transactions_of_one, <- H1. exact Hsz. }
  intros r _. cbn [fst snd]. set (s1 := Build.mk _ _).
  assert (Hs2 : so_far (t1 ++ [(BuildCall.SendPart (SnPart.Transactions txes), r)]) s1).
  { unfold so_far. rewrite sent_txs_snoc. cbn [sent_in]. rewrite transactions_of_one. cbn [SnPart.as_transactions default].
    rewrite txs_size_app, txs_hashed_app. unfold s1. cbn [Build.block_size Build.hashed]. by rewrite <- H1, <- H2. }
  destruct (HostReply.is_ok r); [|by apply wp_fail]. apply wp_ret. cbn [fst snd].
  destruct full; [by apply wp_ret|]. wp_step. apply wp_yield; [done|]. intros r' _. cbn [fst snd].
  assert (Hs3 : so_far ((t1 ++ [(BuildCall.SendPart (SnPart.Transactions txes), r)]) ++ [(BuildCall.Elapsed, r')]) s1).
  { unfold so_far. by rewrite sent_txs_snoc, app_nil_r. }
  destruct (HostReply.flag r'); [by apply wp_ret|]. by apply IH.
Qed.

Lemma send_part_bound part s (Q : _ -> _ -> Prop) t :
  so_far t s -> SnPart.as_transactions part = None ->
  (forall t', so_far t' s -> Q t' (s, inr tt)) ->
  (forall t' e, so_far t' s -> Q t' (s, inl e)) ->
  bwp (Build.send_part part s) Q t.
Proof.
  intros Hs Hp HQ HE. unfold Build.send_part. wp_step. apply wp_yield.
  { rewrite transactions_of_one, Hp. cbn. destruct Hs as (H1 & _ & H3). lia. }
  intros r _. cbn [fst snd]. assert (so_far (t ++ [(BuildCall.SendPart part, r)]) s).
  { unfold so_far. rewrite sent_txs_snoc. cbn [sent_in]. by rewrite transactions_of_one, Hp, app_nil_r. }
  destruct (HostReply.is_ok r); [by apply wp_ret, HQ|by apply wp_fail, HE].
Qed.
Context (height : SnHeight.t) (round : Round.t) (proposer : SnAddress).

Lemma task_bound fuel : bwp (Build.task params height round proposer fuel) (fun _ _ => True) [].
Proof.
  unfold Build.task, Build.run_build_proposal_task. set (s0 := Build.mk 0 []).
  assert (H0 : so_far [] s0) by (split_and!; [done|done|apply N.le_0_l]).
  wp_step. apply send_part_bound; [done|done| |done]. intros t1 H1. cbn [fst snd]. wp_step. apply wp_yield; [done|].
  intros r _. cbn [fst snd]. assert (H2 : so_far (t1 ++ [(BuildCall.Now, r)]) s0).
  { unfold so_far. by rewrite sent_txs_snoc, app_nil_r. }
  wp_step. apply send_part_bound; [done|done| |done]. intros t2 H3. cbn [fst snd]. wp_step.
  eapply wp_mono; [by apply reap_loop_bound|]. intros t3 [s [e|[]]] Hs; cbn [fst snd] in *; [done|].
  wp_step. wp_step. wp_step. apply send_part_bound; [done|done| |done]. intros t4 H4. cbn [fst snd].
  wp_step. apply send_part_bound; [done|done| |done]. intros t5 H5. cbn [fst snd].
  wp_step. apply wp_yield; [done|]. intros r' _. cbn [fst snd]. by destruct (HostReply.is_ok r').
Qed.

(** C24: The transactions that the task puts into the parts of a proposal are together
    not larger than [max_block_size], at every point of every run, whatever the
    mempool hands out and however the clock runs. *)
Theorem block_size_bounded fuel t m :
  steps (Build.task params height round proposer fuel) t m -> (txs_size (sent_txs t) <= max_size)%N.
Proof.
  intros Hs. enough (H : forall t1 t2, t = t1 ++ t2 -> (txs_size (sent_txs t1) <= max_size)%N).
  { apply (H t []). by rewrite app_nil_r. }
  intros t1. induction t1 as [|[c r] t1 IH] using rev_ind; intros t2 ->; [apply N.le_0_l|].
  rewrite sent_txs_snoc, txs_size_app. rewrite <- app_assoc in Hs, IH.
  pose proof (wp_trace_allowed _ _ _ _ _ _ [] _ t1 c r t2 (task_bound fuel) Hs (answered_any _ _) eq_refl) as Ha. cbn in Ha.
  specialize (IH _ eq_refl). destruct c; cbn [sent_in]; try (cbn; lia). exact Ha.
Qed.
End bound.
(** *** The task ends *)

Section ends.
Context (height : SnHeight.t) (round : Round.t) (proposer : SnAddress) (limit : nat).

Definition tx_fits (tx : Transaction.t) : Prop :=
  (1 <= Transaction.size_bytes tx)%N /\ (max_size + Transaction.size_bytes tx <= U64_MAX)%N.

(** The other side of the channels is there, and the mempool hands out
    transactions that are not empty. *)
Definition answers_build (_ : trace BuildCall.t HostReply.t) (c : BuildCall.t) (r : HostReply.t) : Prop :=
  match c with
  | BuildCall.SendPart _ | BuildCall.SendValueId _ => r = HostReply.Ok
  | BuildCall.Reap _ => exists txes, r = HostReply.Txes txes /\ Forall tx_fits txes
  | BuildCall.Now | BuildCall.Elapsed => HostReply.is_ok r = true
  end.
Definition few_parts (t : trace BuildCall.t HostReply.t) (c : BuildCall.t) : Prop :=
  match c with BuildCall.SendPart _ => length (sent t) < limit + 4 | _ => True end.
Abbreviation ewp := (wp False few_parts answers_build).

Lemma fill_eq reaped s :
  (s.(Build.block_size) <= max_size)%N -> Forall tx_fits reaped ->
  exists txes full, Build.fill params reaped s =
      Complete (Build.mk (s.(Build.block_size) + txs_size txes) (s.(Build.hashed) ++ txs_hashed txes), inr (txes, full)) /\
    (s.(Build.block_size) + txs_size txes <= max_size)%N /\ (full = false -> txes = reaped).
Proof.
  revert s. induction reaped as [|tx reaped IH]; intros s Hs Hf.
  { exists [], false. cbn. rewrite N.add_0_r, app_nil_r. by destruct s. }
  apply Forall_cons in Hf as [[Hpos Hov] Hf]. cbn [Build.fill]. unfold get_state, lift, mbind, handler_bind. cbn [prog_bind fst snd].
  assert (Hadd : add_u64 s.(Build.block_size) (Transaction.size_bytes tx) = Ret (s.(Build.block_size) + Transaction.size_bytes tx)%N).
  { apply add_u64_Ret. split; [done|lia]. }
  rewrite Hadd. cbn [prog_bind fst snd]. destruct (N.ltb_spec max_size (s.(Build.block_size) + Transaction.size_bytes tx)).
  - exists [], true. cbn. rewrite N.add_0_r, app_nil_r. by destruct s.
  - destruct (IH (Build.mk (s.(Build.block_size) + Transaction.size_bytes tx) (s.(Build.hashed) ++ SnHash.as_bytes (Transaction.hash tx))))
      as (txes & full & He & Hb & Hfull); [done|done|]. exists (tx :: txes), full.
    cbn [put_state prog_bind fst snd]. unfold mbind, handler_bind in He. rewrite He. cbn [prog_bind fst snd Build.block_size Build.hashed] in *.
    cbn [txs_size foldr]. fold (txs_size txes). rewrite N.add_assoc. split_and!; [|lia|intros ->; by rewrite Hfull].
    unfold txs_hashed. cbn [fmap list_fmap concat]. by rewrite <- app_assoc.
Qed.

Lemma nonempty_size tx txes : Forall tx_fits (tx :: txes) -> (1 <= txs_size (tx :: txes))%N.
Proof. intros [[Hp _] _]%Forall_cons. cbn [txs_size foldr]. lia. Qed.

(** The turns that are left cover the room that is left in the block. *)
Lemma reap_loop_ends fuel s t :
  so_far t s -> N.to_nat (max_size - s.(Build.block_size)) < fuel -> length (sent t) + fuel <= limit + 2 ->
  ewp (Build.reap_loop params fuel s)
    (fun t' x => exists bs, sent t' = sent t ++ (SnPart.Transactions <$> bs) /\ length bs <= fuel /\
                            so_far t' x.1 /\ x.2 = inr tt) t.
Proof.
  revert s t. induction fuel as [|fuel IH]; intros s t Hs Hf Hl; [lia|]. cbn [Build.reap_loop].
  wp_step. apply wp_yield; [done|]. intros r (reaped & -> & Hfits). cbn [fst snd].
  assert (Hs1 : so_far (t ++ [(BuildCall.Reap params.(StarknetParams.txs_per_part), HostReply.Txes reaped)]) s).
  { unfold so_far. by rewrite sent_txs_snoc, app_nil_r. }
  assert (Ht1 : sent (t ++ [(BuildCall.Reap params.(StarknetParams.txs_per_part), HostReply.Txes reaped)]) = sent t).
  { rewrite sent_app. cbn. by rewrite app_nil_r. }
  destruct reaped as [|tx reaped].
  { apply wp_ret. exists []. rewrite Ht1, app_nil_r. split_and!; [done|cbn; lia|done|done]. }
  set (t1 := t ++ _) in *. destruct Hs1 as (H1 & H2 & H3). wp_step.
  destruct (fill_eq (tx :: reaped) s H3 Hfits) as (txes & full & -> & Hb & Hfull). cbn [wp fst snd].
  wp_step. unfold Build.send_part. wp_step. apply wp_yield; [cbn; rewrite Ht1; lia|]. intros r ->. cbn [fst snd HostReply.is_ok].
  apply wp_ret. cbn [fst snd]. set (s1 := Build.mk _ _). set (t2 := t1 ++ _).
  assert (Hs2 : so_far t2 s1).
  { unfold so_far, t2. rewrite sent_txs_snoc. cbn [sent_in]. rewrite transactions_of_one. cbn [SnPart.as_transactions default].
    rewrite txs_size_app, txs_hashed_app. unfold s1. cbn [Build.block_size Build.hashed]. by rewrite <- H1, <- H2. }
  assert (Ht2 : sent t2 = sent t ++ (SnPart.Transactions <$> [txes])) by (unfold t2; rewrite sent_app, Ht1; done).
  destruct full.
  { apply wp_ret. exists [txes]. split_and!; [done|cbn; lia|done|done]. }
  wp_step. apply wp_yield; [done|]. intros r Hr. cbn [fst snd]. set (t3 := t2 ++ _).
  assert (Ht3 : sent t3 = sent t2) by (unfold t3; rewrite sent_app; cbn; by rewrite app_nil_r).
  assert (Hs3 : so_far t3 s1) by (unfold so_far, t3; by rewrite sent_txs_snoc, app_nil_r).
  destruct (HostReply.flag r).
  { apply wp_ret. exists [txes]. rewrite Ht3. split_and!; [done|cbn; lia|done|done]. }
  pose proof (Hfull eq_refl) as Htx. pose proof (nonempty_size _ _ Hfits) as Hpos. rewrite <- Htx in Hpos.
  eapply wp_mono; [apply IH; [done| |rewrite Ht3, Ht2, length_app; cbn [length fmap list_fmap]; lia]|].
  { unfold s1. cbn [Build.block_size]. lia. }
  intros t' x (bs & Hbs & Hlen & Hx). exists (txes :: bs). rewrite Hbs, Ht3, Ht2, <- app_assoc.
  split_and!; [done|cbn [length]; lia|by apply Hx|by apply Hx].
Qed.
(** The parts of a proposal with the batches [bs]. *)
Definition proposal_parts (now : N) (bs : list TransactionBatch.t) : list SnPart.t :=
  let c := transaction_commitment (concat bs) in
  Build.init_part height round proposer :: Build.info_part height proposer now ::
  (SnPart.Transactions <$> bs) ++ [Build.commitment_part height proposer now c; SnPart.Fin c].

Definition value_in (c : BuildCall.t) : option SnHash.t := match c with BuildCall.SendValueId h => Some h | _ => None end.
Definition announced (t : trace BuildCall.t HostReply.t) : option SnHash.t := last (omap value_in t.*1).

Lemma announced_snoc t c r :
  announced (t ++ [(c, r)]) = match value_in c with Some h => Some h | None => announced t end.
Proof.
  unfold announced. rewrite fmap_app, omap_app. cbn. destruct (value_in c); [by rewrite last_snoc|by rewrite app_nil_r].
Qed.

Lemma transactions_of_batches bs : transactions_of (SnPart.Transactions <$> bs) = concat bs.
Proof. unfold transactions_of. induction bs as [|b bs IH]; cbn; [done|]. by rewrite IH. Qed.

Lemma send_part_ends part s t Q :
  length (sent t) < limit + 4 -> Q (t ++ [(BuildCall.SendPart part, HostReply.Ok)]) (s, inr tt) -> ewp (Build.send_part part s) Q t.
Proof.
  intros Hl HQ. unfold Build.send_part. wp_step. apply wp_yield; [done|]. intros r ->. cbn. exact HQ.
Qed.

Lemma parts_sent_snoc t c r : sent (t ++ [(c, r)]) = sent t ++ match sent_in c with Some part => [part] | None => [] end.
Proof. rewrite sent_app. unfold sent. cbn. by destruct (sent_in c). Qed.

Lemma task_ends : N.to_nat max_size < limit ->
  ewp (Build.task params height round proposer limit)
    (fun t x => exists now bs, sent t = proposal_parts now bs /\ announced t = Some (transaction_commitment (concat bs)) /\
       (txs_size (concat bs) <= max_size)%N /\ length bs <= limit /\ x.2 = inr tt) [].
Proof.
  intros Hlim. unfold Build.task, Build.run_build_proposal_task. wp_step. apply send_part_ends; [cbn; lia|]. cbn [fst snd].
  wp_step. apply wp_yield; [done|]. intros r _. cbn [fst snd]. set (now := HostReply.number r).
  wp_step. apply send_part_ends; [cbn; lia|]. cbn [fst snd]. set (t0 := _ ++ _).
  assert (Ht0 : sent t0 = [Build.init_part height round proposer; Build.info_part height proposer now]) by done.
  wp_step. eapply wp_mono; [apply reap_loop_ends|].
  { split_and!; [done|done|apply N.le_0_l]. }
  { cbn [Build.block_size]. by rewrite N.sub_0_r. }
  { rewrite Ht0. cbn. lia. }
  intros t1 [s r1] (bs & Hbs & Hlen & (Hb & Hh & Hsz) & Hr). cbn [fst snd] in *. subst r1. wp_step. wp_step. rewrite Ht0 in Hbs.
  assert (Htx : sent_txs t1 = concat bs).
  { unfold sent_txs. rewrite Hbs, transactions_of_app, transactions_of_batches. done. }
  assert (Hc : SnHash.new (keccak s.(Build.hashed)) = transaction_commitment (concat bs)) by by rewrite Hh, Htx.
  rewrite Hc. wp_step. apply send_part_ends; [rewrite Hbs, length_app, length_fmap; cbn; lia|]. cbn [fst snd].
  wp_step. apply send_part_ends; [rewrite parts_sent_snoc, Hbs, !length_app, length_fmap; cbn; lia|]. cbn [fst snd].
  wp_step. apply wp_yield; [done|]. intros r2 ->. cbn [fst snd HostReply.is_ok]. apply wp_ret. exists now, bs. split_and!.
  - rewrite !parts_sent_snoc, Hbs. cbn [sent_in]. unfold proposal_parts. cbn. rewrite app_nil_r, <- app_assoc. done.
  - by rewrite announced_snoc.
  - by rewrite <- Htx, <- Hb.
  - done.
  - done.
Qed.
(** C25: The task that builds a proposal ends, with as many turns as the block has
    room for, as long as the mempool hands out transactions that are not empty: it
    has then sent the header, the block information, the batches of transactions,
    their commitment and the end of the proposal, in this order, and the
    commitment is the value it announces. The mempool may answer differently each
    time. *)
Theorem build_terminates (env : trace BuildCall.t HostReply.t -> BuildCall.t -> HostReply.t) :
  N.to_nat max_size < limit -> (forall t c, answers_build t c (env t c)) ->
  exists t s now bs, run_with env [] (Build.task params height round proposer limit) = (t, Complete (s, inr tt)) /\
    sent t = proposal_parts now bs /\ announced t = Some (transaction_commitment (concat bs)) /\
    (txs_size (concat bs) <= max_size)%N.
Proof.
  intros Hlim Henv. destruct (wp_run_with env _ _ _ _ _ (task_ends Hlim) Henv) as (t & [s r] & Hr & now & bs & Hs & Ha & Hb & _ & Hx).
  cbn in Hx. subst r. by exists t, s, now, bs.
Qed.
End ends.
End build.

(** ** The host *)

Section host.
Context `{SE : StarknetEnv} {SM : StarknetMessages} {MH : MultihashLib}.
Abbreviation htrace := (trace HostCall.t HostReply.t).

Definition published_in (c : HostCall.t) : option (StreamMessage.t SnPart.t) :=
  match c with HostCall.PublishProposalPart m => Some m | _ => None end.
Definition published (t : htrace) : list (StreamMessage.t SnPart.t) := omap published_in t.*1.
Definition proposed_in (c : HostCall.t) : option ProposedValue.t := match c with HostCall.ReplyProposed v => Some v | _ => None end.
Definition proposed (t : htrace) : list ProposedValue.t := omap proposed_in t.*1.

Lemma published_app t t' : published (t ++ t') = published t ++ published t'.
Proof. unfold published. by rewrite fmap_app, omap_app. Qed.
Lemma host_proposed_app t t' : proposed (t ++ t') = proposed t ++ proposed t'.
Proof. unfold proposed. by rewrite fmap_app, omap_app. Qed.

(** The values that were handed to consensus for a proposal. *)
Definition built_in (c : HostCall.t) : option LocallyProposedValue.t := match c with HostCall.ReplyValue v => Some v | _ => None end.
Definition built (t : htrace) : list LocallyProposedValue.t := omap built_in t.*1.
Lemma built_app t t' : built (t ++ t') = built t ++ built t'.
Proof. unfold built. by rewrite fmap_app, omap_app. Qed.

(** All calls succeed, and the mempool hands out transactions that fit a block of
    these parameters. *)
Definition answers_host (params : StarknetParams.t) (_ : htrace) (c : HostCall.t) (r : HostReply.t) : Prop :=
  HostReply.is_ok r = true /\
  match c with
  | HostCall.Reap _ _ => exists txes, r = HostReply.Txes txes /\ Forall (tx_fits params) txes
  | _ => True
  end.

Section proofs.
Context (params : StarknetParams.t).
Abbreviation hwp := (wp False (fun (_ : htrace) (_ : HostCall.t) => True) (answers_host params)).

Lemma hwp_call c s (Q : htrace -> HostState.t * (string + unit) -> Prop) t :
  (forall r, Q (t ++ [(c, r)]) (s, inr tt)) -> hwp (call_ok c s) Q t.
Proof.
  intros HQ. unfold call_ok. wp_step. apply wp_yield; [done|]. intros r [Hr _]. cbn [fst snd]. rewrite Hr. by apply wp_ret.
Qed.

Lemma hwp_read {A} (f : BlockDb.t -> presult A) a s (Q : htrace -> HostState.t * (string + A) -> Prop) t :
  f s.(HostState.block_store) = ok a -> (forall r, Q (t ++ [(HostCall.DbTransaction, r)]) (s, inr a)) -> hwp (read_db f s) Q t.
Proof.
  intros Hf HQ. unfold read_db. wp_step. apply wp_yield; [done|]. intros r [Hr _]. cbn [fst snd]. wp_step. wp_step.
  rewrite Hr, Hf. by apply wp_ret.
Qed.

Lemma hwp_write (f : BlockDb.t -> presult BlockDb.t) db s (Q : htrace -> HostState.t * (string + unit) -> Prop) t :
  f s.(HostState.block_store) = ok db ->
  (forall r, Q (t ++ [(HostCall.DbTransaction, r)]) (HostState.set_block_store s db, inr tt)) -> hwp (write_db f s) Q t.
Proof.
  intros Hf HQ. unfold write_db. wp_step. eapply hwp_read; [done|]. intros r. cbn [fst snd]. wp_step. wp_step.
  by apply wp_put.
Qed.

(** *** The parts of the task, stored and published *)

Section receive.
Context (sid : StreamId) (height : SnHeight.t) (round : Round.t).

(** A state in which [parts] were stored, and the messages that carry them. *)
Definition store_all (self : PartStore.t) (parts : list SnPart.t) : PartStore.t :=
  foldl (fun store part => PartStore.store (Ctx := sn_context) store sid height round part) self parts.
Definition with_parts (s : HostState.t) (parts : list SnPart.t) : HostState.t :=
  HostState.set_part_store s (store_all s.(HostState.part_store) parts).
Definition part_messages (parts : list SnPart.t) : list (StreamMessage.t SnPart.t) :=
  imap (fun i part => StreamMessage.new sid (N.of_nat i) (StreamContent.Data part)) parts.

Lemma with_parts_snoc s parts part :
  with_parts s (parts ++ [part]) =
    HostState.set_part_store (with_parts s parts)
      (PartStore.store (with_parts s parts).(HostState.part_store) sid height round part).
Proof. unfold with_parts, store_all. by rewrite foldl_app. Qed.
Lemma part_messages_snoc parts part :
  part_messages (parts ++ [part]) =
    part_messages parts ++ [StreamMessage.new sid (N.of_nat (length parts)) (StreamContent.Data part)].
Proof. unfold part_messages. rewrite imap_app. cbn. by rewrite Nat.add_0_r. Qed.

Lemma hwp_receive_parts {X} (task : prog BuildCall.t HostReply.t X) limit Q t s T s0 T0 :
  wp False (few_parts limit) (answers_build params) task Q t ->
  (N.of_nat (limit + 4) <= U64_MAX)%N ->
  s = with_parts s0 (sent t) -> published T = published T0 ++ part_messages (sent t) -> built T = built T0 ->
  hwp (receive_parts sid height round task (N.of_nat (length (sent t))) (announced t) s)
    (fun T' x => exists t' y, Q t' y /\ published T' = published T0 ++ part_messages (sent t') /\ built T' = built T0 /\
       x = (with_parts s0 (sent t'), inr (N.of_nat (length (sent t')), announced t'))) T.
Proof.
  intros Htask Hlim. revert t s T Htask. induction task as [x|msg| |c k IH]; intros t s T Htask Hs HT HB; [|done|done|].
  { apply wp_ret. exists t, x. subst s. done. }
  destruct Htask as [Hc Hk]. destruct c as [part|n| | |h]; cbn [receive_parts].
  - wp_step. unfold stream_part. wp_step. wp_step. wp_step. apply wp_put. cbn [fst snd]. apply hwp_call. intros r.
    cbn [fst snd]. wp_step. eapply wp_lift_Ret; [apply add_u64_Ret; split; [done|cbn in Hc; lia]|]. cbn [fst snd].
    specialize (IH HostReply.Ok (t ++ [(BuildCall.SendPart part, HostReply.Ok)])).
    rewrite parts_sent_snoc, announced_snoc, length_app in IH. cbn [sent_in value_in length] in IH.
    rewrite Nat2N.inj_add in IH. apply IH.
    + by apply Hk.
    + by rewrite with_parts_snoc, <- Hs.
    + rewrite published_app, HT, part_messages_snoc, <- app_assoc. done.
    + rewrite built_app, HB. by rewrite app_nil_r.
  - wp_step. apply wp_yield; [done|]. intros r [Hr Hreap]. cbn [fst snd].
    specialize (IH r (t ++ [(BuildCall.Reap n, r)])). rewrite parts_sent_snoc, announced_snoc in IH. cbn [sent_in value_in] in IH.
    rewrite app_nil_r in IH. apply IH; [by apply Hk|done| |].
    + rewrite published_app, HT. by rewrite app_nil_r.
    + rewrite built_app, HB. by rewrite app_nil_r.
  - wp_step. apply wp_yield; [done|]. intros r [Hr _]. cbn [fst snd].
    specialize (IH r (t ++ [(BuildCall.Now, r)])). rewrite parts_sent_snoc, announced_snoc in IH. cbn [sent_in value_in] in IH.
    rewrite app_nil_r in IH. apply IH; [by apply Hk|done| |].
    + rewrite published_app, HT. by rewrite app_nil_r.
    + rewrite built_app, HB. by rewrite app_nil_r.
  - wp_step. apply wp_yield; [done|]. intros r [Hr _]. cbn [fst snd].
    specialize (IH r (t ++ [(BuildCall.Elapsed, r)])). rewrite parts_sent_snoc, announced_snoc in IH. cbn [sent_in value_in] in IH.
    rewrite app_nil_r in IH. apply IH; [by apply Hk|done| |].
    + rewrite published_app, HT. by rewrite app_nil_r.
    + rewrite built_app, HB. by rewrite app_nil_r.
  - specialize (IH HostReply.Ok (t ++ [(BuildCall.SendValueId h, HostReply.Ok)])). rewrite parts_sent_snoc, announced_snoc in IH.
    cbn [sent_in value_in] in IH. rewrite app_nil_r in IH. apply IH; [by apply Hk|done|done|done].
Qed.
Lemma store_all_parts self parts :
  PartStore.all_parts_by_stream_id (store_all self parts) sid height round =
    PartStore.all_parts_by_stream_id (Ctx := sn_context) self sid height round ++ parts.
Proof.
  unfold store_all. revert self. induction parts as [|part parts IH]; intros self; cbn [foldl]; [by rewrite app_nil_r|].
  rewrite IH, PartStore.parts_store, <- app_assoc. done.
Qed.

(** *** A built proposal is valid *)

Lemma find_map_batches {B} (f : SnPart.t -> option B) bs l :
  (forall b, f (SnPart.Transactions b) = None) -> find_map f ((SnPart.Transactions <$> bs) ++ l) = find_map f l.
Proof. intros Hf. induction bs as [|b bs IH]; cbn; [done|]. by rewrite Hf. Qed.

Definition value_of (proposer : SnAddress) (bs : list TransactionBatch.t) : ProposedValue.t :=
  ProposedValue.mk (Ctx := sn_context) height round Round.Nil proposer (transaction_commitment (concat bs)) Validity.Valid.

Lemma proposal_transactions proposer now bs : transactions_of (proposal_parts height round proposer now bs) = concat bs.
Proof.
  unfold proposal_parts. change (transactions_of ((SnPart.Transactions <$> bs) ++
    [Build.commitment_part height proposer now (transaction_commitment (concat bs)); SnPart.Fin (transaction_commitment (concat bs))]) = concat bs).
  rewrite transactions_of_app, transactions_of_batches. cbn. by rewrite app_nil_r.
Qed.

Lemma build_proposal proposer now bs :
  build_proposal_from_parts height round (proposal_parts height round proposer now bs) = Ret (value_of proposer bs).
Proof.
  unfold build_proposal_from_parts. rewrite bool_decide_false by done. cbn [negb assert_that mbind outcome_bind].
  rewrite proposal_transactions. unfold proposal_parts. cbn [find_map Build.init_part Build.info_part SnPart.as_init SnPart.as_fin SnPart.as_block_info SnPart.as_commitment].
  rewrite !find_map_batches by done. cbn -[transaction_commitment bool_decide]. unfold verify_proposal_validity.
  cbn -[transaction_commitment bool_decide]. by rewrite !bool_decide_true by done.
Qed.
(** *** The proposer *)

Definition local_value (value : ProposedValue.t) : LocallyProposedValue.t :=
  LocallyProposedValue.new value.(ProposedValue.height) value.(ProposedValue.round) value.(ProposedValue.value).

(** The messages of a stream: the parts, and its end. *)
Definition stream_messages (parts : list SnPart.t) : list (StreamMessage.t SnPart.t) :=
  part_messages parts ++ [StreamMessage.new sid (N.of_nat (length parts)) StreamContent.Fin].

Lemma hwp_catch_write (f : BlockDb.t -> presult BlockDb.t) s (Q : htrace -> HostState.t * (string + (string + unit)) -> Prop) t :
  (forall r y, Q (t ++ [(HostCall.DbTransaction, r)])
     (match f s.(HostState.block_store) with Ret (inr db) => HostState.set_block_store s db | _ => s end, inr y)) ->
  hwp (catch (write_db f) s) Q t.
Proof.
  intros HQ. apply wp_catch. unfold write_db, read_db. wp_step. wp_step. apply wp_yield; [done|]. intros r [Hr _].
  cbn [fst snd]. wp_step. wp_step. rewrite Hr. specialize (HQ r).
  destruct (f s.(HostState.block_store)) as [[e|db]|] eqn:Hf.
  - apply wp_fail. cbn. apply HQ.
  - apply wp_ret. cbn [fst snd]. wp_step. wp_step. apply wp_put. cbn. apply HQ.
  - apply wp_fail. cbn. apply HQ.
Qed.

(** They form a stream that starts with the header of the proposal. *)
Lemma lookup_part_messages parts i m :
  part_messages parts !! i = Some m -> exists part, parts !! i = Some part /\
    m = StreamMessage.new sid (N.of_nat i) (StreamContent.Data part).
Proof. unfold part_messages. rewrite list_lookup_imap. intros (part & Hp & Hm)%fmap_Some. by exists part. Qed.

Lemma length_part_messages parts : length (part_messages parts) = length parts.
Proof. apply length_imap. Qed.

Lemma stream_messages_ok parts init :
  parts !! 0 = Some (SnPart.Init init) -> (N.of_nat (S (length parts)) <= U64_MAX)%N ->
  stream SnPart.as_init sid init (stream_messages parts).
Proof.
  intros H0 Hlen. assert (Hcase : forall i m, stream_messages parts !! i = Some m ->
    (exists part, parts !! i = Some part /\ m = StreamMessage.new sid (N.of_nat i) (StreamContent.Data part)) \/
    (i = length parts /\ m = StreamMessage.new sid (N.of_nat i) StreamContent.Fin)).
  { intros i m [Hm|[Hi Hm]]%lookup_app_Some; [left; by apply lookup_part_messages|right].
    rewrite length_part_messages in Hm, Hi. apply list_lookup_singleton_Some in Hm as [Hm <-].
    assert (i = length parts) as -> by lia. done. }
  split.
  - intros i m [(part & _ & ->)|[_ ->]]%Hcase; done.
  - intros i m [(part & _ & ->)|[_ ->]]%Hcase; done.
  - intros m [(part & Hp & ->)|[Hl _]]%Hcase; [|by destruct parts]. rewrite H0 in Hp. by injection Hp as <-.
  - intros i m Hm. unfold stream_messages. rewrite length_app, length_part_messages. cbn.
    apply Hcase in Hm as [(part & Hp & ->)|[-> ->]]; cbn.
    + apply lookup_lt_Some in Hp. split; [done|lia].
    + split; [lia|done].
  - unfold stream_messages. rewrite length_app, length_part_messages. cbn. lia.
Qed.

Lemma stream_messages_data parts : data (stream_messages parts) = parts.
Proof.
  unfold data, stream_messages. rewrite omap_app. cbn. rewrite app_nil_r.
  induction parts as [|part parts IH] using rev_ind; [done|]. by rewrite part_messages_snoc, omap_app, IH.
Qed.

Section proposer.
Context (sp sp' : HostState.t) (fuel : nat) (values : list ProposedValue.t).
Abbreviation me := sp.(HostState.address).
Context (Hparams : sp.(HostState.params) = params) (Htxs : (0 < params.(StarknetParams.txs_per_part))%N).
Context (Hfuel : N.to_nat params.(StarknetParams.max_block_size) < fuel) (Hroom : (N.of_nat (fuel + 4) <= U64_MAX)%N).
Context (Hid : stream_id sp = Ret (sp', sid)).
Context (Hfresh : PartStore.all_parts_by_stream_id sp.(HostState.part_store) sid height round = []).
Context (Hvalues : BlockDb.get_undecided_values sp.(HostState.block_store) height round = ok values).
Context (Hnone : List.find (fun v => bool_decide ((v.(ProposedValue.proposer) : SnAddress) = me)) values = None).

Lemma stream_id_state : sp' = HostState.set_nonce sp sp'.(HostState.nonce).
Proof using Hid. pose proof Hid as H. unfold stream_id in H. clear -H. inv_ret. by simplify_eq. Qed.

Lemma hwp_build_new_value t :
  hwp (build_new_value fuel height round sp)
    (fun t' x => exists now bs, let parts := proposal_parts height round me now bs in
       published t' = published t ++ stream_messages parts /\ built t' = built t /\
       (txs_size (concat bs) <= params.(StarknetParams.max_block_size))%N /\ length bs <= fuel /\
       x.2 = inr (value_of me bs) /\ x.1.(HostState.block_store) = sp.(HostState.block_store)) t.
Proof using Hparams Htxs Hfuel Hroom Hid Hfresh.
  unfold build_new_value. wp_step. wp_step. wp_step. rewrite Hparams. unfold assert_m.
  eapply (wp_lift_Ret _ _ _ _ tt). { unfold assert_that. by rewrite (proj2 (N.ltb_lt _ _) Htxs). }
  cbn [fst snd]. wp_step. unfold next_stream_id. wp_step. wp_step. wp_step. eapply wp_lift_Ret; [exact Hid|]. cbn [fst snd].
  wp_step. apply wp_put. cbn [fst snd]. apply wp_ret. cbn [fst snd]. wp_step.
  eapply wp_mono.
  { eapply (hwp_receive_parts _ fuel _ [] sp' t sp' t); [by apply task_ends|done|by destruct sp'| |done].
    cbn. by rewrite app_nil_r. }
  intros t1 [s1 r1] (tb & y & (now & bs & Hsent & Hann & Hsz & Hlbs & _) & Hpub & Hb & [= -> ->]). cbn [fst snd].
  rewrite Hann, Hsent in *. wp_step. apply hwp_call. intros r2. cbn [fst snd]. wp_step. wp_step. wp_step. apply wp_put. cbn [fst snd].
  set (store := PartStore.store_value_id _ _ _ _ _).
  assert (Hparts : PartStore.all_parts_by_stream_id store sid height round = proposal_parts height round me now bs).
  { unfold store. rewrite PartStore.parts_store_value_id. unfold with_parts. cbn [HostState.part_store HostState.set_part_store].
    rewrite store_all_parts, stream_id_state. cbn [HostState.part_store HostState.set_nonce]. by rewrite Hfresh. }
  rewrite Hparts. eapply wp_lift_Ret; [apply build_proposal|]. exists now, bs. split_and!.
  - rewrite published_app, Hpub. unfold stream_messages. by rewrite <- app_assoc.
  - rewrite built_app, Hb. by rewrite app_nil_r.
  - done.
  - done.
  - done.
  - cbn. rewrite stream_id_state. done.
Qed.
Lemma hwp_get_value :
  hwp (handle fuel (HostMsg.GetValue height round) sp)
    (fun t' x => exists now bs,
       published t' = stream_messages (proposal_parts height round me now bs) /\
       built t' = [local_value (value_of me bs)] /\
       (txs_size (concat bs) <= params.(StarknetParams.max_block_size))%N /\ length bs <= fuel /\ x.2 = inr tt /\
       (forall db, BlockDb.insert_undecided_value sp.(HostState.block_store) (value_of me bs) = ok db ->
          x.1.(HostState.block_store) = db)) [].
Proof using Hparams Htxs Hfuel Hroom Hid Hfresh Hvalues Hnone.
  unfold handle. wp_step. apply wp_catch. cbn [handle_msg]. unfold on_get_value. wp_step.
  unfold find_previously_built_value. wp_step. unfold get_undecided_values. eapply hwp_read; [exact Hvalues|]. intros r. cbn [fst snd].
  wp_step. wp_step. rewrite Hnone. apply wp_ret. cbn [fst snd]. wp_step. eapply wp_mono; [apply hwp_build_new_value|].
  intros t1 [s1 r1] (now & bs & Hpub & Hb & Hsz & Hlbs & Hr & Hdb). cbn [fst snd] in *. subst r1. wp_step.
  unfold store_undecided_value. apply hwp_catch_write. intros r2 y. cbn [fst snd]. unfold reply_value. apply hwp_call. intros r3.
  cbn [fst snd]. apply wp_ret. exists now, bs. split_and!.
  - rewrite !published_app, Hpub. cbn. by rewrite !app_nil_r.
  - rewrite !built_app, Hb. done.
  - done.
  - done.
  - done.
  - intros db Hins. rewrite Hdb, Hins. done.
Qed.
End proposer.
(** *** The receiver *)

Section receiver.
Context (p : PeerId) (fuel : nat) (proposer : SnAddress) (now total : N) (bs : list TransactionBatch.t).
Abbreviation parts := (proposal_parts height round proposer now bs).
Abbreviation M := (stream_messages parts).
Abbreviation v := (value_of proposer bs).
Abbreviation the_init := (ProposalInit.mk height round Round.Nil proposer).
Context (Hsize : total_size parts = Ret total) (Hlen : (N.of_nat (S (length parts)) <= U64_MAX)%N).

Definition stored_parts (s : HostState.t) : list SnPart.t :=
  PartStore.all_parts_by_stream_id s.(HostState.part_store) sid height round.

Abbreviation no_fin := (Forall (fun part => SnPart.as_fin part = None)).
Lemma find_map_no_fin l : no_fin l -> find_map SnPart.as_fin l = None.
Proof. induction 1 as [|x l Hx _ IH]; cbn; [done|]. by rewrite Hx. Qed.

Lemma parts_front :
  exists front, parts = front ++ [SnPart.Fin (transaction_commitment (concat bs))] /\ no_fin front.
Proof.
  exists (Build.init_part height round proposer :: Build.info_part height proposer now ::
     (SnPart.Transactions <$> bs) ++ [Build.commitment_part height proposer now (transaction_commitment (concat bs))]).
  split; [unfold proposal_parts; cbn; by rewrite <- app_assoc|].
  repeat constructor. apply Forall_app. split; [|by repeat constructor]. by apply Forall_fmap, Forall_forall.
Qed.

Lemma stored_snoc s (part : SnPart.t) :
  @eq (list SnPart.t)
    (PartStore.all_parts_by_stream_id (PartStore.store s.(HostState.part_store) sid height round part) sid height round)
    (stored_parts s ++ [part]).
Proof. apply PartStore.parts_store. Qed.

(** The parts but the last are kept. *)
Lemma build_value_quiet s part :
  no_fin (stored_parts s ++ [part]) ->
  build_value_from_part s sid height round part = Ret (with_parts s [part], None).
Proof.
  intros Hf. unfold build_value_from_part. cbn [HostState.part_store HostState.set_part_store].
  rewrite stored_snoc. by rewrite (find_map_no_fin _ Hf).
Qed.

(** The last part completes the value. *)
Lemma build_value_last s part :
  stored_parts s ++ [part] = parts ->
  build_value_from_part s sid height round part =
    Ret (HostState.set_part_store (with_parts s [part])
           (PartStore.store_value_id (with_parts s [part]).(HostState.part_store) sid height round
              (transaction_commitment (concat bs))), Some v).
Proof using Hsize.
  intros Hp. unfold build_value_from_part. cbn [HostState.part_store HostState.set_part_store].
  rewrite stored_snoc, Hp, Hsize. cbn [mbind outcome_bind]. rewrite build_proposal.
  unfold proposal_parts. cbn [find_map Build.init_part Build.info_part SnPart.as_fin SnPart.as_block_info SnPart.as_commitment].
  rewrite !find_map_batches by done. done.
Qed.
Lemma stored_with_parts s l : stored_parts (with_parts s l) = stored_parts s ++ l.
Proof. apply store_all_parts. Qed.

Lemma with_parts_cons s part l : with_parts s (part :: l) = with_parts (with_parts s [part]) l.
Proof. done. Qed.

Lemma hwp_process_quiet l s (Q : htrace -> HostState.t * (string + unit) -> Prop) t :
  no_fin (stored_parts s ++ l) -> Q t (with_parts s l, inr tt) -> hwp (process_parts sid height round l s) Q t.
Proof.
  revert s. induction l as [|part l IH]; intros s Hf HQ; cbn [process_parts]; [apply wp_ret; by destruct s|].
  wp_step. wp_step. wp_step. eapply wp_lift_Ret.
  { apply build_value_quiet. rewrite (cons_middle part) in Hf. rewrite (assoc_L (++)) in Hf. by apply Forall_app in Hf as [Hf _]. }
  cbn [fst snd]. wp_step. apply wp_put. cbn [fst snd]. apply IH; [|done].
  rewrite stored_with_parts, <- app_assoc. exact Hf.
Qed.

(** What is left of a state when the last part has come. *)
Record completed (s s' : HostState.t) : Prop := {
  completed_height : s'.(HostState.height) = s.(HostState.height);
  completed_streams : s'.(HostState.part_streams_map) = s.(HostState.part_streams_map);
  completed_parts : stored_parts s' = parts;
  completed_entry : exists e, BTreeMap.get (PartStore.key sid height round) s'.(HostState.part_store) = Some e /\
    e.(PartStore.Entry.value_id) = Some (transaction_commitment (concat bs));
  completed_db db : BlockDb.insert_undecided_value s.(HostState.block_store) v = ok db -> s'.(HostState.block_store) = db;
}.

Lemma hwp_process_last l s (Q : htrace -> HostState.t * (string + unit) -> Prop) t :
  stored_parts s ++ l = parts -> l <> [] -> s.(HostState.height) = height ->
  (forall s' r r', completed s s' ->
     Q ((t ++ [(HostCall.DbTransaction, r)]) ++ [(HostCall.ReplyProposed v, r')]) (s', inr tt)) ->
  hwp (process_parts sid height round l s) Q t.
Proof using Hsize.
  destruct parts_front as (front & Hfront & Hfin). revert s. induction l as [|part l IH]; intros s Hl Hne Hh HQ; [done|].
  cbn [process_parts]. wp_step. wp_step. wp_step. destruct l as [|part' l].
  - eapply wp_lift_Ret; [by apply build_value_last|]. cbn [fst snd]. wp_step. apply wp_put. cbn [fst snd]. wp_step.
    unfold store_proposed_value. wp_step. wp_step. cbn [HostState.height HostState.set_part_store with_parts]. rewrite Hh.
    assert (Hlt : SnHeight.ltb height height = false) by (unfold SnHeight.ltb; by rewrite !N.ltb_irrefl, andb_false_r).
    rewrite Hlt. wp_step. unfold store_undecided_value. apply hwp_catch_write. intros r y. cbn [fst snd]. apply wp_ret. cbn [fst snd].
    apply hwp_call. intros r'. apply HQ. set (s1 := HostState.set_part_store _ _).
    assert (Hs1 : stored_parts s1 = parts).
    { unfold s1, stored_parts. cbn [HostState.part_store HostState.set_part_store]. rewrite PartStore.parts_store_value_id.
      change (stored_parts (with_parts s [part]) = parts). by rewrite stored_with_parts. }
    split.
    + by repeat case_match.
    + by repeat case_match.
    + rewrite <- Hs1. by repeat case_match.
    + eexists. split.
      * transitivity (BTreeMap.get (PartStore.key sid height round) s1.(HostState.part_store)); [by repeat case_match|].
        apply BTreeMap.get_insert.
      * done.
    + intros db Hdb. cbn [s1 HostState.block_store HostState.set_part_store with_parts]. by rewrite Hdb.
  - eapply wp_lift_Ret.
    { apply build_value_quiet. rewrite Hfront in Hl. rewrite (cons_middle part), (assoc_L (++)) in Hl.
      destruct (exists_last (l := part' :: l)) as (l1 & x & Hx); [done|]. rewrite Hx, (assoc_L (++)) in Hl.
      apply app_inj_tail in Hl as [Hl _]. rewrite <- Hl in Hfin. by apply Forall_app in Hfin as [Hfin _]. }
    cbn [fst snd]. wp_step. apply wp_put. cbn [fst snd]. apply IH; [|done|done|].
    + rewrite stored_with_parts, <- app_assoc. exact Hl.
    + intros s' r r' [H1 H2 H3 H4 H5]. apply HQ. by split.
Qed.
(** *** All deliveries *)

Context (s : HostState.t) (db : BlockDb.t).
Context (Hheight : s.(HostState.height) = height) (Hdb : BlockDb.insert_undecided_value s.(HostState.block_store) v = ok db).

Lemma stream_ok : stream SnPart.as_init sid the_init M.
Proof using Hlen. by apply stream_messages_ok. Qed.

(** The parts that have been emitted after the arrivals [D], and whether they are
    all of them. *)
Definition emitted_by (D : gset Sequence) : list SnPart.t := data (arrived D M).
Definition full (D : gset Sequence) : bool := length (emitted_by D) =? length parts.

Lemma emitted_prefix D : emitted_by D `prefix_of` parts.
Proof.
  unfold emitted_by. pose proof (stream_messages_data parts) as Hd. destruct (arrived_prefix D M) as [l Hl].
  exists (data l). rewrite Hl in Hd at 1. unfold data in *. by rewrite omap_app in Hd.
Qed.

Lemma full_eq D : full D = true -> emitted_by D = parts.
Proof.
  unfold full. rewrite Nat.eqb_eq. intros Hl. destruct (emitted_prefix D) as [k Hk]. rewrite Hk in Hl |- *.
  rewrite length_app in Hl. destruct k; [by rewrite app_nil_r|cbn in Hl; lia].
Qed.

Record received (D : gset Sequence) (t : htrace) (s' : HostState.t) : Prop := {
  received_height : s'.(HostState.height) = height;
  received_stream : all_arrived D M = false -> stream_state sid the_init M p s'.(HostState.part_streams_map) D;
  received_parts : stored_parts s' = emitted_by D;
  received_proposed : proposed t = if full D then [v] else [];
  received_db : s'.(HostState.block_store) = if full D then db else s.(HostState.block_store);
  received_entry : full D = true ->
    exists e, BTreeMap.get (PartStore.key sid height round) s'.(HostState.part_store) = Some e /\
      e.(PartStore.Entry.value_id) = Some (transaction_commitment (concat bs));
}.

Lemma ltb_self (h : SnHeight.t) : SnHeight.ltb h h = false.
Proof. unfold SnHeight.ltb. by rewrite !N.ltb_irrefl, andb_false_r. Qed.

Lemma emitted_no_fin D : full D = false -> no_fin (emitted_by D).
Proof.
  intros Hfull. destruct parts_front as (front & Hfront & Hfin). destruct (emitted_prefix D) as [k Hk].
  unfold full in Hfull. apply Nat.eqb_neq in Hfull. rewrite Hk in Hfull. rewrite Hfront in Hk.
  destruct (exists_last (l := k)) as (k1 & x & Hx); [intros ->; by rewrite app_nil_r in Hfull|].
  rewrite Hx, (assoc_L (++)) in Hk. apply app_inj_tail in Hk as [Hk _]. rewrite Hk in Hfin.
  by apply Forall_app in Hfin as [Hfin _].
Qed.

(** The parts [l] are emitted with the arrivals [D']. *)
Lemma hwp_emission D D' l streams s' t :
  received D t s' -> emitted_by D ++ l = emitted_by D' -> l <> [] ->
  (all_arrived D' M = false -> stream_state sid the_init M p streams D') ->
  hwp (process_parts sid height round l (HostState.set_streams s' streams))
    (fun t' x => x.2 = inr tt /\ received D' t' x.1) t.
Proof using Hsize Hlen Hheight Hdb.
  intros [Hh Hst Hparts Hprop Hbs Hentry] He Hne Hst'.
  assert (Hnot : full D = false).
  { unfold full. apply Nat.eqb_neq. pose proof (prefix_length _ _ (emitted_prefix D')) as Hp. rewrite <- He, length_app in Hp.
    assert (0 < length l) by (destruct l; [done|cbn [length]; lia]). lia. }
  rewrite Hnot in Hprop, Hbs. destruct (full D') eqn:Hfull.
  - apply hwp_process_last; [|done|done|].
    { change (stored_parts s' ++ l = parts). rewrite Hparts, He. by apply full_eq. }
    intros s1 r r' [H1 H2 H3 H4 H5]. split; [done|]. split; cbn [fst snd]; try rewrite Hfull; try done.
    + by rewrite H1.
    + intros Hm1. rewrite H2. by apply Hst'.
    + rewrite H3. symmetry. by apply full_eq.
    + by rewrite !host_proposed_app, Hprop.
    + apply H5. cbn. by rewrite Hbs.
  - apply hwp_process_quiet.
    { change (no_fin (stored_parts s' ++ l)). rewrite Hparts, He. by apply emitted_no_fin. }
    split; [done|]. split; cbn [fst snd]; try rewrite Hfull; try done.
    rewrite <- He, <- Hparts. apply (stored_with_parts (HostState.set_streams s' streams)).
Qed.

Lemma hwp_received_part D m s' t :
  m ∈ M -> all_arrived D M = false -> received D t s' ->
  hwp (handle fuel (HostMsg.ReceivedProposalPart p m) s')
    (fun t' x => x.2 = inr tt /\ received ({[m.(StreamMessage.sequence)]} ∪ D) t' x.1) t.
Proof using Hsize Hlen Hheight Hdb.
  intros Hm Hmore Hrec. pose proof Hrec as [Hh Hst Hparts Hprop Hbs Hentry]. unfold handle. wp_step. apply wp_catch. cbn [handle_msg].
  unfold on_received_proposal_part. wp_step. wp_step.
  pose proof (deliver_one SnPart.as_init sid the_init M stream_ok p s'.(HostState.part_streams_map) D m Hm (Hst Hmore) Hmore) as Hd.
  cbv zeta in Hd. set (D1 := {[StreamMessage.sequence m]} ∪ D) in *.
  destruct Hd as (streams & out & Hi & [He Hhd] & _ & Hk). wp_step. eapply wp_lift_Ret; [exact Hi|]. cbn [fst snd].
  wp_step. apply wp_put. cbn [fst snd].
  assert (Hst1 : all_arrived D1 M = false -> stream_state sid the_init M p streams D1).
  { intros Hm1. unfold stream_state. by rewrite Hk, Hm1. }
  assert (Hsid : StreamMessage.stream_id m = sid).
  { apply list_elem_of_lookup in Hm as [i Hi']. by eapply (stream_ids _ _ _ _ stream_ok). }
  destruct out as [o|].
  - change (emitted_by D ++ (ProposalParts.parts o ++ []) = emitted_by D1) in He. rewrite app_nil_r in He.
    apply Forall_cons in Hhd as [[Ho Hne] _]. rewrite Ho.
    cbn [ProposalParts.height ProposalParts.round ProposalParts.parts ProposalParts.from_init ProposalInit.height ProposalInit.round].
    rewrite Hh, ltb_self, Hsid. eapply wp_mono; [by apply (hwp_emission D D1)|].
    intros t' [s1 r1] [Hr Hs1]. cbn [fst snd] in *. subst r1. by apply wp_ret.
  - change (emitted_by D ++ [] = emitted_by D1) in He. rewrite app_nil_r in He.
    assert (Hfull : full D1 = full D) by (unfold full; by rewrite He).
    apply wp_ret. split; [done|]. split; cbn [fst snd]; try done; rewrite ?Hfull; try done. by rewrite <- He.
Qed.

Lemma hwp_received_all ds D s' t :
  Forall (fun m => m ∈ M) ds -> in_time M D ds -> received D t s' ->
  hwp (run fuel (HostMsg.ReceivedProposalPart p <$> ds) s')
    (fun t' x => x.2 = inr tt /\ received (D ∪ arrivals ds) t' x.1) t.
Proof using Hsize Hlen Hheight Hdb.
  revert D s' t. induction ds as [|m ds IH]; intros D s' t Hds Ht Hrec; cbn [fmap list_fmap run].
  { apply wp_ret. split; [done|]. unfold arrivals. cbn [fmap list_fmap list_to_set]. by rewrite union_empty_r_L. }
  apply Forall_cons in Hds as [Hm Hds]. destruct Ht as [Hmore Ht]. wp_step. eapply wp_mono; [by apply (hwp_received_part D)|].
  intros t1 [s1 r1] [Hr Hs1]. cbn [fst snd] in *. subst r1. eapply wp_mono; [by apply (IH ({[StreamMessage.sequence m]} ∪ D))|].
  intros t2 x [Hx Hrec2]. split; [done|]. replace (D ∪ arrivals (m :: ds)) with ({[StreamMessage.sequence m]} ∪ D ∪ arrivals ds); [done|].
  unfold arrivals. cbn. set_solver.
Qed.

Lemma received_nothing t :
  s.(HostState.part_streams_map) !! (p, sid) = None -> stored_parts s = [] -> proposed t = [] -> received ∅ t s.
Proof using Hsize Hlen Hheight Hdb.
  intros Hnew Hempty Ht. assert (He : emitted_by ∅ = []).
  { unfold emitted_by. cbn. by rewrite bool_decide_eq_false_2 by set_solver. }
  assert (Hf : full ∅ = false) by (unfold full; by rewrite He).
  split; rewrite ?Hf; try done.
  intros _. unfold stream_state. rewrite Hnew. cbn [from_option]. by rewrite (state_for_empty _ _ _ _ stream_ok).
Qed.

Lemma all_received ds : (forall m, m ∈ M -> m ∈ ds) -> Forall (fun m => m ∈ M) ds -> full (arrivals ds) = true.
Proof using Hlen.
  intros Hall Hds. apply (all_arrived_iff SnPart.as_init sid the_init M stream_ok ds Hds) in Hall.
  unfold all_arrived in Hall. apply bool_decide_eq_true in Hall. change (length (arrived (arrivals ds) M) = length M) in Hall. unfold full. apply Nat.eqb_eq. f_equal.
  unfold emitted_by. destruct (arrived_prefix (arrivals ds) M) as [l Hl].
  assert (l = []) as ->. { apply (f_equal length) in Hl. rewrite length_app in Hl. destruct l; [done|cbn [length] in Hl; lia]. }
  rewrite app_nil_r in Hl. rewrite <- Hl. apply stream_messages_data.
Qed.
End receiver.
End receive.
End proofs.

(** *** From the proposer to the receivers *)

(** The host can build a proposal: its channel has room, the turns cover the
    block, it has a round, its next stream is new, and it has not built a value
    for this height and round. *)
Record can_build (fuel : nat) (sp : HostState.t) (sid : StreamId) (height : SnHeight.t) (round : Round.t) : Prop := {
  build_channel : (0 < sp.(HostState.params).(StarknetParams.txs_per_part))%N;
  build_fuel : N.to_nat sp.(HostState.params).(StarknetParams.max_block_size) < fuel;
  build_room : (N.of_nat (fuel + 5) <= U64_MAX)%N;
  build_id : exists sp', stream_id sp = Ret (sp', sid);
  build_fresh : PartStore.all_parts_by_stream_id sp.(HostState.part_store) sid height round = [];
  build_first : exists values, BlockDb.get_undecided_values sp.(HostState.block_store) height round = ok values /\
    Forall (fun v => (v.(ProposedValue.proposer) : SnAddress) <> sp.(HostState.address)) values;
}.

Lemma find_none {A} (f : A -> bool) l : Forall (fun x => f x = false) l -> List.find f l = None.
Proof. induction 1 as [|x l Hx _ IH]; cbn; [done|]. by rewrite Hx. Qed.

Lemma get_value_run fuel sp sid height round env :
  can_build fuel sp sid height round -> (forall t c, answers_host sp.(HostState.params) t c (env t c)) ->
  exists t sp' now bs, let v := value_of height round sp.(HostState.address) bs in
    run_with env [] (handle fuel (HostMsg.GetValue height round) sp) = (t, Complete (sp', inr tt)) /\
    published t = stream_messages sid (proposal_parts height round sp.(HostState.address) now bs) /\
    built t = [local_value v] /\ (txs_size (concat bs) <= sp.(HostState.params).(StarknetParams.max_block_size))%N /\
    length bs <= fuel /\
    forall db, BlockDb.insert_undecided_value sp.(HostState.block_store) v = ok db -> sp'.(HostState.block_store) = db.
Proof.
  intros [Htxs Hfuel Hroom [sp1 Hid] Hfresh (values & Hvalues & Hnone)] Henv.
  assert (Hfind : List.find (fun v => bool_decide ((v.(ProposedValue.proposer) : SnAddress) = sp.(HostState.address))) values = None).
  { apply find_none. eapply Forall_impl; [exact Hnone|]. intros v Hv. by apply bool_decide_eq_false. }
  assert (Hroom' : (N.of_nat (fuel + 4) <= U64_MAX)%N) by lia.
  pose proof (hwp_get_value sp.(HostState.params) sid height round sp sp1 fuel values eq_refl Htxs Hfuel Hroom' Hid Hfresh Hvalues Hfind) as Hwp.
  destruct (wp_run_with env _ _ _ _ _ Hwp Henv) as (t & [s1 r1] & Hrun & now & bs & Hpub & Hb & Hsz & Hlbs & Hr & Hdb).
  cbn [fst snd] in *. subst r1. by exists t, s1, now, bs.
Qed.

(** C19: A proposal reaches the other hosts. A host that is asked for a value builds
    one from what the mempool hands out, of at most [max_block_size] bytes, and
    announces it. Let a host at the same height receive the messages it published,
    all of them, in any order and any number of times: when the last missing one
    has been handled, it has reported exactly one proposal to consensus, the
    announced value, of that proposer, valid, and has stored it as an undecided
    value. *)
Theorem starknet_proposal_delivered (fuel : nat) (sp : HostState.t) sid height round env :
  can_build fuel sp sid height round -> (forall t c, answers_host sp.(HostState.params) t c (env t c)) ->
  exists t sp' txes, let v := value_of height round sp.(HostState.address) txes in
    run_with env [] (handle fuel (HostMsg.GetValue height round) sp) = (t, Complete (sp', inr tt)) /\
    built t = [local_value v] /\ (txs_size (concat txes) <= sp.(HostState.params).(StarknetParams.max_block_size))%N /\
    forall (p : PeerId) s ds env' total b,
      s.(HostState.height) = height -> s.(HostState.part_streams_map) !! (p, sid) = None ->
      PartStore.all_parts_by_stream_id s.(HostState.part_store) sid height round = [] ->
      total_size (data (published t)) = Ret total -> encode_with encode_proposed_value v = ok b ->
      (forall m, m ∈ ds <-> m ∈ published t) ->
      (forall t c, answers_host s.(HostState.params) t c (env' t c)) ->
      exists ds1 m ds2 t' s', ds = ds1 ++ m :: ds2 /\ (m ∉ ds1) /\ (forall x, x ∈ published t -> x ∈ ds1 ++ [m]) /\
        run_with env' [] (run fuel (HostMsg.ReceivedProposalPart p <$> ds1 ++ [m]) s) = (t', Complete (s', inr tt)) /\
        proposed t' = [v] /\
        BTreeMap.get (BlockDb.proposed_key v) s'.(HostState.block_store).(BlockDb.undecided_values) = Some b.
Proof.
  intros Hcan Henv. pose proof (build_room _ _ _ _ _ Hcan) as Hroom.
  destruct (get_value_run fuel sp sid height round env Hcan Henv) as (t & s1 & now & bs & Hrun & Hpub & Hb & Hsz & Hlbs & _).
  exists t, s1, bs. split_and!; [done|done|done|].
  intros p s ds0 env' total b Hheight Hnew Hempty Htotal Henc Hds0 Henv'. rewrite Hpub in *.
  rewrite stream_messages_data in Htotal.
  set (v := value_of _ _ _ _) in *. set (db := BlockDb.mk s.(HostState.block_store).(BlockDb.certificates) s.(HostState.block_store).(BlockDb.decided_blocks)
    (BTreeMap.insert (BlockDb.proposed_key v) b s.(HostState.block_store).(BlockDb.undecided_values)) s.(HostState.block_store).(BlockDb.pending_values)).
  assert (Hdb : BlockDb.insert_undecided_value s.(HostState.block_store) v = ok db).
  { unfold BlockDb.insert_undecided_value. by rewrite Henc. }
  assert (Hlen : (N.of_nat (S (length (proposal_parts height round sp.(HostState.address) now bs))) <= U64_MAX)%N).
  { unfold proposal_parts. cbn [length]. rewrite length_app, length_fmap. cbn [length]. lia. }
  assert (Hin0 : Forall (fun m => m ∈ stream_messages sid (proposal_parts height round sp.(HostState.address) now bs)) ds0)
    by (apply Forall_forall; intros m; apply Hds0).
  destruct (last_missing SnPart.as_init sid _ _ (stream_ok sid height round sp.(HostState.address) now bs Hlen) ds0 Hin0
    (fun m => proj2 (Hds0 m))) as (ds1 & last & ds2 & Hsplit & Hlast & Hcover & Ht).
  set (ds := ds1 ++ [last]) in *.
  assert (Hin : Forall (fun m => m ∈ stream_messages sid (proposal_parts height round sp.(HostState.address) now bs)) ds).
  { rewrite Hsplit, (cons_middle last), (assoc_L (++)) in Hin0. by apply Forall_app in Hin0 as [? _]. }
  pose proof (hwp_received_all s.(HostState.params) sid height round p fuel sp.(HostState.address) now total bs Htotal Hlen s db Hheight Hdb ds ∅ s []) as Hall.
  destruct (wp_run_with env' _ _ _ _ _ (Hall
      Hin Ht
      (received_nothing sid height round p sp.(HostState.address) now total bs Htotal Hlen s db Hheight Hdb [] Hnew Hempty eq_refl)) Henv')
    as (t' & [s' r'] & Hrun' & Hr' & [_ _ _ Hprop Hbs _]).
  cbn [fst snd] in *. subst r'. rewrite union_empty_l_L in Hprop, Hbs.
  assert (Hfull : full sid height round sp.(HostState.address) now bs (arrivals ds) = true).
  { by apply all_received. }
  rewrite Hfull in Hprop, Hbs.
  exists ds1, last, ds2, t', s'. split_and!; [done|done|done|done|done|]. rewrite Hbs. apply BTreeMap.get_insert.
Qed.
(** *** Values of a height and a round *)

Section values.
Context (height : SnHeight.t) (round : Round.t) (Hround : (Round.as_i64 round <= Z.of_N U32_MAX)%Z).
Implicit Types (table : BTreeMap.t UndecidedValueKey bytes) (key : UndecidedValueKey).

Definition in_range key : bool :=
  negb (key_ltb key (value_key height round BlockDb.hash_min)) && key_ltb key (value_key height round BlockDb.hash_max).

Lemma key_range_eq {A B} `{EqDecision A, KeyOrder A, KeyOrder B, !KeyOrderLaws A, !KeyOrderLaws B} (x : A * B) a b c :
  key_ltb x (a, b) = false -> key_ltb x (a, c) = true -> x.1 = a /\ key_ltb x.2 b = false /\ key_ltb x.2 c = true.
Proof.
  unfold key_ltb at 1 2, prod_key_order. cbn. rewrite orb_false_iff, orb_true_iff. intros [Hlt Hb] [Hc|Hc]; [congruence|].
  case_bool_decide; [|done]. done.
Qed.

Lemma in_range_key key : in_range key = true -> key = value_key height round key.2.2 /\ key_ltb key.2.2 BlockDb.hash_max = true.
Proof.
  unfold in_range. rewrite andb_true_iff, negb_true_iff. intros [H1 H2].
  destruct (key_range_eq (A := HeightKey) (B := Z * SnHash.t) key _ _ _ H1 H2) as (Hh & H3 & H4).
  destruct (key_range_eq (A := Z) (B := SnHash.t) key.2 _ _ _ H3 H4) as (Hr & _ & H5).
  split; [|done]. destruct key as [k [z x]]. cbn in *. by subst.
Qed.

Lemma value_key_back x : value_key_value (value_key height round x) = Ret (height, round, x).
Proof using Hround.
  unfold value_key_value, value_key, height_from_bytes, height_as_bytes. cbn.
  assert (Hr : Round.from_i64 (Round.as_i64 round) = Ret round).
  { unfold Round.from_i64. rewrite (proj2 (Z.leb_le _ _) Hround). cbn. destruct round as [|r]; [done|]. cbn.
    rewrite (proj2 (Z.ltb_ge _ _)) by lia. unfold Round.new. by rewrite N2Z.id. }
  rewrite Hr. cbn. by destruct height.
Qed.

Lemma values_range_eq table :
  BlockDb.values_range table (value_key height round BlockDb.hash_min) (value_key height round BlockDb.hash_max) =
  Ret ((fun key => (height, round, key.2.2)) <$> List.filter in_range (List.map fst table)).
Proof using Hround.
  induction table as [|[key b] table IH]; [done|]. cbn [BlockDb.values_range List.map List.filter fst].
  change (negb (key_ltb key _) && key_ltb key _) with (in_range key). destruct (in_range key) eqn:Hk; [|done].
  destruct (in_range_key key Hk) as [Hkey _]. rewrite Hkey at 1. rewrite value_key_back, IH. done.
Qed.

(** The value under the hash [x]. *)
Definition value_at table (x : SnHash.t) : outcome (option ProposedValue.t) :=
  BlockDb.stored (decode_with decode_proposed_value) (BTreeMap.get (value_key height round x) table).
Definition hashes table : list SnHash.t := (fun key => key.2.2) <$> List.filter in_range (List.map fst table).

Lemma get_values_eq table :
  BlockDb.get_values table height round =
  values ← BlockDb.collect_values table ((fun x => (height, round, x)) <$> hashes table); ok values.
Proof using Hround.
  unfold BlockDb.get_values. rewrite values_range_eq. cbn [mbind outcome_bind]. unfold hashes. by rewrite <- list_fmap_compose.
Qed.

Lemma collect_values_inv table xs vs :
  BlockDb.collect_values table ((fun x => (height, round, x)) <$> xs) = Ret vs ->
  Forall (fun x => exists o, value_at table x = Ret o /\ forall v, o = Some v -> v ∈ vs) xs.
Proof.
  revert vs. induction xs as [|x xs IH]; intros vs H; [constructor|]. cbn [fmap list_fmap BlockDb.collect_values] in H. inv_ret.
  fold (value_at table x) in *. constructor.
  - eexists. split; [done|]. intros v ->. apply list_elem_of_here.
  - eapply Forall_impl; [by apply IH|]. intros y (o & Ho & Hv). exists o. split; [done|]. intros v Hov.
    case_match; [apply list_elem_of_further|]; by apply Hv.
Qed.

Lemma collect_values_total table xs :
  Forall (fun x => exists o, value_at table x = Ret o) xs ->
  exists vs, BlockDb.collect_values table ((fun x => (height, round, x)) <$> xs) = Ret vs /\
    forall v, v ∈ vs <-> exists x, x ∈ xs /\ value_at table x = Ret (Some v).
Proof.
  induction 1 as [|x xs [o Ho] _ (vs & Hvs & Hin)].
  { exists []. split; [done|]. intros v. split; [by intros ?%not_elem_of_nil|by intros (x & ?%not_elem_of_nil & _)]. }
  cbn [fmap list_fmap BlockDb.collect_values]. fold (value_at table x). rewrite Ho, Hvs. cbn [mbind outcome_bind]. eexists. split; [done|].
  intros v. split.
  - intros Hv. destruct o as [w|]; [apply elem_of_cons in Hv as [->|Hv]|].
    + exists x. split; [apply list_elem_of_here|done].
    + apply Hin in Hv as (y & Hy & Hyv). exists y. split; [by apply list_elem_of_further|done].
    + apply Hin in Hv as (y & Hy & Hyv). exists y. split; [by apply list_elem_of_further|done].
  - intros (y & [->|Hy]%elem_of_cons & Hyv).
    + rewrite Ho in Hyv. injection Hyv as ->. apply list_elem_of_here.
    + assert (v ∈ vs) by (apply Hin; eauto). case_match; [by apply list_elem_of_further|done].
Qed.
End values.

(** *** A built value is proposed again *)

Section again.
Context {laws : StarknetEnvLaws} (params : StarknetParams.t) (height : SnHeight.t) (round : Round.t).
Context (Hround : (Round.as_i64 round <= Z.of_N U32_MAX)%Z).
Abbreviation hwp := (wp False (fun (_ : htrace) (_ : HostCall.t) => True) (answers_host params)).

Lemma proposed_value_trip v p :
  proposed_value_ok v -> (forall q : Pb.Hash, wire_roundtrips q) -> encode_proposed_value v = ok p -> decode_proposed_value p = ok v.
Proof using laws.
  destruct v as [[n f] r vr who value validity]. intros [Hr Hv] Hwire He. cbn in Hr, Hv. unfold round_ok in Hr.
  unfold encode_proposed_value in He. cbn [ProposedValue.height ProposedValue.round ProposedValue.value ProposedValue.proposer
    ProposedValue.valid_round ProposedValue.validity] in He. apply non_nil_defined in Hr as (m & -> & Hm). rewrite Hm in He. cbn [mbind outcome_bind] in He.
  destruct (hash_round_trip value Hv) as (q & Hq & Hd). destruct (to_from_bytes (T := SnHash.t) q value) as [Ht Hf]; [done|done|done|].
  rewrite Ht, and_then_ok in He. destruct (address_round_trip who I) as (a & Ha & Had). rewrite Ha, and_then_ok in He. apply ok_inj in He as <-.
  unfold decode_proposed_value. cbn [PbSync.pv_proposer PbSync.pv_value required]. rewrite and_then_ok, Hf, and_then_ok, Had, and_then_ok.
  cbn. destruct vr, validity; done.
Qed.

Lemma hashes_insert k b table x :
  x ∈ hashes height round (BTreeMap.insert k b table) -> x = k.2.2 \/ x ∈ hashes height round table.
Proof.
  unfold hashes. intros (k' & -> & [Hin Hk]%list_elem_of_In%List.filter_In)%list_elem_of_fmap.
  apply List.in_map_iff in Hin as ([k1 b1] & <- & [[= -> ->]|Hin]%list_elem_of_In%BTreeMap.elem_of_insert); [by left|right].
  apply list_elem_of_fmap. eexists. split; [done|]. apply list_elem_of_In, List.filter_In. split; [|done].
  apply List.in_map_iff. exists (k1, b1). split; [done|]. by apply list_elem_of_In.
Qed.
Lemma hash_inserted k b table : in_range height round k = true -> k.2.2 ∈ hashes height round (BTreeMap.insert k b table).
Proof.
  intros Hk. unfold hashes. apply list_elem_of_fmap. exists k. split; [done|]. apply list_elem_of_In, List.filter_In. split; [|done].
  apply List.in_map_iff. exists (k, b). split; [done|]. apply list_elem_of_In, BTreeMap.get_Some_elem, BTreeMap.get_insert.
Qed.

(** The values after one was added: that one, and those that were there. *)
Lemma values_after_insert db db' values v :
  BlockDb.get_undecided_values db height round = ok values ->
  BlockDb.insert_undecided_value db v = ok db' ->
  v.(ProposedValue.height) = height -> v.(ProposedValue.round) = round -> in_range height round (BlockDb.proposed_key v) = true ->
  (forall p, encode_proposed_value v = ok p -> wire_roundtrips p /\ decode_proposed_value p = ok v) ->
  exists values', BlockDb.get_undecided_values db' height round = ok values' /\ v ∈ values' /\
    forall w, w ∈ values' -> w = v \/ w ∈ values.
Proof using Hround.
  intros Hvalues Hins Hh Hr Hrange Hdec. unfold BlockDb.insert_undecided_value, encode_with in Hins.
  apply and_then_inv in Hins as (b & He & Hins). apply and_then_inv in He as (p & He & Hb). apply ok_inj in Hb as <-. apply ok_inj in Hins as <-.
  destruct (Hdec _ He) as [Hw Hd]. set (b := encode_to_vec p) in *. set (k := BlockDb.proposed_key v) in *.
  assert (Hk : k = value_key height round v.(ProposedValue.value)) by (unfold k, BlockDb.proposed_key; by rewrite Hh, Hr).
  set (table' := BTreeMap.insert k b db.(BlockDb.undecided_values)).
  assert (Hat : value_at height round table' v.(ProposedValue.value) = Ret (Some v)).
  { unfold value_at, table'. rewrite <- Hk, BTreeMap.get_insert. cbn [BlockDb.stored]. unfold decode_with, b. rewrite Hw. cbn [decoded]. by rewrite and_then_ok, Hd. }
  assert (Hother : forall x, x <> v.(ProposedValue.value) -> value_at height round table' x = value_at height round db.(BlockDb.undecided_values) x).
  { intros x Hx. unfold value_at, table'. rewrite BTreeMap.get_insert_ne; [done|]. rewrite Hk. unfold value_key. intros [= Hx']. by apply Hx. }
  unfold BlockDb.get_undecided_values in Hvalues |- *. cbn [BlockDb.undecided_values]. fold table'. rewrite get_values_eq in Hvalues |- * by done.
  apply bind_ok_inv in Hvalues as (vs & Hold & Hvs). apply ok_inj in Hvs as ->. apply collect_values_inv in Hold. rewrite Forall_forall in Hold.
  pose proof (hashes_insert k b db.(BlockDb.undecided_values)) as Hhash. fold table' in Hhash. rewrite Hk in Hhash. cbn [value_key snd] in Hhash.
  destruct (collect_values_total height round table' (hashes height round table')) as (values' & Hc & Hin).
  { apply Forall_forall. intros x Hx. destruct (decide (x = v.(ProposedValue.value))) as [->|Hne]; [by eexists|].
    rewrite Hother by done. destruct (Hhash x Hx) as [|Hx']; [done|]. destruct (Hold x Hx') as (o & Ho & _). by exists o. }
  rewrite Hc. exists values'. split; [done|]. split.
  - apply Hin. exists v.(ProposedValue.value). split; [|done]. by apply (hash_inserted k b).
  - intros w (x & Hx & Hxw)%Hin. destruct (decide (x = v.(ProposedValue.value))) as [->|Hne].
    + rewrite Hat in Hxw. injection Hxw as ->. by left.
    + right. rewrite Hother in Hxw by done. destruct (Hhash x Hx) as [|Hx']; [done|]. destruct (Hold x Hx') as (o & Ho & Hv).
      rewrite Hxw in Ho. injection Ho as <-. by apply Hv.
Qed.

Lemma find_only {A} (f : A -> bool) l v : v ∈ l -> f v = true -> (forall w, w ∈ l -> f w = true -> w = v) -> List.find f l = Some v.
Proof.
  intros Hv Hf Hall. induction l as [|w l IH]; [by apply not_elem_of_nil in Hv|]. cbn. destruct (f w) eqn:Hw.
  - f_equal. apply Hall; [apply list_elem_of_here|done].
  - apply elem_of_cons in Hv as [->|Hv]; [congruence|]. apply IH; [done|]. intros x Hx. apply Hall. by apply list_elem_of_further.
Qed.

(** A host whose only own value of this height and round is [v]. *)
Lemma hwp_get_value_again s fuel values v t :
  BlockDb.get_undecided_values s.(HostState.block_store) height round = ok values -> v ∈ values ->
  (v.(ProposedValue.proposer) : SnAddress) = s.(HostState.address) ->
  (forall w, w ∈ values -> (w.(ProposedValue.proposer) : SnAddress) = s.(HostState.address) -> w = v) ->
  hwp (handle fuel (HostMsg.GetValue height round) s)
    (fun t' x => x.2 = inr tt /\ t'.*1 = t.*1 ++ [HostCall.DbTransaction; HostCall.ReplyValue (local_value v)]) t.
Proof.
  intros Hvalues Hv Hme Honly. unfold handle. wp_step. apply wp_catch. cbn [handle_msg]. unfold on_get_value. wp_step.
  unfold find_previously_built_value. wp_step. unfold get_undecided_values. eapply hwp_read; [exact Hvalues|]. intros r. cbn [fst snd].
  wp_step. wp_step. rewrite (find_only _ _ v); [|done|by apply bool_decide_eq_true|intros w Hw Hp; apply Honly; [done|by apply bool_decide_eq_true in Hp]].
  apply wp_ret. cbn [fst snd]. unfold reply_value. apply hwp_call. intros r'. cbn [fst snd]. apply wp_ret.
  split; [done|]. by rewrite !fmap_app, <- app_assoc.
Qed.
End again.

Lemma bytes_ltb_zero n b : length b = n -> SnHash.bytes_ltb b (replicate n Byte.x00) = false.
Proof.
  revert n. induction b as [|x b IH]; intros [|n] Hl; try done. cbn in *. rewrite IH by lia.
  rewrite andb_false_r, orb_false_r. apply N.ltb_ge. lia.
Qed.
Lemma key_ltb_same {A B} `{EqDecision A, KeyOrder A, KeyOrder B, !KeyOrderLaws A} (a : A) (x y : B) : key_ltb (a, x) (a, y) = key_ltb x y.
Proof. unfold key_ltb at 1, prod_key_order. cbn. by rewrite key_ltb_irrefl, bool_decide_true. Qed.

Lemma value_key_ltb height round x y : key_ltb (value_key height round x) (value_key height round y) = key_ltb x y.
Proof.
  transitivity (key_ltb (K := Z * SnHash.t) (Round.as_i64 round, x) (Round.as_i64 round, y)); [|apply key_ltb_same].
  apply (key_ltb_same (A := HeightKey) (B := Z * SnHash.t)).
Qed.

(** The values of the host are in the range that is searched, but for one hash. *)
Lemma built_in_range {laws : StarknetEnvLaws} height round proposer bs :
  key_ltb (transaction_commitment (concat bs)) BlockDb.hash_max = true ->
  in_range height round (BlockDb.proposed_key (value_of height round proposer bs)) = true.
Proof.
  intros Hmax. unfold in_range, BlockDb.proposed_key, value_of. cbn [ProposedValue.height ProposedValue.round ProposedValue.value].
  rewrite !value_key_ltb, Hmax, andb_true_r. apply negb_true_iff. apply bytes_ltb_zero, keccak_length.
Qed.

(** C20: A value that was built is proposed again. When a host has built a value, then
    the same host with the same block store, restarted or not, answers the next
    request for a value of that height and round with the same value, and
    publishes no other proposal; but for the largest of all hashes, which the
    search of the store leaves out. *)
Theorem starknet_value_reproposed {laws : StarknetEnvLaws} fuel (sp : HostState.t) sid height (r : N) env :
  let round := Round.Some r in
  can_build fuel sp sid height round -> (forall t c, answers_host sp.(HostState.params) t c (env t c)) -> (r <= U32_MAX)%N ->
  (forall q : Pb.Hash, wire_roundtrips q) ->
  (forall txes q, encode_proposed_value (value_of height round sp.(HostState.address) txes) = ok q -> wire_roundtrips q) ->
  exists t sp' value,
    run_with env [] (handle fuel (HostMsg.GetValue height round) sp) = (t, Complete (sp', inr tt)) /\ built t = [value] /\
    forall s fuel' env',
      key_ltb (value.(LocallyProposedValue.value) : SnHash.t) BlockDb.hash_max = true ->
      s.(HostState.address) = sp.(HostState.address) -> s.(HostState.block_store) = sp'.(HostState.block_store) ->
      (forall t c, answers_host s.(HostState.params) t c (env' t c)) ->
      exists t' s', run_with env' [] (handle fuel' (HostMsg.GetValue height round) s) = (t', Complete (s', inr tt)) /\
        built t' = [value] /\ published t' = [].
Proof.
  intros round Hcan Henv Hr Hhw Hvw. destruct (build_first _ _ _ _ _ Hcan) as (values & Hvalues & Hnone).
  destruct (get_value_run fuel sp sid height round env Hcan Henv) as (t & s1 & now & bs & Hrun & _ & Hb & _ & _ & Hdb).
  set (v := value_of height round sp.(HostState.address) bs) in *. exists t, s1, (local_value v). split; [done|]. split; [done|].
  assert (Hok : proposed_value_ok v) by (split; [done|]; apply keccak_length).
  assert (Henc : exists p, encode_proposed_value v = ok p).
  { destruct (hash_round_trip v.(ProposedValue.value) (proj2 Hok)) as (q & Hq & _). eexists. unfold encode_proposed_value, to_bytes.
    cbn [ProposedValue.round v value_of non_nil round Round.as_u32 Round.to_option expect mbind outcome_bind to_proto hash_protobuf]. by rewrite Hq. }
  destruct Henc as [p Hp]. assert (Hins : exists db, BlockDb.insert_undecided_value sp.(HostState.block_store) v = ok db).
  { eexists. unfold BlockDb.insert_undecided_value, encode_with. by rewrite Hp. }
  destruct Hins as [db Hins]. specialize (Hdb _ Hins). intros s fuel' env' Hmax Hme Hs Henv'. rewrite Hdb in Hs.
  assert (Hround : (Round.as_i64 round <= Z.of_N U32_MAX)%Z) by (cbn [round Round.as_i64]; lia).
  destruct (values_after_insert height round Hround _ _ values v Hvalues Hins eq_refl eq_refl) as (values' & Hv' & Hin & Hall).
  { by apply built_in_range. }
  { intros q Hq. split; [by eapply Hvw|]. by apply proposed_value_trip. }
  rewrite <- Hs in Hv'.
  assert (Honly : forall w, w ∈ values' -> (w.(ProposedValue.proposer) : SnAddress) = s.(HostState.address) -> w = v).
  { intros w [->|Hw]%Hall Hp'; [done|]. rewrite Forall_forall in Hnone. exfalso. apply (Hnone w Hw). by rewrite Hp'. }
  destruct (wp_run_with env' _ _ _ _ _ (hwp_get_value_again s.(HostState.params) height round s fuel' values' v [] Hv' Hin (eq_sym Hme) Honly) Henv')
    as (t' & [s' r'] & Hrun' & Hr' & Ht'). cbn [fst snd] in *. subst r'. exists t', s'. split; [done|].
  unfold built, published. rewrite Ht'. done.
Qed.

(** *** Decided blocks *)

Lemma get_remove_other {V} (m : BTreeMap.t HeightKey V) k k' :
  k' <> k -> BTreeMap.get k' (BTreeMap.remove k m) = BTreeMap.get k' m.
Proof.
  intros Hne. unfold BTreeMap.remove. rewrite (BTreeMap.get_retain_key (fun k' => negb (bool_decide (k' = k)))).
  by rewrite bool_decide_false.
Qed.
Lemma get_remove_all {V} (m : BTreeMap.t HeightKey V) ks k :
  Forall (fun k' => k <> k') ks -> BTreeMap.get k (foldl (fun m k => BTreeMap.remove k m) m ks) = BTreeMap.get k m.
Proof.
  intros Hks. revert m. induction Hks as [|k' ks Hk _ IH]; intros m; cbn; [done|]. by rewrite IH, get_remove_other.
Qed.
Lemma insert_last {V} (m : BTreeMap.t HeightKey V) k v :
  Forall (fun kv => key_ltb kv.1 k = true) m -> BTreeMap.insert k v m = m ++ [(k, v)].
Proof.
  induction 1 as [|[k' v'] m Hk _ IH]; cbn; [done|]. cbn in Hk. rewrite (BTreeMap.key_ltb_asym _ _ Hk).
  rewrite decide_False; [by rewrite IH|]. intros ->. by rewrite key_ltb_irrefl in Hk.
Qed.

Definition next_in (c : HostCall.t) : option SnHeight.t := match c with HostCall.ReplyNext h _ => Some h | _ => None end.
Definition served_in (c : HostCall.t) : option (option RawDecidedValue.t) :=
  match c with HostCall.ReplyDecided v => Some v | _ => None end.
Definition updates_in (c : HostCall.t) : option (list SnHash.t) := match c with HostCall.MempoolUpdate hs => Some hs | _ => None end.
Definition select {A} (f : HostCall.t -> option A) (t : htrace) : list A := omap f t.*1.
Lemma select_app {A} (f : HostCall.t -> option A) t t' : select f (t ++ t') = select f t ++ select f t'.
Proof. unfold select. by rewrite fmap_app, omap_app. Qed.

Section decided.
Context {laws : StarknetEnvLaws} (params : StarknetParams.t) (s : HostState.t) (fuel : nat).
Context (certificate : CommitCertificate.t) (next : SnHeight.t) (total : N) (block_proto : Pb.Block) (certificate_proto : PbSync.CommitCertificate).
Abbreviation hwp := (wp False (fun (_ : htrace) (_ : HostCall.t) => True) (answers_host params)).
Abbreviation height := (certificate.(CommitCertificate.height) : SnHeight.t).
Definition decided_parts : list SnPart.t :=
  PartStore.all_parts_by_value_id s.(HostState.part_store) certificate.(CommitCertificate.value_id).
Definition the_block : SnBlock.t := (BlockDb.decided_block certificate (transactions_of decided_parts)).(DecidedBlock.block).
Abbreviation block_bytes := (encode_to_vec block_proto).
Abbreviation cert_bytes := (encode_to_vec certificate_proto).

Context (Htotal : total_size decided_parts = Ret total) (Hnext : SnHeight.increment s.(HostState.height) = Ret next).
Context (Hblock : SnBlock.to_proto the_block = ok block_proto) (Hcert : encode_commit_certificate certificate = ok certificate_proto).
Context (Hok : block_ok the_block) (Hcok : commit_certificate_ok certificate).
Context (Hwire : wire_roundtrips block_proto) (Hcwire : wire_roundtrips certificate_proto).
Context (Hnewest : Forall (fun kv => key_ltb kv.1 (height_as_bytes height) = true) s.(HostState.block_store).(BlockDb.decided_blocks)).

Definition inserted : BlockDb.t :=
  let db := s.(HostState.block_store) in
  BlockDb.mk (BTreeMap.insert (height_as_bytes height) cert_bytes db.(BlockDb.certificates))
    (BTreeMap.insert (height_as_bytes height) block_bytes db.(BlockDb.decided_blocks))
    db.(BlockDb.undecided_values) db.(BlockDb.pending_values).

Lemma insert_decided : BlockDb.insert_decided_block s.(HostState.block_store) (BlockDb.decided_block certificate (transactions_of decided_parts)) = ok inserted.
Proof using Hblock Hcert.
  unfold BlockDb.insert_decided_block, to_bytes, BlockDb.encode_certificate. cbn [to_proto block_protobuf BlockDb.decided_block DecidedBlock.block DecidedBlock.certificate].
  unfold the_block in Hblock. cbn in Hblock |- *. by rewrite Hblock, Hcert.
Qed.

(** The database holds the block and its certificate. *)
Definition holds (db : BlockDb.t) : Prop :=
  BTreeMap.get (height_as_bytes height) db.(BlockDb.decided_blocks) = Some block_bytes /\
  BTreeMap.get (height_as_bytes height) db.(BlockDb.certificates) = Some cert_bytes.

Lemma get_decided db : holds db -> BlockDb.get_decided_block db height = ok (Some (DecidedBlock.mk the_block certificate)).
Proof using laws Hblock Hcert Hok Hcok Hwire Hcwire.
  intros [H1 H2]. unfold BlockDb.get_decided_block. rewrite H1, H2. cbn [BlockDb.stored]. unfold from_bytes, BlockDb.decode_certificate.
  rewrite Hwire, Hcwire. cbn [decoded]. rewrite !and_then_ok.
  destruct (block_round_trip the_block Hok) as (q & Hq & Hd). rewrite Hblock in Hq. apply ok_inj in Hq as <-.
  destruct (commit_certificate_round_trip certificate Hcok) as (q & Hq & Hd'). rewrite Hcert in Hq. apply ok_inj in Hq as <-.
  cbn [from_proto block_protobuf]. rewrite Hd, Hd'. done.
Qed.

Lemma prune_holds retain db' l :
  (retain <= height.(SnHeight.block_number))%N ->
  BlockDb.prune inserted (SnHeight.new retain height.(SnHeight.fork_id)) = ok (db', l) -> holds db'.
Proof.
  intros Hle Hp. unfold BlockDb.prune in Hp. apply ok_inj in Hp. injection Hp as <- _.
  set (keys := List.filter _ _). assert (Hk : Forall (fun k' => height_as_bytes height <> k') keys).
  { apply Forall_forall. intros k [_ Hk]%list_elem_of_In%List.filter_In <-. unfold height_as_bytes, key_ltb, HeightKey_order, prod_key_order in Hk.
    cbn in Hk. rewrite bool_decide_true in Hk by done. unfold key_ltb, N_key_order in Hk. rewrite N.ltb_irrefl in Hk. cbn in Hk. apply N.ltb_lt in Hk. lia. }
  split; cbn [BlockDb.decided_blocks BlockDb.certificates]; rewrite get_remove_all by done; apply BTreeMap.get_insert.
Qed.

Lemma last_inserted : BlockDb.last_key inserted = Some height.
Proof using Hnewest.
  unfold BlockDb.last_key, inserted, BTreeMap.last_key_value. cbn [BlockDb.decided_blocks]. rewrite insert_last by done.
  rewrite last_snoc. cbn. unfold height_from_bytes. cbn. by destruct (CommitCertificate.height certificate).
Qed.
Lemma hwp_prune s1 (Q : htrace -> HostState.t * (string + unit) -> Prop) t :
  s1.(HostState.block_store) = inserted ->
  (forall s2 t', t'.*1 = t.*1 ++ [HostCall.DbTransaction] \/ t'.*1 = t.*1 ++ [HostCall.DbTransaction; HostCall.DbTransaction] ->
     holds s2.(HostState.block_store) -> s2.(HostState.height) = s1.(HostState.height) ->
     Q t' (s2, inr tt)) ->
  hwp (prune_block_store s1) Q t.
Proof using Hnewest.
  intros Hs1 HQ. unfold prune_block_store, last_height, read_height. wp_step. wp_step. apply wp_yield; [done|]. intros r [Hr _].
  cbn [fst snd]. wp_step. wp_step. apply wp_ret. cbn [fst snd]. rewrite Hr, Hs1, last_inserted. cbn [default from_option].
  wp_step. wp_step. set (retain := (_ - _)%N). destruct (N.leb_spec retain 1).
  { apply wp_ret. apply HQ; [left; by rewrite fmap_app| |done]. rewrite Hs1. split; apply BTreeMap.get_insert. }
  wp_step. apply hwp_catch_write. intros r' y. cbn [fst snd]. apply wp_ret. apply HQ.
  - right. by rewrite !fmap_app, <- app_assoc.
  - rewrite Hs1. destruct (BlockDb.prune inserted _) as [[e|[db l]]|] eqn:Hp; [done| |done].
    cbn. eapply prune_holds; [|exact Hp]. unfold retain. apply N.le_sub_l.
  - by repeat case_match.
Qed.

Lemma select_fst {A} (f : HostCall.t -> option A) t l t' : t'.*1 = t.*1 ++ l -> select f t' = select f t ++ omap f l.
Proof. unfold select. intros ->. by rewrite omap_app. Qed.

Lemma hwp_decided t :
  hwp (handle fuel (HostMsg.Decided certificate) s)
    (fun t' x => x.2 = inr tt /\ holds x.1.(HostState.block_store) /\
       select next_in t' = select next_in t ++ [next] /\
       select updates_in t' = select updates_in t ++ [Transaction.hash <$> transactions_of decided_parts] /\
       select served_in t' = select served_in t /\ select proposed_in t' = select proposed_in t) t.
Proof using Htotal Hnext Hblock Hcert Hnewest.
  unfold handle. wp_step. apply wp_catch. cbn [handle_msg]. unfold on_decided. wp_step. wp_step. wp_step.
  fold decided_parts. apply hwp_catch_write. intros r1 y. rewrite insert_decided. cbn [ok fst snd]. wp_step.
  eapply wp_lift_Ret; [exact Htotal|]. cbn [fst snd]. wp_step. wp_step. wp_step. apply wp_put. cbn [fst snd]. wp_step.
  apply hwp_prune; [done|]. intros s2 t2 Ht2 Hholds Hh2. cbn [fst snd]. wp_step. apply hwp_call. intros r3. cbn [fst snd].
  wp_step. wp_step. wp_step. rewrite Hh2. eapply wp_lift_Ret; [exact Hnext|]. cbn [fst snd]. apply hwp_call. intros r4. cbn [fst snd].
  apply wp_ret. cbn [fst snd]. split; [done|]. split; [done|].
  destruct Ht2 as [Ht2|Ht2]; rewrite !select_app, !(select_fst _ _ _ _ Ht2), !select_app; cbn; rewrite ?app_nil_r; done.
Qed.

Lemma hwp_get_decided s1 t :
  holds s1.(HostState.block_store) ->
  hwp (handle fuel (HostMsg.GetDecidedValue height) s1)
    (fun t' x => x.2 = inr tt /\ t'.*1 = t.*1 ++ [HostCall.DbTransaction;
       HostCall.ReplyDecided (Some (RawDecidedValue.new block_bytes certificate))]) t.
Proof using laws Hblock Hcert Hok Hcok Hwire Hcwire.
  intros Hh. unfold handle. wp_step. apply wp_catch. cbn [handle_msg]. unfold on_get_decided_value. wp_step. apply wp_catch.
  eapply hwp_read; [by apply get_decided|]. intros r. cbn [fst snd]. wp_step. eapply wp_lift_Ret.
  { unfold to_bytes. cbn [to_proto block_protobuf DecidedBlock.block]. by rewrite Hblock. }
  cbn [fst snd]. wp_step. eapply wp_lift_Ret; [done|]. cbn [fst snd]. apply hwp_call. intros r'. cbn [fst snd]. apply wp_ret.
  split; [done|]. by rewrite !fmap_app, <- app_assoc.
Qed.

Lemma hwp_decided_served t :
  hwp (run fuel [HostMsg.Decided certificate; HostMsg.GetDecidedValue height] s)
    (fun t' x => x.2 = inr tt /\ select next_in t' = select next_in t ++ [next] /\
       select updates_in t' = select updates_in t ++ [Transaction.hash <$> the_block.(SnBlock.transactions)] /\
       select served_in t' = select served_in t ++ [Some (RawDecidedValue.new block_bytes certificate)] /\
       select proposed_in t' = select proposed_in t) t.
Proof using laws Htotal Hnext Hblock Hcert Hok Hcok Hwire Hcwire Hnewest.
  cbn [run]. wp_step. eapply wp_mono; [apply hwp_decided|].
  intros t1 [s1 r1] (Hr & Hholds & Hn & Hu & Hs & Hp). cbn [fst snd] in *. subst r1. wp_step.
  eapply wp_mono; [by apply hwp_get_decided|]. intros t2 [s2 r2] [Hr Ht2]. cbn [fst snd] in *. subst r2. apply wp_ret. split; [done|].
  rewrite !(select_fst _ _ _ _ Ht2), Hn, Hu, Hs, Hp. cbn. by rewrite !app_nil_r.
Qed.

Lemma block_bytes_decode : from_bytes (T := SnBlock.t) block_bytes = ok the_block.
Proof using laws Hblock Hok Hwire.
  unfold from_bytes. rewrite Hwire. cbn [decoded]. rewrite and_then_ok.
  destruct (block_round_trip the_block Hok) as (q & Hq & Hd). rewrite Hblock in Hq. by apply ok_inj in Hq as <-.
Qed.
End decided.

Lemma run_cons fuel msg msgs : run fuel (msg :: msgs) = (_ ← handle fuel msg; run fuel msgs).
Proof. done. Qed.

(** C21: A decided block is stored and served. When a block is decided that is newer
    than the stored ones, the host stores it with the transactions of the parts
    that it has of it, tells the mempool to forget these, starts the next height,
    and from then on answers a request for it with a block that decodes to that
    one, and with its certificate; pruning keeps it. *)
Theorem starknet_block_served {laws : StarknetEnvLaws} fuel (s : HostState.t) (certificate : CommitCertificate.t) next total env :
  let height := certificate.(CommitCertificate.height) : SnHeight.t in
  let block := the_block s certificate in
  total_size (decided_parts s certificate) = Ret total -> SnHeight.increment s.(HostState.height) = Ret next ->
  block_ok block -> commit_certificate_ok certificate ->
  (forall p, SnBlock.to_proto block = ok p -> wire_roundtrips p) ->
  (forall p, encode_commit_certificate certificate = ok p -> wire_roundtrips p) ->
  Forall (fun kv => key_ltb kv.1 (height_as_bytes height) = true) s.(HostState.block_store).(BlockDb.decided_blocks) ->
  (forall t c, answers_host s.(HostState.params) t c (env t c)) ->
  exists t s' b, run_with env [] (run fuel [HostMsg.Decided certificate; HostMsg.GetDecidedValue height] s) = (t, Complete (s', inr tt)) /\
    select next_in t = [next] /\ select updates_in t = [Transaction.hash <$> block.(SnBlock.transactions)] /\
    select served_in t = [Some (RawDecidedValue.new b certificate)] /\ from_bytes (T := SnBlock.t) b = ok block.
Proof.
  intros height block Htotal Hnext Hok Hcok Hwire Hcwire Hnewest Henv.
  destruct (block_round_trip block Hok) as (bp & Hbp & Hbd). destruct (commit_certificate_round_trip certificate Hcok) as (cp & Hcp & _).
  specialize (Hwire _ Hbp). specialize (Hcwire _ Hcp).
  destruct (wp_run_with env _ _ _ _ _ (hwp_decided_served s.(HostState.params) s fuel certificate next total bp cp
      Htotal Hnext Hbp Hcp Hok Hcok Hwire Hcwire Hnewest []) Henv) as (t & [s' r'] & Ht & Hr & Hn & Hu & Hs & _). cbn [fst snd] in *. subst r'.
  exists t, s', (encode_to_vec bp). split_and!; [done|done|done|done|]. by apply (block_bytes_decode s certificate).
Qed.

(** C36: A block that was received by sync loses its transactions. A host that has no
    parts of a value reports the value of a synced block to consensus as valid;
    when it is decided, the host stores, and from then on serves to other nodes, a
    block with the same hash and certificate and without transactions. *)
Theorem synced_block_loses_transactions {laws : StarknetEnvLaws} fuel (s : HostState.t) (certificate : CommitCertificate.t)
    (block : SnBlock.t) (value_bytes : bytes) round proposer next env :
  let height := certificate.(CommitCertificate.height) : SnHeight.t in
  let value := ProposedValue.mk (Ctx := sn_context) height round Round.Nil proposer block.(SnBlock.block_hash) Validity.Valid in
  let empty := SnBlock.mk height [] block.(SnBlock.block_hash) in
  from_bytes (T := SnBlock.t) value_bytes = ok block -> block.(SnBlock.block_hash) = certificate.(CommitCertificate.value_id) ->
  decided_parts s certificate = [] -> SnHeight.increment s.(HostState.height) = Ret next ->
  commit_certificate_ok certificate -> (forall p, SnBlock.to_proto empty = ok p -> wire_roundtrips p) ->
  (forall p, encode_commit_certificate certificate = ok p -> wire_roundtrips p) ->
  Forall (fun kv => key_ltb kv.1 (height_as_bytes height) = true) s.(HostState.block_store).(BlockDb.decided_blocks) ->
  (forall t c, answers_host s.(HostState.params) t c (env t c)) ->
  exists t s' b, run_with env [] (run fuel [HostMsg.ProcessSyncedValue height round proposer value_bytes;
        HostMsg.Decided certificate; HostMsg.GetDecidedValue height] s) = (t, Complete (s', inr tt)) /\
    proposed t = [value] /\ select served_in t = [Some (RawDecidedValue.new b certificate)] /\
    from_bytes (T := SnBlock.t) b = ok empty.
Proof.
  intros height value empty Hb Hhash Hparts Hnext Hcok Hwire Hcwire Hnewest Henv.
  assert (Hempty : the_block s certificate = empty) by (unfold the_block, empty; rewrite Hparts, Hhash; done).
  assert (Hok : block_ok (the_block s certificate)).
  { rewrite Hempty. split; [|constructor]. cbn. rewrite Hhash. apply Hcok. }
  assert (Htotal : total_size (decided_parts s certificate) = Ret 0%N) by by rewrite Hparts.
  destruct (block_round_trip _ Hok) as (bp & Hbp & _). destruct (commit_certificate_round_trip certificate Hcok) as (cp & Hcp & _).
  pose proof Hbp as Hbp'. rewrite Hempty in Hbp'. specialize (Hwire _ Hbp'). specialize (Hcwire _ Hcp).
  assert (Hrun : wp False (fun (_ : htrace) (_ : HostCall.t) => True) (answers_host s.(HostState.params))
    (run fuel [HostMsg.ProcessSyncedValue height round proposer value_bytes; HostMsg.Decided certificate; HostMsg.GetDecidedValue height] s)
    (fun t x => x.2 = inr tt /\ proposed t = [value] /\ select served_in t = [Some (RawDecidedValue.new (encode_to_vec bp) certificate)]) []).
  { rewrite run_cons. wp_step. unfold handle at 1. wp_step. apply wp_catch. cbn [handle_msg]. unfold on_process_synced_value. wp_step.
    eapply wp_lift_Ret; [exact Hb|]. cbn [ok fst snd]. apply hwp_call. intros r. cbn [fst snd]. apply wp_ret. cbn [fst snd].
    eapply wp_mono; [by apply (hwp_decided_served s.(HostState.params) s fuel certificate next 0%N bp cp)|].
    intros t x (Hr & _ & _ & Hs & Hp). split; [done|]. change (proposed t) with (select proposed_in t). rewrite Hp, Hs. done. }
  destruct (wp_run_with env _ _ _ _ _ Hrun Henv) as (t & [s' r'] & Ht & Hr & Hp & Hs). cbn [fst snd] in *. subst r'.
  exists t, s', (encode_to_vec bp). split_and!; [done|done|done|]. rewrite <- Hempty. by apply (block_bytes_decode s certificate).
Qed.
End host.
