(* ===== verification/NetworkRuns.v ===== *)
(** * Runs of the network

    A codec for the test context that transmits what the runs need, and the
    witnesses of the theorems of EngineNetworkFacts.v. *)

From stdpp Require Import pretty.
From S2P Require Import Prelude Types Bytes Context TestContext Coroutine ConsensusTypes Scoring SyncTypes Streaming Network EngineNetwork EngineNetworkFacts.

Section runs.

#[local] Instance net_test : Context := TestContext (Addr := N) (PK := N) (Sig := N).
#[local] Instance byte_parts : ProposalPartType := bytes.

Definition no_codec {T} : Codec T := {| decode _ := Ret None; encode _ := Ret None |}.

(** Heights below 256 are one byte, requests two, responses without values one;
    a stream message is its data. *)
Definition height_byte (h : Height) : Byte.byte := byte_of (TestHeight.as_u64 h).
Definition byte_height (b : Byte.byte) : Height := TestHeight.new (Byte.to_N b).

#[local] Instance byte_codec : NetworkCodec := {|
  consensus_msg_codec := no_codec;
  liveness_msg_codec := no_codec;
  status_codec := no_codec;
  stream_message_codec := {|
    decode data := Ret (Some (StreamMessage.new [] 0%N (StreamContent.Data data)));
    encode m := Ret (StreamContent.as_data m.(StreamMessage.content)) |};
  request_codec := {|
    decode data := Ret (match data with
                        | [a; b] => Some (Request_ValueRequest (ValueRequest.new
                                      (RangeInclusive.new (byte_height a) (byte_height b))))
                        | _ => None
                        end);
    encode q := Ret (match q with
                     | Request_ValueRequest (ValueRequest.new (RangeInclusive.new a b)) =>
                         Some [height_byte a; height_byte b]
                     end) |};
  response_codec := {|
    decode data := Ret (match data with [a] => Some (SyncValueResponse.new (byte_height a) []) | _ => None end);
    encode r := Ret (Some [height_byte r.(SyncValueResponse.start_height)]) |};
  response_encoded_len := fun _ => Ret (Some 1%N);
|}.

Definition gossip_config : NetworkConfig.t :=
  NetworkConfig.mk "/ip4/127.0.0.1" PubSubProtocol.GossipSub ChannelNames.default true true "/consensus/v1".
Definition peer_a : PeerId := [Byte.x01].
Definition peer_b : PeerId := [Byte.x02].
Definition display_id (id : P2pRequestId) : string := pretty id.

(** A transport: it looks the subscriptions up. *)
Definition subscribed (c : SwarmCall.t) (topic : string) (gossip : bool) : bool :=
  match c with
  | SwarmCall.GossipSubscribe topic' => gossip && bool_decide (topic' = topic)
  | SwarmCall.BroadcastSubscribe topic' => negb gossip && bool_decide (topic' = topic)
  | _ => false
  end.
#[local] Instance direct_transport : Transport := fun calls from c =>
  match c with
  | SwarmCall.GossipPublish topic data =>
      if existsb (fun c => subscribed c topic true) calls
      then [SwarmEvent.GossipSub (GossipEvent.Message (Some from) topic data)] else []
  | SwarmCall.BroadcastSend topic data =>
      if existsb (fun c => subscribed c topic false) calls
      then [SwarmEvent.Broadcast (BroadcastEvent.Received from topic data)] else []
  | _ => []
  end.
Lemma direct_transport_laws : TransportLaws.
Proof.
  split; intros calls from topic data Hin; unfold transport, direct_transport;
    rewrite (proj2 (existsb_exists _ calls)); try done;
    (eexists; split; [by apply list_elem_of_In|]; cbn; by rewrite bool_decide_eq_true_2).
Qed.

Definition some_part : NetworkMsg.t :=
  NetworkMsg.PublishProposalPart (StreamMessage.new [] 0%N (StreamContent.Data [Byte.x2a])).

Lemma published_message_delivered_witness :
  deliver display_id gossip_config (NetworkState.new gossip_config) (RunningState.new peer_a)
    gossip_config (NetworkState.new gossip_config) (RunningState.new peer_b) some_part
  = [NetworkEvent.ProposalPart peer_a (StreamMessage.new [] 0%N (StreamContent.Data [Byte.x2a]))].
Proof.
  apply (published_message_delivered display_id (tr_laws := direct_transport_laws)); [vm_decide|done..|].
  by exists [Byte.x2a].
Defined.

(** A request of [peer_a] on channel 9, answered. *)
Definition request_body : bytes := [Byte.x01; Byte.x03].
Definition request_event : SwarmEvent.t := SwarmEvent.Sync (SyncEvent.Request peer_a 5%N request_body 9%N).
Definition the_request : Request :=
  Request_ValueRequest (ValueRequest.new (RangeInclusive.new (TestHeight.new 1) (TestHeight.new 3))).
Definition the_response : SyncValueResponse.t := SyncValueResponse.new (TestHeight.new 1) [].

Definition request_run : list obs :=
  [Reported request_event;
   TaskCall (SwarmCall.SendEvent (Event.Sync (RawMessage.Request 5%N peer_a request_body)));
   ActorCall (NetworkCall.OutputPort (NetworkEvent.SyncRequest "5" peer_a the_request));
   Message (NetworkMsg.OutgoingResponse "5" the_response);
   ActorCall (NetworkCall.Ctrl (CtrlMsg.SyncReply 5%N [Byte.x01]));
   TaskCall (SwarmCall.SendResponse 9%N [Byte.x01])].

Lemma request_run_runs :
  exists n, node_run display_id gossip_config (new_node gossip_config peer_b) request_run n.
Proof.
  eexists. change request_run with (((([] ++ (take 2 request_run)) ++ take 1 (drop 2 request_run))
    ++ take 2 (drop 3 request_run)) ++ drop 5 request_run).
  eapply run_snoc; [eapply run_snoc; [eapply run_snoc; [eapply run_snoc; [constructor|]|]|]|].
  - eapply (step_swarm _ _ _ request_event [(_, SwarmReply.Ok)]). apply steps_cons, steps_nil.
  - eapply (step_event _ _ _ _ _ [(_, NetworkReply.Ok)]); [reflexivity|]. apply steps_cons, steps_nil.
  - eapply (step_message _ _ _ _ [(_, NetworkReply.Ok)]); [reflexivity|]. apply steps_cons, steps_nil.
  - eapply (step_ctrl _ _ _ _ _ [(_, SwarmReply.Ok)]); [reflexivity|]. apply steps_cons, steps_nil.
Qed.

Lemma responses_answer_requests_witness :
  NoDup (responses request_run) /\
  exists j resp, Message (NetworkMsg.OutgoingResponse (display_id j) resp) ∈ request_run.
Proof.
  destruct request_run_runs as [n Hn].
  destruct (responses_answer_requests display_id gossip_config peer_b request_run n Hn) as [H1 H2].
  - vm_decide.
  - vm_decide.
  - split; [exact H1|]. destruct (H2 9%N [Byte.x01]) as (j & p & b & q & resp & _ & _ & _ & Hm & _); [|by exists j, resp].
    repeat constructor.
Defined.

End runs.
