(* ===== verification/StarknetRuns.v ===== *)
(** * Runs of the Starknet host

    Keys, field elements, a hash and a wire format that satisfy what the
    development assumes of them, and the witnesses of the theorems of
    StarknetCodecFacts.v, StarknetMempool.v and StarknetHostFacts.v. The wire
    format writes the number of a message, of an enumeration of all of them, bit
    by bit. *)

From S2P Require Import Prelude Types Bytes Context Starknet BTree Coroutine ConsensusTypes SyncTypes FullProposal Streaming StreamingFacts Network EngineNetwork EngineNetworkFacts StarknetTypes StarknetCodec StarknetCodecFacts StarknetStores StarknetMempool StarknetHost StarknetHostFacts NetworkRuns.

(** ** A wire format *)

Fixpoint bits (p : positive) : bytes :=
  match p with xH => [] | xO p => Byte.x00 :: bits p | xI p => Byte.x01 :: bits p end.
Fixpoint of_bits (b : bytes) : positive :=
  match b with [] => xH | Byte.x00 :: b => xO (of_bits b) | _ :: b => xI (of_bits b) end.
Lemma of_bits_bits p : of_bits (bits p) = p.
Proof. induction p as [p IH|p IH|]; cbn; by rewrite ?IH. Qed.

Definition numbered {P} `{Countable P} (url : string) : Message P :=
  {| type_url := url; wire_decode b := countable.decode (of_bits b); encode_to_vec p := bits (countable.encode p) |}.
Lemma numbered_roundtrips {P} `{Countable P} (url : string) (p : P) : wire_roundtrips (H := numbered url) p.
Proof. unfold wire_roundtrips. cbn. by rewrite of_bits_bits, decode_encode. Qed.

(** A record is as countable as the tuple of its fields. *)
Ltac by_fields f g := refine (inj_countable' f g _); by intros [].
Ltac decide_fields := solve_decision.

(** ** Running a coroutine *)

Definition called {Eff Res X} (m : prog Eff Res X) : option Eff := match m with Yielded e _ => Some e | _ => None end.
Definition resume {Eff Res X} (m : prog Eff Res X) (r : Res) : prog Eff Res X := match m with Yielded _ k => k r | _ => m end.
Lemma steps_called {Eff Res X} (m m' : prog Eff Res X) e r t :
  called m = Some e -> steps (resume m r) t m' -> steps m ((e, r) :: t) m'.
Proof. intros Hm Hs. destruct m; try done. cbn in *. simplify_eq. by constructor. Qed.

(** ** Messages are numbers *)

Module Numbers.
Import Pb PbSync.

#[global] Instance felt_dec : EqDecision Felt252.
Proof. decide_fields. Defined.
#[global] Instance felt_count : Countable Felt252.
Proof. by_fields felt_elements mk_felt. Defined.
#[global] Instance hash_dec : EqDecision Hash.
Proof. decide_fields. Defined.
#[global] Instance hash_count : Countable Hash.
Proof. by_fields hash_elements mk_hash. Defined.
#[global] Instance address_dec : EqDecision Address.
Proof. decide_fields. Defined.
#[global] Instance address_count : Countable Address.
Proof. by_fields address_elements mk_address. Defined.
#[global] Instance peer_dec : EqDecision PeerID.
Proof. decide_fields. Defined.
#[global] Instance peer_count : Countable PeerID.
Proof. by_fields peer_id mk_peer_id. Defined.
#[global] Instance uint_dec : EqDecision Uint128.
Proof. decide_fields. Defined.
#[global] Instance uint_count : Countable Uint128.
Proof. by_fields (fun u => (low u, high u)) (fun '(l, h) => mk_uint128 l h). Defined.
#[global] Instance signature_dec : EqDecision ConsensusSignature.
Proof. decide_fields. Defined.
#[global] Instance signature_count : Countable ConsensusSignature.
Proof. by_fields (fun u => (sig_r u, sig_s u)) (fun '(r, s) => mk_signature r s). Defined.
#[global] Instance txn_dec : EqDecision Txn.
Proof. decide_fields. Defined.
#[global] Instance txn_count : Countable Txn.
Proof.
  by_fields (fun x => match x with
    | DeclareV3 c => (0%N, c) | DeployAccountV3 c => (1%N, c) | InvokeV3 c => (2%N, c) | L1Handler c => (3%N, c)
    | Dummy c => (4%N, c) end)
   (fun '((n, c) : N * bytes) => match n with
    | 0%N => DeclareV3 c | 1%N => DeployAccountV3 c | 2%N => InvokeV3 c | 3%N => L1Handler c | _ => Dummy c end).
Defined.
#[global] Instance tx_dec : EqDecision ConsensusTransaction.
Proof. decide_fields. Defined.
#[global] Instance tx_count : Countable ConsensusTransaction.
Proof. by_fields (fun u => (txn u, transaction_hash u)) (fun '(t, h) => mk_transaction t h). Defined.
#[global] Instance batch_dec : EqDecision TransactionBatch.
Proof. decide_fields. Defined.
#[global] Instance batch_count : Countable TransactionBatch.
Proof. by_fields transactions mk_batch. Defined.
#[global] Instance vote_dec : EqDecision Vote.
Proof. decide_fields. Defined.
#[global] Instance vote_count : Countable Vote.
Proof.
  by_fields (fun u => (vote_type u, vote_block_number u, vote_fork_id u, vote_round u, vote_block_hash u, voter u))
    (fun '(a, b, c, d, e, f) => mk_vote a b c d e f).
Defined.
#[global] Instance stream_id_dec : EqDecision ConsensusStreamId.
Proof. decide_fields. Defined.
#[global] Instance stream_id_count : Countable ConsensusStreamId.
Proof. by_fields (fun u => (stream_height u, stream_round u, nonce u)) (fun '(a, b, c) => mk_stream_id a b c). Defined.
#[global] Instance init_dec : EqDecision ProposalInit.
Proof. decide_fields. Defined.
#[global] Instance init_count : Countable ProposalInit.
Proof.
  by_fields (fun u => (init_height u, init_round u, init_valid_round u, init_proposer u)) (fun '(a, b, c, d) => mk_init a b c d).
Defined.
#[global] Instance fin_dec : EqDecision ProposalFin.
Proof. decide_fields. Defined.
#[global] Instance fin_count : Countable ProposalFin.
Proof. by_fields proposal_commitment mk_fin. Defined.
#[global] Instance commitment_dec : EqDecision ProposalCommitment.
Proof. decide_fields. Defined.
#[global] Instance commitment_count : Countable ProposalCommitment.
Proof.
  by_fields (fun u => (block_number u, fork_id u, parent_commitment u, builder u, timestamp u, protocol_version u,
      (old_state_root u, state_diff_commitment u, transaction_commitment u, event_commitment u, receipt_commitment u),
      (concatenated_counts u, l1_gas_price_fri u, l1_data_gas_price_fri u, l2_gas_price_fri u, l2_gas_used u, l1_da_mode u)))
    (fun '(a, b, c, d, e, f, (g, h, i, j, k), (l, m, n, o, p, q)) => mk_commitment a b c d e f g h i j k l m n o p q).
Defined.
#[global] Instance info_dec : EqDecision BlockInfo.
Proof. decide_fields. Defined.
#[global] Instance info_count : Countable BlockInfo.
Proof.
  by_fields (fun u => (info_block_number u, info_fork_id u, info_builder u, info_timestamp u, info_l2_gas_price_fri u,
      info_l1_gas_price_wei u, info_l1_data_gas_price_wei u, info_eth_to_strk_rate u, info_l1_da_mode u))
    (fun '(a, b, c, d, e, f, g, h, i) => mk_block_info a b c d e f g h i).
Defined.
#[global] Instance messages_dec : EqDecision PartMessages.
Proof. decide_fields. Defined.
#[global] Instance messages_count : Countable PartMessages.
Proof.
  by_fields (fun m => match m with
    | Init x => inl (inl (inl (inl x))) | Fin x => inl (inl (inl (inr x))) | Info x => inl (inl (inr x))
    | Transactions x => inl (inr x) | Commitment x => inr x end)
   (fun m => match m with
    | inl (inl (inl (inl x))) => Init x | inl (inl (inl (inr x))) => Fin x | inl (inl (inr x)) => Info x
    | inl (inr x) => Transactions x | inr x => Commitment x end).
Defined.
#[global] Instance part_dec : EqDecision ProposalPart.
Proof. decide_fields. Defined.
#[global] Instance part_count : Countable ProposalPart.
Proof. by_fields part_messages mk_part. Defined.
#[global] Instance content_dec : EqDecision StreamMessageContent.
Proof. decide_fields. Defined.
#[global] Instance content_count : Countable StreamMessageContent.
Proof.
  by_fields (fun c => match c with Content b => Some b | StreamFin => None end)
    (fun c => match c with Some b => Content b | None => StreamFin end).
Defined.
#[global] Instance stream_message_dec : EqDecision StreamMessage.
Proof. decide_fields. Defined.
#[global] Instance stream_message_count : Countable StreamMessage.
Proof. by_fields (fun u => (stream_message u, stream_id u, message_id u)) (fun '(a, b, c) => mk_stream_message a b c). Defined.
#[global] Instance block_dec : EqDecision Block.
Proof. decide_fields. Defined.
#[global] Instance block_count : Countable Block.
Proof.
  by_fields (fun u => (blk_fork_id u, blk_block_number u, blk_transactions u, blk_block_hash u))
    (fun '(a, b, c, d) => mk_block a b c d).
Defined.
#[global] Instance status_dec : EqDecision PbSync.Status.
Proof. decide_fields. Defined.
#[global] Instance status_count : Countable PbSync.Status.
Proof.
  by_fields (fun u => (status_peer_id u, status_block_number u, status_fork_id u, earliest_block_number u, earliest_fork_id u))
    (fun '(a, b, c, d, e) => mk_status a b c d e).
Defined.
#[global] Instance value_request_dec : EqDecision PbSync.ValueRequest.
Proof. decide_fields. Defined.
#[global] Instance value_request_count : Countable PbSync.ValueRequest.
Proof.
  by_fields (fun u => (rq_block_number u, rq_fork_id u, end_block_number u))
    (fun '(a, b, c) => mk_value_request a b c).
Defined.
#[global] Instance request_messages_dec : EqDecision RequestMessages.
Proof. decide_fields. Defined.
#[global] Instance request_messages_count : Countable RequestMessages.
Proof. by_fields (fun '(ValueRequestMsg r) => r) ValueRequestMsg. Defined.
#[global] Instance request_dec : EqDecision PbSync.SyncRequest.
Proof. decide_fields. Defined.
#[global] Instance request_count : Countable PbSync.SyncRequest.
Proof. by_fields request_messages mk_sync_request. Defined.
#[global] Instance commit_signature_dec : EqDecision PbSync.CommitSignature.
Proof. decide_fields. Defined.
#[global] Instance commit_signature_count : Countable PbSync.CommitSignature.
Proof.
  by_fields (fun u => (cs_validator_address u, cs_signature u))
    (fun '(a, b) => mk_commit_signature a b).
Defined.
#[global] Instance commit_certificate_dec : EqDecision PbSync.CommitCertificate.
Proof. decide_fields. Defined.
#[global] Instance commit_certificate_count : Countable PbSync.CommitCertificate.
Proof.
  by_fields (fun u => (cc_fork_id u, cc_block_number u, cc_round u, cc_block_hash u, cc_signatures u))
    (fun '(a, b, c, d, e) => mk_commit_certificate a b c d e).
Defined.
#[global] Instance synced_value_dec : EqDecision PbSync.SyncedValue.
Proof. decide_fields. Defined.
#[global] Instance synced_value_count : Countable PbSync.SyncedValue.
Proof. by_fields (fun u => (sv_value_bytes u, sv_certificate u)) (fun '(a, b) => mk_synced_value a b). Defined.
#[global] Instance value_response_dec : EqDecision PbSync.ValueResponse.
Proof. decide_fields. Defined.
#[global] Instance value_response_count : Countable PbSync.ValueResponse.
Proof.
  by_fields (fun u => (rs_block_number u, rs_fork_id u, rs_values u))
    (fun '(a, b, c) => mk_value_response a b c).
Defined.
#[global] Instance response_messages_dec : EqDecision ResponseMessages.
Proof. decide_fields. Defined.
#[global] Instance response_messages_count : Countable ResponseMessages.
Proof. by_fields (fun '(ValueResponseMsg r) => r) ValueResponseMsg. Defined.
#[global] Instance response_dec : EqDecision PbSync.SyncResponse.
Proof. decide_fields. Defined.
#[global] Instance response_count : Countable PbSync.SyncResponse.
Proof. by_fields response_messages mk_sync_response. Defined.
#[global] Instance proposed_value_dec : EqDecision PbSync.ProposedValue.
Proof. decide_fields. Defined.
#[global] Instance proposed_value_count : Countable PbSync.ProposedValue.
Proof.
  by_fields (fun u => (pv_fork_id u, pv_block_number u, pv_round u, pv_valid_round u, pv_proposer u, pv_value u, pv_validity u))
    (fun '(a, b, c, d, e, f, g) => mk_proposed_value a b c d e f g).
Defined.
#[global] Instance polka_signature_dec : EqDecision PbSync.PolkaSignature.
Proof. decide_fields. Defined.
#[global] Instance polka_signature_count : Countable PbSync.PolkaSignature.
Proof. by_fields (fun u => (ps_validator_address u, ps_signature u)) (fun '(a, b) => mk_polka_signature a b). Defined.
#[global] Instance polka_certificate_dec : EqDecision PbSync.PolkaCertificate.
Proof. decide_fields. Defined.
#[global] Instance polka_certificate_count : Countable PbSync.PolkaCertificate.
Proof.
  by_fields (fun u => (pc_fork_id u, pc_block_number u, pc_round u, pc_block_hash u, pc_signatures u))
    (fun '(a, b, c, d, e) => mk_polka_certificate a b c d e).
Defined.
#[global] Instance round_signature_dec : EqDecision PbSync.RoundSignature.
Proof. decide_fields. Defined.
#[global] Instance round_signature_count : Countable PbSync.RoundSignature.
Proof.
  by_fields (fun u => (rsig_vote_type u, rsig_validator_address u, rsig_signature u, rsig_block_hash u))
    (fun '(a, b, c, d) => mk_round_signature a b c d).
Defined.
#[global] Instance round_certificate_dec : EqDecision PbSync.RoundCertificate.
Proof. decide_fields. Defined.
#[global] Instance round_certificate_count : Countable PbSync.RoundCertificate.
Proof.
  by_fields (fun u => (rc_fork_id u, rc_block_number u, rc_round u, rc_cert_type u, rc_signatures u))
    (fun '(a, b, c, d, e) => mk_round_certificate a b c d e).
Defined.
#[global] Instance liveness_dec : EqDecision Liveness.
Proof. decide_fields. Defined.
#[global] Instance liveness_count : Countable Liveness.
Proof.
  by_fields (fun m => match m with
    | VoteMsg x => inl (inl x) | PolkaCertificateMsg x => inl (inr x) | RoundCertificateMsg x => inr x end)
   (fun m => match m with
    | inl (inl x) => VoteMsg x | inl (inr x) => PolkaCertificateMsg x | inr x => RoundCertificateMsg x end).
Defined.
#[global] Instance liveness_message_dec : EqDecision LivenessMessage.
Proof. decide_fields. Defined.
#[global] Instance liveness_message_count : Countable LivenessMessage.
Proof. by_fields liveness_message mk_liveness. Defined.
End Numbers.

(** ** Keys, field elements and hashes

    A key is a byte, written 32 times; a field element is its last byte; a hash
    is the length and what comes first. *)

Section runs.

#[local] Instance byte_env : StarknetEnv := {|
  PubKey := Byte.byte;
  SnSig := unit;
  Felt := Byte.byte;
  key_try_from b := match b with
                    | k :: _ => if decide (b = replicate 32 k) then Some k else None
                    | [] => None
                    end;
  key_bytes k := replicate 32 k;
  test_signature := tt;
  felt_from_bytes_be b := List.last b Byte.x00;
  felt_to_bytes_be f := replicate 31 Byte.x00 ++ [f];
  Felt_ONE := Byte.x01;
  keccak b := take 32 (byte_of (size b) :: b ++ replicate 32 Byte.x00);
|}.
#[local] Instance byte_laws : StarknetEnvLaws.
Proof.
  split; [|done|by intros []|done|].
  - intros k. cbn. by rewrite decide_True.
  - intros b. change (length (take 32 (byte_of (size b) :: b ++ replicate 32 Byte.x00)) = 32).
    rewrite length_take, length_cons, length_app, length_replicate. lia.
Qed.

#[local] Instance numbered_messages : StarknetMessages := {|
  sm_hash := numbered "Hash"; sm_address := numbered "Address"; sm_part := numbered "ProposalPart";
  sm_peer_id := numbered "PeerID"; sm_vote := numbered "Vote"; sm_stream_message := numbered "StreamMessage";
  sm_block := numbered "Block"; sm_batch := numbered "TransactionBatch"; sm_stream_id := numbered "ConsensusStreamId";
  sm_proposed_value := numbered "ProposedValue"; sm_status := numbered "Status"; sm_request := numbered "SyncRequest";
  sm_response := numbered "SyncResponse"; sm_commit_certificate := numbered "CommitCertificate";
  sm_polka_certificate := numbered "PolkaCertificate"; sm_synced_value := numbered "SyncedValue";
  sm_liveness := numbered "LivenessMessage";
|}.

(** A multihash is its code, in one byte, and its digest. *)
#[local] Instance byte_multihash : MultihashLib := {|
  multihash_from_bytes b := match b with c :: digest => Some (Byte.to_N c, digest) | [] => None end;
  multihash_to_bytes m := byte_of m.1 :: m.2;
|}.
#[local] Instance byte_multihash_laws : MultihashLaws.
Proof. intros [|c digest] m Hm; cbn in Hm; simplify_eq. cbn. by rewrite byte_of_to_N. Qed.

(** ** Messages *)

Definition some_hash : SnHash.t := SnHash.new (replicate 32 Byte.x2a).
Definition some_vote : SnVote (PK := PubKey) (Hash := SnHash.t) :=
  mk_vote VoteType.Precommit (SnHeight.new 3 0) (Round.Some 1) (NilOrVal.Val some_hash) (Byte.x07 : PubKey).
Definition signed_vote : SignedVote := Ed25519Provider.sign_vote some_vote.

#[local] Existing Instance direct_transport.

Lemma starknet_message_delivered_witness :
  deliver display_id gossip_config (NetworkState.new gossip_config) (RunningState.new peer_a)
    gossip_config (NetworkState.new gossip_config) (RunningState.new peer_b)
    (NetworkMsg.PublishConsensusMsg (SignedConsensusMsg.Vote signed_vote))
  = [NetworkEvent.Vote peer_a signed_vote].
Proof.
  apply (starknet_message_delivered (tr_laws := direct_transport_laws)); [vm_decide|done..|].
  intros p _. apply numbered_roundtrips.
Defined.

Definition vote_proto (voter : bytes) : Pb.Vote := Pb.mk_vote 1 3 0 1 None (Some (Pb.mk_address voter)).
Definition nil_vote : SignedVote :=
  Ed25519Provider.sign_vote (mk_vote VoteType.Precommit (SnHeight.new 3 0) (Round.Some 1) NilOrVal.Nil (Byte.x07 : PubKey)).
Definition vote_received : NetworkMsg.t :=
  NetworkMsg.NewEvent (Event.ConsensusMessage Channel.Consensus peer_a (encode_to_vec (vote_proto (replicate 32 Byte.x07)))).

Lemma vote_reported : exists m,
  steps (NetworkActor.handle display_id vote_received (NetworkActor.Running (RunningState.new peer_b)))
    [(NetworkCall.OutputPort (NetworkEvent.Vote peer_a nil_vote), NetworkReply.Ok)] m.
Proof. eexists. apply steps_called; [reflexivity|apply steps_nil]. Qed.

Lemma reported_messages_well_formed_witness : event_ok (NetworkEvent.Vote peer_a nil_vote).
Proof.
  destruct vote_reported as [m Hs].
  eapply (reported_messages_well_formed display_id _ _ _ m _ _ Hs), list_elem_of_here.
Defined.

(** 32 bytes that are not a key. *)
Definition bad_key : bytes := Byte.x01 :: replicate 31 Byte.x02.

Lemma malformed_voter_panics_witness : exists why,
  NetworkActor.handle display_id
    (NetworkMsg.NewEvent (Event.ConsensusMessage Channel.Consensus peer_a (encode_to_vec (vote_proto bad_key))))
    (NetworkActor.Running (RunningState.new peer_b)) = Panicked why.
Proof.
  apply (malformed_voter_panics display_id _ _ _ (vote_proto bad_key) bad_key); done.
Defined.

(** ** The mempool *)

Definition some_tx (b : Byte.byte) : Transaction.t := Transaction.new [b].
Definition tx_a : Transaction.t := some_tx Byte.x01.
Definition tx_b : Transaction.t := some_tx Byte.x02.

(** Two transactions are submitted, there is room for one. *)
Lemma mempool_bounded_witness :
  Mempool.add_batch (Mempool.mk_params 0 1) [tx_b; tx_a] Mempool.new = [(tx_b.(Transaction.hash), tx_b)] /\
  NoDup [tx_b.(Transaction.hash)].
Proof.
  split; [done|].
  assert (Hs : steps (Mempool.run (Mempool.mk_params 0 1) [Mempool.AddBatch [tx_b; tx_a]] Mempool.new) []
     (Complete ([(tx_b.(Transaction.hash), tx_b)], inr tt))) by apply steps_nil.
  apply (mempool_bounded _ _ _ _ _ Hs).
Defined.

(** ** The host *)

(** The mempool always has a transaction, the clock stands still, and nobody
    fails. *)
Definition build_env (_ : trace BuildCall.t HostReply.t) (c : BuildCall.t) : HostReply.t :=
  match c with
  | BuildCall.Reap _ => HostReply.Txes [tx_a]
  | BuildCall.Now => HostReply.Number 5
  | BuildCall.Elapsed => HostReply.Flag false
  | _ => HostReply.Ok
  end.
Definition host_env (_ : trace HostCall.t HostReply.t) (c : HostCall.t) : HostReply.t :=
  match c with
  | HostCall.Reap _ _ => HostReply.Txes [tx_a]
  | HostCall.Now => HostReply.Number 5
  | HostCall.Elapsed => HostReply.Flag false
  | _ => HostReply.Ok
  end.

Definition small : StarknetParams.t := StarknetParams.mk 2 3 1.
Definition me : PubKey := Byte.x07.
Definition at_height : SnHeight.t := SnHeight.new 3 0.

Lemma tx_a_fits : Forall (tx_fits small) [tx_a].
Proof. repeat constructor; done. Qed.
Lemma build_env_answers t c : answers_build small t c (build_env t c).
Proof. destruct c; try done. exists [tx_a]. split; [done|apply tx_a_fits]. Qed.
Lemma host_env_answers t c : answers_host small t c (host_env t c).
Proof. destruct c; try done. split; [done|]. exists [tx_a]. split; [done|apply tx_a_fits]. Qed.

Lemma build_terminates_witness :
  exists t s now bs, run_with build_env [] (Build.task small at_height (Round.Some 1) me 3) = (t, Complete (s, inr tt)) /\
    sent t = proposal_parts at_height (Round.Some 1) me now bs /\
    announced t = Some (transaction_commitment (concat bs)) /\ (txs_size (concat bs) <= 2)%N.
Proof.
  apply (build_terminates small at_height (Round.Some 1) me 3 build_env); [cbn; lia|apply build_env_answers].
Defined.

(** The first five calls of the task. *)
Definition first_calls : trace BuildCall.t HostReply.t :=
  [(BuildCall.SendPart (Build.init_part at_height (Round.Some 1) me), HostReply.Ok);
   (BuildCall.Now, HostReply.Number 5);
   (BuildCall.SendPart (Build.info_part at_height me 5), HostReply.Ok);
   (BuildCall.Reap 3, HostReply.Txes [tx_a; tx_b; tx_a]);
   (BuildCall.SendPart (SnPart.Transactions [tx_a; tx_b]), HostReply.Ok)].

Lemma block_size_bounded_witness :
  (exists m, steps (Build.task small at_height (Round.Some 1) me 3) first_calls m) /\ (txs_size (sent_txs first_calls) <= 2)%N.
Proof.
  assert (Hs : exists m, steps (Build.task small at_height (Round.Some 1) me 3) first_calls m).
  { eexists. do 5 (apply steps_called; [reflexivity|]). apply steps_nil. }
  split; [done|]. destruct Hs as [m Hs]. apply (block_size_bounded small _ _ _ _ _ _ Hs).
Defined.

Definition some_validators : ValidatorSet := mk_validator_set [validator_new me 1].
(** A host at height 3 and round 1, with an empty store. *)
Definition host_state (address : PubKey) : HostState.t :=
  HostState.set_round (HostState.new small address some_validators BlockDb.empty 0) at_height (Round.Some 1) None Role.None.
Definition first_stream : StreamId := encode_to_vec (Pb.mk_stream_id 3 1 0).

Lemma host_can_build : can_build 3 (host_state me) first_stream at_height (Round.Some 1).
Proof. split; try done; [cbn; lia|by eexists|]. exists []. by split. Qed.

Definition first_run := run_with host_env [] (handle 3 (HostMsg.GetValue at_height (Round.Some 1)) (host_state me)).
Definition the_trace : trace HostCall.t HostReply.t := first_run.1.
Lemma sizes_add_up : is_ret (total_size (data (published the_trace))) = true.
Proof. vm_refl. Qed.
Lemma value_encoded txes : exists b, encode_with encode_proposed_value (value_of at_height (Round.Some 1) me txes) = ok b.
Proof. eexists. reflexivity. Qed.

(** The messages arrive from the last to the first, and then once more. *)
Lemma starknet_proposal_delivered_witness :
  exists t sp' txes, let v := value_of at_height (Round.Some 1) me txes in
    let ds := rev (published t) ++ published t in
    run_with host_env [] (handle 3 (HostMsg.GetValue at_height (Round.Some 1)) (host_state me)) = (t, Complete (sp', inr tt)) /\
    built t = [local_value v] /\
    exists ds1 m ds2 t' s', ds = ds1 ++ m :: ds2 /\
      run_with host_env [] (run 3 (HostMsg.ReceivedProposalPart peer_a <$> ds1 ++ [m]) (host_state Byte.x08))
        = (t', Complete (s', inr tt)) /\
      proposed t' = [v].
Proof.
  destruct (starknet_proposal_delivered 3 (host_state me) first_stream at_height (Round.Some 1) host_env
    host_can_build host_env_answers) as (t & sp' & txes & Hrun & Hb & _ & Hrecv).
  exists t, sp', txes. split; [done|]. split; [done|].
  assert (Ht : t = the_trace) by (unfold the_trace, first_run; by rewrite Hrun).
  destruct (value_encoded txes) as [b Hb'].
  destruct (Hrecv peer_a (host_state Byte.x08) (rev (published t) ++ published t) host_env
      (get_ret 0%N (total_size (data (published t)))) b)
    as (ds1 & m & ds2 & t' & s' & Hds & _ & _ & Hr & Hp & _);
    [reflexivity|apply lookup_empty|reflexivity| |exact Hb'| |apply host_env_answers
    |exists ds1, m, ds2, t', s'; exact (conj Hds (conj Hr Hp))].
  - apply is_ret_eq. rewrite Ht. apply sizes_add_up.
  - intros m. rewrite elem_of_app, list_elem_of_In, <- List.in_rev, <- list_elem_of_In. tauto.
Defined.

(** The host is the same afterwards, and the value is not the largest hash. *)
Definition state_of (m : prog HostCall.t HostReply.t (HostState.t * (string + unit))) : HostState.t :=
  match m with Complete (s, _) => s | _ => host_state me end.
Lemma same_address : (state_of first_run.2).(HostState.address) = me.
Proof. reflexivity. Qed.
Lemma same_params : (state_of first_run.2).(HostState.params) = small.
Proof. reflexivity. Qed.
Lemma built_below_max : forallb (fun v => key_ltb (K := SnHash.t) v.(LocallyProposedValue.value) BlockDb.hash_max) (built the_trace) = true.
Proof. vm_refl. Qed.

(** The value is asked for twice. *)
Lemma starknet_value_reproposed_witness :
  exists t sp' value,
    run_with host_env [] (handle 3 (HostMsg.GetValue at_height (Round.Some 1)) (host_state me)) = (t, Complete (sp', inr tt)) /\
    built t = [value] /\
    exists t' s', run_with host_env [] (handle 3 (HostMsg.GetValue at_height (Round.Some 1)) sp') = (t', Complete (s', inr tt)) /\
      built t' = [value] /\ published t' = [].
Proof.
  destruct (starknet_value_reproposed 3 (host_state me) first_stream at_height 1 host_env host_can_build host_env_answers)
    as (t & sp' & value & Hrun & Hb & Hagain).
  - done.
  - apply numbered_roundtrips.
  - intros txes q _. apply numbered_roundtrips.
  - exists t, sp', value. split; [exact Hrun|]. split; [exact Hb|].
    assert (Ht : the_trace = t) by (unfold the_trace, first_run; by rewrite Hrun).
    assert (Hs : state_of first_run.2 = sp') by (unfold first_run; by rewrite Hrun).
    destruct (Hagain sp' 3 host_env) as (t' & s' & Hr & Hb' & Hp);
      [| |reflexivity| |exists t', s'; exact (conj Hr (conj Hb' Hp))].
    + pose proof built_below_max as H. rewrite Ht, Hb in H. cbn in H. by rewrite andb_true_r in H.
    + rewrite <- Hs. apply same_address.
    + rewrite <- Hs, same_params. apply host_env_answers.
Defined.

(** The parts of a proposal are kept by stream, height and round, whoever sends
    them. A host that has received a proposal from its proposer, and reported it
    as valid, reports the same value of the same proposer as invalid when another
    peer sends the messages of that stream again: the transactions of both are
    put together. *)
Definition received_twice : trace HostCall.t HostReply.t :=
  (run_with host_env [] (run 3 ((HostMsg.ReceivedProposalPart peer_a <$> published the_trace)
     ++ (HostMsg.ReceivedProposalPart peer_b <$> published the_trace)) (host_state Byte.x08))).1.
Lemma replayed_stream_invalidates_proposal :
  (fun v => ((v.(ProposedValue.proposer) : PubKey), (v.(ProposedValue.value) : SnHash.t), v.(ProposedValue.validity)))
    <$> proposed received_twice =
  (fun validity => (me, transaction_commitment [tx_a; tx_a], validity))
    <$> replicate 3 Validity.Valid ++ replicate 5 Validity.Invalid.
Proof. vm_refl. Qed.

(** *** Decided blocks *)

Definition block_hash : SnHash.t := transaction_commitment [tx_a; tx_b].
Definition some_certificate : CommitCertificate.t :=
  CommitCertificate.mk (Ctx := sn_context) at_height (Round.Some 1) block_hash
    [CommitSignature.new (Ctx := sn_context) me tt].
(** The host has the transactions of the block. *)
Definition with_parts : HostState.t :=
  HostState.set_part_store (host_state me)
    (PartStore.store_value_id (PartStore.store PartStore.new first_stream at_height (Round.Some 1) (SnPart.Transactions [tx_a; tx_b]))
       first_stream at_height (Round.Some 1) block_hash).

Lemma certificate_ok : commit_certificate_ok some_certificate.
Proof. split_and!; [done|done|]. by repeat constructor. Qed.

Lemma starknet_block_served_witness :
  exists t s' b, run_with host_env [] (run 3 [HostMsg.Decided some_certificate; HostMsg.GetDecidedValue at_height] with_parts)
      = (t, Complete (s', inr tt)) /\
    select next_in t = [SnHeight.new 4 0] /\ select updates_in t = [Transaction.hash <$> [tx_a; tx_b]] /\
    select served_in t = [Some (RawDecidedValue.new b some_certificate)] /\
    from_bytes (T := SnBlock.t) b = ok (SnBlock.mk at_height [tx_a; tx_b] block_hash).
Proof.
  apply (starknet_block_served 3 with_parts some_certificate (SnHeight.new 4 0)
    (get_ret 0%N (total_size (decided_parts with_parts some_certificate))) host_env).
  - apply is_ret_eq. vm_refl.
  - reflexivity.
  - split; [done|]. by repeat constructor.
  - apply certificate_ok.
  - intros p _. apply numbered_roundtrips.
  - intros p _. apply numbered_roundtrips.
  - constructor.
  - apply host_env_answers.
Defined.

Definition full_block : SnBlock.t := SnBlock.mk at_height [tx_a; tx_b] block_hash.
Definition block_bytes : bytes := get_ret [] (r ← to_bytes full_block; Ret (match r with inr b => b | inl _ => [] end)).

Lemma synced_block_loses_transactions_witness :
  exists t s' b, run_with host_env [] (run 3 [HostMsg.ProcessSyncedValue at_height (Round.Some 1) me block_bytes;
      HostMsg.Decided some_certificate; HostMsg.GetDecidedValue at_height] (host_state me)) = (t, Complete (s', inr tt)) /\
    proposed t = [ProposedValue.mk (Ctx := sn_context) at_height (Round.Some 1) Round.Nil me block_hash Validity.Valid] /\
    select served_in t = [Some (RawDecidedValue.new b some_certificate)] /\
    from_bytes (T := SnBlock.t) b = ok (SnBlock.mk at_height [] block_hash).
Proof.
  apply (synced_block_loses_transactions 3 (host_state me) some_certificate full_block block_bytes (Round.Some 1) me
    (SnHeight.new 4 0) host_env).
  - reflexivity.
  - reflexivity.
  - reflexivity.
  - reflexivity.
  - apply certificate_ok.
  - intros p _. apply numbered_roundtrips.
  - intros p _. apply numbered_roundtrips.
  - constructor.
  - apply host_env_answers.
Defined.

End runs.
