(* ===== verification/BorshRuns.v ===== *)
(** * Runs of the Borsh serialization

    The Borsh format (bytes as they are, integers in little-endian order,
    vectors after their length, enumerations after the number of the variant) for
    the Starknet context, and the witness of the theorem of Borsh.v. *)

From S2P Require Import Prelude Types Bytes Context Starknet ConsensusTypes SyncTypes StarknetTypes StarknetCodec Borsh StarknetRuns.

Section runs.

#[local] Arguments write : simpl never.
#[local] Arguments rbind : simpl never.

(** ** Integers and vectors *)

Definition le_bytes (n : nat) (v : N) : option bytes :=
  if (v <? 256 ^ N.of_nat n)%N then Some (reverse (to_be_bytes n v)) else None.
Definition read_le (n : nat) : reader N := fun b =>
  if n <=? length b then Ret (Some (from_be_bytes (reverse (take n b)), drop n b)) else Ret None.

Lemma read_le_bytes n v b rest : le_bytes n v = Some b -> read_le n (b ++ rest) = Ret (Some (v, rest)).
Proof.
  unfold le_bytes, read_le. destruct (N.ltb_spec v (256 ^ N.of_nat n)) as [Hv|]; [|done]. intros [= <-].
  assert (Hl : length (reverse (to_be_bytes n v)) = n) by by rewrite length_reverse, length_to_be_bytes.
  rewrite length_app, Hl. rewrite (proj2 (Nat.leb_le _ _)) by lia. rewrite take_app_length' by done.
  rewrite drop_app_length' by done. by rewrite reverse_involutive, from_to_be_bytes.
Qed.

#[local] Instance run_u8 : Borsh Byte.byte := {|
  serialize b := Some [b];
  deserialize_reader b := Ret (match b with x :: b => Some (x, b) | [] => None end);
|}.

Fixpoint read_all {A} `{Borsh A} (n : nat) : reader (list A) :=
  match n with 0 => rret [] | S n => x ←! deserialize_reader; xs ←! read_all n; rret (x :: xs) end.
Definition run_vec A (_ : Borsh A) : Borsh (list A) := {|
  serialize l := write (le_bytes 4 (N.of_nat (length l)) :: (serialize <$> l));
  deserialize_reader := n ←! read_le 4; read_all (N.to_nat n);
|}.
Lemma read_all_trip {A} `{BorshTrip A} (l : list A) b rest :
  write (serialize <$> l) = Some b -> read_all (length l) (b ++ rest) = Ret (Some (l, rest)).
Proof.
  revert b. induction l as [|x l IH]; intros b Hs; [by injection Hs as <-|].
  apply write_cons in Hs as (c & d & Hc & Hs & ->). cbn. rewrite <- app_assoc. erewrite rbind_trip by eassumption.
  unfold rbind. by rewrite (IH _ Hs).
Qed.
Lemma run_vec_trip A `{BorshTrip A} : BorshTrip (H := run_vec A _) (list A).
Proof.
  intros l b rest Hs. cbn in *. apply write_cons in Hs as (c & d & Hc & Hs & ->). rewrite <- app_assoc. unfold rbind.
  rewrite (read_le_bytes _ _ _ _ Hc). cbn. rewrite Nat2N.id. by apply read_all_trip.
Qed.

(** ** Enumerations *)

Definition variants {A} (l : list A) (index : A -> Byte.byte) : Borsh A := {|
  serialize x := Some [index x];
  deserialize_reader :=
    d ←! deserialize_reader;
    match List.find (fun x => bool_decide (index x = d)) l with Some x => rret x | None => rfail end;
|}.
Definition run_vote_type := variants [VoteType.Prevote; VoteType.Precommit]
  (fun t => match t with VoteType.Prevote => Byte.x00 | VoteType.Precommit => Byte.x01 end).
Definition run_validity := variants [Validity.Valid; Validity.Invalid]
  (fun t => match t with Validity.Valid => Byte.x00 | Validity.Invalid => Byte.x01 end).
Definition run_cert_type := variants [RoundCertificateType.Skip; RoundCertificateType.Precommit]
  (fun t => match t with RoundCertificateType.Skip => Byte.x00 | RoundCertificateType.Precommit => Byte.x01 end).

Definition run_round : Borsh Round.t := {|
  serialize r := match r with Round.Nil => Some [Byte.x00] | Round.Some r => write [Some [Byte.x01]; le_bytes 4 r] end;
  deserialize_reader :=
    d ←! deserialize_reader;
    match d with Byte.x00 => rret Round.Nil | Byte.x01 => r ←! read_le 4; rret (Round.Some r) | _ => rfail end;
|}.
Definition run_nil_or_val A (_ : Borsh A) : Borsh (NilOrVal.t A) := {|
  serialize v := match v with NilOrVal.Nil => Some [Byte.x00] | NilOrVal.Val v => write [Some [Byte.x01]; serialize v] end;
  deserialize_reader :=
    d ←! deserialize_reader;
    match d with Byte.x00 => rret NilOrVal.Nil | Byte.x01 => v ←! deserialize_reader; rret (NilOrVal.Val v) | _ => rfail end;
|}.
Definition run_range (Ctx : Context) (_ : Borsh Height) : Borsh RangeInclusive.t := {|
  serialize r := write [serialize r.(RangeInclusive.start); serialize r.(RangeInclusive.end_)];
  deserialize_reader := s ←! deserialize_reader; e ←! deserialize_reader; rret (RangeInclusive.new s e);
|}.

#[local] Instance run_lib : BorshLib := {|
  borsh_u8 := run_u8; borsh_vec := run_vec; borsh_round := run_round; borsh_vote_type := run_vote_type;
  borsh_validity := run_validity; borsh_cert_type := run_cert_type; borsh_nil_or_val := run_nil_or_val;
  borsh_range := run_range;
|}.

#[local] Instance run_lib_laws : BorshLibLaws.
Proof.
  split.
  - intros x b rest [= <-]. done.
  - apply run_vec_trip.
  - intros [|r] b rest Hs; cbn in Hs; [by injection Hs as <-|].
    apply write_cons in Hs as (c & d & [= <-] & (c & d' & Hc & [= <-] & ->)%write_cons & ->).
    rewrite <- !app_assoc. cbn. unfold rbind. cbn. by rewrite (read_le_bytes _ _ _ _ Hc).
  - by intros [] b rest [= <-].
  - by intros [] b rest [= <-].
  - by intros [] b rest [= <-].
  - intros A ? Ht [|v] b rest Hs; cbn in Hs; [by injection Hs as <-|].
    apply write_cons in Hs as (c & d & [= <-] & (c & d' & Hc & [= <-] & ->)%write_cons & ->).
    rewrite <- !app_assoc. cbn. unfold rbind at 1. cbn. by erewrite rbind_trip by eassumption.
  - intros Ctx ? Ht [s e] b rest Hs. unfold borsh_range, run_lib, run_range in *. cbn [serialize deserialize_reader] in *. read_fields.
Qed.

(** ** The Starknet context *)

#[local] Instance run_u8_trip : BorshTrip (H := run_u8) Byte.byte.
Proof. exact trip_u8. Qed.

Definition u64 : Borsh N := {| serialize := le_bytes 8; deserialize_reader := read_le 8 |}.
Lemma u64_trip : BorshTrip (H := u64) N.
Proof. intros v b rest Hs. by apply read_le_bytes. Qed.

#[local] Existing Instances byte_env u64 u64_trip.
#[local] Instance run_height : Borsh SnHeight.t := {|
  serialize h := write [serialize h.(SnHeight.block_number); serialize h.(SnHeight.fork_id)];
  deserialize_reader := n ←! deserialize_reader; f ←! deserialize_reader; rret (SnHeight.new n f);
|}.
#[local] Instance run_height_trip : BorshTrip SnHeight.t.
Proof. record_trip run_height. Qed.

#[local] Instance run_hash : Borsh SnHash.t := {|
  serialize h := serialize h.(SnHash.as_bytes); deserialize_reader := b ←! deserialize_reader; rret (SnHash.new b);
|}.
#[local] Instance run_hash_trip : BorshTrip SnHash.t.
Proof. intros [h] b rest Hs. unfold run_hash in *. cbn [serialize deserialize_reader] in *. by rewrite (rbind_trip (A := bytes) _ _ _ _ Hs). Qed.

#[local] Instance run_signature : Borsh SnSig := {| serialize _ := Some []; deserialize_reader := rret tt |}.
#[local] Instance run_address : Borsh PubKey := run_u8.
#[local] Instance run_address_trip : BorshTrip PubKey.
Proof. exact trip_u8. Qed.

#[local] Instance run_vote : Borsh (SnVote (PK := PubKey) (Hash := SnHash.t)) := {|
  serialize v := write [serialize v.(sn_vote_type); serialize v.(sn_vote_height); serialize v.(sn_vote_round);
    serialize v.(sn_block_hash); serialize v.(sn_voter)];
  deserialize_reader :=
    t ←! deserialize_reader; h ←! deserialize_reader; r ←! deserialize_reader; v ←! deserialize_reader;
    a ←! deserialize_reader; rret (mk_vote t h r v a);
|}.
#[local] Instance run_proposal : Borsh (SnProposal (PK := PubKey) (Hash := SnHash.t)) := {|
  serialize p := write [serialize p.(sn_proposal_height); serialize p.(sn_proposal_round); serialize p.(sn_value_id);
    serialize p.(sn_pol_round); serialize p.(sn_proposer)];
  deserialize_reader :=
    h ←! deserialize_reader; r ←! deserialize_reader; v ←! deserialize_reader; pol ←! deserialize_reader;
    a ←! deserialize_reader; rret (proposal_new h r v pol a);
|}.
#[local] Instance run_vote_trip : BorshTrip (SnVote (PK := PubKey) (Hash := SnHash.t)).
Proof. record_trip run_vote. Qed.
#[local] Instance run_proposal_trip : BorshTrip (SnProposal (PK := PubKey) (Hash := SnHash.t)).
Proof. record_trip run_proposal. Qed.

#[local] Instance run_context : BorshContext (Ctx := sn_context) := {|
  borsh_address := run_address; borsh_height := run_height; borsh_value := run_hash; borsh_value_id := run_hash;
  borsh_signature := run_signature; borsh_vote := run_vote; borsh_proposal := run_proposal;
|}.
#[local] Instance run_context_laws : BorshContextLaws (Ctx := sn_context).
Proof.
  split; [exact run_address_trip|exact run_height_trip|exact run_hash_trip|exact run_hash_trip| |exact run_vote_trip|exact run_proposal_trip].
  by intros [] b rest [= <-].
Qed.

(** Two messages one after the other, and the status of a peer. *)
Definition borsh_status_a : Status.t := Status.mk (Ctx := sn_context) (Byte.x12 :: replicate 4 Byte.x07) (SnHeight.new 3 0) (SnHeight.new 1 0).
Definition borsh_msg : SignedConsensusMsg.t := SignedConsensusMsg.Vote signed_vote.

Lemma borsh_messages_round_trip_witness :
  is_Some (serialize borsh_msg) /\ is_Some (serialize (Borsh := borsh_status (H1 := byte_multihash)) borsh_status_a) /\
  reads_back borsh_msg /\ reads_back (H := borsh_status (H1 := byte_multihash)) borsh_status_a.
Proof.
  destruct (borsh_messages_round_trip (H1 := byte_multihash) borsh_msg (LivenessMsg.Vote signed_vote)
    (ProposedValue.mk (Ctx := sn_context) at_height (Round.Some 1) Round.Nil me some_hash Validity.Valid) borsh_status_a
    (Request_ValueRequest (ValueRequest.new (RangeInclusive.new (Ctx := sn_context) at_height at_height)))
    (SyncValueResponse.new (Ctx := sn_context) at_height [])) as (Hm & _ & _ & Hs & _).
  split; [by eexists|]. split; [by eexists|]. split; [exact Hm|]. apply Hs. reflexivity.
Defined.

End runs.
