(* ===== verification/EngineSync.v ===== *)
(** * The sync actor

    engine/src/sync.rs: the actor that runs value sync. It turns the messages
    of the network, of consensus and of its timers into inputs, carries out the
    effects ([handle_effect]) by calling the host, the network and consensus,
    and serves the values that other nodes request ([GetDecidedValues]).

    The other actors are reached by calls and casts, which are the effects of
    this coroutine; an answer of another kind than the call's stands for a
    failed call. Spawning, subscribing and the ticker task belong to the
    runtime. *)

From S2P Require Import Prelude Types Bytes Context BTree Coroutine ConsensusTypes Scoring SyncTypes Sync Timers Streaming Network EngineNetwork.

(** ** Calls to the other actors *)

Module SyncCall.
Inductive t {Ctx : Context} : Type :=
  | GetHistoryMinHeight
  | GetDecidedValue (height : Height)
  | BroadcastStatus (tip_height history_min_height : Height)
  | OutgoingRequest (peer : PeerId) (request : Request)
  | OutgoingResponse (request_id : InboundRequestId) (response : SyncValueResponse.t)
  | GetResponseSize (response : SyncValueResponse.t)
  | Subscribe
  | ProcessSyncResponse (request_id : OutboundRequestId) (peer : PeerId) (response : SyncValueResponse.t)
  | CastGotDecidedValues (request_id : InboundRequestId) (range : Range) (values : list RawDecidedValue.t)
  | ConsensusActorSet.
Arguments t {Ctx}.
End SyncCall.

Module SyncReply.
Inductive t {Ctx : Context} : Type :=
  | Done
  | Failed
  | HistoryMinHeight (height : Height)
  | DecidedValue (value : option RawDecidedValue.t)
  | RequestId (request_id : OutboundRequestId)
  | ResponseSize (bytes : N).
Arguments t {Ctx}.
End SyncReply.

(** ** Messages and state *)

(** [Timeout::Request(request_id)]. *)
Abbreviation SyncTimeout := OutboundRequestId.

Module SyncMsg.
Inductive t {Ctx : Context} {Part : ProposalPartType} : Type :=
  | Tick
  | NetworkEvent (event : NetworkEvent.t)
  | Decided (height : Height)
  | StartedHeight (height : Height) (restart : HeightStartType.t)
  | GotDecidedValues (request_id : InboundRequestId) (range : Range) (values : list RawDecidedValue.t)
  | TimeoutElapsed (elapsed : TimeoutElapsed.t SyncTimeout)
  | InvalidValue (peer : PeerId) (height : Height)
  | ValueProcessingError (peer : PeerId) (height : Height)
  | SetConsensusActor.
Arguments t {Ctx Part}.
End SyncMsg.

Module InflightRequest.
Record t {Ctx : Context} : Type := mk {
  peer_id : PeerId;
  request_id : OutboundRequestId;
  request : Request;
}.
Arguments mk {Ctx} peer_id request_id request.
End InflightRequest.

Module SyncActor.

Record state {Env : Environment} {Ctx : Context} : Type := mk {
  sync : World.t;
  timers : TimerScheduler.t SyncTimeout;
  inflight : gmap OutboundRequestId InflightRequest.t;
  consensus : bool;
  subscribed_to_network : bool;
}.
Arguments mk {Env Ctx} sync timers inflight consensus subscribed_to_network.

Abbreviation AM := (handler SyncCall.t SyncReply.t state string).

Section actor.
Context {Env : Environment} {Ctx : Context} {Arith : HeightArith} {Part : ProposalPartType}.
Implicit Types (self : state).

Definition set_sync self x := mk x self.(timers) self.(inflight) self.(consensus) self.(subscribed_to_network).
Definition set_timers self x := mk self.(sync) x self.(inflight) self.(consensus) self.(subscribed_to_network).
Definition set_inflight self x := mk self.(sync) self.(timers) x self.(consensus) self.(subscribed_to_network).
Definition set_consensus self x := mk self.(sync) self.(timers) self.(inflight) x self.(subscribed_to_network).
Definition set_subscribed self x := mk self.(sync) self.(timers) self.(inflight) self.(consensus) x.

(** [actor.cast(msg)?]. *)
Definition cast (c : SyncCall.t) : AM unit :=
  r ← yield_ c;
  match r with SyncReply.Done => mret tt | _ => fail "Messaging failed" end.

(** ** Serving values *)

(** One step of the loop of [GetDecidedValues]: stop, or go on with the value
    and the size of the response so far. *)
Definition fetch_value (max_response_size : N) (start height : Height) (response_size_bytes : N)
    : AM (option (RawDecidedValue.t * N)) :=
  r ← yield_ (SyncCall.GetDecidedValue height);
  match r with
  | SyncReply.DecidedValue None => mret None
  | SyncReply.DecidedValue (Some value) =>
      r ← yield_ (SyncCall.GetResponseSize (SyncValueResponse.new start [value]));
      match r with
      | SyncReply.ResponseSize total_value_size_bytes =>
          total ← lift (add_u64 response_size_bytes total_value_size_bytes);
          if (max_response_size <? total)%N then mret None else mret (Some (value, total))
      | _ => mret None
      end
  | _ => fail "Failed to get decided value"
  end.

Fixpoint fetch_values (fuel : nat) (max_response_size : N) (start end_ height : Height)
    (response_size_bytes : N) (values : list RawDecidedValue.t) : AM (list RawDecidedValue.t) :=
  match fuel with
  | O => out_of_fuel
  | S fuel =>
      if negb (Height_leb height end_) then mret values
      else
        fetched ← fetch_value max_response_size start height response_size_bytes;
        match fetched with
        | None => mret values
        | Some (value, response_size_bytes) =>
            let values := values ++ [value] in
            if (response_size_bytes =? max_response_size)%N then mret values
            else
              height ← lift (Height_increment height);
              fetch_values fuel max_response_size start end_ height response_size_bytes values
        end
  end.

(** ** Carrying out effects *)

Definition send_value_request (peer_id : PeerId) (value_request : ValueRequest.t) : AM SyncResume.t :=
  let request := Request_ValueRequest value_request in
  r ← yield_ (SyncCall.OutgoingRequest peer_id request);
  match r with
  | SyncReply.RequestId request_id =>
      self ← get_state;
      timers ← lift (TimerScheduler.start_timer self.(timers) request_id);
      let self := set_timers self timers in
      _ ← put_state (set_inflight self
            (<[request_id := InflightRequest.mk peer_id request_id request]> self.(inflight)));
      mret (SyncResume.ValueRequestId (Some request_id))
  | _ => mret (SyncResume.ValueRequestId None)
  end.

Definition handle_effect (fuel : nat) (config : SyncConfig.t) (effect : SyncEffect.t) : AM SyncResume.t :=
  match effect with
  | SyncEffect.BroadcastStatus height =>
      r ← yield_ SyncCall.GetHistoryMinHeight;
      match r with
      | SyncReply.HistoryMinHeight history_min_height =>
          _ ← cast (SyncCall.BroadcastStatus height history_min_height);
          mret SyncResume.Continue
      | _ => fail "Failed to get earliest history height"
      end
  | SyncEffect.NotifyConsensusToProcessSyncResponse request_id peer_id value_response =>
      self ← get_state;
      _ ← when self.(consensus) (cast (SyncCall.ProcessSyncResponse request_id peer_id value_response));
      mret SyncResume.Continue
  | SyncEffect.SendValueRequest peer_id value_request => send_value_request peer_id value_request
  | SyncEffect.SendValueResponse request_id value_response =>
      _ ← cast (SyncCall.OutgoingResponse request_id value_response);
      mret SyncResume.Continue
  | SyncEffect.GetDecidedValues request_id range =>
      let start := range.(RangeInclusive.start) in
      values ← fetch_values fuel config.(SyncConfig.max_response_size) start
                 range.(RangeInclusive.end_) start 0 [];
      _ ← cast (SyncCall.CastGotDecidedValues request_id range values);
      mret SyncResume.Continue
  end.

(** ** Running value sync *)

Definition process_input (fuel : nat) (config : SyncConfig.t) (input : SyncInput.t) : AM unit :=
  self ← get_state;
  '(w, result) ← process (handle_effect fuel config) SyncResume.Continue (handle fuel input self.(sync));
  self ← get_state;
  _ ← put_state (set_sync self w);
  match result with inr _ => mret tt | inl _ => fail "Unexpected resume" end.

(** ** Messages *)

Definition peer_disconnected (peer_id : PeerId) : AM unit :=
  self ← get_state;
  let w := self.(sync) in
  put_state (set_sync self (World.mk (SyncState.set_peers w.(World.state)
    (delete peer_id w.(World.state).(SyncState.peers))) w.(World.metrics) w.(World.clock))).

Definition timeout_elapsed (fuel : nat) (config : SyncConfig.t) (elapsed : TimeoutElapsed.t SyncTimeout) : AM unit :=
  self ← get_state;
  let '(timers, timeout) := TimerScheduler.intercept_timer_msg self.(timers) elapsed in
  let self := set_timers self timers in
  _ ← put_state self;
  match timeout with
  | None => mret tt
  | Some request_id =>
      match self.(inflight) !! request_id with
      | Some request =>
          _ ← put_state (set_inflight self (delete request_id self.(inflight)));
          process_input fuel config
            (SyncInput.SyncRequestTimedOut request_id request.(InflightRequest.peer_id)
               request.(InflightRequest.request))
      | None => mret tt
      end
  end.

Definition set_consensus_actor : AM unit :=
  self ← get_state;
  if self.(consensus) then mret tt
  else
    _ ← put_state (set_consensus self true);
    _ ← yield_ SyncCall.ConsensusActorSet;
    self ← get_state;
    unless self.(subscribed_to_network)
      (_ ← cast SyncCall.Subscribe;
       self ← get_state;
       put_state (set_subscribed self true)).

Definition handle_msg (fuel : nat) (config : SyncConfig.t) (msg : SyncMsg.t) : AM unit :=
  match msg with
  | SyncMsg.Tick => process_input fuel config SyncInput.Tick
  | SyncMsg.NetworkEvent (NetworkEvent.PeerDisconnected peer_id) => peer_disconnected peer_id
  | SyncMsg.NetworkEvent (NetworkEvent.Status peer_id status) =>
      process_input fuel config (SyncInput.Status
        (Status.mk peer_id status.(LocalStatus.tip_height) status.(LocalStatus.history_min_height)))
  | SyncMsg.NetworkEvent (NetworkEvent.SyncRequest request_id from (Request_ValueRequest value_request)) =>
      process_input fuel config (SyncInput.ValueRequest request_id from value_request)
  | SyncMsg.NetworkEvent (NetworkEvent.SyncResponse request_id peer response) =>
      self ← get_state;
      _ ← put_state (set_timers self (TimerScheduler.cancel self.(timers) request_id));
      process_input fuel config (SyncInput.ValueResponse request_id peer response)
  | SyncMsg.NetworkEvent _ => mret tt
  | SyncMsg.StartedHeight height restart => process_input fuel config (SyncInput.StartedHeight height restart)
  | SyncMsg.Decided height => process_input fuel config (SyncInput.Decided height)
  | SyncMsg.GotDecidedValues request_id range blocks =>
      process_input fuel config (SyncInput.GotDecidedValues request_id range blocks)
  | SyncMsg.InvalidValue peer height => process_input fuel config (SyncInput.InvalidValue peer height)
  | SyncMsg.ValueProcessingError peer height =>
      process_input fuel config (SyncInput.ValueProcessingError peer height)
  | SyncMsg.TimeoutElapsed elapsed => timeout_elapsed fuel config elapsed
  | SyncMsg.SetConsensusActor => set_consensus_actor
  end.

(** [Actor::handle]: an error is logged. *)
Definition handle (fuel : nat) (config : SyncConfig.t) (msg : SyncMsg.t) : AM unit :=
  _ ← catch (handle_msg fuel config msg); mret tt.

(** [Actor::pre_start]. *)
Definition pre_start (rng : Rng) (clock : Clock) (config : SyncConfig.t) : outcome state :=
  sync ← SyncState.new rng config;
  Ret (mk (World.mk sync SyncMetrics.new clock) TimerScheduler.new ∅ false false).

End actor.
End SyncActor.
