(* ===== verification/EngineSyncFacts.v ===== *)
(** * The sync actor: composition

    The actor runs value sync, so what holds of value sync holds of the actor;
    what it serves to other nodes; that a node accepts what another one serves;
    a peer that can stop the actor, and a leak. *)

From S2P Require Import Prelude Types Bytes Context BTree Coroutine ConsensusTypes Scoring SyncTypes Sync SyncWindows SyncFacts SyncSafety SyncLiveness SyncResponses Timers Streaming Network EngineNetwork EngineSync.

Section facts.
Context {Env : Environment} {Ctx : Context} {Arith : HeightArith} {Part : ProposalPartType}.
Implicit Types (self : SyncActor.state) (h : Height) (r : Range).

Abbreviation u := Height_as_u64.
Abbreviation A_trace := (Coroutine.trace SyncCall.t SyncReply.t).
Abbreviation A_prog := (Coroutine.prog SyncCall.t SyncReply.t).

(** ** The actor runs value sync *)

Section rules.
Context (stop : Prop) (allowed : A_trace -> SyncCall.t -> Prop)
  (answers : A_trace -> SyncCall.t -> SyncReply.t -> Prop).
Abbreviation wp := (wp stop allowed answers).

Lemma wp_cast c self Q t :
  allowed t c ->
  (forall x, answers t c x -> forall y, (x = SyncReply.Done -> y = inr tt) -> Q (t ++ [(c, x)]) (self, y)) ->
  wp (SyncActor.cast c self) Q t.
Proof.
  intros Hc HQ. unfold SyncActor.cast. apply wp_bind, wp_yield; [done|]. intros x Hx. cbn [fst snd].
  destruct x; apply HQ; try done.
Qed.

End rules.

Inductive actor_reachable (config : SyncConfig.t) : SyncActor.state -> Prop :=
  | actor_started rng clock self :
      SyncActor.pre_start rng clock config = Ret self -> actor_reachable config self
  | actor_handled fuel msg self t self' result :
      actor_reachable config self ->
      steps (SyncActor.handle fuel config msg self) t (Complete (self', result)) ->
      actor_reachable config self'.

Abbreviation keeps config m self :=
  (forall t, wp True (fun _ _ => True) (fun _ _ _ => True) (m self)
     (fun _ x => reachable config x.1.(SyncActor.sync)) t).

Lemma process_input_reachable fuel config input self :
  reachable config self.(SyncActor.sync) -> keeps config (SyncActor.process_input fuel config input) self.
Proof.
  intros Hr t. unfold SyncActor.process_input. apply wp_bind, wp_get. cbn [fst snd]. apply wp_bind.
  eapply (wp_process _ _ _ _ _ _ _ (fun _ _ _ => True)); [|apply wp_any_steps|done|].
  - intros t' e T s _ _. by apply wp_any_true.
  - intros ts T s [w result] _ Hs. cbn [fst snd]. apply wp_bind, wp_get. cbn [fst snd]. apply wp_bind, wp_put.
    cbn [fst snd]. destruct result; by eapply reach_input.
Qed.

Lemma handle_msg_reachable fuel config msg self :
  reachable config self.(SyncActor.sync) -> keeps config (SyncActor.handle_msg fuel config msg) self.
Proof.
  intros Hr t. destruct msg as [|event| | | |elapsed| | |]; cbn [SyncActor.handle_msg]; try by apply process_input_reachable.
  - destruct event as [| |p| | | | | |p status|id p [q]|id p resp];
      try (by apply process_input_reachable); try by apply wp_ret.
    unfold SyncActor.peer_disconnected. apply wp_bind, wp_get. cbn [fst snd]. apply wp_put. cbn.
    by apply reach_disconnected.
  - unfold SyncActor.timeout_elapsed. apply wp_bind, wp_get. cbn [fst snd].
    destruct (TimerScheduler.intercept_timer_msg _ _) as [timers [id|]]; apply wp_bind, wp_put; cbn [fst snd];
      [|by apply wp_ret].
    cbn. case_match; [|by apply wp_ret]. apply wp_bind, wp_put. cbn [fst snd]. by apply process_input_reachable.
  - unfold SyncActor.set_consensus_actor. apply wp_bind, wp_get. cbn [fst snd]. case_match; [by apply wp_ret|].
    apply wp_bind, wp_put. cbn [fst snd]. apply wp_bind, wp_yield; [done|]. intros x _. cbn [fst snd].
    apply wp_bind, wp_get. cbn [fst snd]. apply wp_unless; intros _; [|done].
    apply wp_bind, wp_cast; [done|]. intros y _ z _. destruct z; cbn [fst snd]; [done|].
    apply wp_bind, wp_get. cbn [fst snd]. by apply wp_put.
Qed.

Lemma actor_reachable_sync config self : actor_reachable config self -> reachable config self.(SyncActor.sync).
Proof.
  induction 1 as [rng clock self Hstart|fuel msg self t self' result _ IH Hsteps].
  - unfold SyncActor.pre_start in Hstart. inv_ret. by eapply reach_new.
  - assert (Hwp : wp True (fun _ _ => True) (fun _ _ _ => True) (SyncActor.handle fuel config msg self)
      (fun _ x => reachable config x.1.(SyncActor.sync)) []).
    { unfold SyncActor.handle. apply wp_bind, wp_catch. eapply wp_mono; [by apply handle_msg_reachable|].
      intros t' [self1 y] Hy. cbn in *. done. }
    apply (wp_complete _ _ _ _ _ _ _ _ Hwp Hsteps), answered_any.
Qed.

Context {laws : HeightLaws}.

(** C12: in every state of the sync actor, whatever messages it gets and however
    the other actors answer, no height is in two of the ranges that are in
    flight or wait for consensus, all these ranges are well-formed, and
    together they hold at most batch size times parallel requests heights, the
    capacity of the queue of the consensus core. *)
Theorem requests_disjoint_bounded (config : SyncConfig.t) (self : SyncActor.state)
  (Hself : actor_reachable config self) :
  let busy := busy_ranges self.(SyncActor.sync).(World.state) in
  (forall r, r ∈ busy -> (u r.(RangeInclusive.start) <= u r.(RangeInclusive.end_))%N) /\
  (forall h, length (List.filter (fun r => RangeInclusive.contains r h) busy) <= 1) /\
  (total len busy <= config.(SyncConfig.batch_size) * config.(SyncConfig.parallel_requests))%N.
Proof using laws.
  apply actor_reachable_sync, reachable_inv in Hself as [[Hok Hd Hc _] Hcfg]. cbn. split_and!.
  - by apply Forall_forall.
  - intros h. specialize (Hd h). rewrite total_covers in Hd. lia.
  - unfold max_heights in Hc. by rewrite Hcfg in Hc.
Qed.

(** ** Runs

    A run of value sync against a host is a run of the actor. *)
Lemma process_input_execute (net : SyncCall.t -> SyncReply.t) (host : SyncEffect.t -> SyncResume.t)
    (calls : SyncEffect.t -> A_trace) fuel config input self t w :
  execute host (Sync.handle fuel input self.(SyncActor.sync)) = (t, Complete (w, inr tt)) ->
  (forall e, e ∈ t.*1 ->
     execute net (SyncActor.handle_effect fuel config e self) = (calls e, Complete (self, inr (host e)))) ->
  execute net (SyncActor.process_input fuel config input self) =
    (concat (calls <$> t.*1), Complete (SyncActor.set_sync self w, inr tt)).
Proof.
  intros He Hc. unfold SyncActor.process_input, mbind, handler_bind, get_state. cbn [prog_bind fst snd].
  rewrite (execute_bind net _ _ _ _ (execute_process _ _ net host calls _ self t _ He Hc)). cbn.
  by rewrite app_nil_r.
Qed.

(** ** Serving values *)

(** A node whose application holds the decided values [store], over a network
    that measures responses with [size]. *)
Section serving.
Context (store : Height -> option RawDecidedValue.t) (size : SyncValueResponse.t -> N).

Definition serving (c : SyncCall.t) : SyncReply.t :=
  match c with
  | SyncCall.GetHistoryMinHeight => SyncReply.HistoryMinHeight Height_ZERO
  | SyncCall.GetDecidedValue h => SyncReply.DecidedValue (store h)
  | SyncCall.GetResponseSize response => SyncReply.ResponseSize (size response)
  | SyncCall.OutgoingRequest _ _ => SyncReply.Failed
  | _ => SyncReply.Done
  end.

Definition from_serving (_ : A_trace) (c : SyncCall.t) (x : SyncReply.t) : Prop := x = serving c.
Abbreviation wp := (wp False (fun _ _ => True) from_serving).

(** The size that counts for a value: that of a response with it alone. *)
Definition value_size (start : Height) (v : RawDecidedValue.t) : N := size (SyncValueResponse.new start [v]).

(** [values] are the decided values from [start] on, as many as there are up to
    [end_] and as the size allows. *)
Record served (max : N) (start end_ : Height) (values : list RawDecidedValue.t) : Prop := {
  served_values i v : values !! i = Some v ->
    exists h, u h = (u start + N.of_nat i)%N /\ (u h <= u end_)%N /\ store h = Some v;
  served_size : (sumN (value_size start <$> values) <= max)%N;
  served_all : forall h, u h = (u start + N.of_nat (length values))%N -> (u h <= u end_)%N ->
    store h = None \/
    exists v, store h = Some v /\ (max < sumN (value_size start <$> values) + value_size start v \/
      sumN (value_size start <$> values) = max)%N;
}.

(** The loop at [height], with the values before it. *)
Record fetched (max : N) (start end_ height : Height) (bytes : N) (values : list RawDecidedValue.t) : Prop := {
  fetched_height : u height = (u start + N.of_nat (length values))%N;
  fetched_values i v : values !! i = Some v ->
    exists h, u h = (u start + N.of_nat i)%N /\ (u h <= u end_)%N /\ store h = Some v;
  fetched_bytes : bytes = sumN (value_size start <$> values);
  fetched_max : (bytes <= max)%N;
}.

Lemma fetched_snoc max start end_ height bytes values v :
  fetched max start end_ height bytes values -> (u height <= u end_)%N -> store height = Some v ->
  (bytes + value_size start v <= max)%N ->
  let values' := values ++ [v] in
  (forall i w, values' !! i = Some w ->
    exists h, u h = (u start + N.of_nat i)%N /\ (u h <= u end_)%N /\ store h = Some w) /\
  (bytes + value_size start v)%N = sumN (value_size start <$> values').
Proof.
  intros [Hh Hv Hb Hm] Hle Hs Hmax. split.
  - intros i w Hi. apply lookup_snoc_Some in Hi as [[_ Hi]|[-> <-]]; [by apply Hv|]. by exists height.
  - rewrite fmap_app, sumN_app. cbn. rewrite <- Hb. lia.
Qed.

Lemma fetched_served max start end_ height bytes values :
  fetched max start end_ height bytes values ->
  (u end_ < u height)%N \/ store height = None \/
    (exists v, store height = Some v /\ (max < bytes + value_size start v)%N) ->
  served max start end_ values.
Proof using laws.
  intros [Hh Hv Hb Hm] Hstop. split; [done|by rewrite <- Hb|]. intros h Hu Hle.
  assert (h = height) as -> by (apply Height_as_u64_inj; lia).
  destruct Hstop as [?|[?|(v & ? & ?)]]; [lia|by left|]. right. exists v. split; [done|]. left. by rewrite <- Hb.
Qed.

Context (max : N) (Hsize : forall resp, (max + size resp <= U64_MAX)%N).

Lemma wp_fetch_values fuel start end_ height bytes values self Q t :
  fetched max start end_ height bytes values -> (u end_ < U64_MAX)%N ->
  (u end_ + 1 - u height < N.of_nat fuel)%N ->
  (forall t' values', served max start end_ values' -> Q t' (self, inr values')) ->
  wp (SyncActor.fetch_values fuel max start end_ height bytes values self) Q t.
Proof using laws Hsize.
  intros Hf Hend Hfuel HQ. revert height bytes values t Hf Hfuel.
  induction fuel as [|fuel IH]; intros height bytes values t Hf Hfuel; [lia|]. cbn [SyncActor.fetch_values].
  destruct (Height_leb height end_) eqn:Hle; cbn [negb]; cycle 1.
  { apply Height_leb_gt in Hle. apply wp_ret, HQ. eapply fetched_served; [done|]. by left. }
  apply Height_leb_le in Hle. apply wp_bind. unfold SyncActor.fetch_value.
  apply wp_bind, wp_yield; [done|]. intros x ->. cbn [fst snd serving].
  destruct (store height) as [v|] eqn:Hv; cycle 1.
  { apply wp_ret. cbn [fst snd]. apply wp_ret, HQ. eapply fetched_served; [done|]. right. by left. }
  apply wp_bind, wp_yield; [done|]. intros x ->. cbn [fst snd serving].
  pose proof (fetched_max _ _ _ _ _ _ Hf) as Hmax. pose proof (Hsize (SyncValueResponse.new start [v])) as Hsz.
  apply wp_bind. eapply wp_lift_Ret; [apply add_u64_Ret; split; [done|lia]|]. cbn [fst snd].
  fold (value_size start v) in *. case_match eqn:Hbig.
  { apply N.ltb_lt in Hbig. apply wp_ret. cbn [fst snd]. apply wp_ret, HQ. eapply fetched_served; [done|].
    right; right. by exists v. }
  apply N.ltb_ge in Hbig. apply wp_ret. cbn [fst snd].
  destruct (fetched_snoc _ _ _ _ _ _ _ Hf Hle Hv Hbig) as [Hvals Hsum].
  pose proof (fetched_height _ _ _ _ _ _ Hf) as Hheight.
  case_match eqn:Hfull.
  { apply N.eqb_eq in Hfull. apply wp_ret, HQ. split; [done|by rewrite <- Hsum|]. intros h _ _.
    destruct (store h) as [v'|]; [|by left]. right. exists v'. split; [done|]. right. by rewrite <- Hsum. }
  destruct (Height_increment_by_spec height 1) as (next & Hn & Hu); [lia|].
  apply wp_bind. eapply wp_lift_Ret; [exact Hn|]. cbn [fst snd]. apply IH; [|lia].
  split; [rewrite length_app; cbn; lia|done|done|done].
Qed.

(** Answering [GetDecidedValues]. *)
Lemma serve_effect fuel config self id r :
  config.(SyncConfig.max_response_size) = max ->
  (u r.(RangeInclusive.end_) < U64_MAX)%N ->
  (u r.(RangeInclusive.end_) + 1 - u r.(RangeInclusive.start) < N.of_nat fuel)%N ->
  exists t values,
    execute serving (SyncActor.handle_effect fuel config (SyncEffect.GetDecidedValues id r) self) =
      (t ++ [(SyncCall.CastGotDecidedValues id r values, SyncReply.Done)],
       Complete (self, inr SyncResume.Continue)) /\
    served max r.(RangeInclusive.start) r.(RangeInclusive.end_) values.
Proof using laws Hsize.
  intros Hmax Hend Hfuel. set (start := r.(RangeInclusive.start)) in *. set (end_ := r.(RangeInclusive.end_)) in *.
  pose proof (wp_fetch_values fuel start end_ start 0%N [] self
    (fun _ x => exists values, x = (self, inr values) /\ served max start end_ values) []) as Hwp.
  destruct (wp_execute (fun _ _ => True) from_serving serving (SyncActor.fetch_values fuel max start end_ start 0 [] self)
    (fun _ x => exists values, x = (self, inr values) /\ served max start end_ values)) as (t & x & He & values & -> & Hs).
  - apply Hwp; [|done|done|eauto]. split; [cbn; lia|by intros [|i] v|done|apply N.le_0_l].
  - done.
  - exists t, values. split; [|done]. cbn [SyncActor.handle_effect]. rewrite Hmax. fold start end_.
    unfold mbind, handler_bind. by rewrite (execute_bind serving _ _ _ _ He).
Qed.

End serving.

(** *** The two messages of a request on the server *)

Lemma update_metrics_Complete f (w : World.t) : exists w', update_metrics f w = Complete (w', inr tt).
Proof.
  unfold update_metrics, with_metrics, mbind, handler_bind, get_state. cbn [prog_bind fst snd].
  destruct (f _ _) as [m c]. cbn. eauto.
Qed.

Lemma value_request_runs fuel w id from r :
  exists w', execute (fun _ => SyncResume.Continue)
      (Sync.handle fuel (SyncInput.ValueRequest id from (ValueRequest.new r)) w) =
    ([(SyncEffect.GetDecidedValues id r, SyncResume.Continue)], Complete (w', inr tt)).
Proof.
  cbn [Sync.handle]. unfold on_value_request.
  match goal with |- context [update_metrics ?f] => destruct (update_metrics_Complete f w) as [w1 Hw1] end.
  unfold mbind, handler_bind. rewrite Hw1. cbn. eauto.
Qed.

Lemma got_decided_values_runs fuel w id r (values : list RawDecidedValue.t) :
  range_ok r -> (u r.(RangeInclusive.end_) < U64_MAX)%N ->
  (u r.(RangeInclusive.start) + N.of_nat (length values) <= U64_MAX)%N ->
  exists w', execute (fun _ => SyncResume.Continue) (Sync.handle fuel (SyncInput.GotDecidedValues id r values) w) =
    ([(SyncEffect.SendValueResponse id (SyncValueResponse.new r.(RangeInclusive.start) values), SyncResume.Continue)],
     Complete (w', inr tt)).
Proof using laws.
  intros Hok Hend Hn. cbn [Sync.handle]. unfold on_got_decided_values, mbind, handler_bind, lift.
  rewrite len_u64_total by (done || (unfold len, range_ok in *; lia)). cbn [prog_bind fst snd].
  assert (exists h, count_heights r.(RangeInclusive.start) values = Ret h) as [h Hh].
  { revert Hn. clear -laws. generalize r.(RangeInclusive.start). induction values as [|v values IH]; intros h; cbn; [eauto|].
    intros Hn. destruct (Height_increment_by_spec h 1) as (x & Hx & Hu); [lia|].
    unfold Height_increment. rewrite Hx. cbn. apply IH. lia. }
  rewrite Hh. cbn [prog_bind fst snd].
  match goal with |- context [update_metrics ?f] => destruct (update_metrics_Complete f w) as [w1 Hw1] end.
  unfold s_perform, mbind, handler_bind. cbn -[update_metrics]. rewrite Hw1. cbn. eauto.
Qed.

(** What a node that serves its store sends for a request. *)
Definition serve_request store size (fuel : nat) (config : SyncConfig.t) self (id : InboundRequestId)
    (from : PeerId) r : A_trace * A_prog (SyncActor.state * (string + unit)) :=
  execute (serving store size) (SyncActor.handle_msg fuel config
    (SyncMsg.NetworkEvent (NetworkEvent.SyncRequest id from (Request_ValueRequest (ValueRequest.new r)))) self).

Lemma serve_request_runs store size fuel config self id from r :
  (forall resp, config.(SyncConfig.max_response_size) + size resp <= U64_MAX)%N ->
  (u r.(RangeInclusive.end_) < U64_MAX)%N ->
  (u r.(RangeInclusive.end_) + 1 - u r.(RangeInclusive.start) < N.of_nat fuel)%N ->
  exists t values self',
    serve_request store size fuel config self id from r =
      (t ++ [(SyncCall.CastGotDecidedValues id r values, SyncReply.Done)], Complete (self', inr tt)) /\
    served store size config.(SyncConfig.max_response_size) r.(RangeInclusive.start) r.(RangeInclusive.end_) values.
Proof using laws.
  intros Hsize Hend Hfuel. destruct (value_request_runs fuel self.(SyncActor.sync) id from r) as [w Hw].
  destruct (serve_effect store size _ Hsize fuel config self id r eq_refl Hend Hfuel) as (t & values & He & Hs).
  exists t, values, (SyncActor.set_sync self w). split; [|done].
  set (calls := fun _ : SyncEffect.t => t ++ [(SyncCall.CastGotDecidedValues id r values, SyncReply.Done)]).
  pose proof (process_input_execute (serving store size) (fun _ => SyncResume.Continue) calls fuel config _ self _ w Hw) as Hrun.
  rewrite fmap_cons in Hrun. cbn [fmap list_fmap concat] in Hrun. rewrite app_nil_r in Hrun. apply Hrun.
  by intros e ->%list_elem_of_singleton.
Qed.

Lemma sent_response_runs store size fuel config self id r (values : list RawDecidedValue.t) :
  range_ok r -> (u r.(RangeInclusive.end_) < U64_MAX)%N ->
  (u r.(RangeInclusive.start) + N.of_nat (length values) <= U64_MAX)%N ->
  exists self', execute (serving store size)
      (SyncActor.handle_msg fuel config (SyncMsg.GotDecidedValues id r values) self) =
    ([(SyncCall.OutgoingResponse id (SyncValueResponse.new r.(RangeInclusive.start) values), SyncReply.Done)],
     Complete (self', inr tt)).
Proof using laws.
  intros Hok Hend Hn. destruct (got_decided_values_runs fuel self.(SyncActor.sync) id r values Hok Hend Hn) as [w Hw].
  exists (SyncActor.set_sync self w).
  apply (process_input_execute (serving store size) (fun _ => SyncResume.Continue)
    (fun _ => [(SyncCall.OutgoingResponse id (SyncValueResponse.new r.(RangeInclusive.start) values), SyncReply.Done)])
    fuel config _ self _ w Hw).
  by intros e ->%list_elem_of_singleton.
Qed.

(** *** The response on the client *)

(** The values that a node serves are well-formed for the request. *)
Lemma served_well_formed store size max r values :
  (forall h v, store h = Some v -> RawDecidedValue.height v = h) ->
  served store size max r.(RangeInclusive.start) r.(RangeInclusive.end_) values -> values <> [] ->
  well_formed r (SyncValueResponse.new r.(RangeInclusive.start) values) = true.
Proof.
  intros Hstore [Hv _ _] Hne. unfold well_formed, SyncValueResponse.len_u64. cbn.
  assert (Hlast : exists h, u h = (u r.(RangeInclusive.start) + N.of_nat (length values - 1))%N /\
    (u h <= u r.(RangeInclusive.end_))%N).
  { destruct (lookup_lt_is_Some_2 values (length values - 1)) as [v Hlk].
    { destruct values; [done|]. cbn. lia. }
    destruct (Hv _ _ Hlk) as (h & ? & ? & _). eauto. }
  destruct Hlast as (h & Hu & Hle). assert (0 < length values) by (destruct values; [done|cbn; lia]).
  rewrite (proj2 (N.ltb_lt _ _)), N.eqb_refl, (proj2 (N.leb_le _ _)) by lia. cbn.
  apply bool_decide_eq_true_2. clear -Hstore Hv. revert Hv. generalize (u r.(RangeInclusive.start)) as n.
  induction values as [|v values IH]; intros n Hv; [done|]. rewrite fmap_cons. cbn [length numbers_from]. f_equal.
  - destruct (Hv 0 v eq_refl) as (h & Hu & _ & Hs). rewrite (Hstore _ _ Hs), Hu. lia.
  - apply IH. intros i w Hi. destruct (Hv (S i) w Hi) as (h & Hu & Hle & Hs). exists h. split; [lia|done].
Qed.

Lemma served_nonempty store size max start end_ values v :
  served store size max start end_ values -> (u start <= u end_)%N -> (0 < max)%N ->
  store start = Some v -> (value_size size start v <= max)%N -> values <> [].
Proof.
  intros [_ _ Hall] Hle Hmax Hs Hv ->. cbn in Hall. destruct (Hall start) as [?|(w & Hw & Hor)]; try done.
  - lia.
  - congruence.
  - simplify_eq. lia.
Qed.

(** Another actor that answers every cast. *)
Definition attentive (_ : SyncCall.t) : SyncReply.t := SyncReply.Done.

Lemma response_runs fuel config self id p requested response :
  self.(SyncActor.consensus) = true ->
  BTreeMap.get id self.(SyncActor.sync).(World.state).(SyncState.inflight_requests) = Some (requested, p) ->
  well_formed requested response = true ->
  (u response.(SyncValueResponse.start_height) + SyncValueResponse.len_u64 response <= U64_MAX)%N ->
  exists self', execute attentive (SyncActor.handle_msg fuel config
      (SyncMsg.NetworkEvent (NetworkEvent.SyncResponse id p (Some response))) self) =
      ([(SyncCall.ProcessSyncResponse id p response, SyncReply.Done)], Complete (self', inr tt)) /\
    like (after_response self.(SyncActor.sync).(World.state) id p (Some response))
      self'.(SyncActor.sync).(World.state).
Proof using laws.
  intros Hc Hf Hwf Hle. set (w := self.(SyncActor.sync)) in *. set (s := w.(World.state)) in *.
  destruct (wp_execute (fun _ _ => True) continuing (fun _ => SyncResume.Continue) _ _
    (wp_on_value_response id p (Some response) w ltac:(by intros x [= <-]))) as (t & [w' res] & He & Hres & -> & Hl); [done|].
  cbn in Hres. subst res. fold s in He, Hl.
  assert (Hacc : accepted s id p (Some response) = true).
  { unfold accepted, requested_from. by rewrite Hf, decide_True. }
  unfold notification in He. rewrite Hacc in He.
  set (self1 := SyncActor.set_timers self (TimerScheduler.cancel self.(SyncActor.timers) id)).
  exists (SyncActor.set_sync self1 w'). split; [|done].
  apply (process_input_execute attentive (fun _ => SyncResume.Continue)
    (fun _ => [(SyncCall.ProcessSyncResponse id p response, SyncReply.Done)]) fuel config
    (SyncInput.ValueResponse id p (Some response)) self1 _ w' He).
  intros e ->%list_elem_of_singleton. cbn [fst SyncActor.handle_effect]. unfold mbind, handler_bind, get_state.
  cbn [prog_bind fst snd]. assert (SyncActor.consensus self1 = true) as -> by exact Hc. done.
Qed.

Lemma after_response_waiting s id p response requested h :
  requested_from s id p = Some requested -> well_formed requested response = true ->
  (u response.(SyncValueResponse.start_height) <= u h <
   u response.(SyncValueResponse.start_height) + SyncValueResponse.len_u64 response)%N ->
  waiting (after_response s id p (Some response)) h = true.
Proof using laws.
  intros Hr Hwf Hh. unfold after_response. rewrite Hr. unfold accepted. rewrite Hr, Hwf.
  pose proof (response_heights_end _ _ Hwf) as Hend. unfold well_formed in Hwf.
  rewrite !andb_true_iff, N.eqb_eq in Hwf. destruct Hwf as [[[_ Hs] _] _].
  unfold waiting. apply existsb_exists. exists (response_heights response). split.
  - unfold all_ranges_of. apply in_concat. exists [response_heights response]. split; [|by left].
    apply list_elem_of_In, list_elem_of_fmap. exists (id, ([response_heights response], p)). split; [done|].
    apply BTreeMap.get_Some_elem, BTreeMap.get_insert.
  - unfold RangeInclusive.contains. rewrite andb_true_iff, !Height_leb_le, Hend, <- Hs. cbn. lia.
Qed.

Lemma like_waiting s s' h : like s s' -> waiting s' h = waiting s h.
Proof. intros Hl. unfold waiting. by rewrite (like_pending _ _ Hl). Qed.

(** C28: what a node serves, the node that requested it accepts. A node whose
    application holds the decided values of [store] answers a request for [r],
    in two messages to its sync actor, with the values from the start of [r]
    on: as many as there are in the range and as the size of a response
    allows. If it has the first of them and that value fits, the actor of the
    requesting node, with the request in flight, hands the response to
    consensus, and all the heights of the values wait for consensus. *)
Theorem served_values_reach_consensus (store : Height -> option RawDecidedValue.t)
  (size : SyncValueResponse.t -> N) (fuel : nat) (config config' : SyncConfig.t)
  (server client : SyncActor.state) (server_id : InboundRequestId) (client_id : OutboundRequestId)
  (server_peer client_peer : PeerId) (r : Range) (v : RawDecidedValue.t)
  (Hstore : forall h v, store h = Some v -> RawDecidedValue.height v = h)
  (Hsize : forall resp, (config.(SyncConfig.max_response_size) + size resp <= U64_MAX)%N)
  (Hok : range_ok r) (Hend : (u r.(RangeInclusive.end_) < U64_MAX)%N)
  (Hfuel : (len r < N.of_nat fuel)%N) (Hmax : (0 < config.(SyncConfig.max_response_size))%N)
  (Hv : store r.(RangeInclusive.start) = Some v)
  (Hfits : (value_size size r.(RangeInclusive.start) v <= config.(SyncConfig.max_response_size))%N)
  (Hconsensus : client.(SyncActor.consensus) = true)
  (Hflight : BTreeMap.get client_id client.(SyncActor.sync).(World.state).(SyncState.inflight_requests) =
             Some (r, server_peer)) :
  exists t values server1 server2 client',
    let response := SyncValueResponse.new r.(RangeInclusive.start) values in
    serve_request store size fuel config server server_id client_peer r =
      (t ++ [(SyncCall.CastGotDecidedValues server_id r values, SyncReply.Done)], Complete (server1, inr tt)) /\
    execute (serving store size) (SyncActor.handle_msg fuel config
        (SyncMsg.GotDecidedValues server_id r values) server1) =
      ([(SyncCall.OutgoingResponse server_id response, SyncReply.Done)], Complete (server2, inr tt)) /\
    execute attentive (SyncActor.handle_msg fuel config'
        (SyncMsg.NetworkEvent (NetworkEvent.SyncResponse client_id server_peer (Some response))) client) =
      ([(SyncCall.ProcessSyncResponse client_id server_peer response, SyncReply.Done)],
       Complete (client', inr tt)) /\
    values <> [] /\
    served store size config.(SyncConfig.max_response_size) r.(RangeInclusive.start) r.(RangeInclusive.end_) values /\
    forall h, (u r.(RangeInclusive.start) <= u h < u r.(RangeInclusive.start) + N.of_nat (length values))%N ->
      waiting client'.(SyncActor.sync).(World.state) h = true.
Proof using laws.
  destruct (serve_request_runs store size fuel config server server_id client_peer r) as (t & values & server1 & He & Hs);
    [done|done|unfold len, range_ok in *; lia|].
  assert (Hne : values <> []) by by eapply served_nonempty.
  pose proof (served_well_formed _ _ _ _ _ Hstore Hs Hne) as Hwf.
  assert (Hlen : (u r.(RangeInclusive.start) + N.of_nat (length values) <= U64_MAX)%N).
  { unfold well_formed, SyncValueResponse.len_u64 in Hwf. cbn in Hwf.
    rewrite !andb_true_iff, N.leb_le in Hwf. destruct Hwf as [[_ Hwf] _]. lia. }
  destruct (sent_response_runs store size fuel config server1 server_id r values) as [server2 H2]; [done..|].
  destruct (response_runs fuel config' client client_id server_peer r
    (SyncValueResponse.new r.(RangeInclusive.start) values)) as (client' & H3 & Hl); [done..|].
  exists t, values, server1, server2, client'. split_and!; [done..|]. intros h Hh.
  rewrite (like_waiting _ _ _ Hl). eapply after_response_waiting; [|done|done].
  unfold requested_from. by rewrite Hflight, decide_True.
Qed.

(** ** A hostile peer *)

(** any peer can stop the sync actor with one message. A request for a
    range that ends before it starts goes to the actor's own serving loop,
    which reads no value and casts an empty answer back to the actor; handling
    that answer panics, in any state, because the length of the range is
    computed with overflow checks. *)
Theorem hostile_request_stops_actor (store : Height -> option RawDecidedValue.t)
  (size : SyncValueResponse.t -> N) (net : SyncCall.t -> SyncReply.t) (fuel fuel' : nat) (config : SyncConfig.t)
  (self : SyncActor.state) (id : InboundRequestId) (from : PeerId) (r : Range)
  (Hr : (u r.(RangeInclusive.end_) < u r.(RangeInclusive.start))%N) :
  exists self' msg,
    serve_request store size (S fuel) config self id from r =
      ([(SyncCall.CastGotDecidedValues id r [], SyncReply.Done)], Complete (self', inr tt)) /\
    execute net (SyncActor.handle fuel' config (SyncMsg.GotDecidedValues id r []) self') = ([], Panicked msg).
Proof using laws.
  destruct (value_request_runs (S fuel) self.(SyncActor.sync) id from r) as [w Hw].
  destruct (hostile_request_panics w fuel' id r [] (or_introl Hr)) as [msg Hmsg].
  exists (SyncActor.set_sync self w), msg. split.
  - apply (process_input_execute (serving store size) (fun _ => SyncResume.Continue)
      (fun _ => [(SyncCall.CastGotDecidedValues id r [], SyncReply.Done)]) (S fuel) config _ self _ w Hw).
    intros e ->%list_elem_of_singleton. cbn [fst SyncActor.handle_effect SyncActor.fetch_values].
    rewrite (proj2 (Height_leb_gt _ _)) by done. done.
  - unfold SyncActor.handle. cbn [SyncActor.handle_msg]. unfold SyncActor.process_input, mbind, handler_bind, get_state.
    cbn [prog_bind fst snd SyncActor.sync SyncActor.set_sync catch]. by rewrite Hmsg.
Qed.

End facts.
