(* ===== verification/SyncRuns.v ===== *)
(** * Runs of value sync

    A concrete environment and the test context, runs of value sync and of the
    sync actor over them, and the witnesses of the theorems about both. *)

From Stdlib Require Import SpecFloat.
From S2P Require Import Prelude Types Bytes Context TestContext BTree Coroutine ConsensusTypes Scoring SyncTypes Sync SyncWindows SyncFacts SyncSafety SyncLiveness SyncResponses Timers Streaming Network EngineNetwork EngineSync EngineSyncFacts.

Section runs.

(** ** The environment: the clock counts its readings, and the first of the
    weighted indices is taken. *)
#[local] Instance first_environment : Environment := {
  Clock := N;
  instant_now now := (now, (now + 1)%N);
  Rng := unit;
  weighted_index ws rng := match ws with [] => None | _ => Some (0, rng) end;
  f64_exp _ := f64_zero;
}.

#[local] Instance first_environment_laws : EnvironmentLaws.
Proof. split. intros [|w ws] [] i rng' H; [done|]. cbn in *. injection H as <- _. lia. Qed.

#[local] Instance N_test : Context := TestContext (Addr := N) (PK := N) (Sig := N).
#[local] Instance N_test_arith : HeightArith := TestContext_arith (Addr := N) (PK := N) (Sig := N).
#[local] Instance no_parts : ProposalPartType := unit.
#[local] Instance N_test_laws : HeightLaws := TestContext_height_laws (Addr := N) (PK := N) (Sig := N).

Definition h (n : N) : Height := TestHeight.new n.
Definition range (a b : N) : Range := RangeInclusive.new (h a) (h b).
Definition peer (b : Byte.byte) : PeerId := [b].
Definition p1 : PeerId := peer Byte.x01.
Definition p2 : PeerId := peer Byte.x02.

(** At most two requests of three heights. *)
Definition config : SyncConfig.t :=
  SyncConfig.with_batch_size (SyncConfig.with_parallel_requests SyncConfig.default 2) 3.

(** A network that names a request after its first height. *)
Definition id_of (r : Range) : OutboundRequestId :=
  String (Ascii.ascii_of_N (Height_as_u64 r.(RangeInclusive.start))) EmptyString.
Definition network (e : SyncEffect.t) : SyncResume.t :=
  match e with
  | SyncEffect.SendValueRequest _ q => SyncResume.ValueRequestId (Some (id_of q.(ValueRequest.range)))
  | _ => SyncResume.Continue
  end.

Definition value_at (n : N) : RawDecidedValue.t :=
  RawDecidedValue.new [] (CommitCertificate.mk (h n) (Round.Some 0) 7%N []).

(** ** Reachable worlds *)

Definition run (input : SyncInput.t) (w : World.t) : S_trace * S_prog (World.t * (SyncError.t + unit)) :=
  execute network (Sync.handle 20 input w).
Definition world_of (m : S_prog (World.t * (SyncError.t + unit))) (w : World.t) : World.t :=
  match m with Complete (w', _) => w' | _ => w end.
Definition run_world (input : SyncInput.t) (w : World.t) : World.t := world_of (run input w).2 w.

Definition completes (m : S_prog (World.t * (SyncError.t + unit))) : bool :=
  match m with Complete _ => true | _ => false end.

Lemma run_reachable config input w :
  reachable config w -> completes (run input w).2 = true -> reachable config (run_world input w).
Proof.
  intros Hw Hc. unfold run_world, run in *. pose proof (execute_steps network (Sync.handle 20 input w)) as Hs.
  destruct (execute network _) as [t [[w' x]| | |]]; try done. by eapply reach_input.
Qed.

Definition ema : Ema.t := get_ret (Ema.mk f64_zero f64_zero f64_zero 1%N) Ema.default.
Definition initial : World.t :=
  World.mk (SyncState.mk tt config false (h 0) [] [] ∅ (PeerScorer.new ema)) SyncMetrics.new 0%N.

Lemma initial_reachable : reachable config initial.
Proof. apply (reach_new (Env := first_environment) config tt). vm_refl. Qed.

(** A peer that has decided ten heights announces itself to a node that starts
    the first. *)
Definition announcement : SyncInput.t := SyncInput.Status (Status.mk p1 (h 10) (h 1)).
Definition started : World.t := run_world (SyncInput.StartedHeight (h 1) HeightStartType.Start) initial.
Definition behind : World.t := run_world announcement started.

Lemma started_reachable : reachable config started.
Proof. apply run_reachable; [apply initial_reachable|vm_refl]. Qed.
Lemma behind_reachable : reachable config behind.
Proof. apply run_reachable; [apply started_reachable|vm_refl]. Qed.

(** ** Witnesses: requests *)

Lemma compute_free_window_earliest_witness :
  exists o, compute_free_window (h 3) (h 20) 5 [range 9 10; range 4 5] = Ret o /\
    earliest_window (h 3) (h 20) 5 [range 9 10; range 4 5] o.
Proof.
  apply compute_free_window_earliest; [| |done|done]; repeat constructor; done.
Defined.

(** The requests of the announcement. *)
Definition request (a b : N) : SyncEffect.t * SyncResume.t :=
  (SyncEffect.SendValueRequest p1 (ValueRequest.new (range a b)),
   SyncResume.ValueRequestId (Some (id_of (range a b)))).

Lemma announcement_run : (run announcement started).1 = [request 1 3; request 4 6].
Proof. vm_refl. Qed.

Lemma announcement_fresh : answered (fresh_ids started.(World.state)) [] [request 1 3; request 4 6].
Proof.
  cbn [answered request]. split_and!; [..|done]; intros id r [= <- <-]; (split; [vm_refl|]); vm_decide.
Qed.

Lemma requests_in_order_witness :
  request_ok started.(World.state) (known_peers started.(World.state) announcement)
    (busy_ranges started.(World.state) ++ (sent [request 1 3]).*2) (range 4 6) p1.
Proof.
  pose proof (execute_steps network (Sync.handle 20 announcement started)) as Hs.
  pose proof announcement_run as Ht. unfold run in Ht. rewrite Ht in Hs.
  exact (requests_in_order config started 20 announcement _ _ [request 1 3] [] p1 (ValueRequest.new (range 4 6))
    _ started_reachable Hs announcement_fresh eq_refl).
Defined.

Lemma sync_makes_progress_witness :
  exists w', (execute network (Sync.handle 20 announcement started)).2 = Complete (w', inr tt) /\
    exhausted w'.(World.state) (h 10).
Proof.
  apply (sync_makes_progress config started 20 announcement (h 10) network started_reachable).
  - vm_refl.
  - split; [vm_decide|vm_decide|vm_decide|vm_decide].
  - vm_decide.
  - done.
  - pose proof announcement_run as Ht. unfold run in Ht. rewrite Ht. cbn [answered request].
    pose proof announcement_fresh as Hf. cbn [answered request] in Hf. destruct Hf as (Hf1 & Hf2 & _).
    split_and!; [..|done]; (split; [assumption|eexists; reflexivity]).
Defined.

(** Whatever the scores, the only peer is chosen. *)
Lemma only_peer_served :
  always_served (SyncState.update_status started.(World.state) (Status.mk p1 (h 10) (h 1))) (range 1 3).
Proof.
  intros s1 Hl. destruct s1 as [rng c st tip inf pend peers scorer]. apply like_peers in Hl. cbn in Hl.
  unfold SyncState.random_peer_with, SyncState.random_peer_with_except. cbn [SyncState.peers]. rewrite Hl.
  unfold PeerScorer.select_peer.
  match goal with |- context [map_to_list ?m] => set (l := map_to_list m) end.
  assert (Hlist : l = [(p1, range 1 3)]) by vm_refl. rewrite Hlist. cbn. eauto.
Qed.

Lemma refused_requests_never_return_witness :
  exists t, execute refusing (Sync.handle 100 announcement started) = (t, OutOfFuel) /\ length t = 100.
Proof.
  apply (refused_requests_never_return config started (Status.mk p1 (h 10) (h 1)) (h 10) (range 1 3) 100
    started_reachable); [vm_refl|vm_decide| | |apply only_peer_served].
  - split; vm_decide.
  - split; [vm_refl|vm_decide].
Defined.

(** ** Witnesses: responses, decisions, invalid values *)

(** The peer answers the first request with two of the three values. *)
Definition answer : SyncValueResponse.t := SyncValueResponse.new (h 1) [value_at 1; value_at 2].
Definition answer_input : SyncInput.t := SyncInput.ValueResponse (id_of (range 1 3)) p1 (Some answer).
Definition answered_world : World.t := run_world answer_input behind.

Lemma answered_reachable : reachable config answered_world.
Proof. apply run_reachable; [apply behind_reachable|vm_refl]. Qed.

Lemma response_handed_over_iff_witness :
  exists w', execute (fun _ => SyncResume.Continue) (Sync.handle 20 answer_input behind) =
      ([(SyncEffect.NotifyConsensusToProcessSyncResponse (id_of (range 1 3)) p1 answer, SyncResume.Continue)],
       Complete (w', inr tt)) /\
    like (after_response behind.(World.state) (id_of (range 1 3)) p1 (Some answer)) w'.(World.state).
Proof.
  exact (response_handed_over_iff 20 (id_of (range 1 3)) p1 (Some answer) behind
    ltac:(by intros x [= <-])).
Defined.

Lemma decided_forgets_up_to_witness :
  exists w', Sync.handle 20 (SyncInput.Decided (h 1)) answered_world = Complete (w', inr tt) /\
    w'.(World.state).(SyncState.tip_height) = h 1 /\
    SyncState.inflight_requests w'.(World.state) = SyncState.inflight_requests answered_world.(World.state) /\
    forall h', waiting w'.(World.state) h' = waiting answered_world.(World.state) h' && Height_ltb (h 1) h'.
Proof. apply (decided_forgets_up_to config answered_world 20 (h 1) answered_reachable). done. Defined.

Lemma invalid_value_frees_height_witness :
  exists w', Sync.handle 20 (SyncInput.InvalidValue p1 (h 2)) answered_world = Complete (w', inr tt) /\
    SyncState.inflight_requests w'.(World.state) = SyncState.inflight_requests answered_world.(World.state) /\
    forall h', waiting w'.(World.state) h' = waiting answered_world.(World.state) h' &&
      negb (bool_decide (h' = h 2) && bool_decide (sender answered_world.(World.state) (h 2) = Some p1)).
Proof.
  apply (invalid_value_frees_height config answered_world 20 (h 2) p1 _ answered_reachable); [done|by left].
Defined.

Lemma hostile_response_panics_witness :
  exists msg, Sync.handle 20 (SyncInput.ValueResponse (id_of (range 1 3)) p1
    (Some (SyncValueResponse.new (h U64_MAX) [value_at U64_MAX]))) behind = Panicked msg.
Proof. by apply (hostile_response_panics behind 20 (id_of (range 1 3)) p1 (range 1 3) (value_at U64_MAX)). Defined.

(** ** Witnesses: the sync actor *)

(** The other actors accept every message and name requests as above. *)
Definition actors (c : SyncCall.t) : SyncReply.t :=
  match c with
  | SyncCall.GetHistoryMinHeight => SyncReply.HistoryMinHeight (h 1)
  | SyncCall.OutgoingRequest _ (Request_ValueRequest q) => SyncReply.RequestId (id_of q.(ValueRequest.range))
  | _ => SyncReply.Done
  end.

Definition actor_initial : SyncActor.state := SyncActor.mk initial TimerScheduler.new ∅ false false.

Definition actor_run (self : SyncActor.state) (msg : SyncMsg.t) : SyncActor.state :=
  match (execute actors (SyncActor.handle 20 config msg self)).2 with Complete (self', _) => self' | _ => self end.

Lemma actor_run_reachable self msg :
  actor_reachable config self -> actor_reachable config (actor_run self msg).
Proof.
  intros Hw. unfold actor_run. pose proof (execute_steps actors (SyncActor.handle 20 config msg self)) as Hs.
  destruct (execute actors _) as [t [[self' x]| | |]]; try done. by eapply actor_handled.
Qed.

Definition actor_behind : SyncActor.state :=
  foldl actor_run actor_initial
    [SyncMsg.SetConsensusActor; SyncMsg.StartedHeight (h 1) HeightStartType.Start;
     SyncMsg.NetworkEvent (NetworkEvent.Status p1 (LocalStatus.new (h 10) (h 1)))].

Lemma actor_behind_reachable : actor_reachable config actor_behind.
Proof.
  unfold actor_behind. cbn [foldl]. do 3 apply actor_run_reachable.
  apply (actor_started (Env := first_environment) config tt 0%N). vm_refl.
Qed.

Lemma actor_behind_busy :
  busy_ranges actor_behind.(SyncActor.sync).(World.state) = [range 1 3; range 4 6].
Proof. vm_refl. Qed.

Lemma requests_disjoint_bounded_witness :
  (total len [range 1 3; range 4 6] <= config.(SyncConfig.batch_size) * config.(SyncConfig.parallel_requests))%N.
Proof.
  rewrite <- actor_behind_busy.
  exact (proj2 (proj2 (requests_disjoint_bounded config actor_behind actor_behind_reachable))).
Defined.

(** An application that has decided ten heights. *)
Definition ten_values (x : Height) : option RawDecidedValue.t :=
  if (1 <=? TestHeight.inner x)%N && (TestHeight.inner x <=? 10)%N then Some (value_at (TestHeight.inner x)) else None.

Lemma ten_values_heights x v : ten_values x = Some v -> RawDecidedValue.height v = x.
Proof. unfold ten_values. destruct x as [n]. cbn. case_match; [|done]. by intros [= <-]. Qed.

Lemma served_values_reach_consensus_witness :
  exists values client',
    execute attentive (SyncActor.handle_msg 20 config
        (SyncMsg.NetworkEvent (NetworkEvent.SyncResponse (id_of (range 1 3)) p1
          (Some (SyncValueResponse.new (range 1 3).(RangeInclusive.start) values)))) actor_behind) =
      ([(SyncCall.ProcessSyncResponse (id_of (range 1 3)) p1
           (SyncValueResponse.new (range 1 3).(RangeInclusive.start) values), SyncReply.Done)],
       Complete (client', inr tt)) /\
    values <> [].
Proof.
  destruct (served_values_reach_consensus ten_values (fun _ => 100%N) 20 config config actor_initial actor_behind
    "in" (id_of (range 1 3)) p1 p2 (range 1 3) (value_at 1) ten_values_heights)
    as (t & values & s1 & s2 & client' & _ & _ & H & Hne & _); [done..|vm_refl|vm_refl|].
  exists values, client'. split; assumption.
Defined.

Lemma hostile_request_stops_actor_witness :
  exists self' msg,
    serve_request ten_values (fun _ => 100%N) 1 config actor_behind "in" p2 (range 2 1) =
      ([(SyncCall.CastGotDecidedValues "in" (range 2 1) [], SyncReply.Done)], Complete (self', inr tt)) /\
    execute actors (SyncActor.handle 20 config (SyncMsg.GotDecidedValues "in" (range 2 1) []) self') = ([], Panicked msg).
Proof. by apply hostile_request_stops_actor. Defined.

End runs.
