(* ===== verification/EngineConsensus.v ===== *)
(** * The consensus actor

    engine/src/consensus.rs: the actor that runs core-consensus. It turns the
    messages of the network, the host, sync and its timers into inputs, carries
    out the effects of core-consensus ([handle_effect]) by calling the other
    actors, replays the write-ahead log at the start of a height, and buffers
    messages until it runs (engine/src/util/msg_buffer.rs).

    Calls to the other actors (engine/src/host.rs, wal.rs, network.rs, sync.rs),
    to the signing provider and to the subscribers of events
    (engine/src/util/events.rs) are the effects of the actor; an answer of another
    kind than the call's stands for a failed call. A call whose answer is
    forwarded to the actor itself is answered when it is sent; what the answer
    becomes is a definition of its own. Metrics and logging are left out. *)

From S2P Require Import Prelude Types Bytes Context Starknet StateMachine VoteKeeper ProposalKeeper Driver Verify BTree BoundedQueue Coroutine ConsensusTypes FullProposal Consensus Scoring SyncTypes Sync Timers Streaming Network EngineNetwork EngineSync.

(** ** Timeouts

    [std::time::Duration] in nanoseconds: seconds are 64 bits wide, and adding
    panics when they overflow. *)

Definition Duration : Type := N.
Definition DURATION_MAX : Duration := (U64_MAX * 1000000000 + 999999999)%N.
Definition add_duration (a b : Duration) : outcome Duration :=
  _ ← assert_that (a + b <=? DURATION_MAX)%N "overflow when adding durations"; Ret (a + b)%N.
Definition from_millis (n : N) : Duration := (n * 1000000)%N.
Definition from_secs (n : N) : Duration := (n * 1000000000)%N.

(** config/src/lib.rs. *)
Module TimeoutConfig.
Record t : Type := mk {
  timeout_propose : Duration;
  timeout_propose_delta : Duration;
  timeout_prevote : Duration;
  timeout_prevote_delta : Duration;
  timeout_precommit : Duration;
  timeout_precommit_delta : Duration;
  timeout_rebroadcast : Duration;
}.

Definition timeout_duration (self : t) (step : TimeoutKind.t) : outcome Duration :=
  match step with
  | TimeoutKind.Propose => Ret self.(timeout_propose)
  | TimeoutKind.Prevote => Ret self.(timeout_prevote)
  | TimeoutKind.Precommit => Ret self.(timeout_precommit)
  | TimeoutKind.Rebroadcast =>
      d ← add_duration self.(timeout_propose) self.(timeout_prevote);
      add_duration d self.(timeout_precommit)
  end.

Definition delta_duration (self : t) (step : TimeoutKind.t) : option Duration :=
  match step with
  | TimeoutKind.Propose => Some self.(timeout_propose_delta)
  | TimeoutKind.Prevote => Some self.(timeout_prevote_delta)
  | TimeoutKind.Precommit => Some self.(timeout_precommit_delta)
  | TimeoutKind.Rebroadcast => None
  end.

Definition default : outcome t :=
  let timeout_propose := from_secs 3 in
  let timeout_prevote := from_secs 1 in
  let timeout_precommit := from_secs 1 in
  d ← add_duration timeout_propose timeout_prevote;
  timeout_rebroadcast ← add_duration d timeout_precommit;
  Ret (mk timeout_propose (from_millis 500) timeout_prevote (from_millis 500)
         timeout_precommit (from_millis 500) timeout_rebroadcast).
End TimeoutConfig.

Module Timeouts.
Import TimeoutConfig.

Definition t : Type := TimeoutConfig.t.
Definition new (config : TimeoutConfig.t) : t := config.
Definition reset (self : t) (config : TimeoutConfig.t) : t := config.

Definition duration_for (self : t) (step : TimeoutKind.t) : outcome Duration :=
  match step with
  | TimeoutKind.Propose => Ret self.(timeout_propose)
  | TimeoutKind.Prevote => Ret self.(timeout_prevote)
  | TimeoutKind.Precommit => Ret self.(timeout_precommit)
  | TimeoutKind.Rebroadcast =>
      d ← add_duration self.(timeout_propose) self.(timeout_prevote);
      add_duration d self.(timeout_precommit)
  end.

Definition increase_timeout (self : t) (step : TimeoutKind.t) : outcome t :=
  let '(mk propose propose_delta prevote prevote_delta precommit precommit_delta rebroadcast) := self in
  match step with
  | TimeoutKind.Propose =>
      d ← add_duration propose propose_delta;
      Ret (mk d propose_delta prevote prevote_delta precommit precommit_delta rebroadcast)
  | TimeoutKind.Prevote =>
      d ← add_duration prevote prevote_delta;
      Ret (mk propose propose_delta d prevote_delta precommit precommit_delta rebroadcast)
  | TimeoutKind.Precommit =>
      d ← add_duration precommit precommit_delta;
      Ret (mk propose propose_delta prevote prevote_delta d precommit_delta rebroadcast)
  | TimeoutKind.Rebroadcast =>
      d ← add_duration propose_delta prevote_delta;
      d ← add_duration d precommit_delta;
      d ← add_duration rebroadcast d;
      Ret (mk propose propose_delta prevote prevote_delta precommit precommit_delta d)
  end.
End Timeouts.

(** ** Messages *)

(** [host::Next]. *)
Module Next.
Inductive t {Ctx : Context} : Type :=
  | Start (height : Height) (validator_set : ValidatorSet)
  | Restart (height : Height) (validator_set : ValidatorSet).
Arguments t {Ctx}.
End Next.

Module EngineMsg.
Inductive t {Ctx : Context} {Part : ProposalPartType} : Type :=
  | StartHeight (height : Height) (validator_set : ValidatorSet)
  | NetworkEvent (event : NetworkEvent.t)
  | TimeoutElapsed (elapsed : TimeoutElapsed.t RoundTimeout.t)
  | ProposeValue (value : LocallyProposedValue.t)
  | ReceivedProposedValue (value : ProposedValue.t) (origin : ValueOrigin.t)
  | RestartHeight (height : Height) (validator_set : ValidatorSet)
  | DumpState
  | ProcessSyncResponse (request_id : OutboundRequestId) (peer : PeerId) (response : SyncValueResponse.t).
Arguments t {Ctx Part}.
End EngineMsg.

(** The events for subscribers; the errors of replay are left out. *)
Module EngineEvent.
Inductive t {Ctx : Context} : Type :=
  | StartedHeight (height : Height) (is_restart : bool)
  | StartedRound (height : Height) (round : Round.t) (proposer : Address) (role : Role.t)
  | Published (msg : SignedConsensusMsg.t)
  | Received (msg : SignedConsensusMsg.t)
  | ProposedValue (value : LocallyProposedValue.t)
  | ReceivedProposedValue (value : ConsensusTypes.ProposedValue.t) (origin : ValueOrigin.t)
  | Decided (certificate : CommitCertificate.t)
  | RepublishVote (vote : SignedVote)
  | RebroadcastRoundCertificate (certificate : RoundCertificate.t)
  | SkipRoundCertificate (certificate : RoundCertificate.t)
  | PolkaCertificate (certificate : PolkaCertificate.t)
  | WalReplayBegin (height : Height) (entries : nat)
  | WalReplayEntry (entry : WalEntry.t)
  | WalReplayDone (height : Height)
  | WalReplayError.
Arguments t {Ctx}.
End EngineEvent.

(** The state dump (consensus/state_dump.rs). *)
Module StateDump.
Record t {Ctx : Context} : Type := mk {
  consensus : State.t;
  address : Address;
  proposer : option Address;
  params : Params.t;
  validator_set : ValidatorSet;
  votes : gmap Round.t PerRound.t;
  vote_evidence : gmap Address (list (SignedVote * SignedVote));
  proposals : gmap Round.t (list ProposalAndValidity);
  proposal_evidence : gmap Address (list (SignedProposal * SignedProposal));
  full_proposal_keeper : FullProposalKeeper.t;
  last_signed_prevote : option SignedVote;
  last_signed_precommit : option SignedVote;
  round_certificate : option EnterRoundCertificate.t;
  input_queue : BoundedQueue.t Height ConsensusInput.t;
}.
Arguments t {Ctx}.

Definition new {Ctx : Context} (state : CState.t) : t :=
  let driver := state.(CState.driver) in
  mk _ driver.(Driver.round_state) (CState.address state) driver.(Driver.proposer) state.(CState.params)
    (CState.validator_set state)
    driver.(Driver.vote_keeper).(VoteKeeper.per_round) driver.(Driver.vote_keeper).(VoteKeeper.evidence)
    driver.(Driver.proposal_keeper).(ProposalKeeper.per_round)
    driver.(Driver.proposal_keeper).(ProposalKeeper.evidence)
    state.(CState.full_proposal_keeper) state.(CState.last_signed_prevote)
    state.(CState.last_signed_precommit) driver.(Driver.round_certificate) state.(CState.input_queue).
End StateDump.

(** ** Calls to the other actors and to the signing provider *)

Module WalCall.
Inductive t {Ctx : Context} : Type :=
  | StartedHeight (height : Height)
  | Reset (height : Height)
  | Append (height : Height) (entry : WalEntry.t)
  | Flush.
Arguments t {Ctx}.
End WalCall.

(** The messages to the host (host.rs) that this actor sends. *)
Module HostCall.
Inductive t {Ctx : Context} {Ext : VoteExtension} {Part : ProposalPartType} : Type :=
  | ConsensusReady
  | StartedRound (height : Height) (round : Round.t) (proposer : Address) (role : Role.t)
  | GetValue (height : Height) (round : Round.t) (timeout : Duration)
  | ExtendVote (height : Height) (round : Round.t) (value_id : ValueId)
  | VerifyVoteExtension (height : Height) (round : Round.t) (value_id : ValueId) (extension : Extension)
  | RestreamValue (height : Height) (round valid_round : Round.t) (address : Address) (value_id : ValueId)
  | ReceivedProposalPart (from : PeerId) (part : StreamMessage.t ProposalPart)
  | Decided (certificate : CommitCertificate.t) (extensions : VoteExtensions.t)
  | ProcessSyncedValue (height : Height) (round : Round.t) (proposer : Address) (value_bytes : bytes).
Arguments t {Ctx Ext Part}.
End HostCall.

Module SignerCall.
Inductive t {Ctx : Context} {Ext : VoteExtension} : Type :=
  | SignVote (vote : Vote)
  | SignProposal (proposal : Proposal)
  | VerifySignedProposal (proposal : Proposal) (signature : Signature) (public_key : PublicKey)
  | SignVoteExtension (extension : Extension)
  | VerifySignedVoteExtension (extension : Extension) (signature : Signature) (public_key : PublicKey).
Arguments t {Ctx Ext}.
End SignerCall.

Module EngineCall.
Inductive t {Ctx : Context} {Ext : VoteExtension} {Part : ProposalPartType} : Type :=
  | Wal (msg : WalCall.t)
  | Host (msg : HostCall.t)
  | Signer (request : SignerCall.t)
  | Network (msg : NetworkMsg.t)
  | Sync (msg : SyncMsg.t)
  | Myself (msg : EngineMsg.t)
  | TxEvent (event : EngineEvent.t)
  | ReplyStateDump (dump : StateDump.t).
Arguments t {Ctx Ext Part}.
End EngineCall.

Module EngineReply.
Inductive t {Ctx : Context} {Ext : VoteExtension} : Type :=
  | Done
  | Failed
  | WalResult (ok : bool)
  | WalEntries (entries : option (list WalEntry.t))
  | UndecidedValues (values : list ProposedValue.t)
  | VoteExtension (extension : option Extension)
  | ExtensionValidity (result : VoteExtensionError.t + unit)
  | SignedVote (vote : Context.SignedVote)
  | SignedProposal (proposal : Context.SignedProposal)
  | SignedExtension (extension : ConsensusTypes.SignedExtension)
  | Verified (result : VerificationResult.t).
Arguments t {Ctx Ext}.
End EngineReply.

(** ** State *)

Module Phase.
Inductive t : Type := Unstarted | Ready | Running | Recovering.
#[global] Instance t_eq_dec : EqDecision t.
Proof. solve_decision. Defined.
End Phase.

Definition MAX_BUFFER_SIZE : nat := 1024.

(** util/msg_buffer.rs: the first message to come out is at the head. *)
Module MessageBuffer.
Record t {Ctx : Context} {Part : ProposalPartType} : Type := mk { messages : list EngineMsg.t; max_size : nat }.
Arguments t {Ctx Part}.

Section buffer.
Context {Ctx : Context} {Part : ProposalPartType}.
Definition new (max_size : nat) : t := mk _ _ [] max_size.
Definition buffer (self : t) (msg : EngineMsg.t) : t * bool :=
  if length self.(messages) <? self.(max_size)
  then (mk _ _ (self.(messages) ++ [msg]) self.(max_size), true) else (self, false).
Definition pop (self : t) : t * option EngineMsg.t :=
  match self.(messages) with
  | [] => (self, None)
  | msg :: messages => (mk _ _ messages self.(max_size), Some msg)
  end.
Definition is_empty (self : t) : bool := match self.(messages) with [] => true | _ => false end.
Definition len (self : t) : nat := length self.(messages).
End buffer.
End MessageBuffer.

#[global] Instance TimeoutKind_countable : Countable TimeoutKind.t.
Proof.
  refine (inj_countable' (fun k => match k with TimeoutKind.Propose => 0 | TimeoutKind.Prevote => 1
                                   | TimeoutKind.Precommit => 2 | TimeoutKind.Rebroadcast => 3 end)
    (fun n => match n with 0 => TimeoutKind.Propose | 1 => TimeoutKind.Prevote
              | 2 => TimeoutKind.Precommit | _ => TimeoutKind.Rebroadcast end) _). by intros [].
Defined.

#[global] Instance RoundTimeout_countable : Countable RoundTimeout.t.
Proof.
  refine (inj_countable' (fun t => (t.(RoundTimeout.kind), t.(RoundTimeout.round)))
    (fun p => RoundTimeout.mk p.1 p.2) _). by intros [].
Defined.

Module EngineState.
Record t {Ctx : Context} {Part : ProposalPartType} : Type := mk {
  timers : TimerScheduler.t RoundTimeout.t;
  timeouts : Timeouts.t;
  consensus : CState.t;
  connected_peers : gset PeerId;
  phase : Phase.t;
  msg_buffer : MessageBuffer.t;
}.
Arguments mk {Ctx Part} timers timeouts consensus connected_peers phase msg_buffer.

Section state.
Context {Ctx : Context} {Part : ProposalPartType}.
Implicit Types (self : t).

Definition set_timers self x := mk x self.(timeouts) self.(consensus) self.(connected_peers) self.(phase) self.(msg_buffer).
Definition set_timeouts self x := mk self.(timers) x self.(consensus) self.(connected_peers) self.(phase) self.(msg_buffer).
Definition set_consensus self x := mk self.(timers) self.(timeouts) x self.(connected_peers) self.(phase) self.(msg_buffer).
Definition set_connected_peers self x := mk self.(timers) self.(timeouts) self.(consensus) x self.(phase) self.(msg_buffer).
Definition set_msg_buffer self x := mk self.(timers) self.(timeouts) self.(consensus) self.(connected_peers) self.(phase) x.

Definition height self : Height := CState.height self.(consensus).
Definition set_phase self x :=
  mk self.(timers) self.(timeouts) self.(consensus) self.(connected_peers) x self.(msg_buffer).
End state.
End EngineState.

(** What the actor is spawned with: [sync] tells whether there is a sync actor. *)
Module EngineConfig.
Record t {Ctx : Context} : Type := mk {
  params : Params.t;
  timeouts : TimeoutConfig.t;
  queue_capacity : nat;
  sync : bool;
}.
Arguments mk {Ctx} params timeouts queue_capacity sync.
End EngineConfig.

Module ConsensusActor.
Import EngineState.

Section actor.
Context {Ctx : Context} {Ext : VoteExtension} {Provider : SigningProvider} {Part : ProposalPartType}.
Context {Arith : HeightArith}.
Context (config : EngineConfig.t).

Abbreviation EM := (handler EngineCall.t EngineReply.t EngineState.t string).

(** [actor.cast(msg)?], and calls whose answer is forwarded. *)
Definition cast (c : EngineCall.t) : EM unit :=
  r ← yield_ c;
  match r with EngineReply.Done => mret tt | _ => fail "Messaging failed" end.
(** A call whose failure is logged at most. *)
Definition tell (c : EngineCall.t) : EM unit := _ ← yield_ c; mret tt.
Definition tx_event (event : EngineEvent.t) : EM unit := tell (EngineCall.TxEvent event).
(** Messages to the sync actor, when there is one. *)
Definition sync_cast (msg : SyncMsg.t) : EM unit :=
  when config.(EngineConfig.sync) (cast (EngineCall.Sync msg)).

(** ** The write-ahead log: the errors of the last three are logged. *)

Definition wal_fetch (height : Height) : EM (list WalEntry.t) :=
  r ← yield_ (EngineCall.Wal (WalCall.StartedHeight height));
  match r with
  | EngineReply.WalEntries None => mret []
  | EngineReply.WalEntries (Some entries) => mret entries
  | EngineReply.WalResult _ => _ ← tx_event EngineEvent.WalReplayError; mret []
  | _ => fail "Messaging failed"
  end.
Definition wal_reset (height : Height) : EM unit := tell (EngineCall.Wal (WalCall.Reset height)).
Definition wal_append (height : Height) (entry : WalEntry.t) (phase : Phase.t) : EM unit :=
  if bool_decide (phase = Phase.Recovering) then mret tt
  else tell (EngineCall.Wal (WalCall.Append height entry)).
Definition wal_flush (phase : Phase.t) : EM unit :=
  if bool_decide (phase = Phase.Recovering) then mret tt
  else tell (EngineCall.Wal WalCall.Flush).

(** ** Effects *)

Definition get_value (height : Height) (round : Round.t) (timeout : Duration) : EM unit :=
  cast (EngineCall.Host (HostCall.GetValue height round timeout)).

Definition extend_vote (height : Height) (round : Round.t) (value_id : ValueId) : EM (option Extension) :=
  r ← yield_ (EngineCall.Host (HostCall.ExtendVote height round value_id));
  match r with
  | EngineReply.VoteExtension extension => mret extension
  | _ => fail "Failed to get earliest block height"
  end.

Definition verify_vote_extension (height : Height) (round : Round.t) (value_id : ValueId)
    (extension : Extension) : EM (VoteExtensionError.t + unit) :=
  r ← yield_ (EngineCall.Host (HostCall.VerifyVoteExtension height round value_id extension));
  match r with
  | EngineReply.ExtensionValidity result => mret result
  | _ => fail "Failed to verify vote extension"
  end.

(** The undecided values come back as messages. *)
Fixpoint cast_undecided (values : list ProposedValue.t) : EM unit :=
  match values with
  | [] => mret tt
  | value :: values =>
      _ ← tell (EngineCall.Myself (EngineMsg.ReceivedProposedValue value ValueOrigin.Consensus));
      cast_undecided values
  end.

Definition start_round (height : Height) (round : Round.t) (proposer : Address) (role : Role.t) : EM unit :=
  state ← get_state;
  _ ← wal_flush state.(phase);
  r ← yield_ (EngineCall.Host (HostCall.StartedRound height round proposer role));
  match r with
  | EngineReply.UndecidedValues undecided_values =>
      _ ← cast_undecided undecided_values;
      tx_event (EngineEvent.StartedRound height round proposer role)
  | _ => fail "Messaging failed"
  end.

Definition verify_signature (msg : SignedMessage.t ConsensusMsg.t) (pk : PublicKey) : EM bool :=
  let signature := msg.(SignedMessage.signature) in
  match msg.(SignedMessage.message) with
  | ConsensusMsg.Vote v =>
      match verify_signed_vote v signature pk with
      | inr result => mret (negb (VerificationResult.is_invalid result))
      | inl _ => fail "Failed to verify"
      end
  | ConsensusMsg.Proposal p =>
      r ← yield_ (EngineCall.Signer (SignerCall.VerifySignedProposal p signature pk));
      match r with
      | EngineReply.Verified result => mret (negb (VerificationResult.is_invalid result))
      | _ => fail "Failed to verify"
      end
  end.

Definition extend_and_sign (height : Height) (round : Round.t) (value_id : ValueId)
    : EM (option SignedExtension) :=
  extension ← extend_vote height round value_id;
  match extension with
  | None => mret None
  | Some extension =>
      r ← yield_ (EngineCall.Signer (SignerCall.SignVoteExtension extension));
      mret (match r with EngineReply.SignedExtension e => Some e | _ => None end)
  end.

Definition verify_extension (height : Height) (round : Round.t) (value_id : ValueId)
    (signed_extension : SignedExtension) (pk : PublicKey) : EM (VoteExtensionError.t + unit) :=
  r ← yield_ (EngineCall.Signer (SignerCall.VerifySignedVoteExtension
        signed_extension.(SignedMessage.message) signed_extension.(SignedMessage.signature) pk));
  match r with
  | EngineReply.Verified result =>
      if VerificationResult.is_invalid result then mret (inl VoteExtensionError.InvalidSignature)
      else verify_vote_extension height round value_id signed_extension.(SignedMessage.message)
  | _ => fail "Failed to verify"
  end.

Definition liveness_event (msg : LivenessMsg.t) : EngineEvent.t :=
  match msg with
  | LivenessMsg.Vote vote => EngineEvent.RepublishVote vote
  | LivenessMsg.PolkaCertificate certificate => EngineEvent.PolkaCertificate certificate
  | LivenessMsg.SkipRoundCertificate certificate => EngineEvent.SkipRoundCertificate certificate
  end.

Definition decided (certificate : CommitCertificate.t) (extensions : VoteExtensions.t) : EM unit :=
  state ← get_state;
  _ ← assert_m (negb (bool_decide (certificate.(CommitCertificate.commit_signatures) = [])))
        "assertion failed: !certificate.commit_signatures.is_empty()";
  _ ← wal_flush state.(phase);
  _ ← tx_event (EngineEvent.Decided certificate);
  _ ← cast (EngineCall.Host (HostCall.Decided certificate extensions));
  sync_cast (SyncMsg.Decided certificate.(CommitCertificate.height)).

(** What the host's answer to [Decided] is forwarded as. *)
Definition forward_next (next : Next.t) : EngineMsg.t :=
  match next with
  | Next.Start h vs => EngineMsg.StartHeight h vs
  | Next.Restart h vs => EngineMsg.RestartHeight h vs
  end.

Definition invalid_sync_value (peer : PeerId) (height : Height) (e : Error) : EM unit :=
  match e with
  | InvalidCommitCertificate certificate _ =>
      sync_cast (SyncMsg.InvalidValue peer certificate.(CommitCertificate.height))
  | _ => sync_cast (SyncMsg.ValueProcessingError peer height)
  end.

Definition valid_sync_value (value : ValueResponse.t) (proposer : Address) : EM unit :=
  when config.(EngineConfig.sync)
    (cast (EngineCall.Host (HostCall.ProcessSyncedValue
       value.(ValueResponse.certificate).(CommitCertificate.height)
       value.(ValueResponse.certificate).(CommitCertificate.round) proposer
       value.(ValueResponse.value_bytes)))).

(** What the host's answer to [ProcessSyncedValue] is forwarded as, and what is
    sent to the sync actor on the way. *)
Definition forward_synced_value (value : ValueResponse.t) (proposed : ProposedValue.t)
    : option SyncMsg.t * EngineMsg.t :=
  (if bool_decide (proposed.(ProposedValue.validity) = Validity.Invalid) ||
      negb (bool_decide (value_id proposed.(ProposedValue.value)
                         = value.(ValueResponse.certificate).(CommitCertificate.value_id)))
   then Some (SyncMsg.InvalidValue value.(ValueResponse.peer)
                value.(ValueResponse.certificate).(CommitCertificate.height))
   else None,
   EngineMsg.ReceivedProposedValue proposed ValueOrigin.Sync).

(** An effect that resumes with [Resume::Continue]. *)
Definition continue_after (m : EM unit) : EM Resume := _ ← m; mret Resume_Continue.

Definition handle_effect (effect : Effect) : EM Resume :=
  match effect with
  | ResetTimeouts =>
      continue_after (state ← get_state;
        put_state (set_timeouts state (Timeouts.reset state.(timeouts) config.(EngineConfig.timeouts))))
  | CancelAllTimeouts =>
      continue_after (state ← get_state;
        put_state (set_timers state (TimerScheduler.cancel_all state.(timers))))
  | CancelTimeout timeout =>
      continue_after (state ← get_state;
        put_state (set_timers state (TimerScheduler.cancel state.(timers) timeout)))
  | ScheduleTimeout timeout =>
      continue_after (state ← get_state;
        _ ← lift (Timeouts.duration_for state.(timeouts) timeout.(RoundTimeout.kind));
        timers ← lift (TimerScheduler.start_timer state.(timers) timeout);
        put_state (set_timers state timers))
  | StartRound height round proposer role => continue_after (start_round height round proposer role)
  | SignProposal proposal =>
      r ← yield_ (EngineCall.Signer (SignerCall.SignProposal proposal));
      match r with
      | EngineReply.SignedProposal signed_proposal => mret (Resume_SignedProposal signed_proposal)
      | _ => fail "Failed to sign"
      end
  | SignVote vote =>
      r ← yield_ (EngineCall.Signer (SignerCall.SignVote vote));
      match r with
      | EngineReply.SignedVote signed_vote => mret (Resume_SignedVote signed_vote)
      | _ => fail "Failed to sign"
      end
  | VerifySignature msg pk => valid ← verify_signature msg pk; mret (Resume_SignatureValidity valid)
  | VerifyCommitCertificate certificate validator_set thresholds =>
      result ← lift (verify_commit_certificate certificate validator_set thresholds);
      mret (Resume_CertificateValidity result)
  | VerifyPolkaCertificate certificate validator_set thresholds =>
      result ← lift (verify_polka_certificate certificate validator_set thresholds);
      mret (Resume_CertificateValidity result)
  | VerifyRoundCertificate certificate validator_set thresholds =>
      result ← lift (verify_round_certificate certificate validator_set thresholds);
      mret (Resume_CertificateValidity result)
  | ExtendVote height round value_id =>
      extension ← extend_and_sign height round value_id; mret (Resume_VoteExtension extension)
  | VerifyVoteExtension height round value_id signed_extension pk =>
      result ← verify_extension height round value_id signed_extension pk;
      mret (Resume_VoteExtensionValidity result)
  | PublishConsensusMsg msg =>
      continue_after (state ← get_state;
        _ ← wal_flush state.(phase);
        _ ← tx_event (EngineEvent.Published msg);
        cast (EngineCall.Network (NetworkMsg.PublishConsensusMsg msg)))
  | PublishLivenessMsg msg =>
      continue_after (_ ← tx_event (liveness_event msg);
        cast (EngineCall.Network (NetworkMsg.PublishLivenessMsg msg)))
  | RepublishVote vote =>
      continue_after (_ ← tx_event (EngineEvent.RepublishVote vote);
        cast (EngineCall.Network (NetworkMsg.PublishLivenessMsg (LivenessMsg.Vote vote))))
  | RepublishRoundCertificate certificate =>
      continue_after (_ ← tx_event (EngineEvent.RebroadcastRoundCertificate certificate);
        cast (EngineCall.Network (NetworkMsg.PublishLivenessMsg (LivenessMsg.SkipRoundCertificate certificate))))
  | GetValue height round timeout =>
      continue_after (state ← get_state;
        timeout_duration ← lift (Timeouts.duration_for state.(timeouts) timeout.(RoundTimeout.kind));
        get_value height round timeout_duration)
  | RestreamProposal height round valid_round address value_id =>
      continue_after (cast (EngineCall.Host (HostCall.RestreamValue height round valid_round address value_id)))
  | Decide certificate extensions => continue_after (decided certificate extensions)
  | InvalidSyncValue peer height e => continue_after (invalid_sync_value peer height e)
  | ValidSyncValue value proposer => continue_after (valid_sync_value value proposer)
  | WalAppend height entry =>
      continue_after (state ← get_state; wal_append height entry state.(phase))
  end.

(** ** Inputs *)

Definition process_input (fuel : nat) (input : ConsensusInput.t) : EM unit :=
  state ← get_state;
  '(consensus, result) ← process handle_effect Resume_Continue (Consensus.handle fuel input state.(consensus));
  state ← get_state;
  _ ← put_state (set_consensus state consensus);
  match result with inr _ => mret tt | inl _ => fail "Error when processing input" end.

(** Errors are logged. *)
Definition try_input (fuel : nat) (input : ConsensusInput.t) : EM unit :=
  _ ← catch (process_input fuel input); mret tt.

Definition timeout_elapsed (fuel : nat) (timeout : RoundTimeout.t) : EM unit :=
  state ← get_state;
  timeouts ← lift (Timeouts.increase_timeout state.(timeouts) timeout.(RoundTimeout.kind));
  _ ← put_state (set_timeouts (set_timers state (TimerScheduler.cancel state.(timers) timeout)) timeouts);
  process_input fuel (ConsensusInput.TimeoutElapsed timeout).

(** ** Replaying the log *)

Definition replay_entry (fuel : nat) (entry : WalEntry.t) : EM unit :=
  match entry with
  | WalEntry.ConsensusMsg (SignedConsensusMsg.Vote vote) => process_input fuel (ConsensusInput.Vote vote)
  | WalEntry.ConsensusMsg (SignedConsensusMsg.Proposal proposal) =>
      process_input fuel (ConsensusInput.Proposal proposal)
  | WalEntry.Timeout timeout => timeout_elapsed fuel timeout
  | WalEntry.ProposedValue value =>
      process_input fuel (ConsensusInput.ProposedValue value ValueOrigin.Consensus)
  end.

Fixpoint replay_entries (fuel : nat) (entries : list WalEntry.t) : EM unit :=
  match entries with
  | [] => mret tt
  | entry :: entries =>
      _ ← tx_event (EngineEvent.WalReplayEntry entry);
      result ← catch (replay_entry fuel entry);
      _ ← match result with inl _ => tx_event EngineEvent.WalReplayError | inr _ => mret tt end;
      replay_entries fuel entries
  end.

Definition wal_replay (fuel : nat) (height : Height) (entries : list WalEntry.t) : EM unit :=
  state ← get_state;
  _ ← assert_m (bool_decide (state.(phase) = Phase.Recovering))
        "assertion failed: state.phase == Phase::Recovering";
  if bool_decide (entries = []) then mret tt
  else
    _ ← tx_event (EngineEvent.WalReplayBegin height (length entries));
    _ ← replay_entries fuel entries;
    state ← get_state;
    tx_event (EngineEvent.WalReplayDone (EngineState.height state)).

(** ** Messages *)

Definition update (f : EngineState.t -> EngineState.t) : EM unit := state ← get_state; put_state (f state).

(** The start of a height, up to the buffered messages. *)
Definition start_height (fuel : nat) (height : Height) (validator_set : ValidatorSet) (is_restart : bool)
    : EM unit :=
  _ ← tx_event (EngineEvent.StartedHeight height is_restart);
  wal_entries ← (if is_restart then _ ← wal_reset height; mret [] else wal_fetch height);
  _ ← when (negb (bool_decide (wal_entries = []))) (update (fun state => set_phase state Phase.Recovering));
  _ ← try_input fuel (ConsensusInput.StartHeight height validator_set is_restart);
  _ ← when config.(EngineConfig.sync)
        (tell (EngineCall.Sync (SyncMsg.StartedHeight height (HeightStartType.from_is_restart is_restart))));
  _ ← when (negb (bool_decide (wal_entries = []))) (wal_replay fuel height wal_entries);
  update (fun state => set_phase state Phase.Running).

Definition network_event (fuel : nat) (event : NetworkEvent.t) : EM unit :=
  state ← get_state;
  match event with
  | NetworkEvent.Listening _ =>
      if bool_decide (state.(phase) = Phase.Unstarted) then
        _ ← put_state (set_phase state Phase.Ready);
        cast (EngineCall.Host HostCall.ConsensusReady)
      else mret tt
  | NetworkEvent.PeerConnected peer_id =>
      put_state (set_connected_peers state ({[peer_id]} ∪ state.(connected_peers)))
  | NetworkEvent.PeerDisconnected peer_id =>
      put_state (set_connected_peers state (state.(connected_peers) ∖ {[peer_id]}))
  | NetworkEvent.Vote _ vote =>
      _ ← tx_event (EngineEvent.Received (SignedConsensusMsg.Vote vote));
      try_input fuel (ConsensusInput.Vote vote)
  | NetworkEvent.Proposal _ proposal =>
      _ ← tx_event (EngineEvent.Received (SignedConsensusMsg.Proposal proposal));
      unless (ValuePayload.parts_only state.(consensus).(CState.params).(Params.value_payload))
        (try_input fuel (ConsensusInput.Proposal proposal))
  | NetworkEvent.PolkaCertificate _ certificate =>
      try_input fuel (ConsensusInput.PolkaCertificate certificate)
  | NetworkEvent.RoundCertificate _ certificate =>
      try_input fuel (ConsensusInput.RoundCertificate certificate)
  | NetworkEvent.ProposalPart from part =>
      unless (ValuePayload.proposal_only state.(consensus).(CState.params).(Params.value_payload))
        (cast (EngineCall.Host (HostCall.ReceivedProposalPart from part)))
  | NetworkEvent.Status _ _ | NetworkEvent.SyncRequest _ _ _ | NetworkEvent.SyncResponse _ _ _ => mret tt
  end.

(** The values of a sync response, from the lowest height on. *)
Fixpoint process_sync_values (fuel : nat) (peer : PeerId) (height : Height) (values : list RawDecidedValue.t)
    : EM unit :=
  match values with
  | [] => mret tt
  | value :: values =>
      _ ← try_input fuel (ConsensusInput.SyncValueResponse (ValueResponse.new peer
            value.(RawDecidedValue.value_bytes) value.(RawDecidedValue.certificate)));
      height ← lift (Height_increment height);
      process_sync_values fuel peer height values
  end.

(** [handle_msg]; [process_buffered_msgs] is tied below. *)
Definition handle_body (fuel : nat) (process_buffered_msgs : bool -> EM unit) (msg : EngineMsg.t) : EM unit :=
  match msg with
  | EngineMsg.StartHeight height validator_set =>
      if count validator_set =? 0 then fail "Validator set is empty"
      else _ ← start_height fuel height validator_set false; process_buffered_msgs false
  | EngineMsg.RestartHeight height validator_set =>
      if count validator_set =? 0 then fail "Validator set is empty"
      else _ ← start_height fuel height validator_set true; process_buffered_msgs true
  | EngineMsg.ProposeValue value =>
      _ ← try_input fuel (ConsensusInput.Propose value); tx_event (EngineEvent.ProposedValue value)
  | EngineMsg.NetworkEvent event => network_event fuel event
  | EngineMsg.TimeoutElapsed elapsed =>
      state ← get_state;
      let '(timers, timeout) := TimerScheduler.intercept_timer_msg state.(timers) elapsed in
      _ ← put_state (set_timers state timers);
      match timeout with
      | None => mret tt
      | Some timeout => _ ← catch (timeout_elapsed fuel timeout); mret tt
      end
  | EngineMsg.ReceivedProposedValue value origin =>
      _ ← tx_event (EngineEvent.ReceivedProposedValue value origin);
      try_input fuel (ConsensusInput.ProposedValue value origin)
  | EngineMsg.DumpState =>
      state ← get_state; tell (EngineCall.ReplyStateDump (StateDump.new state.(consensus)))
  | EngineMsg.ProcessSyncResponse _ peer_id (SyncValueResponse.new start_height values) =>
      process_sync_values fuel peer_id start_height values
  end.

(** The buffered messages: each turn of the loop takes one out, so as many turns
    as there are messages, and one more, are enough. *)
Definition process_buffered (replay : EM unit) (is_restart : bool) : EM unit :=
  state ← get_state;
  if MessageBuffer.is_empty state.(msg_buffer) then mret tt
  else
    _ ← when is_restart (put_state (set_msg_buffer state (MessageBuffer.new MAX_BUFFER_SIZE)));
    replay.

Fixpoint replay_buffered (turns fuel : nat) : EM unit :=
  match turns with
  | O => out_of_fuel
  | S turns =>
      state ← get_state;
      match MessageBuffer.pop state.(msg_buffer) with
      | (_, None) => mret tt
      | (msg_buffer, Some msg) =>
          _ ← put_state (set_msg_buffer state msg_buffer);
          _ ← catch (handle_body fuel (process_buffered (replay_buffered turns fuel)) msg);
          replay_buffered turns fuel
      end
  end.

Definition process_buffered_msgs (fuel : nat) (is_restart : bool) : EM unit :=
  state ← get_state;
  process_buffered (replay_buffered (S (MessageBuffer.len state.(msg_buffer))) fuel) is_restart.

Definition handle_msg (fuel : nat) (msg : EngineMsg.t) : EM unit :=
  handle_body fuel (process_buffered_msgs fuel) msg.

Definition should_buffer (msg : EngineMsg.t) : bool :=
  match msg with
  | EngineMsg.StartHeight _ _ | EngineMsg.NetworkEvent (NetworkEvent.Listening _)
  | EngineMsg.NetworkEvent (NetworkEvent.PeerConnected _)
  | EngineMsg.NetworkEvent (NetworkEvent.PeerDisconnected _) => false
  | _ => true
  end.

Definition handle (fuel : nat) (msg : EngineMsg.t) : EM unit :=
  state ← get_state;
  if negb (bool_decide (state.(phase) = Phase.Running)) && should_buffer msg then
    put_state (set_msg_buffer state (MessageBuffer.buffer state.(msg_buffer) msg).1)
  else _ ← catch (handle_msg fuel msg); mret tt.

(** ** Starting and stopping *)

(** The state that [pre_start] returns, after subscribing to the network. *)
Definition new : EngineState.t :=
  mk TimerScheduler.new (Timeouts.new config.(EngineConfig.timeouts))
    (CState.new config.(EngineConfig.params) config.(EngineConfig.queue_capacity))
    ∅ Phase.Unstarted (MessageBuffer.new MAX_BUFFER_SIZE).
Definition pre_start : EM unit :=
  _ ← cast (EngineCall.Network NetworkMsg.Subscribe); put_state new.

Definition post_start : EM unit :=
  _ ← update (fun state => set_timers state (TimerScheduler.cancel_all state.(timers)));
  when config.(EngineConfig.sync) (cast (EngineCall.Sync SyncMsg.SetConsensusActor)).

Definition post_stop : EM unit :=
  update (fun state => set_timers state (TimerScheduler.cancel_all state.(timers))).

End actor.
End ConsensusActor.
