(* ===== verification/EngineConsensusFacts.v ===== *)
(** * The safety of the consensus actor

    The actor runs core-consensus: what Node.v shows of the effects of a height
    becomes a statement about the calls to the signing provider, the
    write-ahead log, the network and the host. The calls of the actor are linked
    to the effects it carries out; the link is kept by every effect, message and
    replayed entry, first while a height starts and the log is replayed, then
    while the actor runs. *)

From S2P Require Import Prelude Types Bytes Context Starknet StateMachine VoteKeeper ProposalKeeper Driver DriverFacts DriverVotes DriverDecisions DriverHeight Verify BTree BoundedQueue Coroutine ConsensusTypes FullProposal Consensus ConsensusLogic ConsensusFacts Node Scoring SyncTypes Sync Timers Streaming Network EngineNetwork EngineSync EngineConsensus.

Abbreviation E_trace := (Coroutine.trace EngineCall.t EngineReply.t).
Abbreviation EM := (handler EngineCall.t EngineReply.t EngineState.t string).

Section safety.
Context {Ctx : Context} {Ext : VoteExtension} {Provider : SigningProvider} {Part : ProposalPartType}.
Context {Arith : HeightArith} (config : EngineConfig.t).

Implicit Types (T : E_trace) (c : EngineCall.t) (t : Consensus.trace) (v : SignedVote) (w : Vote).

(** ** What the calls show *)

Abbreviation SignVoteCall w := (EngineCall.Signer (SignerCall.SignVote w)).
Abbreviation PublishCall v := (EngineCall.Network (NetworkMsg.PublishConsensusMsg (SignedConsensusMsg.Vote v))).
Abbreviation DecidedCall cert exts := (EngineCall.Host (HostCall.Decided cert exts)).
Abbreviation FetchCall h := (EngineCall.Wal (WalCall.StartedHeight h)).
Abbreviation Entries es := (EngineReply.WalEntries (Some es)).
Abbreviation vote_entry v := (WalEntry.ConsensusMsg (SignedConsensusMsg.Vote v)).

Definition calls T : list EngineCall.t := T.*1.

Lemma calls_snoc c T c' r : c ∈ calls (T ++ [(c', r)]) <-> c ∈ calls T \/ c = c'.
Proof. unfold calls. rewrite fmap_app, elem_of_app. cbn. by rewrite list_elem_of_singleton. Qed.

(** A vote that the signing provider returned. *)
Definition signed_by_us T v : Prop := exists w, (SignVoteCall w, EngineReply.SignedVote v) ∈ T.
(** A vote that was handed to the log. *)
Definition appended T v : Prop :=
  exists h, EngineCall.Wal (WalCall.Append h (vote_entry v)) ∈ calls T.

(** The call that ends the replay of the log. *)
Definition ends_replay c : bool :=
  match c with EngineCall.TxEvent (EngineEvent.WalReplayDone _) => true | _ => false end.
(** The log is being replayed: it has returned entries, and the end of the
    replay has not been announced. *)
Definition replaying T : Prop :=
  exists T0 h es T', T = T0 ++ (FetchCall h, Entries es) :: T' /\ es <> [] /\ Forall (fun c => ends_replay c = false) (calls T').
(** A vote that the actor has from the log: it was among the entries that the log
    returned, or it was waiting in the queues of core-consensus when the log
    returned entries, or it was signed while they were replayed. *)
Definition recovered (waiting : SignedVote -> Prop) T v : Prop :=
  (exists h es, (FetchCall h, Entries es) ∈ T /\ es <> [] /\ (vote_entry v ∈ es \/ waiting v)) \/
  (exists T0 w T', T = T0 ++ (SignVoteCall w, EngineReply.SignedVote v) :: T' /\ replaying T0).
Definition valid_signature v (key : PublicKey) : Prop :=
  exists result, verify_signed_vote v.(SignedMessage.message) v.(SignedMessage.signature) key = inr result /\
    VerificationResult.is_invalid result = false.

(** ** The other actors

    The signing provider signs the vote it is given, with a signature that
    verifies under the key of the validator the vote is from; it accepts the
    signatures of the extensions of our own votes, and the host accepts those
    extensions. The actor of the log is there when a height starts. All other
    answers are arbitrary, failures included. *)
Definition others (vs : ValidatorSet) T c (r : EngineReply.t) : Prop :=
  match c, r with
  | SignVoteCall w, EngineReply.SignedVote v =>
      v.(SignedMessage.message) = w /\
      forall validator, get_by_address vs (vote_address w) = Some validator -> valid_signature v (public_key validator)
  | EngineCall.Signer (SignerCall.VerifySignedVoteExtension e sg pk), EngineReply.Verified result =>
      forall v validator, signed_by_us T v -> extension v.(SignedMessage.message) = Some (SignedMessage.new e sg) ->
        get_by_address vs (sv_address v) = Some validator -> pk = public_key validator ->
        VerificationResult.is_invalid result = false
  | EngineCall.Host (HostCall.VerifyVoteExtension _ _ _ e), EngineReply.ExtensionValidity result =>
      forall v sg, signed_by_us T v -> extension v.(SignedMessage.message) = Some (SignedMessage.new e sg) ->
        result = inr tt
  | EngineCall.Wal (WalCall.StartedHeight _), EngineReply.WalEntries _ => True
  | EngineCall.Wal (WalCall.StartedHeight _), EngineReply.WalResult _ => True
  | EngineCall.Wal (WalCall.StartedHeight _), _ => False
  | _, _ => True
  end.

Context {laws : ContextLaws} {ext_laws : VoteExtensionLaws} {proposer_laws : ProposerLaws}.
Context (h : Height) (vs : ValidatorSet) (a : Address) (P : Params.t) (d0 : Driver.t)
  (from_certificate waiting : SignedVote -> Prop).
Context (Hfresh : fresh h vs a d0).

(** What the actor may call after [T]. *)
Definition permitted T c : Prop :=
  match c with
  | SignVoteCall w =>
      vote_height w = h /\ vote_address w = a /\
      forall w', SignVoteCall w' ∈ calls T -> vote_type w' = vote_type w -> vote_round w' = vote_round w ->
        same_vote w' w
  | PublishCall v =>
      replaying T /\ (appended T v \/ recovered waiting T v \/ from_certificate v) \/
      exists T0 r r', T = T0 ++ [(EngineCall.Wal WalCall.Flush, r);
                                 (EngineCall.TxEvent (EngineEvent.Published (SignedConsensusMsg.Vote v)), r')] /\
        (appended T0 v \/ recovered waiting T0 v \/ from_certificate v)
  | EngineCall.Wal (WalCall.Append _ (vote_entry v)) => exists key, valid_signature v key
  | DecidedCall cert _ =>
      cert.(CommitCertificate.height) = h /\
      verify_commit_certificate cert vs P.(Params.threshold_params) = Ret (inr tt) /\
      forall cert' exts', DecidedCall cert' exts' ∈ calls T ->
        cert'.(CommitCertificate.round) = cert.(CommitCertificate.round) /\
        cert'.(CommitCertificate.value_id) = cert.(CommitCertificate.value_id)
  | _ => True
  end.

#[local] Abbreviation wp := (Coroutine.wp True permitted (others vs)).

(** ** The link between effects and calls *)

Record linked t T : Prop := {
  linked_signed w : SignVoteCall w ∈ calls T -> SignVote w ∈ effects t;
  linked_own v : own_vote t v -> signed_by_us T v;
  linked_keys v validator : signed_by_us T v -> get_by_address vs (sv_address v) = Some validator ->
    valid_signature v (public_key validator);
  linked_logged v : logged t v -> appended T v \/ recovered waiting T v;
  linked_decided cert exts : DecidedCall cert exts ∈ calls T -> Decide cert exts ∈ effects t;
  linked_commit cert vs' p : (VerifyCommitCertificate cert vs' p, Resume_CertificateValidity (inr tt)) ∈ t ->
    verify_commit_certificate cert vs' p = Ret (inr tt);
  linked_verified v : verified t v -> exists key, valid_signature v key;
}.

(** A message other than the start of a height, whose certificates are known. A
    start without validators is refused. *)
Definition later_msg (msg : EngineMsg.t) : Prop :=
  match msg with
  | EngineMsg.StartHeight _ vs' | EngineMsg.RestartHeight _ vs' => count vs' = 0
  | EngineMsg.NetworkEvent (NetworkEvent.RoundCertificate _ cert) =>
      Forall from_certificate (round_vote cert <$> cert.(RoundCertificate.round_signatures))
  | _ => True
  end.

(** The phases the actor may be in, and the votes that core-consensus may be
    given: at the start of the height and after it, they are not the same. *)
Context (phases : Phase.t -> Prop) (source : SignedVote -> Prop).

(** The messages in the buffer are such; while it recovers, the log is being
    replayed, and every vote it signs or receives is recovered. *)
Record side T (s : EngineState.t) : Prop := {
  side_phases : phases s.(EngineState.phase);
  side_replay : s.(EngineState.phase) = Phase.Recovering ->
    replaying T /\ forall v, source v \/ signed_by_us T v -> recovered waiting T v;
  side_buffer : Forall later_msg s.(EngineState.msg_buffer).(MessageBuffer.messages);
}.

Definition link t T (s : EngineState.t) : Prop := linked t T /\ side T s.

(** Calls that nothing is claimed of. *)
Definition dull c : Prop :=
  match c with
  | SignVoteCall _ | PublishCall _ | DecidedCall _ _ => False
  | EngineCall.Wal (WalCall.Append _ (vote_entry _)) => False
  | EngineCall.TxEvent (EngineEvent.WalReplayDone _) => False
  | _ => True
  end.

Lemma dull_permitted T c : dull c -> permitted T c.
Proof. destruct c as [[]|[]|[]|[]| | | |]; try done; try (by destruct msg); by destruct entry as [[]| |]. Qed.

Lemma replaying_call T c r : replaying T -> ends_replay c = false -> replaying (T ++ [(c, r)]).
Proof.
  intros (T0 & h' & es & T' & -> & He & Hr) Hc. exists T0, h', es, (T' ++ [(c, r)]).
  split; [by rewrite <- app_assoc|]. split; [done|]. unfold calls. rewrite fmap_app. apply Forall_app. split; [done|].
  by apply Forall_singleton.
Qed.
Lemma recovered_app T T' v : recovered waiting T v -> recovered waiting (T ++ T') v.
Proof.
  intros [(h' & es & Hin & Hv)|(T0 & w & T1 & -> & Hr)]; [left|right].
  - exists h', es. split; [|done]. apply elem_of_app. by left.
  - exists T0, w, (T1 ++ T'). by rewrite <- app_assoc.
Qed.
Lemma appended_app T T' v : appended T v -> appended (T ++ T') v.
Proof. intros (? & Hin). eexists. unfold calls in *. rewrite fmap_app. apply elem_of_app. by left. Qed.
Lemma signed_by_us_app T T' v : signed_by_us T v -> signed_by_us (T ++ T') v.
Proof. intros (? & ?). eexists. apply elem_of_app. by left. Qed.

Lemma side_call T c r s : side T s -> ends_replay c = false -> side (T ++ [(c, r)]) s.
Proof.
  intros [Hph Hr Hb] Hc. split; [done| |done]. intros [Hrep Hrec]%Hr. split; [by apply replaying_call|].
  intros v [Hv|(w & [Hin|[= <- <-]%list_elem_of_singleton]%elem_of_app)].
  - apply recovered_app, Hrec. by left.
  - apply recovered_app, Hrec. right. by exists w.
  - right. exists T, w, []. by split.
Qed.
Lemma side_frame T s s' :
  side T s -> s'.(EngineState.phase) = s.(EngineState.phase) ->
  s'.(EngineState.msg_buffer) = s.(EngineState.msg_buffer) -> side T s'.
Proof. intros [Hp Hr Hb] Hph Hbuf. split; rewrite ?Hph, ?Hbuf; auto. Qed.

(** Calls that the link says nothing of. *)
Definition neutral c : Prop :=
  match c with SignVoteCall _ | DecidedCall _ _ => False | _ => True end.

Lemma dull_neutral c : dull c -> neutral c.
Proof. by destruct c as [|[]|[]| | | | |]. Qed.
Lemma dull_replay c : dull c -> ends_replay c = false.
Proof. by destruct c as [| | | | | |[]|]. Qed.

Lemma linked_call t T c r : linked t T -> neutral c -> linked t (T ++ [(c, r)]).
Proof.
  intros [] Hc. split; intros *.
  - intros [?|<-]%calls_snoc; [eauto|done].
  - intros. apply signed_by_us_app. eauto.
  - intros (w & [Hin|[= <- <-]%list_elem_of_singleton]%elem_of_app); [|done]. apply linked_keys0. by exists w.
  - intros [?|?]%linked_logged0; [left; by apply appended_app|right; by apply recovered_app].
  - intros [?|<-]%calls_snoc; [eauto|done].
  - eauto.
  - eauto.
Qed.

(** Effects that nothing is claimed of. *)
Definition dull_effect (e : Effect) : Prop :=
  match e with
  | SignVote _ | VerifyCommitCertificate _ _ _ | VerifySignature _ _ => False
  | WalAppend _ (WalEntry.ConsensusMsg (SignedConsensusMsg.Vote _)) => False
  | _ => True
  end.

Lemma linked_effect t T e r : linked t T -> dull_effect e -> linked (t ++ [(e, r)]) T.
Proof.
  intros [] He. split; intros *.
  - intros Hw. apply elem_of_effects_snoc. eauto.
  - intros (w & [Hin|[= <- <-]%list_elem_of_singleton]%elem_of_app); [|done]. apply linked_own0. by exists w.
  - eauto.
  - intros (h' & [Hin|<-]%elem_of_effects_snoc); [|done]. apply linked_logged0. by exists h'.
  - intros Hd. apply elem_of_effects_snoc. eauto.
  - intros [Hin|[= <- <-]%list_elem_of_singleton]%elem_of_app; [eauto|done].
  - intros (key & [Hin|[= <- <-]%list_elem_of_singleton]%elem_of_app); [|done]. apply linked_verified0. by exists key.
Qed.

(** ** Handlers that keep the link *)

Definition keeps_link {A} (m : EM A) : Prop :=
  forall t T s, link t T s -> wp (m s) (fun T' x => link t T' x.1) T.

Lemma link_call t T c r s : link t T s -> neutral c -> ends_replay c = false -> link t (T ++ [(c, r)]) s.
Proof. intros [Hl Hp] Hc Hr. split; [by apply linked_call|by apply side_call]. Qed.

Lemma link_frame t T s s' :
  link t T s -> s'.(EngineState.phase) = s.(EngineState.phase) ->
  s'.(EngineState.msg_buffer) = s.(EngineState.msg_buffer) -> link t T s'.
Proof. intros [Hl Hp] ? ?. split; [done|by eapply side_frame]. Qed.

Lemma keeps_ret {A} (x : A) : keeps_link (mret x).
Proof. intros t T s Hl. by apply wp_ret. Qed.
Lemma keeps_fail {A} e : keeps_link (fail e : EM A).
Proof. intros t T s Hl. by apply wp_fail. Qed.
Lemma keeps_bind {A B} (m : EM A) (k : A -> EM B) :
  keeps_link m -> (forall x, keeps_link (k x)) -> keeps_link (m ≫= k).
Proof.
  intros Hm Hk t T s Hl. apply wp_bind. eapply wp_mono; [by apply Hm|]. intros T' [s' [e|x]] Hl'; [done|]. by apply Hk.
Qed.
Lemma keeps_yield c : dull c -> keeps_link (yield_ c).
Proof. intros Hc t T s Hl. apply wp_yield; [by apply dull_permitted|]. intros r _. by apply link_call; [|apply dull_neutral|apply dull_replay]. Qed.
Lemma keeps_lift {A} (o : outcome A) : keeps_link (lift o).
Proof. intros t T s Hl. by apply wp_lift. Qed.
Lemma keeps_when b m : keeps_link m -> keeps_link (when b m).
Proof. destruct b; [done|]. intros _. apply keeps_ret. Qed.
Lemma keeps_assert b msg : keeps_link (assert_m b msg).
Proof. apply keeps_lift. Qed.
Lemma keeps_get {A} (k : EngineState.t -> EM A) :
  (forall s, keeps_link (k s)) -> keeps_link (x ← get_state; k x).
Proof. intros Hk t T s Hl. apply wp_bind, wp_get. cbn [fst snd]. by apply Hk. Qed.

Lemma keeps_cast c : dull c -> keeps_link (ConsensusActor.cast c).
Proof. intros Hc. apply keeps_bind; [by apply keeps_yield|]. intros []; try apply keeps_fail. apply keeps_ret. Qed.
Lemma keeps_tell c : dull c -> keeps_link (ConsensusActor.tell c).
Proof. intros Hc. apply keeps_bind; [by apply keeps_yield|]. intros r. apply keeps_ret. Qed.
Lemma keeps_sync_cast msg : keeps_link (ConsensusActor.sync_cast config msg).
Proof. by apply keeps_when, keeps_cast. Qed.
Lemma keeps_flush phase : keeps_link (ConsensusActor.wal_flush phase).
Proof. unfold ConsensusActor.wal_flush. case_bool_decide; [apply keeps_ret|by apply keeps_tell]. Qed.

Lemma keeps_cast_undecided values : keeps_link (ConsensusActor.cast_undecided values).
Proof.
  induction values as [|value values IH]; [apply keeps_ret|]. apply keeps_bind; [by apply keeps_tell|]. by intros _.
Qed.

(** Carrying out an effect. *)
Definition carries t (e : Effect) T (s : EngineState.t) (m : EM Resume) : Prop :=
  wp (m s) (fun T' x => host vs t e (resumption Resume_Continue x.2) /\
    link (t ++ [(e, resumption Resume_Continue x.2)]) T' x.1) T.

(** An effect that is carried out by such a handler, with an answer that the
    consensus process accepts. *)
Lemma effect_linked {A} (e : Effect) (m : EM A) (k : A -> Resume) t T s :
  keeps_link m -> dull_effect e -> link t T s ->
  (forall x, host vs t e (k x)) -> host vs t e Resume_Continue ->
  carries t e T s (x ← m; mret (k x)).
Proof.
  intros Hm He Hl Hk Hc. apply wp_bind. eapply wp_mono; [by apply Hm|]. intros T' [s' [err|x]] [Hl' Hp]; cbn in *.
  - split; [done|]. split; [by apply linked_effect|done].
  - split; [apply Hk|]. split; [by apply linked_effect|done].
Qed.

Lemma keeps_modify (f : EngineState.t -> EngineState.t) :
  (forall s, (f s).(EngineState.phase) = s.(EngineState.phase) /\
     (f s).(EngineState.msg_buffer) = s.(EngineState.msg_buffer)) ->
  keeps_link (s ← get_state; put_state (f s)).
Proof.
  intros Hf t T s Hl. apply wp_bind, wp_get, wp_put. by eapply link_frame; [|apply Hf..].
Qed.

Lemma keeps_schedule timeout :
  keeps_link (state ← get_state;
    _ ← lift (Timeouts.duration_for state.(EngineState.timeouts) timeout.(RoundTimeout.kind));
    timers ← lift (TimerScheduler.start_timer state.(EngineState.timers) timeout);
    put_state (EngineState.set_timers state timers)).
Proof.
  intros t T s Hl. apply wp_bind, wp_get. cbn [fst snd]. apply wp_bind, wp_lift. intros d _. cbn [fst snd].
  apply wp_bind, wp_lift. intros timers _. cbn [fst snd]. apply wp_put. by eapply link_frame.
Qed.

Lemma keeps_start_round height round proposer role : keeps_link (ConsensusActor.start_round height round proposer role).
Proof.
  apply keeps_get. intros s. apply keeps_bind; [apply keeps_flush|]. intros _. apply keeps_bind; [by apply keeps_yield|].
  intros []; try apply keeps_fail. apply keeps_bind; [apply keeps_cast_undecided|]. intros _. by apply keeps_tell.
Qed.

Lemma keeps_invalid_sync_value peer height e : keeps_link (ConsensusActor.invalid_sync_value config peer height e).
Proof. destruct e; apply keeps_sync_cast. Qed.

Lemma keeps_extend_and_sign height round id : keeps_link (ConsensusActor.extend_and_sign height round id).
Proof.
  apply keeps_bind.
  - apply keeps_bind; [by apply keeps_yield|]. intros []; try apply keeps_fail. apply keeps_ret.
  - intros [ext|]; [|apply keeps_ret]. apply keeps_bind; [by apply keeps_yield|]. intros r. apply keeps_ret.
Qed.

Lemma keeps_certificate (o : outcome (checked unit)) : keeps_link (lift o).
Proof. apply keeps_lift. Qed.

(** *** The effects that are claimed of *)

Lemma host_continue t e : host vs t e Resume_Continue.
Proof. split; [done|]. by destruct e. Qed.

Lemma linked_sign t T w r R :
  linked t T -> others vs T (SignVoteCall w) r -> (forall v, R = Resume_SignedVote v -> r = EngineReply.SignedVote v) ->
  linked (t ++ [(SignVote w, R)]) (T ++ [(SignVoteCall w, r)]).
Proof.
  intros [] Hr HR. split; intros *.
  - intros [?|[= ->]]%calls_snoc; apply elem_of_effects_snoc; eauto.
  - intros (w' & [Hin|[= <- HRv]%list_elem_of_singleton]%elem_of_app).
    + apply signed_by_us_app, linked_own0. by exists w'.
    + exists w'. apply elem_of_app. right. rewrite (HR v) by done. by left.
  - intros (w' & [Hin|[= <- <-]%list_elem_of_singleton]%elem_of_app).
    + apply linked_keys0. by exists w'.
    + destruct Hr as [<- Hk]. apply Hk.
  - intros (h' & [Hin|?]%elem_of_effects_snoc); [|done].
    destruct (linked_logged0 v) as [?|?]; [by exists h'|left; by apply appended_app|right; by apply recovered_app].
  - intros [?|?]%calls_snoc; [|done]. apply elem_of_effects_snoc. eauto.
  - intros [Hin|?%list_elem_of_singleton]%elem_of_app; [eauto|done].
  - intros (key & [Hin|?%list_elem_of_singleton]%elem_of_app); [|done]. apply linked_verified0. by exists key.
Qed.

Lemma carry_sign_vote t T s w :
  allowed h vs a P from_certificate source t (SignVote w) -> link t T s ->
  carries t (SignVote w) T s (ConsensusActor.handle_effect config (SignVote w)).
Proof.
  intros (Hh & Ha & Hsame) [Hl Hp]. cbn [ConsensusActor.handle_effect]. apply wp_bind, wp_yield.
  { split_and!; [done|done|]. intros w' Hw'. apply Hsame. by apply (linked_signed _ _ Hl). }
  intros r Hr. cbn [fst snd].
  assert (Hlink : forall R, (forall v, R = Resume_SignedVote v -> r = EngineReply.SignedVote v) ->
    link (t ++ [(SignVote w, R)]) (T ++ [(SignVoteCall w, r)]) s).
  { intros R HR. split; [by apply linked_sign|by apply side_call]. }
  destruct r; try (apply wp_fail; split; [apply host_continue|by apply Hlink]).
  apply wp_ret. split; [split; [done|]; by destruct Hr|]. apply Hlink. by intros v [= ->].
Qed.

Lemma carry_append t T s height v :
  allowed h vs a P from_certificate source t (WalAppend height (WalEntry.ConsensusMsg (SignedConsensusMsg.Vote v))) ->
  link t T s ->
  carries t (WalAppend height (WalEntry.ConsensusMsg (SignedConsensusMsg.Vote v))) T s
    (ConsensusActor.handle_effect config (WalAppend height (WalEntry.ConsensusMsg (SignedConsensusMsg.Vote v)))).
Proof.
  set (entry := vote_entry v). intros [Hv Hsrc] [Hl Hp].
  assert (Hlink : forall T', (exists T1, T' = T ++ T1 /\ forall c, c ∈ calls T1 -> exists h' e, c = EngineCall.Wal (WalCall.Append h' e)) ->
    appended T' v \/ recovered waiting T' v -> linked (t ++ [(WalAppend height entry, Resume_Continue)]) T').
  { intros T' (T1 & -> & HT1) Happ. destruct Hl. split; intros *.
    - unfold calls. rewrite fmap_app, elem_of_app. intros [?|(? & ? & ?)%HT1]; [|done]. apply elem_of_effects_snoc. eauto.
    - intros (w' & [Hin|[= <-]%list_elem_of_singleton]%elem_of_app). apply signed_by_us_app, linked_own0. by exists w'.
    - intros (w' & [Hin|Hin]%elem_of_app); [apply linked_keys0; by exists w'|].
      apply (list_elem_of_fmap_2 fst) in Hin. by apply HT1 in Hin as (? & ? & ?).
    - intros (h' & [Hin|[= _ ->]]%elem_of_effects_snoc); [|exact Happ].
      destruct (linked_logged0 v0) as [?|?]; [by exists h'|left; by apply appended_app|right; by apply recovered_app].
    - unfold calls. rewrite fmap_app, elem_of_app. intros [?|(? & ? & ?)%HT1]; [|done]. apply elem_of_effects_snoc. eauto.
    - intros [Hin|?%list_elem_of_singleton]%elem_of_app; [eauto|done].
    - intros (key & [Hin|?%list_elem_of_singleton]%elem_of_app); [|done]. apply linked_verified0. by exists key. }
  cbn [ConsensusActor.handle_effect]. apply wp_bind, wp_bind, wp_get. cbn [fst snd]. unfold ConsensusActor.wal_append.
  case_bool_decide as Hphase.
  - apply wp_ret, wp_ret. split; [apply host_continue|]. split; [|done]. apply Hlink.
    2: { right. apply (side_replay _ _ Hp Hphase). destruct Hsrc as [Ho|?]; [right; by apply (linked_own _ _ Hl)|by left]. }
    exists []. split; [by rewrite app_nil_r|]. by intros c ?%not_elem_of_nil.
  - apply wp_bind, wp_yield; [exact (linked_verified _ _ Hl v Hv)|]. intros r _. cbn [fst snd]. apply wp_ret, wp_ret.
    split; [apply host_continue|]. split; [|by apply side_call]. apply Hlink.
    + eexists. split; [done|]. intros c ?%list_elem_of_singleton. eauto.
    + left. exists height. apply calls_snoc. by right.
Qed.

Lemma carry_verify_commit t T s cert vs' p :
  link t T s ->
  carries t (VerifyCommitCertificate cert vs' p) T s
    (ConsensusActor.handle_effect config (VerifyCommitCertificate cert vs' p)).
Proof.
  intros [Hl Hp]. cbn [ConsensusActor.handle_effect]. apply wp_bind, wp_lift. intros result Hres. cbn [fst snd].
  apply wp_ret. split; [done|]. split; [|done]. destruct Hl. split; intros *.
  - intros ?. apply elem_of_effects_snoc. eauto.
  - intros (w & [Hin|?%list_elem_of_singleton]%elem_of_app); [|done]. apply linked_own0. by exists w.
  - eauto.
  - intros (h' & [Hin|?]%elem_of_effects_snoc); [|done]. apply linked_logged0. by exists h'.
  - intros ?. apply elem_of_effects_snoc. eauto.
  - intros [Hin|[= -> -> -> <-]%list_elem_of_singleton]%elem_of_app; [eauto|done].
  - intros (key & [Hin|?%list_elem_of_singleton]%elem_of_app); [|done]. apply linked_verified0. by exists key.
Qed.

(** The effects that verify a signature: a vote is checked here, a proposal by
    the signing provider. *)
Lemma linked_verify t T msg key R :
  linked t T ->
  (forall v, msg = SignedMessage.map ConsensusMsg.Vote v -> R = Resume_SignatureValidity true -> valid_signature v key) ->
  linked (t ++ [(VerifySignature msg key, R)]) T.
Proof.
  intros [] HR. split; intros *.
  - intros ?. apply elem_of_effects_snoc. eauto.
  - intros (w & [Hin|?%list_elem_of_singleton]%elem_of_app); [|done]. apply linked_own0. by exists w.
  - eauto.
  - intros (h' & [Hin|?]%elem_of_effects_snoc); [|done]. apply linked_logged0. by exists h'.
  - intros ?. apply elem_of_effects_snoc. eauto.
  - intros [Hin|?%list_elem_of_singleton]%elem_of_app; [eauto|done].
  - intros (key' & [Hin|[= Hm <- HRv]%list_elem_of_singleton]%elem_of_app); [apply linked_verified0; by exists key'|].
    exists key'. by apply HR.
Qed.

Lemma carry_verify_signature t T s msg key :
  link t T s ->
  carries t (VerifySignature msg key) T s (ConsensusActor.handle_effect config (VerifySignature msg key)).
Proof.
  intros [Hl Hp]. cbn [ConsensusActor.handle_effect]. apply wp_bind. unfold ConsensusActor.verify_signature.
  destruct msg as [[vote|proposal] sg]; cbn [SignedMessage.message SignedMessage.signature].
  - destruct (verify_signed_vote vote sg key) as [err|result] eqn:Hver.
    { apply wp_fail. split; [apply host_continue|]. split; [by apply linked_verify|done]. }
    apply wp_ret, wp_ret. split.
    + split; [done|]. intros v validator Hm Hown Hval ->. destruct v as [vm vsg]. cbn in Hm. injection Hm as <- <-.
      destruct (linked_keys _ _ Hl _ _ (linked_own _ _ Hl _ Hown) Hval) as (result' & Hv' & Hi'). cbn in Hv'.
      rewrite Hver in Hv'. injection Hv' as <-. by rewrite Hi'.
    + split; [|done]. apply linked_verify; [done|]. intros v Hm [= Hr]. exists result. destruct v as [vm vsg].
      cbn in Hm. injection Hm as <- <-. split; [done|]. by destruct (VerificationResult.is_invalid result).
  - apply wp_bind, wp_yield; [done|]. intros r _. cbn [fst snd].
    assert (Hlink : forall R, link (t ++ [(VerifySignature (SignedMessage.new (ConsensusMsg.Proposal proposal) sg) key, R)])
      (T ++ [(EngineCall.Signer (SignerCall.VerifySignedProposal proposal sg key), r)]) s).
    { intros R. apply link_call; [|done|done]. split; [by apply linked_verify|done]. }
    destruct r; try (apply wp_fail; split; [apply host_continue|apply Hlink]).
    apply wp_ret, wp_ret. split; [split; [done|]; by intros|apply Hlink].
Qed.

Lemma link_effect t T s e R : link t T s -> dull_effect e -> link (t ++ [(e, R)]) T s.
Proof. intros [Hl Hp] He. split; [by apply linked_effect|done]. Qed.

Lemma link_decided t T s cert exts r :
  link t T s -> Decide cert exts ∈ effects t -> link t (T ++ [(DecidedCall cert exts, r)]) s.
Proof.
  intros [[] Hp] Hd. split; [|by apply side_call]. split; intros *.
  - intros [?|?]%calls_snoc; [eauto|done].
  - intros. apply signed_by_us_app. eauto.
  - intros (w & [Hin|?%list_elem_of_singleton]%elem_of_app); [|done]. apply linked_keys0. by exists w.
  - intros [?|?]%linked_logged0; [left; by apply appended_app|right; by apply recovered_app].
  - intros [?|[= -> ->]]%calls_snoc; eauto.
  - eauto.
  - eauto.
Qed.

Lemma carry_continue t e T s (m : EM unit) :
  wp (m s) (fun T' x => link (t ++ [(e, Resume_Continue)]) T' x.1) T ->
  carries t e T s (ConsensusActor.continue_after m).
Proof.
  intros Hm. apply wp_bind. eapply wp_mono; [exact Hm|]. intros T' [s' [err|[]]] Hl; (split; [apply host_continue|exact Hl]).
Qed.

Lemma carry_decide t T s cert exts :
  allowed h vs a P from_certificate source t (Decide cert exts) -> link t T s ->
  carries t (Decide cert exts) T s (ConsensusActor.handle_effect config (Decide cert exts)).
Proof.
  intros (Hch & (t0 & Ht) & Honce) Hl. apply carry_continue.
  apply (link_effect _ _ _ (Decide cert exts) Resume_Continue) in Hl; [|done].
  set (t' := t ++ [(Decide cert exts, Resume_Continue)]) in *.
  unfold ConsensusActor.decided. apply wp_bind, wp_get. cbn [fst snd]. apply wp_bind, wp_assert. intros _. cbn [fst snd].
  apply wp_bind. eapply wp_mono; [by eapply keeps_flush|]. intros T1 [s1 [e1|x1]] Hl1; [exact Hl1|]. cbn [fst snd].
  apply wp_bind. eapply wp_mono; [by eapply keeps_tell|]. intros T2 [s2 [e2|x2]] Hl2; [exact Hl2|]. cbn [fst snd].
  apply wp_bind, wp_bind, wp_yield.
  - cbn in Hl2. destruct Hl2 as [Hl2 _]. split_and!.
    + done.
    + apply (linked_commit _ _ Hl2). unfold t'. rewrite Ht. set_solver.
    + intros cert' exts' [?|[= -> ->]]%(linked_decided _ _ Hl2)%elem_of_effects_snoc; [by eapply Honce|done].
  - intros r _. cbn [fst snd] in *.
    assert (Hl3 : link t' (T2 ++ [(DecidedCall cert exts, r)]) s2).
    { apply link_decided; [done|]. apply elem_of_effects_snoc. by right. }
    destruct r; try (by apply wp_fail). apply wp_ret. by apply keeps_sync_cast.
Qed.

Lemma carry_publish_vote t T s v :
  allowed h vs a P from_certificate source t (PublishConsensusMsg (SignedConsensusMsg.Vote v)) -> link t T s ->
  carries t (PublishConsensusMsg (SignedConsensusMsg.Vote v)) T s
    (ConsensusActor.handle_effect config (PublishConsensusMsg (SignedConsensusMsg.Vote v))).
Proof.
  intros Hv Hl. apply carry_continue. pose proof Hl as [Hlinked Hside].
  assert (Hlogged : appended T v \/ recovered waiting T v \/ from_certificate v).
  { destruct Hv as [Hv|Hv]; [|by right; right]. apply (linked_logged _ _ Hlinked) in Hv as [?|?]; auto. }
  apply (link_effect _ _ _ (PublishConsensusMsg (SignedConsensusMsg.Vote v)) Resume_Continue) in Hl; [|done].
  apply wp_bind, wp_get. cbn [fst snd]. apply wp_bind. unfold ConsensusActor.wal_flush. case_bool_decide as Hrec.
  - apply wp_ret, wp_bind, wp_bind, wp_yield; [done|]. intros r _. cbn [fst snd]. apply wp_ret, wp_bind, wp_yield.
    { left. split; [by apply replaying_call; [apply (side_replay _ _ Hside Hrec)|]|].
      destruct Hlogged as [?|[?|?]]; [left; by apply appended_app|right; left; by apply recovered_app|auto]. }
    intros r' _. cbn [fst snd]. destruct r'; (apply wp_fail || apply wp_ret); by repeat (apply link_call; [|done|done]).
  - apply wp_bind, wp_yield; [done|]. intros r0 _. cbn [fst snd].
    apply wp_ret, wp_bind, wp_bind, wp_yield; [done|]. intros r _. cbn [fst snd]. apply wp_ret, wp_bind, wp_yield.
    { right. exists T, r0, r. by rewrite <- app_assoc. }
    intros r' _. cbn [fst snd]. destruct r'; (apply wp_fail || apply wp_ret); by repeat (apply link_call; [|done|done]).
Qed.

Lemma carry_verify_extension t T s height round id ext key :
  link t T s ->
  carries t (VerifyVoteExtension height round id ext key) T s
    (ConsensusActor.handle_effect config (VerifyVoteExtension height round id ext key)).
Proof.
  intros Hl. cbn [ConsensusActor.handle_effect]. apply wp_bind. unfold ConsensusActor.verify_extension.
  assert (He : forall T' R, link t T' s -> link (t ++ [(VerifyVoteExtension height round id ext key, R)]) T' s).
  { intros T' R Hl'. by apply link_effect. }
  destruct ext as [m sg]. cbn [SignedMessage.message SignedMessage.signature].
  apply wp_bind, wp_yield; [done|]. intros r Hr. cbn [fst snd].
  pose proof (link_call _ _ (EngineCall.Signer (SignerCall.VerifySignedVoteExtension m sg key)) r _ Hl I eq_refl) as Hl1.
  destruct r; try (apply wp_fail; split; [apply host_continue|by apply He]).
  destruct (VerificationResult.is_invalid result) eqn:Hinv.
  - apply wp_ret, wp_ret. split; [split; [done|]|by apply He]. intros v validator Hown Hx Hval ->.
    rewrite (Hr v validator) in Hinv; [done| |done|done|done]. by apply Hl.
  - apply wp_bind, wp_yield; [done|]. intros r2 Hr2. cbn [fst snd].
    pose proof (link_call _ _ (EngineCall.Host (HostCall.VerifyVoteExtension height round id m)) r2 _ Hl1 I eq_refl) as Hl2.
    destruct r2; try (apply wp_fail; split; [apply host_continue|by apply He]).
    apply wp_ret, wp_ret. split; [split; [done|]|by apply He]. intros v validator Hown Hx Hval ->.
    eapply Hr2; [by apply Hl1|exact Hx].
Qed.

Lemma carry_dull t e T s (m : EM unit) :
  keeps_link m -> dull_effect e -> link t T s -> carries t e T s (ConsensusActor.continue_after m).
Proof. intros Hm He Hl. apply effect_linked; try done; intros; apply host_continue. Qed.

Lemma keeps_announce event c : dull (EngineCall.TxEvent event) -> dull c -> keeps_link (_ ← ConsensusActor.tx_event event; ConsensusActor.cast c).
Proof. intros He Hc. apply keeps_bind; [by apply keeps_tell|]. intros _. by apply keeps_cast. Qed.

Lemma handle_effect_carries t e T s :
  allowed h vs a P from_certificate source t e -> link t T s -> carries t e T s (ConsensusActor.handle_effect config e).
Proof.
  intros He Hl. destruct e as [| |timeout|timeout| |[v|p]|msg|v|cert|height round timeout| | | | |w|p|msg key| | | |height entry| |];
    cbn [ConsensusActor.handle_effect].
  - apply carry_dull; [by apply keeps_modify|done|done].
  - apply carry_dull; [by apply keeps_modify|done|done].
  - apply carry_dull; [by apply keeps_modify|done|done].
  - apply carry_dull; [apply keeps_schedule|done|done].
  - apply carry_dull; [apply keeps_start_round|done|done].
  - by apply carry_publish_vote.
  - apply carry_dull; [|done|done]. apply keeps_get. intros s'. apply keeps_bind; [apply keeps_flush|]. intros _.
    by apply keeps_announce.
  - apply carry_dull; [by apply keeps_announce; [destruct msg|]|done|done].
  - apply carry_dull; [by apply keeps_announce|done|done].
  - apply carry_dull; [by apply keeps_announce|done|done].
  - apply carry_dull; [|done|done]. apply keeps_get. intros s'. apply keeps_bind; [apply keeps_lift|]. intros d.
    by apply keeps_cast.
  - apply carry_dull; [by apply keeps_cast|done|done].
  - apply carry_dull; [by apply keeps_when, keeps_cast|done|done].
  - apply carry_dull; [apply keeps_invalid_sync_value|done|done].
  - by apply carry_decide.
  - by apply carry_sign_vote.
  - apply wp_bind, wp_yield; [done|]. intros r _. cbn [fst snd].
    pose proof (link_effect _ _ _ (SignProposal p) (resumption Resume_Continue
      match r with EngineReply.SignedProposal x => inr (Resume_SignedProposal x) | _ => inl "Failed to sign" end)
      (link_call _ _ (EngineCall.Signer (SignerCall.SignProposal p)) r _ Hl I eq_refl) I) as Hl'.
    destruct r; (apply wp_fail || apply wp_ret); (split; [split; done|exact Hl']).
  - by apply carry_verify_signature.
  - by apply carry_verify_commit.
  - apply effect_linked; [apply keeps_lift|done|done| |apply host_continue]. by intros.
  - apply effect_linked; [apply keeps_lift|done|done| |apply host_continue]. by intros.
  - destruct entry as [[v|p]|timeout|value]; [by apply carry_append|..];
      (apply carry_dull; [|done|done]; apply keeps_get; intros s'; unfold ConsensusActor.wal_append;
       case_bool_decide; [apply keeps_ret|by apply keeps_tell]).
  - apply effect_linked; [apply keeps_extend_and_sign|done|done| |apply host_continue]. by intros.
  - by apply carry_verify_extension.
Qed.

(** ** Inputs and messages *)

(** The state between inputs: core-consensus is at work at the height, after
    effects that the calls carry out. *)
Definition on_height T (s : EngineState.t) : Prop :=
  exists t, working h vs a P d0 from_certificate source [] t s.(EngineState.consensus) /\ link t T s.

Lemma process_input_keeps fuel input T s :
  later_input from_certificate source input -> on_height T s ->
  wp (ConsensusActor.process_input config fuel input s) (fun T' x => on_height T' x.1) T.
Proof using Hfresh laws ext_laws proposer_laws.
  intros Hin (t & Hw & Hl). unfold ConsensusActor.process_input. apply wp_bind, wp_get. cbn [fst snd]. apply wp_bind.
  eapply (wp_process _ _ _ _ _ _ _ link); [intros *; apply handle_effect_carries| |exact Hl|].
  { by apply (handle_input_spec h vs a P d0 from_certificate source Hfresh 2 fuel input Hin [] s.(EngineState.consensus) t). }
  intros t' T' s' [consensus result] Hl' Hw'. cbn [fst snd]. apply wp_bind, wp_get. cbn [fst snd]. apply wp_bind, wp_put.
  cbn [fst snd]. destruct result; (apply wp_ret || apply wp_fail); exists t'; (split; [done|by eapply link_frame]).
Qed.

Definition keeps_height {A} (m : EM A) : Prop :=
  forall T s, on_height T s -> wp (m s) (fun T' x => on_height T' x.1) T.

Lemma height_ret {A} (x : A) : keeps_height (mret x).
Proof. intros T s Hs. by apply wp_ret. Qed.
Lemma height_fail {A} e : keeps_height (fail e : EM A).
Proof. intros T s Hs. by apply wp_fail. Qed.
Lemma height_bind {A B} (m : EM A) (k : A -> EM B) :
  keeps_height m -> (forall x, keeps_height (k x)) -> keeps_height (m ≫= k).
Proof.
  intros Hm Hk T s Hs. apply wp_bind. eapply wp_mono; [by apply Hm|]. intros T' [s' [e|x]] Hs'; [done|]. by apply Hk.
Qed.
Lemma height_catch {A} (m : EM A) : keeps_height m -> keeps_height (catch m).
Proof. intros Hm T s Hs. apply wp_catch. eapply wp_mono; [by apply Hm|]. by intros T' [s' x]. Qed.
Lemma on_height_call T c r s : dull c -> on_height T s -> on_height (T ++ [(c, r)]) s.
Proof. intros Hc (t & Hw & Hl). exists t. split; [done|]. by apply link_call; [|apply dull_neutral|apply dull_replay]. Qed.
Lemma height_yield c : dull c -> keeps_height (yield_ c).
Proof. intros Hc T s Hs. apply wp_yield; [by apply dull_permitted|]. intros r _. by apply on_height_call. Qed.
Lemma height_lift {A} (o : outcome A) : keeps_height (lift o).
Proof. intros T s Hs. by apply wp_lift. Qed.
Lemma height_when b (m : EM unit) : keeps_height m -> keeps_height (when b m).
Proof. destruct b; [done|]. intros _. apply height_ret. Qed.
Lemma height_unless b (m : EM unit) : keeps_height m -> keeps_height (unless b m).
Proof. destruct b; [|done]. intros _. apply height_ret. Qed.
Lemma height_get {A} (k : EngineState.t -> EM A) :
  (forall s, keeps_height (k s)) -> keeps_height (x ← get_state; k x).
Proof. intros Hk T s Hs. apply wp_bind, wp_get. cbn [fst snd]. by apply Hk. Qed.
Lemma height_cast c : dull c -> keeps_height (ConsensusActor.cast c).
Proof. intros Hc. apply height_bind; [by apply height_yield|]. intros []; try apply height_fail. apply height_ret. Qed.
Lemma height_tell c : dull c -> keeps_height (ConsensusActor.tell c).
Proof. intros Hc. apply height_bind; [by apply height_yield|]. intros r. apply height_ret. Qed.

(** Changes to the other fields. *)
Lemma on_height_frame T s s' :
  on_height T s -> s'.(EngineState.consensus) = s.(EngineState.consensus) ->
  s'.(EngineState.phase) = s.(EngineState.phase) ->
  s'.(EngineState.msg_buffer) = s.(EngineState.msg_buffer) -> on_height T s'.
Proof.
  intros (t & Hw & Hl) Hc Hphase Hb. exists t. rewrite Hc. split; [done|]. by eapply link_frame.
Qed.

Lemma height_try_input fuel input :
  later_input from_certificate source input -> keeps_height (ConsensusActor.try_input config fuel input).
Proof using Hfresh laws ext_laws proposer_laws.
  intros Hin. apply height_bind; [|intros; apply height_ret]. apply height_catch. intros T s. by apply process_input_keeps.
Qed.

Lemma height_timeout_elapsed fuel timeout : keeps_height (ConsensusActor.timeout_elapsed config fuel timeout).
Proof using Hfresh laws ext_laws proposer_laws.
  intros T s Hs. apply wp_bind, wp_get. cbn [fst snd]. apply wp_bind, wp_lift. intros timeouts _. cbn [fst snd].
  apply wp_bind, wp_put. cbn [fst snd]. apply process_input_keeps; [done|]. by eapply on_height_frame.
Qed.

(** The entries of the log: an error is announced and does not stop the replay. *)
Lemma height_replay_entries fuel entries T s :
  (forall v, vote_entry v ∈ entries -> source v) -> on_height T s ->
  wp (ConsensusActor.replay_entries config fuel entries s) (fun T' x => on_height T' x.1 /\ x.2 = inr tt) T.
Proof using Hfresh laws ext_laws proposer_laws.
  revert T s. induction entries as [|entry entries IH]; intros T s Hsrc Hs; [by apply wp_ret|].
  assert (Hrest : forall T' s', on_height T' s' ->
    wp (ConsensusActor.replay_entries config fuel entries s') (fun T' x => on_height T' x.1 /\ x.2 = inr tt) T').
  { intros T' s' Hs'. apply IH; [|done]. intros v Hv. apply Hsrc. by right. }
  apply wp_bind. apply wp_bind, wp_yield; [done|]. intros r _. cbn [fst snd]. apply wp_ret. cbn [fst snd].
  apply wp_bind, wp_catch. eapply wp_mono.
  - assert (Hentry : keeps_height (ConsensusActor.replay_entry config fuel entry)).
    { destruct entry as [[v|p]|timeout|value]; [..|apply height_timeout_elapsed|];
        intros T1 s1; apply process_input_keeps; try done. apply Hsrc. by left. }
    apply Hentry. by apply on_height_call.
  - intros T1 [s1 [e|[]]] Hs1; cbn [fst snd]; apply wp_bind.
    + apply wp_bind, wp_yield; [done|]. intros r' _. apply wp_ret. by apply Hrest, on_height_call.
    + apply wp_ret. by apply Hrest.
Qed.

(** *** While the actor runs *)

Section running.
Context (Hany : forall v, source v) (Hrunning : forall p, phases p -> p = Phase.Running).

Lemma on_height_buffer T s b :
  on_height T s -> Forall later_msg b.(MessageBuffer.messages) -> on_height T (EngineState.set_msg_buffer s b).
Proof. intros (t & Hw & Hl & [Hp Hr Hb]) Hb'. exists t. split; [done|]. split; [done|by split]. Qed.

Lemma height_network_event fuel event :
  later_msg (EngineMsg.NetworkEvent event) -> keeps_height (ConsensusActor.network_event config fuel event).
Proof using Hfresh Hany Hrunning laws ext_laws proposer_laws.
  intros He T s Hs. apply wp_bind, wp_get. cbn [fst snd].
  destruct event; try (apply wp_put; by eapply on_height_frame); try (by apply wp_ret); try by apply height_try_input.
  - case_bool_decide as Hph; [|by apply wp_ret]. destruct Hs as (t & _ & _ & Hside).
    apply side_phases, Hrunning in Hside. by rewrite Hph in Hside.
  - revert T s Hs. apply height_bind; [by apply height_tell|]. intros _. apply height_try_input, Hany.
  - revert Hs. apply height_bind; [by apply height_tell|]. intros _. by apply height_unless, height_try_input.
  - by apply height_unless; [apply height_cast|].
Qed.

Lemma height_sync_values fuel peer height values :
  keeps_height (ConsensusActor.process_sync_values config fuel peer height values).
Proof using Hfresh Hany Hrunning laws ext_laws proposer_laws.
  revert height. induction values as [|value values IH]; intros height; [apply height_ret|].
  apply height_bind; [by apply height_try_input|]. intros _. apply height_bind; [apply height_lift|]. intros height'. apply IH.
Qed.

Lemma height_body fuel replay msg :
  later_msg msg -> keeps_height (ConsensusActor.handle_body config fuel replay msg).
Proof using Hfresh Hany Hrunning laws ext_laws proposer_laws.
  intros Hm. destruct msg as [h' vs'|event|elapsed|value|value origin|h' vs'| |id peer [start values]];
    cbn [ConsensusActor.handle_body].
  - apply Nat.eqb_eq in Hm. rewrite Hm. apply height_fail.
  - by apply height_network_event.
  - intros T s Hs. apply wp_bind, wp_get. cbn [fst snd].
    destruct (TimerScheduler.intercept_timer_msg _ _) as [timers [timeout|]]; apply wp_bind, wp_put; cbn [fst snd].
    + apply height_bind; [apply height_catch, height_timeout_elapsed|intros; apply height_ret|by eapply on_height_frame].
    + apply wp_ret. by eapply on_height_frame.
  - apply height_bind; [by apply height_try_input|]. intros _. by apply height_tell.
  - apply height_bind; [by apply height_tell|]. intros _. by apply height_try_input.
  - apply Nat.eqb_eq in Hm. rewrite Hm. apply height_fail.
  - apply height_get. intros s. by apply height_tell.
  - apply height_sync_values.
Qed.

(** The messages of the buffer, one after the other. *)
Lemma height_replay_buffered turns fuel : keeps_height (ConsensusActor.replay_buffered config turns fuel).
Proof using Hfresh Hany Hrunning laws ext_laws proposer_laws.
  induction turns as [|turns IH]; [by intros T s Hs|]. intros T s Hs. cbn [ConsensusActor.replay_buffered].
  apply wp_bind, wp_get. cbn [fst snd]. unfold MessageBuffer.pop.
  pose proof Hs as (t & Hw & Hl & [Hp Hr Hb]).
  destruct (MessageBuffer.messages (EngineState.msg_buffer s)) as [|msg messages] eqn:Hm; [by apply wp_ret|].
  apply Forall_cons in Hb as [Hmsg Hb].
  apply wp_bind, wp_put. cbn [fst snd]. apply height_bind; [by apply height_catch, height_body|done|].
  by apply on_height_buffer.
Qed.

Lemma height_process_buffered fuel is_restart : keeps_height (ConsensusActor.process_buffered_msgs config fuel is_restart).
Proof using Hfresh Hany Hrunning laws ext_laws proposer_laws.
  apply height_get. intros s0. intros T s Hs. apply wp_bind, wp_get. cbn [fst snd].
  destruct (MessageBuffer.is_empty _); [by apply wp_ret|]. apply wp_bind. apply wp_when; intros _.
  - apply wp_put. cbn [fst snd]. apply height_replay_buffered. apply on_height_buffer; [done|apply Forall_nil_2].
  - cbn [fst snd]. by apply height_replay_buffered.
Qed.

Lemma height_handle fuel msg : later_msg msg -> keeps_height (ConsensusActor.handle config fuel msg).
Proof using Hfresh Hany Hrunning laws ext_laws proposer_laws.
  intros Hm T s Hs. apply wp_bind, wp_get. cbn [fst snd]. destruct (_ && _).
  - apply wp_put. apply on_height_buffer; [done|]. destruct Hs as (t & Hw & Hl & [Hp Hr Hb]).
    unfold MessageBuffer.buffer. cbn. case_match; [|done]. cbn. apply Forall_app. split; [done|]. by apply Forall_singleton.
  - apply height_bind; [by apply height_catch, height_body|intros; apply height_ret|done].
Qed.

End running.

(** ** The start of the height *)

(** Before the height: no effect yet, and the consensus state is the one the
    height starts from. *)
Definition before T (s : EngineState.t) (cs : CState.t) : Prop :=
  s.(EngineState.consensus) = cs /\ link [] T s.

Lemma start_input fuel is_restart T s cs :
  before T s cs -> queues_hold (pending_ok source) cs -> a = CState.address cs -> P = cs.(CState.params) ->
  d0 = Driver.move_to_height cs.(CState.driver) h vs ->
  wp (ConsensusActor.try_input config fuel (ConsensusInput.StartHeight h vs is_restart) s)
    (fun T' x => on_height T' x.1 /\ x.2 = inr tt) T.
Proof using Hfresh laws ext_laws proposer_laws.
  intros [Hc Hl] Hq Ha HP Hd. apply wp_bind, wp_catch, wp_bind, wp_get. cbn [fst snd]. apply wp_bind.
  eapply (wp_process _ _ _ _ _ _ _ link); [intros *; apply handle_effect_carries| |exact Hl|].
  { rewrite Hc. pose proof (start_safe fuel cs h vs is_restart from_certificate source Hq) as Hsafe.
    rewrite <- Ha, <- HP, <- Hd in Hsafe. exact Hsafe. }
  intros t' T' s' [consensus result] Hl' Hw'. cbn [fst snd]. apply wp_bind, wp_get. cbn [fst snd]. apply wp_bind, wp_put.
  cbn [fst snd]. destruct result; (split; [exists t'; split; [done|by eapply link_frame]|done]).
Qed.

End safety.

(** ** The stages of a height *)

Section start.
Context {Ctx : Context} {Ext : VoteExtension} {Provider : SigningProvider} {Part : ProposalPartType}.
Context {Arith : HeightArith} (config : EngineConfig.t).
Context {laws : ContextLaws} {ext_laws : VoteExtensionLaws} {proposer_laws : ProposerLaws}.
Context (h : Height) (vs : ValidatorSet) (cs : CState.t) (from_certificate waiting : SignedVote -> Prop).
Context (Hqueues : queues_hold (pending_ok waiting) cs).
Implicit Types (T : E_trace) (v : SignedVote).

#[local] Abbreviation a := (CState.address cs).
#[local] Abbreviation P := cs.(CState.params).
#[local] Abbreviation d0 := (Driver.move_to_height cs.(CState.driver) h vs).
#[local] Abbreviation wp := (Coroutine.wp True (permitted h vs a P from_certificate waiting) (others vs)).
#[local] Abbreviation stage phases source := (on_height h vs a P d0 from_certificate waiting phases source).
#[local] Abbreviation unstarted phases source :=
  (fun T s => before vs from_certificate waiting phases source T s cs).

(** The log has nothing to replay; the log is replayed; the actor runs. *)
Definition not_recovering (p : Phase.t) : Prop := p <> Phase.Recovering.
Definition recovering (p : Phase.t) : Prop := p = Phase.Recovering.
Definition running (p : Phase.t) : Prop := p = Phase.Running.
Definition replayed (entries : list WalEntry.t) v : Prop :=
  WalEntry.ConsensusMsg (SignedConsensusMsg.Vote v) ∈ entries \/ waiting v.

(** The end of the start: no log is replayed any more. *)
Lemma start_running phases source T T' s :
  stage phases source T s -> (forall t, linked vs waiting t T -> linked vs waiting t T') ->
  stage running any_vote T' (EngineState.set_phase s Phase.Running).
Proof.
  intros (t & Hw & Hl & [Hp Hr Hb]) HT. exists t. split; [by eapply working_source|]. split; [by apply HT|]. by split.
Qed.

Lemma wal_replay_running fuel height entries T s :
  stage recovering (replayed entries) T s ->
  wp (ConsensusActor.wal_replay config fuel height entries s)
    (fun T' x => stage running any_vote T' (EngineState.set_phase x.1 Phase.Running) /\ x.2 = inr tt) T.
Proof using laws ext_laws proposer_laws.
  intros Hs. apply wp_bind, wp_get. cbn [fst snd]. apply wp_bind, wp_assert. intros _. cbn [fst snd].
  case_bool_decide; [apply wp_ret; split; [by eapply start_running|done]|].
  apply wp_bind, wp_bind, wp_yield; [done|]. intros r _. cbn [fst snd]. apply wp_ret. cbn [fst snd].
  apply wp_bind. eapply wp_mono.
  - eapply height_replay_entries; [exact _..|by apply move_to_height_fresh| |by eapply on_height_call]. intros v Hv. by left.
  - intros T1 [s1 x1] [Hs1 Hx1]. cbn in Hs1, Hx1. subst x1. cbn [fst snd].
    apply wp_bind, wp_get. cbn [fst snd]. apply wp_bind, wp_yield; [done|]. intros r' _. cbn [fst snd]. apply wp_ret.
    split; [|done]. eapply start_running; [done|]. intros t Hl. by apply linked_call.
Qed.

(** The entries that the start of a height replays. *)
Definition fetch (is_restart : bool) : EM (list WalEntry.t) :=
  if is_restart then _ ← ConsensusActor.wal_reset h; mret [] else ConsensusActor.wal_fetch h.

Lemma unstarted_call phases source T s c r :
  unstarted phases source T s -> neutral c -> ends_replay c = false -> unstarted phases source (T ++ [(c, r)]) s.
Proof. intros [Hc Hl] Hn Hr. split; [done|]. by apply link_call. Qed.

Lemma fetch_unstarted phases source is_restart T s :
  unstarted phases source T s ->
  wp (fetch is_restart s)
    (fun T' x => exists entries, x.2 = inr entries /\ x.1 = s /\ unstarted phases source T' s /\
       (entries <> [] -> replaying T' /\
          (EngineCall.Wal (WalCall.StartedHeight h), EngineReply.WalEntries (Some entries)) ∈ T')) T.
Proof.
  intros Hb. destruct is_restart; cbn [fetch].
  - apply wp_bind, wp_bind, wp_yield; [done|]. intros r _. cbn [fst snd]. apply wp_ret, wp_ret.
    exists []. split_and!; [done|done|by apply unstarted_call|done].
  - apply wp_bind, wp_yield; [done|]. intros r Hr. cbn [fst snd].
    destruct r as [| |ok|[[|entry entries]|]| | | | | | |]; try done.
    + apply wp_bind, wp_bind, wp_yield; [done|]. intros r _. cbn [fst snd]. apply wp_ret, wp_ret.
      exists []. split_and!; [done|done|by do 2 (apply unstarted_call; [|done|done])|done].
    + apply wp_ret. exists []. split_and!; [done|done|by apply unstarted_call|done].
    + apply wp_ret. exists (entry :: entries). split_and!; [done|done|by apply unstarted_call|].
      intros _. split; [|apply elem_of_app; right; by left]. exists T, h, (entry :: entries), []. by split_and!; [| |apply Forall_nil_2].
    + apply wp_ret. exists []. split_and!; [done|done|by apply unstarted_call|done].
Qed.

(** What follows once the entries are known. *)
Lemma start_entries phases source fuel is_restart entries T s :
  unstarted phases source T s -> queues_hold (pending_ok source) cs ->
  (forall T' s', stage phases source T' s' ->
     wp (when (negb (bool_decide (entries = []))) (ConsensusActor.wal_replay config fuel h entries) s')
       (fun T' x => stage running any_vote T' (EngineState.set_phase x.1 Phase.Running) /\ x.2 = inr tt) T') ->
  wp ((_ ← ConsensusActor.try_input config fuel (ConsensusInput.StartHeight h vs is_restart);
       _ ← when config.(EngineConfig.sync) (ConsensusActor.tell (EngineCall.Sync
             (SyncMsg.StartedHeight h (HeightStartType.from_is_restart is_restart))));
       _ ← when (negb (bool_decide (entries = []))) (ConsensusActor.wal_replay config fuel h entries);
       ConsensusActor.update (fun state => EngineState.set_phase state Phase.Running)) s)
    (fun T' x => stage running any_vote T' x.1 /\ x.2 = inr tt) T.
Proof using laws ext_laws proposer_laws.
  intros Hb Hq Hreplay. apply wp_bind.
  eapply wp_mono; [eapply start_input; [exact _|exact _|exact _|by apply move_to_height_fresh|exact Hb|done..]|].
  intros T2 [s2 x2] [Hs2 Hx2]. cbn in Hs2, Hx2. subst x2. cbn [fst snd].
  assert (Hfin : forall T' s', stage phases source T' s' ->
    wp ((_ ← when (negb (bool_decide (entries = []))) (ConsensusActor.wal_replay config fuel h entries);
         ConsensusActor.update (fun state => EngineState.set_phase state Phase.Running)) s')
      (fun T' x => stage running any_vote T' x.1 /\ x.2 = inr tt) T').
  { intros T' s' Hs'. apply wp_bind. eapply wp_mono; [by apply Hreplay|]. intros T3 [s3 x3] [Hs3 Hx3]. cbn in Hs3, Hx3.
    subst x3. apply wp_bind, wp_get, wp_put. by split. }
  apply wp_bind. apply wp_when; intros _; [|by apply Hfin].
  apply wp_bind, wp_yield; [done|]. intros r _. cbn [fst snd]. apply wp_ret. by apply Hfin, on_height_call.
Qed.

Lemma start_height_runs fuel is_restart T s :
  unstarted not_recovering any_vote T s ->
  wp (ConsensusActor.start_height config fuel h vs is_restart s)
    (fun T' x => stage running any_vote T' x.1 /\ x.2 = inr tt) T.
Proof using Hqueues laws ext_laws proposer_laws.
  intros Hb. apply wp_bind, wp_bind, wp_yield; [done|]. intros r _. cbn [fst snd]. apply wp_ret. cbn [fst snd].
  apply wp_bind. eapply wp_mono; [apply (fetch_unstarted not_recovering any_vote is_restart); by apply unstarted_call|].
  intros T1 [s1 x1] (entries & -> & -> & [Hc [Hl [Hp _ Hbuf]]] & Hrec). cbn [fst snd].
  apply wp_bind. apply wp_when.
  - intros Hentries%negb_true_iff%bool_decide_eq_false_1.
    destruct (Hrec Hentries) as [Hrep Hin]. apply wp_bind, wp_get. cbn [fst snd]. apply wp_put. cbn [fst snd].
    apply (start_entries recovering (replayed entries)).
    + split; [done|]. split; [done|]. split; [done| |done]. intros _. split; [done|].
      intros v [Hv|[w Hw]]; [left; by exists h, entries|]. apply (list_elem_of_fmap_2 fst) in Hw.
      by apply (linked_signed _ _ _ _ Hl), not_elem_of_nil in Hw.
    + eapply queues_hold_impl; [|exact Hqueues]. intros [] Hi; try done. by right.
    + intros T' s' Hs'. rewrite bool_decide_false by done. by apply wal_replay_running.
  - intros Hentries%negb_false_iff%bool_decide_eq_true_1. cbn [fst snd].
    apply (start_entries not_recovering any_vote).
    + split; [done|]. split; [done|]. split; [done| |done]. by intros ?%Hp.
    + eapply queues_hold_impl; [|exact Hqueues]. by intros [].
    + intros T' s' Hs'. rewrite bool_decide_true by done. apply wp_ret. split; [by eapply start_running|done].
Qed.

(** The message that starts the height. *)
Definition start_msg (is_restart : bool) : EngineMsg.t :=
  if is_restart then EngineMsg.RestartHeight h vs else EngineMsg.StartHeight h vs.

Lemma handle_start fuel is_restart T s :
  unstarted not_recovering any_vote T s -> count vs <> 0 ->
  (is_restart = true -> s.(EngineState.phase) = Phase.Running) ->
  wp (ConsensusActor.handle config fuel (start_msg is_restart) s) (fun T' x => stage running any_vote T' x.1) T.
Proof using Hqueues laws ext_laws proposer_laws.
  intros Hb Hcount Hrun. apply wp_bind, wp_get. cbn [fst snd].
  replace (_ && _) with false.
  2: { destruct is_restart; cbn; [|by rewrite andb_false_r]. by rewrite bool_decide_true by auto. }
  apply wp_bind, wp_catch. assert ((count vs =? 0) = false) as Hne by (by apply Nat.eqb_neq).
  assert (Hbody : wp ((_ ← ConsensusActor.start_height config fuel h vs is_restart;
                       ConsensusActor.process_buffered_msgs config fuel is_restart) s)
                    (fun T' x => stage running any_vote T' x.1) T).
  { apply wp_bind. eapply wp_mono; [by eapply start_height_runs|]. intros T1 [s1 [e|x]] [Hs1 Hx]; [done|].
    by eapply height_process_buffered; [exact _|exact _|exact _|apply move_to_height_fresh|..]. }
  destruct is_restart; unfold ConsensusActor.handle_msg; cbn [start_msg ConsensusActor.handle_body]; rewrite Hne;
    (eapply wp_mono; [exact Hbody|]; intros T1 [s1 x1] Hs1; by apply wp_ret).
Qed.

End start.

(** ** Theorems *)

Section claims.
Context {Ctx : Context} {Ext : VoteExtension} {Provider : SigningProvider} {Part : ProposalPartType}.
Context {Arith : HeightArith} (config : EngineConfig.t).
Context {laws : ContextLaws} {ext_laws : VoteExtensionLaws} {proposer_laws : ProposerLaws}.

(** The messages one after the other. *)
Fixpoint handle_all (fuel : nat) (msgs : list EngineMsg.t) : EM unit :=
  match msgs with
  | [] => mret tt
  | msg :: msgs => _ ← ConsensusActor.handle config fuel msg; handle_all fuel msgs
  end.

(** The messages that start a height: without validators they are refused. *)
Definition starts (msg : EngineMsg.t) : bool :=
  match msg with
  | EngineMsg.StartHeight _ vs | EngineMsg.RestartHeight _ vs => negb (count vs =? 0)
  | _ => false
  end.
Definition no_start (msgs : list EngineMsg.t) : bool := forallb (fun msg => negb (starts msg)) msgs.

(** The votes of the round certificates among the messages, and those that wait
    in the queues of core-consensus. *)
Definition certified_by (msgs : list EngineMsg.t) (v : SignedVote) : Prop :=
  exists peer c, EngineMsg.NetworkEvent (NetworkEvent.RoundCertificate peer c) ∈ msgs /\
    v ∈ round_vote c <$> c.(RoundCertificate.round_signatures).
Definition queued (cs : CState.t) (v : SignedVote) : Prop :=
  exists kv, (kv ∈ cs.(CState.input_queue).(BoundedQueue.queue) \/
              kv ∈ cs.(CState.sync_input_queue).(BoundedQueue.queue)) /\ ConsensusInput.Vote v ∈ kv.2.

(** The messages of the height: those that were waiting in the buffer, and those
    after the start. *)
Definition height_msgs (s : EngineState.t) (msgs : list EngineMsg.t) : list EngineMsg.t :=
  s.(EngineState.msg_buffer).(MessageBuffer.messages) ++ msgs.

(** A state from which a height may start: as after [pre_start], and, as
    [actor_run_ready] below shows, after any height. *)
Record actor_ready (s : EngineState.t) : Prop := {
  ready_queues : queues_ok s.(EngineState.consensus);
  ready_phase : s.(EngineState.phase) <> Phase.Recovering;
  ready_buffer : no_start s.(EngineState.msg_buffer).(MessageBuffer.messages) = true;
}.

(** A run of the actor at a height: from [s], the message that starts or restarts
    the height (a restart is buffered unless the actor runs), then [msgs]; [T] are
    the calls so far and [m] what is left. *)
Record actor_run fuel (s : EngineState.t) (h : Height) (vs : ValidatorSet) (is_restart : bool)
    (msgs : list EngineMsg.t) (T : E_trace) (m : Coroutine.prog EngineCall.t EngineReply.t (EngineState.t * (string + unit)))
    : Prop := {
  run_starts : starts (start_msg h vs is_restart) = true;
  run_restart : is_restart = true -> s.(EngineState.phase) = Phase.Running;
  run_msgs : no_start msgs = true;
  run_steps : steps (handle_all fuel (start_msg h vs is_restart :: msgs) s) T m;
  run_others : answered (others vs) [] T;
}.

(** The life of the actor: the heights it is started or restarted at, one after
    the other, with their validators; the last may still be under way. *)
Inductive actor_life fuel : EngineState.t -> list (Height * ValidatorSet) -> E_trace -> Prop :=
  | actor_now s h vs is_restart msgs T m :
      actor_run fuel s h vs is_restart msgs T m -> actor_life fuel s [(h, vs)] T
  | actor_next s h vs is_restart msgs T s' res hs T' :
      actor_run fuel s h vs is_restart msgs T (Complete (s', res)) ->
      actor_life fuel s' hs T' -> actor_life fuel s ((h, vs) :: hs) (T ++ T').

Lemma queued_pending cs : queues_ok cs -> queues_hold (pending_ok (queued cs)) cs.
Proof.
  assert (Hq : forall q, (forall kv, kv ∈ q.(BoundedQueue.queue) ->
      kv ∈ cs.(CState.input_queue).(BoundedQueue.queue) \/ kv ∈ cs.(CState.sync_input_queue).(BoundedQueue.queue)) ->
    queue_holds bufferable q -> queue_holds (pending_ok (queued cs)) q).
  { unfold queue_holds. intros q Hin. rewrite !Forall_forall. intros Hb kv Hkv. apply Hb in Hkv as Hbuf.
    rewrite Forall_forall in Hbuf |- *. intros i Hi. apply Hbuf in Hi as Hi'. destruct i; try done. exists kv. auto. }
  intros [H1 H2]. split; apply Hq; auto.
Qed.

Lemma no_start_later fc msgs :
  no_start msgs = true -> (forall v, certified_by msgs v -> fc v) -> Forall (later_msg fc) msgs.
Proof.
  intros Hmsgs Hfc. apply Forall_forall. intros msg Hin.
  apply List.forallb_forall with (x := msg) in Hmsgs; [|by apply list_elem_of_In].
  destruct msg as [h vs|[]| | | |h vs| |]; try done.
  - by apply negb_true_iff, negb_false_iff, Nat.eqb_eq in Hmsgs.
  - apply Forall_forall. intros v Hv. apply Hfc. by exists peer, certificate.
  - by apply negb_true_iff, negb_false_iff, Nat.eqb_eq in Hmsgs.
Qed.

Lemma later_no_start fc msgs : Forall (later_msg fc) msgs -> no_start msgs = true.
Proof.
  intros Hl. apply List.forallb_forall. intros msg Hin%list_elem_of_In. rewrite Forall_forall in Hl. apply Hl in Hin.
  destruct msg as [h vs|[]| | | |h vs| |]; try done; by apply negb_true_iff, negb_false_iff, Nat.eqb_eq.
Qed.

(** What is shown of a height holds of the run. *)
Definition height_stage (s : EngineState.t) h vs msgs : E_trace -> EngineState.t -> Prop :=
  let cs := s.(EngineState.consensus) in
  on_height h vs (CState.address cs) cs.(CState.params) (Driver.move_to_height cs.(CState.driver) h vs)
    (certified_by (height_msgs s msgs)) (queued cs) running any_vote.
Definition height_permitted (s : EngineState.t) h vs msgs : E_trace -> EngineCall.t -> Prop :=
  let cs := s.(EngineState.consensus) in
  permitted h vs (CState.address cs) cs.(CState.params) (certified_by (height_msgs s msgs)) (queued cs).

Lemma actor_height_safe fuel s h vs is_restart msgs T m :
  actor_ready s -> actor_run fuel s h vs is_restart msgs T m ->
  Coroutine.wp True (height_permitted s h vs msgs) (others vs)
    (handle_all fuel (start_msg h vs is_restart :: msgs) s) (fun T' x => height_stage s h vs msgs T' x.1) [].
Proof using laws ext_laws proposer_laws.
  intros [Hq Hphase Hbuf] [Hstart Hrestart Hmsgs _ _]. unfold height_permitted, height_stage.
  apply (no_start_later (certified_by (height_msgs s msgs))) in Hbuf, Hmsgs.
  2, 3: intros v (peer & c & Hin & Hv); exists peer, c; split; [apply elem_of_app; auto|done].
  set (fc := certified_by (height_msgs s msgs)) in *.
  cbn [handle_all]. apply wp_bind. eapply wp_mono.
  - apply (handle_start config h vs s.(EngineState.consensus) fc (queued s.(EngineState.consensus))
      (queued_pending _ Hq) fuel is_restart [] s); [|by destruct is_restart; apply negb_true_iff, Nat.eqb_neq in Hstart|done].
    split; [done|]. split; [|by split].
    split; intros *; try (by intros ?%not_elem_of_nil); try (by intros (? & ?%not_elem_of_nil)).
  - intros T1 [s1 [e|x]] Hs1; [done|]. cbn [fst snd] in *. clearbody fc. revert T1 s1 Hs1.
    induction Hmsgs as [|msg rest Hm _ IH]; intros T1 s1 Hs1; [by apply wp_ret|].
    cbn [handle_all]. apply wp_bind. eapply wp_mono.
    + by eapply height_handle; [exact _|exact _|exact _|apply move_to_height_fresh|..|exact Hs1].
    + intros T2 [s2 [e|y]] Hs2; [done|]. by apply IH.
Qed.

Lemma actor_permitted fuel s h vs is_restart msgs T m T1 c r T2 :
  actor_ready s -> actor_run fuel s h vs is_restart msgs T m -> T = T1 ++ (c, r) :: T2 ->
  height_permitted s h vs msgs T1 c.
Proof using laws ext_laws proposer_laws.
  intros Hready Hrun HT. pose proof (actor_height_safe _ _ _ _ _ _ _ _ Hready Hrun) as Hsafe.
  exact (wp_trace_allowed _ _ _ _ _ _ [] T T1 c r T2 Hsafe (run_steps _ _ _ _ _ _ _ _ Hrun) (run_others _ _ _ _ _ _ _ _ Hrun) HT).
Qed.

(** After a height the actor is ready for the next one. *)
Lemma actor_run_ready fuel s h vs is_restart msgs T s' res :
  actor_ready s -> actor_run fuel s h vs is_restart msgs T (Complete (s', res)) ->
  actor_ready s' /\ s'.(EngineState.phase) = Phase.Running /\
  CState.address s'.(EngineState.consensus) = CState.address s.(EngineState.consensus) /\
  s'.(EngineState.consensus).(CState.params) = s.(EngineState.consensus).(CState.params).
Proof using laws ext_laws proposer_laws.
  intros Hready Hrun. pose proof (actor_height_safe _ _ _ _ _ _ _ _ Hready Hrun) as Hsafe.
  destruct (wp_complete _ _ _ _ _ _ _ _ Hsafe (run_steps _ _ _ _ _ _ _ _ Hrun) (run_others _ _ _ _ _ _ _ _ Hrun))
    as (t & [Hinv _] & _ & [Hp _ Hb]). cbn in *. split_and!; [|exact Hp|apply Hinv|apply Hinv]. split.
  - eapply queues_hold_impl; [apply bufferable_pending|apply Hinv].
  - by rewrite Hp.
  - by eapply later_no_start.
Qed.

(** *** Votes *)

Lemma actor_height_vote fuel s h vs is_restart msgs T m (w : Vote) :
  actor_ready s -> actor_run fuel s h vs is_restart msgs T m -> EngineCall.Signer (SignerCall.SignVote w) ∈ T.*1 ->
  vote_height w = h /\ vote_address w = CState.address s.(EngineState.consensus).
Proof using laws ext_laws proposer_laws.
  intros Hready Hrun (t1 & r & t2 & Ht)%trace_split.
  by destruct (actor_permitted _ _ _ _ _ _ _ _ _ _ _ _ Hready Hrun Ht) as (? & ? & _).
Qed.

Lemma actor_votes_agree fuel s h vs is_restart msgs T m (w w' : Vote) :
  actor_ready s -> actor_run fuel s h vs is_restart msgs T m ->
  EngineCall.Signer (SignerCall.SignVote w) ∈ T.*1 -> EngineCall.Signer (SignerCall.SignVote w') ∈ T.*1 ->
  vote_type w = vote_type w' -> vote_round w = vote_round w' -> same_vote w w'.
Proof using laws ext_laws proposer_laws.
  intros Hready Hrun Hw Hw' Htype Hround.
  destruct (trace_order _ _ _ Hw Hw') as [(t1 & r & t2 & Ht & Hin)|[(t1 & r & t2 & Ht & Hin)|[= ->]]].
  - destruct (actor_permitted _ _ _ _ _ _ _ _ _ _ _ _ Hready Hrun Ht) as (_ & _ & Hsame). by apply Hsame.
  - destruct (actor_permitted _ _ _ _ _ _ _ _ _ _ _ _ Hready Hrun Ht) as (_ & _ & Hsame). by apply same_vote_sym, Hsame.
  - apply same_vote_refl.
Qed.

Lemma actor_life_vote fuel s hs T (w : Vote) :
  actor_ready s -> actor_life fuel s hs T -> EngineCall.Signer (SignerCall.SignVote w) ∈ T.*1 ->
  vote_height w ∈ hs.*1 /\ vote_address w = CState.address s.(EngineState.consensus).
Proof using laws ext_laws proposer_laws.
  intros Hready. induction 1 as [s h vs is_restart msgs T m Hrun|s h vs is_restart msgs T s' res hs T' Hrun _ IH].
  - intros Hw. destruct (actor_height_vote _ _ _ _ _ _ _ _ _ Hready Hrun Hw) as [-> ?]. split; [by left|done].
  - destruct (actor_run_ready _ _ _ _ _ _ _ _ _ Hready Hrun) as (Hready' & _ & Ha & _).
    rewrite fmap_app, elem_of_app, fmap_cons, elem_of_cons. intros [Hw|Hw].
    + destruct (actor_height_vote _ _ _ _ _ _ _ _ _ Hready Hrun Hw). auto.
    + rewrite <- Ha. destruct (IH Hready' Hw). auto.
Qed.

(** C2: the consensus actor does not equivocate: over its life, whatever it
    receives at each height, from its buffer, the log, the network, the host, sync
    and its timers, and whatever fails, two votes that it has the signing provider
    sign for one height, type and round are the same vote up to the extension,
    with its address and for a height it was started at, as long as no height is
    started or restarted a second time. *)
Theorem actor_no_equivocation fuel s hs T (w w' : Vote)
  (Hready : actor_ready s) (Hlife : actor_life fuel s hs T) (Honce : NoDup hs.*1)
  (Hw : EngineCall.Signer (SignerCall.SignVote w) ∈ T.*1)
  (Hw' : EngineCall.Signer (SignerCall.SignVote w') ∈ T.*1)
  (Htype : vote_type w = vote_type w') (Hheight : vote_height w = vote_height w')
  (Hround : vote_round w = vote_round w') :
  same_vote w w' /\ vote_height w ∈ hs.*1 /\ vote_address w = CState.address s.(EngineState.consensus).
Proof.
  split; [|by eapply actor_life_vote].
  induction Hlife as [s h vs is_restart msgs T m Hrun|s h vs is_restart msgs T s' res hs T' Hrun Hlife IH].
  - by eapply actor_votes_agree.
  - destruct (actor_run_ready _ _ _ _ _ _ _ _ _ Hready Hrun) as (Hready' & _).
    rewrite fmap_cons in Honce. apply NoDup_cons in Honce as [Hh Honce].
    rewrite fmap_app, elem_of_app in Hw, Hw'.
    destruct Hw as [Hw|Hw], Hw' as [Hw'|Hw']; [by eapply (actor_votes_agree _ s)|..|by apply IH]; destruct Hh;
      destruct (actor_life_vote _ _ _ _ _ Hready' Hlife ltac:(eassumption)) as [Hin _].
    + destruct (actor_height_vote _ _ _ _ _ _ _ _ _ Hready Hrun Hw) as [<- _]. by rewrite Hheight.
    + destruct (actor_height_vote _ _ _ _ _ _ _ _ _ Hready Hrun Hw') as [<- _]. by rewrite <- Hheight.
Qed.

(** C9: votes are handed to the log before they are handed to the network. When
    the actor publishes a vote at a height and is not replaying the log, its last
    two calls were the flush of the log and the announcement of the vote, and
    before them it has appended the vote to the log, or has it from the log of the
    height, or from a round certificate. While it replays the log, every vote it
    publishes is one it has from the log, or from a certificate, or one it has
    appended. Whether the log has carried out what it was asked is not checked. *)
Theorem published_votes_flushed fuel s h vs is_restart msgs T m (v : SignedVote) T1 r T2
  (Hready : actor_ready s) (Hrun : actor_run fuel s h vs is_restart msgs T m)
  (HT : T = T1 ++ (EngineCall.Network (NetworkMsg.PublishConsensusMsg (SignedConsensusMsg.Vote v)), r) :: T2) :
  let accounted T := appended T v \/ recovered (queued s.(EngineState.consensus)) T v \/
    certified_by (height_msgs s msgs) v in
  (replaying T1 /\ accounted T1) \/
  exists T0 r0 r1, T1 = T0 ++ [(EngineCall.Wal WalCall.Flush, r0);
      (EngineCall.TxEvent (EngineEvent.Published (SignedConsensusMsg.Vote v)), r1)] /\ accounted T0.
Proof. exact (actor_permitted _ _ _ _ _ _ _ _ _ _ _ _ Hready Hrun HT). Qed.

(** *** Decisions *)

Lemma actor_height_decision fuel s h vs is_restart msgs T m (c : CommitCertificate.t) x :
  actor_ready s -> actor_run fuel s h vs is_restart msgs T m -> EngineCall.Host (HostCall.Decided c x) ∈ T.*1 ->
  c.(CommitCertificate.height) = h /\
  verify_commit_certificate c vs s.(EngineState.consensus).(CState.params).(Params.threshold_params) = Ret (inr tt).
Proof using laws ext_laws proposer_laws.
  intros Hready Hrun (t1 & r & t2 & Ht)%trace_split.
  by destruct (actor_permitted _ _ _ _ _ _ _ _ _ _ _ _ Hready Hrun Ht) as (? & ? & _).
Qed.

Lemma actor_decisions_agree fuel s h vs is_restart msgs T m (c c' : CommitCertificate.t) x x' :
  actor_ready s -> actor_run fuel s h vs is_restart msgs T m ->
  EngineCall.Host (HostCall.Decided c x) ∈ T.*1 -> EngineCall.Host (HostCall.Decided c' x') ∈ T.*1 ->
  c.(CommitCertificate.round) = c'.(CommitCertificate.round) /\
  c.(CommitCertificate.value_id) = c'.(CommitCertificate.value_id).
Proof using laws ext_laws proposer_laws.
  intros Hready Hrun Hc Hc'.
  destruct (trace_order _ _ _ Hc Hc') as [(t1 & r & t2 & Ht & Hin)|[(t1 & r & t2 & Ht & Hin)|[= -> ->]]]; [..|done];
    destruct (actor_permitted _ _ _ _ _ _ _ _ _ _ _ _ Hready Hrun Ht) as (_ & _ & Honce);
    destruct (Honce _ _ Hin) as [-> ->]; done.
Qed.

Lemma actor_life_decision fuel s hs T (c : CommitCertificate.t) x :
  actor_ready s -> actor_life fuel s hs T -> EngineCall.Host (HostCall.Decided c x) ∈ T.*1 ->
  exists vs, (c.(CommitCertificate.height), vs) ∈ hs /\
    verify_commit_certificate c vs s.(EngineState.consensus).(CState.params).(Params.threshold_params) = Ret (inr tt).
Proof using laws ext_laws proposer_laws.
  intros Hready. induction 1 as [s h vs is_restart msgs T m Hrun|s h vs is_restart msgs T s' res hs T' Hrun _ IH].
  - intros Hc. destruct (actor_height_decision _ _ _ _ _ _ _ _ _ _ Hready Hrun Hc) as [-> ?]. exists vs.
    by rewrite list_elem_of_singleton.
  - destruct (actor_run_ready _ _ _ _ _ _ _ _ _ Hready Hrun) as (Hready' & _ & _ & HP).
    rewrite fmap_app, elem_of_app. intros [Hc|Hc].
    + destruct (actor_height_decision _ _ _ _ _ _ _ _ _ _ Hready Hrun Hc) as [-> ?]. exists vs. split; [by left|done].
    + destruct (IH Hready' Hc) as (vs' & ? & Hv). rewrite HP in Hv. exists vs'. split; [by right|done].
Qed.

(** C8: the actor reports to the host one decision for a height: over its life, as
    long as no height is started or restarted a second time, two certificates for
    one height that it hands over are for one round and one value, and each of
    them passes the verification of certificates against the validators that its
    height was started with and the node's thresholds. *)
Theorem actor_decides_once fuel s hs T (c c' : CommitCertificate.t) (x x' : VoteExtensions.t)
  (Hready : actor_ready s) (Hlife : actor_life fuel s hs T) (Honce : NoDup hs.*1)
  (Hc : EngineCall.Host (HostCall.Decided c x) ∈ T.*1) (Hc' : EngineCall.Host (HostCall.Decided c' x') ∈ T.*1)
  (Hheight : c.(CommitCertificate.height) = c'.(CommitCertificate.height)) :
  c.(CommitCertificate.round) = c'.(CommitCertificate.round) /\
  c.(CommitCertificate.value_id) = c'.(CommitCertificate.value_id) /\
  exists vs, (c.(CommitCertificate.height), vs) ∈ hs /\
    verify_commit_certificate c vs s.(EngineState.consensus).(CState.params).(Params.threshold_params) = Ret (inr tt).
Proof.
  pose proof (actor_life_decision _ _ _ _ _ _ Hready Hlife Hc) as Hvalid.
  enough (c.(CommitCertificate.round) = c'.(CommitCertificate.round) /\
    c.(CommitCertificate.value_id) = c'.(CommitCertificate.value_id)) as [? ?] by done. clear Hvalid.
  induction Hlife as [s h vs is_restart msgs T m Hrun|s h vs is_restart msgs T s' res hs T' Hrun Hlife IH].
  - by eapply actor_decisions_agree.
  - destruct (actor_run_ready _ _ _ _ _ _ _ _ _ Hready Hrun) as (Hready' & _).
    rewrite fmap_cons in Honce. apply NoDup_cons in Honce as [Hh Honce].
    rewrite fmap_app, elem_of_app in Hc, Hc'.
    destruct Hc as [Hc|Hc], Hc' as [Hc'|Hc']; [by eapply (actor_decisions_agree _ s)|..|by apply IH]; destruct Hh;
      destruct (actor_life_decision _ _ _ _ _ _ Hready' Hlife ltac:(eassumption)) as (vs' & Hin & _);
      apply (list_elem_of_fmap_2 fst) in Hin; cbn in Hin.
    + destruct (actor_height_decision _ _ _ _ _ _ _ _ _ _ Hready Hrun Hc) as [<- _]. by rewrite Hheight.
    + destruct (actor_height_decision _ _ _ _ _ _ _ _ _ _ Hready Hrun Hc') as [<- _]. by rewrite <- Hheight.
Qed.

End claims.
