(* ===== verification/EngineConsensusRuns.v ===== *)
(** * Runs of the consensus actor

    The other actors over the Starknet context, the witnesses of the theorems
    about the actor, and a crash after which the actor votes again. *)

From S2P Require Import Prelude Types Bytes Context Starknet StateMachine VoteKeeper ProposalKeeper Driver DriverFacts DriverVotes DriverDecisions DriverHeight Verify BTree BoundedQueue Coroutine ConsensusTypes FullProposal Consensus ConsensusLogic ConsensusFacts Node NodeRuns Scoring SyncTypes Sync Timers Streaming Network EngineNetwork EngineSync EngineConsensus EngineConsensusFacts.

Section starknet.
#[local] Existing Instance N_context.
#[local] Existing Instance mock_extension.
#[local] Existing Instance N_provider.
#[local] Instance no_part : ProposalPartType := unit.
#[local] Instance starknet_arith : HeightArith := {|
  Height_increment_by := SnHeight.increment_by;
  Height_decrement_by := SnHeight.decrement_by;
  Height_as_u64 := SnHeight.as_u64;
|}.

(** The other actors: the log returns [entries], the host has no values and no
    extensions, and the keys are as in NodeRuns.v. *)
Definition verdict (b : bool) : VerificationResult.t :=
  if b then VerificationResult.Valid else VerificationResult.Invalid.
Definition N_others (entries : option (list WalEntry.t)) (c : EngineCall.t) : EngineReply.t :=
  match c with
  | EngineCall.Wal (WalCall.StartedHeight _) => EngineReply.WalEntries entries
  | EngineCall.Wal _ => EngineReply.WalResult true
  | EngineCall.Host (HostCall.StartedRound _ _ _ _) => EngineReply.UndecidedValues []
  | EngineCall.Host (HostCall.ExtendVote _ _ _) => EngineReply.VoteExtension None
  | EngineCall.Host (HostCall.VerifyVoteExtension _ _ _ _) => EngineReply.ExtensionValidity (inr tt)
  | EngineCall.Signer (SignerCall.SignVote w) =>
      EngineReply.SignedVote (SignedMessage.new w (vote_address w : Signature))
  | EngineCall.Signer (SignerCall.SignProposal p) =>
      EngineReply.SignedProposal (SignedMessage.new p (proposal_address p : Signature))
  | EngineCall.Signer (SignerCall.VerifySignedProposal _ sg key) =>
      EngineReply.Verified (verdict (bool_decide (sg = (key : Signature))))
  | EngineCall.Signer (SignerCall.VerifySignedVoteExtension _ _ _) => EngineReply.Verified VerificationResult.Valid
  | _ => EngineReply.Done
  end.

Definition engine_config (a : N) : EngineConfig.t :=
  EngineConfig.mk (node_params a) (get_ret (TimeoutConfig.mk 0%N 0%N 0%N 0%N 0%N 0%N 0%N) TimeoutConfig.default) 10 false.
Definition ready (a : N) : EngineState.t :=
  EngineState.set_phase (ConsensusActor.new (engine_config a)) Phase.Ready.

(** A start of a height and the messages after it. *)
Definition actor_session (a : N) (entries : option (list WalEntry.t)) (s : EngineState.t) (h : Height)
    (is_restart : bool) (msgs : list EngineMsg.t) :=
  execute (N_others entries)
    (handle_all (engine_config a) 10 (start_msg h four_validators is_restart :: msgs) s).
Definition actor_trace (a : N) (entries : option (list WalEntry.t)) (msgs : list EngineMsg.t) :=
  actor_session a entries (ready a) SnHeight.INITIAL false msgs.

Definition net_vote (w : Vote) : EngineMsg.t :=
  EngineMsg.NetworkEvent (NetworkEvent.Vote [] (SignedMessage.new w (vote_address w : Signature))).
Definition net_proposal (r v a : N) : EngineMsg.t :=
  EngineMsg.NetworkEvent (NetworkEvent.Proposal []
    (SignedMessage.new (new_proposal SnHeight.INITIAL (Round.Some r) (val v) Round.Nil (addr a)) (a : Signature))).

Definition deciding_msgs : list EngineMsg.t :=
  [net_proposal 0 7 1; net_vote (prevote_of 0 seven 3); net_vote (prevote_of 0 seven 4);
   net_vote (precommit_of 0 seven 3); net_vote (precommit_of 0 seven 4)].

Definition signed_calls (T : E_trace) : list Vote :=
  omap (fun cr : EngineCall.t * EngineReply.t =>
    match cr.1 with EngineCall.Signer (SignerCall.SignVote w) => Some w | _ => None end) T.
Definition appended_entries (T : E_trace) : list WalEntry.t :=
  omap (fun cr : EngineCall.t * EngineReply.t =>
    match cr.1 with EngineCall.Wal (WalCall.Append _ e) => Some e | _ => None end) T.

Definition decided_calls (T : E_trace) : list (CommitCertificate.t * VoteExtensions.t) :=
  omap (fun cr : EngineCall.t * EngineReply.t =>
    match cr.1 with EngineCall.Host (HostCall.Decided c x) => Some (c, x) | _ => None end) T.
Definition published_calls (T : E_trace) : list Vote :=
  omap (fun cr : EngineCall.t * EngineReply.t =>
    match cr.1 with
    | EngineCall.Network (NetworkMsg.PublishConsensusMsg (SignedConsensusMsg.Vote v)) => Some v.(SignedMessage.message)
    | _ => None
    end) T.

(** ** The run is a run of the height *)

Lemma N_others_ok entries T c : from_host (N_others entries) T -> others four_validators T c (N_others entries c).
Proof.
  intros HT. destruct c as [[]|[]|[]| | | | |]; try done. split; [done|].
  intros validator Hv. cbn in Hv. exists VerificationResult.Valid. split; [|done]. cbn.
  apply four_keys in Hv. cbn in Hv. by rewrite Hv, bool_decide_true.
Qed.

Lemma actor_session_run a entries s h is_restart msgs :
  (is_restart = true -> s.(EngineState.phase) = Phase.Running) -> no_start msgs = true ->
  actor_run (engine_config a) 10 s h four_validators is_restart msgs
    (actor_session a entries s h is_restart msgs).1 (actor_session a entries s h is_restart msgs).2.
Proof.
  intros Hr Hm. split; [by destruct is_restart|done|done|apply execute_steps|].
  apply execute_answered; [intros T c; apply N_others_ok|]. by intros c r ?%not_elem_of_nil.
Qed.

Lemma ready_ok a : actor_ready (ready a).
Proof. split; [split; apply Forall_nil_2|done|done]. Qed.

(** Two starts, one after the other. *)
Definition actor_state (m : Coroutine.prog EngineCall.t EngineReply.t (EngineState.t * (string + unit)))
    : option EngineState.t :=
  match m with Complete (s, _) => Some s | _ => None end.

Definition second_start (a : N) (msgs : list EngineMsg.t) (h : Height) (is_restart : bool) (msgs' : list EngineMsg.t) :=
  actor_session a None (default (ready a) (actor_state (actor_trace a None msgs).2)) h is_restart msgs'.
Definition two_heights (a : N) (msgs : list EngineMsg.t) (h : Height) (is_restart : bool) (msgs' : list EngineMsg.t)
    : E_trace :=
  (actor_trace a None msgs).1 ++ (second_start a msgs h is_restart msgs').1.

Lemma two_heights_life a msgs h is_restart msgs' :
  no_start msgs = true -> no_start msgs' = true ->
  (fun _ => tt) <$> actor_state (actor_trace a None msgs).2 = Some tt ->
  actor_life (engine_config a) 10 (ready a) [(SnHeight.INITIAL, four_validators); (h, four_validators)]
    (two_heights a msgs h is_restart msgs').
Proof.
  intros Hm Hm' (s' & Hs & _)%fmap_Some.
  assert (Hrun : actor_run (engine_config a) 10 (ready a) SnHeight.INITIAL four_validators false msgs
    (actor_trace a None msgs).1 (actor_trace a None msgs).2) by (by apply actor_session_run).
  unfold two_heights, second_start. rewrite Hs. cbn [default id from_option].
  destruct (actor_trace a None msgs).2 as [[s1 res]| | |]; try done. injection Hs as ->.
  destruct (actor_run_ready (laws := N_context_laws) (ext_laws := mock_extension_laws)
    (proposer_laws := mock_proposer_laws) _ _ _ _ _ _ _ _ _ _ (ready_ok a) Hrun) as (_ & Hph & _).
  refine (actor_next _ 10 _ _ _ _ _ _ _ _ [(h, four_validators)] _ Hrun _).
  eapply (actor_now _ 10 s' h). by apply actor_session_run.
Qed.

Lemma elem_of_signed_calls w T : w ∈ signed_calls T -> EngineCall.Signer (SignerCall.SignVote w) ∈ T.*1.
Proof.
  unfold signed_calls. rewrite list_elem_of_omap. intros ([[| |[]| | | | |] r] & Hin & [=]); subst.
  apply list_elem_of_fmap. by eexists (_, r).
Qed.

Lemma elem_of_decided_calls c x T : (c, x) ∈ decided_calls T -> EngineCall.Host (HostCall.Decided c x) ∈ T.*1.
Proof.
  unfold decided_calls. rewrite list_elem_of_omap. intros ([[|[]| | | | | |] r] & Hin & [=]); subst.
  apply list_elem_of_fmap. by eexists (_, r).
Qed.

(** ** Witnesses *)

(** The actor decides at one height and is then started at the next. *)
Definition two_height_starts : list (Height * ValidatorSet) :=
  [(SnHeight.INITIAL, four_validators); (next_height, four_validators)].
Definition two_height_trace : E_trace := two_heights 2 deciding_msgs next_height false deciding_msgs.

Lemma two_height_life : actor_life (engine_config 2) 10 (ready 2) two_height_starts two_height_trace.
Proof. by apply two_heights_life; [..|vm_refl]. Qed.

Lemma actor_no_equivocation_witness :
  same_vote (prevote_of 0 seven 2) (prevote_of 0 seven 2) /\
  vote_height (prevote_of 0 seven 2) ∈ two_height_starts.*1 /\ vote_address (prevote_of 0 seven 2) = addr 2.
Proof.
  refine (actor_no_equivocation (laws := N_context_laws) (ext_laws := mock_extension_laws)
    (proposer_laws := mock_proposer_laws) (engine_config 2) 10 (ready 2) two_height_starts two_height_trace
    (prevote_of 0 seven 2) (prevote_of 0 seven 2) (ready_ok 2) two_height_life _ _ _ eq_refl eq_refl eq_refl).
  - vm_decide.
  - apply elem_of_signed_calls. vm_decide.
  - apply elem_of_signed_calls. vm_decide.
Defined.

Lemma actor_decides_once_witness :
  exists vs, (SnHeight.INITIAL, vs) ∈ two_height_starts /\
    verify_commit_certificate commit_7 vs ThresholdParams.default = Ret (inr tt).
Proof.
  assert (Hd : (decided_calls two_height_trace).*1 = [commit_7]) by vm_refl.
  destruct (decided_calls two_height_trace) as [|[c x] l] eqn:Hl; [done|]. injection Hd as -> _.
  assert (Hin : EngineCall.Host (HostCall.Decided commit_7 x) ∈ two_height_trace.*1).
  { apply elem_of_decided_calls. rewrite Hl. apply list_elem_of_here. }
  refine (proj2 (proj2 (actor_decides_once (laws := N_context_laws) (ext_laws := mock_extension_laws)
    (proposer_laws := mock_proposer_laws) (engine_config 2) 10 (ready 2) two_height_starts two_height_trace
    commit_7 commit_7 x x (ready_ok 2) two_height_life _ Hin Hin eq_refl))).
  vm_decide.
Defined.

(** A height that is restarted: the actor votes for another proposal. *)
Lemma restarted_actor_equivocates :
  let T := two_heights 2 [net_proposal 0 7 1] SnHeight.INITIAL true [net_proposal 0 8 1] in
  actor_life (engine_config 2) 10 (ready 2) [(SnHeight.INITIAL, four_validators); (SnHeight.INITIAL, four_validators)] T /\
  [prevote_of 0 seven 2; prevote_of 0 (NilOrVal.Val (val_id 8)) 2] ⊆ signed_calls T.
Proof. cbv zeta. split; [by apply two_heights_life; [..|vm_refl]|vm_decide]. Qed.

Definition publishes (v : SignedVote) (c : EngineCall.t) : bool :=
  match c with
  | EngineCall.Network (NetworkMsg.PublishConsensusMsg (SignedConsensusMsg.Vote v')) => bool_decide (v' = v)
  | _ => false
  end.

Lemma publishes_elem v (T : E_trace) :
  existsb (fun cr : EngineCall.t * EngineReply.t => publishes v cr.1) T = true ->
  EngineCall.Network (NetworkMsg.PublishConsensusMsg (SignedConsensusMsg.Vote v)) ∈ T.*1.
Proof.
  intros ([c r] & Hin%list_elem_of_In & Hc)%existsb_exists. apply list_elem_of_fmap. exists (c, r). split; [|done].
  destruct c as [| | |[]| | | |]; try done. destruct msg; try done. cbn in *.
  apply bool_decide_eq_true in Hc. by subst.
Qed.

Lemma fetched_nothing a msgs h es :
  (EngineCall.Wal (WalCall.StartedHeight h), EngineReply.WalEntries (Some es)) ∉ (actor_trace a None msgs).1.
Proof. by intros Hin%execute_from_host. Qed.

Lemma published_votes_flushed_witness :
  exists T1 r T2, (actor_trace 2 None deciding_msgs).1 =
      T1 ++ (EngineCall.Network (NetworkMsg.PublishConsensusMsg (SignedConsensusMsg.Vote own_precommit)), r) :: T2 /\
    exists T0 r0 r1, T1 = T0 ++ [(EngineCall.Wal WalCall.Flush, r0);
        (EngineCall.TxEvent (EngineEvent.Published (SignedConsensusMsg.Vote own_precommit)), r1)] /\
      exists height, EngineCall.Wal (WalCall.Append height
        (WalEntry.ConsensusMsg (SignedConsensusMsg.Vote own_precommit))) ∈ T0.*1.
Proof.
  destruct (trace_split (EngineCall.Network (NetworkMsg.PublishConsensusMsg (SignedConsensusMsg.Vote own_precommit)))
    (actor_trace 2 None deciding_msgs).1) as (T1 & r & T2 & HT).
  { apply publishes_elem. vm_refl. }
  exists T1, r, T2. split; [exact HT|].
  destruct (published_votes_flushed (laws := N_context_laws) (ext_laws := mock_extension_laws)
    (proposer_laws := mock_proposer_laws) (engine_config 2) 10 (ready 2) SnHeight.INITIAL four_validators false
    deciding_msgs _ _ own_precommit T1 r T2 (ready_ok 2)
    (actor_session_run 2 None (ready 2) SnHeight.INITIAL false deciding_msgs ltac:(done) eq_refl) HT)
    as [[(T0 & h & es & T' & -> & _) _]|(T0 & r0 & r1 & -> & Hacc)].
  - destruct (fetched_nothing 2 deciding_msgs h es). rewrite HT, !elem_of_app, !elem_of_cons. auto.
  - exists T0, r0, r1. split; [done|].
    assert (Hno : forall h es, (EngineCall.Wal (WalCall.StartedHeight h), EngineReply.WalEntries (Some es)) ∉ T0).
    { intros h es Hin. apply (fetched_nothing 2 deciding_msgs h es). rewrite HT, !elem_of_app. auto. }
    destruct Hacc as [Happ|[[(h & es & Hin & _)|(T3 & w & T4 & -> & (T5 & h & es & T6 & -> & _))]|(peer & c & Hin & _)]].
    + exact Happ.
    + destruct (Hno _ _ Hin).
    + destruct (Hno h es). rewrite !elem_of_app, !elem_of_cons. auto.
    + change (height_msgs (ready 2) deciding_msgs) with deciding_msgs in Hin.
      unfold deciding_msgs in Hin. do 5 (apply elem_of_cons in Hin as [Hin|Hin]; [discriminate Hin|]).
      destruct (not_elem_of_nil _ Hin).
Defined.

(** ** A crash

    Validator 2 receives the proposal of 7 and a certificate with the prevotes of
    the others for it: it prevotes and precommits 7. *)

Definition polka_7 : EngineMsg.t :=
  EngineMsg.NetworkEvent (NetworkEvent.PolkaCertificate []
    (PolkaCertificate.mk SnHeight.INITIAL (Round.Some 0) (val_id 7)
       ((fun a : N => PolkaSignature.new (addr a) (a : Signature)) <$> [1; 3; 4]%N))).

Definition before_crash : list EngineMsg.t := [net_proposal 0 7 1; polka_7].

(** After the restart it receives a prevote for 7, a nil prevote of validator 3,
    which votes twice, and its timeout for prevotes. *)
Definition after_crash : list EngineMsg.t :=
  [net_vote (prevote_of 0 seven 1); net_vote (prevote_of 0 NilOrVal.Nil 3);
   EngineMsg.TimeoutElapsed (TimeoutElapsed.mk (RoundTimeout.prevote (Round.Some 0)) 4)].

(** A crash makes an honest node vote twice. Polka certificates are not logged:
    validator 2 precommits 7 on the strength of one, and its log has the
    precommit but nothing to precommit on. When it restarts with exactly the
    entries it had appended, all flushed, it has neither the lock nor a record of
    having precommitted, and on its timeout it signs and publishes a precommit
    for nil in the same round. *)
Theorem recovery_equivocates :
  let run := actor_trace 2 None before_crash in
  let restarted := actor_trace 2 (Some (appended_entries run.1)) after_crash in
  published_calls run.1 = [prevote_of 0 seven 2; precommit_of 0 seven 2] /\
  published_calls restarted.1 = [prevote_of 0 seven 2; precommit_of 0 NilOrVal.Nil 2].
Proof. split; vm_refl. Qed.

End starknet.
