(* ===== verification/ChannelApp.v ===== *)
(** * The example application

    examples/channel/src: an application on the test context. Its store
    (store.rs, store/keys.rs), its state with the proposals it builds, streams,
    validates and commits (state.rs), and the loop that answers the messages of
    the engine (app.rs, the messages being those of app-channel/src/msgs.rs). The
    reassembly of streams (streaming.rs) is in Streaming.v.

    The database (redb) keeps ordered tables; its transactions are atomic and may
    fail. Its failures, the random numbers, the replies and the messages to the
    network are effects. The hash, the signatures and the encodings of what is
    stored are parameters. A panic inside of a store operation ends its blocking
    task only, and is an error for the caller. Metrics and the simulated delays
    are left out. *)

From S2P Require Import Prelude Types Bytes Context TestContext BTree Coroutine ConsensusTypes SyncTypes Streaming EngineNetwork EngineConsensus.

(** ** Parts of a proposal (test/src/proposal_part.rs) *)

Module AppPart.
Inductive t {Addr Sig : Type} : Type :=
  | Init (init : ProposalInit.t TestHeight.t Addr)
  | Data (factor : N)
  | Fin (signature : Sig).
Arguments t Addr Sig : clear implicits.

Section part.
Context {Addr Sig : Type}.
Definition as_init (self : t Addr Sig) : option (ProposalInit.t TestHeight.t Addr) :=
  match self with Init init => Some init | _ => None end.
Definition as_data (self : t Addr Sig) : option N := match self with Data factor => Some factor | _ => None end.
Definition as_fin (self : t Addr Sig) : option Sig := match self with Fin signature => Some signature | _ => None end.
End part.
End AppPart.

(** ** What the application is built on *)

Class AppEnv : Type := {
  AppAddr : Type;
  AppPK : Type;
  AppSig : Type;
  AppAddr_dec :: EqDecision AppAddr;
  AppAddr_cnt :: Countable AppAddr;
  AppPK_dec :: EqDecision AppPK;
  AppSig_dec :: EqDecision AppSig;
  AppAddr_leb : AppAddr -> AppAddr -> bool;
  address_bytes : AppAddr -> bytes;
  keccak256 : bytes -> bytes;
  app_sign : bytes -> AppSig;
  app_verify : bytes -> AppSig -> AppPK -> bool;
}.

#[global] Instance app_context `{AppEnv} : Context := TestContext (Addr := AppAddr) (PK := AppPK) (Sig := AppSig).
#[global] Instance app_extension `{AppEnv} : VoteExtension :=
  TestContext_extension (Addr := AppAddr) (PK := AppPK) (Sig := AppSig) AppAddr_leb.

Abbreviation Part := (AppPart.t AppAddr AppSig).
Abbreviation Parts := (ProposalParts.t Part TestHeight.t AppAddr).

(** The encodings of the tables. *)
Class StoreCodecs `{AppEnv} : Type := {
  value_codec :: Codec TestValue;
  certificate_codec :: Codec CommitCertificate.t;
  proposal_codec :: Codec ProposedValue.t;
  parts_codec :: Codec Parts;
}.

(** ** The store (store.rs, store/keys.rs) *)

#[global] Instance height_key_order : KeyOrder TestHeight.t := TestHeight.ltb.
#[global] Instance round_key_order : KeyOrder Round.t := Round.ltb.

Abbreviation HeightKey := TestHeight.t.
Abbreviation ProposalKey := (TestHeight.t * (Round.t * N))%type.

Module DecidedValue.
Record t `{AppEnv} : Type := mk { value : TestValue; certificate : CommitCertificate.t }.
Arguments mk {_} value certificate.
End DecidedValue.

Module Db.
Record t : Type := mk {
  certificates : BTreeMap.t HeightKey bytes;
  decided_values : BTreeMap.t HeightKey bytes;
  undecided_proposals : BTreeMap.t ProposalKey bytes;
  pending_proposal_parts : BTreeMap.t ProposalKey bytes;
}.

Definition empty : t := mk [] [] [] [].

Section db.
Context `{StoreCodecs}.
Implicit Types (self : t).

(** [None] is an error: [?] on the result of an encoding or a decoding. *)
Abbreviation result A := (outcome (option A)).

Definition try {A B} (m : result A) (k : A -> result B) : result B :=
  x ← m; match x with Some x => k x | None => Ret None end.

(** [.ok()] on the decoding of a stored value. *)
Definition decode_stored {A} `{Codec A} (stored : option bytes) : outcome (option A) :=
  match stored with Some b => decode b | None => Ret None end.

Definition get_decided_value self (height : TestHeight.t) : result (option DecidedValue.t) :=
  value ← decode_stored (BTreeMap.get height self.(decided_values));
  certificate ← decode_stored (BTreeMap.get height self.(certificates));
  Ret (Some (match value, certificate with
             | Some value, Some certificate => Some (DecidedValue.mk value certificate)
             | _, _ => None
             end)).

Definition insert_decided_value self (decided_value : DecidedValue.t) : result t :=
  let certificate := decided_value.(DecidedValue.certificate) in
  let height := certificate.(CommitCertificate.height) in
  try (encode decided_value.(DecidedValue.value)) (fun value_bytes =>
  try (encode certificate) (fun certificate_bytes =>
  Ret (Some (mk (BTreeMap.insert height certificate_bytes self.(certificates))
                (BTreeMap.insert height value_bytes self.(decided_values))
                self.(undecided_proposals) self.(pending_proposal_parts))))).

Definition get_undecided_proposal self (height : TestHeight.t) (round : Round.t) (value_id : N)
    : result (option ProposedValue.t) :=
  match BTreeMap.get (height, (round, value_id)) self.(undecided_proposals) with
  | Some bytes => try (decode bytes) (fun proposal => Ret (Some (Some proposal)))
  | None => Ret (Some None)
  end.

(** The entries of a table for a height and a round, decoded. *)
Fixpoint decode_round {A} `{Codec A} (height : TestHeight.t) (round : Round.t)
    (entries : BTreeMap.t ProposalKey bytes) : result (list A) :=
  match entries with
  | [] => Ret (Some [])
  | ((h, (r, _)), bytes) :: entries =>
      if bool_decide (h = height) && bool_decide (r = round) then
        try (decode bytes) (fun x => try (decode_round height round entries) (fun xs => Ret (Some (x :: xs))))
      else decode_round height round entries
  end.

Definition get_undecided_proposals self (height : TestHeight.t) (round : Round.t)
    : result (list ProposedValue.t) :=
  decode_round height round self.(undecided_proposals).

Definition insert_undecided_proposal self (proposal : ProposedValue.t) : result t :=
  let key := (proposal.(ProposedValue.height), (proposal.(ProposedValue.round),
                test_value_id proposal.(ProposedValue.value))) in
  try (encode proposal) (fun value =>
  Ret (Some (mk self.(certificates) self.(decided_values)
                (BTreeMap.insert key value self.(undecided_proposals)) self.(pending_proposal_parts)))).

Definition get_pending_proposal_parts self (height : TestHeight.t) (round : Round.t) : result (list Parts) :=
  decode_round height round self.(pending_proposal_parts).

(** An [i64] as eight bytes. *)
Definition i64_be_bytes (z : Z) : bytes := to_be_bytes 8 (Z.to_N (z mod 2 ^ 64)).

Definition generate_value_id_from_parts (parts : Parts) : N :=
  let hash := keccak256
    (to_be_bytes 8 (TestHeight.as_u64 parts.(ProposalParts.height)) ++
     i64_be_bytes (Round.as_i64 parts.(ProposalParts.round)) ++ address_bytes parts.(ProposalParts.proposer) ++
     concat (to_be_bytes 8 <$> omap AppPart.as_data parts.(ProposalParts.parts))) in
  from_be_bytes (take 8 hash).

Definition parts_key (parts : Parts) : ProposalKey :=
  (parts.(ProposalParts.height), (parts.(ProposalParts.round), generate_value_id_from_parts parts)).

Definition remove_pending_proposal_parts self (parts : Parts) : result t :=
  Ret (Some (mk self.(certificates) self.(decided_values) self.(undecided_proposals)
               (BTreeMap.remove (parts_key parts) self.(pending_proposal_parts)))).

Definition insert_pending_proposal_parts self (parts : Parts) : result t :=
  try (encode parts) (fun value =>
  Ret (Some (mk self.(certificates) self.(decided_values) self.(undecided_proposals)
               (BTreeMap.insert (parts_key parts) value self.(pending_proposal_parts))))).

Definition prune self (current_height retain_height : TestHeight.t) : result t :=
  Ret (Some (mk (BTreeMap.retain (fun k _ => negb (TestHeight.ltb k retain_height)) self.(certificates))
               (BTreeMap.retain (fun k _ => negb (TestHeight.ltb k retain_height)) self.(decided_values))
               (BTreeMap.retain (fun k _ => TestHeight.ltb current_height k.1) self.(undecided_proposals))
               (BTreeMap.retain (fun k _ => TestHeight.ltb current_height k.1) self.(pending_proposal_parts)))).

Definition min_decided_value_height self : option TestHeight.t := fst <$> head self.(decided_values).
Definition max_decided_value_height self : option TestHeight.t :=
  fst <$> BTreeMap.last_key_value self.(decided_values).

Fixpoint find_value_id (value_id : N) (entries : BTreeMap.t ProposalKey bytes)
    : result (option ProposedValue.t) :=
  match entries with
  | [] => Ret (Some None)
  | (_, bytes) :: entries =>
      try (decode bytes) (fun proposal : ProposedValue.t =>
        if bool_decide (test_value_id proposal.(ProposedValue.value) = value_id) then Ret (Some (Some proposal))
        else find_value_id value_id entries)
  end.
Definition get_undecided_proposal_by_value_id self (value_id : N) : result (option ProposedValue.t) :=
  find_value_id value_id self.(undecided_proposals).

End db.
End Db.

(** ** Messages (app-channel/src/msgs.rs) *)

Module AppMsg.
Inductive t `{AppEnv} : Type :=
  | ConsensusReady
  | StartedRound (height : TestHeight.t) (round : Round.t) (proposer : AppAddr)
  | GetValue (height : TestHeight.t) (round : Round.t)
  | ExtendVote
  | VerifyVoteExtension
  | RestreamProposal (height : TestHeight.t) (round valid_round : Round.t) (value_id : N)
  | GetHistoryMinHeight
  | ReceivedProposalPart (from : PeerId) (part : StreamMessage.t Part)
  | Decided (certificate : CommitCertificate.t) (extensions : VoteExtensions.t)
  | GetDecidedValue (height : TestHeight.t)
  | ProcessSyncedValue (height : TestHeight.t) (round : Round.t) (proposer : AppAddr) (value_bytes : bytes).
End AppMsg.

(** What the application asks of its environment, and what it tells it; [GenRange]
    is [gen_range(low..=high)]. *)
Module AppCall.
Inductive t `{AppEnv} : Type :=
  | Transaction
  | GenRange (low high : N)
  | PublishProposalPart (msg : StreamMessage.t Part)
  | ReplyReady (height : TestHeight.t) (validator_set : ValidatorSet)
  | ReplyProposals (proposals : list ProposedValue.t)
  | ReplyValue (value : LocallyProposedValue.t)
  | ReplyExtension (extension : option bytes)
  | ReplyExtensionOk
  | ReplyProposed (value : option ProposedValue.t)
  | ReplyNext (next : Next.t)
  | ReplySynced (value : option ProposedValue.t)
  | ReplyDecided (value : option RawDecidedValue.t)
  | ReplyMinHeight (height : TestHeight.t).
End AppCall.

Module AppReply.
Inductive t : Type := Ok | Failed | Number (n : N).
Definition ok (r : t) : bool := match r with Failed => false | _ => true end.
End AppReply.

(** ** The state (state.rs) *)

Module SignatureVerificationError.
Inductive t : Type := MissingInitPart | MissingFinPart | ProposerNotFound | InvalidSignature.
End SignatureVerificationError.

Module ProposalValidationError.
Inductive t `{AppEnv} : Type :=
  | WrongProposer (actual expected : AppAddr)
  | Signature (error : SignatureVerificationError.t).
End ProposalValidationError.

Module AppState.
Record t `{AppEnv} : Type := mk {
  genesis : TestValidatorSet (Addr := AppAddr) (PK := AppPK);
  address : AppAddr;
  vote_extensions : gmap TestHeight.t VoteExtensions.t;
  streams_map : WholeStreamsMap.t Part TestHeight.t AppAddr;
  store : Db.t;
  current_height : TestHeight.t;
  current_round : Round.t;
  current_proposer : option AppAddr;
}.

Section setters.
Context `{AppEnv}.
Definition new genesis address height store : t := mk _ genesis address ∅ ∅ store height (Round.new 0) None.
Definition set_vote_extensions (self : t) x : t := mk _ self.(genesis) self.(address) x self.(streams_map)
  self.(store) self.(current_height) self.(current_round) self.(current_proposer).
Definition set_streams_map (self : t) x : t := mk _ self.(genesis) self.(address) self.(vote_extensions) x
  self.(store) self.(current_height) self.(current_round) self.(current_proposer).
Definition set_store (self : t) x : t := mk _ self.(genesis) self.(address) self.(vote_extensions) self.(streams_map)
  x self.(current_height) self.(current_round) self.(current_proposer).
Definition set_current (self : t) height round : t := mk _ self.(genesis) self.(address) self.(vote_extensions)
  self.(streams_map) self.(store) height round self.(current_proposer).
Definition set_proposer (self : t) x : t := mk _ self.(genesis) self.(address) self.(vote_extensions)
  self.(streams_map) self.(store) self.(current_height) self.(current_round) x.
End setters.
End AppState.

Definition HISTORY_LENGTH : N := 1000.

(** [factor_value]: the loop, with the divisor and what is left to factor. *)
Fixpoint factor_loop (fuel : nat) (i n : N) (factors : list N) : outcome (list N) :=
  match fuel with
  | 0 => Panic "out of fuel"
  | S fuel =>
      square ← mul_u64 i i;
      if (square <=? n)%N then
        if (n mod i =? 0)%N then factor_loop fuel i (n / i) (factors ++ [i])
        else (i' ← add_u64 i 1; factor_loop fuel i' n factors)
      else Ret (if (1 <? n)%N then factors ++ [n] else factors)
  end.

(** Each turn of the loop makes [n - i] smaller. *)
Definition factor_value (value : TestValue) : outcome (list N) :=
  factor_loop (S (N.to_nat value.(tv_value))) 2 value.(tv_value) [].

Section state.
Context `{StoreCodecs}.
Implicit Types (self : AppState.t).

(** The rotation of the validators of the genesis: half of them, from an index
    that the height determines. *)
Definition get_validator_set self (height : TestHeight.t) : outcome ValidatorSet :=
  let validators := t_validators self.(AppState.genesis) in
  let num_validators := N.of_nat (length validators) in
  let selection_size := ((num_validators + 1) / 2)%N in
  if (num_validators <=? selection_size)%N then Ret self.(AppState.genesis)
  else test_set_new (take (N.to_nat selection_size)
         (drop (N.to_nat (TestHeight.as_u64 height mod num_validators)) (validators ++ validators))).

(** [ProposalParts::init] and [fin] (streaming.rs). *)
Definition parts_init (parts : Parts) : option (ProposalInit.t TestHeight.t AppAddr) :=
  find_map AppPart.as_init parts.(ProposalParts.parts).
Definition parts_fin (parts : Parts) : option AppSig := find_map AppPart.as_fin parts.(ProposalParts.parts).

(** What is hashed and signed: the height, the round and the factors. *)
Definition proposal_hash (height : TestHeight.t) (round : Round.t) (factors : list N) : bytes :=
  keccak256 (to_be_bytes 8 (TestHeight.as_u64 height) ++ Db.i64_be_bytes (Round.as_i64 round) ++
             concat (to_be_bytes 8 <$> factors)).

Definition verify_proposal_parts_signature self (parts : Parts) : outcome (SignatureVerificationError.t + unit) :=
  match parts_init parts with
  | None => Ret (inl SignatureVerificationError.MissingInitPart)
  | Some init =>
      match parts_fin parts with
      | None => Ret (inl SignatureVerificationError.MissingFinPart)
      | Some signature =>
          let hash := proposal_hash init.(ProposalInit.height) init.(ProposalInit.round)
                        (omap AppPart.as_data parts.(ProposalParts.parts)) in
          validator_set ← get_validator_set self parts.(ProposalParts.height);
          Ret (match get_by_address validator_set parts.(ProposalParts.proposer) with
               | None => inl SignatureVerificationError.ProposerNotFound
               | Some proposer =>
                   if app_verify hash signature (public_key proposer) then inr tt
                   else inl SignatureVerificationError.InvalidSignature
               end)
      end
  end.

Definition validate_proposal_parts self (parts : Parts) : outcome (ProposalValidationError.t + unit) :=
  validator_set ← get_validator_set self parts.(ProposalParts.height);
  expected ← select_proposer validator_set parts.(ProposalParts.height) parts.(ProposalParts.round);
  let expected_proposer := validator_address expected in
  if bool_decide (parts.(ProposalParts.proposer) = expected_proposer) then
    result ← verify_proposal_parts_signature self parts;
    Ret (match result with inl e => inl (ProposalValidationError.Signature e) | inr _ => inr tt end)
  else Ret (inl (ProposalValidationError.WrongProposer parts.(ProposalParts.proposer) expected_proposer)).

(** [fold(1, |acc, data| acc * data.factor)]. *)
Fixpoint product_from (acc : N) (factors : list N) : outcome N :=
  match factors with [] => Ret acc | f :: factors => acc ← mul_u64 acc f; product_from acc factors end.

Definition assemble_value_from_parts (parts : Parts) : outcome (option ProposedValue.t) :=
  match parts_init parts with
  | None => Ret None
  | Some init =>
      value ← product_from 1 (omap AppPart.as_data parts.(ProposalParts.parts));
      Ret (Some (ProposedValue.mk parts.(ProposalParts.height) parts.(ProposalParts.round)
             init.(ProposalInit.pol_round) parts.(ProposalParts.proposer) (test_value_new value) Validity.Valid))
  end.

Definition value_to_parts self (value : LocallyProposedValue.t) (pol_round : Round.t) : outcome (list Part) :=
  let height := value.(LocallyProposedValue.height) in
  let round := value.(LocallyProposedValue.round) in
  factors ← factor_value value.(LocallyProposedValue.value);
  Ret (AppPart.Init (ProposalInit.mk height round pol_round self.(AppState.address)) ::
       (AppPart.Data <$> factors) ++ [AppPart.Fin (app_sign (proposal_hash height round factors))]).

Definition stream_id self : outcome StreamId :=
  round ← expect (Round.as_u32 self.(AppState.current_round)) "called `Option::unwrap()` on a `None` value";
  Ret (to_be_bytes 8 (TestHeight.as_u64 self.(AppState.current_height)) ++ to_be_bytes 4 round).

(** The parts under consecutive sequence numbers, and the end of the stream. *)
Fixpoint number_parts (stream_id : StreamId) (sequence : Sequence) (parts : list Part)
    : outcome (list (StreamMessage.t Part)) :=
  match parts with
  | [] => Ret [StreamMessage.new stream_id sequence StreamContent.Fin]
  | part :: parts =>
      next ← add_u64 sequence 1;
      rest ← number_parts stream_id next parts;
      Ret (StreamMessage.new stream_id sequence (StreamContent.Data part) :: rest)
  end.

Definition stream_proposal self (value : LocallyProposedValue.t) (pol_round : Round.t)
    : outcome (list (StreamMessage.t Part)) :=
  parts ← value_to_parts self value pol_round;
  stream_id ← stream_id self;
  number_parts stream_id 0 parts.
End state.

(** ** The operations of the state that use the store *)

Section app.
Context `{StoreCodecs}.
Abbreviation AM := (handler AppCall.t AppReply.t AppState.t string).

(** A transaction that reads, and one that writes: it fails when the database
    fails, when the operation returns an error or when it panics. *)
Definition read {A} (f : Db.t -> outcome (option A)) : AM A :=
  r ← yield_ AppCall.Transaction;
  self ← get_state;
  if AppReply.ok r then
    match f self.(AppState.store) with
    | Ret (Some a) => mret a
    | Ret None => fail "store error"
    | Panic _ => fail "Failed to join on task"
    end
  else fail "Database error".

Definition write (f : Db.t -> outcome (option Db.t)) : AM unit :=
  db ← read f; self ← get_state; put_state (AppState.set_store self db).

(** [.ok().flatten()]: a failed transaction panics in its task. *)
Definition read_height (f : Db.t -> option TestHeight.t) : AM (option TestHeight.t) :=
  r ← yield_ AppCall.Transaction;
  self ← get_state;
  mret (if AppReply.ok r then f self.(AppState.store) else None).

Definition store_undecided_proposal (value : ProposedValue.t) : AM unit :=
  write (fun db => Db.insert_undecided_proposal db value).

Definition get_earliest_height : AM TestHeight.t :=
  height ← read_height Db.min_decided_value_height; mret (default TestHeight.ZERO height).

(** [eyre!]: an error of the application. *)
Definition assemble_m (parts : Parts) : AM ProposedValue.t :=
  value ← lift (assemble_value_from_parts parts);
  match value with Some value => mret value | None => fail "Missing Init part" end.

(** A proposal of which all parts have arrived: one for a past height is
    dropped, one for a future height kept for later, and one for the current
    height checked, assembled and stored. *)
Definition complete_proposal (parts : Parts) : AM (option ProposedValue.t) :=
  self ← get_state;
  if TestHeight.ltb parts.(ProposalParts.height) self.(AppState.current_height) then mret None
  else if TestHeight.ltb self.(AppState.current_height) parts.(ProposalParts.height) then
    _ ← write (fun db => Db.insert_pending_proposal_parts db parts); mret None
  else
    valid ← lift (validate_proposal_parts self parts);
    match valid with
    | inr _ =>
        value ← assemble_m parts;
        _ ← store_undecided_proposal value;
        mret (Some value)
    | inl _ => mret None
    end.

Definition received_proposal_part (from : PeerId) (part : StreamMessage.t Part) : AM (option ProposedValue.t) :=
  self ← get_state;
  '(streams, parts) ← lift (WholeStreamsMap.insert AppPart.as_init self.(AppState.streams_map) from part);
  _ ← put_state (AppState.set_streams_map self streams);
  match parts with
  | None => mret None
  | Some parts => complete_proposal parts
  end.

Definition get_decided_value (height : TestHeight.t) : AM (option DecidedValue.t) :=
  value ← catch (read (fun db => Db.get_decided_value db height));
  mret (match value with inr value => value | inl _ => None end).

Definition commit (certificate : CommitCertificate.t) (extensions : VoteExtensions.t) : AM unit :=
  let height : TestHeight.t := certificate.(CommitCertificate.height) in
  next ← lift (TestHeight.increment height);
  self ← get_state;
  _ ← put_state (AppState.set_vote_extensions self (<[next := extensions]> self.(AppState.vote_extensions)));
  proposal ← catch (read (fun db =>
    Db.get_undecided_proposal_by_value_id db certificate.(CommitCertificate.value_id)));
  match proposal with
  | inr (Some proposal) =>
      _ ← write (fun db => Db.insert_decided_value db
            (DecidedValue.mk proposal.(ProposedValue.value) certificate));
      let retain_height := TestHeight.new (TestHeight.as_u64 height - HISTORY_LENGTH)%N in
      _ ← write (fun db => Db.prune db height retain_height);
      self ← get_state;
      height ← lift (TestHeight.increment self.(AppState.current_height));
      put_state (AppState.set_current self height Round.Nil)
  | _ => fail "there is no proposal"
  end.

Definition get_previously_built_value (height : TestHeight.t) (round : Round.t)
    : AM (option LocallyProposedValue.t) :=
  proposals ← read (fun db => Db.get_undecided_proposals db height round);
  _ ← assert_m (length proposals <=? 1)%nat "There should be at most one proposal for a given height and round";
  mret ((fun p => LocallyProposedValue.new p.(ProposedValue.height) p.(ProposedValue.round) p.(ProposedValue.value))
          <$> head proposals).

Definition make_value (height : TestHeight.t) : AM TestValue :=
  r ← yield_ (AppCall.GenRange 100 100000);
  let value := match r with AppReply.Number n => n | _ => 100%N end in
  self ← get_state;
  let extensions := default VoteExtensions.default (self.(AppState.vote_extensions) !! height) in
  _ ← put_state (AppState.set_vote_extensions self (delete height self.(AppState.vote_extensions)));
  let messages : list bytes := List.map (fun e => e.2.(SignedMessage.message)) extensions.(VoteExtensions.extensions) in
  mret (mk_value value (concat messages)).

Definition assert_current (height : TestHeight.t) (round : Round.t) : AM unit :=
  self ← get_state;
  _ ← assert_m (bool_decide (height = self.(AppState.current_height))) "assertion `left == right` failed";
  assert_m (bool_decide (round = self.(AppState.current_round))) "assertion `left == right` failed".

Definition create_proposal (height : TestHeight.t) (round : Round.t) : AM ProposedValue.t :=
  _ ← assert_current height round;
  value ← make_value height;
  self ← get_state;
  let proposal := ProposedValue.mk height round Round.Nil self.(AppState.address) value Validity.Valid in
  _ ← store_undecided_proposal proposal;
  mret proposal.

Definition propose_value (height : TestHeight.t) (round : Round.t) : AM LocallyProposedValue.t :=
  _ ← assert_current height round;
  proposal ← create_proposal height round;
  mret (LocallyProposedValue.new proposal.(ProposedValue.height) proposal.(ProposedValue.round)
          proposal.(ProposedValue.value)).

(** ** The loop (app.rs) *)

(** Replies that nobody waits for are logged. *)
Definition reply (c : AppCall.t) : AM unit := _ ← yield_ c; mret tt.

Fixpoint publish_parts (msgs : list (StreamMessage.t Part)) : AM unit :=
  match msgs with
  | [] => mret tt
  | msg :: msgs =>
      r ← yield_ (AppCall.PublishProposalPart msg);
      if AppReply.ok r then publish_parts msgs else fail "channel closed"
  end.

Definition publish_proposal (value : LocallyProposedValue.t) (pol_round : Round.t) : AM unit :=
  self ← get_state;
  msgs ← lift (stream_proposal self value pol_round);
  publish_parts msgs.

Definition validator_set_m (height : TestHeight.t) : AM ValidatorSet :=
  self ← get_state; lift (get_validator_set self height).

Fixpoint process_pending (pending : list Parts) : AM unit :=
  match pending with
  | [] => mret tt
  | parts :: pending =>
      _ ← write (fun db => Db.remove_pending_proposal_parts db parts);
      self ← get_state;
      valid ← lift (validate_proposal_parts self parts);
      _ ← (match valid with
           | inr _ => value ← assemble_m parts; store_undecided_proposal value
           | inl _ => mret tt
           end);
      process_pending pending
  end.

Definition started_round (height : TestHeight.t) (round : Round.t) (proposer : AppAddr) : AM unit :=
  self ← get_state;
  _ ← put_state (AppState.set_proposer (AppState.set_current self height round) (Some proposer));
  pending ← read (fun db => Db.get_pending_proposal_parts db height round);
  _ ← process_pending pending;
  proposals ← read (fun db => Db.get_undecided_proposals db height round);
  reply (AppCall.ReplyProposals proposals).

Definition get_value (height : TestHeight.t) (round : Round.t) : AM unit :=
  previous ← get_previously_built_value height round;
  proposal ← (match previous with Some proposal => mret proposal | None => propose_value height round end);
  _ ← reply (AppCall.ReplyValue proposal);
  publish_proposal proposal Round.Nil.

Definition decided (certificate : CommitCertificate.t) (extensions : VoteExtensions.t) : AM unit :=
  result ← catch (commit certificate extensions);
  self ← get_state;
  validator_set ← validator_set_m self.(AppState.current_height);
  reply (AppCall.ReplyNext
    (match result with
     | inr _ => Next.Start (self.(AppState.current_height) : Height) validator_set
     | inl _ => Next.Restart (self.(AppState.current_height) : Height) validator_set
     end)).

Definition process_synced_value (height : TestHeight.t) (round : Round.t) (proposer : AppAddr) (value_bytes : bytes)
    : AM unit :=
  value ← lift (decode value_bytes);
  match value with
  | Some value =>
      let proposed_value := ProposedValue.mk height round Round.Nil proposer value Validity.Valid in
      _ ← store_undecided_proposal proposed_value;
      reply (AppCall.ReplySynced (Some proposed_value))
  | None => reply (AppCall.ReplySynced None)
  end.

(** [encode_value] unwraps the encoding. *)
Definition serve_decided_value (height : TestHeight.t) : AM unit :=
  decided_value ← get_decided_value height;
  raw ← (match decided_value with
         | Some decided_value =>
             encoded ← lift (encode decided_value.(DecidedValue.value));
             bytes ← lift (expect encoded "called `Result::unwrap()` on an `Err` value");
             mret (Some (RawDecidedValue.new bytes decided_value.(DecidedValue.certificate)))
         | None => mret None
         end);
  reply (AppCall.ReplyDecided raw).

Definition restream_proposal (height : TestHeight.t) (round valid_round : Round.t) (value_id : N) : AM unit :=
  let proposal_round := if bool_decide (valid_round = Round.Nil) then round else valid_round in
  proposal ← read (fun db => Db.get_undecided_proposal db height proposal_round value_id);
  match proposal with
  | Some proposal =>
      publish_proposal (LocallyProposedValue.new (height : Height) round proposal.(ProposedValue.value)) valid_round
  | None => mret tt
  end.

Definition consensus_ready : AM unit :=
  last ← read_height Db.max_decided_value_height;
  start_height ← (match last with
                  | Some height => lift (TestHeight.increment height)
                  | None => mret TestHeight.INITIAL
                  end);
  validator_set ← validator_set_m start_height;
  reply (AppCall.ReplyReady start_height validator_set).

Definition handle_msg (msg : AppMsg.t) : AM unit :=
  match msg with
  | AppMsg.ConsensusReady => consensus_ready
  | AppMsg.StartedRound height round proposer => started_round height round proposer
  | AppMsg.GetValue height round => get_value height round
  | AppMsg.ExtendVote => reply (AppCall.ReplyExtension None)
  | AppMsg.VerifyVoteExtension => reply AppCall.ReplyExtensionOk
  | AppMsg.ReceivedProposalPart from part =>
      proposed_value ← received_proposal_part from part; reply (AppCall.ReplyProposed proposed_value)
  | AppMsg.Decided certificate extensions => decided certificate extensions
  | AppMsg.ProcessSyncedValue height round proposer value_bytes =>
      process_synced_value height round proposer value_bytes
  | AppMsg.GetDecidedValue height => serve_decided_value height
  | AppMsg.GetHistoryMinHeight => height ← get_earliest_height; reply (AppCall.ReplyMinHeight height)
  | AppMsg.RestreamProposal height round valid_round value_id => restream_proposal height round valid_round value_id
  end.

(** The loop ends with the first error. *)
Fixpoint run (msgs : list AppMsg.t) : AM unit :=
  match msgs with [] => mret tt | msg :: msgs => _ ← handle_msg msg; run msgs end.
End app.
