(* ===== verification/ChannelAppFacts.v ===== *)
(** * The example application: proposals and decisions

    What a proposer streams is what the other nodes assemble; a value that was
    built is proposed again after a restart; a committed value is served, and
    kept for as long as the history goes back; the rotation of validators. *)

From S2P Require Import Prelude Types Bytes Context TestContext BTree Coroutine ConsensusTypes SyncTypes Streaming StreamingFacts EngineNetwork EngineConsensus ChannelApp.

(** ** Factoring *)

Definition product (l : list N) : N := foldr N.mul 1%N l.
Definition prime (p : N) : Prop := (2 <= p)%N /\ forall d, (2 <= d < p)%N -> (p mod d <> 0)%N.

(** Below the square of the largest 32-bit number, the square of the divisor does
    not overflow. *)
Definition FACTOR_BOUND : N := ((2 ^ 32 - 1) * (2 ^ 32 - 1))%N.

Lemma mod_mul_0 d i n : (2 <= d)%N -> (2 <= i)%N -> (n mod i = 0)%N -> ((n / i) mod d = 0)%N -> (n mod d = 0)%N.
Proof.
  intros Hd Hi Hn Hq. apply N.Lcm0.mod_divide in Hn as [q ->], Hq as [k Hk].
  rewrite N.div_mul in Hk by lia. subst q. rewrite <- N.mul_assoc, (N.mul_comm d i), N.mul_assoc.
  by apply N.Div0.mod_mul.
Qed.

Lemma smallest_divisor_prime i n :
  (2 <= i)%N -> (n mod i = 0)%N -> (forall d, (2 <= d < i)%N -> (n mod d <> 0)%N) -> prime i.
Proof.
  intros Hi Hn Hsmall. split; [done|]. intros d Hd Hid. apply (Hsmall d Hd).
  apply N.Lcm0.mod_divide in Hid as [k ->], Hn as [q ->]. rewrite N.mul_assoc. by apply N.Div0.mod_mul.
Qed.

Lemma rest_prime i n :
  (1 < n)%N -> (n < i * i)%N -> (forall d, (2 <= d < i)%N -> (n mod d <> 0)%N) -> prime n.
Proof.
  intros Hn Hi Hsmall. split; [lia|]. intros d Hd Hnd.
  destruct (N.lt_ge_cases d i) as [Hdi|Hdi]; [apply (Hsmall d); [lia|done]|].
  apply N.Lcm0.mod_divide in Hnd as [q Hq]. apply (Hsmall q); [nia|].
  rewrite Hq, N.mul_comm. by apply N.Div0.mod_mul.
Qed.

Lemma factor_loop_spec v fuel i n fs :
  (v < FACTOR_BOUND)%N -> (2 <= i)%N -> ((i - 1) * (i - 1) <= v)%N -> (1 <= n <= v)%N ->
  (forall d, (2 <= d < i)%N -> (n mod d <> 0)%N) -> (N.to_nat (n - i) < fuel)%nat ->
  exists gs, factor_loop fuel i n fs = Ret (fs ++ gs) /\ product gs = n /\ Forall prime gs.
Proof.
  intros Hv. revert i n fs. induction fuel as [|fuel IH]; intros i n fs Hi Hsq Hn Hsmall Hfuel; [lia|].
  unfold FACTOR_BOUND in Hv. assert (Hi32 : (i <= 2 ^ 32 - 1)%N) by nia.
  assert (Hmul : mul_u64 i i = Ret (i * i)%N) by (apply mul_u64_Ret; split; [done|]; unfold U64_MAX; nia).
  cbn [factor_loop]. rewrite Hmul. cbn [mbind outcome_bind]. destruct (N.leb_spec (i * i) n) as [Hle|Hgt].
  - destruct (N.eqb_spec (n mod i) 0) as [Hdiv|Hndiv].
    + assert (Hq : (n = i * (n / i))%N) by (pose proof (N.Div0.div_mod n i); lia).
      destruct (IH i (n / i)%N (fs ++ [i])) as (gs & -> & Hprod & Hgs); [done|done|nia| |nia|].
      { intros d Hd Hnd. apply (Hsmall d Hd). apply (mod_mul_0 d i); [lia|done|done|done]. }
      exists (i :: gs). rewrite <- app_assoc. split_and!; [done| |].
      * cbn. fold (product gs). rewrite Hprod. done.
      * apply Forall_cons. split; [by eapply smallest_divisor_prime|done].
    + assert (Hadd : add_u64 i 1 = Ret (i + 1)%N) by (apply add_u64_Ret; split; [done|]; unfold U64_MAX; lia).
      rewrite Hadd. cbn [mbind outcome_bind]. apply IH; [lia| |done| |nia].
      * replace (i + 1 - 1)%N with i by lia. lia.
      * intros d Hd. destruct (N.eq_dec d i) as [-> |Hne]; [done|]. apply Hsmall. lia.
  - destruct (N.ltb_spec 1 n) as [H1|H1].
    + exists [n]. split_and!; [done|cbn; lia|]. apply Forall_singleton. by eapply rest_prime.
    + exists []. rewrite app_nil_r. split_and!; [done|cbn; lia|done].
Qed.

Lemma factor_value_spec value :
  (1 <= value.(tv_value) < FACTOR_BOUND)%N ->
  exists fs, factor_value value = Ret fs /\ product fs = value.(tv_value) /\ Forall prime fs.
Proof.
  intros Hv. destruct (factor_loop_spec value.(tv_value) (S (N.to_nat value.(tv_value))) 2 value.(tv_value) [])
    as (gs & Heq & Hp & Hgs); [lia|lia|lia|lia|lia|lia|]. by exists gs.
Qed.

Lemma product_from_Ret acc l :
  Forall (fun x => (1 <= x)%N) l -> (acc * product l <= U64_MAX)%N -> product_from acc l = Ret (acc * product l)%N.
Proof.
  revert acc. induction l as [|x l IH]; intros acc Hl Hle; cbn in *; [by rewrite N.mul_1_r|].
  apply Forall_cons in Hl as [Hx Hl]. fold (product l) in *.
  assert (Hpos : (1 <= product l)%N).
  { clear -Hl. induction Hl as [|y l Hy Hl IH]; cbn; [lia|]. fold (product l). nia. }
  assert (Hm : mul_u64 acc x = Ret (acc * x)%N) by (apply mul_u64_Ret; split; [done|]; nia).
  rewrite Hm. cbn [mbind outcome_bind]. rewrite IH; [f_equal; lia|done|lia].
Qed.

Lemma prime_product_length l : Forall prime l -> (2 ^ N.of_nat (length l) <= product l)%N.
Proof.
  induction 1 as [|x l [Hx _] Hl IH]; [done|]. cbn [length product foldr]. fold (product l).
  rewrite Nat2N.inj_succ, N.pow_succ_r'. nia.
Qed.

(** ** The store *)

#[global] Instance height_key_order_laws : KeyOrderLaws TestHeight.t.
Proof.
  split; unfold key_ltb, height_key_order, TestHeight.ltb.
  - intros [h]. apply N.ltb_irrefl.
  - intros [h1] [h2] [h3]. cbn. rewrite !N.ltb_lt. lia.
  - intros [h1] [h2]. cbn. rewrite !N.ltb_lt. destruct (N.lt_trichotomy h1 h2) as [|[->|]]; auto.
Qed.

#[global] Instance round_key_order_laws : KeyOrderLaws Round.t.
Proof.
  split; unfold key_ltb, round_key_order.
  - intros r. apply Round.ltb_ge. unfold Round.le. lia.
  - intros a b c. rewrite !Round.ltb_lt. unfold Round.lt. lia.
  - intros a b. rewrite !Round.ltb_lt. unfold Round.lt. destruct a as [|a], b as [|b]; cbn; try lia; try (by auto).
    destruct (N.lt_trichotomy a b) as [|[->|]]; [left; lia|by auto|right; right; lia].
Qed.

Section app.
Context `{StoreCodecs}.
Abbreviation AM := (handler AppCall.t AppReply.t AppState.t string).
Abbreviation atrace := (trace AppCall.t AppReply.t).

(** Nothing that the application asks for fails. *)
Definition all_succeed (_ : atrace) (_ : AppCall.t) (r : AppReply.t) : Prop := AppReply.ok r = true.
Abbreviation awp := (wp False (fun _ _ => True) all_succeed).

Lemma awp_read {A} (f : Db.t -> outcome (option A)) a s Q t :
  f s.(AppState.store) = Ret (Some a) -> (forall r, Q (t ++ [(AppCall.Transaction, r)]) (s, inr a)) ->
  awp (read f s) Q t.
Proof.
  intros Hf HQ. unfold read. wp_step. apply wp_yield; [done|]. intros r Hr. cbn [fst snd]. wp_step. wp_step.
  rewrite Hr, Hf. apply wp_ret, HQ.
Qed.

Lemma awp_write (f : Db.t -> outcome (option Db.t)) db s Q t :
  f s.(AppState.store) = Ret (Some db) ->
  (forall r, Q (t ++ [(AppCall.Transaction, r)]) (AppState.set_store s db, inr tt)) ->
  awp (write f s) Q t.
Proof.
  intros Hf HQ. unfold write. wp_step. eapply awp_read; [done|]. intros r. cbn [fst snd]. wp_step. wp_step.
  by apply wp_put.
Qed.

Lemma awp_reply c s Q t : (forall r, Q (t ++ [(c, r)]) (s, inr tt)) -> awp (reply c s) Q t.
Proof. intros HQ. unfold reply. wp_step. apply wp_yield; [done|]. intros r _. cbn [fst snd]. by wp_step. Qed.

(** ** Streams of proposals *)

(** The proposals that were handed to consensus. *)
Definition proposed_in (c : AppCall.t) : option ProposedValue.t :=
  match c with AppCall.ReplyProposed v => v | _ => None end.
Definition proposed (t : atrace) : list ProposedValue.t := omap proposed_in t.*1.

Lemma proposed_app t t' : proposed (t ++ t') = proposed t ++ proposed t'.
Proof. unfold proposed. by rewrite fmap_app, omap_app. Qed.

(** The messages of a proposal, as they are received. *)
Definition received (p : PeerId) (ds : list (StreamMessage.t Part)) : list AppMsg.t :=
  AppMsg.ReceivedProposalPart p <$> ds.

Lemma number_parts_spec sid n parts :
  (n + N.of_nat (length parts) <= U64_MAX)%N ->
  exists M, number_parts sid n parts = Ret M /\ length M = S (length parts) /\ data M = parts /\
    forall i m, M !! i = Some m -> m = StreamMessage.new sid (n + N.of_nat i)
      (match parts !! i with Some part => StreamContent.Data part | None => StreamContent.Fin end).
Proof.
  revert n. induction parts as [|part parts IH]; intros n Hn; cbn [number_parts].
  { eexists. split_and!; [done|done|done|]. intros [|i] m Hm; [|done]. injection Hm as <-. by rewrite N.add_0_r. }
  cbn [length] in Hn. rewrite (proj2 (add_u64_Ret n 1 (n + 1)%N)) by (split; lia). cbn [mbind outcome_bind].
  destruct (IH (n + 1)%N) as (M & -> & Hlen & Hdata & HM); [lia|]. cbn [mbind outcome_bind].
  eexists. split_and!; [done|cbn; by rewrite Hlen| |].
  - unfold data in *. cbn. by rewrite Hdata.
  - intros [|i] m Hm; cbn in Hm |- *; [injection Hm as <-; by rewrite N.add_0_r|].
    rewrite (HM i m Hm). f_equal. lia.
Qed.

Lemma number_parts_stream sid init parts M :
  (N.of_nat (length parts) + 1 < U64_MAX)%N -> number_parts sid 0 (AppPart.Init init :: parts) = Ret M ->
  stream AppPart.as_init sid init M /\ data M = AppPart.Init init :: parts.
Proof.
  intros Hlen Hn. destruct (number_parts_spec sid 0 (AppPart.Init init :: parts)) as (M' & HM' & Hl & Hd & Hi); [cbn; lia|].
  rewrite HM' in Hn. injection Hn as <-. split; [|done]. split.
  - intros i m ->%Hi. done.
  - intros i m ->%Hi. done.
  - intros m ->%Hi. done.
  - intros i m Hm. pose proof (lookup_lt_Some _ _ _ Hm) as Hlt. rewrite Hl in Hlt |- *. rewrite (Hi i m Hm). unfold StreamMessage.is_fin.
    cbn [StreamMessage.content]. destruct ((AppPart.Init init :: parts) !! i) eqn:Hp.
    + apply lookup_lt_Some in Hp. cbn in *. split; [done|lia].
    + apply lookup_ge_None in Hp. cbn in *. split; [lia|done].
  - rewrite Hl. cbn. lia.
Qed.

(** The parts of a value with these factors. *)
Definition parts_of (init : ProposalInit.t TestHeight.t AppAddr) (fs : list N) : list Part :=
  AppPart.Init init :: (AppPart.Data <$> fs) ++
    [AppPart.Fin (app_sign (proposal_hash init.(ProposalInit.height) init.(ProposalInit.round) fs))].

Lemma parts_of_data init fs : omap AppPart.as_data (parts_of init fs) = fs.
Proof.
  unfold parts_of. cbn. rewrite omap_app. cbn. rewrite app_nil_r. induction fs as [|f fs IH]; [done|]. cbn. by rewrite IH.
Qed.

Lemma parts_of_fin init fs :
  find_map AppPart.as_fin (parts_of init fs) =
    Some (app_sign (proposal_hash init.(ProposalInit.height) init.(ProposalInit.round) fs)).
Proof.
  unfold parts_of. cbn. generalize (app_sign (proposal_hash (ProposalInit.height init) (ProposalInit.round init) fs)).
  intros sig. induction fs as [|f fs IH]; [done|]. exact IH.
Qed.

Lemma stream_proposal_spec sp (value : LocallyProposedValue.t) pol r :
  (1 <= tv_value value.(LocallyProposedValue.value) < FACTOR_BOUND)%N ->
  Round.as_u32 sp.(AppState.current_round) = Some r ->
  let init := ProposalInit.mk (value.(LocallyProposedValue.height) : TestHeight.t) value.(LocallyProposedValue.round) pol
                sp.(AppState.address) in
  exists sid M fs, stream_id sp = Ret sid /\ stream_proposal sp value pol = Ret M /\
    product fs = tv_value value.(LocallyProposedValue.value) /\ Forall prime fs /\
    stream AppPart.as_init sid init M /\ data M = parts_of init fs.
Proof.
  intros Hv Hr init. destruct (factor_value_spec _ Hv) as (fs & Hfs & Hprod & Hprime).
  unfold stream_id, stream_proposal, value_to_parts, stream_id. rewrite Hfs, Hr. cbn [mbind outcome_bind expect].
  set (sid := to_be_bytes 8 _ ++ _). fold init.
  pose proof (prime_product_length fs Hprime) as Hlen.
  assert (Hsmall : (N.of_nat (length fs) < 64)%N).
  { apply (N.pow_lt_mono_r_iff 2); [lia|]. unfold FACTOR_BOUND in Hv. lia. }
  destruct (number_parts_spec sid 0 (parts_of init fs)) as (M & HM & _).
  { unfold parts_of. cbn. rewrite length_app, length_fmap. cbn. unfold U64_MAX. lia. }
  destruct (fun Hl => number_parts_stream sid init _ M Hl HM) as [Hs Hd].
  { rewrite length_app, length_fmap. cbn. unfold U64_MAX. lia. }
  exists sid, M, fs. done.
Qed.

(** A node that receives messages hands over what the streams emit. *)
Lemma deliver_whole_cons (p : PeerId) (streams streams' : WholeStreamsMap.t Part TestHeight.t AppAddr) m ds outs :
  deliver_whole AppPart.as_init p streams (m :: ds) = Ret (streams', outs) ->
  exists streams1 out outs', WholeStreamsMap.insert AppPart.as_init streams p m = Ret (streams1, out) /\
    deliver_whole AppPart.as_init p streams1 ds = Ret (streams', outs') /\ outs = option_list out ++ outs'.
Proof.
  cbn [deliver_whole]. intros ([streams1 out] & Hi & Hd)%bind_Ret_inv.
  apply bind_Ret_inv in Hd as ([streams2 outs'] & Hd & Heq). injection Heq as <- <-. by exists streams1, out, outs'.
Qed.

Lemma awp_received_part (p : PeerId) m s streams out Q t :
  WholeStreamsMap.insert AppPart.as_init s.(AppState.streams_map) p m = Ret (streams, out) ->
  awp ((match out with None => mret None | Some parts => complete_proposal parts end)
         (AppState.set_streams_map s streams))
    (fun t' x => match x.2 with
                 | inr v => forall r, Q (t' ++ [(AppCall.ReplyProposed v, r)]) (x.1, inr tt)
                 | inl e => Q t' (x.1, inl e)
                 end) t ->
  awp (handle_msg (AppMsg.ReceivedProposalPart p m) s) Q t.
Proof.
  intros Hi Hq. cbn [handle_msg]. wp_step. unfold received_proposal_part. do 3 wp_step. eapply wp_lift_Ret; [exact Hi|].
  cbn [fst snd]. do 2 wp_step. eapply wp_mono; [exact Hq|]. intros t' [s' [e|v]]; cbn [fst snd]; [done|].
  intros HQ. by apply awp_reply.
Qed.

Lemma awp_received_quiet (p : PeerId) ds s streams Q t :
  deliver_whole AppPart.as_init p s.(AppState.streams_map) ds = Ret (streams, []) ->
  (forall t', proposed t' = proposed t -> Q t' (AppState.set_streams_map s streams, inr tt)) ->
  awp (run (received p ds) s) Q t.
Proof.
  revert s t. induction ds as [|m ds IH]; intros s t Hd HQ; cbn [received fmap list_fmap run].
  { injection Hd as <-. apply wp_ret. specialize (HQ t eq_refl). by destruct s. }
  apply deliver_whole_cons in Hd as (streams1 & out & outs & Hi & Hd & Ho). symmetry in Ho.
  apply app_eq_nil in Ho as [Ho ->]. destruct out; [done|]. wp_step. eapply awp_received_part; [exact Hi|].
  apply wp_ret. intros r. apply IH; [done|]. intros t' Ht'. apply HQ. rewrite Ht', proposed_app. cbn. by rewrite app_nil_r.
Qed.

Lemma awp_received_one (p : PeerId) ds s streams o s1 v Q t :
  deliver_whole AppPart.as_init p s.(AppState.streams_map) ds = Ret (streams, [o]) ->
  (forall m t, awp (complete_proposal o (AppState.set_streams_map s m))
     (fun t' x => proposed t' = proposed t /\ x = (AppState.set_streams_map s1 m, inr (Some v))) t) ->
  (forall t', proposed t' = proposed t ++ [v] -> Q t' (AppState.set_streams_map s1 streams, inr tt)) ->
  awp (run (received p ds) s) Q t.
Proof.
  intros Hd Hc. revert s t Hd Hc. induction ds as [|m ds IH]; intros s t Hd Hc HQ; [done|].
  apply deliver_whole_cons in Hd as (streams1 & out & outs & Hi & Hd & Ho). cbn [received fmap list_fmap run].
  wp_step. eapply awp_received_part; [exact Hi|]. destruct out as [o'|]; cbn in Ho.
  - injection Ho as <- <-. eapply wp_mono; [apply Hc|]. intros t' x [Ht' ->] r. cbn [fst snd].
    eapply awp_received_quiet; [exact Hd|]. intros t2 Ht2. apply HQ. by rewrite Ht2, proposed_app, Ht'.
  - subst outs. apply wp_ret. intros r. apply IH; [done|exact Hc|]. intros t' Ht'. apply HQ. rewrite Ht', proposed_app. cbn. by rewrite app_nil_r.
Qed.

(** *** From the proposer to another node *)

Section delivery.
Context (sp s : AppState.t) (value : LocallyProposedValue.t) (pol : Round.t).
Abbreviation height := (value.(LocallyProposedValue.height) : TestHeight.t).
Abbreviation round := value.(LocallyProposedValue.round).
Context (Hv : (1 <= tv_value value.(LocallyProposedValue.value) < FACTOR_BOUND)%N).
Context (Hheight : s.(AppState.current_height) = height).

(** The node takes the sender for the proposer, and checks signatures with a key
    that accepts the sender's. *)
Context (vset : ValidatorSet) (expected v : Validator).
Context (Hvset : get_validator_set s height = Ret vset).
Context (Hsel : select_proposer vset height round = Ret expected).
Context (Hexp : validator_address expected = sp.(AppState.address)).
Context (Hget : get_by_address vset sp.(AppState.address) = Some v).
Context (Hsig : forall hash, app_verify hash (app_sign hash) (public_key v) = true).

Definition announced : ProposedValue.t :=
  ProposedValue.mk height round pol (sp.(AppState.address) : Address)
    (test_value_new (tv_value value.(LocallyProposedValue.value)) : Value) Validity.Valid.

Abbreviation init := (ProposalInit.mk height round pol sp.(AppState.address)).

Lemma validate_parts fs m :
  validate_proposal_parts (AppState.set_streams_map s m) (ProposalParts.from_init init (parts_of init fs)) = Ret (inr tt).
Proof using Hvset Hsel Hexp Hget Hsig.
  unfold validate_proposal_parts, verify_proposal_parts_signature, parts_fin, parts_init. cbn [ProposalParts.from_init ProposalParts.height
    ProposalParts.round ProposalParts.proposer ProposalParts.parts ProposalInit.height ProposalInit.round ProposalInit.proposer].
  change (get_validator_set (AppState.set_streams_map s m)) with (get_validator_set s).
  rewrite Hvset. cbn [mbind outcome_bind]. rewrite Hsel. cbn [mbind outcome_bind]. rewrite Hexp, bool_decide_eq_true_2 by done.
  rewrite parts_of_fin. cbn [find_map parts_of AppPart.as_init].
  cbn [mbind outcome_bind]. rewrite Hget.
  change (AppPart.Init init :: _) with (parts_of init fs). rewrite parts_of_data. by rewrite Hsig.
Qed.

Lemma assemble_parts fs :
  product fs = tv_value value.(LocallyProposedValue.value) -> Forall prime fs ->
  assemble_value_from_parts (ProposalParts.from_init init (parts_of init fs)) = Ret (Some announced).
Proof using Hv.
  intros Hp Hfs. unfold assemble_value_from_parts. cbn [parts_init find_map AppPart.as_init ProposalParts.parts
    ProposalParts.from_init parts_of]. change (AppPart.Init init :: _) with (parts_of init fs). rewrite parts_of_data, product_from_Ret.
  - rewrite Hp, N.mul_1_l. done.
  - eapply Forall_impl; [exact Hfs|]. intros x [? _]. lia.
  - rewrite Hp. unfold FACTOR_BOUND in Hv. unfold U64_MAX. lia.
Qed.

Lemma awp_complete fs b m t :
  product fs = tv_value value.(LocallyProposedValue.value) -> Forall prime fs -> encode announced = Ret (Some b) ->
  awp (complete_proposal (ProposalParts.from_init init (parts_of init fs)) (AppState.set_streams_map s m))
    (fun t' x => proposed t' = proposed t /\
       x = (AppState.set_streams_map (AppState.set_store s
             (Db.mk s.(AppState.store).(Db.certificates) s.(AppState.store).(Db.decided_values)
               (BTreeMap.insert (height, (round, tv_value value.(LocallyProposedValue.value))) b
                  s.(AppState.store).(Db.undecided_proposals))
               s.(AppState.store).(Db.pending_proposal_parts))) m, inr (Some announced))) t.
Proof using Hv Hheight Hvset Hsel Hexp Hget Hsig.
  intros Hp Hfs Hb. unfold complete_proposal. do 2 wp_step.
  cbn [ProposalParts.height ProposalParts.from_init ProposalInit.height AppState.current_height AppState.set_streams_map].
  rewrite Hheight. unfold TestHeight.ltb. rewrite N.ltb_irrefl. wp_step. eapply wp_lift_Ret; [apply validate_parts|]. cbn [fst snd].
  wp_step. unfold assemble_m. wp_step. eapply wp_lift_Ret; [by apply assemble_parts|]. cbn [fst snd]. apply wp_ret. cbn [fst snd].
  wp_step. unfold store_undecided_proposal. eapply awp_write.
  { unfold Db.insert_undecided_proposal, Db.try. rewrite Hb. done. }
  intros r. cbn [fst snd]. apply wp_ret. split; [|done]. rewrite proposed_app. cbn. by rewrite app_nil_r.
Qed.

(** C16: A proposal reaches the other nodes. A proposer that streams a value
    between 1 and [FACTOR_BOUND] streams it without a panic; and a node at the
    same height that takes it for the proposer, that receives the messages of
    the stream in any order and any number of times, hands exactly one
    proposal to consensus, with the height, round, POL round, proposer and
    number of the original, and stores it as an undecided proposal. *)
Theorem proposal_delivered (r : N) (b : bytes) (p : PeerId)
  (Hr : Round.as_u32 sp.(AppState.current_round) = Some r) (Hb : encode announced = Ret (Some b)) :
  exists msgs, stream_proposal sp value pol = Ret msgs /\
    forall ds, (forall m, m ∈ ds <-> m ∈ msgs) ->
      (forall m, m ∈ msgs -> s.(AppState.streams_map) !! (p, m.(StreamMessage.stream_id)) = None) ->
    forall host, (forall c, AppReply.ok (host c) = true) ->
    exists t s', execute host (run (received p ds) s) = (t, Complete (s', inr tt)) /\ proposed t = [announced] /\
      BTreeMap.get (height, (round, tv_value value.(LocallyProposedValue.value)))
        s'.(AppState.store).(Db.undecided_proposals) = Some b.
Proof using Hv Hheight Hvset Hsel Hexp Hget Hsig.
  destruct (stream_proposal_spec sp value pol r Hv Hr) as (sid & M & fs & Hsid & HM & Hp & Hfs & Hst & Hd).
  exists M. split; [done|]. intros ds Hds Hnew host Hhost.
  destruct (lookup_lt_is_Some_2 M 0) as [m0 Hm0]; [pose proof (stream_len _ _ _ _ Hst); lia|].
  assert (Hm0' : m0 ∈ M) by (by eapply list_elem_of_lookup_2).
  destruct (deliver_whole_new AppPart.as_init sid init M ds p s.(AppState.streams_map)) as (streams & He & _).
  { done. }
  { apply Forall_forall. intros m. apply Hds. }
  { intros ->. apply Hds in Hm0'. by apply not_elem_of_nil in Hm0'. }
  { rewrite <- (stream_ids _ _ _ _ Hst 0 m0 Hm0). by apply Hnew. }
  assert (Hc : complete M (arrivals ds) = true).
  { apply complete_iff. intros m Hm. apply Hds in Hm. unfold arrivals. apply elem_of_list_to_set, list_elem_of_fmap. by exists m. }
  rewrite Hc, Hd in He. eapply (awp_received_one p ds s streams _ _ announced
    (fun t x => exists s', x = (s', inr tt) /\ proposed t = [announced] /\
       BTreeMap.get (height, (round, tv_value value.(LocallyProposedValue.value)))
         s'.(AppState.store).(Db.undecided_proposals) = Some b) []) in He; [|by intros; apply awp_complete|].
  - destruct (wp_execute _ _ host _ _ He) as (t & x & Hx & s' & -> & Ht & Hs'); [by intros; apply Hhost|]. by exists t, s'.
  - intros t' Ht'. eexists. split_and!; [done|done|]. apply BTreeMap.get_insert.
Qed.

End delivery.
(** ** Decisions *)

Section decision.
Context (s : AppState.t) (certificate : CommitCertificate.t) (extensions : VoteExtensions.t).
Abbreviation height := (certificate.(CommitCertificate.height) : TestHeight.t).
Abbreviation next := (TestHeight.new (TestHeight.inner height + 1)).

Context (Hheight : s.(AppState.current_height) = height) (Hmax : (TestHeight.inner height < U64_MAX)%N).
Context (vset : ValidatorSet) (Hvset : get_validator_set s next = Ret vset).

Lemma increment_next h : (TestHeight.inner h < U64_MAX)%N -> TestHeight.increment h = Ret (TestHeight.new (TestHeight.inner h + 1)).
Proof.
  intros Hh. unfold TestHeight.increment. apply fmap_Ret_inv. eexists. split; [|done]. apply add_u64_Ret. split; [done|lia].
Qed.

(** The store after a decision. *)
Definition committed_store (db : Db.t) (value_bytes certificate_bytes : bytes) : Db.t :=
  let retained k := negb (TestHeight.ltb k (TestHeight.new (TestHeight.as_u64 height - HISTORY_LENGTH))) in
  Db.mk (BTreeMap.retain (fun k _ => retained k) (BTreeMap.insert height certificate_bytes db.(Db.certificates)))
        (BTreeMap.retain (fun k _ => retained k) (BTreeMap.insert height value_bytes db.(Db.decided_values)))
        (BTreeMap.retain (fun k _ => TestHeight.ltb height k.1) db.(Db.undecided_proposals))
        (BTreeMap.retain (fun k _ => TestHeight.ltb height k.1) db.(Db.pending_proposal_parts)).

Lemma awp_commit proposal vb cb Q t :
  Db.get_undecided_proposal_by_value_id s.(AppState.store) certificate.(CommitCertificate.value_id) = Ret (Some (Some proposal)) ->
  encode (proposal.(ProposedValue.value) : TestValue) = Ret (Some vb) -> encode certificate = Ret (Some cb) ->
  (forall t', t'.*1 = t.*1 ++ [AppCall.Transaction; AppCall.Transaction; AppCall.Transaction] ->
    Q t' (AppState.set_current (AppState.set_store (AppState.set_vote_extensions s
            (<[next := extensions]> s.(AppState.vote_extensions))) (committed_store s.(AppState.store) vb cb))
            next Round.Nil, inr tt)) ->
  awp (commit certificate extensions s) Q t.
Proof using Hheight Hmax.
  intros Hp Hvb Hcb HQ. unfold commit. wp_step. eapply wp_lift_Ret; [by apply increment_next|]. cbn [fst snd]. do 5 wp_step. apply wp_catch.
  eapply awp_read; [exact Hp|]. intros r1. cbn [fst snd]. apply wp_bind. eapply awp_write.
  { unfold Db.insert_decided_value, Db.try. cbn [DecidedValue.value DecidedValue.certificate]. rewrite Hvb. cbn [mbind outcome_bind].
    rewrite Hcb. done. }
  intros r2. cbn [fst snd]. wp_step. eapply awp_write; [done|]. intros r3. cbn [fst snd]. do 3 wp_step.
  cbn [AppState.current_height AppState.set_store AppState.set_vote_extensions]. rewrite Hheight.
  eapply wp_lift_Ret; [by apply increment_next|]. cbn [fst snd]. wp_step. apply HQ.
  by rewrite !fmap_app, <- !app_assoc.
Qed.

Lemma committed_lookup db value vb cb h :
  encode value = Ret (Some vb) -> encode certificate = Ret (Some cb) ->
  codec_roundtrips value -> codec_roundtrips certificate ->
  Db.get_decided_value (committed_store db vb cb) h =
    if decide (h = height) then Ret (Some (Some (DecidedValue.mk value certificate)))
    else if (TestHeight.inner h + HISTORY_LENGTH <? TestHeight.inner height)%N then Ret (Some None)
    else Db.get_decided_value db h.
Proof.
  intros Hvb Hcb Hv Hc. unfold Db.get_decided_value, committed_store. cbn [Db.decided_values Db.certificates].
  rewrite !BTreeMap.get_retain_key. unfold TestHeight.ltb, TestHeight.as_u64. cbn [TestHeight.inner].
  destruct (decide (h = height)) as [->|Hne].
  - rewrite (proj2 (N.ltb_ge _ _)) by lia. cbn [negb]. rewrite !BTreeMap.get_insert. cbn [Db.decode_stored].
    rewrite (Hv _ Hvb). cbn [mbind outcome_bind]. by rewrite (Hc _ Hcb).
  - rewrite !BTreeMap.get_insert_ne by congruence.
    destruct (N.ltb_spec (TestHeight.inner h + HISTORY_LENGTH) (TestHeight.inner height)).
    + by rewrite (proj2 (N.ltb_lt _ _)) by lia.
    + by rewrite (proj2 (N.ltb_ge _ _)) by lia.
Qed.

(** What the application asks and replies: the lookup of the proposal, the two
    writes of the commit, the next height, and the served value. *)
Definition decision_calls (vb : bytes) : list AppCall.t :=
  [AppCall.Transaction; AppCall.Transaction; AppCall.Transaction; AppCall.ReplyNext (Next.Start (next : Height) vset);
   AppCall.Transaction; AppCall.ReplyDecided (Some (RawDecidedValue.new vb certificate))].

(** C18: A decided value is committed and served. When there is a proposal
    for the decided value, the application commits it and starts the next
    height with that height's validators; asked for the decided height, it
    replies with the value and the certificate. Its decided values are then the
    earlier ones, less those of more than [HISTORY_LENGTH] heights ago, and the
    new one; and it keeps no proposal for the decided height or an earlier
    one. *)
Theorem committed_value_served (proposal : ProposedValue.t) (vb cb : bytes) (host : AppCall.t -> AppReply.t)
  (Hp : Db.get_undecided_proposal_by_value_id s.(AppState.store) certificate.(CommitCertificate.value_id) =
          Ret (Some (Some proposal)))
  (Hvb : encode (proposal.(ProposedValue.value) : TestValue) = Ret (Some vb)) (Hcb : encode certificate = Ret (Some cb))
  (Hrv : codec_roundtrips (proposal.(ProposedValue.value) : TestValue)) (Hrc : codec_roundtrips certificate)
  (Hhost : forall c, AppReply.ok (host c) = true) :
  exists t s', execute host (run [AppMsg.Decided certificate extensions; AppMsg.GetDecidedValue height] s) =
      (t, Complete (s', inr tt)) /\
    t.*1 = decision_calls vb /\
    (forall h, Db.get_decided_value s'.(AppState.store) h =
       if decide (h = height) then Ret (Some (Some (DecidedValue.mk (proposal.(ProposedValue.value) : TestValue) certificate)))
       else if (TestHeight.inner h + HISTORY_LENGTH <? TestHeight.inner height)%N then Ret (Some None)
       else Db.get_decided_value s.(AppState.store) h) /\
    (forall k, BTreeMap.get k s'.(AppState.store).(Db.undecided_proposals) =
       if TestHeight.ltb height k.1 then BTreeMap.get k s.(AppState.store).(Db.undecided_proposals) else None).
Proof using Hheight Hmax Hvset.
  pose proof (fun h => committed_lookup s.(AppState.store) _ vb cb h Hvb Hcb Hrv Hrc) as Hget.
  destruct (wp_execute (fun _ _ => True) all_succeed host (run [AppMsg.Decided certificate extensions; AppMsg.GetDecidedValue height] s)
    (fun t x => x.2 = inr tt /\ AppState.store x.1 = committed_store s.(AppState.store) vb cb /\
       t.*1 = decision_calls vb))
    as (t & [s' r] & He & Hr & Hs & Ht); [|by intros; apply Hhost|].
  - cbn [run handle_msg]. wp_step. unfold decided. do 2 wp_step. eapply awp_commit; [done|done|done|]. intros t1 Ht1.
    cbn [fst snd]. do 2 wp_step. wp_step. unfold validator_set_m. do 2 wp_step.
    eapply wp_lift_Ret; [exact Hvset|]. cbn [fst snd]. apply awp_reply. intros r1. cbn [fst snd].
    wp_step. unfold serve_decided_value, get_decided_value. do 3 wp_step. eapply awp_read.
    { cbn [AppState.store AppState.set_current AppState.set_store]. rewrite Hget. by rewrite decide_True. }
    intros r2. cbn [fst snd]. do 2 wp_step. cbn [DecidedValue.value DecidedValue.certificate]. wp_step.
    eapply wp_lift_Ret; [exact Hvb|]. cbn [fst snd expect]. wp_step. eapply wp_lift_Ret; [done|]. cbn [fst snd]. wp_step.
    apply awp_reply. intros r3. cbn [fst snd]. apply wp_ret. split_and!; [done|done|]. by rewrite !fmap_app, Ht1.
  - cbn in Hr, Hs. subst r. exists t, s'. split_and!; [done|done| |].
    + intros h. rewrite Hs. apply Hget.
    + intros k. rewrite Hs. unfold committed_store. cbn [Db.undecided_proposals]. by rewrite BTreeMap.get_retain_key.
Qed.

End decision.
(** ** Values that were built *)

Lemma decode_round_insert (m : BTreeMap.t ProposalKey bytes) h r v b (x : ProposedValue.t) :
  Db.decode_round h r m = Ret (Some ([] : list ProposedValue.t)) -> decode b = Ret (Some x) ->
  Db.decode_round h r (BTreeMap.insert (h, (r, v)) b m) = Ret (Some [x]).
Proof.
  intros Hm Hb. unfold Db.try in *. induction m as [|[[h' [r' v']] b'] m IH]; cbn [BTreeMap.insert].
  { cbn. rewrite !bool_decide_eq_true_2 by done. cbn. unfold Db.try. by rewrite Hb. }
  assert (Hne : bool_decide (h' = h) && bool_decide (r' = r) = false /\
                Db.decode_round h r m = Ret (Some ([] : list ProposedValue.t))).
  { cbn [Db.decode_round] in Hm. destruct (bool_decide (h' = h) && bool_decide (r' = r)); [|done].
    unfold Db.try in Hm. apply bind_Ret_inv in Hm as ([y|] & _ & Hm); [|done].
    apply bind_Ret_inv in Hm as ([ys|] & _ & Hm); done. }
  destruct Hne as [Hne Hrest]. specialize (IH Hrest). case_match; [|destruct (decide ((h, (r, v)) = (h', (r', v')))) as [[= -> -> ->]|]].
  - cbn [Db.decode_round]. rewrite !bool_decide_eq_true_2 by done. cbn [andb]. unfold Db.try. rewrite Hb.
    cbn [mbind outcome_bind]. rewrite Hne, Hrest. done.
  - by rewrite !bool_decide_eq_true_2 in Hne by done.
  - cbn [Db.decode_round]. by rewrite Hne.
Qed.

Definition value_given (c : AppCall.t) : option LocallyProposedValue.t :=
  match c with AppCall.ReplyValue v => Some v | _ => None end.
Definition values_given (t : atrace) : list LocallyProposedValue.t := omap value_given t.*1.

Lemma values_given_app t t' : values_given (t ++ t') = values_given t ++ values_given t'.
Proof. unfold values_given. by rewrite fmap_app, omap_app. Qed.

(** Nothing fails, and the random numbers are in their range, bounds included. *)
Definition env_answers (t : atrace) (c : AppCall.t) (r : AppReply.t) : Prop :=
  AppReply.ok r = true /\
  match c with
  | AppCall.GenRange low high => (low <= high)%N -> exists n, r = AppReply.Number n /\ (low <= n <= high)%N
  | _ => True
  end.
Abbreviation ewp := (wp False (fun _ _ => True) env_answers).

Lemma ewp_awp {X} (m : prog AppCall.t AppReply.t X) Q t : awp m Q t -> ewp m Q t.
Proof. apply wp_answers_mono. by intros ? ? ? [Hr _]. Qed.

Lemma ewp_publish msgs s Q t :
  (forall t', values_given t' = values_given t -> Q t' (s, inr tt)) -> ewp (publish_parts msgs s) Q t.
Proof.
  revert t. induction msgs as [|m msgs IH]; intros t HQ; cbn [publish_parts]; [by apply wp_ret, HQ|].
  wp_step. apply wp_yield; [done|]. intros r [Hr _]. cbn [fst snd]. rewrite Hr. apply IH.
  intros t' Ht'. apply HQ. rewrite Ht', values_given_app. cbn. by rewrite app_nil_r.
Qed.

(** The end of [get_value]: the reply and the stream. *)
Lemma ewp_give s (v : LocallyProposedValue.t) r Q t :
  (1 <= tv_value v.(LocallyProposedValue.value) < FACTOR_BOUND)%N ->
  Round.as_u32 s.(AppState.current_round) = Some r ->
  (forall t', values_given t' = values_given t ++ [v] -> Q t' (s, inr tt)) ->
  ewp ((_ ← reply (AppCall.ReplyValue v); publish_proposal v Round.Nil) s) Q t.
Proof.
  intros Hv Hr HQ. wp_step. apply ewp_awp, awp_reply. intros r1. cbn [fst snd]. unfold publish_proposal. do 3 wp_step.
  destruct (stream_proposal_spec s v Round.Nil r Hv Hr) as (_ & M & _ & _ & HM & _).
  eapply wp_lift_Ret; [exact HM|]. cbn [fst snd]. apply ewp_publish. intros t' Ht'. apply HQ. by rewrite Ht', values_given_app.
Qed.

(** A value that was built and stored is given again. *)
Lemma ewp_get_value_again s h r rn (p : ProposedValue.t) Q t :
  Db.get_undecided_proposals s.(AppState.store) h r = Ret (Some [p]) ->
  (1 <= tv_value p.(ProposedValue.value) < FACTOR_BOUND)%N ->
  Round.as_u32 s.(AppState.current_round) = Some rn ->
  (forall t', values_given t' = values_given t ++
     [LocallyProposedValue.new p.(ProposedValue.height) p.(ProposedValue.round) p.(ProposedValue.value)] ->
     Q t' (s, inr tt)) ->
  ewp (get_value h r s) Q t.
Proof.
  intros Hp Hv Hr HQ. unfold get_value, get_previously_built_value. wp_step. wp_step. apply ewp_awp. eapply awp_read; [exact Hp|].
  intros r1. cbn [fst snd length]. wp_step. eapply wp_lift_Ret; [done|]. cbn [fst snd]. apply wp_ret, wp_bind, wp_ret.
  eapply ewp_give; [done|done|]. intros t' Ht'. apply HQ. rewrite Ht', values_given_app. cbn. by rewrite app_nil_r.
Qed.


(** The value that is built for a height, from a random number. *)
Definition built (s : AppState.t) (h : TestHeight.t) (r : Round.t) (n : N) : ProposedValue.t :=
  ProposedValue.mk (h : Height) r Round.Nil (s.(AppState.address) : Address)
    (mk_value n (concat (List.map (fun e => e.2.(SignedMessage.message))
       (default VoteExtensions.default (s.(AppState.vote_extensions) !! h)).(VoteExtensions.extensions))) : Value)
    Validity.Valid.
Definition built_value (s : AppState.t) (h : TestHeight.t) (r : Round.t) (n : N) : LocallyProposedValue.t :=
  LocallyProposedValue.new (h : Height) r (built s h r n).(ProposedValue.value).

(** The codec transmits the values that can be built. *)
Definition encodes_built (s : AppState.t) (h : TestHeight.t) (r : Round.t) : Prop :=
  forall n, (100 <= n <= 100000)%N -> exists b, encode (built s h r n) = Ret (Some b) /\ decode b = Ret (Some (built s h r n)).

Lemma ewp_get_value_new s h r rn Q t :
  encodes_built s h r ->
  Db.get_undecided_proposals s.(AppState.store) h r = Ret (Some []) ->
  s.(AppState.current_height) = h -> s.(AppState.current_round) = r -> Round.as_u32 r = Some rn ->
  (forall n t' s', (100 <= n <= 100000)%N ->
     Db.get_undecided_proposals s'.(AppState.store) h r = Ret (Some [built s h r n]) ->
     s'.(AppState.current_round) = r ->
     values_given t' = values_given t ++ [built_value s h r n] ->
     Q t' (s', inr tt)) ->
  ewp (get_value h r s) Q t.
Proof.
  intros Henc Hnone Hh Hr Hrn HQ. unfold get_value, get_previously_built_value. wp_step. wp_step. apply ewp_awp.
  eapply awp_read; [exact Hnone|]. intros r1. cbn [fst snd length]. wp_step. eapply wp_lift_Ret; [done|]. cbn [fst snd].
  apply wp_ret, wp_bind. cbn [head fmap option_fmap option_map]. unfold propose_value, create_proposal, assert_current.
  do 4 wp_step. rewrite Hh, Hr, !bool_decide_eq_true_2 by done. eapply wp_lift_Ret; [done|]. cbn [fst snd].
  eapply wp_lift_Ret; [done|]. cbn [fst snd]. do 5 wp_step. rewrite Hh, Hr, !bool_decide_eq_true_2 by done.
  eapply wp_lift_Ret; [done|]. cbn [fst snd]. eapply wp_lift_Ret; [done|]. cbn [fst snd]. unfold make_value.
  do 2 wp_step. apply wp_yield; [done|]. intros ? [_ Hg]. destruct (Hg ltac:(done)) as (n & -> & Hn). cbn [fst snd]. do 6 wp_step. wp_step.
  change (AppState.address (AppState.set_vote_extensions s _)) with (AppState.address s). fold (built s h r n).
  destruct (Henc n Hn) as (b & Hb & Hdec). apply wp_bind, ewp_awp. unfold store_undecided_proposal. eapply awp_write.
  { unfold Db.insert_undecided_proposal, Db.try. rewrite Hb. done. }
  intros r2. cbn [fst snd]. apply wp_ret. cbn [fst snd]. apply wp_ret. eapply (ewp_give _ _ rn).
  - cbn. unfold FACTOR_BOUND. lia.
  - cbn. by rewrite Hr.
  - intros t' Ht'. apply (HQ n); [done| |done|].
    + by apply decode_round_insert.
    + rewrite Ht', !values_given_app. cbn. by rewrite !app_nil_r.
Qed.

(** C17: A proposer does not propose two values in a round. When the
    application is asked for a value for the current height and round, and has
    none yet, it builds one, stores it, gives it to consensus and streams it;
    asked again, also after a restart that kept only the store, it gives the
    same value. Nothing fails, random numbers are in their range, and the codec
    gives back the values that the application can build. *)
Theorem proposed_value_stable (s : AppState.t) (h : TestHeight.t) (r : Round.t) (rn : N)
  (host host' : AppCall.t -> AppReply.t) (Henc : encodes_built s h r)
  (Hnone : Db.get_undecided_proposals s.(AppState.store) h r = Ret (Some []))
  (Hh : s.(AppState.current_height) = h) (Hr : s.(AppState.current_round) = r) (Hrn : Round.as_u32 r = Some rn)
  (Hhost : forall c, env_answers [] c (host c)) (Hhost' : forall c, env_answers [] c (host' c)) :
  exists t s' v, execute host (run [AppMsg.GetValue h r] s) = (t, Complete (s', inr tt)) /\ values_given t = [v] /\
    forall s2, s2.(AppState.store) = s'.(AppState.store) -> s2.(AppState.current_round) = r ->
    exists t2 s2', execute host' (run [AppMsg.GetValue h r] s2) = (t2, Complete (s2', inr tt)) /\ values_given t2 = [v].
Proof.
  destruct (wp_execute (fun _ _ => True) env_answers host (run [AppMsg.GetValue h r] s)
    (fun t x => x.2 = inr tt /\ exists n, (100 <= n <= 100000)%N /\
       Db.get_undecided_proposals (AppState.store x.1) h r = Ret (Some [built s h r n]) /\
       values_given t = [built_value s h r n]))
    as (t & [s' x] & He & Hx & n & Hn & Hs' & Ht); [|exact (fun _ => Hhost)|].
  - cbn [run handle_msg]. wp_step. eapply ewp_get_value_new; [done|done|done|done|done|]. intros n t' s' Hn Hs' _ Ht'.
    cbn [fst snd]. apply wp_ret. split; [done|]. by exists n.
  - cbn in Hx, Hs'. subst x. exists t, s'. eexists. split_and!; [done|done|]. intros s2 Hst Hr2. rewrite <- Hst in Hs'.
    destruct (wp_execute (fun _ _ => True) env_answers host' (run [AppMsg.GetValue h r] s2)
      (fun t x => x.2 = inr tt /\ values_given t = [built_value s h r n]))
      as (t2 & [s2' x] & He2 & Hx & Ht2); [|exact (fun _ => Hhost')|].
    + cbn [run handle_msg]. wp_step. eapply ewp_get_value_again; [exact Hs'|cbn; unfold FACTOR_BOUND; lia|by rewrite Hr2|].
      intros t' Ht'. cbn [fst snd]. by apply wp_ret.
    + cbn in Hx. subst x. by exists t2, s2'.
Qed.

(** ** A proposer that is not honest *)

Lemma product_from_overflow acc l :
  Forall (fun x => (1 <= x)%N) l -> (acc <= U64_MAX)%N -> (U64_MAX < acc * product l)%N ->
  exists e, product_from acc l = Panic e.
Proof.
  revert acc. induction l as [|x l IH]; intros acc Hl Hacc Hlt; cbn in *; [lia|]. apply Forall_cons in Hl as [Hx Hl].
  fold (product l) in Hlt. destruct (mul_u64 acc x) as [y|e] eqn:Hm; [|by eexists]. cbn [mbind outcome_bind].
  apply mul_u64_Ret in Hm as [-> Hle]. apply IH; [done|done|]. by rewrite <- N.mul_assoc.
Qed.

(** The proposer of a round can stop every node: the parts it signs pass
    the checks whatever their factors are, and factors whose product does not
    fit in 64 bits panic when the value is assembled. *)
Theorem hostile_factors_stop (s : AppState.t) (parts : Parts) (host : AppCall.t -> AppReply.t)
  (Hheight : parts.(ProposalParts.height) = s.(AppState.current_height))
  (Hvalid : validate_proposal_parts s parts = Ret (inr tt))
  (Hpos : Forall (fun x => (1 <= x)%N) (omap AppPart.as_data parts.(ProposalParts.parts)))
  (Hlarge : (U64_MAX < product (omap AppPart.as_data parts.(ProposalParts.parts)))%N) :
  exists e, (execute host (complete_proposal parts s)).2 = Panicked e.
Proof.
  assert (Hinit : exists i, parts_init parts = Some i).
  { unfold validate_proposal_parts in Hvalid. inv_ret. destruct (bool_decide _); [|by inv_ret]. inv_ret.
    unfold verify_proposal_parts_signature in *. destruct (parts_init parts) as [i|]; [by exists i|]. by simplify_eq. }
  destruct Hinit as [i Hi]. destruct (product_from_overflow 1 _ Hpos) as [e He]; [done|by rewrite N.mul_1_l|].
  exists e. unfold complete_proposal, assemble_m, mbind, handler_bind. cbn [get_state prog_bind fst snd]. rewrite Hheight.
  unfold TestHeight.ltb. rewrite N.ltb_irrefl. rewrite Hvalid. cbn [lift prog_bind fst snd].
  unfold assemble_value_from_parts. rewrite Hi, He. done.
Qed.

(** ** The rotation of validators *)

Lemma rotated_set (s : AppState.t) (h : TestHeight.t) :
  let l := t_validators s.(AppState.genesis) in
  let k := Nat.div (length l + 1) 2 in
  l <> [] -> exists vs, get_validator_set s h = Ret vs /\
    t_validators vs = take k (drop (N.to_nat (TestHeight.as_u64 h mod N.of_nat (length l))) (l ++ l)) /\
    length (t_validators vs) = k.
Proof.
  intros l k Hne. assert (Hl : 0 < length l) by (destruct l; [done|cbn; lia]).
  assert (Hk : N.to_nat ((N.of_nat (length l) + 1) / 2) = k) by (unfold k; rewrite N2Nat.inj_div; f_equal; lia).
  assert (Hmod : (TestHeight.as_u64 h mod N.of_nat (length l) < N.of_nat (length l))%N) by (apply N.mod_lt; lia).
  assert (Hlen : length (take k (drop (N.to_nat (TestHeight.as_u64 h mod N.of_nat (length l))) (l ++ l))) = k).
  { rewrite length_take, length_drop, length_app. assert (k <= length l) by (unfold k; apply Nat.Div0.div_le_upper_bound; lia). lia. }
  unfold get_validator_set. fold l. rewrite Hk. destruct (N.leb_spec (N.of_nat (length l)) ((N.of_nat (length l) + 1) / 2)).
  - exists s.(AppState.genesis). fold l. assert (Hone : length l = 1) by (pose proof (N.Div0.mul_div_le (N.of_nat (length l) + 1) 2); lia).
    assert (Hk1 : k = 1) by (unfold k; by rewrite Hone). rewrite Hone, Hk1. rewrite N.mod_1_r. cbn.
    destruct l as [|x [|y l']]; done.
  - unfold test_set_new. destruct (take k _) as [|x vs]; [exfalso; change (0 = k) in Hlen; assert (0 < k) by (apply Nat.div_str_pos; lia); lia|]. cbn [assert_that mbind outcome_bind].
    eexists. split_and!; [done|done|exact Hlen].
Qed.

(** The validators of a height are half of those of the genesis (rounded
    up), and each of these is a validator of one of any as many consecutive
    heights as there are. *)
Theorem validators_rotate (s : AppState.t) (Hne : t_validators s.(AppState.genesis) <> []) :
  (forall h, exists vs, get_validator_set s h = Ret vs /\ incl (t_validators vs) (t_validators s.(AppState.genesis)) /\
     N.of_nat (length (t_validators vs)) = ((N.of_nat (length (t_validators s.(AppState.genesis))) + 1) / 2)%N) /\
  (forall v h, In v (t_validators s.(AppState.genesis)) ->
     exists k vs, (k < N.of_nat (length (t_validators s.(AppState.genesis))))%N /\
       get_validator_set s (TestHeight.new (h + k)) = Ret vs /\ In v (t_validators vs)).
Proof.
  set (l := t_validators s.(AppState.genesis)) in *. split.
  - intros h. destruct (rotated_set s h Hne) as (vs & Hvs & Heq & Hlen). exists vs. split_and!; [done| |].
    + rewrite Heq. intros v [i Hi]%list_elem_of_In%list_elem_of_lookup. apply list_elem_of_In.
      rewrite lookup_take in Hi. case_decide; [|done]. rewrite lookup_drop in Hi.
      apply list_elem_of_lookup_2, elem_of_app in Hi. by destruct Hi.
    + rewrite Hlen. fold l. rewrite Nat2N.inj_div. f_equal. lia.
  - intros v h [i Hi]%list_elem_of_In%list_elem_of_lookup. fold l in Hi. pose proof (lookup_lt_Some _ _ _ Hi) as Hlt.
    set (n := N.of_nat (length l)). assert (Hmod : (h mod n < n)%N) by (apply N.mod_lt; lia).
    exists ((N.of_nat i + (n - h mod n)) mod n)%N.
    destruct (rotated_set s (TestHeight.new (h + (N.of_nat i + (n - h mod n)) mod n)) Hne) as (vs & Hvs & Heq & Hlen).
    exists vs. split_and!; [apply N.mod_lt; lia|done|]. apply list_elem_of_In. rewrite Heq. fold l. cbn [TestHeight.as_u64 TestHeight.inner].
    fold n. assert (Hm : ((h + (N.of_nat i + (n - h mod n)) mod n) mod n = N.of_nat i)%N).
    { rewrite N.Div0.add_mod_idemp_r. rewrite <- N.Div0.add_mod_idemp_l.
      replace (h mod n + (N.of_nat i + (n - h mod n)))%N with (N.of_nat i + 1 * n)%N by lia.
      rewrite N.Div0.mod_add. apply N.mod_small. lia. }
    rewrite Hm, Nat2N.id. apply (list_elem_of_lookup_2 _ 0). rewrite lookup_take_lt by (apply Nat.div_str_pos; lia).
    rewrite lookup_drop, Nat.add_0_r, lookup_app_l by done. done.
Qed.

End app.
