(* ===== verification/ChannelAppRuns.v ===== *)
(** * The example application: concrete runs

    Four validators, of whom one is the node that runs; encodings that can be
    read back, of every type that is stored; and the theorems of
    ChannelAppFacts.v at this instance. *)

From S2P Require Import Prelude Types Bytes Context TestContext BTree Coroutine ConsensusTypes SyncTypes Streaming StreamingFacts EngineNetwork EngineConsensus ChannelApp ChannelAppFacts.

(** ** Encodings *)

(** A countable type, one byte for each bit of its number. *)
Fixpoint bytes_of_pos (p : positive) : bytes :=
  match p with xH => [] | xO p => x00 :: bytes_of_pos p | xI p => x01 :: bytes_of_pos p end.
Fixpoint pos_of_bytes (b : bytes) : positive :=
  match b with [] => xH | x00 :: b => xO (pos_of_bytes b) | _ :: b => xI (pos_of_bytes b) end.

Definition countable_codec {A} `{Countable A} : Codec A := {|
  decode b := Ret (countable.decode (pos_of_bytes b));
  encode x := Ret (Some (bytes_of_pos (countable.encode x)));
|}.

Lemma pos_of_bytes_of_pos p : pos_of_bytes (bytes_of_pos p) = p.
Proof. induction p as [p IH|p IH|]; cbn; by rewrite ?IH. Qed.

Lemma countable_codec_roundtrips {A} `{Countable A} (x : A) : @codec_roundtrips _ countable_codec x.
Proof. intros b [= <-]. cbn. by rewrite pos_of_bytes_of_pos, decode_encode. Qed.

(** ** The instance *)

#[local] Instance example_env : AppEnv := {|
  AppAddr := N;
  AppPK := N;
  AppSig := bytes;
  AppAddr_leb := N.leb;
  address_bytes := to_be_bytes 8;
  keccak256 := fun b => b;
  app_sign := fun b => b;
  app_verify := fun hash signature _ => bool_decide (hash = signature);
|}.

#[local] Instance TestValue_countable : Countable TestValue.
Proof. refine (inj_countable' (fun v => (tv_value v, tv_extensions v)) (fun v => mk_value v.1 v.2) _). by intros []. Defined.
#[local] Instance Validity_countable : Countable Validity.t.
Proof.
  refine (inj_countable' Validity.to_bool (fun b => if b then Validity.Valid else Validity.Invalid) _). by intros [].
Defined.
#[local] Instance proposal_countable : Countable (ProposedValue.t (Ctx := app_context)).
Proof.
  refine (inj_countable'
    (fun p => (p.(ProposedValue.height) : TestHeight.t, p.(ProposedValue.round), p.(ProposedValue.valid_round),
               p.(ProposedValue.proposer) : N, p.(ProposedValue.value) : TestValue, p.(ProposedValue.validity)))
    (fun x => ProposedValue.mk (Ctx := app_context) x.1.1.1.1.1 x.1.1.1.1.2 x.1.1.1.2 x.1.1.2 x.1.2 x.2) _).
  by intros [].
Defined.
#[local] Instance signature_countable : Countable (CommitSignature.t (Ctx := app_context)).
Proof.
  refine (inj_countable' (fun c => (c.(CommitSignature.address) : N, c.(CommitSignature.signature) : bytes))
    (fun x => CommitSignature.new (Ctx := app_context) x.1 x.2) _). by intros [].
Defined.
#[local] Instance certificate_eq_dec : EqDecision (CommitCertificate.t (Ctx := app_context)).
Proof. solve_decision. Defined.
#[local] Instance certificate_countable : Countable (CommitCertificate.t (Ctx := app_context)).
Proof.
  refine (inj_countable'
    (fun c => (c.(CommitCertificate.height) : TestHeight.t, c.(CommitCertificate.round), c.(CommitCertificate.value_id) : N,
               c.(CommitCertificate.commit_signatures)))
    (fun x => CommitCertificate.mk (Ctx := app_context) x.1.1.1 x.1.1.2 x.1.2 x.2) _). by intros [].
Defined.
#[local] Instance init_eq_dec : EqDecision (ProposalInit.t TestHeight.t N).
Proof. solve_decision. Defined.
#[local] Instance init_countable : Countable (ProposalInit.t TestHeight.t N).
Proof.
  refine (inj_countable' (fun i => (ProposalInit.height i, ProposalInit.round i, ProposalInit.pol_round i, ProposalInit.proposer i))
    (fun x => ProposalInit.mk x.1.1.1 x.1.1.2 x.1.2 x.2) _). by intros [].
Defined.
#[local] Instance part_eq_dec : EqDecision (AppPart.t N bytes).
Proof. solve_decision. Defined.
#[local] Instance part_countable : Countable (AppPart.t N bytes).
Proof.
  refine (inj_countable'
    (fun p => match p with AppPart.Init i => inl (inl i) | AppPart.Data f => inl (inr f) | AppPart.Fin s => inr s end)
    (fun x => match x with inl (inl i) => AppPart.Init i | inl (inr f) => AppPart.Data f | inr s => AppPart.Fin s end) _).
  by intros [].
Defined.
#[local] Instance parts_eq_dec : EqDecision (ProposalParts.t (AppPart.t N bytes) TestHeight.t N).
Proof. solve_decision. Defined.
#[local] Instance parts_countable : Countable (ProposalParts.t (AppPart.t N bytes) TestHeight.t N).
Proof.
  refine (inj_countable' (fun p => (ProposalParts.height p, ProposalParts.round p, ProposalParts.proposer p, ProposalParts.parts p))
    (fun x => ProposalParts.mk x.1.1.1 x.1.1.2 x.1.2 x.2) _). by intros [].
Defined.

#[local] Instance example_codecs : StoreCodecs := {|
  value_codec := countable_codec;
  certificate_codec := countable_codec;
  proposal_codec := countable_codec;
  parts_codec := countable_codec;
|}.

Definition example_genesis : TestValidatorSet (Addr := N) (PK := N) :=
  mk_test_validator_set [mk_test_validator 1%N 1%N 1%N; mk_test_validator 2%N 2%N 1%N;
                         mk_test_validator 3%N 3%N 1%N; mk_test_validator 4%N 4%N 1%N].
Definition app_at (address : N) (store : Db.t) : AppState.t (H := example_env) :=
  AppState.new example_genesis address (TestHeight.new 5) store.
Definition all_ok (c : AppCall.t (H := example_env)) : AppReply.t :=
  match c with
  | AppCall.GenRange low high => AppReply.Number (if (low <=? 360)%N && (360 <=? high)%N then 360 else low)
  | _ => AppReply.Ok
  end.

Lemma all_ok_ok c : AppReply.ok (all_ok c) = true.
Proof. by destruct c. Qed.

(** ** A proposal for height 5 *)

Definition example_value : LocallyProposedValue.t (Ctx := app_context) :=
  LocallyProposedValue.new (Ctx := app_context) (TestHeight.new 5) (Round.Some 0) (test_value_new 360).

(** Validator 2 is the proposer; validator 1 receives the messages backwards. *)
Lemma proposal_delivered_witness :
  exists msgs, stream_proposal (app_at 2 Db.empty) example_value Round.Nil = Ret msgs /\
    exists t s', execute all_ok (run (received [] (reverse msgs)) (app_at 1 Db.empty)) = (t, Complete (s', inr tt)) /\
      proposed t = [announced (app_at 2 Db.empty) example_value Round.Nil].
Proof.
  destruct (proposal_delivered (app_at 2 Db.empty) (app_at 1 Db.empty) example_value Round.Nil ltac:(cbn; unfold FACTOR_BOUND; lia)
    ltac:(done) (mk_test_validator_set [mk_test_validator 2%N 2%N 1%N; mk_test_validator 3%N 3%N 1%N])
    (mk_test_validator 2%N 2%N 1%N) (mk_test_validator 2%N 2%N 1%N) ltac:(vm_refl) ltac:(vm_refl) ltac:(done) ltac:(vm_refl)
    ltac:(intros hash; by apply bool_decide_eq_true_2)
    0%N _ [] ltac:(done) ltac:(done)) as (msgs & Hmsgs & Hrun).
  exists msgs. split; [done|]. destruct (Hrun (reverse msgs)) with (host := all_ok) as (t & s' & He & Hp & _).
  - intros m. by rewrite elem_of_reverse.
  - done.
  - apply all_ok_ok.
  - by exists t, s'.
Defined.

(** ** A decision at height 5 *)

Definition example_proposal : ProposedValue.t (Ctx := app_context) :=
  ProposedValue.mk (Ctx := app_context) (TestHeight.new 5) (Round.Some 0) Round.Nil 2%N (test_value_new 360) Validity.Valid.
Definition example_certificate : CommitCertificate.t (Ctx := app_context) :=
  CommitCertificate.mk (Ctx := app_context) (TestHeight.new 5) (Round.Some 0) 360%N [].
Definition proposal_bytes : bytes := bytes_of_pos (countable.encode example_proposal).
Definition proposal_store : Db.t :=
  Db.mk [] [] [((TestHeight.new 5, (Round.Some 0, 360%N)), proposal_bytes)] [].

Lemma proposal_store_holds : Db.get_undecided_proposal_by_value_id proposal_store 360 = Ret (Some (Some example_proposal)).
Proof.
  unfold Db.get_undecided_proposal_by_value_id, proposal_store. cbn [Db.find_value_id Db.undecided_proposals]. unfold Db.try.
  assert (Hd : decode proposal_bytes = Ret (Some example_proposal)) by exact (countable_codec_roundtrips _ _ eq_refl).
  by rewrite Hd.
Qed.

Lemma committed_value_served_witness :
  exists t s' vb, execute all_ok (run [AppMsg.Decided example_certificate VoteExtensions.default;
                                  AppMsg.GetDecidedValue (TestHeight.new 5)] (app_at 1 proposal_store)) =
      (t, Complete (s', inr tt)) /\
    AppCall.ReplyDecided (Some (RawDecidedValue.new vb example_certificate)) ∈ t.*1 /\
    Db.undecided_proposals s'.(AppState.store) !! 0 = None.
Proof.
  destruct (committed_value_served (app_at 1 proposal_store) example_certificate VoteExtensions.default ltac:(done)
    ltac:(cbn; unfold U64_MAX; lia)
    (mk_test_validator_set [mk_test_validator 3%N 3%N 1%N; mk_test_validator 4%N 4%N 1%N]) ltac:(vm_refl)
    example_proposal _ _ all_ok proposal_store_holds ltac:(done) ltac:(done) (countable_codec_roundtrips _)
    (countable_codec_roundtrips _) all_ok_ok) as (t & s' & He & Ht & _ & Hund).
  exists t, s'. eexists. split_and!; [done| |].
  - rewrite Ht. unfold decision_calls. do 5 right. left.
  - destruct (Db.undecided_proposals (AppState.store s')) as [|[k v] m] eqn:Hm; [done|]. exfalso.
    specialize (Hund k). cbn [BTreeMap.get] in Hund. rewrite decide_True in Hund by done.
    destruct (TestHeight.ltb _ _) eqn:Hlt; [|done]. cbn in Hund. destruct (decide (k = _)) as [->|]; done.
Defined.

(** ** Values *)

Lemma all_ok_answers c : env_answers [] c (all_ok c).
Proof.
  split; [apply all_ok_ok|]. destruct c as [|low high| | | | | | | | | | |]; try done. intros Hlt. eexists. split; [done|].
  destruct (N.leb_spec low 360), (N.leb_spec 360 high); cbn; lia.
Qed.

Lemma proposed_value_stable_witness :
  exists t s' v, execute all_ok (run [AppMsg.GetValue (TestHeight.new 5) (Round.Some 0)] (app_at 2 Db.empty)) =
      (t, Complete (s', inr tt)) /\ values_given t = [v] /\
    exists t2 s2', execute all_ok (run [AppMsg.GetValue (TestHeight.new 5) (Round.Some 0)] (app_at 2 s'.(AppState.store))) =
      (t2, Complete (s2', inr tt)) /\ values_given t2 = [v].
Proof.
  destruct (proposed_value_stable) with (s := app_at 2 Db.empty) (h := TestHeight.new 5) (r := Round.Some 0) (rn := 0%N)
    (host := all_ok) (host' := all_ok) as (t & s' & v & He & Hv & Hagain).
  - intros n _. eexists. split; [done|]. by apply countable_codec_roundtrips.
  - done.
  - done.
  - done.
  - done.
  - apply all_ok_answers.
  - apply all_ok_answers.
  - exists t, s', v. split_and!; [done|done|]. by apply Hagain.
Defined.

(** ** Factors that are too large *)

Definition hostile_parts : Parts :=
  let init := ProposalInit.mk (TestHeight.new 5) (Round.Some 0) Round.Nil 2%N in
  ProposalParts.from_init init (parts_of init [4294967296; 4294967296]%N).

Lemma hostile_factors_stop_witness :
  exists e, (execute all_ok (complete_proposal hostile_parts (app_at 1 Db.empty))).2 = Panicked e.
Proof.
  apply hostile_factors_stop; [done|vm_refl|vm_compute; repeat constructor; discriminate|vm_compute; reflexivity].
Defined.

Lemma validators_rotate_witness :
  exists k vs, (k < 4)%N /\ get_validator_set (app_at 1 Db.empty) (TestHeight.new (5 + k)) = Ret vs /\
    In (mk_test_validator 1%N 1%N 1%N) (t_validators vs).
Proof. apply (validators_rotate (app_at 1 Db.empty)); [done|]. by left. Defined.
